(* ===== verification/_CoqProject ===== *)
-Q . S2P
Prelude.v
SequenceNumber.v
RangeSet.v
Buffer.v
SequenceSet.v
FieldTable.v
FieldTableCorrect.v
FieldTableSystem.v
FieldTableSafe.v
Frame.v
FrameStream.v
SessionState.v
TopicKey.v
TopicTree.v
Exchange.v
TopicExchange.v
ExchangeBase.v
DirectExchange.v
FanOutExchange.v
DirectCorrect.v
DirectSystem.v
Double.v
Properties.v
HeadersExchange.v
HeadersCorrect.v
HeadersSystem.v
HeadersSmall.v
SelectorValue.v
SelectorToken.v
SelectorExpression.v
SelectorParse.v
Selector.v
FlowLimit.v
Messages.v
IndexedDeque.v
MessageDeque.v
MessageMap.v
PriorityQueue.v
PriorityCorrect.v
PriorityReaders.v
PrioritySystem.v
Queue.v
QueueCorrect.v
QueueDispatch.v
QueueSystem.v
QueueFlow.v
MessageGroups.v
Transactions.v
TransactionsInv.v
TransactionsCorrect.v
TransactionSystem.v
Credit.v
SemanticState.v
Deliveries.v
DeliverySystem.v
CreditBounds.v
SessionRuns.v
AclModule.v
AclData.v
AclReader.v
AclMatch.v
AclInvariant.v
AclErrors.v
AclLoad.v
AclMeaning.v
AclCounters.v
Acl.v
AclSystem.v
AclRuns.v
