(* ===== verification/Prelude.v ===== *)
(** * A verification library for the Qpid C++ broker

    Qpid is an AMQP message broker.  Its core takes frames from a connection,
    tracks the commands of a session, routes messages through exchanges to
    queues, lets consumers filter them with selectors, and holds producers
    back when a queue grows.  This library models that core from the sources
    under src/qpid and proves what makes each part correct.

    ** Parts, files and sources (paths under src/qpid)

    - [Prelude]: machine integers ([uwrap], [swrap] and their widths), the
      exceptions, the state-and-exception monad [M], strings, shared tactics
      and lemmas.
    - [SequenceNumber], [RangeSet], [SequenceSet]: framing/SequenceNumber.h,
      RangeSet.h, framing/SequenceSet.cpp.  Serial numbers of 32 bits, sets of
      them as sorted vectors of ranges, and their encoding.  The template's
      demands on its element type are the classes [RangeElem] (operations) and
      [RangeEmb] (law); serial numbers satisfy the law inside a window.
    - [Buffer]: framing/Buffer.cpp.  The bounded byte buffer with its cursor.
      [emits] and [parses] specify writers and readers, and the class [Codec]
      is what an encodable type promises.
    - [Frame], [FrameStream]: framing/AMQFrame.cpp, AMQHeaderBody,
      AMQContentBody, FrameDecoder.cpp, ProtocolInitiation.cpp,
      ProtocolVersion.cpp.  The method and property structs are generated code
      outside the sources: the classes [Generated] and [GeneratedLaws], with
      the instance [Toy] as their model.
    - [SessionState]: SessionState.cpp, the replay buffer and idempotence
      barrier both peers of a session keep.
    - [TopicKey], [TopicTree], [Exchange], [TopicExchange]:
      broker/TopicKeyNode.h, Exchange.cpp, TopicExchange.cpp.  Keys and
      patterns as strings walked by indices, the tree of bindings, delivery,
      and the exchange with its route cache.  [Bindings] is what the tree asks
      of what it stores.
    - [Double], [SelectorValue], [SelectorToken], [SelectorExpression],
      [SelectorParse], [Selector]: broker/Selector*.cpp and sys/regex.h.  The
      JMS selector language from characters to the decision on a message.  The
      class [Platform] holds the functions of boost and POSIX the code calls,
      [PosixBRE] their documented behaviour, [SelectorEnv] and
      [TransparentEnv] what evaluation asks of the environment.
    - [ExchangeBase]: sys/CopyOnWriteArray.h, broker/Exchange.cpp.  What the
      other exchange types share; the class [ExchangeType] has the functions a
      type overrides, [Routing] and [Contract] what they promise.
    - [DirectExchange], [FanOutExchange], [HeadersExchange]: the files of these
      names under broker.  [DirectCorrect] and [HeadersCorrect] relate their
      bindings to abstract ones, [DirectSystem] and [HeadersSystem] discharge
      the contract, [HeadersSmall] has concrete runs.  [Properties]:
      amqp_0_10/Codecs.cpp and broker/amqp_0_10/MessageTransfer.cpp, from a
      message's headers to the calls of a property handler.
    - [FieldTable]: framing/FieldValue.h, FieldValue.cpp, List.cpp, Array.cpp,
      FieldTable.cpp.  Typed values and the tables of them, which are decoded
      when they are looked into.  [FieldTableCorrect] says what a table stands for,
      [FieldTableSystem] has any sequence of operations on tables,
      [FieldTableSafe] decoding of any bytes, equality and concrete runs.
    - [FlowLimit]: broker/QueueDepth.cpp, QueueFlowLimit.cpp.  Producer flow
      control on a queue, from its configuration to the messages it holds back.
    - [Messages]: broker/Message.cpp, QueueCursor.cpp, Messages.h, StringUtils.cpp.
      A message and a cursor; the class [Messages] is the interface of the
      containers and [MessagesLaws] what they promise.
    - [IndexedDeque], [MessageDeque], [MessageMap]: broker/IndexedDeque.h,
      MessageDeque.cpp, MessageMap.cpp.  The containers of ordinary and last
      value queues, instances of [MessagesLaws].
    - [PriorityQueue]: broker/PriorityQueue.cpp, Fairshare.cpp.  The container of
      priority queues, over the order in which levels are read ([Levels], with
      [LevelsLaws]).  [PriorityCorrect] has its invariant and the effect of each
      operation, [PriorityReaders] what a reader is given and the shares of the
      levels, [PrioritySystem] any sequence of operations.
    - [Queue]: broker/Queue.cpp, LossyQueue.cpp, QueueListeners.cpp,
      FifoDistributor.cpp.  The queue over any container, distributor and
      observers ([QueueEnv], with [QueueEnvLaws]); plugins, the clock and the
      store are in [Hooks].  [QueueCorrect] has its invariant and the effect of
      each operation, [QueueDispatch] the loops that walk over messages,
      [QueueSystem] the commands a queue is given and the flow limit as an
      observer, [QueueFlow] the queue the broker creates by default.
    - [MessageGroups]: broker/MessageGroupManager.cpp.  The groups of a queue's
      messages and the consumers that own them.
    - [Transactions]: broker/TxBuffer.cpp, DtxBuffer.cpp, DtxWorkRecord.cpp,
      DtxManager.cpp, DtxTimeout.cpp and the transactional part of
      SemanticState.cpp and SessionAdapter.cpp.  Buffers are shared by sessions
      and branches, so they live in a heap.  [TransactionsInv] has the invariant
      and the state changes that keep it, [TransactionsCorrect] the effect of
      each function, [TransactionSystem] any sequence of commands.
    - [Credit]: broker/Credit.cpp.  [SemanticState]: the subscriptions and
      deliveries of a session, broker/SemanticState.cpp, DeliveryRecord.cpp,
      TxAccept.cpp and DtxAck.cpp, with the message commands of
      SessionAdapter.cpp.  What a queue offers and whether its store throws is
      said by an [Environment].  [Deliveries] has the triples [owes] on the messages a
      session is answerable for, [DeliverySystem] any sequence of commands,
      [CreditBounds] the invariant on credit, [SessionRuns] concrete runs.
    - Access control: [AclModule] (broker/AclModule.h) has its words, [AclData]
      (acl/AclData.cpp, AclTopicMatch.h) the rules and the lookups, [AclReader]
      (acl/AclReader.cpp, AclValidator.cpp) the policy files, [AclCounters]
      (acl/AclConnectionCounter.cpp, AclResourceCounter.cpp) the connections and
      queues of users, [Acl] (acl/Acl.cpp) the module.  [AclMatch] says what
      wildcards, substitution and topic patterns match, [AclInvariant] what
      holds of the reader after every line and that reading ends, [AclErrors]
      what a file is refused for, [AclLoad] which rules a user gets,
      [AclMeaning] what a rule of the file means, [AclSystem] what the module
      guarantees over any sequence of calls, [AclRuns] a concrete policy.  The
      conversions of boost::lexical_cast are the class [LexicalCast].

    ** How code becomes definitions

    A member function that may throw is a function of the monad [M]: it returns
    the state as it is after the call, and a value or an exception, so what was
    written before a [throw] stays written.  A failed [assert] is
    [AssertionFailed], undefined behaviour is [UndefinedBehaviour], and both
    are outcomes the theorems exclude or state.  Unsigned arithmetic wraps at
    its width; signed overflow in selectors is undefined behaviour.  A mutex
    makes an operation atomic, so operations run one after the other.  Pointers
    into strings are indices, pointers into the tree are paths.  Log output is
    left out; calls on other objects that a theorem speaks about (deliveries,
    completions, management) are recorded in a list of events.

    ** What the theorems show

    Each theorem that states a property of the program carries a number C<n>.

    - Topic routing (those on [TopicExchange], [TopicTree] and [TopicKey]): the exchange refines a set of
      pairs of pattern and queue; matching, normalisation, binding, unbinding
      and the cache are exact.
    - Selectors (those on [Selector] and the files before it): the tokeniser
      and the parser accept exactly the grammar the code implements and always
      end, LIKE matches what it should, and the message environment's caches
      cannot be observed.
    - Sessions (those on [SessionState]): replay after a resume delivers
      every frame once; the invariant of the replay list under every operation.
    - Framing (those on [Buffer] and [FrameStream]): round trips,
      memory safety of the readers, and reassembly independent of how the byte
      stream was cut.
    - Sequence sets (those on [SequenceSet]): set operations at the
      wrap-around, canonical form, iteration, encoding.
    - Direct, fanout and headers exchanges ([direct_exchange_correct],
      [fanout_exchange_correct], [headers_exchange_correct],
      [alternate_exchange_exact]): after any sequence of operations a message
      goes to exactly the queues its key or headers select, once each, and to
      the alternate exchange's when there are none; the headers exchange under
      the hypotheses that a binding's arguments hold neither lists nor doubles and that a
      message has no header x-match and no 16 bit number above 255.
    - Field tables ([field_tables_correct], [received_table_safe],
      [table_eq_exact]): tables are maps whatever is
      decoded when; any bytes can be decoded safely.
    - Flow control ([flow_limit_correct]): the limit refines an automaton with
      hysteresis and holds nothing back on an empty queue.
    - Containers ([consumer_sees_all], [last_value]): a consumer's cursor misses
      no message; a last value queue holds the last message of each key.
    - Priority queues ([priority_order], [fairshare_fair]): a
      reader gets the first message of the highest level that has one for it;
      a fair share queue serves every level within the limits of the others.
    - Queues ([default_queue_correct], [dispatch_correct], [remove_correct],
      [ring_queue_correct]): the depth counters, the observers and the
      container agree after any sequence of operations; what dispatch, removal
      and ring queues do to the messages, whatever the container.  A call on the
      store, the alternate exchange or another exchange may throw
      ([call_throws] of [Hooks]); [thrown] says what holds of the queue then.
      The store must not throw when getNextMessage drops an expired message:
      [expired_message_uncounted] shows what happens otherwise.
    - Message groups ([groups_exclusive]): the manager refines a list of
      messages with their holders, and a group has one holder.
    - Transactions ([transactions_atomic], [branch_outcome]): no
      branch is half committed and what the statuses mean, under a hypothesis
      on the commands ([allowed]) that the code does not enforce: no session
      that works on a branch sends tx.commit or tx.rollback, and a thread that
      completes an operation reports an error with a text.
    - Subscriptions ([no_message_lost], [credit_respected], [flush_terminates]):
      a session settles what it holds and loses nothing, a consumer is not sent
      more than its credit.  The hypotheses on the client ([allowed], [fair])
      are stated with the theorems; the code does not enforce them.
    - Access control ([acl_decides], [acl_load_safe], [acl_counts_exact],
      [acl_queue_quota_kept], [quota_line_exact], [group_line_exact],
      [limits_need_a_file]): decisions are those of the policy the file states,
      loading puts all of a file in force or nothing, the counters are exact and
      the quotas of queues kept; without a file the limits of users are not.
    - Concrete runs: lemmas without a number show behaviour outside those
      hypotheses ([priority_flaws], [field_table_flaws],
      [binding_bookkeeping_flaws], [headers_exchange_flaws], [dtx_misuse],
      [session_misuse], [window_check_wraps], [amqp_property_order],
      [division_by_zero_undefined], [failed_creation_counted],
      [nameless_rule_undefined]).

    ** Bounds

    Loops that are not structural take a number of steps as an argument and
    return [Throw OutOfFuel] when it is used up.  [tokenise] gives its state
    machine 4 steps more than the text is long (every step but the first and
    the accepting ones consumes a character); [parse] gives the parser
    [8 * (n + 2)] for [n] characters (at most eight nested calls per token);
    [tokens] and [normalize] give their loops one step per character and one
    more (every pass moves the iterator or shortens the string); the header
    loop of [Frame] gets one step per byte.  The theorems [tokenise_exact],
    [parse_exact], [parse_total], [normalize_sound], [iterator_splits] and
    [frame_roundtrip] hold for those numbers, so they are enough.  The loops of
    [Queue] take any bound above the number of messages on the queue
    ([dispatch_correct], [remove_correct], [ring_queue_correct]).

    ** Not modelled

    The broker's configuration, timers, management (QMF) and logging; the
    stores (file and database I/O); the system layer (sockets, threads); the
    client library and the messaging API; AMQP 1.0 (an adapter of an external
    library); high availability; the options and management methods of access
    control; the XML exchange (an external query engine); generated protocol code.  Dynamic federation bridges appear
    as the operations an exchange sends to them.

    ** Order of the parts, and what is left

    The parts were modelled in this order: sequence sets, framing and sessions,
    topic exchanges, selectors, flow control, queues and their containers,
    message groups, transactions, deliveries and credit, priority queues, field
    tables, the other exchanges, access control.  What is left of the core is mostly the
    connection of these parts: the session and connection handlers and the
    registries of the broker, whose state is spread over generated dispatch
    code, threads and management objects, and the paged queue, over memory
    mapped files. *)

From Stdlib Require Import ZArith Lia Bool Ascii String.
From stdpp Require Export prelude sorting.
From stdpp Require Import strings.

#[export] Set Default Goal Selector "!".

(** ** Scope, hint database and tactics of the development *)

Declare Scope qpid_scope.
Delimit Scope qpid_scope with qpid.
#[global] Open Scope Z_scope.

Create HintDb qpid discriminated.

(** Case analysis on the boolean comparisons the C++ conditions become. *)
Ltac case_ltb :=
  match goal with
  | |- context [Z.ltb ?a ?b] => destruct (Z.ltb_spec a b)
  | |- context [Z.leb ?a ?b] => destruct (Z.leb_spec a b)
  | |- context [Z.eqb ?a ?b] => destruct (Z.eqb_spec a b)
  | H : context [Z.ltb ?a ?b] |- _ => destruct (Z.ltb_spec a b)
  | H : context [Z.leb ?a ?b] |- _ => destruct (Z.leb_spec a b)
  | H : context [Z.eqb ?a ?b] |- _ => destruct (Z.eqb_spec a b)
  end.

Ltac solve_ltb := repeat (case_ltb; simpl in *; try congruence); try lia.

(** Boolean hypotheses to propositions. *)
Ltac bool_hyps :=
  repeat match goal with
  | H : andb _ _ = true |- _ => apply andb_true_iff in H; destruct H
  | H : orb _ _ = false |- _ => apply orb_false_iff in H; destruct H
  | H : negb _ = true |- _ => apply negb_true_iff in H
  | H : negb _ = false |- _ => apply negb_false_iff in H
  | H : Z.ltb _ _ = true |- _ => apply Z.ltb_lt in H
  | H : Z.ltb _ _ = false |- _ => apply Z.ltb_ge in H
  | H : Z.leb _ _ = true |- _ => apply Z.leb_le in H
  | H : Z.leb _ _ = false |- _ => apply Z.leb_gt in H
  | H : Z.eqb _ _ = true |- _ => apply Z.eqb_eq in H
  | H : Z.eqb _ _ = false |- _ => apply Z.eqb_neq in H
  end.

(** ** Machine integers

    A [w]-bit unsigned integer is a [Z] in [0, 2^w); conversions to a width
    are written out with [uwrap] (unsigned) and [swrap] (two's complement). *)

Definition uwrap (w z : Z) : Z := z mod 2 ^ w.
Definition swrap (w z : Z) : Z := (z + 2 ^ (w - 1)) mod 2 ^ w - 2 ^ (w - 1).
Definition is_uint (w z : Z) : Prop := 0 <= z < 2 ^ w.

Abbreviation u8 := (uwrap 8).
Abbreviation u16 := (uwrap 16).
Abbreviation u32 := (uwrap 32).
Abbreviation u64 := (uwrap 64).
Abbreviation s8 := (swrap 8).
Abbreviation s16 := (swrap 16).
Abbreviation s32 := (swrap 32).
Abbreviation s64 := (swrap 64).

#[global] Instance is_uint_dec w z : Decision (is_uint w z).
Proof. unfold is_uint. apply _. Defined.

Lemma uwrap_range w z : 0 <= w -> is_uint w (uwrap w z).
Proof. intros. unfold is_uint, uwrap. apply Z.mod_pos_bound. lia. Qed.

Lemma uwrap_small w z : is_uint w z -> uwrap w z = z.
Proof. intros. unfold uwrap. apply Z.mod_small. assumption. Qed.

Lemma swrap_small w z : 0 < w -> - 2 ^ (w - 1) <= z < 2 ^ (w - 1) -> swrap w z = z.
Proof.
  intros Hw Hz. unfold swrap. rewrite Z.mod_small; [lia|].
  assert (2 ^ w = 2 * 2 ^ (w - 1)) by (rewrite <- Z.pow_succ_r by lia; f_equal; lia). lia.
Qed.

Lemma swrap_uwrap w z : 0 <= w -> swrap w (uwrap w z) = swrap w z.
Proof. intros. unfold swrap, uwrap. by rewrite Z.add_mod_idemp_l by lia. Qed.

(** bit-or of numbers with no common bit is addition *)
Lemma lor_add x y n : 0 <= n -> 0 <= y < 2 ^ n -> x mod 2 ^ n = 0 -> Z.lor x y = x + y.
Proof.
  intros Hn Hy Hx. symmetry. apply Z.add_nocarry_lor. apply Z.bits_inj'. intros i Hi.
  rewrite Z.land_spec, Z.bits_0. destruct (Z.lt_ge_cases i n) as [Hlt|Hge].
  - by rewrite <- (Z.mod_pow2_bits_low x n i), Hx, Z.bits_0 by lia.
  - destruct (Z.eq_dec y 0) as [->|]; [by rewrite Z.bits_0, andb_false_r|].
    assert (Z.log2 y < n) by (apply Z.log2_lt_pow2; lia).
    by rewrite (Z.bits_above_log2 y i), andb_false_r by lia.
Qed.

Lemma shiftl_mod z n m : 0 <= m <= n -> Z.shiftl z n mod 2 ^ m = 0.
Proof.
  intros H. rewrite Z.shiftl_mul_pow2 by lia.
  replace n with (n - m + m) by lia. rewrite Z.pow_add_r by lia.
  rewrite Z.mul_assoc. apply Z.mod_mul. lia.
Qed.

(** ** Exceptions and the state-and-exception monad

    A C++ member function that may throw is a function from the object's
    state to its state *after* the call together with the returned value or
    the exception: a [throw] in the middle of a function keeps what was
    written before it. *)

Inductive exn : Type :=
| OutOfBounds
| FramingErrorException
| IllegalArgumentException
| InvalidArgumentException
| ResourceLimitExceededException
| TokenException
| RangeError
| LogicError
| BadLexicalCast
| IllegalStateException
| SessionException
| ConnectionException
| NotImplementedException
| ResourceDeletedException
| ResourceLockedException
| NotAllowedException
| NotFoundException
| CommandInvalidException
| InternalErrorException
| DtxTimeoutException
(** what the message store threw *)
| StoreException
| Exception
(** a failed [assert]: the program stops *)
| AssertionFailed
(** not an exception of the program: the model met undefined behaviour *)
| UndefinedBehaviour
(** not an exception of the program: the model's bound on a recursion was too
    small; the theorems on the functions that have one exclude it *)
| OutOfFuel.

#[global] Instance exn_eq_dec : EqDecision exn.
Proof. solve_decision. Defined.

Inductive outcome (A : Type) : Type :=
| Ret (a : A)
| Throw (e : exn).
Arguments Ret {A} a.
Arguments Throw {A} e.

Definition M (S A : Type) : Type := S -> S * outcome A.

#[global] Instance M_ret S : MRet (M S) := fun A a s => (s, Ret a).
#[global] Instance M_bind S : MBind (M S) := fun A B f m s =>
  match m s with
  | (s', Ret a) => f a s'
  | (s', Throw e) => (s', Throw e)
  end.

Definition throw {S A} (e : exn) : M S A := fun s => (s, Throw e).
Definition get {S} : M S S := fun s => (s, Ret s).
Definition gets {S A} (f : S -> A) : M S A := fun s => (s, Ret (f s)).
Definition put {S} (s' : S) : M S unit := fun _ => (s', Ret tt).
Definition modify {S} (f : S -> S) : M S unit := fun s => (f s, Ret tt).
Definition lift_outcome {S A} (o : outcome A) : M S A := fun s => (s, o).
Definition guard_throw {S} (b : bool) (e : exn) : M S unit :=
  fun s => if b then (s, Throw e) else (s, Ret tt).

Section monad_laws.
Context {S A B C : Type}.

Lemma bind_Ret (m : M S A) (f : A -> M S B) s s' a :
  m s = (s', Ret a) -> (m ≫= f) s = f a s'.
Proof. intros H. unfold mbind, M_bind. by rewrite H. Qed.

Lemma bind_Throw (m : M S A) (f : A -> M S B) s s' e :
  m s = (s', Throw e) -> (m ≫= f) s = (s', Throw e).
Proof. intros H. unfold mbind, M_bind. by rewrite H. Qed.

Lemma bind_Ret_inv (m : M S A) (f : A -> M S B) s s'' b :
  (m ≫= f) s = (s'', Ret b) -> exists s' a, m s = (s', Ret a) /\ f a s' = (s'', Ret b).
Proof.
  unfold mbind, M_bind. destruct (m s) as [s' [a|e]] eqn:E; intros H.
  - eauto.
  - congruence.
Qed.
End monad_laws.

(** *** Calls that return

    [runs m s P]: called in [s], the function returns, and [P] holds of the
    state after the call and of the value returned. *)

Definition runs {S A} (m : M S A) (s : S) (P : S -> A -> Prop) : Prop :=
  match m s with (s', Ret a) => P s' a | (_, Throw _) => False end.

Section runs.
Context {S A B : Type}.

Lemma runs_ret (a : A) s (P : S -> A -> Prop) : P s a -> runs (mret a) s P.
Proof. done. Qed.

Lemma runs_bind (m : M S A) (f : A -> M S B) s P :
  runs m s (fun s' a => runs (f a) s' P) -> runs (m ≫= f) s P.
Proof. unfold runs, mbind, M_bind. by destruct (m s) as [s' [a|e]]. Qed.

Lemma runs_bind_inv (m : M S A) (f : A -> M S B) s P :
  runs (m ≫= f) s P -> runs m s (fun s' a => runs (f a) s' P).
Proof. unfold runs, mbind, M_bind. by destruct (m s) as [s' [a|e]]. Qed.

Lemma runs_mono (m : M S A) s (P Q : S -> A -> Prop) :
  runs m s P -> (forall s' a, P s' a -> Q s' a) -> runs m s Q.
Proof. unfold runs. destruct (m s) as [s' [a|e]]; auto. Qed.

Lemma runs_eq (m : M S A) s s' a (P : S -> A -> Prop) : m s = (s', Ret a) -> P s' a -> runs m s P.
Proof. unfold runs. by intros ->. Qed.

Lemma runs_inv (m : M S A) s P : runs m s P -> exists s' a, m s = (s', Ret a) /\ P s' a.
Proof. unfold runs. destruct (m s) as [s' [a|e]]; [eauto|done]. Qed.

Lemma runs_get s (P : S -> S -> Prop) : P s s -> runs get s P.
Proof. done. Qed.

Lemma runs_modify f s (P : S -> unit -> Prop) : P (f s) tt -> runs (modify f) s P.
Proof. done. Qed.
End runs.

(** Walk through the calls of a function up to one that needs a lemma. *)
Ltac mrun := repeat (cbn beta zeta iota; lazymatch goal with
  | |- runs (_ ≫= _) _ _ => apply runs_bind
  | |- runs get _ _ => apply runs_get
  | |- runs (modify _) _ _ => apply runs_modify
  | |- runs (mret _) _ _ => apply runs_ret
  end).

(** *** Calls that may throw

    [ends m s Q]: called in [s], the function leaves a state and an outcome that
    satisfy [Q]. *)

Definition ends {S A} (m : M S A) (s : S) (Q : S -> outcome A -> Prop) : Prop := Q (m s).1 (m s).2.

Section ends.
Context {S A B : Type}.
Implicit Types (Q : S -> outcome A -> Prop).

Lemma ends_bind (m : M S B) (f : B -> M S A) s Q :
  ends m s (fun s' o => match o with Ret a => ends (f a) s' Q | Throw e => Q s' (Throw e) end) -> ends (m ≫= f) s Q.
Proof. unfold ends, mbind, M_bind. by destruct (m s) as [s' [a|e]]. Qed.

Lemma ends_mono (m : M S A) s Q Q' : ends m s Q -> (forall s' o, Q s' o -> Q' s' o) -> ends m s Q'.
Proof. unfold ends. auto. Qed.

Lemma ends_eq (m : M S A) s s' o Q : m s = (s', o) -> Q s' o -> ends m s Q.
Proof. unfold ends. by intros ->. Qed.

Lemma ends_guard b e s (Q : S -> outcome unit -> Prop) :
  (b = true -> Q s (Throw e)) -> (b = false -> Q s (Ret tt)) -> ends (guard_throw b e) s Q.
Proof. unfold ends, guard_throw. destruct b; auto. Qed.
End ends.

(** runs the calls that are equations *)
Ltac estep := repeat (cbn beta zeta iota; lazymatch goal with
  | |- ends (_ ≫= _) _ _ => apply ends_bind
  | |- ends get _ _ => red; cbn [fst snd get]
  | |- ends (modify _) _ _ => red; cbn [fst snd modify]
  | |- ends (mret _) _ _ => red; cbn [fst snd mret M_ret]
  | |- ends (throw _) _ _ => red; cbn [fst snd throw]
  end).

(** Run one monadic step of a goal or hypothesis. *)
Ltac mstep := unfold mbind, M_bind, mret, M_ret; cbn beta iota.

(** ** Strings

    A [std::string] is the list of its characters. *)

Abbreviation str := (list ascii).
Definition s_ (s : string) : str := list_ascii_of_string s.
Arguments s_ s%_string_scope.

(** ** Lists *)

Section lists.
Context {A : Type}.

(** [std::lower_bound] on a partitioned sequence: the position of the first
    element for which the predicate "is before the key" fails, given as the
    two parts of the sequence. *)
Fixpoint lower_bound (before : A -> bool) (l : list A) : list A * list A :=
  match l with
  | [] => ([], [])
  | x :: l' =>
      if before x then let '(pre, post) := lower_bound before l' in (x :: pre, post)
      else ([], l)
  end.

Lemma lower_bound_app before l pre post :
  lower_bound before l = (pre, post) -> l = pre ++ post.
Proof.
  revert pre post. induction l as [|x l IH]; simpl; intros pre post H.
  - by simplify_eq.
  - destruct (before x); [|by simplify_eq].
    destruct (lower_bound before l) as [p q]. simplify_eq. simpl. f_equal. auto.
Qed.

Lemma lower_bound_pre before l pre post :
  lower_bound before l = (pre, post) -> Forall (fun x => before x = true) pre.
Proof.
  revert pre post. induction l as [|x l IH]; simpl; intros pre post H.
  - simplify_eq. constructor.
  - destruct (before x) eqn:Hx; [|simplify_eq; constructor].
    destruct (lower_bound before l) as [p q]. simplify_eq. constructor; eauto.
Qed.

Lemma lower_bound_post before l pre x post :
  lower_bound before l = (pre, x :: post) -> before x = false.
Proof.
  revert pre post. induction l as [|y l IH]; simpl; intros pre post H; [by simplify_eq|].
  destruct (before y) eqn:Hy; [|by simplify_eq].
  destruct (lower_bound before l) as [p q]. simplify_eq. eauto.
Qed.
End lists.

Lemma StronglySorted_seqZ m n : StronglySorted Z.lt (seqZ m n).
Proof.
  assert (H : forall k m, StronglySorted Z.lt (seqZ m (Z.of_nat k))).
  { intros k. induction k as [|k IH]; intros m'; [constructor|].
    rewrite seqZ_cons by lia. replace (Z.pred (Z.of_nat (S k))) with (Z.of_nat k) by lia.
    constructor; [apply IH|]. apply Forall_forall. intros x Hx. apply elem_of_seqZ in Hx. lia. }
  destruct (Z.le_gt_cases n 0).
  - rewrite seqZ_nil by lia. constructor.
  - rewrite <- (Z2Nat.id n) by lia. apply H.
Qed.

(** Sortedness transports along a map that reflects the order on the elements. *)
Lemma StronglySorted_fmap_inv {A B} (f : A -> B) (R : relation A) (S : relation B) (P : A -> Prop) l :
  (forall a b, P a -> P b -> S (f a) (f b) -> R a b) ->
  Forall P l -> StronglySorted S (map f l) -> StronglySorted R l.
Proof.
  intros HR. induction 1 as [|a l Ha Hl IH]; intros Hs; [constructor|].
  cbn [map] in Hs. apply StronglySorted_inv in Hs as [Hs Hall]. constructor; [by apply IH|].
  apply (List.Forall_map f) in Hall. rewrite Forall_forall in Hl. rewrite Forall_forall in Hall.
  apply Forall_forall. intros x Hx. apply HR; [done|by apply Hl|by apply (Hall x)].
Qed.

Lemma StronglySorted_lt_NoDup l : StronglySorted Z.lt l -> NoDup l.
Proof.
  induction 1 as [|x l Hs IH Hall]; constructor; [|done].
  intros Hx. rewrite Forall_forall in Hall. specialize (Hall x Hx). lia.
Qed.

Lemma sorted_key_inj {A} (f : A -> Z) l x y :
  StronglySorted Z.lt (map f l) -> x ∈ l -> y ∈ l -> f x = f y -> x = y.
Proof.
  intros Hs%StronglySorted_lt_NoDup [i Hi]%list_elem_of_lookup_1 [j Hj]%list_elem_of_lookup_1 Heq.
  assert (i = j) as <-; [|congruence].
  apply (NoDup_lookup (map f l) i j (f x) Hs); rewrite list_lookup_fmap; [by rewrite Hi|].
  rewrite Hj. cbn. by f_equal.
Qed.

Lemma StronglySorted_sublist {A} (R : relation A) l1 l2 :
  l1 `sublist_of` l2 -> StronglySorted R l2 -> StronglySorted R l1.
Proof.
  induction 1 as [|x l1 l2 Hs IH|x l1 l2 Hs IH]; intros H; [constructor| |].
  - apply StronglySorted_inv in H as [H Hx]. constructor; [by apply IH|].
    rewrite Forall_forall in Hx |- *. intros y Hy. apply Hx. by eapply elem_of_sublist.
  - apply StronglySorted_inv in H as [H _]. by apply IH.
Qed.

Lemma exists_last_or_nil {A} (l : list A) : l = [] \/ exists l' x, l = l' ++ [x].
Proof. destruct l as [|x l'] using rev_ind; eauto. Qed.

Lemma elem_of_concat_map {A B} (f : A -> list B) l x :
  x ∈ concat (map f l) <-> exists a, a ∈ l /\ x ∈ f a.
Proof.
  induction l as [|a l IH]; simpl.
  - rewrite elem_of_nil. split; [done|]. intros (a & H & _). by apply elem_of_nil in H.
  - rewrite elem_of_app, IH. setoid_rewrite elem_of_cons. naive_solver.
Qed.

Section filters.
Context {A : Type} (P Q : A -> Prop) `{!forall x, Decision (P x), !forall x, Decision (Q x)}.

Lemma filter_all (l : list A) : Forall P l -> filter P l = l.
Proof. induction 1; [done|]. rewrite filter_cons_True by done. by f_equal. Qed.

Lemma filter_none (l : list A) : Forall (fun x => ~ P x) l -> filter P l = [].
Proof. induction 1; [done|]. by rewrite filter_cons_False. Qed.

Lemma filter_ext_in (l : list A) : (forall x, x ∈ l -> P x <-> Q x) -> filter P l = filter Q l.
Proof.
  induction l as [|x l IH]; intros Hpq; [done|]. rewrite !filter_cons.
  rewrite IH by (intros; apply Hpq; by right). specialize (Hpq x ltac:(by left)).
  destruct (decide (P x)), (decide (Q x)); naive_solver.
Qed.

Lemma filter_comm (l : list A) : filter P (filter Q l) = filter Q (filter P l).
Proof. rewrite !list_filter_filter. apply list_filter_iff. naive_solver. Qed.
End filters.
