(* ===== verification/SequenceNumber.v ===== *)
(** * Sequence numbers (src/qpid/framing/SequenceNumber.h)

    The 32-bit serial numbers that identify commands of a session.  The class
    keeps an [int32_t]; the model keeps the same 32 bits as the unsigned value
    [getValue()] returns.  Comparison is by the sign of the wrapped difference,
    so it is an order only inside a window of 2^31 numbers: [window_lt] says
    what it computes there, [lt_trichotomy] what it is on all pairs. *)

From S2P Require Import Prelude.
Local Open Scope Z_scope.

Module SequenceNumber.

(** the 32 bits of [value], as [getValue] returns them *)
Abbreviation t := Z.
Definition wf (a : t) : Prop := is_uint 32 a.

Definition mk (v : Z) : t := u32 v.
Definition incr (a : t) : t := u32 (a + 1).
Definition decr (a : t) : t := u32 (a - 1).
Definition eqb (a b : t) : bool := a =? b.
Definition ltb (a b : t) : bool := s32 (a - b) <? 0.
Definition diff (a b : t) : Z := s32 (u32 (a - b)).
Definition add (a : t) (n : Z) : t := mk (u32 (a + n)).
Definition sub (a : t) (n : Z) : t := mk (u32 (a - n)).

(** the operators [boost::less_than_comparable] derives *)
Definition gtb (a b : t) : bool := ltb b a.
Definition leb (a b : t) : bool := negb (ltb b a).
Definition geb (a b : t) : bool := negb (ltb a b).

(** [std::min] and [std::max] *)
Definition min (a b : t) : t := if ltb b a then b else a.
Definition max (a b : t) : t := if ltb a b then b else a.

(** ** Windows

    [off base a] is the distance from [base] to [a] going up with wrap-around;
    numbers at distance below 2^31 form the window of [base]. *)

Definition off (base a : t) : Z := u32 (a - base).
Definition in_window (base a : t) : Prop := wf a /\ off base a < 2 ^ 31.

#[global] Instance in_window_dec base a : Decision (in_window base a).
Proof. unfold in_window, wf. apply _. Defined.

Lemma incr_wf a : wf (incr a).
Proof. by apply uwrap_range. Qed.
Lemma decr_wf a : wf (decr a).
Proof. by apply uwrap_range. Qed.
#[export] Hint Resolve incr_wf decr_wf : qpid.

Lemma off_range base a : 0 <= off base a < 2 ^ 32.
Proof. apply uwrap_range. lia. Qed.

Lemma off_refl base : off base base = 0.
Proof. unfold off. by rewrite Z.sub_diag. Qed.

Lemma off_inj base a b : wf a -> wf b -> off base a = off base b -> a = b.
Proof.
  unfold wf, is_uint, off, uwrap. change (2 ^ 32) with 4294967296. intros.
  Z.to_euclidean_division_equations. lia.
Qed.

Lemma off_spec base a : exists k, off base a = a - base + k * 2 ^ 32.
Proof.
  unfold off, uwrap. exists (- ((a - base) / 2 ^ 32)).
  pose proof (Z.div_mod (a - base) (2 ^ 32)). lia.
Qed.

Lemma s32_off_diff base a b :
  off base a < 2 ^ 31 -> off base b < 2 ^ 31 -> s32 (a - b) = off base a - off base b.
Proof.
  intros Ha Hb. pose proof (off_range base a). pose proof (off_range base b).
  destruct (off_spec base a) as [k Hk]. destruct (off_spec base b) as [k' Hk'].
  unfold swrap. change (2 ^ (32 - 1)) with (2 ^ 31).
  replace (a - b + 2 ^ 31) with (off base a - off base b + 2 ^ 31 + (k' - k) * 2 ^ 32) by lia.
  rewrite Z.mod_add by lia. rewrite Z.mod_small by lia. lia.
Qed.

(** Inside a window the serial comparison is comparison of distances. *)
Lemma window_lt base a b :
  in_window base a -> in_window base b -> ltb a b = (off base a <? off base b).
Proof.
  intros [_ Ha] [_ Hb]. unfold ltb. rewrite (s32_off_diff base) by assumption. solve_ltb.
Qed.

Lemma window_eq base a b :
  in_window base a -> in_window base b -> eqb a b = (off base a =? off base b).
Proof.
  intros [Ha _] [Hb _]. unfold eqb.
  destruct (Z.eqb_spec a b) as [->|Hne]; [symmetry; apply Z.eqb_refl|].
  symmetry. apply Z.eqb_neq. intros E. apply Hne. by eapply off_inj.
Qed.

Lemma window_diff base a b :
  in_window base a -> in_window base b -> diff a b = off base a - off base b.
Proof.
  intros [_ Ha] [_ Hb]. unfold diff. rewrite swrap_uwrap by lia. by apply s32_off_diff.
Qed.

Lemma window_incr base a :
  in_window base a -> off base (incr a) = off base a + 1.
Proof.
  intros [_ Ha]. pose proof (off_range base a). unfold incr, off, uwrap in *.
  rewrite Zminus_mod_idemp_l. replace (a + 1 - base) with (a - base + 1) by lia.
  rewrite <- Zplus_mod_idemp_l. apply Z.mod_small. lia.
Qed.

Lemma window_decr base a :
  0 < off base a -> off base (decr a) = off base a - 1.
Proof.
  intros Ha. pose proof (off_range base a). unfold decr, off, uwrap in *.
  rewrite Zminus_mod_idemp_l. replace (a - 1 - base) with (a - base - 1) by lia.
  rewrite <- Zminus_mod_idemp_l. apply Z.mod_small. lia.
Qed.

Lemma incr_decr a : wf a -> decr (incr a) = a.
Proof.
  unfold wf, is_uint, decr, incr, uwrap. change (2 ^ 32) with 4294967296. intros.
  Z.to_euclidean_division_equations. lia.
Qed.

Lemma decr_incr a : wf a -> incr (decr a) = a.
Proof.
  unfold wf, is_uint, decr, incr, uwrap. change (2 ^ 32) with 4294967296. intros.
  Z.to_euclidean_division_equations. lia.
Qed.

Lemma window_min_max base a b :
  in_window base a -> in_window base b -> off base a <= off base b ->
  min a b = a /\ max a b = b /\ min b a = a /\ max b a = b.
Proof.
  intros Ha Hb Hle. unfold min, max. rewrite !(window_lt base) by done.
  destruct (Z.ltb_spec (off base b) (off base a)); [lia|].
  destruct (Z.ltb_spec (off base a) (off base b)) as [|Hge]; [done|].
  assert (a = b) as -> by (destruct Ha, Hb; apply (off_inj base); done || lia). done.
Qed.

(** the number at distance [z] above [base] *)
Definition at_off (base : t) (z : Z) : t := u32 (base + z).

Lemma at_off_spec base z :
  0 <= z < 2 ^ 31 -> in_window base (at_off base z) /\ off base (at_off base z) = z.
Proof.
  intros Hz. assert (E : off base (at_off base z) = z).
  { unfold off, at_off, uwrap. rewrite Zminus_mod_idemp_l.
    replace (base + z - base) with z by lia. apply Z.mod_small. lia. }
  split; [|done]. split; [apply uwrap_range; lia|]. rewrite E. lia.
Qed.

(**  what the serial comparison is.  Exactly one of [a < b], [b < a] and
    [a == b] holds for any two 32-bit values, except when they are 2^31 apart:
    then both comparisons hold. *)
Theorem lt_trichotomy a b :
  wf a -> wf b ->
  if s32 (a - b) =? - 2 ^ 31 then ltb a b = true /\ ltb b a = true /\ eqb a b = false
  else (if eqb a b then ltb a b = false /\ ltb b a = false else ltb b a = negb (ltb a b)).
Proof.
  unfold wf, is_uint, ltb, eqb, swrap. change (2 ^ 32) with 4294967296.
  change (2 ^ (32 - 1)) with 2147483648. change (2 ^ 31) with 2147483648. intros Ha Hb.
  assert (H1 : exists k, (a - b + 2147483648) mod 4294967296 = a - b + 2147483648 + k * 4294967296
             /\ 0 <= a - b + 2147483648 + k * 4294967296 < 4294967296).
  { exists (- ((a - b + 2147483648) / 4294967296)). Z.to_euclidean_division_equations. lia. }
  assert (H2 : exists k, (b - a + 2147483648) mod 4294967296 = b - a + 2147483648 + k * 4294967296
             /\ 0 <= b - a + 2147483648 + k * 4294967296 < 4294967296).
  { exists (- ((b - a + 2147483648) / 4294967296)). Z.to_euclidean_division_equations. lia. }
  destruct H1 as (k & -> & ?), H2 as (k' & -> & ?).
  repeat case_ltb; simpl; lia || auto.
Qed.

Lemma lt_trichotomy_witness :
  ltb 0 2147483648 = true /\ ltb 2147483648 0 = true /\ eqb 0 2147483648 = false.
Proof.
  apply (lt_trichotomy 0 2147483648); unfold wf, is_uint; lia.
Defined.

End SequenceNumber.
