(* ===== verification/RangeSet.v ===== *)
(** * Range sets (src/qpid/RangeSet.h)

    [Range<T>] and [RangeSet<T>]: a set kept as a sorted vector of half-open
    ranges.  The template's requirements on [T] are the class [RangeElem]; what
    the algorithms need of its comparison is the class [RangeEmb]: on a
    predicate [P] of values the comparison is that of an embedding into [Z].
    Sequence numbers satisfy it inside a window of 2^31 numbers.
    The abstract value of a range set is the set of integers [rs_mem]; the
    theorems say that every operation is the set operation it is named after
    and keeps the representation sorted, disjoint and maximal. *)

From S2P Require Import Prelude SequenceNumber.
Local Open Scope Z_scope.

(** what the template uses of its element type *)
Class RangeElem (T : Type) := {
  elt_lt : T -> T -> bool;
  elt_eq : T -> T -> bool;
  elt_incr : T -> T;
  elt_decr : T -> T;
  elt_diff : T -> T -> Z;
  elt_default : T;
}.

(** the comparison of [T] is that of [Z] on the values that satisfy [P] *)
Class RangeEmb (T : Type) `{!RangeElem T} (P : T -> Prop) (emb : T -> Z) : Prop := {
  emb_lt : forall a b, P a -> P b -> elt_lt a b = (emb a <? emb b);
  emb_eq : forall a b, P a -> P b -> elt_eq a b = (emb a =? emb b);
  emb_inj : forall a b, P a -> P b -> emb a = emb b -> a = b;
  emb_incr : forall a, P a -> emb (elt_incr a) = emb a + 1;
  emb_between : forall a b, P a -> P b -> emb a < emb b -> P (elt_incr a);
  emb_decr : forall a b, P a -> P b -> emb b < emb a ->
    P (elt_decr a) /\ emb (elt_decr a) = emb a - 1;
  emb_diff : forall a b, P a -> P b -> elt_diff a b = emb a - emb b;
}.

Section RangeSet.
Context {T : Type} `{!RangeElem T}.

(** ** Range *)

Record Range := mkRange { begin_ : T; end_ : T }.

(** [a <= b] as [boost::less_than_comparable] derives it *)
Definition elt_le (a b : T) : bool := negb (elt_lt b a).
Definition elt_min (a b : T) : T := if elt_lt b a then b else a.
Definition elt_max (a b : T) : T := if elt_lt a b then b else a.

Definition range1 (t : T) : Range := mkRange t (elt_incr t).
Definition makeClosed (first last : T) : Range := mkRange first (elt_incr last).
Definition range_first (r : Range) : T := begin_ r.
Definition range_last (r : Range) : T := elt_decr (end_ r).
Definition range_size (r : Range) : Z := u64 (elt_diff (end_ r) (begin_ r)).
Definition range_empty (r : Range) : bool := elt_eq (begin_ r) (end_ r).
Definition range_contains (r : Range) (x : T) : bool :=
  elt_le (begin_ r) x && elt_lt x (end_ r).
Definition range_contains_range (r s : Range) : bool :=
  elt_le (begin_ r) (begin_ s) && elt_le (end_ s) (end_ r).
Definition strictContains (r s : Range) : bool :=
  elt_lt (begin_ r) (begin_ s) && elt_lt (end_ s) (end_ r).
Definition range_eq (r s : Range) : bool :=
  elt_eq (begin_ r) (begin_ s) && elt_eq (end_ r) (end_ s).
Definition range_lt (r s : Range) : bool := elt_lt (end_ r) (begin_ s).
Definition touching (r s : Range) : bool :=
  elt_le (elt_max (begin_ r) (begin_ s)) (elt_min (end_ r) (end_ s)).
(** the code asserts that they touch: both callers have just tested it *)
Definition merge (r s : Range) : Range :=
  mkRange (elt_min (begin_ r) (begin_ s)) (elt_max (end_ r) (end_ s)).

(** ** RangeSet: the member [ranges] *)

Abbreviation RangeSet := (list Range).

Definition contiguous (rs : RangeSet) : bool := (length rs <=? 1)%nat.

Definition contains (rs : RangeSet) (t : T) : bool :=
  match lower_bound (fun x => range_lt x (range1 t)) rs with
  | (_, i :: _) => range_contains i t
  | (_, []) => false
  end.

Definition contains_range (rs : RangeSet) (r : Range) : bool :=
  match lower_bound (fun x => range_lt x r) rs with
  | (_, i :: _) => range_contains_range i r
  | (_, []) => false
  end.

(** the [while (++j != ranges.end() && i->touching( *j))] loop of [addRange]:
    the merged range and what follows it *)
Fixpoint addRange_loop (i : Range) (l : list Range) : Range * list Range :=
  match l with
  | [] => (i, [])
  | j :: l' => if touching i j then addRange_loop (merge i j) l' else (i, l)
  end.

Definition addRange (rs : RangeSet) (r : Range) : RangeSet :=
  if range_empty r then rs
  else match lower_bound (fun x => range_lt x r) rs with
       | (pre, []) => pre ++ [r]
       | (pre, i :: post) =>
           if negb (touching i r) then pre ++ r :: i :: post
           else let '(i', post') := addRange_loop (merge i r) post in pre ++ i' :: post'
       end.

Definition addSet (rs s : RangeSet) : RangeSet := fold_left addRange s rs.

(** the [for (j = i; j != end && r.contains( *j); ++j)] loop of [removeRange],
    followed by the truncation of [j] and the erasure of [[i, j)] *)
Fixpoint removeRange_loop (r : Range) (l : list Range) : list Range :=
  match l with
  | [] => []
  | j :: l' =>
      if range_contains_range r j then removeRange_loop r l'
      else if elt_lt (begin_ j) (end_ r) then mkRange (end_ r) (end_ j) :: l'
      else l
  end.

Definition removeRange (rs : RangeSet) (r : Range) : RangeSet :=
  if range_empty r then rs
  else match lower_bound (fun x => range_lt x r) rs with
       | (_, []) => rs
       | (pre, i :: post) =>
           if elt_le (end_ r) (begin_ i) then rs
           else if range_eq i r then pre ++ post
           else if strictContains i r then
             pre ++ mkRange (begin_ i) (begin_ r) :: mkRange (end_ r) (end_ i) :: post
           else if elt_lt (begin_ i) (begin_ r) then
             pre ++ mkRange (begin_ i) (begin_ r) :: removeRange_loop r post
           else pre ++ removeRange_loop r (i :: post)
       end.

Definition removeSet (rs s : RangeSet) : RangeSet := fold_left removeRange s rs.

Definition add_elt (rs : RangeSet) (t : T) : RangeSet := addRange rs (range1 t).
Definition remove_elt (rs : RangeSet) (t : T) : RangeSet := removeRange rs (range1 t).

Definition front (rs : RangeSet) : option T := begin_ <$> head rs.
Definition back (rs : RangeSet) : option T := end_ <$> last rs.

Definition toRange (rs : RangeSet) : Range :=
  match rs with [] => mkRange elt_default elt_default | r :: _ => r end.

Fixpoint rangeset_eq (rs ss : RangeSet) : bool :=
  match rs, ss with
  | [], [] => true
  | r :: rs', s :: ss' => range_eq r s && rangeset_eq rs' ss'
  | _, _ => false
  end.

Definition rangeContaining (rs : RangeSet) (t : T) : Range :=
  match lower_bound (fun x => range_lt x (range1 t)) rs with
  | (_, i :: _) => if range_contains i t then i else mkRange t t
  | (_, []) => mkRange t t
  end.

Definition span (rs : RangeSet) : Z :=
  match head rs, last rs with
  | Some f, Some b => u32 (elt_diff (range_last b) (range_first f))
  | _, _ => 0
  end.

(** [std::accumulate] with the [int] initial value [0]: every partial sum is
    computed as [size_t] and stored in an [int] *)
Definition accumulateSize (s : Z) (r : Range) : Z := u64 (s + range_size r).
Definition rangeset_size (rs : RangeSet) : Z :=
  u64 (fold_left (fun acc r => s32 (accumulateSize (u64 acc) r)) rs 0).

(** ** Iterators: the ranges from [iter] on and [value]; [None] is [end()] *)

Definition iterator : Type := option (list Range * T).

Definition iter_begin (rs : RangeSet) : iterator :=
  match rs with [] => None | r :: _ => Some (rs, begin_ r) end.

Definition iter_increment (it : iterator) : iterator :=
  match it with
  | Some (i :: l, value) =>
      let value' := elt_incr value in
      if range_contains i value' then Some (i :: l, value')
      else match l with [] => None | i' :: _ => Some (l, begin_ i') end
  | _ => None
  end.

(** the elements a [for (it = begin(); it != end(); ++it)] loop visits *)
Fixpoint iter_run (fuel : nat) (it : iterator) : list T :=
  match fuel, it with
  | S n, Some (_, value) => value :: iter_run n (iter_increment it)
  | _, _ => []
  end.

End RangeSet.
Arguments Range T : clear implicits.
Arguments iterator T : clear implicits.
Abbreviation RangeSet T := (list (Range T)).

(** ** Well-formedness and the abstract set *)

Section props.
Context {T : Type} `{!RangeElem T} (P : T -> Prop) (emb : T -> Z) `{!RangeEmb T P emb}.

Implicit Types (r s i : Range T) (rs : RangeSet T) (z : Z).

Definition range_ok r : Prop :=
  P (begin_ r) /\ P (end_ r) /\ emb (begin_ r) < emb (end_ r).

Definition range_mem r z : Prop := emb (begin_ r) <= z < emb (end_ r).

(** sorted, pairwise disjoint and with a gap between neighbours *)
Fixpoint rs_wf rs : Prop :=
  match rs with
  | [] => True
  | r :: rs' => range_ok r /\ Forall (fun s => emb (end_ r) < emb (begin_ s)) rs' /\ rs_wf rs'
  end.

(** the set of (embedded) elements a range set stands for *)
Definition rs_mem rs z : Prop := Exists (fun r => range_mem r z) rs.

(** *** Operations on ranges, through the embedding *)

Lemma range_lt_spec r s :
  P (end_ r) -> P (begin_ s) -> range_lt r s = (emb (end_ r) <? emb (begin_ s)).
Proof. intros. by apply emb_lt. Qed.

Lemma elt_le_spec a b : P a -> P b -> elt_le a b = (emb a <=? emb b).
Proof. intros. unfold elt_le. rewrite emb_lt by assumption. solve_ltb. Qed.

Lemma elt_min_spec a b : P a -> P b -> P (elt_min a b) /\ emb (elt_min a b) = Z.min (emb a) (emb b).
Proof. intros. unfold elt_min. rewrite emb_lt by assumption. case_ltb; split; auto; lia. Qed.

Lemma elt_max_spec a b : P a -> P b -> P (elt_max a b) /\ emb (elt_max a b) = Z.max (emb a) (emb b).
Proof. intros. unfold elt_max. rewrite emb_lt by assumption. case_ltb; split; auto; lia. Qed.

Lemma range_empty_spec r : P (begin_ r) -> P (end_ r) -> range_empty r = (emb (begin_ r) =? emb (end_ r)).
Proof. intros. by apply emb_eq. Qed.

Lemma range_ok_not_empty r : range_ok r -> range_empty r = false.
Proof. intros (?&?&?). rewrite range_empty_spec by assumption. solve_ltb. Qed.

Lemma range_contains_spec r x :
  range_ok r -> P x -> range_contains r x = true <-> range_mem r (emb x).
Proof.
  intros (?&?&?) ?. unfold range_contains, range_mem.
  rewrite elt_le_spec, emb_lt by assumption. rewrite andb_true_iff, Z.leb_le, Z.ltb_lt. tauto.
Qed.

Lemma touching_spec r s :
  range_ok r -> range_ok s ->
  touching r s = (Z.max (emb (begin_ r)) (emb (begin_ s)) <=? Z.min (emb (end_ r)) (emb (end_ s))).
Proof.
  intros (?&?&?) (?&?&?). unfold touching.
  destruct (elt_max_spec (begin_ r) (begin_ s)) as [? <-]; [done..|].
  destruct (elt_min_spec (end_ r) (end_ s)) as [? <-]; [done..|].
  by apply elt_le_spec.
Qed.

Lemma merge_spec r s :
  range_ok r -> range_ok s -> touching r s = true ->
  range_ok (merge r s)
  /\ emb (begin_ (merge r s)) = Z.min (emb (begin_ r)) (emb (begin_ s))
  /\ emb (end_ (merge r s)) = Z.max (emb (end_ r)) (emb (end_ s)).
Proof.
  intros Hr Hs Ht. rewrite touching_spec in Ht by assumption. bool_hyps.
  destruct Hr as (?&?&?), Hs as (?&?&?).
  destruct (elt_min_spec (begin_ r) (begin_ s)) as [? Hb]; [done..|].
  destruct (elt_max_spec (end_ r) (end_ s)) as [? He]; [done..|].
  unfold range_ok, merge; simpl. rewrite Hb, He. split_and!; auto; lia.
Qed.

(** *** Lists of ranges *)

Lemma rs_wf_app l1 l2 :
  rs_wf (l1 ++ l2) <->
  rs_wf l1 /\ rs_wf l2
  /\ Forall (fun x => Forall (fun y => emb (end_ x) < emb (begin_ y)) l2) l1.
Proof.
  induction l1 as [|r l1 IH]; simpl.
  - split; intros; [split_and!|]; tauto || constructor.
  - rewrite IH, Forall_app, Forall_cons. tauto.
Qed.

Lemma rs_wf_Forall rs : rs_wf rs -> Forall range_ok rs.
Proof. induction rs as [|r rs IH]; simpl; constructor; tauto. Qed.

Lemma rs_mem_app l1 l2 z : rs_mem (l1 ++ l2) z <-> rs_mem l1 z \/ rs_mem l2 z.
Proof. apply Exists_app. Qed.

Lemma rs_mem_cons r l z : rs_mem (r :: l) z <-> range_mem r z \/ rs_mem l z.
Proof. apply Exists_cons. Qed.

Lemma rs_mem_nil z : rs_mem [] z <-> False.
Proof. apply Exists_nil. Qed.

(** Everything a well-formed list above [b] holds is above [b]. *)
Lemma rs_mem_above b rs z :
  rs_wf rs -> Forall (fun y => b < emb (begin_ y)) rs -> rs_mem rs z -> b < z.
Proof.
  intros _ Hb Hm. apply Exists_exists in Hm as (x & Hx & Hz).
  rewrite Forall_forall in Hb. specialize (Hb _ Hx). unfold range_mem in Hz. lia.
Qed.

Lemma rs_mem_below b rs z :
  Forall (fun x => emb (end_ x) < b) rs -> rs_mem rs z -> z < b.
Proof.
  intros Hb Hm. apply Exists_exists in Hm as (x & Hx & Hz).
  rewrite Forall_forall in Hb. specialize (Hb _ Hx). unfold range_mem in Hz. lia.
Qed.

(** [lower_bound] splits a well-formed list at a key range. *)
Lemma lower_bound_wf rs r pre post :
  rs_wf rs -> P (begin_ r) ->
  lower_bound (fun x => range_lt x r) rs = (pre, post) ->
  rs = pre ++ post /\ rs_wf pre /\ rs_wf post
  /\ Forall (fun x => Forall (fun y => emb (end_ x) < emb (begin_ y)) post) pre
  /\ Forall (fun x => emb (end_ x) < emb (begin_ r)) pre
  /\ (match post with [] => True | i :: _ => emb (begin_ r) <= emb (end_ i) end).
Proof.
  intros Hwf Hr Hlb. pose proof (lower_bound_app _ _ _ _ Hlb) as ->.
  apply rs_wf_app in Hwf as (Hpre & Hpost & Hsep).
  split_and!; auto.
  - apply lower_bound_pre in Hlb. pose proof (rs_wf_Forall _ Hpre) as Hok.
    rewrite Forall_forall in *. intros x Hx. specialize (Hlb _ Hx). specialize (Hok _ Hx).
    rewrite range_lt_spec in Hlb by (unfold range_ok in *; tauto). by bool_hyps.
  - destruct post as [|i post]; [done|]. apply lower_bound_post in Hlb.
    destruct Hpost as (Hi & _). rewrite range_lt_spec in Hlb by (unfold range_ok in *; tauto).
    by bool_hyps.
Qed.

(** Splits the set facts of a goal into ranges and arithmetic. *)
Ltac rs_split :=
  repeat match goal with
  | H : Forall _ (_ :: _) |- _ => apply Forall_cons in H as [? ?]
  | H : rs_wf (_ :: _) |- _ => destruct H as (? & ? & ?)
  | H : _ /\ _ |- _ => destruct H
  end.

Lemma Forall_lt_mono (b c : Z) (f : Range T -> Z) l :
  b <= c -> Forall (fun y => c < f y) l -> Forall (fun y => b < f y) l.
Proof. intros ? H. eapply Forall_impl; [exact H|]. simpl. lia. Qed.

(** Lowers the bound of a [Forall] hypothesis on the same list. *)
Ltac by_above :=
  match goal with
  | H : Forall _ ?l |- Forall _ ?l =>
      solve [eapply Forall_lt_mono; [|exact H]; unfold range_ok in *; lia]
  end.

(** *** [addRange] *)

Lemma addRange_loop_spec m l m' l' :
  range_ok m -> rs_wf l -> Forall (fun j => emb (begin_ m) < emb (begin_ j)) l ->
  addRange_loop m l = (m', l') ->
  rs_wf (m' :: l') /\ emb (begin_ m') = emb (begin_ m)
  /\ (forall z, rs_mem (m' :: l') z <-> range_mem m z \/ rs_mem l z).
Proof.
  revert m. induction l as [|j l IH]; intros m Hm Hl Hb Heq; simpl in Heq.
  { simplify_eq. split_and!; auto. { split_and!; auto. }
    intros z. by rewrite rs_mem_cons. }
  destruct (touching m j) eqn:Ht.
  - rs_split. destruct (merge_spec m j) as (Hok & Hbeg & Hend); [done..|].
    rewrite touching_spec in Ht by assumption. bool_hyps.
    destruct (IH (merge m j)) as (? & Hb' & Hmem); auto.
    { rewrite Hbeg. by_above. }
    split_and!; auto; [lia|]. intros z. rewrite Hmem, rs_mem_cons.
    unfold range_mem. rewrite Hbeg, Hend. unfold range_ok in *. intuition lia.
  - simplify_eq. split_and!; auto; [|intros z; by rewrite rs_mem_cons].
    assert (Hmj : emb (end_ m') < emb (begin_ j)).
    { rs_split. rewrite touching_spec in Ht by assumption. bool_hyps. unfold range_ok in *. lia. }
    split_and!; auto. rs_split. constructor; [done|by_above].
Qed.

Lemma addRange_spec rs r :
  rs_wf rs -> range_ok r ->
  rs_wf (addRange rs r) /\ (forall z, rs_mem (addRange rs r) z <-> rs_mem rs z \/ range_mem r z).
Proof.
  intros Hwf Hr. unfold addRange. rewrite range_ok_not_empty by assumption.
  destruct (lower_bound _ rs) as [pre post] eqn:Hlb.
  destruct (lower_bound_wf _ _ _ _ Hwf (proj1 Hr) Hlb) as (-> & Hpre & Hpost & Hsep & Hlt & Hge).
  destruct post as [|i post].
  { split.
    - apply rs_wf_app. split_and!; [auto|simpl; auto|].
      eapply Forall_impl; [exact Hlt|]. simpl. auto.
    - intros z. rewrite !rs_mem_app, rs_mem_cons, !rs_mem_nil. tauto. }
  assert (range_ok i) as Hi by apply Hpost.
  rewrite touching_spec by assumption. case_ltb; simpl.
  - (* merged *)
    destruct (addRange_loop (merge i r) post) as [i' post'] eqn:Hloop.
    assert (Ht : touching i r = true) by (rewrite touching_spec by assumption; solve_ltb).
    destruct (merge_spec i r Hi Hr Ht) as (Hok & Hbeg & Hend).
    apply addRange_loop_spec in Hloop as (Hwf' & Hb' & Hmem); auto.
    2: { apply Hpost. }
    2: { rs_split. by_above. }
    split.
    + apply rs_wf_app. split_and!; auto.
      rewrite Forall_forall in *. intros x Hx. specialize (Hlt _ Hx). specialize (Hsep _ Hx).
      rs_split. constructor; [lia|by_above].
    + intros z. rewrite !rs_mem_app, Hmem, rs_mem_cons. unfold range_mem. rewrite Hbeg, Hend.
      unfold range_ok in *. intuition lia.
  - (* disjoint *)
    assert (emb (end_ r) < emb (begin_ i)) by (unfold range_ok in *; lia).
    split.
    + apply rs_wf_app. split_and!; auto.
      * simpl. split_and!; auto; [|apply Hpost..]. rs_split. constructor; [lia|by_above].
      * rewrite Forall_forall in *. intros x Hx. constructor; auto.
    + intros z. rewrite !rs_mem_app, !rs_mem_cons. tauto.
Qed.

Lemma addRange_empty rs r : range_empty r = true -> addRange rs r = rs.
Proof. intros H. unfold addRange. by rewrite H. Qed.

Lemma addSet_spec rs ss :
  rs_wf rs -> Forall range_ok ss ->
  rs_wf (addSet rs ss) /\ (forall z, rs_mem (addSet rs ss) z <-> rs_mem rs z \/ rs_mem ss z).
Proof.
  unfold addSet. revert rs. induction ss as [|s ss IH]; intros rs Hrs Hss; simpl.
  { split; [done|]. intros z. rewrite rs_mem_nil. tauto. }
  apply Forall_cons in Hss as [Hs Hss].
  destruct (addRange_spec rs s Hrs Hs) as [Hwf Hmem].
  destruct (IH _ Hwf Hss) as [Hwf' Hmem']. split; [done|].
  intros z. rewrite Hmem', Hmem, rs_mem_cons. tauto.
Qed.

(** *** [removeRange] *)

(** What lies above the end of [r] is not touched by removing [r]. *)
Lemma rs_mem_minus_above r l z :
  rs_wf l -> Forall (fun y => emb (end_ r) - 1 < emb (begin_ y)) l ->
  rs_mem l z <-> rs_mem l z /\ ~ range_mem r z.
Proof.
  intros Hl Hb. split; [|tauto]. intros Hz. split; [done|].
  pose proof (rs_mem_above _ _ _ Hl Hb Hz). unfold range_mem. lia.
Qed.

Lemma rs_mem_minus_below r l z :
  Forall (fun x => emb (end_ x) < emb (begin_ r)) l ->
  rs_mem l z <-> rs_mem l z /\ ~ range_mem r z.
Proof.
  intros Hb. split; [|tauto]. intros Hz. split; [done|].
  pose proof (rs_mem_below _ _ _ Hb Hz). unfold range_mem. lia.
Qed.

Lemma range_contains_range_spec r s :
  range_ok r -> range_ok s ->
  range_contains_range r s
  = (emb (begin_ r) <=? emb (begin_ s)) && (emb (end_ s) <=? emb (end_ r)).
Proof. intros (?&?&?) (?&?&?). unfold range_contains_range. by rewrite !elt_le_spec. Qed.

Lemma removeRange_loop_spec r l :
  range_ok r -> rs_wf l -> Forall (fun j => emb (begin_ r) - 1 < emb (begin_ j)) l ->
  rs_wf (removeRange_loop r l)
  /\ (forall b, Forall (fun y => b < emb (begin_ y)) l ->
              Forall (fun y => b < emb (begin_ y)) (removeRange_loop r l))
  /\ (forall z, rs_mem (removeRange_loop r l) z <-> rs_mem l z /\ ~ range_mem r z).
Proof.
  intros Hr. induction l as [|j l IH]; intros Hl Hb; simpl.
  { split_and!; auto. intros z. rewrite rs_mem_nil. tauto. }
  rs_split. destruct (IH ltac:(done)) as (Hwf & Hlow & Hmem); [done|].
  rewrite range_contains_range_spec by done.
  rewrite emb_lt by (unfold range_ok in *; tauto).
  destruct (_ && _) eqn:Hc; bool_hyps.
  - split_and!; auto. { intros b Hb'. apply Forall_cons in Hb' as [? ?]. auto. }
    intros z. rewrite Hmem, rs_mem_cons. unfold range_mem. intuition lia.
  - apply andb_false_iff in Hc. case_ltb.
    + assert (emb (end_ r) < emb (end_ j)) by (destruct Hc; bool_hyps; lia).
      assert (Hok : range_ok (mkRange (end_ r) (end_ j))) by (unfold range_ok in *; simpl; tauto).
      split_and!.
      * split_and!; done.
      * intros b Hb'. apply Forall_cons in Hb' as [? ?]. constructor; [simpl; lia|done].
      * intros z. rewrite !rs_mem_cons. rewrite (rs_mem_minus_above r l z) by (done || by_above).
        unfold range_mem; simpl. unfold range_ok in *. intuition lia.
    + split_and!; [by split_and!|done|].
      intros z. apply rs_mem_minus_above; [by split_and!|]. constructor; [lia|by_above].
Qed.

(** Replacing the part of a well-formed set from [lower_bound] on. *)
Lemma rs_wf_replace pre post post' :
  rs_wf pre -> rs_wf post' ->
  Forall (fun x => Forall (fun y => emb (end_ x) < emb (begin_ y)) post) pre ->
  (forall b, Forall (fun y => b < emb (begin_ y)) post -> Forall (fun y => b < emb (begin_ y)) post') ->
  rs_wf (pre ++ post').
Proof.
  intros Hpre Hpost Hsep Hb. apply rs_wf_app. split_and!; auto.
  eapply Forall_impl; [exact Hsep|]. simpl. auto.
Qed.

Lemma removeRange_spec rs r :
  rs_wf rs -> range_ok r ->
  rs_wf (removeRange rs r)
  /\ (forall z, rs_mem (removeRange rs r) z <-> rs_mem rs z /\ ~ range_mem r z).
Proof.
  intros Hwf Hr. unfold removeRange. rewrite range_ok_not_empty by assumption.
  destruct (lower_bound _ rs) as [pre post] eqn:Hlb.
  destruct (lower_bound_wf _ _ _ _ Hwf (proj1 Hr) Hlb) as (-> & Hpre & Hpost & Hsep & Hlt & Hge).
  destruct post as [|i post].
  { split; [done|]. intros z. rewrite app_nil_r. by apply rs_mem_minus_below. }
  assert (Hpost' := Hpost). destruct Hpost' as (Hi & Habove & Hpost').
  assert (PQ : P (begin_ i) /\ P (end_ i) /\ P (begin_ r) /\ P (end_ r)) by (unfold range_ok in *; tauto).
  destruct PQ as (? & ? & ? & ?).
  (* the part before [i] is never in [r] *)
  assert (Hmem : forall l', (forall z, rs_mem l' z <-> rs_mem (i :: post) z /\ ~ range_mem r z) ->
            forall z, rs_mem (pre ++ l') z <-> rs_mem (pre ++ i :: post) z /\ ~ range_mem r z).
  { intros l' Hl' z. rewrite !rs_mem_app, Hl', (rs_mem_minus_below r pre z) by done. tauto. }
  rewrite elt_le_spec by done. case_ltb.
  { split; [done|]. apply Hmem. intros z. apply rs_mem_minus_above; [done|].
    constructor; [lia|by_above]. }
  assert (Hab : forall z, rs_mem post z -> emb (end_ i) < z) by (intros; by eapply rs_mem_above).
  unfold range_eq, strictContains. rewrite !emb_eq, !emb_lt by done.
  destruct (_ && _) eqn:Heq.
  { bool_hyps. split.
    - eapply rs_wf_replace; eauto. intros b Hb. by apply Forall_cons in Hb as [_ ?].
    - apply Hmem. intros z. rewrite rs_mem_cons. specialize (Hab z). unfold range_mem.
      intuition lia. }
  clear Heq. destruct (_ && _) eqn:Hst.
  { bool_hyps. split.
    - eapply rs_wf_replace; eauto.
      + assert (Hl : Forall (fun y => emb (end_ r) < emb (begin_ y)) post) by by_above.
        assert (range_ok (mkRange (begin_ i) (begin_ r)) /\ range_ok (mkRange (end_ r) (end_ i)))
          as [? ?] by (unfold range_ok in *; simpl; tauto).
        split_and!; auto; simpl in *; [|split_and!; auto].
        constructor; simpl; [unfold range_ok in *; simpl in *; lia|by_above].
      + intros b Hb. apply Forall_cons in Hb as [? ?]. repeat constructor; simpl; auto; lia.
    - apply Hmem. intros z. rewrite !rs_mem_cons. specialize (Hab z). unfold range_mem; simpl.
      unfold range_ok in *. intuition lia. }
  apply andb_false_iff in Hst. case_ltb.
  - (* truncate [i] *)
    assert (emb (end_ i) <= emb (end_ r)) by (destruct Hst; bool_hyps; lia).
    destruct (removeRange_loop_spec r post) as (Hlwf & Hlow & Hlmem); [done..|by_above|].
    split.
    + eapply rs_wf_replace; eauto.
      * split_and!; [unfold range_ok in *; simpl; tauto| |done]. apply Hlow. simpl. by_above.
      * intros b Hb. apply Forall_cons in Hb as [? ?]. constructor; [done|]. auto.
    + apply Hmem. intros z. rewrite !rs_mem_cons, Hlmem. specialize (Hab z).
      unfold range_mem; simpl. unfold range_ok in *. intuition lia.
  - destruct (removeRange_loop_spec r (i :: post)) as (Hlwf & Hlow & Hlmem); auto.
    { constructor; [lia|by_above]. }
    split; [|by apply Hmem]. eapply rs_wf_replace; eauto.
Qed.

Lemma removeSet_spec rs ss :
  rs_wf rs -> Forall range_ok ss ->
  rs_wf (removeSet rs ss)
  /\ (forall z, rs_mem (removeSet rs ss) z <-> rs_mem rs z /\ ~ rs_mem ss z).
Proof.
  unfold removeSet. revert rs. induction ss as [|s ss IH]; intros rs Hrs Hss; simpl.
  { split; [done|]. intros z. rewrite rs_mem_nil. tauto. }
  apply Forall_cons in Hss as [Hs Hss].
  destruct (removeRange_spec rs s Hrs Hs) as [Hwf Hmem].
  destruct (IH _ Hwf Hss) as [Hwf' Hmem']. split; [done|].
  intros z. rewrite Hmem', Hmem, rs_mem_cons. tauto.
Qed.

(** *** Queries *)

Lemma range1_ok t : P t -> P (elt_incr t) -> range_ok (range1 t).
Proof. intros. unfold range_ok; simpl. split_and!; auto. rewrite emb_incr by done. lia. Qed.

Lemma range1_mem t z : P t -> range_mem (range1 t) z <-> z = emb t.
Proof. intros. unfold range_mem; simpl. rewrite emb_incr by done. lia. Qed.

Lemma contains_spec rs t :
  rs_wf rs -> P t -> contains rs t = true <-> rs_mem rs (emb t).
Proof.
  intros Hwf Ht. unfold contains. destruct (lower_bound _ rs) as [pre post] eqn:Hlb.
  destruct (lower_bound_wf _ (range1 t) _ _ Hwf Ht Hlb) as (-> & Hpre & Hpost & Hsep & Hlt & Hge).
  simpl in Hlt, Hge. rewrite rs_mem_app.
  pose proof (rs_mem_below (emb t) pre (emb t) Hlt).
  destruct post as [|i post]; [rewrite rs_mem_nil; intuition (congruence || lia)|].
  destruct Hpost as (Hi & Habove & Hpost).
  rewrite rs_mem_cons, range_contains_spec by done.
  pose proof (rs_mem_above _ _ (emb t) Hpost Habove). intuition lia.
Qed.

Lemma contains_range_spec rs r :
  rs_wf rs -> range_ok r ->
  contains_range rs r = true <-> (forall z, range_mem r z -> rs_mem rs z).
Proof.
  intros Hwf Hr. unfold contains_range. destruct (lower_bound _ rs) as [pre post] eqn:Hlb.
  destruct (lower_bound_wf _ _ _ _ Hwf (proj1 Hr) Hlb) as (-> & Hpre & Hpost & Hsep & Hlt & Hge).
  assert (Hb : range_mem r (emb (begin_ r))) by (unfold range_mem, range_ok in *; lia).
  assert (Hnp : forall z, range_mem r z -> ~ rs_mem pre z).
  { intros z Hz Hm. pose proof (rs_mem_below _ _ _ Hlt Hm). unfold range_mem in Hz. lia. }
  destruct post as [|i post].
  { split; [congruence|]. intros H. specialize (H _ Hb). rewrite app_nil_r in H. by apply Hnp in H. }
  destruct Hpost as (Hi & Habove & Hpost).
  assert (Hab : forall z, rs_mem post z -> emb (end_ i) < z) by (intros; by eapply rs_mem_above).
  rewrite range_contains_range_spec, andb_true_iff, !Z.leb_le by done. split.
  - intros Hc z Hz. rewrite rs_mem_app, rs_mem_cons. unfold range_mem in *. lia.
  - intros H. assert (H' : forall z, range_mem r z -> range_mem i z \/ emb (end_ i) < z).
    { intros z Hz. specialize (H z Hz). rewrite rs_mem_app, rs_mem_cons in H.
      specialize (Hnp z Hz). specialize (Hab z). tauto. }
    unfold range_mem, range_ok in *. split.
    + specialize (H' (emb (begin_ r))). lia.
    + destruct (Z.le_gt_cases (emb (end_ r)) (emb (end_ i))); [done|]. exfalso.
      specialize (H' (emb (end_ i))). lia.
Qed.

Lemma rangeContaining_spec rs t z :
  rs_wf rs -> P t ->
  (range_mem (rangeContaining rs t) z ->
   rs_mem rs (emb t) /\ forall y, Z.min z (emb t) <= y <= Z.max z (emb t) -> rs_mem rs y).
Proof.
  intros Hwf Ht. unfold rangeContaining. destruct (lower_bound _ rs) as [pre post] eqn:Hlb.
  destruct (lower_bound_wf _ (range1 t) _ _ Hwf Ht Hlb) as (-> & Hpre & Hpost & Hsep & Hlt & Hge).
  destruct post as [|i post]; [unfold range_mem; simpl; lia|].
  destruct (range_contains i t) eqn:Hc; [|unfold range_mem; simpl; lia].
  apply range_contains_spec in Hc; [|apply Hpost|done]. intros Hz.
  setoid_rewrite rs_mem_app. setoid_rewrite rs_mem_cons. unfold range_mem in *.
  split; [tauto|]. intros. lia.
Qed.

(** *** The representation is canonical *)

Lemma rs_mem_head r rs : rs_wf (r :: rs) -> rs_mem (r :: rs) (emb (begin_ r)).
Proof. intros (Hr & _). apply rs_mem_cons. left. unfold range_mem, range_ok in *. lia. Qed.

Lemma rs_mem_head_le r rs z : rs_wf (r :: rs) -> rs_mem (r :: rs) z -> emb (begin_ r) <= z.
Proof.
  intros (Hr & Hab & Hrs) Hz. apply rs_mem_cons in Hz as [Hz|Hz].
  - unfold range_mem in Hz. lia.
  - apply (rs_mem_above (emb (end_ r))) in Hz; auto. unfold range_ok in *. lia.
Qed.

Lemma rs_mem_tail r rs z :
  rs_wf (r :: rs) -> rs_mem rs z <-> rs_mem (r :: rs) z /\ emb (end_ r) < z.
Proof.
  intros (Hr & Hab & Hrs). rewrite rs_mem_cons. unfold range_mem.
  pose proof (rs_mem_above (emb (end_ r)) _ z Hrs Hab). intuition lia.
Qed.

Lemma rs_mem_end r rs : rs_wf (r :: rs) -> ~ rs_mem (r :: rs) (emb (end_ r)).
Proof.
  intros Hwf Hm. pose proof Hwf as (Hr & _). apply rs_mem_cons in Hm as [Hm|Hm].
  - unfold range_mem in Hm. lia.
  - apply (rs_mem_tail r) in Hm; [lia|done].
Qed.

(** two heads of extensionally equal sets coincide *)
Lemma rs_ext_head_le r rs s ss :
  rs_wf (r :: rs) -> rs_wf (s :: ss) -> (forall z, rs_mem (r :: rs) z <-> rs_mem (s :: ss) z) ->
  emb (begin_ s) <= emb (begin_ r)
  /\ (emb (begin_ r) = emb (begin_ s) -> emb (end_ s) <= emb (end_ r)).
Proof.
  intros Hr Hs Hext. split.
  - apply (rs_mem_head_le s ss); [done|]. apply Hext. by apply rs_mem_head.
  - intros E. destruct (Z.le_gt_cases (emb (end_ s)) (emb (end_ r))); [done|].
    exfalso. apply (rs_mem_end r rs Hr), Hext, rs_mem_cons. left.
    pose proof Hr as (Hr' & _). unfold range_mem, range_ok in *. lia.
Qed.

Lemma rs_canonical rs ss :
  rs_wf rs -> rs_wf ss -> (forall z, rs_mem rs z <-> rs_mem ss z) -> rs = ss.
Proof.
  revert ss. induction rs as [|r rs IH]; intros [|s ss] Hr Hs Hext; [done|..].
  - exfalso. apply (rs_mem_nil (emb (begin_ s))), Hext. by apply rs_mem_head.
  - exfalso. apply (rs_mem_nil (emb (begin_ r))), Hext. by apply rs_mem_head.
  - destruct (rs_ext_head_le _ _ _ _ Hr Hs Hext) as [Hb He].
    destruct (rs_ext_head_le _ _ _ _ Hs Hr (fun z => iff_sym (Hext z))) as [Hb' He'].
    assert (Eb : emb (begin_ r) = emb (begin_ s)) by lia.
    assert (Ee : emb (end_ r) = emb (end_ s)) by lia.
    pose proof Hr as ((?&?&?) & _ & Hr'). pose proof Hs as ((?&?&?) & _ & Hs').
    f_equal.
    + destruct r as [rb re], s as [sb se]; simpl in *. f_equal; by eapply emb_inj.
    + apply IH; auto. intros z. rewrite (rs_mem_tail r rs), (rs_mem_tail s ss) by done.
      by rewrite Hext, Ee.
Qed.

Lemma rangeset_eq_refl rs : rs_wf rs -> rangeset_eq rs rs = true.
Proof.
  induction rs as [|r rs IH]; [done|]. intros ((?&?&?) & _ & ?). simpl.
  unfold range_eq. rewrite !emb_eq, !Z.eqb_refl by done. auto.
Qed.

Lemma rangeset_eq_mem rs ss :
  rs_wf rs -> rs_wf ss -> rangeset_eq rs ss = true -> rs = ss.
Proof.
  revert ss. induction rs as [|r rs IH]; intros [|s ss]; simpl; try done.
  intros ((?&?&?) & _ & ?) ((?&?&?) & _ & ?) Heq. bool_hyps.
  unfold range_eq in *. rewrite !emb_eq in * by done. bool_hyps.
  f_equal; [|auto]. destruct r, s; simpl in *. f_equal; eapply emb_inj; eauto.
Qed.

(** *** Size, span and iteration *)

Definition range_len r : Z := emb (end_ r) - emb (begin_ r).
Definition rs_len rs : Z := foldr (fun r n => range_len r + n) 0 rs.

(** the elements in ascending order *)
Definition rs_elements rs : list Z :=
  concat (map (fun r => seqZ (emb (begin_ r)) (range_len r)) rs).

Lemma rs_len_cons r rs : rs_len (r :: rs) = range_len r + rs_len rs.
Proof. done. Qed.

Lemma rs_len_nonneg rs : rs_wf rs -> 0 <= rs_len rs.
Proof.
  induction rs as [|r rs IH]; [done|]. intros ((?&?&?) & _ & ?). rewrite rs_len_cons.
  specialize (IH ltac:(done)). unfold range_len. lia.
Qed.

Lemma accumulateSize_spec rs n :
  rs_wf rs -> 0 <= n -> n + rs_len rs < 2 ^ 31 ->
  fold_left (fun acc r => s32 (accumulateSize (u64 acc) r)) rs n = n + rs_len rs.
Proof.
  revert n. induction rs as [|r rs IH]; intros n Hwf Hn Hlt; [simpl; lia|].
  rewrite rs_len_cons in *. cbn [fold_left].
  destruct Hwf as ((?&?&?) & _ & Hwf). pose proof (rs_len_nonneg _ Hwf).
  unfold accumulateSize, range_size. rewrite emb_diff by done. fold (range_len r).
  assert (0 < range_len r) by (unfold range_len; lia).
  rewrite (uwrap_small 64 n), (uwrap_small 64 (range_len r)), uwrap_small by (unfold is_uint; lia).
  rewrite swrap_small by lia. rewrite IH by (done || lia). lia.
Qed.

Lemma rangeset_size_spec rs :
  rs_wf rs -> rs_len rs < 2 ^ 31 -> rangeset_size rs = rs_len rs.
Proof.
  intros Hwf Hlt. unfold rangeset_size. pose proof (rs_len_nonneg _ Hwf).
  rewrite accumulateSize_spec by (done || lia). apply uwrap_small. unfold is_uint. lia.
Qed.

Lemma length_rs_elements rs : rs_wf rs -> Z.of_nat (length (rs_elements rs)) = rs_len rs.
Proof.
  induction rs as [|r rs IH]; [done|]. intros ((?&?&?) & _ & Hwf). unfold rs_elements in *. simpl.
  rewrite length_app, Nat2Z.inj_add, IH, length_seqZ by done. unfold range_len. lia.
Qed.

Lemma elem_of_rs_elements rs z : z ∈ rs_elements rs <-> rs_mem rs z.
Proof.
  unfold rs_elements, rs_mem. induction rs as [|r rs IH]; simpl.
  - rewrite Exists_nil. set_solver.
  - rewrite elem_of_app, IH, Exists_cons, elem_of_seqZ. unfold range_mem, range_len.
    intuition lia.
Qed.

Lemma rs_elements_NoDup rs : rs_wf rs -> NoDup (rs_elements rs).
Proof.
  induction rs as [|r rs IH]; [constructor|]. intros (Hr & Hab & Hwf). unfold rs_elements in *. simpl.
  apply NoDup_app. split_and!; [apply NoDup_seqZ| |by apply IH].
  intros z Hz Hz'. apply elem_of_seqZ in Hz. apply elem_of_rs_elements in Hz'.
  pose proof (rs_mem_above _ _ _ Hwf Hab Hz'). unfold range_len in *. lia.
Qed.

(** one range: the iterator counts from [value] to [end_] *)
Lemma iter_run_range (k : nat) r rs v fuel :
  range_ok r -> P v -> emb (begin_ r) <= emb v -> emb (end_ r) - emb v = Z.of_nat (S k) ->
  map emb (iter_run (S k + fuel) (Some (r :: rs, v)))
  = seqZ (emb v) (Z.of_nat (S k)) ++ map emb (iter_run fuel (iter_begin rs)).
Proof.
  revert v. induction k as [|k IH]; intros v Hr Hv Hb Hk.
  - destruct Hr as (?&?&?). cbn [Nat.add iter_run map].
    assert (Hc : range_contains r (elt_incr v) = false).
    { destruct (range_contains r (elt_incr v)) eqn:Hc; [|done].
      apply range_contains_spec in Hc; [|done|eapply (emb_between v (end_ r)); done || lia].
      unfold range_mem in Hc. rewrite emb_incr in Hc by done. lia. }
    unfold iter_increment. rewrite Hc. unfold iter_begin. by destruct rs.
  - assert (Hv' : P (elt_incr v)).
    { destruct Hr as (?&?&?). eapply (emb_between v (end_ r)); done || lia. }
    assert (Hc : range_contains r (elt_incr v) = true).
    { apply range_contains_spec; [done..|]. unfold range_mem. rewrite emb_incr by done. lia. }
    rewrite seqZ_cons by lia.
    change (iter_run (S (S k) + fuel) (Some (r :: rs, v)))
      with (v :: iter_run (S k + fuel) (iter_increment (Some (r :: rs, v)))).
    unfold iter_increment. rewrite Hc. cbn [map app]. f_equal.
    specialize (IH (elt_incr v) Hr Hv'). rewrite emb_incr in IH by done.
    rewrite IH by lia. do 2 f_equal; lia.
Qed.

Lemma iter_run_spec rs fuel :
  rs_wf rs -> map emb (iter_run (Z.to_nat (rs_len rs) + fuel) (iter_begin rs)) = rs_elements rs.
Proof.
  induction rs as [|r rs IH]; intros Hwf.
  { simpl. by destruct fuel. }
  pose proof Hwf as ((?&?&?) & _ & Hwf'). pose proof (rs_len_nonneg _ Hwf'). rewrite rs_len_cons.
  assert (Hk : exists k, range_len r = Z.of_nat (S k)).
  { exists (Z.to_nat (range_len r - 1)). unfold range_len. lia. }
  destruct Hk as [k Hk]. rewrite Hk.
  replace (Z.to_nat (Z.of_nat (S k) + rs_len rs) + fuel)%nat
    with (S k + (Z.to_nat (rs_len rs) + fuel))%nat by lia.
  change (iter_begin (r :: rs)) with (Some (r :: rs, begin_ r)).
  rewrite iter_run_range by (by apply Hwf || done || lia || (unfold range_len in Hk; lia)).
  unfold rs_elements. simpl. rewrite Hk. f_equal. apply IH. by apply Hwf.
Qed.

Lemma iter_run_P fuel r rs v :
  rs_wf (r :: rs) -> P v -> emb v < emb (end_ r) -> emb (begin_ r) <= emb v ->
  Forall P (iter_run fuel (Some (r :: rs, v))).
Proof.
  revert r rs v. induction fuel as [|n IH]; intros r rs v Hwf Hv Hlt Hge; [constructor|].
  cbn [iter_run]. constructor; [done|]. pose proof Hwf as (Hr & _ & Hwf').
  pose proof Hr as (? & ? & ?). assert (HPi : P (elt_incr v)) by (by apply (emb_between v (end_ r))).
  cbn [iter_increment]. destruct (range_contains r (elt_incr v)) eqn:E.
  - apply range_contains_spec in E; [|done..]. unfold range_mem in E. apply IH; done || lia.
  - destruct rs as [|r' rs]; [by destruct n|]. pose proof Hwf' as ((?&?&?) & _).
    apply IH; done || lia.
Qed.

Lemma rs_elements_sorted rs : rs_wf rs -> StronglySorted Z.lt (rs_elements rs).
Proof.
  induction rs as [|r rs IH]; [constructor|]. intros (Hr & Hab & Hwf). unfold rs_elements in *. simpl.
  apply StronglySorted_app_2; [|apply StronglySorted_seqZ|by apply IH].
  intros x y Hx Hy. apply elem_of_seqZ in Hx. apply elem_of_rs_elements in Hy.
  pose proof (rs_mem_above _ _ _ Hwf Hab Hy). unfold range_len in *. lia.
Qed.

(** the numbers of a set that lies in an interval *)
Lemma rs_len_bound rs lo hi :
  rs_wf rs -> Forall (fun r => lo <= emb (begin_ r) /\ emb (end_ r) <= hi) rs ->
  lo <= hi -> rs_len rs <= hi - lo.
Proof.
  revert lo. induction rs as [|r rs IH]; intros lo Hwf Hall Hle; [simpl; lia|].
  pose proof Hwf as ((?&?&?) & Hab & Hwf'). apply Forall_cons in Hall as [[? ?] Hall].
  rewrite rs_len_cons. unfold range_len.
  assert (rs_len rs <= hi - emb (end_ r)); [|lia]. apply IH; [done| |lia].
  apply Forall_and in Hall as [_ Hall]. apply Forall_and. split; [|done].
  eapply Forall_impl; [exact Hab|]. simpl. lia.
Qed.

End props.

(** ** The element type of session command sets *)

#[global] Instance SequenceNumber_RangeElem : RangeElem SequenceNumber.t := {|
  elt_lt := SequenceNumber.ltb; elt_eq := SequenceNumber.eqb;
  elt_incr := SequenceNumber.incr; elt_decr := SequenceNumber.decr;
  elt_diff := SequenceNumber.diff; elt_default := SequenceNumber.mk 0 |}.

(** sequence numbers in the window of any base *)
#[global] Instance SequenceNumber_RangeEmb base :
  RangeEmb SequenceNumber.t (SequenceNumber.in_window base) (SequenceNumber.off base).
Proof.
  constructor.
  - apply SequenceNumber.window_lt.
  - apply SequenceNumber.window_eq.
  - intros a b [? _] [? _]. by apply SequenceNumber.off_inj.
  - apply SequenceNumber.window_incr.
  - intros a b Ha Hb Hlt. split; [apply SequenceNumber.incr_wf|].
    simpl. rewrite SequenceNumber.window_incr by done. destruct Hb. lia.
  - intros a b Ha Hb Hlt. pose proof (SequenceNumber.off_range base b).
    assert (E : SequenceNumber.off base (SequenceNumber.decr a) = SequenceNumber.off base a - 1)
      by (apply SequenceNumber.window_decr; lia).
    split; [split; [apply SequenceNumber.decr_wf|]|done]. simpl. rewrite E. destruct Ha. lia.
  - apply SequenceNumber.window_diff.
Qed.
