(* ===== verification/Buffer.v ===== *)
(** * The wire buffer (src/qpid/framing/Buffer.h, Buffer.cpp)

    [Buffer] is a bounded array of bytes with a cursor; every [put]/[get]
    checks the room that is left and throws [OutOfBounds].  Bytes are [Z] in
    [0, 256); a [std::string] is the list of its bytes; a [float] or a [double]
    is its IEEE bit pattern, which is all the code looks at (it goes through a
    union).  [emits m bs] and [parses m bs a] are the specifications of writers
    and readers; the class [Codec] is the promise a type with [encode]/[decode]
    makes to the types built from it. *)

From S2P Require Import Prelude.
Local Open Scope Z_scope.

Record Buffer := mkBuffer { size : Z; data : list Z; position : Z }.

Definition is_byte (z : Z) : Prop := is_uint 8 z.
Definition available (b : Buffer) : Z := u32 (size b - position b).

Definition buf_wf (b : Buffer) : Prop :=
  Z.of_nat (length (data b)) = size b /\ 0 <= position b <= size b /\ size b < 2 ^ 32
  /\ Forall is_byte (data b).

#[global] Instance buf_wf_dec b : Decision (buf_wf b).
Proof. unfold buf_wf, is_byte. apply _. Defined.

(** [Buffer(data, size)] *)
Definition new_Buffer (d : list Z) (sz : Z) : Buffer := mkBuffer sz d 0.
Definition reset (b : Buffer) : Buffer := mkBuffer (size b) (data b) 0.
Definition setPosition (p : Z) (b : Buffer) : Buffer := mkBuffer (size b) (data b) p.

Definition checkAvailable (count : Z) : M Buffer unit := fun b =>
  if available b <? count then (b, Throw OutOfBounds) else (b, Ret tt).

(** [data[position++] = (uint8_t) v]; an access outside the array is undefined *)
Definition store1 (v : Z) : M Buffer unit := fun b =>
  if (Z.to_nat (position b) <? length (data b))%nat
  then (mkBuffer (size b) (<[Z.to_nat (position b) := u8 v]> (data b)) (u32 (position b + 1)), Ret tt)
  else (b, Throw UndefinedBehaviour).

(** [(unsigned char) data[position++]] *)
Definition load1 : M Buffer Z := fun b =>
  match data b !! Z.to_nat (position b) with
  | Some v => (mkBuffer (size b) (data b) (u32 (position b + 1)), Ret v)
  | None => (b, Throw UndefinedBehaviour)
  end.

(** [s.copy(data + position, len); position += len] and the [memcpy] forms *)
Definition store (bs : list Z) : M Buffer unit := fun b =>
  if (Z.to_nat (position b) + length bs <=? length (data b))%nat
  then (mkBuffer (size b)
          (take (Z.to_nat (position b)) (data b) ++ bs
             ++ drop (Z.to_nat (position b) + length bs) (data b))
          (u32 (position b + Z.of_nat (length bs))), Ret tt)
  else (b, Throw UndefinedBehaviour).

(** [s.assign(data + position, len); position += len] *)
Definition load (len : Z) : M Buffer (list Z) := fun b =>
  if (Z.to_nat (position b) + Z.to_nat len <=? length (data b))%nat
  then (mkBuffer (size b) (data b) (u32 (position b + len)),
        Ret (take (Z.to_nat len) (drop (Z.to_nat (position b)) (data b))))
  else (b, Throw UndefinedBehaviour).

(** ** Writers *)

Definition putOctet (i : Z) : M Buffer unit :=
  checkAvailable 1 ;; store1 i.

Definition putShort (i : Z) : M Buffer unit :=
  checkAvailable 2 ;;
  let b := i in
  store1 (Z.land 255 (Z.shiftr b 8)) ;;
  store1 (Z.land 255 b).

Definition putLong (i : Z) : M Buffer unit :=
  checkAvailable 4 ;;
  let b := i in
  store1 (Z.land 255 (Z.shiftr b 24)) ;;
  store1 (Z.land 255 (Z.shiftr b 16)) ;;
  store1 (Z.land 255 (Z.shiftr b 8)) ;;
  store1 (Z.land 255 b).

Definition putLongLong (i : Z) : M Buffer unit :=
  let hi := u32 (Z.shiftr i 32) in
  let lo := u32 i in
  putLong hi ;; putLong lo.

Definition putInt8 (i : Z) : M Buffer unit := checkAvailable 1 ;; store1 (u8 i).
Definition putInt16 (i : Z) : M Buffer unit := putShort (u16 i).
Definition putInt32 (i : Z) : M Buffer unit := putLong (u32 i).
Definition putInt64 (i : Z) : M Buffer unit := putLongLong (u64 i).
Definition putFloat (bits : Z) : M Buffer unit := putLong bits.
Definition putDouble (bits : Z) : M Buffer unit := putLongLong bits.
Definition putBin128 (b : list Z) : M Buffer unit := checkAvailable 16 ;; store (take 16 b).

Definition putUInt1 (i : Z) : M Buffer unit :=
  if (0 <=? i) && (i <=? 255) then putOctet (u8 i) else throw Exception.
Definition putUInt2 (i : Z) : M Buffer unit :=
  if (0 <=? i) && (i <=? 65535) then putShort (u16 i) else throw Exception.
Definition putUInt4 (i : Z) : M Buffer unit :=
  if (0 <=? i) && (i <=? 4294967295) then putLong (u32 i) else throw Exception.
Definition putUInt8 (i : Z) : M Buffer unit := putLongLong i.

Definition putShortString (s : list Z) : M Buffer unit :=
  let slen := Z.of_nat (length s) in
  if slen <=? 255 then
    let len := u8 slen in
    putOctet len ;; checkAvailable slen ;; store (take (Z.to_nat len) s)
  else throw Exception.

Definition putMediumString (s : list Z) : M Buffer unit :=
  let slen := Z.of_nat (length s) in
  if slen <=? 65535 then
    let len := u16 slen in
    putShort len ;; checkAvailable slen ;; store (take (Z.to_nat len) s)
  else throw Exception.

Definition putLongString (s : list Z) : M Buffer unit :=
  let slen := Z.of_nat (length s) in
  if slen <=? 4294967295 then
    let len := u32 slen in
    putLong len ;; checkAvailable slen ;; store (take (Z.to_nat len) s)
  else throw Exception.

Definition putRawData (s : list Z) : M Buffer unit :=
  let len := Z.of_nat (length s) in
  checkAvailable len ;; store s.

(** ** Readers *)

Definition getOctet : M Buffer Z := checkAvailable 1 ;; load1.

Definition getShort : M Buffer Z :=
  checkAvailable 2 ;;
  hi ← load1;
  let hi := u16 (Z.shiftl hi 8) in
  lo ← load1;
  mret (Z.lor hi lo).

Definition getLong : M Buffer Z :=
  checkAvailable 4 ;;
  a ← load1;
  b ← load1;
  c ← load1;
  d ← load1;
  let a := u32 (Z.shiftl a 24) in
  let a := Z.lor a (u32 (Z.shiftl b 16)) in
  let a := Z.lor a (u32 (Z.shiftl c 8)) in
  mret (Z.lor a d).

Definition getLongLong : M Buffer Z :=
  hi ← getLong;
  lo ← getLong;
  let hi := u64 (Z.shiftl hi 32) in
  mret (Z.lor hi lo).

Definition getInt8 : M Buffer Z := checkAvailable 1 ;; i ← load1; mret (s8 i).
Definition getInt16 : M Buffer Z := i ← getShort; mret (s16 i).
Definition getInt32 : M Buffer Z := i ← getLong; mret (s32 i).
Definition getInt64 : M Buffer Z := i ← getLongLong; mret (s64 i).
Definition getFloat : M Buffer Z := getLong.
Definition getDouble : M Buffer Z := getLongLong.

Definition getUInt1 : M Buffer Z := getOctet.
Definition getUInt2 : M Buffer Z := getShort.
Definition getUInt4 : M Buffer Z := getLong.
Definition getUInt8 : M Buffer Z := getLongLong.

Definition getShortString : M Buffer (list Z) := len ← getOctet; checkAvailable len ;; load len.
Definition getMediumString : M Buffer (list Z) := len ← getShort; checkAvailable len ;; load len.
Definition getLongString : M Buffer (list Z) := len ← getLong; checkAvailable len ;; load len.
Definition getBin128 : M Buffer (list Z) := checkAvailable 16 ;; load 16.
Definition getRawData (len : Z) : M Buffer (list Z) := checkAvailable len ;; load len.

(** a buffer operation of an object that owns other state, and the converse *)
Definition on_buffer {S A} (m : M Buffer A) : M (S * Buffer) A := fun '(s, b) =>
  let '(b', o) := m b in ((s, b'), o).
Definition on_state {S} (f : S -> S) : M (S * Buffer) unit := fun '(s, b) => ((f s, b), Ret tt).

(** ** Specifications of writers and readers *)

(** the bytes after the cursor *)
Definition rest (b : Buffer) : list Z := drop (Z.to_nat (position b)) (data b).

(** [b] after [bs] has been written at the cursor *)
Definition write (b : Buffer) (bs : list Z) : Buffer :=
  let p := Z.to_nat (position b) in
  mkBuffer (size b) (take p (data b) ++ bs ++ drop (p + length bs) (data b))
           (position b + Z.of_nat (length bs)).

Definition advance (b : Buffer) (n : Z) : Buffer := mkBuffer (size b) (data b) (position b + n).

(** [m] writes exactly [bs], or throws [OutOfBounds] when there is no room *)
Definition emits (m : M Buffer unit) (bs : list Z) : Prop :=
  Forall is_byte bs /\
  forall b, buf_wf b ->
    (Z.of_nat (length bs) <= size b - position b -> m b = (write b bs, Ret tt))
    /\ (size b - position b < Z.of_nat (length bs) ->
        exists b', m b = (b', Throw OutOfBounds) /\ buf_wf b' /\ size b' = size b
                   /\ position b <= position b').

(** on a buffer whose unread part starts with [bs], [m] consumes [bs] and returns [a] *)
Definition parses {A} (m : M Buffer A) (bs : list Z) (a : A) : Prop :=
  forall b k, buf_wf b -> rest b = bs ++ k ->
    m b = (advance b (Z.of_nat (length bs)), Ret a).

(** [m] never accesses the array out of bounds, leaves the buffer well formed
    and returns only values that satisfy [Q] *)
Definition safe {A} (m : M Buffer A) (Q : A -> Prop) : Prop :=
  forall b, buf_wf b ->
    buf_wf (m b).1 /\ size (m b).1 = size b /\ position b <= position (m b).1
    /\ match (m b).2 with Ret a => Q a | Throw e => e <> UndefinedBehaviour end.

(** *** Facts about [write] and [advance] *)

Lemma available_wf b : buf_wf b -> available b = size b - position b.
Proof. intros (?&?&?&?). apply uwrap_small. unfold is_uint. lia. Qed.

Lemma write_wf b bs :
  buf_wf b -> Forall is_byte bs -> Z.of_nat (length bs) <= size b - position b ->
  buf_wf (write b bs).
Proof.
  intros (?&?&?&?) Hbs Hlen. unfold buf_wf, write; simpl.
  rewrite !length_app, length_take, length_drop. split_and!; try lia.
  rewrite !Forall_app. split_and!; auto using Forall_take, Forall_drop.
Qed.

Lemma write_nil b : buf_wf b -> write b [] = b.
Proof.
  intros (?&?&?&?). destruct b as [sz d p]; unfold write; simpl in *.
  rewrite Nat.add_0_r, take_drop, Z.add_0_r. done.
Qed.

Lemma write_app b bs1 bs2 :
  buf_wf b -> Z.of_nat (length (bs1 ++ bs2)) <= size b - position b ->
  write (write b bs1) bs2 = write b (bs1 ++ bs2).
Proof.
  intros (?&?&?&?). rewrite length_app. intros Hlen. unfold write; simpl. f_equal.
  - set (p := Z.to_nat (position b)).
    replace (Z.to_nat (position b + Z.of_nat (length bs1))) with (p + length bs1)%nat by lia.
    rewrite (app_assoc (take p (data b)) bs1).
    assert (Hl : length (take p (data b) ++ bs1) = (p + length bs1)%nat)
      by (rewrite length_app, length_take; lia).
    rewrite (take_app_length' _ _ _ (eq_sym Hl)), (drop_app_add' _ _ _ _ (eq_sym Hl)), drop_drop.
    rewrite length_app, <- !app_assoc. do 4 f_equal. lia.
  - rewrite length_app. lia.
Qed.

Lemma advance_wf b n : buf_wf b -> 0 <= n <= size b - position b -> buf_wf (advance b n).
Proof. intros (?&?&?&?) ?. unfold buf_wf, advance; simpl. split_and!; auto; lia. Qed.

Lemma rest_advance b bs k :
  buf_wf b -> rest b = bs ++ k ->
  rest (advance b (Z.of_nat (length bs))) = k
  /\ Z.of_nat (length bs) <= size b - position b.
Proof.
  intros (?&?&?&?) Hr. unfold rest, advance in *; simpl.
  assert (Hl := f_equal length Hr). rewrite length_drop, length_app in Hl. split; [|lia].
  rewrite Z2Nat.inj_add, Nat2Z.id by lia. rewrite <- drop_drop, Hr. apply drop_app_length.
Qed.

Lemma advance_advance b n m : advance (advance b n) m = advance b (n + m).
Proof. unfold advance; simpl. f_equal. lia. Qed.

Lemma rest_write_reset b bs :
  buf_wf b -> Z.of_nat (length bs) <= size b - position b ->
  rest (setPosition (position b) (write b bs)) = bs ++ drop (Z.to_nat (position b) + length bs) (data b).
Proof.
  intros (?&?&?&?) ?. unfold rest, write, setPosition; simpl.
  apply drop_app_length'. rewrite length_take. lia.
Qed.

Lemma write_back_wf b bs :
  buf_wf b -> Forall is_byte bs -> Z.of_nat (length bs) <= size b - position b ->
  buf_wf (setPosition (position b) (write b bs)).
Proof.
  intros Hwf Hb Hroom. pose proof (write_wf _ _ Hwf Hb Hroom) as (?&?&?&?).
  destruct Hwf as (?&?&?&?). unfold buf_wf, setPosition; simpl in *. split_and!; auto; lia.
Qed.

(** *** Writers *)

(** [m] writes [bs] when there is room; nothing is said otherwise *)
Definition emits_raw (m : M Buffer unit) (bs : list Z) : Prop :=
  Forall is_byte bs /\
  forall b, buf_wf b -> Z.of_nat (length bs) <= size b - position b -> m b = (write b bs, Ret tt).

Lemma is_byte_u8 z : is_byte (u8 z).
Proof. by apply uwrap_range. Qed.

Lemma emits_raw_store1 v : emits_raw (store1 v) [u8 v].
Proof.
  split; [repeat constructor; apply is_byte_u8|]. intros b (?&?&?&?) Hroom. cbn [length] in Hroom.
  unfold store1, write. rewrite (proj2 (Nat.ltb_lt _ _)) by lia. simpl.
  rewrite (uwrap_small 32) by (unfold is_uint; lia).
  rewrite insert_take_drop by lia. by rewrite Nat.add_1_r.
Qed.

Lemma emits_raw_store bs : Forall is_byte bs -> emits_raw (store bs) bs.
Proof.
  intros Hbs. split; [done|]. intros b (?&?&?&?) Hroom. unfold store, write.
  rewrite (proj2 (Nat.leb_le _ _)) by lia. by rewrite uwrap_small by (unfold is_uint; lia).
Qed.

Lemma emits_raw_bind m1 m2 bs1 bs2 :
  emits_raw m1 bs1 -> emits_raw m2 bs2 -> emits_raw (m1 ;; m2) (bs1 ++ bs2).
Proof.
  intros [Hb1 H1] [Hb2 H2]. split; [by apply Forall_app|]. intros b Hwf Hroom.
  assert (Hroom' := Hroom). rewrite length_app in Hroom.
  rewrite (bind_Ret _ _ _ _ _ (H1 b Hwf ltac:(lia))).
  rewrite H2; [by rewrite write_app| |simpl; lia]. apply write_wf; auto. lia.
Qed.

(** A bounds check in front of a writer of that many bytes makes it total. *)
Lemma emits_checked n m bs :
  emits_raw m bs -> n = Z.of_nat (length bs) -> emits (checkAvailable n ;; m) bs.
Proof.
  intros [Hb H] ->. split; [done|]. intros b Hwf. unfold mbind, M_bind, checkAvailable.
  rewrite available_wf by done. split; intros Hroom.
  - rewrite (proj2 (Z.ltb_ge _ _)) by lia. auto.
  - rewrite (proj2 (Z.ltb_lt _ _)) by lia. eexists; split_and!; eauto; lia.
Qed.

Lemma emits_raw_of m bs : emits m bs -> emits_raw m bs.
Proof. intros [? H]. split; [done|]. intros b Hwf Hroom. by apply H. Qed.

Lemma emits_bind m1 m2 bs1 bs2 :
  emits m1 bs1 -> emits m2 bs2 -> emits (m1 ;; m2) (bs1 ++ bs2).
Proof.
  intros [Hb1 H1] [Hb2 H2]. split; [by apply Forall_app|]. intros b Hwf.
  rewrite length_app. destruct (H1 b Hwf) as [H1y H1n].
  destruct (Z.le_gt_cases (Z.of_nat (length bs1)) (size b - position b)) as [Hr|Hr].
  - rewrite (bind_Ret _ _ _ _ _ (H1y Hr)).
    destruct (H2 (write b bs1)) as [H2y H2n]; [by apply write_wf|]. simpl in H2y, H2n.
    split; intros Hroom; [rewrite H2y by lia|destruct H2n as (b' & E & ? & ? & ?); [lia|exists b'; split_and!; auto; lia]].
    rewrite write_app by (rewrite ?length_app; done || lia). done.
  - split; [lia|]. intros _. destruct (H1n ltac:(lia)) as (b' & E & ?).
    exists b'. by rewrite (bind_Throw _ _ _ _ _ E).
Qed.

Lemma emits_nil : emits (mret tt) [].
Proof.
  split; [constructor|]. intros b Hwf. split; [by rewrite write_nil|].
  destruct Hwf as (?&?&?). simpl. lia.
Qed.

Lemma emits_ext m bs bs' : emits m bs -> bs = bs' -> emits m bs'.
Proof. by intros ? <-. Qed.

(** big-endian encodings *)
Definition be16 (z : Z) : list Z := [u8 (Z.shiftr z 8); u8 z].
Definition be32 (z : Z) : list Z :=
  [u8 (Z.shiftr z 24); u8 (Z.shiftr z 16); u8 (Z.shiftr z 8); u8 z].
Definition be64 (z : Z) : list Z := be32 (u32 (Z.shiftr z 32)) ++ be32 (u32 z).

Lemma u8_land z : u8 (Z.land 255 z) = u8 z.
Proof.
  change 255 with (Z.ones 8). rewrite Z.land_comm, Z.land_ones by lia.
  unfold uwrap. by rewrite Z.mod_mod by lia.
Qed.

Lemma emits_putOctet i : emits (putOctet i) [u8 i].
Proof. apply emits_checked; [apply emits_raw_store1|done]. Qed.

Lemma emits_putShort i : emits (putShort i) (be16 i).
Proof.
  apply emits_checked; [|done]. unfold be16. rewrite <- (u8_land i), <- (u8_land (Z.shiftr i 8)).
  apply (emits_raw_bind _ _ [_] [_]); apply emits_raw_store1.
Qed.

Lemma emits_putLong i : emits (putLong i) (be32 i).
Proof.
  apply emits_checked; [|done]. unfold be32.
  rewrite <- (u8_land i), <- (u8_land (Z.shiftr i 8)), <- (u8_land (Z.shiftr i 16)),
    <- (u8_land (Z.shiftr i 24)).
  repeat (apply (emits_raw_bind _ _ [_] _); [apply emits_raw_store1|]). apply emits_raw_store1.
Qed.

Lemma emits_putLongLong i : emits (putLongLong i) (be64 i).
Proof. apply emits_bind; apply emits_putLong. Qed.

Lemma emits_checked_store n bs :
  Forall is_byte bs -> n = Z.of_nat (length bs) -> emits (checkAvailable n ;; store bs) bs.
Proof. intros. apply emits_checked; [by apply emits_raw_store|done]. Qed.

Lemma emits_putRawData bs : Forall is_byte bs -> emits (putRawData bs) bs.
Proof. intros. by apply emits_checked_store. Qed.

(** *** Readers *)

Lemma parses_ret {A} (a : A) : parses (mret a) [] a.
Proof.
  intros b k Hwf _. unfold mret, M_ret, advance. destruct b; simpl. by rewrite Z.add_0_r.
Qed.

Lemma parses_bind {A B} (m : M Buffer A) (f : A -> M Buffer B) bs1 bs2 a c :
  parses m bs1 a -> parses (f a) bs2 c -> parses (m ≫= f) (bs1 ++ bs2) c.
Proof.
  intros H1 H2 b k Hwf Hr. rewrite <- app_assoc in Hr.
  rewrite (bind_Ret _ _ _ _ _ (H1 b _ Hwf Hr)).
  destruct (rest_advance b bs1 (bs2 ++ k) Hwf Hr) as [Hr' Hlen].
  rewrite (H2 _ k); [|apply advance_wf; [done|lia]|done].
  by rewrite advance_advance, length_app, Nat2Z.inj_add.
Qed.

(** one reader run on a buffer that starts with its bytes *)
Lemma parses_step {A} (m : M Buffer A) bs a b k :
  parses m bs a -> buf_wf b -> rest b = bs ++ k ->
  exists b', m b = (b', Ret a) /\ buf_wf b' /\ rest b' = k /\ size b' = size b /\ data b' = data b.
Proof.
  intros H Hwf Hr. rewrite (H b k Hwf Hr). destruct (rest_advance _ _ _ Hwf Hr) as [? ?].
  eexists; split; [done|]. split_and!; auto. apply advance_wf; [done|lia].
Qed.

Lemma rest_length b : buf_wf b -> Z.of_nat (length (rest b)) = available b.
Proof.
  intros Hwf. rewrite available_wf by done. destruct Hwf as (?&?&?&?). unfold rest.
  rewrite length_drop. lia.
Qed.

Lemma setPosition_back b b' :
  size b' = size b -> data b' = data b -> setPosition (position b) b' = b.
Proof. destruct b, b'; simpl. by intros -> ->. Qed.

Lemma on_buffer_run {S A} (m : M Buffer A) (s : S) b b' o :
  m b = (b', o) -> on_buffer m (s, b) = ((s, b'), o).
Proof. intros E. simpl. by rewrite E. Qed.

(** the last step of a reader: a pure function of what was read *)
Lemma parses_map {A B} (m : M Buffer A) (f : A -> B) bs a :
  parses m bs a -> parses (x ← m; mret (f x)) bs (f a).
Proof.
  intros H. rewrite <- (app_nil_r bs). eapply parses_bind; [exact H|]. apply parses_ret.
Qed.

Lemma parses_check {A} n (m : M Buffer A) bs a :
  n <= Z.of_nat (length bs) -> parses m bs a -> parses (checkAvailable n ;; m) bs a.
Proof.
  intros Hn H b k Hwf Hr. destruct (rest_advance _ _ _ Hwf Hr) as [_ Hlen].
  unfold mbind, M_bind, checkAvailable. rewrite available_wf by done.
  rewrite (proj2 (Z.ltb_ge _ _)) by lia. by eapply H.
Qed.

Lemma parses_load1 v : parses load1 [v] v.
Proof.
  intros b k (?&?&?&?) Hr. unfold load1, rest, advance in *.
  assert (Hl := f_equal length Hr). rewrite length_drop in Hl. simpl in Hl.
  assert (Hv := f_equal (fun l => l !! 0%nat) Hr). simpl in Hv.
  rewrite lookup_drop, Nat.add_0_r in Hv. rewrite Hv.
  by rewrite uwrap_small by (unfold is_uint; lia).
Qed.

Lemma parses_load bs n : n = Z.of_nat (length bs) -> parses (load n) bs bs.
Proof.
  intros -> b k (?&?&?&?) Hr. unfold load, rest, advance in *.
  assert (Hl := f_equal length Hr). rewrite length_drop, length_app in Hl.
  rewrite (proj2 (Nat.leb_le _ _)) by lia. rewrite Nat2Z.id, Hr, take_app_length.
  by rewrite uwrap_small by (unfold is_uint; lia).
Qed.

Lemma parses_getOctet v : parses getOctet [v] v.
Proof. apply parses_check; [done|apply parses_load1]. Qed.

Lemma u8_split z n : 0 <= n -> uwrap (n + 8) z = u8 (Z.shiftr z n) * 2 ^ n + uwrap n z.
Proof.
  intros. unfold uwrap. rewrite Z.shiftr_div_pow2, Z.pow_add_r by lia.
  rewrite Z.rem_mul_r by lia. lia.
Qed.

Lemma u8_bound z : 0 <= u8 z < 256.
Proof. apply (uwrap_range 8). lia. Qed.

(** one byte placed at bit [n] *)
Lemma u8_shiftl w z n : 0 <= n -> n + 8 <= w -> uwrap w (Z.shiftl (u8 z) n) = u8 z * 2 ^ n.
Proof.
  intros. rewrite Z.shiftl_mul_pow2 by lia. apply uwrap_small. unfold is_uint.
  pose proof (u8_bound z).
  assert (2 ^ (n + 8) <= 2 ^ w) by (apply Z.pow_le_mono_r; lia).
  rewrite Z.pow_add_r in * by lia. nia.
Qed.

Lemma be16_value z : Z.lor (u16 (Z.shiftl (u8 (Z.shiftr z 8)) 8)) (u8 z) = u16 z.
Proof.
  rewrite u8_shiftl by lia. pose proof (u8_bound z).
  rewrite (lor_add _ _ 8); [|lia..|by rewrite Z.mod_mul by lia].
  by rewrite (u8_split z 8 ltac:(lia) : u16 z = _).
Qed.

Lemma be32_value z :
  Z.lor (Z.lor (Z.lor (u32 (Z.shiftl (u8 (Z.shiftr z 24)) 24))
                      (u32 (Z.shiftl (u8 (Z.shiftr z 16)) 16)))
               (u32 (Z.shiftl (u8 (Z.shiftr z 8)) 8))) (u8 z) = u32 z.
Proof.
  rewrite !u8_shiftl by lia.
  rewrite (u8_split z 24 ltac:(lia) : u32 z = _), (u8_split z 16 ltac:(lia) : uwrap 24 z = _),
    (u8_split z 8 ltac:(lia) : u16 z = _).
  pose proof (u8_bound z). pose proof (u8_bound (Z.shiftr z 8)).
  pose proof (u8_bound (Z.shiftr z 16)). pose proof (u8_bound (Z.shiftr z 24)).
  set (a := u8 (Z.shiftr z 24)) in *. set (b := u8 (Z.shiftr z 16)) in *.
  set (c := u8 (Z.shiftr z 8)) in *. set (d := u8 z) in *.
  rewrite (lor_add (a * 2 ^ 24) _ 24); [|lia..|by rewrite Z.mod_mul by lia].
  rewrite (lor_add _ (c * 2 ^ 8) 16); [|lia..|].
  2: { replace (a * 2 ^ 24 + b * 2 ^ 16) with ((a * 2 ^ 8 + b) * 2 ^ 16) by lia.
       by rewrite Z.mod_mul by lia. }
  rewrite (lor_add _ d 8); [lia|lia..|].
  replace (a * 2 ^ 24 + b * 2 ^ 16 + c * 2 ^ 8) with ((a * 2 ^ 16 + b * 2 ^ 8 + c) * 2 ^ 8) by lia.
  by rewrite Z.mod_mul by lia.
Qed.

Lemma parses_getShort z : parses getShort (be16 z) (u16 z).
Proof.
  apply parses_check; [done|]. rewrite <- be16_value.
  apply (parses_bind _ _ [_] [_] (u8 (Z.shiftr z 8))); [apply parses_load1|].
  apply (parses_map load1 (Z.lor _)), parses_load1.
Qed.

Lemma parses_getLong z : parses getLong (be32 z) (u32 z).
Proof.
  apply parses_check; [done|]. rewrite <- be32_value. unfold be32.
  repeat (eapply (parses_bind _ _ [_] _); [apply parses_load1|]).
  apply parses_ret.
Qed.

Lemma parses_getLongLong z : parses getLongLong (be64 z) (u64 z).
Proof.
  assert (E : Z.lor (u64 (Z.shiftl (u32 (u32 (Z.shiftr z 32))) 32)) (u32 (u32 z)) = u64 z).
  { pose proof (uwrap_range 32 z ltac:(lia)) as Hlo.
    pose proof (uwrap_range 32 (Z.shiftr z 32) ltac:(lia)) as Hhi.
    rewrite (uwrap_small 32 (u32 z)), (uwrap_small 32 (u32 (Z.shiftr z 32))) by done.
    unfold is_uint in *.
    rewrite Z.shiftl_mul_pow2, (uwrap_small 64) by (unfold is_uint; lia).
    rewrite (lor_add _ _ 32); [|lia..|by rewrite Z.mod_mul by lia].
    unfold uwrap. rewrite Z.shiftr_div_pow2 by lia. change (2 ^ 64) with (2 ^ 32 * 2 ^ 32).
    rewrite Z.rem_mul_r by lia. lia. }
  rewrite <- E. eapply parses_bind; [apply parses_getLong|].
  apply (parses_map getLong (Z.lor _)), parses_getLong.
Qed.

(** *** Strings *)

Lemma take_u_length w (s : list Z) : Z.of_nat (length s) < 2 ^ w ->
  take (Z.to_nat (uwrap w (Z.of_nat (length s)))) s = s.
Proof.
  intros. rewrite uwrap_small by (unfold is_uint; lia). rewrite Nat2Z.id. apply firstn_all.
Qed.

Lemma emits_putShortString s :
  Forall is_byte s -> Z.of_nat (length s) < 2 ^ 8 ->
  emits (putShortString s) (u8 (Z.of_nat (length s)) :: s).
Proof.
  intros Hs Hlen. unfold putShortString. rewrite (proj2 (Z.leb_le _ _)), take_u_length by lia.
  apply (emits_bind _ _ [_] s).
  - eapply emits_ext; [apply emits_putOctet|]. by rewrite (uwrap_small 8 (u8 _)) by apply is_byte_u8.
  - by apply emits_checked_store.
Qed.

Lemma emits_putMediumString s :
  Forall is_byte s -> Z.of_nat (length s) < 2 ^ 16 ->
  emits (putMediumString s) (be16 (Z.of_nat (length s)) ++ s).
Proof.
  intros Hs Hlen. unfold putMediumString. rewrite (proj2 (Z.leb_le _ _)), take_u_length by lia.
  apply emits_bind; [|by apply emits_checked_store].
  rewrite uwrap_small by (unfold is_uint; lia). apply emits_putShort.
Qed.

Lemma emits_putLongString s :
  Forall is_byte s -> Z.of_nat (length s) < 2 ^ 32 ->
  emits (putLongString s) (be32 (Z.of_nat (length s)) ++ s).
Proof.
  intros Hs Hlen. unfold putLongString. rewrite (proj2 (Z.leb_le _ _)), take_u_length by lia.
  apply emits_bind; [|by apply emits_checked_store].
  rewrite uwrap_small by (unfold is_uint; lia). apply emits_putLong.
Qed.

Lemma parses_checked_load bs n : n = Z.of_nat (length bs) -> parses (checkAvailable n ;; load n) bs bs.
Proof. intros. apply parses_check; [lia|by apply parses_load]. Qed.

Lemma parses_getShortString s : Z.of_nat (length s) < 2 ^ 8 ->
  parses getShortString (u8 (Z.of_nat (length s)) :: s) s.
Proof.
  intros. apply (parses_bind _ _ [_] s (u8 (Z.of_nat (length s)))); [apply parses_getOctet|].
  apply parses_checked_load. rewrite uwrap_small; [done|unfold is_uint; lia].
Qed.

Lemma parses_getMediumString s : Z.of_nat (length s) < 2 ^ 16 ->
  parses getMediumString (be16 (Z.of_nat (length s)) ++ s) s.
Proof.
  intros. eapply parses_bind; [apply parses_getShort|].
  apply parses_checked_load. rewrite uwrap_small; [done|unfold is_uint; lia].
Qed.

Lemma parses_getLongString s : Z.of_nat (length s) < 2 ^ 32 ->
  parses getLongString (be32 (Z.of_nat (length s)) ++ s) s.
Proof.
  intros. eapply parses_bind; [apply parses_getLong|].
  apply parses_checked_load. rewrite uwrap_small; [done|unfold is_uint; lia].
Qed.

(** *** Codecs

    What a type with [encode(Buffer&)] and [decode(Buffer&)] promises: on the
    values [codec_ok] both agree on one byte string. *)

Class Codec (A : Type) := {
  codec_ok : A -> Prop;
  codec_bytes : A -> list Z;
  codec_put : A -> M Buffer unit;
  codec_get : M Buffer A;
  codec_put_emits : forall a, codec_ok a -> emits (codec_put a) (codec_bytes a);
  codec_get_parses : forall a, codec_ok a -> parses codec_get (codec_bytes a) a;
}.

(** Writing a value and reading it back from where it was written. *)
Lemma emits_parses_roundtrip {A} put (get : M Buffer A) bs a b :
  emits put bs -> parses get bs a -> buf_wf b -> Z.of_nat (length bs) <= size b - position b ->
  exists b', put b = (b', Ret tt) /\ get (setPosition (position b) b') = (b', Ret a).
Proof.
  intros [Hb Hput] Hget Hwf Hroom. exists (write b bs). split; [by apply Hput|].
  erewrite Hget; [done|by apply write_back_wf|by apply rest_write_reset].
Qed.

Definition octet_codec : Codec Z.
Proof.
  refine {| codec_ok := is_uint 8; codec_bytes := fun z => [u8 z]; codec_put := putOctet;
            codec_get := getOctet |}.
  - intros. apply emits_putOctet.
  - intros a Ha. rewrite uwrap_small by done. apply parses_getOctet.
Defined.

Definition short_codec : Codec Z.
Proof.
  refine {| codec_ok := is_uint 16; codec_bytes := be16; codec_put := putShort; codec_get := getShort |}.
  - intros. apply emits_putShort.
  - intros a Ha. rewrite <- (uwrap_small 16 a Ha) at 2. apply parses_getShort.
Defined.

Definition long_codec : Codec Z.
Proof.
  refine {| codec_ok := is_uint 32; codec_bytes := be32; codec_put := putLong; codec_get := getLong |}.
  - intros. apply emits_putLong.
  - intros a Ha. rewrite <- (uwrap_small 32 a Ha) at 2. apply parses_getLong.
Defined.

Definition longlong_codec : Codec Z.
Proof.
  refine {| codec_ok := is_uint 64; codec_bytes := be64; codec_put := putLongLong; codec_get := getLongLong |}.
  - intros. apply emits_putLongLong.
  - intros a Ha. rewrite <- (uwrap_small 64 a Ha) at 2. apply parses_getLongLong.
Defined.

(** strings with a [w]-bit length prefix *)
Definition string_ok (w : Z) (s : list Z) : Prop := Forall is_byte s /\ Z.of_nat (length s) < 2 ^ w.

Definition shortstring_codec : Codec (list Z).
Proof.
  refine {| codec_ok := string_ok 8; codec_bytes := fun s => u8 (Z.of_nat (length s)) :: s;
            codec_put := putShortString; codec_get := getShortString |}.
  - intros s []. by apply emits_putShortString.
  - intros s []. by apply parses_getShortString.
Defined.

Definition mediumstring_codec : Codec (list Z).
Proof.
  refine {| codec_ok := string_ok 16; codec_bytes := fun s => be16 (Z.of_nat (length s)) ++ s;
            codec_put := putMediumString; codec_get := getMediumString |}.
  - intros s []. by apply emits_putMediumString.
  - intros s []. by apply parses_getMediumString.
Defined.

Definition longstring_codec : Codec (list Z).
Proof.
  refine {| codec_ok := string_ok 32; codec_bytes := fun s => be32 (Z.of_nat (length s)) ++ s;
            codec_put := putLongString; codec_get := getLongString |}.
  - intros s []. by apply emits_putLongString.
  - intros s []. by apply parses_getLongString.
Defined.

(** signed integers travel as their two's complement bits *)
Lemma swrap_roundtrip w i : 0 < w -> - 2 ^ (w - 1) <= i < 2 ^ (w - 1) -> swrap w (uwrap w i) = i.
Proof. intros. rewrite swrap_uwrap by lia. by apply swrap_small. Qed.

Lemma uwrap_idemp w z : 0 <= w -> uwrap w (uwrap w z) = uwrap w z.
Proof. intros. apply uwrap_small. by apply uwrap_range. Qed.

Definition is_sint (w z : Z) : Prop := - 2 ^ (w - 1) <= z < 2 ^ (w - 1).

Definition int8_codec : Codec Z.
Proof.
  refine {| codec_ok := is_sint 8; codec_bytes := fun i => [u8 i]; codec_put := putInt8; codec_get := getInt8 |}.
  - intros i _. apply emits_checked; [|done].
    replace [u8 i] with [u8 (u8 i)] by (by rewrite uwrap_idemp by lia). apply emits_raw_store1.
  - intros i Hi. rewrite <- (swrap_roundtrip 8 i) at 2 by (done || lia).
    apply parses_check; [done|]. apply (parses_map load1 s8), parses_load1.
Defined.

Definition int16_codec : Codec Z.
Proof.
  refine {| codec_ok := is_sint 16; codec_bytes := fun i => be16 (u16 i); codec_put := putInt16; codec_get := getInt16 |}.
  - intros i _. apply emits_putShort.
  - intros i Hi. rewrite <- (swrap_roundtrip 16 i) at 2 by (done || lia). rewrite <- (uwrap_idemp 16 i) at 2 by lia.
    apply (parses_map getShort s16), parses_getShort.
Defined.

Definition int32_codec : Codec Z.
Proof.
  refine {| codec_ok := is_sint 32; codec_bytes := fun i => be32 (u32 i); codec_put := putInt32; codec_get := getInt32 |}.
  - intros i _. apply emits_putLong.
  - intros i Hi. rewrite <- (swrap_roundtrip 32 i) at 2 by (done || lia). rewrite <- (uwrap_idemp 32 i) at 2 by lia.
    apply (parses_map getLong s32), parses_getLong.
Defined.

Definition int64_codec : Codec Z.
Proof.
  refine {| codec_ok := is_sint 64; codec_bytes := fun i => be64 (u64 i); codec_put := putInt64; codec_get := getInt64 |}.
  - intros i _. apply emits_putLongLong.
  - intros i Hi. rewrite <- (swrap_roundtrip 64 i) at 2 by (done || lia). rewrite <- (uwrap_idemp 64 i) at 2 by lia.
    apply (parses_map getLongLong s64), parses_getLongLong.
Defined.

(** *** Memory safety *)

Lemma safe_emits m bs : emits m bs -> safe m (fun _ => True).
Proof.
  intros [Hb H] b Hwf. destruct (H b Hwf) as [Hy Hn].
  destruct (Z.le_gt_cases (Z.of_nat (length bs)) (size b - position b)) as [Hr|Hr].
  - rewrite Hy by done. simpl. split_and!; auto; [by apply write_wf|lia].
  - destruct Hn as (b' & E & ? & ? & ?); [lia|]. rewrite E. simpl. split_and!; auto.
Qed.

Lemma safe_throw {A} e (Q : A -> Prop) : e <> UndefinedBehaviour -> safe (throw e) Q.
Proof. intros He b Hwf. simpl. split_and!; auto. lia. Qed.

Lemma safe_ret {A} (a : A) (Q : A -> Prop) : Q a -> safe (mret a) Q.
Proof. intros Ha b Hwf. simpl. split_and!; auto. lia. Qed.

Lemma safe_bind {A B} (m : M Buffer A) (f : A -> M Buffer B) Q R :
  safe m Q -> (forall a, Q a -> safe (f a) R) -> safe (m ≫= f) R.
Proof.
  intros Hm Hf b Hwf. specialize (Hm b Hwf). unfold mbind, M_bind.
  destruct (m b) as [b' [a|e]]; simpl in *; [|by destruct_and!; split_and!].
  destruct Hm as (Hwf' & Hs & Hp & Ha). destruct (Hf a Ha b' Hwf') as (? & ? & ? & ?).
  split_and!; auto; congruence || lia.
Qed.

(** with room for [n] bytes, [m] reads exactly [n] of them *)
Definition consumes {A} (n : Z) (m : M Buffer A) (Q : A -> Prop) : Prop :=
  forall b, buf_wf b -> n <= size b - position b -> exists a, m b = (advance b n, Ret a) /\ Q a.

Lemma consumes_load1 : consumes 1 load1 (fun a => 0 <= a).
Proof.
  intros b (?&?&?&Hb) Hn. unfold load1, advance.
  destruct (lookup_lt_is_Some_2 (data b) (Z.to_nat (position b))) as [v Hv]; [lia|].
  rewrite Hv, (uwrap_small 32) by (unfold is_uint; lia). eexists; split; [done|].
  eapply Forall_lookup_1 in Hb; [|exact Hv]. by destruct Hb.
Qed.

Lemma consumes_load n : 0 <= n -> consumes n (load n) (fun _ => True).
Proof.
  intros Hn0 b (?&?&?&?) Hn. unfold load, advance. rewrite (proj2 (Nat.leb_le _ _)) by lia.
  rewrite (uwrap_small 32) by (unfold is_uint; lia). eauto.
Qed.

Lemma consumes_ret {A} (a : A) (Q : A -> Prop) : Q a -> consumes 0 (mret a) Q.
Proof. intros Ha b _ _. exists a. split; [|done]. destruct b. unfold advance; simpl. by rewrite Z.add_0_r. Qed.

Lemma consumes_bind {A B} n k (m : M Buffer A) (f : A -> M Buffer B) Q R :
  0 <= n -> 0 <= k -> consumes n m Q -> (forall a, Q a -> consumes k (f a) R) -> consumes (n + k) (m ≫= f) R.
Proof.
  intros Hn Hk Hm Hf b Hwf Hroom. destruct (Hm b Hwf ltac:(lia)) as (a & E & Ha).
  rewrite (bind_Ret _ _ _ _ _ E). destruct (Hf a Ha (advance b n)) as (c & E' & Hc).
  - apply advance_wf; [done|lia].
  - simpl. lia.
  - exists c. by rewrite E', advance_advance.
Qed.

Lemma safe_checked {A} n (m : M Buffer A) Q :
  0 <= n -> consumes n m Q -> safe (checkAvailable n ;; m) Q.
Proof.
  intros Hn Hm b Hwf. unfold mbind, M_bind, checkAvailable. rewrite available_wf by done.
  case_ltb; simpl; [split_and!; auto; lia|].
  destruct (Hm b Hwf) as (a & E & Ha); [lia|]. rewrite E. simpl.
  split_and!; auto; [apply advance_wf; [done|lia]|lia].
Qed.

Lemma safe_getOctet : safe getOctet (fun a => 0 <= a).
Proof. apply safe_checked; [done|apply consumes_load1]. Qed.

Lemma safe_getShort : safe getShort (fun a => 0 <= a).
Proof.
  apply safe_checked; [done|].
  apply (consumes_bind 1 1 _ _ (fun a => 0 <= a)); [done..|apply consumes_load1|].
  intros hi Hhi. apply (consumes_bind 1 0 _ _ (fun a => 0 <= a)); [done..|apply consumes_load1|].
  intros lo Hlo. apply consumes_ret. apply Z.lor_nonneg. split; [|done].
  by apply (uwrap_range 16).
Qed.

Lemma safe_getLong : safe getLong (fun a => 0 <= a).
Proof.
  apply safe_checked; [done|].
  apply (consumes_bind 1 3 _ _ (fun a => 0 <= a)); [done..|apply consumes_load1|intros a Ha].
  apply (consumes_bind 1 2 _ _ (fun a => 0 <= a)); [done..|apply consumes_load1|intros b Hb].
  apply (consumes_bind 1 1 _ _ (fun a => 0 <= a)); [done..|apply consumes_load1|intros c Hc].
  apply (consumes_bind 1 0 _ _ (fun a => 0 <= a)); [done..|apply consumes_load1|intros d Hd].
  apply consumes_ret. rewrite !Z.lor_nonneg. split_and!; auto; by apply (uwrap_range 32).
Qed.

Lemma safe_getLongLong : safe getLongLong (fun a => 0 <= a).
Proof.
  eapply safe_bind; [apply safe_getLong|]. intros hi Hhi.
  eapply safe_bind; [apply safe_getLong|]. intros lo Hlo. apply safe_ret.
  apply Z.lor_nonneg. split; [by apply (uwrap_range 64)|done].
Qed.

Lemma safe_weaken {A} (m : M Buffer A) Q : safe m Q -> safe m (fun _ => True).
Proof. intros H b Hwf. destruct (H b Hwf) as (?&?&?&?). split_and!; auto. by destruct (m b).2. Qed.

Lemma safe_getRawData n : 0 <= n -> safe (getRawData n) (fun _ => True).
Proof. intros. apply safe_checked; [done|by apply consumes_load]. Qed.

Lemma safe_sized {A} (m : M Buffer Z) (f : Z -> M Buffer A) :
  safe m (fun a => 0 <= a) -> (forall n, 0 <= n -> safe (f n) (fun _ => True)) ->
  safe (m ≫= f) (fun _ => True).
Proof. intros. by eapply safe_bind. Qed.

Lemma safe_mapped {A B} (m : M Buffer A) (f : A -> B) Q :
  safe m Q -> safe (x ← m; mret (f x)) (fun _ => True).
Proof. intros. eapply safe_bind; [done|]. intros. by apply safe_ret. Qed.

#[export] Hint Resolve safe_getOctet safe_getShort safe_getLong safe_getLongLong safe_getRawData
  safe_sized safe_mapped : qpid.

(** ** The values of the wire and their layout *)

Inductive wire_type :=
| WOctet | WShort | WLong | WLongLong | WInt8 | WInt16 | WInt32 | WInt64
| WShortString | WMediumString | WLongString.

Inductive wire_value :=
| VInt (t : wire_type) (z : Z)
| VStr (t : wire_type) (s : list Z).

(** the codec of the integer types, and of the string types *)
Definition int_codec (t : wire_type) : option (Codec Z) :=
  match t with
  | WOctet => Some octet_codec | WShort => Some short_codec
  | WLong => Some long_codec | WLongLong => Some longlong_codec
  | WInt8 => Some int8_codec | WInt16 => Some int16_codec
  | WInt32 => Some int32_codec | WInt64 => Some int64_codec
  | _ => None
  end.

Definition str_codec (t : wire_type) : option (Codec (list Z)) :=
  match t with
  | WShortString => Some shortstring_codec | WMediumString => Some mediumstring_codec
  | WLongString => Some longstring_codec
  | _ => None
  end.

Definition value_type (v : wire_value) : wire_type := match v with VInt t _ | VStr t _ => t end.

(** the calls that write, and read, a value of each type *)
Definition put_value (v : wire_value) : M Buffer unit :=
  match v with
  | VInt WOctet z => putOctet z | VInt WShort z => putShort z
  | VInt WLong z => putLong z | VInt WLongLong z => putLongLong z
  | VInt WInt8 z => putInt8 z | VInt WInt16 z => putInt16 z
  | VInt WInt32 z => putInt32 z | VInt WInt64 z => putInt64 z
  | VStr WShortString s => putShortString s
  | VStr WMediumString s => putMediumString s
  | VStr WLongString s => putLongString s
  | _ => throw Exception
  end.

Definition get_value (t : wire_type) : M Buffer wire_value :=
  match t with
  | WOctet => z ← getOctet; mret (VInt t z) | WShort => z ← getShort; mret (VInt t z)
  | WLong => z ← getLong; mret (VInt t z) | WLongLong => z ← getLongLong; mret (VInt t z)
  | WInt8 => z ← getInt8; mret (VInt t z) | WInt16 => z ← getInt16; mret (VInt t z)
  | WInt32 => z ← getInt32; mret (VInt t z) | WInt64 => z ← getInt64; mret (VInt t z)
  | WShortString => s ← getShortString; mret (VStr t s)
  | WMediumString => s ← getMediumString; mret (VStr t s)
  | WLongString => s ← getLongString; mret (VStr t s)
  end.

Definition value_ok (v : wire_value) : Prop :=
  match v with
  | VInt t z => match int_codec t with Some c => @codec_ok _ c z | None => False end
  | VStr t s => match str_codec t with Some c => @codec_ok _ c s | None => False end
  end.

Definition value_bytes (v : wire_value) : list Z :=
  match v with
  | VInt t z => match int_codec t with Some c => @codec_bytes _ c z | None => [] end
  | VStr t s => match str_codec t with Some c => @codec_bytes _ c s | None => [] end
  end.

Fixpoint put_values (vs : list wire_value) : M Buffer unit :=
  match vs with [] => mret tt | v :: vs' => put_value v ;; put_values vs' end.

Fixpoint get_values (ts : list wire_type) : M Buffer (list wire_value) :=
  match ts with
  | [] => mret []
  | t :: ts' => v ← get_value t; vs ← get_values ts'; mret (v :: vs)
  end.

Lemma emits_put_value v : value_ok v -> emits (put_value v) (value_bytes v).
Proof.
  destruct v as [[] z|[] s]; try done; simpl;
    [apply (@codec_put_emits _ octet_codec) | apply (@codec_put_emits _ short_codec)
    | apply (@codec_put_emits _ long_codec) | apply (@codec_put_emits _ longlong_codec)
    | apply (@codec_put_emits _ int8_codec) | apply (@codec_put_emits _ int16_codec)
    | apply (@codec_put_emits _ int32_codec) | apply (@codec_put_emits _ int64_codec)
    | apply (@codec_put_emits _ shortstring_codec) | apply (@codec_put_emits _ mediumstring_codec)
    | apply (@codec_put_emits _ longstring_codec)].
Qed.

Lemma parses_get_value v : value_ok v -> parses (get_value (value_type v)) (value_bytes v) v.
Proof.
  destruct v as [[] z|[] s]; try done; simpl; intros H; eapply parses_map;
    [apply (@codec_get_parses _ octet_codec) | apply (@codec_get_parses _ short_codec)
    | apply (@codec_get_parses _ long_codec) | apply (@codec_get_parses _ longlong_codec)
    | apply (@codec_get_parses _ int8_codec) | apply (@codec_get_parses _ int16_codec)
    | apply (@codec_get_parses _ int32_codec) | apply (@codec_get_parses _ int64_codec)
    | apply (@codec_get_parses _ shortstring_codec) | apply (@codec_get_parses _ mediumstring_codec)
    | apply (@codec_get_parses _ longstring_codec)]; exact H.
Qed.

(** a sequence of values is itself a codec *)
Lemma emits_put_values vs :
  Forall value_ok vs -> emits (put_values vs) (concat (map value_bytes vs)).
Proof.
  induction 1 as [|v vs Hv Hvs IH]; simpl; [apply emits_nil|].
  apply emits_bind; [by apply emits_put_value|done].
Qed.

Lemma parses_get_values vs :
  Forall value_ok vs -> parses (get_values (map value_type vs)) (concat (map value_bytes vs)) vs.
Proof.
  induction 1 as [|v vs Hv Hvs IH]; simpl; [apply parses_ret|].
  eapply parses_bind; [by apply parses_get_value|].
  apply (parses_map (get_values (map value_type vs)) (cons v)), IH.
Qed.

(** ** Theorems *)

(** C38: whatever sequence of octets, shorts, longs, long longs, signed integers and
    short, medium or long strings is written with the [put] calls into a buffer with
    room for its encoding, no exception is thrown and reading with the [get] calls of
    the same types from where the writing started returns the same values and leaves
    the cursor where the writing ended. *)
Theorem values_roundtrip vs b :
  Forall value_ok vs -> buf_wf b ->
  Z.of_nat (length (concat (map value_bytes vs))) <= size b - position b ->
  exists b', put_values vs b = (b', Ret tt)
    /\ get_values (map value_type vs) (setPosition (position b) b') = (b', Ret vs).
Proof.
  intros Hvs Hwf Hroom. eapply emits_parses_roundtrip; [..|exact Hroom]; auto.
  - by apply emits_put_values.
  - by apply parses_get_values.
Qed.

Lemma values_roundtrip_witness :
  exists b', put_values [VInt WShort 513; VInt WInt32 (-2); VStr WShortString [65; 66]]
               (new_Buffer (replicate 12 0) 12) = (b', Ret tt)
    /\ get_values [WShort; WInt32; WShortString] (setPosition 0 b')
       = (b', Ret [VInt WShort 513; VInt WInt32 (-2); VStr WShortString [65; 66]]).
Proof.
  apply (values_roundtrip [VInt WShort 513; VInt WInt32 (-2); VStr WShortString [65; 66]]
           (new_Buffer (replicate 12 0) 12)).
  - repeat constructor; simpl; try lia; vm_compute; intuition congruence.
  - unfold buf_wf; simpl. split_and!; try lia. repeat constructor; vm_compute; congruence.
  - vm_compute. congruence.
Defined.

(**  no reader accesses memory outside the buffer: on any well-formed buffer (any
    content, any cursor) each [get] either returns or throws [OutOfBounds], and leaves
    the buffer well formed with its size unchanged and its cursor not moved back.  This
    includes the strings, whose length comes from the data. *)
Theorem getters_memory_safe :
  safe getOctet (fun _ => True) /\ safe getShort (fun _ => True) /\ safe getLong (fun _ => True)
  /\ safe getLongLong (fun _ => True) /\ safe getInt8 (fun _ => True)
  /\ safe getInt16 (fun _ => True) /\ safe getInt32 (fun _ => True)
  /\ safe getInt64 (fun _ => True) /\ safe getShortString (fun _ => True)
  /\ safe getMediumString (fun _ => True) /\ safe getLongString (fun _ => True)
  /\ safe getBin128 (fun _ => True).
Proof.
  split_and!; try (eapply safe_weaken; eauto with qpid; fail);
    try (eapply safe_mapped; eauto with qpid; fail);
    try (apply safe_sized; eauto with qpid; fail).
  - apply safe_checked; [done|]. apply (consumes_bind 1 0 _ _ (fun a => 0 <= a)); [done..|apply consumes_load1|].
    intros. by apply consumes_ret.
  - apply safe_checked; [done|by apply consumes_load].
Qed.

(**  a [put] of a value that does not fit its type is refused before anything is
    written: the buffer is unchanged. *)
Theorem oversize_rejected b i s :
  (255 < i -> putUInt1 i b = (b, Throw Exception))
  /\ (65535 < i -> putUInt2 i b = (b, Throw Exception))
  /\ (4294967295 < i -> putUInt4 i b = (b, Throw Exception))
  /\ (255 < Z.of_nat (length s) -> putShortString s b = (b, Throw Exception))
  /\ (65535 < Z.of_nat (length s) -> putMediumString s b = (b, Throw Exception))
  /\ (4294967295 < Z.of_nat (length s) -> putLongString s b = (b, Throw Exception)).
Proof.
  unfold putUInt1, putUInt2, putUInt4, putShortString, putMediumString, putLongString.
  split_and!; intros H; (rewrite (proj2 (Z.leb_gt _ _) H), ?andb_false_r; done).
Qed.

Lemma oversize_rejected_witness :
  255 < 256 /\ putUInt1 256 (new_Buffer [] 0) = (new_Buffer [] 0, Throw Exception).
Proof. split; [lia|]. apply (proj1 (oversize_rejected (new_Buffer [] 0) 256 [])). lia. Defined.

