(* ===== verification/SequenceSet.v ===== *)
(** * Sequence sets on the wire (src/qpid/framing/SequenceSet.h, SequenceSet.cpp)

    [SequenceSet] is [RangeSet<SequenceNumber>] with the AMQP 0-10 encoding: a
    16-bit byte count, then the first and last number of every range.  [decode]
    rebuilds the set with [add]; C++ leaves the order in which the two
    [getLong()] arguments of [add] are evaluated open, so the model takes it as
    an argument. *)

From S2P Require Import Prelude SequenceNumber RangeSet Buffer.
Local Open Scope Z_scope.

Module SequenceSet.

Abbreviation t := (RangeSet SequenceNumber.t).

Definition RANGE_SIZE : Z := 8.

Definition add1 (set : t) (s : SequenceNumber.t) : t := add_elt set s.
Definition add (set : t) (start finish : SequenceNumber.t) : t :=
  addRange set (makeClosed (SequenceNumber.min start finish) (SequenceNumber.max start finish)).
Definition addAll (set other : t) : t := addSet set other.
Definition remove1 (set : t) (s : SequenceNumber.t) : t := remove_elt set s.
Definition remove (set : t) (start finish : SequenceNumber.t) : t :=
  removeRange set (makeClosed (SequenceNumber.min start finish) (SequenceNumber.max start finish)).
Definition removeAll (set other : t) : t := removeSet set other.
Definition contains (set : t) (s : SequenceNumber.t) : bool := RangeSet.contains set s.

Definition encodedSize (set : t) : Z := u32 (2 + Z.of_nat (length set) * RANGE_SIZE).

Fixpoint encode_ranges (set : t) : M Buffer unit :=
  match set with
  | [] => mret tt
  | r :: set' => putLong (range_first r) ;; putLong (range_last r) ;; encode_ranges set'
  end.

Definition encode (set : t) : M Buffer unit :=
  putShort (u16 (Z.of_nat (length set) * RANGE_SIZE)) ;; encode_ranges set.

Fixpoint decode_ranges (left_first : bool) (count : nat) : M (t * Buffer) unit :=
  match count with
  | O => mret tt
  | S n =>
      x ← on_buffer getLong;
      y ← on_buffer getLong;
      modify (fun '(set, b) =>
        (if left_first then add set (SequenceNumber.mk x) (SequenceNumber.mk y)
         else add set (SequenceNumber.mk y) (SequenceNumber.mk x), b)) ;;
      decode_ranges left_first n
  end.

Definition decode (left_first : bool) : M (t * Buffer) unit :=
  modify (fun '(_, b) => ([], b)) ;;
  size ← on_buffer getShort;
  let count := size / RANGE_SIZE in
  if negb (size mod RANGE_SIZE =? 0) then throw IllegalArgumentException
  else decode_ranges left_first (Z.to_nat count).

(** ** Lemmas *)

Section window.
Context (base : SequenceNumber.t).
Abbreviation P := (SequenceNumber.in_window base).
Abbreviation off := (SequenceNumber.off base).

Definition wf (set : t) : Prop := rs_wf P off set.
Definition mem (set : t) (z : Z) : Prop := rs_mem off set z.

#[global] Instance wf_dec set : Decision (wf set).
Proof.
  induction set as [|r set IH]; unfold wf in *; simpl; [apply _|]. unfold range_ok. apply _.
Defined.

(** [first] and [last] of a range give it back through [add] *)
Lemma makeClosed_first_last r (l : bool) :
  range_ok P off r ->
  let '(a, b) := if l then (range_first r, range_last r) else (range_last r, range_first r) in
  makeClosed (SequenceNumber.min a b) (SequenceNumber.max a b) = r.
Proof.
  intros (Hb & He & Hlt). destruct r as [f e]; simpl in *.
  destruct (emb_decr e f He Hb Hlt) as [Hd Hoff]. simpl in Hd, Hoff.
  destruct (SequenceNumber.window_min_max base f (SequenceNumber.decr e)) as (E1 & E2 & E3 & E4);
    [done..|lia|].
  unfold range_first, range_last, makeClosed. simpl.
  destruct l; rewrite ?E1, ?E2, ?E3, ?E4; f_equal; apply SequenceNumber.decr_incr, He.
Qed.

(** the bytes of a range, and of a set *)
Definition range_bytes (r : Range SequenceNumber.t) : list Z :=
  be32 (range_first r) ++ be32 (range_last r).

Definition set_bytes (set : t) : list Z :=
  be16 (u16 (Z.of_nat (length set) * RANGE_SIZE))
  ++ concat (map range_bytes set).

Lemma emits_encode_ranges set :
  emits (encode_ranges set) (concat (map range_bytes set)).
Proof.
  induction set as [|r set IH]; [apply emits_nil|].
  cbn [encode_ranges map concat]. unfold range_bytes at 1. rewrite <- app_assoc.
  repeat (apply emits_bind; [apply emits_putLong|]). exact IH.
Qed.

Lemma emits_encode set : emits (encode set) (set_bytes set).
Proof. apply emits_bind; [apply emits_putShort|apply emits_encode_ranges]. Qed.

Lemma wf_uint a : P a -> SequenceNumber.mk (u32 a) = a.
Proof.
  intros [Ha _]. unfold SequenceNumber.mk. rewrite !(uwrap_small 32 a); [done|apply Ha..].
Qed.

Lemma decode_ranges_spec l rs acc b k :
  Forall (range_ok P off) rs -> buf_wf b ->
  rest b = concat (map range_bytes rs) ++ k ->
  exists b', decode_ranges l (length rs) (acc, b) = ((addSet acc rs, b'), Ret tt)
    /\ buf_wf b' /\ rest b' = k.
Proof.
  revert acc b. induction rs as [|r rs IH]; intros acc b Hrs Hwf Hr; [simpl in *; eauto|].
  cbn [decode_ranges map concat length] in *.
  apply Forall_cons in Hrs as [Hok Hrs]. unfold range_bytes at 1 in Hr. rewrite <- !app_assoc in Hr.
  destruct (parses_step _ _ _ _ _ (parses_getLong _) Hwf Hr) as (b1 & E1 & Hwf1 & Hr1 & _).
  destruct (parses_step _ _ _ _ _ (parses_getLong _) Hwf1 Hr1) as (b2 & E2 & Hwf2 & Hr2 & _).
  destruct (IH (addRange acc r) _ Hrs Hwf2 Hr2) as (b' & E & ? & ?). exists b'.
  split; [|done]. unfold mbind, M_bind, on_buffer. rewrite E1, E2. unfold modify.
  change (addSet acc (r :: rs)) with (addSet (addRange acc r) rs). rewrite <- E.
  f_equal. f_equal. pose proof (makeClosed_first_last r l Hok) as Hmc.
  destruct Hok as (Hb & He & Hlt).
  destruct (emb_decr (end_ r) (begin_ r) He Hb Hlt) as [Hd _]. simpl in Hd.
  unfold add. unfold range_first, range_last in *. simpl in *.
  rewrite !wf_uint by done. destruct l; by rewrite Hmc.
Qed.

(** the ranges counted by the 16-bit size word *)
Definition count16 (set : t) : nat := Z.to_nat (Z.of_nat (length set) mod 8192).
Definition counted (set : t) : t := take (count16 set) set.

Lemma counted_all set : Z.of_nat (length set) < 8192 -> counted set = set.
Proof. intros H. unfold counted, count16. rewrite Z.mod_small by lia. apply take_ge. lia. Qed.

Lemma wf_take n set : wf set -> wf (take n set).
Proof.
  intros H. rewrite <- (take_drop n set) in H. apply (rs_wf_app P off) in H. tauto.
Qed.

Lemma counted_size set :
  u16 (Z.of_nat (length set) * RANGE_SIZE) = Z.of_nat (length (counted set)) * RANGE_SIZE.
Proof.
  unfold counted, count16, RANGE_SIZE, uwrap. change (2 ^ 16) with (8192 * 8).
  rewrite Z.mul_mod_distr_r, length_take by lia. f_equal.
  pose proof (Z.mod_pos_bound (Z.of_nat (length set)) 8192 ltac:(lia)).
  pose proof (Z.mod_le (Z.of_nat (length set)) 8192 ltac:(lia) ltac:(lia)). lia.
Qed.

Lemma decode_spec l set old b k :
  wf set -> buf_wf b -> rest b = set_bytes set ++ k ->
  exists b', decode l (old, b) = ((counted set, b'), Ret tt) /\ buf_wf b'
    /\ rest b' = concat (map range_bytes (drop (count16 set) set)) ++ k.
Proof.
  intros Hset Hwf Hr. unfold decode, set_bytes in *. rewrite <- app_assoc in Hr.
  destruct (parses_step _ _ _ _ _ (parses_getShort _) Hwf Hr) as (b1 & E1 & Hwf1 & Hr1 & _).
  rewrite uwrap_idemp, counted_size in E1 by lia.
  rewrite <- (take_drop (count16 set) set), map_app, concat_app, <- app_assoc in Hr1.
  fold (counted set) in Hr1. pose proof (wf_take (count16 set) set Hset) as Hc.
  fold (counted set) in Hc.
  destruct (decode_ranges_spec l _ [] _ _ (rs_wf_Forall _ _ _ Hc) Hwf1 Hr1) as (b' & E & ? & ?).
  exists b'. split; [|done]. unfold mbind, M_bind, modify, on_buffer. rewrite E1.
  rewrite Z.mod_mul, Z.div_mul by (unfold RANGE_SIZE; lia). simpl. rewrite Nat2Z.id, E.
  repeat f_equal. destruct (addSet_spec P off [] (counted set)) as [Hwf' Hmem];
    [done|by eapply rs_wf_Forall|].
  apply (rs_canonical P off); [done..|]. intros z. rewrite Hmem, rs_mem_nil. tauto.
Qed.

Lemma length_set_bytes set : length (set_bytes set) = (2 + 8 * length set)%nat.
Proof.
  unfold set_bytes. rewrite length_app. change (length (be16 _)) with 2%nat. f_equal.
  induction set as [|r set IH]; [done|]. cbn [map concat]. rewrite length_app, IH.
  change (length (range_bytes r)) with 8%nat. simpl. lia.
Qed.

(** Encoding and then decoding keeps the ranges the size word counts. *)
Lemma encode_decode l set old b :
  wf set -> buf_wf b -> 2 + 8 * Z.of_nat (length set) <= size b - position b ->
  exists b1 b2, encode set b = (b1, Ret tt) /\ position b1 = position b + (2 + 8 * Z.of_nat (length set))
    /\ decode l (old, setPosition (position b) b1) = ((counted set, b2), Ret tt).
Proof.
  intros Hset Hwf Hroom. destruct (emits_encode set) as [Hb He].
  pose proof (length_set_bytes set) as Hl.
  exists (write b (set_bytes set)). destruct (He b Hwf) as [-> _]; [|lia].
  destruct (decode_spec l set old _ _ Hset (write_back_wf b (set_bytes set) Hwf Hb ltac:(lia))
              (rest_write_reset b (set_bytes set) Hwf ltac:(lia))) as (b2 & E & _).
  exists b2. split_and!; [done| |done]. unfold write. cbn [position]. rewrite Hl. lia.
Qed.

(** membership through [contains] *)
Lemma contains_mem set x : wf set -> P x -> contains set x = true <-> mem set (off x).
Proof. apply (contains_spec P off). Qed.

Lemma contains_mem_bool s1 s2 s3 x (f : bool -> bool -> bool) :
  wf s1 -> wf s2 -> wf s3 -> P x ->
  (forall p q : bool, p = true <-> mem s1 (off x) -> q = true <-> mem s2 (off x) ->
     mem s3 (off x) <-> f p q = true) ->
  contains s3 x = f (contains s1 x) (contains s2 x).
Proof.
  intros H1 H2 H3 Hx Hf. apply eq_true_iff_eq. rewrite contains_mem by done.
  apply Hf; by apply contains_mem.
Qed.

Lemma mem_range set z : wf set -> mem set z -> 0 <= z < 2 ^ 31.
Proof.
  intros Hwf Hz. apply rs_wf_Forall in Hwf. apply Exists_exists in Hz as (r & Hr & Hz).
  rewrite Forall_forall in Hwf. destruct (Hwf r Hr) as (_ & [_ He] & _).
  pose proof (SequenceNumber.off_range base (begin_ r)). unfold range_mem in Hz. lia.
Qed.

Lemma rs_len_window set : wf set -> rs_len off set < 2 ^ 31.
Proof.
  intros Hwf. enough (rs_len off set <= 2 ^ 31 - 1 - 0) by lia.
  apply (rs_len_bound P); [done| |lia].
  apply Forall_forall. intros r Hr. apply rs_wf_Forall in Hwf. rewrite Forall_forall in Hwf.
  destruct (Hwf r Hr) as (_ & [_ He] & _). pose proof (SequenceNumber.off_range base (begin_ r)). lia.
Qed.

Lemma closed_range_ok a b :
  P a -> P b -> P (SequenceNumber.incr b) -> off a <= off b ->
  range_ok P off (makeClosed a b) /\ forall z, range_mem off (makeClosed a b) z <-> off a <= z <= off b.
Proof.
  intros Ha Hb Hi Hle. pose proof (SequenceNumber.window_incr base b Hb).
  unfold range_ok, range_mem, makeClosed. simpl. split; [split_and!; done || lia|]. intros z. lia.
Qed.

End window.

(** C32: union and difference.  On sets inside any window of sequence numbers,
    wherever it lies around the wrap-around, [addAll] and [removeAll] keep the
    ranges sorted, disjoint and non-adjacent, and compute exactly the union
    and the difference. *)
Theorem addAll_removeAll_spec base s1 s2 x :
  wf base s1 -> wf base s2 -> SequenceNumber.in_window base x ->
  wf base (addAll s1 s2) /\ wf base (removeAll s1 s2)
  /\ contains (addAll s1 s2) x = contains s1 x || contains s2 x
  /\ contains (removeAll s1 s2) x = contains s1 x && negb (contains s2 x).
Proof.
  intros H1 H2 Hx. pose proof (rs_wf_Forall _ _ _ H2) as H2'.
  destruct (addSet_spec _ _ s1 s2 H1 H2') as [Ha Ma]. destruct (removeSet_spec _ _ s1 s2 H1 H2') as [Hr Mr].
  split_and!; [done..| |].
  - apply (contains_mem_bool base s1 s2 _ _ orb); [done..|]. intros p q Hp Hq. unfold mem in *.
    rewrite Ma, orb_true_iff. tauto.
  - apply (contains_mem_bool base s1 s2 _ _ (fun p q => p && negb q)); [done..|].
    intros p q Hp Hq. unfold mem in *. rewrite Mr, andb_true_iff, negb_true_iff, <- Hp, <- Hq.
    destruct q; intuition congruence.
Qed.

(** a set on both sides of the wrap-around *)
Definition wrapped : t := [mkRange 4294967290 4294967293; mkRange 4294967295 3].

Lemma wrapped_wf : wf 4294967286 wrapped.
Proof. apply (bool_decide_unpack _). vm_compute. done. Qed.

Lemma addAll_removeAll_spec_witness :
  let s2 := [mkRange 4294967292 1] in
  wf 4294967286 (addAll wrapped s2) /\ wf 4294967286 (removeAll wrapped s2)
  /\ contains (addAll wrapped s2) 1 = contains wrapped 1 || contains s2 1
  /\ contains (removeAll wrapped s2) 1 = contains wrapped 1 && negb (contains s2 1).
Proof.
  apply (addAll_removeAll_spec 4294967286 wrapped [mkRange 4294967292 1] 1 wrapped_wf).
  - apply (bool_decide_unpack _). vm_compute. done.
  - apply (bool_decide_unpack _). vm_compute. done.
Defined.

Lemma interval_spec base set a b x :
  wf base set -> SequenceNumber.in_window base a -> SequenceNumber.in_window base b ->
  SequenceNumber.in_window base (SequenceNumber.incr (SequenceNumber.max a b)) ->
  SequenceNumber.in_window base x ->
  let between := SequenceNumber.leb (SequenceNumber.min a b) x
                 && SequenceNumber.leb x (SequenceNumber.max a b) in
  wf base (add set a b) /\ wf base (remove set a b)
  /\ contains (add set a b) x = contains set x || between
  /\ contains (remove set a b) x = contains set x && negb between.
Proof.
  intros Hs Ha Hb Hi Hx between.
  assert (Hmm : SequenceNumber.in_window base (SequenceNumber.min a b)
          /\ SequenceNumber.in_window base (SequenceNumber.max a b)
          /\ SequenceNumber.off base (SequenceNumber.min a b) <= SequenceNumber.off base (SequenceNumber.max a b)).
  { destruct (Z.le_ge_cases (SequenceNumber.off base a) (SequenceNumber.off base b)) as [H|H].
    - destruct (SequenceNumber.window_min_max base a b Ha Hb H) as (-> & -> & _); done.
    - destruct (SequenceNumber.window_min_max base b a Hb Ha H) as (_ & _ & -> & ->); done. }
  destruct Hmm as (Hmin & Hmax & Hle). unfold add, remove.
  destruct (closed_range_ok base _ _ Hmin Hmax Hi Hle) as [Hok Hmem].
  destruct (addRange_spec _ _ set _ Hs Hok) as [Ha' Ma]. destruct (removeRange_spec _ _ set _ Hs Hok) as [Hr' Mr].
  assert (Hbt : between = true <-> range_mem (SequenceNumber.off base)
     (makeClosed (SequenceNumber.min a b) (SequenceNumber.max a b)) (SequenceNumber.off base x)).
  { rewrite Hmem. unfold between, SequenceNumber.leb. rewrite !(SequenceNumber.window_lt base) by done.
    rewrite andb_true_iff, !negb_true_iff, !Z.ltb_ge. tauto. }
  split_and!; [done..| |]; apply eq_true_iff_eq; rewrite (contains_mem base) by done; unfold mem.
  - by rewrite Ma, orb_true_iff, Hbt, (contains_mem base).
  - rewrite Mr, andb_true_iff, negb_true_iff, <- Hbt, (contains_mem base) by done. unfold mem.
    destruct between; intuition congruence.
Qed.

(**  intervals.  [add(a, b)] adds and [remove(a, b)] removes exactly the
    numbers from the smaller to the larger of [a] and [b], both included and
    given in either order, and keeps the set well formed. *)
Theorem add_remove_interval base set a b x :
  wf base set -> SequenceNumber.in_window base a -> SequenceNumber.in_window base b ->
  SequenceNumber.in_window base (SequenceNumber.incr (SequenceNumber.max a b)) ->
  SequenceNumber.in_window base x ->
  let between := SequenceNumber.leb (SequenceNumber.min a b) x
                 && SequenceNumber.leb x (SequenceNumber.max a b) in
  wf base (add set a b) /\ wf base (remove set a b)
  /\ contains (add set a b) x = contains set x || between
  /\ contains (remove set a b) x = contains set x && negb between.
Proof. apply interval_spec. Qed.

Lemma add_remove_interval_witness :
  let between := SequenceNumber.leb 4294967294 1 && SequenceNumber.leb 1 5 in
  wf 4294967286 (add wrapped 5 4294967294) /\ wf 4294967286 (remove wrapped 5 4294967294)
  /\ contains (add wrapped 5 4294967294) 1 = contains wrapped 1 || between
  /\ contains (remove wrapped 5 4294967294) 1 = contains wrapped 1 && negb between.
Proof.
  apply (add_remove_interval 4294967286 wrapped 5 4294967294 1 wrapped_wf);
    apply (bool_decide_unpack _); vm_compute; done.
Defined.

(**  canonical form.  Two sets inside one window are [==] exactly when they
    contain the same numbers. *)
Theorem equality_extensional base s1 s2 :
  wf base s1 -> wf base s2 ->
  rangeset_eq s1 s2 = true
  <-> (forall x, SequenceNumber.in_window base x -> contains s1 x = contains s2 x).
Proof.
  intros H1 H2. split.
  - intros E x _. by rewrite (rangeset_eq_mem _ _ s1 s2 H1 H2 E).
  - intros Hext. enough (s1 = s2) as -> by (by apply (rangeset_eq_refl _ _ s2 H2)).
    apply (rs_canonical _ _ s1 s2 H1 H2).
    assert (Hdir : forall s s', wf base s -> wf base s' ->
              (forall x, SequenceNumber.in_window base x -> contains s x = contains s' x) ->
              forall z, mem base s z -> mem base s' z).
    { intros s s' Hs Hs' E z Hz.
      destruct (SequenceNumber.at_off_spec base z (mem_range base s z Hs Hz)) as [HP Hoff].
      rewrite <- Hoff in Hz |- *. apply (contains_mem base s' _ Hs' HP). rewrite <- E by done.
      by apply (contains_mem base s _ Hs HP). }
    intros z. split; apply Hdir; auto. intros x Hx. symmetry. auto.
Qed.

Lemma equality_extensional_witness :
  contains (add1 (add1 (add [] 0 2) 4294967295) 4294967291) 1
  = contains (removeAll wrapped [mkRange 4294967290 4294967291; mkRange 4294967292 4294967293]) 1.
Proof.
  apply (equality_extensional 4294967286); apply (bool_decide_unpack _); vm_compute; done.
Defined.

(**  iteration.  A loop from [begin()] to [end()] visits every member once,
    in ascending order, and [size()] is the number of steps it takes. *)
Theorem iteration_enumerates base set fuel :
  wf base set ->
  let visited := iter_run (Z.to_nat (rangeset_size set) + fuel) (iter_begin set) in
  Z.of_nat (length visited) = rangeset_size set
  /\ StronglySorted (fun a b => SequenceNumber.ltb a b = true) visited
  /\ Forall (SequenceNumber.in_window base) visited
  /\ forall x, SequenceNumber.in_window base x -> x ∈ visited <-> contains set x = true.
Proof.
  intros Hwf visited. pose proof (rs_len_window base set Hwf) as Hlen.
  pose proof (rangeset_size_spec _ _ set Hwf Hlen) as Hsz.
  pose proof (iter_run_spec _ _ set fuel Hwf) as Hrun. rewrite <- Hsz in Hrun. fold visited in Hrun.
  assert (HP : Forall (SequenceNumber.in_window base) visited).
  { unfold visited. destruct set as [|r set]; [by destruct (_ + fuel)%nat|].
    pose proof Hwf as ((? & ? & ?) & _). by apply (iter_run_P _ _ _ r set). }
  split_and!; [| |done|].
  - rewrite Hsz, <- (length_rs_elements _ _ set Hwf), <- Hrun, length_map. done.
  - eapply (StronglySorted_fmap_inv (SequenceNumber.off base) _ Z.lt (SequenceNumber.in_window base)); [|done|].
    + intros a b Ha Hb Hlt. rewrite (SequenceNumber.window_lt base) by done. by apply Z.ltb_lt.
    + rewrite Hrun. by apply (rs_elements_sorted _ _ set).
  - intros x Hx. rewrite contains_mem by done. unfold mem. 
    rewrite <- (elem_of_rs_elements _ _ set), <- Hrun.
    split; [apply list_elem_of_fmap_2|]. intros Hin. apply list_elem_of_fmap in Hin as (y & E & Hy).
    rewrite Forall_forall in HP. destruct Hx as [Hx _], (HP y Hy) as [Hy' _].
    by rewrite (SequenceNumber.off_inj base x y Hx Hy' E).
Qed.

Lemma iteration_enumerates_witness :
  let visited := iter_run (Z.to_nat (rangeset_size wrapped) + 0) (iter_begin wrapped) in
  Z.of_nat (length visited) = rangeset_size wrapped
  /\ StronglySorted (fun a b => SequenceNumber.ltb a b = true) visited
  /\ Forall (SequenceNumber.in_window 4294967286) visited
  /\ forall x, SequenceNumber.in_window 4294967286 x -> x ∈ visited <-> contains wrapped x = true.
Proof. apply (iteration_enumerates 4294967286 wrapped 0), wrapped_wf. Defined.

(**  wire round trip.  A set of fewer than 8192 ranges is written in
    [encodedSize()] bytes and read back as the same set, whichever of the two
    [getLong()] arguments of [add] is evaluated first. *)
Theorem set_roundtrip base l set old b :
  wf base set -> Z.of_nat (length set) < 8192 -> buf_wf b -> encodedSize set <= size b - position b ->
  exists b1 b2, encode set b = (b1, Ret tt) /\ position b1 = position b + encodedSize set
    /\ decode l (old, setPosition (position b) b1) = ((set, b2), Ret tt).
Proof.
  intros Hset Hlen Hwf Hroom.
  assert (E : encodedSize set = 2 + 8 * Z.of_nat (length set)).
  { unfold encodedSize, RANGE_SIZE. rewrite uwrap_small by (unfold is_uint; lia). lia. }
  rewrite E in *. pose proof (encode_decode base l set old b Hset Hwf Hroom) as H.
  by rewrite counted_all in H.
Qed.

Lemma set_roundtrip_witness :
  exists b1 b2, encode wrapped (new_Buffer (replicate 18 0) 18) = (b1, Ret tt)
    /\ position b1 = 0 + encodedSize wrapped
    /\ decode false ([], setPosition 0 b1) = ((wrapped, b2), Ret tt).
Proof.
  apply (set_roundtrip 4294967286 false wrapped [] (new_Buffer (replicate 18 0) 18) wrapped_wf).
  - simpl. lia.
  - apply (bool_decide_unpack _). vm_compute. done.
  - vm_compute. done.
Defined.

(**  the size word truncates.  A set of a positive multiple of 8192 ranges
    is encoded without an error, as a size word of zero followed by all its
    ranges, and is read back as the empty set. *)
Theorem encode_truncates base l set old b n :
  wf base set -> 0 < n -> Z.of_nat (length set) = 8192 * n -> buf_wf b ->
  2 + 8 * Z.of_nat (length set) <= size b - position b ->
  exists b1 b2, encode set b = (b1, Ret tt)
    /\ decode l (old, setPosition (position b) b1) = (([], b2), Ret tt).
Proof.
  intros Hset Hn Hlen Hwf Hroom.
  destruct (encode_decode base l set old b Hset Hwf Hroom) as (b1 & b2 & E1 & _ & E2).
  exists b1, b2. split; [done|]. rewrite E2. unfold counted, count16.
  rewrite Hlen, Z.mul_comm, Z.mod_mul by lia. done.
Qed.

(** every other number *)
Definition sparse (n : Z) : t := map (fun i => mkRange (2 * i) (2 * i + 1)) (seqZ 0 n).

Lemma sparse_wf n : n < 2 ^ 30 -> wf 0 (sparse n).
Proof.
  intros Hn. unfold sparse. assert (H0 : forall i, i ∈ seqZ 0 n -> 0 <= i < n)
    by (intros i Hi; apply elem_of_seqZ in Hi; lia).
  pose proof (StronglySorted_seqZ 0 n) as Hs. revert H0. induction Hs as [|i l Hs IH Hi]; intros H0; [done|].
  assert (Hoff : forall x, 0 <= x < 2 ^ 31 ->
            SequenceNumber.in_window 0 x /\ SequenceNumber.off 0 x = x).
  { intros x Hx. unfold SequenceNumber.in_window, SequenceNumber.wf, SequenceNumber.off.
    rewrite Z.sub_0_r, uwrap_small by (unfold is_uint; lia). split; [split; [unfold is_uint|]; lia|done]. }
  pose proof (H0 i ltac:(by left)). unfold wf. cbn [map rs_wf]. unfold range_ok. cbn [begin_ end_].
  destruct (Hoff (2 * i) ltac:(lia)) as [? ->], (Hoff (2 * i + 1) ltac:(lia)) as [? ->].
  split_and!; [done..|lia| |].
  - apply Forall_fmap, Forall_forall. intros j Hj. simpl. rewrite Forall_forall in Hi.
    specialize (Hi j Hj). pose proof (H0 j ltac:(by right)).
    destruct (Hoff (2 * j)) as [_ E]; [lia|]. simpl in E. rewrite E. lia.
  - apply IH. intros j Hj. apply H0. by right.
Qed.

Lemma encode_truncates_witness :
  let b := new_Buffer (replicate (Z.to_nat 65538) 0) 65538 in
  exists b1 b2, encode (sparse 8192) b = (b1, Ret tt)
    /\ decode true ([], setPosition 0 b1) = (([], b2), Ret tt).
Proof.
  intros b. apply (encode_truncates 0 true (sparse 8192) [] b 1).
  - apply sparse_wf. lia.
  - lia.
  - vm_compute. done.
  - apply (bool_decide_unpack _). vm_compute. done.
  - vm_compute. done.
Defined.

End SequenceSet.
