(* ===== verification/FieldTable.v ===== *)
(** * Field tables (src/qpid/framing/FieldValue.h, FieldValue.cpp, FieldTable.cpp, List.cpp, Array.cpp)

    A field table is a map from names to typed values that travels as bytes.  It
    is decoded when it is first looked at: [decode] and the copy constructor
    keep the bytes ([cachedBytes]) and set [newBytes], and the accessors call [realDecode].
    The members are mutable, so the accessors are state changes here
    too.  A table or a list inside a value is reached through a pointer; what
    a constant operation on the outer table leaves in the caches of an inner one is
    not recorded, the inner table is decoded again when it is next looked at.

    Bytes and [std::string]s are lists of [Z], a [float] or a [double] is its bit
    pattern, as in [Buffer]. *)

From S2P Require Import Prelude Buffer.
Local Open Scope Z_scope.

(** ** Values *)

Inductive FieldValue := mkValue (typeOctet : Z) (data : Data)
with Data :=
| FixedWidth (octets : list Z)
| UuidData (octets : list Z)
| VariableWidth (lenwidth : Z) (octets : list Z)
| EncodedTable (t : FieldTable)
| EncodedList (l : list FieldValue)
| EncodedArray (type : Z) (l : list FieldValue)
with FieldTable :=
  mkTable (values : list (list Z * FieldValue)) (cachedBytes : option (list Z)) (cachedSize : Z) (newBytes : bool).

Definition getType (v : FieldValue) : Z := let 'mkValue t _ := v in t.
Definition getData (v : FieldValue) : Data := let 'mkValue _ d := v in d.

Definition values (t : FieldTable) : list (list Z * FieldValue) := let 'mkTable vs _ _ _ := t in vs.
Definition cachedBytes (t : FieldTable) : option (list Z) := let 'mkTable _ b _ _ := t in b.
Definition cachedSize (t : FieldTable) : Z := let 'mkTable _ _ s _ := t in s.
Definition newBytes (t : FieldTable) : bool := let 'mkTable _ _ _ n := t in n.

Definition new_FieldTable : FieldTable := mkTable [] None 0 false.

(** *** The kinds of data *)

(** the class of [data] that [setType] makes for a type *)
Inductive Shape := SFixed (width : nat) | SUuid | SVariable (lenwidth : Z) | STable | SList | SArray.

#[global] Instance Shape_eq_dec : EqDecision Shape.
Proof. solve_decision. Defined.

Definition setType (t : Z) : outcome Shape :=
  if t =? 0xA8 then Ret STable
  else if t =? 0xA9 then Ret SList
  else if t =? 0xAA then Ret SArray
  else if t =? 0x48 then Ret SUuid
  else match Z.shiftr t 4 with
       | 0 => Ret (SFixed 1)
       | 1 => Ret (SFixed 2)
       | 2 => Ret (SFixed 4)
       | 3 => Ret (SFixed 8)
       | 4 => Ret (SFixed 16)
       | 5 => Ret (SFixed 32)
       | 6 => Ret (SFixed 64)
       | 7 => Ret (SFixed 128)
       | 8 => Ret (SVariable 1)
       | 9 => Ret (SVariable 2)
       | 0xA => Ret (SVariable 4)
       | 0xC => Ret (SFixed 5)
       | 0xD => Ret (SFixed 9)
       | 0xF => Ret (SFixed 0)
       | _ => Throw IllegalArgumentException
       end.

(** [FixedWidthValue(uint64_t)] *)
Fixpoint fixed_octets (width : nat) (v : Z) : list Z :=
  match width with
  | O => []
  | S w => fixed_octets w (Z.shiftr v 8) ++ [Z.land 255 v]
  end.

Definition fixed (t : Z) (width : nat) (v : Z) : FieldValue := mkValue t (FixedWidth (fixed_octets width (u64 v))).

Definition Str8Value (s : list Z) : FieldValue := mkValue 0x85 (VariableWidth 1 s).
Definition Str16Value (s : list Z) : FieldValue := mkValue 0x95 (VariableWidth 2 s).
Definition Var16Value (s : list Z) (code : Z) : FieldValue := mkValue code (VariableWidth 2 s).
Definition Var32Value (s : list Z) (code : Z) : FieldValue := mkValue code (VariableWidth 4 s).
Definition Struct32Value (s : list Z) : FieldValue := mkValue 0xAB (VariableWidth 4 s).
Definition IntegerValue (v : Z) : FieldValue := fixed 0x21 4 v.
Definition Integer64Value (v : Z) : FieldValue := fixed 0x31 8 v.
Definition Unsigned64Value (v : Z) : FieldValue := fixed 0x32 8 v.
Definition TimeValue (v : Z) : FieldValue := fixed 0x38 8 v.
Definition BoolValue (b : bool) : FieldValue := fixed 0x08 1 (Z.b2z b).
Definition Unsigned8Value (v : Z) : FieldValue := fixed 0x02 1 v.
Definition Unsigned16Value (v : Z) : FieldValue := fixed 0x12 2 v.
Definition Unsigned32Value (v : Z) : FieldValue := fixed 0x22 4 v.
Definition Integer8Value (v : Z) : FieldValue := fixed 0x01 1 v.
Definition Integer16Value (v : Z) : FieldValue := fixed 0x11 2 v.
Definition VoidValue : FieldValue := mkValue 0xf0 (FixedWidth []).
Definition UuidValue (o : list Z) : FieldValue := mkValue 0x48 (UuidData o).
Definition ListValue (l : list FieldValue) : FieldValue := mkValue 0xa9 (EncodedList l).
Definition ArrayValue (t : Z) (l : list FieldValue) : FieldValue := mkValue 0xaa (EncodedArray t l).

(** [Endian::convertIfRequired]: on a machine that stores the low octet first *)
Definition convertIfRequired (littleEndian : bool) (octets : list Z) : list Z := if littleEndian then rev octets else octets.

(** the octets of a number in memory *)
Definition memory (littleEndian : bool) (width : nat) (bits : Z) : list Z := convertIfRequired littleEndian (fixed_octets width bits).
Definition from_octets (o : list Z) : Z := foldl (fun v x => Z.lor (Z.shiftl v 8) x) 0 o.

Definition FloatValue (le : bool) (bits : Z) : FieldValue := mkValue 0x23 (FixedWidth (convertIfRequired le (memory le 4 bits))).
Definition DoubleValue (le : bool) (bits : Z) : FieldValue := mkValue 0x33 (FixedWidth (convertIfRequired le (memory le 8 bits))).

(** *** Conversions *)

Definition convertsToInt (d : Data) : bool :=
  match d with FixedWidth [] => false | FixedWidth _ | UuidData _ => true | _ => false end.
Definition convertsToString (d : Data) : bool :=
  match d with UuidData _ | VariableWidth _ _ => true | _ => false end.

(** [v |= octets[i]; v <<= 8] in an [int64_t] *)
Definition getInt (d : Data) : outcome Z :=
  match d with
  | FixedWidth [] => Throw Exception
  | FixedWidth o | UuidData o => Ret (foldl (fun v x => Z.lor (s64 (Z.shiftl v 8)) x) 0 o)
  | _ => Throw Exception
  end.

Section conversions.
(** the text of a uuid *)
Context (uuid_str : list Z -> list Z).

Definition getString (d : Data) : outcome (list Z) :=
  match d with
  | UuidData o => Ret (uuid_str o)
  | VariableWidth _ o => Ret o
  | _ => Throw Exception
  end.
End conversions.

(** [getIntegerValue<T, W>]: [T] is a type of [8 * W] bits, [W] more than one *)
Definition getIntegerValue (signed : bool) (width : nat) (d : Data) : outcome Z :=
  match d with
  | FixedWidth o | UuidData o =>
      if (length o =? width)%nat
      then Ret ((if signed then swrap else uwrap) (8 * Z.of_nat width) (from_octets o))
      else Throw Exception
  | _ => Throw Exception
  end.

(** [getFloatingPointValue]: the octets are turned around where they are; the number is
    the one these octets have in memory *)
Definition getFloatingPointValue (le : bool) (width : nat) (d : Data) : Data * outcome Z :=
  match d with
  | FixedWidth o =>
      if (length o =? width)%nat
      then let o' := convertIfRequired le o in (FixedWidth o', Ret (from_octets (convertIfRequired le o')))
      else (d, Throw Exception)
  | _ => (d, Throw Exception)
  end.

(** ** Sizes *)

Fixpoint value_size (v : FieldValue) : Z :=
  match v with mkValue _ d => u32 (1 + data_size d) end
with data_size (d : Data) : Z :=
  match d with
  | FixedWidth o | UuidData o => Z.of_nat (length o)
  | VariableWidth n o => u32 (n + Z.of_nat (length o))
  | EncodedTable t => table_size t
  | EncodedList l => u32 (8 + foldr (fun v a => value_size v + a) 0 l)
  | EncodedArray _ l => u32 (9 + foldr (fun v a => match v with mkValue _ d => data_size d end + a) 0 l)
  end
with table_size (t : FieldTable) : Z :=
  match t with
  | mkTable vs _ cs _ =>
      if cs =? 0 then u32 (8 + foldr (fun p a => 1 + Z.of_nat (length p.1) + value_size p.2 + a) 0 vs) else cs
  end.

(** the data [setType] has made, before it is decoded *)
Definition shape_size (s : Shape) : Z :=
  match s with
  | SFixed w => Z.of_nat w
  | SUuid => 16
  | SVariable n => n
  | STable | SList => 8
  | SArray => 9
  end.

(** ** Encoding *)

Definition putUInt (lenwidth i : Z) : M Buffer unit :=
  if lenwidth =? 1 then putUInt1 i else if lenwidth =? 2 then putUInt2 i else putUInt4 i.
Definition getUInt (lenwidth : Z) : M Buffer Z :=
  if lenwidth =? 1 then getUInt1 else if lenwidth =? 2 then getUInt2 else getUInt4.

(** [n] octets of an array *)
Definition put_array (n : Z) (bs : list Z) : M Buffer unit :=
  if n <=? Z.of_nat (length bs) then putRawData (take (Z.to_nat n) bs) else throw UndefinedBehaviour.

Fixpoint value_encode (v : FieldValue) : M Buffer unit :=
  match v with mkValue t d => putOctet t ;; data_encode d end
with data_encode (d : Data) : M Buffer unit :=
  match d with
  | FixedWidth [] => mret tt
  | FixedWidth o | UuidData o => putRawData o
  | VariableWidth n o =>
      putUInt n (Z.of_nat (length o)) ;;
      if (0 <? length o)%nat then putRawData o else mret tt
  | EncodedTable t => table_encode t
  | EncodedList l =>
      putLong (u32 (data_size d - 4)) ;;
      putLong (u32 (Z.of_nat (length l))) ;;
      foldr (fun v m => value_encode v ;; m) (mret tt) l
  | EncodedArray t l =>
      putLong (u32 (data_size d - 4)) ;;
      putOctet t ;;
      putLong (u32 (Z.of_nat (length l))) ;;
      foldr (fun v m => match v with mkValue _ d => data_encode d end ;; m) (mret tt) l
  end
with table_encode (t : FieldTable) : M Buffer unit :=
  match t with
  | mkTable vs cb cs _ =>
      match cb with
      | Some bs => put_array cs bs
      | None =>
          putLong (u32 (table_size t - 4)) ;;
          putLong (u32 (Z.of_nat (length vs))) ;;
          foldr (fun p m => putShortString p.1 ;; value_encode p.2 ;; m) (mret tt) vs
      end
  end.

(** ** Decoding *)

(** [FieldTable::decode]: the bytes are kept for later *)
Definition table_decode : M Buffer FieldTable :=
  b ← get;
  guard_throw (available b <? 4) IllegalArgumentException ;;
  let p := position b in
  len ← getLong;
  b ← get;
  guard_throw (negb (len =? 0) && ((available b <? len) || (available b <? 4))) IllegalArgumentException ;;
  let n := u32 (len + 4) in
  modify (setPosition p) ;;
  bs ← getRawData n;
  mret (mkTable [] (Some bs) n true).

(** [for (i = 0; i < count; i++)] over a loop body that reads *)
Fixpoint repeat_read {A} (fuel : nat) (i count : Z) (m : M Buffer A) : M Buffer (list A) :=
  if i <? count then
    match fuel with
    | O => throw OutOfFuel
    | S fuel => a ← m; l ← repeat_read fuel (i + 1) count m; mret (a :: l)
    end
  else mret [].

(** enough for a loop that reads an octet each time, and for 256 empty elements *)
Definition read_fuel (b : Buffer) : nat := (257 + Z.to_nat (available b))%nat.

(** [FieldValue::decode], given the decoding of data *)
Definition value_with (dec : Shape -> M Buffer Data) : M Buffer FieldValue :=
  t ← getOctet;
  s ← lift_outcome (setType t);
  d ← dec s;
  mret (mkValue t d).

Definition list_decode (value : M Buffer FieldValue) : M Buffer Data :=
  b ← get;
  guard_throw (available b <? 4) IllegalArgumentException ;;
  size ← getLong;
  b ← get;
  guard_throw (available b <? size) IllegalArgumentException ;;
  if size =? 0 then mret (EncodedList [])
  else
    guard_throw (available b <? 4) IllegalArgumentException ;;
    count ← getLong;
    b ← get;
    l ← repeat_read (read_fuel b) 0 count value;
    mret (EncodedList l).

(** the type is that of a new array when there is nothing to read *)
Definition array_decode (dec : Shape -> M Buffer Data) : M Buffer Data :=
  size ← getLong;
  b ← get;
  guard_throw (available b <? size) IllegalArgumentException ;;
  if size =? 0 then mret (EncodedArray 0xf0 [])
  else
    type ← getOctet;
    count ← getLong;
    s ← lift_outcome (setType type);
    b ← get;
    guard_throw (available b <? u32 (count * shape_size s)) IllegalArgumentException ;;
    guard_throw ((shape_size s =? 0) && (256 <? count)) IllegalArgumentException ;;
    b ← get;
    l ← repeat_read (read_fuel b) 0 count (d ← dec s; mret (mkValue type d));
    mret (EncodedArray type l).

Fixpoint data_decode (n : nat) (s : Shape) : M Buffer Data :=
  match n with
  | O => throw OutOfFuel
  | S n =>
      match s with
      | SFixed O => mret (FixedWidth [])
      | SFixed w => o ← getRawData (Z.of_nat w); mret (FixedWidth o)
      | SUuid => o ← getRawData 16; mret (UuidData o)
      | SVariable k =>
          len ← getUInt k;
          checkAvailable (u32 len) ;;
          if 0 <? u32 len then o ← getRawData (u32 len); mret (VariableWidth k o) else mret (VariableWidth k [])
      | STable => t ← table_decode; mret (EncodedTable t)
      | SList => list_decode (value_with (data_decode n))
      | SArray => array_decode (data_decode n)
      end
  end.

(** a level of lists and arrays takes four octets at least *)
Definition value_decode : M Buffer FieldValue :=
  b ← get; value_with (data_decode (S (Z.to_nat (available b)))).

(** ** The map of a table *)

(** [std::string]s compare as unsigned octets *)
Fixpoint bytes_lt (a b : list Z) : bool :=
  match a, b with
  | _, [] => false
  | [], _ => true
  | x :: a, y :: b => (x <? y) || (x =? y) && bytes_lt a b
  end.

Section names.
Context {V : Type}.
Implicit Types m : list (list Z * V).

Fixpoint name_find (k : list Z) m : option V :=
  match m with [] => None | (k', v) :: m => if decide (k' = k) then Some v else name_find k m end.

Fixpoint name_insert (k : list Z) (v : V) m : list (list Z * V) :=
  match m with
  | [] => [(k, v)]
  | (k', v') :: m' =>
      if decide (k' = k) then (k, v) :: m'
      else if bytes_lt k k' then (k, v) :: m
      else (k', v') :: name_insert k v m'
  end.

Fixpoint name_erase (k : list Z) m : list (list Z * V) :=
  match m with [] => [] | (k', v) :: m' => if decide (k' = k) then m' else (k', v) :: name_erase k m' end.
End names.

(** *** [realDecode] *)

(** [while (buffer.available() > leftover && count--)]; the entries read before an exception stay *)
Fixpoint entries_loop (fuel : nat) (leftover count : Z) : M (list (list Z * FieldValue) * Buffer) unit := fun s =>
  if (leftover <? available s.2) && negb (count =? 0) then
    match fuel with
    | O => (s, Throw OutOfFuel)
    | S fuel =>
        (name ← on_buffer getShortString;
         value ← on_buffer value_decode;
         on_state (name_insert name value) ;;
         entries_loop fuel leftover (count - 1)) s
    end
  else (s, Ret tt).

Definition read_entries : M (list (list Z * FieldValue) * Buffer) unit :=
  len ← on_buffer getLong;
  if len =? 0 then mret tt
  else
    s ← get;
    let available0 := available s.2 in
    count ← on_buffer getLong;
    let leftover := u32 (available0 - len) in
    entries_loop (S (Z.to_nat available0)) leftover count.

Definition realDecode : M FieldTable unit := fun t =>
  if newBytes t then
    match cachedBytes t with
    | None => (t, Throw UndefinedBehaviour)
    | Some bs =>
        let '((vs, _), o) := read_entries (values t, new_Buffer bs (cachedSize t)) in
        (mkTable vs (cachedBytes t) (cachedSize t) (match o with Ret _ => false | Throw _ => true end), o)
    end
  else (t, Ret tt).

Definition flushRawCache : M FieldTable unit := fun t =>
  if newBytes t then (t, Throw AssertionFailed) else (mkTable (values t) None 0 false, Ret tt).

(** ** Operations *)

Definition set_values (vs : list (list Z * FieldValue)) (t : FieldTable) : FieldTable :=
  mkTable vs (cachedBytes t) (cachedSize t) (newBytes t).

Definition set (name : list Z) (v : FieldValue) : M FieldTable unit :=
  realDecode ;; modify (fun t => set_values (name_insert name v (values t)) t) ;; flushRawCache.

Definition setString (name s : list Z) : M FieldTable unit := set name (Str16Value s).
Definition setInt (name : list Z) (v : Z) : M FieldTable unit := set name (IntegerValue v).
Definition setInt64 (name : list Z) (v : Z) : M FieldTable unit := set name (Integer64Value v).
Definition setTimestamp (name : list Z) (v : Z) : M FieldTable unit := set name (TimeValue v).
Definition setUInt64 (name : list Z) (v : Z) : M FieldTable unit := set name (Unsigned64Value v).
Definition setArray (name : list Z) (t : Z) (l : list FieldValue) : M FieldTable unit := set name (ArrayValue t l).
Definition setFloat (le : bool) (name : list Z) (bits : Z) : M FieldTable unit := set name (FloatValue le bits).
Definition setDouble (le : bool) (name : list Z) (bits : Z) : M FieldTable unit := set name (DoubleValue le bits).

(** the non-const iterators: [begin], [end], [find] *)
Definition iterate : M FieldTable (list (list Z * FieldValue)) := realDecode ;; flushRawCache ;; gets values.
(** the const ones *)
Definition entries : M FieldTable (list (list Z * FieldValue)) := realDecode ;; gets values.

(** [std::map::insert]: whether it was inserted *)
Definition insert (name : list Z) (v : FieldValue) : M FieldTable bool :=
  realDecode ;; flushRawCache ;;
  t ← get;
  match name_find name (values t) with
  | Some _ => mret false
  | None => modify (fun t => set_values (name_insert name v (values t)) t) ;; mret true
  end.

Definition erase (name : list Z) : M FieldTable unit :=
  realDecode ;;
  t ← get;
  match name_find name (values t) with
  | Some _ => modify (fun t => set_values (name_erase name (values t)) t) ;; flushRawCache
  | None => mret tt
  end.

Definition clear : M FieldTable unit :=
  modify (fun t => mkTable [] (cachedBytes t) (cachedSize t) false) ;; flushRawCache.

Definition lookup (name : list Z) : M FieldTable (option FieldValue) := realDecode ;; gets (fun t => name_find name (values t)).

Definition isSet (name : list Z) : M FieldTable bool := v ← lookup name; mret (bool_decide (is_Some v)).

(** neither decodes *)
Definition count (t : FieldTable) : Z := s32 (Z.of_nat (length (values t))).
Definition table_count (t : FieldTable) : Z := Z.of_nat (length (values t)).

Definition encodedSize : M FieldTable Z := fun t =>
  (mkTable (values t) (cachedBytes t) (table_size t) (newBytes t), Ret (table_size t)).

(** *** Typed access *)

Section typed.
Context (uuid_str : list Z -> list Z).

Definition getAsString (name : list Z) : M FieldTable (list Z) :=
  v ← lookup name;
  match v with
  | Some v => if convertsToString (getData v) then lift_outcome (getString uuid_str (getData v)) else mret []
  | None => mret []
  end.
End typed.

Definition getAsInt64 (name : list Z) : M FieldTable Z :=
  v ← lookup name;
  match v with
  | Some v => if convertsToInt (getData v) then lift_outcome (getInt (getData v)) else mret 0
  | None => mret 0
  end.
Definition getAsInt (name : list Z) : M FieldTable Z := i ← getAsInt64 name; mret (s32 i).
Definition getAsUInt64 (name : list Z) : M FieldTable Z := i ← getAsInt64 name; mret (u64 i).

(** [getRawFixedWidthValue]: the value is reached through a pointer, so that what [get]
    does to it stays in the table *)
Definition getRawFixedWidthValue (le : bool) (width : nat) (typecode : Z) (name : list Z) : M FieldTable (option Z) :=
  v ← lookup name;
  match v with
  | Some (mkValue t d) =>
      if t =? typecode then
        let '(d', o) := getFloatingPointValue le width d in
        modify (fun t' => set_values (name_insert name (mkValue t d') (values t')) t') ;;
        x ← lift_outcome o;
        mret (Some x)
      else mret None
  | None => mret None
  end.
Definition getFloat (le : bool) : list Z -> M FieldTable (option Z) := getRawFixedWidthValue le 4 0x23.
Definition getDouble (le : bool) : list Z -> M FieldTable (option Z) := getRawFixedWidthValue le 8 0x33.

(** ** Copies *)

Section copies.
(** the contents of new memory *)
Context (uninitialised : Z -> list Z).

(** the copy constructor: the source, and the copy.  The source is encoded and keeps the bytes *)
Definition copy : M FieldTable FieldTable := fun t =>
  match cachedBytes t with
  | Some bs => (t, Ret (mkTable [] (Some bs) (cachedSize t) true))
  | None =>
      match values t with
      | [] => (t, Ret (mkTable [] None (cachedSize t) (newBytes t)))
      | vs =>
          let n := table_size t in
          let '(b, o) := (putLong (u32 (n - 4)) ;;
                          putLong (u32 (Z.of_nat (length vs))) ;;
                          foldr (fun p m => putShortString p.1 ;; value_encode p.2 ;; m) (mret tt) vs)
                         (new_Buffer (uninitialised n) n) in
          (mkTable vs (Some (data b)) n (newBytes t),
           match o with Ret _ => Ret (mkTable [] (Some (data b)) n true) | Throw e => Throw e end)
      end
  end.

(** [operator=]: this table, and the one that is copied *)
Definition assign : M (FieldTable * FieldTable) unit := fun '(this, t) =>
  match copy t with
  | (t', Ret c) => ((c, t'), Ret tt)
  | (t', Throw e) => ((this, t'), Throw e)
  end.

(** a copy of a value's table; the cached bytes of the table inside are not kept *)
Definition getTable (name : list Z) : M FieldTable (option FieldTable) :=
  v ← lookup name;
  match v with
  | Some (mkValue _ (EncodedTable t)) => c ← lift_outcome (copy t).2; mret (Some c)
  | _ => mret None
  end.

(** the array's elements are shared *)
Definition getArray (name : list Z) : M FieldTable (option (Z * list FieldValue)) :=
  v ← lookup name;
  match v with
  | Some (mkValue _ (EncodedArray t l)) => mret (Some (t, l))
  | _ => mret None
  end.

(** the table is copied into the value *)
Definition setTable (name : list Z) (t : FieldTable) : M FieldTable unit :=
  realDecode ;;
  c ← lift_outcome (copy t).2;
  modify (fun t => set_values (name_insert name (mkValue 0xa8 (EncodedTable c)) (values t)) t) ;; flushRawCache.

(** ** Equality *)

(** whether two pointers point to the same object *)
Context (same_object : FieldValue -> FieldValue -> bool).

(** [*a == *b] of two elements in turn, while they are equal *)
Fixpoint each_eq {A} (eq : A -> A -> outcome bool) (l l' : list A) : outcome bool :=
  match l, l' with
  | a :: l, b :: l' => match eq a b with Ret true => each_eq eq l l' | r => r end
  | _, _ => Ret true
  end.

Definition names_eq (eq : FieldValue -> FieldValue -> outcome bool) (vs vs' : list (list Z * FieldValue)) : outcome bool :=
  if (length vs =? length vs')%nat
  then foldr (fun p r => match name_find p.1 vs' with
                         | Some v => match eq p.2 v with Ret true => r | o => o end
                         | None => Ret false
                         end) (Ret true) vs
  else Ret false.

(** the values of a table, as [realDecode] leaves them *)
Definition decoded (t : FieldTable) : outcome (list (list Z * FieldValue)) :=
  match realDecode t with (t', Ret _) => Ret (values t') | (_, Throw e) => Throw e end.

(** a list is compared by the pointers to its elements: [std::equal] of [shared_ptr]s *)
Fixpoint value_eq (n : nat) (v w : FieldValue) : outcome bool :=
  match n with
  | O => Throw OutOfFuel
  | S n =>
      if getType v =? getType w then
        match getData v, getData w with
        | FixedWidth o, FixedWidth o' => Ret (bool_decide (o = o'))
        | UuidData o, UuidData o' => Ret (bool_decide (o = o'))
        | VariableWidth k o, VariableWidth k' o' => Ret ((k =? k') && bool_decide (o = o'))
        | EncodedTable t, EncodedTable t' =>
            match decoded t, decoded t' with
            | Ret vs, Ret vs' => names_eq (value_eq n) vs vs'
            | Ret _, Throw e | Throw e, _ => Throw e
            end
        | EncodedList l, EncodedList l' =>
            Ret ((length l =? length l')%nat && forallb (fun p => same_object p.1 p.2) (zip l l'))
        | EncodedArray t l, EncodedArray t' l' =>
            if (t =? t') && (length l =? length l')%nat then each_eq (value_eq n) l l' else Ret false
        | _, _ => Ret false
        end
      else Ret false
  end.

(** [operator==]; a table inside another takes fewer octets *)
Definition table_eq (t t' : FieldTable) : outcome bool :=
  match decoded t, decoded t' with
  | Ret vs, Ret vs' => names_eq (value_eq (Z.to_nat (table_size t))) vs vs'
  | Ret _, Throw e | Throw e, _ => Throw e
  end.
End copies.

(** *** Arrays *)

(** [Array::insert] *)
Definition array_insert (type : Z) (i : nat) (v : FieldValue) (l : list FieldValue) : outcome (list FieldValue) :=
  if type =? getType v then Ret (take i l ++ v :: drop i l) else Throw Exception.

Definition new_Array (ss : list (list Z)) : Data := EncodedArray 0x95 (map Str16Value ss).
