(* ===== verification/FieldTableCorrect.v ===== *)
(** * Field tables and what they stand for

    A table stands for a map from names to plain values, [table_rep], whether it
    holds its values, their bytes or both.  Encoding and decoding keep what a value stands for ([data_codec]),
    and every operation does to the map what its name says. *)

From Stdlib Require Import ZArith Lia Sorted.
From stdpp Require Import gmap.
From S2P Require Import Prelude Buffer FieldTable.
Local Open Scope Z_scope.

(** ** Plain values *)

Inductive Value :=
| Raw (t : Z) (o : list Z)
| VTable (l : list (list Z * Value))
| VList (l : list Value)
| VArray (t : Z) (l : list Value).

Lemma Value_nested_ind (P : Value -> Prop) :
  (forall t o, P (Raw t o)) -> (forall l, Forall (fun p => P p.2) l -> P (VTable l)) ->
  (forall l, Forall P l -> P (VList l)) -> (forall t l, Forall P l -> P (VArray t l)) -> forall x, P x.
Proof.
  intros H1 H2 H3 H4. fix IH 1. intros [t o|l|l|t l]; [apply H1|apply H2|apply H3|apply H4].
  - induction l as [|[k x] l IHl]; constructor; [apply IH|exact IHl].
  - induction l as [|x l IHl]; constructor; [apply IH|exact IHl].
  - induction l as [|x l IHl]; constructor; [apply IH|exact IHl].
Qed.

Definition vtype (x : Value) : Z := match x with Raw t _ => t | VTable _ => 0xA8 | VList _ => 0xA9 | VArray _ _ => 0xAA end.

(** the data of a type that has the octets [o] *)
Definition raw_data (s : Shape) (o : list Z) : option Data :=
  match s with
  | SFixed w => if (length o =? w)%nat then Some (FixedWidth o) else None
  | SUuid => if (length o =? 16)%nat then Some (UuidData o) else None
  | SVariable k => if Z.of_nat (length o) <? 2 ^ (8 * k) then Some (VariableWidth k o) else None
  | _ => None
  end.

(** the octets a value takes after its type *)
Fixpoint vz (x : Value) : Z :=
  match x with
  | Raw t o => (match setType t with Ret (SVariable k) => k | _ => 0 end) + Z.of_nat (length o)
  | VTable l => 8 + foldr (fun p a => 2 + Z.of_nat (length p.1) + vz p.2 + a) 0 l
  | VList l => 8 + foldr (fun x a => 1 + vz x + a) 0 l
  | VArray _ l => 9 + foldr (fun x a => vz x + a) 0 l
  end.

(** the size of a table *)
Definition tz (l : list (list Z * Value)) : Z := vz (VTable l).

Fixpoint all2 {A B} (P : A -> B -> Prop) (l : list A) (l' : list B) : Prop :=
  match l, l' with [], [] => True | a :: l, b :: l' => P a b /\ all2 P l l' | _, _ => False end.

Lemma all2_Forall2 {A B} (P : A -> B -> Prop) l l' : all2 P l l' <-> Forall2 P l l'.
Proof.
  revert l'. induction l as [|a l IH]; intros [|b l']; cbn [all2]; split; intros H; try done; try (by inversion H).
  - destruct H as [H1 H2]. constructor; [done|]. by apply IH.
  - inversion H; subst. split; [done|]. by apply IH.
Qed.

(** the entries that are read from the bytes of a table *)
Definition decodes (bs : list Z) (vs : list (list Z * FieldValue)) : Prop :=
  exists b, read_entries ([], new_Buffer bs (Z.of_nat (length bs))) = ((vs, b), Ret tt).

Definition name_ok (k : list Z) : Prop := Forall is_byte k /\ Z.of_nat (length k) < 2 ^ 8.
Definition name_lt (a b : list Z) : Prop := bytes_lt a b = true.

(** [t] holds values of which [vals] is true, their bytes, or both *)
Definition table_of (vals : list (list Z * FieldValue) -> Prop) (names : list (list Z)) (sz : Z) (t : FieldTable) : Prop :=
  StronglySorted name_lt names /\ Forall name_ok names /\ Z.of_nat (length names) < 2 ^ 32 /\
  (if newBytes t then values t = [] else vals (values t)) /\
  match cachedBytes t with
  | None => newBytes t = false /\ (cachedSize t = 0 \/ cachedSize t = table_size (mkTable (values t) None 0 false))
  | Some bs =>
      cachedSize t = Z.of_nat (length bs) /\ Z.of_nat (length bs) = sz /\ 8 <= sz < 2 ^ 32 /\ Forall is_byte bs /\
      (exists bs0, bs = be32 (Z.of_nat (length bs0)) ++ bs0) /\ exists vs, decodes bs vs /\ vals vs
  end.

Fixpoint rep (x : Value) (v : FieldValue) : Prop :=
  match x with
  | Raw t o => is_byte t /\ Forall is_byte o /\ exists s d, setType t = Ret s /\ raw_data s o = Some d /\ v = mkValue t d
  | VTable l => exists t, v = mkValue 0xA8 (EncodedTable t) /\ table_of (all2 (fun p q => p.1 = q.1 /\ rep p.2 q.2) l) (map fst l) (tz l) t
  | VList l => exists vs, v = mkValue 0xA9 (EncodedList vs) /\ all2 rep l vs /\ Z.of_nat (length vs) < 2 ^ 32
  | VArray ty l => exists vs s, v = mkValue 0xAA (EncodedArray ty vs) /\ is_byte ty /\ setType ty = Ret s /\ Forall (fun y => vtype y = ty) l /\
      all2 rep l vs /\ Z.of_nat (length vs) < 2 ^ 32 /\ (shape_size s = 0 -> Z.of_nat (length vs) <= 256)
  end.

Definition entries_rep (l : list (list Z * Value)) : list (list Z * FieldValue) -> Prop := all2 (fun p q => p.1 = q.1 /\ rep p.2 q.2) l.
Definition table_rep (l : list (list Z * Value)) : FieldTable -> Prop := table_of (entries_rep l) (map fst l) (tz l).

Lemma rep_type x v : rep x v -> getType v = vtype x.
Proof. destruct x; cbn; [intros (_ & _ & s & d & _ & _ & ->)|intros (t0 & -> & _)|intros (vs & -> & _)|intros (vs & s & -> & _)]; done. Qed.

(** the octets a value is encoded in, when they are fewer than 2^32 *)
Fixpoint value_z (v : FieldValue) : Z := match v with mkValue _ d => 1 + data_z d end
with data_z (d : Data) : Z :=
  match d with
  | FixedWidth o | UuidData o => Z.of_nat (length o)
  | VariableWidth n o => n + Z.of_nat (length o)
  | EncodedTable t => table_z t
  | EncodedList l => 8 + foldr (fun v a => value_z v + a) 0 l
  | EncodedArray _ l => 9 + foldr (fun v a => match v with mkValue _ d => data_z d end + a) 0 l
  end
with table_z (t : FieldTable) : Z :=
  match t with
  | mkTable vs cb cs _ =>
      match cb with
      | Some bs => Z.of_nat (length bs)
      | None => 8 + foldr (fun p a => 1 + Z.of_nat (length p.1) + value_z p.2 + a) 0 vs
      end
  end.

(** ** Reading *)

Lemma parses_get {A} (f : Buffer -> M Buffer A) bs a :
  (forall b, buf_wf b -> Z.of_nat (length bs) <= available b -> parses (f b) bs a) -> parses (b ← get; f b) bs a.
Proof.
  intros H b k Hwf Hr. unfold mbind, M_bind, get. apply (H b Hwf) with (k := k); [|done|done].
  rewrite <- (rest_length b Hwf), Hr, length_app. lia.
Qed.

Lemma parses_guard {A} c e (m : M Buffer A) bs a : c = false -> parses m bs a -> parses (guard_throw c e ;; m) bs a.
Proof. intros -> H. exact H. Qed.

Lemma parses_lift {A B} (o : outcome A) (f : A -> M Buffer B) x bs b : o = Ret x -> parses (f x) bs b -> parses (y ← lift_outcome o; f y) bs b.
Proof. intros -> H. exact H. Qed.

Lemma parses_repeat {A} (m : M Buffer A) bss l :
  Forall2 (fun bs a => parses m bs a) bss l -> forall fuel i, (length l <= fuel)%nat ->
  parses (repeat_read fuel i (i + Z.of_nat (length l)) m) (concat bss) l.
Proof.
  induction 1 as [|bs a bss l H1 _ IH]; intros fuel i Hf.
  - destruct fuel; cbn [repeat_read length]; rewrite (proj2 (Z.ltb_ge _ _)) by lia; apply parses_ret.
  - destruct fuel as [|fuel]; [cbn in Hf; lia|]. cbn [repeat_read length concat] in *. rewrite (proj2 (Z.ltb_lt _ _)) by lia.
    apply (parses_bind _ _ bs (concat bss) a); [done|]. rewrite <- (app_nil_r (concat bss)).
    apply (parses_bind _ _ (concat bss) [] l); [|apply parses_ret].
    replace (i + Z.of_nat (S (length l))) with (i + 1 + Z.of_nat (length l)) by lia. apply IH. lia.
Qed.

Lemma parses_value n s t bs d :
  is_byte t -> setType t = Ret s -> parses (data_decode n s) bs d -> parses (value_with (data_decode n)) (u8 t :: bs) (mkValue t d).
Proof.
  intros Ht Hs Hd. unfold value_with. rewrite (uwrap_small 8) by done.
  apply (parses_bind _ _ [t] bs t); [apply parses_getOctet|]. apply (parses_lift _ _ s); [done|].
  rewrite <- (app_nil_r bs). apply (parses_bind _ _ bs [] d); [done|apply parses_ret].
Qed.

(** ** Names *)

Lemma bytes_lt_trans a b c : bytes_lt a b = true -> bytes_lt b c = true -> bytes_lt a c = true.
Proof.
  revert b c. induction a as [|x a IH]; intros [|y b] [|z c]; cbn [bytes_lt]; try done.
  rewrite !orb_true_iff, !andb_true_iff, !Z.ltb_lt, !Z.eqb_eq. intros [H1|[-> H1]] [H2|[-> H2]]; [left; lia|left; lia|left; lia|].
  right. split; [done|]. by apply (IH b).
Qed.

Lemma bytes_lt_irrefl a : bytes_lt a a = false.
Proof. induction a as [|x a IH]; [done|]. cbn [bytes_lt]. rewrite IH, andb_false_r, orb_false_r. apply Z.ltb_irrefl. Qed.

Lemma bytes_lt_total a b : bytes_lt a b = true \/ a = b \/ bytes_lt b a = true.
Proof.
  revert b. induction a as [|x a IH]; intros [|y b]; cbn [bytes_lt]; try auto.
  rewrite !orb_true_iff, !andb_true_iff, !Z.ltb_lt, !Z.eqb_eq. destruct (Z.lt_trichotomy x y) as [|[->|]]; [auto| |auto].
  destruct (IH b) as [H|[->|H]]; auto.
Qed.

Section names.
Context {V : Type}.
Implicit Types m : list (list Z * V).

(** a name after all others *)
Lemma name_insert_last k v m : Forall (fun k' => name_lt k' k) (map fst m) -> name_insert k v m = m ++ [(k, v)].
Proof.
  induction m as [|[k' v'] m IH]; [done|]. cbn [map fst name_insert]. intros [H1 H2]%Forall_cons. unfold name_lt in H1.
  rewrite decide_False by (intros ->; by rewrite bytes_lt_irrefl in H1).
  destruct (bytes_lt k k') eqn:E; [|by rewrite IH].
  pose proof (bytes_lt_trans k' k k' H1 E) as H. by rewrite bytes_lt_irrefl in H.
Qed.

Lemma name_insert_names k v m : StronglySorted name_lt (map fst m) -> forall x, x ∈ map fst (name_insert k v m) <-> x = k \/ x ∈ map fst m.
Proof.
  induction m as [|[k' v'] m IH]; cbn [name_insert map fst]; intros Hs x; [by rewrite list_elem_of_singleton, elem_of_nil; intuition|].
  apply StronglySorted_inv in Hs as [Hs _]. case_decide as E; [subst|destruct (bytes_lt k k')]; cbn [map fst]; rewrite ?elem_of_cons.
  - tauto.
  - tauto.
  - rewrite IH by done. tauto.
Qed.

Lemma name_insert_sorted k v m : StronglySorted name_lt (map fst m) -> StronglySorted name_lt (map fst (name_insert k v m)).
Proof.
  induction m as [|[k' v'] m IH]; cbn [name_insert map fst]; intros Hs; [repeat constructor|].
  pose proof Hs as [Hs' Hall]%StronglySorted_inv. case_decide as E; [by subst|]. destruct (bytes_lt k k') eqn:El; cbn [map fst].
  - constructor; [done|]. constructor; [done|]. eapply Forall_impl; [exact Hall|]. intros x Hx. by eapply bytes_lt_trans.
  - constructor; [by apply IH|]. apply Forall_forall. intros x. rewrite name_insert_names by done. intros [->|Hx].
    + destruct (bytes_lt_total k k') as [|[|]]; [congruence|congruence|done].
    + rewrite Forall_forall in Hall. by apply Hall.
Qed.

Lemma name_erase_sublist k m : map fst (name_erase k m) `sublist_of` map fst m.
Proof.
  induction m as [|[k' v'] m IH]; [done|]. cbn [name_erase map fst]. case_decide; [by apply sublist_cons|]. by apply sublist_skip.
Qed.

Lemma name_insert_length k v m : (length (name_insert k v m) <= S (length m))%nat.
Proof. induction m as [|[k' v'] m IH]; cbn [name_insert]; [done|]. case_decide; [cbn; lia|]. destruct (bytes_lt k k'); cbn in *; lia. Qed.
End names.

(** ** Encoding and decoding *)

Definition value_bytes (t : Z) (bs : list Z) : list Z := u8 t :: bs.

Definition codec_at (x : Value) : Prop := forall v s,
  rep x v -> setType (vtype x) = Ret s -> data_z (getData v) < 2 ^ 32 ->
  exists bs, emits (data_encode (getData v)) bs /\ Z.of_nat (length bs) = data_z (getData v) /\ data_size (getData v) = data_z (getData v) /\
    shape_size s <= Z.of_nat (length bs) /\
    exists d, rep x (mkValue (vtype x) d) /\ forall n, (length bs < n)%nat -> parses (data_decode n s) bs d.

Lemma setType_shapes t s : setType t = Ret s -> is_byte t ->
  match s with
  | STable => t = 0xA8 | SList => t = 0xA9 | SArray => t = 0xAA
  | SVariable k => k = 1 \/ k = 2 \/ k = 4
  | _ => True
  end.
Proof.
  unfold setType. destruct (Z.eqb_spec t 0xA8); [by intros [= <-]|]. destruct (Z.eqb_spec t 0xA9); [by intros [= <-]|].
  destruct (Z.eqb_spec t 0xAA); [by intros [= <-]|]. destruct (Z.eqb_spec t 0x48); [by intros [= <-]|].
  intros H Ht. destruct (Z.shiftr t 4) as [|p|p]; [by injection H as <-| |done].
  repeat (destruct p as [p|p|]; try done); injection H as <-; cbn; auto.
Qed.

Lemma codec_raw t o : codec_at (Raw t o).
Proof.
  intros v s (Ht & Ho & s' & d & Hs' & Hd & ->) Hs Hz. cbn [vtype getData] in *. assert (s' = s) as -> by congruence. clear Hs'.
  pose proof (setType_shapes t s Hs Ht) as Hk.
  assert (Hrep : forall d', raw_data s o = Some d' -> rep (Raw t o) (mkValue t d')) by (intros d' Hd'; split_and!; eauto).
  destruct s as [w| |k| | |]; try done; cbn [raw_data shape_size] in *.
  - destruct (Nat.eqb_spec (length o) w) as [<-|]; [|done]. injection Hd as <-. destruct (decide (o = [])) as [->|Hne].
    + exists []. split_and!; try done; [apply emits_nil|]. exists (FixedWidth []). split; [by apply Hrep|].
      intros n Hn. destruct n as [|n]; [lia|]. apply parses_ret.
    + assert (E1 : data_encode (FixedWidth o) = putRawData o) by (by destruct o).
      exists o. rewrite E1. split_and!; try done; [by apply emits_putRawData|]. exists (FixedWidth o).
      split; [by apply Hrep|]. intros n Hn. destruct n as [|n]; [lia|]. assert (E2 : data_decode (S n) (SFixed (length o)) = (y ← getRawData (Z.of_nat (length o)); mret (FixedWidth y))) by (by destruct o).
      rewrite E2. apply (parses_map _ FixedWidth). by apply parses_checked_load.
  - destruct (Nat.eqb_spec (length o) 16) as [El|]; [|done]. injection Hd as <-. exists o. split_and!; try done; [by apply emits_putRawData|lia|].
    exists (UuidData o). split; [by apply Hrep|]. intros n Hn. destruct n as [|n]; [lia|]. cbn [data_decode].
    apply (parses_map _ UuidData). apply parses_checked_load. lia.
  - destruct (Z.ltb_spec (Z.of_nat (length o)) (2 ^ (8 * k))) as [Hl|]; [|done]. injection Hd as <-. cbn [data_z] in Hz.
    assert (Hu : exists lb, Z.of_nat (length lb) = k /\ emits (putUInt k (Z.of_nat (length o))) lb /\ parses (getUInt k) lb (Z.of_nat (length o))).
    { destruct Hk as [->|[->| ->]].
      - exists [u8 (Z.of_nat (length o))]. split; [done|]. unfold putUInt, getUInt, putUInt1. cbn [Z.eqb Pos.eqb].
        rewrite (proj2 (Z.leb_le 0 _)), (proj2 (Z.leb_le _ 255)), (uwrap_small 8) by (unfold is_uint; lia). cbn [andb].
        split; [|apply parses_getOctet]. eapply emits_ext; [apply emits_putOctet|]. by rewrite (uwrap_small 8) by (unfold is_uint; lia).
      - exists (be16 (Z.of_nat (length o))). split; [done|]. unfold putUInt, getUInt, putUInt2. cbn [Z.eqb Pos.eqb].
        rewrite (proj2 (Z.leb_le 0 _)), (proj2 (Z.leb_le _ 65535)), (uwrap_small 16) by (unfold is_uint; lia). cbn [andb].
        split; [apply emits_putShort|]. rewrite <- (uwrap_small 16 (Z.of_nat (length o))) at 2 by (unfold is_uint; lia). apply parses_getShort.
      - exists (be32 (Z.of_nat (length o))). split; [done|]. unfold putUInt, getUInt, putUInt4. cbn [Z.eqb Pos.eqb].
        rewrite (proj2 (Z.leb_le 0 _)), (proj2 (Z.leb_le _ 4294967295)), (uwrap_small 32) by (unfold is_uint; lia). cbn [andb].
        split; [apply emits_putLong|]. rewrite <- (uwrap_small 32 (Z.of_nat (length o))) at 2 by (unfold is_uint; lia). apply parses_getLong. }
    destruct Hu as (lb & Hlb & Hp & Hg). exists (lb ++ o). split_and!.
    + cbn [data_encode]. apply emits_bind; [done|]. destruct (Nat.ltb_spec 0 (length o)) as [|Hz0]; [by apply emits_putRawData|].
      destruct o; [apply emits_nil|cbn in Hz0; lia].
    + rewrite length_app. cbn [data_z]. lia.
    + cbn [data_size data_z]. rewrite uwrap_small; [done|unfold is_uint; lia].
    + rewrite length_app. lia.
    + exists (VariableWidth k o). split; [by apply Hrep|]. intros n Hn. destruct n as [|n]; [lia|].
      cbn [data_decode]. apply (parses_bind _ _ lb o (Z.of_nat (length o))); [done|]. rewrite (uwrap_small 32) by (unfold is_uint; lia).
      apply parses_check; [lia|]. destruct (Z.ltb_spec 0 (Z.of_nat (length o))) as [|Hz0].
      * apply (parses_map _ (VariableWidth k)). by apply parses_checked_load.
      * destruct o; [apply parses_ret|cbn in Hz0; lia].
Qed.

Lemma rep_z x : forall v, rep x v -> data_z (getData v) = vz x /\ 0 <= vz x.
Proof.
  induction x as [t o|l IH|l IH|t l IH] using Value_nested_ind; intros v.
  - intros (Ht & _ & s & d & Hs & Hd & ->). pose proof (setType_shapes t s Hs Ht) as Hk. cbn [getData vz]. rewrite Hs.
    destruct s as [w| |k| | |]; cbn [raw_data] in Hd; try done.
    + destruct (_ =? _)%nat; [|done]. injection Hd as <-. cbn. lia.
    + destruct (_ =? _)%nat; [|done]. injection Hd as <-. cbn. lia.
    + destruct (Z.ltb_spec (Z.of_nat (length o)) (2 ^ (8 * k))); [|done]. injection Hd as <-. cbn. lia.
  - intros (t & -> & _ & _ & _ & Hv & Hc). cbn [getData data_z]. destruct t as [vs [bs|] cs nb]; cbn [table_z values newBytes cachedBytes] in *; [unfold tz in Hc; lia|].
    destruct Hc as [-> _]. apply all2_Forall2 in Hv. clear -Hv IH. cbn [vz].
    match goal with |- 8 + ?a = 8 + ?b /\ _ => cut (a = b /\ 0 <= b); [lia|] end.
    induction Hv as [|p q l vs [Hp Hr] _ IHv]; [done|]. apply Forall_cons in IH as [H1 H2]. specialize (H1 _ Hr). specialize (IHv H2).
    cbn [foldr]. destruct q as [k [tq dq]]. cbn [fst snd value_z getData] in *. rewrite Hp. lia.
  - intros (vs & -> & Hv & _). cbn [getData data_z vz]. apply all2_Forall2 in Hv.
    match goal with |- 8 + ?a = 8 + ?b /\ _ => cut (a = b /\ 0 <= b); [lia|] end.
    induction Hv as [|p [tq dq] l vs Hr _ IHv]; [done|]. apply Forall_cons in IH as [H1 H2]. specialize (H1 _ Hr). specialize (IHv H2).
    cbn [foldr value_z getData] in *. lia.
  - intros (vs & s & -> & _ & _ & _ & Hv & _). cbn [getData data_z vz]. apply all2_Forall2 in Hv.
    match goal with |- 9 + ?a = 9 + ?b /\ _ => cut (a = b /\ 0 <= b); [lia|] end.
    induction Hv as [|p [tq dq] l vs Hr _ IHv]; [done|]. apply Forall_cons in IH as [H1 H2]. specialize (H1 _ Hr). specialize (IHv H2).
    cbn [foldr getData] in *. lia.
Qed.

Lemma rep_nonneg x v : rep x v -> 0 <= data_z (getData v).
Proof. intros H. destruct (rep_z x v H) as [-> ?]. done. Qed.

Lemma rep_shape x v : rep x v -> is_byte (vtype x) /\ exists s, setType (vtype x) = Ret s.
Proof.
  destruct x; cbn [rep vtype]; intros H; [|by split; [unfold is_byte, is_uint; lia|eexists]..].
  destruct H as (H1 & _ & s & d & H2 & _). eauto.
Qed.

(** what is known of the bytes of a value's data, and of what is read from them *)
Record coded (x : Value) (v : FieldValue) (bs : list Z) : Prop := mkCoded {
  co_emits : emits (data_encode (getData v)) bs;
  co_length : Z.of_nat (length bs) = data_z (getData v);
  co_size : data_size (getData v) = data_z (getData v);
  co_shape s : setType (vtype x) = Ret s -> shape_size s <= Z.of_nat (length bs);
  co_parses s : setType (vtype x) = Ret s -> exists d, rep x (mkValue (vtype x) d) /\ forall n, (length bs < n)%nat -> parses (data_decode n s) bs d
}.

Lemma codec_coded x v : codec_at x -> rep x v -> data_z (getData v) < 2 ^ 32 -> exists bs, coded x v bs.
Proof.
  intros H Hr Hz. destruct (rep_shape x v Hr) as (_ & s & Hs). destruct (H v s Hr Hs Hz) as (bs & H1 & H2 & H3 & H4 & H5).
  exists bs. constructor; [done|done|done| |]; [intros s' ?; by assert (s' = s) as -> by congruence|].
  intros s' ?. by assert (s' = s) as -> by congruence.
Qed.

Lemma coded_codec x : (forall v, rep x v -> data_z (getData v) < 2 ^ 32 -> exists bs, coded x v bs) -> codec_at x.
Proof.
  intros H v s Hr Hs Hz. destruct (H v Hr Hz) as (bs & [H1 H2 H3 H4 H5]). exists bs. split_and!; [done|done|done|by apply H4|by apply H5].
Qed.

(** the elements of a list or an array, with their bytes *)
Record Elem := mkElem { e_x : Value; e_t : Z; e_d : Data; e_bs : list Z }.
Definition e_v (e : Elem) : FieldValue := mkValue (e_t e) (e_d e).
Definition elem_ok (e : Elem) : Prop := rep (e_x e) (e_v e) /\ coded (e_x e) (e_v e) (e_bs e).

Definition sum_z (vs : list FieldValue) : Z := foldr (fun v a => match v with mkValue _ d => data_z d end + a) 0 vs.

Lemma rep_sum l vs : all2 rep l vs -> 0 <= sum_z vs.
Proof.
  intros Hv. apply all2_Forall2 in Hv. induction Hv as [|x [t d] l vs Hr Hv IH]; [done|]. cbn [sum_z foldr]. fold (sum_z vs).
  pose proof (rep_nonneg x _ Hr). cbn [getData] in *. lia.
Qed.

Lemma codec_all l vs :
  Forall codec_at l -> all2 rep l vs -> sum_z vs < 2 ^ 32 -> exists es, l = map e_x es /\ vs = map e_v es /\ Forall elem_ok es.
Proof.
  revert vs. induction l as [|x l IH]; intros [|[t d] vs] Hl Hv Hz; try done; [by exists []|].
  apply Forall_cons in Hl as [H1 H2]. destruct Hv as [Hr Hv]. cbn [sum_z foldr] in Hz. fold (sum_z vs) in Hz.
  pose proof (rep_nonneg x _ Hr) as Hn. pose proof (rep_sum l vs Hv). cbn [getData] in Hn.
  destruct (codec_coded x _ H1 Hr) as [bs Hbs]; [cbn [getData]; lia|]. destruct (IH vs H2 Hv) as (es & -> & -> & He); [lia|].
  exists (mkElem x t d bs :: es). split_and!; [done|done|]. by constructor.
Qed.

Lemma values_z vs : foldr (fun v a => value_z v + a) 0 vs = Z.of_nat (length vs) + sum_z vs.
Proof. induction vs as [|[t d] vs IH]; [done|]. cbn [foldr value_z length sum_z]. fold (sum_z vs). rewrite IH. lia. Qed.

Lemma elem_type e : elem_ok e -> e_t e = vtype (e_x e) /\ is_byte (e_t e) /\ exists s, setType (e_t e) = Ret s.
Proof.
  intros [Hr _]. pose proof (rep_type _ _ Hr) as E. cbn in E. split; [done|]. rewrite E. by apply (rep_shape _ (e_v e)).
Qed.

Definition full_bytes (e : Elem) : list Z := u8 (e_t e) :: e_bs e.

Lemma emits_value e : elem_ok e -> emits (value_encode (e_v e)) (full_bytes e).
Proof.
  intros He. destruct (elem_type e He) as (_ & Ht & _). destruct He as [_ [H _ _ _ _]].
  apply (emits_bind (putOctet (e_t e)) _ [u8 (e_t e)] (e_bs e)); [apply emits_putOctet|done].
Qed.

Lemma emits_foldr (f : FieldValue -> M Buffer unit) (g : Elem -> list Z) es :
  Forall (fun e => emits (f (e_v e)) (g e)) es ->
  emits (foldr (fun v m => f v ;; m) (mret tt) (map e_v es)) (concat (map g es)).
Proof. induction 1 as [|e es H1 _ IH]; [apply emits_nil|]. cbn [foldr map concat]. by apply emits_bind. Qed.

Lemma full_length es : Forall elem_ok es -> Z.of_nat (length (concat (map full_bytes es))) = Z.of_nat (length es) + sum_z (map e_v es).
Proof.
  induction 1 as [|e es [_ [_ H _ _ _]] _ IH]; [done|]. cbn [map concat sum_z foldr]. fold (sum_z (map e_v es)). unfold full_bytes at 1. rewrite length_app.
  cbn [length e_v getData] in *. lia.
Qed.

Lemma data_length es : Forall elem_ok es -> Z.of_nat (length (concat (map e_bs es))) = sum_z (map e_v es).
Proof.
  induction 1 as [|e es [_ [_ H _ _ _]] _ IH]; [done|]. cbn [map concat sum_z foldr]. fold (sum_z (map e_v es)). rewrite length_app.
  cbn [e_v getData] in *. lia.
Qed.

Lemma sizes_values es : Forall elem_ok es -> sum_z (map e_v es) + Z.of_nat (length es) < 2 ^ 32 ->
  foldr (fun v a => value_size v + a) 0 (map e_v es) = Z.of_nat (length es) + sum_z (map e_v es).
Proof.
  intros Hes. assert (H0 : forall es, Forall elem_ok es -> 0 <= sum_z (map e_v es)) by (intros es' H; rewrite <- data_length by done; lia).
  induction Hes as [|e es He Hes IH]; [done|]. specialize (H0 es Hes). destruct He as [Hr [_ H1 H2 _ _]]. pose proof (rep_nonneg _ _ Hr).
  cbn [map foldr sum_z length]. fold (sum_z (map e_v es)). unfold e_v at 1 3 5. cbn [value_size e_v getData] in *. intros Hz. rewrite IH, H2 by lia.
  rewrite uwrap_small by (unfold is_uint; lia). lia.
Qed.

Lemma sizes_data es : Forall elem_ok es ->
  foldr (fun v a => match v with mkValue _ d => data_size d end + a) 0 (map e_v es) = sum_z (map e_v es).
Proof.
  induction 1 as [|e es [Hr [_ H1 H2 _ _]] Hes IH]; [done|]. cbn [map foldr sum_z]. fold (sum_z (map e_v es)). unfold e_v at 1 3. cbn [e_v getData] in *. by rewrite IH, H2.
Qed.

Lemma length_concat_ge {A B} (g : B -> list A) es e : e ∈ es -> (length (g e) <= length (concat (map g es)))%nat.
Proof.
  induction es as [|e' es IH]; intros H; [by apply elem_of_nil in H|]. cbn. rewrite length_app.
  apply elem_of_cons in H as [->|H]; [lia|]. specialize (IH H). lia.
Qed.

(** what is read from the bytes of the elements *)
Definition reads_as (e : Elem) (w : FieldValue) : Prop :=
  exists d, w = mkValue (e_t e) d /\ rep (e_x e) w /\ forall n s, setType (e_t e) = Ret s -> (length (e_bs e) < n)%nat -> parses (data_decode n s) (e_bs e) d.

Lemma elems_read es : Forall elem_ok es -> exists ws, Forall2 reads_as es ws.
Proof.
  induction 1 as [|e es He _ [ws IH]]; [by exists []|]. destruct (elem_type e He) as (Et & _ & s & Hs). destruct He as [_ [_ _ _ _ H]].
  rewrite Et in Hs. destruct (H s Hs) as (d & Hr & Hp). exists (mkValue (e_t e) d :: ws). constructor; [|done]. exists d. rewrite Et in *.
  split_and!; [done|done|]. intros n s' Hs' Hn. assert (s' = s) as -> by congruence. by apply Hp.
Qed.

Lemma reads_rep es ws : Forall2 reads_as es ws -> all2 rep (map e_x es) ws /\ length ws = length es.
Proof. induction 1 as [|e w es ws (d & -> & Hr & _) _ [IH1 IH2]]; [done|]. cbn. by rewrite IH2. Qed.

Lemma reads_parse (m : M Buffer FieldValue) (g : Elem -> list Z) es ws :
  Forall2 reads_as es ws -> (forall e w, e ∈ es -> reads_as e w -> parses m (g e) w) -> Forall2 (fun bs w => parses m bs w) (map g es) ws.
Proof.
  induction 1 as [|e w es ws H _ IH]; intros Hm; [constructor|]. cbn. constructor; [apply Hm; [by left|done]|]. apply IH. intros e' w' He'. apply Hm. by right.
Qed.

Lemma codec_VList l : Forall codec_at l -> codec_at (VList l).
Proof.
  intros Hl. apply coded_codec. intros v (vs & -> & Hv & Hn) Hz. cbn [getData data_z] in Hz. rewrite values_z in Hz.
  destruct (codec_all l vs Hl Hv) as (es & -> & -> & Hes); [lia|]. rewrite length_map in Hz, Hn. pose proof (rep_sum _ _ Hv) as Hs0.
  pose proof (full_length es Hes) as Hfl. set (content := concat (map full_bytes es)) in *.
  set (k := Z.of_nat (length es) + sum_z (map e_v es)) in *.
  assert (Hsz : data_size (EncodedList (map e_v es)) = 8 + k).
  { cbn [data_size]. rewrite sizes_values by (done || lia). rewrite uwrap_small; [done|unfold is_uint; lia]. }
  exists (be32 (4 + k) ++ be32 (Z.of_nat (length es)) ++ content). constructor; cbn [getData vtype].
  - cbn [data_encode]. fold (data_size (EncodedList (map e_v es))). rewrite Hsz, length_map, !(uwrap_small 32) by (unfold is_uint; lia).
    apply emits_bind; [replace (8 + k - 4) with (4 + k) by lia; apply emits_putLong|]. apply emits_bind; [apply emits_putLong|].
    apply emits_foldr. eapply Forall_impl; [exact Hes|]. apply emits_value.
  - rewrite !length_app. cbn [data_z]. rewrite values_z, length_map. cbn [length be32]. lia.
  - rewrite Hsz. cbn [data_z]. rewrite values_z, length_map. done.
  - intros s [= <-]. rewrite !length_app. cbn [length be32 shape_size]. lia.
  - intros s [= <-]. destruct (elems_read es Hes) as [ws Hws]. destruct (reads_rep es ws Hws) as [W2 W3].
    exists (EncodedList ws). split; [exists ws; split_and!; [done|done|lia]|].
    intros n Hlen. destruct n as [|n]; [lia|]. rewrite !length_app in Hlen. cbn [length be32] in Hlen.
    assert (W1 := reads_parse (value_with (data_decode n)) full_bytes es ws Hws). ospecialize (W1 _).
    { intros e w He (d & -> & Hr & Hp). rewrite Forall_forall in Hes. pose proof (length_concat_ge full_bytes es e He) as Hle. fold content in Hle.
      destruct (elem_type e (Hes e He)) as (_ & Ht & s & Hs). apply (parses_value n s); [done|done|]. apply Hp; [done|].
      unfold full_bytes in Hle. cbn [length] in Hle. lia. }
    cbn [data_decode]. unfold list_decode. set (all := be32 (4 + k) ++ be32 (Z.of_nat (length es)) ++ content).
    assert (Hall : Z.of_nat (length all) = 8 + k) by (unfold all; rewrite !length_app; cbn [length be32]; lia).
    apply parses_get. intros b Hb Ha. apply parses_guard; [apply Z.ltb_ge; lia|].
    apply (parses_bind _ _ (be32 (4 + k)) _ (4 + k)); [rewrite <- (uwrap_small 32 (4 + k)) at 2 by (unfold is_uint; lia); apply parses_getLong|].
    assert (Hall' : Z.of_nat (length (be32 (Z.of_nat (length es)) ++ content)) = 4 + k) by (rewrite !length_app; cbn [length be32]; lia).
    apply parses_get. intros b1 Hb1 Ha1. apply parses_guard; [apply Z.ltb_ge; lia|]. rewrite (proj2 (Z.eqb_neq _ _)) by lia.
    apply parses_guard; [apply Z.ltb_ge; lia|].
    apply (parses_bind _ _ (be32 (Z.of_nat (length es))) _ (Z.of_nat (length es)));
      [rewrite <- (uwrap_small 32 (Z.of_nat (length es))) at 2 by (unfold is_uint; lia); apply parses_getLong|].
    apply parses_get. intros b2 Hb2 Ha2. apply (parses_map _ EncodedList). rewrite <- W3. apply (parses_repeat _ (map full_bytes es) ws W1 _ 0). unfold read_fuel. lia.
Qed.

Lemma codec_VArray t l : Forall codec_at l -> codec_at (VArray t l).
Proof.
  intros Hl. apply coded_codec. intros v (vs & s & -> & Ht & Hs & Hty & Hv & Hn & H256) Hz. cbn [getData data_z] in Hz. fold (sum_z vs) in Hz.
  destruct (codec_all l vs Hl Hv) as (es & -> & -> & Hes); [lia|]. rewrite length_map in Hn, H256. pose proof (rep_sum _ _ Hv) as Hs0.
  pose proof (data_length es Hes) as Hfl. set (content := concat (map e_bs es)) in *. set (k := sum_z (map e_v es)) in *.
  assert (Hsz : data_size (EncodedArray t (map e_v es)) = 9 + k).
  { cbn [data_size]. rewrite sizes_data by done. rewrite uwrap_small; [done|unfold is_uint; lia]. }
  assert (Hel : forall e, e ∈ es -> elem_ok e /\ e_t e = t).
  { intros e He. rewrite Forall_forall in Hes. split; [by apply Hes|]. destruct (elem_type e (Hes e He)) as (-> & _). rewrite Forall_map, Forall_forall in Hty. by apply Hty. }
  assert (Hmin : Z.of_nat (length es) * shape_size s <= k).
  { rewrite <- Hfl. clear -Hel Hs. unfold content. clear content. induction es as [|e es IH]; [cbn; lia|]. cbn [length map concat]. rewrite length_app.
    destruct (Hel e) as [[_ [_ _ _ H _]] <-]; [by left|]. specialize (IH ltac:(intros e' He'; apply Hel; by right)).
    destruct (elem_type e) as (Et & _); [apply Hel; by left|]. rewrite Et in Hs. specialize (H s Hs). lia. }
  assert (Hsh : 0 <= shape_size s) by (pose proof (setType_shapes t s Hs Ht); destruct s; cbn; lia).
  exists (be32 (5 + k) ++ [u8 t] ++ be32 (Z.of_nat (length es)) ++ content). constructor; cbn [getData vtype].
  - cbn [data_encode]. fold (data_size (EncodedArray t (map e_v es))). rewrite Hsz, length_map, !(uwrap_small 32) by (unfold is_uint; lia).
    apply emits_bind; [replace (9 + k - 4) with (5 + k) by lia; apply emits_putLong|]. apply emits_bind; [apply emits_putOctet|].
    apply emits_bind; [apply emits_putLong|]. apply (emits_foldr (fun v => match v with mkValue _ d => data_encode d end)).
    eapply Forall_impl; [exact Hes|]. intros e [_ [H _ _ _ _]]. exact H.
  - rewrite !length_app. cbn [data_z]. fold (sum_z (map e_v es)). fold k. cbn [length be32]. lia.
  - rewrite Hsz. cbn [data_z]. done.
  - intros s' [= <-]. rewrite !length_app. cbn [length be32 shape_size]. lia.
  - intros s' [= <-]. destruct (elems_read es Hes) as [ws Hws]. destruct (reads_rep es ws Hws) as [W2 W3].
    exists (EncodedArray t ws). split; [exists ws, s; split_and!; try done; [lia|rewrite W3; done]|].
    intros n Hlen. destruct n as [|n]; [lia|]. rewrite !length_app in Hlen. cbn [length be32] in Hlen.
    assert (W1 := reads_parse (d ← data_decode n s; mret (mkValue t d)) e_bs es ws Hws). ospecialize (W1 _).
    { intros e w He (d & -> & Hr & Hp). destruct (Hel e He) as [Hok Et]. pose proof (length_concat_ge e_bs es e He) as Hle. fold content in Hle.
      rewrite Et. apply (parses_map _ (mkValue t)). apply Hp; [by rewrite Et|lia]. }
    cbn [data_decode]. unfold array_decode.
    apply (parses_bind _ _ (be32 (5 + k)) _ (5 + k)); [rewrite <- (uwrap_small 32 (5 + k)) at 2 by (unfold is_uint; lia); apply parses_getLong|].
    assert (Hall' : Z.of_nat (length ([u8 t] ++ be32 (Z.of_nat (length es)) ++ content)) = 5 + k) by (rewrite !length_app; cbn [length be32]; lia).
    apply parses_get. intros b1 Hb1 Ha1. apply parses_guard; [apply Z.ltb_ge; lia|]. rewrite (proj2 (Z.eqb_neq _ _)) by lia.
    apply (parses_bind _ _ [u8 t] _ t); [rewrite (uwrap_small 8) by done; apply parses_getOctet|].
    apply (parses_bind _ _ (be32 (Z.of_nat (length es))) _ (Z.of_nat (length es)));
      [rewrite <- (uwrap_small 32 (Z.of_nat (length es))) at 2 by (unfold is_uint; lia); apply parses_getLong|].
    apply (parses_lift _ _ s); [done|]. apply parses_get. intros b2 Hb2 Ha2.
    apply parses_guard; [apply Z.ltb_ge; rewrite uwrap_small by (unfold is_uint; nia); lia|].
    apply parses_guard; [destruct (Z.eqb_spec (shape_size s) 0) as [E|]; [cbn; apply Z.ltb_ge; by apply H256|done]|].
    apply parses_get. intros b3 Hb3 Ha3. apply (parses_map _ (EncodedArray t)). rewrite <- W3. apply (parses_repeat _ (map e_bs es) ws W1 _ 0).
    unfold read_fuel. destruct (Z.eq_dec (shape_size s) 0) as [E|E]; [specialize (H256 E); lia|nia].
Qed.

(** *** The entries of a table *)

Definition entry_bytes (p : list Z * Elem) : list Z := u8 (Z.of_nat (length p.1)) :: p.1 ++ full_bytes p.2.

Lemma elem_value_decode e w : elem_ok e -> reads_as e w -> parses value_decode (full_bytes e) w.
Proof.
  intros He (d & -> & _ & Hp). destruct (elem_type e He) as (_ & Ht & s & Hs). apply parses_get. intros b Hb Ha.
  apply (parses_value _ s); [done|done|]. apply Hp; [done|]. unfold full_bytes in Ha. cbn [length] in Ha. lia.
Qed.

Lemma entries_loop_run es ws : Forall2 reads_as (map snd es) ws -> Forall elem_ok (map snd es) -> Forall name_ok (map fst es) ->
  forall fuel acc b, buf_wf b -> rest b = concat (map entry_bytes es) -> (length es <= fuel)%nat ->
  StronglySorted name_lt (map fst acc ++ map fst es) ->
  exists b', entries_loop fuel 0 (Z.of_nat (length es)) (acc, b) = ((acc ++ zip (map fst es) ws, b'), Ret tt).
Proof.
  revert ws. induction es as [|[k e] es IH]; intros ws Hws Hok Hnm fuel acc b Hb Hr Hf Hs.
  - apply Forall2_nil_inv_l in Hws as ->. cbn [map concat zip zip_with length] in *. rewrite app_nil_r.
    assert (E : available b = 0) by (rewrite <- (rest_length b Hb), Hr; done). exists b.
    destruct fuel; cbn [entries_loop snd]; by rewrite E.
  - cbn [map snd fst] in *. apply Forall2_cons_inv_l in Hws as (w & ws' & Hw & Hws & ->). apply Forall_cons in Hok as [He Hok]. apply Forall_cons in Hnm as [[Hk1 Hk2] Hnm].
    destruct fuel as [|fuel]; [cbn in Hf; lia|]. cbn [length] in *.
    assert (Hlen : Z.of_nat (length (concat (map entry_bytes ((k, e) :: es)))) = available b) by (rewrite <- (rest_length b Hb), Hr; done).
    cbn [map concat] in Hr, Hlen |- *. unfold entry_bytes in Hr at 1. cbn [fst snd] in Hr.
    rewrite app_comm_cons, <- app_assoc in Hr.
    destruct (parses_step _ _ _ b _ (parses_getShortString k Hk2) Hb Hr) as (b1 & E1 & Hb1 & Hr1 & _).
    destruct (parses_step _ _ _ _ _ (elem_value_decode e w He Hw) Hb1 Hr1) as (b2 & E2 & Hb2 & Hr2 & _).
    cbn [entries_loop snd]. rewrite (proj2 (Z.ltb_lt 0 (available b))) by (rewrite <- Hlen; unfold entry_bytes; cbn; lia).
    rewrite (proj2 (Z.eqb_neq _ 0)) by lia. cbn [andb negb]. unfold mbind, M_bind. rewrite (on_buffer_run _ _ _ _ _ E1).
    rewrite (on_buffer_run _ _ _ _ _ E2). cbn [on_state]. replace (Z.of_nat (S (length es)) - 1) with (Z.of_nat (length es)) by lia.
    rewrite name_insert_last. 2: { apply Forall_forall. intros x Hx. eapply StronglySorted_app_1_elem_of; [exact Hs|done|by left]. }
    destruct (IH ws' Hws Hok Hnm fuel (acc ++ [(k, w)]) b2) as [b3 E3]; [done|done|lia|rewrite map_app, <- app_assoc; exact Hs|].
    exists b3. rewrite E3, <- app_assoc. done.
Qed.

Definition name_sum (vs : list (list Z * FieldValue)) : Z := foldr (fun p a => 1 + Z.of_nat (length p.1) + value_z p.2 + a) 0 vs.

(** the entries of a table with their bytes *)
Lemma codec_entries l vs :
  Forall (fun p => codec_at p.2) l -> entries_rep l vs -> name_sum vs < 2 ^ 32 ->
  exists es, l = map (fun p => (p.1, e_x p.2)) es /\ vs = map (fun p => (p.1, e_v p.2)) es /\ Forall elem_ok (map snd es).
Proof.
  revert vs. induction l as [|[k x] l IH]; intros [|[k' [t d]] vs] Hl Hv Hz; try done; [by exists []|].
  apply Forall_cons in Hl as [H1 H2]. destruct Hv as [[E Hr] Hv]. cbn [fst snd] in *. subst k'. cbn [name_sum foldr fst snd value_z] in Hz. fold (name_sum vs) in Hz.
  pose proof (rep_nonneg x _ Hr) as Hn. cbn [getData] in Hn.
  assert (Hs : 0 <= name_sum vs).
  { clear -Hv. revert vs Hv. induction l as [|[k x] l IH]; intros [|[k' [t d]] vs] Hv; try done. destruct Hv as [[E Hr] Hv]. specialize (IH vs Hv).
    pose proof (rep_nonneg x _ Hr). cbn [name_sum foldr fst snd value_z getData] in *. fold (name_sum vs). lia. }
  destruct (codec_coded x _ H1 Hr) as [bs Hbs]; [cbn [getData]; lia|]. destruct (IH vs H2 Hv) as (es & -> & -> & He); [lia|].
  exists ((k, mkElem x t d bs) :: es). split_and!; [done|done|]. by constructor.
Qed.

Lemma entries_length es : Forall elem_ok (map snd es) -> Z.of_nat (length (concat (map entry_bytes es))) = name_sum (map (fun p => (p.1, e_v p.2)) es).
Proof.
  induction es as [|[k e] es IH]; [done|]. cbn [map snd]. intros [[_ [_ H _ _ _]] He]%Forall_cons. specialize (IH He).
  cbn [concat map name_sum foldr fst snd] in *. fold (name_sum (map (fun p => (p.1, e_v p.2)) es)). unfold entry_bytes at 1, full_bytes. cbn [fst snd].
  rewrite length_app. cbn [length]. rewrite length_app. cbn [length e_v getData value_z] in *. lia.
Qed.

Lemma entries_sizes es :
  Forall elem_ok (map snd es) -> name_sum (map (fun p => (p.1, e_v p.2)) es) < 2 ^ 32 ->
  foldr (fun p a => 1 + Z.of_nat (length p.1) + value_size p.2 + a) 0 (map (fun p => (p.1, e_v p.2)) es) = name_sum (map (fun p => (p.1, e_v p.2)) es).
Proof.
  induction es as [|[k e] es IH]; [done|]. cbn [map snd]. intros [[Hr [_ H1 H2 _ _]] He]%Forall_cons. specialize (IH He). pose proof (rep_nonneg _ _ Hr).
  pose proof (entries_length es He) as H0. cbn [foldr name_sum fst snd]. fold (name_sum (map (fun p => (p.1, e_v p.2)) es)).
  unfold e_v at 1 3 5. cbn [value_z value_size]. cbn [e_v getData] in *. intros Hz. rewrite IH, H2, uwrap_small by (unfold is_uint; lia || lia). done.
Qed.

Lemma emits_entries es :
  Forall elem_ok (map snd es) -> Forall name_ok (map fst es) ->
  emits (foldr (fun p m => putShortString p.1 ;; value_encode p.2 ;; m) (mret tt) (map (fun p => (p.1, e_v p.2)) es)) (concat (map entry_bytes es)).
Proof.
  induction es as [|[k e] es IH]; intros He Hn; [apply emits_nil|]. cbn [map snd fst] in *. apply Forall_cons in He as [He Hes]. apply Forall_cons in Hn as [[H1 H2] Hn].
  cbn [foldr concat map fst snd]. unfold entry_bytes at 1. cbn [fst snd]. rewrite app_comm_cons, <- app_assoc.
  apply emits_bind; [by apply emits_putShortString|]. apply emits_bind; [by apply emits_value|]. by apply IH.
Qed.

(** the bytes of a table with the entries [es] *)
Definition table_bytes (es : list (list Z * Elem)) : list Z :=
  let content := be32 (Z.of_nat (length es)) ++ concat (map entry_bytes es) in be32 (Z.of_nat (length content)) ++ content.

Lemma table_bytes_decode es :
  Forall elem_ok (map snd es) -> Forall name_ok (map fst es) -> StronglySorted name_lt (map fst es) -> Z.of_nat (length es) < 2 ^ 32 ->
  Z.of_nat (length (table_bytes es)) < 2 ^ 32 ->
  exists vs, decodes (table_bytes es) vs /\ entries_rep (map (fun p => (p.1, e_x p.2)) es) vs.
Proof.
  intros He Hn Hs Hlen Hz. destruct (elems_read (map snd es) He) as [ws Hws]. exists (zip (map fst es) ws). split.
  - unfold decodes, read_entries. set (content := concat (map entry_bytes es)) in *.
    set (inner := be32 (Z.of_nat (length es)) ++ content). assert (Ei : Z.of_nat (length inner) = 4 + Z.of_nat (length content)) by (unfold inner; rewrite length_app; cbn; lia).
    assert (Et : table_bytes es = be32 (Z.of_nat (length inner)) ++ inner) by done. rewrite Et in *. rewrite length_app in Hz. cbn [length be32] in Hz.
    assert (Hbytes : Forall is_byte (be32 (Z.of_nat (length inner)) ++ inner)).
    { apply Forall_app. split; [repeat constructor; apply is_byte_u8|]. unfold inner. apply Forall_app. split; [repeat constructor; apply is_byte_u8|].
      by destruct (emits_entries es He Hn). }
    set (b0 := new_Buffer _ _). assert (Hb0 : buf_wf b0) by (unfold b0, new_Buffer, buf_wf; cbn [data size position]; split_and!; [done|lia|lia|rewrite length_app; cbn; lia|done]).
    assert (Hr0 : rest b0 = be32 (Z.of_nat (length inner)) ++ inner) by done.
    destruct (parses_step _ _ _ b0 _ (parses_getLong (Z.of_nat (length inner))) Hb0 Hr0) as (b1 & E1 & Hb1 & Hr1 & _).
    destruct (parses_step _ _ _ b1 _ (parses_getLong (Z.of_nat (length es))) Hb1 Hr1) as (b2 & E2 & Hb2 & Hr2 & _).
    rewrite (uwrap_small 32) in E1 by (unfold is_uint; lia). rewrite (uwrap_small 32) in E2 by (unfold is_uint; lia).
    unfold mbind, M_bind. rewrite (on_buffer_run _ _ _ _ _ E1), (proj2 (Z.eqb_neq _ _)) by lia. unfold get. rewrite (on_buffer_run _ _ _ _ _ E2). cbn [snd].
    assert (Ea : available b1 = Z.of_nat (length inner)) by (rewrite <- (rest_length b1 Hb1), Hr1; done). rewrite Ea, Z.sub_diag. change (u32 0) with 0.
    destruct (entries_loop_run es ws Hws He Hn (S (Z.to_nat (Z.of_nat (length inner)))) [] b2 Hb2 Hr2) as [b3 E3]; [|done|exists b3; exact E3].
    assert (Hge : (length es <= length content)%nat); [|lia]. unfold content. clear. induction es as [|p es IH]; [done|]. cbn [map concat]. rewrite length_app. unfold entry_bytes at 1. cbn [length]. lia.
  - clear -Hws. unfold entries_rep. revert ws Hws. induction es as [|[k e] es IH]; intros ws Hws; [by apply Forall2_nil_inv_l in Hws as ->|].
    apply Forall2_cons_inv_l in Hws as (w & ws' & (d & -> & Hr & _) & Hws & ->). cbn. split; [done|]. by apply IH.
Qed.

Lemma parses_table_decode bs bs0 :
  bs = be32 (Z.of_nat (length bs0)) ++ bs0 -> 8 <= Z.of_nat (length bs) < 2 ^ 32 ->
  parses table_decode bs (mkTable [] (Some bs) (Z.of_nat (length bs)) true).
Proof.
  intros -> Hlen b k Hb Hr. rewrite length_app in Hlen. cbn [length be32] in Hlen. pose proof Hr as Hr'. rewrite <- app_assoc in Hr.
  unfold table_decode, mbind, M_bind, get, guard_throw.
  assert (Ha : 8 <= available b) by (rewrite <- (rest_length b Hb), Hr', !length_app; cbn [length be32]; lia).
  rewrite (proj2 (Z.ltb_ge (available b) 4)) by lia. unfold mret, M_ret.
  destruct (parses_step _ _ _ b _ (parses_getLong (Z.of_nat (length bs0))) Hb Hr) as (b1 & E1 & Hb1 & Hr1 & Es & Ed).
  rewrite (uwrap_small 32) in E1 by (unfold is_uint; lia). rewrite E1.
  assert (Ha1 : Z.of_nat (length bs0) <= available b1) by (rewrite <- (rest_length b1 Hb1), Hr1, length_app; lia).
  rewrite (proj2 (Z.ltb_ge (available b1) _)), (proj2 (Z.ltb_ge (available b1) 4)) by lia. rewrite andb_false_r. unfold modify.
  assert (Eb : setPosition (position b) b1 = b) by (apply setPosition_back; done). rewrite Eb, (uwrap_small 32) by (unfold is_uint; lia).
  set (bs := be32 (Z.of_nat (length bs0)) ++ bs0) in *. assert (El : Z.of_nat (length bs0) + 4 = Z.of_nat (length bs)) by (unfold bs; rewrite length_app; cbn [length be32]; lia).
  rewrite El. unfold getRawData. rewrite (parses_checked_load bs _ eq_refl b k Hb Hr'). done.
Qed.

Lemma put_array_emits bs : Forall is_byte bs -> emits (put_array (Z.of_nat (length bs)) bs) bs.
Proof. intros H. unfold put_array. rewrite Z.leb_refl, Nat2Z.id, firstn_all. by apply emits_putRawData. Qed.

(** a table that holds its values only *)
Lemma codec_values l vs cs :
  Forall (fun p => codec_at p.2) l -> StronglySorted name_lt (map fst l) -> Forall name_ok (map fst l) -> Z.of_nat (length l) < 2 ^ 32 ->
  entries_rep l vs -> (cs = 0 \/ cs = table_size (mkTable vs None 0 false)) -> 8 + name_sum vs < 2 ^ 32 ->
  let t := mkTable vs None cs false in
  exists bs, (putLong (u32 (table_size t - 4)) ;; putLong (u32 (Z.of_nat (length vs))) ;;
              foldr (fun p m => putShortString p.1 ;; value_encode p.2 ;; m) (mret tt) vs) = table_encode t /\
    emits (table_encode t) bs /\ Z.of_nat (length bs) = 8 + name_sum vs /\ table_size t = 8 + name_sum vs /\
    8 <= Z.of_nat (length bs) < 2 ^ 32 /\ (exists bs0, bs = be32 (Z.of_nat (length bs0)) ++ bs0) /\ exists vs', decodes bs vs' /\ entries_rep l vs'.
Proof.
  intros Hl Hs Hn Hlen Hv Hcs Hz t. destruct (codec_entries l vs Hl Hv) as (es & -> & -> & He); [lia|].
  rewrite map_map in Hs, Hn. cbn [fst] in Hs, Hn. rewrite length_map in Hlen. pose proof (entries_length es He) as Hel. set (k := name_sum _) in *.
  assert (Hcl : Z.of_nat (length (table_bytes es)) = 8 + k).
  { unfold table_bytes. rewrite !length_app. cbn [length be32]. lia. }
  assert (Hsz0 : table_size (mkTable (map (fun p => (p.1, e_v p.2)) es) None 0 false) = 8 + k).
  { cbn [table_size Z.eqb]. rewrite entries_sizes by (done || lia). rewrite uwrap_small; [done|unfold is_uint; lia]. }
  assert (Hsz : table_size t = 8 + k).
  { unfold t. clear t. destruct Hcs as [->| ->]; [done|]. rewrite Hsz0. cbn [table_size]. by rewrite (proj2 (Z.eqb_neq _ _)) by lia. }
  exists (table_bytes es). split_and!; try lia.
  - cbn [table_encode]. done.
  - unfold t at 1. cbn [table_encode]. fold t. rewrite Hsz, length_map, !(uwrap_small 32) by (unfold is_uint; lia). unfold table_bytes.
    apply emits_bind; [|apply emits_bind; [apply emits_putLong|by apply emits_entries]]. eapply emits_ext; [apply emits_putLong|]. f_equal.
    rewrite length_app. cbn [length be32]. lia.
  - by eexists.
  - apply table_bytes_decode; try done. lia.
Qed.

Lemma codec_VTable l : Forall (fun p => codec_at p.2) l -> codec_at (VTable l).
Proof.
  intros Hl. apply coded_codec. intros v Hrep Hz. destruct (rep_z _ v Hrep) as [Etz _]. destruct Hrep as (t & -> & Hs & Hn & Hlen & Hv & Hc).
  cbn [getData data_z] in Hz, Etz. rewrite length_map in Hlen. change (table_z t = tz l) in Etz.
  assert (H : exists bs, emits (table_encode t) bs /\ Z.of_nat (length bs) = table_z t /\ table_size t = table_z t /\ 8 <= Z.of_nat (length bs) < 2 ^ 32 /\
    (exists bs0, bs = be32 (Z.of_nat (length bs0)) ++ bs0) /\ exists vs', decodes bs vs' /\ entries_rep l vs').
  { destruct t as [vs [bs|] cs nb]; cbn [cachedBytes cachedSize newBytes values] in *.
    - destruct Hc as (-> & Hbl & H8 & Hb & Hb0 & Hd). exists bs. split_and!; try done; try lia; [by apply put_array_emits|].
      cbn [table_size table_z]. by rewrite (proj2 (Z.eqb_neq _ _)) by lia.
    - destruct Hc as [-> Hcs]. destruct (codec_values l vs cs Hl Hs Hn Hlen Hv Hcs Hz) as (bs & _ & H1 & H2 & H3 & H4 & H5 & H6). exists bs. split_and!; try done; lia. }
  destruct H as (bs & H1 & H2 & H3 & H4 & (bs0 & Hb0) & vs' & H6 & H7). exists bs. constructor; cbn [getData vtype data_z data_size data_encode].
  - done.
  - done.
  - done.
  - intros s [= <-]. cbn [shape_size]. lia.
  - intros s [= <-]. exists (EncodedTable (mkTable [] (Some bs) (Z.of_nat (length bs)) true)). split.
    + exists (mkTable [] (Some bs) (Z.of_nat (length bs)) true). split; [done|]. unfold table_of. cbn [newBytes values cachedBytes cachedSize].
      rewrite length_map. split_and!; try done; try lia; [by destruct H1|by eexists|by exists vs'].
    + intros n Hlt. destruct n as [|n]; [lia|]. cbn [data_decode]. apply (parses_map _ EncodedTable). by apply (parses_table_decode bs bs0).
Qed.

Theorem data_codec x : codec_at x.
Proof.
  induction x as [t o|l IH|l IH|t l IH] using Value_nested_ind; [apply codec_raw|by apply codec_VTable|by apply codec_VList|by apply codec_VArray].
Qed.

(** ** Operations *)

Definition names_ok (l : list (list Z * Value)) : Prop :=
  StronglySorted name_lt (map fst l) /\ Forall name_ok (map fst l) /\ Z.of_nat (length l) < 2 ^ 32.

Lemma table_rep_names l t : table_rep l t -> names_ok l.
Proof. intros (H1 & H2 & H3 & _). rewrite length_map in H3. by split_and!. Qed.

(** a table that holds its values and nothing else *)
Lemma plain_rep l vs : names_ok l -> entries_rep l vs -> table_rep l (mkTable vs None 0 false).
Proof. intros (H1 & H2 & H3) Hv. split_and!; [done|done|by rewrite length_map|done|]. split; [done|by left]. Qed.

Lemma realDecode_rep l t :
  table_rep l t -> exists vs, let t' := mkTable vs (cachedBytes t) (cachedSize t) false in
    realDecode t = (t', Ret tt) /\ entries_rep l vs /\ table_rep l t'.
Proof.
  destruct t as [vs cb cs nb]. intros (H1 & H2 & H3 & H4 & H5). cbn [values cachedBytes cachedSize newBytes] in *. destruct nb.
  - subst vs. destruct cb as [bs|]; [|by destruct H5]. destruct H5 as (-> & H5 & H6 & H7 & H8 & vs & [b Hd] & Hv). exists vs. cbn zeta. unfold realDecode.
    cbn [newBytes cachedBytes values cachedSize]. rewrite Hd. split_and!; [done|done|]. unfold table_rep, table_of. cbn [newBytes cachedBytes values cachedSize]. split_and!; try done; try lia; try (exists vs; split; [by exists b|done]).
  - exists vs. by split_and!.
Qed.

Lemma entries_find l vs k :
  entries_rep l vs -> match name_find k l, name_find k vs with Some x, Some v => rep x v | None, None => True | _, _ => False end.
Proof.
  revert vs. induction l as [|[k1 x] l IH]; intros [|[k2 v] vs]; try done. intros [[E Hr] Hv]. cbn [fst snd] in *. subst k2. cbn [name_find].
  case_decide; [done|]. by apply IH.
Qed.

Lemma entries_insert l vs k x v : entries_rep l vs -> rep x v -> entries_rep (name_insert k x l) (name_insert k v vs).
Proof.
  intros Hv Hr. revert vs Hv. induction l as [|[k1 x1] l IH]; intros [|[k2 v2] vs]; try done. intros [[E Hr1] Hv]. cbn [fst snd] in *. subst k2. cbn [name_insert].
  case_decide; [done|]. destruct (bytes_lt k k1); [done|]. split; [done|]. by apply IH.
Qed.

Lemma entries_erase l vs k : entries_rep l vs -> entries_rep (name_erase k l) (name_erase k vs).
Proof.
  revert vs. induction l as [|[k1 x1] l IH]; intros [|[k2 v2] vs]; try done. intros [[E Hr1] Hv]. cbn [fst snd] in *. subst k2. cbn [name_erase].
  case_decide; [done|]. split; [done|]. by apply IH.
Qed.

Lemma names_insert l k x : names_ok l -> name_ok k -> Z.of_nat (length l) + 1 < 2 ^ 32 -> names_ok (name_insert k x l).
Proof.
  intros (H1 & H2 & H3) Hk Hl. split_and!; [by apply name_insert_sorted| |pose proof (name_insert_length k x l); lia].
  apply Forall_forall. intros y. rewrite name_insert_names by done. rewrite Forall_forall in H2. intros [->|Hy]; auto.
Qed.

Lemma names_erase l k : names_ok l -> names_ok (name_erase k l).
Proof.
  intros (H1 & H2 & H3). pose proof (name_erase_sublist k l) as Hs. split_and!; [by eapply StronglySorted_sublist| |].
  - rewrite Forall_forall in *. intros y Hy. apply H2. by eapply elem_of_sublist.
  - apply sublist_length in Hs. rewrite !length_map in Hs. lia.
Qed.

Lemma set_rep l t k x v :
  table_rep l t -> name_ok k -> rep x v -> Z.of_nat (length l) + 1 < 2 ^ 32 -> exists t', set k v t = (t', Ret tt) /\ table_rep (name_insert k x l) t'.
Proof.
  intros Ht Hk Hx Hl. destruct (realDecode_rep l t Ht) as (vs & E & Hv & _). unfold set, mbind, M_bind. rewrite E. unfold modify, flushRawCache, set_values.
  cbn [newBytes values cachedBytes cachedSize]. eexists. split; [done|]. apply plain_rep; [|by apply entries_insert].
  apply names_insert; [by eapply table_rep_names|done|done].
Qed.

Lemma insert_rep l t k x v :
  table_rep l t -> name_ok k -> rep x v -> Z.of_nat (length l) + 1 < 2 ^ 32 ->
  exists t', FieldTable.insert k v t = (t', Ret (bool_decide (name_find k l = None))) /\ table_rep (if name_find k l then l else name_insert k x l) t'.
Proof.
  intros Ht Hk Hx Hl. destruct (realDecode_rep l t Ht) as (vs & E & Hv & _). unfold FieldTable.insert, mbind, M_bind. rewrite E. unfold flushRawCache, get.
  cbn [newBytes values cachedBytes cachedSize]. pose proof (entries_find l vs k Hv) as Hf. pose proof (table_rep_names l t Ht) as Hn.
  destruct (name_find k l) as [y|] eqn:El, (name_find k vs) as [w|]; try done; eexists; (split; [done|]); apply plain_rep; try done.
  - by apply names_insert.
  - by apply entries_insert.
Qed.

Lemma erase_rep l t k : table_rep l t -> exists t', erase k t = (t', Ret tt) /\ table_rep (name_erase k l) t'.
Proof.
  intros Ht. destruct (realDecode_rep l t Ht) as (vs & E & Hv & Ht1). unfold erase, mbind, M_bind. rewrite E. unfold get. cbn [values].
  pose proof (entries_find l vs k Hv) as Hf. pose proof (table_rep_names l t Ht) as Hn.
  destruct (name_find k l) as [y|] eqn:El, (name_find k vs) as [w|]; try done.
  - unfold modify, set_values, flushRawCache. cbn [newBytes values cachedBytes cachedSize]. eexists. split; [done|].
    apply plain_rep; [by apply names_erase|by apply entries_erase].
  - eexists. split; [done|]. assert (name_erase k l = l) as ->; [|done]. clear -El. induction l as [|[k1 x] l IH]; [done|]. cbn in *. case_decide; [done|]. by rewrite IH.
Qed.

Lemma clear_rep l t : table_rep l t -> exists t', clear t = (t', Ret tt) /\ table_rep [] t'.
Proof. intros _. eexists. split; [done|]. apply plain_rep; [|done]. split_and!; [constructor|constructor|done]. Qed.

Lemma lookup_rep l t k :
  table_rep l t -> exists t' r, lookup k t = (t', Ret r) /\ table_rep l t' /\
    match name_find k l, r with Some x, Some v => rep x v | None, None => True | _, _ => False end.
Proof.
  intros Ht. destruct (realDecode_rep l t Ht) as (vs & E & Hv & Ht1). unfold lookup, mbind, M_bind. rewrite E. unfold gets. cbn [values].
  eexists _, _. split; [done|]. split; [done|]. by apply entries_find.
Qed.

Lemma entries_spec l t : table_rep l t -> exists t' vs, entries t = (t', Ret vs) /\ table_rep l t' /\ entries_rep l vs.
Proof. intros Ht. destruct (realDecode_rep l t Ht) as (vs & E & Hv & Ht1). unfold entries, mbind, M_bind. rewrite E. eexists _, vs. by split_and!. Qed.

Lemma iterate_spec l t : table_rep l t -> exists t' vs, iterate t = (t', Ret vs) /\ table_rep l t' /\ entries_rep l vs.
Proof.
  intros Ht. destruct (realDecode_rep l t Ht) as (vs & E & Hv & Ht1). unfold iterate, mbind, M_bind. rewrite E. eexists _, vs. split_and!; [done| |done].
  apply plain_rep; [by eapply table_rep_names|done].
Qed.

(** *** Sizes, bytes and copies *)

Lemma rep_VTable l t : table_rep l t <-> rep (VTable l) (mkValue 0xA8 (EncodedTable t)).
Proof. split; [intros H; exists t; done|]. intros (t' & [= <-] & H). exact H. Qed.

Lemma size_rep l t : table_rep l t -> tz l < 2 ^ 32 -> exists t', encodedSize t = (t', Ret (tz l)) /\ table_rep l t'.
Proof.
  intros Ht Hz. apply rep_VTable in Ht. destruct (rep_z _ _ Ht) as [Ez _]. cbn [getData data_z] in Ez.
  destruct (codec_coded _ _ (data_codec (VTable l)) Ht) as (bs & [_ _ H _ _]); [cbn [getData data_z]; unfold tz in Hz; lia|].
  cbn [getData data_size data_z] in H. unfold encodedSize. rewrite H, Ez. eexists. split; [done|]. apply rep_VTable in Ht.
  destruct t as [vs cb cs nb]. destruct Ht as (H1 & H2 & H3 & H4 & H5). cbn [values cachedBytes cachedSize newBytes] in *. split_and!; try done.
  cbn [values cachedBytes cachedSize newBytes]. destruct cb as [bs'|].
  - destruct H5 as (-> & H5 & H6 & H7). unfold tz in *. split_and!; try done; try lia; try apply H7.
  - destruct H5 as [-> H5]. split; [done|]. right. rewrite <- Ez, <- H. destruct H5 as [->| ->]; [done|]. cbn [table_size] in H |- *.
    destruct (_ =? 0) eqn:E; [done|]. done.
Qed.

Section copies.
Context (uninitialised : Z -> list Z).
Context (uninit_ok : forall n, 0 <= n -> Z.of_nat (length (uninitialised n)) = n /\ Forall is_byte (uninitialised n)).

Lemma copy_rep l t : table_rep l t -> tz l < 2 ^ 32 -> exists t' c, copy uninitialised t = (t', Ret c) /\ table_rep l t' /\ table_rep l c.
Proof.
  intros Ht Hz. pose proof Ht as Ht'. apply rep_VTable in Ht'. destruct (rep_z _ _ Ht') as [Ez _]. cbn [getData data_z] in Ez. clear Ht'.
  pose proof Ht as (H1 & H2 & H3 & H4 & H5). destruct t as [vs [bs|] cs nb]; cbn [values cachedBytes cachedSize newBytes] in *.
  - unfold copy. cbn [cachedBytes cachedSize]. eexists _, _. split; [done|]. split; [done|]. by split_and!.
  - destruct H5 as [-> H5]. unfold copy. cbn [cachedBytes values newBytes cachedSize]. destruct vs as [|p vs'].
    + eexists _, _. split; [done|]. split; [done|]. by split_and!.
    + rewrite length_map in H3. destruct (codec_values l (p :: vs') cs) as (bs & Ee & [Hb Hem] & Hl & Hsz & H8 & Hb0 & Hd); try done.
      { apply Forall_forall. intros q _. apply data_codec. }
      { cbn [table_z] in Ez. unfold name_sum. unfold tz in Hz. lia. }
      set (vs := p :: vs') in *. set (t := mkTable vs None cs false) in *. cbn zeta. rewrite Ee, Hsz. set (n := 8 + name_sum vs) in *.
      destruct (uninit_ok n) as [U1 U2]; [lia|]. assert (Hwf : buf_wf (new_Buffer (uninitialised n) n)) by (split_and!; cbn; try done; lia).
      destruct (Hem _ Hwf) as [Hrun _]. rewrite Hrun by (cbn; lia). cbn [data write new_Buffer position take Z.to_nat app].
      assert (Ed : take (Z.to_nat 0) (uninitialised n) ++ bs ++ drop (Z.to_nat 0 + length bs) (uninitialised n) = bs).
      { rewrite drop_ge by (change (Z.to_nat 0) with 0%nat; lia). by rewrite app_nil_r. }
      cbn [Z.to_nat take app Nat.add] in Ed. rewrite Ed. change (n = vz (VTable l)) in Ez. unfold tz in *.
      eexists _, _. split; [done|]. unfold table_rep, table_of. cbn [values cachedBytes cachedSize newBytes]. rewrite !length_map. unfold tz.
      split; split_and!; try done; lia.
Qed.

(** what is written for a table and read again *)
Lemma encode_rep l t :
  table_rep l t -> tz l < 2 ^ 32 -> exists bs c, emits (table_encode t) bs /\ Z.of_nat (length bs) = tz l /\ parses table_decode bs c /\ table_rep l c.
Proof.
  intros Ht Hz. apply rep_VTable in Ht. destruct (rep_z _ _ Ht) as [Ez _]. destruct (codec_coded _ _ (data_codec (VTable l)) Ht) as (bs & [H1 H2 _ _ H5]); [unfold tz in Hz; lia|].
  destruct (H5 STable eq_refl) as (d & Hr & Hp). cbn [vtype] in Hr. pose proof Hr as (c & [= ->] & Hc). exists bs, c. split_and!; [exact H1|unfold tz; lia| |exact Hc].
  intros b k Hb Hk. specialize (Hp (S (S (length bs))) ltac:(lia) b k Hb Hk). cbn [data_decode] in Hp. unfold mbind, M_bind in Hp.
  destruct (table_decode b) as [b' [c'|e]]; [|done]. unfold mret, M_ret in Hp. congruence.
Qed.
End copies.
