(* ===== verification/FieldTableSystem.v ===== *)
(** * Any sequence of operations on field tables

    Tables are made, changed, copied, put into each other and sent over the wire, in any order.
    [field_tables_correct] says that each stands for a map and that neither the late decoding
    nor the bytes that are kept can be told from the answers. *)

From Stdlib Require Import ZArith Lia Sorted.
From stdpp Require Import gmap.
From S2P Require Import Prelude Buffer FieldTable FieldTableCorrect.
Local Open Scope Z_scope.

(** ** Values as they are made *)

Fixpoint valid (x : Value) : Prop :=
  match x with
  | Raw t o => is_byte t /\ Forall is_byte o /\ exists s d, setType t = Ret s /\ raw_data s o = Some d
  | VTable l => names_ok l /\ foldr (fun p P => valid p.2 /\ P) True l
  | VList l => Z.of_nat (length l) < 2 ^ 32 /\ foldr (fun x P => valid x /\ P) True l
  | VArray t l => is_byte t /\ (exists s, setType t = Ret s /\ (shape_size s = 0 -> Z.of_nat (length l) <= 256)) /\
      Z.of_nat (length l) < 2 ^ 32 /\ foldr (fun x P => (valid x /\ vtype x = t) /\ P) True l
  end.

Fixpoint concrete (x : Value) : FieldValue :=
  match x with
  | Raw t o => mkValue t (match setType t with Ret s => default (FixedWidth o) (raw_data s o) | Throw _ => FixedWidth o end)
  | VTable l => mkValue 0xA8 (EncodedTable (mkTable (map (fun p => (p.1, concrete p.2)) l) None 0 false))
  | VList l => mkValue 0xA9 (EncodedList (map concrete l))
  | VArray t l => mkValue 0xAA (EncodedArray t (map concrete l))
  end.

Lemma concrete_rep x : valid x -> rep x (concrete x).
Proof.
  induction x as [t o|l IH|l IH|t l IH] using Value_nested_ind; cbn [valid].
  - intros (H1 & H2 & s & d & H3 & H4). split_and!; [done|done|]. exists s, d. split_and!; [done|done|]. cbn [concrete]. by rewrite H3, H4.
  - intros [Hn Hv]. eexists. split; [reflexivity|]. apply plain_rep; [done|]. clear Hn. unfold entries_rep. induction IH as [|[k x] l H1 _ IH]; [done|].
    destruct Hv as [V1 V2]. cbn. split; [split; [done|by apply H1]|by apply IH].
  - intros [Hn Hv]. eexists. split; [reflexivity|]. rewrite length_map. split; [|done]. clear Hn. induction IH as [|x l H1 _ IH]; [done|].
    destruct Hv as [V1 V2]. cbn. split; [by apply H1|by apply IH].
  - intros (H1 & (s & H2 & H3) & H4 & Hv). eexists _, s. split; [reflexivity|]. rewrite length_map. split_and!; try done.
    + clear -Hv. induction l as [|x l IH]; [done|]. destruct Hv as [[_ V1] V2]. constructor; [done|by apply IH].
    + clear H4 H3. induction IH as [|x l Hx _ IH]; [done|]. destruct Hv as [[V1 _] V2]. cbn. split; [by apply Hx|by apply IH].
Qed.

(** ** Commands *)

Inductive Command :=
| New (k : nat)
| Set_ (k : nat) (name : list Z) (x : Value)
| Insert (k : nat) (name : list Z) (x : Value)
| Erase (k : nat) (name : list Z)
| Clear (k : nat)
| Copy (k k' : nat)
| SetTable (k : nat) (name : list Z) (k' : nat)
| Send (k k' : nat)
| Get (k : nat) (name : list Z)
| Entries (k : nat)
| Iterate (k : nat)
| Size (k : nat).

(** what a command answers, of values or of what they stand for *)
Inductive Reply (V : Type) := Done | Inserted (b : bool) | Found (v : option V) | Listed (l : list (list Z * V)) | Sized (n : Z).
Arguments Done {V}.
Arguments Inserted {V} _.
Arguments Found {V} _.
Arguments Listed {V} _.
Arguments Sized {V} _.

Abbreviation Store := (gmap nat FieldTable).

Definition on_table {A} (k : nat) (m : M FieldTable A) : M Store A := fun s =>
  match s !! k with
  | None => (s, Throw UndefinedBehaviour)
  | Some t => let '(t', o) := m t in (<[k := t']> s, o)
  end.

Section commands.
Context (uninitialised : Z -> list Z).

(** a table is encoded in a buffer of its size, and decoded from there *)
Definition transfer : M FieldTable FieldTable :=
  n ← encodedSize;
  t ← get;
  let '(b, o) := table_encode t (new_Buffer (uninitialised n) n) in
  lift_outcome o ;;
  lift_outcome (table_decode (setPosition 0 b)).2.

Definition run_command (c : Command) : M Store (Reply FieldValue) :=
  match c with
  | New k => modify (<[k := new_FieldTable]>) ;; mret Done
  | Set_ k name x => on_table k (FieldTable.set name (concrete x)) ;; mret Done
  | Insert k name x => b ← on_table k (FieldTable.insert name (concrete x)); mret (Inserted b)
  | Erase k name => on_table k (erase name) ;; mret Done
  | Clear k => on_table k clear ;; mret Done
  | Copy k k' => c ← on_table k (copy uninitialised); modify (<[k' := c]>) ;; mret Done
  | SetTable k name k' =>
      c ← on_table k' (copy uninitialised);
      on_table k (FieldTable.set name (mkValue 0xa8 (EncodedTable c))) ;; mret Done
  | Send k k' => c ← on_table k transfer; modify (<[k' := c]>) ;; mret Done
  | Get k name => r ← on_table k (lookup name); mret (Found r)
  | Entries k => r ← on_table k entries; mret (Listed r)
  | Iterate k => r ← on_table k iterate; mret (Listed r)
  | Size k => n ← on_table k encodedSize; mret (Sized n)
  end.

Fixpoint run (cs : list Command) : M Store (list (Reply FieldValue)) :=
  match cs with [] => mret [] | c :: cs => r ← run_command c; rs ← run cs; mret (r :: rs) end.
End commands.

(** ** Maps *)

Abbreviation Maps := (gmap nat (list (list Z * Value))).

Definition map_at (m : Maps) (k : nat) : list (list Z * Value) := default [] (m !! k).

Definition abs_command (c : Command) (m : Maps) : Maps * Reply Value :=
  match c with
  | New k => (<[k := []]> m, Done)
  | Set_ k name x => (<[k := name_insert name x (map_at m k)]> m, Done)
  | Insert k name x =>
      let l := map_at m k in
      (<[k := if name_find name l then l else name_insert name x l]> m, Inserted (bool_decide (name_find name l = None)))
  | Erase k name => (<[k := name_erase name (map_at m k)]> m, Done)
  | Clear k => (<[k := []]> m, Done)
  | Copy k k' | Send k k' => (<[k' := map_at m k]> m, Done)
  | SetTable k name k' => (<[k := name_insert name (VTable (map_at m k')) (map_at m k)]> m, Done)
  | Get k name => (m, Found (name_find name (map_at m k)))
  | Entries k | Iterate k => (m, Listed (map_at m k))
  | Size k => (m, Sized (tz (map_at m k)))
  end.

Fixpoint abs_run (cs : list Command) (m : Maps) : Maps * list (Reply Value) :=
  match cs with [] => (m, []) | c :: cs => let '(m, r) := abs_command c m in let '(m, rs) := abs_run cs m in (m, r :: rs) end.

(** the tables are there; names are short, values fit their types, and what is encoded
    takes fewer than 2^32 octets *)
Definition room (l : list (list Z * Value)) (name : list Z) : Prop := name_ok name /\ Z.of_nat (length l) + 1 < 2 ^ 32.

Definition permitted (c : Command) (m : Maps) : Prop :=
  match c with
  | New _ => True
  | Set_ k name x | Insert k name x => is_Some (m !! k) /\ room (map_at m k) name /\ valid x
  | Erase k _ | Clear k | Get k _ | Entries k | Iterate k => is_Some (m !! k)
  | Copy k _ | Send k _ | Size k => is_Some (m !! k) /\ tz (map_at m k) < 2 ^ 32
  | SetTable k name k' => is_Some (m !! k) /\ is_Some (m !! k') /\ room (map_at m k) name /\ tz (map_at m k') < 2 ^ 32
  end.

Fixpoint all_permitted (cs : list Command) (m : Maps) : Prop :=
  match cs with [] => True | c :: cs => permitted c m /\ all_permitted cs (abs_command c m).1 end.

Definition reply_ok (a : Reply Value) (r : Reply FieldValue) : Prop :=
  match a, r with
  | Done, Done => True
  | Inserted b, Inserted b' => b = b'
  | Found x, Found v => match x, v with Some x, Some v => rep x v | None, None => True | _, _ => False end
  | Listed l, Listed l' => entries_rep l l'
  | Sized n, Sized n' => n = n'
  | _, _ => False
  end.

Definition stands_for (m : Maps) (s : Store) : Prop :=
  forall k, match m !! k, s !! k with Some l, Some t => table_rep l t | None, None => True | _, _ => False end.

Lemma stands_at m s k l : stands_for m s -> m !! k = Some l -> exists t, s !! k = Some t /\ table_rep l t.
Proof. intros H E. specialize (H k). rewrite E in H. destruct (s !! k) as [t|]; [by exists t|done]. Qed.

Lemma stands_insert m s k l t : stands_for m s -> table_rep l t -> stands_for (<[k := l]> m) (<[k := t]> s).
Proof. intros H Ht k'. destruct (decide (k' = k)) as [->|Hne]; [by rewrite !lookup_insert_eq|]. rewrite !lookup_insert_ne by done. apply H. Qed.

(** an operation on one table *)
Lemma on_table_run {A} m s k l (op : M FieldTable A) (P : list (list Z * Value) -> A -> Prop) :
  stands_for m s -> m !! k = Some l ->
  (forall t, table_rep l t -> exists t' a l', op t = (t', Ret a) /\ table_rep l' t' /\ P l' a) ->
  exists s' a l', on_table k op s = (s', Ret a) /\ stands_for (<[k := l']> m) s' /\ P l' a.
Proof.
  intros Hs Hk Hop. destruct (stands_at m s k l Hs Hk) as (t & Ht & Hr). destruct (Hop t Hr) as (t' & a & l' & E & Hr' & HP).
  exists (<[k := t']> s), a, l'. unfold on_table. rewrite Ht, E. split_and!; [done|by apply stands_insert|done].
Qed.

Lemma new_rep : table_rep [] new_FieldTable.
Proof. apply plain_rep; [|done]. split_and!; [constructor|constructor|done]. Qed.

Section correct.
Context (uninitialised : Z -> list Z).
Context (uninit_ok : forall n, 0 <= n -> Z.of_nat (length (uninitialised n)) = n /\ Forall is_byte (uninitialised n)).

Lemma transfer_rep l t : table_rep l t -> tz l < 2 ^ 32 -> exists t' c, transfer uninitialised t = (t', Ret c) /\ table_rep l t' /\ table_rep l c.
Proof.
  intros Ht Hz. destruct (size_rep l t Ht Hz) as (t' & E & Ht'). unfold transfer, mbind, M_bind. rewrite E. unfold get.
  destruct (encode_rep l t' Ht' Hz) as (bs & c & Hem & Hl & Hp & Hc). assert (Hn : 0 <= tz l) by lia. destruct (uninit_ok (tz l) Hn) as [U1 U2].
  set (b := new_Buffer _ _). assert (Hwf : buf_wf b) by (unfold b; split_and!; cbn [data size position new_Buffer]; try done; lia).
  destruct (emits_parses_roundtrip _ _ bs c b Hem Hp Hwf) as (b' & E1 & E2); [cbn [size position b new_Buffer]; lia|]. rewrite E1. cbn [position b new_Buffer] in E2. rewrite E2.
  exists t', c. by split_and!.
Qed.

Lemma command_correct c m s :
  stands_for m s -> permitted c m ->
  exists s' r, run_command uninitialised c s = (s', Ret r) /\ stands_for (abs_command c m).1 s' /\ reply_ok (abs_command c m).2 r.
Proof.
  intros Hs Hp. assert (Hat : forall k l, m !! k = Some l -> map_at m k = l) by (intros k l E; unfold map_at; by rewrite E).
  assert (Hid : forall k l, m !! k = Some l -> <[k := l]> m = m) by (intros; by apply insert_id).
  destruct c as [k|k name x|k name x|k name|k|k k'|k name k'|k k'|k name|k|k|k]; cbn [permitted abs_command run_command fst snd] in *; unfold mbind, M_bind.
  - eexists _, Done. split; [done|]. split; [|done]. apply stands_insert; [done|apply new_rep].
  - destruct Hp as ([l E] & [Hn Hl] & Hx). rewrite (Hat _ _ E) in *.
    destruct (on_table_run m s k l (FieldTable.set name (concrete x)) (fun l' _ => l' = name_insert name x l) Hs E) as (s' & a & l' & -> & Hs' & ->); [|by exists s', Done].
    intros t Ht. destruct (set_rep l t name x (concrete x) Ht Hn (concrete_rep x Hx) Hl) as (t' & E' & Ht'). by exists t', tt, (name_insert name x l).
  - destruct Hp as ([l E] & [Hn Hl] & Hx). rewrite (Hat _ _ E) in *.
    destruct (on_table_run m s k l (FieldTable.insert name (concrete x))
      (fun l' b => l' = (if name_find name l then l else name_insert name x l) /\ b = bool_decide (name_find name l = None)) Hs E) as (s' & a & l' & -> & Hs' & -> & ->);
      [|by eexists s', _].
    intros t Ht. destruct (insert_rep l t name x (concrete x) Ht Hn (concrete_rep x Hx) Hl) as (t' & E' & Ht'). eexists t', _, _. split; [exact E'|]. by split.
  - destruct Hp as [l E]. rewrite (Hat _ _ E) in *.
    destruct (on_table_run m s k l (erase name) (fun l' _ => l' = name_erase name l) Hs E) as (s' & a & l' & -> & Hs' & ->); [|by exists s', Done].
    intros t Ht. destruct (erase_rep l t name Ht) as (t' & E' & Ht'). by exists t', tt, (name_erase name l).
  - destruct Hp as [l E]. destruct (on_table_run m s k l clear (fun l' _ => l' = []) Hs E) as (s' & a & l' & -> & Hs' & ->); [|by exists s', Done].
    intros t Ht. destruct (clear_rep l t Ht) as (t' & E' & Ht'). by exists t', tt, [].
  - destruct Hp as [[l E] Hz]. rewrite (Hat _ _ E) in *.
    destruct (on_table_run m s k l (copy uninitialised) (fun l' c => l' = l /\ table_rep l c) Hs E) as (s' & c & l' & -> & Hs' & -> & Hc).
    { intros t Ht. destruct (copy_rep uninitialised uninit_ok l t Ht Hz) as (t' & c & E' & Ht' & Hc). by exists t', c, l. }
    rewrite (Hid _ _ E) in Hs'. eexists _, Done. split; [done|]. split; [|done]. by apply stands_insert.
  - destruct Hp as ([l E] & [l1 E1] & [Hn Hl] & Hz). rewrite (Hat _ _ E), (Hat _ _ E1) in *.
    destruct (on_table_run m s k' l1 (copy uninitialised) (fun l' c => l' = l1 /\ table_rep l1 c) Hs E1) as (s' & c & l' & -> & Hs' & -> & Hc).
    { intros t Ht. destruct (copy_rep uninitialised uninit_ok l1 t Ht Hz) as (t' & c & E' & Ht' & Hc). by exists t', c, l1. }
    rewrite (Hid _ _ E1) in Hs'. set (v := mkValue 0xa8 (EncodedTable c)). assert (Hv : rep (VTable l1) v) by (by apply rep_VTable).
    destruct (on_table_run m s' k l (FieldTable.set name v) (fun l' _ => l' = name_insert name (VTable l1) l) Hs' E) as (s2 & a & l' & -> & Hs2 & ->); [|by exists s2, Done].
    intros t Ht. destruct (set_rep l t name (VTable l1) v Ht Hn Hv Hl) as (t' & E' & Ht'). by exists t', tt, (name_insert name (VTable l1) l).
  - destruct Hp as [[l E] Hz]. rewrite (Hat _ _ E) in *.
    destruct (on_table_run m s k l (transfer uninitialised) (fun l' c => l' = l /\ table_rep l c) Hs E) as (s' & c & l' & -> & Hs' & -> & Hc).
    { intros t Ht. destruct (transfer_rep l t Ht Hz) as (t' & c & E' & Ht' & Hc). by exists t', c, l. }
    rewrite (Hid _ _ E) in Hs'. eexists _, Done. split; [done|]. split; [|done]. by apply stands_insert.
  - destruct Hp as [l E]. rewrite (Hat _ _ E) in *.
    destruct (on_table_run m s k l (lookup name) (fun l' r => l' = l /\ reply_ok (Found (name_find name l)) (Found r)) Hs E) as (s' & r & l' & -> & Hs' & -> & Hr).
    { intros t Ht. destruct (lookup_rep l t name Ht) as (t' & r & E' & Ht' & Hr). by exists t', r, l. }
    rewrite (Hid _ _ E) in Hs'. by eexists _, _.
  - destruct Hp as [l E]. rewrite (Hat _ _ E) in *.
    destruct (on_table_run m s k l entries (fun l' r => l' = l /\ entries_rep l r) Hs E) as (s' & r & l' & -> & Hs' & -> & Hr).
    { intros t Ht. destruct (entries_spec l t Ht) as (t' & r & E' & Ht' & Hr). by exists t', r, l. }
    rewrite (Hid _ _ E) in Hs'. by eexists _, _.
  - destruct Hp as [l E]. rewrite (Hat _ _ E) in *.
    destruct (on_table_run m s k l iterate (fun l' r => l' = l /\ entries_rep l r) Hs E) as (s' & r & l' & -> & Hs' & -> & Hr).
    { intros t Ht. destruct (iterate_spec l t Ht) as (t' & r & E' & Ht' & Hr). by exists t', r, l. }
    rewrite (Hid _ _ E) in Hs'. by eexists _, _.
  - destruct Hp as [[l E] Hz]. rewrite (Hat _ _ E) in *.
    destruct (on_table_run m s k l encodedSize (fun l' n => l' = l /\ n = tz l) Hs E) as (s' & n & l' & -> & Hs' & -> & ->).
    { intros t Ht. destruct (size_rep l t Ht Hz) as (t' & E' & Ht'). by exists t', (tz l), l. }
    rewrite (Hid _ _ E) in Hs'. by eexists _, _.
Qed.

(** C33: field tables are maps.  Tables that are made, changed, copied, put into each other,
    sent over the wire and read, in any order, answer as maps from names to values would: no operation
    throws, and neither the decoding on demand nor the bytes that are kept
    can be told from any answer; a table takes exactly the octets its contents need *)
Theorem field_tables_correct cs m s :
  stands_for m s -> all_permitted cs m ->
  exists s' rs, run uninitialised cs s = (s', Ret rs) /\ stands_for (abs_run cs m).1 s' /\ Forall2 reply_ok (abs_run cs m).2 rs.
Proof.
  revert m s. induction cs as [|c cs IH]; intros m s Hs Hp; [by exists s, []|]. destruct Hp as [Hc Hp].
  destruct (command_correct c m s Hs Hc) as (s1 & r & E & Hs1 & Hr). destruct (IH _ _ Hs1 Hp) as (s2 & rs & E2 & Hs2 & Hrs).
  exists s2, (r :: rs). cbn [run abs_run]. unfold mbind, M_bind. rewrite E, E2. destruct (abs_command c m) as [m1 a]. cbn [fst snd] in *.
  destruct (abs_run cs m1) as [m2 as_]. cbn [fst snd] in *. split_and!; [done|done|by constructor].
Qed.
End correct.
