(* ===== verification/FieldTableSafe.v ===== *)
(** * Field tables from anywhere

    Any bytes can be decoded: the result is a value or one of two exceptions, the loops
    and the recursion end, and no octet outside the buffer is read ([received_table_safe]).
    Equality of tables is equality of what they stand for, but for lists ([table_eq_exact]), and where
    the code does less than it says ([field_table_flaws]). *)

From Stdlib Require Import ZArith Lia Sorted.
From stdpp Require Import gmap.
From S2P Require Import Prelude Buffer FieldTable FieldTableCorrect FieldTableSystem.
Local Open Scope Z_scope.

(** ** Decoding any bytes *)

Definition read_error (e : exn) : Prop := e = OutOfBounds \/ e = IllegalArgumentException.

(** with fewer than [N] octets left, [m] reads [k] of them or more and gives a result of which
    [Q] is true, or throws *)
Definition reads {A} (N k : Z) (m : M Buffer A) (Q : A -> Prop) : Prop := forall b, buf_wf b -> available b < N ->
  buf_wf (m b).1 /\ size (m b).1 = size b /\ data (m b).1 = data b /\ position b <= position (m b).1 /\
  match (m b).2 with Ret a => position b + k <= position (m b).1 /\ Q a | Throw e => read_error e end.

Lemma reads_ret {A} N (a : A) (Q : A -> Prop) : Q a -> reads N 0 (mret a) Q.
Proof. intros Ha b Hb _. cbn. split_and!; try done; lia. Qed.

Lemma reads_throw {A} N k e (Q : A -> Prop) : read_error e -> reads N k (throw e) Q.
Proof. intros He b Hb _. cbn. by split_and!. Qed.

Lemma reads_bind {A B} N k k1 k2 (m : M Buffer A) (f : A -> M Buffer B) Q R :
  reads N k1 m Q -> (forall a, Q a -> reads (N - k1) k2 (f a) R) -> k <= k1 + k2 -> reads N k (m ≫= f) R.
Proof.
  intros Hm Hf Hk b Hb Ha. destruct (Hm b Hb Ha) as (H1 & H2 & H3 & H4 & H5). unfold mbind, M_bind. destruct (m b) as [b1 [a|e]]; cbn [fst snd] in *; [|by split_and!].
  destruct H5 as [H5 HQ]. destruct (Hf a HQ b1 H1) as (G1 & G2 & G3 & G4 & G5); [rewrite available_wf in * by done; lia|].
  split_and!; try done; try congruence; try lia. destruct (f a b1).2; [|done]. destruct G5. split; [lia|done].
Qed.

Lemma reads_weaken {A} N N' k k' (m : M Buffer A) (Q Q' : A -> Prop) : reads N k m Q -> N' <= N -> k' <= k -> (forall a, Q a -> Q' a) -> reads N' k' m Q'.
Proof.
  intros H HN Hk HQ b Hb Ha. destruct (H b Hb ltac:(lia)) as (H1 & H2 & H3 & H4 & H5). split_and!; try done. destruct (m b).2; [|done].
  destruct H5. split; [lia|]. by apply HQ.
Qed.

Lemma reads_map {A B} N k (m : M Buffer A) (f : A -> B) : reads N k m (fun _ => True) -> reads N k (x ← m; mret (f x)) (fun _ => True).
Proof. intros H. eapply (reads_bind N k k 0); [exact H| |lia]. intros a _. by apply reads_ret. Qed.

Lemma reads_checked {A} N n (m : M Buffer A) Q : 0 <= n -> consumes n m Q -> reads N n (checkAvailable n ;; m) Q.
Proof.
  intros Hn Hm b Hwf _. unfold mbind, M_bind, checkAvailable. destruct (Z.ltb_spec (available b) n) as [Hlt|Hge]; cbn [fst snd]; [split_and!; try done; by left|].
  rewrite available_wf in Hge by done. destruct (Hm b Hwf Hge) as (a & E & Ha). rewrite E. cbn [fst snd]. split_and!; try done; try (cbn; lia). apply advance_wf; [done|lia].
Qed.

Lemma reads_getOctet N : reads N 1 getOctet (fun a => 0 <= a).
Proof. apply reads_checked; [done|apply consumes_load1]. Qed.

Lemma reads_getRawData N n : 0 <= n -> reads N n (getRawData n) (fun _ => True).
Proof. intros. apply reads_checked; [done|by apply consumes_load]. Qed.

Lemma reads_getShort N : reads N 2 getShort (fun a => 0 <= a).
Proof.
  apply reads_checked; [done|]. apply (consumes_bind 1 1 _ _ (fun a => 0 <= a)); [done..|apply consumes_load1|].
  intros hi Hhi. apply (consumes_bind 1 0 _ _ (fun a => 0 <= a)); [done..|apply consumes_load1|].
  intros lo Hlo. apply consumes_ret. apply Z.lor_nonneg. split; [|done]. by apply (uwrap_range 16).
Qed.

Lemma reads_getLong N : reads N 4 getLong (fun a => 0 <= a).
Proof.
  apply reads_checked; [done|].
  apply (consumes_bind 1 3 _ _ (fun a => 0 <= a)); [done..|apply consumes_load1|intros a Ha].
  apply (consumes_bind 1 2 _ _ (fun a => 0 <= a)); [done..|apply consumes_load1|intros b Hb].
  apply (consumes_bind 1 1 _ _ (fun a => 0 <= a)); [done..|apply consumes_load1|intros c Hc].
  apply (consumes_bind 1 0 _ _ (fun a => 0 <= a)); [done..|apply consumes_load1|intros d Hd].
  apply consumes_ret. rewrite !Z.lor_nonneg. split_and!; auto; by apply (uwrap_range 32).
Qed.

Lemma reads_get {A} N k (f : Buffer -> M Buffer A) Q : (forall b, buf_wf b -> available b < N -> reads (available b + 1) k (f b) Q) -> reads N k (b ← get; f b) Q.
Proof. intros H b Hb Ha. unfold mbind, M_bind, get. apply (H b Hb Ha b Hb). lia. Qed.

Lemma reads_guard {A} N k c e (m : M Buffer A) Q : read_error e -> (c = false -> reads N k m Q) -> reads N k (guard_throw c e ;; m) Q.
Proof. intros He Hm. unfold guard_throw, mbind, M_bind. destruct c; [|by apply Hm]. intros b Hb _. cbn. by split_and!. Qed.

Lemma reads_lift {A B} N k (o : outcome A) (f : A -> M Buffer B) (P : A -> Prop) Q :
  match o with Ret a => P a | Throw e => read_error e end -> (forall a, o = Ret a -> P a -> reads N k (f a) Q) -> reads N k (x ← lift_outcome o; f x) Q.
Proof. intros Ho Hf. destruct o as [a|e]; [by apply Hf|]. intros b Hb _. cbn. by split_and!. Qed.

#[local] Hint Extern 0 (read_error _) => first [by left | by right] : core.

Lemma setType_total t : match setType t with Ret _ => True | Throw e => read_error e end.
Proof.
  unfold setType. repeat (match goal with |- context [if ?c then _ else _] => destruct c; [done|] end).
  destruct (Z.shiftr t 4) as [|p|p]; [done| |by right]. repeat (destruct p as [p|p|]; try done; try by right).
Qed.

Lemma reads_repeat {A} N k (m : M Buffer A) count : 0 <= k -> reads N k m (fun _ => True) ->
  forall fuel i b, buf_wf b -> available b < N -> (1 <= k /\ available b < Z.of_nat fuel) \/ count - i <= Z.of_nat fuel ->
  let r := repeat_read fuel i count m b in
  buf_wf r.1 /\ size r.1 = size b /\ data r.1 = data b /\ position b <= position r.1 /\ match r.2 with Ret _ => True | Throw e => read_error e end.
Proof.
  intros Hk Hm. induction fuel as [|fuel IH]; intros i b Hb Ha Hf; cbn [repeat_read].
  - destruct (Z.ltb_spec i count); [|cbn; split_and!; try done; lia]. destruct Hf as [[_ Hf]|Hf]; [|lia].
    pose proof (rest_length b Hb). lia.
  - destruct (Z.ltb_spec i count); [|cbn; split_and!; try done; lia]. unfold mbind, M_bind.
    destruct (Hm b Hb Ha) as (H1 & H2 & H3 & H4 & H5). destruct (m b) as [b1 [a|e]]; cbn [fst snd] in *; [|by split_and!]. destruct H5 as [H5 _].
    assert (Hav : available b1 <= available b - k) by (rewrite !available_wf by done; lia).
    destruct (IH (i + 1) b1 H1) as (G1 & G2 & G3 & G4 & G5); [lia|lia|]. destruct (repeat_read fuel (i + 1) count m b1) as [b2 [l|e]]; cbn [fst snd] in *;
      unfold mret, M_ret; cbn [fst snd]; split_and!; try done; try congruence; lia.
Qed.

Lemma reads_table N : reads N 4 table_decode (fun t => exists bs, t = mkTable [] (Some bs) (Z.of_nat (length bs)) true /\ Z.of_nat (length bs) < 2 ^ 32 /\ Forall is_byte bs).
Proof.
  intros b Hb Ha. unfold table_decode, mbind, M_bind, get, guard_throw. destruct (Z.ltb_spec (available b) 4) as [|H4]; [cbn; split_and!; try done; by right|].
  unfold mret, M_ret. destruct (reads_getLong N b Hb Ha) as (G1 & G2 & G3 & G4 & G5). destruct (getLong b) as [b1 [len|e]]; cbn [fst snd] in *; [|by split_and!].
  destruct G5 as [G5 Hlen]. destruct (_ && _) eqn:Eg; [cbn; split_and!; try done; by right|]. unfold modify.
  assert (Eb : setPosition (position b) b1 = b) by (destruct b, b1; unfold setPosition; cbn in *; congruence). rewrite Eb.
  pose proof Hb as (W1 & W2 & W3 & W4). rewrite available_wf in * by done.
  assert (Hle : len + 4 <= size b - position b).
  { destruct (Z.eqb_spec len 0) as [->|Hne]; [lia|]. cbn [negb andb] in Eg. apply orb_false_iff in Eg as [Eg _]. apply Z.ltb_ge in Eg. rewrite ?available_wf in Eg by done. lia. }
  rewrite (uwrap_small 32) by (unfold is_uint; lia). unfold getRawData, mbind, M_bind, checkAvailable. rewrite available_wf, (proj2 (Z.ltb_ge _ _)) by (done || lia).
  unfold load. rewrite (proj2 (Nat.leb_le _ _)) by lia. rewrite (uwrap_small 32) by (unfold is_uint; lia). cbn [fst snd size data position].
  assert (El : length (take (Z.to_nat (len + 4)) (drop (Z.to_nat (position b)) (data b))) = Z.to_nat (len + 4)) by (rewrite length_take, length_drop; lia).
  split_and!; try done; try lia; [split_and!; cbn; try done; lia|]. eexists. rewrite El, Z2Nat.id by lia. split; [done|]. split; [lia|]. by apply Forall_take, Forall_drop.
Qed.

(** the least number of octets data of a shape is read from *)
Definition shape_min (s : Shape) : Z := match s with SFixed w => Z.of_nat w | SUuid => 16 | SVariable _ => 1 | _ => 4 end.

Lemma reads_getUInt N k : reads N 1 (getUInt k) (fun a => 0 <= a).
Proof.
  unfold getUInt. destruct (k =? 1); [apply reads_getOctet|]. destruct (k =? 2); [eapply (reads_weaken N N 2 1); [apply reads_getShort|lia|lia|done]|eapply (reads_weaken N N 4 1); [apply reads_getLong|lia|lia|done]].
Qed.

Lemma reads_repeat_read {A} N k (m : M Buffer A) count b :
  0 <= k -> reads N k m (fun _ => True) -> (k = 0 -> count <= 256) -> available b < N ->
  reads (available b + 1) 0 (repeat_read (read_fuel b) 0 count m) (fun _ => True).
Proof.
  intros Hk Hm Hc Hav b' Hb Ha.
  destruct (reads_repeat N k m count Hk Hm (read_fuel b) 0 b' Hb ltac:(lia)) as (H1 & H2 & H3 & H4 & H5).
  { unfold read_fuel. destruct (Z.eq_dec k 0) as [E|E]; [right; specialize (Hc E); lia|left; lia]. }
  split_and!; try done. destruct (repeat_read _ _ _ _ _).2; [|done]. split; [lia|done].
Qed.

Lemma reads_list N value : reads (N - 4) 1 value (fun _ => True) -> reads N 4 (list_decode value) (fun _ => True).
Proof.
  intros Hv. unfold list_decode. apply reads_get. intros b Hb Hav. apply reads_guard; [auto|]. intros _.
  eapply (reads_bind _ 4 4 0); [apply reads_getLong| |lia]. intros sz _. apply reads_get. intros b1 Hb1 Hav1. apply reads_guard; [auto|]. intros _.
  destruct (sz =? 0); [by apply reads_ret|]. apply reads_guard; [auto|]. intros _. eapply (reads_bind _ 0 4 0); [apply reads_getLong| |lia]. intros count _.
  apply reads_get. intros b2 Hb2 Hav2. apply reads_map. apply (reads_repeat_read (available b1 + 1 - 4) 1); [lia| |lia|lia].
  eapply reads_weaken; [exact Hv|lia|lia|done].
Qed.

Lemma reads_array N dec :
  (forall s, reads (N - 4) (shape_min s) (dec s) (fun _ => True)) -> reads N 4 (array_decode dec) (fun _ => True).
Proof.
  intros Hd. unfold array_decode. eapply (reads_bind _ 4 4 0); [apply reads_getLong| |lia]. intros sz _. apply reads_get. intros b1 Hb1 Hav1. apply reads_guard; [auto|]. intros _.
  destruct (sz =? 0); [by apply reads_ret|]. eapply (reads_bind _ 0 1 0); [apply reads_getOctet| |lia]. intros type _.
  eapply (reads_bind _ 0 4 0); [apply reads_getLong| |lia]. intros count _. apply (reads_lift _ _ _ _ (fun _ => True)); [apply setType_total|]. intros s Hs _.
  apply reads_get. intros b2 Hb2 Hav2. apply reads_guard; [auto|]. intros _. apply reads_guard; [auto|]. intros Hz.
  set (body := d ← dec s; mret (mkValue type d)).
  assert (Hm : reads (available b2 + 1) (shape_min s) body (fun _ => True)) by (apply reads_map; eapply reads_weaken; [apply Hd|lia|lia|done]).
  assert (H0 : 0 <= shape_min s) by (destruct s; cbn; lia).
  apply reads_get. intros b3 Hb3 Hav3. apply reads_map. apply (reads_repeat_read (available b2 + 1) (shape_min s)); [done|done| |lia].
  intros Es. assert (E0 : shape_size s = 0) by (destruct s; cbn in *; lia). rewrite E0 in Hz. cbn in Hz. by apply Z.ltb_ge in Hz.
Qed.

Lemma reads_value N n : (forall s, reads (N - 1) (shape_min s) (data_decode n s) (fun _ => True)) -> reads N 1 (value_with (data_decode n)) (fun _ => True).
Proof.
  intros H. unfold value_with. eapply (reads_bind _ 1 1 0); [apply reads_getOctet| |lia]. intros t _. apply (reads_lift _ _ _ _ (fun _ => True)); [apply setType_total|].
  intros s _ _. apply reads_map. eapply reads_weaken; [apply H|lia|destruct s; cbn; lia|done].
Qed.

Lemma reads_data n : forall s, reads (Z.of_nat n) (shape_min s) (data_decode n s) (fun _ => True).
Proof.
  induction n as [|n IH]; intros s.
  - intros b Hb Ha. pose proof (rest_length b Hb). cbn in Ha. lia.
  - cbn [data_decode]. destruct s as [w| |k| | |]; cbn [shape_min].
    + destruct w as [|w]; [by apply reads_ret|]. apply reads_map, reads_getRawData. lia.
    + apply reads_map, reads_getRawData. lia.
    + eapply (reads_bind _ 1 1 0); [apply reads_getUInt| |lia]. intros len _. pose proof (uwrap_range 32 len ltac:(lia)) as Hr. unfold is_uint in Hr.
      eapply (reads_bind _ 0 0 0 (checkAvailable (u32 len)) _ (fun _ => True)); [|intros _ _|lia].
      * intros b Hb _. unfold checkAvailable. destruct (_ <? _); cbn; split_and!; try done; try lia; by left.
      * destruct (0 <? u32 len); [|by apply reads_ret]. eapply (reads_weaken (Z.of_nat (S n) - 1 - 0)); [apply reads_map, reads_getRawData; lia|lia|lia|done].
    + apply reads_map. eapply (reads_weaken (Z.of_nat (S n))); [apply reads_table|lia|lia|done].
    + apply reads_list. apply reads_value. intros s. eapply reads_weaken; [apply IH|lia|lia|done].
    + apply reads_array. intros s. eapply reads_weaken; [apply IH|lia|lia|done].
Qed.

Lemma reads_value_decode N : reads N 1 value_decode (fun _ => True).
Proof.
  unfold value_decode. apply reads_get. intros b Hb Ha. pose proof (rest_length b Hb). eapply reads_weaken; [apply reads_value; intros s; eapply reads_weaken; [apply reads_data| |reflexivity|done]|reflexivity|lia|done]. lia.
Qed.

(** *** Tables *)

Lemma table_decode_exact b b' t :
  buf_wf b -> table_decode b = (b', Ret t) ->
  exists bs, rest b = bs ++ rest b' /\ t = mkTable [] (Some bs) (Z.of_nat (length bs)) true /\ 4 <= Z.of_nat (length bs) < 2 ^ 32 /\ Forall is_byte bs.
Proof.
  intros Hb E. pose proof (reads_table (available b + 1) b Hb ltac:(lia)) as (_ & _ & _ & _ & H). revert H E.
  unfold table_decode, mbind, M_bind, get, guard_throw. destruct (available b <? 4); [done|]. unfold mret, M_ret.
  destruct (reads_getLong (available b + 1) b Hb ltac:(lia)) as (G1 & G2 & G3 & G4 & G5). destruct (getLong b) as [b1 [len|e]]; cbn [fst snd] in *; [|done].
  destruct (_ && _); [done|]. unfold modify.
  assert (Eb : setPosition (position b) b1 = b) by (destruct b, b1; unfold setPosition; cbn in *; congruence). rewrite Eb.
  unfold getRawData, mbind, M_bind, checkAvailable. destruct (Z.ltb_spec (available b) (u32 (len + 4))) as [|Hle]; [done|]. unfold load. destruct (_ <=? _)%nat; [|done].
  cbn [fst snd]. intros [Hp (bs & [= Ebs Eln] & Hlt & Hby)] [= <- <-]. pose proof Hb as (W1 & W2 & W3 & W4). rewrite available_wf in Hle by done.
  pose proof (uwrap_range 32 (len + 4) ltac:(lia)) as Hr. unfold is_uint in Hr. set (n := u32 (len + 4)) in *. cbn [position] in Hp.
  rewrite (uwrap_small 32) in Hp |- * by (unfold is_uint; lia). exists bs. rewrite Ebs, Eln. split_and!; try done; [|lia].
  unfold rest. cbn [position data]. rewrite <- Ebs. replace (Z.to_nat (position b + n)) with (Z.to_nat (position b) + Z.to_nat n)%nat by lia.
  rewrite <- (take_drop (Z.to_nat n) (drop (Z.to_nat (position b)) (data b))) at 1. f_equal. rewrite skipn_skipn. f_equal. rewrite Ebs. lia.
Qed.

Lemma entries_loop_safe fuel : forall leftover count vs b,
  buf_wf b -> 0 <= leftover -> available b <= Z.of_nat fuel ->
  let r := entries_loop fuel leftover count (vs, b) in buf_wf r.1.2 /\ match r.2 with Ret _ => True | Throw e => read_error e end.
Proof.
  induction fuel as [|fuel IH]; intros leftover count vs b Hb Hl Ha; cbn [entries_loop snd].
  - destruct (Z.ltb_spec leftover (available b)); [lia|]. done.
  - destruct (Z.ltb_spec leftover (available b)) as [Hlt|]; [|done]. destruct (negb (count =? 0)); [|done]. cbn [andb].
    assert (Hk : reads (available b + 1) 1 getShortString (fun _ => True)).
    { eapply (reads_bind _ 1 1 0); [apply reads_getOctet| |lia]. intros len Hlen. cbn beta in Hlen. eapply (reads_weaken (available b + 1 - 1)); [by apply reads_getRawData|lia|lia|done]. }
    destruct (Hk b Hb ltac:(lia)) as (H1 & H2 & H3 & H4 & H5). unfold mbind, M_bind.
    destruct (getShortString b) as [b1 [name|e]] eqn:E1; rewrite (on_buffer_run _ _ _ _ _ E1); cbn [fst snd] in *; [|by split]. destruct H5 as [H5 _].
    destruct (reads_value_decode (available b1 + 1) b1 H1 ltac:(lia)) as (G1 & G2 & G3 & G4 & G5).
    destruct (value_decode b1) as [b2 [v|e]] eqn:E2; rewrite (on_buffer_run _ _ _ _ _ E2); cbn [fst snd] in *; [|by split]. destruct G5 as [G5 _]. cbn [on_state].
    apply IH; [done|done|]. rewrite !available_wf in * by done. lia.
Qed.

Lemma realDecode_safe bs :
  4 <= Z.of_nat (length bs) < 2 ^ 32 -> Forall is_byte bs ->
  exists vs o, realDecode (mkTable [] (Some bs) (Z.of_nat (length bs)) true) =
      (mkTable vs (Some bs) (Z.of_nat (length bs)) (match o with Ret _ => false | Throw _ => true end), o) /\
    match o with Ret _ => True | Throw e => read_error e end.
Proof.
  intros Hlen Hby. unfold realDecode. cbn [newBytes cachedBytes values cachedSize]. set (b := new_Buffer bs _).
  assert (Hb : buf_wf b) by (unfold b; split_and!; cbn; try done; lia).
  assert (H : match (read_entries ([], b)).2 with Ret _ => True | Throw e => read_error e end).
  { unfold read_entries, mbind, M_bind, on_buffer at 1. destruct (reads_getLong (available b + 1) b Hb ltac:(lia)) as (H1 & H2 & H3 & H4 & H5).
    destruct (getLong b) as [b1 [len|e]]; cbn [fst snd] in *; [|done]. destruct (len =? 0); [done|]. unfold get, on_buffer.
    destruct (reads_getLong (available b1 + 1) b1 H1 ltac:(lia)) as (G1 & G2 & G3 & G4 & G5). cbn [snd].
    destruct (getLong b1) as [b2 [count|e]]; cbn [fst snd] in *; [|done]. destruct G5 as [G5 _].
    apply (entries_loop_safe (S (Z.to_nat (available b1)))); [done|apply (uwrap_range 32); lia|]. pose proof (rest_length b1 H1). rewrite !available_wf in * by done. lia. }
  destruct (read_entries ([], b)) as [[vs b1] o]. exists vs, o. split; [done|]. by destruct o.
Qed.

(** C35: whatever octets arrive, decoding a field table and looking into it ends without reading outside the
    buffer: it gives a table or throws one of two exceptions.  A table that was
    received and not changed is sent as the octets that arrived, also when they could not be understood *)
Theorem received_table_safe b :
  buf_wf b ->
  match table_decode b with
  | (b', Ret t) => exists bs, rest b = bs ++ rest b' /\ emits (table_encode t) bs /\
      match realDecode t with
      | (t', Ret _) => emits (table_encode t') bs /\ newBytes t' = false
      | (t', Throw e) => read_error e /\ emits (table_encode t') bs
      end
  | (_, Throw e) => read_error e
  end.
Proof.
  intros Hb. pose proof (reads_table (available b + 1) b Hb ltac:(lia)) as (_ & _ & _ & _ & H). destruct (table_decode b) as [b' [t|e]] eqn:E; [|done].
  destruct (table_decode_exact b b' t Hb E) as (bs & Hr & -> & Hlen & Hby). exists bs. split; [done|].
  assert (Hem : forall vs nb, emits (table_encode (mkTable vs (Some bs) (Z.of_nat (length bs)) nb)) bs) by (intros vs nb; by apply put_array_emits).
  split; [done|]. destruct (realDecode_safe bs Hlen Hby) as (vs & o & -> & Ho). by destruct o.
Qed.

(** ** Equality *)

(** no list is in the value *)
Fixpoint plain (x : Value) : Prop :=
  match x with
  | Raw _ _ => True
  | VTable l => foldr (fun p P => plain p.2 /\ P) True l
  | VList _ => False
  | VArray _ l => foldr (fun x P => plain x /\ P) True l
  end.

Fixpoint depth (x : Value) : Z :=
  match x with
  | Raw _ _ | VList _ => 1
  | VTable l => 1 + foldr (fun p n => Z.max (depth p.2) n) 0 l
  | VArray _ l => 1 + foldr (fun x n => Z.max (depth x) n) 0 l
  end.

Lemma depth_size x v : rep x v -> 1 <= depth x <= vz x + 1.
Proof.
  revert v. induction x as [t o|l IH|l IH|t l IH] using Value_nested_ind; intros v Hr; cbn [depth].
  - destruct (rep_z _ v Hr). lia.
  - cbn [vz]. destruct Hr as (t & -> & Hr). destruct (realDecode_rep l t Hr) as (vs & _ & Hv & _). clear Hr. revert vs Hv.
    induction IH as [|p l H1 _ IH]; intros [|q vs] Hv; try done. destruct Hv as [[_ Hr] Hv]. specialize (H1 _ Hr). specialize (IH vs Hv). cbn [foldr]. lia.
  - destruct (rep_z _ v Hr). lia.
  - cbn [vz]. destruct Hr as (vs & s & -> & _ & _ & _ & Hv & _).
    cut (0 <= foldr (fun x n => Z.max (depth x) n) 0 l <= foldr (fun x a => vz x + a) 0 l + 1 /\ 0 <= foldr (fun x a => vz x + a) 0 l); [lia|]. revert vs Hv.
    induction IH as [|p l H1 _ IH]; intros [|q vs] Hv; try done. destruct Hv as [Hr Hv]. specialize (H1 _ Hr). specialize (IH vs Hv). cbn [foldr]. lia.
Qed.

Lemma name_find_elem {V} k (x : V) l : StronglySorted name_lt (map fst l) -> name_find k l = Some x <-> (k, x) ∈ l.
Proof.
  induction l as [|[k' y] l IH]; cbn [name_find map fst]; intros Hs; [rewrite elem_of_nil; done|]. apply StronglySorted_inv in Hs as [Hs Hall]. rewrite elem_of_cons.
  case_decide as E; [subst k'|rewrite IH by done; split; [by right|intros [[= -> ->]|]; done]].
  split; [intros [= ->]; by left|]. intros [[= ->]|Hin]; [done|]. rewrite Forall_forall in Hall. specialize (Hall k (list_elem_of_fmap_2 fst l _ Hin)).
  unfold name_lt in Hall. by rewrite bytes_lt_irrefl in Hall.
Qed.

Lemma sorted_entries {V} (l : list (list Z * V)) : StronglySorted name_lt (map fst l) -> StronglySorted (fun p q => name_lt p.1 q.1) l /\ NoDup l.
Proof.
  induction l as [|p l IH]; cbn [map]; intros Hs; [split; constructor|]. apply StronglySorted_inv in Hs as [Hs Hall]. destruct (IH Hs) as [I1 I2].
  rewrite Forall_map in Hall. split; constructor; try done. rewrite Forall_forall in Hall. intros Hin. specialize (Hall p Hin). unfold name_lt in Hall. by rewrite bytes_lt_irrefl in Hall.
Qed.

Lemma entries_unique {V} (l l' : list (list Z * V)) :
  StronglySorted name_lt (map fst l) -> StronglySorted name_lt (map fst l') -> length l = length l' -> (forall p, p ∈ l -> p ∈ l') -> l = l'.
Proof.
  intros Hs Hs' Hlen Hsub. destruct (sorted_entries l Hs) as [S1 N1], (sorted_entries l' Hs') as [S2 N2].
  apply (StronglySorted_unique_strong (fun p q => name_lt p.1 q.1)); [|done|done|].
  - intros p q _ _ H1 H2. pose proof (bytes_lt_trans _ _ _ H1 H2) as H. by rewrite bytes_lt_irrefl in H.
  - apply submseteq_length_Permutation; [by apply NoDup_submseteq|lia].
Qed.

Section equality.
Context (same_object : FieldValue -> FieldValue -> bool).

(** [eq] compares what values stand for *)
Definition compares (eq : FieldValue -> FieldValue -> outcome bool) (x : Value) : Prop :=
  forall y v w, rep x v -> rep y w -> exists b, eq v w = Ret b /\ (b = true <-> x = y).

Lemma each_eq_exact eq l l' vs ws :
  Forall (compares eq) l -> all2 rep l vs -> all2 rep l' ws -> length l = length l' -> exists b, each_eq eq vs ws = Ret b /\ (b = true <-> l = l').
Proof.
  intros Hl. revert l' vs ws. induction Hl as [|x l Hx _ IH]; intros [|y l'] [|v vs] [|w ws] Hv Hw Hlen; try done; [by exists true|].
  destruct Hv as [Hr Hv], Hw as [Hr' Hw]. destruct (Hx y v w Hr Hr') as (b & E & Hb). destruct (IH l' vs ws Hv Hw) as (b' & E' & Hb'); [by injection Hlen|].
  cbn [each_eq]. rewrite E. destruct b; [|exists false; split; [done|]; split; [done|intros [= -> ->]; by apply Hb]].
  exists b'. split; [done|]. rewrite Hb'. assert (x = y) as -> by (by apply Hb). split; [by intros ->|by intros [= ->]].
Qed.

Lemma names_eq_exact eq l l' vs ws :
  Forall (fun p => compares eq p.2) l -> entries_rep l vs -> entries_rep l' ws -> StronglySorted name_lt (map fst l) -> StronglySorted name_lt (map fst l') ->
  exists b, names_eq eq vs ws = Ret b /\ (b = true <-> l = l').
Proof.
  intros Hl Hv Hw Hs Hs'. unfold names_eq.
  assert (El : length vs = length l) by (symmetry; apply all2_Forall2 in Hv; by apply Forall2_length in Hv).
  assert (El' : length ws = length l') by (symmetry; apply all2_Forall2 in Hw; by apply Forall2_length in Hw).
  destruct (Nat.eqb_spec (length vs) (length ws)) as [E|E]; [|exists false; split; [done|]; split; [done|intros ->; congruence]].
  assert (H : exists b, foldr (fun p r => match name_find p.1 ws with Some v => match eq p.2 v with Ret true => r | o => o end | None => Ret false end) (Ret true) vs = Ret b /\
    (b = true <-> forall p, p ∈ l -> p ∈ l')).
  { clear E El Hs. revert vs Hv. induction Hl as [|[k x] l Hx _ IH]; intros [|[k' v] vs] Hv; try done.
    - exists true. split; [done|]. split; [|done]. intros _ p Hp. by apply elem_of_nil in Hp.
    - destruct Hv as [[Ek Hr] Hv]. cbn [fst snd] in Ek, Hr, Hx. subst k'. destruct (IH vs Hv) as (b & E & Hb). cbn [foldr fst snd].
      pose proof (entries_find l' ws k Hw) as Hf. destruct (name_find k l') as [y|] eqn:Ef, (name_find k ws) as [w|]; try done.
      + destruct (Hx y v w Hr Hf) as (b1 & E1 & Hb1). rewrite E1. apply (name_find_elem k y l' Hs') in Ef. destruct b1.
        * assert (x = y) as -> by (by apply Hb1). exists b. split; [done|]. rewrite Hb. split.
          -- intros Hsub p [->|Hp]%elem_of_cons; [done|by apply Hsub].
          -- intros Hsub p Hp. apply Hsub. by right.
        * exists false. split; [done|]. split; [done|]. intros Hsub. apply Hb1. specialize (Hsub (k, x) ltac:(by left)).
          apply (name_find_elem k x l' Hs') in Hsub. apply (name_find_elem k y l' Hs') in Ef. congruence.
      + exists false. split; [done|]. split; [done|]. intros Hsub. specialize (Hsub (k, x) ltac:(by left)). apply (name_find_elem k x l' Hs') in Hsub. congruence. }
  destruct H as (b & -> & Hb). exists b. split; [done|]. rewrite Hb. split; [|by intros ->]. intros Hsub. apply entries_unique; [done|done|lia|done].
Qed.

Lemma value_eq_exact x : plain x -> forall n, depth x <= Z.of_nat n -> compares (value_eq same_object n) x.
Proof.
  induction x as [t o|l IH|l IH|t l IH] using Value_nested_ind; intros Hp n Hn y v w Hv Hw.
  all: destruct n as [|n]; [pose proof (depth_size _ _ Hv); lia|]; cbn [value_eq]; pose proof (rep_type _ _ Hv) as Tv; pose proof (rep_type _ _ Hw) as Tw; rewrite Tv, Tw.
  all: match goal with |- context [?a =? ?b] => destruct (Z.eqb_spec a b) as [Et|Et] end; [|exists false; split; [done|]; split; [done|congruence]].
  all: cbn [vtype] in Et.
  - destruct Hv as (Ht & Ho & s & d & Hs & Hd & ->). destruct y as [t' o'|l'|l'|t' l']; cbn [vtype] in Et; subst t; try (injection Hs as <-; done).
    destruct Hw as (Ht' & Ho' & s' & d' & Hs' & Hd' & ->). assert (s' = s) as -> by congruence. cbn [getData].
    destruct s as [k| |k| | |]; cbn [raw_data] in Hd, Hd'; try done.
    + destruct (length o =? k)%nat; [|done]. destruct (length o' =? k)%nat; [|done]. injection Hd as <-. injection Hd' as <-.
      eexists. split; [done|]. rewrite bool_decide_eq_true. split; congruence.
    + destruct (length o =? 16)%nat; [|done]. destruct (length o' =? 16)%nat; [|done]. injection Hd as <-. injection Hd' as <-.
      eexists. split; [done|]. rewrite bool_decide_eq_true. split; congruence.
    + destruct (_ <? _); [|done]. destruct (Z.of_nat (length o') <? _); [|done]. injection Hd as <-. injection Hd' as <-.
      eexists. split; [done|]. rewrite Z.eqb_refl. cbn [andb]. rewrite bool_decide_eq_true. split; congruence.
  - destruct Hv as (tv & -> & Hv). destruct y as [t' o'|l'|l'|t' l']; cbn [vtype] in Et; try done.
    { destruct Hw as (_ & _ & s & d & Hs & Hd & _). subst t'. injection Hs as <-. done. }
    destruct Hw as (tw & -> & Hw). cbn [getData]. pose proof Hv as (Hs & _). pose proof Hw as (Hs' & _).
    destruct (realDecode_rep l tv Hv) as (vs & E & Hvs & _), (realDecode_rep l' tw Hw) as (ws & E' & Hws & _). unfold decoded. rewrite E, E'. cbn [values].
    destruct (names_eq_exact (value_eq same_object n) l l' vs ws) as (b & Eb & Hb); try done.
    { clear -IH Hp Hn. cbn [depth] in Hn. induction IH as [|p l H1 _ IH]; [constructor|]. destruct Hp as [P1 P2]. cbn [foldr] in Hn. constructor; [apply H1; [done|lia]|apply IH; [done|lia]]. }
    exists b. split; [done|]. rewrite Hb. split; congruence.
  - done.
  - destruct Hv as (vs & s & -> & _ & Hst & _ & Hv & _). destruct y as [t' o'|l'|l'|t' l']; cbn [vtype] in Et; try done.
    { destruct Hw as (_ & _ & s' & d & Hs & Hd & _). subst t'. injection Hs as <-. done. }
    destruct Hw as (ws & s' & -> & _ & _ & _ & Hw & _). cbn [getData].
    assert (El : length vs = length l) by (symmetry; apply all2_Forall2 in Hv; by apply Forall2_length in Hv).
    assert (El' : length ws = length l') by (symmetry; apply all2_Forall2 in Hw; by apply Forall2_length in Hw).
    destruct (Z.eqb_spec t t') as [<-|Ht]; [|exists false; split; [done|]; split; [done|congruence]].
    destruct (Nat.eqb_spec (length vs) (length ws)) as [E|E]; [|exists false; split; [done|]; split; [done|intros [= ->]; congruence]]. cbn [andb].
    destruct (each_eq_exact (value_eq same_object n) l l' vs ws) as (b & Eb & Hb); [|done|done|lia|exists b; split; [done|]; rewrite Hb; split; congruence].
    clear -IH Hp Hn. cbn [depth] in Hn. induction IH as [|p l H1 _ IH]; [constructor|]. destruct Hp as [P1 P2]. cbn [foldr] in Hn. constructor; [apply H1; [done|lia]|apply IH; [done|lia]].
Qed.

Lemma table_eq_plain l l' t t' :
  table_rep l t -> table_rep l' t' -> plain (VTable l) -> tz l < 2 ^ 32 ->
  exists b, table_eq same_object t t' = Ret b /\ (b = true <-> l = l').
Proof.
  intros Ht Ht' Hp Hz. pose proof Ht as (Hs & _). pose proof Ht' as (Hs' & _). destruct (size_rep l t Ht Hz) as (t1 & E1 & _). injection E1 as _ Ez.
  destruct (realDecode_rep l t Ht) as (vs & E & Hvs & _), (realDecode_rep l' t' Ht') as (ws & E' & Hws & _). unfold table_eq, decoded. rewrite E, E', Ez. cbn [values].
  apply names_eq_exact; try done. assert (Hall : Forall (fun p => plain p.2 /\ depth p.2 <= tz l) l).
  { unfold tz. cbn [vz]. clear -Hvs Hp. cbn [plain] in Hp. enough (Forall (fun p => plain p.2 /\ depth p.2 <= 1 + foldr (fun p a => 2 + Z.of_nat (length p.1) + vz p.2 + a) 0 l) l) as H
      by (eapply Forall_impl; [exact H|]; cbn beta; intros p [? ?]; split; [done|lia]).
    revert vs Hvs. induction l as [|p l IH]; intros [|q vs] Hvs; try done; try by constructor. destruct Hvs as [[_ Hr] Hvs], Hp as [P1 P2]. pose proof (depth_size _ _ Hr). destruct (rep_z _ _ Hr).
    specialize (IH P2 vs Hvs). cbn [foldr]. constructor.
    - split; [done|]. assert (0 <= foldr (fun p a => 2 + Z.of_nat (length p.1) + vz p.2 + a) 0 l); [|lia]. clear -Hvs. revert vs Hvs.
      induction l as [|p l IH]; intros [|q vs] Hvs; try done. destruct Hvs as [[_ Hr] Hvs]. destruct (rep_z _ _ Hr). specialize (IH vs Hvs). cbn [foldr]. lia.
    - eapply Forall_impl; [exact IH|]. cbn beta. intros p' [? ?]. split; [done|lia]. }
  eapply Forall_impl; [exact Hall|]. intros p [P1 P2]. apply value_eq_exact; [done|lia].
Qed.

(**  two tables without lists in them are equal, by the operator, exactly when they stand for the same
    map, whether either holds its values or bytes *)
Theorem table_eq_exact l l' t t' :
  table_rep l t -> table_rep l' t' -> plain (VTable l) -> tz l < 2 ^ 32 ->
  exists b, table_eq same_object t t' = Ret b /\ (b = true <-> l = l').
Proof. apply table_eq_plain. Qed.
End equality.

(** ** Runs *)

Definition zeros (n : Z) : list Z := replicate (Z.to_nat n) 0.

Lemma zeros_ok n : 0 <= n -> Z.of_nat (length (zeros n)) = n /\ Forall is_byte (zeros n).
Proof.
  intros Hn. unfold zeros. rewrite length_replicate. split; [lia|]. apply Forall_replicate. unfold is_byte, is_uint. lia.
Qed.

(** a table is made, gets a number, a text and a copy of itself, is sent, changed and read *)
Definition a_ : list Z := [97].
Definition b_ : list Z := [98].
Definition number : Value := Raw 0x21 [0; 0; 0; 7].
Definition text : Value := Raw 0x95 [104; 105].
Definition some_commands : list Command :=
  [New 0; Set_ 0 b_ number; Set_ 0 a_ text; SetTable 0 [99] 0; Send 0 1; Copy 1 2; Insert 2 a_ number; Erase 2 b_; Get 2 a_; Size 2; Entries 1].

Lemma field_tables_correct_witness :
  exists s' rs, run zeros some_commands ∅ = (s', Ret rs) /\ stands_for (abs_run some_commands ∅).1 s' /\ Forall2 reply_ok (abs_run some_commands ∅).2 rs.
Proof.
  apply (field_tables_correct zeros zeros_ok some_commands ∅ ∅); [by intros k; rewrite !lookup_empty|].
  assert (Hn : forall c, is_byte c -> name_ok [c]) by (intros c Hc; split; [by apply Forall_singleton|done]).
  assert (H1 : valid number) by (split_and!; [done|repeat constructor; done|by eexists _, _]).
  assert (H2 : valid text) by (split_and!; [done|repeat constructor; done|by eexists _, _]).
  repeat split; try done; try (by apply Hn); try apply H1; try apply H2; vm_compute; by eexists.
Defined.

Definition odd_bytes : list Z := [0; 0; 0; 9; 0; 0; 0; 2; 1; 97; 0xB5; 0; 0; 5].

Lemma received_table_safe_witness :
  match table_decode (new_Buffer odd_bytes 14) with
  | (b', Ret t) => exists bs, rest (new_Buffer odd_bytes 14) = bs ++ rest b' /\ emits (table_encode t) bs /\
      match realDecode t with
      | (t', Ret _) => emits (table_encode t') bs /\ newBytes t' = false
      | (t', Throw e) => read_error e /\ emits (table_encode t') bs
      end
  | (_, Throw e) => read_error e
  end.
Proof. apply (received_table_safe (new_Buffer odd_bytes 14)). split_and!; [done|done|done|done|]. repeat constructor; done. Defined.

Definition small_map : list (list Z * Value) := [(a_, text); (b_, number)].
Definition small_table : FieldTable := mkTable (map (fun p => (p.1, concrete p.2)) small_map) None 0 false.
Definition small_copy : FieldTable := match copy zeros small_table with (_, Ret c) => c | _ => new_FieldTable end.

Lemma table_eq_exact_witness : exists b, table_eq (fun _ _ => false) small_table small_copy = Ret b /\ (b = true <-> small_map = small_map).
Proof.
  assert (Ht : table_rep small_map small_table).
  { apply rep_VTable. apply (concrete_rep (VTable small_map)). split; [split_and!; [|repeat constructor; done|done]|].
    - repeat constructor.
    - repeat split; try done; try (repeat constructor; done); by eexists _, _. }
  apply (table_eq_exact (fun _ _ => false) small_map small_map small_table small_copy); [done| |by repeat split|done].
  destruct (copy_rep zeros zeros_ok small_map small_table Ht) as (t' & c & E & _ & Hc); [done|]. unfold small_copy. by rewrite E.
Defined.

(** the answer of an operation *)
Definition answer {S A} (m : M S A) (s : S) : outcome A := (m s).2.
Definition after {S A} (m : M S A) (s : S) : S := (m s).1.

(**  where the code does less than it says.  A copy of a table has size 0 until it is looked into.  A [double] is
    turned around where it is stored when it is read, so that every other read of it
    is wrong.  Lists that are equal are not, but for lists of the same objects.  A table that cannot be
    encoded is changed by the attempt to copy it, and encoded with octets that were never written
    from then on.  A negative number of fewer than 64 bits is read as a positive one *)
Theorem field_table_flaws :
  (let t := after (setInt a_ 7) new_FieldTable in
   exists c, answer (copy zeros) t = Ret c /\ table_count t = 1 /\ table_count c = 0 /\ answer (isSet a_) c = Ret true) /\
  (let t := after (setDouble true a_ 0x3FF0000000000000) new_FieldTable in
   answer (getDouble true a_) t = Ret (Some 0x3FF0000000000000) /\
   answer (getDouble true a_) (after (getDouble true a_) t) = Ret (Some 0xF03F)) /\
  (let t := after (set a_ (ListValue [IntegerValue 1])) new_FieldTable in
   exists c, answer (copy zeros) t = Ret c /\ table_eq (fun _ _ => false) t c = Ret false) /\
  (let t := after (setInt (replicate 256 97) 7) new_FieldTable in
   answer (copy zeros) t = Throw Exception /\ answer (table_encode t) (new_Buffer (zeros 300) 300) = Throw Exception /\
   let t' := after (copy zeros) t in
   answer (table_encode t') (new_Buffer (zeros 300) 300) = Ret tt /\
   take 10 (data (after (table_encode t') (new_Buffer (zeros 300) 300))) = [0; 0; 1; 10; 0; 0; 0; 1; 0; 0]) /\
  (answer (getAsInt64 a_) (after (setInt a_ (-5)) new_FieldTable) = Ret 4294967291 /\
   answer (getAsInt64 a_) (after (setInt64 a_ (-5)) new_FieldTable) = Ret (-5) /\
   answer (getAsInt a_) (after (set a_ (Integer8Value (-1))) new_FieldTable) = Ret 255).
Proof.
  split; [|split; [|split; [|split]]].
  - eexists. split; [vm_compute; reflexivity|]. split_and!; vm_compute; reflexivity.
  - split; vm_compute; reflexivity.
  - eexists. split; [vm_compute; reflexivity|]. vm_compute; reflexivity.
  - cbv zeta. split_and!; vm_compute; reflexivity.
  - split_and!; vm_compute; reflexivity.
Qed.
