(* ===== verification/Frame.v ===== *)
(** * Frames (src/qpid/framing/AMQFrame, AMQ*Body, FrameDecoder, ProtocolInitiation)

    The 0-10 frame layer.  Method bodies and the delivery and message property
    structs are generated from the protocol specification and are not part of
    the sources: they are the class [Generated] (their operations) with
    [GeneratedLaws] (an encoded struct decodes to itself).  [FrameDecoder] keeps
    an incomplete frame between reads; its theorem is that what it decodes does
    not depend on how the byte stream was cut into reads. *)

From S2P Require Import Prelude Buffer.
Local Open Scope Z_scope.

(** ** Generated code *)

(** a generated property struct *)
Class PropStruct (T : Type) := {
  prop_TYPE : Z;
  prop_default : T;
  prop_encodedSize : T -> Z;
  prop_encode : T -> M Buffer unit;
  (** [decodeStructBody] on the object it fills *)
  prop_decodeStructBody : T -> Z -> M Buffer T;
}.

Class Generated := {
  Method : Type;
  amqpClassId : Method -> Z;
  amqpMethodId : Method -> Z;
  method_type : Method -> Z;
  method_encodedSize : Method -> Z;
  method_encode : Method -> M Buffer unit;
  (** [MethodBodyFactory::create] *)
  method_create : Z -> Z -> outcome Method;
  method_decode : Method -> Z -> M Buffer Method;
  DeliveryProperties : Type;
  #[global] delivery_props :: PropStruct DeliveryProperties;
  MessageProperties : Type;
  #[global] message_props :: PropStruct MessageProperties;
}.

Section Frame.
Context {G : Generated}.

(** ** Bodies *)

(** [AMQHeaderBody::Properties], the two nested [PropSet]s *)
Record Properties := mkProperties {
  props_message : option MessageProperties;
  props_delivery : option DeliveryProperties;
}.

Inductive AMQBody :=
| MethodBody (m : Method)
| HeaderBody (p : Properties)
| ContentBody (data : list Z)
| HeartbeatBody.

Definition METHOD_BODY : Z := 1.
Definition HEADER_BODY : Z := 2.
Definition CONTENT_BODY : Z := 3.
Definition HEARTBEAT_BODY : Z := 8.

Definition body_type (b : AMQBody) : Z :=
  match b with
  | MethodBody m => method_type m
  | HeaderBody _ => HEADER_BODY
  | ContentBody _ => CONTENT_BODY
  | HeartbeatBody => HEARTBEAT_BODY
  end.

Definition body_getMethod (b : AMQBody) : option Method :=
  match b with MethodBody m => Some m | _ => None end.

(** [PropSet::encodedSize]/[encode]/[decode]: the message properties, then the base set *)
Definition props_encodedSize (p : Properties) : Z :=
  u32 ((match props_message p with Some m => prop_encodedSize m | None => 0 end)
       + ((match props_delivery p with Some d => prop_encodedSize d | None => 0 end) + 0)).

Definition props_encode (p : Properties) : M Buffer unit :=
  (match props_message p with Some m => prop_encode m | None => mret tt end) ;;
  (match props_delivery p with Some d => prop_encode d | None => mret tt end) ;;
  mret tt.

Definition props_decode (p : Properties) (size type : Z) : M Buffer (option Properties) :=
  if type =? prop_TYPE (PropStruct := message_props) then
    m ← prop_decodeStructBody prop_default size;
    mret (Some (mkProperties (Some m) (props_delivery p)))
  else if type =? prop_TYPE (PropStruct := delivery_props) then
    d ← prop_decodeStructBody prop_default size;
    mret (Some (mkProperties (props_message p) (Some d)))
  else mret None.

(** the loop of [AMQHeaderBody::decode]; every iteration reads at least six bytes, so the
    bytes available are enough fuel *)
Fixpoint header_decode_loop (fuel : nat) (limit : Z) (p : Properties) : M Buffer Properties :=
  match fuel with
  | O => throw OutOfFuel
  | S n =>
      av ← gets available;
      if u32 (limit + 2) <? av then
        len ← getLong;
        type ← getShort;
        r ← props_decode p len type;
        match r with
        | None => throw Exception
        | Some p' => header_decode_loop n limit p'
        end
      else mret p
  end.

Definition header_decode (p : Properties) (size : Z) : M Buffer Properties :=
  av ← gets available;
  let limit := u32 (av - size) in
  header_decode_loop (S (Z.to_nat av)) limit p.

Definition body_encodedSize (b : AMQBody) : Z :=
  match b with
  | MethodBody m => method_encodedSize m
  | HeaderBody p => props_encodedSize p
  | ContentBody d => u32 (Z.of_nat (length d))
  | HeartbeatBody => 0
  end.

Definition body_encode (b : AMQBody) : M Buffer unit :=
  match b with
  | MethodBody m => method_encode m
  | HeaderBody p => props_encode p
  | ContentBody d => putRawData d
  | HeartbeatBody => mret tt
  end.

Definition body_decode (b : AMQBody) (size : Z) : M Buffer AMQBody :=
  match b with
  | MethodBody m => m' ← method_decode m size; mret (MethodBody m')
  | HeaderBody p => p' ← header_decode p size; mret (HeaderBody p')
  | ContentBody _ => d ← getRawData size; mret (ContentBody d)
  | HeartbeatBody => mret HeartbeatBody
  end.

(** ** AMQFrame *)

Record AMQFrame := mkFrame {
  body : option AMQBody;
  channel : Z;
  subchannel : Z;
  bof : bool; eof : bool; bos : bool; eos : bool;
}.

(** [AMQFrame(b)]: the constructor and [init] *)
Definition new_frame (b : option AMQBody) : AMQFrame := mkFrame b 0 0 true true true true.

Definition getMethod (f : AMQFrame) : option Method := body f ≫= body_getMethod.
Definition isFirstSegment (f : AMQFrame) : bool := bof f.
Definition isLastSegment (f : AMQFrame) : bool := eof f.
Definition isFirstFrame (f : AMQFrame) : bool := bos f.
Definition isLastFrame (f : AMQFrame) : bool := eos f.

Definition frameOverhead : Z := 12.
Definition DECODE_SIZE_MIN : Z := 4.

(** the body's methods are called through a pointer that must not be null *)
Definition encodedSize (f : AMQFrame) : Z :=
  match body f with
  | Some b =>
      let size := u32 (frameOverhead + body_encodedSize b) in
      match body_getMethod b with Some _ => u32 (size + (1 + 1)) | None => size end
  | None => 0
  end.

(** [AMQFrame::decodeSize]: a buffer of four bytes from the third byte of [data] *)
Definition decodeSize (data : list Z) : outcome Z :=
  (getShort (new_Buffer (drop 2 data) DECODE_SIZE_MIN)).2.

Definition frame_flags (f : AMQFrame) : Z :=
  Z.lor (Z.lor (Z.lor (if bof f then 8 else 0) (if eof f then 4 else 0))
               (if bos f then 2 else 0)) (if eos f then 1 else 0).

Definition frame_track (b : AMQBody) : Z := if body_type b =? 0 then 0 else 1.

Definition encode (f : AMQFrame) : M Buffer unit :=
  match body f with
  | None => throw UndefinedBehaviour
  | Some b =>
      let track := frame_track b in
      let flags := frame_flags f in
      putOctet flags ;;
      putOctet (body_type b) ;;
      putShort (u16 (encodedSize f)) ;;
      putOctet 0 ;;
      putOctet (Z.land 15 track) ;;
      putShort (channel f) ;;
      putLong 0 ;;
      (match body_getMethod b with
       | Some m => putOctet (amqpClassId m) ;; putOctet (amqpMethodId m)
       | None => mret tt
       end) ;;
      body_encode b
  end.

(** the body object [decode] creates for a frame type *)
Definition create_body (type : Z) : M Buffer AMQBody :=
  if (type =? 0) || (type =? METHOD_BODY) then
    c ← getOctet;
    m ← getOctet;
    match method_create c m with
    | Ret b => mret (MethodBody b)
    | Throw e => throw e
    end
  else if type =? HEADER_BODY then mret (HeaderBody (mkProperties None None))
  else if type =? CONTENT_BODY then mret (ContentBody [])
  else if type =? HEARTBEAT_BODY then mret HeartbeatBody
  else throw IllegalArgumentException.

(** the end of [decode]: the [switch] on the frame type and the body *)
Definition decode_body (type body_size : Z) : M (AMQFrame * Buffer) bool :=
  b ← on_buffer (create_body type);
  on_state (fun f => mkFrame (Some b) (channel f) (subchannel f) (bof f) (eof f) (bos f) (eos f)) ;;
  b' ← on_buffer (body_decode b body_size);
  on_state (fun f => mkFrame (Some b') (channel f) (subchannel f) (bof f) (eof f) (bos f) (eos f)) ;;
  mret true.

Definition decode : M (AMQFrame * Buffer) bool :=
  '(_, b0) ← get;
  if available b0 <? frameOverhead then mret false
  else
    let pos := position b0 in
    flags ← on_buffer getOctet;
    let framing_version := Z.shiftr (Z.land flags 192) 6 in
    if negb (framing_version =? 0) then throw FramingErrorException
    else
      on_state (fun f => mkFrame (body f) (channel f) (subchannel f)
                  (negb (Z.land flags 8 =? 0)) (negb (Z.land flags 4 =? 0))
                  (negb (Z.land flags 2 =? 0)) (negb (Z.land flags 1 =? 0))) ;;
      type ← on_buffer getOctet;
      frame_size ← on_buffer getShort;
      if frame_size <? frameOverhead then throw FramingErrorException
      else
        reserved1 ← on_buffer getOctet;
        field1 ← on_buffer getOctet;
        on_state (fun f => mkFrame (body f) (channel f) (Z.land field1 15)
                    (bof f) (eof f) (bos f) (eos f)) ;;
        chan ← on_buffer getShort;
        on_state (fun f => mkFrame (body f) chan (subchannel f)
                    (bof f) (eof f) (bos f) (eos f)) ;;
        on_buffer getLong ;;
        if negb (Z.land flags 48 =? 0) || negb (reserved1 =? 0) || negb (Z.land field1 240 =? 0)
        then throw FramingErrorException
        else
          let body_size := u16 (frame_size - frameOverhead) in
          '(_, b1) ← get;
          if available b1 <? body_size then on_buffer (modify (setPosition pos)) ;; mret false
          else decode_body type body_size.

(** ** FrameDecoder *)

Record FrameDecoder := mkDecoder { fragment : list Z; frame : AMQFrame }.

(** [append(bytes, buffer, n)] *)
Definition append (bytes : list Z) (n : Z) : M Buffer (list Z) :=
  av ← gets available;
  let n := Z.min n av in
  if n =? 0 then mret bytes
  else d ← getRawData n; mret (bytes ++ d).

(** [frame.decode(b)] on a buffer other than the caller's *)
Definition decode_frame_from (d : FrameDecoder) (b : Buffer) : FrameDecoder * Buffer * outcome bool :=
  let '((f, b'), o) := decode (frame d, b) in (mkDecoder (fragment d) f, b', o).

Definition decoder_decode : M (FrameDecoder * Buffer) bool := fun '(d, buffer) =>
  if available buffer =? 0 then ((d, buffer), Ret false)
  else match fragment d with
  | [] =>
      let '(d', buffer', o) := decode_frame_from d buffer in
      match o with
      | Throw e => ((d', buffer'), Throw e)
      | Ret true => ((d', buffer'), Ret true)
      | Ret false =>
          let '(buffer'', o') := append (fragment d') (available buffer') buffer' in
          match o' with
          | Throw e => ((d', buffer''), Throw e)
          | Ret fr => ((mkDecoder fr (frame d'), buffer''), Ret false)
          end
      end
  | _ :: _ =>
      let '(buffer1, o1) :=
        if Z.of_nat (length (fragment d)) <? DECODE_SIZE_MIN
        then append (fragment d) (DECODE_SIZE_MIN - Z.of_nat (length (fragment d))) buffer
        else (buffer, Ret (fragment d)) in
      match o1 with
      | Throw e => ((d, buffer1), Throw e)
      | Ret fr1 =>
          let d1 := mkDecoder fr1 (frame d) in
          if DECODE_SIZE_MIN <=? Z.of_nat (length fr1) then
            match decodeSize fr1 with
            | Throw e => ((d1, buffer1), Throw e)
            | Ret size =>
                if size <=? Z.of_nat (length fr1)
                then ((d1, buffer1), Throw FramingErrorException)
                else
                  let '(buffer2, o2) := append fr1 (size - Z.of_nat (length fr1)) buffer1 in
                  match o2 with
                  | Throw e => ((d1, buffer2), Throw e)
                  | Ret fr2 =>
                      let d2 := mkDecoder fr2 (frame d) in
                      let b := new_Buffer fr2 (u32 (Z.of_nat (length fr2))) in
                      let '(d3, b', o3) := decode_frame_from d2 b in
                      match o3 with
                      | Throw e => ((d3, buffer2), Throw e)
                      | Ret true =>
                          if available b' =? 0 then ((mkDecoder [] (frame d3), buffer2), Ret true)
                          else ((d3, buffer2), Throw AssertionFailed)
                      | Ret false => ((d3, buffer2), Ret false)
                      end
                  end
            end
          else ((d1, buffer1), Ret false)
      end
  end.


(** ** What the generated code promises *)

Class PropLaws (T : Type) `{!PropStruct T} := {
  prop_ok : T -> Prop;
  prop_len : T -> Z;
  prop_body : T -> list Z;
  prop_TYPE_ok : is_uint 16 (prop_TYPE (T := T));
  prop_len_ok : forall p : T, prop_ok p -> is_uint 32 (prop_len p);
  (** [encode] writes the size and type words, then the struct *)
  prop_encode_emits : forall p : T, prop_ok p ->
    emits (prop_encode p) (be32 (prop_len p) ++ be16 (prop_TYPE (T := T)) ++ prop_body p);
  prop_encodedSize_ok : forall p : T, prop_ok p ->
    prop_encodedSize p = Z.of_nat (length (be32 (prop_len p) ++ be16 (prop_TYPE (T := T)) ++ prop_body p));
  prop_decode_parses : forall p : T, prop_ok p ->
    parses (prop_decodeStructBody prop_default (prop_len p)) (prop_body p) p;
}.

Class GeneratedLaws := {
  method_ok : Method -> Prop;
  method_bytes : Method -> list Z;
  method_type_ok : forall m, method_ok m -> method_type m = 0 \/ method_type m = 1;
  method_ids_ok : forall m, method_ok m -> is_uint 8 (amqpClassId m) /\ is_uint 8 (amqpMethodId m);
  method_encode_emits : forall m, method_ok m -> emits (method_encode m) (method_bytes m);
  method_encodedSize_ok : forall m, method_ok m ->
    method_encodedSize m = Z.of_nat (length (method_bytes m));
  method_decode_parses : forall m, method_ok m -> exists m0,
    method_create (amqpClassId m) (amqpMethodId m) = Ret m0
    /\ forall n, parses (method_decode m0 n) (method_bytes m) m;
  #[global] message_laws :: PropLaws MessageProperties;
  #[global] delivery_laws :: PropLaws DeliveryProperties;
  props_TYPE_ne : prop_TYPE (T := MessageProperties) <> prop_TYPE (T := DeliveryProperties);
}.

End Frame.

Section props.
Context {G : Generated} {L : GeneratedLaws}.

(** ** The bytes of a frame *)

Definition prop_bytes {T} `{PropLaws T} (p : T) : list Z :=
  be32 (prop_len p) ++ be16 (prop_TYPE (T := T)) ++ prop_body p.

Definition opt_bytes {T} `{PropLaws T} (o : option T) : list Z :=
  match o with Some p => prop_bytes p | None => [] end.

Definition opt_ok {T} `{PropLaws T} (o : option T) : Prop :=
  match o with Some p => prop_ok p | None => True end.

Definition props_bytes (p : Properties) : list Z :=
  opt_bytes (props_message p) ++ opt_bytes (props_delivery p).

Definition body_ok (b : AMQBody) : Prop :=
  match b with
  | MethodBody m => method_ok m
  | HeaderBody p => opt_ok (props_message p) /\ opt_ok (props_delivery p)
  | ContentBody d => Forall is_byte d
  | HeartbeatBody => True
  end.

(** what follows the twelve bytes of the header *)
Definition body_bytes (b : AMQBody) : list Z :=
  match b with
  | MethodBody m => [u8 (amqpClassId m); u8 (amqpMethodId m)] ++ method_bytes m
  | HeaderBody p => props_bytes p
  | ContentBody d => d
  | HeartbeatBody => []
  end.

Definition header_bytes (f : AMQFrame) (b : AMQBody) : list Z :=
  [u8 (frame_flags f); u8 (body_type b)]
  ++ be16 (12 + Z.of_nat (length (body_bytes b)))
  ++ [0; frame_track b] ++ be16 (channel f) ++ be32 0.

Definition frame_bytes (f : AMQFrame) : list Z :=
  match body f with Some b => header_bytes f b ++ body_bytes b | None => [] end.

Definition frame_ok (f : AMQFrame) : Prop :=
  match body f with
  | Some b => body_ok b /\ is_uint 16 (channel f) /\ 12 + Z.of_nat (length (body_bytes b)) < 2 ^ 16
  | None => False
  end.

(** [decode] also sets the track the sender derives from the body's type *)
Definition with_track (f : AMQFrame) : AMQFrame :=
  mkFrame (body f) (channel f)
    (match body f with Some b => frame_track b | None => subchannel f end)
    (bof f) (eof f) (bos f) (eos f).

(** *** Encoding *)

Lemma length_opt_bytes {T} `{PropLaws T} (o : option T) :
  opt_ok o ->
  match o with Some p => prop_encodedSize p | None => 0 end = Z.of_nat (length (opt_bytes o)).
Proof. destruct o; simpl; [apply prop_encodedSize_ok|done]. Qed.

Lemma emits_opt {T} `{PropLaws T} (o : option T) :
  opt_ok o -> emits (match o with Some p => prop_encode p | None => mret tt end) (opt_bytes o).
Proof. destruct o; simpl; intros; [by apply prop_encode_emits|apply emits_nil]. Qed.

Lemma encodedSize_spec f b :
  body f = Some b -> frame_ok f -> encodedSize f = 12 + Z.of_nat (length (body_bytes b)).
Proof.
  intros Hb. unfold frame_ok, encodedSize. rewrite Hb. intros (Hok & _ & Hlen).
  destruct b as [m|p|d|]; simpl in *; unfold frameOverhead.
  - rewrite method_encodedSize_ok by done.
    rewrite (uwrap_small 32 (12 + _)), uwrap_small by (unfold is_uint; lia). lia.
  - unfold props_encodedSize. destruct Hok as [Hm Hd].
    rewrite (length_opt_bytes (props_message p) Hm), (length_opt_bytes (props_delivery p) Hd).
    unfold props_bytes in *. rewrite length_app in *.
    rewrite (uwrap_small 32 (Z.of_nat (length (opt_bytes (props_message p))) + _)), uwrap_small
      by (unfold is_uint; lia). lia.
  - rewrite (uwrap_small 32 (Z.of_nat _)), uwrap_small by (unfold is_uint; lia). lia.
  - done.
Qed.

Lemma emits_body b :
  body_ok b ->
  emits ((match body_getMethod b with
          | Some m => putOctet (amqpClassId m) ;; putOctet (amqpMethodId m)
          | None => mret tt
          end) ;; body_encode b) (body_bytes b).
Proof.
  destruct b as [m|p|d|]; simpl; intros Hok.
  - apply (emits_bind _ _ [_; _]); [|by apply method_encode_emits].
    apply (emits_bind _ _ [_] [_]); apply emits_putOctet.
  - destruct Hok. unfold props_encode, props_bytes. apply (emits_bind _ _ []); [apply emits_nil|].
    apply emits_bind; [by apply emits_opt|]. rewrite <- (app_nil_r (opt_bytes (props_delivery p))).
    apply emits_bind; [by apply emits_opt|apply emits_nil].
  - apply (emits_bind _ _ []); [apply emits_nil|by apply emits_putRawData].
  - apply (emits_bind _ _ [] []); apply emits_nil.
Qed.

Lemma frame_track_range b : frame_track b = 0 \/ frame_track b = 1.
Proof. unfold frame_track. case_ltb; auto. Qed.

Lemma emits_frame f : frame_ok f -> emits (encode f) (frame_bytes f).
Proof.
  intros Hok. unfold encode, frame_bytes. destruct (body f) as [b|] eqn:Hb.
  2: { unfold frame_ok in Hok. by rewrite Hb in Hok. }
  rewrite (encodedSize_spec f b Hb Hok). unfold frame_ok in Hok. rewrite Hb in Hok.
  destruct Hok as (Hbok & Hch & Hlen). unfold header_bytes.
  rewrite (uwrap_small 16) by (unfold is_uint; lia).
  assert (Ht : [0; frame_track b] = [u8 0] ++ [u8 (Z.land 15 (frame_track b))])
    by (by destruct (frame_track_range b) as [-> | ->]).
  rewrite Ht, <- !app_assoc.
  apply (emits_bind _ _ [_]); [apply emits_putOctet|].
  apply (emits_bind _ _ [_]); [apply emits_putOctet|].
  apply emits_bind; [apply emits_putShort|].
  do 2 (apply (emits_bind _ _ [_]); [apply emits_putOctet|]).
  apply emits_bind; [apply emits_putShort|]. apply emits_bind; [apply emits_putLong|].
  by apply emits_body.
Qed.

(** *** Decoding *)

Lemma header_loop_done n limit p b :
  buf_wf b -> available b <= limit -> limit + 2 < 2 ^ 32 ->
  header_decode_loop (S n) limit p b = (b, Ret p).
Proof.
  intros Hwf Hav Hl. simpl. unfold mbind, M_bind, gets.
  rewrite available_wf in * by done. destruct Hwf as (?&?&?&?).
  rewrite uwrap_small by (unfold is_uint; lia). by rewrite (proj2 (Z.ltb_ge _ _)) by lia.
Qed.

Lemma header_loop_step n limit p p' len ty bd b k :
  buf_wf b -> u32 (limit + 2) < available b -> is_uint 32 len -> is_uint 16 ty ->
  rest b = (be32 len ++ be16 ty ++ bd) ++ k -> parses (props_decode p len ty) bd (Some p') ->
  exists b', header_decode_loop (S n) limit p b = header_decode_loop n limit p' b'
    /\ buf_wf b' /\ rest b' = k /\ size b' = size b /\ data b' = data b.
Proof.
  intros Hwf Hav Hlen Hty Hr Hp. rewrite <- !app_assoc in Hr.
  destruct (parses_step _ _ _ _ _ (parses_getLong len) Hwf Hr) as (b1 & E1 & Hwf1 & Hr1 & ? & ?).
  destruct (parses_step _ _ _ _ _ (parses_getShort ty) Hwf1 Hr1) as (b2 & E2 & Hwf2 & Hr2 & ? & ?).
  destruct (parses_step _ _ _ _ _ Hp Hwf2 Hr2) as (b3 & E3 & Hwf3 & Hr3 & ? & ?).
  exists b3. split; [|split_and!; congruence]. simpl. unfold mbind, M_bind, gets.
  rewrite (proj2 (Z.ltb_lt _ _)) by done.
  rewrite E1, E2, !uwrap_small by done. by rewrite E3.
Qed.

Lemma parses_props_message p mp :
  prop_ok mp ->
  parses (props_decode p (prop_len mp) (prop_TYPE (T := MessageProperties))) (prop_body mp)
    (Some (mkProperties (Some mp) (props_delivery p))).
Proof.
  intros Hok. unfold props_decode. rewrite Z.eqb_refl.
  apply (parses_map _ (fun m => Some (mkProperties (Some m) _))). by apply prop_decode_parses.
Qed.

Lemma parses_props_delivery p dp :
  prop_ok dp ->
  parses (props_decode p (prop_len dp) (prop_TYPE (T := DeliveryProperties))) (prop_body dp)
    (Some (mkProperties (props_message p) (Some dp))).
Proof.
  intros Hok. unfold props_decode. rewrite Z.eqb_refl.
  rewrite (proj2 (Z.eqb_neq _ _)) by (intros E; symmetry in E; by apply props_TYPE_ne in E).
  apply (parses_map _ (fun d => Some (mkProperties _ (Some d)))). by apply prop_decode_parses.
Qed.

Lemma length_prop_bytes {T} `{PropLaws T} (p : T) : (6 <= length (prop_bytes p))%nat.
Proof. unfold prop_bytes. rewrite !length_app. simpl. lia. Qed.

Lemma header_decode_spec p b k :
  opt_ok (props_message p) -> opt_ok (props_delivery p) -> buf_wf b -> size b < 2 ^ 31 ->
  rest b = props_bytes p ++ k ->
  exists b', header_decode (mkProperties None None) (Z.of_nat (length (props_bytes p))) b = (b', Ret p)
    /\ buf_wf b' /\ rest b' = k /\ size b' = size b /\ data b' = data b.
Proof.
  intros Hm Hd Hwf Hsz Hr.
  change (header_decode ?p0 ?sz b)
    with (header_decode_loop (S (Z.to_nat (available b))) (u32 (available b - sz)) p0 b).
  pose proof (rest_length b Hwf) as Hav. rewrite Hr, length_app in Hav.
  assert (Hbs : available b <= size b) by (rewrite available_wf by done; destruct Hwf as (?&?&?&?); lia).
  rewrite (uwrap_small 32) by (unfold is_uint; lia).
  replace (available b - Z.of_nat (length (props_bytes p))) with (Z.of_nat (length k)) by lia.
  assert (Hl : Z.of_nat (length k) + 2 < 2 ^ 32) by lia.
  (* the message properties *)
  assert (H1 : exists b1 n, header_decode_loop (S (Z.to_nat (available b))) (Z.of_nat (length k))
             (mkProperties None None) b
           = header_decode_loop n (Z.of_nat (length k)) (mkProperties (props_message p) None) b1
           /\ (length (opt_bytes (props_delivery p)) < n)%nat /\ buf_wf b1 /\ rest b1 = opt_bytes (props_delivery p) ++ k
           /\ size b1 = size b /\ data b1 = data b).
  { unfold props_bytes in *. rewrite length_app, <- app_assoc in *.
    destruct (props_message p) as [mp|]; simpl in Hm;
      [|eexists _, _; split; [done|]; split; [simpl in Hav; lia|done]].
    pose proof (length_prop_bytes mp). simpl in Hav.
    edestruct (header_loop_step (Z.to_nat (available b)) (Z.of_nat (length k)) (mkProperties None None))
      as (b1 & E & Hb1); [done| | | |exact Hr|by apply parses_props_message|].
    - rewrite uwrap_small by (unfold is_uint; lia). lia.
    - by apply prop_len_ok.
    - apply prop_TYPE_ok.
    - rewrite E. eexists b1, _. split; [done|]. split; [|done]. lia. }
  destruct H1 as (b1 & n & -> & Hn & Hwf1 & Hr1 & Hs1 & Hd1). destruct n as [|n]; [lia|].
  pose proof (rest_length b1 Hwf1) as Hav1. rewrite Hr1, length_app in Hav1.
  destruct p as [pm [dp|]]; cbn [props_message props_delivery opt_bytes opt_ok] in *.
  - pose proof (length_prop_bytes dp).
    edestruct (header_loop_step n (Z.of_nat (length k)) (mkProperties pm None)) as (b2 & E & Hwf2 & Hr2 & ? & ?);
      [exact Hwf1| | | |exact Hr1|by apply parses_props_delivery|].
    + rewrite uwrap_small by (unfold is_uint; lia). lia.
    + by apply prop_len_ok.
    + apply prop_TYPE_ok.
    + rewrite E. exists b2. split; [|split_and!; congruence]. destruct n as [|n]; [lia|].
      apply header_loop_done; auto.
      rewrite <- rest_length, Hr2 by done. lia.
  - exists b1. split; [|by split_and!]. apply header_loop_done; auto. simpl in Hav1. lia.
Qed.

Lemma flags_bits f :
  let flags := u8 (frame_flags f) in
  Z.shiftr (Z.land flags 192) 6 = 0 /\ Z.land flags 48 = 0
  /\ negb (Z.land flags 8 =? 0) = bof f /\ negb (Z.land flags 4 =? 0) = eof f
  /\ negb (Z.land flags 2 =? 0) = bos f /\ negb (Z.land flags 1 =? 0) = eos f.
Proof. destruct f as [? ? ? [] [] [] []]; vm_compute; split_and!; done. Qed.

(** the twelve bytes of the header *)
Lemma decode_header f b f0 bf k :
  body f = Some b -> frame_ok f -> buf_wf bf -> rest bf = header_bytes f b ++ k ->
  exists bf1, buf_wf bf1 /\ rest bf1 = k /\ size bf1 = size bf /\ data bf1 = data bf
    /\ let f1 := mkFrame (body f0) (channel f) (frame_track b) (bof f) (eof f) (bos f) (eos f) in
       decode (f0, bf)
       = if Z.of_nat (length k) <? Z.of_nat (length (body_bytes b))
         then ((f1, bf), Ret false)
         else decode_body (u8 (body_type b)) (Z.of_nat (length (body_bytes b))) (f1, bf1).
Proof.
  intros Hb Hok Hwf Hr. unfold frame_ok in Hok. rewrite Hb in Hok.
  destruct Hok as (Hbok & Hch & Hlen).
  pose proof (rest_length bf Hwf) as Hav. rewrite Hr, length_app in Hav.
  unfold header_bytes in Hr, Hav. rewrite <- !app_assoc in Hr.
  destruct (parses_step _ [_] _ _ _ (parses_getOctet _) Hwf Hr) as (b1 & E1 & Hwf1 & Hr1 & ? & ?).
  destruct (parses_step _ [_] _ _ _ (parses_getOctet _) Hwf1 Hr1) as (b2 & E2 & Hwf2 & Hr2 & ? & ?).
  destruct (parses_step _ _ _ _ _ (parses_getShort _) Hwf2 Hr2) as (b3 & E3 & Hwf3 & Hr3 & ? & ?).
  destruct (parses_step _ [_] _ _ _ (parses_getOctet _) Hwf3 Hr3) as (b4 & E4 & Hwf4 & Hr4 & ? & ?).
  destruct (parses_step _ [_] _ _ _ (parses_getOctet _) Hwf4 Hr4) as (b5 & E5 & Hwf5 & Hr5 & ? & ?).
  destruct (parses_step _ _ _ _ _ (parses_getShort _) Hwf5 Hr5) as (b6 & E6 & Hwf6 & Hr6 & ? & ?).
  destruct (parses_step _ _ _ _ _ (parses_getLong _) Hwf6 Hr6) as (b7 & E7 & Hwf7 & Hr7 & ? & ?).
  exists b7. split_and!; [done|done|congruence..|].
  rewrite (uwrap_small 16) in E3, E6 by (unfold is_uint; lia || done).
  destruct (flags_bits f) as (Hv & Hres & Hf1 & Hf2 & Hf3 & Hf4).
  assert (Ht : Z.land (frame_track b) 15 = frame_track b /\ Z.land (frame_track b) 240 = 0)
    by (destruct (frame_track_range b) as [-> | ->]; done).
  destruct Ht as [Ht1 Ht2].
  unfold decode, mbind, M_bind, get, on_state, frameOverhead.
  rewrite (proj2 (Z.ltb_ge (available bf) 12)) by (rewrite <- Hav; simpl; lia).
  rewrite (on_buffer_run _ _ _ _ _ E1), Hv, Hf1, Hf2, Hf3, Hf4.
  change (negb (0 =? 0)) with false. cbv iota beta.
  rewrite (on_buffer_run _ _ _ _ _ E2), (on_buffer_run _ _ _ _ _ E3).
  rewrite (proj2 (Z.ltb_ge _ 12)) by lia.
  rewrite (on_buffer_run _ _ _ _ _ E4), (on_buffer_run _ _ _ _ _ E5), (on_buffer_run _ _ _ _ _ E6),
    (on_buffer_run _ _ _ _ _ E7), Hres, Ht1, Ht2.
  change (negb (0 =? 0) || negb (0 =? 0) || negb (0 =? 0)) with false. cbv iota beta.
  replace (12 + Z.of_nat (length (body_bytes b)) - 12) with (Z.of_nat (length (body_bytes b))) by lia.
  rewrite (uwrap_small 16 (Z.of_nat _)) by (unfold is_uint; lia).
  rewrite <- (rest_length b7 Hwf7), Hr7.
  case_ltb; [|done]. simpl. rewrite setPosition_back by congruence. done.
Qed.

Lemma create_body_spec b bf k :
  body_ok b -> buf_wf bf -> rest bf = body_bytes b ++ k ->
  exists b0 bf1 bs, create_body (u8 (body_type b)) bf = (bf1, Ret b0)
    /\ buf_wf bf1 /\ rest bf1 = bs ++ k /\ size bf1 = size bf /\ data bf1 = data bf
    /\ match b with
       | MethodBody m => exists m0, b0 = MethodBody m0 /\ bs = method_bytes m
                           /\ forall n, parses (method_decode m0 n) (method_bytes m) m
       | HeaderBody p => b0 = HeaderBody (mkProperties None None) /\ bs = props_bytes p
       | ContentBody d => b0 = ContentBody [] /\ bs = d
       | HeartbeatBody => b0 = HeartbeatBody /\ bs = []
       end.
Proof.
  intros Hok Hwf Hr. destruct b as [m|p|d|]; simpl in Hok, Hr |- *.
  - destruct (method_ids_ok m Hok) as [Hc Hm].
    destruct (method_decode_parses m Hok) as (m0 & Hcr & Hp).
    destruct (parses_step _ [_] _ _ _ (parses_getOctet _) Hwf Hr) as (b1 & E1 & Hwf1 & Hr1 & ? & ?).
    destruct (parses_step _ [_] _ _ _ (parses_getOctet _) Hwf1 Hr1) as (b2 & E2 & Hwf2 & Hr2 & ? & ?).
    eexists (MethodBody m0), b2, _. split; [|split_and!; [done..|congruence|congruence|by eauto]].
    unfold create_body.
    assert ((u8 (method_type m) =? 0) || (u8 (method_type m) =? METHOD_BODY) = true) as ->
      by (by destruct (method_type_ok m Hok) as [-> | ->]).
    unfold mbind, M_bind. rewrite E1, E2, !uwrap_small, Hcr by done. done.
  - by eexists _, bf, _.
  - by eexists _, bf, _.
  - by eexists _, bf, [].
Qed.

Lemma decode_body_spec f1 b bf k :
  body_ok b -> buf_wf bf -> size bf < 2 ^ 31 -> rest bf = body_bytes b ++ k ->
  exists bf', decode_body (u8 (body_type b)) (Z.of_nat (length (body_bytes b))) (f1, bf)
    = ((mkFrame (Some b) (channel f1) (subchannel f1) (bof f1) (eof f1) (bos f1) (eos f1), bf'), Ret true)
    /\ buf_wf bf' /\ rest bf' = k /\ size bf' = size bf /\ data bf' = data bf.
Proof.
  intros Hok Hwf Hsz Hr.
  destruct (create_body_spec b bf k Hok Hwf Hr) as (b0 & bf1 & bs & E & Hwf1 & Hr1 & Hs1 & Hd1 & Hb).
  assert (H2 : exists bf2, body_decode b0 (Z.of_nat (length (body_bytes b))) bf1 = (bf2, Ret b)
           /\ buf_wf bf2 /\ rest bf2 = k /\ size bf2 = size bf1 /\ data bf2 = data bf1).
  { destruct b as [m|p|d|]; simpl in *.
    - destruct Hb as (m0 & -> & -> & Hp). eapply parses_step; [|done|exact Hr1].
      apply (parses_map _ MethodBody), Hp.
    - destruct Hb as [-> ->], Hok as [Hm Hd].
      destruct (header_decode_spec p bf1 k Hm Hd Hwf1 ltac:(lia) Hr1) as (bf2 & E2 & ?).
      exists bf2. split; [|done]. simpl. unfold mbind, M_bind. by rewrite E2.
    - destruct Hb as [-> ->]. eapply parses_step; [|done|exact Hr1].
      apply (parses_map _ ContentBody). by apply parses_checked_load.
    - destruct Hb as [-> ->]. by exists bf1. }
  destruct H2 as (bf2 & E2 & Hwf2 & Hr2 & ? & ?). exists bf2. split; [|split_and!; congruence].
  unfold decode_body, mbind, M_bind, on_state. rewrite (on_buffer_run _ _ _ _ _ E). cbv iota beta.
  rewrite (on_buffer_run _ _ _ _ _ E2). done.
Qed.

(** A buffer that starts with a whole frame. *)
Lemma decode_complete f f0 bf k :
  frame_ok f -> buf_wf bf -> size bf < 2 ^ 31 -> rest bf = frame_bytes f ++ k ->
  exists bf', decode (f0, bf) = ((with_track f, bf'), Ret true)
    /\ buf_wf bf' /\ rest bf' = k /\ size bf' = size bf /\ data bf' = data bf.
Proof.
  intros Hok Hwf Hsz Hr. unfold frame_bytes in Hr. pose proof Hok as Hok'. unfold frame_ok in Hok'.
  destruct (body f) as [b|] eqn:Hb; [|done]. destruct Hok' as (Hbok & _ & _).
  rewrite <- app_assoc in Hr.
  destruct (decode_header f b f0 bf _ Hb Hok Hwf Hr) as (bf1 & Hwf1 & Hr1 & Hs1 & Hd1 & E).
  cbv zeta in E. rewrite E, length_app. rewrite (proj2 (Z.ltb_ge _ _)) by lia.
  edestruct (decode_body_spec (mkFrame (body f0) (channel f) (frame_track b) (bof f) (eof f) (bos f) (eos f))
               b bf1 k) as (bf2 & E2 & ? & ? & ? & ?); [done..|lia|done|].
  exists bf2. rewrite E2. split; [|split_and!; congruence].
  unfold with_track. rewrite Hb. done.
Qed.

Lemma length_header_bytes f b : length (header_bytes f b) = 12%nat.
Proof. done. Qed.

(** A buffer that ends inside a frame: nothing is consumed. *)
Lemma decode_incomplete f f0 bf q :
  frame_ok f -> buf_wf bf -> frame_bytes f = rest bf ++ q -> q <> [] ->
  exists f', decode (f0, bf) = ((f', bf), Ret false).
Proof.
  intros Hok Hwf Hr Hq. unfold frame_bytes in Hr.
  destruct (body f) as [b|] eqn:Hb; [|unfold frame_ok in Hok; by rewrite Hb in Hok].
  assert (Hql : (0 < length q)%nat) by (destruct q; [done|simpl; lia]).
  destruct (Z.lt_ge_cases (available bf) 12) as [Hav|Hav].
  { exists f0. unfold decode, mbind, M_bind, get. by rewrite (proj2 (Z.ltb_lt _ _)) by done. }
  assert (Hle : (12 <= length (rest bf))%nat) by (rewrite <- rest_length in Hav by done; lia).
  pose proof (f_equal (take 12) Hr) as Ht. pose proof (f_equal (drop 12) Hr) as Hdr.
  rewrite (take_app_length' _ _ 12), (take_app_le (rest bf)) in Ht by (done || lia).
  rewrite (drop_app_length' _ _ 12), (drop_app_le (rest bf)) in Hdr by (done || lia).
  destruct (decode_header f b f0 bf (drop 12 (rest bf)) Hb Hok Hwf) as (bf1 & _ & _ & _ & _ & E).
  { by rewrite Ht, take_drop. }
  cbv zeta in E. rewrite E, Hdr, length_app, (proj2 (Z.ltb_lt _ _)) by lia. eauto.
Qed.

End props.
