(* ===== verification/FrameStream.v ===== *)
(** * Frame streams (src/qpid/framing/FrameDecoder, ProtocolInitiation, ProtocolVersion)

    The protocol header that opens a connection and the loop that drains a
    [FrameDecoder] over the reads of a connection, with the theorems of the
    frame layer: a frame and a protocol header decode to what was encoded, and
    the decoded frames do not depend on how the byte stream was cut into
    reads.  [Toy] is a small instance of the generated code that shows the
    hypotheses of those theorems can hold. *)

From S2P Require Import Prelude Buffer Frame.
Local Open Scope Z_scope.

(** ** Protocol header *)

Record ProtocolVersion := mkVersion { major_ : Z; minor_ : Z; protocol_ : Z }.

#[global] Instance ProtocolVersion_eq_dec : EqDecision ProtocolVersion.
Proof. solve_decision. Defined.

(** [operator=] and [operator==]: neither looks at the protocol id *)
Definition version_assign (v p : ProtocolVersion) : ProtocolVersion :=
  mkVersion (major_ p) (minor_ p) (protocol_ v).
Definition version_eq (v p : ProtocolVersion) : bool :=
  (major_ v =? major_ p) && (minor_ v =? minor_ p).

Definition initiation_encode (v : ProtocolVersion) : M Buffer unit :=
  putOctet 65 ;; putOctet 77 ;; putOctet 81 ;; putOctet 80 ;;
  if major_ v =? 1 then
    putOctet (protocol_ v) ;; putOctet (major_ v) ;; putOctet (minor_ v) ;; putOctet 0
  else
    putOctet 1 ;; putOctet 1 ;; putOctet (major_ v) ;; putOctet (minor_ v).

Definition initiation_decode : M (ProtocolVersion * Buffer) bool :=
  '(_, b) ← get;
  if 8 <=? available b then
    on_buffer getOctet ;; on_buffer getOctet ;; on_buffer getOctet ;; on_buffer getOctet ;;
    protocolClass ← on_buffer getOctet;
    on_state (fun v => mkVersion (major_ v) (minor_ v) protocolClass) ;;
    (if protocolClass =? 1 then
       on_buffer getOctet ;;
       mj ← on_buffer getOctet; on_state (fun v => mkVersion mj (minor_ v) (protocol_ v)) ;;
       mn ← on_buffer getOctet; on_state (fun v => mkVersion (major_ v) mn (protocol_ v))
     else
       mj ← on_buffer getOctet; on_state (fun v => mkVersion mj (minor_ v) (protocol_ v)) ;;
       mn ← on_buffer getOctet; on_state (fun v => mkVersion (major_ v) mn (protocol_ v)) ;;
       on_buffer getOctet ;; mret tt) ;;
    mret true
  else mret false.

Definition version_ok (v : ProtocolVersion) : Prop :=
  is_uint 8 (major_ v) /\ is_uint 8 (minor_ v) /\ is_uint 8 (protocol_ v).

#[global] Instance version_ok_dec v : Decision (version_ok v).
Proof. unfold version_ok. apply _. Defined.

(** the eight octets of the header *)
Definition initiation_bytes (v : ProtocolVersion) : list Z :=
  [65; 77; 81; 80]
  ++ if major_ v =? 1 then [protocol_ v; major_ v; minor_ v; 0] else [1; 1; major_ v; minor_ v].

Lemma emits_cons m b bs : emits m bs -> is_byte b -> emits (putOctet b ;; m) (b :: bs).
Proof.
  intros H Hb. apply (emits_bind _ _ [b] bs); [|done].
  apply (emits_ext _ [u8 b]); [apply emits_putOctet|]. by rewrite uwrap_small.
Qed.

Lemma emits_last b : is_byte b -> emits (putOctet b) [b].
Proof. intros Hb. apply (emits_ext _ [u8 b]); [apply emits_putOctet|]. by rewrite uwrap_small. Qed.

Lemma emits_initiation v : version_ok v -> emits (initiation_encode v) (initiation_bytes v).
Proof.
  intros (H1 & H2 & H3). unfold initiation_encode, initiation_bytes.
  do 4 (apply emits_cons; [|unfold is_byte, is_uint; lia]).
  case_ltb; (do 3 (apply emits_cons; [|done || (unfold is_byte, is_uint; lia)]));
    apply emits_last; done || (unfold is_byte, is_uint; lia).
Qed.

(** Read the next octet of the buffer [b] is known to hold. *)
Ltac read_octet Hwf Hr :=
  let W := fresh "W" in let R := fresh "R" in let E := fresh "E" in let b' := fresh "b" in
  destruct (parses_step _ [_] _ _ _ (parses_getOctet _) Hwf Hr) as (b' & E & W & R & ? & ?);
  clear Hwf Hr; rename W into Hwf; rename R into Hr.

(** Run the octet reads whose outcomes are hypotheses. *)
Ltac run_octets := repeat match goal with
    E : getOctet ?b = _ |- context [on_buffer getOctet (_, ?b)] =>
      rewrite (on_buffer_run _ _ _ _ _ E); cbv beta iota
  end.

(** Decoding any eight octets. *)
Lemma initiation_decode_spec v b a0 a1 a2 a3 c x y z k :
  buf_wf b -> rest b = [a0; a1; a2; a3; c; x; y; z] ++ k ->
  exists b', buf_wf b' /\ rest b' = k
    /\ initiation_decode (v, b)
       = ((if c =? 1 then mkVersion y z c else mkVersion x y c, b'), Ret true).
Proof.
  intros Hwf Hr.
  assert (Hav : available b = 8 + Z.of_nat (length k))
    by (rewrite <- rest_length, Hr by done; simpl; lia).
  do 8 read_octet Hwf Hr. eexists. split; [exact Hwf|]. split; [exact Hr|].
  unfold initiation_decode, mbind, M_bind, get, on_state.
  rewrite (proj2 (Z.leb_le _ _)) by lia.
  run_octets. cbn [protocol_ major_ minor_]. case_ltb; run_octets; done.
Qed.

(** ** Draining a decoder *)

Section stream.
Context {G : Generated}.

(** [while (decoder.decode(buffer)) received(decoder.frame);] *)
Fixpoint drain (fuel : nat) (s : FrameDecoder * Buffer) (got : list AMQFrame)
  : (FrameDecoder * Buffer) * list AMQFrame * outcome unit :=
  match fuel with
  | O => (s, got, Throw OutOfFuel)
  | S n =>
      match decoder_decode s with
      | (s', Throw e) => (s', got, Throw e)
      | (s', Ret false) => (s', got, Ret tt)
      | (s', Ret true) => drain n s' (got ++ [frame s'.1])
      end
  end.

(** one read after the other; a frame takes at least one byte of the read that completes it *)
Fixpoint drain_reads (d : FrameDecoder) (reads : list (list Z)) (got : list AMQFrame)
  : FrameDecoder * list AMQFrame * outcome unit :=
  match reads with
  | [] => (d, got, Ret tt)
  | r :: reads' =>
      match drain (S (length r)) (d, new_Buffer r (Z.of_nat (length r))) got with
      | ((d', _), got', Ret _) => drain_reads d' reads' got'
      | ((d', _), got', Throw e) => (d', got', Throw e)
      end
  end.

End stream.

Section props.
Context {G : Generated} {L : GeneratedLaws}.

Lemma append_spec bytes n b :
  buf_wf b -> 0 <= n ->
  exists b', append bytes n b = (b', Ret (bytes ++ take (Z.to_nat n) (rest b)))
    /\ buf_wf b' /\ rest b' = drop (Z.to_nat n) (rest b) /\ size b' = size b.
Proof.
  intros Hwf Hn. pose proof (rest_length b Hwf) as Hl.
  unfold append, mbind, M_bind, gets. case_ltb.
  { exists b. assert (Z.to_nat n = 0%nat \/ rest b = []) as [-> | ->].
    - destruct (rest b); [auto|]. simpl in Hl. left. lia.
    - by rewrite app_nil_r.
    - by rewrite take_nil, drop_nil, app_nil_r. }
  set (m := Z.min n (available b)) in *.
  assert (Hm : take (Z.to_nat n) (rest b) = take (Z.to_nat m) (rest b)
          /\ drop (Z.to_nat n) (rest b) = drop (Z.to_nat m) (rest b)).
  { destruct (Z.le_gt_cases n (available b)); [by replace m with n by lia|].
    rewrite !take_ge, !drop_ge by lia. done. }
  destruct Hm as [-> ->].
  destruct (parses_step (getRawData m) (take (Z.to_nat m) (rest b)) (take (Z.to_nat m) (rest b)) b
              (drop (Z.to_nat m) (rest b))) as (b' & E & ? & ? & ? & ?).
  - apply parses_checked_load. rewrite length_take. lia.
  - done.
  - by rewrite take_drop.
  - exists b'. by rewrite E.
Qed.

Lemma frame_bytes_length f : frame_ok f ->
  (12 <= length (frame_bytes f))%nat /\ Z.of_nat (length (frame_bytes f)) < 2 ^ 16.
Proof.
  unfold frame_ok, frame_bytes. destruct (body f) as [b|]; [|done]. intros (_ & _ & H).
  rewrite length_app, length_header_bytes. lia.
Qed.

Lemma Forall_frame_bytes f : frame_ok f -> Forall is_byte (frame_bytes f).
Proof. intros H. by destruct (emits_frame f H). Qed.

Lemma decodeSize_word x y hi lo l :
  decodeSize (x :: y :: hi :: lo :: l) = Ret (Z.lor (u16 (Z.shiftl hi 8)) lo).
Proof. reflexivity. Qed.

(** the size word is read from the third and fourth byte *)
Lemma decodeSize_spec f s q :
  frame_ok f -> frame_bytes f ++ q = s -> forall n, (4 <= n)%nat ->
  decodeSize (take n s) = Ret (Z.of_nat (length (frame_bytes f))).
Proof.
  intros Hok <- n Hn. pose proof (frame_bytes_length f Hok) as [_ Hlen]. revert Hok Hlen.
  unfold frame_ok, frame_bytes. destruct (body f) as [b|]; [|done]. intros _ Hlen.
  rewrite length_app, length_header_bytes in *.
  do 4 (destruct n as [|n]; [lia|]). cbn [header_bytes be16 take app].
  rewrite decodeSize_word, be16_value, uwrap_small by (unfold is_uint; lia). f_equal. lia.
Qed.

(** A decoder that holds a fragment and can read the size word. *)
Lemma decoder_fragment_run d b sz :
  buf_wf b -> fragment d <> [] -> rest b <> [] ->
  let s := fragment d ++ rest b in
  (4 <= length s)%nat -> (forall n, (4 <= n)%nat -> decodeSize (take n s) = Ret (Z.of_nat sz)) ->
  (4 < sz)%nat -> (length (fragment d) < sz)%nat ->
  exists b', buf_wf b' /\ rest b' = drop sz s /\ size b' = size b
    /\ decoder_decode (d, b)
       = let fr := take sz s in
         let '(d3, bf, o3) := decode_frame_from (mkDecoder fr (frame d))
                               (new_Buffer fr (u32 (Z.of_nat (length fr)))) in
         match o3 with
         | Throw e => ((d3, b'), Throw e)
         | Ret true => if available bf =? 0 then ((mkDecoder [] (frame d3), b'), Ret true)
                       else ((d3, b'), Throw AssertionFailed)
         | Ret false => ((d3, b'), Ret false)
         end.
Proof.
  intros Hwf Hf Hr s H4 Hds Hsz Hfl. pose proof (rest_length b Hwf) as Hav.
  assert (H1 : exists b1, buf_wf b1 /\ size b1 = size b
    /\ (if Z.of_nat (length (fragment d)) <? DECODE_SIZE_MIN
        then append (fragment d) (DECODE_SIZE_MIN - Z.of_nat (length (fragment d))) b
        else (b, Ret (fragment d)))
       = (b1, Ret (take (Nat.max 4 (length (fragment d))) s))
    /\ rest b1 = drop (Nat.max 4 (length (fragment d))) s).
  { unfold s, DECODE_SIZE_MIN. case_ltb.
    - destruct (append_spec (fragment d) (4 - Z.of_nat (length (fragment d))) b Hwf ltac:(lia))
        as (b1 & E & ? & Hr1 & ?). exists b1. split_and!; [done..| |].
      + rewrite E, take_app, (take_ge (fragment d)) by lia. do 4 f_equal. lia.
      + rewrite Hr1, drop_app, (drop_ge (fragment d)) by lia. simpl. f_equal. lia.
    - exists b. rewrite Nat.max_r by lia. split_and!; [done..| |].
      + by rewrite take_app_length.
      + by rewrite drop_app_length. }
  destruct H1 as (b1 & Hwf1 & Hs1 & E1 & Hr1). remember (Nat.max 4 (length (fragment d))) as m eqn:Hm.
  assert (Hml : length (take m s) = m).
  { rewrite length_take. enough (length (fragment d) <= length s)%nat by lia.
    unfold s. rewrite length_app. lia. }
  destruct (append_spec (take m s) (Z.of_nat sz - Z.of_nat m) b1 Hwf1 ltac:(lia))
    as (b2 & E2 & Hwf2 & Hr2 & Hs2).
  rewrite Hr1 in E2, Hr2. rewrite drop_drop in Hr2.
  replace (m + Z.to_nat (Z.of_nat sz - Z.of_nat m))%nat with sz in Hr2 by lia.
  replace (take m s ++ take _ (drop m s)) with (take sz s) in E2.
  2: { rewrite take_take_drop. f_equal. lia. }
  exists b2. split_and!; [done..|congruence|]. unfold decoder_decode.
  rewrite (proj2 (Z.eqb_neq _ _)) by (destruct (rest b); [done|simpl in Hav; lia]).
  destruct (fragment d) as [|x l] eqn:Efr; [done|]. rewrite E1, Hml.
  rewrite (proj2 (Z.leb_le _ _)) by (unfold DECODE_SIZE_MIN; lia).
  rewrite Hds, (proj2 (Z.leb_gt _ _)), E2 by lia. done.
Qed.

Lemma new_Buffer_wf (l : list Z) : Forall is_byte l -> Z.of_nat (length l) < 2 ^ 31 ->
  buf_wf (new_Buffer l (Z.of_nat (length l))) /\ rest (new_Buffer l (Z.of_nat (length l))) = l.
Proof. intros Hb H. split; [|done]. unfold buf_wf. simpl. split_and!; [lia..|done]. Qed.

(** The fragment and the unread bytes hold a whole frame. *)
Lemma decoder_complete f d b k :
  frame_ok f -> buf_wf b -> size b < 2 ^ 31 ->
  fragment d ++ rest b = frame_bytes f ++ k -> (length (fragment d) < length (frame_bytes f))%nat ->
  exists b', decoder_decode (d, b) = ((mkDecoder [] (with_track f), b'), Ret true)
    /\ buf_wf b' /\ rest b' = k /\ size b' = size b.
Proof.
  intros Hok Hwf Hsz Hs Hl. pose proof (frame_bytes_length f Hok) as [Hlo Hhi].
  pose proof (rest_length b Hwf) as Hav. pose proof (f_equal length Hs) as Hlen.
  rewrite !length_app in Hlen. destruct (fragment d) as [|x l] eqn:Efr.
  - destruct (decode_complete f (frame d) b k Hok Hwf Hsz Hs) as (b' & E & ? & ? & ? & ?).
    exists b'. split; [|done]. unfold decoder_decode, decode_frame_from.
    rewrite (proj2 (Z.eqb_neq _ _)), Efr, E by (simpl in Hlen; lia). done.
  - destruct (decoder_fragment_run d b (length (frame_bytes f)) Hwf) as (b' & ? & Hr' & ? & E);
      rewrite ?Efr, ?Hs.
    + done.
    + intros Hn. rewrite Hn in Hlen. simpl in *. lia.
    + rewrite length_app. lia.
    + eauto using decodeSize_spec.
    + lia.
    + done.
    + rewrite Efr, Hs in Hr', E. rewrite take_app_length in E. rewrite drop_app_length in Hr'.
      cbv zeta in E. rewrite (uwrap_small 32) in E by (unfold is_uint; lia).
      destruct (new_Buffer_wf (frame_bytes f) (Forall_frame_bytes f Hok) ltac:(lia)) as [Hwf0 Hr0].
      destruct (decode_complete f (frame d) _ [] Hok Hwf0) as (b2 & E2 & Hwf2 & Hr2 & _).
      { simpl. lia. }
      { by rewrite Hr0, app_nil_r. }
      exists b'. split; [|done]. rewrite E. unfold decode_frame_from. simpl frame. rewrite E2.
      pose proof (rest_length b2 Hwf2) as Hav2. rewrite Hr2 in Hav2. simpl in Hav2.
      by rewrite (proj2 (Z.eqb_eq _ _)) by lia.
Qed.

(** The fragment and the unread bytes end inside a frame. *)
Lemma decoder_partial f d b q :
  frame_ok f -> buf_wf b -> frame_bytes f = (fragment d ++ rest b) ++ q -> q <> [] ->
  exists f' b', decoder_decode (d, b) = ((mkDecoder (fragment d ++ rest b) f', b'), Ret false).
Proof.
  intros Hok Hwf Hs Hq. pose proof (frame_bytes_length f Hok) as [Hlo Hhi].
  pose proof (rest_length b Hwf) as Hav. pose proof (f_equal length Hs) as Hlen.
  rewrite !length_app in Hlen. assert (Hql : (0 < length q)%nat) by (destruct q; [done|simpl; lia]).
  destruct (decide (rest b = [])) as [Hr|Hr].
  { exists (frame d), b. rewrite Hr, app_nil_r in *. unfold decoder_decode.
    rewrite (proj2 (Z.eqb_eq _ _)) by (simpl in Hav; lia). by destruct d. }
  assert (Hrl : (0 < length (rest b))%nat) by (destruct (rest b); [done|simpl; lia]).
  destruct (fragment d) as [|x l] eqn:Efr.
  { destruct (decode_incomplete f (frame d) b q Hok Hwf Hs Hq) as (f' & E).
    destruct (append_spec [] (available b) b Hwf ltac:(lia)) as (b' & E' & _).
    rewrite take_ge in E' by lia. exists f', b'. unfold decoder_decode, decode_frame_from.
    rewrite (proj2 (Z.eqb_neq _ _)), Efr, E by lia. simpl fragment. by rewrite E'. }
  rewrite <- Efr in *. assert (Hne : fragment d <> []) by (by rewrite Efr).
  destruct (le_lt_dec 4 (length (fragment d ++ rest b))) as [H4|H4].
  - destruct (decoder_fragment_run d b (length (frame_bytes f)) Hwf Hne Hr H4)
      as (b' & ? & Hr' & ? & E).
    + intros n Hn. rewrite <- (decodeSize_spec f _ [] Hok eq_refl (Nat.min n (length (fragment d ++ rest b))))
        by lia.
      f_equal. by rewrite app_nil_r, Hs, <- take_take, take_app_length.
    + lia.
    + lia.
    + rewrite take_ge in E by (rewrite length_app; lia).
      cbv zeta in E. rewrite (uwrap_small 32) in E by (unfold is_uint; rewrite length_app; lia).
      pose proof (Forall_frame_bytes f Hok) as HF. rewrite Hs, Forall_app in HF. destruct HF as [HF _].
      destruct (new_Buffer_wf (fragment d ++ rest b) HF) as [Hwf0 Hr0].
      { rewrite length_app. lia. }
      destruct (decode_incomplete f (frame d) _ q Hok Hwf0 ltac:(by rewrite Hr0) Hq) as (f' & E2).
      exists f', b'. rewrite E. unfold decode_frame_from. simpl frame. by rewrite E2.
  - rewrite length_app in H4.
    destruct (append_spec (fragment d) (4 - Z.of_nat (length (fragment d))) b Hwf ltac:(lia)) as (b' & E & _).
    rewrite take_ge in E by lia. exists (frame d), b'. unfold decoder_decode.
    rewrite (proj2 (Z.eqb_neq _ _)) by lia. rewrite Efr at 1. unfold DECODE_SIZE_MIN in *.
    rewrite (proj2 (Z.ltb_lt _ _)), E by lia. rewrite length_app.
    rewrite (proj2 (Z.leb_gt _ _)) by lia. done.
Qed.

(** what the decoder still has to produce: the frames [fs], whose bytes are the fragment and
    then [q], the fragment being shorter than the first of them *)
Definition awaiting (fs : list AMQFrame) (d : FrameDecoder) (q : list Z) : Prop :=
  Forall frame_ok fs /\ fragment d ++ q = concat (map frame_bytes fs)
  /\ match fs with [] => True | f :: _ => (length (fragment d) < length (frame_bytes f))%nat end.

Lemma drain_spec fs : forall n d b q got,
  awaiting fs d (rest b ++ q) -> buf_wf b -> size b < 2 ^ 31 -> (length (rest b) < n)%nat ->
  exists fs1 fs2 d' b', fs = fs1 ++ fs2 /\ awaiting fs2 d' q
    /\ drain n (d, b) got = ((d', b'), got ++ map with_track fs1, Ret tt).
Proof.
  induction fs as [|f fs IH]; intros n d b q got (Hok & Hs & Hl) Hwf Hsz Hn;
    (destruct n as [|n]; [lia|]).
  { apply app_nil in Hs as [Hf Hs]. apply app_nil in Hs as [Hr ->].
    exists [], [], d, b. split; [done|]. split; [unfold awaiting; by rewrite Hf|].
    simpl. rewrite <- rest_length, Hr, app_nil_r by done. done. }
  pose proof Hok as Hok'. apply Forall_cons in Hok' as [Hokf Hok']. simpl in Hs.
  rewrite app_assoc in Hs.
  destruct (le_lt_dec (length (frame_bytes f)) (length (fragment d ++ rest b))) as [Hle|Hlt].
  - pose proof (f_equal (take (length (frame_bytes f))) Hs) as Ht.
    pose proof (f_equal (drop (length (frame_bytes f))) Hs) as Hd.
    rewrite take_app_le, take_app_length in Ht by done. rewrite drop_app_le, drop_app_length in Hd by done.
    pose proof (take_drop (length (frame_bytes f)) (fragment d ++ rest b)) as Htd. rewrite Ht in Htd.
    set (k := drop _ (fragment d ++ rest b)) in *.
    destruct (decoder_complete f d b k Hokf Hwf Hsz (eq_sym Htd) Hl) as (b' & E & Hwf' & Hr' & Hs').
    pose proof (f_equal length Htd) as Hlen. rewrite !length_app in Hlen.
    destruct (IH n (mkDecoder [] (with_track f)) b' q (got ++ [with_track f]))
      as (fs1 & fs2 & d' & b'' & -> & Haw & E'); [| |lia|rewrite Hr'; lia|].
    + rewrite Hr'. split_and!; [done..|]. destruct fs as [|g fs]; [done|].
      apply Forall_cons in Hok' as [Hg _]. simpl. destruct (frame_bytes_length g Hg). lia.
    + done.
    + exists (f :: fs1), fs2, d', b''. split; [done|]. split; [done|].
      cbn [drain]. rewrite E. cbn [frame fst]. rewrite E', <- app_assoc. done.
  - pose proof (f_equal (take (length (fragment d ++ rest b))) Hs) as Ht.
    rewrite take_app_length, take_app_le in Ht by lia.
    pose proof (take_drop (length (fragment d ++ rest b)) (frame_bytes f)) as Htd.
    rewrite <- Ht in Htd.
    destruct (decoder_partial f d b _ Hokf Hwf (eq_sym Htd)) as (f' & b' & E).
    { intros Hq. apply (f_equal length) in Hq. rewrite length_drop in Hq. simpl in Hq. lia. }
    exists [], (f :: fs), (mkDecoder (fragment d ++ rest b) f'), b'. split; [done|].
    split; [|cbn [drain map]; by rewrite E, app_nil_r].
    unfold awaiting. simpl. by rewrite <- app_assoc in Hs |- *.
Qed.

Lemma drain_reads_spec reads : forall fs d got,
  awaiting fs d (concat reads) -> Forall (fun r => Z.of_nat (length r) < 2 ^ 31) reads ->
  exists d', fragment d' = [] /\ drain_reads d reads got = (d', got ++ map with_track fs, Ret tt).
Proof.
  induction reads as [|r reads IH]; cbn [drain_reads concat]; intros fs d got Haw Hr.
  - destruct Haw as (Hok & Hs & Hl). destruct fs as [|f fs].
    + exists d. rewrite app_nil_r in *. done.
    + simpl in Hs. apply (f_equal length) in Hs. rewrite !length_app in Hs. simpl in Hs. lia.
  - apply Forall_cons in Hr as [Hr Hrs].
    assert (Hb : Forall is_byte r).
    { destruct Haw as (Hok & Hs & _).
      assert (HF : Forall is_byte (concat (map frame_bytes fs))).
      { apply Forall_concat, Forall_fmap. eapply Forall_impl; [done|]. apply Forall_frame_bytes. }
      rewrite <- Hs, !Forall_app in HF. tauto. }
    destruct (new_Buffer_wf r Hb Hr) as [Hwf Hrest].
    destruct (drain_spec fs (S (length r)) d (new_Buffer r (Z.of_nat (length r))) (concat reads) got) as (fs1 & fs2 & d' & b' & -> & Haw' & E);
      [by rewrite Hrest|done|simpl; lia|rewrite Hrest; lia|].
    rewrite E. destruct (IH fs2 d' (got ++ map with_track fs1) Haw' Hrs) as (d'' & ? & E').
    exists d''. split; [done|]. rewrite E', map_app, app_assoc. done.
Qed.

(** frames encoded one after the other *)
Fixpoint encode_all (fs : list AMQFrame) : M Buffer unit :=
  match fs with
  | [] => mret tt
  | f :: fs' => encode f ;; encode_all fs'
  end.

Lemma emits_encode_all fs : Forall frame_ok fs -> emits (encode_all fs) (concat (map frame_bytes fs)).
Proof.
  induction 1 as [|f fs Hf _ IH]; simpl; [apply emits_nil|].
  apply emits_bind; [by apply emits_frame|done].
Qed.

(** the bytes an encoder wrote *)
Definition written (b : Buffer) : list Z := take (Z.to_nat (position b)) (data b).

Lemma emits_written m bs b b' :
  emits m bs -> buf_wf b -> position b = 0 -> m b = (b', Ret tt) -> written b' = bs.
Proof.
  intros [_ H] Hwf H0 E. destruct (H b Hwf) as [Hin Hout].
  destruct (Z.le_gt_cases (Z.of_nat (length bs)) (size b - position b)) as [Hle|Hgt].
  - rewrite (Hin Hle) in E. simplify_eq. unfold written, write. simpl. rewrite H0. simpl.
    by rewrite take_app_length' by lia.
  - destruct (Hout ltac:(lia)) as (b'' & E' & _). congruence.
Qed.

(** C14: reassembly does not depend on the cut.  The bytes an encoder wrote for
    any list of frames, delivered to a new [FrameDecoder] in any reads at all
    (empty ones, reads that split a header or the size word, reads holding many frames),
    come out as exactly those frames in order, with no exception and no byte
    left over. *)
Theorem reads_reassemble fs reads b0 b d :
  Forall frame_ok fs -> buf_wf b0 -> position b0 = 0 -> encode_all fs b0 = (b, Ret tt) ->
  concat reads = written b -> Forall (fun r => Z.of_nat (length r) < 2 ^ 31) reads ->
  fragment d = [] ->
  exists d', fragment d' = [] /\ drain_reads d reads [] = (d', map with_track fs, Ret tt).
Proof.
  intros Hok Hwf H0 E Hc Hr Hd.
  apply (drain_reads_spec reads fs d []); [|done]. unfold awaiting. rewrite Hd, Hc.
  rewrite (emits_written _ _ _ _ (emits_encode_all fs Hok) Hwf H0 E). split_and!; [done..|].
  destruct fs as [|f fs]; [done|]. apply Forall_cons in Hok as [Hf _].
  destruct (frame_bytes_length f Hf). simpl. lia.
Qed.

(** C34: frame round trip.  A frame that fits is encoded without an exception,
    and decoding the bytes written gives the frame back (its track set from
    the body's type), with the read position where the writer stopped. *)
Theorem frame_roundtrip f f0 b :
  frame_ok f -> buf_wf b -> size b < 2 ^ 31 -> encodedSize f <= size b - position b ->
  exists b1 b2, encode f b = (b1, Ret tt)
    /\ decode (f0, setPosition (position b) b1) = ((with_track f, b2), Ret true)
    /\ position b2 = position b1 /\ position b1 = position b + encodedSize f.
Proof.
  intros Hok Hwf Hsz Hfit. destruct (emits_frame f Hok) as [Hb He].
  assert (Hlen : encodedSize f = Z.of_nat (length (frame_bytes f))).
  { pose proof Hok as Hok'. unfold frame_ok in Hok'. unfold frame_bytes.
    destruct (body f) as [bd|] eqn:Hbd; [|done]. rewrite (encodedSize_spec f bd Hbd Hok).
    rewrite length_app, length_header_bytes. lia. }
  destruct (He b Hwf) as [E _]. rewrite E by lia. rewrite Hlen in *.
  pose proof (write_back_wf b (frame_bytes f) Hwf Hb Hfit) as Hwf1.
  pose proof (rest_write_reset b (frame_bytes f) Hwf Hfit) as Hk.
  destruct (decode_complete f f0 _ _ Hok Hwf1 Hsz Hk) as (b2 & E2 & Hwf2 & Hr2 & Hs2 & _).
  eexists _, b2. split; [done|]. split; [done|]. split; [|done].
  pose proof (rest_length b2 Hwf2) as Hl2. rewrite available_wf, Hr2, length_drop in Hl2 by done.
  destruct Hwf as (?&?&?&?). simpl in *. lia.
Qed.

End props.

(**  protocol header round trip.  Whatever was in the version decoded into
    before, an encoded version 1 header decodes to the version it was encoded
    from, and any other one to its major and minor numbers with the legacy
    protocol id; only a version 1 header that announces the legacy protocol id
    comes back as something else, the version [minor.0]. *)
Theorem initiation_roundtrip v v0 b :
  version_ok v -> buf_wf b -> 8 <= size b - position b ->
  exists b1 b2, initiation_encode v b = (b1, Ret tt)
    /\ initiation_decode (v0, setPosition (position b) b1)
       = ((if major_ v =? 1
           then if protocol_ v =? 1 then mkVersion (minor_ v) 0 1 else v
           else mkVersion (major_ v) (minor_ v) 1, b2), Ret true).
Proof.
  intros Hv Hwf Hroom. destruct (emits_initiation v Hv) as [Hb He].
  assert (Hl : length (initiation_bytes v) = 8%nat) by (unfold initiation_bytes; by case_ltb).
  exists (write b (initiation_bytes v)). destruct (He b Hwf) as [-> _]; [|lia].
  pose proof (write_back_wf b (initiation_bytes v) Hwf Hb ltac:(lia)) as Hwf2.
  pose proof (rest_write_reset b (initiation_bytes v) Hwf ltac:(lia)) as Hk.
  unfold initiation_bytes in Hk at 2. destruct (Z.eqb_spec (major_ v) 1) as [Hm|Hm].
  - destruct (initiation_decode_spec v0 _ _ _ _ _ _ _ _ _ _ Hwf2 Hk) as (b2 & _ & _ & ->).
    exists b2. split; [done|]. destruct v as [mj mn pr]. simpl in *. subst. by destruct (Z.eqb_spec pr 1) as [-> |].
  - destruct (initiation_decode_spec v0 _ _ _ _ _ _ _ _ _ _ Hwf2 Hk) as (b2 & _ & _ & ->).
    by exists b2.
Qed.

Lemma initiation_roundtrip_witness :
  exists b1 b2, initiation_encode (mkVersion 0 10 0) (new_Buffer (replicate 8 0) 8) = (b1, Ret tt)
    /\ initiation_decode (mkVersion 0 0 0, setPosition 0 b1)
       = ((mkVersion 0 10 1, b2), Ret true).
Proof.
  apply (initiation_roundtrip (mkVersion 0 10 0) (mkVersion 0 0 0) (new_Buffer (replicate 8 0) 8)).
  - by apply (bool_decide_unpack _).
  - unfold buf_wf. simpl. split_and!; [done..|].
    repeat (constructor; [unfold is_byte, is_uint; lia|]). constructor.
  - done.
Defined.

(** ** An instance of the generated code

    One-octet methods and property structs, with the wire layout the
    generated ones have. *)
Module Toy.

Definition toy_props (ty : Z) : PropStruct Z := {|
  prop_TYPE := ty;
  prop_default := 0;
  prop_encodedSize := fun _ => 7;
  prop_encode := fun v => putLong 3 ;; putShort ty ;; putOctet v;
  prop_decodeStructBody := fun _ _ => getOctet;
|}.

#[global] Instance toy : Generated := {|
  Method := Z * Z * Z;
  amqpClassId := fun m => m.1.1;
  amqpMethodId := fun m => m.1.2;
  method_type := fun _ => 1;
  method_encodedSize := fun _ => 1;
  method_encode := fun m => putOctet m.2;
  method_create := fun c i => if 9 <? c then Throw Exception else Ret (c, i, 0);
  method_decode := fun m _ => x ← getOctet; mret (m.1, x);
  DeliveryProperties := Z; delivery_props := toy_props 1025;
  MessageProperties := Z; message_props := toy_props 1027;
|}.

Definition toy_prop_laws ty : is_uint 16 ty -> @PropLaws Z (toy_props ty).
Proof.
  intros Hty. refine {| prop_ok := is_byte : Z -> Prop; prop_len := fun _ => 3; prop_body := fun v => [v] |}.
  - exact Hty.
  - intros v _. by apply (bool_decide_unpack _).
  - intros v Hv. apply emits_bind; [apply emits_putLong|]. apply emits_bind; [apply emits_putShort|].
    by apply emits_last.
  - done.
  - intros v _. apply parses_getOctet.
Defined.

#[global] Instance toy_laws : GeneratedLaws.
Proof.
  refine {| method_ok := fun m => 0 <= m.1.1 <= 9 /\ is_byte m.1.2 /\ is_byte m.2;
            method_bytes := fun m : Method => [m.2] |}.
  - intros m _. by right.
  - intros [[c i] x] (Hc & Hi & _). simpl in *. split; [unfold is_uint; lia|done].
  - intros m (_ & _ & Hx). by apply emits_last.
  - done.
  - intros [[c i] x] (Hc & Hi & Hx). exists (c, i, 0). simpl in *. split.
    + by rewrite (proj2 (Z.ltb_ge _ _)) by lia.
    + intros _. apply (parses_map _ (fun y => (c, i, y))), parses_getOctet.
  - by apply toy_prop_laws, (bool_decide_unpack _).
  - by apply toy_prop_laws, (bool_decide_unpack _).
  - done.
Defined.

Definition frames : list AMQFrame :=
  [ mkFrame (Some (MethodBody (4, 1, 7))) 3 0 true false true true;
    mkFrame (Some (HeaderBody (mkProperties (Some 200) (Some 5)))) 3 0 false false true true;
    mkFrame (Some (ContentBody [104; 105])) 3 0 false true true true ].

Lemma frames_ok : Forall frame_ok frames.
Proof.
  repeat constructor; unfold is_byte, is_uint; simpl; unfold is_byte, is_uint; lia.
Qed.

Definition buffer : Buffer := new_Buffer (replicate 64 0) 64.

Lemma buffer_wf : buf_wf buffer.
Proof.
  unfold buf_wf. split_and!; [done..|]. apply Forall_replicate. unfold is_byte, is_uint. lia.
Qed.

(** the encoded frames, read one octet at a time *)
Definition reads : list (list Z) := map (fun x => [x]) (written (encode_all frames buffer).1).

End Toy.

Lemma reads_reassemble_witness :
  exists d', fragment d' = []
    /\ drain_reads (mkDecoder [] (new_frame None)) Toy.reads [] = (d', map with_track Toy.frames, Ret tt).
Proof.
  apply (reads_reassemble Toy.frames Toy.reads Toy.buffer (encode_all Toy.frames Toy.buffer).1).
  - apply Toy.frames_ok.
  - apply Toy.buffer_wf.
  - done.
  - vm_compute. done.
  - vm_compute. done.
  - unfold Toy.reads. apply Forall_fmap, Forall_true. intros x. simpl. lia.
  - done.
Defined.

Lemma frame_roundtrip_witness :
  let f := mkFrame (Some (HeaderBody (mkProperties (Some 200) (Some 5)))) 3 0 false false true true in
  exists b1 b2, encode f Toy.buffer = (b1, Ret tt)
    /\ decode (new_frame None, setPosition 0 b1) = ((with_track f, b2), Ret true)
    /\ position b2 = position b1 /\ position b1 = 0 + encodedSize f.
Proof.
  intros f. apply (frame_roundtrip f (new_frame None) Toy.buffer).
  - pose proof Toy.frames_ok as H. by do 2 apply Forall_cons in H as [? H].
  - apply Toy.buffer_wf.
  - done.
  - vm_compute. done.
Defined.
