(* ===== verification/SessionState.v ===== *)
(** * Session state (src/qpid/SessionState.h, SessionState.cpp)

    The idempotence barrier and replay buffer of an AMQP 0-10 session, used by
    both peers.  The sender keeps the frames from [replayPoint] on until the
    peer confirms them, the receiver keeps the point it expects and the
    high-water mark it has received.  Every member function is an operation of
    the state-and-exception monad; an [assert] is a guard that throws
    [AssertionFailed], and the theorems show that it does not.

    The invariant of the sender is that its replay list leads from
    [replayPoint] over [flushPoint] to [sendPoint] and that the two byte counts
    are those of the list; the main theorem is that after a resume the receiver
    accepts exactly the frames it had not received. *)

From S2P Require Import Prelude SequenceNumber RangeSet Buffer SequenceSet Frame FrameStream.
Local Open Scope Z_scope.

Module SessionState.

Section ops.
Context {G : Generated}.

(** [framing::SegmentType] of the protocol *)
Definition SEGMENT_TYPE_CONTROL : Z := 0.
Definition SEGMENT_TYPE_COMMAND : Z := 1.

Definition isControl (f : AMQFrame) : bool :=
  match getMethod f with Some m => method_type m =? SEGMENT_TYPE_CONTROL | None => false end.
Definition isCommand (f : AMQFrame) : bool :=
  match getMethod f with Some m => method_type m =? SEGMENT_TYPE_COMMAND | None => false end.

(** ** SessionPoint *)

Record SessionPoint := mkPoint { command : SequenceNumber.t; offset : Z }.

Definition advance (p : SessionPoint) (f : AMQFrame) : outcome SessionPoint :=
  if isControl f then Ret p
  else if isFirstSegment f && isFirstFrame f then
    if negb (offset p =? 0) then Throw FramingErrorException
    else if negb (isCommand f) then Throw FramingErrorException
    else if isLastSegment f && isLastFrame f
    then Ret (mkPoint (SequenceNumber.incr (command p)) (offset p))
    else Ret (mkPoint (command p) (u64 (offset p + encodedSize f)))
  else
    if offset p =? 0 then Throw FramingErrorException
    else if isLastSegment f && isLastFrame f
    then Ret (mkPoint (SequenceNumber.incr (command p)) 0)
    else Ret (mkPoint (command p) (u64 (offset p + encodedSize f))).

Definition point_lt (p x : SessionPoint) : bool :=
  SequenceNumber.ltb (command p) (command x)
  || (SequenceNumber.eqb (command p) (command x) && (offset p <? offset x)).
Definition point_eq (p x : SessionPoint) : bool :=
  SequenceNumber.eqb (command p) (command x) && (offset p =? offset x).
(** [boost::totally_ordered1] *)
Definition point_gt (p x : SessionPoint) : bool := point_lt x p.
Definition point_le (p x : SessionPoint) : bool := negb (point_lt x p).

(** ** State *)

Record Configuration := mkConfig { replayFlushLimit : Z; replayHardLimit : Z }.

Record SendState := mkSend {
  replayPoint : SessionPoint;
  flushPoint : SessionPoint;
  sendPoint : SessionPoint;
  replayList : list AMQFrame;
  unflushedSize : Z;
  replaySize : Z;
  s_incomplete : SequenceSet.t;
  s_bytesSinceKnownCompleted : Z;
}.

Record ReceiveState := mkReceive {
  expected : SessionPoint;
  received : SessionPoint;
  unknownCompleted : SequenceSet.t;
  r_incomplete : SequenceSet.t;
  r_bytesSinceKnownCompleted : Z;
}.

Record SessionState := mkState {
  sender : SendState;
  receiver : ReceiveState;
  timeout : Z;
  config : Configuration;
  stateful : bool;
  receiverTrackingDisabled : bool;
}.

Definition point0 : SessionPoint := mkPoint (SequenceNumber.mk 0) 0.

(** the constructors *)
Definition new_SessionState (c : Configuration) : SessionState :=
  mkState (mkSend point0 point0 point0 [] 0 0 [] 0) (mkReceive point0 point0 [] [] 0) 0 c false false.

Abbreviation Op := (M SessionState).

Definition on_sender (f : SendState -> SendState) : Op unit := modify (fun s =>
  mkState (f (sender s)) (receiver s) (timeout s) (config s) (stateful s) (receiverTrackingDisabled s)).
Definition on_receiver (f : ReceiveState -> ReceiveState) : Op unit := modify (fun s =>
  mkState (sender s) (f (receiver s)) (timeout s) (config s) (stateful s) (receiverTrackingDisabled s)).
Definition set_stateful : Op unit := modify (fun s =>
  mkState (sender s) (receiver s) (timeout s) (config s) true (receiverTrackingDisabled s)).
Definition setTracking (disabled : bool) : Op unit := modify (fun s =>
  mkState (sender s) (receiver s) (timeout s) (config s) (stateful s) disabled).
Definition setTimeout (seconds : Z) : Op unit := modify (fun s =>
  mkState (sender s) (receiver s) seconds (config s) (stateful s) (receiverTrackingDisabled s)).
Definition disableReceiverTracking : Op unit := setTracking true.
Definition enableReceiverTracking : Op unit := setTracking false.
Definition hasState (s : SessionState) : bool := stateful s.

Definition cassert (b : bool) : Op unit := guard_throw (negb b) AssertionFailed.

(** ** Sender *)

(** [senderExpected]: the loop and the frames from its iterator on *)
Fixpoint expected_loop (expect p : SessionPoint) (l : list AMQFrame)
  : outcome (SessionPoint * list AMQFrame) :=
  match l with
  | [] => Ret (p, [])
  | f :: l' =>
      if SequenceNumber.ltb (command p) (command expect) then
        match advance p f with
        | Ret p' => expected_loop expect p' l'
        | Throw e => Throw e
        end
      else Ret (p, l)
  end.

Definition senderExpected (expect : SessionPoint) : Op (list AMQFrame) :=
  s ← gets sender;
  if point_lt expect (replayPoint s) || point_lt (sendPoint s) expect
  then throw InvalidArgumentException
  else
    '(p, replay) ← lift_outcome (expected_loop expect (replayPoint s) (replayList s));
    cassert (SequenceNumber.eqb (command p) (command expect)) ;;
    mret replay.

Definition senderRecord (f : AMQFrame) : Op unit :=
  if isControl f then mret tt
  else
    set_stateful ;;
    t ← gets timeout;
    on_sender (fun n => mkSend (replayPoint n) (flushPoint n) (sendPoint n)
      (if negb (t =? 0) then replayList n ++ [f] else replayList n)
      (u64 (unflushedSize n + encodedSize f))
      (u64 (replaySize n + encodedSize f))
      (SequenceSet.add1 (s_incomplete n) (command (sendPoint n)))
      (u64 (s_bytesSinceKnownCompleted n + encodedSize f))) ;;
    n ← gets sender;
    p ← lift_outcome (advance (sendPoint n) f);
    on_sender (fun n => mkSend (replayPoint n) (flushPoint n) p (replayList n)
      (unflushedSize n) (replaySize n) (s_incomplete n) (s_bytesSinceKnownCompleted n)) ;;
    c ← gets config;
    n' ← gets sender;
    guard_throw (negb (replayHardLimit c =? 0) && (replayHardLimit c <? replaySize n'))
      ResourceLimitExceededException.

Definition SPONTANEOUS_REQUEST_INTERVAL : Z := 65536.

Definition senderNeedFlush (s : SessionState) : bool :=
  (command (sendPoint (sender s)) mod SPONTANEOUS_REQUEST_INTERVAL =? 0)
  || (negb (replayFlushLimit (config s) =? 0)
      && (replayFlushLimit (config s) <=? unflushedSize (sender s))).

Definition senderRecordFlush : Op unit := on_sender (fun n =>
  mkSend (replayPoint n) (sendPoint n) (sendPoint n) (replayList n) 0
         (replaySize n) (s_incomplete n) (s_bytesSinceKnownCompleted n)).

Definition senderNeedKnownCompleted (s : SessionState) : bool :=
  negb (replayFlushLimit (config s) =? 0)
  && (replayFlushLimit (config s) <=? s_bytesSinceKnownCompleted (sender s)).

Definition senderRecordKnownCompleted : Op unit := on_sender (fun n =>
  mkSend (replayPoint n) (flushPoint n) (sendPoint n) (replayList n) (unflushedSize n)
         (replaySize n) (s_incomplete n) 0).

(** one pass of the [while] of [senderConfirmed] *)
Definition confirm_step (f : AMQFrame) : Op unit :=
  n ← gets sender;
  p ← lift_outcome (advance (replayPoint n) f);
  on_sender (fun n => mkSend p (flushPoint n) (sendPoint n) (replayList n) (unflushedSize n)
    (replaySize n) (s_incomplete n) (s_bytesSinceKnownCompleted n)) ;;
  cassert (point_le p (sendPoint n)) ;;
  on_sender (fun n => mkSend (replayPoint n) (flushPoint n) (sendPoint n) (replayList n)
    (if point_gt (replayPoint n) (flushPoint n) then u64 (unflushedSize n - encodedSize f)
     else unflushedSize n)
    (u64 (replaySize n - encodedSize f)) (s_incomplete n) (s_bytesSinceKnownCompleted n)).

Fixpoint confirm_loop (confirmed : SessionPoint) (l : list AMQFrame) : Op (list AMQFrame) :=
  match l with
  | [] => mret []
  | f :: l' =>
      n ← gets sender;
      if SequenceNumber.ltb (command (replayPoint n)) (command confirmed)
      then confirm_step f ;; confirm_loop confirmed l'
      else mret l
  end.

Definition senderConfirmed (confirmed : SessionPoint) : Op unit :=
  n ← gets sender;
  if point_gt confirmed (sendPoint n) then throw InvalidArgumentException
  else
    rest ← confirm_loop confirmed (replayList n);
    on_sender (fun n => mkSend (replayPoint n)
      (if point_gt (replayPoint n) (flushPoint n) then replayPoint n else flushPoint n)
      (sendPoint n) rest (unflushedSize n) (replaySize n) (s_incomplete n)
      (s_bytesSinceKnownCompleted n)) ;;
    n' ← gets sender;
    cassert (offset (replayPoint n') =? 0).

Definition senderCompleted (commands : SequenceSet.t) : Op unit :=
  match commands with
  | [] => mret tt
  | r :: _ =>
      on_sender (fun n => mkSend (replayPoint n) (flushPoint n) (sendPoint n) (replayList n)
        (unflushedSize n) (replaySize n) (SequenceSet.removeAll (s_incomplete n) commands)
        (s_bytesSinceKnownCompleted n)) ;;
      senderConfirmed (mkPoint (end_ r) 0)
  end.

(** ** Receiver *)

Definition receiverSetCommandPoint (point : SessionPoint) : Op unit :=
  s ← get;
  if hasState s && point_gt point (received (receiver s)) then throw InvalidArgumentException
  else on_receiver (fun r => mkReceive point
         (if point_gt point (received r) then point else received r)
         (unknownCompleted r) (r_incomplete r) (r_bytesSinceKnownCompleted r)).

Definition receiverGetCurrent (r : ReceiveState) : SequenceNumber.t :=
  if offset (expected r) =? 0 then SequenceNumber.decr (command (expected r))
  else command (expected r).

Definition receiverRecord (f : AMQFrame) : Op bool :=
  s ← get;
  if receiverTrackingDisabled s then mret true
  else if isControl f then mret true
  else
    set_stateful ;;
    r ← gets receiver;
    p ← lift_outcome (advance (expected r) f);
    on_receiver (fun r => mkReceive p (received r) (unknownCompleted r) (r_incomplete r)
      (u64 (r_bytesSinceKnownCompleted r + encodedSize f))) ;;
    r' ← gets receiver;
    let firstTime := point_gt (expected r') (received r') in
    (if firstTime then
       on_receiver (fun r => mkReceive (expected r) (expected r) (unknownCompleted r)
         (SequenceSet.add1 (r_incomplete r) (receiverGetCurrent r)) (r_bytesSinceKnownCompleted r))
     else mret tt) ;;
    mret firstTime.

(** [front()] of an empty set reads an element that is not there *)
Definition receiverCompleted (command : SequenceNumber.t) (cumulative : bool) : Op unit :=
  s ← get;
  if receiverTrackingDisabled s then mret tt
  else
    let r := receiver s in
    cassert (SequenceSet.contains (r_incomplete r) command) ;;
    match (if cumulative then front (r_incomplete r) else Some command) with
    | None => throw UndefinedBehaviour
    | Some first =>
        on_receiver (fun r => mkReceive (expected r) (received r)
          (SequenceSet.add (unknownCompleted r) first command)
          (SequenceSet.remove (r_incomplete r) first command) (r_bytesSinceKnownCompleted r))
    end.

Definition receiverKnownCompleted (commands : SequenceSet.t) : Op unit :=
  r ← gets receiver;
  if match back commands with
     | Some b => SequenceNumber.gtb b (command (received r))
     | None => false
     end
  then throw InvalidArgumentException
  else on_receiver (fun r => mkReceive (expected r) (received r)
         (SequenceSet.removeAll (unknownCompleted r) commands) (r_incomplete r) 0).

Definition receiverNeedKnownCompleted (s : SessionState) : bool :=
  (command (expected (receiver s)) mod SPONTANEOUS_REQUEST_INTERVAL =? 0)
  || (negb (replayFlushLimit (config s) =? 0)
      && (replayFlushLimit (config s) <=? r_bytesSinceKnownCompleted (receiver s))).

Definition setState (replayStart sendCommandPoint : SequenceNumber.t) (sentIncomplete : SequenceSet.t)
    (expected_ received_ : SequenceNumber.t) (unknown receivedIncomplete : SequenceSet.t) : Op unit :=
  on_sender (fun n => mkSend (mkPoint replayStart 0) (mkPoint sendCommandPoint 0)
    (mkPoint sendCommandPoint 0) (replayList n) 0 0 sentIncomplete 0) ;;
  on_receiver (fun _ => mkReceive (mkPoint expected_ 0) (mkPoint received_ 0) unknown
    receivedIncomplete 0).

End ops.

(** ** Points along a run of frames *)

Section props.
Context {G : Generated}.

Fixpoint frames_size (l : list AMQFrame) : Z :=
  match l with [] => 0 | f :: l' => encodedSize f + frames_size l' end.

(** the frames [l], none of them a control, lead from [p] to [q] *)
Inductive run : SessionPoint -> list AMQFrame -> SessionPoint -> Prop :=
| run_nil p : run p [] p
| run_cons p f l p' q :
    isControl f = false -> 0 < encodedSize f -> advance p f = Ret p' -> run p' l q ->
    run p (f :: l) q.

(** [p] is in the window of [base] and stays in range for [n] commands and [z] bytes *)
Definition pt_ok (base : SequenceNumber.t) (n : nat) (z : Z) (p : SessionPoint) : Prop :=
  SequenceNumber.wf (command p) /\ SequenceNumber.off base (command p) + Z.of_nat n < 2 ^ 31
  /\ 0 <= offset p /\ offset p + z < 2 ^ 64.

Definition plt (base : SequenceNumber.t) (p q : SessionPoint) : Prop :=
  SequenceNumber.off base (command p) < SequenceNumber.off base (command q)
  \/ SequenceNumber.off base (command p) = SequenceNumber.off base (command q) /\ offset p < offset q.

Lemma plt_irrefl base p : ~ plt base p p.
Proof. unfold plt. lia. Qed.

Lemma plt_trans base p q r : plt base p q -> plt base q r -> plt base p r.
Proof. unfold plt. lia. Qed.

Lemma pt_ok_window base n z p : pt_ok base n z p -> SequenceNumber.in_window base (command p).
Proof. intros (? & ? & _). split; [done|lia]. Qed.

Lemma point_lt_spec base p q :
  SequenceNumber.in_window base (command p) -> SequenceNumber.in_window base (command q) ->
  point_lt p q = true <-> plt base p q.
Proof.
  intros Hp Hq. unfold point_lt, plt.
  rewrite (SequenceNumber.window_lt base), (SequenceNumber.window_eq base) by done.
  rewrite orb_true_iff, andb_true_iff, !Z.ltb_lt, Z.eqb_eq. tauto.
Qed.

Lemma point_lt_false base p q :
  SequenceNumber.in_window base (command p) -> SequenceNumber.in_window base (command q) ->
  p = q \/ plt base q p -> point_lt p q = false.
Proof.
  intros Hp Hq Hle. apply not_true_iff_false. rewrite (point_lt_spec base) by done.
  destruct Hle as [-> |]; [apply plt_irrefl|]. intros ?. by apply (plt_irrefl base p), (plt_trans _ _ q).
Qed.

Lemma frames_size_nonneg p l q : run p l q -> 0 <= frames_size l.
Proof. induction 1; simpl; lia. Qed.

Lemma frames_size_app l1 l2 : frames_size (l1 ++ l2) = frames_size l1 + frames_size l2.
Proof. induction l1 as [|f l1 IH]; simpl; lia. Qed.

(** what one frame does to a point *)
Lemma advance_shape p f p' :
  isControl f = false -> advance p f = Ret p' ->
  p' = mkPoint (SequenceNumber.incr (command p)) 0
  \/ p' = mkPoint (command p) (u64 (offset p + encodedSize f)).
Proof.
  intros Hc. unfold advance. rewrite Hc.
  destruct (isFirstSegment f && isFirstFrame f).
  - destruct (Z.eqb_spec (offset p) 0) as [E|]; simpl; [|done]. destruct (isCommand f); [|done]. simpl.
    destruct (isLastSegment f && isLastFrame f); intros [= <-]; [left; by rewrite E|by right].
  - destruct (Z.eqb_spec (offset p) 0); [done|].
    destruct (isLastSegment f && isLastFrame f); intros [= <-]; [by left|by right].
Qed.

Lemma advance_ok base n z p f p' :
  isControl f = false -> 0 < encodedSize f -> 0 <= z -> advance p f = Ret p' ->
  pt_ok base (S n) (encodedSize f + z) p -> pt_ok base n z p' /\ plt base p p'.
Proof.
  intros Hc Hf Hz Ha Hp. pose proof (pt_ok_window _ _ _ _ Hp) as Hw. destruct Hp as (Hwf & Hoff & Ho & Hz').
  destruct (advance_shape p f p' Hc Ha) as [-> | ->]; unfold pt_ok, plt; simpl.
  - rewrite SequenceNumber.window_incr by done. split_and!; try lia. apply SequenceNumber.incr_wf.
  - rewrite uwrap_small by (unfold is_uint; lia). split_and!; lia || done.
Qed.

Lemma run_ok base p l q :
  run p l q -> pt_ok base (length l) (frames_size l) p ->
  pt_ok base 0 0 q /\ (p = q /\ l = [] \/ plt base p q).
Proof.
  induction 1 as [p|p f l p' q Hc Hf Ha Hr IH]; intros Hp; [auto|].
  pose proof (frames_size_nonneg _ _ _ Hr) as Hz.
  destruct (advance_ok base _ _ _ _ _ Hc Hf Hz Ha Hp) as [Hp' Hlt].
  destruct (IH Hp') as [Hq [[-> _]|Hlt']]; split; auto. right. by apply (plt_trans _ _ p').
Qed.

Lemma run_app p l1 l2 q : run p (l1 ++ l2) q <-> exists m, run p l1 m /\ run m l2 q.
Proof.
  split.
  - revert p. induction l1 as [|f l1 IH]; simpl; intros p H; [exists p; by split; [constructor|]|].
    inversion H as [|? ? ? p' ? Hc Hf Ha Hr]; subst. destruct (IH p' Hr) as (m & ? & ?).
    exists m. split; [by econstructor|done].
  - intros (m & H1 & H2). induction H1; simpl; [done|]. econstructor; eauto.
Qed.

Lemma run_det p l q q' : run p l q -> run p l q' -> q = q'.
Proof.
  intros H. revert q'. induction H as [p|p f l p' q Hc Hf Ha Hr IH]; intros q' H'; inversion H'; subst; [done|].
  apply IH. congruence.
Qed.

Lemma run_nil_inv p q : run p [] q -> p = q.
Proof. by inversion 1. Qed.

Lemma pt_ok_weaken base n z n' z' p :
  pt_ok base n z p -> (n' <= n)%nat -> z' <= z -> pt_ok base n' z' p.
Proof. intros (? & ? & ? & ?) ? ?. unfold pt_ok. split_and!; done || lia. Qed.

Lemma pt_ok_app base p l1 l2 m :
  pt_ok base (length (l1 ++ l2)) (frames_size (l1 ++ l2)) p -> run p l1 m -> 0 <= frames_size l2 ->
  pt_ok base (length l2) (frames_size l2) m.
Proof.
  intros Hp Hr Hz. revert Hp. induction Hr as [p|p f l p' q Hc Hf Ha Hr IH]; [done|].
  simpl. intros Hp. apply IH. pose proof (frames_size_nonneg _ _ _ Hr). rewrite frames_size_app in *.
  refine (proj1 (advance_ok base _ _ _ _ _ Hc Hf _ Ha Hp)). lia.
Qed.

(** a point on the way is not before the start *)
Lemma run_not_before base p l1 l2 m q :
  pt_ok base (length (l1 ++ l2)) (frames_size (l1 ++ l2)) p ->
  run p (l1 ++ l2) q -> run p l1 m -> point_lt m p = false.
Proof.
  intros Hok Hr H1. apply run_app in Hr as (m' & _ & H2). pose proof (frames_size_nonneg _ _ _ H2).
  pose proof (pt_ok_window _ _ _ _ Hok) as Wp.
  assert (Hok1 : pt_ok base (length l1) (frames_size l1) p).
  { eapply pt_ok_weaken; [exact Hok|rewrite length_app; lia|rewrite frames_size_app; lia]. }
  destruct (run_ok base _ _ _ H1 Hok1) as [Hm Hle]. pose proof (pt_ok_window _ _ _ _ Hm) as Wm.
  apply (point_lt_false base); [done..|]. destruct Hle as [[-> _]|]; auto.
Qed.

(** *** The command boundary both loops look for *)

Lemma expected_loop_spec base expect p l q :
  run p l q -> pt_ok base (length l) (frames_size l) p ->
  SequenceNumber.in_window base (command expect) ->
  SequenceNumber.off base (command p) < SequenceNumber.off base (command expect)
    \/ p = mkPoint (command expect) 0 ->
  SequenceNumber.off base (command expect) <= SequenceNumber.off base (command q) ->
  exists l1 l2, l = l1 ++ l2 /\ run p l1 (mkPoint (command expect) 0)
    /\ run (mkPoint (command expect) 0) l2 q
    /\ expected_loop expect p l = Ret (mkPoint (command expect) 0, l2).
Proof.
  intros Hr Hp He. revert Hp. induction Hr as [p|p f l p' q Hc Hf Ha Hr IH]; intros Hp Hle Heq.
  { destruct Hle as [|E]; [lia|]. subst p. exists [], []. split_and!; constructor || done. }
  simpl. rewrite (SequenceNumber.window_lt base) by (done || by eapply pt_ok_window).
  case_ltb.
  - rewrite Ha. pose proof (frames_size_nonneg _ _ _ Hr) as Hz.
    destruct (advance_ok base _ _ _ _ _ Hc Hf Hz Ha Hp) as [Hp' _].
    destruct IH as (l1 & l2 & -> & H1 & H2 & E); [done| |done|].
    + destruct (advance_shape p f p' Hc Ha) as [-> | ->]; simpl in *; [|by left].
      rewrite SequenceNumber.window_incr by (by eapply pt_ok_window).
      destruct (Z.eq_dec (SequenceNumber.off base (command p) + 1) (SequenceNumber.off base (command expect)))
        as [E|]; [|left; lia].
      right. f_equal. apply (SequenceNumber.off_inj base); [apply SequenceNumber.incr_wf|apply He|].
      by rewrite SequenceNumber.window_incr by (by eapply pt_ok_window).
    + exists (f :: l1), l2. rewrite E. split_and!; [done|by econstructor|done..].
  - destruct Hle as [|E]; [lia|]. subst p. exists [], (f :: l). split_and!; [done|constructor| |done].
    by econstructor.
Qed.

(** ** The sender's invariant *)

(** the unflushed bytes: those after [flushPoint], which is on the list, or all of them when
    the replay point has moved past [flushPoint] *)
Definition unflushed_inv (base : SequenceNumber.t) (n : SendState) (l : list AMQFrame) : Prop :=
  (exists l1 l2, l = l1 ++ l2 /\ run (replayPoint n) l1 (flushPoint n) /\ unflushedSize n = frames_size l2)
  \/ (plt base (flushPoint n) (replayPoint n) /\ unflushedSize n = frames_size l).

(** the state of the [while] loop of [senderConfirmed] when [l] is left of the list *)
Definition loop_inv (base : SequenceNumber.t) (n : SendState) (l : list AMQFrame) : Prop :=
  pt_ok base (length l) (frames_size l) (replayPoint n)
  /\ run (replayPoint n) l (sendPoint n) /\ replaySize n = frames_size l
  /\ SequenceNumber.in_window base (command (flushPoint n)) /\ unflushed_inv base n l.

(** between calls *)
Definition sender_inv (n : SendState) : Prop :=
  offset (replayPoint n) = 0 /\ SequenceNumber.wf (command (replayPoint n))
  /\ Z.of_nat (length (replayList n)) < 2 ^ 31 /\ frames_size (replayList n) < 2 ^ 64
  /\ replaySize n = frames_size (replayList n)
  /\ exists l1 l2, replayList n = l1 ++ l2 /\ run (replayPoint n) l1 (flushPoint n)
                   /\ run (flushPoint n) l2 (sendPoint n) /\ unflushedSize n = frames_size l2.

Lemma sender_inv_ok n :
  sender_inv n ->
  pt_ok (command (replayPoint n)) (length (replayList n)) (frames_size (replayList n)) (replayPoint n)
  /\ run (replayPoint n) (replayList n) (sendPoint n).
Proof.
  intros (Ho & Hwf & Hl & Hz & _ & l1 & l2 & E & H1 & H2 & _).
  split; [|rewrite E; apply run_app; eauto]. unfold pt_ok. rewrite SequenceNumber.off_refl, Ho. split_and!; done || lia.
Qed.

Lemma sender_loop_inv n : sender_inv n -> loop_inv (command (replayPoint n)) n (replayList n).
Proof.
  intros H. pose proof (sender_inv_ok n H) as [Hok Hr].
  destruct H as (_ & _ & _ & _ & Hrs & l1 & l2 & E & H1 & H2 & Hu). rewrite E in *.
  split_and!; [done..| |left; eauto]. apply (pt_ok_window _ (length l2) (frames_size l2)).
  eapply pt_ok_app; [done..|]. by eapply frames_size_nonneg.
Qed.

(** the state after one pass of the loop, when nothing throws *)
Definition confirmed_once (n : SendState) (p : SessionPoint) (f : AMQFrame) : SendState :=
  mkSend p (flushPoint n) (sendPoint n) (replayList n)
    (if point_gt p (flushPoint n) then u64 (unflushedSize n - encodedSize f) else unflushedSize n)
    (u64 (replaySize n - encodedSize f)) (s_incomplete n) (s_bytesSinceKnownCompleted n).

Definition with_sender (s : SessionState) (n : SendState) : SessionState :=
  mkState n (receiver s) (timeout s) (config s) (stateful s) (receiverTrackingDisabled s).

Lemma with_sender_id s : with_sender s (sender s) = s.
Proof. by destruct s. Qed.

Lemma confirm_step_run s f p :
  advance (replayPoint (sender s)) f = Ret p -> point_le p (sendPoint (sender s)) = true ->
  confirm_step f s = (with_sender s (confirmed_once (sender s) p f), Ret tt).
Proof.
  intros Ha Hle. unfold confirm_step, mbind, M_bind, gets, lift_outcome. rewrite Ha.
  unfold on_sender, modify, cassert, guard_throw. rewrite Hle. done.
Qed.

Lemma confirm_step_inv base n f l p :
  loop_inv base n (f :: l) -> advance (replayPoint n) f = Ret p ->
  loop_inv base (confirmed_once n p f) l /\ point_le p (sendPoint n) = true.
Proof.
  intros (Hok & Hr & Hrs & Hfl & Hu) Ha. inversion Hr as [|? ? ? p' ? Hc Hf Ha' Hr']; subst.
  rewrite Ha in Ha'. simplify_eq. pose proof (frames_size_nonneg _ _ _ Hr') as Hz.
  destruct (advance_ok base (length l) (frames_size l) _ _ _ Hc Hf Hz Ha Hok) as [Hok' Hlt].
  destruct (run_ok base _ _ _ Hr' Hok') as [Hq Hle].
  pose proof (pt_ok_window _ _ _ _ Hok') as Wp. pose proof (pt_ok_window _ _ _ _ Hq) as Wq.
  pose proof Hok' as (Hwf' & Ho' & Hof' & Hz'). simpl in Hrs.
  assert (Hgt : point_lt (flushPoint n) p' = true <-> plt base (flushPoint n) p')
    by (by apply point_lt_spec).
  split.
  - unfold loop_inv, confirmed_once, point_gt. simpl. rewrite Hrs.
    replace (encodedSize f + frames_size l - encodedSize f) with (frames_size l) by lia.
    rewrite (uwrap_small 64 (frames_size l)) by (unfold is_uint; lia).
    split_and!; [done..|]. unfold unflushed_inv. simpl.
    destruct Hu as [(l1 & l2 & El & Hl1 & Hu)|[Hpf Hu]].
    + destruct l1 as [|f1 l1]; simpl in El.
      * subst l2. apply run_nil_inv in Hl1 as Epf.
        rewrite (proj2 Hgt) by (by rewrite <- Epf).
        right. split; [by rewrite <- Epf|]. simpl in Hu. rewrite Hu.
        rewrite uwrap_small by (unfold is_uint; lia). lia.
      * injection El as <- ->. inversion Hl1 as [|? ? ? p1 ? ? ? Ha1 Hl1']; subst.
        rewrite Ha in Ha1. simplify_eq. left. exists l1, l2. split_and!; [done..|].
        by rewrite (run_not_before base p1 l1 l2 (flushPoint n) (sendPoint n)).
    + assert (Hpf' : plt base (flushPoint n) p') by (by apply (plt_trans _ _ (replayPoint n))).
      rewrite (proj2 Hgt) by done. right. split; [done|]. simpl in Hu. rewrite Hu.
      rewrite uwrap_small by (unfold is_uint; lia). lia.
  - unfold point_le. rewrite (point_lt_false base); [done..|]. destruct Hle as [[-> _]|]; auto.
Qed.

(** what the loop does not touch *)
Definition same_but_replay (n n' : SendState) : Prop :=
  flushPoint n' = flushPoint n /\ sendPoint n' = sendPoint n /\ replayList n' = replayList n
  /\ s_incomplete n' = s_incomplete n /\ s_bytesSinceKnownCompleted n' = s_bytesSinceKnownCompleted n.

Lemma confirm_loop_spec base confirmed l : forall s,
  loop_inv base (sender s) l -> SequenceNumber.in_window base (command confirmed) ->
  SequenceNumber.off base (command (replayPoint (sender s))) < SequenceNumber.off base (command confirmed)
    \/ replayPoint (sender s) = mkPoint (command confirmed) 0 ->
  SequenceNumber.off base (command confirmed) <= SequenceNumber.off base (command (sendPoint (sender s))) ->
  exists l1 l2 n', l = l1 ++ l2 /\ confirm_loop confirmed l s = (with_sender s n', Ret l2)
    /\ loop_inv base n' l2 /\ replayPoint n' = mkPoint (command confirmed) 0
    /\ run (replayPoint (sender s)) l1 (replayPoint n') /\ same_but_replay (sender s) n'.
Proof.
  induction l as [|f l IH]; intros s Hinv Hw Hle Hge.
  { pose proof Hinv as (_ & Hr & _). apply run_nil_inv in Hr as E.
    destruct Hle as [Hlt|Hle]; [rewrite <- E in Hge; lia|].
    exists [], [], (sender s). rewrite with_sender_id.
    split_and!; [done|done|done|done|constructor|done..]. }
  pose proof Hinv as (Hok & Hr & _). pose proof (pt_ok_window _ _ _ _ Hok) as Wr.
  cbn [confirm_loop]. unfold mbind at 1, M_bind at 1, gets.
  rewrite (SequenceNumber.window_lt base) by done. case_ltb.
  - inversion Hr as [|? ? ? p q Hc Hf Ha Hr']; subst.
    destruct (confirm_step_inv base (sender s) f l p Hinv Ha) as [Hinv' Hpl].
    unfold mbind, M_bind. rewrite (confirm_step_run s f p Ha Hpl).
    destruct (IH (with_sender s (confirmed_once (sender s) p f))) as (l1 & l2 & n' & -> & E & Hi & Hp & Hrun & Hsame);
      [done|done| |done|].
    + simpl. destruct (advance_shape _ f p Hc Ha) as [-> | ->]; simpl in *; [|by left].
      rewrite SequenceNumber.window_incr by done.
      destruct (Z.eq_dec (SequenceNumber.off base (command (replayPoint (sender s))) + 1)
                  (SequenceNumber.off base (command confirmed))) as [Eo|]; [|left; lia].
      right. f_equal. apply (SequenceNumber.off_inj base); [apply SequenceNumber.incr_wf|apply Hw|].
      by rewrite SequenceNumber.window_incr.
    + exists (f :: l1), l2, n'. rewrite E. split_and!; [done..|by econstructor|done].
  - destruct Hle as [|Hle]; [lia|].
    exists [], (f :: l), (sender s). rewrite with_sender_id.
    split_and!; [done|done|done|done|constructor|done..].
Qed.

(** the end of [senderConfirmed] *)
Definition confirmed_end (n : SendState) (l : list AMQFrame) : SendState :=
  mkSend (replayPoint n) (if point_gt (replayPoint n) (flushPoint n) then replayPoint n else flushPoint n)
    (sendPoint n) l (unflushedSize n) (replaySize n) (s_incomplete n) (s_bytesSinceKnownCompleted n).

Lemma confirmed_end_inv base n l :
  loop_inv base n l -> offset (replayPoint n) = 0 -> sender_inv (confirmed_end n l).
Proof.
  intros (Hok & Hr & Hrs & Hfl & Hu) Ho. pose proof (pt_ok_window _ _ _ _ Hok) as Wr.
  pose proof (SequenceNumber.off_range base (command (replayPoint n))).
  pose proof Hok as (Hwf & Hoff & Hof & Hz).
  unfold sender_inv, confirmed_end, point_gt. simpl. split_and!; [done..|lia|lia|done|].
  destruct Hu as [(l1 & l2 & -> & H1 & Hu)|[Hlt Hu]].
  - rewrite (run_not_before base _ l1 l2 _ (sendPoint n)) by done.
    exists l1, l2. split_and!; [done..| |done]. apply run_app in Hr as (m & Hm & H2).
    by rewrite (run_det _ _ _ _ H1 Hm).
  - rewrite (proj2 (point_lt_spec base _ _ Hfl Wr) Hlt). exists [], l. split_and!; [done|constructor|done..].
Qed.

(** serial comparison against both ends of the run *)
Lemma between_window base send c :
  SequenceNumber.wf base -> SequenceNumber.wf c -> SequenceNumber.in_window base send ->
  SequenceNumber.ltb base c = true -> SequenceNumber.ltb send c = false ->
  0 < SequenceNumber.off base c <= SequenceNumber.off base send.
Proof.
  unfold SequenceNumber.in_window, SequenceNumber.wf, SequenceNumber.ltb, SequenceNumber.off, is_uint, swrap, uwrap.
  change (2 ^ 32) with 4294967296. change (2 ^ (32 - 1)) with 2147483648. change (2 ^ 31) with 2147483648.
  intros Hb Hc [Hs Hw] H1 H2. bool_hyps. Z.to_euclidean_division_equations. lia.
Qed.

Lemma senderConfirmed_spec s confirmed :
  sender_inv (sender s) -> SequenceNumber.wf (command confirmed) ->
  point_gt confirmed (sendPoint (sender s)) = false ->
  exists l1 n', senderConfirmed confirmed s = (with_sender s n', Ret tt)
    /\ sender_inv n' /\ replayList (sender s) = l1 ++ replayList n'
    /\ run (replayPoint (sender s)) l1 (replayPoint n')
    /\ command (replayPoint n')
       = (if SequenceNumber.ltb (command (replayPoint (sender s))) (command confirmed)
          then command confirmed else command (replayPoint (sender s)))
    /\ sendPoint n' = sendPoint (sender s) /\ s_incomplete n' = s_incomplete (sender s).
Proof.
  intros Hinv Hwf Hgt. pose proof (sender_inv_ok _ Hinv) as [Hok Hr].
  pose proof (sender_loop_inv _ Hinv) as Hl. pose proof Hinv as (Ho & Hwr & _).
  destruct (run_ok _ _ _ _ Hr Hok) as [Hq _]. pose proof (pt_ok_window _ _ _ _ Hq) as Wq.
  set (base := command (replayPoint (sender s))) in *.
  assert (Hlc : SequenceNumber.ltb (command (sendPoint (sender s))) (command confirmed) = false).
  { unfold point_gt, point_lt in Hgt. by apply orb_false_iff in Hgt as [? _]. }
  assert (H : exists l1 l2 n', replayList (sender s) = l1 ++ l2
     /\ confirm_loop confirmed (replayList (sender s)) s = (with_sender s n', Ret l2)
     /\ loop_inv base n' l2 /\ offset (replayPoint n') = 0
     /\ command (replayPoint n') = (if SequenceNumber.ltb base (command confirmed) then command confirmed else base)
     /\ run (replayPoint (sender s)) l1 (replayPoint n') /\ same_but_replay (sender s) n').
  { destruct (SequenceNumber.ltb base (command confirmed)) eqn:Hb.
    - pose proof (between_window base _ _ Hwr Hwf Wq Hb Hlc) as Hbt.
      destruct (confirm_loop_spec base confirmed (replayList (sender s)) s Hl) as (l1 & l2 & n' & E & Ec & Hi & Hp & Hrun & Hs).
      + split; [done|]. destruct Wq. lia.
      + left. fold base. rewrite SequenceNumber.off_refl. lia.
      + lia.
      + exists l1, l2, n'. rewrite Hp in *. split_and!; done.
    - exists [], (replayList (sender s)), (sender s). rewrite with_sender_id.
      split_and!; [done| |done|done|done|constructor|done..].
      destruct (replayList (sender s)) as [|f l]; [done|]. cbn [confirm_loop].
      unfold mbind, M_bind, gets. fold base. by rewrite Hb. }
  destruct H as (l1 & l2 & n' & E & Ec & Hi & Hof & Hc & Hrun & Hf & Hs & _ & Hin & _).
  exists l1, (confirmed_end n' l2). split_and!; [|by eapply confirmed_end_inv|done..].
  unfold senderConfirmed, mbind, M_bind, gets, on_sender, modify, cassert, guard_throw.
  rewrite Hgt, Ec. simpl. rewrite Hof. done.
Qed.

(**  confirmation.  On a state that satisfies the invariant, a confirmation
    past what was sent is refused and changes nothing; any other one drops from
    the replay list exactly the frames of the commands before the confirmed
    one, never moves the replay point back or into a command, passes the
    assertions and keeps the invariant, byte counts included. *)
Theorem senderConfirmed_trims s confirmed :
  sender_inv (sender s) -> SequenceNumber.wf (command confirmed) ->
  if point_gt confirmed (sendPoint (sender s))
  then senderConfirmed confirmed s = (s, Throw InvalidArgumentException)
  else exists l1 n', senderConfirmed confirmed s = (with_sender s n', Ret tt)
    /\ sender_inv n' /\ replayList (sender s) = l1 ++ replayList n'
    /\ run (replayPoint (sender s)) l1 (replayPoint n')
    /\ command (replayPoint n')
       = (if SequenceNumber.ltb (command (replayPoint (sender s))) (command confirmed)
          then command confirmed else command (replayPoint (sender s)))
    /\ sendPoint n' = sendPoint (sender s) /\ s_incomplete n' = s_incomplete (sender s).
Proof.
  intros Hinv Hwf. destruct (point_gt confirmed (sendPoint (sender s))) eqn:Hgt.
  - unfold senderConfirmed, mbind, M_bind, gets, throw. by rewrite Hgt.
  - by apply senderConfirmed_spec.
Qed.

Lemma run_snoc p l q f q' :
  run p l q -> isControl f = false -> 0 < encodedSize f -> advance q f = Ret q' -> run p (l ++ [f]) q'.
Proof. intros H Hc Hf Ha. apply run_app. exists q. split; [done|]. econstructor; [done..|constructor]. Qed.

(** the sender after a frame was recorded *)
Definition recorded (n : SendState) (f : AMQFrame) (q : SessionPoint) : SendState :=
  mkSend (replayPoint n) (flushPoint n) q (replayList n ++ [f])
    (u64 (unflushedSize n + encodedSize f)) (u64 (replaySize n + encodedSize f))
    (SequenceSet.add1 (s_incomplete n) (command (sendPoint n)))
    (u64 (s_bytesSinceKnownCompleted n + encodedSize f)).

Lemma senderRecord_run s f q :
  timeout s <> 0 -> isControl f = false -> advance (sendPoint (sender s)) f = Ret q ->
  senderRecord f s
  = (mkState (recorded (sender s) f q) (receiver s) (timeout s) (config s) true (receiverTrackingDisabled s),
     if negb (replayHardLimit (config s) =? 0)
        && (replayHardLimit (config s) <? replaySize (recorded (sender s) f q))
     then Throw ResourceLimitExceededException else Ret tt).
Proof.
  intros Ht Hc Ha. unfold senderRecord. rewrite Hc.
  unfold mbind, M_bind, set_stateful, gets, on_sender, modify, lift_outcome.
  cbn [timeout sender sendPoint]. rewrite (proj2 (Z.eqb_neq _ _) Ht), Ha.
  unfold guard_throw, recorded. simpl. by destruct (negb _ && _).
Qed.

(**  sending.  Recording a command frame on a session with a timeout keeps
    the invariant [replayPoint <= flushPoint <= sendPoint] of the replay list
    and the byte counts, advances the send point over the frame and adds the
    current command to the incomplete ones; the hard limit is reported exactly
    when the list exceeds it, after the frame was recorded. *)
Theorem senderRecord_records s f q :
  sender_inv (sender s) -> timeout s <> 0 -> isControl f = false -> 0 < encodedSize f ->
  advance (sendPoint (sender s)) f = Ret q ->
  Z.of_nat (length (replayList (sender s))) + 1 < 2 ^ 31 ->
  replaySize (sender s) + encodedSize f < 2 ^ 64 ->
  exists s' o, senderRecord f s = (s', o) /\ sender_inv (sender s')
    /\ replayList (sender s') = replayList (sender s) ++ [f] /\ sendPoint (sender s') = q
    /\ stateful s' = true
    /\ s_incomplete (sender s') = SequenceSet.add1 (s_incomplete (sender s)) (command (sendPoint (sender s)))
    /\ o = (if negb (replayHardLimit (config s) =? 0)
               && (replayHardLimit (config s) <? frames_size (replayList (sender s) ++ [f]))
            then Throw ResourceLimitExceededException else Ret tt).
Proof.
  intros Hinv Ht Hc Hf Ha Hlen Hsz. pose proof (sender_inv_ok _ Hinv) as [_ Hrun].
  pose proof (frames_size_nonneg _ _ _ Hrun) as Hz.
  destruct Hinv as (Ho & Hwf & Hl & Hz' & Hrs & l1 & l2 & E & H1 & H2 & Hu).
  pose proof (frames_size_nonneg _ _ _ H2) as Hz2. pose proof (frames_size_nonneg _ _ _ H1) as Hz1.
  assert (Hs12 : frames_size (replayList (sender s)) = frames_size l1 + frames_size l2)
    by (by rewrite E, frames_size_app).
  assert (Hsnoc : frames_size (replayList (sender s) ++ [f]) = frames_size (replayList (sender s)) + encodedSize f)
    by (rewrite frames_size_app; simpl; lia).
  rewrite (senderRecord_run s f q Ht Hc Ha). eexists _, _. split; [reflexivity|].
  unfold recorded. simpl. rewrite Hrs, Hu.
  rewrite (uwrap_small 64 (frames_size (replayList _) + _)) by (unfold is_uint; lia).
  rewrite (uwrap_small 64 (frames_size l2 + _)) by (unfold is_uint; lia).
  split_and!; [|done..|by rewrite Hsnoc]. unfold sender_inv. simpl. rewrite Hsnoc, length_app. simpl.
  split_and!; [done|done|lia|lia|done|]. exists l1, (l2 ++ [f]).
  split_and!; [by rewrite E, app_assoc|done|by eapply run_snoc|]. rewrite frames_size_app. simpl. lia.
Qed.

(**  the documented order.  The invariant gives
    [replayPoint <= flushPoint <= sendPoint], and a flush sets the flush point
    to the send point with no unflushed bytes and keeps the invariant. *)
Theorem sender_points_ordered s :
  sender_inv (sender s) ->
  point_le (replayPoint (sender s)) (flushPoint (sender s)) = true
  /\ point_le (flushPoint (sender s)) (sendPoint (sender s)) = true
  /\ exists s', senderRecordFlush s = (s', Ret tt) /\ sender_inv (sender s')
       /\ flushPoint (sender s') = sendPoint (sender s) /\ unflushedSize (sender s') = 0.
Proof.
  intros Hinv. pose proof (sender_inv_ok _ Hinv) as [Hok Hrun].
  pose proof Hinv as (Ho & Hwf & Hl & Hz' & Hrs & l1 & l2 & E & H1 & H2 & Hu). rewrite E in *.
  pose proof (frames_size_nonneg _ _ _ H2) as Hz2.
  unfold point_le. split_and!.
  - by rewrite (run_not_before _ _ l1 l2 _ _ Hok Hrun H1).
  - pose proof (pt_ok_app _ _ _ _ _ Hok H1 Hz2) as Hok2. rewrite <- (app_nil_r l2) in Hok2, H2.
    rewrite (run_not_before _ _ l2 [] _ _ Hok2 H2); [done|]. by rewrite app_nil_r in H2.
  - eexists. split; [reflexivity|]. split_and!; [|done..]. unfold sender_inv. simpl. rewrite E.
    split_and!; [done..|]. exists (l1 ++ l2), []. rewrite app_nil_r.
    split_and!; [done|done|constructor|done].
Qed.

(** ** Replay and the receiver's barrier *)

Lemma senderExpected_spec s c l1 l2 p :
  sender_inv (sender s) -> replayList (sender s) = l1 ++ l2 ->
  run (replayPoint (sender s)) l1 p -> command p = c ->
  exists la lb, replayList (sender s) = la ++ lb /\ run (replayPoint (sender s)) la (mkPoint c 0)
    /\ run (mkPoint c 0) lb (sendPoint (sender s))
    /\ senderExpected (mkPoint c 0) s = (s, Ret lb).
Proof.
  intros Hinv E H1 <-. pose proof (sender_inv_ok _ Hinv) as [Hok Hr]. pose proof Hinv as (Ho & Hwr & _).
  rewrite E in Hok, Hr. pose proof Hr as Hr'. apply run_app in Hr' as (m & Hm & H2).
  rewrite <- (run_det _ _ _ _ H1 Hm) in H2. clear Hm. pose proof (frames_size_nonneg _ _ _ H2) as Hz2.
  set (base := command (replayPoint (sender s))) in *.
  pose proof (pt_ok_app _ _ _ _ _ Hok H1 Hz2) as Hokp.
  destruct (run_ok _ _ _ _ H2 Hokp) as [Hq Hpq]. destruct (run_ok _ _ _ _ Hr Hok) as [_ _].
  pose proof (pt_ok_window _ _ _ _ Hokp) as Wp. pose proof (pt_ok_window _ _ _ _ Hq) as Wq.
  pose proof (pt_ok_window _ _ _ _ Hok) as Wr.
  pose proof (SequenceNumber.off_range base (command p)) as Hrg.
  assert (Hrefl : SequenceNumber.off base base = 0) by apply SequenceNumber.off_refl.
  assert (Hple : SequenceNumber.off base (command p) <= SequenceNumber.off base (command (sendPoint (sender s)))).
  { destruct Hpq as [[<- _]|[?|[? _]]]; lia. }
  assert (Hstart : SequenceNumber.off base base < SequenceNumber.off base (command p)
                   \/ replayPoint (sender s) = mkPoint (command p) 0).
  { destruct (Z.eq_dec (SequenceNumber.off base (command p)) 0) as [E0|]; [right|left; lia].
    assert (Eb : base = command p) by (apply (SequenceNumber.off_inj base); [apply Wr|apply Wp|lia]).
    rewrite <- Eb. unfold base. destruct (replayPoint (sender s)); simpl in *. by rewrite Ho. }
  destruct (expected_loop_spec base (mkPoint (command p) 0) _ _ _ Hr Hok Wp Hstart Hple)
    as (la & lb & El & Ha & Hb & Eloop). simpl in *.
  exists la, lb. rewrite E, El. split_and!; [done..|].
  unfold senderExpected, mbind, M_bind, gets.
  assert (point_lt (mkPoint (command p) 0) (replayPoint (sender s)) = false) as ->.
  { apply (point_lt_false base); [done..|]. destruct Hstart as [Hs|E0]; [right; left; exact Hs|by left]. }
  assert (point_lt (sendPoint (sender s)) (mkPoint (command p) 0) = false) as ->.
  { apply not_true_iff_false. rewrite (point_lt_spec base) by done. unfold plt. simpl.
    destruct Hq as (_ & _ & ? & _). lia. }
  unfold lift_outcome. rewrite E, Eloop. unfold cassert, guard_throw, SequenceNumber.eqb. simpl.
  by rewrite Z.eqb_refl.
Qed.

(** the frames a receiver is given one after the other, with what it answered *)
Fixpoint receive_all (l : list AMQFrame) : M SessionState (list bool) :=
  match l with
  | [] => mret []
  | f :: l' => b ← receiverRecord f; bs ← receive_all l'; mret (b :: bs)
  end.

Definition with_receiver (s : SessionState) (r : ReceiveState) : SessionState :=
  mkState (sender s) r (timeout s) (config s) true (receiverTrackingDisabled s).

Lemma receiverRecord_run s f p :
  receiverTrackingDisabled s = false -> isControl f = false ->
  advance (expected (receiver s)) f = Ret p ->
  let r := receiver s in
  let bytes := u64 (r_bytesSinceKnownCompleted r + encodedSize f) in
  let r' := if point_gt p (received r)
            then mkReceive p p (unknownCompleted r)
                   (SequenceSet.add1 (r_incomplete r)
                      (if offset p =? 0 then SequenceNumber.decr (command p) else command p)) bytes
            else mkReceive p (received r) (unknownCompleted r) (r_incomplete r) bytes in
  receiverRecord f s = (with_receiver s r', Ret (point_gt p (received r))).
Proof.
  intros Ht Hc Ha. unfold receiverRecord, mbind, M_bind, get. rewrite Ht, Hc.
  unfold set_stateful, modify, gets, lift_outcome. cbn [receiver]. rewrite Ha.
  unfold on_receiver, modify. simpl.
  by destruct (point_gt p (received (receiver s))) eqn:E; simpl.
Qed.

(** frames up to the high-water mark are duplicates: nothing but the byte count changes *)
Lemma receive_duplicates base l : forall s q,
  receiverTrackingDisabled s = false ->
  pt_ok base (length l) (frames_size l) (expected (receiver s)) ->
  SequenceNumber.in_window base (command (received (receiver s))) ->
  run (expected (receiver s)) l q -> q = received (receiver s) \/ plt base q (received (receiver s)) ->
  exists s', receive_all l s = (s', Ret (map (fun _ => false) l))
    /\ expected (receiver s') = q /\ received (receiver s') = received (receiver s)
    /\ r_incomplete (receiver s') = r_incomplete (receiver s)
    /\ unknownCompleted (receiver s') = unknownCompleted (receiver s)
    /\ receiverTrackingDisabled s' = false.
Proof.
  induction l as [|f l IH]; intros s q Ht Hok Hw Hr Hq.
  { apply run_nil_inv in Hr. exists s. split_and!; done. }
  inversion Hr as [|? ? ? p ? Hc Hf Ha Hr']; subst. pose proof (frames_size_nonneg _ _ _ Hr') as Hz.
  destruct (advance_ok base (length l) (frames_size l) _ _ _ Hc Hf Hz Ha Hok) as [Hok' _].
  destruct (run_ok _ _ _ _ Hr' Hok') as [_ Hpq].
  assert (Hdup : point_gt p (received (receiver s)) = false).
  { unfold point_gt. apply (point_lt_false base); [done|by eapply pt_ok_window|].
    destruct Hpq as [[-> _]|Hpq], Hq as [<-|Hq]; auto. right. by apply (plt_trans _ _ q). }
  cbn [receive_all]. unfold mbind, M_bind. rewrite (receiverRecord_run s f p Ht Hc Ha), Hdup. cbv zeta.
  edestruct (IH (with_receiver s (mkReceive p (received (receiver s)) (unknownCompleted (receiver s))
    (r_incomplete (receiver s)) (u64 (r_bytesSinceKnownCompleted (receiver s) + encodedSize f)))) q)
    as (s' & E & Hs'); [done..|]. exists s'. rewrite E. split; [done|exact Hs'].
Qed.

(** frames after the high-water mark are all accepted *)
Lemma receive_new base l : forall s q,
  receiverTrackingDisabled s = false ->
  pt_ok base (length l) (frames_size l) (expected (receiver s)) ->
  received (receiver s) = expected (receiver s) ->
  run (expected (receiver s)) l q ->
  exists s', receive_all l s = (s', Ret (map (fun _ => true) l))
    /\ expected (receiver s') = q /\ received (receiver s') = q.
Proof.
  induction l as [|f l IH]; intros s q Ht Hok Hw Hr.
  { apply run_nil_inv in Hr. exists s. split_and!; congruence || done. }
  inversion Hr as [|? ? ? p ? Hc Hf Ha Hr']; subst. pose proof (frames_size_nonneg _ _ _ Hr') as Hz.
  destruct (advance_ok base (length l) (frames_size l) _ _ _ Hc Hf Hz Ha Hok) as [Hok' Hlt].
  assert (Hnew : point_gt p (received (receiver s)) = true).
  { unfold point_gt. rewrite Hw. apply (point_lt_spec base); [by eapply pt_ok_window..|done]. }
  cbn [receive_all]. unfold mbind, M_bind. rewrite (receiverRecord_run s f p Ht Hc Ha), Hnew. cbv zeta.
  match goal with |- context [receive_all l ?s1] =>
    destruct (IH s1 q) as (s' & E & Hs'); [done..|] end.
  exists s'. rewrite E. split; [done|exact Hs'].
Qed.

Lemma receive_all_app l1 l2 s s1 s2 b1 b2 :
  receive_all l1 s = (s1, Ret b1) -> receive_all l2 s1 = (s2, Ret b2) ->
  receive_all (l1 ++ l2) s = (s2, Ret (b1 ++ b2)).
Proof.
  revert s b1. induction l1 as [|f l1 IH]; intros s b1; cbn [receive_all app].
  { intros [= <- <-]. done. }
  unfold mbind, M_bind. destruct (receiverRecord f s) as [s0 [b|e]]; [|done].
  destruct (receive_all l1 s0) as [s3 [bs|e]] eqn:E; [|done]. intros [= <- <-] H2.
  by rewrite (IH s0 bs E H2).
Qed.

Lemma receiverSetCommandPoint_run s p :
  point_gt p (received (receiver s)) = false ->
  receiverSetCommandPoint p s
  = (mkState (sender s) (mkReceive p (received (receiver s)) (unknownCompleted (receiver s))
       (r_incomplete (receiver s)) (r_bytesSinceKnownCompleted (receiver s)))
       (timeout s) (config s) (stateful s) (receiverTrackingDisabled s), Ret tt).
Proof.
  intros H. unfold receiverSetCommandPoint, mbind, M_bind, get. rewrite H, andb_false_r.
  unfold on_receiver, modify. by rewrite H.
Qed.

(** where the last command boundary before a point of the list is *)
Lemma boundary_before base p0 la lb lx l c q :
  pt_ok base (length (la ++ lb)) (frames_size (la ++ lb)) p0 -> run p0 (la ++ lb) q ->
  la ++ lb = lx ++ l -> run p0 la (mkPoint (command c) 0) -> run p0 lx c ->
  exists k, lx = la ++ k /\ lb = k ++ l /\ run (mkPoint (command c) 0) k c.
Proof.
  intros Hok Hr E Ha Hx. apply app_eq_inv in E as [(k & -> & ->)|(k & -> & ->)].
  - rewrite <- app_assoc in *. apply run_app in Ha as (m & Hm & Hk).
    rewrite (run_det _ _ _ _ Hm Hx) in *. apply run_app in Hr as (m' & Hm' & Hrest).
    pose proof (run_det _ _ _ _ Hm' Hx) as ->. pose proof (frames_size_nonneg _ _ _ Hrest) as Hz.
    pose proof (pt_ok_app _ _ _ _ _ Hok Hx Hz) as Hokc.
    assert (Hokk : pt_ok base (length k) (frames_size k) c).
    { apply run_app in Hrest as (? & _ & Hlb). pose proof (frames_size_nonneg _ _ _ Hlb).
      eapply pt_ok_weaken; [exact Hokc|rewrite length_app; lia|rewrite frames_size_app; lia]. }
    destruct (run_ok _ _ _ _ Hk Hokk) as [_ [[Ec ->]|[?|[_ ?]]]]; simpl in *; [|lia|].
    + exists []. rewrite !app_nil_r. split_and!; [done..|]. rewrite <- Ec. constructor.
    + destruct Hokk as (_ & _ & ? & _). lia.
  - exists k. split_and!; [done..|]. apply run_app in Hx as (m & Hm & Hk).
    by rewrite (run_det _ _ _ _ Ha Hm).
Qed.

(** C13: exactly once across a resume.  The receiver has received a prefix of
    what the sender keeps for replay, possibly up to the middle of a command,
    and its expected point is anywhere on that prefix (an earlier replay may
    have been cut short).  When it asks for the command it expects, the sender
    replays without an exception; the receiver answers "duplicate" for every
    frame it had received, accepts exactly the others, and ends level with the
    sender. *)
Theorem resume_exactly_once snd rcv lx ly l2 :
  sender_inv (sender snd) -> receiverTrackingDisabled rcv = false ->
  replayList (sender snd) = lx ++ ly ++ l2 ->
  run (replayPoint (sender snd)) lx (expected (receiver rcv)) ->
  run (expected (receiver rcv)) ly (received (receiver rcv)) ->
  let c := mkPoint (command (expected (receiver rcv))) 0 in
  exists dup rcv1 rcv2,
    senderExpected c snd = (snd, Ret (dup ++ l2))
    /\ receiverSetCommandPoint c rcv = (rcv1, Ret tt)
    /\ receive_all (dup ++ l2) rcv1 = (rcv2, Ret (map (fun _ => false) dup ++ map (fun _ => true) l2))
    /\ expected (receiver rcv2) = sendPoint (sender snd)
    /\ received (receiver rcv2) = sendPoint (sender snd).
Proof.
  intros Hinv Ht E Hx Hy c.
  destruct (senderExpected_spec snd _ lx (ly ++ l2) _ Hinv E Hx eq_refl) as (la & lb & El & Ha & Hb & Ese).
  pose proof (sender_inv_ok _ Hinv) as [Hok Hr]. set (base := command (replayPoint (sender snd))) in *.
  rewrite El in Hok, Hr, E.
  destruct (boundary_before base _ _ _ _ _ _ _ Hok Hr E Ha Hx) as (k & Elx & Elb & Hk). fold c in Ha, Hb, Hk, Ese.
  subst lb. rewrite app_assoc in Hb, Ese. pose proof (frames_size_nonneg _ _ _ Hb) as Hz.
  rewrite (app_assoc k) in Hok. pose proof (pt_ok_app _ _ _ _ _ Hok Ha Hz) as Hokc.
  assert (Hdup : run c (k ++ ly) (received (receiver rcv))) by (apply run_app; eauto).
  pose proof Hb as Hb'. apply run_app in Hb' as (m & Hm & H2).
  rewrite (run_det _ _ _ _ Hm Hdup) in H2. clear m Hm. pose proof (frames_size_nonneg _ _ _ H2) as Hz2.
  pose proof (pt_ok_app _ _ _ _ _ Hokc Hdup Hz2) as Hokr.
  assert (Hng : point_gt c (received (receiver rcv)) = false)
    by (by apply (run_not_before base _ (k ++ ly) l2 _ (sendPoint (sender snd)))).
  pose proof (receiverSetCommandPoint_run rcv c Hng) as Eset.
  match type of Eset with _ = (?r1, _) => set (rcv1 := r1) in * end.
  destruct (receive_duplicates base (k ++ ly) rcv1 (received (receiver rcv))) as (s1 & E1 & He1 & Hr1 & _ & _ & Ht1).
  - done.
  - eapply pt_ok_weaken; [exact Hokc|rewrite (length_app (k ++ ly)); lia|rewrite (frames_size_app (k ++ ly)); lia].
  - by eapply pt_ok_window.
  - done.
  - by left.
  - destruct (receive_new base l2 s1 (sendPoint (sender snd)) Ht1) as (s2 & E2 & He2 & Hr2).
    + by rewrite He1.
    + by rewrite Hr1, He1.
    + by rewrite He1.
    + exists (k ++ ly), rcv1, s2. split_and!; [done..| |done|done]. by eapply receive_all_app.
Qed.

(**  command completion.  Completing a received command, alone or together
    with all earlier ones, never fails its assertion on an incomplete command,
    takes the whole interval out of the incomplete set and into the completed
    set, and changes no other membership. *)
Theorem receiverCompleted_moves base s cmd (cumulative : bool) x :
  SequenceSet.wf base (r_incomplete (receiver s)) -> SequenceSet.wf base (unknownCompleted (receiver s)) ->
  receiverTrackingDisabled s = false ->
  SequenceNumber.in_window base cmd -> SequenceNumber.in_window base (SequenceNumber.incr cmd) ->
  SequenceNumber.in_window base x -> SequenceSet.contains (r_incomplete (receiver s)) cmd = true ->
  exists s' first, receiverCompleted cmd cumulative s = (s', Ret tt)
    /\ (if cumulative then front (r_incomplete (receiver s)) = Some first else first = cmd)
    /\ let moved := SequenceNumber.leb first x && SequenceNumber.leb x cmd in
       SequenceSet.contains (r_incomplete (receiver s')) x
         = SequenceSet.contains (r_incomplete (receiver s)) x && negb moved
       /\ SequenceSet.contains (unknownCompleted (receiver s')) x
         = SequenceSet.contains (unknownCompleted (receiver s)) x || moved
       /\ SequenceSet.wf base (r_incomplete (receiver s')) /\ SequenceSet.wf base (unknownCompleted (receiver s')).
Proof.
  intros Hi Hu Ht Hc Hc1 Hx Hin.
  assert (Hf : exists first, (if cumulative then front (r_incomplete (receiver s)) else Some cmd) = Some first
     /\ (if cumulative then front (r_incomplete (receiver s)) = Some first else first = cmd)
     /\ SequenceNumber.in_window base first /\ SequenceNumber.off base first <= SequenceNumber.off base cmd).
  { destruct cumulative; [|exists cmd; split_and!; done || lia].
    apply (SequenceSet.contains_mem base) in Hin; [|done..].
    destruct (r_incomplete (receiver s)) as [|r rs]; [by apply rs_mem_nil in Hin|].
    pose proof Hi as ((? & ? & ?) & _). exists (begin_ r). split_and!; [done..|].
    by apply (rs_mem_head_le (SequenceNumber.in_window base) _ r rs). }
  destruct Hf as (first & Efirst & Hfirst & Hfw & Hle).
  destruct (SequenceNumber.window_min_max base first cmd Hfw Hc Hle) as (Emin & Emax & _).
  assert (Hmax : SequenceNumber.in_window base (SequenceNumber.incr (SequenceNumber.max first cmd))) by (by rewrite Emax).
  pose proof (SequenceSet.interval_spec base _ first cmd x Hi Hfw Hc Hmax Hx) as (_ & Wi & _ & Ci).
  pose proof (SequenceSet.interval_spec base _ first cmd x Hu Hfw Hc Hmax Hx) as (Wu & _ & Cu & _).
  rewrite Emin, Emax in *.
  unfold receiverCompleted, mbind, M_bind, get. rewrite Ht. unfold cassert, guard_throw.
  rewrite Hin. cbn [negb]. rewrite Efirst. eexists _, first. split; [reflexivity|]. split_and!; done.
Qed.

(**  completion of sent commands.  A non-empty completed set is taken out
    of the incomplete commands, and the replay list is trimmed up to the end of
    the set's first range only (later ranges are completed but stay
    replayable); a set that reaches past what was sent is refused, after the
    incomplete set was already reduced. *)
Theorem senderCompleted_confirms s r rs :
  sender_inv (sender s) -> SequenceNumber.wf (end_ r) ->
  exists n' o, senderCompleted (r :: rs) s = (with_sender s n', o) /\ sender_inv n'
    /\ s_incomplete n' = SequenceSet.removeAll (s_incomplete (sender s)) (r :: rs)
    /\ sendPoint n' = sendPoint (sender s)
    /\ (if point_gt (mkPoint (end_ r) 0) (sendPoint (sender s))
        then o = Throw InvalidArgumentException /\ replayList n' = replayList (sender s)
        else o = Ret tt
             /\ command (replayPoint n')
                = (if SequenceNumber.ltb (command (replayPoint (sender s))) (end_ r)
                   then end_ r else command (replayPoint (sender s)))
             /\ exists l1, replayList (sender s) = l1 ++ replayList n'
                          /\ run (replayPoint (sender s)) l1 (replayPoint n')).
Proof.
  intros Hinv Hwf. unfold senderCompleted.
  set (n1 := mkSend (replayPoint (sender s)) (flushPoint (sender s)) (sendPoint (sender s))
    (replayList (sender s)) (unflushedSize (sender s)) (replaySize (sender s))
    (SequenceSet.removeAll (s_incomplete (sender s)) (r :: rs)) (s_bytesSinceKnownCompleted (sender s))).
  assert (Hinv1 : sender_inv n1) by exact Hinv.
  unfold mbind, M_bind at 1, on_sender, modify. cbv beta iota. fold n1 (with_sender s n1).
  destruct (point_gt (mkPoint (end_ r) 0) (sendPoint (sender s))) eqn:Hgt.
  - exists n1, (Throw InvalidArgumentException). split_and!; [|done..].
    unfold senderConfirmed, mbind, M_bind, gets, throw. simpl. by rewrite Hgt.
  - destruct (senderConfirmed_spec (with_sender s n1) (mkPoint (end_ r) 0) Hinv1 Hwf Hgt)
      as (l1 & n' & E & Hi & El & Hrun & Hc & Hs & Hin).
    exists n', (Ret tt). rewrite E. split_and!; [done..|]. eauto.
Qed.

End props.

(** ** A session with three frames of one command *)

Definition conf : Configuration := mkConfig 1048576 0.
(** the sender after the three frames, and a receiver of the first two *)
Definition sent : SessionState :=
  mkState (mkSend (mkPoint 0 0) (mkPoint 0 0) (mkPoint 1 0) Toy.frames 55 55 [mkRange 0 1] 55)
          (mkReceive point0 point0 [] [] 0) 30 conf true false.
Definition halfway : SessionState :=
  mkState (mkSend point0 point0 point0 [] 0 0 [] 0)
          (mkReceive (mkPoint 0 41) (mkPoint 0 41) [] [mkRange 0 1] 41) 0 conf true false.

Lemma frames_run : run (mkPoint 0 0) Toy.frames (mkPoint 1 0).
Proof. repeat (econstructor; [reflexivity|reflexivity|reflexivity|]). constructor. Qed.

Lemma halfway_run : run (mkPoint 0 0) (take 2 Toy.frames) (expected (receiver halfway)).
Proof. repeat (econstructor; [reflexivity|reflexivity|reflexivity|]). constructor. Qed.

Lemma sent_inv : sender_inv (sender sent).
Proof.
  unfold sender_inv, sent. cbn [sender replayList replayPoint sendPoint flushPoint replaySize unflushedSize offset command].
  assert (E : frames_size Toy.frames = 55) by reflexivity. rewrite E.
  split_and!; [done|unfold SequenceNumber.wf, is_uint; lia|simpl; lia|lia|done|].
  exists [], Toy.frames. split_and!; [done|constructor|exact frames_run|done].
Qed.

Lemma senderConfirmed_trims_witness :
  exists l1 n', senderConfirmed (mkPoint 1 0) sent = (with_sender sent n', Ret tt)
    /\ sender_inv n' /\ replayList (sender sent) = l1 ++ replayList n'
    /\ run (replayPoint (sender sent)) l1 (replayPoint n') /\ command (replayPoint n') = 1
    /\ sendPoint n' = sendPoint (sender sent) /\ s_incomplete n' = s_incomplete (sender sent).
Proof.
  apply (senderConfirmed_trims sent (mkPoint 1 0) sent_inv).
  unfold SequenceNumber.wf, is_uint. simpl. lia.
Defined.

Lemma senderRecord_records_witness :
  let f := mkFrame (Some (MethodBody (4, 1, 7))) 3 0 true true true true in
  exists s' o, senderRecord f sent = (s', o) /\ sender_inv (sender s')
    /\ replayList (sender s') = replayList (sender sent) ++ [f] /\ sendPoint (sender s') = mkPoint 2 0
    /\ stateful s' = true
    /\ s_incomplete (sender s') = SequenceSet.add1 (s_incomplete (sender sent)) (command (sendPoint (sender sent)))
    /\ o = (if negb (replayHardLimit (config sent) =? 0)
               && (replayHardLimit (config sent) <? frames_size (replayList (sender sent) ++ [f]))
            then Throw ResourceLimitExceededException else Ret tt).
Proof.
  intros f. apply (senderRecord_records sent f (mkPoint 2 0) sent_inv); reflexivity || done.
Defined.

Lemma sender_points_ordered_witness :
  point_le (replayPoint (sender sent)) (flushPoint (sender sent)) = true
  /\ point_le (flushPoint (sender sent)) (sendPoint (sender sent)) = true
  /\ exists s', senderRecordFlush sent = (s', Ret tt) /\ sender_inv (sender s')
       /\ flushPoint (sender s') = sendPoint (sender sent) /\ unflushedSize (sender s') = 0.
Proof. apply (sender_points_ordered sent sent_inv). Defined.

Lemma resume_exactly_once_witness :
  exists dup rcv1 rcv2,
    senderExpected (mkPoint 0 0) sent = (sent, Ret (dup ++ drop 2 Toy.frames))
    /\ receiverSetCommandPoint (mkPoint 0 0) halfway = (rcv1, Ret tt)
    /\ receive_all (dup ++ drop 2 Toy.frames) rcv1
       = (rcv2, Ret (map (fun _ => false) dup ++ map (fun _ => true) (drop 2 Toy.frames)))
    /\ expected (receiver rcv2) = sendPoint (sender sent)
    /\ received (receiver rcv2) = sendPoint (sender sent).
Proof.
  apply (resume_exactly_once sent halfway (take 2 Toy.frames) [] (drop 2 Toy.frames) sent_inv).
  - reflexivity.
  - reflexivity.
  - exact halfway_run.
  - constructor.
Defined.

Lemma receiverCompleted_moves_witness :
  exists s' first, receiverCompleted 0 true halfway = (s', Ret tt)
    /\ front (r_incomplete (receiver halfway)) = Some first
    /\ let moved := SequenceNumber.leb first 0 && SequenceNumber.leb 0 0 in
       SequenceSet.contains (r_incomplete (receiver s')) 0
         = SequenceSet.contains (r_incomplete (receiver halfway)) 0 && negb moved
       /\ SequenceSet.contains (unknownCompleted (receiver s')) 0
         = SequenceSet.contains (unknownCompleted (receiver halfway)) 0 || moved
       /\ SequenceSet.wf 0 (r_incomplete (receiver s')) /\ SequenceSet.wf 0 (unknownCompleted (receiver s')).
Proof.
  apply (receiverCompleted_moves 0 halfway 0 true 0);
    reflexivity || (apply (bool_decide_unpack _); reflexivity).
Defined.

Lemma senderCompleted_confirms_witness :
  exists n' o, senderCompleted [mkRange 0 1] sent = (with_sender sent n', o) /\ sender_inv n'
    /\ s_incomplete n' = SequenceSet.removeAll (s_incomplete (sender sent)) [mkRange 0 1]
    /\ sendPoint n' = sendPoint (sender sent)
    /\ o = Ret tt /\ command (replayPoint n') = 1
    /\ exists l1, replayList (sender sent) = l1 ++ replayList n'
                 /\ run (replayPoint (sender sent)) l1 (replayPoint n').
Proof.
  apply (senderCompleted_confirms sent (mkRange 0 1) [] sent_inv).
  unfold SequenceNumber.wf, is_uint. simpl. lia.
Defined.

End SessionState.
