(* ===== verification/TopicKey.v ===== *)
(** * Topic keys (src/qpid/broker/TopicKeyNode.h, TopicExchange::Normalizer)

    Routing keys and binding patterns are strings of tokens separated by dots.
    [TokenIterator] and [Normalizer] are modelled on indices into the string,
    as the code works with pointers; [tokens_spec] and [normalize_spec] relate
    them to the list of tokens.  [topic_match] is the matching AMQP specifies,
    and [normalize_sound] says that normalising a pattern does not change what
    it matches. *)

From Stdlib Require Import Ascii String.
From stdpp Require Import strings.
From S2P Require Import Prelude.
Local Open Scope nat_scope.

(** ** Characters *)

Definition DOT : ascii := "."%char.
Definition STAR : str := ["*"%char].
Definition HASH : str := ["#"%char].

(** [std::find(b, e, c)] on a range, as a distance from its beginning *)
Fixpoint find_char (c : ascii) (l : str) : nat :=
  match l with
  | [] => 0
  | x :: l' => if decide (x = c) then 0 else S (find_char c l')
  end.

(** the characters from [b] to [e] *)
Definition substr (s : str) (b e : nat) : str := take (e - b) (drop b s).

(** ** TokenIterator *)

(** [token] is [None] once both its pointers are null *)
Record TokenIterator := mkIter { ti_str : str; ti_end : nat; ti_token : option (nat * nat) }.

Definition find_dot (s : str) (b e : nat) : nat := b + find_char DOT (substr s b e).

Definition new_TokenIterator (s : str) : TokenIterator :=
  mkIter s (length s) (Some (0, find_dot s 0 (length s))).

Definition finished (it : TokenIterator) : bool :=
  match ti_token it with None => true | Some _ => false end.

Definition next (it : TokenIterator) : TokenIterator :=
  match ti_token it with
  | None => it
  | Some (_, e) =>
      if e =? ti_end it then mkIter (ti_str it) (ti_end it) None
      else mkIter (ti_str it) (ti_end it) (Some (S e, find_dot (ti_str it) (S e) (ti_end it)))
  end.

Definition token (it : TokenIterator) : str :=
  match ti_token it with None => [] | Some (b, e) => substr (ti_str it) b e end.

Definition pop (it : TokenIterator) : str * TokenIterator := (token it, next it).

Definition match1 (it : TokenIterator) (c : ascii) : bool :=
  match ti_token it with
  | None => false
  | Some (b, e) => (e =? S b) && bool_decide (ti_str it !! b = Some c)
  end.

Definition match_str (it : TokenIterator) (s : str) : bool := bool_decide (token it = s).

(** the tokens a loop [while (!it.finished()) it.pop(t)] delivers *)
Fixpoint tokens_loop (fuel : nat) (it : TokenIterator) : list str :=
  match fuel with
  | O => []
  | S n => if finished it then [] else let '(t, it') := pop it in t :: tokens_loop n it'
  end.

(** a key has at most one token more than characters *)
Definition tokens (s : str) : list str := tokens_loop (S (length s)) (new_TokenIterator s).

(** ** Normalizer *)

Definition erase (s : str) (i n : nat) : str := take i s ++ drop (i + n) s.

Definition swap_chars (s : str) (i j : nat) : str :=
  match s !! i, s !! j with
  | Some x, Some y => <[i := y]> (<[j := x]> s)
  | _, _ => s
  end.

Definition step_normalize (it : TokenIterator) : TokenIterator :=
  if match1 it "#"%char then
    match ti_token it with
    | None => it
    | Some (hash1, _) =>
        let it' := next it in
        match ti_token it' with
        | None => it'
        | Some (b, e) =>
            if match1 it' "#"%char then
              mkIter (erase (ti_str it') hash1 2) (ti_end it' - 2) (Some (b - 2, e - 2))
            else if match1 it' "*"%char then
              mkIter (swap_chars (ti_str it') hash1 b) (ti_end it') (Some (b, e))
            else it'
        end
    end
  else next it.

Fixpoint normalize_loop (fuel : nat) (it : TokenIterator) : TokenIterator :=
  match fuel with
  | O => it
  | S n => if finished it then it else normalize_loop n (step_normalize it)
  end.

(** every pass moves the token forward or shortens the string *)
Definition normalize (pattern : str) : str :=
  ti_str (normalize_loop (S (length pattern)) (new_TokenIterator pattern)).

(** ** Token lists *)

(** the tokens of a string, and the string of a list of tokens *)
Fixpoint split_dots (s : str) : list str :=
  match s with
  | [] => [[]]
  | c :: s' =>
      if decide (c = DOT) then [] :: split_dots s'
      else match split_dots s' with
           | t :: ts => (c :: t) :: ts
           | [] => [[c]]
           end
  end.

Fixpoint join_dots (ts : list str) : str :=
  match ts with
  | [] => []
  | [t] => t
  | t :: ts' => t ++ DOT :: join_dots ts'
  end.

Definition dot_free (t : str) : Prop := DOT ∉ t.

(** normal form of a list of tokens; [pending] when a [#] has been read *)
Fixpoint norm (pending : bool) (ts : list str) : list str :=
  match ts with
  | [] => if pending then [HASH] else []
  | t :: ts' =>
      if decide (t = HASH) then norm true ts'
      else if pending && bool_decide (t = STAR) then STAR :: norm true ts'
      else if pending then HASH :: t :: norm false ts'
      else t :: norm false ts'
  end.

(** ** Matching *)

(** [*] stands for one token, [#] for any number of them *)
Fixpoint topic_match (p k : list str) : bool :=
  match p with
  | [] => bool_decide (k = [])
  | t :: p' =>
      if decide (t = HASH) then
        (fix any (k : list str) : bool :=
           topic_match p' k || match k with [] => false | _ :: k' => any k' end) k
      else match k with
           | [] => false
           | x :: k' => (bool_decide (t = STAR) || bool_decide (t = x)) && topic_match p' k'
           end
  end.

Example match_1 : topic_match (tokens (s_ "a.*.#")) (tokens (s_ "a.b.c.d")) = true.
Proof. reflexivity. Qed.
Example normalize_1 : normalize (s_ "a.#.*.#.#.b.#") = s_ "a.*.#.b.#".
Proof. reflexivity. Qed.

Lemma norm_nonnil pending ts : norm pending ts = [] -> pending = false /\ ts = [].
Proof.
  revert pending. induction ts as [|t ts IH]; intros pending; simpl; [by destruct pending|].
  case_decide.
  - intros E. apply IH in E. by destruct E.
  - destruct (pending && bool_decide (t = STAR)); [done|]. by destruct pending.
Qed.

(** *** Splitting and joining *)

Lemma split_dots_nonnil s : split_dots s <> [].
Proof. destruct s as [|c s]; simpl; [done|]. case_decide; [done|]. by destruct (split_dots s). Qed.

Lemma join_split s : join_dots (split_dots s) = s.
Proof.
  induction s as [|c s IH]; simpl; [done|]. pose proof (split_dots_nonnil s).
  case_decide; subst.
  - destruct (split_dots s) as [|t ts] eqn:E; [done|]. simpl in *. by rewrite IH.
  - destruct (split_dots s) as [|t ts] eqn:E; [done|]. destruct ts; simpl in *; by rewrite IH.
Qed.

Lemma split_dots_free s : Forall dot_free (split_dots s).
Proof.
  induction s as [|c s IH]; simpl.
  - constructor; [apply not_elem_of_nil|constructor].
  - case_decide; [constructor; [apply not_elem_of_nil|done]|].
    pose proof (split_dots_nonnil s). destruct (split_dots s) as [|t ts]; [done|].
    apply Forall_cons in IH as [Ht Hts].
    constructor; [|done]. unfold dot_free in *. rewrite not_elem_of_cons. split; [congruence|done].
Qed.

Lemma split_dots_app t s : dot_free t -> split_dots (t ++ DOT :: s) = t :: split_dots s.
Proof.
  intros Ht. induction t as [|c t IH]; simpl; [done|].
  apply not_elem_of_cons in Ht as [Hc Ht]. case_decide; [congruence|]. by rewrite IH.
Qed.

Lemma split_dots_single t : dot_free t -> split_dots t = [t].
Proof.
  intros Ht. induction t as [|c t IH]; simpl; [done|].
  apply not_elem_of_cons in Ht as [Hc Ht]. case_decide; [congruence|]. by rewrite IH.
Qed.

Lemma split_join ts : ts <> [] -> Forall dot_free ts -> split_dots (join_dots ts) = ts.
Proof.
  intros Hne Hts. induction Hts as [|t ts Ht Hts IH]; [done|].
  destruct ts as [|t' ts]; simpl; [by apply split_dots_single|].
  rewrite split_dots_app by done. f_equal. by apply IH.
Qed.

Lemma find_char_free t s : dot_free t -> find_char DOT (t ++ DOT :: s) = length t.
Proof.
  induction t as [|c t IH]; simpl; intros Ht.
  - done.
  - apply not_elem_of_cons in Ht as [? ?]. rewrite decide_False by congruence. f_equal. auto.
Qed.

Lemma find_char_none t : dot_free t -> find_char DOT t = length t.
Proof.
  induction t as [|c t IH]; simpl; intros Ht; [done|].
  apply not_elem_of_cons in Ht as [? ?]. rewrite decide_False by congruence. f_equal. auto.
Qed.

(** *** The iterator delivers the tokens *)

(** an iterator at the head of [ts] in [pre ++ join_dots ts] *)
Definition at_tokens (it : TokenIterator) (pre : str) (ts : list str) : Prop :=
  ti_str it = pre ++ join_dots ts /\ ti_end it = length (ti_str it) /\ Forall dot_free ts
  /\ match ts with
     | [] => ti_token it = None
     | t :: _ => ti_token it = Some (length pre, length pre + length t)
     end.

Lemma join_cons_cons t t' ts : join_dots (t :: t' :: ts) = t ++ DOT :: join_dots (t' :: ts).
Proof. done. Qed.

Lemma substr_all pre s : substr (pre ++ s) (length pre) (length (pre ++ s)) = s.
Proof.
  unfold substr. rewrite drop_app_length, length_app. apply take_ge. lia.
Qed.

Lemma find_dot_join pre t ts :
  Forall dot_free (t :: ts) ->
  find_dot (pre ++ join_dots (t :: ts)) (length pre) (length (pre ++ join_dots (t :: ts)))
  = length pre + length t.
Proof.
  intros H. apply Forall_cons in H as [Ht _]. unfold find_dot. rewrite substr_all. f_equal.
  destruct ts; [by apply find_char_none|]. rewrite join_cons_cons. by apply find_char_free.
Qed.

Lemma new_TokenIterator_at ts :
  ts <> [] -> Forall dot_free ts -> at_tokens (new_TokenIterator (join_dots ts)) [] ts.
Proof.
  intros Hne Hts. destruct ts as [|t ts]; [done|]. split_and!; [done..|]. unfold new_TokenIterator. cbn [ti_token].
  do 2 f_equal. apply (find_dot_join [] t ts Hts).
Qed.

Lemma token_at it pre t ts : at_tokens it pre (t :: ts) -> token it = t.
Proof.
  intros (Hs & _ & _ & Ht). unfold token. rewrite Ht, Hs. unfold substr.
  replace (length pre + length t - length pre) with (length t) by lia. rewrite drop_app_length.
  destruct ts; [by apply take_ge|]. rewrite join_cons_cons. by apply take_app_length.
Qed.

Lemma next_at_last it pre t : at_tokens it pre [t] -> ti_token (next it) = None /\ ti_str (next it) = ti_str it.
Proof.
  intros (Hs & He & _ & Ht). unfold next. rewrite Ht, He, Hs, length_app. simpl.
  by rewrite Nat.eqb_refl.
Qed.

Lemma next_at it pre t t' ts :
  at_tokens it pre (t :: t' :: ts) -> at_tokens (next it) (pre ++ t ++ [DOT]) (t' :: ts).
Proof.
  intros (Hs & He & Hf & Ht). apply Forall_cons in Hf as [_ Hf].
  assert (Es : ti_str it = (pre ++ t ++ [DOT]) ++ join_dots (t' :: ts)).
  { rewrite Hs, join_cons_cons. rewrite <- !app_assoc. done. }
  assert (El : length (pre ++ t ++ [DOT]) = S (length pre + length t)) by (rewrite !length_app; simpl; lia).
  unfold next. rewrite Ht. rewrite (proj2 (Nat.eqb_neq _ _)).
  2: { rewrite He, Es, (length_app (pre ++ _)), El. lia. }
  split_and!; [done|done|done|]. cbn [ti_token]. rewrite He, Es, <- El. do 2 f_equal. by apply find_dot_join.
Qed.

Lemma length_split_dots s : length (split_dots s) <= S (length s).
Proof.
  induction s as [|c s IH]; simpl; [lia|]. case_decide; simpl; [lia|].
  destruct (split_dots s); simpl in *; lia.
Qed.

Lemma tokens_loop_enough fuel it pre ts :
  at_tokens it pre ts -> length ts <= fuel -> tokens_loop fuel it = ts.
Proof.
  revert fuel it pre. induction ts as [|t ts IH]; intros fuel it pre Hat Hf.
  - destruct Hat as (_ & _ & _ & Ht). destruct fuel; [done|]. simpl. unfold finished. by rewrite Ht.
  - destruct fuel as [|n]; [simpl in Hf; lia|].
    pose proof Hat as (_ & _ & _ & Ht). cbn [tokens_loop]. unfold finished. rewrite Ht. unfold pop.
    rewrite (token_at it pre t ts Hat). f_equal. simpl in Hf. destruct ts as [|t' ts].
    + destruct (next_at_last it pre t Hat) as [Hn _]. destruct n; [done|]. simpl. unfold finished. by rewrite Hn.
    + eapply IH; [by apply next_at|simpl in *; lia].
Qed.

Lemma tokens_spec s : tokens s = split_dots s.
Proof.
  unfold tokens. apply (tokens_loop_enough _ _ [] (split_dots s)).
  - rewrite <- (join_split s) at 1. apply new_TokenIterator_at; [apply split_dots_nonnil|apply split_dots_free].
  - apply length_split_dots.
Qed.

(** *** The normalizer computes the normal form *)

Lemma match1_at it pre t ts c : at_tokens it pre (t :: ts) -> match1 it c = bool_decide (t = [c]).
Proof.
  intros Hat. pose proof Hat as (Hs & _ & _ & Ht). unfold match1. rewrite Ht, Hs.
  assert (Hl : (pre ++ join_dots (t :: ts)) !! length pre = (t ++ match ts with [] => [] | _ => DOT :: join_dots ts end) !! 0).
  { rewrite lookup_app_r, Nat.sub_diag by lia. f_equal. destruct ts; [by rewrite app_nil_r|done]. }
  rewrite Hl. destruct t as [|x [|y t]]; cbn [length].
  - rewrite (proj2 (Nat.eqb_neq _ _)) by lia. symmetry. by apply bool_decide_eq_false_2.
  - rewrite (proj2 (Nat.eqb_eq _ _)) by lia. simpl. apply bool_decide_ext. split; congruence.
  - rewrite (proj2 (Nat.eqb_neq _ _)) by lia. symmetry. by apply bool_decide_eq_false_2.
Qed.

(** the tokens before the current one, each with its dot *)
Definition prefix_of (ts : list str) : str := concat (map (fun t => t ++ [DOT]) ts).

Lemma prefix_snoc pre t : prefix_of (pre ++ [t]) = prefix_of pre ++ t ++ [DOT].
Proof. unfold prefix_of. rewrite map_app, concat_app. simpl. by rewrite app_nil_r. Qed.

Lemma dot_free_HASH : dot_free HASH.
Proof. unfold dot_free, HASH. rewrite list_elem_of_singleton. done. Qed.
Lemma dot_free_STAR : dot_free STAR.
Proof. unfold dot_free, STAR. rewrite list_elem_of_singleton. done. Qed.

(** one pass at a token that is not [#] followed by a wildcard *)
Lemma step_plain it pre t ts :
  at_tokens it pre (t :: ts) ->
  (t = HASH -> match ts with t' :: _ => t' <> HASH /\ t' <> STAR | [] => True end) ->
  step_normalize it = next it.
Proof.
  intros Hat Hok. unfold step_normalize. rewrite (match1_at it pre t ts _ Hat).
  case_bool_decide as Eh; [|done]. specialize (Hok Eh).
  pose proof Hat as (_ & _ & _ & Ht). rewrite Ht. destruct ts as [|t' ts].
  - destruct (next_at_last it pre t Hat) as [-> _]. done.
  - pose proof (next_at it pre t t' ts Hat) as Hn. destruct Hok as [H1 H2].
    rewrite !(match1_at _ _ t' ts _ Hn). pose proof Hn as (_ & _ & _ & ->).
    by rewrite !bool_decide_eq_false_2.
Qed.

Lemma step_erase it pre ts :
  at_tokens it pre (HASH :: HASH :: ts) -> at_tokens (step_normalize it) pre (HASH :: ts).
Proof.
  intros Hat. unfold step_normalize. rewrite (match1_at it pre _ _ _ Hat), bool_decide_eq_true_2 by done.
  pose proof (next_at it pre _ _ ts Hat) as Hn. pose proof Hat as (Hs & He & Hf & ->).
  rewrite (match1_at _ _ _ ts _ Hn), bool_decide_eq_true_2 by done.
  pose proof Hn as (Hs' & He' & Hf' & ->).
  assert (El : length (pre ++ HASH ++ [DOT]) = length pre + 2) by (rewrite !length_app; simpl; lia).
  assert (Ee : erase (ti_str (next it)) (length pre) 2 = pre ++ join_dots (HASH :: ts)).
  { unfold erase. rewrite Hs'. rewrite <- El. rewrite drop_app_length, <- !app_assoc, take_app_length. done. }
  split_and!; [done| |done|].
  - simpl. rewrite Ee, He', Hs', !(length_app _ (join_dots _)), El. lia.
  - cbn [ti_token]. rewrite El. do 2 f_equal; simpl; lia.
Qed.

Lemma step_swap it pre ts :
  at_tokens it pre (HASH :: STAR :: ts) ->
  at_tokens (step_normalize it) (pre ++ STAR ++ [DOT]) (HASH :: ts).
Proof.
  intros Hat. unfold step_normalize. rewrite (match1_at it pre _ _ _ Hat), bool_decide_eq_true_2 by done.
  pose proof (next_at it pre _ _ ts Hat) as Hn. pose proof Hat as (Hs & He & Hf & ->).
  rewrite !(match1_at _ _ _ ts _ Hn), (bool_decide_eq_false_2 (STAR = _)), bool_decide_eq_true_2 by done.
  pose proof Hn as (Hs' & He' & Hf' & ->).
  assert (El : length (pre ++ HASH ++ [DOT]) = length pre + 2) by (rewrite !length_app; simpl; lia).
  set (tail := match ts with [] => [] | _ => DOT :: join_dots ts end).
  assert (Ej : forall t, join_dots (t :: ts) = t ++ tail) by (intros t; destruct ts; simpl; by rewrite ?app_nil_r).
  assert (Ee : swap_chars (ti_str (next it)) (length pre) (length (pre ++ HASH ++ [DOT]))
               = (pre ++ STAR ++ [DOT]) ++ join_dots (HASH :: ts)).
  { unfold swap_chars. rewrite El, Hs', !Ej, <- !app_assoc. simpl.
    rewrite lookup_app_r, Nat.sub_diag by lia. rewrite lookup_app_r by lia.
    replace (length pre + 2 - length pre) with 2 by lia. simpl.
    rewrite insert_app_r_alt by lia. replace (length pre + 2 - length pre) with 2 by lia. simpl.
    rewrite insert_app_r_alt by lia. rewrite Nat.sub_diag. done. }
  split_and!.
  - exact Ee.
  - cbn [ti_end ti_str]. rewrite Ee, He', Hs', !length_app, !Ej, !length_app. simpl. lia.
  - constructor; [apply dot_free_HASH|]. by apply Forall_cons in Hf' as [_ ?].
  - cbn [ti_token]. by rewrite !length_app.
Qed.

Lemma normalize_loop_spec n : forall ts fuel it pre,
  length ts <= n -> at_tokens it pre ts -> n <= fuel ->
  ti_str (normalize_loop fuel it) = pre ++ join_dots (norm false ts).
Proof.
  induction n as [|n IH]; intros ts fuel it pre Hl Hat Hf.
  { destruct ts; [|simpl in Hl; lia]. destruct Hat as (Hs & _ & _ & Ht).
    destruct fuel; simpl; unfold finished; by rewrite ?Ht. }
  destruct fuel as [|fuel]; [lia|]. destruct ts as [|t ts].
  { destruct Hat as (Hs & _ & _ & Ht). simpl. unfold finished. by rewrite Ht. }
  cbn [normalize_loop]. pose proof Hat as (Hs & _ & _ & Ht). unfold finished. rewrite Ht. simpl in Hl.
  destruct ts as [|t' ts].
  { rewrite (step_plain it pre t [] Hat) by done. destruct (next_at_last it pre t Hat) as [Hn Hs'].
    assert (E : ti_str (normalize_loop fuel (next it)) = ti_str it).
    { destruct fuel; simpl; [done|]. unfold finished. by rewrite Hn. }
    rewrite E, Hs. simpl. case_decide as Eh; [by rewrite Eh|done]. }
  destruct (decide (t = HASH)) as [->|Hh].
  - destruct (decide (t' = HASH)) as [->|Hh'].
    { rewrite (IH (HASH :: ts) fuel _ pre); [done|simpl in *; lia|by apply step_erase|lia]. }
    destruct (decide (t' = STAR)) as [->|Hs'].
    { rewrite (IH (HASH :: ts) fuel _ (pre ++ STAR ++ [DOT])); [|simpl in *; lia|by apply step_swap|lia].
      change (norm false (HASH :: STAR :: ts)) with (STAR :: norm true ts).
      change (norm false (HASH :: ts)) with (norm true ts).
      rewrite <- !app_assoc. destruct (norm true ts) as [|u us] eqn:E; [|done].
      exfalso. revert E. clear. intros E. by apply norm_nonnil in E as [? _]. }
    rewrite (step_plain it pre HASH (t' :: ts) Hat) by done.
    rewrite (IH (t' :: ts) fuel _ (pre ++ HASH ++ [DOT])); [|simpl in *; lia|by apply next_at|lia].
    rewrite <- !app_assoc. cbn [norm]. rewrite (decide_True (P := HASH = HASH)) by done.
    rewrite !(decide_False (P := t' = HASH)), bool_decide_eq_false_2 by done. done.
  - rewrite (step_plain it pre t (t' :: ts) Hat) by done.
    rewrite (IH (t' :: ts) fuel _ (pre ++ t ++ [DOT])); [|simpl in *; lia|by apply next_at|lia].
    change (norm false (t :: t' :: ts)) with
      (if decide (t = HASH) then norm true (t' :: ts) else t :: norm false (t' :: ts)).
    rewrite decide_False, <- !app_assoc by done.
    destruct (norm false (t' :: ts)) as [|u us] eqn:E; [|done]. by apply norm_nonnil in E as [_ ?].
Qed.

Lemma norm_dot_free pending ts : Forall dot_free ts -> Forall dot_free (norm pending ts).
Proof.
  intros H. revert pending. induction H as [|t ts Ht Hts IH]; intros pending; simpl.
  - destruct pending; repeat constructor. apply dot_free_HASH.
  - case_decide; [done|]. destruct (pending && _); [constructor; [apply dot_free_STAR|done]|].
    destruct pending; repeat (constructor; [done || apply dot_free_HASH|]); done.
Qed.

Lemma normalize_spec s : normalize s = join_dots (norm false (split_dots s)).
Proof.
  unfold normalize. apply (normalize_loop_spec (length (split_dots s)) (split_dots s) _ _ []); [done| |].
  - rewrite <- (join_split s) at 1. apply new_TokenIterator_at; [apply split_dots_nonnil|apply split_dots_free].
  - apply length_split_dots.
Qed.

Lemma tokens_normalize s : tokens (normalize s) = norm false (tokens s).
Proof.
  rewrite !tokens_spec, normalize_spec. apply split_join; [|apply norm_dot_free, split_dots_free].
  intros E. apply norm_nonnil in E as [_ E]. by apply split_dots_nonnil in E.
Qed.

(** a [#] is followed neither by [#] nor by [*] *)
Fixpoint normal (after_hash : bool) (ts : list str) : bool :=
  match ts with
  | [] => true
  | t :: ts' =>
      negb (after_hash && (bool_decide (t = HASH) || bool_decide (t = STAR)))
      && normal (bool_decide (t = HASH)) ts'
  end.

Lemma norm_normal ts : normal false (norm false ts) = true /\ normal false (norm true ts) = true.
Proof.
  induction ts as [|t ts [IH1 IH2]]; [done|]. split; simpl.
  - destruct (decide (t = HASH)) as [->|Hh]; [done|]. simpl.
    by rewrite (bool_decide_eq_false_2 _ Hh).
  - destruct (decide (t = HASH)) as [->|Hh]; [done|].
    destruct (bool_decide (t = STAR)) eqn:Es; simpl.
    + done.
    + by rewrite Es, !(bool_decide_eq_false_2 _ Hh).
Qed.

Lemma norm_id ts : normal false ts = true -> norm false ts = ts.
Proof.
  enough (H : normal false ts = true -> norm false ts = ts
            /\ (normal true ts = true -> norm true ts = HASH :: ts)) by (intros; by apply H).
  induction ts as [|t ts IH]; [done|]. cbn [normal norm]. simpl andb. cbv iota. intros Hn.
  destruct (decide (t = HASH)) as [->|Hh].
  - rewrite (bool_decide_eq_true_2 (HASH = HASH)) in * by done. split; [|done].
    apply IH; [|done]. revert Hn. clear. destruct ts as [|t ts]; [done|]. cbn [normal].
    rewrite !andb_true_iff. intros [_ ?]. done.
  - rewrite (bool_decide_eq_false_2 (t = HASH)) in * by done.
    destruct (IH Hn) as [E _]. rewrite E. split; [done|]. simpl.
    destruct (bool_decide (t = STAR)); [done|]. done.
Qed.

(** *** Matching *)

Lemma hash_match p k :
  topic_match (HASH :: p) k = true <-> exists k1 k2, k = k1 ++ k2 /\ topic_match p k2 = true.
Proof.
  cbn [topic_match]. rewrite decide_True by done. induction k as [|x k IH].
  - rewrite orb_true_iff. split; [intros [H|]; [|done]; by exists [], []|].
    intros (k1 & k2 & E & H). symmetry in E. apply app_nil in E as [-> ->]. auto.
  - rewrite orb_true_iff, IH. split.
    + intros [H|(k1 & k2 & -> & H)]; [by exists [], (x :: k)|by exists (x :: k1), k2].
    + intros (k1 & k2 & E & H). destruct k1 as [|y k1]; simpl in E; [subst; auto|].
      injection E as <- ->. right. eauto.
Qed.

Lemma plain_match t p k :
  t <> HASH ->
  topic_match (t :: p) k = match k with
    | [] => false
    | x :: k' => (bool_decide (t = STAR) || bool_decide (t = x)) && topic_match p k'
    end.
Proof. intros H. cbn [topic_match]. by rewrite decide_False. Qed.

Lemma hash_cons p x k : topic_match (HASH :: p) (x :: k) = topic_match p (x :: k) || topic_match (HASH :: p) k.
Proof. cbn [topic_match]. by rewrite decide_True. Qed.

#[global] Arguments topic_match : simpl never.

Lemma match_cons_ext t p p' k :
  (forall k, topic_match p k = topic_match p' k) -> topic_match (t :: p) k = topic_match (t :: p') k.
Proof.
  intros H. destruct (decide (t = HASH)) as [->|Hh].
  - apply eq_true_iff_eq. rewrite !hash_match. by setoid_rewrite H.
  - rewrite !plain_match by done. destruct k; [done|]. by rewrite H.
Qed.

Lemma hash_hash p k : topic_match (HASH :: HASH :: p) k = topic_match (HASH :: p) k.
Proof.
  apply eq_true_iff_eq. rewrite hash_match. setoid_rewrite hash_match. split.
  - intros (k1 & k2 & -> & k3 & k4 & -> & H). exists (k1 ++ k3), k4. by rewrite app_assoc.
  - intros (k1 & k2 & -> & H). exists [], (k1 ++ k2). eauto.
Qed.

Lemma hash_star p k : topic_match (HASH :: STAR :: p) k = topic_match (STAR :: HASH :: p) k.
Proof.
  apply eq_true_iff_eq. rewrite hash_match, plain_match by done. split.
  - intros (k1 & k2 & -> & H). rewrite plain_match in H by done. destruct k2 as [|x k2]; [done|].
    rewrite bool_decide_eq_true_2 in * by done. simpl in H. destruct k1 as [|y k1]; simpl.
    + apply hash_match. by exists [], k2.
    + apply hash_match. exists (k1 ++ [x]), k2. by rewrite <- app_assoc.
  - destruct k as [|x k]; [done|]. rewrite bool_decide_eq_true_2 by done. simpl. rewrite hash_match.
    intros (k1 & k2 & -> & H). destruct (exists_last_or_nil k1) as [-> | (k1' & y & ->)].
    + exists [], (x :: k2). split; [done|]. rewrite plain_match by done. by rewrite bool_decide_eq_true_2.
    + exists (x :: k1'), (y :: k2). split; [by rewrite <- app_assoc|].
      rewrite plain_match by done. by rewrite bool_decide_eq_true_2.
Qed.

Lemma norm_match ts k :
  topic_match (norm false ts) k = topic_match ts k /\ topic_match (norm true ts) k = topic_match (HASH :: ts) k.
Proof.
  revert k. induction ts as [|t ts IH]; intros k; [done|]. split; cbn [norm].
  - destruct (decide (t = HASH)) as [->|Hh]; [apply IH|]. simpl andb. cbv iota.
    apply match_cons_ext. intros. apply IH.
  - destruct (decide (t = HASH)) as [->|Hh].
    { rewrite (proj2 (IH k)). symmetry. apply hash_hash. }
    case_bool_decide as Hs; simpl andb; cbv iota.
    + subst t. rewrite hash_star. apply match_cons_ext. intros. apply IH.
    + do 2 (apply match_cons_ext; intros). apply IH.
Qed.

(** C36: normalisation is sound.  Rewriting a binding pattern to normal form,
    in place and on the characters of the string as the code does it, leaves a
    pattern that matches exactly the same routing keys, in which no [#] is
    followed by another wildcard, and which normalisation does not change
    again. *)
Theorem normalize_sound p k :
  topic_match (tokens (normalize p)) k = topic_match (tokens p) k
  /\ normal false (tokens (normalize p)) = true
  /\ normalize (normalize p) = normalize p.
Proof.
  rewrite tokens_normalize. split_and!; [apply norm_match|apply norm_normal|].
  rewrite (normalize_spec (normalize p)), <- tokens_spec, tokens_normalize.
  rewrite (normalize_spec p), tokens_spec. f_equal. apply norm_id, norm_normal.
Qed.

(**  the iterator delivers the tokens.  Draining a [TokenIterator] gives
    the dot-separated tokens of the key, which joined with dots give the key
    back; the empty key is one empty token. *)
Theorem iterator_splits s :
  join_dots (tokens s) = s /\ Forall dot_free (tokens s) /\ tokens s <> [].
Proof. rewrite tokens_spec. split_and!; [apply join_split|apply split_dots_free|apply split_dots_nonnil]. Qed.
