(* ===== verification/TopicTree.v ===== *)
(** * The binding tree (src/qpid/broker/TopicKeyNode.h)

    [TopicKeyNode<T>]: bindings are stored under the tokens of their pattern,
    with separate children for the wildcards.  A [TokenIterator] argument is
    the list of the tokens it has still to deliver (theorem [iterator_splits]
    of TopicKey).  A pointer to a node's [bindings] is a path; writing through
    it is [update].  [matches_spec] is the correctness of the match: on a tree
    without a [#] below a [#], the nodes visited are exactly the bound ones
    whose pattern matches the key. *)

From Stdlib Require Import Ascii String.
From stdpp Require Import strings.
From S2P Require Import Prelude TopicKey.
Local Open Scope nat_scope.

(** ** [std::map] with string keys, kept in key order *)

Fixpoint str_ltb (a b : str) : bool :=
  match a, b with
  | _, [] => false
  | [], _ :: _ => true
  | x :: a', y :: b' =>
      (nat_of_ascii x <? nat_of_ascii y) || ((nat_of_ascii x =? nat_of_ascii y) && str_ltb a' b')
  end.

Definition str_lt (a b : str) : Prop := str_ltb a b = true.

Lemma str_lt_irrefl a : ~ str_lt a a.
Proof.
  unfold str_lt. induction a as [|x a IH]; simpl; [done|].
  rewrite Nat.ltb_irrefl, Nat.eqb_refl. done.
Qed.

Lemma str_lt_trans a b c : str_lt a b -> str_lt b c -> str_lt a c.
Proof.
  unfold str_lt. revert b c. induction a as [|x a IH]; intros [|y b] [|z c]; simpl; try done.
  rewrite !orb_true_iff, !andb_true_iff, !Nat.ltb_lt, !Nat.eqb_eq.
  intros [?|[? ?]] [?|[? ?]]; [left; lia|left; lia|left; lia|right; split; [lia|eauto]].
Qed.

Lemma str_lt_total a b : str_lt a b \/ a = b \/ str_lt b a.
Proof.
  unfold str_lt. revert b. induction a as [|x a IH]; intros [|y b]; simpl; auto.
  rewrite !orb_true_iff, !andb_true_iff, !Nat.ltb_lt, !Nat.eqb_eq.
  destruct (Nat.lt_trichotomy (nat_of_ascii x) (nat_of_ascii y)) as [|[E|]]; [auto| |auto].
  assert (x = y) as -> by (by rewrite <- (ascii_nat_embedding x), E, ascii_nat_embedding).
  destruct (IH b) as [|[->|]]; auto.
Qed.

Section map.
Context {V : Type}.

Fixpoint map_find (k : str) (m : list (str * V)) : option V :=
  match m with
  | [] => None
  | (k', v) :: m' => if decide (k' = k) then Some v else map_find k m'
  end.

Fixpoint map_insert (k : str) (v : V) (m : list (str * V)) : list (str * V) :=
  match m with
  | [] => [(k, v)]
  | (k', v') :: m' =>
      if decide (k' = k) then (k, v) :: m'
      else if str_ltb k k' then (k, v) :: m
      else (k', v') :: map_insert k v m'
  end.

Fixpoint map_erase (k : str) (m : list (str * V)) : list (str * V) :=
  match m with
  | [] => []
  | (k', v) :: m' => if decide (k' = k) then m' else (k', v) :: map_erase k m'
  end.

Lemma map_find_insert k v m : map_find k (map_insert k v m) = Some v.
Proof.
  induction m as [|[k' v'] m IH]; simpl; [by rewrite decide_True|].
  destruct (decide (k' = k)) as [->|Hne]; simpl; [by rewrite decide_True|].
  destruct (str_ltb k k'); simpl; [by rewrite decide_True|]. by rewrite decide_False.
Qed.

Lemma map_find_insert_ne k k' v m : k <> k' -> map_find k' (map_insert k v m) = map_find k' m.
Proof.
  intros Hne. induction m as [|[k1 v1] m IH]; simpl; [by rewrite decide_False|].
  destruct (decide (k1 = k)) as [->|Hne1]; simpl; [by rewrite !decide_False|].
  destruct (str_ltb k k1); simpl; [by rewrite (decide_False (P := k = k'))|]. by rewrite IH.
Qed.

Lemma map_find_erase_ne k k' m : k <> k' -> map_find k' (map_erase k m) = map_find k' m.
Proof.
  intros Hne. induction m as [|[k1 v1] m IH]; simpl; [done|].
  destruct (decide (k1 = k)) as [->|Hne1]; simpl; [by rewrite decide_False|]. by rewrite IH.
Qed.

Lemma map_find_None k m : k ∉ map fst m -> map_find k m = None.
Proof.
  induction m as [|[k1 v1] m IH]; simpl; intros H; [done|].
  apply not_elem_of_cons in H as [? ?]. rewrite decide_False by done. auto.
Qed.

Lemma map_find_erase k m : NoDup (map fst m) -> map_find k (map_erase k m) = None.
Proof.
  induction m as [|[k1 v1] m IH]; simpl; intros Hnd; [done|]. apply NoDup_cons in Hnd as [Hn Hnd].
  destruct (decide (k1 = k)) as [->|Hne1]; simpl; [by apply map_find_None|].
  rewrite decide_False by done. auto.
Qed.

Lemma map_find_elem k v m : map_find k m = Some v -> (k, v) ∈ m.
Proof.
  induction m as [|[k1 v1] m IH]; simpl; [done|].
  case_decide; [intros [= <-]; subst; by left|]. intros. right. auto.
Qed.

Lemma elem_map_insert k v x m : x ∈ map_insert k v m -> x = (k, v) \/ x ∈ m.
Proof.
  induction m as [|[k1 v1] m IH]; simpl; [by rewrite list_elem_of_singleton; left|].
  case_decide; [rewrite !elem_of_cons; tauto|].
  destruct (str_ltb k k1); rewrite !elem_of_cons; tauto.
Qed.

Lemma elem_map_erase k x m : x ∈ map_erase k m -> x ∈ m.
Proof. induction m as [|[k1 v1] m IH]; simpl; [done|].
  case_decide; rewrite !elem_of_cons; tauto.
Qed.

Lemma fst_map_insert k v m x : x ∈ map fst (map_insert k v m) <-> x = k \/ x ∈ map fst m.
Proof.
  induction m as [|[k1 v1] m IH]; simpl; [rewrite list_elem_of_singleton, elem_of_nil; tauto|].
  case_decide; [subst; simpl; rewrite !elem_of_cons; tauto|].
  destruct (str_ltb k k1); simpl; rewrite !elem_of_cons; tauto.
Qed.

Lemma fst_map_erase k m x : x ∈ map fst (map_erase k m) -> x ∈ map fst m.
Proof. induction m as [|[k1 v1] m IH]; simpl; [done|].
  case_decide; simpl; rewrite !elem_of_cons; tauto.
Qed.

(** the keys are in strictly ascending order *)
Definition map_ok (m : list (str * V)) : Prop := StronglySorted str_lt (map fst m).

Lemma map_ok_insert k v m : map_ok m -> map_ok (map_insert k v m).
Proof.
  unfold map_ok. induction m as [|[k1 v1] m IH]; simpl; intros Hs; [repeat constructor|].
  pose proof Hs as Hs'. apply StronglySorted_inv in Hs' as [Hm Hall].
  destruct (decide (k1 = k)) as [->|Hne]; [done|]. destruct (str_ltb k k1) eqn:Hlt; simpl.
  - constructor; [done|]. constructor; [done|]. eapply Forall_impl; [exact Hall|].
    intros x Hx. by apply (str_lt_trans k k1 x).
  - constructor; [by apply IH|]. apply Forall_forall. intros x Hx. apply fst_map_insert in Hx as [->|Hx].
    + by destruct (str_lt_total k k1) as [|[|]]; unfold str_lt in *; congruence.
    + rewrite Forall_forall in Hall. auto.
Qed.

Lemma map_ok_erase k m : map_ok m -> map_ok (map_erase k m).
Proof.
  unfold map_ok. induction m as [|[k1 v1] m IH]; simpl; intros Hs; [done|].
  apply StronglySorted_inv in Hs as [Hm Hall]. case_decide; [done|]. simpl.
  constructor; [by apply IH|]. apply Forall_forall. intros x Hx. apply fst_map_erase in Hx.
  rewrite Forall_forall in Hall. auto.
Qed.

Lemma map_ok_NoDup m : map_ok m -> NoDup (map fst m).
Proof.
  unfold map_ok. induction m as [|[k1 v1] m IH]; simpl; intros Hs; [constructor|].
  apply StronglySorted_inv in Hs as [Hm Hall]. constructor; [|by apply IH].
  intros Hin. rewrite Forall_forall in Hall. by apply (str_lt_irrefl k1), Hall.
Qed.

Lemma map_elem_find k v m : map_ok m -> (k, v) ∈ m -> map_find k m = Some v.
Proof.
  intros Hs Hin. apply map_ok_NoDup in Hs. induction m as [|[k1 v1] m IH]; simpl in *; [by apply elem_of_nil in Hin|].
  apply NoDup_cons in Hs as [Hn Hm]. apply elem_of_cons in Hin as [[= -> ->]|Hin].
  - by rewrite decide_True.
  - rewrite decide_False; [auto|]. intros ->. apply Hn. by apply (list_elem_of_fmap_2 fst) in Hin.
Qed.
End map.

(** ** Nodes *)

Inductive TopicKeyNode (T : Type) : Type :=
| Node (routePattern : str) (bindings : T) (token : str) (isStar isHash : bool)
       (childTokens : list (str * TopicKeyNode T)) (starChild hashChild : option (TopicKeyNode T)).
Arguments Node {T} routePattern bindings token isStar isHash childTokens starChild hashChild.

(** what the tree needs of the bindings of a node: an initial value, and whether there are none *)
Class Bindings (T : Type) := { no_bindings : T; vec_empty : T -> bool; vec_empty_none : vec_empty no_bindings = true }.

Section tree.
Context {T : Type} `{!Bindings T}.
Abbreviation node := (TopicKeyNode T).
Implicit Types (n c m : node) (t : str) (ts us key : list str).

Definition routePattern n := match n with Node rp _ _ _ _ _ _ _ => rp end.
Definition bindings n := match n with Node _ b _ _ _ _ _ _ => b end.
Definition isStar n := match n with Node _ _ _ st _ _ _ _ => st end.
Definition isHash n := match n with Node _ _ _ _ hs _ _ _ => hs end.
Definition childTokens n := match n with Node _ _ _ _ _ ch _ _ => ch end.
Definition starChild n := match n with Node _ _ _ _ _ _ sc _ => sc end.
Definition hashChild n := match n with Node _ _ _ _ _ _ _ hc => hc end.

(** the two constructors *)
Definition root_node : node := Node [] no_bindings [] false false [] None None.
Definition new_node t : node :=
  Node [] no_bindings t (bool_decide (t = STAR)) (bool_decide (t = HASH)) [] None None.

Definition getChildCount n : nat :=
  length (childTokens n) + (if starChild n then 1 else 0) + (if hashChild n then 1 else 0).

(** the child a token of a pattern selects, and assigning to it (erasing it) *)
Definition child t n : option node :=
  if decide (t = STAR) then starChild n
  else if decide (t = HASH) then hashChild n
  else map_find t (childTokens n).

Definition set_child t (oc : option node) n : node :=
  match n with
  | Node rp b tk st hs ch sc hc =>
      if decide (t = STAR) then Node rp b tk st hs ch oc hc
      else if decide (t = HASH) then Node rp b tk st hs ch sc oc
      else Node rp b tk st hs
             (match oc with Some c => map_insert t c ch | None => map_erase t ch end) sc hc
  end.

Definition set_pattern (full : str) n : node :=
  match n with Node _ b tk st hs ch sc hc => Node full b tk st hs ch sc hc end.
Definition set_bindings (b : T) n : node :=
  match n with Node rp _ tk st hs ch sc hc => Node rp b tk st hs ch sc hc end.

Fixpoint add ts (full : str) n : outcome node :=
  match ts with
  | [] =>
      if decide (routePattern n = []) then Ret (set_pattern full n)
      else if decide (routePattern n = full) then Ret n
      else Throw AssertionFailed
  | t :: ts' =>
      let c := match child t n with Some c => c | None => new_node t end in
      match add ts' full c with
      | Ret c' => Ret (set_child t (Some c') n)
      | Throw e => Throw e
      end
  end.

Definition removable n : bool := (getChildCount n =? 0) && vec_empty (bindings n).

Fixpoint remove ts n : node * bool :=
  let n' :=
    match ts with
    | [] => n
    | t :: ts' =>
        match child t n with
        | None => n
        | Some c =>
            let '(c', r) := remove ts' c in
            set_child t (if r then None else Some c') n
        end
    end in
  (n', removable n').

Fixpoint get ts n : option node :=
  match ts with
  | [] => Some n
  | t :: ts' => match child t n with Some c => get ts' c | None => None end
  end.

(** writing through the pointer [add] or [get] returned *)
Fixpoint update ts (f : T -> T) n : node :=
  match ts with
  | [] => set_bindings (f (bindings n)) n
  | t :: ts' => match child t n with Some c => set_child t (Some (update ts' f c)) n | None => n end
  end.

(** *** Visiting

    [visit] returns whether to go on. *)

Section visit.
Context {S : Type} (visit : node -> S -> S * bool).

Definition visit_bound n (s : S) : S * bool :=
  if vec_empty (bindings n) then (s, true) else visit n s.

(** [if (!first) return false; second] *)
Definition and_then (r : S * bool) (k : S -> S * bool) : S * bool :=
  let '(s, go) := r in if go then k s else (s, false).

Fixpoint iterateAll n (s : S) : S * bool :=
  match n with
  | Node _ _ _ _ _ ch sc hc =>
      and_then (visit n s) (fun s =>
      and_then (match sc with Some c => iterateAll c s | None => (s, true) end) (fun s =>
      and_then (match hc with Some c => iterateAll c s | None => (s, true) end) (fun s =>
        (fix loop l s := match l with
                         | [] => (s, true)
                         | (_, c) :: l' => and_then (iterateAll c s) (loop l')
                         end) ch s)))
  end.

Fixpoint iterateMatch n key (s : S) {struct n} : S * bool :=
  match n with
  | Node _ _ _ st hs ch sc hc =>
      let iterateMatchChildren key s :=
        and_then (match hc with Some c => iterateMatch c key s | None => (s, true) end) (fun s =>
        match key with
        | [] => (s, true)
        | next_token :: key' =>
            and_then (match sc with Some c => iterateMatch c key s | None => (s, true) end) (fun s =>
              (fix find l := match l with
                             | [] => (s, true)
                             | (k, c) :: l' =>
                                 if decide (k = next_token) then iterateMatch c key' s else find l'
                             end) ch)
        end) in
      let iterateMatchString key s :=
        and_then (match key with [] => visit_bound n s | _ => (s, true) end)
          (fun s => iterateMatchChildren key s) in
      if st then match key with [] => (s, true) | _ :: key' => iterateMatchString key' s end
      else if hs then
        (fix loop key s := match key with
                           | [] => visit_bound n s
                           | _ :: key' => and_then (iterateMatchChildren key s) (loop key')
                           end) key s
      else iterateMatchString key s
  end.
End visit.

(** ** Specification of the traversals *)

(** all nodes, in the order [iterateAll] visits them *)
Fixpoint all_nodes n : list node :=
  match n with
  | Node _ _ _ _ _ ch sc hc =>
      n :: (match sc with Some c => all_nodes c | None => [] end)
        ++ (match hc with Some c => all_nodes c | None => [] end)
        ++ (fix loop l := match l with [] => [] | (_, c) :: l' => all_nodes c ++ loop l' end) ch
  end.

Definition if_bound n : list node := if vec_empty (bindings n) then [] else [n].

(** the nodes [iterateMatch] visits, in order *)
Fixpoint matches n key {struct n} : list node :=
  match n with
  | Node _ _ _ st hs ch sc hc =>
      let children key :=
        (match hc with Some c => matches c key | None => [] end) ++
        match key with
        | [] => []
        | next_token :: key' =>
            (match sc with Some c => matches c key | None => [] end) ++
            (fix find l := match l with
                           | [] => []
                           | (k, c) :: l' => if decide (k = next_token) then matches c key' else find l'
                           end) ch
        end in
      let here key := (match key with [] => if_bound n | _ => [] end) ++ children key in
      if st then match key with [] => [] | _ :: key' => here key' end
      else if hs then
        (fix loop key := match key with [] => if_bound n | _ :: key' => children key ++ loop key' end) key
      else here key
  end.

(** visiting a list of nodes until one says stop *)
Fixpoint visit_list {S} (visit : node -> S -> S * bool) (l : list node) (s : S) : S * bool :=
  match l with
  | [] => (s, true)
  | n :: l' => and_then (visit n s) (visit_list visit l')
  end.

End tree.

Section tree_ind.
Context {T : Type} (P : TopicKeyNode T -> Prop)
  (H : forall rp b tk st hs ch sc hc,
     Forall (fun kc : str * TopicKeyNode T => P kc.2) ch ->
     (forall c, sc = Some c -> P c) -> (forall c, hc = Some c -> P c) ->
     P (Node rp b tk st hs ch sc hc)).

Fixpoint node_ind' (n : TopicKeyNode T) : P n.
Proof.
  destruct n as [rp b tk st hs ch sc hc]. apply H.
  - induction ch as [|[k c] ch IH]; constructor; [apply node_ind'|exact IH].
  - intros c E. destruct sc as [c'|]; [|discriminate]. injection E as <-. apply node_ind'.
  - intros c E. destruct hc as [c'|]; [|discriminate]. injection E as <-. apply node_ind'.
Qed.
End tree_ind.

Section tree_props.
Context {T : Type} `{!Bindings T}.
Abbreviation node := (TopicKeyNode T).
Implicit Types (n c m : node) (t : str) (ts us key : list str).

(** *** Traversals visit the specified nodes *)

Lemma and_then_assoc {S} (r : S * bool) k1 k2 :
  and_then (and_then r k1) k2 = and_then r (fun s => and_then (k1 s) k2).
Proof. by destruct r as [s []]. Qed.

Lemma and_then_ret {S} (r : S * bool) : and_then r (fun s => (s, true)) = r.
Proof. by destruct r as [s []]. Qed.

Lemma and_then_ext {S} (r : S * bool) k1 k2 :
  (forall s, k1 s = k2 s) -> and_then r k1 = and_then r k2.
Proof. intros H. destruct r as [s []]; simpl; auto. Qed.

Lemma visit_list_app {S} (visit : node -> S -> S * bool) l1 l2 s :
  visit_list visit (l1 ++ l2) s = and_then (visit_list visit l1 s) (visit_list visit l2).
Proof.
  revert s. induction l1 as [|n l1 IH]; intros s; simpl; [done|].
  rewrite and_then_assoc. apply and_then_ext. done.
Qed.

Lemma visit_bound_list {S} (visit : node -> S -> S * bool) n s :
  visit_bound visit n s = visit_list visit (if_bound n) s.
Proof. unfold visit_bound, if_bound. destruct (vec_empty _); simpl; [done|]. by rewrite and_then_ret. Qed.

(** the children part of [matches] *)
Definition m_children n key : list node :=
  (match hashChild n with Some c => matches c key | None => [] end) ++
  match key with
  | [] => []
  | next_token :: key' =>
      (match starChild n with Some c => matches c key | None => [] end) ++
      (match map_find next_token (childTokens n) with Some c => matches c key' | None => [] end)
  end.

Fixpoint m_hash n key : list node :=
  match key with [] => if_bound n | _ :: key' => m_children n key ++ m_hash n key' end.

Definition m_here n key : list node :=
  (match key with [] => if_bound n | _ => [] end) ++ m_children n key.

Lemma matches_eq n key :
  matches n key = if isStar n then match key with [] => [] | _ :: key' => m_here n key' end
                  else if isHash n then m_hash n key else m_here n key.
Proof.
  destruct n as [rp b tk st hs ch sc hc]. set (n := Node rp b tk st hs ch sc hc).
  assert (Hf : forall next_token key',
    (fix find l := match l with
                   | [] => []
                   | (k, c) :: l' => if decide (k = next_token) then matches c key' else find l'
                   end) ch
    = match map_find next_token ch with Some c => matches c key' | None => [] end).
  { intros tok key'. clear n. induction ch as [|[k c] ch IH]; simpl; [done|]. by case_decide. }
  cbn [matches isStar isHash n]. destruct st; [|destruct hs].
  - destruct key as [|x [|y key]]; [done|..]; unfold m_here, m_children; simpl; by rewrite ?Hf.
  - induction key as [|x key IH]; [done|]. cbn [m_hash]. rewrite <- IH. f_equal.
    unfold m_children. simpl. by rewrite Hf.
  - destruct key as [|x key]; unfold m_here, m_children; simpl; by rewrite ?Hf.
Qed.

(** the children part of [iterateMatch] *)
Definition i_children {S} (visit : node -> S -> S * bool) n key (s : S) : S * bool :=
  and_then (match hashChild n with Some c => iterateMatch visit c key s | None => (s, true) end) (fun s =>
  match key with
  | [] => (s, true)
  | next_token :: key' =>
      and_then (match starChild n with Some c => iterateMatch visit c key s | None => (s, true) end) (fun s =>
        match map_find next_token (childTokens n) with
        | Some c => iterateMatch visit c key' s
        | None => (s, true)
        end)
  end).

Fixpoint i_hash {S} (visit : node -> S -> S * bool) n key (s : S) : S * bool :=
  match key with
  | [] => visit_bound visit n s
  | _ :: key' => and_then (i_children visit n key s) (i_hash visit n key')
  end.

Definition i_here {S} (visit : node -> S -> S * bool) n key (s : S) : S * bool :=
  and_then (match key with [] => visit_bound visit n s | _ => (s, true) end) (i_children visit n key).

Lemma iterateMatch_eq {S} (visit : node -> S -> S * bool) n key s :
  iterateMatch visit n key s
  = if isStar n then match key with [] => (s, true) | _ :: key' => i_here visit n key' s end
    else if isHash n then i_hash visit n key s else i_here visit n key s.
Proof.
  destruct n as [rp b tk st hs ch sc hc]. set (n := Node rp b tk st hs ch sc hc).
  assert (Hf : forall next_token key' s,
    (fix find l := match l with
                   | [] => (s, true)
                   | (k, c) :: l' =>
                       if decide (k = next_token) then iterateMatch visit c key' s else find l'
                   end) ch
    = match map_find next_token ch with Some c => iterateMatch visit c key' s | None => (s, true) end).
  { intros tok key' s'. clear n. induction ch as [|[k c] ch IH]; simpl; [done|]. by case_decide. }
  assert (Hc : forall key s,
    and_then (match hc with Some c => iterateMatch visit c key s | None => (s, true) end) (fun s =>
        match key with
        | [] => (s, true)
        | next_token :: key' =>
            and_then (match sc with Some c => iterateMatch visit c key s | None => (s, true) end) (fun s =>
              (fix find l := match l with
                             | [] => (s, true)
                             | (k, c) :: l' =>
                                 if decide (k = next_token) then iterateMatch visit c key' s else find l'
                             end) ch)
        end) = i_children visit n key s).
  { intros key' s'. apply and_then_ext. intros s1. destruct key'; [done|]. apply and_then_ext. intros. apply Hf. }
  cbn [iterateMatch isStar isHash n]. destruct st; [|destruct hs].
  - destruct key as [|x key]; [done|]. apply and_then_ext. intros. apply Hc.
  - revert s. induction key as [|x key IH]; intros s; [done|]. cbn [i_hash].
    rewrite <- Hc. apply and_then_ext. intros. apply IH.
  - apply and_then_ext. intros. apply Hc.
Qed.

Lemma iterateMatch_list {S} (visit : node -> S -> S * bool) n : forall key s,
  iterateMatch visit n key s = visit_list visit (matches n key) s.
Proof.
  induction n as [rp b tk st hs ch sc hc Hch Hsc Hhc] using node_ind'.
  set (n := Node rp b tk st hs ch sc hc).
  assert (Hc : forall key s, i_children visit n key s = visit_list visit (m_children n key) s).
  { intros key s. unfold i_children, m_children. rewrite visit_list_app. simpl.
    assert (Hh : forall o, (forall c, o = Some c -> forall key s, iterateMatch visit c key s = visit_list visit (matches c key) s) ->
      forall key s, match o with Some c => iterateMatch visit c key s | None => (s, true) end
                    = visit_list visit (match o with Some c => matches c key | None => [] end) s).
    { intros [c|] Ho key' s'; [by apply Ho|done]. }
    rewrite (Hh hc Hhc). apply and_then_ext. intros s1. destruct key as [|tok key]; [done|].
    rewrite visit_list_app, (Hh sc Hsc). apply and_then_ext. intros s2. apply (Hh (map_find tok ch)).
    intros c Hf. apply map_find_elem in Hf. rewrite Forall_forall in Hch. apply (Hch _ Hf). }
  assert (Hhere : forall key s, i_here visit n key s = visit_list visit (m_here n key) s).
  { intros key s. unfold i_here, m_here. rewrite visit_list_app.
    destruct key; [|apply Hc]. rewrite visit_bound_list. apply and_then_ext. intros. apply Hc. }
  intros key s. rewrite iterateMatch_eq, matches_eq. destruct (isStar n).
  { destruct key; [done|]. apply Hhere. }
  destruct (isHash n); [|apply Hhere]. revert s. induction key as [|x key IH]; intros s.
  - apply visit_bound_list.
  - cbn [i_hash m_hash]. rewrite Hc, visit_list_app. apply and_then_ext. apply IH.
Qed.

Lemma iterateAll_list {S} (visit : node -> S -> S * bool) n : forall s,
  iterateAll visit n s = visit_list visit (all_nodes n) s.
Proof.
  induction n as [rp b tk st hs ch sc hc Hch Hsc Hhc] using node_ind'. intros s.
  cbn [iterateAll all_nodes visit_list]. apply and_then_ext. intros s1. rewrite visit_list_app.
  assert (Ho : forall o, (forall c, o = Some c -> forall s, iterateAll visit c s = visit_list visit (all_nodes c) s) ->
    forall s, match o with Some c => iterateAll visit c s | None => (s, true) end
              = visit_list visit (match o with Some c => all_nodes c | None => [] end) s).
  { intros [c|] Ho s'; [by apply Ho|done]. }
  rewrite (Ho sc Hsc). apply and_then_ext. intros s2. rewrite visit_list_app, (Ho hc Hhc).
  apply and_then_ext. clear -Hch. induction Hch as [|[k c] ch Hc Hch IH]; intros s; [done|].
  rewrite visit_list_app. simpl in Hc. rewrite Hc. apply and_then_ext. apply IH.
Qed.

(** ** Well-formed trees *)

(** what the parent knows of the child under a token *)
Definition kind_ok t c : Prop :=
  isStar c = bool_decide (t = STAR) /\ isHash c = bool_decide (t = HASH).

Inductive wf : node -> Prop :=
| wf_node n :
    map_ok (childTokens n) ->
    (forall k c, (k, c) ∈ childTokens n -> k <> STAR /\ k <> HASH) ->
    (forall t c, child t n = Some c -> kind_ok t c) ->
    (isHash n = true -> hashChild n = None) ->
    (forall t c, child t n = Some c -> wf c) ->
    wf n.

Lemma wf_inv n : wf n ->
  map_ok (childTokens n) /\ (forall k c, (k, c) ∈ childTokens n -> k <> STAR /\ k <> HASH)
  /\ (forall t c, child t n = Some c -> kind_ok t c) /\ (isHash n = true -> hashChild n = None)
  /\ (forall t c, child t n = Some c -> wf c).
Proof. destruct 1. auto. Qed.

Lemma child_STAR n : child STAR n = starChild n.
Proof. unfold child. by rewrite decide_True. Qed.
Lemma child_HASH n : child HASH n = hashChild n.
Proof. unfold child. rewrite decide_False by done. by rewrite decide_True. Qed.
Lemma child_lit t n : t <> STAR -> t <> HASH -> child t n = map_find t (childTokens n).
Proof. intros. unfold child. by rewrite !decide_False. Qed.

Lemma find_lit n k c : wf n -> map_find k (childTokens n) = Some c -> child k n = Some c /\ k <> STAR /\ k <> HASH.
Proof.
  intros Hwf Hf. destruct (wf_inv n Hwf) as (_ & Hlit & _).
  destruct (Hlit k c (map_find_elem _ _ _ Hf)). by rewrite child_lit.
Qed.

(** the tokens a node consumes itself *)
Definition self n : list str := if isStar n then [STAR] else if isHash n then [HASH] else [].

Lemma self_kind t c : kind_ok t c -> self c = if decide (t = STAR) then [STAR] else if decide (t = HASH) then [HASH] else [].
Proof.
  intros [H1 H2]. unfold self. rewrite H1, H2. unfold bool_decide.
  by repeat case_decide.
Qed.

Definition bound m : bool := negb (vec_empty (bindings m)).

(** a node at [ts] below [n] that is bound and reached by [key] *)
Definition matched n ts key m : Prop :=
  get ts n = Some m /\ bound m = true /\ topic_match (self n ++ ts) key = true.

Lemma elem_if_bound n m : m ∈ if_bound n <-> m = n /\ bound m = true.
Proof.
  unfold if_bound, bound. destruct (vec_empty (bindings n)) eqn:E; simpl.
  - rewrite elem_of_nil. split; [done|]. intros [-> H]. by rewrite E in H.
  - rewrite list_elem_of_singleton. split; [intros ->; by rewrite E|tauto].
Qed.

(** *** The match visits exactly the matching nodes *)

Section match_spec.
Context (n : node) (Hwf : wf n)
  (IH : forall t c, child t n = Some c -> forall key m, m ∈ matches c key <-> exists ts, matched c ts key m).

Lemma m_children_spec key m :
  m ∈ m_children n key <-> exists t ts, get (t :: ts) n = Some m /\ bound m = true
                                      /\ topic_match (t :: ts) key = true.
Proof using Hwf IH.
  destruct (wf_inv n Hwf) as (_ & _ & Hkind & _ & _).
  assert (Hsub : forall t c k, child t n = Some c ->
     m ∈ matches c k <-> exists ts, get (t :: ts) n = Some m /\ bound m = true
       /\ topic_match ((if decide (t = STAR) then [STAR] else if decide (t = HASH) then [HASH] else []) ++ ts) k = true).
  { intros t c k Hc. rewrite (IH t c Hc). unfold matched. rewrite (self_kind t c (Hkind t c Hc)).
    simpl. by rewrite Hc. }
  assert (Hsubh : forall k, m ∈ (match hashChild n with Some c => matches c k | None => [] end)
     <-> exists ts, get (HASH :: ts) n = Some m /\ bound m = true /\ topic_match (HASH :: ts) k = true).
  { intros k. pose proof (child_HASH n) as E. destruct (hashChild n) as [c|].
    - by rewrite (Hsub HASH c k E).
    - rewrite elem_of_nil. split; [done|]. intros (ts & H & _). simpl in H. by rewrite E in H. }
  assert (Hsubs : forall k, m ∈ (match starChild n with Some c => matches c k | None => [] end)
     <-> exists ts, get (STAR :: ts) n = Some m /\ bound m = true /\ topic_match (STAR :: ts) k = true).
  { intros k. pose proof (child_STAR n) as E. destruct (starChild n) as [c|].
    - by rewrite (Hsub STAR c k E).
    - rewrite elem_of_nil. split; [done|]. intros (ts & H & _). simpl in H. by rewrite E in H. }
  unfold m_children. rewrite elem_of_app, Hsubh. split.
  - intros [(ts & H)|H]; [eauto|]. destruct key as [|tok key]; [by apply elem_of_nil in H|].
    rewrite elem_of_app, Hsubs in H. destruct H as [(ts & H)|H]; [eauto|].
    destruct (map_find tok (childTokens n)) as [c|] eqn:Ef; [|by apply elem_of_nil in H].
    destruct (find_lit n tok c Hwf Ef) as (Hc & H1 & H2). apply (Hsub tok c key Hc) in H as (ts & Hg & Hb & Hm).
    rewrite !decide_False in Hm by done. exists tok, ts. split_and!; [done..|].
    rewrite plain_match, (bool_decide_eq_true_2 (tok = tok)), orb_true_r by done. exact Hm.
  - intros (t & ts & Hg & Hb & Hm). destruct (decide (t = HASH)) as [->|Hh]; [left; eauto|right].
    rewrite plain_match in Hm by done. destruct key as [|tok key]; [done|].
    rewrite elem_of_app, Hsubs. destruct (decide (t = STAR)) as [->|Hs].
    { left. exists ts. split_and!; [done..|]. by rewrite plain_match. }
    right. rewrite (bool_decide_eq_false_2 (t = STAR)) in Hm by done. simpl in Hm.
    apply andb_true_iff in Hm as [E Hm]. apply bool_decide_eq_true in E as ->.
    simpl in Hg. rewrite child_lit in Hg by done.
    destruct (map_find tok (childTokens n)) as [c|] eqn:Ef; [|done].
    destruct (find_lit n tok c Hwf Ef) as (Hc & _ & _). apply (Hsub tok c key Hc).
    exists ts. rewrite !decide_False by done. simpl. by rewrite Hc.
Qed.

Lemma m_here_spec key m :
  m ∈ m_here n key <-> exists ts, get ts n = Some m /\ bound m = true /\ topic_match ts key = true.
Proof using Hwf IH.
  unfold m_here. rewrite elem_of_app, m_children_spec. split.
  - intros [H|(t & ts & H)]; [|eauto]. destruct key; [|by apply elem_of_nil in H].
    apply elem_if_bound in H as [-> H]. exists []. done.
  - intros ([|t ts] & Hg & Hb & Hm); [|right; by exists t, ts]. simpl in Hg. simplify_eq. left.
    unfold topic_match in Hm. apply bool_decide_eq_true in Hm as ->. by apply elem_if_bound.
Qed.

Lemma m_hash_spec key m :
  isHash n = true ->
  m ∈ m_hash n key <-> exists ts, get ts n = Some m /\ bound m = true /\ topic_match (HASH :: ts) key = true.
Proof using Hwf IH.
  intros Hh. destruct (wf_inv n Hwf) as (_ & _ & _ & Hnh & _). specialize (Hnh Hh).
  induction key as [|x key IHk]; cbn [m_hash].
  - rewrite elem_if_bound. split.
    + intros [-> Hb]. exists []. split_and!; [done..|]. apply hash_match. by exists [], [].
    + intros ([|t ts] & Hg & Hb & Hm); [simpl in Hg; by simplify_eq|].
      apply hash_match in Hm as (k1 & k2 & E & Hm). symmetry in E. apply app_nil in E as [-> ->].
      destruct (decide (t = HASH)) as [->|Ht]; [|by rewrite plain_match in Hm].
      simpl in Hg. by rewrite child_HASH, Hnh in Hg.
  - rewrite elem_of_app, IHk, m_children_spec. split.
    + intros [(t & ts & Hg & Hb & Hm)|(ts & Hg & Hb & Hm)].
      * exists (t :: ts). split_and!; [done..|]. by rewrite hash_cons, Hm.
      * exists ts. split_and!; [done..|]. by rewrite hash_cons, Hm, orb_true_r.
    + intros (ts & Hg & Hb & Hm). rewrite hash_cons in Hm. apply orb_true_iff in Hm as [Hm|Hm]; [|right; by exists ts].
      destruct ts as [|t ts]; [by apply bool_decide_eq_true in Hm|]. left. by exists t, ts.
Qed.
End match_spec.

Lemma matches_spec n : wf n -> forall key m, m ∈ matches n key <-> exists ts, matched n ts key m.
Proof.
  induction 1 as [n Hok Hlit Hkind Hnh Hsub IH]. intros key m.
  assert (Hwf : wf n) by (by constructor). rewrite matches_eq. unfold matched, self.
  destruct (isStar n); simpl; [|destruct (isHash n) eqn:Eh; simpl].
  - destruct key as [|x key].
    { rewrite elem_of_nil. split; [done|]. intros (ts & _ & _ & H). by rewrite plain_match in H. }
    rewrite (m_here_spec n Hwf IH). apply exist_proper. intros ts.
    rewrite plain_match, bool_decide_eq_true_2 by done. done.
  - by apply m_hash_spec.
  - by apply m_here_spec.
Qed.

(** *** Changing a tree *)

Lemma child_set_child t oc n : map_ok (childTokens n) -> child t (set_child t oc n) = oc.
Proof.
  intros Hok. destruct n as [rp b tk st hs ch sc hc]. simpl in Hok. unfold child, set_child.
  repeat case_decide; try done. simpl. destruct oc; [apply map_find_insert|].
  by apply map_find_erase, map_ok_NoDup.
Qed.

Lemma child_set_child_ne t t' oc n : t <> t' -> child t' (set_child t oc n) = child t' n.
Proof.
  intros Hne. destruct n as [rp b tk st hs ch sc hc]. unfold child, set_child.
  repeat case_decide; subst; try done; simpl; destruct oc;
    by rewrite ?map_find_insert_ne, ?map_find_erase_ne.
Qed.

Lemma set_child_fields t oc n :
  bindings (set_child t oc n) = bindings n /\ routePattern (set_child t oc n) = routePattern n
  /\ isStar (set_child t oc n) = isStar n /\ isHash (set_child t oc n) = isHash n.
Proof. destruct n. unfold set_child. by repeat case_decide. Qed.

Lemma wf_set_child t oc n :
  wf n -> (forall c, oc = Some c -> wf c /\ kind_ok t c) ->
  (isHash n = true -> t = HASH -> oc = None) -> wf (set_child t oc n).
Proof.
  intros Hwf Hoc Hh. destruct (wf_inv n Hwf) as (Hok & Hlit & Hkind & Hnh & Hsub).
  destruct (set_child_fields t oc n) as (_ & _ & Es & Eh).
  assert (Hch : forall t' c, child t' (set_child t oc n) = Some c -> child t' n = Some c \/ t' = t /\ oc = Some c).
  { intros t' c Hc. destruct (decide (t = t')) as [<-|Hne].
    - rewrite child_set_child in Hc by done. auto.
    - rewrite child_set_child_ne in Hc by done. auto. }
  constructor.
  - destruct n as [rp b tk st hs ch sc hc]. unfold set_child. repeat case_decide; [done..|]. simpl in *.
    destruct oc; [by apply map_ok_insert|by apply map_ok_erase].
  - destruct n as [rp b tk st hs ch sc hc]. unfold set_child. simpl in *. repeat case_decide; [exact Hlit..|].
    simpl. intros k c Hin. destruct oc as [c'|]; [|apply elem_map_erase in Hin; eauto].
    apply elem_map_insert in Hin as [[= -> ->]|Hin]; [done|eauto].
  - intros t' c Hc. destruct (Hch t' c Hc) as [H|[-> H]]; [by apply Hkind|by apply Hoc].
  - rewrite Eh. intros Hhn. rewrite <- child_HASH. destruct (child HASH (set_child t oc n)) as [c|] eqn:Ec; [|done].
    destruct (Hch HASH c Ec) as [H|[<- H]].
    + by rewrite child_HASH, Hnh in H.
    + by rewrite (Hh Hhn eq_refl) in H.
  - intros t' c Hc. destruct (Hch t' c Hc) as [H|[-> H]]; [by eapply Hsub|by apply Hoc].
Qed.

(** the bindings stored under a pattern *)
Definition content us n : option T :=
  match get us n with
  | Some m => if vec_empty (bindings m) then None else Some (bindings m)
  | None => None
  end.

Lemma content_set_child t c' n u us :
  map_ok (childTokens n) ->
  content (u :: us) (set_child t (Some c') n) = if decide (u = t) then content us c' else content (u :: us) n.
Proof.
  intros Hok. unfold content. simpl. case_decide as E.
  - subst. by rewrite child_set_child.
  - by rewrite child_set_child_ne.
Qed.

Lemma content_nil_set_child t oc n : content [] (set_child t oc n) = content [] n.
Proof. unfold content. simpl. destruct (set_child_fields t oc n) as (-> & _). done. Qed.

Lemma wf_leaf n : childTokens n = [] -> starChild n = None -> hashChild n = None -> wf n.
Proof.
  intros E1 E2 E3.
  assert (Hc : forall t c, child t n = Some c -> False)
    by (intros t c; unfold child; rewrite E1, E2, E3; by repeat case_decide).
  constructor; [rewrite E1; constructor| | |by intros|].
  - intros k c Hin. rewrite E1 in Hin. by apply elem_of_nil in Hin.
  - intros t c Hct. by destruct (Hc t c).
  - intros t c Hct. by destruct (Hc t c).
Qed.

Lemma wf_new_node t : wf (new_node t).
Proof. by apply wf_leaf. Qed.

Lemma wf_root : wf root_node.
Proof. by apply wf_leaf. Qed.

Lemma content_new_node t us : content us (new_node t) = None.
Proof.
  unfold content. destruct us as [|u us]; simpl; [by rewrite vec_empty_none|].
  unfold child. by repeat case_decide.
Qed.

Lemma content_root us : content us root_node = None.
Proof.
  unfold content. destruct us as [|u us]; simpl; [by rewrite vec_empty_none|].
  unfold child. by repeat case_decide.
Qed.

(** the child [add] goes into *)
Definition child_or_new t n : node := match child t n with Some c => c | None => new_node t end.

Lemma child_or_new_ok t n : wf n ->
  wf (child_or_new t n) /\ kind_ok t (child_or_new t n) /\ forall us, content us (child_or_new t n) = content (t :: us) n.
Proof.
  intros Hwf. destruct (wf_inv n Hwf) as (_ & _ & Hkind & _ & Hsub). unfold child_or_new.
  destruct (child t n) as [c|] eqn:E.
  - split_and!; [by eapply Hsub|by apply Hkind|]. intros us. unfold content. simpl. by rewrite E.
  - split_and!; [apply wf_new_node|done|]. intros us. rewrite content_new_node.
    unfold content. simpl. by rewrite E.
Qed.

Lemma wf_set_pattern full n : wf n -> wf (set_pattern full n).
Proof. intros H. destruct (wf_inv n H) as (?&?&?&?&?). destruct n. by constructor. Qed.

Lemma wf_set_bindings b n : wf n -> wf (set_bindings b n).
Proof. intros H. destruct (wf_inv n H) as (?&?&?&?&?). destruct n. by constructor. Qed.

Lemma content_set_pattern full us n : content us (set_pattern full n) = content us n.
Proof. destruct n. by destruct us. Qed.

Lemma kind_set_child t oc n t' : kind_ok t' (set_child t oc n) <-> kind_ok t' n.
Proof. unfold kind_ok. destruct (set_child_fields t oc n) as (_ & _ & -> & ->). done. Qed.

(** [add] makes the path and changes no binding. *)
Lemma add_spec ts full : forall n n',
  wf n -> normal (isHash n) ts = true -> add ts full n = Ret n' ->
  wf n' /\ isStar n' = isStar n /\ isHash n' = isHash n
  /\ (forall us, content us n' = content us n) /\ (exists m, get ts n' = Some m).
Proof.
  induction ts as [|t ts IH]; intros n n' Hwf Hn Hadd; cbn [add] in Hadd.
  - case_decide; [|case_decide]; simplify_eq.
    + split_and!; [by apply wf_set_pattern|by destruct n..|intros us; apply content_set_pattern|by eexists].
    + split_and!; [done..|by eexists].
  - fold (child_or_new t n) in Hadd. destruct (child_or_new_ok t n Hwf) as (Hwc & Hkc & Hcc).
    destruct (add ts full (child_or_new t n)) as [c'|] eqn:Ec; [|done]. simplify_eq.
    cbn [normal] in Hn. apply andb_true_iff in Hn as [Hn1 Hn2].
    destruct (IH _ _ Hwc ltac:(by destruct Hkc as [_ ->]) Ec) as (Hwf' & Es & Eh & Hcont & m & Hm).
    destruct (wf_inv n Hwf) as (Hok & _).
    destruct (set_child_fields t (Some c') n) as (_ & _ & Es' & Eh').
    split_and!; [|done|done| |].
    + apply wf_set_child; [done| |].
      * intros c [= <-]. split; [done|]. unfold kind_ok in *. by rewrite Es, Eh.
      * intros Hh ->. by rewrite Hh, (bool_decide_eq_true_2 (HASH = HASH)) in Hn1.
    + intros [|u us]; [apply content_nil_set_child|]. rewrite content_set_child by done.
      destruct (decide (u = t)) as [->|]; [by rewrite Hcont, Hcc|done].
    + exists m. simpl. by rewrite child_set_child.
Qed.

Lemma update_spec ts f : forall n m,
  wf n -> get ts n = Some m ->
  wf (update ts f n) /\ isStar (update ts f n) = isStar n /\ isHash (update ts f n) = isHash n
  /\ (forall us, content us (update ts f n)
       = if decide (us = ts) then (let b := f (bindings m) in if vec_empty b then None else Some b)
         else content us n).
Proof.
  induction ts as [|t ts IH]; intros n m Hwf Hg; cbn [update get] in *.
  - simplify_eq. split_and!; [by apply wf_set_bindings|by destruct m..|].
    intros us. destruct us as [|u us]; [rewrite decide_True by done|rewrite decide_False by done]; by destruct m.
  - destruct (child t n) as [c|] eqn:Ec; [|done]. destruct (wf_inv n Hwf) as (Hok & _ & Hkind & Hnh & Hsub).
    destruct (IH c m (Hsub t c Ec) Hg) as (Hwf' & Es & Eh & Hcont).
    destruct (set_child_fields t (Some (update ts f c)) n) as (_ & _ & Es' & Eh').
    split_and!; [|done|done|].
    + apply wf_set_child; [done| |].
      * intros c' [= <-]. split; [done|]. destruct (Hkind t c Ec). unfold kind_ok. by rewrite Es, Eh.
      * intros Hh ->. by rewrite child_HASH, (Hnh Hh) in Ec.
    + intros [|u us]; [rewrite decide_False by done; apply content_nil_set_child|].
      rewrite content_set_child by done. destruct (decide (u = t)) as [->|Hne].
      * rewrite Hcont. destruct (decide (us = ts)) as [->|Hne']; [by rewrite decide_True|].
        rewrite decide_False by congruence. unfold content. simpl. by rewrite Ec.
      * rewrite decide_False by congruence. done.
Qed.

Lemma bindings_set_bindings b n : bindings (set_bindings b n) = b.
Proof. by destruct n. Qed.

Lemma update_get ts f : forall n m,
  wf n -> get ts n = Some m -> get ts (update ts f n) = Some (set_bindings (f (bindings m)) m).
Proof.
  induction ts as [|t ts IH]; intros n m Hwf Hg; cbn [update get] in *; [by simplify_eq|].
  destruct (child t n) as [c|] eqn:Ec; [|done]. destruct (wf_inv n Hwf) as (Hok & _ & _ & _ & Hsub).
  rewrite child_set_child by done. apply IH; [by eapply Hsub|done].
Qed.

Lemma removable_content us n : removable n = true -> content us n = None.
Proof.
  unfold removable, getChildCount. rewrite andb_true_iff, Nat.eqb_eq. intros [Hc Hv].
  destruct n as [rp b tk st hs ch sc hc]. simpl in *.
  destruct ch; [|simpl in Hc; lia]. destruct sc; [simpl in Hc; lia|]. destruct hc; [simpl in Hc; lia|].
  unfold content. destruct us as [|u us]; simpl; [by rewrite Hv|]. unfold child. by repeat case_decide.
Qed.

(** [remove] prunes nodes without bindings and changes no binding. *)
Lemma remove_spec ts : forall n n' r,
  wf n -> remove ts n = (n', r) ->
  wf n' /\ isStar n' = isStar n /\ isHash n' = isHash n
  /\ (forall us, content us n' = content us n) /\ r = removable n'.
Proof.
  induction ts as [|t ts IH]; intros n n' r Hwf Hrem; cbn [remove] in Hrem; [by simplify_eq|].
  destruct (child t n) as [c|] eqn:Ec; [|by simplify_eq].
  destruct (remove ts c) as [c' r'] eqn:Er. simplify_eq.
  destruct (wf_inv n Hwf) as (Hok & _ & Hkind & Hnh & Hsub).
  destruct (IH c c' r' (Hsub t c Ec) Er) as (Hwf' & Es & Eh & Hcont & Hr').
  set (oc := if r' then None else Some c').
  destruct (set_child_fields t oc n) as (_ & _ & Es' & Eh').
  split_and!; [|done|done| |done].
  - apply wf_set_child; [done| |].
    + intros c1 E. unfold oc in E. destruct r'; [done|]. simplify_eq. split; [done|].
      destruct (Hkind t c Ec). unfold kind_ok. by rewrite Es, Eh.
    + intros Hh ->. by rewrite child_HASH, (Hnh Hh) in Ec.
  - intros [|u us]; [apply content_nil_set_child|]. destruct (decide (u = t)) as [->|Hne].
    + assert (E : content (t :: us) n = content us c) by (unfold content; simpl; by rewrite Ec).
      rewrite E, <- Hcont. unfold oc. destruct r'.
      * rewrite (removable_content us c') by done. unfold content. simpl. by rewrite child_set_child.
      * rewrite content_set_child, decide_True by done. done.
    + unfold content. simpl. by rewrite child_set_child_ne.
Qed.

(** *** The pattern a node remembers *)

(** every node below [n], itself at [pre], has no pattern or that of its path *)
Definition patterns_ok (pre : list str) n : Prop :=
  forall us m, get us n = Some m -> routePattern m = [] \/ routePattern m = join_dots (pre ++ us).

Lemma patterns_ok_child pre n t c : patterns_ok pre n -> child t n = Some c -> patterns_ok (pre ++ [t]) c.
Proof.
  intros H Hc us m Hg. rewrite <- app_assoc. apply (H (t :: us)). simpl. by rewrite Hc.
Qed.

Lemma patterns_ok_set_child pre n t c :
  map_ok (childTokens n) -> patterns_ok pre n -> patterns_ok (pre ++ [t]) c -> patterns_ok pre (set_child t (Some c) n).
Proof.
  intros Hok H Hc [|u us] m Hg; cbn [get] in Hg.
  - simplify_eq. destruct (set_child_fields t (Some c) n) as (_ & -> & _). by apply (H []).
  - destruct (decide (u = t)) as [->|Hne].
    + rewrite child_set_child in Hg by done. specialize (Hc us m Hg). by rewrite <- app_assoc in Hc.
    + rewrite child_set_child_ne in Hg by done. by apply (H (u :: us)).
Qed.

Lemma patterns_ok_new pre t : patterns_ok pre (new_node t).
Proof.
  intros [|u us] m Hg; simpl in Hg; [simplify_eq; by left|]. unfold child in Hg. by repeat case_decide.
Qed.

Lemma add_patterns ts full : forall pre n,
  wf n -> patterns_ok pre n -> full = join_dots (pre ++ ts) ->
  exists n', add ts full n = Ret n' /\ patterns_ok pre n'.
Proof.
  induction ts as [|t ts IH]; intros pre n Hwf Hp Hf; cbn [add].
  - assert (Hn : routePattern n = [] \/ routePattern n = full) by (rewrite Hf; by apply (Hp [])).
    destruct (decide (routePattern n = [])) as [E|E].
    + eexists. split; [done|]. intros us m Hg. destruct us as [|u us].
      * simpl in Hg. simplify_eq. right. by destruct n.
      * apply (Hp (u :: us)). by destruct n.
    + destruct Hn as [|Hn]; [done|]. rewrite decide_True by done. by eexists.
  - fold (child_or_new t n). destruct (child_or_new_ok t n Hwf) as (Hwc & _).
    assert (Hpc : patterns_ok (pre ++ [t]) (child_or_new t n)).
    { unfold child_or_new. destruct (child t n) eqn:E; [by eapply patterns_ok_child|apply patterns_ok_new]. }
    destruct (IH (pre ++ [t]) (child_or_new t n) Hwc Hpc) as (c' & -> & Hc'); [by rewrite <- app_assoc|].
    eexists. split; [done|]. apply patterns_ok_set_child; [by apply wf_inv|done..].
Qed.

Lemma update_patterns ts f : forall pre n, wf n -> patterns_ok pre n -> patterns_ok pre (update ts f n).
Proof.
  induction ts as [|t ts IH]; intros pre n Hwf Hp; cbn [update].
  - intros us m Hg. destruct us as [|u us].
    + simpl in Hg. simplify_eq. assert (E : routePattern (set_bindings (f (bindings n)) n) = routePattern n) by (by destruct n).
      rewrite E. by apply (Hp []).
    + apply (Hp (u :: us)). by destruct n.
  - destruct (child t n) as [c|] eqn:Ec; [|done]. destruct (wf_inv n Hwf) as (Hok & _ & _ & _ & Hsub).
    apply patterns_ok_set_child; [done..|]. apply IH; [by eapply Hsub|by eapply patterns_ok_child].
Qed.

Lemma remove_patterns ts : forall pre n n' r, wf n -> remove ts n = (n', r) -> patterns_ok pre n -> patterns_ok pre n'.
Proof.
  induction ts as [|t ts IH]; intros pre n n' r Hwf Hrem Hp; cbn [remove] in Hrem; [by simplify_eq|].
  destruct (child t n) as [c|] eqn:Ec; [|by simplify_eq]. destruct (remove ts c) as [c' r'] eqn:Er. simplify_eq.
  destruct (wf_inv n Hwf) as (Hok & _ & _ & _ & Hsub). destruct r'.
  - intros [|u us] m Hg; cbn [get] in Hg.
    + simplify_eq. destruct (set_child_fields t None n) as (_ & -> & _). by apply (Hp []).
    + destruct (decide (u = t)) as [->|Hne]; [by rewrite child_set_child in Hg|].
      rewrite child_set_child_ne in Hg by done. by apply (Hp (u :: us)).
  - apply patterns_ok_set_child; [done..|]. eapply IH; [|done|by eapply patterns_ok_child]. by eapply Hsub.
Qed.

Lemma patterns_ok_root : patterns_ok [] root_node.
Proof.
  intros [|u us] m Hg; simpl in Hg; [simplify_eq; by left|]. unfold child in Hg. by repeat case_decide.
Qed.

(** *** [iterateAll] visits the nodes that have a path *)
Lemma all_nodes_spec n : wf n -> forall m, m ∈ all_nodes n <-> exists ts, get ts n = Some m.
Proof.
  induction 1 as [n Hok Hlit Hkind Hnh Hsub IH]. intros m.
  assert (Hall : m ∈ all_nodes n <-> m = n \/ exists t c, child t n = Some c /\ m ∈ all_nodes c).
  { destruct n as [rp b tk st hs ch sc hc]. cbn [all_nodes]. rewrite elem_of_cons, !elem_of_app.
    assert (Hloop : m ∈ (fix loop l := match l with [] => [] | (_, c) :: l' => all_nodes c ++ loop l' end) ch
              <-> exists k c, (k, c) ∈ ch /\ m ∈ all_nodes c).
    { clear. induction ch as [|[k c] ch IH].
      - rewrite elem_of_nil. split; [done|]. intros (k & c & H & _). by apply elem_of_nil in H.
      - rewrite elem_of_app, IH. split.
        + intros [H|(k' & c' & H1 & H2)]; [exists k, c; split; [by left|done]|exists k', c'; split; [by right|done]].
        + intros (k' & c' & H1 & H2). apply elem_of_cons in H1 as [[= -> ->]|H1]; eauto. }
    rewrite Hloop. simpl in *. split.
    - intros [H|[H|[H|(k & c & H1 & H2)]]]; [by left|..]; right.
      + destruct sc as [c|]; [|by apply elem_of_nil in H]. by exists STAR, c.
      + destruct hc as [c|]; [|by apply elem_of_nil in H]. by exists HASH, c.
      + exists k, c. destruct (Hlit k c H1). rewrite child_lit by done. split; [|done]. by apply map_elem_find.
    - intros [H|(t & c & Hc & H)]; [by left|right]. unfold child in Hc. simpl in Hc.
      repeat case_decide; [left; by rewrite Hc|right; left; by rewrite Hc|].
      right. right. exists t, c. split; [by apply map_find_elem|done]. }
  rewrite Hall. split.
  - intros [->|(t & c & Hc & H)]; [by exists []|]. apply (IH t c Hc) in H as (ts & Hg).
    exists (t :: ts). simpl. by rewrite Hc.
  - intros ([|t ts] & Hg); simpl in Hg; [by simplify_eq; left|]. right.
    destruct (child t n) as [c|] eqn:Hc; [|done]. exists t, c. split; [done|]. apply (IH t c Hc). eauto.
Qed.

End tree_props.

(** C16: the match.  On a well-formed tree, whatever the visitor does,
    [iterateMatch] behaves as visiting, until told to stop, a list of nodes
    that holds exactly the nodes with bindings whose path matches the key. *)
Theorem iterateMatch_exact {T} `{!Bindings T} {S} (visit : TopicKeyNode T -> S -> S * bool)
    (n : TopicKeyNode T) key s :
  wf n -> isStar n = false -> isHash n = false ->
  exists l, iterateMatch visit n key s = visit_list visit l s
    /\ forall m, m ∈ l <-> exists ts, get ts n = Some m /\ bound m = true /\ topic_match ts key = true.
Proof.
  intros Hwf Hs Hh. exists (matches n key). split; [apply iterateMatch_list|].
  intros m. rewrite (matches_spec n Hwf). unfold matched, self. by rewrite Hs, Hh.
Qed.

#[local] Instance nat_Bindings : Bindings nat := {| no_bindings := 0; vec_empty := fun b => b =? 0; vec_empty_none := eq_refl |}.

Definition one_node : TopicKeyNode nat :=
  match add [HASH; s_ "b"] (s_ "#.b") root_node with Ret t => update [HASH; s_ "b"] (fun _ => 5) t | Throw _ => root_node end.

Lemma one_node_wf : wf one_node.
Proof.
  destruct (add_spec [HASH; s_ "b"] (s_ "#.b") (root_node (T := nat)) _ wf_root eq_refl eq_refl) as (Hwf & _ & _ & _ & m & Hg).
  by apply (update_spec [HASH; s_ "b"] (fun _ => 5) _ m).
Qed.

Lemma iterateMatch_exact_witness :
  exists l, iterateMatch (fun (_ : TopicKeyNode nat) k => (S k, true)) one_node [s_ "a"; s_ "b"] 0
            = visit_list (fun (_ : TopicKeyNode nat) k => (S k, true)) l 0
    /\ forall m, m ∈ l <-> exists ts, get ts one_node = Some m /\ bound m = true
                                    /\ topic_match ts [s_ "a"; s_ "b"] = true.
Proof.
  apply (iterateMatch_exact (fun (_ : TopicKeyNode nat) k => (S k, true)) one_node [s_ "a"; s_ "b"] 0).
  - apply one_node_wf.
  - reflexivity.
  - reflexivity.
Defined.
