(* ===== verification/Exchange.v ===== *)
(** * Exchanges (src/qpid/broker/Exchange.h, Exchange.cpp, FedOps.h)

    What all exchange types share: bindings, the federation counts of a
    binding key ([FedBinding]), the bookkeeping of [PreRoute] and the delivery
    loop [doRoute], which delivers to every queue and raises the first of the
    most severe failures at the end. *)

From Stdlib Require Import Ascii String.
From stdpp Require Import strings.
From S2P Require Import Prelude TopicKey TopicTree.
Local Open Scope Z_scope.

(** a queue object: its address and its name *)
Record Queue := mkQueue { q_id : nat; q_name : str }.
#[global] Instance Queue_eq_dec : EqDecision Queue.
Proof. solve_decision. Defined.

(** the federation entries of a bind's argument table, as [getAsString] returns them *)
Record BindArgs := mkArgs { fedOp : str; fedTags : str; fedOrigin : str }.
#[global] Instance BindArgs_eq_dec : EqDecision BindArgs.
Proof. solve_decision. Defined.

Definition fedOpBind : str := s_ "B".
Definition fedOpUnbind : str := s_ "U".
Definition fedOpReorigin : str := s_ "R".
Definition fedOpHello : str := s_ "H".

Record Binding := mkBinding { b_key : str; b_queue : Queue; b_args : option BindArgs; b_origin : str }.
#[global] Instance Binding_eq_dec : EqDecision Binding.
Proof. solve_decision. Defined.

(** a message: its routing key and its identity *)
Record Msg := mkMsg { routingKey : str; msg_id : nat; msg_sequence : option Z }.

(** ** FedBinding *)

Record FedBinding := mkFed { localBindings : Z; fedBindings : list (str * list str) }.
Definition new_FedBinding : FedBinding := mkFed 0 [].

Definition hasLocal (f : FedBinding) : bool := negb (localBindings f =? 0).

Definition set_insert (x : str) (l : list str) : list str := if decide (x ∈ l) then l else l ++ [x].
Definition set_erase (x : str) (l : list str) : list str := filter (fun y => y <> x) l.

Definition addOrigin (f : FedBinding) (queueName origin : str) : FedBinding * bool :=
  match origin with
  | [] =>
      let n := u32 (localBindings f + 1) in
      (mkFed n (fedBindings f), n =? 1)
  | _ =>
      let set := default [] (map_find queueName (fedBindings f)) in
      (mkFed (localBindings f) (map_insert queueName (set_insert origin set) (fedBindings f)), true)
  end.

Definition delOrigin (f : FedBinding) (queueName origin : str) : FedBinding * bool :=
  match origin with
  | [] =>
      let n := if 0 <? localBindings f then u32 (localBindings f - 1) else localBindings f in
      (mkFed n (fedBindings f), n =? 0)
  | _ =>
      let set := default [] (map_find queueName (fedBindings f)) in
      let set' := set_erase origin set in
      (mkFed (localBindings f)
         (match set' with
          | [] => map_erase queueName (fedBindings f)
          | _ => map_insert queueName set' (fedBindings f)
          end), bool_decide (origin ∈ set))
  end.

Definition countFedBindings (f : FedBinding) (queueName : str) : Z :=
  match map_find queueName (fedBindings f) with
  | Some set => u32 (Z.of_nat (length set))
  | None => 0
  end.

(** what the exchange does to the outside *)
Inductive Event :=
| Delivered (m : Msg) (q : Queue)
| Propagated (key tags op origin : str)
| CheckedAutodelete.

(** ** Delivery *)

(** severity of what [deliverTo] threw: [SESSION], [CONNECTION] or [OTHER] *)
Definition severity (e : exn) : Z :=
  match e with
  | SessionException | InvalidArgumentException | IllegalArgumentException
  | ResourceLimitExceededException | IllegalStateException | NotImplementedException
  | ResourceDeletedException | ResourceLockedException | NotAllowedException | NotFoundException
  | CommandInvalidException | InternalErrorException => 1
  | ConnectionException | FramingErrorException => 2
  | _ => 3
  end.

(** the copy that is kept: other exceptions become a plain [Exception] *)
Definition holder (e : exn) : exn := if severity e =? 3 then Exception else e.

(** [ExInfo::store] *)
Definition store_exn (saved : option exn) (e : exn) : option exn :=
  match saved with
  | None => Some e
  | Some s => if severity s <? severity e then Some e else saved
  end.

Section delivery.
(** [Deliverable::deliverTo] *)
Context (deliverTo : Msg -> Queue -> outcome unit).

Fixpoint doRoute_loop (m : Msg) (b : list Binding) (out : list Event) (error : option exn)
  : list Event * option exn :=
  match b with
  | [] => (out, error)
  | i :: b' =>
      let out' := out ++ [Delivered m (b_queue i)] in
      match deliverTo m (b_queue i) with
      | Ret _ => doRoute_loop m b' out' error
      | Throw e => doRoute_loop m b' out' (store_exn error (holder e))
      end
  end.

Definition doRoute (m : Msg) (b : list Binding) (out : list Event) : list Event * outcome unit :=
  let '(out', error) := doRoute_loop m b out None in
  (out', match error with None => Ret tt | Some e => Throw e end).

Lemma doRoute_loop_out m b : forall out error,
  (doRoute_loop m b out error).1 = out ++ map (fun i => Delivered m (b_queue i)) b.
Proof.
  induction b as [|i b IH]; intros out error; simpl; [by rewrite app_nil_r|].
  destruct (deliverTo m (b_queue i)); rewrite IH, <- app_assoc; done.
Qed.

Lemma doRoute_out m b out : (doRoute m b out).1 = out ++ map (fun i => Delivered m (b_queue i)) b.
Proof.
  unfold doRoute. rewrite <- (doRoute_loop_out m b out None).
  by destruct (doRoute_loop m b out None).
Qed.

(** the exceptions of the deliveries, in order *)
Definition failures (m : Msg) (b : list Binding) : list exn :=
  omap (fun i => match deliverTo m (b_queue i) with Ret _ => None | Throw e => Some (holder e) end) b.

Lemma doRoute_loop_error m b : forall out error,
  (doRoute_loop m b out error).2 = fold_left store_exn (failures m b) error.
Proof.
  induction b as [|i b IH]; intros out error; simpl; [done|].
  destruct (deliverTo m (b_queue i)); rewrite IH; done.
Qed.

Lemma fold_store l : forall s,
  exists e, fold_left store_exn l (Some s) = Some e /\ (e = s \/ e ∈ l)
    /\ severity s <= severity e /\ Forall (fun x => severity x <= severity e) l
    /\ (severity e = severity s -> e = s)
    /\ (severity s < severity e -> exists l1 l2, l = l1 ++ e :: l2 /\ Forall (fun x => severity x < severity e) l1).
Proof.
  induction l as [|x l IH]; intros s; simpl.
  { exists s. split_and!; auto; lia. }
  destruct (Z.ltb_spec (severity s) (severity x)).
  - destruct (IH x) as (e & -> & Hin & Hle & Hall & Heq & Hlt). exists e. split_and!; [done| |lia| |lia|].
    + right. destruct Hin as [->|]; [by left|by right].
    + by constructor.
    + intros _. destruct (Z.eq_dec (severity e) (severity x)) as [E|E].
      * rewrite (Heq E). by exists [], l.
      * destruct Hlt as (l1 & l2 & -> & Hl1); [lia|]. exists (x :: l1), l2. split; [done|].
        constructor; [lia|done].
  - destruct (IH s) as (e & -> & Hin & Hle & Hall & Heq & Hlt). exists e. split_and!; [done| |lia| |done|].
    + destruct Hin as [->|]; [by left|by right; right].
    + constructor; [lia|done].
    + intros Hs. destruct Hlt as (l1 & l2 & -> & Hl1); [done|]. exists (x :: l1), l2. split; [done|].
      constructor; [lia|done].
Qed.

End delivery.

(**  a failing queue does not stop delivery.  Every matched queue is given
    the message, whatever other deliveries threw, and afterwards the call
    raises nothing if all went well, or else the first of the most severe
    exceptions. *)
Theorem doRoute_delivers_all deliverTo m b out :
  (doRoute deliverTo m b out).1 = out ++ map (fun i => Delivered m (b_queue i)) b
  /\ match (doRoute deliverTo m b out).2 with
     | Ret _ => failures deliverTo m b = []
     | Throw e => exists l1 l2, failures deliverTo m b = l1 ++ e :: l2
                    /\ Forall (fun x => severity x < severity e) l1
                    /\ Forall (fun x => severity x <= severity e) l2
     end.
Proof.
  split; [apply doRoute_out|]. unfold doRoute.
  pose proof (doRoute_loop_error deliverTo m b out None) as E.
  destruct (doRoute_loop deliverTo m b out None) as [out' error]. simpl in E |- *. subst error.
  destruct (failures deliverTo m b) as [|x l]; simpl; [done|].
  destruct (fold_store l x) as (e & -> & Hin & Hle & Hall & Heq & Hlt).
  destruct (Z.eq_dec (severity e) (severity x)) as [Es|Es].
  - rewrite (Heq Es) in *. by exists [], l.
  - destruct Hlt as (l1 & l2 & -> & Hl1); [lia|]. exists (x :: l1), l2. split_and!; [done| |].
    + constructor; [lia|done].
    + apply Forall_app in Hall as [_ Hall]. by apply Forall_cons in Hall as [_ ?].
Qed.
