(* ===== verification/TopicExchange.v ===== *)
(** * The topic exchange (src/qpid/broker/TopicExchange.h, TopicExchange.cpp)

    [bind], [unbind], [route] and [isBound] over the binding tree, with the
    route cache, the binding count and the federation bookkeeping.  The
    abstract specification is a set of pairs of a pattern (the tokens of its
    normal form) and a queue; [refines] relates it to the tree.  The theorems
    show that bind and unbind add and remove a pair, that route delivers to
    exactly the queues with a matching pattern, once each, and that the cache
    never changes the result. *)

From Stdlib Require Import Ascii String.
From stdpp Require Import strings.
From S2P Require Import Prelude TopicKey TopicTree Exchange.
Local Open Scope Z_scope.

Module TopicExchange.

(** ** State *)

Record BindingKey := mkBK { bindingVector : list Binding; fedBinding : FedBinding }.

#[global] Instance BindingKey_Bindings : Bindings BindingKey := {|
  no_bindings := mkBK [] new_FedBinding;
  vec_empty := fun bk => match bindingVector bk with [] => true | _ => false end;
  vec_empty_none := eq_refl |}.

Abbreviation BindingNode := (TopicKeyNode BindingKey).

Record TopicExchange := mkTopic {
  bindingTree : BindingNode;
  nBindings : Z;
  bindingCache : list (str * list Binding);
  (** [qpid.ive], the last message routed, [qpid.msg_sequence] and its counter *)
  ive : bool;
  lastMsg : option Msg;
  sequence : bool;
  sequenceNo : Z;
  (** what was delivered and propagated *)
  out : list Event;
}.

Definition new_TopicExchange (ive_ sequence_ : bool) : TopicExchange :=
  mkTopic root_node 0 [] ive_ None sequence_ 0 [].

Abbreviation Op := (M TopicExchange).
Abbreviation this := Prelude.get.

Definition set_tree (t : BindingNode) : Op unit := modify (fun s =>
  mkTopic t (nBindings s) (bindingCache s) (ive s) (lastMsg s) (sequence s) (sequenceNo s) (out s)).
Definition set_nBindings (n : Z) : Op unit := modify (fun s =>
  mkTopic (bindingTree s) n (bindingCache s) (ive s) (lastMsg s) (sequence s) (sequenceNo s) (out s)).
Definition set_cache (c : list (str * list Binding)) : Op unit := modify (fun s =>
  mkTopic (bindingTree s) (nBindings s) c (ive s) (lastMsg s) (sequence s) (sequenceNo s) (out s)).
Definition set_out (o : list Event) : Op unit := modify (fun s =>
  mkTopic (bindingTree s) (nBindings s) (bindingCache s) (ive s) (lastMsg s) (sequence s) (sequenceNo s) o).
Definition emit (e : Event) : Op unit := s ← this; set_out (out s ++ [e]).
Definition clearCache : Op unit := set_cache [].

(** [ClearCache]: inside its scope the state has the flag [cleared] beside the exchange.  Its [clearCache] clears
    once; the destructor, on exit by return or by exception, clears if that was not done before. *)
Abbreviation Scoped := (M (TopicExchange * bool)).

Definition cc_clearCache : Scoped unit := fun '(s, cleared) =>
  if (cleared : bool) then ((s, cleared), Ret tt) else (((clearCache s).1, true), Ret tt).

Definition on_exchange {A} (m : Op A) : Scoped A := fun '(s, cleared) =>
  let '(s', o) := m s in ((s', cleared), o).

Definition with_ClearCache {A} (m : Scoped A) : Op A := fun s =>
  let '(sc, o) := m (s, false) in ((cc_clearCache sc).1.1, o).

(** ** Tree visitors *)

(** [BindingsFinderIter]: the bindings found and the names of their queues *)
Definition find_step (s : list Binding * list str) (j : Binding) : list Binding * list str :=
  let '(b, qSet) := s in
  if decide (q_name (b_queue j) ∈ qSet) then (b, qSet) else (b ++ [j], q_name (b_queue j) :: qSet).

Definition find_visit (n : BindingNode) (s : list Binding * list str) : (list Binding * list str) * bool :=
  (fold_left find_step (bindingVector (bindings n)) s, true).

(** [QueueFinderIter] *)
Definition queue_visit (queue : Queue) (n : BindingNode) (found : bool) : bool * bool :=
  if existsb (fun j => bool_decide (b_queue j = queue)) (bindingVector (bindings n))
  then (true, false) else (found, true).

(** [ReOriginIter] *)
Definition reorigin_visit (n : BindingNode) (keys : list str) : list str * bool :=
  (if hasLocal (fedBinding (bindings n)) then keys ++ [routePattern n] else keys, true).

(** ** Routing *)

Section ops.
Context (deliverTo : Msg -> Queue -> outcome unit).

(** [PreRoute] *)
Definition preRoute (m : Msg) : Op Msg := fun s =>
  let no := if sequence s then swrap 64 (sequenceNo s + 1) else sequenceNo s in
  let m' := if sequence s then mkMsg (routingKey m) (msg_id m) (Some no) else m in
  (mkTopic (bindingTree s) (nBindings s) (bindingCache s) (ive s)
     (if ive s then Some m' else lastMsg s) (sequence s) no (out s), Ret m').

(** the bindings a key matches, as the tree gives them *)
Definition find_bindings (tree : BindingNode) (key : str) : list Binding :=
  (iterateMatch find_visit tree (tokens key) ([], [])).1.1.

Definition route (m : Msg) : Op unit :=
  let key := routingKey m in
  s0 ← this;
  let hit := map_find key (bindingCache s0) in
  m' ← preRoute m;
  s1 ← this;
  b ← (match hit with
       | Some b => mret b
       | None =>
           let b := find_bindings (bindingTree s1) key in
           set_cache (map_insert key b (bindingCache s1)) ;; mret b
       end);
  s2 ← this;
  let '(out', o) := doRoute deliverTo m' b (out s2) in
  set_out out' ;;
  lift_outcome o.

Definition routeIVE : Op unit :=
  s ← this;
  match (if ive s then lastMsg s else None) with
  | Some m => route m
  | None => mret tt
  end.

Definition propagateFedOp (key tags op origin : str) : Op unit := emit (Propagated key tags op origin).
Definition checkAutodelete : Op unit := emit CheckedAutodelete.

(** ** Binding *)

Definition getQueueBinding (tree : BindingNode) (queue : Queue) (pattern : str) : option BindingKey :=
  match get (tokens pattern) tree with
  | None => None
  | Some n =>
      if existsb (fun j => bool_decide (b_queue j = queue)) (bindingVector (bindings n))
      then Some (bindings n) else None
  end.

(** [qv.erase(q)] at the first binding of the queue *)
Fixpoint erase_queue (queue : Queue) (l : list Binding) : list Binding :=
  match l with
  | [] => []
  | j :: l' => if decide (b_queue j = queue) then l' else j :: erase_queue queue l'
  end.

Definition deleteBinding (queue : Queue) (pattern : str) (bk : BindingKey) : Op bool :=
  let qv := bindingVector bk in
  if negb (existsb (fun j => bool_decide (b_queue j = queue)) qv) then mret false
  else
    s ← this;
    set_tree (update (tokens pattern) (fun bk => mkBK (erase_queue queue (bindingVector bk)) (fedBinding bk))
                (bindingTree s)) ;;
    guard_throw (negb (0 <? nBindings s)) AssertionFailed ;;
    set_nBindings (u64 (nBindings s - 1)) ;;
    (if decide (erase_queue queue qv = []) then
       s' ← this;
       set_tree (remove (tokens pattern) (bindingTree s')).1
     else mret tt) ;;
    mret true.

(** the first branch of [bind]: [Some propagate], or [None] for its early [return false] *)
Definition bind_local (queue : Queue) (pattern : str) (args : option BindArgs) (origin : str)
  : Op (option bool) :=
  s ← this;
  match add (tokens pattern) pattern (bindingTree s) with
  | Throw e => throw e
  | Ret tree =>
      let bk := match get (tokens pattern) tree with Some n => bindings n | None => no_bindings end in
      let '(fed', propagate) := addOrigin (fedBinding bk) (q_name queue) origin in
      if existsb (fun j => bool_decide (b_queue j = queue)) (bindingVector bk) then
        set_tree (update (tokens pattern) (fun bk => mkBK (bindingVector bk) fed') tree) ;;
        mret None
      else
        set_tree (update (tokens pattern)
          (fun bk => mkBK (bindingVector bk ++ [mkBinding pattern queue args origin]) fed') tree) ;;
        set_nBindings (u64 (nBindings s + 1)) ;;
        mret (Some propagate)
  end.

(** the [fedOpUnbind] branch *)
Definition bind_fedUnbind (queue : Queue) (pattern origin : str) : Op bool :=
  s ← this;
  match getQueueBinding (bindingTree s) queue pattern with
  | None => mret false
  | Some bk =>
      let '(fed', propagate) := delOrigin (fedBinding bk) (q_name queue) origin in
      set_tree (update (tokens pattern) (fun bk => mkBK (bindingVector bk) fed') (bindingTree s)) ;;
      (if countFedBindings fed' (q_name queue) =? 0
       then deleteBinding queue pattern (mkBK (bindingVector bk) fed') ;; mret tt
       else mret tt) ;;
      mret propagate
  end.

Fixpoint propagate_all (keys : list str) : Op unit :=
  match keys with
  | [] => mret tt
  | k :: keys' => propagateFedOp k [] fedOpBind [] ;; propagate_all keys'
  end.

Definition bind (queue : Queue) (key : str) (args : option BindArgs) : Op bool :=
  with_ClearCache (
    let op := match args with Some a => fedOp a | None => fedOpBind end in
    let tags := match args with Some a => fedTags a | None => [] end in
    let origin := match args with Some a => fedOrigin a | None => [] end in
    let pattern := normalize key in
    r ← on_exchange
         (if bool_decide (op = []) || bool_decide (op = fedOpBind) then bind_local queue pattern args origin
          else if decide (op = fedOpUnbind) then p ← bind_fedUnbind queue pattern origin; mret (Some p)
          else if decide (op = fedOpReorigin) then
            s ← this;
            propagate_all (iterateAll reorigin_visit (bindingTree s) []).1 ;;
            mret (Some false)
          else mret (Some false));
    match r with
    | None => mret false
    | Some propagate =>
        cc_clearCache ;;
        on_exchange (
          routeIVE ;;
          (if (propagate : bool) then propagateFedOp key tags op origin else mret tt) ;;
          mret true)
    end).

Definition unbind (queue : Queue) (key : str) (args : option BindArgs) : Op bool :=
  let origin := match args with Some a => fedOrigin a | None => [] end in
  with_ClearCache (on_exchange (
    let pattern := normalize key in
    s ← this;
    match getQueueBinding (bindingTree s) queue pattern with
    | None => mret false
    | Some bk =>
        let '(fed', propagate) := delOrigin (fedBinding bk) (q_name queue) origin in
        set_tree (update (tokens pattern) (fun bk => mkBK (bindingVector bk) fed') (bindingTree s)) ;;
        deleteBinding queue pattern (mkBK (bindingVector bk) fed') ;;
        (if propagate : bool then propagateFedOp pattern [] fedOpUnbind [] else mret tt) ;;
        s' ← this;
        (if nBindings s' =? 0 then checkAutodelete else mret tt) ;;
        mret true
    end)).

(** ** Queries *)

Definition isBound (s : TopicExchange) (queue : option Queue) (key : option str) : bool :=
  match key, queue with
  | Some k, Some q => match getQueueBinding (bindingTree s) q (normalize k) with Some _ => true | None => false end
  | None, None => 0 <? nBindings s
  | Some k, None => match get (tokens k) (bindingTree s) with Some _ => true | None => false end
  | None, Some q => (iterateAll (queue_visit q) (bindingTree s) false).1
  end.

Definition hasBindings (s : TopicExchange) : bool := 0 <? nBindings s.

End ops.

(** ** What the finder collects *)

Definition name (j : Binding) : str := q_name (b_queue j).

Lemma find_visit_list l : forall s,
  visit_list find_visit l s
  = (fold_left find_step (concat (map (fun n => bindingVector (bindings n)) l)) s, true).
Proof.
  induction l as [|n l IH]; intros s; [done|]. cbn [visit_list map concat]. unfold find_visit at 1.
  cbn [and_then]. rewrite IH, fold_left_app. done.
Qed.

Lemma find_step_spec l : forall b qs,
  NoDup (map name b) -> (forall x, x ∈ qs <-> x ∈ map name b) ->
  let '(b', qs') := fold_left find_step l (b, qs) in
  NoDup (map name b') /\ (forall j, j ∈ b' -> j ∈ b \/ j ∈ l)
  /\ (forall x, x ∈ map name b' <-> x ∈ map name b \/ x ∈ map name l).
Proof.
  induction l as [|j l IH]; intros b qs Hnd Hqs; cbn [fold_left].
  { split_and!; [done|auto|]. intros x. simpl. rewrite elem_of_nil. tauto. }
  unfold find_step at 2. fold (name j). destruct (decide (name j ∈ qs)) as [Hin|Hin].
  - specialize (IH b qs Hnd Hqs). destruct (fold_left find_step l (b, qs)) as [b' qs'].
    destruct IH as (H1 & H2 & H3). split_and!; [done| |].
    + intros i Hi. destruct (H2 i Hi); [by left|right; by right].
    + intros x. rewrite H3. cbn [map]. rewrite elem_of_cons. apply Hqs in Hin.
      split; [tauto|]. intros [|[->|]]; auto.
  - specialize (IH (b ++ [j]) (name j :: qs)). rewrite map_app in IH. cbn [map] in IH.
    destruct (fold_left find_step l (b ++ [j], name j :: qs)) as [b' qs'].
    destruct IH as (H1 & H2 & H3).
    + apply NoDup_app. split_and!; [done| |apply NoDup_singleton].
      intros x Hx Hx'. apply list_elem_of_singleton in Hx' as ->. by apply Hqs in Hx.
    + intros x. rewrite elem_of_cons, elem_of_app, list_elem_of_singleton, Hqs. tauto.
    + split_and!; [done| |].
      * intros i Hi. destruct (H2 i Hi) as [Hi'|]; [|right; by right].
        apply elem_of_app in Hi' as [|Hi']; [by left|]. apply list_elem_of_singleton in Hi' as ->. right. by left.
      * intros x. rewrite H3. cbn [map]. rewrite elem_of_app, list_elem_of_singleton, elem_of_cons. tauto.
Qed.

(** ** The abstract set of bindings *)

(** [q] is bound with the pattern [ts] *)
Definition bound_in (t : BindingNode) (ts : list str) (q : Queue) : Prop :=
  exists bk, content ts t = Some bk /\ q ∈ map b_queue (bindingVector bk).

Definition tree_inv (t : BindingNode) : Prop :=
  wf t /\ isStar t = false /\ isHash t = false /\ patterns_ok [] t
  /\ forall ts bk, content ts t = Some bk -> NoDup (map b_queue (bindingVector bk)).

Definition cache_ok (s : TopicExchange) : Prop :=
  forall key b, map_find key (bindingCache s) = Some b -> b = find_bindings (bindingTree s) key.

(** the exchange holds exactly the bindings [B] *)
Definition refines (s : TopicExchange) (B : list (list str * Queue)) : Prop :=
  tree_inv (bindingTree s) /\ cache_ok s /\ NoDup B
  /\ (forall ts q, (ts, q) ∈ B <-> bound_in (bindingTree s) ts q)
  /\ nBindings s = Z.of_nat (length B).

Lemma find_bindings_spec t key :
  tree_inv t ->
  NoDup (map name (find_bindings t key))
  /\ (forall j, j ∈ find_bindings t key ->
        exists ts, bound_in t ts (b_queue j) /\ topic_match ts (tokens key) = true)
  /\ (forall ts q, bound_in t ts q -> topic_match ts (tokens key) = true ->
        q_name q ∈ map name (find_bindings t key)).
Proof.
  intros (Hwf & Es & Eh & _). unfold find_bindings. rewrite iterateMatch_list, find_visit_list.
  set (l := concat (map (fun n => bindingVector (bindings n)) (matches t (tokens key)))).
  assert (Hl : forall j, j ∈ l <-> exists ts bk, content ts t = Some bk /\ j ∈ bindingVector bk
                            /\ topic_match ts (tokens key) = true).
  { intros j. unfold l. rewrite elem_of_concat_map. split.
    - intros (n & Hn & Hj). apply (matches_spec t Hwf) in Hn as (ts & Hg & Hb & Hm).
      unfold self in Hm. rewrite Es, Eh in Hm. exists ts, (bindings n). split_and!; [|done..].
      unfold content. rewrite Hg. unfold bound in Hb. apply negb_true_iff in Hb. by rewrite Hb.
    - intros (ts & bk & Hc & Hj & Hm). unfold content in Hc. destruct (get ts t) as [n|] eqn:Hg; [|done].
      destruct (vec_empty (bindings n)) eqn:Hv; [done|]. simplify_eq. exists n. split; [|done].
      apply (matches_spec t Hwf). exists ts. unfold matched, self, bound. rewrite Es, Eh, Hv. done. }
  pose proof (find_step_spec l [] [] ltac:(constructor) ltac:(done)) as H.
  destruct (fold_left find_step l ([], [])) as [b qs]. simpl. destruct H as (H1 & H2 & H3).
  split_and!; [done| |].
  - intros j Hj. destruct (H2 j Hj) as [Hj'|Hj']; [by apply elem_of_nil in Hj'|].
    apply Hl in Hj' as (ts & bk & Hc & Hj' & Hm). exists ts. split; [|done]. exists bk. split; [done|].
    by apply list_elem_of_fmap_2.
  - intros ts q (bk & Hc & Hq) Hm. apply H3. right. apply list_elem_of_fmap in Hq as (j & -> & Hj).
    apply (list_elem_of_fmap_2 name). apply Hl. eauto.
Qed.

Lemma existsb_queue q l :
  existsb (fun j => bool_decide (b_queue j = q)) l = true <-> q ∈ map b_queue l.
Proof.
  induction l as [|j l IH]; simpl; [by rewrite elem_of_nil|].
  rewrite orb_true_iff, IH, bool_decide_eq_true, elem_of_cons. intuition.
Qed.

(** ** Tree operations on the abstract set *)

(** the bindings at a path, none when there is no node *)
Definition vec_at (t : BindingNode) (ts : list str) : list Binding :=
  match get ts t with Some n => bindingVector (bindings n) | None => [] end.

Lemma bound_in_vec t ts q : bound_in t ts q <-> q ∈ map b_queue (vec_at t ts).
Proof.
  unfold bound_in, content, vec_at. destruct (get ts t) as [n|]; simpl.
  - destruct (bindingVector (bindings n)) as [|j l] eqn:E.
    + split; [by intros (? & ? & _)|]. intros H. by apply elem_of_nil in H.
    + split; [|intros H; exists (bindings n); by rewrite E].
      intros (bk & [= <-] & H). by rewrite E in H.
  - split; [by intros (? & ? & _)|]. intros H. by apply elem_of_nil in H.
Qed.

Lemma content_NoDup t :
  (forall ts bk, content ts t = Some bk -> NoDup (map b_queue (bindingVector bk)))
  <-> (forall ts, NoDup (map b_queue (vec_at t ts))).
Proof.
  split.
  - intros H ts. specialize (H ts). unfold content, vec_at in *. destruct (get ts t) as [n|]; [|constructor].
    simpl in H. destruct (bindingVector (bindings n)) as [|j l] eqn:E; [constructor|].
    rewrite <- E. by apply H.
  - intros H ts bk Hc. specialize (H ts). unfold content, vec_at in *. destruct (get ts t) as [n|]; [|done].
    destruct (vec_empty (bindings n)); [done|]. by simplify_eq.
Qed.

Lemma tree_update t ts n f :
  tree_inv t -> get ts t = Some n -> NoDup (map b_queue (bindingVector (f (bindings n)))) ->
  tree_inv (update ts f t)
  /\ forall us q, bound_in (update ts f t) us q
     <-> if decide (us = ts) then q ∈ map b_queue (bindingVector (f (bindings n))) else bound_in t us q.
Proof.
  intros (Hwf & Es & Eh & Hp & Hnd) Hg Hf.
  destruct (update_spec ts f t n Hwf Hg) as (Hwf' & Es' & Eh' & Hcont).
  assert (Hvec : forall us bk, content us (update ts f t) = Some bk ->
     if decide (us = ts) then bk = f (bindings n) else content us t = Some bk).
  { intros us bk Hc. rewrite Hcont in Hc. case_decide; [|done]. cbv zeta in Hc.
    destruct (vec_empty (f (bindings n))); [done|]. by simplify_eq. }
  split.
  - split_and!; [done|congruence|congruence|by apply update_patterns|].
    intros us bk Hc. apply Hvec in Hc. case_decide; [by subst|by eapply Hnd].
  - intros us q. unfold bound_in. rewrite Hcont. case_decide; [|done]. cbv zeta.
    change (vec_empty ?bk) with (match bindingVector bk with [] => true | _ => false end).
    destruct (bindingVector (f (bindings n))) as [|j l] eqn:E.
    + split; [by intros (? & ? & _)|]. intros H1. by apply elem_of_nil in H1.
    + split; [intros (bk & [= <-] & H1); by rewrite E in H1|]. intros H1.
      exists (f (bindings n)). by rewrite E.
Qed.

Lemma bound_in_content t t' : (forall us, content us t' = content us t) ->
  forall us q, bound_in t' us q <-> bound_in t us q.
Proof. intros H us q. unfold bound_in. by rewrite H. Qed.

Lemma tree_remove t ts :
  tree_inv t -> tree_inv (remove ts t).1 /\ forall us q, bound_in (remove ts t).1 us q <-> bound_in t us q.
Proof.
  intros (Hwf & Es & Eh & Hp & Hnd). destruct (remove ts t) as [t' r] eqn:E. simpl.
  destruct (remove_spec ts t t' r Hwf E) as (Hwf' & Es' & Eh' & Hcont & _).
  split; [|by apply bound_in_content].
  split_and!; [done|congruence|congruence|by apply (remove_patterns ts [] t t' r)|]. intros us bk. rewrite Hcont. apply Hnd.
Qed.

Lemma tree_add t pattern :
  tree_inv t -> normal false (tokens pattern) = true ->
  exists t' n, add (tokens pattern) pattern t = Ret t' /\ tree_inv t' /\ get (tokens pattern) t' = Some n
    /\ forall us q, bound_in t' us q <-> bound_in t us q.
Proof.
  intros (Hwf & Es & Eh & Hp & Hnd) Hn.
  destruct (add_patterns (tokens pattern) pattern [] t Hwf Hp) as (t' & E & Hp').
  { simpl app. by rewrite tokens_spec, join_split. }
  destruct (add_spec (tokens pattern) pattern t t' Hwf ltac:(by rewrite Eh) E) as (Hwf' & Es' & Eh' & Hcont & n & Hg).
  exists t', n. split_and!; [done| |done|by apply bound_in_content].
  split_and!; [done|congruence|congruence|done|]. intros us bk. rewrite Hcont. apply Hnd.
Qed.

Lemma erase_queue_elem q l x :
  NoDup (map b_queue l) -> x ∈ map b_queue (erase_queue q l) <-> x ∈ map b_queue l /\ x <> q.
Proof.
  induction l as [|j l IH]; simpl; intros Hnd; [rewrite elem_of_nil; tauto|].
  apply NoDup_cons in Hnd as [Hn Hnd]. case_decide as E; simpl; rewrite !elem_of_cons.
  - subst. split; [intros Hx; split; [by right|by intros ->]|]. intros [[->|] ?]; done.
  - rewrite (IH Hnd). split; [intros [->|[? ?]]; auto|]. intros [[->|] ?]; auto.
Qed.

Lemma erase_queue_NoDup q l : NoDup (map b_queue l) -> NoDup (map b_queue (erase_queue q l)).
Proof.
  induction l as [|j l IH]; simpl; intros Hnd; [done|]. pose proof Hnd as Hnd'.
  apply NoDup_cons in Hnd as [Hn Hnd]. case_decide; [done|]. simpl. constructor; [|by apply IH].
  rewrite erase_queue_elem by done. tauto.
Qed.

(** the abstract effects *)
Definition abs_bind (p : list str * Queue) (B : list (list str * Queue)) : list (list str * Queue) :=
  if decide (p ∈ B) then B else p :: B.
Definition abs_unbind (p : list str * Queue) (B : list (list str * Queue)) : list (list str * Queue) :=
  filter (fun x => x <> p) B.

Lemma abs_unbind_length p B : NoDup B -> p ∈ B -> length B = S (length (abs_unbind p B)).
Proof.
  unfold abs_unbind. intros Hnd Hin. induction B as [|x B IH]; [by apply elem_of_nil in Hin|].
  apply NoDup_cons in Hnd as [Hn Hnd]. rewrite filter_cons. case_decide as E.
  - apply elem_of_cons in Hin as [->|Hin]; [done|]. simpl. f_equal. auto.
  - assert (x = p) as -> by (destruct (decide (x = p)); [done|by destruct E]).
    simpl. f_equal. f_equal. symmetry. clear -Hn. induction B as [|y B IH]; [done|].
    apply not_elem_of_cons in Hn as [H1 H2]. rewrite filter_cons_True by congruence. f_equal. auto.
Qed.

Lemma abs_unbind_elem p B x : x ∈ abs_unbind p B <-> x ∈ B /\ x <> p.
Proof. unfold abs_unbind. rewrite list_elem_of_filter. tauto. Qed.

Lemma cache_ok_nil t n i l sq no o : cache_ok (mkTopic t n [] i l sq no o).
Proof. intros key b H. done. Qed.

(** ** Operations *)

Section props.
Context (deliverTo : Msg -> Queue -> outcome unit).

Lemma refines_same s s' B :
  refines s B -> bindingTree s' = bindingTree s -> nBindings s' = nBindings s -> cache_ok s' -> refines s' B.
Proof. intros (? & _ & ? & ? & ?) Et En Hc. unfold refines. rewrite Et, En. by split_and!. Qed.

Lemma cache_ok_empty s : bindingCache s = [] -> cache_ok s.
Proof. intros E key b H. by rewrite E in H. Qed.

Lemma route_run m s :
  cache_ok s ->
  exists s' m' o, route deliverTo m s = (s', o) /\ bindingTree s' = bindingTree s /\ nBindings s' = nBindings s
    /\ ive s' = ive s /\ cache_ok s' /\ routingKey m' = routingKey m /\ msg_id m' = msg_id m
    /\ o = (doRoute deliverTo m' (find_bindings (bindingTree s) (routingKey m)) (out s)).2
    /\ out s' = out s ++ map (fun j => Delivered m' (b_queue j)) (find_bindings (bindingTree s) (routingKey m)).
Proof.
  intros Hc. unfold route, mbind, M_bind, Prelude.get, preRoute. cbn [bindingTree bindingCache].
  set (m' := if sequence s then _ else m).
  assert (Hm : routingKey m' = routingKey m /\ msg_id m' = msg_id m) by (unfold m'; by destruct (sequence s)).
  destruct Hm as [Hk Hi].
  destruct (map_find (routingKey m) (bindingCache s)) as [b|] eqn:Hit.
  - rewrite <- (Hc _ _ Hit). unfold mret, M_ret. cbn [out].
    pose proof (doRoute_out deliverTo m' b (out s)) as Ho.
    destruct (doRoute deliverTo m' b (out s)) as [out' o] eqn:Ed. simpl in Ho.
    eexists _, m', o. split; [reflexivity|]. simpl. split_and!; try done. by rewrite Ed.
  - set (b := find_bindings (bindingTree s) (routingKey m)). unfold set_cache, modify, mret, M_ret. cbn [out].
    pose proof (doRoute_out deliverTo m' b (out s)) as Ho.
    destruct (doRoute deliverTo m' b (out s)) as [out' o] eqn:Ed. simpl in Ho.
    eexists _, m', o. split; [reflexivity|]. simpl. split_and!; try done; [|by rewrite Ed].
    intros key b' H. simpl in *. destruct (decide (routingKey m = key)) as [<-|Hne].
    + rewrite map_find_insert in H. by simplify_eq.
    + rewrite map_find_insert_ne in H by done. by apply Hc.
Qed.

Lemma routeIVE_run s :
  cache_ok s ->
  exists s' o, routeIVE deliverTo s = (s', o) /\ bindingTree s' = bindingTree s /\ nBindings s' = nBindings s
    /\ ive s' = ive s /\ cache_ok s' /\ (ive s = false -> o = Ret tt /\ s' = s).
Proof.
  intros Hc. unfold routeIVE, mbind, M_bind, Prelude.get. destruct (ive s) eqn:Hi.
  - destruct (lastMsg s) as [m|].
    + destruct (route_run m s Hc) as (s' & m' & o & E & Ht & Hn & Hi' & Hc' & _).
      exists s', o. rewrite E. split_and!; [done..|congruence|done|done].
    + exists s, (Ret tt). by split_and!.
  - exists s, (Ret tt). by split_and!.
Qed.

(**  routing is exact.  On an exchange that holds the bindings [B], routing
    a message, whether or not the cache has its key, delivers it to exactly
    the queues that have a binding whose pattern matches the routing key, and
    to no two queues of one name; it leaves the bindings and the coherence of
    the cache as they were. *)
Theorem route_exact m s B :
  refines s B ->
  exists s' o m' b, route deliverTo m s = (s', o) /\ refines s' B
    /\ routingKey m' = routingKey m /\ msg_id m' = msg_id m
    /\ out s' = out s ++ map (fun j => Delivered m' (b_queue j)) b
    /\ NoDup (map name b)
    /\ (forall j, j ∈ b -> exists ts, (ts, b_queue j) ∈ B /\ topic_match ts (tokens (routingKey m)) = true)
    /\ (forall ts q, (ts, q) ∈ B -> topic_match ts (tokens (routingKey m)) = true -> q_name q ∈ map name b).
Proof.
  intros Hr. pose proof Hr as (Hinv & Hc & _ & HB & _).
  destruct (route_run m s Hc) as (s' & m' & o & E & Ht & Hn & _ & Hc' & Hk & Hi & _ & Ho).
  destruct (find_bindings_spec (bindingTree s) (routingKey m) Hinv) as (H1 & H2 & H3).
  exists s', o, m', (find_bindings (bindingTree s) (routingKey m)).
  split_and!; [done|by apply (refines_same s)|done..| |].
  - intros j Hj. destruct (H2 j Hj) as (ts & Hb & Hm). exists ts. by rewrite HB.
  - intros ts q Hq Hm. apply (H3 ts); [by apply HB|done].
Qed.

Lemma with_tree_refines s t B :
  tree_inv t -> NoDup B -> (forall ts q, (ts, q) ∈ B <-> bound_in t ts q) ->
  nBindings s = Z.of_nat (length B) -> bindingTree s = t -> cache_ok s -> refines s B.
Proof. intros. unfold refines. subst t. by split_and!. Qed.

Lemma normal_normalize key : normal false (tokens (normalize key)) = true.
Proof. rewrite tokens_normalize. apply norm_normal. Qed.

Lemma bind_local_run q pattern args origin s B :
  refines s B -> normal false (tokens pattern) = true ->
  Z.of_nat (length B) + 1 < 2 ^ 64 ->
  exists s' r, bind_local q pattern args origin s = (s', Ret r)
    /\ tree_inv (bindingTree s')
    /\ (forall ts q', (ts, q') ∈ abs_bind (tokens pattern, q) B <-> bound_in (bindingTree s') ts q')
    /\ nBindings s' = Z.of_nat (length (abs_bind (tokens pattern, q) B))
    /\ out s' = out s /\ ive s' = ive s
    /\ match r with None => (tokens pattern, q) ∈ B | Some _ => (tokens pattern, q) ∉ B end.
Proof.
  intros (Hinv & Hc & Hnd & HB & Hn) Hnorm Hlen. set (ts0 := tokens pattern) in *.
  destruct (tree_add _ _ Hinv Hnorm) as (t' & n & Ea & Hinv' & Hg & Hb'). fold ts0 in Ea, Hg.
  unfold bind_local, mbind, M_bind, Prelude.get. fold ts0. rewrite Ea, Hg.
  assert (Hin : existsb (fun j => bool_decide (b_queue j = q)) (bindingVector (bindings n)) = true <-> (ts0, q) ∈ B).
  { rewrite existsb_queue, HB, <- Hb', bound_in_vec. unfold vec_at. by rewrite Hg. }
  assert (Hnv : NoDup (map b_queue (bindingVector (bindings n)))).
  { destruct Hinv' as (_ & _ & _ & _ & H). rewrite content_NoDup in H. specialize (H ts0).
    unfold vec_at in H. by rewrite Hg in H. }
  assert (Hvn : forall us q', us = ts0 -> bound_in t' us q' <-> q' ∈ map b_queue (bindingVector (bindings n))).
  { intros us q' ->. rewrite bound_in_vec. unfold vec_at. by rewrite Hg. }
  destruct (addOrigin (fedBinding (bindings n)) (q_name q) origin) as [fed' propagate].
  unfold abs_bind. destruct (existsb _ _) eqn:Eb.
  - rewrite decide_True by (by apply Hin).
    destruct (tree_update t' ts0 n (fun bk => mkBK (bindingVector bk) fed') Hinv' Hg Hnv) as [Hi2 Hb2].
    eexists _, None. split; [reflexivity|]. cbn [bindingTree nBindings out ive fst set_tree modify]. split_and!; [done| |done..|by apply Hin].
    intros us q'. rewrite HB, <- Hb', Hb2. case_decide; [|done]. by apply Hvn.
  - assert (Hni : (ts0, q) ∉ B) by (rewrite <- Hin; congruence). rewrite decide_False by done.
    destruct (tree_update t' ts0 n
      (fun bk => mkBK (bindingVector bk ++ [mkBinding pattern q args origin]) fed') Hinv' Hg) as [Hi2 Hb2].
    { simpl. rewrite map_app. apply NoDup_app. split_and!; [done| |apply NoDup_singleton].
      intros x Hx Hx'. apply list_elem_of_singleton in Hx' as ->. simpl in Hx.
      apply existsb_queue in Hx. congruence. }
    eexists _, (Some propagate). split; [reflexivity|]. cbn [bindingTree nBindings out ive]. split_and!; [done| | |done..].
    + intros us q'. rewrite elem_of_cons, HB, <- Hb', Hb2. case_decide as E.
      * subst us. simpl. rewrite map_app, elem_of_app. cbn [map b_queue]. rewrite list_elem_of_singleton.
        rewrite <- Hvn by done. split; [intros [[= ->]|]; auto|]. intros [| -> ]; auto.
      * split; [intros [[= -> ->]|]; done|auto].
    + rewrite Hn, (uwrap_small 64) by (unfold is_uint; lia). cbn [length]. lia.
Qed.

Lemma abs_bind_NoDup p B : NoDup B -> NoDup (abs_bind p B).
Proof. intros H. unfold abs_bind. case_decide; [done|]. by constructor. Qed.

Definition is_local (args : option BindArgs) : bool :=
  match args with Some a => bool_decide (fedOp a = []) || bool_decide (fedOp a = fedOpBind) | None => true end.

Lemma bind_spec q key args s B :
  refines s B -> Z.of_nat (length B) + 1 < 2 ^ 64 -> is_local args = true ->
  let p := (norm false (tokens key), q) in
  exists s' o, bind deliverTo q key args s = (s', o) /\ refines s' (abs_bind p B)
    /\ (p ∈ B -> o = Ret false /\ out s' = out s)
    /\ (p ∉ B -> ive s = false -> o = Ret true).
Proof.
  intros Hr Hlen Hloc p. unfold bind, with_ClearCache, on_exchange.
  set (op := match args with Some a => fedOp a | None => fedOpBind end).
  assert (Hop : bool_decide (op = []) || bool_decide (op = fedOpBind) = true) by (destruct args; done).
  rewrite Hop. unfold mbind, M_bind.
  set (origin := match args with Some a => fedOrigin a | None => [] end).
  destruct (bind_local_run q (normalize key) args origin s B Hr (normal_normalize key) Hlen)
    as (s1 & r & -> & Hinv & HB & Hn & Ho & Hi & Hrr). rewrite tokens_normalize in HB, Hn, Hrr. fold p in HB, Hn, Hrr.
  pose proof Hr as (_ & _ & Hnd & _ & _). pose proof (abs_bind_NoDup p B Hnd) as Hnd'.
  destruct r as [propagate|].
  - set (s1' := mkTopic (bindingTree s1) (nBindings s1) [] (ive s1) (lastMsg s1) (sequence s1)
                  (sequenceNo s1) (out s1)).
    change (cc_clearCache (s1, false)) with ((s1', true), Ret (A := unit) tt). cbv iota beta.
    destruct (routeIVE_run s1' (cache_ok_nil _ _ _ _ _ _ _)) as (s2 & o2 & E2 & Ht2 & Hn2 & Hi2 & Hc2 & Hive).
    rewrite E2. simpl in Ht2, Hn2, Hive.
    assert (Href : forall s3, bindingTree s3 = bindingTree s2 -> nBindings s3 = nBindings s2 ->
              bindingCache s3 = bindingCache s2 -> refines s3 (abs_bind p B)).
    { intros s3 E3 E4 E5. apply (with_tree_refines _ (bindingTree s1)); [done..| | |].
      - by rewrite E4, Hn2.
      - by rewrite E3.
      - intros k b Hk. rewrite E5 in Hk. rewrite E3. by apply Hc2. }
    destruct o2 as [[]|e].
    + destruct propagate; eexists _, _; (split; [reflexivity|]); (split; [by apply Href|]); simpl;
        (split_and!; [by intros|by intros]).
    + eexists _, _. split; [reflexivity|]. split; [by apply Href|]. simpl. split_and!; [by intros|].
      intros _ Hf. rewrite Hi in Hive. by destruct (Hive Hf).
  - eexists _, _. split; [reflexivity|]. simpl. split_and!; [|done|done].
    apply (with_tree_refines _ (bindingTree s1)); [done..|by apply cache_ok_empty].
Qed.

(**  binding.  A bind adds the pair of the normalised pattern and the queue
    to the set of bindings, leaves a coherent cache (the entry an initial value
    exchange makes when it routes its last message to the new binding stays),
    and returns whether the pair is new; a repeated bind changes no binding and
    emits nothing. *)
Theorem bind_refines q key args s B :
  refines s B -> Z.of_nat (length B) + 1 < 2 ^ 64 -> is_local args = true ->
  let p := (norm false (tokens key), q) in
  exists s' o, bind deliverTo q key args s = (s', o) /\ refines s' (abs_bind p B)
    /\ (p ∈ B -> o = Ret false /\ out s' = out s)
    /\ (p ∉ B -> ive s = false -> o = Ret true).
Proof. apply bind_spec. Qed.

Lemma getQueueBinding_spec t q pattern :
  match getQueueBinding t q pattern with
  | Some bk => exists n, get (tokens pattern) t = Some n /\ bk = bindings n /\ bound_in t (tokens pattern) q
  | None => ~ bound_in t (tokens pattern) q
  end.
Proof.
  pose proof (bound_in_vec t (tokens pattern) q) as Hv. unfold vec_at in Hv. unfold getQueueBinding.
  destruct (get (tokens pattern) t) as [n|]; [|rewrite Hv; apply not_elem_of_nil].
  rewrite <- existsb_queue in Hv. destruct (existsb _ _); [|rewrite Hv; done].
  exists n. split_and!; [done..|]. by apply Hv.
Qed.

(** the state after [deleteBinding] *)
Lemma deleteBinding_run q pattern bk s n :
  tree_inv (bindingTree s) -> get (tokens pattern) (bindingTree s) = Some n -> bindings n = bk ->
  q ∈ map b_queue (bindingVector bk) -> 0 < nBindings s < 2 ^ 64 ->
  exists s', deleteBinding q pattern bk s = (s', Ret true) /\ tree_inv (bindingTree s')
    /\ (forall us x, bound_in (bindingTree s') us x
          <-> bound_in (bindingTree s) us x /\ (us, x) <> (tokens pattern, q))
    /\ nBindings s' = nBindings s - 1 /\ out s' = out s /\ ive s' = ive s.
Proof.
  intros Hinv Hg Hbk Hq Hn. unfold deleteBinding.
  assert (Hex : existsb (fun j => bool_decide (b_queue j = q)) (bindingVector bk) = true) by (by apply existsb_queue).
  rewrite Hex. cbn [negb]. unfold mbind, M_bind, Prelude.get, set_tree, modify, guard_throw, set_nBindings.
  rewrite (proj2 (Z.ltb_lt _ _)) by lia. cbn [negb bindingTree nBindings].
  set (f := fun bk => mkBK (erase_queue q (bindingVector bk)) (fedBinding bk)).
  assert (Hnd : NoDup (map b_queue (bindingVector (bindings n)))).
  { pose proof Hinv as (_ & _ & _ & _ & H). rewrite content_NoDup in H. specialize (H (tokens pattern)).
    unfold vec_at in H. by rewrite Hg in H. }
  destruct (tree_update (bindingTree s) (tokens pattern) n f Hinv Hg) as [Hi2 Hb2].
  { unfold f. cbn [bindingVector]. by apply erase_queue_NoDup. }
  assert (Hbs : forall us x, bound_in (update (tokens pattern) f (bindingTree s)) us x
     <-> bound_in (bindingTree s) us x /\ (us, x) <> (tokens pattern, q)).
  { intros us x. rewrite Hb2. case_decide as E.
    - subst us. unfold f. cbn [bindingVector]. rewrite erase_queue_elem by done.
      rewrite bound_in_vec. unfold vec_at. rewrite Hg.
      split; intros [? Hx]; (split; [done|]); [congruence|by intros ->].
    - split; [intros ?; split; [done|congruence]|tauto]. }
  rewrite (uwrap_small 64) by (unfold is_uint; lia).
  case_decide.
  - destruct (tree_remove _ (tokens pattern) Hi2) as [Hi3 Hb3].
    eexists. split; [reflexivity|]. cbn [bindingTree nBindings out ive]. split_and!; [done| |done..].
    intros us x. by rewrite Hb3.
  - eexists. split; [reflexivity|]. cbn [bindingTree nBindings out ive]. by split_and!.
Qed.

Lemma unbind_spec q key args s B :
  refines s B -> Z.of_nat (length B) < 2 ^ 64 ->
  let p := (norm false (tokens key), q) in
  exists s', unbind q key args s = (s', Ret (bool_decide (p ∈ B)))
    /\ refines s' (abs_unbind p B) /\ bindingCache s' = [].
Proof.
  intros (Hinv & Hc & Hnd & HB & Hn) Hlen p.
  assert (Hnd' : NoDup (abs_unbind p B)) by (by apply NoDup_filter).
  unfold unbind, with_ClearCache, on_exchange, mbind, M_bind, Prelude.get.
  pose proof (getQueueBinding_spec (bindingTree s) q (normalize key)) as Hgq. rewrite tokens_normalize in *.
  destruct (getQueueBinding (bindingTree s) q (normalize key)) as [bk|].
  - destruct Hgq as (n & Hg & -> & Hb). pose proof Hb as HpB. rewrite <- HB in HpB. fold p in HpB.
    rewrite bool_decide_eq_true_2 by done.
    destruct (delOrigin _ _ _) as [fed' propagate]. unfold set_tree, modify.
    pose proof (abs_unbind_length p B Hnd HpB) as Hl.
    assert (Hq : q ∈ map b_queue (bindingVector (bindings n))).
    { apply bound_in_vec in Hb. unfold vec_at in Hb. by rewrite Hg in Hb. }
    destruct (tree_update (bindingTree s) (norm false (tokens key)) n (fun bk => mkBK (bindingVector bk) fed') Hinv Hg)
      as [Hi2 Hb2].
    { pose proof Hinv as (_ & _ & _ & _ & H). rewrite content_NoDup in H. specialize (H (norm false (tokens key))).
      unfold vec_at in H. by rewrite Hg in H. }
    assert (Hb2' : forall us x, bound_in (update (norm false (tokens key)) (fun bk => mkBK (bindingVector bk) fed') (bindingTree s)) us x
              <-> bound_in (bindingTree s) us x).
    { intros us x. rewrite Hb2. case_decide as E; [|done]. subst us. rewrite bound_in_vec. unfold vec_at. by rewrite Hg. }
    edestruct (deleteBinding_run q (normalize key)) as (s' & -> & Hi3 & Hb3 & Hn3 & Ho3 & Hive3).
    { exact Hi2. }
    { rewrite tokens_normalize. apply (update_get _ _ _ n); [apply Hinv|exact Hg]. }
    { apply bindings_set_bindings. }
    { done. }
    { cbn [nBindings]. lia. }
    cbn [bindingTree nBindings] in Hb3, Hn3. rewrite tokens_normalize in Hb3.
    assert (Href : forall s3, bindingTree s3 = bindingTree s' -> nBindings s3 = nBindings s' ->
              refines (clearCache s3).1 (abs_unbind p B)).
    { intros s3 E3 E4. apply (with_tree_refines _ (bindingTree s')); [done..| | | |by apply cache_ok_empty].
      - intros us x. rewrite abs_unbind_elem, HB, Hb3, Hb2'. done.
      - simpl. rewrite E4, Hn3. lia.
      - simpl. by rewrite E3. }
    destruct propagate; simpl; destruct (nBindings s' =? 0); eexists; (split; [reflexivity|]);
      (split; [by apply Href|done]).
  - assert (HpB : p ∉ B) by (unfold p; by rewrite HB). rewrite bool_decide_eq_false_2 by done.
    eexists. split; [reflexivity|]. split; [|done].
    assert (abs_unbind p B = B) as ->.
    { clear -HpB. unfold abs_unbind. induction B as [|x B IH]; [done|].
      apply not_elem_of_cons in HpB as [? ?]. rewrite filter_cons_True by congruence. f_equal. auto. }
    apply (with_tree_refines _ (bindingTree s)); [done..|by apply cache_ok_empty].
Qed.

(**  unbinding.  An unbind removes exactly the pair of the normalised
    pattern and the queue, returns whether it was bound, never fails the
    count's assertion, and clears the cache. *)
Theorem unbind_refines q key args s B :
  refines s B -> Z.of_nat (length B) < 2 ^ 64 ->
  let p := (norm false (tokens key), q) in
  exists s', unbind q key args s = (s', Ret (bool_decide (p ∈ B)))
    /\ refines s' (abs_unbind p B) /\ bindingCache s' = [].
Proof. apply unbind_spec. Qed.

Lemma queue_visit_list q l : forall found,
  (visit_list (queue_visit q) l found).1
  = found || existsb (fun n => existsb (fun j => bool_decide (b_queue j = q)) (bindingVector (bindings n))) l.
Proof.
  induction l as [|n l IH]; intros found; simpl; [by rewrite orb_false_r|]. unfold queue_visit at 1.
  destruct (existsb _ (bindingVector (bindings n))); simpl; [by rewrite orb_true_r|]. apply IH.
Qed.

(**  queries.  [isBound] answers from the set of bindings: for a queue and
    a key whether that pair is bound (the key taken up to normalisation), for
    a queue alone whether it has any binding, and for neither whether there is
    any binding at all. *)
Theorem isBound_spec s B q key :
  refines s B ->
  isBound s (Some q) (Some key) = bool_decide ((norm false (tokens key), q) ∈ B)
  /\ (isBound s (Some q) None = true <-> exists ts, (ts, q) ∈ B)
  /\ isBound s None None = bool_decide (B <> []).
Proof.
  intros (Hinv & Hc & Hnd & HB & Hn). split_and!; simpl.
  - pose proof (getQueueBinding_spec (bindingTree s) q (normalize key)) as H. rewrite tokens_normalize in H.
    destruct (getQueueBinding (bindingTree s) q (normalize key)) as [bk|].
    + destruct H as (n & _ & _ & H). symmetry. by apply bool_decide_eq_true_2, HB.
    + symmetry. apply bool_decide_eq_false_2. by rewrite HB.
  - rewrite iterateAll_list, queue_visit_list. simpl. rewrite existsb_exists. setoid_rewrite HB.
    setoid_rewrite bound_in_vec. unfold vec_at. split.
    + intros (n & Hin & He). apply list_elem_of_In, (all_nodes_spec _ (proj1 Hinv)) in Hin as (ts & Hg).
      exists ts. rewrite Hg. by apply existsb_queue.
    + intros (ts & Hq). destruct (get ts (bindingTree s)) as [n|] eqn:Hg; [|by apply elem_of_nil in Hq].
      exists n. split; [|by apply existsb_queue]. apply list_elem_of_In, (all_nodes_spec _ (proj1 Hinv)). eauto.
  - rewrite Hn. destruct B as [|x B].
    + by rewrite bool_decide_eq_false_2 by auto.
    + rewrite bool_decide_eq_true_2 by done. apply Z.ltb_lt. simpl length. lia.
Qed.

(** ** Traces *)

Inductive Command :=
| CBind (q : Queue) (key : str)
| CUnbind (q : Queue) (key : str)
| CRoute (m : Msg).

Definition run_command (c : Command) (s : TopicExchange) : TopicExchange :=
  match c with
  | CBind q key => (bind deliverTo q key None s).1
  | CUnbind q key => (unbind q key None s).1
  | CRoute m => (route deliverTo m s).1
  end.

(** the bindings after a command, keyed by the tokens the client gave *)
Definition abs_command (c : Command) (B : list (list str * Queue)) : list (list str * Queue) :=
  match c with
  | CBind q key => abs_bind (norm false (tokens key), q) B
  | CUnbind q key => abs_unbind (norm false (tokens key), q) B
  | CRoute _ => B
  end.

Lemma abs_command_length c B : (length (abs_command c B) <= S (length B))%nat.
Proof.
  destruct c as [q key|q key|m]; simpl; [|unfold abs_unbind|lia].
  - unfold abs_bind. case_decide; simpl; lia.
  - etransitivity; [apply length_filter|lia].
Qed.

Lemma command_refines c s B :
  refines s B -> Z.of_nat (length B) + 1 < 2 ^ 64 -> refines (run_command c s) (abs_command c B).
Proof.
  intros Hr Hl. destruct c as [q key|q key|m]; simpl.
  - destruct (bind_spec q key None s B Hr Hl eq_refl) as (s' & o & E & H & _). by rewrite E.
  - destruct (unbind_spec q key None s B Hr) as (s' & E & H & _); [lia|]. by rewrite E.
  - pose proof Hr as (_ & Hc & _). destruct (route_run m s Hc) as (s' & m' & o & E & Ht & Hn & _ & Hc' & _).
    rewrite E. by apply (refines_same s).
Qed.

Lemma commands_refine cs : forall s B,
  refines s B -> Z.of_nat (length B + length cs) < 2 ^ 64 ->
  refines (fold_left (fun s c => run_command c s) cs s) (fold_left (fun B c => abs_command c B) cs B).
Proof.
  induction cs as [|c cs IH]; intros s B Hr Hl; [done|]. simpl in *.
  pose proof (abs_command_length c B). apply IH; [|lia]. apply command_refines; [done|lia].
Qed.

Lemma refines_new i sq : refines (new_TopicExchange i sq) [].
Proof.
  assert (Hb : forall ts q, ~ bound_in root_node ts q).
  { intros ts q (bk & Hc & _). by rewrite content_root in Hc. }
  split_and!; [|by apply cache_ok_nil|constructor| |done].
  - split_and!; [apply wf_root|done|done|apply patterns_ok_root|].
    intros ts bk Hc. change (content ts root_node = Some bk) in Hc. by rewrite content_root in Hc.
  - intros ts q. split; [intros H; by apply elem_of_nil in H|]. intros H. by apply Hb in H.
Qed.

(** C1: the exchange as its users see it.  After any sequence of binds,
    unbinds and routed messages on a new exchange (fewer than 2^64 of them),
    and whatever earlier deliveries did, a routed message is delivered to
    exactly the names of the queues left bound by the sequence with a pattern
    that matches the key, each once. *)
Theorem topic_exchange_correct cs m i sq :
  Z.of_nat (length cs) < 2 ^ 64 ->
  let s := fold_left (fun s c => run_command c s) cs (new_TopicExchange i sq) in
  let B := fold_left (fun B c => abs_command c B) cs [] in
  exists m' qs, out (route deliverTo m s).1 = out s ++ map (Delivered m') qs
    /\ msg_id m' = msg_id m /\ NoDup (map q_name qs)
    /\ forall x, x ∈ map q_name qs
         <-> exists ts q, (ts, q) ∈ B /\ topic_match ts (tokens (routingKey m)) = true /\ q_name q = x.
Proof.
  intros Hlen s B.
  pose proof (commands_refine cs (new_TopicExchange i sq) [] (refines_new i sq) Hlen) as Hr.
  fold s B in Hr. pose proof Hr as (Hinv & Hc & _ & HB & _).
  destruct (route_run m s Hc) as (s' & m' & o & E & _ & _ & _ & _ & _ & Hi & _ & Ho).
  destruct (find_bindings_spec (bindingTree s) (routingKey m) Hinv) as (H1 & H2 & H3).
  set (b := find_bindings (bindingTree s) (routingKey m)) in *.
  exists m', (map b_queue b). rewrite E. simpl. rewrite map_map.
  assert (En : map q_name (map b_queue b) = map name b) by (by rewrite map_map). rewrite En.
  split_and!; [done..|]. intros x. split.
  - intros Hx. apply list_elem_of_fmap in Hx as (j & -> & Hj). destruct (H2 j Hj) as (ts & Hb & Hm).
    exists ts, (b_queue j). by rewrite HB.
  - intros (ts & q & Hq & Hm & <-). apply (H3 ts); [by apply HB|done].
Qed.

End props.

(** ** A small exchange *)

Module Small.
Definition deliver (m : Msg) (q : Queue) : outcome unit :=
  if (q_id q =? 2)%nat then Throw SessionException else Ret tt.
Definition q1 : Queue := mkQueue 1 (s_ "orders").
Definition q2 : Queue := mkQueue 2 (s_ "audit").
Definition msg : Msg := mkMsg (s_ "usd.nyse.ibm") 7 None.
Definition commands : list Command :=
  [ CBind q1 (s_ "usd.#.*"); CBind q2 (s_ "#.ibm"); CBind q1 (s_ "*.nyse.*"); CRoute msg;
    CBind q2 (s_ "eur.#"); CUnbind q2 (s_ "eur.#") ].
Definition exch : TopicExchange :=
  fold_left (fun s c => run_command deliver c s) commands (new_TopicExchange false false).
Definition bound : list (list str * Queue) := fold_left (fun B c => abs_command c B) commands [].

Lemma exch_refines : refines exch bound.
Proof. apply (commands_refine deliver commands); [apply refines_new|done]. Qed.
End Small.

(** the entry that an initial value exchange caches while it binds is still there after the bind *)
Example bind_keeps_cache :
  let s0 := (route Small.deliver Small.msg (new_TopicExchange true false)).1 in
  map fst (bindingCache (bind Small.deliver Small.q1 (s_ "#.ibm") None s0).1) = [s_ "usd.nyse.ibm"].
Proof. vm_compute. reflexivity. Qed.

Lemma route_exact_witness :
  exists s' o m' b, route Small.deliver Small.msg Small.exch = (s', o) /\ refines s' Small.bound
    /\ routingKey m' = routingKey Small.msg /\ msg_id m' = msg_id Small.msg
    /\ out s' = out Small.exch ++ map (fun j => Delivered m' (b_queue j)) b
    /\ NoDup (map name b)
    /\ (forall j, j ∈ b -> exists ts, (ts, b_queue j) ∈ Small.bound
            /\ topic_match ts (tokens (routingKey Small.msg)) = true)
    /\ (forall ts q, (ts, q) ∈ Small.bound -> topic_match ts (tokens (routingKey Small.msg)) = true ->
            q_name q ∈ map name b).
Proof. apply (route_exact Small.deliver Small.msg Small.exch Small.bound), Small.exch_refines. Defined.

Lemma bind_refines_witness :
  let p := (norm false (tokens (s_ "a.#.*")), Small.q1) in
  exists s' o, bind Small.deliver Small.q1 (s_ "a.#.*") None Small.exch = (s', o)
    /\ refines s' (abs_bind p Small.bound)
    /\ (p ∈ Small.bound -> o = Ret false /\ out s' = out Small.exch)
    /\ (p ∉ Small.bound -> ive Small.exch = false -> o = Ret true).
Proof.
  apply (bind_refines Small.deliver Small.q1 (s_ "a.#.*") None Small.exch Small.bound).
  - apply Small.exch_refines.
  - vm_compute. done.
  - done.
Defined.

Lemma unbind_refines_witness :
  let p := (norm false (tokens (s_ "#.ibm")), Small.q2) in
  exists s', unbind Small.q2 (s_ "#.ibm") None Small.exch = (s', Ret (bool_decide (p ∈ Small.bound)))
    /\ refines s' (abs_unbind p Small.bound) /\ bindingCache s' = [].
Proof.
  apply (unbind_refines Small.q2 (s_ "#.ibm") None Small.exch Small.bound).
  - apply Small.exch_refines.
  - vm_compute. done.
Defined.

Lemma isBound_spec_witness :
  isBound Small.exch (Some Small.q2) (Some (s_ "#.ibm"))
    = bool_decide ((norm false (tokens (s_ "#.ibm")), Small.q2) ∈ Small.bound)
  /\ (isBound Small.exch (Some Small.q2) None = true <-> exists ts, (ts, Small.q2) ∈ Small.bound)
  /\ isBound Small.exch None None = bool_decide (Small.bound <> []).
Proof. apply (isBound_spec Small.exch Small.bound Small.q2 (s_ "#.ibm")), Small.exch_refines. Defined.

Lemma topic_exchange_correct_witness :
  let s := fold_left (fun s c => run_command Small.deliver c s) Small.commands (new_TopicExchange false false) in
  let B := fold_left (fun B c => abs_command c B) Small.commands [] in
  exists m' qs, out (route Small.deliver Small.msg s).1 = out s ++ map (Delivered m') qs
    /\ msg_id m' = msg_id Small.msg /\ NoDup (map q_name qs)
    /\ forall x, x ∈ map q_name qs
         <-> exists ts q, (ts, q) ∈ B /\ topic_match ts (tokens (routingKey Small.msg)) = true /\ q_name q = x.
Proof. apply (topic_exchange_correct Small.deliver Small.commands Small.msg false false). done. Defined.

(**  a key alone.  Asked for a key and no queue, [isBound] looks for a node
    of the tree: it answers yes for a key that is only a prefix of a bound
    pattern, and no for a bound pattern that is not in normal form. *)
Theorem isBound_key_inexact :
  exists s B, refines s B
    /\ isBound s None (Some (s_ "a")) = true /\ (forall q, (tokens (s_ "a"), q) ∉ B)
    /\ isBound s (Some Small.q1) (Some (s_ "b.#.*")) = true
    /\ isBound s None (Some (s_ "b.#.*")) = false.
Proof.
  set (cs := [CBind Small.q1 (s_ "a.b"); CBind Small.q1 (s_ "b.#.*")]).
  exists (fold_left (fun s c => run_command Small.deliver c s) cs (new_TopicExchange false false)),
    (fold_left (fun B c => abs_command c B) cs []).
  split_and!; [|reflexivity| |reflexivity|reflexivity].
  - apply (commands_refine Small.deliver cs); [apply refines_new|done].
  - intros q. vm_compute. intros H. repeat (apply elem_of_cons in H as [H|H]; [done|]). by apply elem_of_nil in H.
Qed.

End TopicExchange.
