(* ===== verification/ExchangeBase.v ===== *)
(** * What the exchange types share (src/qpid/sys/CopyOnWriteArray.h, src/qpid/broker/Exchange.cpp)

    The array that direct, fanout and headers exchanges keep their bindings in,
    the part of an exchange that does not depend on its type ([PreRoute],
    [routeIVE], [propagateFedOp], [checkAutodelete], [routeWithAlternate]), and
    the interface of an exchange type: [ExchangeType] has its virtual
    functions, [Contract] what they promise.  [commands_represent] and
    [route_selects] are proved once, against the interface. *)

From stdpp Require Import strings.
From S2P Require Import Prelude TopicKey TopicTree Exchange.
Local Open Scope Z_scope.

(** ** Arrays that are copied when they change *)

Module CopyOnWriteArray.
Section array.
Context {T : Type}.
(** the copy constructor of an element *)
Context (dup : T -> T).

(** the pointer to the vector *)
Abbreviation Array := (option (list T)).
Implicit Types (array : Array) (f : T -> bool).

Definition snapshot array : list T := default [] array.
Definition empty array : bool := match array with Some (_ :: _) => false | _ => true end.
Definition copied array : list T := map dup (snapshot array).

Definition add (t : T) array : Array := Some (copied array ++ [dup t]).

(** [erase(find(...))] *)
Fixpoint erase_first f (l : list T) : list T :=
  match l with [] => [] | x :: l' => if f x then l' else x :: erase_first f l' end.

Definition remove `{EqDecision T} (t : T) array : Array * bool :=
  if existsb (fun x => bool_decide (x = t)) (snapshot array)
  then (Some (erase_first (fun x => bool_decide (x = t)) (copied array)), true)
  else (array, false).

Definition clear array : Array * bool :=
  match array with Some (_ :: _) => (None, true) | _ => (array, false) end.

Definition add_unless (t : T) f array : Array * bool :=
  if existsb f (snapshot array) then (array, false) else (add t array, true).

Definition remove_if f array : Array * bool :=
  if existsb f (snapshot array) then (Some (filter (fun x => f x = false) (copied array)), true) else (array, false).

(** [m] at the first element that [f] holds of: the elements, and what [m] left *)
Fixpoint modify_first {R} f (m : T -> T * R) (l : list T) : list T * option R :=
  match l with
  | [] => ([], None)
  | x :: l' =>
      if f x then let '(x', r) := m x in (x' :: l', Some r)
      else let '(l2, r) := modify_first f m l' in (x :: l2, r)
  end.

(** the array, and what the modifier holds afterwards if it was called *)
Definition modify_if {R} f (m : T -> T * R) array : Array * option R :=
  match array with
  | None => (None, None)
  | Some l =>
      if existsb f l then let '(l', r) := modify_first f m (map dup l) in (Some l', r) else (array, None)
  end.

End array.

Section laws.
Context {T : Type}.
Implicit Types (array : option (list T)) (f : T -> bool).

Lemma empty_snapshot array : empty array = true <-> snapshot array = [].
Proof. by destruct array as [[|x l]|]. Qed.

Lemma clear_snapshot array : snapshot (clear array).1 = [].
Proof. by destruct array as [[|x l]|]. Qed.

Lemma add_unless_id t f array :
  add_unless id t f array =
    if existsb f (snapshot array) then (array, false) else (Some (snapshot array ++ [t]), true).
Proof. unfold add_unless, add, copied. by rewrite map_id. Qed.

Lemma remove_if_id f array :
  remove_if id f array =
    if existsb f (snapshot array) then (Some (filter (fun x => f x = false) (snapshot array)), true) else (array, false).
Proof. unfold remove_if, copied. by rewrite map_id. Qed.
End laws.
End CopyOnWriteArray.

(** ** Exchanges *)

Record Exch (B : Type) := mkExch {
  bindings : B;
  (** [qpid.ive], the last message routed, [qpid.msg_sequence] and its counter *)
  ive : bool;
  lastMsg : option Msg;
  sequence : bool;
  sequenceNo : Z;
  (** what was delivered and propagated *)
  out : list Event;
}.
Arguments mkExch {B} _ _ _ _ _ _.
Arguments bindings {B} _.
Arguments ive {B} _.
Arguments lastMsg {B} _.
Arguments sequence {B} _.
Arguments sequenceNo {B} _.
Arguments out {B} _.

(** the functions an exchange type overrides: the bindings for a message, which [route]
    looks for before [doRoute], and the operations that change bindings *)
Class ExchangeType (B C : Type) := {
  new_bindings : B;
  matching : Msg -> M B (list Binding);
  command : (Msg -> Queue -> outcome unit) -> C -> M (Exch B) bool;
}.

Section base.
Context {B : Type}.
Abbreviation Op := (M (Exch B)).
Abbreviation this := Prelude.get.

Definition new_Exch (b : B) (ive_ sequence_ : bool) : Exch B := mkExch b ive_ None sequence_ 0 [].

Definition set_bindings (b : B) : Op unit := modify (fun s =>
  mkExch b (ive s) (lastMsg s) (sequence s) (sequenceNo s) (out s)).
Definition set_out (o : list Event) : Op unit := modify (fun s =>
  mkExch (bindings s) (ive s) (lastMsg s) (sequence s) (sequenceNo s) o).
Definition emit (e : Event) : Op unit := s ← this; set_out (out s ++ [e]).

(** a function on the bindings *)
Definition on_bindings {A} (m : M B A) : Op A := fun s =>
  let '(b, o) := m (bindings s) in ((set_bindings b s).1, o).

Definition propagateFedOp (key tags op origin : str) : Op unit := emit (Propagated key tags op origin).
Definition checkAutodelete : Op unit := emit CheckedAutodelete.

(** [PreRoute] *)
Definition preRoute (m : Msg) : Op Msg := fun s =>
  let no := if sequence s then swrap 64 (sequenceNo s + 1) else sequenceNo s in
  let m' := if sequence s then mkMsg (routingKey m) (msg_id m) (Some no) else m in
  (mkExch (bindings s) (ive s) (if ive s then Some m' else lastMsg s) (sequence s) no (out s), Ret m').

Fixpoint propagate_all (keys : list str) : Op unit :=
  match keys with
  | [] => mret tt
  | k :: keys' => propagateFedOp k [] fedOpBind [] ;; propagate_all keys'
  end.

Section routing.
Context (matching : Msg -> M B (list Binding)).
(** [Deliverable::deliverTo] *)
Context (deliverTo : Msg -> Queue -> outcome unit).

Definition route (m : Msg) : Op unit :=
  m' ← preRoute m;
  b ← on_bindings (matching m');
  s ← this;
  let '(out', o) := doRoute deliverTo m' b (out s) in
  set_out out' ;;
  lift_outcome o.

Definition routeIVE : Op unit :=
  s ← this;
  match (if ive s then lastMsg s else None) with
  | Some m => route m
  | None => mret tt
  end.

End routing.
End base.

(** [routeWithAlternate]: this exchange and its alternate.  [Deliverable::delivered] is set by
    each [deliverTo] that returns, here where [route] leaves a new [Delivered] event for such a call *)
Section alternate.
Context {B1 B2 : Type} (matching1 : Msg -> M B1 (list Binding)) (matching2 : Msg -> M B2 (list Binding)).
Context (deliverTo : Msg -> Queue -> outcome unit).

Definition accepted (e : Event) : bool :=
  match e with
  | Delivered m q => match deliverTo m q with Ret _ => true | Throw _ => false end
  | _ => false
  end.

Definition delivered (before after : list Event) : bool := existsb accepted (drop (length before) after).

(** the message after [PreRoute], which the alternate exchange is given *)
Definition annotated {B} (m : Msg) (s : Exch B) : Msg := match (preRoute m s).2 with Ret m' => m' | Throw _ => m end.

Definition routeWithAlternate (m : Msg) : M (Exch B1 * option (Exch B2)) bool := fun '(s, alternate) =>
  match route matching1 deliverTo m s with
  | (s', Throw e) => ((s', alternate), Throw e)
  | (s', Ret _) =>
      let d := delivered (out s) (out s') in
      match alternate with
      | Some a =>
          if d then ((s', Some a), Ret true)
          else match route matching2 deliverTo (annotated m s) a with
               | (a', Throw e) => ((s', Some a'), Throw e)
               | (a', Ret _) => ((s', Some a'), Ret (delivered (out a) (out a')))
               end
      | None => ((s', None), Ret d)
      end
  end.
End alternate.

(** ** The contract *)

(** a trace: a message is routed, or bindings change *)
Inductive Command (C : Type) := CRoute (m : Msg) | CChange (c : C).
Arguments CRoute {C} m.
Arguments CChange {C} c.

(** What an exchange type promises about routing: its bindings stand for an
    abstract state, and a message goes to the queues [selected].  [good] are the
    messages it can route. *)
Class Routing (B C : Type) `{ExchangeType B C} (S : Type) := {
  represents : B -> S -> Prop;
  good : nat -> Prop;
  selected : S -> str -> nat -> list Queue;
  matching_selects : forall m b S, represents b S -> good (msg_id m) ->
    exists b' l, matching m b = (b', Ret l) /\ represents b' S /\ map b_queue l = selected S (routingKey m) (msg_id m);
}.
Arguments good B {C _ S _} n.

Definition last_good {B C S} `{Routing B C S} (s : Exch B) : Prop := forall m, lastMsg s = Some m -> good B (msg_id m).

(** and about its operations: they change the state as [abs_change] says *)
Class Contract (B C : Type) (S : Type) `{Routing B C S} := {
  new_spec : S;
  abs_change : C -> S -> S;
  permitted : C -> S -> Prop;
  represents_new : represents new_bindings new_spec;
  command_represents : forall deliverTo c s S, represents (bindings s) S -> permitted c S -> last_good s ->
    let s' := (command deliverTo c s).1 in
    represents (bindings s') (abs_change c S) /\ last_good s';
}.

Section routing_contract.
Context {B C : Type} `{Routing B C Sp}.
Context (deliverTo : Msg -> Queue -> outcome unit).
Implicit Types (s : Exch B) (S : Sp).

Lemma preRoute_run m s :
  exists s' m', preRoute m s = (s', Ret m') /\ routingKey m' = routingKey m /\ msg_id m' = msg_id m
    /\ bindings s' = bindings s /\ ive s' = ive s /\ sequence s' = sequence s /\ out s' = out s
    /\ (lastMsg s' = lastMsg s \/ lastMsg s' = Some m').
Proof.
  unfold preRoute. eexists _, _. split; [reflexivity|]. simpl. destruct (sequence s), (ive s); auto 10.
Qed.

Lemma exchange_route m s S :
  represents (bindings s) S -> good B (msg_id m) -> last_good s ->
  exists s' m' l, route matching deliverTo m s = (s', (doRoute deliverTo m' l (out s)).2)
    /\ represents (bindings s') S /\ last_good s' /\ ive s' = ive s
    /\ msg_id m' = msg_id m /\ routingKey m' = routingKey m
    /\ map b_queue l = selected S (routingKey m) (msg_id m)
    /\ out s' = out s ++ map (Delivered m') (selected S (routingKey m) (msg_id m)).
Proof.
  intros HR Hg Hl. destruct (preRoute_run m s) as (s1 & m' & E & Ek & Ei & Eb & Ev & _ & Eo & El).
  destruct (matching_selects m' (bindings s) S HR) as (b' & l & Em & HR' & Es); [by rewrite Ei|].
  unfold route. rewrite (bind_Ret _ _ _ _ _ E). unfold on_bindings, mbind, M_bind. rewrite Eb, Em. simpl.
  pose proof (doRoute_out deliverTo m' l (out s)) as Ho.
  destruct (doRoute deliverTo m' l (out s)) as [out' o] eqn:Ed.
  eexists _, m', l. split; [simpl; rewrite Eo, Ed; reflexivity|]. simpl in Ho |- *. rewrite Ek, Ei in Es. split_and!; try done.
  - intros m0 Hm0. destruct El as [El|El]; cbn in Hm0; rewrite El in Hm0; [by apply Hl|]. simplify_eq. by rewrite Ei.
  - by rewrite Ho, <- Es, map_map.
Qed.

Lemma exchange_routeIVE s S :
  represents (bindings s) S -> last_good s ->
  represents (bindings (routeIVE matching deliverTo s).1) S /\ last_good (routeIVE matching deliverTo s).1.
Proof.
  intros HR Hl. unfold routeIVE, mbind, M_bind. simpl.
  destruct (if ive s then lastMsg s else None) as [m|] eqn:E; [|done].
  destruct (exchange_route m s S HR) as (s' & m' & l & -> & ? & ? & _); [|done..].
  apply Hl. by destruct (ive s).
Qed.

End routing_contract.

Section contract.
Context {B C : Type} `{Contract B C Sp}.
Context (deliverTo : Msg -> Queue -> outcome unit).
Implicit Types (s : Exch B) (S : Sp).

Definition run_command (c : Command C) (s : Exch B) : Exch B :=
  match c with
  | CRoute m => (route matching deliverTo m s).1
  | CChange c => (command deliverTo c s).1
  end.
Definition abs_command (c : Command C) (S : Sp) : Sp :=
  match c with CRoute _ => S | CChange c => abs_change c S end.
Definition run_commands (cs : list (Command C)) (s : Exch B) : Exch B := fold_left (fun s c => run_command c s) cs s.
Definition abs_commands (cs : list (Command C)) (S : Sp) : Sp := fold_left (fun S c => abs_command c S) cs S.

(** every operation of the trace is permitted where it is called *)
Fixpoint all_permitted (cs : list (Command C)) (S : Sp) : Prop :=
  match cs with
  | [] => True
  | c :: cs' =>
      match c with CRoute m => good B (msg_id m) | CChange c => permitted c S end
      /\ all_permitted cs' (abs_command c S)
  end.

Lemma commands_represent cs : forall s S,
  represents (bindings s) S -> last_good s -> all_permitted cs S ->
  represents (bindings (run_commands cs s)) (abs_commands cs S) /\ last_good (run_commands cs s).
Proof.
  induction cs as [|c cs IH]; intros s S HR Hl Hp; [done|]. destruct Hp as [Hp Hps].
  assert (represents (bindings (run_command c s)) (abs_command c S) /\ last_good (run_command c s)) as [? ?].
  { destruct c as [m|c]; simpl.
    - destruct (exchange_route deliverTo m s S HR Hp Hl) as (s' & m' & l & -> & ? & ? & _). done.
    - by apply (command_represents deliverTo c s S). }
  by apply IH.
Qed.

(** after any permitted trace on a new exchange, a message goes to exactly the selected
    queues, in their order, and a failing queue does not keep it from the others *)
Lemma route_selects cs m i sq :
  all_permitted cs new_spec -> good B (msg_id m) ->
  let s := run_commands cs (new_Exch new_bindings i sq) in
  exists s' m' l, route matching deliverTo m s = (s', (doRoute deliverTo m' l (out s)).2)
    /\ msg_id m' = msg_id m /\ routingKey m' = routingKey m
    /\ map b_queue l = selected (abs_commands cs new_spec) (routingKey m) (msg_id m)
    /\ out s' = out s ++ map (Delivered m') (selected (abs_commands cs new_spec) (routingKey m) (msg_id m)).
Proof.
  intros Hp Hg s. destruct (commands_represent cs (new_Exch new_bindings i sq) new_spec) as [HR Hl]; [|done..|].
  { apply represents_new. }
  destruct (exchange_route deliverTo m s _ HR Hg Hl) as (s' & m' & l & E & _ & _ & _ & ? & ? & ? & ?). by exists s', m', l.
Qed.
End contract.

(** ** The alternate exchange *)

Lemma doRoute_Ret deliverTo m b o out0 : (doRoute deliverTo m b out0).2 = Ret o -> Forall (fun j => exists u, deliverTo m (b_queue j) = Ret u) b.
Proof.
  unfold doRoute. pose proof (doRoute_loop_error deliverTo m b out0 None) as E.
  destruct (doRoute_loop deliverTo m b out0 None) as [out' e]. simpl in E |- *. subst e.
  destruct (failures deliverTo m b) as [|x l] eqn:Ef.
  - intros _. clear -Ef. induction b as [|j b IH]; [constructor|]. simpl in Ef.
    destruct (deliverTo m (b_queue j)) as [u|e] eqn:E; [|done]. constructor; [eauto|auto].
  - simpl. destruct (fold_store l x) as (e & -> & _). done.
Qed.

Lemma delivered_all deliverTo m b before out0 o :
  (doRoute deliverTo m b out0).2 = Ret o ->
  delivered deliverTo before (before ++ map (Delivered m) (map b_queue b)) = negb (bool_decide (map b_queue b = [])).
Proof.
  intros Hr. apply doRoute_Ret in Hr. unfold delivered. rewrite drop_app_length.
  destruct b as [|j b]; [done|]. apply Forall_cons in Hr as [[u E] _]. simpl. by rewrite E.
Qed.

Section alternates.
Context {B1 C1 S1 B2 C2 S2 : Type} `{Routing B1 C1 S1} `{Routing B2 C2 S2}.
Context (deliverTo : Msg -> Queue -> outcome unit).

Lemma routeWithAlternate_run m (s : Exch B1) (a : Exch B2) (T1 : S1) (T2 : S2) :
  represents (bindings s) T1 -> last_good s -> good B1 (msg_id m) ->
  represents (bindings a) T2 -> last_good a -> good B2 (msg_id m) ->
  let qs := selected T1 (routingKey m) (msg_id m) in
  let alt := if decide (qs = []) then selected T2 (routingKey m) (msg_id m) else [] in
  exists s' a' o m1 m2, routeWithAlternate matching matching deliverTo m (s, Some a) = ((s', Some a'), o)
    /\ msg_id m1 = msg_id m /\ msg_id m2 = msg_id m
    /\ out s' = out s ++ map (Delivered m1) qs /\ out a' = out a ++ map (Delivered m2) alt
    /\ represents (bindings s') T1 /\ represents (bindings a') T2
    /\ (forall b, o = Ret b -> b = negb (bool_decide (qs ++ alt = []))).
Proof.
  intros HR1 Hl1 Hg1 HR2 Hl2 Hg2 qs alt.
  destruct (exchange_route deliverTo m s T1 HR1 Hg1 Hl1) as (s' & m1 & l & E & HR1' & _ & _ & Ei & Ek & Es & Eo).
  fold qs in Es, Eo. unfold routeWithAlternate. rewrite E.
  destruct (preRoute_run m s) as (s1 & ma & Ep & Eak & Eai & _).
  assert (annotated m s = ma) as -> by (unfold annotated; by rewrite Ep).
  destruct (doRoute deliverTo m1 l (out s)).2 as [u|e] eqn:Ed; last first.
  { assert (qs <> []) by (intros Eq; rewrite Eq in Es; apply map_eq_nil in Es; subst l; done).
    exists s', a, (Throw e), m1, m. unfold alt. rewrite decide_False by done. rewrite app_nil_r. by split_and!. }
  pose proof (delivered_all deliverTo m1 l (out s) (out s) u Ed) as Hd. rewrite Es, <- Eo in Hd. rewrite Hd. unfold alt.
  destruct (decide (qs = [])) as [Eq|Eq].
  - rewrite Eq. simpl.
    destruct (exchange_route deliverTo ma a T2 HR2) as (a' & m2 & l2 & E2 & HR2' & _ & _ & Ei2 & Ek2 & Es2 & Eo2); [by rewrite Eai|done|].
    rewrite E2. rewrite Eak, Eai in Es2, Eo2. rewrite Eq in Eo.
    destruct (doRoute deliverTo m2 l2 (out a)).2 as [u2|e2] eqn:Ed2.
    + pose proof (delivered_all deliverTo m2 l2 (out a) (out a) u2 Ed2) as Hd2. rewrite Es2, <- Eo2 in Hd2.
      eexists _, _, _, m1, m2. split; [reflexivity|]. split_and!; try done; [congruence|]. intros b [= <-]. done.
    + eexists _, _, _, m1, m2. split; [reflexivity|]. split_and!; try done. congruence.
  - rewrite bool_decide_eq_false_2 by done. exists s', a, (Ret true), m1, m. rewrite app_nil_r. split_and!; try done.
    intros b [= <-]. by rewrite app_nil_r, bool_decide_eq_false_2.
Qed.
End alternates.

(** ** Steps of [bind] that leave the bindings alone *)

Section calm.
Context {B : Type}.
Implicit Types s : Exch B.

(** nothing but the events changes *)
Definition only_out s s' : Prop :=
  bindings s' = bindings s /\ ive s' = ive s /\ lastMsg s' = lastMsg s /\ sequence s' = sequence s /\ sequenceNo s' = sequenceNo s.

Definition calm {A} (m : M (Exch B) A) : Prop := forall s, exists a, (m s).2 = Ret a /\ only_out s (m s).1.

Lemma calm_ret {A} (a : A) : calm (mret a).
Proof. intros s. by exists a. Qed.

Lemma calm_emit e : calm (emit (B := B) e).
Proof. intros s. by exists tt. Qed.

Lemma calm_bind {A A'} (m : M (Exch B) A) (f : A -> M (Exch B) A') : calm m -> (forall a, calm (f a)) -> calm (m ≫= f).
Proof.
  intros Hm Hf s. unfold mbind, M_bind. destruct (Hm s) as (a & E & Ho). destruct (m s) as [s1 o1]. simpl in *. subst o1.
  destruct (Hf a s1) as (a' & E' & Ho'). exists a'. split; [done|].
  destruct Ho as (?&?&?&?&?), Ho' as (?&?&?&?&?). split_and!; congruence.
Qed.

Lemma calm_if {A} (b : bool) (m m' : M (Exch B) A) : calm m -> calm m' -> calm (if b then m else m').
Proof. by destruct b. Qed.

Lemma calm_propagate k t op o : calm (propagateFedOp (B := B) k t op o).
Proof. apply calm_emit. Qed.

Lemma calm_autodelete : calm (checkAutodelete (B := B)).
Proof. apply calm_emit. Qed.

Lemma calm_all keys : calm (propagate_all (B := B) keys).
Proof. induction keys as [|k keys IH]; [apply calm_ret|]. apply calm_bind; [apply calm_emit|done]. Qed.
End calm.
Create HintDb calm discriminated.
#[export] Hint Resolve calm_ret calm_emit calm_bind calm_if calm_propagate calm_autodelete calm_all : calm.

(** ** What [bind] does after the bindings have changed *)

Section tail.
Context {B C Sp : Type} `{Routing B C Sp}.
Context (deliverTo : Msg -> Queue -> outcome unit).

Definition holds (s : Exch B) (S : Sp) : Prop := represents (bindings s) S /\ last_good s.

Lemma only_out_holds s s' S : only_out s s' -> holds s S -> holds s' S.
Proof. intros (Eb & _ & El & _) [HR Hl]. split; [by rewrite Eb|]. unfold last_good. by rewrite El. Qed.

Lemma calm_holds {A} (m : M (Exch B) A) s S : calm m -> holds s S -> holds (m s).1 S.
Proof. intros Hq. destruct (Hq s) as (a & _ & Ho). by apply only_out_holds. Qed.

Lemma tail_holds (r : option bool) (m : bool -> M (Exch B) bool) s S :
  (forall p s, holds s S -> holds (m p s).1 S) -> holds s S ->
  holds (match r with None => mret false | Some p => routeIVE matching deliverTo ;; m p end s).1 S.
Proof.
  intros Hm [HR Hl]. destruct r as [p|]; [|done]. unfold mbind, M_bind.
  destruct (exchange_routeIVE deliverTo s S HR Hl) as [HR' Hl'].
  destruct (routeIVE matching deliverTo s) as [s' [u|e]]; [|done]. by apply Hm.
Qed.

Lemma calm_tail_holds (r : option bool) (m : bool -> M (Exch B) bool) s S :
  (forall p, calm (m p)) -> holds s S ->
  holds (match r with None => mret false | Some p => routeIVE matching deliverTo ;; m p end s).1 S.
Proof. intros Hm. apply tail_holds. intros p s' Hs'. by apply calm_holds. Qed.

Lemma set_bindings_holds b s S S' : holds s S -> represents b S' -> holds (set_bindings b s).1 S'.
Proof. intros [_ Hl] HR. by split. Qed.

(** the bindings are replaced, then events follow *)
Lemma set_calm_holds {A} b (m : M (Exch B) A) s S S' :
  holds s S -> represents b S' -> calm m ->
  exists s' a, (set_bindings b ;; m) s = (s', Ret a) /\ holds s' S'.
Proof.
  intros Hh HR Hq. unfold mbind, M_bind. simpl. destruct (Hq (set_bindings b s).1) as (a & E & Ho).
  exists (m (set_bindings b s).1).1, a. split; [rewrite <- E; apply surjective_pairing|].
  eapply only_out_holds; [exact Ho|]. by eapply set_bindings_holds.
Qed.

(** a call that returns *)
Lemma bind_holds {A} (m : M (Exch B) A) (f : A -> M (Exch B) bool) s S :
  (exists s' a, m s = (s', Ret a) /\ holds (f a s').1 S) -> holds ((m ≫= f) s).1 S.
Proof. intros (s' & a & E & Hh). unfold mbind, M_bind. by rewrite E. Qed.
End tail.
