(* ===== verification/DirectExchange.v ===== *)
(** * The direct exchange (src/qpid/broker/DirectExchange.h, DirectExchange.cpp)

    An array of bindings and federation counts for each key: [bind] with the
    federation operations and exclusive bindings, [unbind], routing and
    [isBound], as an [ExchangeType]. *)

From stdpp Require Import strings.
From S2P Require Import Prelude TopicKey TopicTree Exchange ExchangeBase.
Local Open Scope Z_scope.

(** ** A bound key *)

(** [DirectExchange::BoundKey]; the members [bindings] and [fedBinding] of a fanout exchange *)
Record BoundKey := mkBoundKey { queues : option (list Binding); fedBinding : FedBinding }.
Definition new_BoundKey : BoundKey := mkBoundKey None new_FedBinding.

Definition MatchQueue (queue : Queue) (b : Binding) : bool := bool_decide (b_queue b = queue).

(** the federation entries of a bind's arguments, and whether there is [qpid.exclusive-binding] *)
Record DirectArgs := mkDirectArgs { fed : BindArgs; exclusiveBinding : bool }.

(** the branch of [bind] that adds a binding: the key, and [propagate] or [None] for [return false] *)
Definition add_binding (b : Binding) (origin : str) (bk : BoundKey) : BoundKey * option bool :=
  let queue := b_queue b in
  let '(qs, added) := CopyOnWriteArray.add_unless id b (MatchQueue queue) (queues bk) in
  let '(f, propagate) := addOrigin (fedBinding bk) (q_name queue) origin in
  (mkBoundKey qs f, if added then Some propagate else None).

(** the arguments as [bind] and [unbind] read them *)
Definition op_of (args : option BindArgs) : str := match args with Some a => fedOp a | None => fedOpBind end.
Definition tags_of (args : option BindArgs) : str := match args with Some a => fedTags a | None => [] end.
Definition origin_of (args : option BindArgs) : str := match args with Some a => fedOrigin a | None => [] end.

(** ** The direct exchange *)

Module Direct.

Definition Bindings := list (str * BoundKey).
Abbreviation Op := (M (Exch Bindings)).
Abbreviation this := Prelude.get.

(** [bindings[key]] *)
Definition key_at (key : str) (bs : Bindings) : BoundKey := default new_BoundKey (map_find key bs).

Definition matching (m : Msg) : M Bindings (list Binding) :=
  gets (fun bs => match map_find (routingKey m) bs with
                  | Some bk => CopyOnWriteArray.snapshot (queues bk)
                  | None => []
                  end).

Definition unbind (queue : Queue) (key : str) (args : option DirectArgs) : Op bool :=
  let origin := origin_of (fed <$> args) in
  s ← this;
  let bk := key_at key (bindings s) in
  let '(qs, removed) := CopyOnWriteArray.remove_if id (MatchQueue queue) (queues bk) in
  if removed then
    let '(f, propagate) := delOrigin (fedBinding bk) (q_name queue) origin in
    let bs := if CopyOnWriteArray.empty qs then map_erase key (bindings s)
              else map_insert key (mkBoundKey qs f) (bindings s) in
    set_bindings bs ;;
    (if propagate : bool then propagateFedOp key [] fedOpUnbind [] else mret tt) ;;
    (if CopyOnWriteArray.empty qs && bool_decide (bs = []) then checkAutodelete else mret tt) ;;
    mret true
  else
    set_bindings (map_insert key bk (bindings s)) ;;
    mret false.

Definition local_keys (bs : Bindings) : list str :=
  map fst (filter (fun p => hasLocal (fedBinding p.2) = true) bs).

Section ops.
Context (deliverTo : Msg -> Queue -> outcome unit).

Definition bind (queue : Queue) (key : str) (args : option DirectArgs) : Op bool :=
  let op := op_of (fed <$> args) in
  let tags := tags_of (fed <$> args) in
  let origin := origin_of (fed <$> args) in
  let exclusive := match args with Some a => exclusiveBinding a | None => false end in
  r ← (if bool_decide (op = []) || bool_decide (op = fedOpBind) then
         s ← this;
         let bk := key_at key (bindings s) in
         let bk := if exclusive : bool then mkBoundKey (CopyOnWriteArray.clear (queues bk)).1 (fedBinding bk) else bk in
         let '(bk', r) := add_binding (mkBinding key queue (fed <$> args) origin) origin bk in
         set_bindings (map_insert key bk' (bindings s)) ;;
         mret r
       else if decide (op = fedOpUnbind) then
         s ← this;
         let bk := key_at key (bindings s) in
         let '(f, propagate) := delOrigin (fedBinding bk) (q_name queue) origin in
         set_bindings (map_insert key (mkBoundKey (queues bk) f) (bindings s)) ;;
         (if countFedBindings f (q_name queue) =? 0 then unbind queue key args ;; mret tt else mret tt) ;;
         mret (Some propagate)
       else if decide (op = fedOpReorigin) then
         s ← this;
         propagate_all (local_keys (bindings s)) ;;
         mret (Some false)
       else mret (Some false));
  match r with
  | None => mret false
  | Some propagate =>
      routeIVE matching deliverTo ;;
      (if propagate : bool then propagateFedOp key tags op origin else mret tt) ;;
      mret true
  end.
End ops.

Definition has_queue (queue : Queue) (bk : BoundKey) : bool :=
  existsb (MatchQueue queue) (CopyOnWriteArray.snapshot (queues bk)).

Definition isBound (bs : Bindings) (queue : option Queue) (key : option str) : bool :=
  match key with
  | Some k =>
      match map_find k bs with
      | None => false
      | Some bk => match queue with None => true | Some q => has_queue q bk end
      end
  | None =>
      match queue with
      | None => bool_decide (bs <> [])
      | Some q => existsb (fun p => has_queue q p.2) bs
      end
  end.

Definition hasBindings (bs : Bindings) : bool := bool_decide (bs <> []).

Inductive Change :=
| Bind (queue : Queue) (key : str) (args : option DirectArgs)
| Unbind (queue : Queue) (key : str) (args : option DirectArgs).

#[global] Instance direct : ExchangeType Bindings Change := {|
  new_bindings := [];
  ExchangeBase.matching := matching;
  command := fun deliverTo c =>
    match c with
    | Bind q k a => bind deliverTo q k a
    | Unbind q k a => unbind q k a
    end |}.
End Direct.
