(* ===== verification/FanOutExchange.v ===== *)
(** * The fanout exchange (src/qpid/broker/FanOutExchange.h, FanOutExchange.cpp)

    One array of bindings and one set of federation counts, whatever the key. *)

From stdpp Require Import strings.
From S2P Require Import Prelude TopicKey TopicTree Exchange ExchangeBase DirectExchange.
Local Open Scope Z_scope.

Module FanOut.

Abbreviation Op := (M (Exch BoundKey)).
Abbreviation this := Prelude.get.

Definition matching (m : Msg) : M BoundKey (list Binding) := gets (fun bk => CopyOnWriteArray.snapshot (queues bk)).

Definition unbind (queue : Queue) (args : option BindArgs) : Op bool :=
  s ← this;
  let '(qs, removed) := CopyOnWriteArray.remove_if id (MatchQueue queue) (queues (bindings s)) in
  if removed then
    let '(f, propagate) := delOrigin (fedBinding (bindings s)) (q_name queue) (origin_of args) in
    set_bindings (mkBoundKey qs f) ;;
    (if propagate : bool then propagateFedOp [] [] fedOpUnbind [] else mret tt) ;;
    (if CopyOnWriteArray.empty qs then checkAutodelete else mret tt) ;;
    mret true
  else mret false.

Section ops.
Context (deliverTo : Msg -> Queue -> outcome unit).

Definition bind (queue : Queue) (args : option BindArgs) : Op bool :=
  let op := op_of args in
  let origin := origin_of args in
  r ← (if bool_decide (op = []) || bool_decide (op = fedOpBind) then
         s ← this;
         let '(bk, r) := add_binding (mkBinding [] queue args origin) origin (bindings s) in
         set_bindings bk ;;
         mret r
       else if decide (op = fedOpUnbind) then
         s ← this;
         let '(f, propagate) := delOrigin (fedBinding (bindings s)) (q_name queue) origin in
         set_bindings (mkBoundKey (queues (bindings s)) f) ;;
         (if countFedBindings f (q_name queue) =? 0 then unbind queue args ;; mret tt else mret tt) ;;
         mret (Some propagate)
       else if decide (op = fedOpReorigin) then
         s ← this;
         (if hasLocal (fedBinding (bindings s)) then propagateFedOp [] [] fedOpBind [] else mret tt) ;;
         mret (Some false)
       else mret (Some false));
  match r with
  | None => mret false
  | Some propagate =>
      routeIVE matching deliverTo ;;
      (if propagate : bool then propagateFedOp [] (tags_of args) op origin else mret tt) ;;
      mret true
  end.
End ops.

(** no binding has the null queue *)
Definition isBound (bk : BoundKey) (queue : option Queue) : bool :=
  match queue with
  | Some q => existsb (MatchQueue q) (CopyOnWriteArray.snapshot (queues bk))
  | None => false
  end.

Definition hasBindings (bk : BoundKey) : bool := negb (CopyOnWriteArray.empty (queues bk)).

(** the key is not looked at *)
Inductive Change :=
| Bind (queue : Queue) (key : str) (args : option BindArgs)
| Unbind (queue : Queue) (key : str) (args : option BindArgs).

#[global] Instance fanout : ExchangeType BoundKey Change := {|
  new_bindings := new_BoundKey;
  ExchangeBase.matching := matching;
  command := fun deliverTo c =>
    match c with
    | Bind q _ a => bind deliverTo q a
    | Unbind q _ a => unbind q a
    end |}.
End FanOut.
