(* ===== verification/DirectCorrect.v ===== *)
(** * Correctness of the direct and the fanout exchange

    [KeySpec] is the abstract state of a key.  [key_rep] relates it to a
    [BoundKey]; [direct_contract] and [fanout_contract] discharge the interface
    of [ExchangeBase]. *)

From stdpp Require Import strings.
From S2P Require Import Prelude TopicKey TopicTree Exchange ExchangeBase DirectExchange FanOutExchange.
Local Open Scope Z_scope.

(** ** The abstract state of a key *)

(** the queues in the order they were bound, and a queue's name with each origin it is bound for *)
Record KeySpec := mkSpec { bound_queues : list Queue; origins : list (str * str) }.
Definition unbound : KeySpec := mkSpec [] [].

Definition add_origin (q : Queue) (o : str) (O : list (str * str)) : list (str * str) :=
  if decide (o = [] \/ (q_name q, o) ∈ O) then O else O ++ [(q_name q, o)].
Definition del_origin (q : Queue) (o : str) (O : list (str * str)) : list (str * str) :=
  if decide (o = []) then O else filter (fun p => p <> (q_name q, o)) O.
Definition federated (q : Queue) (O : list (str * str)) : bool := existsb (fun p => bool_decide (p.1 = q_name q)) O.

Definition spec_bind (q : Queue) (o : str) (K : KeySpec) : KeySpec :=
  mkSpec (if decide (q ∈ bound_queues K) then bound_queues K else bound_queues K ++ [q]) (add_origin q o (origins K)).
Definition spec_unbind (q : Queue) (o : str) (K : KeySpec) : KeySpec :=
  if decide (q ∈ bound_queues K)
  then mkSpec (filter (fun x => x <> q) (bound_queues K)) (del_origin q o (origins K))
  else K.
(** an upstream broker's unbind: the queue stays bound while another origin needs it *)
Definition spec_fedUnbind (unbind : KeySpec -> KeySpec) (q : Queue) (o : str) (K : KeySpec) : KeySpec :=
  let K' := mkSpec (bound_queues K) (del_origin q o (origins K)) in
  if federated q (origins K') then K' else unbind K'.

(** ** Federation origins *)

Definition fed_rep (f : FedBinding) (O : list (str * str)) : Prop :=
  map_ok (fedBindings f) /\ forall name,
    match map_find name (fedBindings f) with
    | Some set => NoDup set /\ set <> [] /\ forall o, o ∈ set <-> (name, o) ∈ O
    | None => forall o, (name, o) ∉ O
    end.

Lemma fed_rep_set f O name :
  fed_rep f O -> NoDup (default [] (map_find name (fedBindings f)))
    /\ forall o, o ∈ default [] (map_find name (fedBindings f)) <-> (name, o) ∈ O.
Proof.
  intros [_ H]. specialize (H name). destruct (map_find name (fedBindings f)) as [set|]; simpl; [tauto|].
  split; [constructor|]. intros o. rewrite elem_of_nil. specialize (H o). tauto.
Qed.

Lemma elem_add_origin q o O x : x ∈ add_origin q o O <-> x ∈ O \/ (o <> [] /\ x = (q_name q, o)).
Proof.
  unfold add_origin. destruct (decide (o = [] \/ (q_name q, o) ∈ O)) as [[->|Hin]|Hn].
  - tauto.
  - split; [auto|]. by intros [|[_ ->]].
  - rewrite elem_of_app, list_elem_of_singleton. split; [|tauto]. intros [|]; [auto|]. right. split; [|done]. tauto.
Qed.

Lemma elem_del_origin q o O x : x ∈ del_origin q o O <-> x ∈ O /\ (o = [] \/ x <> (q_name q, o)).
Proof. unfold del_origin. case_decide; [tauto|]. rewrite list_elem_of_filter. tauto. Qed.

Lemma length_add_origin q o O : (length (add_origin q o O) <= S (length O))%nat.
Proof. unfold add_origin. case_decide; [lia|]. rewrite length_app. simpl. lia. Qed.

Lemma length_del_origin q o O : (length (del_origin q o O) <= length O)%nat.
Proof. unfold del_origin. case_decide; [lia|]. apply length_filter. Qed.

Lemma set_insert_spec x l : NoDup l -> NoDup (set_insert x l) /\ set_insert x l <> [] /\ forall y, y ∈ set_insert x l <-> y = x \/ y ∈ l.
Proof.
  intros Hnd. unfold set_insert. case_decide as Hd.
  - split_and!; [done| |].
    + intros ->. by apply elem_of_nil in Hd.
    + intros y. split; [auto|]. by intros [->|].
  - split_and!.
    + apply NoDup_app. split_and!; [done| |apply NoDup_singleton]. intros y Hy ->%list_elem_of_singleton. done.
    + by destruct l.
    + intros y. rewrite elem_of_app, list_elem_of_singleton. tauto.
Qed.

Lemma addOrigin_rep f O q o : fed_rep f O -> fed_rep (addOrigin f (q_name q) o).1 (add_origin q o O).
Proof.
  intros HR. destruct (fed_rep_set f O (q_name q) HR) as [Hnd Hset].
  unfold addOrigin. destruct o as [|c o]; [done|]. set (oo := c :: o). destruct HR as [Hok H].
  destruct (set_insert_spec oo _ Hnd) as (Hnd' & Hne' & Hin').
  split; [by apply map_ok_insert|]. intros name. cbn [fst fedBindings].
  destruct (decide (q_name q = name)) as [<-|Hne].
  - rewrite map_find_insert. split_and!; [done..|]. intros x. rewrite Hin', Hset, elem_add_origin.
    split; [intros [->|]; auto|]. intros [|[_ [= ->]]]; auto.
  - rewrite map_find_insert_ne by done. specialize (H name). destruct (map_find name (fedBindings f)) as [set'|].
    + destruct H as (? & ? & H). split_and!; [done..|]. intros x. rewrite elem_add_origin, H. split; [auto|].
      intros [|[_ ?]]; congruence.
    + intros x [Hx|[_ ?]]%elem_add_origin; [by eapply H|congruence].
Qed.

Lemma delOrigin_rep f O q o : fed_rep f O -> fed_rep (delOrigin f (q_name q) o).1 (del_origin q o O).
Proof.
  intros HR. destruct (fed_rep_set f O (q_name q) HR) as [Hnd Hset].
  unfold delOrigin. destruct o as [|c o]; [done|]. set (oo := c :: o). destruct HR as [Hok H].
  set (set' := set_erase oo (default [] (map_find (q_name q) (fedBindings f)))).
  assert (Hnd' : NoDup set') by (by apply NoDup_filter).
  assert (Hel : forall x, x ∈ set' <-> (q_name q, x) ∈ del_origin q oo O).
  { intros x. unfold set', set_erase. rewrite list_elem_of_filter, Hset, elem_del_origin.
    split; [intros [? ?]; split; [done|]; right; congruence|]. intros [? [|Hx]]; [done|]. split; congruence. }
  assert (Hother : forall name, q_name q <> name -> forall x, (name, x) ∈ del_origin q oo O <-> (name, x) ∈ O).
  { intros name Hne x. rewrite elem_del_origin. split; [tauto|]. split; [done|]. right. congruence. }
  clearbody set'. unfold fed_rep. cbn [fst fedBindings]. destruct set' as [|y l].
  - split; [by apply map_ok_erase|]. intros name. destruct (decide (q_name q = name)) as [<-|Hne].
    + rewrite map_find_erase by (by apply map_ok_NoDup). intros x. rewrite <- Hel. apply not_elem_of_nil.
    + rewrite map_find_erase_ne by done. specialize (H name). specialize (Hother name Hne).
      destruct (map_find name (fedBindings f)) as [set|]; [|intros x; rewrite Hother; done].
      destruct H as (? & ? & H). split_and!; [done..|]. intros x. by rewrite Hother, H.
  - split; [by apply map_ok_insert|]. intros name. destruct (decide (q_name q = name)) as [<-|Hne].
    + by rewrite map_find_insert.
    + rewrite map_find_insert_ne by done. specialize (H name). specialize (Hother name Hne).
      destruct (map_find name (fedBindings f)) as [set|]; [|intros x; rewrite Hother; done].
      destruct H as (? & ? & H). split_and!; [done..|]. intros x. by rewrite Hother, H.
Qed.

(** the count is a [uint32_t] *)
Lemma countFedBindings_rep f O q :
  fed_rep f O -> Z.of_nat (length O) < 2 ^ 32 -> (countFedBindings f (q_name q) =? 0) = negb (federated q O).
Proof.
  intros [_ H] Hlen. specialize (H (q_name q)). unfold countFedBindings, federated.
  destruct (map_find (q_name q) (fedBindings f)) as [set|].
  - destruct H as (Hnd & Hne & H).
    assert (length set <= length O)%nat.
    { rewrite <- (length_fmap (pair (q_name q))). apply submseteq_length, NoDup_submseteq.
      - apply NoDup_fmap_2; [congruence|done].
      - intros x Hx. apply list_elem_of_fmap in Hx as (o & -> & Ho). by apply H. }
    rewrite uwrap_small by (unfold is_uint; lia). destruct set as [|o set]; [done|]. simpl length.
    rewrite (proj2 (Z.eqb_neq _ _)) by lia. symmetry. apply negb_false_iff, existsb_exists.
    exists (q_name q, o). split; [|by apply bool_decide_eq_true_2]. apply list_elem_of_In, H. by left.
  - simpl. symmetry. apply negb_true_iff. apply not_true_iff_false. intros (p & Hp & E)%existsb_exists.
    apply bool_decide_eq_true_1 in E. destruct p as [n o]. simpl in E. subst. by eapply H, list_elem_of_In.
Qed.

(** ** Keys *)

Definition key_rep (bk : BoundKey) (K : KeySpec) : Prop :=
  map b_queue (CopyOnWriteArray.snapshot (queues bk)) = bound_queues K /\ NoDup (bound_queues K)
  /\ fed_rep (fedBinding bk) (origins K).

Lemma new_key_rep : key_rep new_BoundKey unbound.
Proof.
  split_and!; [done|constructor|]. split; [constructor|]. intros name. simpl. intros o. apply not_elem_of_nil.
Qed.

Lemma existsb_MatchQueue q l : existsb (MatchQueue q) l = bool_decide (q ∈ map b_queue l).
Proof.
  unfold MatchQueue. induction l as [|b l IH]; simpl; [done|]. rewrite IH.
  destruct (decide (b_queue b = q)) as [<-|Hne].
  - rewrite bool_decide_eq_true_2 by done. symmetry. apply bool_decide_eq_true_2. by left.
  - rewrite bool_decide_eq_false_2 by done. apply bool_decide_ext. rewrite elem_of_cons. split; [auto|].
    intros [|]; [congruence|done].
Qed.

Lemma filter_MatchQueue q l :
  map b_queue (filter (fun b => MatchQueue q b = false) l) = filter (fun x => x <> q) (map b_queue l).
Proof.
  unfold MatchQueue. induction l as [|b l IH]; [done|]. simpl. destruct (decide (b_queue b = q)) as [E|E].
  - rewrite !filter_cons_False; [done|by intros H|]. by rewrite bool_decide_eq_true_2.
  - rewrite !filter_cons_True; [simpl; by rewrite IH|done|]. by apply bool_decide_eq_false_2.
Qed.

Lemma key_clear_rep bk K : key_rep bk K ->
  key_rep (mkBoundKey (CopyOnWriteArray.clear (queues bk)).1 (fedBinding bk)) (mkSpec [] (origins K)).
Proof.
  intros (? & ? & ?). split_and!; simpl; [by rewrite CopyOnWriteArray.clear_snapshot|constructor|done].
Qed.

(** a binding is added unless the queue has one *)
Lemma add_binding_rep b o bk K :
  key_rep bk K ->
  key_rep (add_binding b o bk).1 (spec_bind (b_queue b) o K)
  /\ (add_binding b o bk).2 =
       if decide (b_queue b ∈ bound_queues K) then None else Some (addOrigin (fedBinding bk) (q_name (b_queue b)) o).2.
Proof.
  intros (Hq & Hnd & Hf). unfold add_binding. rewrite CopyOnWriteArray.add_unless_id, existsb_MatchQueue, Hq.
  pose proof (addOrigin_rep _ _ (b_queue b) o Hf) as Hf'. unfold spec_bind, key_rep.
  destruct (addOrigin _ _ _) as [f p]. simpl in Hf'.
  destruct (decide (b_queue b ∈ bound_queues K)) as [Hin|Hin]; simpl.
  - rewrite bool_decide_eq_true_2 by done. by simpl.
  - rewrite bool_decide_eq_false_2 by done. simpl. rewrite map_app, Hq. split_and!; try done.
    apply NoDup_app. split_and!; [done| |apply NoDup_singleton]. intros x Hx ->%list_elem_of_singleton. done.
Qed.

Lemma del_rep bk K q o : key_rep bk K ->
  key_rep (mkBoundKey (queues bk) (delOrigin (fedBinding bk) (q_name q) o).1) (mkSpec (bound_queues K) (del_origin q o (origins K))).
Proof. intros (? & ? & ?). split_and!; [done..|]. by apply delOrigin_rep. Qed.

Lemma remove_rep bk K q o :
  key_rep bk K -> q ∈ bound_queues K ->
  exists qs, CopyOnWriteArray.remove_if id (MatchQueue q) (queues bk) = (qs, true)
    /\ key_rep (mkBoundKey qs (delOrigin (fedBinding bk) (q_name q) o).1) (spec_unbind q o K)
    /\ CopyOnWriteArray.empty qs = bool_decide (bound_queues (spec_unbind q o K) = []).
Proof.
  intros (Hq & Hnd & Hf) Hin. rewrite CopyOnWriteArray.remove_if_id, existsb_MatchQueue, Hq.
  rewrite bool_decide_eq_true_2 by done. eexists. split; [reflexivity|]. unfold spec_unbind, key_rep.
  rewrite decide_True by done. simpl. rewrite filter_MatchQueue, Hq. split_and!.
  - done.
  - by apply NoDup_filter.
  - by apply delOrigin_rep.
  - rewrite <- Hq, <- filter_MatchQueue. by destruct (filter _ (CopyOnWriteArray.snapshot _)).
Qed.

Lemma remove_absent bk K q :
  key_rep bk K -> q ∉ bound_queues K -> CopyOnWriteArray.remove_if id (MatchQueue q) (queues bk) = (queues bk, false).
Proof.
  intros (Hq & _) Hn. by rewrite CopyOnWriteArray.remove_if_id, existsb_MatchQueue, Hq, bool_decide_eq_false_2.
Qed.

(** ** The direct exchange *)

Definition upd (k : str) (f : KeySpec -> KeySpec) (S : str -> KeySpec) : str -> KeySpec :=
  fun k' => if decide (k' = k) then f (S k') else S k'.

(** with the last queue of a key, what is known of the key goes *)
Definition forget (K : KeySpec) : KeySpec := match bound_queues K with [] => unbound | _ => K end.
Definition direct_unbind (q : Queue) (o : str) (K : KeySpec) : KeySpec :=
  if decide (q ∈ bound_queues K) then forget (spec_unbind q o K) else K.

Definition direct_bind (q : Queue) (args : option DirectArgs) (K : KeySpec) : KeySpec :=
  let op := op_of (fed <$> args) in
  let o := origin_of (fed <$> args) in
  if bool_decide (op = []) || bool_decide (op = fedOpBind) then
    spec_bind q o (if match args with Some a => exclusiveBinding a | None => false end : bool
                   then mkSpec [] (origins K) else K)
  else if decide (op = fedOpUnbind) then spec_fedUnbind (direct_unbind q o) q o K
  else K.

Definition direct_change (c : Direct.Change) (S : str -> KeySpec) : str -> KeySpec :=
  match c with
  | Direct.Bind q k args => upd k (direct_bind q args) S
  | Direct.Unbind q k args => upd k (direct_unbind q (origin_of (fed <$> args))) S
  end.

Definition change_key (c : Direct.Change) : str := match c with Direct.Bind _ k _ | Direct.Unbind _ k _ => k end.

Definition direct_represents (bs : Direct.Bindings) (S : str -> KeySpec) : Prop :=
  map_ok bs /\ forall k, key_rep (Direct.key_at k bs) (S k).

Lemma key_at_insert k bk bs k' : Direct.key_at k' (map_insert k bk bs) = if decide (k' = k) then bk else Direct.key_at k' bs.
Proof.
  unfold Direct.key_at. case_decide as E; [subst; by rewrite map_find_insert|]. by rewrite map_find_insert_ne.
Qed.

Lemma key_at_erase k bs k' : map_ok bs ->
  Direct.key_at k' (map_erase k bs) = if decide (k' = k) then new_BoundKey else Direct.key_at k' bs.
Proof.
  intros Hok. unfold Direct.key_at. case_decide as E; [subst; by rewrite map_find_erase by (by apply map_ok_NoDup)|].
  by rewrite map_find_erase_ne.
Qed.

Lemma insert_represents k bk bs S f :
  direct_represents bs S -> key_rep bk (f (S k)) -> direct_represents (map_insert k bk bs) (upd k f S).
Proof.
  intros [Hok H] Hk. split; [by apply map_ok_insert|]. intros k'. rewrite key_at_insert. unfold upd.
  case_decide; [by subst|done].
Qed.

Lemma represents_ext bs S S' : direct_represents bs S -> (forall k, S k = S' k) -> direct_represents bs S'.
Proof. intros [Hok H] E. split; [done|]. intros k'. by rewrite <- E. Qed.

#[global] Instance direct_routing : Routing Direct.Bindings Direct.Change (str -> KeySpec).
Proof.
  refine {| represents := direct_represents; good := fun _ => True;
            selected := fun S k _ => bound_queues (S k) |}.
  intros m bs S HR _. eexists bs, _. split; [reflexivity|]. split; [done|]. destruct HR as [_ H].
  destruct (H (routingKey m)) as (<- & _). unfold Direct.key_at. by destruct (map_find (routingKey m) bs).
Defined.

Lemma direct_unbind_holds q k args s S :
  holds s S ->
  exists s' b, Direct.unbind q k args s = (s', Ret b) /\ holds s' (upd k (direct_unbind q (origin_of (fed <$> args))) S).
Proof.
  intros Hh. pose proof Hh as [HR _]. pose proof (proj2 HR k) as Hk. unfold Direct.unbind. set (o := origin_of (fed <$> args)).
  rewrite (bind_Ret _ _ s s s eq_refl).
  destruct (decide (q ∈ bound_queues (S k))) as [Hin|Hin].
  - destruct (remove_rep _ _ q o Hk Hin) as (qs & -> & Hk' & He). destruct (delOrigin _ _ _) as [f p]. simpl in Hk'.
    cbv zeta. eapply set_calm_holds; [exact Hh| |auto 10 with calm].
    simpl. rewrite He. case_bool_decide as E.
    + split; [apply map_ok_erase, HR|]. intros k'. rewrite key_at_erase by apply HR. unfold upd, direct_unbind.
      case_decide as Ek; [|apply HR]. subst k'. rewrite decide_True by done. unfold forget. rewrite E. apply new_key_rep.
    + apply insert_represents; [done|]. unfold direct_unbind. rewrite decide_True by done. unfold forget.
      by destruct (bound_queues (spec_unbind q o (S k))).
  - rewrite (remove_absent _ _ _ Hk Hin). eapply set_calm_holds; [exact Hh| |auto with calm].
    apply insert_represents; [done|]. unfold direct_unbind. by rewrite decide_False.
Qed.

(** the branch for an upstream broker's unbind *)
Lemma direct_fedUnbind_holds q k args s S f p :
  holds s S -> Z.of_nat (length (origins (S k))) < 2 ^ 32 ->
  let o := origin_of (fed <$> args) in
  let bk := Direct.key_at k (bindings s) in
  delOrigin (fedBinding bk) (q_name q) o = (f, p) ->
  exists s', (set_bindings (map_insert k (mkBoundKey (queues bk) f) (bindings s)) ;;
              (if countFedBindings f (q_name q) =? 0 then Direct.unbind q k args ;; mret tt else mret tt) ;;
              mret (Some p)) s = (s', Ret (Some p))
    /\ holds s' (upd k (spec_fedUnbind (direct_unbind q o) q o) S).
Proof.
  intros Hh Hlen o bk E. pose proof Hh as [HR _]. pose proof (del_rep _ _ q o (proj2 HR k)) as Hk. fold bk in Hk. rewrite E in Hk.
  set (K := mkSpec (bound_queues (S k)) (del_origin q o (origins (S k)))) in *.
  assert (Hh' : holds (set_bindings (map_insert k (mkBoundKey (queues bk) f) (bindings s)) s).1 (upd k (fun _ => K) S)).
  { eapply set_bindings_holds; [exact Hh|]. by apply insert_represents. }
  pose proof (length_del_origin q o (origins (S k))).
  unfold mbind, M_bind. simpl. rewrite (countFedBindings_rep f (origins K) q) by first [apply Hk|simpl; lia].
  destruct (federated q (origins K)) eqn:Ef; simpl.
  - eexists. split; [reflexivity|]. destruct Hh' as [Hr Hl]. split; [|done]. eapply represents_ext; [exact Hr|].
    intros k'. unfold upd, spec_fedUnbind. case_decide as Ek; [|done]. subst k'. fold K. by rewrite Ef.
  - destruct (direct_unbind_holds q k args _ _ Hh') as (s' & b & Eu & [Hr Hl]). simpl in Eu. rewrite Eu.
    eexists. split; [reflexivity|]. split; [|done]. eapply represents_ext; [exact Hr|].
    intros k'. unfold upd, spec_fedUnbind. case_decide as Ek; [|done]. subst k'. fold K. by rewrite Ef.
Qed.

Lemma direct_bind_holds deliverTo q k args s S :
  holds s S -> Z.of_nat (length (origins (S k))) < 2 ^ 32 ->
  holds (Direct.bind deliverTo q k args s).1 (upd k (direct_bind q args) S).
Proof.
  intros Hh Hlen. pose proof Hh as [HR _]. unfold Direct.bind. set (op := op_of (fed <$> args)). set (o := origin_of (fed <$> args)).
  assert (Hsame : forall f, (forall K, f K = K) -> holds s (upd k f S)).
  { intros f Hf. split; [|apply Hh]. eapply represents_ext; [exact HR|]. intros k'. unfold upd. case_decide; [by rewrite Hf|done]. }
  set (announce := fun p : bool => (if p then propagateFedOp (B := Direct.Bindings) k (tags_of (fed <$> args)) op o else mret tt) ;; mret true).
  assert (Ha : forall p, calm (announce p)) by (unfold announce; auto 10 with calm).
  apply bind_holds.
  set (excl := match args with Some a => exclusiveBinding a | None => false end).
  unfold direct_bind. fold op o excl. destruct (bool_decide (op = []) || bool_decide (op = fedOpBind)).
  { set (bk := if excl then mkBoundKey (CopyOnWriteArray.clear (queues (Direct.key_at k (bindings s)))).1 (fedBinding (Direct.key_at k (bindings s)))
               else Direct.key_at k (bindings s)).
    assert (Hk : key_rep bk (if excl then mkSpec [] (origins (S k)) else S k)).
    { unfold bk. destruct excl; [apply key_clear_rep|]; apply HR. }
    rewrite (bind_Ret _ _ s s s eq_refl). fold bk.
    destruct (add_binding_rep (mkBinding k q (fed <$> args) o) o bk _ Hk) as [Hk' _].
    destruct (add_binding _ _ _) as [bk' r] eqn:E. simpl in Hk'. eexists _, r. split; [reflexivity|].
    apply (calm_tail_holds (H := Direct.direct) deliverTo _ announce); [done|]. eapply set_bindings_holds; [exact Hh|]. by apply insert_represents. }
  destruct (decide (op = fedOpUnbind)) as [E|_].
  { rewrite (bind_Ret _ _ s s s eq_refl). destruct (delOrigin _ _ _) as [f p] eqn:Ed.
    destruct (direct_fedUnbind_holds q k args s S f p Hh Hlen Ed) as (s' & Es & Hs').
    exists s', (Some p). split; [exact Es|]. apply (calm_tail_holds (H := Direct.direct) deliverTo (Some p) announce); [done|done]. }
  destruct (decide (op = fedOpReorigin)) as [E|_].
  - rewrite (bind_Ret _ _ s s s eq_refl). destruct (calm_all (Direct.local_keys (bindings s)) s) as (a & Ea & Ho).
    exists (propagate_all (Direct.local_keys (bindings s)) s).1, (Some false).
    split; [unfold mbind, M_bind; by rewrite (surjective_pairing (propagate_all _ s)), Ea|].
    apply (calm_tail_holds (H := Direct.direct) deliverTo (Some false) announce); [done|]. eapply only_out_holds; [exact Ho|]. by apply Hsame.
  - exists s, (Some false). split; [done|]. apply (calm_tail_holds (H := Direct.direct) deliverTo (Some false) announce); [done|]. by apply Hsame.
Qed.

Lemma direct_new : direct_represents [] (fun _ => unbound).
Proof. split; [constructor|]. intros k. apply new_key_rep. Qed.

#[global] Instance direct_contract : Contract Direct.Bindings Direct.Change (str -> KeySpec).
Proof.
  refine {| new_spec := fun _ => unbound; abs_change := direct_change;
            permitted := fun c S => Z.of_nat (length (origins (S (change_key c)))) < 2 ^ 32 |}.
  - apply direct_new.
  - intros deliverTo c s S HR Hp Hl. destruct c as [q k args|q k args]; simpl.
    + apply (direct_bind_holds deliverTo q k args s S); done.
    + destruct (direct_unbind_holds q k args s S) as (s' & b & -> & Hh); done.
Defined.

(** ** The fanout exchange *)

Definition fanout_bind (q : Queue) (args : option BindArgs) (K : KeySpec) : KeySpec :=
  let op := op_of args in
  let o := origin_of args in
  if bool_decide (op = []) || bool_decide (op = fedOpBind) then spec_bind q o K
  else if decide (op = fedOpUnbind) then spec_fedUnbind (spec_unbind q o) q o K
  else K.

Definition fanout_change (c : FanOut.Change) (K : KeySpec) : KeySpec :=
  match c with
  | FanOut.Bind q _ args => fanout_bind q args K
  | FanOut.Unbind q _ args => spec_unbind q (origin_of args) K
  end.

#[global] Instance fanout_routing : Routing BoundKey FanOut.Change KeySpec.
Proof.
  refine {| represents := key_rep; good := fun _ => True; selected := fun K _ _ => bound_queues K |}.
  intros m bk K HR _. eexists bk, _. split; [reflexivity|]. split; [done|]. apply HR.
Defined.

Lemma fanout_unbind_holds q args (s : Exch BoundKey) K :
  holds s K -> exists s' b, FanOut.unbind q args s = (s', Ret b) /\ holds s' (spec_unbind q (origin_of args) K).
Proof.
  intros Hh. pose proof Hh as [HR _]. unfold FanOut.unbind. rewrite (bind_Ret _ _ s s s eq_refl).
  destruct (decide (q ∈ bound_queues K)) as [Hin|Hin].
  - destruct (remove_rep _ _ q (origin_of args) HR Hin) as (qs & -> & Hk' & _). destruct (delOrigin _ _ _) as [f p].
    cbv zeta. eapply set_calm_holds; [exact Hh|exact Hk'|auto 10 with calm].
  - rewrite (remove_absent _ _ _ HR Hin). exists s, false. split; [done|]. unfold spec_unbind. by rewrite decide_False.
Qed.

Lemma fanout_bind_holds deliverTo q args (s : Exch BoundKey) K :
  holds s K -> Z.of_nat (length (origins K)) < 2 ^ 32 -> holds (FanOut.bind deliverTo q args s).1 (fanout_bind q args K).
Proof.
  intros Hh Hlen. pose proof Hh as [HR _]. unfold FanOut.bind, fanout_bind. set (op := op_of args). set (o := origin_of args).
  set (announce := fun p : bool => (if p then propagateFedOp (B := BoundKey) [] (tags_of args) op o else mret tt) ;; mret true).
  assert (Ha : forall p, calm (announce p)) by (unfold announce; auto 10 with calm).
  apply bind_holds. destruct (bool_decide (op = []) || bool_decide (op = fedOpBind)).
  { rewrite (bind_Ret _ _ s s s eq_refl).
    destruct (add_binding_rep (mkBinding [] q args o) o (bindings s) K HR) as [Hk' _].
    destruct (add_binding _ _ _) as [bk' r]. eexists _, r. split; [reflexivity|].
    apply (calm_tail_holds (H := FanOut.fanout) deliverTo _ announce); [done|]. by eapply set_bindings_holds. }
  destruct (decide (op = fedOpUnbind)) as [E|_].
  { rewrite (bind_Ret _ _ s s s eq_refl). pose proof (del_rep _ _ q o HR) as Hk. destruct (delOrigin _ _ _) as [f p].
    assert (Hh' : holds (set_bindings (mkBoundKey (queues (bindings s)) f) s).1 (mkSpec (bound_queues K) (del_origin q o (origins K)))).
    { by eapply set_bindings_holds. }
    pose proof (length_del_origin q o (origins K)).
    unfold spec_fedUnbind. unfold mbind, M_bind. simpl in Hk |- *.
    rewrite (countFedBindings_rep f (del_origin q o (origins K)) q) by first [apply Hk|lia].
    destruct (federated q (del_origin q o (origins K))); simpl.
    - eexists _, (Some p). split; [reflexivity|]. apply (calm_tail_holds (H := FanOut.fanout) deliverTo (Some p) announce); [done|done].
    - destruct (fanout_unbind_holds q args _ _ Hh') as (s' & b & Eu & Hh2). simpl in Eu. rewrite Eu.
      eexists _, (Some p). split; [reflexivity|]. apply (calm_tail_holds (H := FanOut.fanout) deliverTo (Some p) announce); [done|done]. }
  destruct (decide (op = fedOpReorigin)) as [E|_].
  - rewrite (bind_Ret _ _ s s s eq_refl). destruct (hasLocal (fedBinding (bindings s))).
    all: eexists _, (Some false); split; [reflexivity|].
    all: apply (calm_tail_holds (H := FanOut.fanout) deliverTo (Some false) announce); [done|done].
  - exists s, (Some false). split; [done|]. apply (calm_tail_holds (H := FanOut.fanout) deliverTo (Some false) announce); [done|done].
Qed.

#[global] Instance fanout_contract : Contract BoundKey FanOut.Change KeySpec.
Proof.
  refine {| new_spec := unbound; abs_change := fanout_change;
            permitted := fun _ K => Z.of_nat (length (origins K)) < 2 ^ 32 |}.
  - apply new_key_rep.
  - intros deliverTo c s S HR Hp Hl. destruct c as [q k args|q k args]; simpl.
    + apply (fanout_bind_holds deliverTo q args s S); done.
    + destruct (fanout_unbind_holds q args s S) as (s' & b & -> & Hh); done.
Defined.
