(* ===== verification/DirectSystem.v ===== *)
(** * The direct and the fanout exchange as their users see them

    Any sequence of binds, unbinds and routed messages on a new exchange,
    federation and exclusive bindings included; an exchange with an alternate;
    and where the bookkeeping of keys and federation goes wrong. *)

From Stdlib Require Import Ascii String.
From stdpp Require Import strings.
From S2P Require Import Prelude TopicKey TopicTree Exchange ExchangeBase DirectExchange FanOutExchange DirectCorrect.
Local Open Scope Z_scope.

(** ** The bound on origins *)

Lemma spec_bind_origins q o K : (length (origins (spec_bind q o K)) <= S (length (origins K)))%nat.
Proof. apply length_add_origin. Qed.

Lemma spec_unbind_origins q o K : (length (origins (spec_unbind q o K)) <= length (origins K))%nat.
Proof. unfold spec_unbind. case_decide; [apply length_del_origin|done]. Qed.

Lemma direct_unbind_origins q o K : (length (origins (direct_unbind q o K)) <= length (origins K))%nat.
Proof.
  unfold direct_unbind, forget. case_decide; [|done].
  destruct (bound_queues (spec_unbind q o K)); simpl; [lia|apply spec_unbind_origins].
Qed.

Lemma fedUnbind_origins unbind q o K :
  (forall K, length (origins (unbind K)) <= length (origins K))%nat ->
  (length (origins (spec_fedUnbind unbind q o K)) <= length (origins K))%nat.
Proof.
  intros Hu. unfold spec_fedUnbind. pose proof (length_del_origin q o (origins K)).
  destruct (federated _ _); simpl; [done|]. etransitivity; [apply Hu|done].
Qed.

Lemma direct_bind_origins q args K : (length (origins (direct_bind q args K)) <= S (length (origins K)))%nat.
Proof.
  unfold direct_bind. destruct (_ || _).
  - etransitivity; [apply spec_bind_origins|]. by destruct (match args with Some a => exclusiveBinding a | None => false end).
  - case_decide; [|lia]. etransitivity; [apply fedUnbind_origins, direct_unbind_origins|lia].
Qed.

Lemma fanout_bind_origins q args K : (length (origins (fanout_bind q args K)) <= S (length (origins K)))%nat.
Proof.
  unfold fanout_bind. destruct (_ || _); [apply spec_bind_origins|].
  case_decide; [|lia]. etransitivity; [apply fedUnbind_origins, spec_unbind_origins|lia].
Qed.

Lemma direct_change_origins c S n :
  (forall k, length (origins (S k)) <= n)%nat -> forall k, (length (origins (direct_change c S k)) <= Datatypes.S n)%nat.
Proof.
  intros H k. destruct c as [q k' args|q k' args]; simpl; unfold upd; case_decide; try (specialize (H k); lia).
  - etransitivity; [apply direct_bind_origins|]. specialize (H k). lia.
  - etransitivity; [apply direct_unbind_origins|]. specialize (H k). lia.
Qed.

Lemma fanout_change_origins c K : (length (origins (fanout_change c K)) <= S (length (origins K)))%nat.
Proof.
  destruct c as [q k args|q k args]; simpl; [apply fanout_bind_origins|].
  pose proof (spec_unbind_origins q (origin_of args) K). lia.
Qed.

Lemma direct_permitted cs : forall S n, (forall k, length (origins (S k)) <= n)%nat ->
  Z.of_nat (n + length cs) < 2 ^ 32 -> all_permitted (B := Direct.Bindings) cs S.
Proof.
  induction cs as [|c cs IH]; intros S n Hn Hl; [done|]. simpl in Hl. destruct c as [m|c].
  - split; [done|]. apply (IH _ n); [done|lia].
  - split; [simpl; specialize (Hn (change_key c)); lia|]. apply (IH _ (Datatypes.S n)); [|lia].
    by apply direct_change_origins.
Qed.

Lemma fanout_permitted cs : forall K, Z.of_nat (length (origins K) + length cs) < 2 ^ 32 -> all_permitted (B := BoundKey) cs K.
Proof.
  induction cs as [|c cs IH]; intros K Hl; [done|]. simpl in Hl. destruct c as [m|c].
  - split; [done|]. apply IH. simpl. lia.
  - split; [simpl; lia|]. apply IH. pose proof (fanout_change_origins c K). simpl. lia.
Qed.

(** ** Queries *)

Lemma has_queue_rep q bk K : key_rep bk K -> Direct.has_queue q bk = bool_decide (q ∈ bound_queues K).
Proof. intros (Hq & _). unfold Direct.has_queue. by rewrite existsb_MatchQueue, Hq. Qed.

Lemma isBound_key bs S q k :
  direct_represents bs S -> Direct.isBound bs (Some q) (Some k) = bool_decide (q ∈ bound_queues (S k)).
Proof.
  intros [_ H]. specialize (H k). simpl. unfold Direct.key_at in H.
  destruct (map_find k bs) as [bk|]; simpl in H; [by apply has_queue_rep|].
  rewrite <- (has_queue_rep q _ _ H). done.
Qed.

Lemma isBound_queue bs S q :
  direct_represents bs S -> Direct.isBound bs (Some q) None = true <-> exists k, q ∈ bound_queues (S k).
Proof.
  intros [Hok H]. simpl. rewrite existsb_exists. split.
  - intros ([k bk] & Hin & Hq). apply list_elem_of_In, (map_elem_find k bk bs Hok) in Hin.
    specialize (H k). unfold Direct.key_at in H. rewrite Hin in H. exists k. simpl in *.
    rewrite (has_queue_rep q _ _ H) in Hq. by apply bool_decide_eq_true_1 in Hq.
  - intros (k & Hq). specialize (H k). unfold Direct.key_at in H. destruct (map_find k bs) as [bk|] eqn:E; simpl in H.
    + exists (k, bk). split; [by apply list_elem_of_In, map_find_elem|]. simpl. rewrite (has_queue_rep q _ _ H).
      by apply bool_decide_eq_true_2.
    + destruct H as (Hn & _). rewrite <- Hn in Hq. by apply elem_of_nil in Hq.
Qed.

(** ** The exchanges *)

(** C8: the direct exchange.  After any sequence of binds, unbinds and routed
    messages on a new exchange, with exclusive bindings and the federation
    operations among them (fewer than 2^32), a message is offered to exactly
    the queues that are bound with its routing key, once each and in the order
    they were bound, whatever each delivery does; the call raises what the
    deliveries raised.  [isBound] tells for a queue and a key, or for a queue,
    whether it is bound. *)
Theorem direct_exchange_correct deliverTo cs m i sq :
  Z.of_nat (length cs) < 2 ^ 32 ->
  let s := run_commands deliverTo cs (new_Exch (new_bindings (B := Direct.Bindings)) i sq) in
  let S := abs_commands (B := Direct.Bindings) cs (fun _ => unbound) in
  let qs := bound_queues (S (routingKey m)) in
  (exists s' m' l, route Direct.matching deliverTo m s = (s', (doRoute deliverTo m' l (out s)).2)
     /\ msg_id m' = msg_id m /\ map b_queue l = qs
     /\ out s' = out s ++ map (Delivered m') qs)
  /\ NoDup qs
  /\ (forall q k, Direct.isBound (bindings s) (Some q) (Some k) = bool_decide (q ∈ bound_queues (S k)))
  /\ (forall q, Direct.isBound (bindings s) (Some q) None = true <-> exists k, q ∈ bound_queues (S k)).
Proof.
  intros Hl s S qs.
  assert (Hp : all_permitted (B := Direct.Bindings) cs (fun _ => unbound)) by (by apply (direct_permitted cs _ 0)).
  destruct (commands_represent deliverTo cs (new_Exch new_bindings i sq) (fun _ => unbound)) as [HR _]; [|done..|].
  { apply direct_new. }
  split_and!.
  - destruct (route_selects (B := Direct.Bindings) deliverTo cs m i sq Hp I) as (s' & m' & l & ? & ? & ? & ? & ?).
    by exists s', m', l.
  - apply HR.
  - intros q k. by apply isBound_key.
  - intros q. by apply isBound_queue.
Qed.

(** C17: the fanout exchange.  After any sequence of binds, unbinds and routed
    messages, federation included (fewer than 2^32), a message is offered to
    exactly the queues that are bound, whatever its key and the keys they were
    bound with, once each and in the order they were bound. *)
Theorem fanout_exchange_correct deliverTo cs m i sq :
  Z.of_nat (length cs) < 2 ^ 32 ->
  let s := run_commands deliverTo cs (new_Exch (new_bindings (B := BoundKey)) i sq) in
  let qs := bound_queues (abs_commands (B := BoundKey) cs unbound) in
  (exists s' m' l, route FanOut.matching deliverTo m s = (s', (doRoute deliverTo m' l (out s)).2)
     /\ msg_id m' = msg_id m /\ map b_queue l = qs
     /\ out s' = out s ++ map (Delivered m') qs)
  /\ NoDup qs
  /\ (forall q, FanOut.isBound (bindings s) (Some q) = bool_decide (q ∈ qs))
  /\ FanOut.hasBindings (bindings s) = bool_decide (qs <> []).
Proof.
  intros Hl s qs. assert (Hp : all_permitted (B := BoundKey) cs unbound) by (by apply fanout_permitted).
  destruct (commands_represent deliverTo cs (new_Exch new_bindings i sq) unbound) as [(Hq & Hnd & _) _]; [|done..|].
  { apply new_key_rep. }
  fold s qs in Hq, Hnd. split_and!; [|done| |].
  - destruct (route_selects (B := BoundKey) deliverTo cs m i sq Hp I) as (s' & m' & l & ? & ? & ? & ? & ?).
    by exists s', m', l.
  - intros q. unfold FanOut.isBound. by rewrite existsb_MatchQueue, Hq.
  - unfold FanOut.hasBindings. rewrite <- Hq. by destruct (queues (bindings s)) as [[|b l]|].
Qed.

(** C18: the alternate exchange.  A message routed with an alternate is offered
    to the queues its own exchange selects, and to those of the alternate
    exactly when there are none: a queue that refuses it does not send it to
    the alternate.  The call returns whether any queue got it.  This holds of any two exchange types that keep the contract. *)
Theorem alternate_exchange_exact {B1 C1 S1 B2 C2 S2 : Type} `{Routing B1 C1 S1} `{Routing B2 C2 S2}
    deliverTo m (s : Exch B1) (a : Exch B2) (T1 : S1) (T2 : S2) :
  represents (bindings s) T1 -> last_good s -> good B1 (msg_id m) ->
  represents (bindings a) T2 -> last_good a -> good B2 (msg_id m) ->
  let qs := selected T1 (routingKey m) (msg_id m) in
  let alt := if decide (qs = []) then selected T2 (routingKey m) (msg_id m) else [] in
  exists s' a' o m1 m2, routeWithAlternate matching matching deliverTo m (s, Some a) = ((s', Some a'), o)
    /\ msg_id m1 = msg_id m /\ msg_id m2 = msg_id m
    /\ out s' = out s ++ map (Delivered m1) qs /\ out a' = out a ++ map (Delivered m2) alt
    /\ represents (bindings s') T1 /\ represents (bindings a') T2
    /\ (forall b, o = Ret b -> b = negb (bool_decide (qs ++ alt = []))).
Proof. apply routeWithAlternate_run. Qed.

(** ** Small exchanges *)

Module Small.
Definition deliver (m : Msg) (q : Queue) : outcome unit :=
  if (q_id q =? 2)%nat then Throw SessionException else Ret tt.
Definition q1 : Queue := mkQueue 1 (s_ "orders").
Definition q2 : Queue := mkQueue 2 (s_ "audit").
Definition q3 : Queue := mkQueue 3 (s_ "bridge").
Definition k1 : str := s_ "k1".
Definition k2 : str := s_ "k2".
Definition msg : Msg := mkMsg k1 7 None.
Definition lost : Msg := mkMsg (s_ "k3") 8 None.
Definition exclusively : option DirectArgs := Some (mkDirectArgs (mkArgs [] [] []) true).
Definition from (op origin : string) : BindArgs := mkArgs (s_ op) [] (s_ origin).
Definition fed_args (op origin : string) : option DirectArgs := Some (mkDirectArgs (from op origin) false).

Definition commands : list (Command Direct.Change) :=
  [ CChange (Direct.Bind q1 k1 None); CChange (Direct.Bind q2 k1 None); CRoute msg;
    CChange (Direct.Bind q3 k1 (fed_args "B" "a")); CChange (Direct.Bind q3 k1 (fed_args "B" "b"));
    CChange (Direct.Bind q3 k1 (fed_args "U" "a")); CChange (Direct.Bind q1 k2 exclusively);
    CChange (Direct.Unbind q2 k1 None) ].
Definition direct_exch : Exch Direct.Bindings := run_commands deliver commands (new_Exch [] false true).
Definition direct_spec : str -> KeySpec := abs_commands (B := Direct.Bindings) commands (fun _ => unbound).

Definition fan_commands : list (Command FanOut.Change) :=
  [ CChange (FanOut.Bind q1 k1 None); CChange (FanOut.Bind q3 k1 (Some (from "B" "a"))); CRoute msg;
    CChange (FanOut.Bind q3 k2 (Some (from "B" "b"))); CChange (FanOut.Bind q3 k1 (Some (from "U" "a"))) ].
Definition fan_exch : Exch BoundKey := run_commands deliver fan_commands (new_Exch new_BoundKey true false).
Definition fan_spec : KeySpec := abs_commands (B := BoundKey) fan_commands unbound.
End Small.
Import Small.

Lemma direct_exchange_correct_witness :
  let qs := bound_queues (direct_spec (routingKey msg)) in
  qs = [q1; q3]
  /\ (exists s' m' l, route Direct.matching deliver msg direct_exch = (s', (doRoute deliver m' l (out direct_exch)).2)
     /\ msg_id m' = msg_id msg /\ map b_queue l = qs
     /\ out s' = out direct_exch ++ map (Delivered m') qs)
  /\ NoDup qs
  /\ (forall q k, Direct.isBound (bindings direct_exch) (Some q) (Some k) = bool_decide (q ∈ bound_queues (direct_spec k)))
  /\ (forall q, Direct.isBound (bindings direct_exch) (Some q) None = true <-> exists k, q ∈ bound_queues (direct_spec k)).
Proof. split; [vm_compute; reflexivity|]. apply (direct_exchange_correct deliver commands msg false true). done. Defined.

Lemma fanout_exchange_correct_witness :
  let qs := bound_queues fan_spec in
  qs = [q1; q3]
  /\ (exists s' m' l, route FanOut.matching deliver msg fan_exch = (s', (doRoute deliver m' l (out fan_exch)).2)
     /\ msg_id m' = msg_id msg /\ map b_queue l = qs
     /\ out s' = out fan_exch ++ map (Delivered m') qs)
  /\ NoDup qs
  /\ (forall q, FanOut.isBound (bindings fan_exch) (Some q) = bool_decide (q ∈ qs))
  /\ FanOut.hasBindings (bindings fan_exch) = bool_decide (qs <> []).
Proof. split; [vm_compute; reflexivity|]. apply (fanout_exchange_correct deliver fan_commands msg true false). done. Defined.

Lemma small_direct : holds direct_exch direct_spec.
Proof. apply (commands_represent deliver commands); [apply direct_new|done|]. by apply (direct_permitted commands _ 0). Qed.

Lemma small_fan : holds fan_exch fan_spec.
Proof. apply (commands_represent deliver fan_commands); [apply new_key_rep|done|]. by apply fanout_permitted. Qed.

Lemma alternate_exchange_exact_witness :
  let qs := selected (B := Direct.Bindings) direct_spec (routingKey lost) (msg_id lost) in
  let alt := if decide (qs = []) then selected (B := BoundKey) fan_spec (routingKey lost) (msg_id lost) else [] in
  alt = [q1; q3]
  /\ exists s' a' o m1 m2, routeWithAlternate matching matching deliver lost (direct_exch, Some fan_exch) = ((s', Some a'), o)
    /\ msg_id m1 = msg_id lost /\ msg_id m2 = msg_id lost
    /\ out s' = out direct_exch ++ map (Delivered m1) qs /\ out a' = out fan_exch ++ map (Delivered m2) alt
    /\ represents (bindings s') direct_spec /\ represents (bindings a') fan_spec
    /\ (forall b, o = Ret b -> b = negb (bool_decide (qs ++ alt = []))).
Proof.
  split; [vm_compute; reflexivity|].
  apply (alternate_exchange_exact deliver lost direct_exch fan_exch direct_spec fan_spec);
    [apply small_direct|apply small_direct|exact I|apply small_fan|apply small_fan|exact I].
Defined.

(** ** Bookkeeping *)

Definition after_direct (cs : list Direct.Change) : Exch Direct.Bindings :=
  run_commands deliver (map CChange cs) (new_Exch (new_bindings (B := Direct.Bindings)) false false).
Definition after_fanout (cs : list FanOut.Change) : Exch BoundKey :=
  run_commands deliver (map CChange cs) (new_Exch (new_bindings (B := BoundKey)) false false).

(**  bookkeeping that goes wrong.  An unbind that finds nothing leaves an
    empty entry: the key then counts as bound, the exchange as having
    bindings, and the autodelete check is not made when the last binding goes.
    A queue that is bound twice with a key, or whose binding replaces another
    as exclusive one, leaves the count of local bindings too high, so that
    upstream brokers are not told when the last binding goes; in a fanout
    exchange they are not told of the next binding either.  A fanout exchange
    with bindings says that nothing is bound when it is asked about no
    particular queue. *)
Theorem binding_bookkeeping_flaws :
  (let s := after_direct [Direct.Unbind q1 k1 None] in
   out s = [] /\ Direct.isBound (bindings s) None (Some k1) = true /\ Direct.hasBindings (bindings s) = true
   /\ forall q, Direct.isBound (bindings s) (Some q) None = false)
  /\ out (after_direct [Direct.Bind q1 k2 None; Direct.Unbind q1 k2 None])
     = [Propagated k2 [] fedOpBind []; Propagated k2 [] fedOpUnbind []; CheckedAutodelete]
  /\ out (after_direct [Direct.Unbind q1 k1 None; Direct.Bind q1 k2 None; Direct.Unbind q1 k2 None])
     = [Propagated k2 [] fedOpBind []; Propagated k2 [] fedOpUnbind []]
  /\ out (after_direct [Direct.Bind q1 k2 None; Direct.Bind q1 k2 None; Direct.Unbind q1 k2 None])
     = [Propagated k2 [] fedOpBind []; CheckedAutodelete]
  /\ out (after_direct [Direct.Bind q1 k2 None; Direct.Bind q2 k2 exclusively; Direct.Unbind q2 k2 None])
     = [Propagated k2 [] fedOpBind []; CheckedAutodelete]
  /\ out (after_fanout [FanOut.Bind q1 [] None; FanOut.Bind q1 [] None; FanOut.Unbind q1 [] None; FanOut.Bind q1 [] None])
     = [Propagated [] [] fedOpBind []; CheckedAutodelete]
  /\ (let s := after_fanout [FanOut.Bind q1 [] None] in
      FanOut.hasBindings (bindings s) = true /\ FanOut.isBound (bindings s) None = false).
Proof. cbv zeta. split_and!; intros; vm_compute; reflexivity. Qed.
