(* ===== verification/Double.v ===== *)
(** * Double precision numbers

    A C++ [double] is an IEEE 754 binary64 value: a [spec_float] of the Standard
    Library with precision 53 and maximal exponent 1024, with the correctly
    rounded operations, and the conversions from and to integers the broker
    uses.  The order on doubles is total but for the NaNs, and an integer never
    converts to one. *)

From Stdlib Require Import ZArith Lia SpecFloat.
From S2P Require Import Prelude.

Abbreviation double := spec_float.

#[global] Instance spec_float_eq_dec : EqDecision spec_float.
Proof. solve_decision. Defined.

(** the conversion of an integer to [double], rounding to nearest even *)
Definition double_of_int (i : Z) : double := binary_normalize 53 1024 i 0 false.

Definition dadd : double -> double -> double := SFadd 53 1024.
Definition dsub : double -> double -> double := SFsub 53 1024.
Definition dmul : double -> double -> double := SFmul 53 1024.
Definition ddiv : double -> double -> double := SFdiv 53 1024.

(** a conversion to an unsigned type of [w] bits truncates; a value that does not
    fit has no defined result *)
Definition truncate (x : double) : option Z :=
  match x with
  | S754_zero _ => Some 0
  | S754_finite s m e =>
      let a := if 0 <=? e then Z.pos m * 2 ^ e else Z.pos m / 2 ^ (- e) in
      Some (if s then - a else a)
  | _ => None
  end.
Definition uint_of_double (w : Z) (x : double) : outcome Z :=
  match truncate x with
  | Some z => if decide (is_uint w z) then Ret z else Throw UndefinedBehaviour
  | None => Throw UndefinedBehaviour
  end.

(** ** The order *)

Lemma SFleb_or a b : SFleb a b = SFltb a b || SFeqb a b.
Proof. unfold SFleb, SFltb, SFeqb. by destruct (SFcompare a b) as [[]|]. Qed.

Lemma SFcompare_antisym a b :
  SFcompare b a = match SFcompare a b with Some c => Some (CompOpp c) | None => None end.
Proof.
  destruct a as [[]|[]| |[] m1 e1], b as [[]|[]| |[] m2 e2]; cbn [SFcompare]; try reflexivity;
    rewrite (Z.compare_antisym e1 e2); destruct (Z.compare e1 e2); cbn [CompOpp]; try reflexivity;
    fold (Pos.compare m1 m2); fold (Pos.compare m2 m1);
    rewrite (Pos.compare_antisym m1 m2); by destruct (Pos.compare m1 m2).
Qed.

Lemma SFcompare_Some a b : a ≠ S754_nan -> b ≠ S754_nan -> exists c, SFcompare a b = Some c.
Proof.
  destruct a as [[]|[]| |[] m1 e1], b as [[]|[]| |[] m2 e2]; cbn [SFcompare]; intros Ha Hb;
    try done; try (eexists; reflexivity); destruct (Z.compare e1 e2); eauto.
Qed.

Lemma SFleb_ltb a b : a ≠ S754_nan -> b ≠ S754_nan -> SFleb b a = negb (SFltb a b).
Proof.
  intros Ha Hb. destruct (SFcompare_Some a b Ha Hb) as [c Hc].
  unfold SFleb, SFltb. rewrite (SFcompare_antisym a b), Hc. by destruct c.
Qed.

(** Rounding an integer never gives a NaN: its mantissa stays positive. *)
Lemma shr_1_nonneg mrs : (0 <= shr_m mrs)%Z -> (0 <= shr_m (shr_1 mrs))%Z.
Proof. destruct mrs as [[|[p|p|]|p] r s]; cbn; lia. Qed.

Lemma iter_pos_ind {A} (P : A -> Prop) (g : A -> A) n x :
  (forall a, P a -> P (g a)) -> P x -> P (SpecFloat.iter_pos g n x).
Proof. intros Hg. revert x. induction n; intros x Hx; cbn [SpecFloat.iter_pos]; auto. Qed.

Lemma shr_fexp_nonneg m e l : (0 <= m)%Z -> (0 <= shr_m (shr_fexp 53 1024 m e l).1)%Z.
Proof.
  intros Hm. unfold shr_fexp, shr.
  assert (H0 : (0 <= shr_m (shr_record_of_loc m l))%Z) by (by destruct l as [|[]]).
  destruct (fexp _ _ _ - e)%Z; cbn [fst]; [done| |done].
  apply (iter_pos_ind (fun mrs => (0 <= shr_m mrs)%Z)); [apply shr_1_nonneg|done].
Qed.

Lemma binary_round_not_nan s m e : binary_round 53 1024 s m e ≠ S754_nan.
Proof.
  unfold binary_round. destruct (shl_align _ _ _) as [m' e']. unfold binary_round_aux.
  pose proof (shr_fexp_nonneg (Z.pos m') e' loc_Exact ltac:(lia)) as H1.
  destruct (shr_fexp 53 1024 (Z.pos m') e' loc_Exact) as [mrs e1]. cbn [fst] in H1.
  set (m2 := round_nearest_even (shr_m mrs) (loc_of_shr_record mrs)).
  assert (H2 : (0 <= m2)%Z).
  { unfold m2, round_nearest_even. destruct (loc_of_shr_record mrs) as [|[]]; try lia.
    destruct (Z.even _); lia. }
  pose proof (shr_fexp_nonneg m2 e1 loc_Exact H2) as H3.
  destruct (shr_fexp 53 1024 m2 e1 loc_Exact) as [mrs' e2]. cbn [fst] in H3.
  destruct (shr_m mrs'); [done| |lia]. by destruct (e2 <=? 1024 - 53)%Z.
Qed.

Lemma double_of_int_not_nan i : double_of_int i ≠ S754_nan.
Proof.
  unfold double_of_int, binary_normalize. destruct i; [done|..]; apply binary_round_not_nan.
Qed.
