(* ===== verification/Properties.v ===== *)
(** * The properties of a message (src/qpid/amqp_0_10/Codecs.cpp, src/qpid/broker/amqp_0_10/MessageTransfer.cpp)

    [toVariant] turns a field value into a variant of the closest type, and
    [processProperties] calls the handler's function for each application
    header of a message.  [header_call] says which call that is, from what the
    value stands for. *)

From Stdlib Require Import ZArith Lia SpecFloat.
From stdpp Require Import base.
From S2P Require Import Prelude Buffer Double FieldTable FieldTableCorrect.
Local Open Scope Z_scope.

(** ** Floating point numbers *)

(** the number with this bit pattern, for a format with [mw] bits of mantissa and [ew] of
    exponent; a [float] is converted to [double] without a change of value *)
Definition from_bits (mw ew bits : Z) : double :=
  let s := Z.testbit bits (mw + ew) in
  let e := Z.shiftr bits mw mod 2 ^ ew in
  let m := bits mod 2 ^ mw in
  let bias := 2 ^ (ew - 1) - 1 in
  let normal (m e : Z) := binary_normalize 53 1024 (if s then - m else m) e s in
  if e =? 2 ^ ew - 1 then if m =? 0 then S754_infinity s else S754_nan
  else if e =? 0 then normal m (1 - bias - mw)
  else normal (m + 2 ^ mw) (e - bias - mw).
Definition double_of_bits (bits : Z) : double := from_bits 52 11 bits.
Definition double_of_float (bits : Z) : double := from_bits 23 8 bits.

(** ** Variants *)

Inductive Variant :=
| VAR_VOID
| VAR_BOOL (b : bool)
| VAR_UINT8 (n : Z) | VAR_UINT16 (n : Z) | VAR_UINT32 (n : Z) | VAR_UINT64 (n : Z)
| VAR_INT8 (n : Z) | VAR_INT16 (n : Z) | VAR_INT32 (n : Z) | VAR_INT64 (n : Z)
| VAR_FLOAT (bits : Z) | VAR_DOUBLE (bits : Z)
| VAR_STRING (s : list Z)
| VAR_MAP (m : list (list Z * Variant)) | VAR_LIST (l : list Variant)
| VAR_UUID (o : list Z).

Definition outcome_map {A B} (f : A -> B) (o : outcome A) : outcome B :=
  match o with Ret a => Ret (f a) | Throw e => Throw e end.

(** the function on each element in turn, up to one that throws *)
Fixpoint outcome_list {A B} (f : A -> outcome B) (l : list A) : outcome (list B) :=
  match l with
  | [] => Ret []
  | a :: l' => match f a with
               | Throw e => Throw e
               | Ret b => outcome_map (cons b) (outcome_list f l')
               end
  end.

Section properties.
Context (uuid_str : list Z -> list Z) (le : bool).
(** the contents of new memory *)
Context (uninitialised : Z -> list Z).

Definition getUuid (d : Data) : outcome (list Z) :=
  match d with
  | FixedWidth o | UuidData o => if (length o =? 16)%nat then Ret o else Throw Exception
  | _ => Throw Exception
  end.

(** the cases of the [switch] in [toVariant] *)
Inductive Kind := KInt (width : nat) | KUint (width : nat) | KBool | KFloat | KDouble | KUuid | KString | KMap | KList | KArray | KVoid.

Definition kind (typecode : Z) : Kind :=
  match typecode with
  | 0x00 | 0x01 => KInt 1
  | 0x02 => KUint 1
  | 0x08 => KBool
  | 0x10 | 0x11 => KInt 2
  | 0x12 => KUint 2
  | 0x20 | 0x21 => KInt 4
  | 0x22 => KUint 4
  | 0x23 => KFloat
  | 0x30 | 0x31 => KInt 8
  | 0x38 | 0x32 => KUint 8
  | 0x33 => KDouble
  | 0x48 => KUuid
  | 0x80 | 0x84 | 0x85 | 0x86 | 0x90 | 0x94 | 0x95 | 0x96 | 0xa0 | 0xab => KString
  | 0xa8 => KMap
  | 0xa9 => KList
  | 0xaa => KArray
  | _ => KVoid
  end.

Definition int_variant (width : nat) : Z -> Variant :=
  match width with 1%nat => VAR_INT8 | 2%nat => VAR_INT16 | 4%nat => VAR_INT32 | _ => VAR_INT64 end.
Definition uint_variant (width : nat) : Z -> Variant :=
  match width with 1%nat => VAR_UINT8 | 2%nat => VAR_UINT16 | 4%nat => VAR_UINT32 | _ => VAR_UINT64 end.

Fixpoint toVariant (n : nat) (v : FieldValue) : outcome Variant :=
  match n with
  | O => Throw OutOfFuel
  | S n =>
      let d := getData v in
      match kind (getType v) with
      | KInt w => outcome_map (int_variant w) (getIntegerValue true w d)
      | KUint w => outcome_map (uint_variant w) (getIntegerValue false w d)
      | KBool => outcome_map (fun i => VAR_BOOL (negb (i =? 0))) (getIntegerValue false 1 d)
      | KFloat => outcome_map VAR_FLOAT (getFloatingPointValue le 4 d).2
      | KDouble => outcome_map VAR_DOUBLE (getFloatingPointValue le 8 d).2
      | KUuid => outcome_map VAR_UUID (getUuid d)
      | KString => outcome_map VAR_STRING (getString uuid_str d)
      | KMap =>
          match d with
          | EncodedTable t =>
              match (copy uninitialised t).2 with
              | Throw e => Throw e
              | Ret c =>
                  match decoded c with
                  | Throw e => Throw e
                  | Ret vs => outcome_map VAR_MAP (outcome_list (fun p => outcome_map (pair p.1) (toVariant n p.2)) vs)
                  end
              end
          | _ => Ret (VAR_MAP [])
          end
      | KList => match d with EncodedList l => outcome_map VAR_LIST (outcome_list (toVariant n) l) | _ => Ret (VAR_LIST []) end
      | KArray => match d with EncodedArray _ l => outcome_map VAR_LIST (outcome_list (toVariant n) l) | _ => Ret (VAR_LIST []) end
      | KVoid => Ret VAR_VOID
      end
  end.

(** ** The handler's functions *)

(** a call of a [MapHandler]; the functions for the integer types of each sign differ in the width only *)
Inductive Call :=
| handleVoid
| handleUint (n : Z)
| handleInt (n : Z)
| handleFloat (d : double)
| handleString (s : list Z).

(** the [switch] of [processProperties]; [VAR_UINT16] goes to [handleUint8] *)
Definition variant_call (v : Variant) : outcome (option Call) :=
  match v with
  | VAR_VOID => Ret (Some handleVoid)
  | VAR_BOOL b => Ret (Some (handleUint (Z.b2z b)))
  | VAR_UINT8 n | VAR_UINT32 n | VAR_UINT64 n => Ret (Some (handleUint n))
  | VAR_UINT16 n => if n <=? 0xff then Ret (Some (handleUint n)) else Throw Exception
  | VAR_INT8 n | VAR_INT16 n | VAR_INT32 n | VAR_INT64 n => Ret (Some (handleInt n))
  | VAR_FLOAT bits => Ret (Some (handleFloat (double_of_float bits)))
  | VAR_DOUBLE bits => Ret (Some (handleFloat (double_of_bits bits)))
  | VAR_STRING s => Ret (Some (handleString s))
  | VAR_MAP _ | VAR_LIST _ | VAR_UUID _ => Ret None
  end.

(** [processProperties] for a handler that keeps an [A] in the state [S] *)
Section handler.
Context {S A : Type} (handle : list Z -> Call -> A -> M S A).

Fixpoint process_entries (n : nat) (vs : list (list Z * FieldValue)) (a : A) : M S A :=
  match vs with
  | [] => mret a
  | (key, v) :: vs' =>
      x ← lift_outcome (toVariant n v);
      c ← lift_outcome (variant_call x);
      a' ← (match c with Some c => handle key c a | None => mret a end);
      process_entries n vs' a'
  end.

(** [headers]: the application headers, if the message has any; they are copied first.  A
    value inside takes fewer octets than the table *)
Definition processProperties (headers : option FieldTable) (a : A) : M S A :=
  match headers with
  | None => mret a
  | Some t =>
      ft ← lift_outcome (copy uninitialised t).2;
      vs ← lift_outcome (decoded ft);
      process_entries (Z.to_nat (table_size ft)) vs a
  end.
End handler.
End properties.

(** ** The calls for plain values *)

Section plain.
Context (uuid_str : list Z -> list Z) (le : bool) (uninitialised : Z -> list Z).

(** what a value is given to the handler as; a map, a list or a uuid is not given to it *)
Definition header_call (x : Value) : option Call :=
  match x with
  | Raw t o =>
      match kind t with
      | KInt w => Some (handleInt (swrap (8 * Z.of_nat w) (from_octets o)))
      | KUint w => Some (handleUint (from_octets o))
      | KBool => Some (handleUint (if from_octets o =? 0 then 0 else 1))
      | KFloat => Some (handleFloat (double_of_float (from_octets o)))
      | KDouble => Some (handleFloat (double_of_bits (from_octets o)))
      | KString => Some (handleString o)
      | KVoid => Some handleVoid
      | _ => None
      end
  | _ => None
  end.

(** not an unsigned 16 bit number above 255 *)
Definition deliverable (x : Value) : Prop :=
  match x with Raw t o => kind t = KUint 2 -> from_octets o <= 255 | _ => True end.

Definition shape_of (k : Kind) (s : Shape) : bool :=
  match k with
  | KInt w | KUint w => bool_decide (s = SFixed w) && bool_decide (w ∈ [1; 2; 4; 8]%nat)
  | KBool => bool_decide (s = SFixed 1)
  | KFloat => bool_decide (s = SFixed 4)
  | KDouble => bool_decide (s = SFixed 8)
  | KUuid => bool_decide (s = SUuid)
  | KString => match s with SVariable _ => true | _ => false end
  | KMap => bool_decide (s = STable)
  | KList => bool_decide (s = SList)
  | KArray => bool_decide (s = SArray)
  | KVoid => match s with STable | SList | SArray => false | _ => true end
  end.

Lemma kind_shape t s : is_byte t -> setType t = Ret s -> shape_of (kind t) s = true.
Proof.
  intros Ht Hs.
  assert (H : forallb (fun t => match setType t with Ret s => shape_of (kind t) s | Throw _ => true end) (map Z.of_nat (seq 0 256)) = true)
    by (vm_compute; reflexivity).
  rewrite forallb_forall in H. specialize (H t). rewrite Hs in H. apply H. apply in_map_iff.
  exists (Z.to_nat t). unfold is_byte, is_uint in Ht. split; [lia|]. apply in_seq. lia.
Qed.
Lemma from_octets_range o : Forall is_byte o -> 0 <= from_octets o < 2 ^ (8 * Z.of_nat (length o)).
Proof.
  unfold from_octets. induction o as [|x o IH] using rev_ind; intros Ho; [simpl; lia|].
  apply Forall_app in Ho as [Ho Hx]. apply Forall_inv in Hx. rewrite foldl_snoc, length_app. specialize (IH Ho).
  set (v := foldl _ 0 o) in *. simpl length. unfold is_byte, is_uint in Hx.
  rewrite (lor_add _ _ 8) by first [lia|apply shiftl_mod; lia]. rewrite Z.shiftl_mul_pow2 by lia.
  replace (8 * Z.of_nat (length o + 1)) with (8 * Z.of_nat (length o) + 8) by lia. rewrite Z.pow_add_r by lia. nia.
Qed.

(** how deep a value is nested *)
Fixpoint height (x : Value) : Z :=
  match x with
  | Raw _ _ => 1
  | VTable l => 1 + foldr (fun p n => Z.max (height p.2) n) 0 l
  | VList l | VArray _ l => 1 + foldr (fun x n => Z.max (height x) n) 0 l
  end.

Lemma integer_variant (signed : bool) w o :
  length o = w -> w ∈ [1; 2; 4; 8]%nat -> Forall is_byte o -> (signed = false -> w = 2%nat -> from_octets o <= 255) ->
  exists x, outcome_map ((if signed then int_variant else uint_variant) w) (getIntegerValue signed w (FixedWidth o)) = Ret x
    /\ variant_call x = Ret (Some (if signed then handleInt (swrap (8 * Z.of_nat w) (from_octets o)) else handleUint (from_octets o))).
Proof.
  intros Hl Hw Ho H16. unfold getIntegerValue. rewrite Hl, Nat.eqb_refl. cbn [outcome_map]. eexists. split; [reflexivity|].
  pose proof (from_octets_range o Ho) as Hr. rewrite Hl in Hr.
  destruct signed.
  - repeat (apply elem_of_cons in Hw as [->|Hw]; [done|]). by apply elem_of_nil in Hw.
  - rewrite uwrap_small by done. repeat (apply elem_of_cons in Hw as [->|Hw]; [|]); [done| |done|done|by apply elem_of_nil in Hw].
    cbn. by rewrite (proj2 (Z.leb_le _ _)) by auto.
Qed.
Lemma outcome_list_total {A B} (f : A -> outcome B) l : Forall (fun a => exists b, f a = Ret b) l -> exists bs, outcome_list f l = Ret bs.
Proof.
  induction 1 as [|a l (b & E) _ (bs & IH)]; [by exists []|]. simpl. rewrite E, IH. by exists (b :: bs).
Qed.

Lemma toVariant_raw n t o v :
  rep (Raw t o) v ->
  exists x, toVariant uuid_str le uninitialised (S n) v = Ret x /\ (deliverable (Raw t o) -> variant_call x = Ret (header_call (Raw t o))).
Proof.
  intros (Ht & Ho & s & d & Hs & Hd & ->). pose proof (kind_shape t s Ht Hs) as Hk. unfold deliverable, header_call.
  cbn [toVariant getType getData]. destruct (kind t) as [w|w| | | | | | | | |] eqn:Ek; cbn [shape_of] in Hk.
  all: try (apply andb_true_iff in Hk as [Hk Hw%bool_decide_eq_true_1]).
  all: try (apply bool_decide_eq_true_1 in Hk; subst s); cbn [raw_data] in Hd.
  all: try (match type of Hd with context [(?a =? ?b)%nat] => destruct (Nat.eqb_spec a b) as [El|]; [|done] end).
  all: try (injection Hd as <-).
  - destruct (integer_variant true w o) as (x & E & Hx); [done..|]. exists x. split; [exact E|]. by intros _.
  - assert (exists x, outcome_map (uint_variant w) (getIntegerValue false w (FixedWidth o)) = Ret x
      /\ ((KUint w = KUint 2 -> from_octets o <= 255) -> variant_call x = Ret (Some (handleUint (from_octets o))))) as (x & E & Hx).
    { unfold getIntegerValue. rewrite El, Nat.eqb_refl. cbn [outcome_map]. eexists. split; [reflexivity|]. intros H16.
      destruct (integer_variant false w o) as (x & E & Hx); [done..| |].
      { intros _ ->. by apply H16. }
      unfold getIntegerValue in E. rewrite El, Nat.eqb_refl in E. cbn [outcome_map] in E. injection E as <-. exact Hx. }
    eauto.
  - unfold getIntegerValue. rewrite El. cbn. eexists. split; [reflexivity|]. intros _. cbn.
    pose proof (from_octets_range o Ho) as Hr. rewrite El in Hr. rewrite uwrap_small by done. by destruct (from_octets o =? 0).
  - unfold getFloatingPointValue. rewrite El. cbn. eexists. split; [reflexivity|]. intros _. cbn.
    unfold convertIfRequired. destruct le; [by rewrite rev_involutive|done].
  - unfold getFloatingPointValue. rewrite El. cbn. eexists. split; [reflexivity|]. intros _. cbn.
    unfold convertIfRequired. destruct le; [by rewrite rev_involutive|done].
  - unfold getUuid. rewrite El. cbn. eauto.
  - destruct s as [| |k| | |]; try done. cbn [raw_data] in Hd. destruct (_ <? _); [|done]. injection Hd as <-. cbn. eauto.
  - done.
  - done.
  - done.
  - eauto.
Qed.

Lemma foldr_max_pos {A} (f : A -> Z) l : 0 <= foldr (fun x n => Z.max (f x) n) 0 l.
Proof. induction l; simpl; lia. Qed.

Lemma foldr_max_le {A} (f : A -> Z) l m : foldr (fun x n => Z.max (f x) n) 0 l <= m -> Forall (fun x => f x <= m) l.
Proof. induction l as [|x l IH]; simpl; intros H; [constructor|]. constructor; [lia|]. apply IH. lia. Qed.

Lemma foldr_sum_le {A} (f : A -> Z) l m : Forall (fun x => 0 <= f x) l -> foldr (fun x n => f x + n) 0 l <= m -> Forall (fun x => f x <= m) l.
Proof.
  intros Hf. revert m. induction Hf as [|x l Hx Hl IH]; simpl; intros m H; [constructor|]. constructor.
  - assert (0 <= foldr (fun x n => f x + n) 0 l); [|lia]. clear -Hl. induction Hl; simpl; lia.
  - apply IH. lia.
Qed.

Lemma reps_total l vs : all2 rep l vs -> Forall (fun x => 0 <= vz x) l.
Proof. revert vs. induction l as [|x l IH]; intros [|v vs]; try done. intros []; constructor; [by eapply rep_z|eauto]. Qed.

Lemma entries_total l vs : entries_rep l vs -> Forall (fun p => 0 <= vz p.2) l.
Proof. revert vs. induction l as [|x l IH]; intros [|v vs]; try done. intros [[] ]; constructor; [by eapply rep_z|eauto]. Qed.

(** the variants of the elements of a list *)
Lemma elements_variant n l vs :
  Forall (fun x => forall n v, rep x v -> vz x < 2 ^ 32 -> height x <= Z.of_nat n ->
            exists y, toVariant uuid_str le uninitialised n v = Ret y /\ (deliverable x -> variant_call y = Ret (header_call x))) l ->
  all2 rep l vs -> Forall (fun x => vz x < 2 ^ 32) l -> Forall (fun x => height x <= Z.of_nat n) l ->
  exists ys, outcome_list (toVariant uuid_str le uninitialised n) vs = Ret ys.
Proof.
  intros IH Hr Hz Hh. apply outcome_list_total. revert vs Hr. induction IH as [|x l Hx _ IH]; intros [|v vs] Hr; try done.
  destruct Hr as [Hr Hrs]. apply Forall_cons in Hz as [? ?], Hh as [? ?]. constructor; [|by apply IH].
  destruct (Hx n v) as (y & E & _); [done..|eauto].
Qed.

Lemma entries_variant n l vs :
  Forall (fun p : list Z * Value => forall n v, rep p.2 v -> vz p.2 < 2 ^ 32 -> height p.2 <= Z.of_nat n ->
            exists y, toVariant uuid_str le uninitialised n v = Ret y /\ (deliverable p.2 -> variant_call y = Ret (header_call p.2))) l ->
  entries_rep l vs -> Forall (fun p => vz p.2 < 2 ^ 32) l -> Forall (fun p => height p.2 <= Z.of_nat n) l ->
  exists ys, outcome_list (fun p => outcome_map (pair p.1) (toVariant uuid_str le uninitialised n p.2)) vs = Ret ys.
Proof.
  intros IH Hr Hz Hh. apply outcome_list_total. revert vs Hr. induction IH as [|x l Hx _ IH]; intros [|v vs] Hr; try done.
  destruct Hr as [[_ Hr] Hrs]. apply Forall_cons in Hz as [? ?], Hh as [? ?]. constructor; [|by apply IH].
  destruct (Hx n v.2) as (y & -> & _); [done..|]. simpl. eauto.
Qed.

Hypothesis fresh : forall n, 0 <= n -> Z.of_nat (length (uninitialised n)) = n /\ Forall is_byte (uninitialised n).

Lemma toVariant_rep x : forall n v, rep x v -> vz x < 2 ^ 32 -> height x <= Z.of_nat n ->
  exists y, toVariant uuid_str le uninitialised n v = Ret y /\ (deliverable x -> variant_call y = Ret (header_call x)).
Proof.
  induction x as [t o|l IH|l IH|t l IH] using Value_nested_ind; intros n v Hv Hz Hn.
  all: destruct n as [|n]; [cbn [height] in Hn; pose proof (foldr_max_pos height); pose proof (foldr_max_pos (fun p : list Z * Value => height p.2)); simpl in *; first [lia|specialize (H l); lia|specialize (H0 l); lia]|].
  - by apply toVariant_raw.
  - destruct Hv as (t & -> & Ht). change (table_rep l t) in Ht. cbn [toVariant getType getData]. change (kind 0xa8) with KMap. cbv iota.
    destruct (copy_rep uninitialised fresh l t Ht Hz) as (t' & c & Ec & _ & Hc). rewrite Ec. cbn [snd].
    destruct (realDecode_rep l c Hc) as (vs & Er & Hvs & _). unfold decoded. rewrite Er. cbn [values].
    pose proof (entries_total l vs Hvs) as Hp. cbn [vz height] in Hz, Hn.
    destruct (entries_variant n l vs IH Hvs) as (ys & ->).
    + apply (Forall_impl (fun p => 2 + Z.of_nat (length p.1) + vz p.2 <= 2 ^ 32 - 1)); [|intros p; cbn beta; lia].
      apply foldr_sum_le; [|lia]. eapply Forall_impl; [exact Hp|]. cbn beta. intros; lia.
    + apply (foldr_max_le (fun p : list Z * Value => height p.2)). lia.
    + cbn. eauto.
  - destruct Hv as (vs & -> & Hvs & _). cbn [toVariant getType getData]. change (kind 0xa9) with KList. cbv iota.
    pose proof (reps_total l vs Hvs) as Hp. cbn [vz height] in Hz, Hn.
    destruct (elements_variant n l vs IH Hvs) as (ys & ->).
    + apply (Forall_impl (fun x => 1 + vz x <= 2 ^ 32 - 1)); [|intros p; cbn beta; lia].
      apply foldr_sum_le; [|lia]. eapply Forall_impl; [exact Hp|]. cbn beta. intros; lia.
    + apply foldr_max_le. lia.
    + cbn. eauto.
  - destruct Hv as (vs & s & -> & _ & _ & _ & Hvs & _). cbn [toVariant getType getData]. change (kind 0xaa) with KArray. cbv iota.
    pose proof (reps_total l vs Hvs) as Hp. cbn [vz height] in Hz, Hn.
    destruct (elements_variant n l vs IH Hvs) as (ys & ->).
    + apply (Forall_impl (fun x => vz x <= 2 ^ 32 - 1)); [|intros p; cbn beta; lia]. apply foldr_sum_le; [done|lia].
    + apply foldr_max_le. lia.
    + cbn. eauto.
Qed.

Lemma height_size x v : rep x v -> 1 <= height x <= vz x + 1.
Proof.
  revert v. induction x as [t o|l IH|l IH|t l IH] using Value_nested_ind; intros v Hr; cbn [height].
  - destruct (rep_z _ v Hr). lia.
  - cbn [vz]. destruct Hr as (t & -> & Hr). destruct (realDecode_rep l t Hr) as (vs & _ & Hv & _). clear Hr. revert vs Hv.
    induction IH as [|p l H1 _ IH]; intros [|q vs] Hv; try done. destruct Hv as [[_ Hr] Hv]. specialize (H1 _ Hr). specialize (IH vs Hv). cbn [foldr]. lia.
  - cbn [vz]. destruct Hr as (vs & -> & Hv & _). revert vs Hv.
    induction IH as [|p l H1 _ IH]; intros [|q vs] Hv; try done. destruct Hv as [Hr Hv]. specialize (H1 _ Hr). specialize (IH vs Hv). cbn [foldr]. lia.
  - cbn [vz]. destruct Hr as (vs & s & -> & _ & _ & _ & Hv & _).
    cut (0 <= foldr (fun x n => Z.max (height x) n) 0 l <= foldr (fun x a => vz x + a) 0 l + 1 /\ 0 <= foldr (fun x a => vz x + a) 0 l); [lia|]. revert vs Hv.
    induction IH as [|p l H1 _ IH]; intros [|q vs] Hv; try done. destruct Hv as [Hr Hv]. specialize (H1 _ Hr). specialize (IH vs Hv). cbn [foldr]. lia.
Qed.

Section calls.
Context {S A : Type} (handle : list Z -> Call -> A -> M S A).

(** the calls for the headers, in the order of their names *)
Fixpoint process_calls (l : list (list Z * Value)) (a : A) : M S A :=
  match l with
  | [] => mret a
  | (k, x) :: l' => a' ← (match header_call x with Some c => handle k c a | None => mret a end); process_calls l' a'
  end.

Lemma process_entries_rep n l vs :
  entries_rep l vs -> Forall (fun p => vz p.2 < 2 ^ 32 /\ height p.2 <= Z.of_nat n /\ deliverable p.2) l ->
  forall a s, process_entries uuid_str le uninitialised handle n vs a s = process_calls l a s.
Proof.
  intros Hr Hl. revert vs Hr. induction Hl as [|[k x] l (Hz & Hh & Hd) _ IH]; intros [|[k' v] vs] Hr a s; try done.
  destruct Hr as [[Ek Hr] Hrs]. cbn [fst snd] in *. subst k'. cbn [process_entries process_calls].
  destruct (toVariant_rep x n v Hr Hz Hh) as (y & Ey & Hy). unfold mbind, M_bind, lift_outcome.
  rewrite Ey, (Hy Hd). destruct ((match header_call x with Some c => handle k c a | None => mret a end) s) as [s' [a'|e]]; [|done].
  by apply IH.
Qed.

Lemma processProperties_rep l t :
  table_rep l t -> tz l < 2 ^ 32 -> Forall (fun p => deliverable p.2) l ->
  forall a s, processProperties uuid_str le uninitialised handle (Some t) a s = process_calls l a s.
Proof.
  intros Ht Hz Hd a s. cbn [processProperties]. destruct (copy_rep uninitialised fresh l t Ht Hz) as (t' & c & Ec & _ & Hc).
  destruct (realDecode_rep l c Hc) as (vs & Er & Hvs & _). destruct (size_rep l c Hc Hz) as (c1 & Es & _). injection Es as _ Es.
  unfold mbind, M_bind, lift_outcome. rewrite Ec. cbn [snd]. unfold decoded. rewrite Er, Es. cbn [values].
  apply process_entries_rep; [done|]. unfold tz in *. cbn [vz] in Hz.
  assert (Hb : Forall (fun p : list Z * Value => 1 + Z.of_nat (length p.1) + vz p.2 + 1 <= tz l - 8) l).
  { apply (Forall_impl (fun p : list Z * Value => 2 + Z.of_nat (length p.1) + vz p.2 <= tz l - 8)); [|intros p; cbn beta; lia].
    apply foldr_sum_le; [|unfold tz; cbn [vz]; lia]. eapply Forall_impl; [exact (entries_total l vs Hvs)|]. cbn beta. intros; lia. }
  unfold tz in Hb. clear -Hb Hd Hvs Hz. cbn [vz] in Hb |- *.
  set (n := 8 + foldr _ 0 l) in *. clearbody n. revert vs Hvs. induction Hb as [|p l Hp _ IH]; intros [|q vs] Hvs; try done; try constructor.
  - destruct Hvs as [[_ Hr] _]. apply Forall_cons in Hd as [Hd _]. pose proof (height_size _ _ Hr). split_and!; [lia|lia|done].
  - destruct Hvs as [_ Hvs]. apply Forall_cons in Hd as [_ Hd]. by apply (IH Hd vs).
Qed.
End calls.
End plain.
