(* ===== verification/HeadersExchange.v ===== *)
(** * The headers exchange (src/qpid/broker/HeadersExchange.h, HeadersExchange.cpp)

    A binding of a headers exchange is a table of arguments; a message matches
    it when all, or any, of them agree with its application headers.  The
    tables are the [FieldTable]s of the source, caches included: a [Matcher]
    reads the table of the binding that is in the shared array, and what the
    reading does to it stays there until the array is copied.

    A table that a caller passes is read through constant functions only, which
    decode it at most; each reading starts from the table that was passed. *)

From Stdlib Require Import ZArith Lia SpecFloat Ascii String.
From stdpp Require Import strings.
From S2P Require Import Prelude TopicKey TopicTree Double Buffer FieldTable Properties Exchange ExchangeBase.
Local Open Scope Z_scope.

(** bytes of a table as a string of the exchange, and back *)
Definition to_str (bs : list Z) : str := map (fun z => ascii_of_N (Z.to_N z)) bs.
Definition bytes_of (s : string) : list Z := map (fun c => Z.of_N (N_of_ascii c)) (s_ s).

Definition x_match : list Z := Eval vm_compute in bytes_of "x-match".
Definition all : list Z := Eval vm_compute in bytes_of "all".
Definition any : list Z := Eval vm_compute in bytes_of "any".
Definition QPID_RESERVED : list Z := Eval vm_compute in bytes_of "qpid.".
Definition qpidFedOp : list Z := Eval vm_compute in bytes_of "qpid.fed.op".
Definition qpidFedTags : list Z := Eval vm_compute in bytes_of "qpid.fed.tags".
Definition qpidFedOrigin : list Z := Eval vm_compute in bytes_of "qpid.fed.origin".

(** ** State *)

(** [HeadersExchange::BoundKey]: [binding], the table [binding->args], [args] and [fedBinding] *)
Record HBoundKey := mkHKey { binding : Binding; binding_args : FieldTable; args : FieldTable; fedBinding : FedBinding }.
Definition with_args (t : FieldTable) (bk : HBoundKey) : HBoundKey := mkHKey (binding bk) (binding_args bk) t (fedBinding bk).

(** the array, and the extra arguments of each propagation *)
Record HBindings := mkHBindings { array : option (list HBoundKey); propagated : list (option FieldTable) }.

Section headers.
Context (uuid_str : list Z -> list Z) (le : bool).
(** the contents of new memory *)
Context (uninitialised : Z -> list Z).
(** whether two pointers point to the same object *)
Context (same_object : FieldValue -> FieldValue -> bool).
(** the application headers of a message *)
Context (headers : nat -> option FieldTable).

(** the answer of a constant function *)
Definition ask {A} (m : M FieldTable A) (t : FieldTable) : outcome A := (m t).2.

(** ** Matching *)

Definition getMatch : M FieldTable (list Z) :=
  what ← lookup x_match;
  match what with
  | None => mret []
  | Some v => if convertsToString (getData v) then lift_outcome (getString uuid_str (getData v)) else throw InternalErrorException
  end.

(** [valueCheckRequired] and the count *)
Definition valueCheckRequired (key : list Z) (matched : Z) : M FieldTable (Z * bool) :=
  v ← lookup key;
  mret (match v with
        | Some v => if getType v =? 0xf0 then (matched + 1, false) else (matched, true)
        | None => (matched, false)
        end).

(** [processString], [processFloat], [processInt] and [processUint] *)
Definition value_matches (key : list Z) (c : Call) : M FieldTable bool :=
  match c with
  | handleVoid => mret false
  | handleString s => b ← getAsString uuid_str key; mret (bool_decide (b = s))
  | handleInt n => b ← getAsInt64 key; mret (b =? n)
  | handleUint n => b ← getAsUInt64 key; mret (b =? n)
  | handleFloat d =>
      b ← getDouble le key;
      mret (match b with Some bits => SFeqb (double_of_bits bits) d | None => false end)
  end.

Definition matcher_handle (key : list Z) (c : Call) (matched : Z) : M FieldTable Z :=
  r ← valueCheckRequired key matched;
  let '(matched', required) := r in
  if required : bool then b ← value_matches key c; mret (if b : bool then matched' + 1 else matched')
  else mret matched'.

Definition matches (matched : Z) : M FieldTable bool :=
  what ← getMatch;
  n ← gets table_count;
  mret (if decide (what = all) then matched =? u64 (n - 1)
        else if decide (what = any) then 0 <? matched
        else false).

Definition match_ (h : option FieldTable) : M FieldTable bool :=
  matched ← processProperties uuid_str le uninitialised matcher_handle h 0;
  matches matched.

(** [match_values] and [equal] *)
Definition match_values (bind msg : FieldValue) : outcome bool :=
  if getType bind =? 0xf0 then Ret true else value_eq same_object (Z.to_nat (value_size bind)) bind msg.

Definition equal (b : FieldTable) : M FieldTable bool :=
  vs ← entries;
  lift_outcome (foldr (fun p r => match ask (lookup p.1) b with
                                  | Throw e => Throw e
                                  | Ret None => Ret false
                                  | Ret (Some v) => match match_values p.2 v with Ret true => r | o => o end
                                  end) (Ret true) vs).

(** ** The array *)

(** the copy constructor of [BoundKey] *)
Definition dup (bk : HBoundKey) : HBoundKey :=
  match ask (copy uninitialised) (args bk) with
  | Ret t => with_args t bk
  | Throw _ => bk
  end.

(** [MatchArgs] and [MatchKey] *)
Definition MatchArgs (queue : Queue) (a : FieldTable) (bk : HBoundKey) : outcome bool :=
  if decide (b_queue (binding bk) = queue) then table_eq same_object (binding_args bk) a else Ret false.
Definition MatchKey (queue : Queue) (key : str) (bk : HBoundKey) : bool :=
  bool_decide (b_queue (binding bk) = queue) && bool_decide (b_key (binding bk) = key).

(** [find_if], with a predicate that may throw *)
Fixpoint found {T} (f : T -> outcome bool) (l : list T) : outcome bool :=
  match l with
  | [] => Ret false
  | x :: l' => match f x with Ret false => found f l' | r => r end
  end.

(** [FedUnbindModifier]: [shouldPropagate] and [shouldUnbind] after the call *)
Definition fedUnbindModifier (queueName fedOrigin : str) (bk : HBoundKey) : HBoundKey * (bool * bool) :=
  let '(f, shouldPropagate) := delOrigin (fedBinding bk) queueName fedOrigin in
  (mkHKey (binding bk) (binding_args bk) (args bk) f, (shouldPropagate, countFedBindings f queueName =? 0)).

Definition getNonFedArgs (a : FieldTable) : outcome FieldTable :=
  match ask entries a with
  | Throw e => Throw e
  | Ret vs =>
      Ret (foldl (fun t p => if decide (QPID_RESERVED `prefix_of` p.1) then t else (insert p.1 p.2 t).1) new_FieldTable vs)
  end.

(** ** Operations *)

Abbreviation Op := (M (Exch HBindings)).
Abbreviation this := Prelude.get.

Definition set_array (a : option (list HBoundKey)) : Op unit :=
  s ← this; set_bindings (mkHBindings a (propagated (bindings s))).

Definition propagate_fed (key tags op origin : str) (extra : option FieldTable) : Op unit :=
  s ← this;
  set_bindings (mkHBindings (array (bindings s)) (propagated (bindings s) ++ [extra])) ;;
  propagateFedOp key tags op origin.

(** the loop of [route] over the snapshot *)
Fixpoint match_all (h : option FieldTable) (l : list HBoundKey) (b : list Binding) : list HBoundKey * outcome (list Binding) :=
  match l with
  | [] => ([], Ret b)
  | i :: l' =>
      let '(t, r) := match_ h (args i) in
      match r with
      | Throw e => (with_args t i :: l', Throw e)
      | Ret m =>
          let present := existsb (fun j => bool_decide (b_queue j = b_queue (binding i))) b in
          let b' := if (m : bool) && negb present then b ++ [binding i] else b in
          let '(l2, r2) := match_all h l' b' in
          (with_args t i :: l2, r2)
      end
  end.

Definition matching (m : Msg) : M HBindings (list Binding) := fun bs =>
  match array bs with
  | None => (bs, Ret [])
  | Some l =>
      let '(l', r) := match_all (headers (msg_id m)) l [] in
      (mkHBindings (Some l') (propagated bs), r)
  end.

Definition string_arg (name : list Z) (a : option FieldTable) : outcome str :=
  match a with
  | Some t => match ask (getAsString uuid_str name) t with Ret s => Ret (to_str s) | Throw e => Throw e end
  | None => Ret []
  end.

Definition unbind (queue : Queue) (key : str) (a : option FieldTable) : Op bool :=
  origin ← lift_outcome (string_arg qpidFedOrigin a);
  s ← this;
  let '(arr, r) := CopyOnWriteArray.modify_if dup (MatchKey queue key) (fedUnbindModifier (q_name queue) origin) (array (bindings s)) in
  set_array arr ;;
  let '(shouldPropagate, shouldUnbind) := default (false, false) r in
  gone ← (if shouldUnbind : bool then
            let '(arr', removed) := CopyOnWriteArray.remove_if dup (MatchKey queue key) arr in
            set_array arr' ;; mret removed
          else mret true);
  if negb gone then mret false
  else
    (if shouldPropagate : bool then propagate_fed key [] fedOpUnbind [] None else mret tt) ;;
    s' ← this;
    (if CopyOnWriteArray.empty (array (bindings s')) then checkAutodelete else mret tt) ;;
    mret true.

Section bind.
Context (deliverTo : Msg -> Queue -> outcome unit).

(** the branch of [bind] that adds a binding: [propagate], or [None] for [return false] *)
Definition bind_local (queue : Queue) (key : str) (a : option FieldTable) (extra : FieldTable) (origin : str) : Op (option bool) :=
  x_match_value ← lift_outcome (match a with None => Throw InternalErrorException | Some t => ask getMatch t end);
  guard_throw (negb (bool_decide (x_match_value = all)) && negb (bool_decide (x_match_value = any))) InternalErrorException ;;
  s ← this;
  let l := CopyOnWriteArray.snapshot (array (bindings s)) in
  duplicate ← lift_outcome (found (fun bk => if MatchKey queue key bk
                                             then match MatchArgs queue extra bk with Ret b => Ret (negb b) | Throw e => Throw e end
                                             else Ret false) l);
  guard_throw duplicate InternalErrorException ;;
  full ← lift_outcome (match a with None => Ret new_FieldTable | Some t => ask (copy uninitialised) t end);
  own ← lift_outcome (ask (copy uninitialised) extra);
  let bk := mkHKey (mkBinding key queue None []) full own new_FedBinding in
  present ← lift_outcome (found (MatchArgs queue extra) l);
  if present : bool then mret None
  else
    set_array (CopyOnWriteArray.add dup bk (array (bindings s))) ;;
    (** the count is that of the local [bk], not of the copy in the array *)
    mret (Some (addOrigin (fedBinding bk) (q_name queue) origin).2).

Fixpoint reorigin (l : list HBoundKey) : Op unit :=
  match l with
  | [] => mret tt
  | i :: l' => (if hasLocal (fedBinding i) then propagate_fed (b_key (binding i)) [] fedOpBind [] None else mret tt) ;; reorigin l'
  end.

Definition bind (queue : Queue) (key : str) (a : option FieldTable) : Op bool :=
  op ← lift_outcome (match a with None => Ret fedOpBind | Some _ => string_arg qpidFedOp a end);
  tags ← lift_outcome (string_arg qpidFedTags a);
  origin ← lift_outcome (string_arg qpidFedOrigin a);
  extra ← lift_outcome (match a with None => Ret new_FieldTable | Some t => getNonFedArgs t end);
  r ← (if bool_decide (op = []) || bool_decide (op = fedOpBind) then bind_local queue key a extra origin
       else if decide (op = fedOpUnbind) then
         s ← this;
         let '(arr, r) := CopyOnWriteArray.modify_if dup (MatchKey queue key) (fedUnbindModifier (q_name queue) origin) (array (bindings s)) in
         set_array arr ;;
         let '(shouldPropagate, shouldUnbind) := default (false, false) r in
         (if shouldUnbind : bool then unbind queue key a ;; mret tt else mret tt) ;;
         mret (Some shouldPropagate)
       else if decide (op = fedOpReorigin) then
         s ← this;
         reorigin (CopyOnWriteArray.snapshot (array (bindings s))) ;;
         mret (Some false)
       else mret (Some false));
  match r with
  | None => mret false
  | Some propagate =>
      routeIVE matching deliverTo ;;
      (if propagate : bool
       then propagate_fed key tags op origin (if count extra =? 0 then None else Some extra)
       else mret tt) ;;
      mret true
  end.
End bind.

(** ** Queries *)

Fixpoint isBound_loop (queue : option Queue) (a : option FieldTable) (l : list HBoundKey) : list HBoundKey * outcome bool :=
  match l with
  | [] => ([], Ret false)
  | i :: l' =>
      let '(t, r) := match a with None => (args i, Ret true) | Some b => equal b (args i) end in
      match r with
      | Throw e => (with_args t i :: l', Throw e)
      | Ret e =>
          if (e : bool) && match queue with None => true | Some q => bool_decide (b_queue (binding i) = q) end
          then (with_args t i :: l', Ret true)
          else let '(l2, r2) := isBound_loop queue a l' in (with_args t i :: l2, r2)
      end
  end.

Definition isBound (queue : option Queue) (a : option FieldTable) : M HBindings bool := fun bs =>
  match array bs with
  | None => (bs, Ret false)
  | Some l => let '(l', r) := isBound_loop queue a l in (mkHBindings (Some l') (propagated bs), r)
  end.

Definition hasBindings (bs : HBindings) : bool := negb (CopyOnWriteArray.empty (array bs)).

End headers.

Inductive HChange :=
| HBind (queue : Queue) (key : str) (args : option FieldTable)
| HUnbind (queue : Queue) (key : str) (args : option FieldTable).
