(* ===== verification/HeadersCorrect.v ===== *)
(** * Matching of headers

    What a [Matcher] counts and decides, from what the binding's table and the
    message's headers stand for: [match_rep] shows that [match_] decides [match_spec]. *)

From Stdlib Require Import ZArith Lia SpecFloat Ascii String Sorted.
From stdpp Require Import strings.
From S2P Require Import Prelude TopicKey TopicTree Double Buffer FieldTable FieldTableCorrect FieldTableSafe Properties Exchange ExchangeBase HeadersExchange.
Local Open Scope Z_scope.

(** ** Values *)

(** [getInt] *)
Lemma getInt_octets o : Forall is_byte o -> foldl (fun v x => Z.lor (s64 (Z.shiftl v 8)) x) 0 o = s64 (from_octets o).
Proof.
  unfold from_octets. induction o as [|x o IH] using rev_ind; intros Ho; [done|].
  apply Forall_app in Ho as [Ho Hx]. apply Forall_inv in Hx. rewrite !foldl_snoc, (IH Ho).
  set (v := foldl (fun v x => Z.lor (Z.shiftl v 8) x) 0 o). unfold is_byte, is_uint in Hx.
  rewrite (lor_add (Z.shiftl v 8) x 8) by first [lia|apply shiftl_mod; lia].
  unfold swrap. rewrite !Z.shiftl_mul_pow2 by lia. change (2 ^ 8) with 256.
  set (a := (v + 2 ^ (64 - 1)) mod 2 ^ 64 - 2 ^ (64 - 1)).
  assert (Ha : exists q, a = v + q * 2 ^ 64).
  { exists (- ((v + 2 ^ (64 - 1)) / 2 ^ 64)). unfold a. rewrite Z.mod_eq by lia. lia. }
  destruct Ha as (q & ->).
  assert (Hm : forall z, (z * 256 + 2 ^ (64 - 1)) mod 2 ^ 64 = 256 * ((z + 2 ^ 55) mod 2 ^ 56)).
  { intros z. replace (z * 256 + 2 ^ (64 - 1)) with (256 * (z + 2 ^ 55)) by lia. change (2 ^ 64) with (256 * 2 ^ 56).
    apply Z.mul_mod_distr_l; lia. }
  rewrite Hm. replace (v + q * 2 ^ 64 + 2 ^ 55) with (v + 2 ^ 55 + (q * 256) * 2 ^ 56) by lia. rewrite Z.mod_add by lia.
  pose proof (Z.mod_pos_bound (v + 2 ^ 55) (2 ^ 56) ltac:(lia)). set (r := (v + 2 ^ 55) mod 2 ^ 56) in *.
  rewrite (lor_add (256 * r - 2 ^ (64 - 1)) x 8); [|lia|lia|].
  - replace (v * 256 + x + 2 ^ (64 - 1)) with (256 * (v + 2 ^ 55) + x) by lia.
    rewrite (Z.mod_eq (256 * (v + 2 ^ 55) + x)) by lia.
    assert ((256 * (v + 2 ^ 55) + x) / 2 ^ 64 = (v + 2 ^ 55) / 2 ^ 56) as ->.
    { symmetry. apply (Z.div_unique _ _ _ (256 * r + x)); [lia|]. unfold r. rewrite Z.mod_eq by lia. lia. }
    unfold r. rewrite Z.mod_eq by lia. lia.
  - replace (256 * r - 2 ^ (64 - 1)) with ((r - 2 ^ 55) * 2 ^ 8) by lia. apply Z.mod_mul. lia.
Qed.

Section values.
Context (uuid_str : list Z -> list Z).

(** what a binding's value is as a string, and as a number *)
Definition text (x : Value) : list Z :=
  match x with
  | Raw t o => match setType t with Ret SUuid => uuid_str o | Ret (SVariable _) => o | _ => [] end
  | _ => []
  end.
Definition number (x : Value) : Z :=
  match x with
  | Raw t o => match setType t with Ret (SFixed _) | Ret SUuid => from_octets o | _ => 0 end
  | _ => 0
  end.

(** a binding's value and a header agree: any header agrees with void; strings are compared as
    strings, numbers as 64 bit numbers, the binding's without regard to its sign *)
Definition agrees (x : Value) (c : Call) : bool :=
  (vtype x =? 0xf0) ||
  match c with
  | handleVoid | handleFloat _ => false
  | handleString s => bool_decide (text x = s)
  | handleInt n => s64 (number x) =? n
  | handleUint n => u64 (number x) =? n
  end.

Lemma text_rep x v : rep x v ->
  (if convertsToString (getData v) then getString uuid_str (getData v) else Ret []) = Ret (text x).
Proof.
  destruct x as [t o|l|l|t l]; cbn [rep text].
  - intros (_ & _ & s & d & -> & Hd & ->). cbn [getData]. destruct s; cbn [raw_data] in Hd; try done.
    + by destruct (_ =? _)%nat; simplify_eq.
    + by destruct (_ =? _)%nat; simplify_eq.
    + by destruct (_ <? _); simplify_eq.
  - by intros (t & -> & _).
  - by intros (vs & -> & _).
  - by intros (vs & s & -> & _).
Qed.

Lemma number_rep x v : rep x v ->
  (if convertsToInt (getData v) then getInt (getData v) else Ret 0) = Ret (s64 (number x)).
Proof.
  destruct x as [t o|l|l|t l]; cbn [rep number].
  - intros (_ & Ho & s & d & -> & Hd & ->). cbn [getData]. destruct s; cbn [raw_data] in Hd; try done.
    + destruct (_ =? _)%nat; simplify_eq. destruct o as [|x o]; [done|]. cbn [convertsToInt getInt]. by rewrite getInt_octets.
    + destruct (_ =? _)%nat; simplify_eq. cbn [convertsToInt getInt]. by rewrite getInt_octets.
    + by destruct (_ <? _); simplify_eq.
  - by intros (t & -> & _).
  - by intros (vs & -> & _).
  - by intros (vs & s & -> & _).
Qed.

Lemma getAsString_rep l t k : table_rep l t ->
  exists t', getAsString uuid_str k t = (t', Ret (default [] (text <$> name_find k l))) /\ table_rep l t'.
Proof.
  intros Ht. destruct (lookup_rep l t k Ht) as (t' & r & E & Ht' & Hr). exists t'. split; [|done].
  unfold getAsString. rewrite (bind_Ret _ _ _ _ _ E). destruct (name_find k l) as [x|], r as [v|]; try done. simpl.
  rewrite <- (text_rep x v Hr). by destruct (convertsToString (getData v)).
Qed.

Lemma getAsInt64_rep l t k : table_rep l t ->
  exists t', getAsInt64 k t = (t', Ret (default 0 ((fun x => s64 (number x)) <$> name_find k l))) /\ table_rep l t'.
Proof.
  intros Ht. destruct (lookup_rep l t k Ht) as (t' & r & E & Ht' & Hr). exists t'. split; [|done].
  unfold getAsInt64. rewrite (bind_Ret _ _ _ _ _ E). destruct (name_find k l) as [x|], r as [v|]; try done. simpl.
  rewrite <- (number_rep x v Hr). by destruct (convertsToInt (getData v)).
Qed.
End values.

(** ** The matcher *)

Abbreviation Entries := (list (list Z * Value)).

Section matcher.
Context (uuid_str : list Z -> list Z) (le : bool) (uninitialised : Z -> list Z).
Hypothesis fresh : forall n, 0 <= n -> Z.of_nat (length (uninitialised n)) = n /\ Forall is_byte (uninitialised n).
Implicit Types l h : Entries.

(** [getDouble] changes the value it reads, so that bindings with a [double] are left out *)
Definition no_double l : Prop := Forall (fun p => vtype p.2 <> 0x33) l.

Definition hit l (p : list Z * Value) : bool :=
  match name_find p.1 l, header_call p.2 with Some x, Some c => agrees uuid_str x c | _, _ => false end.

Lemma getDouble_rep l t k x : table_rep l t -> name_find k l = Some x -> vtype x <> 0x33 ->
  exists t', getDouble le k t = (t', Ret None) /\ table_rep l t'.
Proof.
  intros Ht Hf Hx. destruct (lookup_rep l t k Ht) as (t' & r & E & Ht' & Hr). exists t'. split; [|done].
  unfold getDouble, getRawFixedWidthValue. rewrite (bind_Ret _ _ _ _ _ E). rewrite Hf in Hr. destruct r as [[ty d]|]; [|done].
  apply rep_type in Hr. cbn in Hr. subst ty. by rewrite (proj2 (Z.eqb_neq _ _)).
Qed.

Lemma value_matches_rep l t k x c : table_rep l t -> name_find k l = Some x -> vtype x <> 0x33 -> vtype x <> 0xf0 ->
  exists t', value_matches uuid_str le k c t = (t', Ret (agrees uuid_str x c)) /\ table_rep l t'.
Proof.
  intros Ht Hf Hd Hv. unfold agrees. rewrite (proj2 (Z.eqb_neq _ _) Hv). cbn [orb]. destruct c as [|n|n|d|s]; cbn [value_matches].
  - by exists t.
  - destruct (getAsInt64_rep l t k Ht) as (t' & E & Ht'). exists t'. split; [|done]. rewrite Hf in E. simpl in E.
    assert (Eu : getAsUInt64 k t = (t', Ret (u64 (s64 (number x))))) by (unfold getAsUInt64; by rewrite (bind_Ret _ _ _ _ _ E)).
    rewrite (bind_Ret _ _ _ _ _ Eu). unfold mret, M_ret. do 3 f_equal. unfold uwrap, swrap.
    rewrite Zminus_mod_idemp_l. f_equal. lia.
  - destruct (getAsInt64_rep l t k Ht) as (t' & E & Ht'). exists t'. rewrite Hf in E. by rewrite (bind_Ret _ _ _ _ _ E).
  - destruct (getDouble_rep l t k x Ht Hf Hd) as (t' & E & Ht'). exists t'. by rewrite (bind_Ret _ _ _ _ _ E).
  - destruct (getAsString_rep uuid_str l t k Ht) as (t' & E & Ht'). exists t'. rewrite Hf in E. by rewrite (bind_Ret _ _ _ _ _ E).
Qed.

Lemma matcher_handle_rep l t k c n : table_rep l t -> no_double l ->
  exists t', matcher_handle uuid_str le k c n t
      = (t', Ret (n + Z.b2z (match name_find k l with Some x => agrees uuid_str x c | None => false end))) /\ table_rep l t'.
Proof.
  intros Ht Hd. destruct (lookup_rep l t k Ht) as (t1 & r & E & Ht1 & Hr).
  unfold matcher_handle, valueCheckRequired. unfold mbind at 1, M_bind at 1. rewrite (bind_Ret _ _ _ _ _ E).
  destruct (name_find k l) as [x|] eqn:Hf, r as [v|]; try done.
  - rewrite (rep_type _ _ Hr). destruct (Z.eqb_spec (vtype x) 0xf0) as [Ev|Ev]; cbn.
    + exists t1. unfold agrees. rewrite Ev. done.
    + destruct (value_matches_rep l t1 k x c Ht1 Hf) as (t2 & E2 & Ht2); [|done|].
      { unfold no_double in Hd. rewrite Forall_forall in Hd. apply (Hd (k, x)). apply name_find_elem; [apply Ht|done]. }
      rewrite (bind_Ret _ _ _ _ _ E2). exists t2. split; [|done]. unfold mret, M_ret. do 2 f_equal. destruct (agrees uuid_str x c); simpl; lia.
  - cbn. exists t1. by rewrite Z.add_0_r.
Qed.

Lemma process_calls_rep l h : no_double l -> forall t n, table_rep l t ->
  exists t', process_calls (matcher_handle uuid_str le) h n t = (t', Ret (n + Z.of_nat (length (filter (fun p => hit l p = true) h))))
    /\ table_rep l t'.
Proof.
  intros Hd. induction h as [|[k y] h IH]; intros t n Ht.
  { exists t. simpl. by rewrite Z.add_0_r. }
  cbn [process_calls].
  assert (exists t1, (match header_call y with Some c => matcher_handle uuid_str le k c n | None => mret n end) t
            = (t1, Ret (n + Z.b2z (hit l (k, y)))) /\ table_rep l t1) as (t1 & E1 & Ht1).
  { unfold hit. cbn [fst snd]. destruct (header_call y) as [c|].
    - destruct (matcher_handle_rep l t k c n Ht Hd) as (t1 & E & ?). exists t1. split; [|done]. rewrite E. by destruct (name_find k l).
    - exists t. split; [|done]. destruct (name_find k l); by rewrite Z.add_0_r. }
  rewrite (bind_Ret _ _ _ _ _ E1). destruct (IH t1 (n + Z.b2z (hit l (k, y))) Ht1) as (t2 & E2 & Ht2). exists t2. split; [|done].
  rewrite E2. do 2 f_equal. destruct (hit l (k, y)) eqn:Eh.
  - rewrite filter_cons_True by done. simpl length. simpl Z.b2z. lia.
  - rewrite filter_cons_False by congruence. simpl Z.b2z. lia.
Qed.

(** ** What a binding asks for *)

Definition mode l : list Z := default [] (text uuid_str <$> name_find x_match l).

(** the entry of a binding is met by the headers [h] *)
Definition met h (p : list Z * Value) : bool :=
  match name_find p.1 h with
  | Some y => match header_call y with Some c => agrees uuid_str p.2 c | None => false end
  | None => false
  end.

(** all entries but [x-match] itself, or any of them *)
Definition match_spec l h : bool :=
  if decide (mode l = all) then forallb (fun p => bool_decide (p.1 = x_match) || met h p) l
  else if decide (mode l = any) then existsb (met h) l
  else false.

Lemma sorted_names_NoDup m : StronglySorted name_lt m -> NoDup m.
Proof.
  induction 1 as [|k m Hs IH Hall]; [constructor|]. constructor; [|done]. intros Hin.
  rewrite Forall_forall in Hall. specialize (Hall k Hin). unfold name_lt in Hall. by rewrite bytes_lt_irrefl in Hall.
Qed.

Lemma filter_names_NoDup {A B} (P : A * B -> Prop) `{forall x, Decision (P x)} (m : list (A * B)) : NoDup (map fst m) -> NoDup (map fst (filter P m)).
Proof.
  induction m as [|p m IH]; simpl; [done|]. intros [Hn Hd]%NoDup_cons. rewrite filter_cons. destruct (decide (P p)); simpl; [|auto].
  constructor; [|auto]. intros (q & Eq & Hq)%list_elem_of_fmap. apply list_elem_of_filter in Hq as [_ Hq]. apply Hn.
  rewrite Eq. by apply (list_elem_of_fmap_2 fst).
Qed.

(** the headers that agree and the entries that are met have the same names *)
Lemma hits_met l h : StronglySorted name_lt (map fst l) -> StronglySorted name_lt (map fst h) ->
  length (filter (fun p => hit l p = true) h) = length (filter (fun p => met h p = true) l).
Proof.
  intros Hl Hh. rewrite <- (length_map fst), <- (length_map fst (filter (fun p => met h p = true) l)).
  apply Permutation_length, NoDup_Permutation; [by apply filter_names_NoDup, sorted_names_NoDup..|]. intros k. split.
  - intros (p & -> & Hp)%list_elem_of_fmap. apply list_elem_of_filter in Hp as [Hp Hin]. destruct p as [k y]. unfold hit in Hp. cbn [fst snd] in *.
    destruct (name_find k l) as [x|] eqn:Ef; [|done]. apply list_elem_of_fmap. exists (k, x). split; [done|]. apply list_elem_of_filter.
    split; [|by apply name_find_elem]. unfold met. cbn [fst snd]. apply (name_find_elem k y h Hh) in Hin. rewrite Hin. by destruct (header_call y).
  - intros (p & -> & Hp)%list_elem_of_fmap. apply list_elem_of_filter in Hp as [Hp Hin]. destruct p as [k x]. unfold met in Hp. cbn [fst snd] in *.
    destruct (name_find k h) as [y|] eqn:Ef; [|done]. apply list_elem_of_fmap. exists (k, y). split; [done|]. apply list_elem_of_filter.
    split; [|by apply name_find_elem]. unfold hit. cbn [fst snd]. apply (name_find_elem k x l Hl) in Hin. rewrite Hin. by destruct (header_call y).
Qed.
Lemma met_none h p : name_find p.1 h = None -> met h p = false.
Proof. unfold met. by intros ->. Qed.

Lemma count_met_le h l : (length (filter (fun p => met h p = true) l) <= length l)%nat.
Proof. apply length_filter. Qed.

(** without an entry [x-match], all are met exactly when the count is that of the entries *)
Lemma count_met_full h l : x_match ∉ map fst l ->
  (length (filter (fun p => met h p = true) l) = length l)%nat
  <-> forallb (fun p => bool_decide (p.1 = x_match) || met h p) l = true.
Proof.
  induction l as [|p l IH]; [done|]. cbn [map]. intros [Hn Hl]%not_elem_of_cons. specialize (IH Hl). cbn [forallb].
  rewrite bool_decide_eq_false_2 by done. cbn [orb]. rewrite andb_true_iff, <- IH. destruct (met h p) eqn:E.
  - rewrite filter_cons_True by done. simpl length. split; [intros; split; [done|lia]|intros [_ ?]; lia].
  - rewrite filter_cons_False by congruence. pose proof (count_met_le h l). simpl length. split; [lia|]. by intros [? _].
Qed.

Lemma count_met_all h l : NoDup (map fst l) -> x_match ∈ map fst l -> name_find x_match h = None ->
  (S (length (filter (fun p => met h p = true) l)) = length l)%nat
  <-> forallb (fun p => bool_decide (p.1 = x_match) || met h p) l = true.
Proof.
  intros Hnd Hin Hx. induction l as [|p l IH]; [by apply elem_of_nil in Hin|]. cbn [map] in *. apply NoDup_cons in Hnd as [Hn Hnd].
  cbn [forallb]. destruct (decide (p.1 = x_match)) as [E|E].
  - rewrite bool_decide_eq_true_2 by done. cbn [orb andb]. rewrite <- count_met_full by (by rewrite <- E).
    rewrite filter_cons_False by (rewrite met_none; [done|by rewrite E]). simpl length. lia.
  - apply elem_of_cons in Hin as [Hin|Hin]; [by rewrite Hin in E|]. specialize (IH Hnd Hin).
    rewrite bool_decide_eq_false_2 by done. cbn [orb]. rewrite andb_true_iff, <- IH. destruct (met h p) eqn:Em.
    + rewrite filter_cons_True by done. simpl length. split; [intros; split; [done|lia]|intros [_ ?]; lia].
    + rewrite filter_cons_False by congruence. simpl length. split; [|by intros [? _]]. intros Hc. exfalso.
      assert (exists q, q ∈ l /\ met h q = false) as (q & Hq & Hqm).
      { apply list_elem_of_fmap in Hin as (q & Eq & Hq). exists q. split; [done|]. apply met_none. by rewrite <- Eq. }
      assert (length (filter (fun p => met h p = true) l) < length l)%nat; [|lia].
      apply (length_filter_lt (fun p => met h p = true) l q); [done|congruence].
Qed.

Lemma getMatch_rep l t : table_rep l t -> mode l <> [] ->
  exists t', getMatch uuid_str t = (t', Ret (mode l)) /\ table_rep l t' /\ table_count t' = Z.of_nat (length l).
Proof.
  intros Ht Hm. destruct (realDecode_rep l t Ht) as (vs & E & Hv & Ht'). eexists. split; [|split; [exact Ht'|]].
  - unfold getMatch, lookup, mbind, M_bind. rewrite E. unfold gets. cbn [values]. pose proof (entries_find l vs x_match Hv) as Hf.
    unfold mode in *. destruct (name_find x_match l) as [x|], (name_find x_match vs) as [v|]; try done. simpl in *.
    pose proof (text_rep uuid_str x v Hf) as Hx. destruct (convertsToString (getData v)); [|congruence]. unfold lift_outcome. by rewrite Hx.
  - unfold table_count. cbn [values]. apply all2_Forall2, Forall2_length in Hv. lia.
Qed.

Lemma matches_rep l h t : table_rep l t -> mode l = all \/ mode l = any -> name_find x_match h = None ->
  exists t', matches uuid_str (Z.of_nat (length (filter (fun p => met h p = true) l))) t = (t', Ret (match_spec l h)) /\ table_rep l t'.
Proof.
  intros Ht Hm Hx. destruct (getMatch_rep l t Ht) as (t' & E & Ht' & Hc). { by destruct Hm as [-> | ->]. }
  exists t'. split; [|done]. unfold matches. rewrite (bind_Ret _ _ _ _ _ E). unfold mbind, M_bind, gets. rewrite Hc.
  unfold mret, M_ret. do 2 f_equal. unfold match_spec. destruct (decide (mode l = all)) as [Ea|Ea].
  - pose proof Ht as (Hs & _ & Hlen & _). rewrite length_map in Hlen.
    assert (Hin : x_match ∈ map fst l).
    { unfold mode in Ea. destruct (name_find x_match l) as [x|] eqn:Ef; [|done]. apply name_find_elem in Ef; [|done].
      by apply (list_elem_of_fmap_2 fst) in Ef. }
    pose proof (count_met_all h l (sorted_names_NoDup _ Hs) Hin Hx) as Hall.
    assert (1 <= length l)%nat by (destruct l; [by apply elem_of_nil in Hin|simpl; lia]).
    rewrite uwrap_small by (unfold is_uint; lia). apply eq_true_iff_eq. rewrite <- Hall, Z.eqb_eq. lia.
  - destruct (decide (mode l = any)) as [En|En]; [|done]. apply eq_true_iff_eq. rewrite Z.ltb_lt, existsb_exists. split.
    + intros Hpos. destruct (filter (fun p => met h p = true) l) as [|q m] eqn:Ef; [simpl in Hpos; lia|].
      assert (Hq : q ∈ filter (fun p => met h p = true) l) by (rewrite Ef; by left). apply list_elem_of_filter in Hq as [? ?].
      exists q. by rewrite <- list_elem_of_In.
    + intros (q & Hq & Hm'). assert (Hin : q ∈ filter (fun p => met h p = true) l) by (apply list_elem_of_filter; by rewrite list_elem_of_In).
      destruct (filter (fun p => met h p = true) l); [by apply elem_of_nil in Hin|]. simpl length. lia.
Qed.

(** a message's headers, and what they stand for *)
Definition headers_ok (h : Entries) (t : option FieldTable) : Prop :=
  name_find x_match h = None /\ Forall (fun p => deliverable p.2) h
  /\ match t with None => h = [] | Some t => table_rep h t /\ tz h < 2 ^ 32 end.

Lemma match_rep l h t ht : table_rep l t -> no_double l -> mode l = all \/ mode l = any -> headers_ok h ht ->
  exists t', match_ uuid_str le uninitialised ht t = (t', Ret (match_spec l h)) /\ table_rep l t'.
Proof.
  intros Ht Hd Hm (Hx & Hdel & Hh). pose proof Ht as (Hs & _).
  assert (Hsh : StronglySorted name_lt (map fst h)) by (destruct ht as [ht|]; [apply Hh|subst h; constructor]).
  assert (exists t1, processProperties uuid_str le uninitialised (matcher_handle uuid_str le) ht 0 t
            = (t1, Ret (Z.of_nat (length (filter (fun p => met h p = true) l)))) /\ table_rep l t1) as (t1 & E & Ht1).
  { rewrite <- hits_met by done. destruct ht as [ht|].
    - destruct Hh as [Hh Hz]. destruct (process_calls_rep l h Hd t 0 Ht) as (t1 & E & Ht1). exists t1. split; [|done].
      rewrite (processProperties_rep uuid_str le uninitialised fresh (matcher_handle uuid_str le) h ht Hh Hz Hdel). by rewrite E.
    - subst h. by exists t. }
  unfold match_. rewrite (bind_Ret _ _ _ _ _ E). by apply matches_rep.
Qed.
End matcher.
