(* ===== verification/HeadersSystem.v ===== *)
(** * The headers exchange as its users see it

    The abstract state is the list of the bindings, each with the map its
    arguments stand for.  [headers_contract] discharges the interface of
    [ExchangeBase]. *)

From Stdlib Require Import ZArith Lia SpecFloat Ascii String Sorted.
From stdpp Require Import strings.
From S2P Require Import Prelude TopicKey TopicTree Double Buffer FieldTable FieldTableCorrect FieldTableSafe Properties Exchange ExchangeBase HeadersExchange HeadersCorrect.
Local Open Scope Z_scope.

#[global] Instance table_value_eq_dec : EqDecision Value.
Proof.
  refine (fix IH (x y : Value) : {x = y} + {x <> y} := _).
  assert (HL : forall l l' : list Value, {l = l'} + {l <> l'}).
  { fix IHl 1. intros [|a l] [|b l']; [left; reflexivity|right; discriminate|right; discriminate|].
    destruct (IH a b) as [->|Ha]; [|right; congruence]. destruct (IHl l l') as [->|Hl]; [left; reflexivity|right; congruence]. }
  destruct x as [t o|l|l|t l], y as [t' o'|l'|l'|t' l']; try (right; discriminate).
  - destruct (decide (t = t')) as [->|]; [|right; congruence]. destruct (decide (o = o')) as [->|]; [left; reflexivity|right; congruence].
  - assert (HT : forall m m' : list (list Z * Value), {m = m'} + {m <> m'}).
    { fix IHl 1. intros [|[k a] m] [|[k' b] m']; [left; reflexivity|right; discriminate|right; discriminate|].
      destruct (decide (k = k')) as [->|]; [|right; congruence].
      destruct (IH a b) as [->|Ha]; [|right; congruence]. destruct (IHl m m') as [->|Hl]; [left; reflexivity|right; congruence]. }
    destruct (HT l l') as [->|]; [left; reflexivity|right; congruence].
  - destruct (HL l l') as [->|]; [left; reflexivity|right; congruence].
  - destruct (decide (t = t')) as [->|]; [|right; congruence]. destruct (HL l l') as [->|]; [left; reflexivity|right; congruence].
Defined.

(** ** Arguments without the federation entries *)

Definition reserved (p : list Z * Value) : Prop := QPID_RESERVED `prefix_of` p.1.
Definition nonfed (m : Entries) : Entries := filter (fun p => ~ reserved p) m.

Lemma nonfed_cons k x m : nonfed ((k, x) :: m) = if decide (QPID_RESERVED `prefix_of` k) then nonfed m else (k, x) :: nonfed m.
Proof.
  unfold nonfed. destruct (decide (QPID_RESERVED `prefix_of` k)); [rewrite filter_cons_False|rewrite filter_cons_True]; try done.
  intros Hn. by apply Hn.
Qed.

Lemma name_find_nonfed k m : ~ QPID_RESERVED `prefix_of` k -> name_find k (nonfed m) = name_find k m.
Proof.
  intros Hk. induction m as [|[k' x] m IH]; [done|]. rewrite nonfed_cons. cbn [name_find].
  destruct (decide (QPID_RESERVED `prefix_of` k')) as [Hp|Hp]; cbn [name_find].
  - destruct (decide (k' = k)) as [->|]; [done|exact IH].
  - by rewrite IH.
Qed.

Lemma mode_nonfed uuid_str m : mode uuid_str (nonfed m) = mode uuid_str m.
Proof.
  unfold mode. rewrite name_find_nonfed; [done|]. intros [k E]. vm_compute in E. discriminate.
Qed.

Lemma nonfed_rep m vs : entries_rep m vs -> StronglySorted name_lt (map fst m) -> Forall name_ok (map fst m) ->
  forall acc t, table_rep acc t -> Forall (fun k => Forall (fun k' => name_lt k' k) (map fst acc)) (map fst m) ->
  Z.of_nat (length acc + length m) < 2 ^ 32 ->
  table_rep (acc ++ nonfed m) (foldl (fun t p => if decide (QPID_RESERVED `prefix_of` p.1) then t else (FieldTable.insert p.1 p.2 t).1) t vs).
Proof.
  revert vs. induction m as [|[k x] m IH]; intros [|[k' v] vs]; try done.
  { intros _ _ _ acc t Ht _ _. cbn. by rewrite app_nil_r. }
  intros [[Ek Hr] Hvs]. cbn [fst snd] in *. subst k'. cbn [map fst]. intros Hs Hok acc t Ht Hacc Hlen.
  apply StronglySorted_inv in Hs as [Hs Hall]. apply Forall_cons in Hok as [Hk Hok], Hacc as [Hak Hacc]. simpl in Hlen.
  rewrite nonfed_cons. cbn [foldl fst snd]. destruct (decide (QPID_RESERVED `prefix_of` k)).
  - apply IH; try done. lia.
  - destruct (insert_rep acc t k x v Ht Hk Hr) as (t1 & -> & Ht1); [lia|]. cbn [fst].
    assert (name_find k acc = None) as En.
    { destruct (name_find k acc) as [y|] eqn:Ef; [|done]. apply name_find_elem in Ef; [|apply Ht].
      rewrite Forall_forall in Hak. apply (list_elem_of_fmap_2 fst) in Ef. specialize (Hak k Ef). unfold name_lt in Hak. by rewrite bytes_lt_irrefl in Hak. }
    rewrite En, name_insert_last in Ht1 by done.
    replace (acc ++ (k, x) :: nonfed m) with ((acc ++ [(k, x)]) ++ nonfed m) by (by rewrite <- app_assoc).
    apply IH; try done; [|rewrite length_app; simpl; lia]. rewrite Forall_forall in Hacc, Hall |- *. intros k' Hk'. rewrite map_app.
    apply Forall_app. split; [by apply Hacc|]. constructor; [by apply Hall|constructor].
Qed.

Lemma getNonFedArgs_rep m t : table_rep m t -> exists e, getNonFedArgs t = Ret e /\ table_rep (nonfed m) e.
Proof.
  intros Ht. destruct (entries_spec m t Ht) as (t' & vs & E & _ & Hvs). unfold getNonFedArgs, ask. rewrite E. cbn [snd].
  eexists. split; [reflexivity|]. pose proof Ht as (Hs & Hok & Hlen & _). rewrite length_map in Hlen.
  apply (nonfed_rep m vs Hvs Hs Hok [] new_FieldTable); [|by apply Forall_forall; constructor|by simpl].
  apply plain_rep; [|done]. split_and!; [constructor|constructor|done].
Qed.

Lemma nonfed_size m vs : entries_rep m vs -> tz (nonfed m) <= tz m.
Proof.
  unfold tz. cbn [vz]. revert vs. induction m as [|[k x] m IH]; intros [|[k' v] vs]; try done.
  intros [[_ Hr] Hvs]. rewrite nonfed_cons. specialize (IH vs Hvs). cbn [fst snd foldr] in *. destruct (rep_z _ _ Hr).
  destruct (decide (QPID_RESERVED `prefix_of` k)); cbn [fst snd foldr]; lia.
Qed.

(** ** Bindings *)

(** a binding: its key and queue, what its arguments stand for, and those of them that count *)
Record HSpec := mkHSpec { h_key : str; h_queue : Queue; h_full : Entries; h_args : Entries }.

Definition has_key (q : Queue) (k : str) (h : HSpec) : bool := bool_decide (h_queue h = q) && bool_decide (h_key h = k).
Definition has_args (q : Queue) (a : Entries) (h : HSpec) : bool := bool_decide (h_queue h = q) && bool_decide (h_full h = a).

Section system.
Context (uuid_str : list Z -> list Z) (le : bool) (uninitialised : Z -> list Z).
Context (same_object : FieldValue -> FieldValue -> bool) (headers : nat -> option FieldTable).
(** what the headers of a message stand for *)
Context (hmap : nat -> Entries).
Hypothesis fresh : forall n, 0 <= n -> Z.of_nat (length (uninitialised n)) = n /\ Forall is_byte (uninitialised n).

Definition hspec_ok (h : HSpec) : Prop :=
  plain (VTable (h_full h)) /\ tz (h_full h) < 2 ^ 32 /\ tz (h_args h) < 2 ^ 32
  /\ no_double (h_args h) /\ (mode uuid_str (h_args h) = all \/ mode uuid_str (h_args h) = any).

(** the federation counts stay those of a new binding *)
Definition hkey_rep (bk : HBoundKey) (h : HSpec) : Prop :=
  b_key (binding bk) = h_key h /\ b_queue (binding bk) = h_queue h
  /\ table_rep (h_full h) (binding_args bk) /\ table_rep (h_args h) (args bk) /\ fedBinding bk = new_FedBinding.

Definition headers_represents (bs : HBindings) (S : list HSpec) : Prop :=
  Forall2 hkey_rep (CopyOnWriteArray.snapshot (array bs)) S /\ Forall hspec_ok S.

Lemma dup_rep bk h : hkey_rep bk h -> hspec_ok h -> hkey_rep (dup uninitialised bk) h.
Proof.
  intros (? & ? & ? & Ha & ?) (_ & _ & Hz & _). unfold dup, ask.
  destruct (copy_rep uninitialised fresh (h_args h) (args bk) Ha Hz) as (t' & c & -> & _ & Hc). by split_and!.
Qed.

Lemma dups_rep l S : Forall2 hkey_rep l S -> Forall hspec_ok S -> Forall2 hkey_rep (map (dup uninitialised) l) S.
Proof.
  induction 1 as [|bk h l S Hb _ IH]; intros HS; [constructor|]. apply Forall_cons in HS as [? ?]. constructor; [by apply dup_rep|by apply IH].
Qed.

Lemma MatchKey_rep q k bk h : hkey_rep bk h -> MatchKey q k bk = has_key q k h.
Proof. intros (Ek & Eq & _). unfold MatchKey, has_key. by rewrite Ek, Eq. Qed.

Lemma MatchArgs_rep q a t bk h : hkey_rep bk h -> hspec_ok h -> table_rep a t -> MatchArgs same_object q t bk = Ret (has_args q a h).
Proof.
  intros (_ & Eq & Hf & _) (Hp & Hz & _) Ht. unfold MatchArgs, has_args. rewrite Eq. case_decide as E; [|by rewrite bool_decide_eq_false_2].
  rewrite bool_decide_eq_true_2 by done. destruct (table_eq_plain same_object (h_full h) a (binding_args bk) t Hf Ht Hp Hz) as (b & -> & Hb).
  cbn [andb]. f_equal. apply eq_true_iff_eq. by rewrite Hb, bool_decide_eq_true.
Qed.

Lemma found_rep (f : HBoundKey -> outcome bool) (g : HSpec -> bool) l S :
  Forall2 hkey_rep l S -> (forall bk h, hkey_rep bk h -> h ∈ S -> f bk = Ret (g h)) -> found f l = Ret (existsb g S).
Proof.
  induction 1 as [|bk h l S Hb _ IH]; intros Hf; [done|]. cbn [found existsb]. rewrite (Hf bk h Hb) by (by left).
  destruct (g h); [done|]. apply IH. intros bk' h' ? ?. apply Hf; [done|by right].
Qed.

Lemma existsb_rep (f : HBoundKey -> bool) (g : HSpec -> bool) l S :
  Forall2 hkey_rep l S -> (forall bk h, hkey_rep bk h -> f bk = g h) -> existsb f l = existsb g S.
Proof. induction 1 as [|bk h l S Hb _ IH]; intros Hf; [done|]. simpl. by rewrite (Hf bk h Hb), IH. Qed.

Lemma filter_hrep (f : HBoundKey -> bool) (g : HSpec -> bool) l S :
  Forall2 hkey_rep l S -> (forall bk h, hkey_rep bk h -> f bk = g h) ->
  Forall2 hkey_rep (filter (fun bk => f bk = false) l) (filter (fun h => g h = false) S).
Proof.
  induction 1 as [|bk h l S Hb _ IH]; intros Hf; [constructor|]. pose proof (Hf bk h Hb) as E. destruct (g h) eqn:Eg.
  - rewrite !filter_cons_False by congruence. by apply IH.
  - rewrite !filter_cons_True by congruence. constructor; [done|by apply IH].
Qed.

(** ** Routing *)

(** the queues with a binding that matches, in the order of the bindings *)
Definition pick (h : Entries) (qs : list Queue) (x : HSpec) : list Queue :=
  if match_spec uuid_str (h_args x) h && negb (bool_decide (h_queue x ∈ qs)) then qs ++ [h_queue x] else qs.
Definition picked (h : Entries) (S : list HSpec) (qs : list Queue) : list Queue := fold_left (pick h) S qs.

Lemma present_rep q b : existsb (fun j => bool_decide (b_queue j = q)) b = bool_decide (q ∈ map b_queue b).
Proof.
  induction b as [|j b IH]; [done|]. simpl. rewrite IH. apply eq_true_iff_eq.
  rewrite orb_true_iff, !bool_decide_eq_true, elem_of_cons. split; intros [|]; auto.
Qed.

Lemma match_all_rep h ht : headers_ok h ht -> forall l S b, Forall2 hkey_rep l S -> Forall hspec_ok S ->
  exists l' b', match_all uuid_str le uninitialised ht l b = (l', Ret b') /\ Forall2 hkey_rep l' S
    /\ map b_queue b' = picked h S (map b_queue b).
Proof.
  intros Hh l S b HF. revert b. induction HF as [|bk x l S Hb _ IH]; intros b HS; [by exists [], b|].
  apply Forall_cons in HS as [(Hp & Hz & Hza & Hd & Hm) HS]. destruct Hb as (Ek & Eq & Hf & Ha & Hfd).
  destruct (match_rep uuid_str le uninitialised fresh (h_args x) h (args bk) ht Ha Hd Hm Hh) as (t' & E & Ht').
  cbn [match_all]. rewrite E, present_rep, Eq.
  set (b1 := if _ && _ then b ++ [binding bk] else b).
  assert (E1 : map b_queue b1 = pick h (map b_queue b) x).
  { unfold b1, pick. destruct (_ && _); [|done]. by rewrite map_app, <- Eq. }
  destruct (IH b1 HS) as (l' & b' & -> & HF' & Eb'). eexists _, b'. split; [reflexivity|]. split.
  - constructor; [|done]. by split_and!.
  - by rewrite Eb', E1.
Qed.

Lemma picked_spec h S : forall qs, NoDup qs ->
  NoDup (picked h S qs)
  /\ forall q, q ∈ picked h S qs <-> q ∈ qs \/ exists x, x ∈ S /\ h_queue x = q /\ match_spec uuid_str (h_args x) h = true.
Proof.
  induction S as [|x S IH]; intros qs Hnd.
  { split; [done|]. intros q. simpl. split; [auto|]. intros [|(x & Hx & _)]; [done|by apply elem_of_nil in Hx]. }
  simpl. assert (Hnd' : NoDup (pick h qs x)).
  { unfold pick. destruct (match_spec _ _ _); [|done]. cbn [andb]. case_bool_decide as Hin; cbn [negb]; [done|].
    apply NoDup_app. split_and!; [done| |apply NoDup_singleton]. intros y Hy ->%list_elem_of_singleton. done. }
  destruct (IH (pick h qs x) Hnd') as [H1 H2]. split; [done|]. intros q. rewrite H2.
  assert (Hp : q ∈ pick h qs x <-> q ∈ qs \/ (h_queue x = q /\ match_spec uuid_str (h_args x) h = true)).
  { unfold pick. destruct (match_spec _ _ _); cbn [andb]; [|split; [auto|intros [|[_ ?]]; done]].
    case_bool_decide as Hin; cbn [negb].
    - split; [auto|]. intros [|[<- _]]; done.
    - rewrite elem_of_app, list_elem_of_singleton. split; intros [|]; naive_solver. }
  rewrite Hp. split.
  - intros [[?|[? ?]]|(y & ? & ? & ?)]; [auto|right; exists x; split_and!; [by left|done..]|right; exists y; split_and!; [by right|done..]].
  - intros [?|(y & [->|?]%elem_of_cons & ? & ?)]; [auto|auto|right; eauto].
Qed.

#[local] Instance headers_type : ExchangeType HBindings (HChange * Entries) := {|
  new_bindings := mkHBindings None [];
  ExchangeBase.matching := matching uuid_str le uninitialised headers;
  command := fun deliverTo c =>
    match c.1 with
    | HBind q k a => bind uuid_str le uninitialised same_object headers deliverTo q k a
    | HUnbind q k a => unbind uuid_str uninitialised q k a
    end |}.

#[local] Instance headers_routing : Routing HBindings (HChange * Entries) (list HSpec).
Proof.
  refine {| represents := headers_represents; good := fun id => headers_ok (hmap id) (headers id);
            selected := fun S _ id => picked (hmap id) S [] |}.
  intros m bs S [HF HS] Hg. cbn [ExchangeBase.matching headers_type]. unfold matching.
  destruct (array bs) as [l|] eqn:E; cbn in HF.
  - destruct (match_all_rep _ _ Hg l S [] HF HS) as (l' & b' & -> & HF' & Eb).
    eexists _, b'. split; [reflexivity|]. split; [by split|done].
  - apply Forall2_nil_inv_l in HF as ->. eexists bs, []. split; [reflexivity|]. split; [|done]. split; [by rewrite E; constructor|done].
Defined.

(** ** Operations *)

Definition arg (name : list Z) (m : Entries) : str := to_str (default [] (text uuid_str <$> name_find name m)).

Definition without (q : Queue) (k : str) (S : list HSpec) : list HSpec := filter (fun h => has_key q k h = false) S.

(** the table of an operation stands for [m] *)
Definition stands (m : Entries) (a : option FieldTable) : Prop := match a with Some t => table_rep m t | None => m = [] end.

Lemma string_arg_rep name m a : stands m a -> string_arg uuid_str name a = Ret (arg name m).
Proof.
  intros Ha. unfold string_arg, arg. destruct a as [t|]; [|by rewrite Ha].
  destruct (getAsString_rep uuid_str m t name Ha) as (t' & E & _). unfold ask. by rewrite E.
Qed.

Lemma without_unbound q k S : existsb (has_key q k) S = false -> without q k S = S.
Proof.
  induction S as [|h S IH]; [done|]. simpl. intros [E ?]%orb_false_iff. unfold without. rewrite filter_cons_True by done.
  f_equal. by apply IH.
Qed.

Lemma without_ok q k S : Forall hspec_ok S -> Forall hspec_ok (without q k S).
Proof. intros H. apply Forall_forall. intros h [_ Hh]%list_elem_of_filter. rewrite Forall_forall in H. auto. Qed.

(** the modifier leaves the federation counts as they are and asks for the unbind *)
Lemma modifier_rep n o bk h : hkey_rep bk h -> fedUnbindModifier n o bk = (bk, (bool_decide (o = []), true)).
Proof.
  intros (_ & _ & _ & _ & Hf). destruct bk as [b ba a f]. cbn in Hf. subst f. unfold fedUnbindModifier. cbn. by destruct o.
Qed.

Lemma modify_first_rep q k n o l S : Forall2 hkey_rep l S ->
  CopyOnWriteArray.modify_first (MatchKey q k) (fedUnbindModifier n o) l
  = (l, if existsb (has_key q k) S then Some (bool_decide (o = []), true) else None).
Proof.
  induction 1 as [|bk h l S Hb _ IH]; [done|]. cbn [CopyOnWriteArray.modify_first existsb]. rewrite (MatchKey_rep q k bk h Hb).
  destruct (has_key q k h); cbn [orb]; [by rewrite (modifier_rep n o bk h Hb)|]. by rewrite IH.
Qed.

Lemma modify_rep q k n o arr S : Forall2 hkey_rep (CopyOnWriteArray.snapshot arr) S -> Forall hspec_ok S ->
  exists arr', CopyOnWriteArray.modify_if (dup uninitialised) (MatchKey q k) (fedUnbindModifier n o) arr
      = (arr', if existsb (has_key q k) S then Some (bool_decide (o = []), true) else None)
    /\ Forall2 hkey_rep (CopyOnWriteArray.snapshot arr') S.
Proof.
  intros HF HS. unfold CopyOnWriteArray.modify_if. destruct arr as [l|]; cbn in HF.
  - rewrite (existsb_rep (MatchKey q k) (has_key q k) l S HF) by (intros; by apply MatchKey_rep).
    destruct (existsb (has_key q k) S) eqn:E; [|by exists (Some l)].
    rewrite (modify_first_rep q k n o _ S) by (by apply dups_rep). rewrite E. eexists. split; [reflexivity|]. by apply dups_rep.
  - apply Forall2_nil_inv_l in HF as ->. by exists None.
Qed.

Lemma remove_hrep q k arr S : Forall2 hkey_rep (CopyOnWriteArray.snapshot arr) S -> Forall hspec_ok S ->
  exists arr', CopyOnWriteArray.remove_if (dup uninitialised) (MatchKey q k) arr = (arr', existsb (has_key q k) S)
    /\ Forall2 hkey_rep (CopyOnWriteArray.snapshot arr') (without q k S).
Proof.
  intros HF HS. unfold CopyOnWriteArray.remove_if.
  rewrite (existsb_rep (MatchKey q k) (has_key q k) _ S HF) by (intros; by apply MatchKey_rep).
  destruct (existsb (has_key q k) S) eqn:E.
  - eexists. split; [reflexivity|]. apply filter_hrep; [by apply dups_rep|]. intros; by apply MatchKey_rep.
  - eexists. split; [reflexivity|]. by rewrite without_unbound.
Qed.

(** ** Steps *)

(** [m] returns and the bindings stand for [S'] afterwards *)
Definition takes {A} (m : M (Exch HBindings) A) (S S' : list HSpec) : Prop :=
  forall s, holds s S -> exists s' a, m s = (s', Ret a) /\ holds s' S'.

Lemma takes_ret {A} (a : A) S : takes (mret a) S S.
Proof. intros s Hs. by exists s, a. Qed.

Lemma takes_bind {A A'} (m : M (Exch HBindings) A) (f : A -> M (Exch HBindings) A') S1 S2 S3 :
  takes m S1 S2 -> (forall a, takes (f a) S2 S3) -> takes (m ≫= f) S1 S3.
Proof.
  intros Hm Hf s Hs. destruct (Hm s Hs) as (s1 & a & E & Hs1). destruct (Hf a s1 Hs1) as (s2 & a' & E' & Hs2).
  exists s2, a'. split; [|done]. by rewrite (bind_Ret _ _ _ _ _ E).
Qed.

Lemma takes_calm {A} (m : M (Exch HBindings) A) S : calm m -> takes m S S.
Proof.
  intros Hc s Hs. destruct (Hc s) as (a & E & Ho). exists (m s).1, a. split; [rewrite <- E; apply surjective_pairing|].
  by eapply only_out_holds.
Qed.

Lemma takes_propagate k t op o e S : takes (propagate_fed k t op o e) S S.
Proof. intros s [HR Hl]. unfold propagate_fed, mbind, M_bind. simpl. eexists _, tt. split; [reflexivity|]. by split. Qed.

Lemma takes_set arr S S' : headers_represents (mkHBindings arr []) S' -> takes (set_array arr) S S'.
Proof. intros HR s [_ Hl]. unfold set_array, mbind, M_bind. simpl. eexists _, tt. split; [reflexivity|]. by split. Qed.

Lemma takes_if {A} (b : bool) (m m' : M (Exch HBindings) A) S S' : takes m S S' -> takes m' S S' -> takes (if b then m else m') S S'.
Proof. by destruct b. Qed.

Lemma takes_get {A} (f : Exch HBindings -> M (Exch HBindings) A) S S' :
  (forall s, holds s S -> exists s' a, f s s = (s', Ret a) /\ holds s' S') -> takes (s ← Prelude.get; f s) S S'.
Proof. intros H s Hs. destruct (H s Hs) as (s' & a & E & Hs'). exists s', a. split; [|done]. by rewrite (bind_Ret _ _ s s s eq_refl). Qed.

Lemma unbind_takes q k m a S : stands m a -> takes (unbind uuid_str uninitialised q k a) S (without q k S).
Proof.
  intros Ha s Hs. pose proof Hs as [[HF HS] _]. unfold unbind. rewrite (string_arg_rep _ m a Ha).
  rewrite (bind_Ret _ _ s s _ eq_refl), (bind_Ret _ _ s s s eq_refl).
  destruct (modify_rep q k (q_name q) (arg qpidFedOrigin m) (array (bindings s)) S HF HS) as (arr & -> & HF1).
  destruct (remove_hrep q k arr S HF1 HS) as (arr2 & Er & HF2). destruct (existsb (has_key q k) S) eqn:E; cbn [default from_option id].
  - rewrite Er. cbv iota zeta. refine (takes_bind _ _ S S _ _ _ s Hs); [by apply takes_set|]. intros _.
    refine (takes_bind _ _ S (without q k S) _ _ _).
    { refine (takes_bind _ _ _ (without q k S) _ _ _); [apply takes_set; by split; [|apply without_ok]|]. intros _. apply takes_ret. }
    intros gone. apply takes_if; [apply takes_ret|].
    refine (takes_bind _ _ _ (without q k S) _ _ _); [apply takes_if; [apply takes_propagate|apply takes_ret]|]. intros _.
    apply takes_get. intros s' Hs'. refine (takes_bind _ _ _ (without q k S) _ _ _ s' Hs'); [|intros _; apply takes_ret].
    apply takes_if; apply takes_calm; auto with calm.
  - rewrite without_unbound by done. refine (takes_bind _ _ S S _ _ _ s Hs); [by apply takes_set|]. intros _. cbv iota zeta.
    refine (takes_bind _ _ S S _ (takes_ret true S) _). intros gone. apply takes_if; [apply takes_ret|].
    refine (takes_bind _ _ _ S _ (takes_ret tt S) _). intros _.
    apply takes_get. intros s' Hs'. refine (takes_bind _ _ _ S _ _ _ s' Hs'); [|intros _; apply takes_ret].
    apply takes_if; apply takes_calm; auto with calm.
Qed.

(** a bind: it is refused without [x-match], or for a key of the queue that has other arguments;
    it does nothing if the queue is bound with these arguments already *)
Definition refused (q : Queue) (k : str) (m : Entries) (S : list HSpec) : bool :=
  negb (bool_decide (mode uuid_str m = all)) && negb (bool_decide (mode uuid_str m = any))
  || existsb (fun h => has_key q k h && negb (has_args q (nonfed m) h)) S.
Definition spec_hbind (q : Queue) (k : str) (m : Entries) (S : list HSpec) : list HSpec :=
  if refused q k m S || existsb (has_args q (nonfed m)) S then S else S ++ [mkHSpec k q m (nonfed m)].

Definition args_ok (m : Entries) : Prop := plain (VTable m) /\ tz m < 2 ^ 32 /\ no_double (nonfed m).

Lemma ask_getMatch m t : table_rep m t ->
  ask (getMatch uuid_str) t = Ret (mode uuid_str m) \/ (ask (getMatch uuid_str) t = Throw InternalErrorException /\ mode uuid_str m = []).
Proof.
  intros Ht. unfold ask, getMatch, mode. destruct (lookup_rep m t x_match Ht) as (t' & r & E & _ & Hr). rewrite (bind_Ret _ _ _ _ _ E).
  destruct (name_find x_match m) as [x|], r as [v|]; try done; [|by left]. pose proof (text_rep uuid_str x v Hr) as Hx. cbn.
  destruct (convertsToString (getData v)); [left; by cbn|right]. split; [done|]. congruence.
Qed.

Lemma new_binding_rep q k m t e : table_rep m t -> args_ok m -> table_rep (nonfed m) e ->
  exists full own, ask (copy uninitialised) t = Ret full /\ ask (copy uninitialised) e = Ret own
    /\ tz (nonfed m) < 2 ^ 32
    /\ hkey_rep (mkHKey (mkBinding k q None []) full own new_FedBinding) (mkHSpec k q m (nonfed m)).
Proof.
  intros Ht (Hp & Hz & Hd) He. assert (Hz' : tz (nonfed m) < 2 ^ 32).
  { destruct (entries_spec m t Ht) as (t' & vs & _ & _ & Hvs). pose proof (nonfed_size m vs Hvs). lia. }
  destruct (copy_rep uninitialised fresh m t Ht Hz) as (t' & full & E & _ & Hf).
  destruct (copy_rep uninitialised fresh _ e He Hz') as (e' & own & E' & _ & Ho).
  exists full, own. unfold ask. rewrite E, E'. by split_and!.
Qed.

Lemma bind_local_holds q k m t e o s S : table_rep m t -> args_ok m -> table_rep (nonfed m) e -> holds s S ->
  exists s' r, bind_local uuid_str uninitialised same_object q k (Some t) e o s = (s', r) /\ holds s' (spec_hbind q k m S).
Proof.
  intros Ht Hok He Hs. pose proof Hs as [[HF HS] _]. unfold bind_local, spec_hbind, refused.
  destruct (ask_getMatch m t Ht) as [Em|[Em Hm]]; rewrite Em; last first.
  { rewrite Hm. eexists _, _. split; [reflexivity|]. done. }
  rewrite (bind_Ret _ _ s s _ eq_refl).
  destruct (negb (bool_decide (mode uuid_str m = all)) && negb (bool_decide (mode uuid_str m = any))) eqn:Emode.
  { eexists _, _. split; [reflexivity|]. done. }
  rewrite (bind_Ret _ _ s s tt eq_refl), (bind_Ret _ _ s s s eq_refl).
  rewrite (found_rep (fun bk => if MatchKey q k bk then match MatchArgs same_object q e bk with Ret b => Ret (negb b) | Throw e => Throw e end else Ret false)
    (fun h => has_key q k h && negb (has_args q (nonfed m) h)) _ S HF); last first.
  { intros bk h Hb Hin. cbn beta. rewrite (MatchKey_rep q k bk h Hb). destruct (has_key q k h); [|done]. cbn [andb].
    rewrite Forall_forall in HS. by rewrite (MatchArgs_rep q (nonfed m) e bk h Hb (HS h Hin) He). }
  rewrite (bind_Ret _ _ s s _ eq_refl). cbn [orb].
  destruct (existsb (fun h => has_key q k h && negb (has_args q (nonfed m) h)) S).
  { eexists _, _. split; [reflexivity|]. done. }
  cbn [orb]. rewrite (bind_Ret _ _ s s tt eq_refl).
  destruct (new_binding_rep q k m t e Ht Hok He) as (full & own & Ef & Eo & Hz' & Hb). rewrite Ef, Eo.
  rewrite (bind_Ret _ _ s s _ eq_refl), (bind_Ret _ _ s s _ eq_refl).
  rewrite (found_rep (MatchArgs same_object q e) (has_args q (nonfed m)) _ S HF); last first.
  { intros bk h Hb' Hin. rewrite Forall_forall in HS. by rewrite (MatchArgs_rep q (nonfed m) e bk h Hb' (HS h Hin) He). }
  rewrite (bind_Ret _ _ s s _ eq_refl). destruct (existsb (has_args q (nonfed m)) S).
  { eexists _, _. split; [reflexivity|]. done. }
  assert (Hnew : hspec_ok (mkHSpec k q m (nonfed m))).
  { destruct Hok as (Hp & Hz & Hd). split_and!; cbn [h_full h_args]; try done. rewrite mode_nonfed. apply andb_false_iff in Emode as [Emode|Emode].
    - left. by apply negb_false_iff, bool_decide_eq_true_1 in Emode.
    - right. by apply negb_false_iff, bool_decide_eq_true_1 in Emode. }
  assert (HR : takes (set_array (CopyOnWriteArray.add (dup uninitialised) (mkHKey (mkBinding k q None []) full own new_FedBinding) (array (bindings s)));;
                      mret (Some (addOrigin new_FedBinding (q_name q) o).2)) S (S ++ [mkHSpec k q m (nonfed m)])).
  { refine (takes_bind _ _ S (S ++ [_]) _ _ (fun _ => takes_ret _ _)). apply takes_set. split.
    - cbn. apply Forall2_app; [by apply dups_rep|]. constructor; [by apply dup_rep|constructor].
    - apply Forall_app. split; [done|]. by constructor. }
  destruct (HR s Hs) as (s' & r & E & Hs'). eexists _, _. split; [exact E|]. done.
Qed.

(** ** The contract *)

Definition headers_change (c : HChange * Entries) (S : list HSpec) : list HSpec :=
  match c with
  | (HBind q k (Some _), m) =>
      let op := arg qpidFedOp m in
      if bool_decide (op = []) || bool_decide (op = fedOpBind) then spec_hbind q k m S
      else if decide (op = fedOpUnbind) then without q k S
      else S
  | (HBind _ _ None, _) => S
  | (HUnbind q k _, _) => without q k S
  end.

Definition headers_permitted (c : HChange * Entries) : Prop :=
  match c with
  | (HBind _ _ a, m) => stands m a /\ args_ok m
  | (HUnbind _ _ a, m) => stands m a
  end.

Lemma reorigin_nothing l S : Forall2 hkey_rep l S -> forall s, reorigin l s = (s, Ret tt).
Proof.
  induction 1 as [|bk h l S (_ & _ & _ & _ & Hf) _ IH]; intros s; [done|]. cbn [reorigin]. rewrite Hf. cbn. apply IH.
Qed.

Lemma bind_throw {A B} (m : M (Exch HBindings) A) (f : A -> M (Exch HBindings) B) s s' o S :
  m s = (s', o) -> holds s' S -> (forall a, o = Ret a -> holds (f a s').1 S) -> holds ((m ≫= f) s).1 S.
Proof. intros E Hs Hf. unfold mbind, M_bind. rewrite E. destruct o; [by apply Hf|done]. Qed.

Lemma bind_headers_holds deliverTo q k a m s S : stands m a -> args_ok m -> holds s S ->
  holds (bind uuid_str le uninitialised same_object headers deliverTo q k a s).1 (headers_change (HBind q k a, m) S).
Proof.
  intros Ha Hok Hs. pose proof Hs as [[HF HS] _]. unfold bind. rewrite !(string_arg_rep _ m a Ha).
  destruct a as [t|]; [|done]. cbn [headers_change].
  destruct (getNonFedArgs_rep m t Ha) as (e & -> & He).
  rewrite !(bind_Ret _ _ s s _ eq_refl). set (op := arg qpidFedOp m).
  set (announce := fun p : bool => (if p then propagate_fed k (arg qpidFedTags m) op (arg qpidFedOrigin m) (if count e =? 0 then None else Some e) else mret tt) ;; mret true).
  assert (Hann : forall S (p : bool) s', holds s' S -> holds (announce p s').1 S).
  { intros S0 p s' Hs'. assert (Ht : takes (announce p) S0 S0).
    { refine (takes_bind _ _ S0 S0 _ _ (fun _ => takes_ret _ _)). apply takes_if; [apply takes_propagate|apply takes_ret]. }
    destruct (Ht s' Hs') as (s'' & b & -> & ?). done. }
  assert (Htail : forall r s' S, holds s' S ->
            holds (match r with None => mret false | Some p => routeIVE (matching uuid_str le uninitialised headers) deliverTo ;; announce p end s').1 S).
  { intros r s' S0 Hs'. by apply (tail_holds (H := headers_type) deliverTo r announce); [apply Hann|]. }
  destruct (bool_decide (op = []) || bool_decide (op = fedOpBind)).
  { destruct (bind_local_holds q k m t e (arg qpidFedOrigin m) s S Ha Hok He Hs) as (s' & r & E & Hs').
    apply (bind_throw _ _ s s' r _ E Hs'). intros r' _. by apply Htail. }
  destruct (decide (op = fedOpUnbind)) as [_|_].
  { destruct (modify_rep q k (q_name q) (arg qpidFedOrigin m) (array (bindings s)) S HF HS) as (arr & Em & HF1).
    set (r := if existsb (has_key q k) S then Some (bool_decide (arg qpidFedOrigin m = []), true) else None) in *.
    assert (Ht : takes (set_array arr ;; let '(shouldPropagate, shouldUnbind) := default (false, false) r in
                        (if shouldUnbind : bool then unbind uuid_str uninitialised q k (Some t) ;; mret tt else mret tt) ;; mret (Some shouldPropagate))
                       S (without q k S)).
    { refine (takes_bind _ _ S S _ _ _); [by apply takes_set|]. intros _. unfold r. destruct (existsb (has_key q k) S) eqn:E; cbn [default from_option id].
      - refine (takes_bind _ _ S (without q k S) _ _ (fun _ => takes_ret _ _)).
        refine (takes_bind _ _ S (without q k S) _ _ (fun _ => takes_ret _ _)). by apply (unbind_takes q k m).
      - rewrite without_unbound by done. refine (takes_bind _ _ S S _ (takes_ret _ _) (fun _ => takes_ret _ _)). }
    destruct (Ht s Hs) as (s' & p & Ep & Hs'). apply (bind_throw _ _ s s' (Ret p)); [|done|intros p' _; by apply Htail].
    rewrite (bind_Ret _ _ s s s eq_refl), Em. exact Ep. }
  apply (bind_throw _ _ s s (Ret (Some false))); [|done|intros p _; by apply Htail].
  destruct (decide (op = fedOpReorigin)); [|done]. rewrite (bind_Ret _ _ s s s eq_refl).
  by rewrite (bind_Ret _ _ s s tt (reorigin_nothing _ S HF s)).
Qed.

#[local] Instance headers_contract : Contract HBindings (HChange * Entries) (list HSpec).
Proof.
  refine {| new_spec := []; abs_change := headers_change; permitted := fun c _ => headers_permitted c |}.
  - split; constructor.
  - intros deliverTo [[q k a|q k a] m] s S HR Hp Hl.
    + destruct Hp as [Ha Hok]. by apply (bind_headers_holds deliverTo q k a m s S).
    + destruct (unbind_takes q k m a S Hp s) as (s' & b & E & Hs'); [done|]. cbn. by rewrite E.
Defined.

(** C9: the headers exchange.  After any sequence of binds, unbinds and
    federation operations, with tables that stand for maps without lists and
    doubles, and routed messages, a message that has no header [x-match] and no
    16 bit number above 255 among its headers (the code counts the one and
    throws on the other: see [headers_exchange_flaws]) is offered to exactly the queues
    with a binding that its headers match, once each: all entries of the
    binding but x-match are met by the headers, or any of them. *)
Theorem headers_exchange_correct deliverTo cs m i sq :
  all_permitted (B := HBindings) cs [] -> headers_ok (hmap (msg_id m)) (headers (msg_id m)) ->
  let s := run_commands deliverTo cs (new_Exch (new_bindings (B := HBindings)) i sq) in
  let S := abs_commands (B := HBindings) cs [] in
  exists s' m' l qs, route (matching uuid_str le uninitialised headers) deliverTo m s = (s', (doRoute deliverTo m' l (out s)).2)
    /\ msg_id m' = msg_id m /\ map b_queue l = qs /\ out s' = out s ++ map (Delivered m') qs
    /\ NoDup qs
    /\ forall q, q ∈ qs <-> exists x, x ∈ S /\ h_queue x = q /\ match_spec uuid_str (h_args x) (hmap (msg_id m)) = true.
Proof.
  intros Hp Hg s S. destruct (route_selects (B := HBindings) deliverTo cs m i sq Hp Hg) as (s' & m' & l & E & Em & _ & El & Eo).
  exists s', m', l, (picked (hmap (msg_id m)) S []). destruct (picked_spec (hmap (msg_id m)) S [] ltac:(constructor)) as [Hnd Hq].
  split_and!; [exact E|done|exact El|exact Eo|done|]. intros q. rewrite Hq. split; [|auto]. intros [Hn|]; [by apply elem_of_nil in Hn|done].
Qed.
End system.

(** ** Like values agree when they are equal *)

Lemma agrees_string uuid_str t o t' o' n c :
  setType t = Ret (SVariable n) -> t <> 0xf0 -> header_call (Raw t' o') = Some c -> kind t' = KString ->
  agrees uuid_str (Raw t o) c = bool_decide (o = o').
Proof.
  intros Ht Hv Hc Hk. unfold header_call in Hc. rewrite Hk in Hc. injection Hc as <-. unfold agrees. cbn [vtype text].
  rewrite (proj2 (Z.eqb_neq _ _) Hv), Ht. done.
Qed.

(** unsigned numbers of any width; a number of sixteen bits that is above 255 cannot be sent *)
Lemma agrees_unsigned uuid_str t o w t' o' w' c :
  setType t = Ret (SFixed w) -> kind t = KUint w -> length o = w -> Forall is_byte o -> (w <= 8)%nat ->
  header_call (Raw t' o') = Some c -> kind t' = KUint w' ->
  agrees uuid_str (Raw t o) c = (from_octets o =? from_octets o').
Proof.
  intros Ht Hk Hl Ho Hw Hc Hk'. unfold header_call in Hc. rewrite Hk' in Hc. injection Hc as <-. unfold agrees. cbn [vtype number].
  rewrite Ht. destruct (Z.eqb_spec t 0xf0) as [->|_]; [done|]. cbn [orb]. pose proof (from_octets_range o Ho) as Hr. rewrite Hl in Hr.
  assert (2 ^ (8 * Z.of_nat w) <= 2 ^ 64) by (apply Z.pow_le_mono_r; lia). by rewrite uwrap_small by (unfold is_uint; lia).
Qed.
