(* ===== verification/HeadersSmall.v ===== *)
(** * Small headers exchanges

    A run of the headers exchange, and where matching and federation do not do
    what they are for. *)

From Stdlib Require Import ZArith Lia SpecFloat Ascii String Sorted.
From stdpp Require Import strings.
From S2P Require Import Prelude TopicKey TopicTree Double Buffer FieldTable FieldTableCorrect FieldTableSystem FieldTableSafe Properties Exchange ExchangeBase HeadersExchange HeadersCorrect HeadersSystem.
Local Open Scope Z_scope.

Definition uuid_text (o : list Z) : list Z := o.
Definition never_same (v w : FieldValue) : bool := false.
Definition deliver_all (m : Msg) (q : Queue) : outcome unit := Ret tt.

Definition hq1 : Queue := mkQueue 1 (s_ "orders").
Definition hq2 : Queue := mkQueue 2 (s_ "audit").
Definition hk1 : str := s_ "k1".
Definition hk2 : str := s_ "k2".

(** a table that holds these values *)
Definition table_with (l : list (string * FieldValue)) : FieldTable := mkTable (map (fun p => (bytes_of p.1, p.2)) l) None 0 false.
Definition str_value (s : string) : FieldValue := Str16Value (bytes_of s).
Definition str_plain (s : string) : Value := Raw 0x95 (bytes_of s).
Definition plain_map (l : list (string * Value)) : Entries := map (fun p => (bytes_of p.1, p.2)) l.

(** ** A run *)

Definition binding1 : Entries := plain_map [("colour"%string, str_plain "red"); ("size"%string, Raw 0x22 [0; 0; 0; 7]); ("x-match"%string, str_plain "all")].
Definition binding2 : Entries := plain_map [("colour"%string, str_plain "blue"); ("size"%string, Raw 0x22 [0; 0; 0; 7]); ("x-match"%string, str_plain "any")].
Definition message1 : Entries := plain_map [("colour"%string, str_plain "red"); ("size"%string, Raw 0x32 [0; 0; 0; 0; 0; 0; 0; 7])].
Definition message2 : Entries := plain_map [("colour"%string, str_plain "blue")].
Definition to_table (l : Entries) : FieldTable := mkTable (map (fun p => (p.1, concrete p.2)) l) None 0 false.

Definition small_hmap (id : nat) : Entries := if (id =? 1)%nat then message1 else message2.
Definition small_headers (id : nat) : option FieldTable := Some (to_table (small_hmap id)).
Definition message (id : nat) : Msg := mkMsg [] id None.

Definition small_changes : list (Command (HChange * Entries)) :=
  [ CChange (HBind hq1 hk1 (Some (to_table binding1)), binding1);
    CChange (HBind hq2 hk1 (Some (to_table binding2)), binding2);
    CRoute (message 1);
    CChange (HBind hq2 hk2 (Some (to_table binding1)), binding1);
    CChange (HUnbind hq2 hk1 None, []) ].

Lemma to_table_rep l : StronglySorted name_lt (map fst l) -> Forall name_ok (map fst l) -> Z.of_nat (length l) < 2 ^ 32 -> Forall (fun p => valid p.2) l ->
  table_rep l (to_table l).
Proof.
  intros Hs Hn Hl Hv. apply plain_rep; [by split_and!|]. clear -Hv. induction Hv as [|[k x] l Hx _ IH]; [done|]. split; [|done]. split; [done|]. by apply concrete_rep.
Qed.

(** each fact on a table that is given is computed *)
Definition bytesb (o : list Z) : bool := forallb (fun z => (0 <=? z) && (z <? 256)) o.
Lemma bytesb_ok o : bytesb o = true -> Forall is_byte o.
Proof.
  unfold bytesb. rewrite forallb_forall. intros H. apply Forall_forall. intros z Hz. apply list_elem_of_In, H in Hz.
  apply andb_true_iff in Hz as [?%Z.leb_le ?%Z.ltb_lt]. unfold is_byte, is_uint. lia.
Qed.

Fixpoint sortedb (l : list (list Z)) : bool :=
  match l with
  | [] => true
  | a :: l' => forallb (bytes_lt a) l' && sortedb l'
  end.
Lemma sortedb_ok l : sortedb l = true -> StronglySorted name_lt l.
Proof.
  induction l as [|a l IH]; [constructor|]. simpl. intros [H1 H2]%andb_true_iff. constructor; [by apply IH|].
  apply Forall_forall. intros x Hx. rewrite forallb_forall in H1. by apply H1, list_elem_of_In.
Qed.

(** numbers and strings only *)
Definition rawb (p : list Z * Value) : bool :=
  bytesb p.1 && (Z.of_nat (length p.1) <? 256) &&
  match p.2 with
  | Raw t o => bytesb [t] && bytesb o && match setType t with Ret s => bool_decide (is_Some (raw_data s o)) | Throw _ => false end
  | _ => false
  end.

Lemma raw_table_rep l : sortedb (map fst l) && forallb rawb l && (Z.of_nat (length l) <? 2 ^ 32) = true -> table_rep l (to_table l).
Proof.
  intros [[Hs Hr]%andb_true_iff Hl%Z.ltb_lt]%andb_true_iff. rewrite forallb_forall in Hr.
  apply to_table_rep; [by apply sortedb_ok| |done|].
  - apply Forall_forall. intros k (p & -> & Hp)%list_elem_of_fmap. apply list_elem_of_In, Hr in Hp. unfold rawb in Hp.
    apply andb_true_iff in Hp as [[? ?%Z.ltb_lt]%andb_true_iff _]. split; [by apply bytesb_ok|]. change (2 ^ 8) with 256. done.
  - apply Forall_forall. intros p Hp. apply list_elem_of_In, Hr in Hp. unfold rawb in Hp. apply andb_true_iff in Hp as [_ Hp].
    destruct p as [k [t o| | |]]; try done. cbn [snd] in *. apply andb_true_iff in Hp as [[Ht Ho]%andb_true_iff Hs'].
    destruct (setType t) as [s|] eqn:Es; [|done]. apply bool_decide_eq_true_1 in Hs' as [d Hd].
    split; [apply bytesb_ok in Ht; by apply Forall_inv in Ht|]. split; [by apply bytesb_ok|]. eauto.
Qed.

Lemma small_args_ok l : forallb rawb l && forallb (fun p => negb (vtype p.2 =? 0x33)) (nonfed l) && (tz l <? 2 ^ 32) = true -> args_ok l.
Proof.
  intros [[Hr Hd]%andb_true_iff Hz%Z.ltb_lt]%andb_true_iff. split_and!; [|done|].
  - clear -Hr. cbn [plain]. induction l as [|[k x] l IH]; [done|]. simpl in Hr. apply andb_true_iff in Hr as [Hx Hr]. split; [|by apply IH].
    unfold rawb in Hx. apply andb_true_iff in Hx as [_ Hx]. by destruct x.
  - apply Forall_forall. intros p Hp. rewrite forallb_forall in Hd. apply list_elem_of_In, Hd in Hp. by apply negb_true_iff, Z.eqb_neq in Hp.
Qed.

Lemma small_headers_ok id : headers_ok (small_hmap id) (small_headers id).
Proof.
  unfold small_headers, small_hmap. destruct (id =? 1)%nat.
  all: split_and!; [vm_compute; reflexivity|repeat (apply Forall_cons_2; [vm_compute; discriminate|]); by apply Forall_nil_2|apply raw_table_rep; vm_compute; reflexivity|vm_compute; reflexivity].
Qed.

Lemma zeros_fresh n : 0 <= n -> Z.of_nat (length (zeros n)) = n /\ Forall is_byte (zeros n).
Proof. apply zeros_ok. Qed.

Definition small_run : Exch HBindings :=
  run_commands (H := headers_type uuid_text true zeros never_same small_headers) deliver_all small_changes (new_Exch (mkHBindings None []) false false).
Definition small_spec : list HSpec :=
  abs_commands (H1 := headers_contract uuid_text true zeros never_same small_headers small_hmap zeros_fresh) small_changes [].

Lemma small_permitted :
  all_permitted (H1 := headers_contract uuid_text true zeros never_same small_headers small_hmap zeros_fresh) small_changes [].
Proof.
  split; [split; [apply raw_table_rep|apply small_args_ok]; vm_compute; reflexivity|].
  split; [split; [apply raw_table_rep|apply small_args_ok]; vm_compute; reflexivity|].
  split; [apply small_headers_ok|].
  split; [split; [apply raw_table_rep|apply small_args_ok]; vm_compute; reflexivity|].
  split; [reflexivity|exact I].
Qed.

Lemma headers_exchange_correct_witness :
  map h_queue small_spec = [hq1; hq2]
  /\ exists s' m' l qs, route (matching uuid_text true zeros small_headers) deliver_all (message 1) small_run
        = (s', (doRoute deliver_all m' l (out small_run)).2)
    /\ msg_id m' = msg_id (message 1) /\ map b_queue l = qs /\ out s' = out small_run ++ map (Delivered m') qs
    /\ NoDup qs
    /\ forall q, q ∈ qs <-> exists x, x ∈ small_spec /\ h_queue x = q /\ match_spec uuid_text (h_args x) (small_hmap 1) = true.
Proof.
  split; [vm_compute; reflexivity|].
  apply (headers_exchange_correct uuid_text true zeros never_same small_headers small_hmap zeros_fresh deliver_all small_changes (message 1) false false).
  - apply small_permitted.
  - apply small_headers_ok.
Defined.

(** ** Where it goes wrong *)

(** whether the headers [h] match a binding, each time they are compared with it *)
Fixpoint match_times (n : nat) (h b : FieldTable) : list (outcome bool) :=
  match n with
  | O => []
  | S n => let '(b', r) := match_ uuid_text true zeros (Some h) b in r :: match_times n h b'
  end.
Definition bound_to (l : list (string * FieldValue)) (mode : string) : FieldTable :=
  (insert x_match (str_value mode) (table_with l)).1.

Definition after_headers (cs : list HChange) : Exch HBindings :=
  run_commands (H := headers_type uuid_text true zeros never_same small_headers) deliver_all (map (fun c => CChange (c, [])) cs)
    (new_Exch (mkHBindings None []) false false).
Definition answer_headers (cs : list HChange) (c : HChange) : outcome bool :=
  (command (ExchangeType := headers_type uuid_text true zeros never_same small_headers) deliver_all (c, []) (after_headers cs)).2.

Definition red : FieldTable := bound_to [("colour"%string, str_value "red")] "all".
Definition red_from (op origin : string) : FieldTable :=
  (insert qpidFedOp (str_value op) (insert qpidFedOrigin (str_value origin) red).1).1.
Definition one_half : Z := 0x3fe0000000000000.

(**  where headers exchanges go wrong.  A header x-match of the message is
    counted as an entry that is met: a message that lacks an entry matches all
    of them, and one that has all of them does not.  A string matches the number
    0 and a number the empty string.  A negative number is not matched by
    itself, a float neither, and a double every other time.  A header that is
    an unsigned 16 bit number above 255 makes routing fail.  The origins a
    binding is bound for are not kept: an unbind for any other origin removes
    it, and a reorigin request is not answered.  A binding with an argument of
    the broker's own cannot be repeated, and an unbind of a key that is not
    bound returns true. *)
Theorem headers_exchange_flaws :
  match_times 1 (table_with [("a"%string, str_value "1"); ("x-match"%string, str_value "all")])
      (bound_to [("a"%string, str_value "1"); ("b"%string, str_value "2")] "all") = [Ret true]
  /\ match_times 1 (table_with [("a"%string, str_value "1"); ("b"%string, str_value "2"); ("x-match"%string, str_value "all")])
      (bound_to [("a"%string, str_value "1"); ("b"%string, str_value "2")] "all") = [Ret false]
  /\ match_times 1 (table_with [("a"%string, IntegerValue 0)]) (bound_to [("a"%string, str_value "red")] "all") = [Ret true]
  /\ match_times 1 (table_with [("a"%string, str_value "")]) (bound_to [("a"%string, IntegerValue 5)] "all") = [Ret true]
  /\ match_times 1 (table_with [("a"%string, IntegerValue (-1))]) (bound_to [("a"%string, IntegerValue (-1))] "all") = [Ret false]
  /\ match_times 1 (table_with [("a"%string, FloatValue true 0x3f000000)]) (bound_to [("a"%string, FloatValue true 0x3f000000)] "all") = [Ret false]
  /\ match_times 3 (table_with [("a"%string, DoubleValue true one_half)]) (bound_to [("a"%string, DoubleValue true one_half)] "all")
     = [Ret true; Ret false; Ret true]
  /\ match_times 1 (table_with [("a"%string, Unsigned16Value 256)]) red = [Throw Exception]
  /\ (let cs := [HBind hq1 hk1 (Some (red_from "B" "a"))] in
      hasBindings (bindings (after_headers cs)) = true
      /\ hasBindings (bindings (after_headers (cs ++ [HBind hq1 hk1 (Some (red_from "U" "b"))]))) = false
      /\ answer_headers cs (HBind hq1 hk1 (Some (red_from "B" "a"))) = Throw InternalErrorException)
  /\ (let cs := [HBind hq1 hk1 (Some red)] in
      out (after_headers cs) = [Propagated hk1 [] [] []]
      /\ out (after_headers (cs ++ [HBind hq1 hk1 (Some (red_from "R" ""))])) = [Propagated hk1 [] [] []]
      /\ answer_headers cs (HBind hq1 hk1 (Some red)) = Ret false
      /\ answer_headers cs (HUnbind hq1 hk2 None) = Ret true).
Proof. cbv zeta. split_and!; vm_compute; reflexivity. Qed.
