(* ===== verification/SelectorValue.v ===== *)
(** * Selector values (src/qpid/broker/SelectorValue.h, SelectorValue.cpp)

    [Value] is the tagged union selectors compute with, [BoolOrNone] the three
    truth values, and one definition per operator of SelectorValue.cpp.  A
    [double] is that of Double.v.  An [int64_t] is a [Z]; signed overflow,
    division by zero and [INT64_MIN / -1] are undefined behaviour in C++ and
    are the outcome [Throw UndefinedBehaviour] here. *)

From Stdlib Require Import ZArith Lia SpecFloat Ascii String.
From stdpp Require Import strings.
From S2P Require Import Prelude Double.

(** ** Data *)

Inductive BoolOrNone := BN_FALSE | BN_TRUE | BN_UNKNOWN.

Inductive Value :=
| V_UNKNOWN
| V_BOOL (b : bool)
| V_STRING (s : str)
| V_EXACT (i : Z)
| V_INEXACT (x : double).

#[global] Instance BoolOrNone_eq_dec : EqDecision BoolOrNone.
Proof. solve_decision. Defined.
#[global] Instance Value_eq_dec : EqDecision Value.
Proof. solve_decision. Defined.

(** [BoolOrNone(bool)] and the constructor [Value(BoolOrNone)] *)
Definition bn_of_bool (b : bool) : BoolOrNone := if b then BN_TRUE else BN_FALSE.
Definition Value_of_bn (bn : BoolOrNone) : Value :=
  match bn with
  | BN_UNKNOWN => V_UNKNOWN
  | BN_TRUE => V_BOOL true
  | BN_FALSE => V_BOOL false
  end.

Definition unknown (v : Value) : bool := match v with V_UNKNOWN => true | _ => false end.
Definition numeric (v : Value) : bool :=
  match v with V_EXACT _ | V_INEXACT _ => true | _ => false end.
Definition same_type (v1 v2 : Value) : bool :=
  match v1, v2 with
  | V_UNKNOWN, V_UNKNOWN | V_BOOL _, V_BOOL _ | V_STRING _, V_STRING _
  | V_EXACT _, V_EXACT _ | V_INEXACT _, V_INEXACT _ => true
  | _, _ => false
  end.

(** ** Machine arithmetic *)

Definition INT64_MIN : Z := - 2 ^ 63.
Definition INT64_MAX : Z := 2 ^ 63 - 1.
Definition is_int64 (i : Z) : bool := (INT64_MIN <=? i) && (i <=? INT64_MAX).

(** a signed 64-bit result *)
Definition int64_result (i : Z) : outcome Value :=
  if is_int64 i then Ret (V_EXACT i) else Throw UndefinedBehaviour.

(** ** [NumericPair<T>]

    A pair of numbers of the same type, with the operations of the class;
    [promoteNumeric] builds it, or no pair (a null pointer) when a value is not
    a number. *)

Inductive NumericPair :=
| IntPair (n1 n2 : Z)
| DoublePair (n1 n2 : double).

Definition np_add (p : NumericPair) : outcome Value :=
  match p with
  | IntPair a b => int64_result (a + b)
  | DoublePair a b => Ret (V_INEXACT (dadd a b))
  end.
Definition np_sub (p : NumericPair) : outcome Value :=
  match p with
  | IntPair a b => int64_result (a - b)
  | DoublePair a b => Ret (V_INEXACT (dsub a b))
  end.
Definition np_mul (p : NumericPair) : outcome Value :=
  match p with
  | IntPair a b => int64_result (a * b)
  | DoublePair a b => Ret (V_INEXACT (dmul a b))
  end.
Definition np_div (p : NumericPair) : outcome Value :=
  match p with
  | IntPair a b =>
      if b =? 0 then Throw UndefinedBehaviour else int64_result (Z.quot a b)
  | DoublePair a b => Ret (V_INEXACT (ddiv a b))
  end.

Definition np_eq (p : NumericPair) : bool :=
  match p with IntPair a b => a =? b | DoublePair a b => SFeqb a b end.
Definition np_ne (p : NumericPair) : bool := negb (np_eq p).
Definition np_ls (p : NumericPair) : bool :=
  match p with IntPair a b => a <? b | DoublePair a b => SFltb a b end.
Definition np_gr (p : NumericPair) : bool :=
  match p with IntPair a b => b <? a | DoublePair a b => SFltb b a end.
Definition np_le (p : NumericPair) : bool :=
  match p with IntPair a b => a <=? b | DoublePair a b => SFleb a b end.
Definition np_ge (p : NumericPair) : bool :=
  match p with IntPair a b => b <=? a | DoublePair a b => SFleb b a end.

Definition promoteNumeric (v1 v2 : Value) : option NumericPair :=
  match v1, v2 with
  | V_INEXACT x1, V_INEXACT x2 => Some (DoublePair x1 x2)
  | V_INEXACT x1, V_EXACT i2 => Some (DoublePair x1 (double_of_int i2))
  | V_EXACT i1, V_INEXACT x2 => Some (DoublePair (double_of_int i1) x2)
  | V_EXACT i1, V_EXACT i2 => Some (IntPair i1 i2)
  | _, _ => None
  end.

(** ** The operators *)

Definition op_eq (v1 v2 : Value) : bool :=
  match promoteNumeric v1 v2 with
  | Some p => np_eq p
  | None =>
      match v1, v2 with
      | V_BOOL a, V_BOOL b => Bool.eqb a b
      | V_STRING a, V_STRING b => bool_decide (a = b)
      | _, _ => false
      end
  end.

Definition op_neq (v1 v2 : Value) : bool :=
  match promoteNumeric v1 v2 with
  | Some p => np_ne p
  | None =>
      match v1, v2 with
      | V_BOOL a, V_BOOL b => negb (Bool.eqb a b)
      | V_STRING a, V_STRING b => bool_decide (a ≠ b)
      | _, _ => false
      end
  end.

Definition op_ls (v1 v2 : Value) : bool :=
  match promoteNumeric v1 v2 with Some p => np_ls p | None => false end.
Definition op_gr (v1 v2 : Value) : bool :=
  match promoteNumeric v1 v2 with Some p => np_gr p | None => false end.
Definition op_le (v1 v2 : Value) : bool :=
  match promoteNumeric v1 v2 with Some p => np_le p | None => false end.
Definition op_ge (v1 v2 : Value) : bool :=
  match promoteNumeric v1 v2 with Some p => np_ge p | None => false end.

Definition op_add (v1 v2 : Value) : outcome Value :=
  match promoteNumeric v1 v2 with Some p => np_add p | None => Ret V_UNKNOWN end.
Definition op_sub (v1 v2 : Value) : outcome Value :=
  match promoteNumeric v1 v2 with Some p => np_sub p | None => Ret V_UNKNOWN end.
Definition op_mul (v1 v2 : Value) : outcome Value :=
  match promoteNumeric v1 v2 with Some p => np_mul p | None => Ret V_UNKNOWN end.
Definition op_div (v1 v2 : Value) : outcome Value :=
  match promoteNumeric v1 v2 with Some p => np_div p | None => Ret V_UNKNOWN end.

Definition op_negate (v : Value) : outcome Value :=
  match v with
  | V_EXACT i => int64_result (- i)
  | V_INEXACT x => Ret (V_INEXACT (SFopp x))
  | _ => Ret V_UNKNOWN
  end.

(** ** Lemmas *)

(** A value is well formed when its integer fits its width. *)
Definition value_wf (v : Value) : bool := match v with V_EXACT i => is_int64 i | _ => true end.

Lemma int64_result_wf i v : int64_result i = Ret v -> value_wf v = true.
Proof. unfold int64_result. destruct (is_int64 i) eqn:E; intros; by simplify_eq. Qed.

(** Every arithmetic operator stays within 64 bits, or the program has no
    defined behaviour. *)
Lemma op_arith_wf v1 v2 v :
  op_add v1 v2 = Ret v \/ op_sub v1 v2 = Ret v \/ op_mul v1 v2 = Ret v \/
    op_div v1 v2 = Ret v \/ op_negate v1 = Ret v ->
  value_wf v = true.
Proof.
  unfold op_add, op_sub, op_mul, op_div, op_negate, promoteNumeric.
  intros [H|[H|[H|[H|H]]]]; destruct v1, v2; simpl in *;
    repeat case_match; simplify_eq; eauto using int64_result_wf.
Qed.

Lemma Value_of_bn_unknown bn : unknown (Value_of_bn bn) = bool_decide (bn = BN_UNKNOWN).
Proof. by destruct bn. Qed.

Lemma op_eq_refl_false_unknown v : op_eq V_UNKNOWN v = false /\ op_eq v V_UNKNOWN = false.
Proof. by destruct v. Qed.

(** [=] and [<>] are complementary on values of comparable types, and both are
    false otherwise. *)
Lemma op_neq_eq v1 v2 :
  op_neq v1 v2 =
    (if (numeric v1 && numeric v2) || (same_type v1 v2 && negb (unknown v1))
     then negb (op_eq v1 v2) else false).
Proof.
  unfold op_neq, op_eq, np_ne. destruct v1, v2; simpl; try done.
  by rewrite bool_decide_not.
Qed.

(** On numbers [<=] is the strict order or equality, also when one is a NaN. *)
Lemma op_le_spec v1 v2 :
  op_le v1 v2 = op_ls v1 v2 || (numeric v1 && numeric v2 && op_eq v1 v2).
Proof.
  unfold op_le, op_ls, op_eq.
  destruct v1, v2; simpl; try done; try apply SFleb_or.
  destruct (Z.leb_spec i i0), (Z.ltb_spec i i0), (Z.eqb_spec i i0); simpl; try done; lia.
Qed.
