(* ===== verification/SelectorToken.v ===== *)
(** * Selector tokens (src/qpid/broker/SelectorToken.h, SelectorToken.cpp)

    The lexer of JMS selectors: the hand-written state machine [tokenise] with
    its two helpers for quoted strings and reserved words, and [Tokeniser], the
    buffer of tokens with push-back the parser reads from.  An iterator into
    the selector is the rest of the string from there on.

    [tokenise_exact] says that the state machine recognises exactly the lexical
    grammar [scan] (with the longest match), and [nextToken_spec] and
    [returnTokens_spec] that a [Tokeniser] is a cursor in the token list of the
    whole selector, whatever has been read and pushed back. *)

From Stdlib Require Import ZArith Lia Ascii String.
From stdpp Require Import strings.
From S2P Require Import Prelude.
Local Open Scope char_scope.
Local Open Scope nat_scope.

(** ** Character classes of the C locale *)

Definition code (c : ascii) : nat := nat_of_ascii c.
Definition isspace (c : ascii) : bool := (9 <=? code c) && (code c <=? 13) || (code c =? 32).
Definition isdigit (c : ascii) : bool := (48 <=? code c) && (code c <=? 57).
Definition isupper (c : ascii) : bool := (65 <=? code c) && (code c <=? 90).
Definition islower (c : ascii) : bool := (97 <=? code c) && (code c <=? 122).
Definition isalpha (c : ascii) : bool := isupper c || islower c.
Definition isalnum (c : ascii) : bool := isalpha c || isdigit c.
Definition tolower (c : ascii) : ascii :=
  if isupper c then ascii_of_nat (code c + 32) else c.
(** [char] is signed *)
Definition char_value (c : ascii) : Z := swrap 8 (Z.of_nat (code c)).

Definition isc (c d : ascii) : bool := bool_decide (c = d).

Definition QUOTE : ascii := "'".
Definition NUL : ascii := "000".

(** ** Tokens *)

Inductive TokenType :=
| T_EOS | T_NULL | T_TRUE | T_FALSE | T_NOT | T_AND | T_OR | T_IN | T_IS | T_BETWEEN
| T_LIKE | T_ESCAPE | T_IDENTIFIER | T_STRING | T_NUMERIC_EXACT | T_NUMERIC_APPROX
| T_LPAREN | T_RPAREN | T_COMMA | T_PLUS | T_MINUS | T_MULT | T_DIV
| T_EQUAL | T_NEQ | T_LESS | T_GRT | T_LSEQ | T_GREQ.

#[global] Instance TokenType_eq_dec : EqDecision TokenType.
Proof. solve_decision. Defined.

(** [tokenStart] is only read by [Tokeniser::remaining], which nothing calls,
    and left out. *)
Record Token := mkToken { type : TokenType; val : str }.

#[global] Instance Token_eq_dec : EqDecision Token.
Proof. solve_decision. Defined.

Definition END : str := s_ "<END>".

(** ** Reserved words *)

(** [caseless]: the comparison of two NUL-terminated strings without case.
    The end of a list stands for the NUL. *)
Definition hd_or_nul (s : str) : ascii := match s with c :: _ => c | [] => NUL end.

Fixpoint caseless (s1 s2 : str) : bool :=
  let ls1 := char_value (tolower (hd_or_nul s1)) in
  let ls2 := char_value (tolower (hd_or_nul s2)) in
  if (ls1 <? ls2)%Z then true
  else if (ls2 <? ls1)%Z then false
  else match s1, s2 with
       | c1 :: s1', c2 :: s2' =>
           if isc c1 NUL || isc c2 NUL then false else caseless s1' s2'
       | _, _ => false
       end.

Definition reserved : list (str * TokenType) :=
  [ (s_ "and", T_AND); (s_ "between", T_BETWEEN); (s_ "escape", T_ESCAPE);
    (s_ "false", T_FALSE); (s_ "in", T_IN); (s_ "is", T_IS); (s_ "like", T_LIKE);
    (s_ "not", T_NOT); (s_ "null", T_NULL); (s_ "or", T_OR); (s_ "true", T_TRUE) ].

(** [tokeniseReservedWord]: [std::equal_range] finds the first entry that is
    not before the word; the range is empty when the word is before it. *)
Definition tokeniseReservedWord (tok : Token) : Token * bool :=
  if decide (type tok ≠ T_IDENTIFIER) then (tok, false)
  else
    let word := val tok in
    match (lower_bound (fun e => caseless e.1 word) reserved).2 with
    | [] => (tok, false)
    | e :: _ =>
        if caseless word e.1 then (tok, false) else (mkToken e.2 (val tok), true)
    end.

(** ** Quoted strings *)

(** [std::find(q, e, '\'')]: the characters before the quote and what starts
    with it, or nothing when there is none *)
Fixpoint find_quote (q : str) : option (str * str) :=
  match q with
  | [] => None
  | c :: q' =>
      if isc c QUOTE then Some ([], q)
      else match find_quote q' with Some (a, r) => Some (c :: a, r) | None => None end
  end.

Fixpoint processString_loop (fuel : nat) (content q : str) : outcome (option (str * str)) :=
  match q with
  | c :: q' =>
      if isc c QUOTE then
        match fuel with
        | O => Throw OutOfFuel
        | S fuel' =>
            match find_quote q' with
            | None => Ret None
            | Some (a, r) => processString_loop fuel' (content ++ c :: a) (tail r)
            end
        end
      else Ret (Some (content, q))
  | [] => Ret (Some (content, q))
  end.

(** [s] is at the opening quote *)
Definition processString (s : str) : outcome (option (Token * str)) :=
  match find_quote (tail s) with
  | None => Ret None
  | Some (content, q) =>
      match processString_loop (length s) content (tail q) with
      | Ret (Some (content', q')) => Ret (Some (mkToken T_STRING content', q'))
      | Ret None => Ret None
      | Throw e => Throw e
      end
  end.

(** ** The state machine *)

Definition isIdentifierStart (c : ascii) : bool := isalpha c || isc c "_" || isc c "$".
Definition isIdentifierPart (c : ascii) : bool :=
  isalnum c || isc c "_" || isc c "$" || isc c ".".

Inductive lex_state :=
| START | REJECT | IDENTIFIER | DIGIT | DECIMAL_START | DECIMAL
| EXPONENT_SIGN | EXPONENT_START | EXPONENT
| ACCEPT_IDENTIFIER | ACCEPT_INC | ACCEPT_NOINC.

(** The loop's variables: [state], [tokType], the text between [s] and [t], and
    the string from [t] on. *)
Record lex_cfg := mkCfg { state : lex_state; tokType : TokenType; text : str; at_t : str }.

Definition lex_result : Type := outcome (option (Token * str)).

(** [++t] and a new state *)
Definition advance_to (st : lex_state) (c : lex_cfg) : lex_cfg :=
  match at_t c with
  | x :: t => mkCfg st (tokType c) (text c ++ [x]) t
  | [] => mkCfg st (tokType c) (text c) []
  end.
Definition goto (st : lex_state) (c : lex_cfg) : lex_cfg :=
  mkCfg st (tokType c) (text c) (at_t c).
Definition accept (ty : TokenType) (st : lex_state) (c : lex_cfg) : lex_cfg :=
  mkCfg st ty (text c) (at_t c).
Definition next_is (c : lex_cfg) (p : ascii -> bool) : bool :=
  match at_t c with x :: _ => p x | [] => false end.

Definition isE (x : ascii) : bool := isc x "e" || isc x "E".
Definition isSign (x : ascii) : bool := isc x "-" || isc x "+".

(** [case START] *)
Definition start_step (c : lex_cfg) : lex_cfg + lex_result :=
  match at_t c with
  | [] => inr (Ret (Some (mkToken T_EOS END, [])))
  | x :: _ =>
      if isc x "(" then inl (accept T_LPAREN ACCEPT_INC c)
      else if isc x ")" then inl (accept T_RPAREN ACCEPT_INC c)
      else if isc x "," then inl (accept T_COMMA ACCEPT_INC c)
      else if isc x "+" then inl (accept T_PLUS ACCEPT_INC c)
      else if isc x "-" then inl (accept T_MINUS ACCEPT_INC c)
      else if isc x "*" then inl (accept T_MULT ACCEPT_INC c)
      else if isc x "/" then inl (accept T_DIV ACCEPT_INC c)
      else if isc x "=" then inl (accept T_EQUAL ACCEPT_INC c)
      else if isc x "<" then
        let c' := advance_to START c in
        if next_is c' (fun y => isc y ">" || isc y "=")
        then inl (accept (if next_is c' (fun y => isc y ">") then T_NEQ else T_LSEQ) ACCEPT_INC c')
        else inl (accept T_LESS ACCEPT_NOINC c')
      else if isc x ">" then
        let c' := advance_to START c in
        if next_is c' (fun y => isc y "=")
        then inl (accept T_GREQ ACCEPT_INC c')
        else inl (accept T_GRT ACCEPT_NOINC c')
      else if isIdentifierStart x then inl (advance_to IDENTIFIER c)
      else if isc x QUOTE then inr (processString (text c ++ at_t c))
      else if isdigit x then inl (advance_to DIGIT c)
      else if isc x "." then inl (advance_to DECIMAL_START c)
      else inl (goto REJECT c)
  end.

(** one iteration of the loop *)
Definition lex_step (c : lex_cfg) : lex_cfg + lex_result :=
  match state c with
  | START => start_step c
  | IDENTIFIER =>
      inl (if next_is c isIdentifierPart then advance_to IDENTIFIER c
           else goto ACCEPT_IDENTIFIER c)
  | DECIMAL_START =>
      inl (if next_is c isdigit then advance_to DECIMAL c else goto REJECT c)
  | EXPONENT_SIGN =>
      inl (if next_is c isSign then advance_to EXPONENT_START c
           else if next_is c isdigit then advance_to EXPONENT c
           else goto REJECT c)
  | EXPONENT_START =>
      inl (if next_is c isdigit then advance_to EXPONENT c else goto REJECT c)
  | DIGIT =>
      inl (if next_is c isdigit then advance_to DIGIT c
           else if next_is c (fun x => isc x ".") then advance_to DECIMAL c
           else if next_is c isE then advance_to EXPONENT_SIGN c
           else accept T_NUMERIC_EXACT ACCEPT_NOINC c)
  | DECIMAL =>
      inl (if next_is c isdigit then advance_to DECIMAL c
           else if next_is c isE then advance_to EXPONENT_SIGN c
           else accept T_NUMERIC_APPROX ACCEPT_NOINC c)
  | EXPONENT =>
      inl (if next_is c isdigit then advance_to EXPONENT c
           else accept T_NUMERIC_APPROX ACCEPT_NOINC c)
  | ACCEPT_INC => inl (advance_to ACCEPT_NOINC c)
  | ACCEPT_NOINC => inr (Ret (Some (mkToken (tokType c) (text c), at_t c)))
  | ACCEPT_IDENTIFIER =>
      inr (Ret (Some ((tokeniseReservedWord (mkToken T_IDENTIFIER (text c))).1, at_t c)))
  | REJECT => inr (Ret None)
  end.

Fixpoint lex_loop (fuel : nat) (c : lex_cfg) : lex_result :=
  match fuel with
  | O => Throw OutOfFuel
  | S fuel' =>
      match lex_step c with
      | inl c' => lex_loop fuel' c'
      | inr r => r
      end
  end.

(** [tokenise]: the token and the new value of [s], or [None] for [false].
    Every iteration but the last two moves [t]. *)
Definition tokenise (s : str) : lex_result :=
  lex_loop (4 + length s) (mkCfg START T_EOS [] s).

(** ** The tokeniser *)

Fixpoint skipWS (s : str) : str :=
  match s with
  | c :: s' => if isspace c then skipWS s' else s
  | [] => []
  end.

Record Tokeniser := mkTokeniser { tokens : list Token; tokp : nat; inp : str }.

Definition new_Tokeniser (s : str) : Tokeniser := mkTokeniser [] 0 s.

(** A [Token()] that has not been assigned is pushed before the token is
    recognised and stays there when it is not. *)
Definition blank_token : Token := mkToken T_EOS [].

Definition nextToken : M Tokeniser Token := fun t =>
  match tokens t !! tokp t with
  | Some tok => (mkTokeniser (tokens t) (S (tokp t)) (inp t), Ret tok)
  | None =>
      match (if tokp t =? 0 then None else tokens t !! (tokp t - 1)) with
      | Some (mkToken T_EOS v) => (t, Ret (mkToken T_EOS v))
      | _ =>
          let inp' := skipWS (inp t) in
          match tokenise inp' with
          | Ret (Some (tok, inp'')) =>
              (mkTokeniser (tokens t ++ [tok]) (S (tokp t)) inp'', Ret tok)
          | Ret None =>
              (mkTokeniser (tokens t ++ [blank_token]) (S (tokp t)) inp', Throw TokenException)
          | Throw e => (mkTokeniser (tokens t ++ [blank_token]) (S (tokp t)) inp', Throw e)
          end
      end
  end.

(** [returnTokens(n)], called with the default [n = 1] *)
Definition returnTokens (n : nat) : M Tokeniser unit := fun t =>
  if n <=? tokp t then (mkTokeniser (tokens t) (tokp t - n) (inp t), Ret tt)
  else (t, Throw AssertionFailed).

(** ** The lexical grammar

    The grammar in the comment of SelectorExpression.cpp, token by token, with
    the characters that may not follow a token: the lexer takes the longest
    match. *)

Definition next_not (p : ascii -> bool) (rest : str) : Prop :=
  match rest with x :: _ => p x = false | [] => True end.

Definition all_digits (w : str) : Prop := Forall (fun c => isdigit c = true) w.
Definition digits (w : str) : Prop := w ≠ [] /\ all_digits w.

Inductive mantissa : str -> Prop :=
| mantissa_int ds fs : digits ds -> all_digits fs -> mantissa (ds ++ "." :: fs)
| mantissa_frac fs : digits fs -> mantissa ("." :: fs).

Inductive exponent : str -> Prop :=
| exponent_intro e sg ds :
    isE e = true -> sg = [] \/ (exists c, isSign c = true /\ sg = [c]) -> digits ds ->
    exponent (e :: sg ++ ds).

Definition nothing (_ : ascii) : bool := false.

Definition punctuation : list (str * TokenType * (ascii -> bool)) :=
  [ (["("], T_LPAREN, nothing); ([")"], T_RPAREN, nothing); ([","], T_COMMA, nothing);
    (["+"], T_PLUS, nothing); (["-"], T_MINUS, nothing); (["*"], T_MULT, nothing);
    (["/"], T_DIV, nothing); (["="], T_EQUAL, nothing);
    (["<"], T_LESS, fun y => isc y ">" || isc y "="); (["<"; ">"], T_NEQ, nothing);
    (["<"; "="], T_LSEQ, nothing);
    ([">"], T_GRT, fun y => isc y "="); ([">"; "="], T_GREQ, nothing) ].

(** the type of a word: reserved words are recognised without case *)
Definition word_type (w : str) : TokenType :=
  match filter (fun e => e.1 = map tolower w) reserved with
  | e :: _ => e.2
  | [] => T_IDENTIFIER
  end.

(** the text of a string literal: quotes are doubled *)
Fixpoint quote_body (v : str) : str :=
  match v with
  | [] => []
  | c :: v' => if isc c QUOTE then QUOTE :: QUOTE :: quote_body v' else c :: quote_body v'
  end.
Definition quote (v : str) : str := QUOTE :: quote_body v ++ [QUOTE].

(** [scan w ty v rest]: the text [w], before [rest], is a token of type [ty]
    with the value [v] *)
Inductive scan : str -> TokenType -> str -> str -> Prop :=
| scan_punct w ty p rest : (w, ty, p) ∈ punctuation -> next_not p rest -> scan w ty w rest
| scan_word c w rest :
    isIdentifierStart c = true -> Forall (fun x => isIdentifierPart x = true) w ->
    next_not isIdentifierPart rest -> scan (c :: w) (word_type (c :: w)) (c :: w) rest
| scan_string v rest : next_not (fun x => isc x QUOTE) rest -> scan (quote v) T_STRING v rest
| scan_exact w rest :
    digits w -> next_not (fun x => isdigit x || isc x "." || isE x) rest ->
    scan w T_NUMERIC_EXACT w rest
| scan_approx w rest :
    mantissa w -> next_not (fun x => isdigit x || isE x) rest -> scan w T_NUMERIC_APPROX w rest
| scan_approx_exp m x rest :
    mantissa m \/ digits m -> exponent x -> next_not isdigit rest ->
    scan (m ++ x) T_NUMERIC_APPROX (m ++ x) rest.

(** ** Characters *)

Lemma isc_true c d : isc c d = true <-> c = d.
Proof. apply bool_decide_eq_true. Qed.
Lemma isc_false c d : isc c d = false <-> c ≠ d.
Proof. apply bool_decide_eq_false. Qed.

Lemma code_bound c : code c < 256.
Proof. apply nat_ascii_bounded. Qed.

Lemma char_value_inj c d : char_value c = char_value d -> c = d.
Proof.
  intros H. rewrite <- (ascii_nat_embedding c), <- (ascii_nat_embedding d). f_equal.
  pose proof (code_bound c) as Hc. pose proof (code_bound d) as Hd.
  unfold char_value, swrap, code in *. change (2 ^ 8)%Z with 256%Z in H.
  change (2 ^ (8 - 1))%Z with 128%Z in H.
  pose proof (Z.div_mod (Z.of_nat (nat_of_ascii c) + 128) 256).
  pose proof (Z.div_mod (Z.of_nat (nat_of_ascii d) + 128) 256). lia.
Qed.

(** a property of characters, checked on each of them *)
Lemma all_chars (p : ascii -> bool) :
  forallb (fun n => p (ascii_of_nat n)) (seq 0 256) = true -> forall c, p c = true.
Proof.
  intros H c. rewrite forallb_forall in H. rewrite <- (ascii_nat_embedding c).
  apply H, in_seq. pose proof (code_bound c). unfold code in *. lia.
Qed.

Lemma tolower_idem c : tolower (tolower c) = tolower c.
Proof.
  apply isc_true. apply (all_chars (fun c => isc (tolower (tolower c)) (tolower c))).
  vm_compute. reflexivity.
Qed.

Lemma tolower_nul c : isc (tolower c) NUL = isc c NUL.
Proof.
  apply Bool.eqb_true_iff.
  apply (all_chars (fun c => Bool.eqb (isc (tolower c) NUL) (isc c NUL))).
  vm_compute. reflexivity.
Qed.

Lemma identifier_no_nul c : isIdentifierPart c = true -> c ≠ NUL.
Proof. by intros H ->. Qed.

Lemma identifier_start_part c : isIdentifierStart c = true -> isIdentifierPart c = true.
Proof.
  unfold isIdentifierStart, isIdentifierPart, isalnum.
  destruct (isalpha c), (isc c "_"), (isc c "$"), (isdigit c); done.
Qed.

(** ** Reserved words *)

Lemma caseless_lower a b : caseless (map tolower a) b = caseless a b.
Proof.
  revert b. induction a as [|c a IH]; intros b; [done|].
  destruct b as [|d b]; cbn [caseless map hd_or_nul]; rewrite tolower_idem; [done|].
  by rewrite tolower_nul, IH.
Qed.

Lemma caseless_lower_r a b : caseless a (map tolower b) = caseless a b.
Proof.
  revert b. induction a as [|c a IH]; intros [|d b]; cbn [caseless map hd_or_nul]; try done.
  - by rewrite tolower_idem.
  - by rewrite tolower_idem, tolower_nul, IH.
Qed.

(** neither before the other: the same word but for the case *)
Lemma caseless_eq a b :
  NUL ∉ a -> NUL ∉ b -> caseless a b = false -> caseless b a = false ->
  map tolower a = map tolower b.
Proof.
  revert b. induction a as [|c a IH]; intros [|d b] Ha Hb H1 H2; [done| | |];
    cbn [caseless hd_or_nul] in H1, H2;
    rewrite ?not_elem_of_cons in Ha; rewrite ?not_elem_of_cons in Hb.
  - exfalso. destruct Hb as [Hd _].
    assert (tolower NUL ≠ tolower d) as Hne.
    { intros E. apply Hd. symmetry. apply isc_true. rewrite <- tolower_nul, <- E. done. }
    apply Hne, char_value_inj. repeat case_match; try done; lia.
  - exfalso. destruct Ha as [Hc _].
    assert (tolower c ≠ tolower NUL) as Hne.
    { intros E. apply Hc. symmetry. apply isc_true. rewrite <- tolower_nul, E. done. }
    apply Hne, char_value_inj. repeat case_match; try done; lia.
  - destruct Ha as [Hc Ha], Hb as [Hd Hb].
    destruct (Z.ltb_spec (char_value (tolower c)) (char_value (tolower d))); [done|].
    destruct (Z.ltb_spec (char_value (tolower d)) (char_value (tolower c))); [done|].
    rewrite (proj2 (isc_false c NUL)), (proj2 (isc_false d NUL)) in H1 by done.
    rewrite (proj2 (isc_false c NUL)), (proj2 (isc_false d NUL)) in H2 by done.
    cbn [map]. f_equal; [apply char_value_inj; lia|by apply IH].
Qed.

Lemma reserved_no_nul e : e ∈ reserved -> NUL ∉ e.1 /\ map tolower e.1 = e.1.
Proof.
  assert (Forall (fun e => NUL ∉ e.1 /\ map tolower e.1 = e.1) reserved) as H.
  { repeat constructor; cbn; try (vm_compute; reflexivity);
      apply (bool_decide_unpack (NUL ∉ _)); vm_compute; exact I. }
  rewrite Forall_forall in H. apply H.
Qed.

(** [tokeniseReservedWord] finds exactly the reserved words. *)
Lemma tokeniseReservedWord_spec w :
  NUL ∉ w ->
  (tokeniseReservedWord (mkToken T_IDENTIFIER w)).1 = mkToken (word_type w) w.
Proof.
  intros Hw. unfold tokeniseReservedWord, word_type. cbn [type val].
  rewrite decide_False by (intros H; by apply H).
  destruct (decide (Exists (fun e => e.1 = map tolower w) reserved)) as [Hex|Hnex].
  - apply Exists_exists in Hex as (e & He & Hlow).
    assert (Hlb : lower_bound (fun e => caseless e.1 w) reserved =
                  lower_bound (fun e' => caseless e'.1 e.1) reserved).
    { rewrite Hlow. generalize reserved. intros l.
      induction l as [|x l IH]; simpl; [done|]. by rewrite IH, caseless_lower_r. }
    rewrite Hlb. rewrite <- Hlow.
    clear Hlb. unfold reserved in *.
    repeat (apply elem_of_cons in He as [->|He];
      [cbn [fst] in *; vm_compute lower_bound; cbn [snd fst];
       rewrite <- (caseless_lower w), <- Hlow; vm_compute; reflexivity|]).
    by apply elem_of_nil in He.
  - assert (Hf : filter (fun e => e.1 = map tolower w) reserved = []).
    { apply elem_of_nil_inv. intros e He. apply list_elem_of_filter in He as [He1 He2].
      apply Hnex, Exists_exists. by exists e. }
    rewrite Hf. destruct (lower_bound _ reserved) as [pre post] eqn:Hlb. cbn [snd].
    destruct post as [|e post]; [done|]. destruct (caseless w e.1) eqn:E; [done|].
    exfalso. apply Hnex, Exists_exists. exists e.
    assert (e ∈ reserved) as He.
    { apply lower_bound_app in Hlb. rewrite Hlb, elem_of_app. right. left. }
    split; [done|]. apply reserved_no_nul in He as [Hn Hl].
    apply lower_bound_post in Hlb. symmetry. rewrite <- Hl. by apply caseless_eq.
Qed.

(** ** Quoted strings *)

Lemma find_quote_Some q a r :
  find_quote q = Some (a, r) -> QUOTE ∉ a /\ exists r', r = QUOTE :: r' /\ q = a ++ r.
Proof.
  revert a r. induction q as [|c q IH]; intros a r H; [done|]. cbn [find_quote] in H.
  destruct (isc c QUOTE) eqn:E.
  - apply isc_true in E as ->. simplify_eq. split; [apply not_elem_of_nil|]. by exists q.
  - destruct (find_quote q) as [[a' r'']|]; simplify_eq.
    destruct (IH a' r eq_refl) as (Ha & r' & -> & ->). apply isc_false in E.
    split; [by apply not_elem_of_cons|]. by exists r'.
Qed.

Lemma quote_body_app v w : quote_body (v ++ w) = quote_body v ++ quote_body w.
Proof.
  induction v as [|c v IH]; [done|]. cbn [quote_body app].
  destruct (isc c QUOTE); by rewrite IH.
Qed.

Lemma quote_body_id v : QUOTE ∉ v -> quote_body v = v.
Proof.
  induction v as [|c v IH]; [done|]. intros [Hc Hv]%not_elem_of_cons. cbn [quote_body].
  rewrite (proj2 (isc_false c QUOTE)) by done. by rewrite IH.
Qed.

Lemma processString_loop_sound fuel content q :
  length q < fuel ->
  match processString_loop fuel content q with
  | Ret (Some (content', q')) =>
      quote_body content ++ QUOTE :: q = quote_body content' ++ QUOTE :: q' /\
        next_not (fun x => isc x QUOTE) q'
  | Ret None => True
  | Throw _ => False
  end.
Proof.
  revert content q. induction fuel as [|fuel IH]; intros content q Hf; [lia|].
  destruct q as [|c q]; cbn [processString_loop]; [done|].
  destruct (isc c QUOTE) eqn:E; [|split; [done|exact E]].
  apply isc_true in E as ->. destruct (find_quote q) as [[a r]|] eqn:F; [|done].
  apply find_quote_Some in F as (Ha & r' & -> & ->). cbn [tail].
  cbn [length] in Hf. rewrite length_app in Hf. cbn [length] in Hf.
  specialize (IH (content ++ QUOTE :: a) r' ltac:(lia)).
  destruct (processString_loop fuel _ r') as [[[content' q']|]|]; [|done|done].
  destruct IH as [IH Hn]. split; [|done]. rewrite <- IH, quote_body_app.
  change (quote_body (QUOTE :: a)) with (QUOTE :: QUOTE :: quote_body a).
  rewrite (quote_body_id a Ha), <- app_assoc. done.
Qed.

Lemma processString_loop_complete v content rest fuel :
  next_not (fun x => isc x QUOTE) rest -> length v < fuel ->
  exists a r, find_quote (quote_body v ++ QUOTE :: rest) = Some (a, r) /\
    processString_loop fuel (content ++ a) (tail r) = Ret (Some (content ++ v, rest)).
Proof.
  intros Hrest. revert content fuel. induction v as [|c v IH]; intros content fuel Hf.
  - exists [], (QUOTE :: rest). split; [done|]. cbn [tail]. rewrite app_nil_r.
    destruct rest as [|x rest]; destruct fuel; try (cbn in Hf; lia); [done|].
    cbn [processString_loop]. cbn [next_not] in Hrest. by rewrite Hrest.
  - cbn [quote_body length] in *. destruct (isc c QUOTE) eqn:E.
    + apply isc_true in E as ->.
      exists [], (QUOTE :: QUOTE :: quote_body v ++ QUOTE :: rest).
      split; [done|]. destruct fuel as [|fuel]; [lia|]. rewrite app_nil_r.
      cbn [tail processString_loop]. change (isc QUOTE QUOTE) with true. cbn iota.
      destruct (IH (content ++ [QUOTE]) fuel ltac:(lia)) as (a & r & -> & H).
      rewrite <- !app_assoc in H. cbn [app] in H. done.
    + destruct (IH (content ++ [c]) fuel ltac:(lia)) as (a & r & Hq & H).
      exists (c :: a), r. cbn [app find_quote]. rewrite E, Hq.
      rewrite <- !app_assoc in H. done.
Qed.

(** Reading a string literal: the code accepts exactly the texts [quote v]. *)
Lemma processString_sound s :
  match processString (QUOTE :: s) with
  | Ret (Some (tok, rest)) =>
      exists v, tok = mkToken T_STRING v /\ QUOTE :: s = quote v ++ rest /\
        next_not (fun x => isc x QUOTE) rest
  | Ret None => True
  | Throw _ => False
  end.
Proof.
  unfold processString. cbn [tail]. destruct (find_quote s) as [[a r]|] eqn:F; [|done].
  apply find_quote_Some in F as (Ha & r' & -> & ->). cbn [tail].
  pose proof (processString_loop_sound (length (QUOTE :: a ++ QUOTE :: r')) a r') as H.
  cbn [length] in H. rewrite length_app in H. cbn [length] in H. specialize (H ltac:(lia)).
  cbn [length]. rewrite length_app. cbn [length].
  destruct (processString_loop _ a r') as [[[v q]|]|]; [|done|done].
  exists v. destruct H as [H Hn]. rewrite (quote_body_id a Ha) in H.
  unfold quote. cbn [app]. rewrite <- app_assoc. cbn [app]. by rewrite H.
Qed.

Lemma length_quote_body v : length v <= length (quote_body v).
Proof. induction v as [|c v IH]; cbn; [lia|]. destruct (isc c QUOTE); cbn; lia. Qed.

Lemma processString_complete v rest :
  next_not (fun x => isc x QUOTE) rest ->
  processString (quote v ++ rest) = Ret (Some (mkToken T_STRING v, rest)).
Proof.
  intros Hrest. unfold processString, quote. cbn [app tail]. rewrite <- app_assoc. cbn [app].
  destruct (processString_loop_complete v [] rest
    (length (QUOTE :: quote_body v ++ QUOTE :: rest)) Hrest) as (a & r & Hq & H).
  { cbn [length]. rewrite length_app. pose proof (length_quote_body v). lia. }
  rewrite Hq. cbn [app] in H. by rewrite H.
Qed.

(** ** The state machine is sound *)

Definition is_word (w : str) : Prop :=
  exists c w', w = c :: w' /\ isIdentifierStart c = true /\
    Forall (fun x => isIdentifierPart x = true) w'.

(** a number up to and with the [e] of its exponent *)
Definition before_exponent (w m : str) (e : ascii) : Prop :=
  (mantissa m \/ digits m) /\ isE e = true /\ w = m ++ [e].

(** what the text read so far is in each state *)
Definition state_ok (c : lex_cfg) : Prop :=
  let w := text c in
  match state c with
  | START => w = []
  | REJECT => True
  | IDENTIFIER => is_word w
  | DIGIT => digits w
  | DECIMAL_START => w = ["."]
  | DECIMAL => mantissa w
  | EXPONENT_SIGN => exists m e, before_exponent w m e
  | EXPONENT_START => exists m e x, before_exponent (m ++ [e]) m e /\ isSign x = true /\
                                     w = m ++ [e; x]
  | EXPONENT => exists m x, (mantissa m \/ digits m) /\ exponent x /\ w = m ++ x
  | ACCEPT_IDENTIFIER => is_word w /\ next_not isIdentifierPart (at_t c)
  | ACCEPT_INC => exists x t, at_t c = x :: t /\ scan (w ++ [x]) (tokType c) (w ++ [x]) t
  | ACCEPT_NOINC => scan w (tokType c) w (at_t c)
  end.

(** a bound on the iterations left *)
Definition lex_measure (c : lex_cfg) : nat :=
  match state c with
  | START => 3 + length (at_t c)
  | ACCEPT_INC => 2
  | ACCEPT_NOINC | ACCEPT_IDENTIFIER | REJECT => 1
  | _ => 2 + length (at_t c)
  end.

Definition result_ok (s : str) (r : lex_result) : Prop :=
  match r with
  | Ret (Some (tok, rest)) =>
      (s = [] /\ tok = mkToken T_EOS END /\ rest = []) \/
      (exists w, s = w ++ rest /\ scan w (type tok) (val tok) rest)
  | Ret None => True
  | Throw _ => False
  end.

Lemma all_digits_snoc w x : all_digits w -> isdigit x = true -> all_digits (w ++ [x]).
Proof. intros. apply Forall_app. split; [done|]. by constructor. Qed.

Lemma digits_snoc w x : digits w -> isdigit x = true -> digits (w ++ [x]).
Proof. intros [Hw H] Hx. split; [by destruct w|by apply all_digits_snoc]. Qed.

Lemma digits_one x : isdigit x = true -> digits [x].
Proof. intros. split; [done|]. by constructor. Qed.

Lemma mantissa_snoc w x : mantissa w -> isdigit x = true -> mantissa (w ++ [x]).
Proof.
  intros [ds fs Hd Hf|fs Hf] Hx.
  - rewrite <- app_assoc. cbn [app]. constructor; [done|by apply all_digits_snoc].
  - cbn [app]. constructor. by apply digits_snoc.
Qed.

Lemma exponent_snoc w x : exponent w -> isdigit x = true -> exponent (w ++ [x]).
Proof.
  intros [e sg ds He Hs Hd] Hx. cbn [app]. rewrite <- app_assoc.
  constructor; [done|done|by apply digits_snoc].
Qed.

#[export] Hint Resolve all_digits_snoc digits_snoc digits_one mantissa_snoc exponent_snoc : qpid.

Lemma is_word_no_nul w : is_word w -> NUL ∉ w.
Proof.
  intros (c & w' & -> & Hc & Hw) H. rewrite Forall_forall in Hw.
  apply elem_of_cons in H as [<-|H].
  - by apply identifier_start_part, identifier_no_nul in Hc.
  - by apply Hw, identifier_no_nul in H.
Qed.

Ltac in_punctuation := unfold punctuation; repeat first [left | right].

Lemma scan_punct_nothing w ty rest :
  (w, ty, nothing) ∈ punctuation -> scan w ty w rest.
Proof. intros H. eapply scan_punct; [exact H|]. by destruct rest. Qed.

(** after [<] and [>] *)
Lemma after_less_ok t :
  state_ok (match t with
            | y :: _ =>
                if isc y ">" || isc y "="
                then mkCfg ACCEPT_INC (if isc y ">" then T_NEQ else T_LSEQ) ["<"] t
                else mkCfg ACCEPT_NOINC T_LESS ["<"] t
            | [] => mkCfg ACCEPT_NOINC T_LESS ["<"] []
            end).
Proof.
  destruct t as [|y t].
  - eapply scan_punct; [in_punctuation|done].
  - destruct (isc y ">" || isc y "=") eqn:E.
    + exists y, t. split; [done|]. destruct (isc y ">") eqn:E1.
      * apply isc_true in E1 as ->. apply scan_punct_nothing. in_punctuation.
      * apply isc_true in E as ->. apply scan_punct_nothing. in_punctuation.
    + eapply scan_punct; [in_punctuation|exact E].
Qed.

Lemma after_greater_ok t :
  state_ok (match t with
            | y :: _ =>
                if isc y "=" then mkCfg ACCEPT_INC T_GREQ [">"] t
                else mkCfg ACCEPT_NOINC T_GRT [">"] t
            | [] => mkCfg ACCEPT_NOINC T_GRT [">"] []
            end).
Proof.
  destruct t as [|y t].
  - eapply scan_punct; [in_punctuation|done].
  - destruct (isc y "=") eqn:E.
    + exists y, t. split; [done|]. apply isc_true in E as ->.
      apply scan_punct_nothing. in_punctuation.
    + eapply scan_punct; [in_punctuation|exact E].
Qed.

Definition step_ok (s : str) (c : lex_cfg) (r : lex_cfg + lex_result) : Prop :=
  match r with
  | inl c' => state_ok c' /\ text c' ++ at_t c' = s /\ lex_measure c' < lex_measure c
  | inr r => result_ok s r
  end.

Lemma start_step_ok s ty :
  step_ok s (mkCfg START ty [] s) (start_step (mkCfg START ty [] s)).
Proof.
  unfold start_step. cbn [at_t]. destruct s as [|x t]; [by left|].
  do 8 (destruct (isc x _) eqn:E;
    [apply isc_true in E as ->; split; [|cbn; split; [done|lia]];
     eexists _, t; split; [done|]; apply scan_punct_nothing; in_punctuation|clear E]).
  destruct (isc x "<") eqn:E; [|clear E; destruct (isc x ">") eqn:E; [|clear E]].
  - apply isc_true in E as ->. pose proof (after_less_ok t) as H.
    unfold next_is, advance_to, accept. cbn [at_t text tokType app].
    destruct t as [|y t]; [split; [done|cbn; split; [done|lia]]|].
    destruct (isc y ">" || isc y "="); (split; [done|cbn; split; [done|lia]]).
  - apply isc_true in E as ->. pose proof (after_greater_ok t) as H.
    unfold next_is, advance_to, accept. cbn [at_t text tokType app].
    destruct t as [|y t]; [split; [done|cbn; split; [done|lia]]|].
    destruct (isc y "="); (split; [done|cbn; split; [done|lia]]).
  - destruct (isIdentifierStart x) eqn:E1.
    { split; [|cbn; split; [done|lia]]. exists x, []. split_and!; [done|done|constructor]. }
    destruct (isc x QUOTE) eqn:E2.
    { apply isc_true in E2 as ->. cbn [text app]. pose proof (processString_sound t) as H.
      cbn [step_ok]. unfold result_ok.
      destruct (processString (QUOTE :: t)) as [[[tok rest]|]|]; [|done|done].
      destruct H as (v & -> & Hs & Hn). right. exists (quote v). split; [done|].
      by apply scan_string. }
    destruct (isdigit x) eqn:E3.
    { split; [|cbn; split; [done|lia]]. by apply digits_one. }
    destruct (isc x ".") eqn:E4.
    { apply isc_true in E4 as ->. split; [done|cbn; split; [done|lia]]. }
    split; [done|cbn; split; [done|lia]].
Qed.

Lemma next_not_orb p q t :
  next_not p t -> next_not q t -> next_not (fun x => p x || q x) t.
Proof. destruct t as [|x t]; [done|]. cbn. by intros -> ->. Qed.

(** a looping state: advance over a character of its class *)
Lemma next_is_true c p : next_is c p = true -> exists x t, at_t c = x :: t /\ p x = true.
Proof. unfold next_is. destruct (at_t c) as [|x t]; [done|]. eauto. Qed.
Lemma next_is_false c p : next_is c p = false -> next_not p (at_t c).
Proof. unfold next_is. by destruct (at_t c). Qed.

Lemma lex_advance_ok s c st x t :
  text c ++ at_t c = s -> at_t c = x :: t ->
  state_ok (mkCfg st (tokType c) (text c ++ [x]) t) ->
  lex_measure (mkCfg st (tokType c) (text c ++ [x]) t) < lex_measure c ->
  step_ok s c (inl (advance_to st c)).
Proof.
  intros Hs Hx Hok Hm. unfold advance_to. rewrite Hx. split; [done|]. split; [|done].
  cbn [text at_t]. rewrite <- app_assoc. cbn [app]. by rewrite <- Hx.
Qed.

Ltac try_next c p :=
  let H := fresh "Hn" in
  destruct (next_is c p) eqn:H;
  [apply next_is_true in H as (x & t & Hx & Hp);
   eapply lex_advance_ok; [done|exact Hx| |]
  |apply next_is_false in H].

(** the measure of a state that moves on *)
Ltac smaller := unfold lex_measure, goto, accept; cbn [state at_t]; repeat match goal with
  | H : state ?c = _ |- _ => rewrite H | H : at_t ?c = _ |- _ => rewrite H end;
  cbn [length]; lia.

Lemma number_step_ok s c :
  state_ok c -> text c ++ at_t c = s ->
  state c ∈ [DIGIT; DECIMAL_START; DECIMAL; EXPONENT_SIGN; EXPONENT_START; EXPONENT] ->
  step_ok s c (lex_step c).
Proof.
  intros Hok Hs Hst. unfold state_ok, lex_step in *.
  repeat (apply elem_of_cons in Hst as [Hst|Hst]); [..|by apply elem_of_nil in Hst];
    rewrite Hst in *.
  - try_next c isdigit; [cbn; auto with qpid|smaller|].
    try_next c (fun x => isc x "."); [|smaller|].
    { apply isc_true in Hp as ->. cbn. rewrite <- (app_nil_r ["."]). cbn [app].
      constructor; [done|constructor]. }
    try_next c isE; [exists (text c), x; split_and!; auto|smaller|].
    split; [|split; [done|smaller]]. constructor; [done|].
    by apply (next_not_orb (fun x => isdigit x || isc x ".") isE);
      [apply (next_not_orb isdigit (fun x => isc x "."))|].
  - try_next c isdigit; [cbn; rewrite Hok; cbn; constructor; by apply digits_one|smaller|].
    split; [done|split; [done|smaller]].
  - try_next c isdigit; [cbn; auto with qpid|smaller|].
    try_next c isE; [exists (text c), x; split_and!; auto|smaller|].
    split; [|split; [done|smaller]]. constructor; [done|].
    by apply (next_not_orb isdigit isE).
  - destruct Hok as (m & e & Hb). try_next c isSign; [|smaller|].
    { exists m, e, x. destruct Hb as (Hm & He & ->). unfold before_exponent.
      split_and!; try done. cbn. by rewrite <- app_assoc. }
    try_next c isdigit; [|smaller|split; [done|split; [done|smaller]]].
    destruct Hb as (Hm & He & ->). exists m, (e :: [] ++ [x]). split_and!; [done| |].
    + constructor; [done|by left|by apply digits_one].
    + cbn. by rewrite <- app_assoc.
  - destruct Hok as (m & e & sg & (Hm & He & _) & Hsg & Hw).
    try_next c isdigit; [|smaller|split; [done|split; [done|smaller]]].
    exists m, (e :: [sg] ++ [x]). split_and!; [done| |].
    + constructor; [done|right; eauto|by apply digits_one].
    + cbn. rewrite Hw. by rewrite <- app_assoc.
  - destruct Hok as (m & w & Hm & Hw & Htext).
    try_next c isdigit; [|smaller|].
    + exists m, (w ++ [x]). split_and!; [done|auto with qpid|]. cbn.
      rewrite Htext. by rewrite <- app_assoc.
    + split; [|split; [done|smaller]]. cbn. rewrite Htext. by constructor.
Qed.

Lemma lex_step_ok s c :
  state_ok c -> text c ++ at_t c = s -> step_ok s c (lex_step c).
Proof.
  intros Hok Hs. destruct (state c) eqn:Hst;
    try (apply number_step_ok; [done|done|solve [rewrite Hst; repeat first [left|right]]]);
    unfold state_ok in Hok; unfold lex_step; rewrite Hst in *.
  - destruct c as [st ty w t]. cbn in *. subst. apply start_step_ok.
  - done.
  - try_next c isIdentifierPart; [|smaller|].
    + destruct Hok as (y & w & Hw & Hy & Hall). exists y, (w ++ [x]).
      cbn. rewrite Hw. split_and!; [done|done|]. apply Forall_app. split; [done|by constructor].
    + split; [done|split; [done|smaller]].
  - destruct Hok as [Hw Hn]. rewrite tokeniseReservedWord_spec by by apply is_word_no_nul.
    cbn. right. exists (text c). split; [done|]. destruct Hw as (y & w & -> & Hy & Hall).
    by constructor.
  - destruct Hok as (x & t & Hx & Hscan). eapply lex_advance_ok; [done|exact Hx|done|smaller].
  - cbn. right. by exists (text c).
Qed.

Lemma lex_loop_ok fuel s c :
  state_ok c -> text c ++ at_t c = s -> lex_measure c < fuel -> result_ok s (lex_loop fuel c).
Proof.
  revert c. induction fuel as [|fuel IH]; intros c Hok Hs Hm; [lia|].
  cbn [lex_loop]. pose proof (lex_step_ok s c Hok Hs) as H.
  destruct (lex_step c) as [c'|r]; [|done]. destruct H as (Hok' & Hs' & Hm').
  apply IH; [done|done|lia].
Qed.

Lemma tokenise_sound s : result_ok s (tokenise s).
Proof. apply lex_loop_ok; [done|done|cbn; lia]. Qed.

(** ** The state machine is complete *)

Lemma lex_loop_inl fuel c c' : lex_step c = inl c' -> lex_loop (S fuel) c = lex_loop fuel c'.
Proof. intros H. cbn [lex_loop]. by rewrite H. Qed.
Lemma lex_loop_inr fuel c r : lex_step c = inr r -> lex_loop (S fuel) c = r.
Proof. intros H. cbn [lex_loop]. by rewrite H. Qed.

Lemma lex_loop_more fuel k c x : lex_loop fuel c = Ret x -> lex_loop (fuel + k) c = Ret x.
Proof.
  revert c. induction fuel as [|fuel IH]; intros c H; [done|]. cbn [lex_loop Nat.add] in *.
  destruct (lex_step c); auto.
Qed.

(** a state that loops over the characters of a class *)
Lemma lex_loop_class st p ty ds t w k :
  (forall x w t, p x = true -> lex_step (mkCfg st ty w (x :: t)) = inl (mkCfg st ty (w ++ [x]) t)) ->
  Forall (fun x => p x = true) ds ->
  lex_loop (length ds + k) (mkCfg st ty w (ds ++ t)) = lex_loop k (mkCfg st ty (w ++ ds) t).
Proof.
  intros Hstep Hds. revert w. induction Hds as [|x ds Hx Hds IH]; intros w.
  - by rewrite app_nil_r.
  - cbn [length Nat.add lex_loop app]. rewrite Hstep by done. rewrite IH.
    by rewrite <- app_assoc.
Qed.

Ltac class_step :=
  intros ? ? ? Hx; unfold lex_step, next_is, advance_to; cbn [state at_t text tokType];
  rewrite Hx; reflexivity.

Lemma start_word c ty t :
  isIdentifierStart c = true ->
  lex_step (mkCfg START ty [] (c :: t)) = inl (mkCfg IDENTIFIER ty [c] t).
Proof.
  intros H. unfold lex_step, start_step. cbn [state at_t].
  do 10 (destruct (isc c _) eqn:E; [by apply isc_true in E as ->|clear E]). by rewrite H.
Qed.

Lemma digit_not_start c : isdigit c = true -> isIdentifierStart c = false.
Proof.
  intros H. pose proof (all_chars (fun c => negb (isdigit c && isIdentifierStart c))) as Ha.
  specialize (Ha ltac:(vm_compute; reflexivity) c). cbn beta in Ha. rewrite H in Ha.
  by apply negb_true_iff in Ha.
Qed.

Lemma start_digit c ty t :
  isdigit c = true -> lex_step (mkCfg START ty [] (c :: t)) = inl (mkCfg DIGIT ty [c] t).
Proof.
  intros H. unfold lex_step, start_step. cbn [state at_t].
  do 10 (destruct (isc c _) eqn:E; [by apply isc_true in E as ->|clear E]).
  rewrite (digit_not_start c H).
  destruct (isc c QUOTE) eqn:E; [by apply isc_true in E as ->|]. by rewrite H.
Qed.

(** a state with nothing of its class left accepts *)
Lemma accept_number st ty w rest k :
  (st = DIGIT /\ next_not (fun x => isdigit x || isc x "." || isE x) rest) \/
  (st = DECIMAL /\ next_not (fun x => isdigit x || isE x) rest) \/
  (st = EXPONENT /\ next_not isdigit rest) ->
  lex_loop (2 + k) (mkCfg st ty w rest) =
    Ret (Some (mkToken (match st with DIGIT => T_NUMERIC_EXACT | _ => T_NUMERIC_APPROX end) w, rest)).
Proof.
  intros [[-> H]|[[-> H]|[-> H]]]; cbn [Nat.add lex_loop]; unfold lex_step at 1, next_is;
    cbn [state at_t]; (destruct rest as [|x rest]; [done|]); cbn [next_not] in H.
  - apply orb_false_iff in H as [[H1 H2]%orb_false_iff H3]. by rewrite H1, H2, H3.
  - apply orb_false_iff in H as [H1 H2]. by rewrite H1, H2.
  - by rewrite H.
Qed.

(** the digits of a number, up to the state they lead to *)
Lemma run_digits ds ty t k :
  digits ds ->
  lex_loop (length ds + k) (mkCfg START ty [] (ds ++ t)) = lex_loop k (mkCfg DIGIT ty ds t).
Proof.
  intros [Hne H]. destruct ds as [|c ds]; [done|]. inversion_clear H.
  cbn [length Nat.add lex_loop app]. rewrite start_digit by done.
  rewrite (lex_loop_class DIGIT isdigit); [done|class_step|done].
Qed.

Lemma run_mantissa m ty t k :
  mantissa m ->
  lex_loop (length m + k) (mkCfg START ty [] (m ++ t)) = lex_loop k (mkCfg DECIMAL ty m t).
Proof.
  intros [ds fs Hd Hf|fs [Hne Hf]].
  - rewrite length_app, <- Nat.add_assoc, <- app_assoc, run_digits by done.
    cbn [length Nat.add lex_loop app]. unfold lex_step at 1, next_is, advance_to.
    cbn [state at_t text tokType]. change (isdigit ".") with false.
    change (isc "." ".") with true. cbn iota.
    rewrite (lex_loop_class DECIMAL isdigit); [by rewrite <- app_assoc|class_step|done].
  - destruct fs as [|c fs]; [done|]. inversion_clear Hf.
    cbn [length Nat.add lex_loop app]. change (lex_step (mkCfg START ty [] ("." :: c :: fs ++ t)))
      with (@inl lex_cfg lex_result (mkCfg DECIMAL_START ty ["."] (c :: fs ++ t))).
    cbn iota. unfold lex_step at 1, next_is, advance_to. cbn [state at_t text tokType].
    rewrite H. cbn [app]. rewrite (lex_loop_class DECIMAL isdigit); [done|class_step|done].
Qed.

Lemma E_not e : isE e = true -> isdigit e = false /\ isc e "." = false.
Proof.
  unfold isE. intros [H|H]%orb_true_iff; apply isc_true in H as ->; by vm_compute.
Qed.

Lemma sign_not c : isSign c = true -> isdigit c = false.
Proof.
  unfold isSign. intros [H|H]%orb_true_iff; apply isc_true in H as ->; by vm_compute.
Qed.

Lemma digit_not_sign c : isdigit c = true -> isSign c = false.
Proof. intros H. destruct (isSign c) eqn:E; [|done]. apply sign_not in E. congruence. Qed.

Lemma run_exponent st ty m x rest k :
  st = DIGIT \/ st = DECIMAL -> exponent x -> next_not isdigit rest ->
  lex_loop (length x + (2 + k)) (mkCfg st ty m (x ++ rest)) =
    Ret (Some (mkToken T_NUMERIC_APPROX (m ++ x), rest)).
Proof.
  intros Hst [e sg ds He Hsg Hd] Hr. destruct (E_not e He) as [He1 He2].
  assert (Hstep : forall t, lex_step (mkCfg st ty m (e :: t)) =
                       inl (mkCfg EXPONENT_SIGN ty (m ++ [e]) t)).
  { intros t. destruct Hst as [-> | ->]; unfold lex_step, next_is, advance_to;
      cbn [state at_t text tokType]; by rewrite He1, ?He2, He. }
  destruct Hd as [Hne Hds]. destruct ds as [|d ds]; [done|]. inversion_clear Hds.
  assert (Hend : forall w, lex_loop (length ds + (2 + k)) (mkCfg EXPONENT ty w (ds ++ rest)) =
                           Ret (Some (mkToken T_NUMERIC_APPROX (w ++ ds), rest))).
  { intros w. rewrite (lex_loop_class EXPONENT isdigit); [|class_step|done].
    rewrite accept_number; [done|]. by right; right. }
  destruct Hsg as [-> | (c & Hc & ->)]; cbn [app length]; rewrite ?Nat.add_succ_l;
    cbn [lex_loop app]; rewrite Hstep; cbn [lex_loop].
  - unfold lex_step at 1, next_is, advance_to. cbn [state at_t text tokType].
    rewrite (digit_not_sign d) by done. rewrite H, Hend. by rewrite <- !app_assoc.
  - unfold lex_step at 1, next_is, advance_to. cbn [state at_t text tokType].
    rewrite Hc. unfold lex_step at 1, next_is, advance_to. cbn [state at_t text tokType].
    rewrite H, Hend. by rewrite <- !app_assoc.
Qed.

Lemma scan_punct_complete w ty p rest :
  (w, ty, p) ∈ punctuation -> next_not p rest ->
  lex_loop 3 (mkCfg START T_EOS [] (w ++ rest)) = Ret (Some (mkToken ty w, rest)).
Proof.
  intros Hin Hr. unfold punctuation in Hin.
  repeat (apply elem_of_cons in Hin as [Hin|Hin]; [injection Hin as -> -> ->|]);
    [..|by apply elem_of_nil in Hin]; try reflexivity;
    (destruct rest as [|y rest]; [reflexivity|]); cbn [next_not] in Hr;
    cbn [app lex_loop]; unfold lex_step at 1, start_step, next_is; cbn; rewrite ?Hr; reflexivity.
Qed.

Lemma tokenise_complete w ty v rest :
  scan w ty v rest -> tokenise (w ++ rest) = Ret (Some (mkToken ty v, rest)).
Proof.
  unfold tokenise. rewrite length_app. destruct 1 as [w ty p rest Hin Hn|c w rest Hc Hw Hn|v rest Hn|
    w rest Hw Hn|w rest Hw Hn|m x rest Hm Hx Hn].
  - replace (4 + (length w + length rest)) with (3 + (1 + length w + length rest)) by lia.
    apply lex_loop_more. by apply (scan_punct_complete w ty p).
  - replace (4 + (length (c :: w) + length rest)) with (S (length w + S (S (2 + length rest))))
      by (cbn [length]; lia).
    cbn [app]. rewrite (lex_loop_inl _ _ _ (start_word c _ _ Hc)).
    rewrite (lex_loop_class IDENTIFIER isIdentifierPart); [|class_step|done].
    assert (Hword : is_word (c :: w)) by (exists c, w; auto).
    erewrite lex_loop_inl by (unfold lex_step, next_is; cbn [state at_t];
      replace (match rest with x :: _ => isIdentifierPart x | [] => false end) with false
        by (destruct rest; [done|by rewrite Hn]); reflexivity).
    erewrite lex_loop_inr by reflexivity. cbn [text at_t goto app].
    by rewrite tokeniseReservedWord_spec by by apply is_word_no_nul.
  - cbn [Nat.add lex_loop]. unfold lex_step at 1, start_step. cbn [state at_t].
    unfold quote at 1. cbn [app]. pose proof (processString_complete v rest Hn) as H.
    unfold quote in *. exact H.
  - replace (4 + (length w + length rest)) with (length w + (2 + (2 + length rest))) by lia.
    rewrite run_digits by done. rewrite accept_number; [done|by left].
  - replace (4 + (length w + length rest)) with (length w + (2 + (2 + length rest))) by lia.
    rewrite run_mantissa by done. rewrite accept_number; [done|by right; left].
  - rewrite length_app, <- app_assoc.
    replace (4 + (length m + length x + length rest))
      with (length m + (length x + (2 + (2 + length rest)))) by lia.
    destruct Hm as [Hm|Hm]; [rewrite run_mantissa by done|rewrite run_digits by done];
      apply run_exponent; auto.
Qed.

(** ** The tokens of a selector *)

(** every token the lexer can find, and whether it reached the end *)
Fixpoint lex_list (n : nat) (s : str) : list Token * bool :=
  match n with
  | O => ([], false)
  | S n' =>
      match tokenise (skipWS s) with
      | Ret (Some (tok, r)) =>
          if decide (type tok = T_EOS) then ([tok], true)
          else let '(l, ok) := lex_list n' r in (tok :: l, ok)
      | _ => ([], false)
      end
  end.
Definition lex_all (s : str) : list Token * bool := lex_list (S (length s)) s.

(** The same as a grammar: tokens with spaces between them. *)
Inductive lexes : str -> list Token -> Prop :=
| lexes_end ws : Forall (fun c => isspace c = true) ws -> lexes ws [mkToken T_EOS END]
| lexes_token ws w ty v rest l :
    Forall (fun c => isspace c = true) ws -> scan w ty v rest -> lexes rest l ->
    lexes (ws ++ w ++ rest) (mkToken ty v :: l).

Lemma skipWS_split s : exists ws, s = ws ++ skipWS s /\ Forall (fun c => isspace c = true) ws.
Proof.
  induction s as [|c s IH]; [by exists []|]. cbn [skipWS]. destruct (isspace c) eqn:E.
  - destruct IH as (ws & Hs & Hws). exists (c :: ws). cbn [app]. rewrite <- Hs.
    split; [done|by constructor].
  - by exists [].
Qed.

Lemma skipWS_app ws s : Forall (fun c => isspace c = true) ws -> skipWS (ws ++ s) = skipWS s.
Proof. induction 1 as [|c ws Hc Hws IH]; [done|]. cbn [app skipWS]. by rewrite Hc. Qed.

(** a token starts with a character that is no space *)
Lemma space_starts_nothing c :
  isspace c = true ->
  isIdentifierStart c = false /\ isdigit c = false /\ isc c "." = false /\
  isc c QUOTE = false.
Proof.
  intros H. pose proof (all_chars (fun c => negb (isspace c) ||
    negb (isIdentifierStart c || isdigit c || isc c "." || isc c QUOTE))
    ltac:(vm_compute; reflexivity) c) as Ha. cbn beta in Ha. rewrite H in Ha. cbn in Ha.
  apply negb_true_iff in Ha. by apply orb_false_iff in Ha as [[[? ?]%orb_false_iff ?]%orb_false_iff ?].
Qed.

Lemma digits_head w : digits w -> exists c w', w = c :: w' /\ isdigit c = true.
Proof. intros [Hne H]. destruct w as [|c w]; [done|]. inversion_clear H. eauto. Qed.

Lemma scan_head w ty v rest :
  scan w ty v rest -> exists c w', w = c :: w' /\ isspace c = false.
Proof.
  assert (Hd : forall w, digits w -> exists c w', w = c :: w' /\ isspace c = false).
  { intros u (c & w' & -> & Hc)%digits_head. exists c, w'. split; [done|].
    destruct (isspace c) eqn:E; [|done]. apply space_starts_nothing in E. naive_solver. }
  assert (Hm : forall w, mantissa w -> exists c w', w = c :: w' /\ isspace c = false).
  { intros u [ds fs (c & w' & -> & Hc)%Hd Hf|fs Hf].
    - exists c, (w' ++ "." :: fs). auto.
    - exists ".", fs. auto. }
  destruct 1 as [w ty p rest Hin Hn|c w rest Hc Hw Hn|v rest Hn|w rest Hw Hn|w rest Hw Hn|m x rest [H|H] Hx Hn];
    auto.
  - unfold punctuation in Hin.
    repeat (apply elem_of_cons in Hin as [Hin|Hin]; [injection Hin as -> -> ->; eexists _, _; done|]).
    by apply elem_of_nil in Hin.
  - exists c, w. split; [done|]. destruct (isspace c) eqn:E; [|done].
    apply space_starts_nothing in E. naive_solver.
  - eexists _, _. split; reflexivity.
  - apply Hm in H as (c & w' & -> & Hc). exists c, (w' ++ x). auto.
  - apply Hd in H as (c & w' & -> & Hc). exists c, (w' ++ x). auto.
Qed.

Lemma scan_not_eos w ty v rest : scan w ty v rest -> ty ≠ T_EOS.
Proof.
  destruct 1 as [w ty p rest Hin Hn|c w rest Hc Hw Hn|v rest Hn|w rest Hw Hn|w rest Hw Hn|m x rest H Hx Hn];
    try done.
  - unfold punctuation in Hin.
    repeat (apply elem_of_cons in Hin as [Hin|Hin]; [injection Hin as -> -> ->; done|]).
    by apply elem_of_nil in Hin.
  - unfold word_type. destruct (filter _ reserved) as [|e l] eqn:E; [done|].
    assert (He : e ∈ filter (fun e => e.1 = map tolower (c :: w)) reserved) by (rewrite E; left).
    apply list_elem_of_filter in He as [_ He]. unfold reserved in He.
    repeat (apply elem_of_cons in He as [->|He]; [done|]). by apply elem_of_nil in He.
Qed.

Lemma skipWS_scan ws w ty v rest :
  Forall (fun c => isspace c = true) ws -> scan w ty v rest ->
  skipWS (ws ++ w ++ rest) = w ++ rest.
Proof.
  intros Hws (c & w' & -> & Hc)%scan_head. rewrite skipWS_app by done.
  cbn [app skipWS]. by rewrite Hc.
Qed.

(** the lexer's three outcomes on what follows the spaces *)
Lemma tokenise_cases s :
  (Forall (fun c => isspace c = true) s /\
     tokenise (skipWS s) = Ret (Some (mkToken T_EOS END, []))) \/
  (exists ws w ty v rest, s = ws ++ w ++ rest /\ Forall (fun c => isspace c = true) ws /\
     scan w ty v rest /\ tokenise (skipWS s) = Ret (Some (mkToken ty v, rest))) \/
  tokenise (skipWS s) = Ret None.
Proof.
  destruct (skipWS_split s) as (ws & Hs & Hws). pose proof (tokenise_sound (skipWS s)) as H.
  unfold result_ok in H. destruct (tokenise (skipWS s)) as [[[tok rest]|]|]; [|auto|done].
  destruct H as [(H0 & -> & ->)|(w & Hw & Hscan)].
  - left. split; [|done]. rewrite Hs, H0, app_nil_r. done.
  - right. left. exists ws, w, (type tok), (val tok), rest.
    split_and!; [by rewrite <- Hw|done|done|by destruct tok].
Qed.

Lemma lex_list_fuel n m s :
  length s < n -> length s < m -> lex_list n s = lex_list m s.
Proof.
  revert m s. induction n as [|n IH]; intros m s Hn Hm; [lia|]. destruct m as [|m]; [lia|].
  cbn [lex_list]. destruct (tokenise_cases s) as [[_ ->]|[(ws & w & ty & v & rest & Hs & Hws & Hscan & ->)| ->]];
    [done| |done].
  cbn [type]. destruct (decide (ty = T_EOS)); [done|].
  apply scan_head in Hscan as (c & w' & -> & _).
  assert (Hl : length s = length ws + S (length w' + length rest))
    by (rewrite Hs, !length_app; cbn [length]; lia).
  rewrite (IH m rest) by lia. done.
Qed.

Lemma lex_all_end ws : Forall (fun c => isspace c = true) ws -> lex_all ws = ([mkToken T_EOS END], true).
Proof.
  intros H. unfold lex_all. cbn [lex_list].
  rewrite <- (app_nil_r ws), skipWS_app by done. cbn [skipWS]. reflexivity.
Qed.

Lemma lex_all_token ws w ty v rest :
  Forall (fun c => isspace c = true) ws -> scan w ty v rest ->
  lex_all (ws ++ w ++ rest) = (mkToken ty v :: (lex_all rest).1, (lex_all rest).2).
Proof.
  intros Hws Hscan. unfold lex_all at 1. cbn [lex_list].
  rewrite (skipWS_scan ws w ty v rest), (tokenise_complete w ty v rest) by done. cbn [type].
  rewrite decide_False by by apply scan_not_eos in Hscan.
  unfold lex_all. apply scan_head in Hscan as (c & w' & -> & _).
  rewrite (lex_list_fuel _ (S (length rest)) rest); [by destruct lex_list| |lia].
  rewrite !length_app. cbn [length]. lia.
Qed.

Lemma lexes_lex_all s l : lexes s l -> lex_all s = (l, true).
Proof.
  induction 1 as [ws Hws|ws w ty v rest l Hws Hscan Hl IH].
  - by apply lex_all_end.
  - rewrite (lex_all_token ws w ty v rest) by done. by rewrite IH.
Qed.

Lemma lex_all_lexes s l : lex_all s = (l, true) -> lexes s l.
Proof.
  revert l. induction s as [s IH] using (induction_ltof1 _ (@length ascii)). unfold ltof in IH.
  intros l H.
  destruct (tokenise_cases s) as [[Hws _]|[(ws & w & ty & v & rest & -> & Hws & Hscan & _)|Hn]].
  - rewrite lex_all_end in H by done. simplify_eq. by constructor.
  - rewrite (lex_all_token ws w ty v rest) in H by done.
    destruct (lex_all rest) as [l' ok] eqn:E. cbn in H. simplify_eq. constructor; [done|done|].
    apply IH; [|done]. apply scan_head in Hscan as (c & w' & -> & _).
    rewrite !length_app. cbn [length]. lia.
  - unfold lex_all in H. cbn [lex_list] in H. rewrite Hn in H. done.
Qed.

(** [tokenise] and [lexes] describe the same tokens. *)
Lemma lex_all_spec s l : lex_all s = (l, true) <-> lexes s l.
Proof. split; [apply lex_all_lexes|apply lexes_lex_all]. Qed.

Lemma lexes_last s l : lexes s l -> exists l', l = l' ++ [mkToken T_EOS END] /\
  Forall (fun tok => type tok ≠ T_EOS) l'.
Proof.
  induction 1 as [ws Hws|ws w ty v rest l Hws Hscan Hl IH].
  - by exists [].
  - destruct IH as (l' & -> & Hl'). exists (mkToken ty v :: l'). split; [done|].
    constructor; [|done]. by apply scan_not_eos in Hscan.
Qed.

(** ** A tokeniser is a cursor in that list *)

(** the end of the selector has been read *)
Definition ended (t : Tokeniser) : bool :=
  match last (tokens t) with Some tok => bool_decide (type tok = T_EOS) | None => false end.

Definition pending (t : Tokeniser) : list Token * bool :=
  if ended t then ([], true) else lex_all (inp t).

(** [cursor t pre rest ok]: [pre] has been consumed and [rest] is to come;
    after it the selector ends ([ok]) or has an illegal character. *)
Definition cursor (t : Tokeniser) (pre rest : list Token) (ok : bool) : Prop :=
  tokp t <= length (tokens t) /\ take (tokp t) (tokens t) = pre /\
  drop (tokp t) (tokens t) ++ (pending t).1 = rest /\ (pending t).2 = ok.

Lemma new_cursor s : cursor (new_Tokeniser s) [] (lex_all s).1 (lex_all s).2.
Proof. by split_and!. Qed.

Lemma ended_snoc l tok p i :
  ended (mkTokeniser (l ++ [tok]) p i) = bool_decide (type tok = T_EOS).
Proof. unfold ended. cbn [tokens]. by rewrite last_snoc. Qed.

(** the token a cursor at the end of the buffer looks at *)
Lemma nextToken_fresh t :
  tokp t = length (tokens t) -> ended t = false ->
  nextToken t =
    match tokenise (skipWS (inp t)) with
    | Ret (Some (tok, inp'')) =>
        (mkTokeniser (tokens t ++ [tok]) (S (tokp t)) inp'', Ret tok)
    | Ret None =>
        (mkTokeniser (tokens t ++ [blank_token]) (S (tokp t)) (skipWS (inp t)), Throw TokenException)
    | Throw e => (mkTokeniser (tokens t ++ [blank_token]) (S (tokp t)) (skipWS (inp t)), Throw e)
    end.
Proof.
  intros Hp He. unfold nextToken. rewrite lookup_ge_None_2 by lia.
  unfold ended in He. rewrite last_lookup in He. rewrite <- Hp in He.
  destruct (tokp t =? 0) eqn:E0; [done|].
  replace (tokp t - 1) with (pred (tokp t)) by lia.
  destruct (tokens t !! pred (tokp t)) as [[ty v]|]; [|done].
  cbn [type] in He. apply bool_decide_eq_false in He. by destruct ty.
Qed.

Lemma nextToken_spec t pre x rest ok :
  cursor t pre (x :: rest) ok ->
  exists t', nextToken t = (t', Ret x) /\ cursor t' (pre ++ [x]) rest ok.
Proof.
  intros (Hp & Hpre & Hrest & Hok).
  destruct (drop (tokp t) (tokens t)) as [|y l] eqn:Hd.
  - assert (Hlen : tokp t = length (tokens t)).
    { apply (f_equal length) in Hd. rewrite length_drop in Hd. cbn in Hd. lia. }
    unfold pending in *. destruct (ended t) eqn:He; [done|]. cbn [app] in Hrest.
    rewrite nextToken_fresh by done. rewrite take_ge in Hpre by lia.
    destruct (tokenise_cases (inp t)) as [[Hws Ht]|[(ws & w & ty & v & r & Hi & Hws & Hscan & Ht)|Ht]].
    + rewrite Ht. rewrite lex_all_end in Hrest, Hok by done. cbn in Hrest, Hok. simplify_eq.
      eexists. split; [done|]. unfold cursor, pending. rewrite ended_snoc. cbn.
      rewrite length_app, take_ge, drop_ge by (rewrite length_app; cbn; lia).
      split_and!; try done. cbn. lia.
    + rewrite Ht. rewrite Hi, (lex_all_token ws w ty v r) in Hrest, Hok by done.
      cbn in Hrest, Hok. injection Hrest as <- <-. eexists. split; [done|].
      unfold cursor, pending. rewrite ended_snoc. apply scan_not_eos in Hscan.
      cbn [tokens tokp inp type]. rewrite bool_decide_eq_false_2 by done.
      rewrite length_app, take_ge, drop_ge by (rewrite length_app; cbn; lia).
      split_and!; try done; [cbn; lia|by rewrite Hpre].
    + exfalso. unfold lex_all in Hrest. cbn [lex_list] in Hrest. by rewrite Ht in Hrest.
  - cbn [app] in Hrest. injection Hrest as -> <-.
    assert (Hl : tokens t !! tokp t = Some x).
    { rewrite <- (Nat.add_0_r (tokp t)), <- lookup_drop, Hd. done. }
    unfold nextToken. rewrite Hl. eexists. split; [done|]. unfold cursor, pending, ended in *.
    cbn [tokens tokp inp]. pose proof (lookup_lt_Some _ _ _ Hl).
    rewrite (take_S_r _ _ x), Hpre by done.
    rewrite <- Nat.add_1_r, <- drop_drop, Hd. split_and!; [lia|done|done|done].
Qed.

(** past the end marker it is returned again *)
Lemma nextToken_at_end t pre :
  cursor t pre [] true -> exists x, last pre = Some x /\ type x = T_EOS /\ nextToken t = (t, Ret x).
Proof.
  intros (Hp & Hpre & Hrest & Hok). apply app_eq_nil in Hrest as [Hd Hpend].
  assert (Hlen : tokp t = length (tokens t)).
  { apply (f_equal length) in Hd. rewrite length_drop in Hd. cbn in Hd. lia. }
  rewrite take_ge in Hpre by lia. subst pre.
  destruct (ended t) eqn:He; unfold pending in *; rewrite He in *.
  - unfold ended in He. destruct (last (tokens t)) as [[ty v]|] eqn:Hl; [|done].
    apply bool_decide_eq_true in He. cbn in He. subst ty. eexists. split_and!; [done|done|].
    unfold nextToken. rewrite lookup_ge_None_2 by lia. rewrite last_lookup, <- Hlen in Hl.
    destruct (tokp t =? 0) eqn:E0.
    { apply Nat.eqb_eq in E0. rewrite E0 in Hlen. symmetry in Hlen.
      apply nil_length_inv in Hlen. by rewrite Hlen in Hl. }
    replace (tokp t - 1) with (pred (tokp t)) by lia. by rewrite Hl.
  - destruct (lex_all (inp t)) as [l ok] eqn:E. cbn in Hpend, Hok. subst.
    apply lex_all_spec, lexes_last in E as (l' & E & _). by destruct l'.
Qed.

Lemma nextToken_illegal t pre :
  cursor t pre [] false -> exists t', nextToken t = (t', Throw TokenException).
Proof.
  intros (Hp & Hpre & Hrest & Hok). apply app_eq_nil in Hrest as [Hd Hpend].
  assert (Hlen : tokp t = length (tokens t)).
  { apply (f_equal length) in Hd. rewrite length_drop in Hd. cbn in Hd. lia. }
  unfold pending in *. destruct (ended t) eqn:He; [done|]. rewrite nextToken_fresh by done.
  destruct (tokenise_cases (inp t)) as [[Hws Ht]|[(ws & w & ty & v & r & Hi & Hws & Hscan & Ht)|Ht]].
  - by rewrite lex_all_end in Hpend by done.
  - by rewrite Hi, (lex_all_token ws w ty v r) in Hpend by done.
  - rewrite Ht. eauto.
Qed.

Lemma returnTokens_spec t pre x rest ok :
  cursor t (pre ++ [x]) rest ok ->
  exists t', returnTokens 1 t = (t', Ret tt) /\ cursor t' pre (x :: rest) ok.
Proof.
  intros (Hp & Hpre & Hrest & Hok).
  assert (Hlen : tokp t = S (length pre)).
  { apply (f_equal length) in Hpre. rewrite length_take, length_app in Hpre. cbn in Hpre. lia. }
  unfold returnTokens. rewrite (proj2 (Nat.leb_le 1 (tokp t))) by lia. eexists. split; [done|].
  assert (Hx : tokens t !! length pre = Some x).
  { rewrite <- (lookup_take_lt _ (tokp t)), Hpre, list_lookup_middle by lia. done. }
  unfold cursor, pending, ended in *. cbn [tokens tokp inp].
  rewrite Hlen in *. replace (S (length pre) - 1) with (length pre) by lia.
  rewrite (take_S_r _ _ x) in Hpre by done. apply app_inj_tail in Hpre as [Hpre _].
  rewrite (drop_S _ x) by done. cbn [app]. split_and!; [lia|done|by rewrite Hrest|done].
Qed.

(** ** The lexer is exact *)

(** C27: The hand-written state machine [tokenise] terminates within its bound
    and never reports anything but a token or failure, and it recognises exactly
    the lexical grammar of selectors: it returns a token other than the end
    marker, and stops at [rest], if and only if a text before [rest] is a token
    of that type and value by the grammar (words, reserved words in any case,
    string literals with doubled quotes, exact and approximate numbers,
    operators), the longest one at that place. *)
Theorem tokenise_exact (s rest : str) (ty : TokenType) (v : str) :
  (exists r, tokenise s = Ret r) /\
  ((tokenise s = Ret (Some (mkToken ty v, rest)) /\ ty ≠ T_EOS) <->
   (exists w, s = w ++ rest /\ scan w ty v rest)).
Proof.
  pose proof (tokenise_sound s) as Hs. split.
  { destruct (tokenise s) as [r|]; [by exists r|done]. }
  split.
  - intros [H Hty]. rewrite H in Hs.
    destruct Hs as [(_ & Heq & _)|Hs]; [by simplify_eq|done].
  - intros (w & -> & Hscan). split; [by apply tokenise_complete|by apply scan_not_eos in Hscan].
Qed.
