(* ===== verification/SelectorExpression.v ===== *)
(** * Selector expressions (src/qpid/broker/SelectorExpression.cpp)

    The expression classes, one constructor each, with their operators and
    their evaluation in an environment.  [eval] is the virtual [eval] of every
    class; [eval_bool] is the virtual [eval_bool].  The environment may keep
    state (the broker's caches the values it looked up), so evaluation runs in
    the state monad over it, in the order of the code; the two operands of an
    arithmetic operator, whose order C++ leaves open, are evaluated from left to
    right.

    Regular expressions are those of POSIX ([regcomp], [regexec]): the two
    functions are members of the class [Platform], and [PosixBRE] states the
    documented behaviour on the expressions [toRegex] writes. *)

From Stdlib Require Import ZArith Lia SpecFloat Ascii String.
From stdpp Require Import strings.
From S2P Require Import Prelude Double SelectorValue SelectorToken.
Local Open Scope char_scope.
Local Open Scope nat_scope.

(** ** What the code takes from other libraries *)

Class Platform := {
  (** [boost::lexical_cast], [None] for [bad_lexical_cast] *)
  lexical_cast_int64 : str -> option Z;
  lexical_cast_double : str -> option double;
  (** whether [regcomp(&re, s, REG_NOSUB)] succeeds *)
  regcomp : str -> bool;
  (** whether [regexec] finds the compiled expression in the text *)
  regexec : str -> str -> bool
}.

(** A C string ends at the first NUL. *)
Fixpoint c_str (s : str) : str :=
  match s with
  | [] => []
  | c :: s' => if isc c NUL then [] else c :: c_str s'
  end.

(** ** The classes *)

Inductive ComparisonOperator := eqOp | neqOp | lsOp | grOp | lseqOp | greqOp.
Inductive UnaryBooleanOperator := isNullOp | isNonNullOp | notOp.
Inductive ArithmeticOperator := add | sub | mult | div.
Inductive UnaryArithmeticOperator := negate.

Inductive Expression :=
| ComparisonExpression (op : ComparisonOperator) (e1 e2 : Expression)
| OrExpression (e1 e2 : Expression)
| AndExpression (e1 e2 : Expression)
| UnaryBooleanExpression (op : UnaryBooleanOperator) (e1 : Expression)
| LikeExpression (e : Expression) (reString : str)
| BetweenExpression (e l u : Expression)
| InExpression (e : Expression) (l : list Expression)
| ArithmeticExpression (op : ArithmeticOperator) (e1 e2 : Expression)
| UnaryArithExpression (op : UnaryArithmeticOperator) (e1 : Expression)
| Literal (value : Value)
| StringLiteral (value : str)
| Identifier (identifier : str).

(** ** LIKE *)

(** the loop of [LikeExpression::toRegex] with its flag [doEscape] *)
Fixpoint toRegex_loop (e : ascii) (doEscape : bool) (s : str) : str :=
  match s with
  | [] => []
  | c :: s' =>
      if negb (isc e NUL) && isc c e then toRegex_loop e true s'
      else
        (if isc c "%" then (if doEscape then [c] else s_ ".*")
         else if isc c "_" then (if doEscape then [c] else s_ ".")
         else if isc c "]" then s_ "[]]"
         else if isc c "-" then s_ "[-]"
         else if isc c "\" || isc c "^" || isc c "$" || isc c "." || isc c "*" || isc c "["
         then ["\"; c]
         else [c]) ++ toRegex_loop e false s'
  end.

Definition toRegex (s escape : str) : outcome str :=
  if 1 <? length escape then Throw LogicError
  else
    let e := match escape with [e] => e | _ => NUL end in
    Ret (("^" :: toRegex_loop e false s) ++ ["$"]).

(** the constructor [LikeExpression(e, like, escape)], which compiles the
    regular expression *)
Definition new_LikeExpression `{Platform} (e : Expression) (like escape : str)
  : outcome Expression :=
  match toRegex like escape with
  | Ret reString =>
      if regcomp (c_str reString) then Ret (LikeExpression e reString) else Throw LogicError
  | Throw ex => Throw ex
  end.

(** ** Evaluation *)

(** an environment: [SelectorEnv::value], with the state it keeps *)
Class SelectorEnv (S : Type) := env_value : str -> M S Value.

Definition comparison (op : ComparisonOperator) : Value -> Value -> bool :=
  match op with
  | eqOp => op_eq | neqOp => op_neq | lsOp => op_ls
  | grOp => op_gr | lseqOp => op_le | greqOp => op_ge
  end.

Definition arithmetic (op : ArithmeticOperator) : Value -> Value -> outcome Value :=
  match op with add => op_add | sub => op_sub | mult => op_mul | div => op_div end.

Section evaluation.
Context `{Platform} {S : Type} `{SelectorEnv S}.

(** [Expression::eval_bool], the version that is not overridden *)
Definition truth (v : Value) : BoolOrNone :=
  match v with V_BOOL b => bn_of_bool b | _ => BN_UNKNOWN end.
Definition as_bool (m : M S Value) : M S BoolOrNone := v ← m; mret (truth v).

(** [booleval] *)
Definition booleval (op : Value -> Value -> bool) (e1 e2 : M S Value) : M S BoolOrNone :=
  v1 ← e1;
  if unknown v1 then mret BN_UNKNOWN
  else v2 ← e2;
       mret (if unknown v2 then BN_UNKNOWN else bn_of_bool (op v1 v2)).

Definition or_eval (e1 e2 : M S BoolOrNone) : M S BoolOrNone :=
  bn1 ← e1;
  if decide (bn1 = BN_TRUE) then mret BN_TRUE
  else bn2 ← e2;
       mret (if decide (bn2 = BN_TRUE) then BN_TRUE
             else if decide (bn1 = BN_FALSE /\ bn2 = BN_FALSE) then BN_FALSE
             else BN_UNKNOWN).

Definition and_eval (e1 e2 : M S BoolOrNone) : M S BoolOrNone :=
  bn1 ← e1;
  if decide (bn1 = BN_FALSE) then mret BN_FALSE
  else bn2 ← e2;
       mret (if decide (bn2 = BN_FALSE) then BN_FALSE
             else if decide (bn1 = BN_TRUE /\ bn2 = BN_TRUE) then BN_TRUE
             else BN_UNKNOWN).

Definition bn_not (bn : BoolOrNone) : BoolOrNone :=
  match bn with BN_UNKNOWN => BN_UNKNOWN | BN_TRUE => BN_FALSE | BN_FALSE => BN_TRUE end.

Definition unary_eval (op : UnaryBooleanOperator) (e : M S Value) : M S BoolOrNone :=
  match op with
  | isNullOp => v ← e; mret (bn_of_bool (unknown v))
  | isNonNullOp => v ← e; mret (bn_of_bool (negb (unknown v)))
  | notOp => bn ← as_bool e; mret (bn_not bn)
  end.

Definition like_eval (e : M S Value) (reString : str) : M S BoolOrNone :=
  v ← e;
  mret (match v with
        | V_STRING s => bn_of_bool (regexec (c_str reString) (c_str s))
        | _ => BN_UNKNOWN
        end).

Definition between_eval (e l u : M S Value) : M S BoolOrNone :=
  ve ← e;
  if unknown ve then mret BN_UNKNOWN
  else vl ← l;
       if negb (unknown vl) && op_ls ve vl then mret BN_FALSE
       else vu ← u;
            mret (if negb (unknown vu) && op_gr ve vu then BN_FALSE
                  else if unknown vl || unknown vu then BN_UNKNOWN
                  else BN_TRUE).

(** the loop of [InExpression::eval_bool] *)
Fixpoint in_loop (ve : Value) (r : BoolOrNone) (l : list (M S Value)) : M S BoolOrNone :=
  match l with
  | [] => mret r
  | e :: l' =>
      li ← e;
      if unknown li then in_loop ve BN_UNKNOWN l'
      else if op_eq ve li then mret BN_TRUE
      else in_loop ve r l'
  end.
Definition in_eval (e : M S Value) (l : list (M S Value)) : M S BoolOrNone :=
  ve ← e;
  if unknown ve then mret BN_UNKNOWN else in_loop ve BN_FALSE l.

(** [BoolExpression::eval] *)
Definition as_value (m : M S BoolOrNone) : M S Value := bn ← m; mret (Value_of_bn bn).

Fixpoint eval (e : Expression) : M S Value :=
  match e with
  | ComparisonExpression op e1 e2 => as_value (booleval (comparison op) (eval e1) (eval e2))
  | OrExpression e1 e2 => as_value (or_eval (as_bool (eval e1)) (as_bool (eval e2)))
  | AndExpression e1 e2 => as_value (and_eval (as_bool (eval e1)) (as_bool (eval e2)))
  | UnaryBooleanExpression op e1 => as_value (unary_eval op (eval e1))
  | LikeExpression e reString => as_value (like_eval (eval e) reString)
  | BetweenExpression e l u => as_value (between_eval (eval e) (eval l) (eval u))
  | InExpression e l => as_value (in_eval (eval e) (map eval l))
  | ArithmeticExpression op e1 e2 =>
      v1 ← eval e1; v2 ← eval e2; lift_outcome (arithmetic op v1 v2)
  | UnaryArithExpression negate e1 => v ← eval e1; lift_outcome (op_negate v)
  | Literal value => mret value
  | StringLiteral value => mret (V_STRING value)
  | Identifier identifier => env_value identifier
  end.

(** The virtual [eval_bool]: overridden in the subclasses of [BoolExpression]. *)
Definition eval_bool (e : Expression) : M S BoolOrNone :=
  match e with
  | ComparisonExpression op e1 e2 => booleval (comparison op) (eval e1) (eval e2)
  | OrExpression e1 e2 => or_eval (as_bool (eval e1)) (as_bool (eval e2))
  | AndExpression e1 e2 => and_eval (as_bool (eval e1)) (as_bool (eval e2))
  | UnaryBooleanExpression op e1 => unary_eval op (eval e1)
  | LikeExpression e reString => like_eval (eval e) reString
  | BetweenExpression e l u => between_eval (eval e) (eval l) (eval u)
  | InExpression e l => in_eval (eval e) (map eval l)
  | _ => as_bool (eval e)
  end.

(** [TopBoolExpression::eval]: a message is selected only on TRUE *)
Definition top_eval (e : Expression) : M S bool :=
  bn ← eval_bool e; mret (bool_decide (bn = BN_TRUE)).
End evaluation.

(** ** Induction on expressions, through the lists of IN *)

Section expression_ind.
Context (P : Expression -> Prop).
Context (Hcmp : forall op e1 e2, P e1 -> P e2 -> P (ComparisonExpression op e1 e2)).
Context (Hor : forall e1 e2, P e1 -> P e2 -> P (OrExpression e1 e2)).
Context (Hand : forall e1 e2, P e1 -> P e2 -> P (AndExpression e1 e2)).
Context (Hun : forall op e1, P e1 -> P (UnaryBooleanExpression op e1)).
Context (Hlike : forall e re, P e -> P (LikeExpression e re)).
Context (Hbetween : forall e l u, P e -> P l -> P u -> P (BetweenExpression e l u)).
Context (Hin : forall e l, P e -> Forall P l -> P (InExpression e l)).
Context (Harith : forall op e1 e2, P e1 -> P e2 -> P (ArithmeticExpression op e1 e2)).
Context (Hneg : forall op e1, P e1 -> P (UnaryArithExpression op e1)).
Context (Hlit : forall v, P (Literal v)).
Context (Hstr : forall s, P (StringLiteral s)).
Context (Hid : forall i, P (Identifier i)).

Fixpoint expression_ind (e : Expression) : P e :=
  match e with
  | ComparisonExpression op e1 e2 => Hcmp op e1 e2 (expression_ind e1) (expression_ind e2)
  | OrExpression e1 e2 => Hor e1 e2 (expression_ind e1) (expression_ind e2)
  | AndExpression e1 e2 => Hand e1 e2 (expression_ind e1) (expression_ind e2)
  | UnaryBooleanExpression op e1 => Hun op e1 (expression_ind e1)
  | LikeExpression e re => Hlike e re (expression_ind e)
  | BetweenExpression e l u =>
      Hbetween e l u (expression_ind e) (expression_ind l) (expression_ind u)
  | InExpression e l =>
      Hin e l (expression_ind e)
        ((fix all l := match l return Forall P l with
                       | [] => Forall_nil_2 P
                       | x :: l' => Forall_cons_2 P x l' (expression_ind x) (all l')
                       end) l)
  | ArithmeticExpression op e1 e2 => Harith op e1 e2 (expression_ind e1) (expression_ind e2)
  | UnaryArithExpression op e1 => Hneg op e1 (expression_ind e1)
  | Literal v => Hlit v
  | StringLiteral s => Hstr s
  | Identifier i => Hid i
  end.
End expression_ind.

(** ** Environments that only look like they have state

    An environment is transparent when, from the states it can be in, it
    always gives an identifier the same value. *)

Class TransparentEnv (S : Type) `{SelectorEnv S} (f : str -> Value) (Inv : S -> Prop) := {
  env_transparent : forall id s, Inv s -> exists s', env_value id s = (s', Ret (f id)) /\ Inv s'
}.

(** the environment with no state *)
Definition pure_env (f : str -> Value) : SelectorEnv unit := fun id s => (s, Ret (f id)).

Section pure.
Context `{Platform}.

Definition peval (f : str -> Value) (e : Expression) : outcome Value :=
  (eval (H0 := pure_env f) e tt).2.
Definition peval_bool (f : str -> Value) (e : Expression) : outcome BoolOrNone :=
  (eval_bool (H0 := pure_env f) e tt).2.
Definition pselects (f : str -> Value) (e : Expression) : outcome bool :=
  (top_eval (H0 := pure_env f) e tt).2.
End pure.

(** the composition of outcomes *)
Definition obind {A B} (o : outcome A) (k : A -> outcome B) : outcome B :=
  match o with Ret a => k a | Throw e => Throw e end.

Lemma truth_Value_of_bn bn : truth (Value_of_bn bn) = bn.
Proof. by destruct bn. Qed.

Section simulation.
Context `{Platform} {S : Type} `{SelectorEnv S} (f : str -> Value) (Inv : S -> Prop)
        `{!TransparentEnv S f Inv}.

(** a computation with the state that returns what one without it does *)
Definition simulates {A} (m : M S A) (p : M unit A) : Prop :=
  forall s, Inv s -> exists s', m s = (s', (p tt).2) /\ Inv s'.

Lemma simulates_ret {A} (a : A) : simulates (mret a) (mret a).
Proof. intros s Hs. by exists s. Qed.

Lemma simulates_lift {A} (o : outcome A) : simulates (lift_outcome o) (lift_outcome o).
Proof. intros s Hs. by exists s. Qed.

Lemma simulates_bind {A B} (m : M S A) (p : M unit A) (k : A -> M S B) (q : A -> M unit B) :
  simulates m p -> (forall a, simulates (k a) (q a)) -> simulates (m ≫= k) (p ≫= q).
Proof.
  intros Hm Hk s Hs. destruct (Hm s Hs) as (s' & E & Hs'). unfold mbind, M_bind. rewrite E.
  destruct (p tt) as [[] [a|e]]; cbn [snd].
  - destruct (Hk a s' Hs') as (s'' & E' & Hs''). rewrite E'. by exists s''.
  - by exists s'.
Qed.
End simulation.

Ltac simulate :=
  repeat first
    [ apply simulates_bind; [assumption|intros ?]
    | apply simulates_bind; [|intros ?]
    | apply simulates_ret | apply simulates_lift
    | match goal with |- simulates _ (if ?b then _ else _) _ => destruct b end
    | match goal with |- simulates _ (match ?b with _ => _ end) _ => destruct b end
    | assumption ].

Section simulation_eval.
Context `{Platform} {S : Type} `{SelectorEnv S} (f : str -> Value) (Inv : S -> Prop)
        `{!TransparentEnv S f Inv}.

Lemma in_loop_simulates ve r (l : list (M S Value)) (l' : list (M unit Value)) :
  Forall2 (simulates Inv) l l' -> simulates Inv (in_loop ve r l) (in_loop ve r l').
Proof.
  intros Hl. revert r. induction Hl as [|m p l l' Hm Hl IH]; intros r; cbn [in_loop]; simulate; auto.
Qed.

Lemma eval_simulates e : simulates Inv (eval e) (eval (H0 := pure_env f) e).
Proof.
  induction e as [op e1 e2 IH1 IH2|e1 e2 IH1 IH2|e1 e2 IH1 IH2|op e1 IH1|e re IH|e l u IHe IHl IHu
    |e l IHe IHl|op e1 e2 IH1 IH2|op e1 IH1|v|v|i] using expression_ind;
    cbn [eval]; unfold as_value, booleval, or_eval, and_eval, as_bool, like_eval, between_eval.
  1-3: by simulate.
  - by destruct op; unfold unary_eval, as_bool; simulate.
  - by simulate.
  - by simulate.
  - unfold in_eval. simulate. apply in_loop_simulates.
    induction IHl as [|x l Hx Hl IH]; constructor; auto.
  - by simulate.
  - destruct op. by simulate.
  - by simulate.
  - by simulate.
  - intros s Hs. by apply env_transparent.
Qed.

(** [eval_bool] is [eval] read as a truth value, whichever class overrides it. *)
Lemma eval_bool_eval (e : Expression) (s : S) : eval_bool e s = as_bool (eval e) s.
Proof.
  destruct e; try reflexivity; cbn [eval_bool eval]; unfold as_bool, as_value, mbind, M_bind, mret, M_ret.
  1-7: match goal with |- ?m = match (match ?m' with _ => _ end) with _ => _ end =>
         change m' with m; destruct m as [s' [bn|ex]] end; by rewrite ?truth_Value_of_bn.
Qed.
End simulation_eval.

(** ** Evaluation without state, by equations *)

Section equations.
Context `{Platform} (f : str -> Value).

Lemma pure_bind {A B} (m : M unit A) (k : A -> M unit B) :
  ((m ≫= k) tt).2 = obind (m tt).2 (fun a => (k a tt).2).
Proof. unfold mbind, M_bind. by destruct (m tt) as [[] [a|e]]. Qed.

Lemma peval_bool_spec e : peval_bool f e = obind (peval f e) (fun v => Ret (truth v)).
Proof.
  unfold peval_bool, peval. rewrite eval_bool_eval. unfold as_bool. by rewrite pure_bind.
Qed.

Lemma peval_bool_or e1 e2 :
  peval_bool f (OrExpression e1 e2) =
    obind (peval_bool f e1) (fun bn1 =>
      if decide (bn1 = BN_TRUE) then Ret BN_TRUE
      else obind (peval_bool f e2) (fun bn2 =>
        Ret (if decide (bn2 = BN_TRUE) then BN_TRUE
             else if decide (bn1 = BN_FALSE /\ bn2 = BN_FALSE) then BN_FALSE else BN_UNKNOWN))).
Proof.
  rewrite !peval_bool_spec. unfold peval at 1. cbn [eval]. unfold as_value, or_eval, as_bool.
  rewrite !pure_bind. unfold peval.
  destruct (eval e1 tt) as [[] [v1|]]; [|done]. cbn [snd obind mret M_ret].
  destruct (decide (truth v1 = BN_TRUE)); [done|]. rewrite !pure_bind.
  destruct (eval e2 tt) as [[] [v2|]]; [|done]. cbn [snd obind mret M_ret].
  by rewrite truth_Value_of_bn.
Qed.

Lemma peval_bool_and e1 e2 :
  peval_bool f (AndExpression e1 e2) =
    obind (peval_bool f e1) (fun bn1 =>
      if decide (bn1 = BN_FALSE) then Ret BN_FALSE
      else obind (peval_bool f e2) (fun bn2 =>
        Ret (if decide (bn2 = BN_FALSE) then BN_FALSE
             else if decide (bn1 = BN_TRUE /\ bn2 = BN_TRUE) then BN_TRUE else BN_UNKNOWN))).
Proof.
  rewrite !peval_bool_spec. unfold peval at 1. cbn [eval]. unfold as_value, and_eval, as_bool.
  rewrite !pure_bind. unfold peval.
  destruct (eval e1 tt) as [[] [v1|]]; [|done]. cbn [snd obind mret M_ret].
  destruct (decide (truth v1 = BN_FALSE)); [done|]. rewrite !pure_bind.
  destruct (eval e2 tt) as [[] [v2|]]; [|done]. cbn [snd obind mret M_ret].
  by rewrite truth_Value_of_bn.
Qed.

Lemma peval_bool_not e1 :
  peval_bool f (UnaryBooleanExpression notOp e1) =
    obind (peval_bool f e1) (fun bn => Ret (bn_not bn)).
Proof.
  rewrite !peval_bool_spec. unfold peval. cbn [eval]. unfold as_value, unary_eval, as_bool.
  rewrite !pure_bind. destruct (eval e1 tt) as [[] [v1|]]; [|done]. cbn [snd obind mret M_ret].
  by rewrite truth_Value_of_bn.
Qed.

Lemma peval_bool_cmp op e1 e2 :
  peval_bool f (ComparisonExpression op e1 e2) =
    obind (peval f e1) (fun v1 =>
      if unknown v1 then Ret BN_UNKNOWN
      else obind (peval f e2) (fun v2 =>
        Ret (if unknown v2 then BN_UNKNOWN else bn_of_bool (comparison op v1 v2)))).
Proof.
  rewrite !peval_bool_spec. unfold peval. cbn [eval]. unfold as_value, booleval.
  rewrite !pure_bind. destruct (eval e1 tt) as [[] [v1|]]; [|done]. cbn [snd obind mret M_ret].
  destruct (unknown v1); [done|]. rewrite !pure_bind.
  destruct (eval e2 tt) as [[] [v2|]]; [|done]. cbn [snd obind mret M_ret].
  by rewrite truth_Value_of_bn.
Qed.

Lemma peval_bool_between e l u :
  peval_bool f (BetweenExpression e l u) =
    obind (peval f e) (fun ve =>
      if unknown ve then Ret BN_UNKNOWN
      else obind (peval f l) (fun vl =>
        if negb (unknown vl) && op_ls ve vl then Ret BN_FALSE
        else obind (peval f u) (fun vu =>
          Ret (if negb (unknown vu) && op_gr ve vu then BN_FALSE
               else if unknown vl || unknown vu then BN_UNKNOWN else BN_TRUE)))).
Proof.
  rewrite !peval_bool_spec. unfold peval. cbn [eval]. unfold as_value, between_eval.
  rewrite !pure_bind. destruct (eval e tt) as [[] [ve|]]; [|done]. cbn [snd obind mret M_ret].
  destruct (unknown ve); [done|]. rewrite !pure_bind.
  destruct (eval l tt) as [[] [vl|]]; [|done]. cbn [snd obind mret M_ret].
  destruct (negb (unknown vl) && op_ls ve vl); [done|]. rewrite !pure_bind.
  destruct (eval u tt) as [[] [vu|]]; [|done]. cbn [snd obind mret M_ret].
  by rewrite truth_Value_of_bn.
Qed.

Lemma peval_bool_in e l :
  peval_bool f (InExpression e l) =
    obind (peval f e) (fun ve =>
      if unknown ve then Ret BN_UNKNOWN else
        (in_loop ve BN_FALSE (map (eval (H0 := pure_env f)) l) tt).2).
Proof.
  rewrite !peval_bool_spec. unfold peval. cbn [eval]. unfold as_value, in_eval.
  rewrite !pure_bind. destruct (eval e tt) as [[] [ve|]]; [|done]. cbn [snd obind mret M_ret].
  destruct (unknown ve); [done|]. destruct (in_loop ve _ _ tt) as [[] [bn|]]; [|done].
  cbn [snd obind mret M_ret]. by rewrite truth_Value_of_bn.
Qed.
End equations.

(** ** Three-valued logic *)

(** FALSE < UNKNOWN < TRUE *)
Definition rank (bn : BoolOrNone) : Z :=
  match bn with BN_FALSE => 0 | BN_UNKNOWN => 1 | BN_TRUE => 2 end.

(** [IN] written as a disjunction of equalities *)
Fixpoint or_equal (e x : Expression) (l : list Expression) : Expression :=
  match l with
  | [] => ComparisonExpression eqOp e x
  | y :: l' => OrExpression (ComparisonExpression eqOp e x) (or_equal e y l')
  end.

(** what the values of earlier elements leave of a disjunction *)
Definition or_after (r bn : BoolOrNone) : BoolOrNone :=
  if decide (bn = BN_TRUE) then BN_TRUE
  else if decide (r = BN_FALSE /\ bn = BN_FALSE) then BN_FALSE else BN_UNKNOWN.

Lemma in_loop_or `{Platform} f e ve r x l :
  peval f e = Ret ve -> unknown ve = false -> r ≠ BN_TRUE ->
  (in_loop ve r (map (eval (H0 := pure_env f)) (x :: l)) tt).2 =
    obind (peval_bool f (or_equal e x l)) (fun bn => Ret (or_after r bn)).
Proof.
  intros He Hve. revert x r. induction l as [|y l IH]; intros x r Hr; cbn [map or_equal].
  - rewrite peval_bool_cmp, He. cbn [obind in_loop]. rewrite Hve, pure_bind.
    change (eval (H0 := pure_env f) x tt).2 with (peval f x).
    destruct (peval f x) as [v|]; [|done]. cbn [obind]. destruct (unknown v) eqn:Hv.
    + by destruct r.
    + cbn [comparison]. destruct (op_eq ve v); by destruct r.
  - rewrite peval_bool_or, peval_bool_cmp, He. cbn [obind]. rewrite Hve.
    change (in_loop ve r (eval (H0 := pure_env f) x :: eval (H0 := pure_env f) y ::
      map (eval (H0 := pure_env f)) l)) with
      (li ← eval (H0 := pure_env f) x;
       if unknown li then in_loop ve BN_UNKNOWN (map (eval (H0 := pure_env f)) (y :: l))
       else if op_eq ve li then mret BN_TRUE
       else in_loop ve r (map (eval (H0 := pure_env f)) (y :: l))).
    rewrite pure_bind. change (eval (H0 := pure_env f) x tt).2 with (peval f x).
    destruct (peval f x) as [v|]; [|done]. cbn [obind comparison]. destruct (unknown v) eqn:Hv.
    + rewrite IH by done. cbn. destruct (peval_bool f (or_equal e y l)) as [[]|]; by destruct r.
    + destruct (op_eq ve v); [by destruct r|]. rewrite IH by done. cbn.
      destruct (peval_bool f (or_equal e y l)) as [[]|]; by destruct r.
Qed.

(** ** Ordered values

    The numbers with a place in the order: every one but the NaNs. *)
Definition ordered (v : Value) : bool :=
  match v with
  | V_UNKNOWN | V_EXACT _ => true
  | V_INEXACT S754_nan => false
  | V_INEXACT _ => true
  | _ => false
  end.

(** on ordered numbers "not before" is "at least" *)
Lemma ordered_not_before v1 v2 :
  ordered v1 = true -> ordered v2 = true -> unknown v1 = false -> unknown v2 = false ->
  op_ge v1 v2 = negb (op_ls v1 v2) /\ op_le v1 v2 = negb (op_gr v1 v2).
Proof.
  unfold op_ge, op_le, op_ls, op_gr.
  destruct v1 as [| | |i1|x1], v2 as [| | |i2|x2]; try done; intros H1 H2 _ _;
    cbn [promoteNumeric np_ge np_le np_ls np_gr].
  - by rewrite (Z.leb_antisym i1 i2), (Z.leb_antisym i2 i1).
  - assert (x2 ≠ S754_nan) by (by intros ->). pose proof (double_of_int_not_nan i1).
    by rewrite !SFleb_ltb by done.
  - assert (x1 ≠ S754_nan) by (by intros ->). pose proof (double_of_int_not_nan i2).
    by rewrite !SFleb_ltb by done.
  - assert (x1 ≠ S754_nan) by (by intros ->). assert (x2 ≠ S754_nan) by (by intros ->).
    by rewrite !SFleb_ltb by done.
Qed.

(** ** LIKE patterns *)

(** the part of POSIX basic regular expressions that [toRegex] writes *)
Inductive bre_item := B_char (c : ascii) | B_any | B_any_star.

Definition bre_special (c : ascii) : bool :=
  isc c "\" || isc c "^" || isc c "$" || isc c "." || isc c "*" || isc c "[".

Definition bre_print_item (i : bre_item) : str :=
  match i with
  | B_any => s_ "."
  | B_any_star => s_ ".*"
  | B_char c =>
      if isc c "]" then s_ "[]]"
      else if isc c "-" then s_ "[-]"
      else if bre_special c then ["\"; c]
      else [c]
  end.
Definition bre_print (l : list bre_item) : str := concat (map bre_print_item l).

Fixpoint suffixes (s : str) : list str :=
  match s with [] => [[]] | _ :: s' => s :: suffixes s' end.

(** a whole string against a sequence of items *)
Fixpoint bre_match (l : list bre_item) (s : str) : bool :=
  match l with
  | [] => match s with [] => true | _ => false end
  | B_char c :: l' => match s with x :: s' => isc x c && bre_match l' s' | [] => false end
  | B_any :: l' => match s with _ :: s' => bre_match l' s' | [] => false end
  | B_any_star :: l' => existsb (bre_match l') (suffixes s)
  end.

Definition bre_no_nul (i : bre_item) : bool :=
  match i with B_char c => negb (isc c NUL) | _ => true end.

(** POSIX: an expression between [^] and [$] made of characters (special ones
    escaped or in brackets), [.] and [.*] compiles, and matches the strings that
    are the concatenation of what its items match. *)
Class PosixBRE `{Platform} := {
  bre_compiles : forall l, forallb bre_no_nul l = true ->
    regcomp (("^" :: bre_print l) ++ ["$"]) = true;
  bre_matches : forall l s, forallb bre_no_nul l = true -> NUL ∉ s ->
    regexec (("^" :: bre_print l) ++ ["$"]) s = bre_match l s
}.

(** What LIKE means (JMS 1.1, 3.8.1.2): [%] stands for any characters, [_] for
    one, and a character after the escape character for itself. *)
Inductive like (esc : option ascii) : str -> str -> Prop :=
| like_nil : like esc [] []
| like_percent p t s : esc ≠ Some "%" -> like esc p s -> like esc ("%" :: p) (t ++ s)
| like_underscore p c s : esc ≠ Some "_" -> like esc p s -> like esc ("_" :: p) (c :: s)
| like_char p c s :
    c ≠ "%" -> c ≠ "_" -> esc ≠ Some c -> like esc p s -> like esc (c :: p) (c :: s)
| like_escaped p e c s : esc = Some e -> like esc p s -> like esc (e :: c :: p) (c :: s).

(** a pattern in which the escape character always precedes another character *)
Fixpoint escapes_ok (esc : option ascii) (p : str) : bool :=
  match p with
  | [] => true
  | c :: p' =>
      if bool_decide (esc = Some c) then
        match p' with
        | d :: p'' => negb (bool_decide (esc = Some d)) && escapes_ok esc p''
        | [] => false
        end
      else escapes_ok esc p'
  end.

(** the items a pattern stands for *)
Fixpoint like_items (esc : option ascii) (escaped : bool) (p : str) : list bre_item :=
  match p with
  | [] => []
  | c :: p' =>
      if bool_decide (esc = Some c) then like_items esc true p'
      else (if escaped then B_char c
            else if isc c "%" then B_any_star
            else if isc c "_" then B_any
            else B_char c) :: like_items esc false p'
  end.

Definition escape_char (escape : str) : option ascii :=
  match escape with [e] => if isc e NUL then None else Some e | _ => None end.

Lemma toRegex_loop_items e p b :
  toRegex_loop e b p = bre_print (like_items (if isc e NUL then None else Some e) b p).
Proof.
  revert b. induction p as [|c p IH]; intros b; [done|]. cbn [toRegex_loop like_items].
  replace (bool_decide ((if isc e NUL then None else Some e) = Some c))
    with (negb (isc e NUL) && isc c e).
  2: { destruct (isc e NUL) eqn:E; cbn [negb andb].
       - symmetry. by apply bool_decide_eq_false.
       - apply bool_decide_ext. split; [by intros ->|by intros [= ->]]. }
  destruct (negb (isc e NUL) && isc c e); [apply IH|].
  change (bre_print (?i :: ?l)) with (bre_print_item i ++ bre_print l). rewrite <- IH. f_equal.
  destruct (isc c "%") eqn:E1; [apply isc_true in E1 as ->; by destruct b|].
  destruct (isc c "_") eqn:E2; [apply isc_true in E2 as ->; by destruct b|].
  unfold bre_print_item, bre_special. by destruct b.
Qed.

Lemma toRegex_items p escape :
  length escape <= 1 ->
  toRegex p escape = Ret (("^" :: bre_print (like_items (escape_char escape) false p)) ++ ["$"]).
Proof.
  intros Hl. unfold toRegex. rewrite (proj2 (Nat.ltb_ge 1 (length escape))) by done.
  rewrite toRegex_loop_items. destruct escape as [|e [|]]; [done|done|cbn in Hl; lia].
Qed.

Lemma suffixes_spec s t : In t (suffixes s) <-> exists u, s = u ++ t.
Proof.
  induction s as [|c s IH]; cbn [suffixes].
  - split.
    + intros [<-|[]]. by exists [].
    + intros ([|x u] & Hu); [|done]. left. by cbn in Hu.
  - cbn [In]. rewrite IH. split.
    + intros [<-|(u & ->)]; [by exists []|by exists (c :: u)].
    + intros ([|x u] & Hu); [by left|]. cbn in Hu. simplify_eq. right. by exists u.
Qed.

(** the items match what the pattern means *)
Lemma like_items_match esc p s :
  escapes_ok esc p = true -> (bre_match (like_items esc false p) s = true <-> like esc p s).
Proof.
  revert s. induction p as [p IH] using (induction_ltof1 _ (@length ascii)). unfold ltof in IH.
  intros s Hok. destruct p as [|c p]; cbn [like_items escapes_ok] in *.
  { split; [destruct s; [constructor|done]|by inversion 1]. }
  destruct (bool_decide (esc = Some c)) eqn:Ec.
  - apply bool_decide_eq_true in Ec. destruct p as [|d p]; [done|].
    apply andb_true_iff in Hok as [Hd Hok]. apply negb_true_iff in Hd.
    cbn [like_items]. rewrite Hd. cbn [bre_match]. destruct s as [|x s].
    { split; [done|]. inversion 1; subst; done. }
    rewrite andb_true_iff, IH, isc_true by (cbn [length]; done || lia). split.
    + intros [-> Hl]. by apply like_escaped.
    + by inversion 1; subst; simplify_eq.
  - apply bool_decide_eq_false in Ec.
    destruct (isc c "%") eqn:E1; [|destruct (isc c "_") eqn:E2].
    + apply isc_true in E1 as ->. cbn [bre_match]. rewrite existsb_exists. split.
      * intros (t & (u & ->)%suffixes_spec & Ht). apply like_percent; [done|].
        apply IH; [cbn; lia|done|done].
      * inversion 1; subst; try done. eexists. split; [apply suffixes_spec; by eexists|].
        apply IH; [cbn; lia|done|done].
    + apply isc_true in E2 as ->. cbn [bre_match]. destruct s as [|x s].
      { split; [done|]. inversion 1. }
      rewrite IH by (cbn; done || lia). split; [by apply like_underscore|].
      by inversion 1; subst.
    + apply isc_false in E1, E2. cbn [bre_match]. destruct s as [|x s].
      { split; [done|]. inversion 1; subst; done. }
      rewrite andb_true_iff, IH, isc_true by (cbn; done || lia). split.
      * intros [-> Hl]. by apply like_char.
      * inversion 1; subst; done.
Qed.

Lemma like_items_no_nul esc b p : NUL ∉ p -> forallb bre_no_nul (like_items esc b p) = true.
Proof.
  revert b. induction p as [|c p IH]; intros b Hp; [done|].
  apply not_elem_of_cons in Hp as [Hc Hp]. cbn [like_items].
  destruct (bool_decide _); [by apply IH|]. cbn [forallb]. rewrite IH by done.
  assert (Hn : negb (isc c NUL) = true) by (by apply negb_true_iff, isc_false).
  destruct b, (isc c "%"), (isc c "_"); cbn [bre_no_nul]; by rewrite ?Hn.
Qed.

Lemma c_str_id s : NUL ∉ s -> c_str s = s.
Proof.
  induction s as [|c s IH]; [done|]. intros [Hc Hs]%not_elem_of_cons. cbn [c_str].
  rewrite (proj2 (isc_false c NUL)) by done. by rewrite IH.
Qed.

Lemma bre_print_no_nul l : forallb bre_no_nul l = true -> NUL ∉ bre_print l.
Proof.
  induction l as [|i l IH]; [intros _; apply not_elem_of_nil|]. cbn [forallb].
  intros [Hi Hl]%andb_true_iff. change (bre_print (i :: l)) with (bre_print_item i ++ bre_print l).
  apply not_elem_of_app. split; [|auto].
  destruct i as [c| |]; cbn [bre_print_item bre_no_nul] in *;
    [|apply (bool_decide_unpack (NUL ∉ _)); vm_compute; exact I..].
  apply negb_true_iff, isc_false in Hi.
  destruct (isc c "]"); [apply (bool_decide_unpack (NUL ∉ _)); vm_compute; exact I|].
  destruct (isc c "-"); [apply (bool_decide_unpack (NUL ∉ _)); vm_compute; exact I|].
  destruct (bre_special c); rewrite !not_elem_of_cons; split_and?; try done; apply not_elem_of_nil.
Qed.

Lemma regex_no_nul l :
  forallb bre_no_nul l = true -> NUL ∉ (("^" :: bre_print l) ++ ["$"]).
Proof.
  intros Hl. cbn [app]. rewrite not_elem_of_cons, not_elem_of_app, not_elem_of_cons.
  split_and!; [done|by apply bre_print_no_nul|done|apply not_elem_of_nil].
Qed.

(** ** A regular expression matcher that has the documented behaviour *)

Fixpoint bre_parse (s : str) : option (list bre_item) :=
  match s with
  | "$" :: [] => Some []
  | "." :: "*" :: r => cons B_any_star <$> bre_parse r
  | "." :: r => cons B_any <$> bre_parse r
  | "\" :: c :: r => cons (B_char c) <$> bre_parse r
  | "[" :: c :: _ :: r => cons (B_char c) <$> bre_parse r
  | c :: r => cons (B_char c) <$> bre_parse r
  | [] => None
  end.

Definition toy_platform : Platform := {|
  lexical_cast_int64 := fun s => Some (Z.of_nat (length s));
  lexical_cast_double := fun s => Some (S754_zero false);
  regcomp := fun s => match s with "^" :: r => bool_decide (bre_parse r ≠ None) | _ => false end;
  regexec := fun re s =>
    match re with
    | "^" :: r => match bre_parse r with Some l => bre_match l s | None => false end
    | _ => false
    end
|}.

Definition not_star_first (s : str) : Prop := match s with "*" :: _ => False | _ => True end.

Lemma bre_print_not_star l : not_star_first (bre_print l ++ ["$"]).
Proof.
  destruct l as [|[c| |] l]; cbn; try done.
  destruct (isc c "]"); [done|]. destruct (isc c "-"); [done|].
  destruct (bre_special c) eqn:E; [done|]. cbn. unfold not_star_first.
  destruct c as [[] [] [] [] [] [] [] []]; try done; by vm_compute in E.
Qed.

Lemma bre_parse_any r : not_star_first r -> bre_parse ("." :: r) = cons B_any <$> bre_parse r.
Proof. destruct r as [|[[] [] [] [] [] [] [] []] r]; done. Qed.

Lemma bre_parse_plain c r :
  bre_special c = false -> r ≠ [] -> bre_parse (c :: r) = cons (B_char c) <$> bre_parse r.
Proof.
  intros H Hr. destruct r as [|x r]; [done|].
  destruct c as [[] [] [] [] [] [] [] []]; try done; by vm_compute in H.
Qed.

Lemma bre_parse_print l : bre_parse (bre_print l ++ ["$"]) = Some l.
Proof.
  induction l as [|i l IH]; [done|].
  change (bre_print (i :: l)) with (bre_print_item i ++ bre_print l). rewrite <- app_assoc.
  destruct i as [c| |]; cbn [bre_print_item].
  - destruct (isc c "]") eqn:E1; [apply isc_true in E1 as ->; cbn [s_ list_ascii_of_string app]|].
    { change (bre_parse _) with (cons (B_char "]") <$> bre_parse (bre_print l ++ ["$"])).
      by rewrite IH. }
    destruct (isc c "-") eqn:E2; [apply isc_true in E2 as ->; cbn [s_ list_ascii_of_string app]|].
    { change (bre_parse _) with (cons (B_char "-") <$> bre_parse (bre_print l ++ ["$"])).
      by rewrite IH. }
    destruct (bre_special c) eqn:E3; cbn [app].
    + change (bre_parse _) with (cons (B_char c) <$> bre_parse (bre_print l ++ ["$"])).
      by rewrite IH.
    + rewrite bre_parse_plain by (done || by destruct (bre_print l)). by rewrite IH.
  - cbn [s_ list_ascii_of_string app]. rewrite bre_parse_any by apply bre_print_not_star.
    by rewrite IH.
  - cbn [s_ list_ascii_of_string app].
    change (bre_parse _) with (cons B_any_star <$> bre_parse (bre_print l ++ ["$"])).
    by rewrite IH.
Qed.

Lemma toy_PosixBRE : PosixBRE (H := toy_platform).
Proof.
  split.
  - intros l _. cbn [regcomp toy_platform app]. rewrite bre_parse_print. by apply bool_decide_eq_true.
  - intros l s _ _. cbn [regexec toy_platform app]. by rewrite bre_parse_print.
Qed.

(** ** What evaluation promises *)

(**  AND, OR and NOT are the connectives of three-valued logic.  With FALSE
    below UNKNOWN below TRUE, AND is the minimum, OR the maximum and NOT the
    reversal, and a FALSE left operand of AND (a TRUE one of OR) decides without
    the right one, whatever that would do. *)
Theorem connectives_kleene `{Platform} (f : str -> Value) (e1 e2 : Expression) (a b : BoolOrNone) :
  peval_bool f e1 = Ret a -> peval_bool f e2 = Ret b ->
  (exists c, peval_bool f (AndExpression e1 e2) = Ret c /\ rank c = Z.min (rank a) (rank b)) /\
  (exists c, peval_bool f (OrExpression e1 e2) = Ret c /\ rank c = Z.max (rank a) (rank b)) /\
  (exists c, peval_bool f (UnaryBooleanExpression notOp e1) = Ret c /\ rank c = (2 - rank a)%Z) /\
  (a = BN_FALSE -> forall e, peval_bool f (AndExpression e1 e) = Ret BN_FALSE) /\
  (a = BN_TRUE -> forall e, peval_bool f (OrExpression e1 e) = Ret BN_TRUE).
Proof.
  intros Ha Hb. rewrite peval_bool_and, peval_bool_or, peval_bool_not, Ha, Hb. cbn [obind].
  split_and!.
  - destruct a, b; eexists; (split; [reflexivity|done]).
  - destruct a, b; eexists; (split; [reflexivity|done]).
  - destruct a; eexists; (split; [reflexivity|done]).
  - intros -> e. by rewrite peval_bool_and, Ha.
  - intros -> e. by rewrite peval_bool_or, Ha.
Qed.

Lemma connectives_kleene_witness :
  exists c, peval_bool (H := toy_platform) (fun _ => V_UNKNOWN)
    (AndExpression (Literal (V_BOOL true)) (Identifier (s_ "a"))) = Ret c /\ rank c = 1%Z.
Proof.
  exact (proj1 (connectives_kleene (H := toy_platform) (fun _ => V_UNKNOWN) (Literal (V_BOOL true))
    (Identifier (s_ "a")) BN_TRUE BN_UNKNOWN eq_refl eq_refl)).
Defined.

(**  [e IN (x, l...)] is the disjunction [e = x OR e = l1 OR ...]: the loop
    with its sticky UNKNOWN and its early return gives, in every environment,
    the same truth value or the same undefined behaviour as evaluating the
    equalities and the short-circuiting ORs. *)
Theorem in_is_disjunction `{Platform} (f : str -> Value) (e x : Expression) (l : list Expression) :
  peval_bool f (InExpression e (x :: l)) = peval_bool f (or_equal e x l).
Proof.
  rewrite peval_bool_in. destruct (peval f e) as [ve|ex] eqn:He; cbn [obind].
  - destruct (unknown ve) eqn:Hve.
    + symmetry. revert x. induction l as [|y l IH]; intros x; cbn [or_equal].
      * by rewrite peval_bool_cmp, He; cbn [obind]; rewrite Hve.
      * by rewrite peval_bool_or, peval_bool_cmp, He; cbn [obind]; rewrite Hve, IH.
    + rewrite (in_loop_or f e ve BN_FALSE x l) by done.
      by destruct (peval_bool f (or_equal e x l)) as [[]|].
  - destruct l; cbn [or_equal]; rewrite ?peval_bool_or, peval_bool_cmp, He; done.
Qed.

Definition ordered_outcome (o : outcome Value) : bool :=
  match o with Ret v => ordered v | Throw _ => true end.

(**  On numbers (other than NaN) and missing values, [e BETWEEN l AND u] is
    [e >= l AND e <= u]: the same truth value or the same undefined behaviour,
    with every combination of UNKNOWN operands and of exact and approximate
    numbers. *)
Theorem between_is_conjunction `{Platform} (f : str -> Value) (e l u : Expression) :
  ordered_outcome (peval f e) = true -> ordered_outcome (peval f l) = true ->
  ordered_outcome (peval f u) = true ->
  peval_bool f (BetweenExpression e l u) =
    peval_bool f (AndExpression (ComparisonExpression greqOp e l) (ComparisonExpression lseqOp e u)).
Proof.
  intros He Hl Hu. rewrite peval_bool_between, peval_bool_and, !peval_bool_cmp.
  destruct (peval f e) as [ve|ex]; [|done]. cbn [obind ordered_outcome comparison] in *.
  destruct (unknown ve) eqn:Eve; [done|]. destruct (peval f l) as [vl|ex]; [|done].
  cbn [obind ordered_outcome] in *. destruct (unknown vl) eqn:Evl; cbn [negb andb orb].
  - destruct (peval f u) as [vu|ex]; [|done]. cbn [obind ordered_outcome] in *.
    destruct (unknown vu) eqn:Evu; [done|].
    destruct (ordered_not_before ve vu He Hu Eve Evu) as [_ ->]. by destruct (op_gr ve vu).
  - destruct (ordered_not_before ve vl He Hl Eve Evl) as [-> _].
    destruct (op_ls ve vl); [done|]. cbn [negb bn_of_bool].
    destruct (peval f u) as [vu|ex]; [|done]. cbn [obind ordered_outcome] in *.
    destruct (unknown vu) eqn:Evu; [done|].
    destruct (ordered_not_before ve vu He Hu Eve Evu) as [_ ->]. by destruct (op_gr ve vu).
Qed.

Lemma between_is_conjunction_witness :
  peval_bool (H := toy_platform) (fun _ => V_EXACT 5)
    (BetweenExpression (Identifier (s_ "a")) (Literal (V_EXACT 3)) (Literal V_UNKNOWN)) =
  peval_bool (H := toy_platform) (fun _ => V_EXACT 5)
    (AndExpression (ComparisonExpression greqOp (Identifier (s_ "a")) (Literal (V_EXACT 3)))
                   (ComparisonExpression lseqOp (Identifier (s_ "a")) (Literal V_UNKNOWN))).
Proof. apply (between_is_conjunction (H := toy_platform)); reflexivity. Defined.

(**  On strings BETWEEN is TRUE whatever the bounds, although [>=] and [<=]
    between strings are FALSE. *)
Theorem between_strings_true `{Platform} (f : str -> Value) (s l u : str) :
  peval_bool f (BetweenExpression (StringLiteral s) (StringLiteral l) (StringLiteral u)) =
    Ret BN_TRUE /\
  peval_bool f (ComparisonExpression greqOp (StringLiteral s) (StringLiteral l)) = Ret BN_FALSE.
Proof. by rewrite peval_bool_between, peval_bool_cmp. Qed.

(** C37: LIKE.  With POSIX basic regular expressions behaving as documented, the
    expression built by [toRegex] compiles, and on a string the LIKE expression
    is TRUE exactly when the string matches the pattern ([%] any characters, [_]
    one character, the escape character quoting the next), FALSE otherwise, for
    every pattern in which the escape character precedes another character than
    itself. *)
Theorem like_correct `{PosixBRE} (f : str -> Value) (e : Expression) (pattern escape s : str) :
  length escape <= 1 -> NUL ∉ pattern -> NUL ∉ s ->
  escapes_ok (escape_char escape) pattern = true -> peval f e = Ret (V_STRING s) ->
  exists le bn, new_LikeExpression e pattern escape = Ret le /\ peval_bool f le = Ret bn /\
    bn ≠ BN_UNKNOWN /\ (bn = BN_TRUE <-> like (escape_char escape) pattern s).
Proof.
  intros Hl Hp Hs Hok He. unfold new_LikeExpression. rewrite toRegex_items by done.
  set (items := like_items (escape_char escape) false pattern).
  assert (Hi : forallb bre_no_nul items = true) by by apply like_items_no_nul.
  rewrite c_str_id by by apply regex_no_nul. rewrite bre_compiles by done.
  eexists _, _. split; [reflexivity|]. split.
  { rewrite peval_bool_spec. unfold peval in *. cbn [eval]. unfold as_value, like_eval.
    rewrite !pure_bind, He. cbn [obind mret M_ret snd]. by rewrite truth_Value_of_bn. }
  rewrite !c_str_id by (done || by apply regex_no_nul). rewrite bre_matches by done.
  rewrite <- (like_items_match (escape_char escape) pattern s Hok). fold items.
  by destruct (bre_match items s).
Qed.

Lemma like_correct_witness :
  exists le bn, new_LikeExpression (H := toy_platform) (StringLiteral (s_ "50%")) (s_ "_0!%") (s_ "!")
      = Ret le /\
    peval_bool (H := toy_platform) (fun _ => V_UNKNOWN) le = Ret bn /\ bn ≠ BN_UNKNOWN /\
    (bn = BN_TRUE <-> like (escape_char (s_ "!")) (s_ "_0!%") (s_ "50%")).
Proof.
  apply (like_correct (H := toy_platform) (H0 := toy_PosixBRE) (fun _ => V_UNKNOWN));
    [cbn; lia|apply (bool_decide_unpack (NUL ∉ _)); vm_compute; exact I
    |apply (bool_decide_unpack (NUL ∉ _)); vm_compute; exact I|vm_compute; reflexivity|reflexivity].
Defined.

(** The selector [1/0 = 1] has no defined behaviour. *)
Lemma division_by_zero_undefined `{Platform} (f : str -> Value) :
  peval_bool f (ComparisonExpression eqOp
    (ArithmeticExpression div (Literal (V_EXACT 1)) (Literal (V_EXACT 0))) (Literal (V_EXACT 1))) =
  Throw UndefinedBehaviour.
Proof. reflexivity. Qed.
