(* ===== verification/SelectorParse.v ===== *)
(** * The selector parser (class Parse and TopExpression::parse of
    src/qpid/broker/SelectorExpression.cpp)

    The recursive-descent parser, one function per member function of [Parse]
    and one per loop, over a [Tokeniser] and the member [error].  A null
    pointer is [None].  The recursion is bounded by a number; running out of it
    is the outcome [Throw OutOfFuel], and [parse] gives it [8 * (n + 2)] for a
    selector of [n] characters.

    [derives] is the grammar of the comment in SelectorExpression.cpp with the
    expression each phrase stands for.  [parse_sound] (soundness, termination and
    errors) and [parse_complete] (completeness) say that the parser accepts
    exactly that language. *)

From Stdlib Require Import ZArith Lia Ascii String.
From stdpp Require Import strings.
From S2P Require Import Prelude Double SelectorValue SelectorToken SelectorExpression.
Local Open Scope char_scope.
Local Open Scope nat_scope.

(** ** The parser *)

(** [what] is the text of the last exception thrown. *)
Record PState := mkPState { tokeniser : Tokeniser; error : str; what : str }.

(** the calls on the tokeniser *)
Definition lift_tok {A} (m : M Tokeniser A) : M PState A := fun st =>
  let '(t, o) := m (tokeniser st) in (mkPState t (error st) (what st), o).
Definition next : M PState Token := lift_tok nextToken.
Definition push_back : M PState unit := lift_tok (returnTokens 1).

(** [error = msg; return 0] *)
Definition fail_with {A} (msg : str) : M PState (option A) := fun st =>
  (mkPState (tokeniser st) msg (what st), Ret None).

(** [if (!e.get()) return 0;] *)
Definition bind_ptr {A B} (m : M PState (option A)) (k : A -> M PState (option B))
  : M PState (option B) :=
  x ← m; match x with Some e => k e | None => mret None end.
Notation "'let?' x := m 'in' k" := (bind_ptr m (fun x => k))
  (at level 200, x name, m at level 100, k at level 200, right associativity) : qpid_scope.
Local Open Scope qpid_scope.

(** [throw std::range_error(msg)] *)
Definition throw_range_error {A} (msg : str) : M PState A := fun st =>
  (mkPState (tokeniser st) (error st) msg, Throw RangeError).

Definition throwParseError {A} (msg : str) : M PState A :=
  push_back ;;
  t ← next;
  throw_range_error (s_ "Illegal selector: '" ++ val t ++ s_ "': " ++ msg).

Section parser.
Context `{Platform}.

Definition primaryExpression : M PState (option Expression) :=
  t ← next;
  match type t with
  | T_IDENTIFIER => mret (Some (Identifier (val t)))
  | T_STRING => mret (Some (StringLiteral (val t)))
  | T_FALSE => mret (Some (Literal (V_BOOL false)))
  | T_TRUE => mret (Some (Literal (V_BOOL true)))
  | T_NUMERIC_EXACT =>
      match lexical_cast_int64 (val t) with
      | Some i => mret (Some (Literal (V_EXACT i)))
      | None => throw BadLexicalCast
      end
  | T_NUMERIC_APPROX =>
      match lexical_cast_double (val t) with
      | Some x => mret (Some (Literal (V_INEXACT x)))
      | None => throw BadLexicalCast
      end
  | _ => fail_with (s_ "expected literal or identifier")
  end.

(** [new LikeExpression(e1.release(), ...)] *)
Definition like_node (e1 : Expression) (like escape : str) : M PState (option Expression) :=
  e ← lift_outcome (new_LikeExpression e1 like escape); mret (Some e).

Definition comparison_op (ty : TokenType) : option ComparisonOperator :=
  match ty with
  | T_EQUAL => Some eqOp | T_NEQ => Some neqOp | T_LESS => Some lsOp
  | T_GRT => Some grOp | T_LSEQ => Some lseqOp | T_GREQ => Some greqOp
  | _ => None
  end.

Fixpoint orExpression (n : nat) : M PState (option Expression) :=
  match n with
  | O => throw OutOfFuel
  | S n => let? e := andExpression n in or_loop n e
  end

with or_loop (n : nat) (e : Expression) : M PState (option Expression) :=
  match n with
  | O => throw OutOfFuel
  | S n =>
      t ← next;
      match type t with
      | T_OR => let? e2 := andExpression n in or_loop n (OrExpression e e2)
      | _ => push_back ;; mret (Some e)
      end
  end

with andExpression (n : nat) : M PState (option Expression) :=
  match n with
  | O => throw OutOfFuel
  | S n => let? e := comparisonExpression n in and_loop n e
  end

with and_loop (n : nat) (e : Expression) : M PState (option Expression) :=
  match n with
  | O => throw OutOfFuel
  | S n =>
      t ← next;
      match type t with
      | T_AND => let? e2 := comparisonExpression n in and_loop n (AndExpression e e2)
      | _ => push_back ;; mret (Some e)
      end
  end

with specialComparisons (n : nat) (e1 : Expression) : M PState (option Expression) :=
  match n with
  | O => throw OutOfFuel
  | S n =>
      t ← next;
      match type t with
      | T_LIKE =>
          t ← next;
          if decide (type t ≠ T_STRING) then fail_with (s_ "expected string after LIKE")
          else
            t' ← next;
            if decide (type t' = T_ESCAPE) then
              e ← next;
              if decide (type e ≠ T_STRING) then fail_with (s_ "expected string after ESCAPE")
              else if 1 <? length (val e)
              then throwParseError (s_ "single character string required after ESCAPE")
              else like_node e1 (val t) (val e)
            else push_back ;; like_node e1 (val t) []
      | T_BETWEEN =>
          let? lower := addExpression n in
          t ← next;
          if decide (type t ≠ T_AND) then fail_with (s_ "expected AND after BETWEEN")
          else let? upper := addExpression n in
               mret (Some (BetweenExpression e1 lower upper))
      | T_IN =>
          t ← next;
          if decide (type t ≠ T_LPAREN) then fail_with (s_ "missing '(' after IN")
          else let? l := in_list_loop n [] in
               push_back ;;
               t ← next;
               if decide (type t ≠ T_RPAREN)
               then fail_with (s_ "missing ',' or ')' after IN")
               else mret (Some (InExpression e1 l))
      | _ => fail_with (s_ "expected LIKE, IN or BETWEEN")
      end
  end

(** the [do ... while] of IN: the token that ends it has been read *)
with in_list_loop (n : nat) (l : list Expression) : M PState (option (list Expression)) :=
  match n with
  | O => throw OutOfFuel
  | S n =>
      let? e := addExpression n in
      t ← next;
      match type t with
      | T_COMMA => in_list_loop n (l ++ [e])
      | _ => mret (Some (l ++ [e]))
      end
  end

with comparisonExpression (n : nat) : M PState (option Expression) :=
  match n with
  | O => throw OutOfFuel
  | S n =>
      t ← next;
      if decide (type t = T_NOT) then
        let? e := comparisonExpression n in
        mret (Some (UnaryBooleanExpression notOp e))
      else
        push_back ;;
        let? e1 := addExpression n in
        t ← next;
        match type t with
        | T_IS =>
            t ← next;
            match type t with
            | T_NULL => mret (Some (UnaryBooleanExpression isNullOp e1))
            | T_NOT =>
                t ← next;
                if decide (type t = T_NULL)
                then mret (Some (UnaryBooleanExpression isNonNullOp e1))
                else fail_with (s_ "expected NULL or NOT NULL after IS")
            | _ => fail_with (s_ "expected NULL or NOT NULL after IS")
            end
        | T_NOT =>
            let? e := specialComparisons n e1 in
            mret (Some (UnaryBooleanExpression notOp e))
        | T_BETWEEN | T_LIKE | T_IN => push_back ;; specialComparisons n e1
        | _ =>
            push_back ;;
            t ← next;
            match comparison_op (type t) with
            | None => push_back ;; mret (Some e1)
            | Some op =>
                let? e2 := addExpression n in
                mret (Some (ComparisonExpression op e1 e2))
            end
        end
  end

with addExpression (n : nat) : M PState (option Expression) :=
  match n with
  | O => throw OutOfFuel
  | S n => let? e := multiplyExpression n in add_loop n e
  end

with add_loop (n : nat) (e : Expression) : M PState (option Expression) :=
  match n with
  | O => throw OutOfFuel
  | S n =>
      t ← next;
      match type t with
      | T_PLUS =>
          let? e2 := multiplyExpression n in add_loop n (ArithmeticExpression add e e2)
      | T_MINUS =>
          let? e2 := multiplyExpression n in add_loop n (ArithmeticExpression sub e e2)
      | _ => push_back ;; mret (Some e)
      end
  end

with multiplyExpression (n : nat) : M PState (option Expression) :=
  match n with
  | O => throw OutOfFuel
  | S n => let? e := unaryArithExpression n in mult_loop n e
  end

with mult_loop (n : nat) (e : Expression) : M PState (option Expression) :=
  match n with
  | O => throw OutOfFuel
  | S n =>
      t ← next;
      match type t with
      | T_MULT =>
          let? e2 := unaryArithExpression n in mult_loop n (ArithmeticExpression mult e e2)
      | T_DIV =>
          let? e2 := unaryArithExpression n in mult_loop n (ArithmeticExpression div e e2)
      | _ => push_back ;; mret (Some e)
      end
  end

with unaryArithExpression (n : nat) : M PState (option Expression) :=
  match n with
  | O => throw OutOfFuel
  | S n =>
      t ← next;
      match type t with
      | T_LPAREN =>
          let? e := orExpression n in
          t ← next;
          if decide (type t ≠ T_RPAREN) then fail_with (s_ "missing ')' after '('")
          else mret (Some e)
      | T_MINUS =>
          let? e := unaryArithExpression n in
          mret (Some (UnaryArithExpression negate e))
      | _ => push_back ;; primaryExpression
      end
  end.

Definition fuel_for (exp : str) : nat := 8 * (length exp + 2).

Definition parse_run (exp : str) : M PState Expression :=
  b ← orExpression (fuel_for exp);
  match b with
  | None => msg ← gets error; throwParseError msg
  | Some b =>
      t ← next;
      if decide (type t ≠ T_EOS) then throwParseError (s_ "extra input") else mret b
  end.

(** [TopExpression::parse] *)
Definition parse (exp : str) : outcome Expression :=
  (parse_run exp (mkPState (new_Tokeniser exp) [] [])).2.
End parser.

(** ** The grammar

    The nonterminals of the comment at the top of SelectorExpression.cpp; the
    four that are chains of a binary operator, [X ::= Y (op Y)*], share one
    rule, and the operators associate to the left. *)

Inductive nonterminal := N_or | N_and | N_cmp | N_add | N_mul | N_unary.

Definition is_chain (nt : nonterminal) : bool :=
  match nt with N_cmp | N_unary => false | _ => true end.

Definition operand (nt : nonterminal) : nonterminal :=
  match nt with
  | N_or => N_and | N_and => N_cmp | N_add => N_mul | N_mul => N_unary
  | N_cmp => N_cmp | N_unary => N_unary
  end.

Definition binop (nt : nonterminal) (ty : TokenType)
  : option (Expression -> Expression -> Expression) :=
  match nt, ty with
  | N_or, T_OR => Some OrExpression
  | N_and, T_AND => Some AndExpression
  | N_add, T_PLUS => Some (ArithmeticExpression add)
  | N_add, T_MINUS => Some (ArithmeticExpression sub)
  | N_mul, T_MULT => Some (ArithmeticExpression mult)
  | N_mul, T_DIV => Some (ArithmeticExpression div)
  | _, _ => None
  end.

Section grammar.
Context `{Platform}.

Definition primary (t : Token) : option Expression :=
  match type t with
  | T_IDENTIFIER => Some (Identifier (val t))
  | T_STRING => Some (StringLiteral (val t))
  | T_FALSE => Some (Literal (V_BOOL false))
  | T_TRUE => Some (Literal (V_BOOL true))
  | T_NUMERIC_EXACT => (fun i => Literal (V_EXACT i)) <$> lexical_cast_int64 (val t)
  | T_NUMERIC_APPROX => (fun x => Literal (V_INEXACT x)) <$> lexical_cast_double (val t)
  | _ => None
  end.

(** [derives nt w e]: the tokens [w] are a phrase of [nt] and mean [e] *)
Inductive derives : nonterminal -> list Token -> Expression -> Prop :=
| d_chain nt w1 e1 w2 e :
    is_chain nt = true -> derives (operand nt) w1 e1 -> chain_tail nt e1 w2 e ->
    derives nt (w1 ++ w2) e
| d_not t w e :
    type t = T_NOT -> derives N_cmp w e ->
    derives N_cmp (t :: w) (UnaryBooleanExpression notOp e)
| d_value w e : derives N_add w e -> derives N_cmp w e
| d_is_null w e t1 t2 :
    derives N_add w e -> type t1 = T_IS -> type t2 = T_NULL ->
    derives N_cmp (w ++ [t1; t2]) (UnaryBooleanExpression isNullOp e)
| d_is_not_null w e t1 t2 t3 :
    derives N_add w e -> type t1 = T_IS -> type t2 = T_NOT -> type t3 = T_NULL ->
    derives N_cmp (w ++ [t1; t2; t3]) (UnaryBooleanExpression isNonNullOp e)
| d_special w1 e1 w2 e :
    derives N_add w1 e1 -> special e1 w2 e -> derives N_cmp (w1 ++ w2) e
| d_not_special w1 e1 t w2 e :
    derives N_add w1 e1 -> type t = T_NOT -> special e1 w2 e ->
    derives N_cmp (w1 ++ t :: w2) (UnaryBooleanExpression notOp e)
| d_compare w1 e1 t op w2 e2 :
    derives N_add w1 e1 -> comparison_op (type t) = Some op -> derives N_add w2 e2 ->
    derives N_cmp (w1 ++ t :: w2) (ComparisonExpression op e1 e2)
| d_paren t1 w t2 e :
    type t1 = T_LPAREN -> derives N_or w e -> type t2 = T_RPAREN ->
    derives N_unary (t1 :: w ++ [t2]) e
| d_negate t w e :
    type t = T_MINUS -> derives N_unary w e ->
    derives N_unary (t :: w) (UnaryArithExpression negate e)
| d_primary t e : primary t = Some e -> derives N_unary [t] e

(** [(op Y)*] after an operand [e1] *)
with chain_tail : nonterminal -> Expression -> list Token -> Expression -> Prop :=
| ct_nil nt e : chain_tail nt e [] e
| ct_cons nt e1 t f w2 e2 w e :
    binop nt (type t) = Some f -> derives (operand nt) w2 e2 ->
    chain_tail nt (f e1 e2) w e -> chain_tail nt e1 (t :: w2 ++ w) e

(** LIKE, BETWEEN and IN after their left operand [e1] *)
with special : Expression -> list Token -> Expression -> Prop :=
| s_like e1 t1 t2 e :
    type t1 = T_LIKE -> type t2 = T_STRING ->
    new_LikeExpression e1 (val t2) [] = Ret e -> special e1 [t1; t2] e
| s_like_escape e1 t1 t2 t3 t4 e :
    type t1 = T_LIKE -> type t2 = T_STRING -> type t3 = T_ESCAPE -> type t4 = T_STRING ->
    length (val t4) <= 1 -> new_LikeExpression e1 (val t2) (val t4) = Ret e ->
    special e1 [t1; t2; t3; t4] e
| s_between e1 t1 w1 l t2 w2 u :
    type t1 = T_BETWEEN -> derives N_add w1 l -> type t2 = T_AND -> derives N_add w2 u ->
    special e1 (t1 :: w1 ++ t2 :: w2) (BetweenExpression e1 l u)
| s_in e1 t1 t2 w l t3 :
    type t1 = T_IN -> type t2 = T_LPAREN -> in_list w l -> type t3 = T_RPAREN ->
    special e1 (t1 :: t2 :: w ++ [t3]) (InExpression e1 l)

with in_list : list Token -> list Expression -> Prop :=
| il_one w e : derives N_add w e -> in_list w [e]
| il_more w e t w' l :
    derives N_add w e -> type t = T_COMMA -> in_list w' l -> in_list (w ++ t :: w') (e :: l).

Scheme derives_mut := Minimality for derives Sort Prop
  with chain_tail_mut := Minimality for chain_tail Sort Prop
  with special_mut := Minimality for special Sort Prop
  with in_list_mut := Minimality for in_list Sort Prop.
Combined Scheme grammar_ind from derives_mut, chain_tail_mut, special_mut, in_list_mut.

(** The language of selectors: a phrase of [N_or] and the end marker. *)
Definition selector_syntax (exp : str) (e : Expression) : Prop :=
  exists w t, lexes exp (w ++ [t]) /\ type t = T_EOS /\ derives N_or w e.
End grammar.

(** ** The functions of the parser by nonterminal *)

Section by_nonterminal.
Context `{Platform}.

Definition run (nt : nonterminal) (n : nat) : M PState (option Expression) :=
  match nt with
  | N_or => orExpression n | N_and => andExpression n | N_cmp => comparisonExpression n
  | N_add => addExpression n | N_mul => multiplyExpression n | N_unary => unaryArithExpression n
  end.

Definition loop (nt : nonterminal) (n : nat) (e : Expression) : M PState (option Expression) :=
  match nt with
  | N_or => or_loop n e | N_and => and_loop n e
  | N_add => add_loop n e | N_mul => mult_loop n e
  | N_cmp | N_unary => mret (Some e)
  end.

Lemma run_chain nt n :
  is_chain nt = true -> run nt (S n) = bind_ptr (run (operand nt) n) (loop nt n).
Proof. by destruct nt. Qed.

Lemma loop_chain nt n e st :
  is_chain nt = true ->
  loop nt (S n) e st =
    (t ← next;
     match binop nt (type t) with
     | Some f => bind_ptr (run (operand nt) n) (fun e2 => loop nt n (f e e2))
     | None => push_back ;; mret (Some e)
     end) st.
Proof.
  intros Hnt. destruct nt; try done;
    cbn [loop or_loop and_loop add_loop mult_loop]; unfold mbind, M_bind;
    destruct (next st) as [st' [t|]]; try done; by destruct (type t).
Qed.
End by_nonterminal.

(** ** Where the parser is *)

Definition pcursor (st : PState) (pre rest : list Token) (ok : bool) : Prop :=
  cursor (tokeniser st) pre rest ok.

(** what is left: the end marker and nothing after it, or no end marker *)
Definition proper (rest : list Token) (ok : bool) : Prop :=
  if ok then exists l x, rest = l ++ [x] /\ type x = T_EOS /\ Forall (fun t => type t ≠ T_EOS) l
  else Forall (fun t => type t ≠ T_EOS) rest.

Lemma proper_tail x rest ok : proper (x :: rest) ok -> type x ≠ T_EOS -> proper rest ok.
Proof.
  destruct ok; cbn [proper].
  - intros (l & y & E & Hy & Hl) Hx. destruct l as [|z l]; cbn [app] in E; simplify_eq.
    inversion_clear Hl. eauto.
  - intros Hr _. by inversion_clear Hr.
Qed.

Lemma proper_nil ok : proper [] ok -> ok = false.
Proof. destruct ok; [|done]. intros (l & x & E & _). by destruct l. Qed.

Lemma proper_lex exp : proper (lex_all exp).1 (lex_all exp).2.
Proof.
  unfold lex_all. generalize (S (length exp)) as n. intros n. revert exp.
  induction n as [|n IH]; intros exp; cbn [lex_list]; [constructor|].
  destruct (tokenise (skipWS exp)) as [[[tok r]|]|]; [|constructor|constructor].
  destruct (decide (type tok = T_EOS)).
  - exists [], tok. split_and!; [done|done|constructor].
  - specialize (IH r). destruct (lex_list n r) as [l []]; cbn [fst snd proper] in *.
    + destruct IH as (l' & x & -> & Hx & Hl). exists (tok :: l'), x. split_and!; [done|done|by constructor].
    + by constructor.
Qed.

Lemma next_ok st pre x rest ok :
  pcursor st pre (x :: rest) ok ->
  exists st', next st = (st', Ret x) /\ pcursor st' (pre ++ [x]) rest ok.
Proof.
  intros (t' & E & Ht)%nextToken_spec. unfold next, lift_tok. rewrite E. by eexists.
Qed.

Lemma push_back_ok st pre x rest ok :
  pcursor st (pre ++ [x]) rest ok ->
  exists st', push_back st = (st', Ret tt) /\ pcursor st' pre (x :: rest) ok.
Proof.
  intros (t' & E & Ht)%returnTokens_spec. unfold push_back, lift_tok. rewrite E. by eexists.
Qed.

(** ** Soundness, termination and errors *)

(** the exceptions a selector can be refused with *)
Definition parse_exn (ex : exn) : bool :=
  match ex with TokenException | RangeError | BadLexicalCast | LogicError => true | _ => false end.

(** what holds of a call that started where [ok] says how the input ends: it
    returns an expression, with [Q]; or null, with a token to push back; or it
    throws one of those exceptions *)
Definition post {A} (ok : bool) (Q : list Token -> list Token -> A -> Prop)
    (r : PState * outcome (option A)) : Prop :=
  match r with
  | (st', Ret (Some a)) => exists pre rest, pcursor st' pre rest ok /\ Q pre rest a
  | (st', Ret None) => exists pre x rest, pcursor st' (pre ++ [x]) rest ok
  | (st', Throw ex) => parse_exn ex = true
  end.

Section post.
Context {A B : Type} (ok : bool) (Q : list Token -> list Token -> A -> Prop)
        (Q' : list Token -> list Token -> B -> Prop).

Lemma post_ret st pre rest a :
  pcursor st pre rest ok -> Q pre rest a -> post ok Q ((mret (Some a) : M PState (option A)) st).
Proof. intros. by exists pre, rest. Qed.

Lemma post_fail st pre x rest msg :
  pcursor st (pre ++ [x]) rest ok -> post ok Q (fail_with msg st).
Proof. intros. by exists pre, x, rest. Qed.

Lemma post_bind_ptr (m : M PState (option B)) (k : B -> M PState (option A)) st :
  post ok Q' (m st) ->
  (forall a st' pre rest, pcursor st' pre rest ok -> Q' pre rest a -> post ok Q (k a st')) ->
  post ok Q (bind_ptr m k st).
Proof.
  intros Hm Hk. unfold bind_ptr, mbind, M_bind.
  destruct (m st) as [st' [[b|]|ex]]; [|done|done].
  destruct Hm as (pre & rest & Hc & Hq). by apply (Hk b st' pre rest).
Qed.

Lemma post_next (k : Token -> M PState (option A)) st pre rest :
  pcursor st pre rest ok -> proper rest ok ->
  (forall x rest' st', rest = x :: rest' -> pcursor st' (pre ++ [x]) rest' ok -> post ok Q (k x st')) ->
  post ok Q ((next ≫= k) st).
Proof.
  intros Hc Hp Hk. destruct rest as [|x rest].
  - apply proper_nil in Hp as ->. apply nextToken_illegal in Hc as (t' & E).
    unfold mbind, M_bind, next, lift_tok. by rewrite E.
  - apply next_ok in Hc as (st' & E & Hc). rewrite (bind_Ret _ _ _ _ _ E). by apply (Hk x rest).
Qed.

Lemma post_push_back (k : unit -> M PState (option A)) st pre x rest :
  pcursor st (pre ++ [x]) rest ok ->
  (forall st', pcursor st' pre (x :: rest) ok -> post ok Q (k tt st')) ->
  post ok Q ((push_back ≫= k) st).
Proof.
  intros Hc Hk. apply push_back_ok in Hc as (st' & E & Hc).
  rewrite (bind_Ret _ _ _ _ _ E). by apply Hk.
Qed.

(** pushing back and reading again *)
Lemma post_throwParseError msg st pre x rest :
  pcursor st (pre ++ [x]) rest ok -> post ok Q (throwParseError msg st).
Proof.
  intros Hc. unfold throwParseError. apply push_back_ok in Hc as (st' & E & Hc).
  rewrite (bind_Ret _ _ _ _ _ E). apply next_ok in Hc as (st'' & E' & Hc).
  by rewrite (bind_Ret _ _ _ _ _ E').
Qed.
End post.

Section soundness.
Context `{Platform}.

(** the tokens from [pre0] on are a phrase *)
Definition read (P : list Token -> Prop) (ok : bool) (pre0 rest0 pre rest : list Token) : Prop :=
  exists w, pre = pre0 ++ w /\ rest0 = w ++ rest /\ proper rest ok /\ P w.

Definition parsed (nt : nonterminal) ok pre0 rest0 pre rest (e : Expression) : Prop :=
  read (fun w => w ≠ [] /\ derives nt w e) ok pre0 rest0 pre rest.

(** the recursion a call needs with [r] tokens left *)
Definition need (nt : nonterminal) (r : nat) : nat :=
  8 * r + match nt with
          | N_or => 6 | N_and => 5 | N_cmp => 4 | N_add => 3 | N_mul => 2 | N_unary => 1
          end.

Definition run_ok (n : nat) : Prop := forall nt st pre rest ok,
  need nt (length rest) <= n -> pcursor st pre rest ok -> proper rest ok ->
  post ok (parsed nt ok pre rest) (run nt n st).

Definition loop_ok (n : nat) : Prop := forall nt e st pre rest ok,
  is_chain nt = true -> 8 * length rest + 1 <= n -> pcursor st pre rest ok -> proper rest ok ->
  post ok (fun pre' rest' e' => read (fun w => chain_tail nt e w e') ok pre rest pre' rest')
    (loop nt n e st).

Definition special_ok (n : nat) : Prop := forall e st pre rest ok,
  8 * length rest + 1 <= n -> pcursor st pre rest ok -> proper rest ok ->
  post ok (fun pre' rest' e' => read (fun w => special e w e') ok pre rest pre' rest')
    (specialComparisons n e st).

(** the loop of IN has read one token too many *)
Definition list_ok (n : nat) : Prop := forall l st pre rest ok,
  8 * length rest + 4 <= n -> pcursor st pre rest ok -> proper rest ok ->
  post ok (fun pre' rest' l' => exists w x l'', pre' = pre ++ w ++ [x] /\ rest = w ++ x :: rest' /\
      proper (x :: rest') ok /\ l' = l ++ l'' /\ in_list w l'')
    (in_list_loop n l st).
End soundness.

(** the type of a token is not the end marker's *)
Ltac not_eos := first [assumption | congruence | by intros ->].

(** equal concatenations *)
Ltac assoc := repeat (cbn [app]; rewrite <- ?app_assoc); cbn [app]; reflexivity.

(** one call of [next] *)
Ltac pnext x rest st Hc :=
  eapply post_next; [exact Hc|assumption|];
  let H := fresh in let E := fresh in
  intros x rest st E H; clear Hc; rename H into Hc; subst; cbn [app length] in *.

(** read a token that is not the end: what follows is proper *)
Ltac ptail :=
  match goal with
  | Hp : proper (?x :: ?rest) ?ok |- _ =>
      let H := fresh "Hp" in
      assert (H : proper rest ok) by (apply (proper_tail x); [exact Hp|not_eos])
  end.

Section soundness_steps.
Context `{Platform}.

Lemma read_nil P ok pre rest : P [] -> proper rest ok -> read P ok pre rest pre rest.
Proof. intros HP Hp. exists []. by rewrite app_nil_r. Qed.

Lemma loop_step n : run_ok n -> loop_ok n -> loop_ok (S n).
Proof.
  intros IHr IHl nt e st pre rest ok Hnt Hn Hc Hp. rewrite loop_chain by done.
  pnext x rest1 st1 Hc. destruct (binop nt (type x)) as [f|] eqn:Hf.
  - assert (type x ≠ T_EOS) by (intros E; rewrite E in Hf; by destruct nt). ptail.
    eapply post_bind_ptr.
    { apply IHr; [|exact Hc|done]. unfold need. destruct nt; cbn [operand]; lia. }
    intros e2 st2 pre2 rest2 Hc2 (w & -> & -> & Hp2 & Hw & Hd).
    rewrite length_app in Hn.
    pose proof (IHl nt (f e e2) st2 _ rest2 ok Hnt ltac:(lia) Hc2 Hp2) as IH.
    destruct (loop nt n (f e e2) st2) as [st3 [[e'|]|]]; [|done|done].
    destruct IH as (pre3 & rest3 & Hc3 & w3 & -> & -> & Hp3 & Ht).
    eexists _, _. split; [exact Hc3|]. exists (x :: w ++ w3).
    split_and!; [assoc|assoc|done|].
    by eapply ct_cons.
  - eapply post_push_back; [exact Hc|]. intros st2 Hc2. eapply post_ret; [exact Hc2|].
    apply read_nil; [constructor|done].
Qed.

Lemma chain_step n nt :
  is_chain nt = true -> run_ok n -> loop_ok n -> forall st pre rest ok,
  need nt (length rest) <= S n -> pcursor st pre rest ok -> proper rest ok ->
  post ok (parsed nt ok pre rest) (run nt (S n) st).
Proof.
  intros Hnt IHr IHl st pre rest ok Hn Hc Hp. rewrite run_chain by done.
  eapply post_bind_ptr.
  { apply IHr; [|exact Hc|done]. unfold need in *. destruct nt; cbn [operand] in *; lia || done. }
  intros e2 st2 pre2 rest2 Hc2 (w & -> & -> & Hp2 & Hw & Hd).
  assert (8 * length rest2 + 1 <= n).
  { unfold need in Hn. rewrite length_app in Hn. destruct w; [done|]. cbn [length] in Hn. lia. }
  pose proof (IHl nt e2 st2 _ rest2 ok Hnt ltac:(lia) Hc2 Hp2) as IH.
  destruct (loop nt n e2 st2) as [st3 [[e'|]|]]; [|done|done].
  destruct IH as (pre3 & rest3 & Hc3 & w3 & -> & -> & Hp3 & Ht).
  eexists _, _. split; [exact Hc3|]. exists (w ++ w3).
  split_and!; [assoc|assoc|done|by destruct w|].
  by eapply d_chain.
Qed.

Lemma list_step n : run_ok n -> list_ok n -> list_ok (S n).
Proof.
  intros IHr IHl l st pre rest ok Hn Hc Hp. cbn [in_list_loop].
  eapply post_bind_ptr. { apply (IHr N_add); [|exact Hc|done]. unfold need. lia. }
  intros e2 st2 pre2 rest2 Hc2 (w & -> & -> & Hp2 & Hw & Hd).
  assert (1 <= length w) by (destruct w; [done|cbn; lia]). rewrite length_app in Hn.
  pnext x rest1 st1 Hc2. destruct (decide (type x = T_COMMA)) as [Hx|Hx].
  - rewrite Hx. ptail.
    pose proof (IHl (l ++ [e2]) st1 _ rest1 ok ltac:(lia) Hc2 ltac:(done)) as IH.
    destruct (in_list_loop n (l ++ [e2]) st1) as [st3 [[l'|]|]]; [|done|done].
    destruct IH as (pre3 & rest3 & Hc3 & w3 & y & l3 & -> & -> & Hp3 & -> & Ht).
    eexists _, _. split; [exact Hc3|]. exists (w ++ x :: w3), y, (e2 :: l3).
    split_and!; [assoc|assoc|done|assoc|].
    by apply il_more.
  - assert (E : (match type x with T_COMMA => in_list_loop n (l ++ [e2])
                 | _ => mret (Some (l ++ [e2])) end) st1 =
                (mret (Some (l ++ [e2])) : M PState (option (list Expression))) st1)
      by (by destruct (type x)).
    rewrite E. eapply post_ret; [exact Hc2|]. exists w, x, [e2].
    split_and!; [assoc|done|done|done|by constructor].
Qed.

Lemma like_node_ok e1 like escape st pre rest ok Q :
  pcursor st pre rest ok ->
  (forall e, new_LikeExpression e1 like escape = Ret e -> Q pre rest e) ->
  post ok Q (like_node e1 like escape st).
Proof.
  intros Hc HQ. unfold like_node, lift_outcome, mbind, M_bind.
  destruct (new_LikeExpression e1 like escape) as [e|ex] eqn:E.
  - exists pre, rest. auto.
  - unfold new_LikeExpression, toRegex in E. repeat case_match; by simplify_eq.
Qed.

Lemma like_ok e1 x st pre rest ok :
  type x = T_LIKE -> pcursor st (pre ++ [x]) rest ok -> proper rest ok ->
  post ok (fun pre' rest' e' => read (fun w => special e1 w e') ok pre (x :: rest) pre' rest')
    ((t ← next;
      if decide (type t ≠ T_STRING) then fail_with (s_ "expected string after LIKE")
      else
        t' ← next;
        if decide (type t' = T_ESCAPE) then
          e ← next;
          if decide (type e ≠ T_STRING) then fail_with (s_ "expected string after ESCAPE")
          else if 1 <? length (val e)
          then throwParseError (s_ "single character string required after ESCAPE")
          else like_node e1 (val t) (val e)
        else push_back ;; like_node e1 (val t) []) st).
Proof.
  intros Hx Hc Hp. pnext t rest1 st1 Hc. case_decide as Ht; [by eapply post_fail|].
  ptail. pnext t' rest2 st2 Hc. case_decide as Ht'.
  - ptail. pnext t4 rest3 st3 Hc. case_decide as Ht4; [by eapply post_fail|].
    ptail. destruct (1 <? length (val t4)) eqn:Hl.
    { by eapply post_throwParseError. }
    eapply like_node_ok; [exact Hc|]. intros e He. exists [x; t; t'; t4].
    split_and!; [assoc|assoc|done|]. apply s_like_escape; try done. by apply Nat.ltb_ge in Hl.
  - eapply post_push_back; [exact Hc|]. intros st3 Hc3.
    eapply like_node_ok; [exact Hc3|]. intros e He. exists [x; t].
    split_and!; [assoc|assoc|done|]. by apply s_like.
Qed.

Lemma special_step n : run_ok n -> list_ok n -> special_ok (S n).
Proof.
  intros IHr IHl e st pre rest ok Hn Hc Hp. cbn [specialComparisons]. pnext x rest1 st1 Hc.
  destruct (type x) eqn:Hx; try (eapply post_fail; exact Hc); ptail.
  - (* IN *)
    pnext y rest2 st2 Hc. case_decide as Hy; [by eapply post_fail|]. ptail.
    eapply post_bind_ptr; [apply IHl; [|exact Hc|done]; lia|].
    intros l st3 pre3 rest3 Hc3 (w & z & l'' & -> & -> & Hp3 & -> & Hw).
    eapply post_push_back; [rewrite app_assoc in Hc3; exact Hc3|]. intros st4 Hc4.
    pnext z' rest4 st5 Hc4. simplify_eq. case_decide as Hz; [by eapply post_fail|].
    ptail. eapply post_ret; [exact Hc4|].
    exists (x :: y :: w ++ [z']). split_and!; [assoc|assoc|done|]. by apply s_in.
  - (* BETWEEN *)
    eapply post_bind_ptr; [apply (IHr N_add); [|exact Hc|done]; unfold need; lia|].
    intros l st2 pre2 rest2 Hc2 (w1 & -> & -> & Hp2 & Hw1 & Hd1). rewrite length_app in Hn.
    pnext y rest3 st3 Hc2. case_decide as Hy; [by eapply post_fail|]. ptail.
    eapply post_bind_ptr; [apply (IHr N_add); [|exact Hc2|done]; unfold need; lia|].
    intros u st4 pre4 rest4 Hc4 (w2 & -> & -> & Hp4 & Hw2 & Hd2). eapply post_ret; [exact Hc4|].
    exists (x :: w1 ++ y :: w2). split_and!; [assoc|assoc|done|]. by apply s_between.
  - (* LIKE *)
    by apply like_ok.
Qed.

Lemma primary_ok st pre rest ok :
  pcursor st pre rest ok -> proper rest ok ->
  post ok (parsed N_unary ok pre rest) (primaryExpression st).
Proof.
  intros Hc Hp. unfold primaryExpression. pnext x rest1 st1 Hc.
  assert (Hpr : forall e, type x ≠ T_EOS -> primary x = Some e ->
            post ok (parsed N_unary ok pre (x :: rest1)) ((mret (Some e) : M PState _) st1)).
  { intros e Hx He. ptail. eapply post_ret; [exact Hc|]. exists [x].
    split_and!; [assoc|assoc|done|done|by apply d_primary]. }
  unfold primary in Hpr. destruct (type x) eqn:Hx; try (eapply post_fail; exact Hc);
    try (by apply Hpr).
  - destruct (lexical_cast_int64 (val x)) eqn:E; [by apply Hpr|done].
  - destruct (lexical_cast_double (val x)) eqn:E; [by apply Hpr|done].
Qed.

Lemma unary_step n : run_ok n -> forall st pre rest ok,
  need N_unary (length rest) <= S n -> pcursor st pre rest ok -> proper rest ok ->
  post ok (parsed N_unary ok pre rest) (unaryArithExpression (S n) st).
Proof.
  intros IHr st pre rest ok Hn Hc Hp. cbn [unaryArithExpression]. pnext x rest1 st1 Hc.
  unfold need in Hn.
  assert (Hprim : post ok (parsed N_unary ok pre (x :: rest1))
                    ((push_back ;; primaryExpression) st1)).
  { eapply post_push_back; [exact Hc|]. intros st2 Hc2. by apply primary_ok. }
  destruct (type x) eqn:Hx; try exact Hprim; clear Hprim; ptail.
  - eapply post_bind_ptr; [apply (IHr N_or); [|exact Hc|done]; unfold need; cbn [length] in Hn; lia|].
    intros e st2 pre2 rest2 Hc2 (w & -> & -> & Hp2 & Hw & Hd).
    pnext y rest3 st3 Hc2. case_decide as Hy; [by eapply post_fail|]. ptail.
    eapply post_ret; [exact Hc2|]. exists (x :: w ++ [y]).
    split_and!; [assoc|assoc|done|done|by apply d_paren].
  - eapply post_bind_ptr; [apply (IHr N_unary); [|exact Hc|done]; unfold need; cbn [length] in Hn; lia|].
    intros e st2 pre2 rest2 Hc2 (w & -> & -> & Hp2 & Hw & Hd).
    eapply post_ret; [exact Hc2|]. exists (x :: w).
    split_and!; [assoc|assoc|done|done|by apply d_negate].
Qed.

(** what follows the left operand of a comparison *)
Definition after_operand (n : nat) (e1 : Expression) (t : Token) : M PState (option Expression) :=
  match type t with
  | T_IS =>
      t ← next;
      match type t with
      | T_NULL => mret (Some (UnaryBooleanExpression isNullOp e1))
      | T_NOT =>
          t ← next;
          if decide (type t = T_NULL)
          then mret (Some (UnaryBooleanExpression isNonNullOp e1))
          else fail_with (s_ "expected NULL or NOT NULL after IS")
      | _ => fail_with (s_ "expected NULL or NOT NULL after IS")
      end
  | T_NOT =>
      let? e := specialComparisons n e1 in
      mret (Some (UnaryBooleanExpression notOp e))
  | T_BETWEEN | T_LIKE | T_IN => push_back ;; specialComparisons n e1
  | _ =>
      push_back ;;
      t ← next;
      match comparison_op (type t) with
      | None => push_back ;; mret (Some e1)
      | Some op =>
          let? e2 := addExpression n in
          mret (Some (ComparisonExpression op e1 e2))
      end
  end.

Lemma comparison_S n :
  comparisonExpression (S n) =
    (t ← next;
     if decide (type t = T_NOT) then
       let? e := comparisonExpression n in mret (Some (UnaryBooleanExpression notOp e))
     else
       push_back ;;
       let? e1 := addExpression n in
       t ← next; after_operand n e1 t).
Proof. reflexivity. Qed.

Lemma after_operand_ok n e1 w st pre x rest ok :
  run_ok n -> special_ok n -> 8 * length (x :: rest) + 4 <= n ->
  w ≠ [] -> derives N_add w e1 ->
  pcursor st ((pre ++ w) ++ [x]) rest ok -> proper (x :: rest) ok ->
  post ok (parsed N_cmp ok pre (w ++ x :: rest)) (after_operand n e1 x st).
Proof.
  intros IHr IHs Hn Hw Hd Hc Hp. unfold after_operand. cbn [length] in Hn.
  assert (Hspecial : post ok (parsed N_cmp ok pre (w ++ x :: rest))
                       ((push_back ;; specialComparisons n e1) st)).
  { eapply post_push_back; [exact Hc|]. intros st2 Hc2.
    pose proof (IHs e1 st2 _ (x :: rest) ok ltac:(cbn [length]; lia) Hc2 Hp) as IH.
    destruct (specialComparisons n e1 st2) as [st3 [[e'|]|]]; [|done|done].
    destruct IH as (pre3 & rest3 & Hc3 & w3 & -> & -> & Hp3 & Hs).
    eexists _, _. split; [exact Hc3|]. exists (w ++ w3).
    split_and!; [assoc|assoc|done|by destruct w|by eapply d_special]. }
  assert (Hcmp : post ok (parsed N_cmp ok pre (w ++ x :: rest))
            ((push_back ;; t ← next;
              match comparison_op (type t) with
              | None => push_back ;; mret (Some e1)
              | Some op => let? e2 := addExpression n in
                           mret (Some (ComparisonExpression op e1 e2))
              end) st)).
  { eapply post_push_back; [exact Hc|]. intros st2 Hc2. pnext y rest2 st3 Hc2. simplify_eq.
    destruct (comparison_op (type y)) as [op|] eqn:Hop.
    - assert (type y ≠ T_EOS) by (intros E; by rewrite E in Hop). ptail.
      eapply post_bind_ptr; [apply (IHr N_add); [|exact Hc2|done]; unfold need; lia|].
      intros e2 st4 pre4 rest4 Hc4 (w2 & -> & -> & Hp4 & Hw2 & Hd2). eapply post_ret; [exact Hc4|].
      exists (w ++ y :: w2). split_and!; [assoc|assoc|done|by destruct w|by apply d_compare].
    - eapply post_push_back; [exact Hc2|]. intros st4 Hc4. eapply post_ret; [exact Hc4|].
      exists w. split_and!; [done|done|done|done|by apply d_value]. }
  destruct (type x) eqn:Hx; try exact Hspecial; try exact Hcmp; clear Hspecial Hcmp; ptail.
  - (* NOT *)
    eapply post_bind_ptr; [apply IHs; [|exact Hc|done]; lia|].
    intros e st2 pre2 rest2 Hc2 (w2 & -> & -> & Hp2 & Hs). eapply post_ret; [exact Hc2|].
    exists (w ++ x :: w2). split_and!; [assoc|assoc|done|by destruct w|by eapply d_not_special].
  - (* IS *)
    pnext y rest2 st2 Hc. destruct (type y) eqn:Hy; try (eapply post_fail; exact Hc); ptail.
    + eapply post_ret; [exact Hc|]. exists (w ++ [x; y]).
      split_and!; [assoc|assoc|done|by destruct w|by apply d_is_null].
    + pnext z rest3 st3 Hc. case_decide as Hz; [|by eapply post_fail]. ptail.
      eapply post_ret; [exact Hc|]. exists (w ++ [x; y; z]).
      split_and!; [assoc|assoc|done|by destruct w|by apply d_is_not_null].
Qed.

Lemma comparison_step n : run_ok n -> special_ok n -> forall st pre rest ok,
  need N_cmp (length rest) <= S n -> pcursor st pre rest ok -> proper rest ok ->
  post ok (parsed N_cmp ok pre rest) (comparisonExpression (S n) st).
Proof.
  intros IHr IHs st pre rest ok Hn Hc Hp. rewrite comparison_S. unfold need in Hn.
  pnext x rest1 st1 Hc. case_decide as Hx.
  - ptail. eapply post_bind_ptr; [apply (IHr N_cmp); [|exact Hc|done]; unfold need; lia|].
    intros e st2 pre2 rest2 Hc2 (w & -> & -> & Hp2 & Hw & Hd). eapply post_ret; [exact Hc2|].
    exists (x :: w). split_and!; [assoc|assoc|done|done|by apply d_not].
  - eapply post_push_back; [exact Hc|]. intros st2 Hc2.
    eapply post_bind_ptr; [apply (IHr N_add); [|exact Hc2|done]; unfold need; cbn [length]; lia|].
    intros e st3 pre3 rest3 Hc3 (w & -> & Hrest & Hp3 & Hw & Hd).
    assert (1 <= length w) by (destruct w; [done|cbn; lia]).
    apply (f_equal length) in Hrest as Hlen. cbn [length] in Hlen. rewrite length_app in Hlen.
    rewrite Hrest. pnext y rest4 st4 Hc3.
    eapply after_operand_ok; try done. cbn [length]. lia.
Qed.

Lemma parser_ok n : run_ok n /\ loop_ok n /\ special_ok n /\ list_ok n.
Proof.
  induction n as [|n (IHr & IHl & IHs & IHi)].
  { split_and!.
    - intros nt st pre rest ok Hn. unfold need in Hn. destruct nt; lia.
    - intros nt e st pre rest ok Hnt Hn. lia.
    - intros e st pre rest ok Hn. lia.
    - intros l st pre rest ok Hn. lia. }
  split_and!; auto using loop_step, special_step, list_step.
  intros nt st pre rest ok Hn Hc Hp. destruct (is_chain nt) eqn:Hnt; [by apply chain_step|].
  destruct nt; try done; [by apply comparison_step|by apply unary_step].
Qed.
End soundness_steps.

(** ** Completeness *)

(** tokens that end a phrase of a nonterminal: they do not continue it *)
Definition stops (nt : nonterminal) (ty : TokenType) : bool :=
  let no_mul := match ty with T_MULT | T_DIV => false | _ => true end in
  let no_add := match ty with T_PLUS | T_MINUS => false | _ => no_mul end in
  let no_cmp := match ty with
                | T_IS | T_NOT | T_BETWEEN | T_LIKE | T_IN | T_ESCAPE
                | T_EQUAL | T_NEQ | T_LESS | T_GRT | T_LSEQ | T_GREQ => false
                | _ => no_add
                end in
  let no_and := match ty with T_AND => false | _ => no_cmp end in
  match nt with
  | N_unary => true | N_mul => no_mul | N_add => no_add | N_cmp => no_cmp | N_and => no_and
  | N_or => match ty with T_OR => false | _ => no_and end
  end.

Definition stopped (nt : nonterminal) (rest : list Token) : Prop :=
  match rest with x :: _ => stops nt (type x) = true | [] => False end.

Lemma stops_operand nt ty : stops nt ty = true -> stops (operand nt) ty = true.
Proof. by destruct nt, ty. Qed.
Lemma stops_binop nt ty : is_chain nt = true -> stops nt ty = true -> binop nt ty = None.
Proof. by destruct nt, ty. Qed.
Lemma binop_stops nt ty f : is_chain nt = true -> binop nt ty = Some f -> stops (operand nt) ty = true.
Proof. by destruct nt, ty. Qed.

(** a call that succeeds, and where it stops *)
Definition yields {A} (r : PState * outcome (option A)) (a : A) (pre rest : list Token) (ok : bool) : Prop :=
  exists st', r = (st', Ret (Some a)) /\ pcursor st' pre rest ok.

Section yields.
Context {A B : Type} (ok : bool).

Lemma yields_ret st pre rest (a : A) :
  pcursor st pre rest ok -> yields ((mret (Some a) : M PState _) st) a pre rest ok.
Proof. intros. by exists st. Qed.

Lemma yields_next (k : Token -> M PState (option A)) a st pre x rest pre' rest' :
  pcursor st pre (x :: rest) ok ->
  (forall st', pcursor st' (pre ++ [x]) rest ok -> yields (k x st') a pre' rest' ok) ->
  yields ((next ≫= k) st) a pre' rest' ok.
Proof.
  intros Hc Hk. apply next_ok in Hc as (st' & E & Hc). rewrite (bind_Ret _ _ _ _ _ E). by apply Hk.
Qed.

Lemma yields_push_back (k : unit -> M PState (option A)) a st pre x rest pre' rest' :
  pcursor st (pre ++ [x]) rest ok ->
  (forall st', pcursor st' pre (x :: rest) ok -> yields (k tt st') a pre' rest' ok) ->
  yields ((push_back ≫= k) st) a pre' rest' ok.
Proof.
  intros Hc Hk. apply push_back_ok in Hc as (st' & E & Hc). rewrite (bind_Ret _ _ _ _ _ E).
  by apply Hk.
Qed.

Lemma yields_bind_ptr (m : M PState (option B)) (k : B -> M PState (option A)) st b a
    pre1 rest1 pre' rest' :
  yields (m st) b pre1 rest1 ok ->
  (forall st', pcursor st' pre1 rest1 ok -> yields (k b st') a pre' rest' ok) ->
  yields (bind_ptr m k st) a pre' rest' ok.
Proof.
  intros (st' & E & Hc) Hk. unfold bind_ptr. rewrite (bind_Ret _ _ _ _ _ E). by apply Hk.
Qed.
End yields.

Section completeness.
Context `{Platform}.

(** arithmetic phrases are not empty and do not start with NOT *)
Lemma derives_head nt w e :
  derives nt w e -> nt ∈ [N_add; N_mul; N_unary] ->
  exists x w', w = x :: w' /\ type x ≠ T_NOT.
Proof.
  revert nt w e.
  apply (derives_mut
    (fun nt w _ => nt ∈ [N_add; N_mul; N_unary] -> exists x w', w = x :: w' /\ type x ≠ T_NOT)
    (fun _ _ _ _ => True) (fun _ _ _ => True) (fun _ _ => True)); try done;
    try (intros; exfalso; match goal with Hin : N_cmp ∈ _ |- _ =>
           revert Hin; rewrite !elem_of_cons, elem_of_nil; naive_solver end).
  - intros nt w1 e1 w2 e Hnt Hd IH _ _ Hin. destruct IH as (x & w' & -> & Hx).
    { revert Hin. rewrite !elem_of_cons, elem_of_nil. destruct nt; naive_solver. }
    by exists x, (w' ++ w2).
  - intros t1 w t2 e H1 Hd IH H2 Hin. exists t1, (w ++ [t2]). split; [done|congruence].
  - intros t w e Ht Hd IH Hin. exists t, w. split; [done|congruence].
  - intros t e Hp Hin. exists t, []. split; [done|]. intros E. unfold primary in Hp.
    by rewrite E in Hp.
Qed.

Definition run_complete nt w e : Prop := forall n st pre rest ok,
  need nt (length (w ++ rest)) <= n -> pcursor st pre (w ++ rest) ok -> stopped nt rest ->
  yields (run nt n st) e (pre ++ w) rest ok.

Definition tail_complete nt e1 w e : Prop := forall n st pre rest ok,
  is_chain nt = true -> 8 * length (w ++ rest) + 1 <= n -> pcursor st pre (w ++ rest) ok ->
  stopped nt rest -> yields (loop nt n e1 st) e (pre ++ w) rest ok.

Definition special_complete e1 w e : Prop := forall n st pre rest ok,
  8 * length (w ++ rest) + 1 <= n -> pcursor st pre (w ++ rest) ok -> stopped N_cmp rest ->
  yields (specialComparisons n e1 st) e (pre ++ w) rest ok.

Definition list_complete w l : Prop := forall n l0 st pre x rest ok,
  type x = T_RPAREN -> 8 * length (w ++ x :: rest) + 4 <= n -> pcursor st pre (w ++ x :: rest) ok ->
  yields (in_list_loop n l0 st) (l0 ++ l) (pre ++ w ++ [x]) rest ok.
End completeness.

Ltac ynext Hc :=
  eapply yields_next; [exact Hc|];
  let st := fresh "st" in let H := fresh in
  intros st H; clear Hc; rename H into Hc; cbn [app length] in *.
Ltac ypush Hc :=
  eapply yields_push_back; [exact Hc|];
  let st := fresh "st" in let H := fresh in
  intros st H; clear Hc; rename H into Hc.
(** lengths of concatenations *)
Ltac lens := unfold need in *;
  repeat match goal with
  | H : context [length (_ ++ _)] |- _ => rewrite length_app in H
  | H : context [length (_ :: _)] |- _ => cbn [length] in H
  | |- context [length (_ ++ _)] => rewrite length_app
  | |- context [length (_ :: _)] => cbn [length]
  end; lia.
(** a cursor up to associativity *)
Ltac curs Hc := let H := fresh in pose proof Hc as H; repeat (cbn [app] in H; rewrite <- ?app_assoc in H);
  cbn [app] in H; exact H.

Section completeness_steps.
Context `{Platform}.

Lemma tail_stopped nt e1 w e rest :
  is_chain nt = true -> chain_tail nt e1 w e -> stopped nt rest -> stopped (operand nt) (w ++ rest).
Proof.
  intros Hnt Ht Hs. destruct Ht as [nt e1|nt e1 t f w2 e2 w e Hf Hd Ht]; cbn [app stopped].
  - destruct rest; [done|]. by apply stops_operand.
  - by eapply binop_stops.
Qed.

Lemma complete_chain nt w1 e1 w2 e :
  is_chain nt = true -> run_complete (operand nt) w1 e1 -> chain_tail nt e1 w2 e ->
  tail_complete nt e1 w2 e -> run_complete nt (w1 ++ w2) e.
Proof.
  intros Hnt IH1 Ht IH2 n st pre rest ok Hn Hc Hs. rewrite <- app_assoc in Hn, Hc.
  destruct n as [|n]; [unfold need in Hn; destruct nt; lia|]. rewrite run_chain by done.
  eapply yields_bind_ptr.
  { apply IH1; [|exact Hc|by eapply tail_stopped]. unfold need in *. destruct nt; cbn [operand] in *; lia || done. }
  intros st2 Hc2. rewrite (app_assoc pre). apply IH2; [done| |exact Hc2|done].
  rewrite length_app in Hn. unfold need in Hn. destruct nt; try done; lia.
Qed.

Lemma complete_tail_nil nt e : tail_complete nt e [] e.
Proof.
  intros n st pre rest ok Hnt Hn Hc Hs. destruct n as [|n]; [lia|]. rewrite loop_chain by done.
  cbn [app] in *. rewrite app_nil_r. destruct rest as [|x rest]; [done|]. ynext Hc.
  rewrite (stops_binop nt (type x)) by done. ypush Hc. by apply yields_ret.
Qed.

Lemma complete_tail_cons nt e1 t f w2 e2 w e :
  binop nt (type t) = Some f -> run_complete (operand nt) w2 e2 ->
  chain_tail nt (f e1 e2) w e -> tail_complete nt (f e1 e2) w e ->
  tail_complete nt e1 (t :: w2 ++ w) e.
Proof.
  intros Hf IH1 Ht IH2 n st pre rest ok Hnt Hn Hc Hs. cbn [app] in Hn, Hc.
  rewrite <- app_assoc in Hn, Hc. destruct n as [|n]; [lia|]. rewrite loop_chain by done.
  ynext Hc. rewrite Hf. eapply yields_bind_ptr.
  { apply IH1; [|exact Hc|by eapply tail_stopped]. unfold need. destruct nt; cbn [operand] in *; try done; lia. }
  intros st2 Hc2. rewrite app_comm_cons.
  replace (pre ++ (t :: w2) ++ w) with (((pre ++ [t]) ++ w2) ++ w) by assoc.
  apply IH2; [done| |exact Hc2|done]. rewrite length_app in Hn. lia.
Qed.

Lemma complete_not t w e :
  type t = T_NOT -> run_complete N_cmp w e ->
  run_complete N_cmp (t :: w) (UnaryBooleanExpression notOp e).
Proof.
  intros Ht IH n st pre rest ok Hn Hc Hs. destruct n as [|n]; [unfold need in Hn; lia|].
  cbn [run]. rewrite comparison_S. cbn [app] in *. ynext Hc. rewrite decide_True by done.
  eapply yields_bind_ptr; [apply (IH n); [|exact Hc|done]; lens|].
  intros st2 Hc2. apply yields_ret. curs Hc2.
Qed.

(** a comparison up to the token after its left operand *)
Lemma complete_operand w e1 n st pre x rest ok e pre' rest' :
  derives N_add w e1 -> run_complete N_add w e1 -> stops N_add (type x) = true ->
  need N_cmp (length (w ++ x :: rest)) <= S n -> pcursor st pre (w ++ x :: rest) ok ->
  (forall st', pcursor st' ((pre ++ w) ++ [x]) rest ok ->
     yields (after_operand n e1 x st') e pre' rest' ok) ->
  yields (comparisonExpression (S n) st) e pre' rest' ok.
Proof.
  intros Hd IH Hx Hn Hc Hk. rewrite comparison_S.
  destruct (derives_head N_add w e1 Hd) as (y & w' & E & Hy); [left|]. rewrite E in Hc.
  cbn [app] in Hc. ynext Hc. rewrite decide_False by done. ypush Hc.
  change (y :: w' ++ x :: rest) with ((y :: w') ++ x :: rest) in Hc. rewrite <- E in Hc.
  eapply yields_bind_ptr; [apply (IH n); [|exact Hc|done]; unfold need in *; lia|].
  intros st2 Hc2. ynext Hc2. by apply Hk.
Qed.

Lemma complete_value w e : derives N_add w e -> run_complete N_add w e -> run_complete N_cmp w e.
Proof.
  intros Hd IH n st pre rest ok Hn Hc Hs. destruct n as [|n]; [unfold need in Hn; lia|].
  destruct rest as [|x rest]; [done|]. cbn [stopped] in Hs.
  eapply complete_operand; try done; [by destruct (type x)|].
  intros st' Hc'. unfold after_operand.
  assert (Hcmp : comparison_op (type x) = None) by (by destruct (type x)).
  assert (Hy : yields ((push_back ;; t ← next;
              match comparison_op (type t) with
              | None => push_back ;; mret (Some e)
              | Some op => let? e2 := addExpression n in
                           mret (Some (ComparisonExpression op e e2))
              end) st') e (pre ++ w) (x :: rest) ok).
  { ypush Hc'. ynext Hc'. rewrite Hcmp. ypush Hc'. by apply yields_ret. }
  by destruct (type x).
Qed.

Lemma complete_is_null w e t1 t2 :
  derives N_add w e -> run_complete N_add w e -> type t1 = T_IS -> type t2 = T_NULL ->
  run_complete N_cmp (w ++ [t1; t2]) (UnaryBooleanExpression isNullOp e).
Proof.
  intros Hd IH H1 H2 n st pre rest ok Hn Hc Hs. destruct n as [|n]; [unfold need in Hn; lia|].
  rewrite <- app_assoc in Hn, Hc. cbn [app] in Hn, Hc.
  eapply complete_operand; try done; [by rewrite H1|]. intros st' Hc'.
  unfold after_operand. rewrite H1. ynext Hc'. rewrite H2. apply yields_ret.
  replace (pre ++ w ++ [t1; t2]) with (((pre ++ w) ++ [t1]) ++ [t2]) by assoc. done.
Qed.

Lemma complete_is_not_null w e t1 t2 t3 :
  derives N_add w e -> run_complete N_add w e -> type t1 = T_IS -> type t2 = T_NOT ->
  type t3 = T_NULL ->
  run_complete N_cmp (w ++ [t1; t2; t3]) (UnaryBooleanExpression isNonNullOp e).
Proof.
  intros Hd IH H1 H2 H3 n st pre rest ok Hn Hc Hs. destruct n as [|n]; [unfold need in Hn; lia|].
  rewrite <- app_assoc in Hn, Hc. cbn [app] in Hn, Hc.
  eapply complete_operand; try done; [by rewrite H1|]. intros st' Hc'.
  unfold after_operand. rewrite H1. ynext Hc'. rewrite H2. ynext Hc'.
  rewrite decide_True by done. apply yields_ret.
  replace (pre ++ w ++ [t1; t2; t3]) with ((((pre ++ w) ++ [t1]) ++ [t2]) ++ [t3]) by assoc. done.
Qed.

Lemma special_head e1 w e :
  special e1 w e -> exists x w', w = x :: w' /\ (type x = T_LIKE \/ type x = T_BETWEEN \/ type x = T_IN).
Proof. destruct 1; eexists _, _; eauto. Qed.

Lemma complete_special w1 e1 w2 e :
  derives N_add w1 e1 -> run_complete N_add w1 e1 -> special e1 w2 e -> special_complete e1 w2 e ->
  run_complete N_cmp (w1 ++ w2) e.
Proof.
  intros Hd IH Hsp IH2 n st pre rest ok Hn Hc Hs. destruct n as [|n]; [unfold need in Hn; lia|].
  destruct (special_head _ _ _ Hsp) as (x & w' & E & Hx).
  rewrite <- app_assoc in Hn, Hc. rewrite E in Hn, Hc. cbn [app] in Hn, Hc.
  eapply complete_operand; try done; [by destruct Hx as [-> |[-> | ->]]|]. intros st' Hc'.
  assert (Hy : yields ((push_back ;; specialComparisons n e1) st') e (pre ++ w1 ++ w2) rest ok).
  { ypush Hc'. change (x :: w' ++ rest) with ((x :: w') ++ rest) in Hc'. rewrite <- E in Hc'.
    rewrite app_assoc. apply IH2; [|done|done]. rewrite E. lens. }
  unfold after_operand. by destruct Hx as [-> |[-> | ->]].
Qed.

Lemma complete_not_special w1 e1 t w2 e :
  derives N_add w1 e1 -> run_complete N_add w1 e1 -> type t = T_NOT -> special_complete e1 w2 e ->
  run_complete N_cmp (w1 ++ t :: w2) (UnaryBooleanExpression notOp e).
Proof.
  intros Hd IH Ht IH2 n st pre rest ok Hn Hc Hs. destruct n as [|n]; [unfold need in Hn; lia|].
  rewrite <- app_assoc in Hn, Hc. cbn [app] in Hn, Hc.
  eapply complete_operand; try done; [by rewrite Ht|]. intros st' Hc'.
  unfold after_operand. rewrite Ht.
  eapply yields_bind_ptr; [apply IH2; [|exact Hc'|done]; lens|].
  intros st2 Hc2. apply yields_ret. curs Hc2.
Qed.

Lemma complete_compare w1 e1 t op w2 e2 :
  derives N_add w1 e1 -> run_complete N_add w1 e1 -> comparison_op (type t) = Some op ->
  run_complete N_add w2 e2 ->
  run_complete N_cmp (w1 ++ t :: w2) (ComparisonExpression op e1 e2).
Proof.
  intros Hd IH Ht IH2 n st pre rest ok Hn Hc Hs. destruct n as [|n]; [unfold need in Hn; lia|].
  rewrite <- app_assoc in Hn, Hc. cbn [app] in Hn, Hc.
  eapply complete_operand; try done; [by destruct (type t)|]. intros st' Hc'.
  assert (Hy : yields ((push_back ;; t ← next;
              match comparison_op (type t) with
              | None => push_back ;; mret (Some e1)
              | Some op => let? e2 := addExpression n in
                           mret (Some (ComparisonExpression op e1 e2))
              end) st') (ComparisonExpression op e1 e2) (pre ++ w1 ++ t :: w2) rest ok).
  { ypush Hc'. ynext Hc'. rewrite Ht.
    eapply yields_bind_ptr; [apply (IH2 n); [|exact Hc'|]; [lens|]|].
    - destruct rest as [|x rest]; [done|]. cbn [stopped] in *. by destruct (type x).
    - intros st2 Hc2. apply yields_ret. curs Hc2. }
  unfold after_operand. by destruct (type t).
Qed.

Lemma complete_paren t1 w t2 e :
  type t1 = T_LPAREN -> run_complete N_or w e -> type t2 = T_RPAREN ->
  run_complete N_unary (t1 :: w ++ [t2]) e.
Proof.
  intros H1 IH H2 n st pre rest ok Hn Hc Hs. destruct n as [|n]; [unfold need in Hn; lia|].
  cbn [app] in Hn, Hc. rewrite <- app_assoc in Hn, Hc. cbn [app] in Hn, Hc.
  cbn [run unaryArithExpression]. ynext Hc. rewrite H1.
  eapply yields_bind_ptr; [apply (IH n); [|exact Hc|cbn [stopped]; by rewrite H2]; lens|].
  intros st2 Hc2. ynext Hc2. rewrite decide_False by (intros Hx; by apply Hx).
  apply yields_ret. curs Hc2.
Qed.

Lemma complete_negate t w e :
  type t = T_MINUS -> run_complete N_unary w e ->
  run_complete N_unary (t :: w) (UnaryArithExpression negate e).
Proof.
  intros Ht IH n st pre rest ok Hn Hc Hs. destruct n as [|n]; [unfold need in Hn; lia|].
  cbn [app] in Hn, Hc. cbn [run unaryArithExpression]. ynext Hc. rewrite Ht.
  eapply yields_bind_ptr; [apply (IH n); [|exact Hc|done]; lens|].
  intros st2 Hc2. apply yields_ret. curs Hc2.
Qed.

Lemma complete_primary t e : primary t = Some e -> run_complete N_unary [t] e.
Proof.
  intros Ht n st pre rest ok Hn Hc Hs. destruct n as [|n]; [unfold need in Hn; lia|].
  cbn [app] in Hn, Hc. cbn [run unaryArithExpression]. ynext Hc.
  assert (Hy : yields ((push_back ;; primaryExpression) st0) e (pre ++ [t]) rest ok).
  { ypush Hc. unfold primaryExpression. ynext Hc. unfold primary in Ht.
    destruct (type t); simplify_option_eq; by apply yields_ret. }
  unfold primary in Ht. by destruct (type t).
Qed.

Lemma complete_like_node e1 like escape e st pre rest ok :
  new_LikeExpression e1 like escape = Ret e -> pcursor st pre rest ok ->
  yields (like_node e1 like escape st) e pre rest ok.
Proof.
  intros He Hc. unfold like_node, lift_outcome, mbind, M_bind. rewrite He. by apply yields_ret.
Qed.

Lemma complete_like e1 t1 t2 e :
  type t1 = T_LIKE -> type t2 = T_STRING -> new_LikeExpression e1 (val t2) [] = Ret e ->
  special_complete e1 [t1; t2] e.
Proof.
  intros H1 H2 He n st pre rest ok Hn Hc Hs. destruct n as [|n]; [lia|]. cbn [app] in Hn, Hc.
  destruct rest as [|x rest]; [done|]. cbn [stopped] in Hs. cbn [specialComparisons].
  ynext Hc. rewrite H1. ynext Hc. rewrite decide_False by (intros Hx; by apply Hx).
  ynext Hc. rewrite decide_False by (intros E; by rewrite E in Hs). ypush Hc.
  apply complete_like_node; [done|]. curs Hc.
Qed.

Lemma complete_like_escape e1 t1 t2 t3 t4 e :
  type t1 = T_LIKE -> type t2 = T_STRING -> type t3 = T_ESCAPE -> type t4 = T_STRING ->
  length (val t4) <= 1 -> new_LikeExpression e1 (val t2) (val t4) = Ret e ->
  special_complete e1 [t1; t2; t3; t4] e.
Proof.
  intros H1 H2 H3 H4 Hl He n st pre rest ok Hn Hc Hs. destruct n as [|n]; [lia|].
  cbn [app] in Hn, Hc. cbn [specialComparisons].
  ynext Hc. rewrite H1. ynext Hc. rewrite decide_False by (intros Hx; by apply Hx).
  ynext Hc. rewrite decide_True by done. ynext Hc.
  rewrite decide_False by (intros Hx; by apply Hx).
  rewrite (proj2 (Nat.ltb_ge 1 (length (val t4)))) by done.
  apply complete_like_node; [done|]. curs Hc.
Qed.

Lemma complete_between e1 t1 w1 l t2 w2 u :
  type t1 = T_BETWEEN -> run_complete N_add w1 l -> type t2 = T_AND -> run_complete N_add w2 u ->
  special_complete e1 (t1 :: w1 ++ t2 :: w2) (BetweenExpression e1 l u).
Proof.
  intros H1 IH1 H2 IH2 n st pre rest ok Hn Hc Hs. destruct n as [|n]; [lia|].
  cbn [app] in Hn, Hc. rewrite <- app_assoc in Hn, Hc. cbn [app] in Hn, Hc.
  cbn [specialComparisons]. ynext Hc. rewrite H1.
  eapply yields_bind_ptr; [apply (IH1 n); [|exact Hc|cbn [stopped]; by rewrite H2]; lens|].
  intros st2 Hc2. ynext Hc2. rewrite decide_False by (intros Hx; by apply Hx).
  eapply yields_bind_ptr; [apply (IH2 n); [|exact Hc2|]; [lens|]|].
  - destruct rest as [|x rest]; [done|]. cbn [stopped] in *. by destruct (type x).
  - intros st3 Hc3. apply yields_ret. curs Hc3.
Qed.

Lemma complete_in e1 t1 t2 w l t3 :
  type t1 = T_IN -> type t2 = T_LPAREN -> list_complete w l -> type t3 = T_RPAREN ->
  special_complete e1 (t1 :: t2 :: w ++ [t3]) (InExpression e1 l).
Proof.
  intros H1 H2 IH H3 n st pre rest ok Hn Hc Hs. destruct n as [|n]; [lia|].
  cbn [app] in Hn, Hc. rewrite <- app_assoc in Hn, Hc. cbn [app] in Hn, Hc.
  cbn [specialComparisons]. ynext Hc. rewrite H1.
  ynext Hc. rewrite decide_False by (intros Hx; by apply Hx).
  eapply yields_bind_ptr; [apply (IH n []); [exact H3| |exact Hc]; lens|].
  intros st2 Hc2. rewrite app_assoc in Hc2. ypush Hc2. ynext Hc2.
  rewrite decide_False by (intros Hx; by apply Hx). apply yields_ret. curs Hc2.
Qed.

Lemma complete_list_one w e : run_complete N_add w e -> list_complete w [e].
Proof.
  intros IH n l0 st pre x rest ok Hx Hn Hc. destruct n as [|n]; [lia|]. cbn [in_list_loop].
  eapply yields_bind_ptr; [apply (IH n); [|exact Hc|cbn [stopped]; by rewrite Hx]; lens|].
  intros st2 Hc2. ynext Hc2. rewrite Hx. apply yields_ret. curs Hc2.
Qed.

Lemma complete_list_more w e t w' l :
  run_complete N_add w e -> type t = T_COMMA -> list_complete w' l ->
  list_complete (w ++ t :: w') (e :: l).
Proof.
  intros IH Ht IH2 n l0 st pre x rest ok Hx Hn Hc. destruct n as [|n]; [lia|]. cbn [in_list_loop].
  rewrite <- app_assoc in Hn, Hc. cbn [app] in Hn, Hc.
  eapply yields_bind_ptr; [apply (IH n); [|exact Hc|cbn [stopped]; by rewrite Ht]; lens|].
  intros st2 Hc2. ynext Hc2. rewrite Ht.
  replace (l0 ++ e :: l) with ((l0 ++ [e]) ++ l) by assoc.
  replace (pre ++ (w ++ t :: w') ++ [x]) with (((pre ++ w) ++ [t]) ++ w' ++ [x]) by assoc.
  apply IH2; [done|lens|done].
Qed.

Lemma parser_complete :
  (forall nt w e, derives nt w e -> run_complete nt w e) /\
  (forall nt e1 w e, chain_tail nt e1 w e -> tail_complete nt e1 w e) /\
  (forall e1 w e, special e1 w e -> special_complete e1 w e) /\
  (forall w l, in_list w l -> list_complete w l).
Proof.
  apply grammar_ind; intros;
    eauto using complete_chain, complete_tail_nil, complete_tail_cons, complete_not, complete_value,
      complete_is_null, complete_is_not_null, complete_special, complete_not_special,
      complete_compare, complete_paren, complete_negate, complete_primary.
  - by apply complete_like.
  - by eapply complete_like_escape.
  - by apply complete_between.
  - by apply complete_in.
  - by apply complete_list_one.
  - by apply complete_list_more.
Qed.
End completeness_steps.

(** ** The whole parser *)

Lemma lex_list_length n s : length (lex_list n s).1 <= S (length s).
Proof.
  revert s. induction n as [|n IH]; intros s; cbn [lex_list]; [cbn; lia|].
  destruct (tokenise_cases s) as [[_ ->]|[(ws & w & ty & v & rest & -> & Hws & Hscan & ->)| ->]];
    cbn [type]; [rewrite decide_True by done; cbn; lia| |cbn; lia].
  case_decide; [cbn; lia|]. specialize (IH rest). destruct (lex_list n rest) as [l ok].
  apply scan_head in Hscan as (c & w' & -> & _). cbn [fst length] in *.
  rewrite !length_app. cbn [length]. lia.
Qed.

Section top.
Context `{Platform}.

Lemma start_need exp : need N_or (length (lex_all exp).1) <= fuel_for exp.
Proof.
  assert (Hl : length (lex_all exp).1 <= S (length exp)) by apply lex_list_length.
  unfold need, fuel_for. lia.
Qed.

Definition start (exp : str) : PState := mkPState (new_Tokeniser exp) [] [].

(** a refused selector *)
Lemma throwParseError_refuses {A} msg st pre x rest ok :
  pcursor st (pre ++ [x]) rest ok -> exists st', throwParseError (A := A) msg st = (st', Throw RangeError).
Proof.
  intros Hc. unfold throwParseError. apply push_back_ok in Hc as (st' & E & Hc).
  rewrite (bind_Ret _ _ _ _ _ E). apply next_ok in Hc as (st'' & E' & Hc).
  rewrite (bind_Ret _ _ _ _ _ E'). by eexists.
Qed.

Lemma parse_sound exp :
  match parse exp with
  | Ret e => selector_syntax exp e
  | Throw ex => parse_exn ex = true
  end.
Proof.
  unfold parse, parse_run. fold (start exp). unfold mbind at 1, M_bind at 1.
  pose proof (proj1 (parser_ok (fuel_for exp)) N_or (start exp) [] (lex_all exp).1 (lex_all exp).2
    (start_need exp) (new_cursor exp) (proper_lex exp)) as Hrun. cbn [run] in Hrun.
  destruct (orExpression (fuel_for exp) (start exp)) as [st [[e|]|ex]]; [| |done].
  - destruct Hrun as (pre & rest & Hc & w & -> & Hl & Hp & Hw & Hd). cbn [app] in Hc.
    destruct rest as [|x rest].
    + apply proper_nil in Hp. rewrite Hp in Hc. apply nextToken_illegal in Hc as (t' & E).
      unfold mbind, M_bind, next, lift_tok. by rewrite E.
    + apply next_ok in Hc as (st' & E & Hc'). rewrite (bind_Ret _ _ _ _ _ E).
      case_decide as Hx.
      * by destruct (throwParseError_refuses (A := Expression) (s_ "extra input") _ _ _ _ _ Hc')
          as (st'' & ->).
      * exists w, x. split_and!; [|done|done]. apply lex_all_spec.
        destruct (lex_all exp) as [l []] eqn:El; cbn [fst snd] in *.
        -- destruct Hp as (l' & y & E' & Hy & Hl'). destruct l' as [|z l']; cbn [app] in E'; simplify_eq.
           ++ done.
           ++ by inversion Hl'.
        -- by inversion Hp.
  - destruct Hrun as (pre & x & rest & Hc). unfold gets, mbind, M_bind.
    by destruct (throwParseError_refuses (A := Expression) (error st) _ _ _ _ _ Hc) as (st'' & ->).
Qed.

Lemma parse_complete exp e : selector_syntax exp e -> parse exp = Ret e.
Proof.
  intros (w & t & Hl & Ht & Hd). apply lex_all_spec in Hl.
  pose proof (start_need exp) as Hn. pose proof (new_cursor exp) as Hc.
  rewrite Hl in Hn, Hc. cbn [fst snd] in Hn, Hc.
  destruct (proj1 parser_complete N_or w e Hd (fuel_for exp) (start exp) [] [t] true Hn Hc)
    as (st & E & Hc2); [cbn [stopped]; by rewrite Ht|].
  unfold parse, parse_run. fold (start exp). cbn [run] in E. rewrite (bind_Ret _ _ _ _ _ E).
  apply next_ok in Hc2 as (st' & E' & Hc'). rewrite (bind_Ret _ _ _ _ _ E').
  by rewrite decide_False by (intros Hx; by apply Hx).
Qed.
End top.

(** C12: The parser accepts exactly the language of an unambiguous grammar.
    [parse] returns an expression if and only if the selector is a sequence of
    tokens of the lexical grammar that [derives] derives, and then it is the
    expression of that derivation.  The grammar is the one the comment in the
    source means, not the one it states: it has no unary [+], [/] stands in the
    place of the second [-] of the multiplicative operators, and IN is added.
    So: with NOT, comparisons, AND and OR from the
    tightest to the loosest, operators associating to the left, BETWEEN, LIKE
    and IN on arithmetic operands.  The bound on the recursion is never the
    reason for an answer. *)
Theorem parse_exact `{Platform} (exp : str) (e : Expression) :
  parse exp = Ret e <-> selector_syntax exp e.
Proof.
  split; [|apply parse_complete]. intros Hp. pose proof (parse_sound exp) as Hs. by rewrite Hp in Hs.
Qed.

(**  A selector that is not accepted is refused with an exception: a
    [TokenException] for an illegal character, a [std::range_error] with the
    offending token, [bad_lexical_cast] for a number that does not fit or
    [std::logic_error] from the regular expression compiler.  The assertion in
    [returnTokens] never fails, and the recursion ends within the bound, for
    every string. *)
Theorem parse_total `{Platform} (exp : str) :
  (exists e, parse exp = Ret e) \/
  (exists ex, parse exp = Throw ex /\
     ex ∈ [TokenException; RangeError; BadLexicalCast; LogicError]).
Proof.
  pose proof (parse_sound exp) as Hs. destruct (parse exp) as [e|ex]; [eauto|].
  right. exists ex. split; [done|]. destruct ex; try done; repeat first [left|right].
Qed.

(** A unary plus, which the grammar in the source's comment has, is refused. *)
Lemma unary_plus_refused `{Platform} : parse (s_ "+5 = 5") = Throw RangeError.
Proof. reflexivity. Qed.
