(* ===== verification/Selector.v ===== *)
(** * Selectors on messages (src/qpid/broker/Selector.h, Selector.cpp)

    [MessageSelectorEnv] gives a selector the values of a message: the special
    identifiers that start with [amqp.], and the message's properties, which are
    read all at once on the first identifier that needs them.  Both are cached
    in [returnedValues].  [Selector] is a parsed selector and [filter] applies it
    to a message.

    The strings the environment owns ([returnedStrings]) are the strings in the
    values.  A message is what [specialValue] and [ValueHandler] see of it: the
    results of its accessors, and the calls [processProperties] makes on the
    handler, in order.

    [filter_exact] says that the cache cannot be observed: filtering is the
    evaluation of the expression on the values of the message. *)

From Stdlib Require Import ZArith Lia SpecFloat Ascii String.
From stdpp Require Import gmap strings.
From S2P Require Import Prelude Double SelectorValue SelectorToken SelectorExpression SelectorParse.
Local Open Scope nat_scope.

(** ** Messages *)

(** one call on a [MapHandler] *)
Inductive MapEntry :=
| handleVoid
| handleBool (value : bool)
| handleUint8 (value : Z)
| handleUint16 (value : Z)
| handleUint32 (value : Z)
| handleUint64 (value : Z)
| handleInt8 (value : Z)
| handleInt16 (value : Z)
| handleInt32 (value : Z)
| handleInt64 (value : Z)
| handleFloat (value : double)
| handleDouble (value : double)
| handleString (value : str).

Record Message := {
  isPersistent : bool;
  getDeliveryCount : Z;
  getPriority : Z;
  getCorrelationId : option str;
  getMessageId : option str;
  (** an [AbsTime]: nanoseconds since the epoch *)
  getExpiration : Z;
  getTimestamp : Z;
  jms_type : str;
  properties : list (str * MapEntry)
}.

Definition FAR_FUTURE : Z := INT64_MAX.
Definition TIME_MSEC : Z := 1000 * 1000.

(** ** [ValueHandler] *)

(** what a call stores under its key, if it stores anything *)
Definition handled (e : MapEntry) : option Value :=
  match e with
  | handleVoid => None
  | handleBool b => Some (V_BOOL b)
  | handleUint8 i | handleUint16 i | handleUint32 i
  | handleInt8 i | handleInt16 i | handleInt32 i | handleInt64 i => Some (V_EXACT i)
  | handleUint64 i =>
      Some (if (INT64_MAX <? i)%Z then V_INEXACT (double_of_int i) else V_EXACT i)
  | handleFloat x | handleDouble x => Some (V_INEXACT x)
  | handleString s => Some (V_STRING s)
  end.

Definition handle (values : gmap str Value) (call : str * MapEntry) : gmap str Value :=
  match handled call.2 with
  | Some v => <[call.1 := v]> values
  | None => values
  end.

Definition processProperties (msg : Message) (values : gmap str Value) : gmap str Value :=
  fold_left handle (properties msg) values.

(** ** [MessageSelectorEnv] *)

Definition EMPTY : str := [].
Definition PERSISTENT : str := s_ "PERSISTENT".
Definition NON_PERSISTENT : str := s_ "NON_PERSISTENT".

Definition specialValue (msg : Message) (id : str) : Value :=
  if decide (id = s_ "delivery_mode") then
    V_STRING (if isPersistent msg then PERSISTENT else NON_PERSISTENT)
  else if decide (id = s_ "redelivered") then V_BOOL (0 <? getDeliveryCount msg)%Z
  else if decide (id = s_ "priority") then V_EXACT (getPriority msg)
  else if decide (id = s_ "correlation_id") then
    match getCorrelationId msg with Some s => V_STRING s | None => V_UNKNOWN end
  else if decide (id = s_ "message_id") then
    match getMessageId msg with Some s => V_STRING s | None => V_UNKNOWN end
  else if decide (id = s_ "to") then V_STRING EMPTY
  else if decide (id = s_ "reply_to") then V_STRING EMPTY
  else if decide (id = s_ "absolute_expiry_time") then
    V_EXACT (if (getExpiration msg =? FAR_FUTURE)%Z then 0 else Z.quot (getExpiration msg - 0) TIME_MSEC)
  else if decide (id = s_ "creation_time") then V_EXACT (s64 (u64 (getTimestamp msg * 1000)))
  else if decide (id = s_ "jms_type") then
    match jms_type msg with [] => V_UNKNOWN | s => V_STRING s end
  else V_UNKNOWN.

Record MessageSelectorEnv := mkEnv {
  returnedValues : gmap str Value;
  valuesLookedup : bool
}.
Definition new_env : MessageSelectorEnv := mkEnv ∅ false.

Definition is_amqp (identifier : str) : bool := bool_decide (take 5 identifier = s_ "amqp.").

(** [returnedValues[identifier]], which inserts a default value when there is none *)
Definition subscript (identifier : str) : M MessageSelectorEnv Value := fun env =>
  match returnedValues env !! identifier with
  | Some v => (env, Ret v)
  | None => (mkEnv (<[identifier := V_UNKNOWN]> (returnedValues env)) (valuesLookedup env),
             Ret V_UNKNOWN)
  end.

Definition lookup_step (msg : Message) (identifier : str) (env : MessageSelectorEnv)
  : MessageSelectorEnv :=
  if is_amqp identifier then
    match returnedValues env !! identifier with
    | Some _ => env
    | None => mkEnv (<[identifier := specialValue msg (drop 5 identifier)]> (returnedValues env))
                    (valuesLookedup env)
    end
  else if valuesLookedup env then env
  else mkEnv (processProperties msg (returnedValues env)) true.

(** [MessageSelectorEnv::value] *)
Definition value (msg : Message) : SelectorEnv MessageSelectorEnv := fun identifier =>
  modify (lookup_step msg identifier) ;; subscript identifier.

(** ** [Selector] *)

Section selector.
Context `{Platform}.

Record Selector := mkSelector { parsed : Expression; expression : str }.

(** the constructor *)
Definition new_Selector (e : str) : outcome Selector :=
  match parse e with
  | Ret p => Ret (mkSelector p e)
  | Throw ex => Throw ex
  end.

Definition selector_eval {S} (sel : Selector) (env : SelectorEnv S) : M S bool :=
  top_eval (H0 := env) (parsed sel).

Definition filter (sel : Selector) (msg : Message) : outcome bool :=
  (selector_eval sel (value msg) new_env).2.

(** [returnSelector]: no selector for the empty string *)
Definition returnSelector (e : str) : outcome (option Selector) :=
  match e with
  | [] => Ret None
  | _ => match new_Selector e with Ret sel => Ret (Some sel) | Throw ex => Throw ex end
  end.
End selector.

(** ** The values of a message *)

(** the property stored last *)
Definition property (msg : Message) (id : str) : Value :=
  default V_UNKNOWN (processProperties msg ∅ !! id).

Definition message_value (msg : Message) (id : str) : Value :=
  if is_amqp id then specialValue msg (drop 5 id) else property msg id.

(** no property has a name that starts with [amqp.] *)
Definition plain_properties (msg : Message) : Prop :=
  Forall (fun call => is_amqp call.1 = false) (properties msg).

Lemma processProperties_lookup calls values id :
  fold_left handle calls values !! id =
    match fold_left handle calls (∅ : gmap str Value) !! id with
    | Some v => Some v
    | None => values !! id
    end.
Proof.
  revert values. induction calls as [|[k e] calls IH] using rev_ind; intros values.
  { cbn [fold_left]. by rewrite lookup_empty. }
  rewrite !fold_left_app. cbn [fold_left]. unfold handle at 1 3. cbn [fst snd].
  destruct (handled e) as [v|]; [|apply IH].
  destruct (decide (k = id)) as [-> |Hne].
  - by rewrite !lookup_insert_eq.
  - rewrite !lookup_insert_ne by done. apply IH.
Qed.

Lemma processProperties_plain msg id :
  plain_properties msg -> is_amqp id = true -> processProperties msg ∅ !! id = None.
Proof.
  unfold plain_properties, processProperties. intros Hp Hid.
  induction (properties msg) as [|[k e] calls IH] using rev_ind; [apply lookup_empty|].
  apply Forall_app in Hp as [Hp Hk]. inversion_clear Hk as [|? ? Hk' _]. cbn [fst] in Hk'.
  rewrite fold_left_app. cbn [fold_left]. unfold handle at 1. cbn [fst snd].
  destruct (handled e); [|by apply IH]. rewrite lookup_insert_ne by (intros ->; congruence).
  by apply IH.
Qed.

(** what the cache holds *)
Definition env_inv (msg : Message) (env : MessageSelectorEnv) : Prop :=
  forall id,
    if is_amqp id then
      returnedValues env !! id = None \/ returnedValues env !! id = Some (message_value msg id)
    else if valuesLookedup env then default V_UNKNOWN (returnedValues env !! id) = property msg id
    else returnedValues env !! id = None.

Lemma new_env_inv msg : env_inv msg new_env.
Proof. intros id. destruct (is_amqp id); [by left|done]. Qed.

Lemma lookup_step_inv msg id env :
  plain_properties msg -> env_inv msg env ->
  env_inv msg (lookup_step msg id env) /\
  default V_UNKNOWN (returnedValues (lookup_step msg id env) !! id) = message_value msg id.
Proof.
  intros Hp Hinv. unfold lookup_step, message_value. destruct (is_amqp id) eqn:Hid.
  - pose proof (Hinv id) as Hi. rewrite Hid in Hi.
    assert (Hm : message_value msg id = specialValue msg (drop 5 id)).
    { unfold message_value. by rewrite Hid. }
    destruct (returnedValues env !! id) as [v|] eqn:E.
    + destruct Hi as [Hi|Hi]; [done|]. rewrite E. split; [done|]. simplify_eq. by rewrite Hm.
    + split; [|cbn; by rewrite lookup_insert_eq].
      intros id'. cbn [returnedValues valuesLookedup]. destruct (decide (id = id')) as [<- |Hne].
      * rewrite Hid, lookup_insert_eq, Hm. by right.
      * rewrite lookup_insert_ne by done. apply Hinv.
  - pose proof (Hinv id) as Hi. rewrite Hid in Hi.
    destruct (valuesLookedup env) eqn:Hl; [done|].
    assert (Hold : forall id', is_amqp id' = false ->
      default V_UNKNOWN (processProperties msg (returnedValues env) !! id') = property msg id').
    { intros id' Hid'. pose proof (Hinv id') as Hi'. rewrite Hid', Hl in Hi'.
      unfold processProperties, property. rewrite processProperties_lookup, Hi'.
      fold (processProperties msg ∅). by destruct (processProperties msg ∅ !! id'). }
    split; [|cbn; by apply Hold].
    intros id'. cbn [returnedValues valuesLookedup]. destruct (is_amqp id') eqn:Hid'; [|by apply Hold].
    pose proof (Hinv id') as Hi'. rewrite Hid' in Hi'. unfold processProperties.
    rewrite processProperties_lookup. fold (processProperties msg ∅).
    by rewrite processProperties_plain.
Qed.

Lemma subscript_inv msg id env :
  env_inv msg env -> default V_UNKNOWN (returnedValues env !! id) = message_value msg id ->
  (is_amqp id = false -> valuesLookedup env = true) ->
  (is_amqp id = true -> returnedValues env !! id ≠ None) ->
  exists env', subscript id env = (env', Ret (message_value msg id)) /\ env_inv msg env'.
Proof.
  intros Hinv Hv Hl Ha. unfold subscript. destruct (returnedValues env !! id) as [v|] eqn:E.
  { cbn in Hv. subst v. eauto. }
  cbn in Hv. rewrite <- Hv. eexists. split; [done|].
  intros id'. cbn [returnedValues valuesLookedup]. destruct (decide (id = id')) as [<- |Hne].
  - rewrite lookup_insert_eq. destruct (is_amqp id) eqn:Hid; [by destruct Ha|].
    rewrite Hl by done. cbn. rewrite Hv. unfold message_value. by rewrite Hid.
  - rewrite lookup_insert_ne by done. apply Hinv.
Qed.

(** The broker's environment is transparent: the value of an identifier does not
    depend on what was looked up before. *)
Lemma value_transparent msg :
  plain_properties msg ->
  TransparentEnv MessageSelectorEnv (H := value msg) (message_value msg) (env_inv msg).
Proof.
  intros Hp. constructor. intros id env Hinv. unfold env_value, value, modify, mbind, M_bind.
  destruct (lookup_step_inv msg id env Hp Hinv) as [Hinv' Hv'].
  apply subscript_inv; [done|done| |].
  - intros Hid. unfold lookup_step. rewrite Hid. by destruct (valuesLookedup env) eqn:E.
  - intros Hid. unfold lookup_step. rewrite Hid.
    destruct (returnedValues env !! id) eqn:E; [by rewrite E|]. cbn. by rewrite lookup_insert_eq.
Qed.

Lemma top_eval_pure `{Platform} f e : pselects f e =
  obind (peval f e) (fun v => Ret (bool_decide (truth v = BN_TRUE))).
Proof.
  unfold pselects, top_eval. rewrite pure_bind. fold (peval_bool f e). rewrite peval_bool_spec.
  by destruct (peval f e).
Qed.

(** filtering, by the values of the message *)
Lemma filter_spec `{Platform} sel msg :
  plain_properties msg -> filter sel msg = pselects (message_value msg) (parsed sel).
Proof.
  intros Hp. pose proof (value_transparent msg Hp) as Ht. unfold filter, selector_eval.
  rewrite top_eval_pure. unfold top_eval, mbind, M_bind. rewrite eval_bool_eval.
  unfold as_bool, mbind, M_bind.
  destruct (eval_simulates (H0 := value msg) (message_value msg) (env_inv msg) (parsed sel) new_env (new_env_inv msg))
    as (env' & E & _).
  unfold peval. rewrite E. by destruct (eval (H0 := pure_env (message_value msg)) (parsed sel) tt) as [[] [v|]].
Qed.

(** C10: Selectors select exactly the messages their text describes.  For a
    selector text [e] and a message none of whose properties is named
    [amqp....], building the selector and filtering the message is: parsing [e]
    by the grammar and evaluating the expression on the message's values (its
    properties, and the special values for [amqp.] identifiers); the message is
    selected when the result is TRUE.  The caches of the environment, filled in
    whatever order the evaluation asks, cannot be observed; with a property of
    such a name they can ([amqp_property_order]).  The special values are those
    the code computes, fewer than the comment at its top lists. *)
Theorem filter_exact `{Platform} (e : str) (msg : Message) :
  plain_properties msg ->
  match new_Selector e with
  | Ret sel =>
      selector_syntax e (parsed sel) /\
      filter sel msg =
        obind (peval (message_value msg) (parsed sel)) (fun v => Ret (bool_decide (v = V_BOOL true)))
  | Throw _ => forall p, ~ selector_syntax e p
  end.
Proof.
  intros Hp. unfold new_Selector. pose proof (parse_sound e) as Hs.
  destruct (parse e) as [p|ex] eqn:E.
  - split; [done|]. rewrite filter_spec, top_eval_pure by done. cbn [parsed].
    destruct (peval (message_value msg) p) as [v|]; [|done]. cbn. f_equal.
    apply bool_decide_ext. destruct v as [|[]| | |]; done.
  - intros p Hsyn. apply parse_complete in Hsyn. congruence.
Qed.

Definition sample_message : Message := {|
  isPersistent := true; getDeliveryCount := 0; getPriority := 4; getCorrelationId := None;
  getMessageId := Some (s_ "id1"); getExpiration := FAR_FUTURE; getTimestamp := 0; jms_type := [];
  properties := [(s_ "a", handleInt32 1)]
|}.

Lemma filter_exact_witness :
  plain_properties sample_message /\
  match new_Selector (H := toy_platform) (s_ "a = 1 and amqp.priority = 1") with
  | Ret sel =>
      selector_syntax (H := toy_platform) (s_ "a = 1 and amqp.priority = 1") (parsed sel) /\
      filter (H := toy_platform) sel sample_message =
        obind (peval (H := toy_platform) (message_value sample_message) (parsed sel))
          (fun v => Ret (bool_decide (v = V_BOOL true)))
  | Throw _ => forall p, ~ selector_syntax (H := toy_platform) (s_ "a = 1 and amqp.priority = 1") p
  end.
Proof.
  split; [by repeat constructor|].
  apply (filter_exact (H := toy_platform)). by repeat constructor.
Defined.

(** A property whose name starts with [amqp.] replaces the special value, and
    only if the properties happen to be read first. *)
Lemma amqp_property_order :
  let msg := {|
    isPersistent := true; getDeliveryCount := 0; getPriority := 4; getCorrelationId := None;
    getMessageId := None; getExpiration := FAR_FUTURE; getTimestamp := 0; jms_type := [];
    properties := [(s_ "amqp.priority", handleInt32 9)] |} in
  (value msg (s_ "amqp.priority") new_env).2 = Ret (V_EXACT 4) /\
  ((value msg (s_ "a") ;; value msg (s_ "amqp.priority")) new_env).2 = Ret (V_EXACT 9).
Proof. split; vm_compute; reflexivity. Qed.
