(* ===== verification/FlowLimit.v ===== *)
(** * Queue depth and producer flow control (src/qpid/broker/QueueDepth.cpp,
    QueueFlowLimit.cpp)

    [QueueDepth] is a pair of an optional message count and an optional size in
    bytes.  [QueueFlowLimit] watches a queue: over its stop level it holds back
    the completion of the messages that arrive, and below its resume level it
    releases them.  The calls it makes on the messages' ingress completions and
    on the management object are recorded in [out].  The pending messages are a
    map from sequence numbers, released in an order the theorems do not depend
    on.

    [flow_limit_correct] follows a queue through any sequence of enqueues and
    dequeues. *)

From Stdlib Require Import ZArith Lia SpecFloat Ascii String.
From stdpp Require Import gmap strings.
From S2P Require Import Prelude SequenceNumber Double Buffer.

(** ** [QueueDepth] *)

Module QueueDepth.
Record Optional := mkOptional { value : Z; valid : bool }.
Definition some (v : Z) : Optional := mkOptional v true.
Definition none : Optional := mkOptional 0 false.

Record QueueDepth := mkDepth { count : Optional; size : Optional }.

Definition new_QueueDepth : QueueDepth := mkDepth none none.
Definition new_QueueDepth2 (c s : Z) : QueueDepth := mkDepth (some c) (some s).

(** [x.value += y.value] at a width, when [x] is valid *)
Definition opt_plus_assign (w : Z) (x y : Optional) : Optional :=
  if valid x then mkOptional (uwrap w (value x + value y)) true else x.
Definition opt_minus_assign (w : Z) (x y : Optional) : Optional :=
  if valid x then mkOptional (uwrap w (value x - value y)) true else x.

Definition plus_assign (a other : QueueDepth) : QueueDepth :=
  mkDepth (opt_plus_assign 32 (count a) (count other)) (opt_plus_assign 64 (size a) (size other)).
Definition minus_assign (a other : QueueDepth) : QueueDepth :=
  mkDepth (opt_minus_assign 32 (count a) (count other)) (opt_minus_assign 64 (size a) (size other)).

Definition depth_eq (a other : QueueDepth) : bool :=
  (value (count a) =? value (count other)) && (value (size a) =? value (size other)).
Definition depth_neq (a other : QueueDepth) : bool := negb (depth_eq a other).

Definition depth_lt (a other : QueueDepth) : bool :=
  if valid (count a) && valid (size a) then
    (value (count a) <? value (count other)) || (value (size a) <? value (size other))
  else if valid (count a) then value (count a) <? value (count other)
  else value (size a) <? value (size other).
Definition depth_gt (a other : QueueDepth) : bool :=
  if valid (count a) && valid (size a) then
    (value (count other) <? value (count a)) || (value (size other) <? value (size a))
  else if valid (count a) then value (count other) <? value (count a)
  else value (size other) <? value (size a).

Definition hasCount (a : QueueDepth) : bool := valid (count a).
Definition getCount (a : QueueDepth) : Z := value (count a).
Definition setCount (c : Z) (a : QueueDepth) : QueueDepth := mkDepth (some c) (size a).
Definition hasSize (a : QueueDepth) : bool := valid (size a).
Definition getSize (a : QueueDepth) : Z := value (size a).
Definition setSize (c : Z) (a : QueueDepth) : QueueDepth := mkDepth (count a) (some c).

(** the two templates of the anonymous namespace *)
Definition opt_add (w : Z) (a b : Optional) : Optional :=
  if valid a && valid b then mkOptional (uwrap w (value a + value b)) true else none.
Definition opt_subtract (w : Z) (a b : Optional) : Optional :=
  if valid a && valid b then mkOptional (uwrap w (value a - value b)) true else none.

Definition minus (a b : QueueDepth) : QueueDepth :=
  mkDepth (opt_subtract 32 (count a) (count b)) (opt_subtract 64 (size a) (size b)).
Definition plus (a b : QueueDepth) : QueueDepth :=
  mkDepth (opt_add 32 (count a) (count b)) (opt_add 64 (size a) (size b)).

Definition to_bool (a : QueueDepth) : bool := hasCount a || hasSize a.

(** An invalid value is 0: the invariant the comment of [operator==] relies on. *)
Definition depth_wf (a : QueueDepth) : Prop :=
  is_uint 32 (value (count a)) /\ is_uint 64 (value (size a)) /\
  (valid (count a) = false -> value (count a) = 0) /\ (valid (size a) = false -> value (size a) = 0).

Lemma wrap_add_sub w x y : 0 <= w -> is_uint w x -> uwrap w (uwrap w (x + y) - y) = x.
Proof.
  intros Hw Hx. unfold uwrap. rewrite Zminus_mod_idemp_l. replace (x + y - y) with x by lia.
  by apply Z.mod_small.
Qed.

Lemma opt_plus_minus w x y :
  0 <= w -> is_uint w (value x) -> opt_minus_assign w (opt_plus_assign w x y) y = x.
Proof.
  intros Hw Hx. destruct x as [v []]; [|done].
  unfold opt_minus_assign, opt_plus_assign. cbn [valid value]. by rewrite wrap_add_sub.
Qed.

(** what was added to a depth can be taken away again, at the machine widths *)
Lemma plus_minus_assign a d : depth_wf a -> minus_assign (plus_assign a d) d = a.
Proof.
  intros (Hc & Hs & _). destruct a as [c s]. unfold minus_assign, plus_assign.
  cbn [count size] in *. by rewrite !opt_plus_minus.
Qed.

Lemma plus_assign_wf a d : depth_wf a -> depth_wf (plus_assign a d).
Proof.
  intros (Hc & Hs & Ic & Is). destruct a as [[c vc] [s vs]].
  unfold depth_wf, plus_assign, opt_plus_assign. cbn [count size value valid] in *.
  destruct vc, vs; cbn [value valid]; split_and!; try done; by apply uwrap_range.
Qed.
End QueueDepth.

(** ** [QueueFlowLimit] *)

Module QueueFlowLimit.
(** what the limit sees of a message *)
Record Message := mkMessage { getSequence : Z; getMessageSize : Z }.

#[global] Instance Message_eq_dec : EqDecision Message.
Proof. solve_decision. Defined.

Inductive Event :=
| startCompleter (seq : Z)
| finishCompleter (seq : Z)
| set_flowStopped (b : bool)
| inc_flowStoppedCount.

Record QueueFlowLimit := mkLimit {
  flowStopCount : Z; flowResumeCount : Z;
  flowStopSize : Z; flowResumeSize : Z;
  flowStopped : bool;
  count : Z; size : Z;
  index : gmap Z Message;
  (** whether there is a management object *)
  queueMgmtObj : bool;
  out : list Event
}.

Definition new_QueueFlowLimit (stopCount resumeCount stopSize resumeSize : Z) : QueueFlowLimit :=
  mkLimit stopCount resumeCount stopSize resumeSize false 0 0 ∅ false [].

Definition set_stopped (b : bool) (f : QueueFlowLimit) : QueueFlowLimit :=
  mkLimit (flowStopCount f) (flowResumeCount f) (flowStopSize f) (flowResumeSize f) b
    (count f) (size f) (index f) (queueMgmtObj f) (out f).
Definition set_level (c s : Z) (f : QueueFlowLimit) : QueueFlowLimit :=
  mkLimit (flowStopCount f) (flowResumeCount f) (flowStopSize f) (flowResumeSize f) (flowStopped f)
    c s (index f) (queueMgmtObj f) (out f).
Definition set_index (i : gmap Z Message) (f : QueueFlowLimit) : QueueFlowLimit :=
  mkLimit (flowStopCount f) (flowResumeCount f) (flowStopSize f) (flowResumeSize f) (flowStopped f)
    (count f) (size f) i (queueMgmtObj f) (out f).
Definition log (l : list Event) (f : QueueFlowLimit) : QueueFlowLimit :=
  mkLimit (flowStopCount f) (flowResumeCount f) (flowStopSize f) (flowResumeSize f) (flowStopped f)
    (count f) (size f) (index f) (queueMgmtObj f) (out f ++ l).

Definition Op (A : Type) : Type := M QueueFlowLimit A.

(** [if (!flowStopped) ...] of [enqueued] *)
Definition over_stop (f : QueueFlowLimit) : bool :=
  negb (flowStopCount f =? 0) && (flowStopCount f <? count f) ||
  negb (flowStopSize f =? 0) && (flowStopSize f <? size f).
Definition check_stop (f : QueueFlowLimit) : QueueFlowLimit :=
  if flowStopped f then f
  else if over_stop f then
    let f := set_stopped true f in
    if queueMgmtObj f then log [set_flowStopped true; inc_flowStoppedCount] f else f
  else f.

Definition enqueued (msg : Message) : Op unit :=
  modify (fun f => set_level (u32 (count f + 1)) (u64 (size f + getMessageSize msg)) f) ;;
  modify check_stop ;;
  f ← get;
  if flowStopped f || negb (bool_decide (index f = ∅)) then
    modify (log [startCompleter (getSequence msg)]) ;;
    match index f !! getSequence msg with
    | Some _ => throw AssertionFailed
    | None => modify (set_index (<[getSequence msg := msg]> (index f)))
    end
  else mret tt.

Definition below_resume (f : QueueFlowLimit) : bool :=
  ((flowResumeSize f =? 0) || (size f <? flowResumeSize f)) &&
  ((flowResumeCount f =? 0) || (count f <? flowResumeCount f)).
Definition check_resume (f : QueueFlowLimit) : QueueFlowLimit :=
  if flowStopped f && below_resume f then
    let f := set_stopped false f in
    if queueMgmtObj f then log [set_flowStopped false] f else f
  else f.

Definition pending (f : QueueFlowLimit) : list Z := (map_to_list (index f)).*1.

Definition release (msg : Message) (f : QueueFlowLimit) : QueueFlowLimit :=
  if bool_decide (index f = ∅) then f
  else if flowStopped f then
    match index f !! getSequence msg with
    | Some _ =>
        set_index (delete (getSequence msg) (index f)) (log [finishCompleter (getSequence msg)] f)
    | None => f
    end
  else set_index ∅ (log (map finishCompleter (pending f)) f).

Definition dequeued (msg : Message) : Op unit :=
  f ← get;
  (if 0 <? count f then modify (set_level (count f - 1) (size f)) else throw Exception) ;;
  f ← get;
  (if getMessageSize msg <=? size f then modify (set_level (count f) (size f - getMessageSize msg))
   else throw Exception) ;;
  modify check_resume ;;
  modify (release msg).

(** the destructor releases what is pending *)
Definition destroy (f : QueueFlowLimit) : QueueFlowLimit :=
  if bool_decide (index f = ∅) then f
  else set_index ∅ (log (map finishCompleter (pending f)) f).

(** [observe], up to the registration with the queue's observers *)
Definition observe (managed : bool) (f : QueueFlowLimit) : QueueFlowLimit :=
  let f := mkLimit (flowStopCount f) (flowResumeCount f) (flowStopSize f) (flowResumeSize f)
             (flowStopped f) (count f) (size f) (index f) managed (out f) in
  if managed then log [set_flowStopped (flowStopped f)] f else f.

Definition isFlowControlActive (f : QueueFlowLimit) : bool := flowStopped f.
Definition monitorFlowControl (f : QueueFlowLimit) : bool :=
  negb (flowStopCount f =? 0) || negb (flowStopSize f =? 0).

Definition encode (f : QueueFlowLimit) : M Buffer unit :=
  putLong (flowStopCount f) ;; putLong (flowResumeCount f) ;;
  putLongLong (flowStopSize f) ;; putLongLong (flowResumeSize f) ;;
  putLong (count f) ;; putLongLong (size f).

Definition decode (f : QueueFlowLimit) : M Buffer QueueFlowLimit :=
  stopCount ← getLong; resumeCount ← getLong;
  stopSize ← getLongLong; resumeSize ← getLongLong;
  c ← getLong; s ← getLongLong;
  mret (mkLimit stopCount resumeCount stopSize resumeSize (flowStopped f) c s (index f)
          (queueMgmtObj f) (out f)).

Definition encodedSize : Z := 4 + 4 + 8 + 8 + 4 + 8.

(** *** Configuration *)

(** the static members, set by [setDefaults] *)
Record Defaults := mkDefaults {
  defaultMaxSize : Z; defaultFlowStopRatio : Z; defaultFlowResumeRatio : Z
}.

Definition setDefaults (maxQueueSize stopRatio resumeRatio : Z) : M Defaults unit :=
  put (mkDefaults maxQueueSize stopRatio resumeRatio) ;;
  guard_throw ((100 <? stopRatio) || (100 <? resumeRatio)) InvalidArgumentException ;;
  guard_throw (stopRatio <? resumeRatio) InvalidArgumentException.

Record QueueSettings := mkSettings {
  dropMessagesAtLimit : bool;
  flowStop : QueueDepth.QueueDepth;
  flowResume : QueueDepth.QueueDepth;
  maxDepth : QueueDepth.QueueDepth
}.

(** the corrected resume level *)
Definition validateFlowConfig (max stop resume : Z) : outcome Z :=
  if stop =? 0 then Ret resume
  else if stop <? resume then Throw InvalidArgumentException
  else
    let resume := if resume =? 0 then stop else resume in
    if negb (max =? 0) && (max <? stop) then Throw InvalidArgumentException else Ret resume.

Definition half : double := binary_normalize 53 1024 1 (-1) false.
(** [(uintW_t)(max * (ratio/100.0) + 0.5)] and without the [0.5] *)
Definition ratio_of (max ratio : Z) : double :=
  dmul (double_of_int max) (ddiv (double_of_int ratio) (double_of_int 100)).
Definition stop_level (w max ratio : Z) : outcome Z :=
  if ratio =? 0 then Ret 0 else uint_of_double w (dadd (ratio_of max ratio) half).
Definition resume_level (w max ratio : Z) : outcome Z :=
  if ratio =? 0 then Ret 0 else uint_of_double w (ratio_of max ratio).

Definition obind {A B} (o : outcome A) (k : A -> outcome B) : outcome B :=
  match o with Ret a => k a | Throw e => Throw e end.

Definition createLimit (d : Defaults) (settings : QueueSettings) : outcome (option QueueFlowLimit) :=
  if dropMessagesAtLimit settings then Ret None
  else
    let maxMsgCount := if QueueDepth.hasCount (maxDepth settings)
                       then QueueDepth.getCount (maxDepth settings) else 0 in
    let maxByteCount := if QueueDepth.hasSize (maxDepth settings)
                        then QueueDepth.getSize (maxDepth settings) else defaultMaxSize d in
    obind (stop_level 64 maxByteCount (defaultFlowStopRatio d)) (fun stopSize =>
    obind (stop_level 32 maxMsgCount (defaultFlowStopRatio d)) (fun stopCount =>
    obind (resume_level 64 maxByteCount (defaultFlowResumeRatio d)) (fun resumeSize =>
    obind (resume_level 32 maxMsgCount (defaultFlowResumeRatio d)) (fun resumeCount =>
    let stopCount := if QueueDepth.hasCount (flowStop settings)
                     then QueueDepth.getCount (flowStop settings) else stopCount in
    let stopSize := if QueueDepth.hasSize (flowStop settings)
                    then QueueDepth.getSize (flowStop settings) else stopSize in
    let resumeCount := if QueueDepth.hasCount (flowResume settings)
                       then QueueDepth.getCount (flowResume settings) else resumeCount in
    let resumeSize := if QueueDepth.hasSize (flowResume settings)
                      then QueueDepth.getSize (flowResume settings) else resumeSize in
    if negb (stopCount =? 0) || negb (stopSize =? 0) then
      obind (validateFlowConfig maxMsgCount stopCount resumeCount) (fun resumeCount =>
      obind (validateFlowConfig maxByteCount stopSize resumeSize) (fun resumeSize =>
      Ret (Some (new_QueueFlowLimit stopCount resumeCount stopSize resumeSize))))
    else Ret None)))).
(** ** What a queue and its producers rely on

    The abstract limit: the messages on the queue, whether producers are held,
    and the messages whose completion is held back. *)

Record Spec := mkSpec { queued : list Message; stopped : bool; held : gset Z }.

Inductive Command := Enqueue (m : Message) | Dequeue (m : Message).

Definition total (q : list Message) : Z := foldr (fun m n => getMessageSize m + n) 0 q.
Definition depth (q : list Message) : Z := Z.of_nat (length q).

(** some configured stop level is exceeded *)
Definition above (f : QueueFlowLimit) (q : list Message) : bool :=
  negb (flowStopCount f =? 0) && (flowStopCount f <? depth q) ||
  negb (flowStopSize f =? 0) && (flowStopSize f <? total q).
(** all configured resume levels are undercut *)
Definition below (f : QueueFlowLimit) (q : list Message) : bool :=
  ((flowResumeSize f =? 0) || (total q <? flowResumeSize f)) &&
  ((flowResumeCount f =? 0) || (depth q <? flowResumeCount f)).

Definition without (m : Message) (q : list Message) : list Message :=
  filter (fun x => getSequence x <> getSequence m) q.

Definition spec_command (f : QueueFlowLimit) (c : Command) (a : Spec) : Spec :=
  match c with
  | Enqueue m =>
      let q := queued a ++ [m] in
      let st := stopped a || above f q in
      mkSpec q st (if st then {[getSequence m]} ∪ held a else held a)
  | Dequeue m =>
      let q := without m (queued a) in
      let st := stopped a && negb (below f q) in
      mkSpec q st (if st then held a ∖ {[getSequence m]} else ∅)
  end.

(** The queue numbers its messages upwards, dequeues what it holds, and stays
    within the counters. *)
Definition admissible (c : Command) (q : list Message) : Prop :=
  match c with
  | Enqueue m =>
      Forall (fun x => SequenceNumber.ltb (getSequence x) (getSequence m) = true) q /\
      0 <= getMessageSize m /\ depth (q ++ [m]) < 2 ^ 32 /\ total (q ++ [m]) < 2 ^ 64
  | Dequeue m => m ∈ q
  end.

#[global] Instance admissible_dec c q : Decision (admissible c q).
Proof. destruct c; cbn [admissible]; apply _. Defined.

Fixpoint admissible_all (cs : list Command) (q : list Message) : Prop :=
  match cs with
  | [] => True
  | c :: cs' =>
      admissible c q /\
      admissible_all cs' (match c with Enqueue m => q ++ [m] | Dequeue m => without m q end)
  end.

#[global] Instance admissible_all_dec cs q : Decision (admissible_all cs q).
Proof. revert q. induction cs; intros q; cbn [admissible_all]; apply _. Defined.

Definition run_command (c : Command) : Op unit :=
  match c with Enqueue m => enqueued m | Dequeue m => dequeued m end.
Fixpoint run_commands (cs : list Command) : Op unit :=
  match cs with [] => mret tt | c :: cs' => run_command c ;; run_commands cs' end.

(** What the messages' ingress completions have seen: the messages held, or
    [None] when a completer was started twice or finished without a start. *)
Definition completer (e : Event) (h : option (gset Z)) : option (gset Z) :=
  h ← h;
  match e with
  | startCompleter k => if decide (k ∈ h) then None else Some ({[k]} ∪ h)
  | finishCompleter k => if decide (k ∈ h) then Some (h ∖ {[k]}) else None
  | _ => Some h
  end.
Definition completers (l : list Event) : option (gset Z) :=
  foldl (fun h e => completer e h) (Some ∅) l.

(** a configuration in which no resume level is over its stop level *)
Definition levels_ok (f : QueueFlowLimit) : Prop :=
  (flowStopCount f <> 0 -> flowResumeCount f <> 0 /\ flowResumeCount f <= flowStopCount f) /\
  (flowStopSize f <> 0 -> flowResumeSize f <> 0 /\ flowResumeSize f <= flowStopSize f).

(** the two have the same levels *)
Definition same_config (f g : QueueFlowLimit) : Prop :=
  flowStopCount f = flowStopCount g /\ flowResumeCount f = flowResumeCount g /\
  flowStopSize f = flowStopSize g /\ flowResumeSize f = flowResumeSize g.

Record refines (g f : QueueFlowLimit) (a : Spec) : Prop := mkRefines {
  ref_config : same_config f g;
  ref_count : count f = depth (queued a) /\ depth (queued a) < 2 ^ 32;
  ref_size : size f = total (queued a) /\ total (queued a) < 2 ^ 64;
  ref_sizes : Forall (fun m => 0 <= getMessageSize m) (queued a);
  ref_nodup : NoDup (map getSequence (queued a));
  ref_stopped : flowStopped f = stopped a;
  ref_held : dom (index f) = held a;
  ref_queued : forall k, k ∈ held a -> k ∈ map getSequence (queued a);
  ref_open : stopped a = false -> held a = ∅;
  ref_log : completers (out f) = Some (held a)
}.

(** *** The queue's depth *)

Lemma total_cons m q : total (m :: q) = getMessageSize m + total q.
Proof. done. Qed.

Lemma total_app q1 q2 : total (q1 ++ q2) = total q1 + total q2.
Proof. induction q1 as [|m q1 IH]; [done|]. rewrite <- app_comm_cons, !total_cons. lia. Qed.

Lemma total_nonneg q : Forall (fun m => 0 <= getMessageSize m) q -> 0 <= total q.
Proof. induction 1; [done|]. rewrite total_cons. lia. Qed.

Lemma depth_app q1 q2 : depth (q1 ++ q2) = depth q1 + depth q2.
Proof. unfold depth. rewrite length_app. lia. Qed.

Lemma without_absent m q : getSequence m ∉ map getSequence q -> without m q = q.
Proof.
  unfold without. induction q as [|x q IH]; intros Hn; [done|].
  cbn [map] in Hn. rewrite not_elem_of_cons in Hn. destruct Hn as [Hx Hq].
  rewrite filter_cons_True by congruence. f_equal. by apply IH.
Qed.

Lemma without_split m q :
  m ∈ q -> NoDup (map getSequence q) ->
  exists q1 q2, q = q1 ++ m :: q2 /\ without m q = q1 ++ q2.
Proof.
  intros (q1 & q2 & ->)%list_elem_of_split Hnd. exists q1, q2. split; [done|].
  rewrite map_app in Hnd. cbn [map] in Hnd. apply NoDup_app in Hnd as (_ & Hd & Hnd).
  apply NoDup_cons in Hnd as [Hm _].
  assert (without m (q1 ++ m :: q2) = without m q1 ++ without m q2) as ->.
  { unfold without. rewrite filter_app. f_equal. apply filter_cons_False. intros H. by apply H. }
  rewrite (without_absent m q2 Hm), without_absent; [done|]. intros H.
  apply (Hd _ H). apply elem_of_cons. by left.
Qed.

Lemma without_seq m q k :
  k ∈ map getSequence (without m q) <-> k ∈ map getSequence q /\ k <> getSequence m.
Proof.
  unfold without. rewrite !list_elem_of_fmap. setoid_rewrite list_elem_of_filter. naive_solver.
Qed.

Lemma without_NoDup m q : NoDup (map getSequence q) -> NoDup (map getSequence (without m q)).
Proof.
  intros H. eapply sublist_NoDup; [exact H|]. apply fmap_sublist, sublist_filter.
Qed.

(** *** The completers *)

Lemma completers_app l1 l2 :
  completers (l1 ++ l2) = foldl (fun h e => completer e h) (completers l1) l2.
Proof. apply foldl_app. Qed.

Lemma finish_all ks h :
  NoDup ks -> (forall k, k ∈ ks -> k ∈ h) ->
  foldl (fun h e => completer e h) (Some h) (map finishCompleter ks) = Some (h ∖ list_to_set ks).
Proof.
  intros Hnd. revert h. induction Hnd as [|k ks Hk Hnd IH]; intros h Hin; cbn [map foldl].
  - f_equal. set_solver.
  - cbn [completer mbind option_bind]. rewrite decide_True by (apply Hin; left).
    rewrite IH; [f_equal; set_solver|]. intros k' Hk'.
    assert (k' ∈ h) by (apply Hin; by right). set_solver.
Qed.

Lemma pending_dom f : NoDup (pending f) /\ forall k, k ∈ pending f <-> k ∈ dom (index f).
Proof.
  unfold pending. split; [apply NoDup_fst_map_to_list|]. intros k.
  rewrite elem_of_dom, list_elem_of_fmap. split.
  - intros ([k' m] & -> & H%elem_of_map_to_list). by exists m.
  - intros [m Hm]. exists (k, m). by rewrite elem_of_map_to_list.
Qed.

(** *** Simulation *)

Lemma over_level g f q :
  same_config f g -> over_stop (set_level (depth q) (total q) f) = above g q.
Proof. intros (H1 & _ & H2 & _). unfold over_stop, above. cbn. by rewrite H1, H2. Qed.

Lemma below_level g f q :
  same_config f g -> below_resume (set_level (depth q) (total q) f) = below g q.
Proof. intros (_ & H1 & _ & H2). unfold below_resume, below. cbn. by rewrite H1, H2. Qed.

(** Reaching or leaving a level only changes the flag and tells the management
    object. *)
Lemma check_stop_spec f :
  exists l, check_stop f = log l (set_stopped (flowStopped f || over_stop f) f) /\
    forall h, foldl (fun h e => completer e h) (Some h) l = Some h.
Proof.
  unfold check_stop. destruct f as [sc rc ss rs st c s i mg o]. cbn [flowStopped].
  destruct st; cbn [orb]; [exists []; unfold log; cbn; by rewrite app_nil_r|].
  destruct (over_stop _); [|exists []; unfold log; cbn; by rewrite app_nil_r].
  destruct mg; [by eexists|]. exists []. unfold log. cbn. by rewrite app_nil_r.
Qed.

Lemma check_resume_spec f :
  exists l, check_resume f = log l (set_stopped (flowStopped f && negb (below_resume f)) f) /\
    forall h, foldl (fun h e => completer e h) (Some h) l = Some h.
Proof.
  unfold check_resume. destruct f as [sc rc ss rs st c s i mg o]. cbn [flowStopped].
  destruct st; cbn [andb]; [|exists []; unfold log; cbn; by rewrite app_nil_r].
  destruct (below_resume _); cbn [negb]; [|exists []; unfold log; cbn; by rewrite app_nil_r].
  destruct mg; [by eexists|]. exists []. unfold log. cbn. by rewrite app_nil_r.
Qed.

Lemma fresh_sequence q m :
  Forall (fun x => SequenceNumber.ltb (getSequence x) (getSequence m) = true) q ->
  getSequence m ∉ map getSequence q.
Proof.
  intros Hall (x & E & Hx)%list_elem_of_fmap. rewrite Forall_forall in Hall.
  specialize (Hall x Hx). rewrite <- E in Hall. unfold SequenceNumber.ltb, SequenceNumber.diff in Hall.
  rewrite Z.sub_diag in Hall. done.
Qed.

(** messages wait only while producers are held *)
Lemma index_only_stopped f a (st : bool) :
  dom (index f) = held a -> (stopped a = false -> held a = ∅) -> (stopped a = true -> st = true) ->
  st || negb (bool_decide (index f = ∅)) = st.
Proof.
  intros Hh Ho Hst. destruct st; [done|]. destruct (stopped a); [by discriminate Hst|].
  rewrite bool_decide_true; [done|]. apply dom_empty_inv_L. rewrite Hh. by apply Ho.
Qed.

Lemma enqueued_refines g f a m :
  refines g f a -> admissible (Enqueue m) (queued a) ->
  exists f', enqueued m f = (f', Ret tt) /\ refines g f' (spec_command g (Enqueue m) a).
Proof.
  intros [Hcfg [Hc Hcb] [Hs Hsb] Hsz Hnd Hst Hh Hq Ho Hl] (Hfresh%fresh_sequence & Hm & Hd & Ht).
  assert (Hc' : u32 (count f + 1) = depth (queued a ++ [m])).
  { rewrite depth_app in *. unfold depth in *. cbn [length] in *. rewrite Hc. apply uwrap_small.
    unfold is_uint. lia. }
  assert (Hs' : u64 (size f + getMessageSize m) = total (queued a ++ [m])).
  { pose proof (total_nonneg _ Hsz). rewrite total_app in *. cbn [total foldr] in *.
    rewrite Z.add_0_r in *. rewrite Hs. apply uwrap_small. unfold is_uint. lia. }
  unfold enqueued. mstep. cbn [modify get]. rewrite Hc', Hs'.
  destruct (check_stop_spec (set_level (depth (queued a ++ [m])) (total (queued a ++ [m])) f))
    as (l & -> & Hev). rewrite (over_level g) by done. cbn [flowStopped set_level log set_stopped index].
  rewrite Hst. cbn [spec_command].
  set (st := stopped a || above g (queued a ++ [m])).
  assert (Hsz' : Forall (fun m => 0 <= getMessageSize m) (queued a ++ [m])).
  { apply Forall_app. split; [done|]. by constructor. }
  assert (Hnd' : NoDup (map getSequence (queued a ++ [m]))).
  { rewrite map_app. apply NoDup_app. split; [done|]. split; [|apply NoDup_singleton].
    intros k Hk ->%list_elem_of_singleton. done. }
  assert (Hi : index f !! getSequence m = None).
  { apply not_elem_of_dom. rewrite Hh. intros H. by apply Hfresh, Hq. }
  rewrite (index_only_stopped f a st) by (done || (intros E; unfold st; by rewrite E)).
  destruct st eqn:Est.
  - rewrite Hi. eexists. split; [reflexivity|]. constructor; cbn; try done.
    + by rewrite dom_insert_L, Hh.
    + intros k. rewrite map_app, elem_of_app, elem_of_union, elem_of_singleton.
      intros [-> | Hk]; [right; by left|left; by apply Hq].
    + rewrite <- app_assoc, completers_app, Hl, foldl_app, Hev. cbn [foldl completer mbind option_bind].
      rewrite decide_False; [done|]. intros H. by apply Hfresh, Hq.
  - destruct (stopped a) eqn:Ea; [done|]. eexists. split; [reflexivity|].
    constructor; cbn; try done.
    + intros k Hk. rewrite Ho in Hk by done. set_solver.
    + by rewrite completers_app, Hl, Hev.
Qed.

Ltac limit_fields :=
  cbn [flowStopCount flowResumeCount flowStopSize flowResumeSize flowStopped count size index
       queueMgmtObj out set_stopped set_level set_index log].

(** the release of [dequeued], the flag already set *)
Lemma release_spec f m (h : gset Z) :
  dom (index f) = h -> completers (out f) = Some h ->
  let f' := release m f in
  let h' := if flowStopped f then h ∖ {[getSequence m]} else ∅ in
  dom (index f') = h' /\ completers (out f') = Some h' /\ same_config f' f /\
  flowStopped f' = flowStopped f /\ count f' = count f /\ size f' = size f.
Proof.
  intros Hh Hl. unfold release, same_config.
  destruct f as [sc rc ss rs st c s i mg o]. cbn [index flowStopped out] in *.
  case_bool_decide as He.
  { limit_fields. subst i. rewrite dom_empty_L in *. subst h. rewrite Hl.
    destruct st; (split_and!; [set_solver|f_equal; set_solver|done..]). }
  destruct st.
  - destruct (i !! getSequence m) eqn:Hi; limit_fields.
    + rewrite dom_delete_L, Hh, completers_app, Hl. split_and!; try done.
      cbn [foldl completer mbind option_bind].
      rewrite decide_True; [done|]. rewrite <- Hh. by eapply elem_of_dom_2.
    + apply not_elem_of_dom in Hi. rewrite Hh in Hi |- *. rewrite Hl.
      split_and!; [set_solver|f_equal; set_solver|done..].
  - destruct (pending_dom (mkLimit sc rc ss rs false c s i mg o)) as [Hnd Hp]. cbn [index] in Hp.
    limit_fields. rewrite dom_empty_L, completers_app, Hl, finish_all.
    + split_and!; try done. f_equal. rewrite Hh in Hp. set_solver.
    + done.
    + intros k Hk. rewrite <- Hh. by apply Hp.
Qed.

Lemma dequeued_refines g f a m :
  refines g f a -> admissible (Dequeue m) (queued a) ->
  exists f', dequeued m f = (f', Ret tt) /\ refines g f' (spec_command g (Dequeue m) a).
Proof.
  intros [Hcfg [Hc Hcb] [Hs Hsb] Hsz Hnd Hst Hh Hq Ho Hl] Hin.
  destruct (without_split m (queued a) Hin Hnd) as (q1 & q2 & Eq & Ew).
  assert (Hd : depth (without m (queued a)) = depth (queued a) - 1).
  { rewrite Ew, Eq, !depth_app. unfold depth. cbn [length]. lia. }
  assert (Ht : total (without m (queued a)) = total (queued a) - getMessageSize m).
  { rewrite Ew, Eq, !total_app, total_cons. lia. }
  assert (Hsz' : Forall (fun m => 0 <= getMessageSize m) (without m (queued a))).
  { rewrite Ew. rewrite Eq, Forall_app, Forall_cons in Hsz. rewrite Forall_app. tauto. }
  pose proof (total_nonneg _ Hsz'). assert (0 <= depth (without m (queued a))) by (unfold depth; lia).
  assert (0 <= getMessageSize m) by (rewrite Forall_forall in Hsz; by apply Hsz).
  unfold dequeued. mstep. unfold get, modify. rewrite (proj2 (Z.ltb_lt 0 (count f))) by lia.
  cbn [size count set_level]. rewrite (proj2 (Z.leb_le (getMessageSize m) (size f))) by lia.
  assert (Hlev : set_level (count f - 1) (size f - getMessageSize m) (set_level (count f - 1) (size f) f)
                 = set_level (depth (without m (queued a))) (total (without m (queued a))) f).
  { rewrite Hd, Ht, Hc, Hs. done. }
  rewrite Hlev. destruct (check_resume_spec
    (set_level (depth (without m (queued a))) (total (without m (queued a))) f)) as (l & -> & Hev).
  rewrite (below_level g) by done. cbn [flowStopped set_level].
  rewrite Hst. cbn [spec_command].
  set (st := stopped a && negb (below g (without m (queued a)))).
  set (f1 := log l _).
  destruct (release_spec f1 m (held a)) as (Hh' & Hl' & Hcfg' & Hst' & Hc' & Hs'); [done| |].
  { unfold f1. cbn [out log set_stopped set_level]. by rewrite completers_app, Hl, Hev. }
  eexists. split; [reflexivity|].
  constructor; cbn [queued stopped held]; try done.
  - unfold same_config. destruct Hcfg' as (-> & -> & -> & ->). exact Hcfg.
  - rewrite Hc'. cbn. lia.
  - rewrite Hs'. cbn. lia.
  - by apply without_NoDup.
  - intros k. destruct st; [|set_solver]. rewrite without_seq, elem_of_difference, elem_of_singleton.
    intros [H2 H3]. split; [by apply Hq|done].
  - by intros ->.
Qed.

Lemma limit_command_refines g f a c :
  refines g f a -> admissible c (queued a) ->
  exists f', run_command c f = (f', Ret tt) /\ refines g f' (spec_command g c a).
Proof. destruct c; [apply enqueued_refines|apply dequeued_refines]. Qed.

Lemma queued_command g c a :
  queued (spec_command g c a)
  = match c with Enqueue m => queued a ++ [m] | Dequeue m => without m (queued a) end.
Proof. by destruct c. Qed.

Lemma limit_commands_refine g cs f a :
  refines g f a -> admissible_all cs (queued a) ->
  exists f', run_commands cs f = (f', Ret tt) /\ refines g f' (foldl (fun a c => spec_command g c a) a cs).
Proof.
  revert f a. induction cs as [|c cs IH]; intros f a Hr Hadm; [by exists f|].
  destruct Hadm as [Hc Hcs]. destruct (limit_command_refines g f a c Hr Hc) as (f1 & E1 & Hr1).
  rewrite <- (queued_command g c a) in Hcs. destruct (IH f1 _ Hr1 Hcs) as (f2 & E2 & Hr2).
  exists f2. split; [|done]. cbn [run_commands]. by rewrite (bind_Ret _ _ _ _ _ E1).
Qed.

Lemma new_refines sc rc ss rs managed :
  let g := new_QueueFlowLimit sc rc ss rs in
  refines g (observe managed g) (mkSpec [] false ∅).
Proof.
  assert (forall k, k ∈ (∅ : gset Z) -> k ∈ ([] : list Z)) by set_solver.
  destruct managed; constructor; cbn; rewrite ?dom_empty_L; (done || constructor).
Qed.

(** *** What the abstract limit guarantees *)

Definition promise (g : QueueFlowLimit) (a : Spec) : Prop :=
  (above g (queued a) = true -> stopped a = true) /\
  (stopped a = false -> held a = ∅) /\ (queued a = [] -> held a = ∅).

Lemma above_not_below g q : levels_ok g -> above g q = true -> below g q = false.
Proof.
  intros [Hc Hs] Ha. unfold above in Ha. unfold below. apply orb_true_iff in Ha as [Ha|Ha]; bool_hyps.
  - destruct (Hc H). apply andb_false_iff. right.
    apply orb_false_iff. split; [by apply Z.eqb_neq|apply Z.ltb_ge; lia].
  - destruct (Hs H). apply andb_false_iff. left.
    apply orb_false_iff. split; [by apply Z.eqb_neq|apply Z.ltb_ge; lia].
Qed.

Lemma above_mono g q q' : depth q' <= depth q -> total q' <= total q -> above g q' = true -> above g q = true.
Proof. unfold above. intros Hd Ht. rewrite !orb_true_iff, !andb_true_iff, !Z.ltb_lt. lia. Qed.

Lemma below_nil g :
  0 <= flowResumeCount g -> 0 <= flowResumeSize g -> below g [] = true.
Proof.
  intros Hc Hs. unfold below. change (total []) with 0. change (depth []) with 0.
  apply andb_true_iff. rewrite !orb_true_iff, !Z.eqb_eq, !Z.ltb_lt. lia.
Qed.

Lemma above_nil g :
  levels_ok g -> 0 <= flowResumeCount g -> 0 <= flowResumeSize g -> above g [] = false.
Proof.
  intros [Hc Hs] Hrc Hrs. apply not_true_iff_false. unfold above.
  change (total []) with 0. change (depth []) with 0.
  rewrite orb_true_iff, !andb_true_iff, !negb_true_iff, !Z.eqb_neq, !Z.ltb_lt. lia.
Qed.

Lemma command_promise g f c a :
  levels_ok g -> 0 <= flowResumeCount g -> 0 <= flowResumeSize g -> refines g f a ->
  admissible c (queued a) -> promise g a -> promise g (spec_command g c a).
Proof.
  intros Hg Hrc Hrs Hr Hadm (Ha & Ho & He). unfold promise. destruct c as [m|m].
  - cbn [spec_command queued stopped held]. split_and!.
    + intros ->. by rewrite orb_true_r.
    + intros H. rewrite H. apply orb_false_iff in H as [H _]. by apply Ho.
    + intros H. by apply app_nil in H as [_ ?].
  - destruct (dequeued_refines g f a m Hr Hadm) as (f' & _ & [_ _ _ Hsz _ _ _ _ _ _]).
    destruct (without_split m (queued a) Hadm (ref_nodup _ _ _ Hr)) as (q1 & q2 & Eq & Ew).
    pose proof (ref_sizes _ _ _ Hr) as Hall. rewrite Eq, Forall_app, Forall_cons in Hall.
    cbn [spec_command queued stopped held]. split_and!.
    + intros H. rewrite (above_not_below g _ Hg H), andb_true_r. apply Ha. revert H. apply above_mono.
      * rewrite Ew, Eq, !depth_app. unfold depth. cbn [length]. lia.
      * rewrite Ew, Eq, !total_app, total_cons. lia.
    + by intros ->.
    + intros ->. by rewrite below_nil, andb_false_r.
Qed.

Lemma commands_promise g cs f a :
  levels_ok g -> 0 <= flowResumeCount g -> 0 <= flowResumeSize g -> refines g f a ->
  admissible_all cs (queued a) -> promise g a ->
  promise g (foldl (fun a c => spec_command g c a) a cs).
Proof.
  intros Hg Hrc Hrs. revert f a. induction cs as [|c cs IH]; intros f a Hr Hadm Hp; [done|].
  destruct Hadm as [Hc Hcs]. destruct (limit_command_refines g f a c Hr Hc) as (f1 & _ & Hr1).
  rewrite <- (queued_command g c a) in Hcs. apply (IH f1 _ Hr1 Hcs).
  by eapply command_promise.
Qed.

(** *** The configuration *)

Lemma validateFlowConfig_ok max stop resume r :
  0 <= resume -> validateFlowConfig max stop resume = Ret r ->
  0 <= r /\ (stop <> 0 -> r <> 0 /\ r <= stop /\ (max = 0 \/ stop <= max)).
Proof.
  unfold validateFlowConfig. intros Hr. destruct (Z.eqb_spec stop 0); [intros [= <-]; lia|].
  destruct (Z.ltb_spec stop resume); [done|]. destruct (negb (max =? 0) && (max <? stop)) eqn:E; [done|].
  apply andb_false_iff in E. rewrite negb_false_iff, Z.eqb_eq, Z.ltb_ge in E.
  destruct (Z.eqb_spec resume 0); intros [= <-]; lia.
Qed.

Lemma obind_inv {A B} (o : outcome A) (k : A -> outcome B) b :
  obind o k = Ret b -> exists a, o = Ret a /\ k a = Ret b.
Proof. destruct o; [by eexists|done]. Qed.

Lemma uint_of_double_range w x z : uint_of_double w x = Ret z -> is_uint w z.
Proof. unfold uint_of_double. repeat case_match; [intros [= <-]; done|done..]. Qed.

Lemma resume_level_nonneg w max ratio z : resume_level w max ratio = Ret z -> 0 <= z.
Proof.
  unfold resume_level. destruct (ratio =? 0); [by intros [= <-]|].
  intros H%uint_of_double_range. unfold is_uint in H. lia.
Qed.

Lemma createLimit_spec d st f :
  QueueDepth.depth_wf (flowResume st) -> createLimit d st = Ret (Some f) ->
  exists sc rc ss rs, f = new_QueueFlowLimit sc rc ss rs /\ levels_ok f /\ 0 <= rc /\ 0 <= rs /\
    monitorFlowControl f = true.
Proof.
  intros ([Hrc _] & [Hrs _] & _). unfold createLimit. destruct (dropMessagesAtLimit st); [done|].
  intros (ss & _ & H)%obind_inv. apply obind_inv in H as (sc & _ & H).
  apply obind_inv in H as (rs & Ers & H). apply obind_inv in H as (rc & Erc & H).
  apply resume_level_nonneg in Ers, Erc.
  destruct (negb _ || negb _) eqn:Emon; [|done].
  apply obind_inv in H as (rc' & Erc' & H). apply obind_inv in H as (rs' & Ers' & H).
  apply validateFlowConfig_ok in Erc' as [Hc1 Hc2]; [|by destruct (QueueDepth.hasCount (flowResume st))].
  apply validateFlowConfig_ok in Ers' as [Hs1 Hs2]; [|by destruct (QueueDepth.hasSize (flowResume st))].
  injection H as <-. do 4 eexists. split; [reflexivity|]. split; [|done].
  unfold levels_ok. cbn [flowStopCount flowResumeCount flowStopSize flowResumeSize new_QueueFlowLimit].
  split; intros H; [apply Hc2 in H|apply Hs2 in H]; tauto.
Qed.

(** C19: producer flow control.  A limit created from a queue's settings and the
    broker's defaults, whatever they are, follows the queue through any
    sequence of enqueues and dequeues without an exception or a failed
    assertion: its counters are the queue's depth, flow control is switched on
    and off at the configured levels, and the messages whose completion it
    holds back (each started once, finished once) are those of the abstract
    limit.  Producers are held whenever a stop level is exceeded, and no
    message stays held when flow is resumed or the queue is empty. *)
Theorem flow_limit_correct d st f0 managed cs :
  QueueDepth.depth_wf (flowResume st) -> createLimit d st = Ret (Some f0) -> admissible_all cs [] ->
  let a := foldl (fun a c => spec_command f0 c a) (mkSpec [] false ∅) cs in
  promise f0 a /\
  exists f, run_commands cs (observe managed f0) = (f, Ret tt) /\
    count f = depth (queued a) /\ size f = total (queued a) /\ flowStopped f = stopped a /\
    completers (out f) = Some (held a).
Proof.
  intros Hst (sc & rc & ss & rs & -> & Hlev & Hrc & Hrs & _)%createLimit_spec Hadm; [|done].
  pose proof (new_refines sc rc ss rs managed) as Hr. cbn zeta in Hr. intros a. split.
  - eapply commands_promise; try done. split; [|done]. intros H. exfalso. revert H.
    by rewrite above_nil.
  - destruct (limit_commands_refine _ cs _ _ Hr Hadm) as (f & E & [_ [Hc _] [Hs _] _ _ Hf _ _ _ Hl]).
    exists f. done.
Qed.

(** *** The replicated state *)

Definition limit_bytes (f : QueueFlowLimit) : list Z :=
  be32 (flowStopCount f) ++ be32 (flowResumeCount f) ++ be64 (flowStopSize f) ++
  be64 (flowResumeSize f) ++ be32 (count f) ++ be64 (size f).

(** The levels and counters survive [encode] and [decode], in [encodedSize()]
    bytes; the flag and the pending messages are those of the limit decoded
    into. *)
Lemma limit_roundtrip f f0 b :
  is_uint 32 (flowStopCount f) -> is_uint 32 (flowResumeCount f) -> is_uint 64 (flowStopSize f) ->
  is_uint 64 (flowResumeSize f) -> is_uint 32 (count f) -> is_uint 64 (size f) ->
  buf_wf b -> encodedSize <= Buffer.size b - position b ->
  exists b', encode f b = (b', Ret tt) /\
    decode f0 (setPosition (position b) b')
    = (b', Ret (mkLimit (flowStopCount f) (flowResumeCount f) (flowStopSize f) (flowResumeSize f)
                  (flowStopped f0) (count f) (size f) (index f0) (queueMgmtObj f0) (out f0))).
Proof.
  intros H1 H2 H3 H4 H5 H6 Hwf Hroom.
  apply (emits_parses_roundtrip _ (decode f0) (limit_bytes f)); [| |done|exact Hroom].
  - unfold encode, limit_bytes.
    do 2 (apply emits_bind; [apply emits_putLong|]).
    do 2 (apply emits_bind; [apply emits_putLongLong|]).
    apply emits_bind; [apply emits_putLong|apply emits_putLongLong].
  - replace (mkLimit _ _ _ _ _ _ _ _ _ _) with
      (mkLimit (u32 (flowStopCount f)) (u32 (flowResumeCount f)) (u64 (flowStopSize f))
         (u64 (flowResumeSize f)) (flowStopped f0) (u32 (count f)) (u64 (size f)) (index f0)
         (queueMgmtObj f0) (out f0)) by (by rewrite !uwrap_small).
    unfold decode, limit_bytes.
    do 2 (eapply parses_bind; [apply parses_getLong|]).
    do 2 (eapply parses_bind; [apply parses_getLongLong|]).
    eapply parses_bind; [apply parses_getLong|].
    apply (parses_map getLongLong (fun s => mkLimit _ _ _ _ _ _ s _ _ _)), parses_getLongLong.
Qed.

(** Four messages on a queue of at most four: the broker's defaults stop at
    three (80% of 4, rounded) and resume below two (70% of 4). *)
Definition four : list Command :=
  [Enqueue (mkMessage 4294967294 10); Enqueue (mkMessage 4294967295 10); Enqueue (mkMessage 0 10);
   Enqueue (mkMessage 1 10); Dequeue (mkMessage 0 10); Dequeue (mkMessage 4294967294 10);
   Dequeue (mkMessage 4294967295 10)].
Definition small_queue : QueueSettings :=
  mkSettings false QueueDepth.new_QueueDepth QueueDepth.new_QueueDepth
    (QueueDepth.setCount 4 QueueDepth.new_QueueDepth).

Lemma flow_limit_correct_witness :
  let f0 := new_QueueFlowLimit 3 2 838861 734003 in
  let a := foldl (fun a c => spec_command f0 c a) (mkSpec [] false ∅) four in
  promise f0 a /\
  exists f, run_commands four (observe true f0) = (f, Ret tt) /\
    count f = depth (queued a) /\ size f = total (queued a) /\ flowStopped f = stopped a /\
    completers (out f) = Some (held a).
Proof.
  apply (flow_limit_correct (mkDefaults 1048576 80 70) small_queue (new_QueueFlowLimit 3 2 838861 734003)
           true four).
  - by vm_compute.
  - vm_compute. reflexivity.
  - apply (bool_decide_unpack _). vm_compute. done.
Defined.
End QueueFlowLimit.
