(* ===== verification/Messages.v ===== *)
(** * Messages on a queue (src/qpid/broker/Message.h, QueueCursor.h, Messages.h)

    A [Message] as its queue sees it: its sequence number, its state, and the
    results of the accessors of its encoding.  A [QueueCursor] marks a place in
    a queue.  [Messages] is the interface through which a queue reaches its
    messages, one member per virtual function; a [Message*] it returns is the
    message, and writing through the pointer is [msgs_write] at its sequence
    number.  [MessagesLaws] is what a container promises: an ordered list of
    the messages that are not deleted, of which every operation is an update
    or a view.  [MessageDeque] and [MessageMap] are instances, and the queue's
    theorems are proved from the laws.

    Sequence numbers stay below 2^31 - 1: a cursor keeps its position in an
    [int32_t] and adds one to it. *)

From Stdlib Require Import ZArith Lia Ascii String.
From S2P Require Import Prelude SequenceNumber.

(** ** Messages *)

Inductive MessageState := AVAILABLE | ACQUIRED | DELETED | UNAVAILABLE.

#[global] Instance MessageState_eq_dec : EqDecision MessageState.
Proof. solve_decision. Defined.

(** what the accessors of [Message::Encoding] return *)
Record Encoding := mkEncoding {
  e_id : nat;
  isPersistent : bool;
  getPriority : Z;
  getMessageSize : Z;
  properties : list (str * str);
  wireAnnotations : list (str * str);
  isImmediateDeliveryRequired : bool
}.

#[global] Instance Encoding_eq_dec : EqDecision Encoding.
Proof. solve_decision. Defined.

(** the variants the broker annotates messages with *)
Inductive Annotation := AText (s : str) | AUint32 (n : Z).

#[global] Instance Annotation_eq_dec : EqDecision Annotation.
Proof. solve_decision. Defined.

Record Message := mkMessage {
  encoding : Encoding;
  getSequence : Z;
  getState : MessageState;
  deliveryCount : Z;
  alreadyAcquired : bool;
  annotations : list (str * Annotation)
}.

#[global] Instance Message_eq_dec : EqDecision Message.
Proof. solve_decision. Defined.

Definition setState (st : MessageState) (m : Message) : Message :=
  mkMessage (encoding m) (getSequence m) st (deliveryCount m) (alreadyAcquired m)
    (annotations m).
Definition setSequence (s : Z) (m : Message) : Message :=
  mkMessage (encoding m) s (getState m) (deliveryCount m) (alreadyAcquired m)
    (annotations m).
Definition deliver (m : Message) : Message :=
  mkMessage (encoding m) (getSequence m) (getState m) (deliveryCount m + 1)
    (alreadyAcquired m || (0 <? deliveryCount m + 1)) (annotations m).
Definition undeliver (m : Message) : Message :=
  mkMessage (encoding m) (getSequence m) (getState m) (deliveryCount m - 1) (alreadyAcquired m)
    (annotations m).
Definition resetDeliveryCount (m : Message) : Message :=
  mkMessage (encoding m) (getSequence m) (getState m) (-1) false (annotations m).

(** the value of a property or annotation, empty for one that is not there *)
Definition value_of (l : list (str * str)) (key : str) : str :=
  match list_find (fun p => p.1 = key) l with
  | Some (_, (_, v)) => v
  | None => []
  end.

Definition getPropertyAsString (m : Message) (key : str) : str := value_of (properties (encoding m)) key.
Definition getAnnotationAsString (e : Encoding) (key : str) : str := value_of (wireAnnotations e) key.

(** ** Federation traces

    The brokers a message went through are a list of tags in one of its
    annotations. *)

Definition X_QPID_TRACE : str := s_ "x-qpid.trace".

(** [annotations[key] = value] *)
Definition addAnnotation (key : str) (value : Annotation) (m : Message) : Message :=
  mkMessage (encoding m) (getSequence m) (getState m) (deliveryCount m) (alreadyAcquired m)
    ((key, value) :: filter (fun p => p.1 <> key) (annotations m)).

(** [std::string::find(s) != npos] *)
Fixpoint contains (needle hay : str) : bool :=
  bool_decide (needle `prefix_of` hay) ||
  match hay with [] => false | _ :: hay' => contains needle hay' end.

Definition addTraceId (id : str) (m : Message) : Message :=
  let trace := getAnnotationAsString (encoding m) X_QPID_TRACE in
  match trace with
  | [] => addAnnotation X_QPID_TRACE (AText id) m
  | _ => if contains id trace then m else addAnnotation X_QPID_TRACE (AText (trace ++ s_ "," ++ id)) m
  end.

Definition clearTrace (m : Message) : Message := addAnnotation X_QPID_TRACE (AText []) m.

(** [std::string::find_first_not_of] and [find_first_of]: the rest of the string
    from there *)
Fixpoint skip_while (p : ascii -> bool) (s : str) : str :=
  match s with [] => [] | a :: s' => if p a then skip_while p s' else s end.
Fixpoint take_while (p : ascii -> bool) (s : str) : str :=
  match s with [] => [] | a :: s' => if p a then a :: take_while p s' else [] end.

Fixpoint split_loop (n : nat) (delims s : str) : list str :=
  match n with
  | O => []
  | Datatypes.S n' =>
      let isDelim a := bool_decide (a ∈ delims) in
      match skip_while isDelim s with
      | [] => []
      | s => take_while (fun a => negb (isDelim a)) s ::
             split_loop n' delims (skip_while (fun a => negb (isDelim a)) s)
      end
  end.

(** a token is at least one character: the length of the string bounds the loop *)
Definition split (s delims : str) : list str := split_loop (length s) delims s.

Definition isExcluded (excludes : list str) (m : Message) : bool :=
  let trace := getAnnotationAsString (encoding m) X_QPID_TRACE in
  match trace with
  | [] => false
  | _ => existsb (fun i => existsb (fun j => bool_decide (i = j)) (split trace (s_ ", "))) excludes
  end.

(** ** Cursors *)

Inductive SubscriptionType := CONSUMER | BROWSER | PURGE | REPLICATOR.

#[global] Instance SubscriptionType_eq_dec : EqDecision SubscriptionType.
Proof. solve_decision. Defined.

(** [position] and [version] are [int32_t] *)
Record QueueCursor := mkCursor {
  c_type : SubscriptionType; position : Z; c_version : Z; c_valid : bool
}.

Definition new_QueueCursor (t : SubscriptionType) : QueueCursor := mkCursor t 0 0 false.

Definition setPosition (p v : Z) (c : QueueCursor) : QueueCursor :=
  mkCursor (c_type c) (s32 p) v true.

Definition check (c : QueueCursor) (st : MessageState) : bool :=
  bool_decide (st = AVAILABLE) ||
  (bool_decide (c_type c = REPLICATOR) || bool_decide (c_type c = PURGE)) && bool_decide (st = ACQUIRED).

(** returns the new value of the member [valid] with the answer *)
Definition isValid (v : Z) (c : QueueCursor) : QueueCursor * bool :=
  if c_valid c
  then (mkCursor (c_type c) (position c) (c_version c) (v =? c_version c), v =? c_version c)
  else (c, false).

(** ** The interface *)

Class Messages (S : Type) := {
  msgs_size : S -> Z;
  msgs_deleted : QueueCursor -> M S bool;
  msgs_publish : Message -> M S unit;
  msgs_next : QueueCursor -> M S (QueueCursor * option Message);
  msgs_release : QueueCursor -> M S (option Message);
  msgs_find : Z -> QueueCursor -> S -> QueueCursor * option Message;
  msgs_find_cursor : QueueCursor -> S -> option Message;
  msgs_write : Z -> (Message -> Message) -> S -> S
}.

(** ** What a container promises *)

Definition INT_MAX : Z := 2 ^ 31 - 1.
Definition seq_ok (s : Z) : Prop := 0 <= s < INT_MAX.

(** the first message of the list the cursor may see, with the cursor left on it *)
Fixpoint scan (version : Z) (l : list Message) (c : QueueCursor) : QueueCursor * option Message :=
  match l with
  | [] => (c, None)
  | m :: l' =>
      let c := setPosition (getSequence m) version c in
      if check c (getState m) then (c, Some m) else scan version l' c
  end.

Definition at_seq (p : Z) (f : Message -> Message) (m : Message) : Message :=
  if decide (getSequence m = p) then f m else m.

Definition lookup_seq (p : Z) (l : list Message) : option Message :=
  snd <$> list_find (fun m => getSequence m = p) l.

(** the states of a message that is on its queue; nothing sets [UNAVAILABLE] *)
Definition live_state (st : MessageState) : Prop := st = AVAILABLE \/ st = ACQUIRED.

#[global] Instance live_state_dec st : Decision (live_state st).
Proof. unfold live_state. apply _. Defined.

(** a change a queue makes to a message it has a pointer to *)
Definition write_ok (f : Message -> Message) : Prop :=
  forall m, getSequence (f m) = getSequence m /\ encoding (f m) = encoding m /\
            (live_state (getState m) -> live_state (getState (f m))).

Class MessagesLaws (S : Type) `{!Messages S} := {
  msgs_ok : S -> Prop;
  live : S -> list Message;
  resets : QueueCursor -> S -> bool;
  msgs_version : S -> Z;
  (** [displaces m x]: publishing [m] takes the place of [x] *)
  displaces : S -> Message -> Message -> bool;
  (** the releases so far fit the counter that marks them *)
  can_release : S -> Prop;

  live_sorted s : msgs_ok s -> StronglySorted Z.lt (map getSequence (live s));
  live_ok s : msgs_ok s -> Forall (fun m => seq_ok (getSequence m) /\ live_state (getState m)) (live s);
  law_fresh s t p : resets (mkCursor t p (msgs_version s) true) s = false;
  law_new s t : resets (new_QueueCursor t) s = true;
  law_size s : msgs_ok s ->
    msgs_size s = Z.of_nat (length (filter (fun m => getState m = AVAILABLE) (live s)));
  law_next s c : msgs_ok s -> seq_ok (position c) ->
    msgs_next c s =
      (s, Ret (scan (msgs_version s)
                 (filter (fun m => resets c s = true \/ position c < getSequence m) (live s)) c));
  law_publish s m : msgs_ok s -> seq_ok (getSequence m) ->
    Forall (fun x => getSequence x < getSequence m) (live s) ->
    exists s', msgs_publish m s = (s', Ret tt) /\ msgs_ok s' /\
      live s' = filter (fun x => displaces s m x = false) (live s) ++ [setState AVAILABLE m] /\
      (forall c, resets c s' = resets c s) /\ msgs_version s' = msgs_version s /\
      (can_release s -> can_release s');
  law_deleted s c : msgs_ok s -> c_valid c = true -> seq_ok (position c) ->
    exists s' b, msgs_deleted c s = (s', Ret b) /\ msgs_ok s' /\
      live s' = filter (fun x => getSequence x <> position c) (live s) /\
      (position c ∈ map getSequence (live s) -> b = true) /\
      (forall c', resets c' s' = resets c' s) /\ msgs_version s' = msgs_version s /\
      (can_release s -> can_release s');
  law_release s c m : msgs_ok s -> can_release s -> c_valid c = true ->
    lookup_seq (position c) (live s) = Some m ->
    exists s', msgs_release c s = (s', Ret (Some (setState AVAILABLE m))) /\ msgs_ok s' /\
      live s' = map (at_seq (position c) (setState AVAILABLE)) (live s);
  law_find_cursor s c : msgs_ok s -> c_valid c = true -> seq_ok (position c) ->
    msgs_find_cursor c s = lookup_seq (position c) (live s);
  law_find s p c : msgs_ok s -> seq_ok p ->
    (msgs_find p c s).2 = lookup_seq p (live s) /\
    (is_Some (lookup_seq p (live s)) -> (msgs_find p c s).1 = setPosition p (msgs_version s) c);
  law_write s p f : msgs_ok s -> write_ok f -> p ∈ map getSequence (live s) ->
    msgs_ok (msgs_write p f s) /\ live (msgs_write p f s) = map (at_seq p f) (live s) /\
    (forall c, resets c (msgs_write p f s) = resets c s) /\
    msgs_version (msgs_write p f s) = msgs_version s /\
    (can_release s -> can_release (msgs_write p f s))
}.

(** a container that keeps every message *)
Class FifoMessages (S : Type) `{!Messages S, !MessagesLaws S} :=
  fifo_keeps s m x : displaces s m x = false.

(** ** Lemmas on the ordered list *)

Lemma seq_ok_u32 s : seq_ok s -> u32 s = s.
Proof. intros [? ?]. apply uwrap_small. unfold is_uint, INT_MAX in *. lia. Qed.

Lemma seq_ok_s32 s : seq_ok s -> s32 s = s.
Proof. intros [? ?]. unfold INT_MAX in *. apply swrap_small; lia. Qed.

Lemma small_lt a b : 0 <= a <= INT_MAX -> 0 <= b <= INT_MAX -> SequenceNumber.ltb a b = (a <? b).
Proof.
  intros [? ?] [? ?]. unfold INT_MAX in *. unfold SequenceNumber.ltb.
  rewrite swrap_small by lia. case_ltb; case_ltb; lia.
Qed.

Lemma small_diff a b : 0 <= a <= INT_MAX -> 0 <= b <= INT_MAX -> SequenceNumber.diff a b = a - b.
Proof.
  intros [? ?] [? ?]. unfold INT_MAX in *. unfold SequenceNumber.diff.
  rewrite swrap_uwrap by lia. apply swrap_small; lia.
Qed.

Lemma seq_ok_lt a b : seq_ok a -> seq_ok b -> SequenceNumber.ltb a b = (a <? b).
Proof. intros [? ?] [? ?]. apply small_lt; lia. Qed.

Lemma seq_ok_diff a b : seq_ok a -> seq_ok b -> SequenceNumber.diff a b = a - b.
Proof. intros [? ?] [? ?]. apply small_diff; lia. Qed.

Lemma lookup_seq_elem p l m : lookup_seq p l = Some m -> m ∈ l /\ getSequence m = p.
Proof.
  unfold lookup_seq. intros ([i x] & (Hx & Hp & _)%list_find_Some & ->)%fmap_Some. cbn.
  split; [by eapply list_elem_of_lookup_2|done].
Qed.

Lemma lookup_seq_is_Some p l : is_Some (lookup_seq p l) <-> p ∈ map getSequence l.
Proof.
  split.
  - intros [m [Hm <-]%lookup_seq_elem]. apply list_elem_of_fmap. eauto.
  - intros (m & -> & Hm)%list_elem_of_fmap. unfold lookup_seq.
    destruct (list_find_elem_of (fun x => getSequence x = getSequence m) l m Hm eq_refl) as [x ->].
    by eexists.
Qed.

(** ** Reading on

    What a scan skips the cursor may not see, and it is left where it stopped. *)

Definition cursor_at (c : QueueCursor) (p ver : Z) : QueueCursor := mkCursor (c_type c) p ver true.

Lemma check_setPosition p v c st : check (setPosition p v c) st = check c st.
Proof. done. Qed.

Lemma scan_spec ver l c :
  Forall (fun m => seq_ok (getSequence m)) l ->
  match scan ver l c with
  | (c', Some m) =>
      exists l1 l2, l = l1 ++ m :: l2 /\ Forall (fun x => check c (getState x) = false) l1 /\
        check c (getState m) = true /\ c' = cursor_at c (getSequence m) ver
  | (c', None) =>
      Forall (fun x => check c (getState x) = false) l /\
      c' = match last l with Some m => cursor_at c (getSequence m) ver | None => c end
  end.
Proof.
  intros Hl. revert c. induction Hl as [|m l Hm Hl IH]; intros c; [done|]. cbn [scan].
  assert (Hc : setPosition (getSequence m) ver c = cursor_at c (getSequence m) ver).
  { unfold setPosition. by rewrite seq_ok_s32. }
  rewrite Hc. change (check (cursor_at c _ _) (getState m)) with (check c (getState m)).
  destruct (check c (getState m)) eqn:Ec; [by exists [], l|].
  specialize (IH (cursor_at c (getSequence m) ver)).
  destruct (scan ver l (cursor_at c (getSequence m) ver)) as [c' [m'|]].
  - destruct IH as (l1 & l2 & -> & Hl1 & Hm' & ->). exists (m :: l1), l2. split; [done|].
    split; [by constructor|done].
  - destruct IH as [Hall ->]. split; [by constructor|]. rewrite last_cons. by destruct (last l).
Qed.

Section reading.
Context {S : Type} `{!Messages S} `{!MessagesLaws S}.

(** what [next] can still give the cursor *)
Definition candidates (c : QueueCursor) (s : S) : list Message :=
  filter (fun m => resets c s = true \/ position c < getSequence m) (live s).

Lemma candidates_ok c s :
  msgs_ok s -> Forall (fun m => seq_ok (getSequence m)) (candidates c s).
Proof.
  intros Hs. apply Forall_forall. intros m [_ Hm]%list_elem_of_filter.
  pose proof (live_ok s Hs) as H. rewrite Forall_forall in H. by apply H.
Qed.

Lemma candidates_sorted c s :
  msgs_ok s -> StronglySorted Z.lt (map getSequence (candidates c s)).
Proof.
  intros Hs. eapply StronglySorted_sublist; [|by apply live_sorted]. apply fmap_sublist, sublist_filter.
Qed.

Lemma sorted_after (l1 l2 : list Message) m :
  StronglySorted Z.lt (map getSequence (l1 ++ m :: l2)) ->
  filter (fun x => getSequence m < getSequence x) (l1 ++ m :: l2) = l2.
Proof.
  intros Hs. rewrite map_app in Hs. cbn [map] in Hs.
  apply StronglySorted_app in Hs as (Hlt & _ & Hs). apply StronglySorted_inv in Hs as [_ Hgt].
  rewrite filter_app, filter_none, filter_cons_False by
    (lia || (apply Forall_forall; intros x Hx; assert (getSequence x < getSequence m); [|lia];
             apply Hlt; [by apply list_elem_of_fmap_2|by left])).
  apply filter_all. rewrite Forall_map in Hgt. exact Hgt.
Qed.

(** once the cursor is on a candidate, the candidates are those behind it *)
Lemma candidates_after c s l1 m l2 :
  msgs_ok s -> candidates c s = l1 ++ m :: l2 ->
  candidates (cursor_at c (getSequence m) (msgs_version s)) s = l2.
Proof.
  intros Hs E. rewrite <- (sorted_after l1 l2 m), <- E by (rewrite <- E; by apply candidates_sorted).
  assert (Hm : resets c s = true \/ position c < getSequence m).
  { assert (m ∈ candidates c s) as [? _]%list_elem_of_filter by (rewrite E; set_solver). done. }
  unfold candidates. rewrite list_filter_filter. apply list_filter_iff. intros x.
  unfold cursor_at. rewrite law_fresh. cbn [position]. intuition (done || lia).
Qed.

(** the messages a reader gets by calling [next] until there is none *)
Fixpoint drain (n : nat) (c : QueueCursor) (s : S) : list Message :=
  match n with
  | O => []
  | Datatypes.S n' =>
      match (msgs_next c s).2 with
      | Ret (c', Some m) => m :: drain n' c' s
      | _ => []
      end
  end.

Lemma drain_candidates n c s :
  msgs_ok s -> seq_ok (position c) -> (length (candidates c s) <= n)%nat ->
  drain n c s = filter (fun m => check c (getState m) = true) (candidates c s).
Proof.
  intros Hs. revert c. induction n as [|n IH]; intros c Hp Hn.
  { by destruct (candidates c s) as [|m l]; [|cbn in Hn; lia]. }
  cbn [drain]. rewrite law_next by done. cbn [snd]. fold (candidates c s).
  pose proof (scan_spec (msgs_version s) (candidates c s) c (candidates_ok c s Hs)) as Hscan.
  pose proof (candidates_ok c s Hs) as Hok.
  destruct (scan _ _ _) as [c' [m|]].
  - destruct Hscan as (l1 & l2 & E & Hl1 & Hm & ->).
    rewrite IH; [|by rewrite E, Forall_app, Forall_cons in Hok; apply Hok|].
    + rewrite (candidates_after c s l1 m l2) by done. rewrite E, filter_app.
      rewrite (filter_none _ l1); [by rewrite filter_cons_True|].
      eapply Forall_impl; [exact Hl1|]. intros x Hx. cbn beta in *. congruence.
    + rewrite (candidates_after c s l1 m l2) by done. rewrite E, length_app in Hn. cbn in Hn. lia.
  - destruct Hscan as [Hall _]. symmetry. apply filter_none.
    eapply Forall_impl; [exact Hall|]. intros x Hx. cbn beta in *. congruence.
Qed.
End reading.
