(* ===== verification/IndexedDeque.v ===== *)
(** * The indexed deque (src/qpid/broker/IndexedDeque.h, MessageDeque.cpp)

    A deque of messages with consecutive sequence numbers, so that a number
    gives an index.  A deleted message stays as a placeholder until it reaches
    an end of the deque; [publish] fills gaps with deleted padding.  The
    template's demands on its element type are the class [DequeElem].
    [MessageDeque] is its instance for messages: the default container of a
    queue, which satisfies [MessagesLaws] ([MessageDeque_laws]). *)

From Stdlib Require Import ZArith Lia.
From S2P Require Import Prelude SequenceNumber Messages.

Class DequeElem (T : Type) := {
  d_seq : T -> Z;
  d_state : T -> MessageState;
  d_setState : MessageState -> T -> T;
}.

Record IndexedDeque (T : Type) := mkDeque { messages : list T; head : nat; version : Z }.
Arguments mkDeque {T} _ _ _.
Arguments messages {T} _.
Arguments head {T} _.
Arguments version {T} _.

Section deque.
Context {T : Type} `{!DequeElem T}.
(** the function the constructor is given *)
Variable padding : Z -> T.

Definition new_IndexedDeque : IndexedDeque T := mkDeque [] 0 0.

(** [index(position, i)]: the answer, and the variable [i] afterwards *)
Definition index (pos : Z) (i : nat) (d : IndexedDeque T) : bool * nat :=
  match messages d with
  | [] => (false, i)
  | front :: _ =>
      if SequenceNumber.ltb pos (d_seq front) then (false, 0%nat)
      else
        let i := Z.to_nat (SequenceNumber.diff pos (d_seq front)) in
        ((i <? length (messages d))%nat, i)
  end.

(** [index(cursor, i)]: the position is an [int32_t] when one is added to it *)
Definition index_cursor (c : QueueCursor) (i : nat) (d : IndexedDeque T) : outcome (bool * nat) :=
  if negb (c_valid c) then Ret (false, i)
  else if position c =? INT_MAX then Throw UndefinedBehaviour
  else Ret (index (u32 (position c + 1)) i d).

(** pops at most [n] deleted elements from the front *)
Fixpoint pop_front_deleted (n : nat) (l : list T) : list T :=
  match n, l with
  | S n', x :: l' => if decide (d_state x = DELETED) then pop_front_deleted n' l' else l
  | _, _ => l
  end.

Definition clean (d : IndexedDeque T) : IndexedDeque T :=
  let l := pop_front_deleted 10 (messages d) in
  let count := (length (messages d) - length l)%nat in
  mkDeque l (if (count <? head d)%nat then (head d - count)%nat else 0%nat) (version d).

Definition set_at (i : nat) (f : T -> T) (d : IndexedDeque T) : IndexedDeque T :=
  mkDeque (alter f i (messages d)) (head d) (version d).

Definition deleted (c : QueueCursor) (d : IndexedDeque T) : IndexedDeque T * bool :=
  if negb (c_valid c) then (d, false)
  else match index (u32 (position c)) 0 d with
       | (true, i) => (clean (set_at i (d_setState DELETED) d), true)
       | (false, _) => (d, false)
       end.

(** [added.getSequence() <= x.getSequence()] *)
Definition seq_le (a : Z) (x : T) : bool := negb (SequenceNumber.ltb (d_seq x) a).

(** pops deleted elements whose number is not below [s] from the back: the
    argument is the reversed list *)
Fixpoint pop_back_deleted (s : Z) (l : list T) : list T :=
  match l with
  | x :: l' => if seq_le s x && bool_decide (d_state x = DELETED) then pop_back_deleted s l' else l
  | [] => []
  end.

(** pads the deque up to [s], one element per round *)
Fixpoint pad (fuel : nat) (s : Z) (l : list T) : outcome (list T) :=
  match last l with
  | None => Ret l
  | Some b =>
      if 1 <? SequenceNumber.diff s (d_seq b) then
        match fuel with
        | O => Throw OutOfFuel
        | S n => pad n s (l ++ [padding (SequenceNumber.add (d_seq b) 1)])
        end
      else Ret l
  end.

(** a bound on the rounds: the distance to the last element *)
Definition gap (s : Z) (l : list T) : nat :=
  match last l with Some b => Z.to_nat (SequenceNumber.diff s (d_seq b)) | None => 0%nat end.

Definition publish (added : T) : M (IndexedDeque T) T :=
  modify clean ;;
  modify (fun d => mkDeque (reverse (pop_back_deleted (d_seq added) (reverse (messages d))))
                     (head d) (version d)) ;;
  d ← get;
  guard_throw (match last (messages d) with Some b => seq_le (d_seq added) b | None => false end)
    Exception ;;
  l ← lift_outcome (pad (gap (d_seq added) (messages d)) (d_seq added) (messages d));
  let m := d_setState AVAILABLE added in
  let l := l ++ [m] in
  put (mkDeque l (if (length l <=? head d)%nat then (length l - 1)%nat else head d) (version d)) ;;
  mret m.

(** a signed counter: adding one to the largest value is undefined *)
Definition bump : M (IndexedDeque T) unit :=
  d ← get;
  if version d =? INT_MAX then throw UndefinedBehaviour
  else put (mkDeque (messages d) (head d) (version d + 1)).

Definition release (c : QueueCursor) : M (IndexedDeque T) (option T) :=
  if negb (c_valid c) then mret None
  else
    d ← get;
    match index (u32 (position c)) 0 d with
    | (true, i) =>
        modify (set_at i (d_setState AVAILABLE)) ;; bump ;;
        d ← get; mret (messages d !! i)
    | (false, _) => mret None
    end.

Definition reset (c : QueueCursor) (d : IndexedDeque T) : bool :=
  negb (c_valid c) || (bool_decide (c_type c = CONSUMER) && negb (c_version c =? version d)).

(** the loop of [next] from the element at the index on *)
Fixpoint next_loop (ver : Z) (l : list T) (c : QueueCursor) : QueueCursor * option T :=
  match l with
  | [] => (c, None)
  | m :: l' =>
      if decide (d_state m = DELETED) then next_loop ver l' c
      else
        let c := setPosition (d_seq m) ver c in
        if check c (d_state m) then (c, Some m) else next_loop ver l' c
  end.

Definition next (c : QueueCursor) : M (IndexedDeque T) (QueueCursor * option T) :=
  d ← get;
  i ← (if reset c d then mret (head d)
       else r ← lift_outcome (index_cursor c 0 d); mret r.2);
  mret (next_loop (version d) (drop i (messages d)) c).

Definition size (d : IndexedDeque T) : Z :=
  Z.of_nat (length (filter (fun m => d_state m = AVAILABLE) (drop (head d) (messages d)))).

(** [find(position, cursor)]; the cursor is passed by pointer and may be null *)
Definition find (pos : Z) (c : option QueueCursor) (d : IndexedDeque T)
  : option QueueCursor * option T :=
  match index pos 0 d with
  | (true, i) =>
      (setPosition pos (version d) <$> c,
       match messages d !! i with
       | Some m => if decide (d_state m = AVAILABLE \/ d_state m = ACQUIRED) then Some m else None
       | None => None
       end)
  | (false, i) =>
      ((fun c => if (length (messages d) <=? i)%nat then setPosition pos (version d) c
                 else if (i =? 0)%nat then mkCursor (c_type c) (position c) (c_version c) false
                 else c) <$> c,
       None)
  end.

Definition find_cursor (c : QueueCursor) (d : IndexedDeque T) : option T :=
  if c_valid c then (find (u32 (position c)) None d).2 else None.

(** the elements [foreach] applies its functor to, and the deque afterwards *)
Definition foreach (d : IndexedDeque T) : IndexedDeque T * list T :=
  (clean d, filter (fun m => d_state m = AVAILABLE) (messages d)).

Definition resetCursors : M (IndexedDeque T) unit := bump.
End deque.

(** ** Consecutive numbers *)

Class DequeElemLaws (T : Type) `{!DequeElem T} := {
  d_seq_setState st x : d_seq (d_setState st x) = d_seq x;
  d_state_setState st x : d_state (d_setState st x) = st;
}.

Section theory.
Context {T : Type} `{!DequeElem T} `{!DequeElemLaws T}.

(** the numbers from [a] on *)
Definition contig (a : Z) (l : list T) : Prop :=
  map d_seq l = seqZ a (Z.of_nat (length l)) /\ 0 <= a /\ a + Z.of_nat (length l) <= INT_MAX.

Definition present (x : T) : bool := negb (bool_decide (d_state x = DELETED)).
Definition alive (l : list T) : list T := filter (fun x => present x = true) l.

Lemma contig_lookup a l i x : contig a l -> l !! i = Some x -> d_seq x = a + Z.of_nat i.
Proof.
  intros (Hm & _) Hx. assert (E : map d_seq l !! i = Some (d_seq x)) by (by apply list_lookup_fmap_Some; eauto).
  rewrite Hm in E. apply lookup_seqZ in E. lia.
Qed.

Lemma contig_elem a l x : contig a l -> x ∈ l -> seq_ok (d_seq x) /\ a <= d_seq x < a + Z.of_nat (length l).
Proof.
  intros Hc [i Hi]%list_elem_of_lookup. rewrite (contig_lookup a l i x Hc Hi).
  apply lookup_lt_Some in Hi. destruct Hc as (_ & ? & ?). unfold seq_ok. lia.
Qed.

Lemma contig_app a l1 l2 : contig a (l1 ++ l2) -> contig a l1 /\ contig (a + Z.of_nat (length l1)) l2.
Proof.
  intros (Hm & Ha & Hb). rewrite map_app, length_app in *.
  rewrite Nat2Z.inj_add, seqZ_app in Hm by lia.
  apply app_inj_1 in Hm as [H1 H2]; [|by rewrite length_map, length_seqZ, Nat2Z.id].
  split; (split; [done|lia]).
Qed.

Lemma contig_join a l1 l2 :
  contig a l1 -> contig (a + Z.of_nat (length l1)) l2 -> contig a (l1 ++ l2).
Proof.
  intros (H1 & Ha & Hb) (H2 & _ & Hc). unfold contig.
  rewrite map_app, length_app, Nat2Z.inj_add, seqZ_app, H1, H2 by lia. split; [done|lia].
Qed.

Lemma contig_alter a l f i :
  (forall x, d_seq (f x) = d_seq x) -> contig a l -> contig a (alter f i l).
Proof.
  intros Hf (Hm & Hb). unfold contig. rewrite length_alter. split; [|done]. rewrite <- Hm.
  apply list_eq. intros j. rewrite !list_lookup_fmap.
  destruct (decide (i = j)) as [<-|]; [|by rewrite list_lookup_alter_ne].
  rewrite list_lookup_alter_eq. destruct (l !! i); [|done]. simpl. by rewrite Hf.
Qed.

Lemma contig_sorted a l : contig a l -> StronglySorted Z.lt (map d_seq l).
Proof. intros (-> & _). apply StronglySorted_seqZ. Qed.

Lemma index_spec a d i p :
  contig a (messages d) -> 0 <= p <= INT_MAX ->
  index p i d = match messages d with
                | [] => (false, i)
                | _ => if p <? a then (false, 0%nat)
                       else ((Z.to_nat (p - a) <? length (messages d))%nat, Z.to_nat (p - a))
                end.
Proof.
  intros Hc Hp. unfold index. destruct (messages d) as [|x l] eqn:E; [done|].
  destruct (contig_elem a _ x Hc) as [Hx _]; [by left|].
  assert (d_seq x = a) as Ha by (rewrite (contig_lookup a (x :: l) 0 x) by done; lia).
  unfold seq_ok in Hx. rewrite small_lt, small_diff by lia. by rewrite Ha.
Qed.

(** a number of the deque gives the index of its element *)
Lemma index_found a d p x :
  contig a (messages d) -> x ∈ messages d -> d_seq x = p ->
  exists i, index p 0 d = (true, i) /\ messages d !! i = Some x.
Proof.
  intros Hc [i Hi]%list_elem_of_lookup <-. exists i. split; [|done].
  assert (x ∈ messages d) by (by eapply list_elem_of_lookup_2).
  destruct (contig_elem a _ x Hc) as [Hx _]; [done|].
  rewrite (index_spec a) by (done || unfold seq_ok in Hx; lia).
  destruct (messages d) as [|y l] eqn:E; [done|]. rewrite (contig_lookup a _ i x) by done. apply lookup_lt_Some in Hi as Hlt.
  rewrite (proj2 (Z.ltb_ge _ _)) by lia. replace (Z.to_nat (a + Z.of_nat i - a)) with i by lia.
  by rewrite (proj2 (Nat.ltb_lt _ _)).
Qed.

Lemma index_true a d p i :
  contig a (messages d) -> seq_ok p -> index p 0 d = (true, i) ->
  exists x, messages d !! i = Some x /\ d_seq x = p.
Proof.
  intros Hc Hp. rewrite (index_spec a) by (done || unfold seq_ok in Hp; lia). destruct (messages d) as [|y l] eqn:E; [done|].
  destruct (Z.ltb_spec p a); [done|]. intros [= Hlt <-]. apply Nat.ltb_lt in Hlt.
  apply (lookup_lt_is_Some_2 (y :: l)) in Hlt as [x Hx]. exists x. split; [done|].
  rewrite (contig_lookup a _ _ x Hc Hx). lia.
Qed.

Lemma contig_split a l i x :
  contig a l -> l !! i = Some x ->
  exists l1 l2, l = l1 ++ x :: l2 /\ i = length l1 /\
    Forall (fun y => d_seq y <> d_seq x) l1 /\ Forall (fun y => d_seq y <> d_seq x) l2.
Proof.
  intros Hc Hx. exists (take i l), (drop (S i) l). split; [by rewrite take_drop_middle|].
  apply lookup_lt_Some in Hx as Hlt. split; [rewrite length_take; lia|].
  rewrite !Forall_lookup. split; intros j y Hy.
  - apply lookup_take_Some in Hy as [Hy Hj].
    rewrite (contig_lookup a l j y), (contig_lookup a l i x) by done. lia.
  - rewrite lookup_drop in Hy. rewrite (contig_lookup a l _ y Hc Hy), (contig_lookup a l i x) by done. lia.
Qed.

Lemma alter_middle (f : T -> T) l1 x l2 : alter f (length l1) (l1 ++ x :: l2) = l1 ++ f x :: l2.
Proof. rewrite <- (Nat.add_0_r (length l1)). by rewrite alter_app_r. Qed.

Lemma alive_app l1 l2 : alive (l1 ++ l2) = alive l1 ++ alive l2.
Proof. apply filter_app. Qed.

Lemma alive_deleted l : Forall (fun x => d_state x = DELETED) l -> alive l = [].
Proof.
  intros H. apply filter_none. eapply Forall_impl; [exact H|]. intros x Hx. unfold present.
  by rewrite bool_decide_true.
Qed.

Lemma alive_elem x l : x ∈ alive l <-> x ∈ l /\ d_state x <> DELETED.
Proof.
  unfold alive, present. rewrite list_elem_of_filter. case_bool_decide; naive_solver.
Qed.

Lemma alive_cons x l : alive (x :: l) = if present x then x :: alive l else alive l.
Proof. unfold alive. by destruct (present x) eqn:E; [rewrite filter_cons_True|rewrite filter_cons_False by congruence]. Qed.

(** the elements but the one numbered [p] *)
Definition drop_seq (p : Z) (l : list T) : list T := filter (fun y => d_seq y <> p) l.
Definition map_seq (p : Z) (f : T -> T) (l : list T) : list T :=
  map (fun y => if decide (d_seq y = p) then f y else y) l.

Lemma drop_seq_other p l : Forall (fun y => d_seq y <> p) l -> drop_seq p l = l.
Proof. apply filter_all. Qed.

Lemma map_seq_other p f l : Forall (fun y => d_seq y <> p) l -> map_seq p f l = l.
Proof. induction 1; [done|]. unfold map_seq in *. cbn [map]. rewrite decide_False by done. by f_equal. Qed.

Lemma Forall_alive (P : T -> Prop) l : Forall P l -> Forall P (alive l).
Proof. rewrite !Forall_forall. intros H x [Hx _]%alive_elem. auto. Qed.

(** deleting an element, and changing one in place *)
Lemma alive_delete a l i x :
  contig a l -> l !! i = Some x -> alive (alter (d_setState DELETED) i l) = drop_seq (d_seq x) (alive l).
Proof.
  intros Hc Hx. destruct (contig_split a l i x Hc Hx) as (l1 & l2 & -> & -> & H1 & H2).
  rewrite alter_middle. unfold drop_seq. rewrite !alive_app, filter_app, !alive_cons.
  f_equal; [symmetry; by apply drop_seq_other, Forall_alive|].
  unfold present at 1. rewrite d_state_setState, bool_decide_true by done. cbn [negb].
  destruct (present x); [rewrite filter_cons_False by naive_solver|];
    symmetry; by apply drop_seq_other, Forall_alive.
Qed.

Lemma alive_alter a l i x f :
  contig a l -> l !! i = Some x -> d_state x <> DELETED -> d_state (f x) <> DELETED ->
  alive (alter f i l) = map_seq (d_seq x) f (alive l).
Proof.
  intros Hc Hx Hst Hf. destruct (contig_split a l i x Hc Hx) as (l1 & l2 & -> & -> & H1 & H2).
  rewrite alter_middle. unfold map_seq. rewrite !alive_app, map_app, !alive_cons. unfold present.
  rewrite !bool_decide_false by done. cbn [negb map]. rewrite decide_True by done.
  f_equal; [|f_equal]; symmetry; by apply map_seq_other, Forall_alive.
Qed.

(** *** The ends *)

Lemma pop_front_spec n l :
  exists k, pop_front_deleted n l = drop k l /\ Forall (fun x => d_state x = DELETED) (take k l).
Proof.
  revert l. induction n as [|n IH]; intros l; [by exists 0%nat|].
  destruct l as [|x l]; [by exists 0%nat|]. cbn [pop_front_deleted]. case_decide as Hx; [|by exists 0%nat].
  destruct (IH l) as (k & E & Hk). exists (S k). cbn [drop take]. auto.
Qed.

Lemma pop_back_spec s l :
  exists k, pop_back_deleted s l = drop k l /\ Forall (fun x => d_state x = DELETED) (take k l) /\
    match drop k l with x :: _ => seq_le s x = false \/ d_state x <> DELETED | [] => True end.
Proof.
  induction l as [|x l IH]; [by exists 0%nat|]. cbn [pop_back_deleted].
  destruct (seq_le s x) eqn:E; [|exists 0%nat; cbn; auto].
  case_bool_decide; cbn [andb]; [|exists 0%nat; cbn; auto].
  destruct IH as (k & Ek & Hk & Hh). exists (S k). cbn [drop take]. auto.
Qed.

(** popping deleted elements at the back, as a prefix of the deque *)
Lemma pop_back_prefix s l :
  exists l1 l2, l = l1 ++ l2 /\ reverse (pop_back_deleted s (reverse l)) = l1 /\
    Forall (fun x => d_state x = DELETED) l2 /\
    match last l1 with Some x => seq_le s x = false \/ d_state x <> DELETED | None => True end.
Proof.
  destruct (pop_back_spec s (reverse l)) as (k & -> & Hk & Hh).
  exists (reverse (drop k (reverse l))), (reverse (take k (reverse l))).
  split; [by rewrite <- reverse_app, take_drop, reverse_involutive|]. split; [done|].
  split; [by apply Forall_reverse|]. rewrite last_reverse. revert Hh. by destruct (drop k (reverse l)).
Qed.

Lemma clean_spec a d :
  contig a (messages d) -> head d = 0%nat ->
  exists a', contig a' (messages (clean d)) /\ head (clean d) = 0%nat /\
    alive (messages (clean d)) = alive (messages d) /\ version (clean d) = version d /\
    exists k, messages (clean d) = drop k (messages d).
Proof.
  intros Hc Hh. unfold clean. destruct (pop_front_spec 10 (messages d)) as (k & -> & Hk).
  cbn [messages head version]. rewrite Hh.
  pose proof (take_drop k (messages d)) as E. rewrite <- E in Hc. apply contig_app in Hc as [_ Hc].
  eexists. split; [exact Hc|]. split; [done|]. split; [|by eauto].
  rewrite <- E at 2. by rewrite alive_app, (alive_deleted (take k _)).
Qed.

(** *** Looking ahead *)

Lemma next_loop_alive ver l c : next_loop ver l c = next_loop ver (alive l) c.
Proof.
  revert c. induction l as [|x l IH]; intros c; [done|]. rewrite alive_cons. unfold present.
  case_bool_decide as Hx; cbn [negb next_loop].
  - by rewrite decide_True.
  - rewrite !decide_False by done. destruct (check _ _); [done|apply IH].
Qed.

Lemma contig_after a l p :
  contig a l -> filter (fun x => p < d_seq x) l = drop (Z.to_nat (p + 1 - a)) l.
Proof.
  intros Hc. rewrite <- (take_drop (Z.to_nat (p + 1 - a)) l) at 1. rewrite filter_app.
  assert (Hlo : filter (fun x => p < d_seq x) (take (Z.to_nat (p + 1 - a)) l) = []).
  { apply filter_none. apply Forall_lookup. intros i x [Hx Hi]%lookup_take_Some.
    rewrite (contig_lookup a l i x) by done. lia. }
  rewrite Hlo. cbn [app].
  apply filter_all, Forall_lookup. intros i x Hx. rewrite lookup_drop in Hx.
  rewrite (contig_lookup a l _ x Hc Hx). lia.
Qed.

End theory.

(** ** The operations on the list of messages that are present *)

Section operations.
Context {T : Type} `{!DequeElem T} `{!DequeElemLaws T}.
Variable padding : Z -> T.
Hypothesis padding_seq : forall s, d_seq (padding s) = s.
Hypothesis padding_state : forall s, d_state (padding s) = DELETED.

Record deque_ok (d : IndexedDeque T) : Prop := mkDequeOk {
  deque_contig : exists a, contig a (messages d);
  deque_head : head d = 0%nat;
  deque_states : Forall (fun x => d_state x <> UNAVAILABLE) (messages d)
}.

Lemma contig_last a l b : contig a l -> last l = Some b -> d_seq b = a + Z.of_nat (length l) - 1.
Proof.
  intros Hc Hb. rewrite last_lookup in Hb. apply lookup_lt_Some in Hb as Hlt.
  rewrite (contig_lookup a l _ b Hc Hb). lia.
Qed.

Lemma contig_snoc a l x :
  contig a l -> seq_ok (d_seq x) -> d_seq x = a + Z.of_nat (length l) -> contig a (l ++ [x]).
Proof.
  intros Hc Hx E. apply contig_join; [done|]. unfold contig, seq_ok in *. cbn [map length].
  rewrite seqZ_cons, seqZ_nil by lia. split; [by rewrite E|]. destruct Hc as (_ & ? & ?). lia.
Qed.

Lemma pad_spec a fuel s l b :
  contig a l -> last l = Some b -> d_seq b < s -> seq_ok s -> (Z.to_nat (s - d_seq b) <= fuel)%nat ->
  exists l', pad padding fuel s l = Ret (l ++ l') /\ Forall (fun x => d_state x = DELETED /\ exists n, x = padding n) l' /\
    contig a (l ++ l') /\ a + Z.of_nat (length (l ++ l')) = s.
Proof.
  revert l b. induction fuel as [|n IH]; intros l b Hc Hb Hlt Hs Hfuel; [lia|].
  assert (Hbok : seq_ok (d_seq b)).
  { apply (contig_elem a l); [done|]. rewrite last_lookup in Hb. by eapply list_elem_of_lookup_2. }
  pose proof (contig_last a l b Hc Hb) as Hbl. cbn [pad]. rewrite Hb, seq_ok_diff by done.
  destruct (Z.ltb_spec 1 (s - d_seq b)).
  - set (x := padding (SequenceNumber.add (d_seq b) 1)).
    assert (Hx : d_seq x = d_seq b + 1).
    { unfold x, SequenceNumber.add, SequenceNumber.mk. rewrite padding_seq.
      unfold seq_ok, INT_MAX in *. rewrite !uwrap_small; unfold is_uint; try rewrite uwrap_small; unfold is_uint; lia. }
    destruct (IH (l ++ [x]) x) as (l' & E & Hd & Hc' & Hlen).
    + apply contig_snoc; [done|rewrite Hx; unfold seq_ok in *; lia|lia].
    + apply last_snoc.
    + lia.
    + done.
    + lia.
    + exists (x :: l'). rewrite <- app_assoc in *. split; [done|]. split; [|done].
      constructor; [split; [apply padding_state|by eexists]|done].
  - exists []. rewrite app_nil_r. split; [done|]. split; [constructor|]. split; [done|]. lia.
Qed.

Lemma clean_ok d :
  deque_ok d -> deque_ok (clean d) /\ alive (messages (clean d)) = alive (messages d) /\
                version (clean d) = version d.
Proof.
  intros [[a Hc] Hh Hst]. destruct (clean_spec a d Hc Hh) as (a' & Hc' & Hh' & Hal & Hv & k & Ek).
  split; [|done]. constructor; [by eexists|done|]. rewrite Ek. by apply Forall_drop.
Qed.

Lemma publish_settable d x :
  d_seq (d_setState AVAILABLE x) = d_seq x -> d_state (d_setState AVAILABLE x) = AVAILABLE ->
  deque_ok d -> seq_ok (d_seq x) -> Forall (fun y => d_seq y < d_seq x) (alive (messages d)) ->
  exists d', publish padding x d = (d', Ret (d_setState AVAILABLE x)) /\ deque_ok d' /\
    alive (messages d') = alive (messages d) ++ [d_setState AVAILABLE x] /\ version d' = version d /\
    last (messages d') = Some (d_setState AVAILABLE x) /\
    Forall (fun y => y ∈ messages d \/ y = d_setState AVAILABLE x \/ exists n, y = padding n) (messages d').
Proof.
  intros Hy Hst' Hd Hx Hlt. destruct (clean_ok d Hd) as ([[a Hc] Hh Hst] & Hal & Hv).
  assert (Hsub : forall y, y ∈ messages (clean d) -> y ∈ messages d).
  { destruct Hd as [[a0 Hc0] Hh0 _]. destruct (clean_spec a0 d Hc0 Hh0) as (_ & _ & _ & _ & _ & k & ->). intros y Hin.
    rewrite <- (take_drop k (messages d)). apply elem_of_app. by right. }
  rewrite <- Hal in Hlt |- *. rewrite <- Hv. unfold publish. mstep. cbn [modify get].
  destruct (pop_back_prefix (d_seq x) (messages (clean d))) as (l1 & l2 & E & -> & Hdel & Hlast).
  rewrite E in Hc, Hst, Hlt |- *. rewrite alive_app, (alive_deleted l2 Hdel), app_nil_r in Hlt |- *.
  apply contig_app in Hc as [Hc _]. apply Forall_app in Hst as [Hst _].
  cbn [messages head version]. rewrite Hh.
  set (y := d_setState AVAILABLE x) in *.
  assert (Hya : alive [y] = [y]) by (rewrite alive_cons; unfold present; by rewrite Hst').
  assert (Hys : d_state y <> UNAVAILABLE) by (by rewrite Hst').
  destruct (last l1) as [b|] eqn:Eb.
  - assert (Hb : b ∈ l1) by (rewrite last_lookup in Eb; by eapply list_elem_of_lookup_2).
    destruct (contig_elem a l1 b Hc Hb) as [Hbok _].
    assert (Hbx : d_seq b < d_seq x).
    { destruct Hlast as [Hle|Hdel'].
      - unfold seq_le in Hle. apply negb_false_iff in Hle. rewrite seq_ok_lt in Hle by done. lia.
      - rewrite Forall_forall in Hlt. apply Hlt. by apply alive_elem. }
    unfold guard_throw, seq_le. rewrite seq_ok_lt, (proj2 (Z.ltb_lt _ _)) by done. cbn [negb].
    unfold lift_outcome, gap. rewrite Eb, seq_ok_diff by done.
    destruct (pad_spec a (Z.to_nat (d_seq x - d_seq b)) (d_seq x) l1 b)
      as (l' & -> & Hdel' & Hc' & Hlen); [done..|].
    assert (Hdel2 : Forall (fun y => d_state y = DELETED) l') by (eapply Forall_impl; [exact Hdel'|]; tauto).
    eexists. split; [reflexivity|]. cbn [messages version]. split; [|split; [|split; [done|split; [by rewrite last_snoc|]]]].
    + constructor; cbn [messages head].
      * exists a. apply contig_snoc; [done|by rewrite Hy|lia].
      * by rewrite length_app, Nat.add_comm.
      * rewrite !Forall_app. split_and!; [done| |by constructor].
        eapply Forall_impl; [exact Hdel2|]. cbn. congruence.
    + by rewrite !alive_app, (alive_deleted l' Hdel2), app_nil_r, Hya.
    + rewrite !Forall_app, Forall_singleton. split_and!; [|eapply Forall_impl; [exact Hdel'|]; tauto|tauto].
      apply Forall_forall. intros z Hz. left. apply Hsub. rewrite E. apply elem_of_app. by left.
  - apply last_None in Eb as ->. cbn. unfold lift_outcome. cbn.
    eexists. split; [reflexivity|]. cbn [messages version]. split; [|split; [|split; [done|split; [done|]]]].
    + constructor; cbn [messages head]; [|done|by constructor].
      exists (d_seq x). unfold contig. cbn. rewrite Hy. unfold seq_ok in Hx. split; [done|lia].
    + by rewrite Hya.
    + rewrite Forall_singleton. tauto.
Qed.

Lemma publish_spec d x :
  deque_ok d -> seq_ok (d_seq x) -> Forall (fun y => d_seq y < d_seq x) (alive (messages d)) ->
  exists d', publish padding x d = (d', Ret (d_setState AVAILABLE x)) /\ deque_ok d' /\
    alive (messages d') = alive (messages d) ++ [d_setState AVAILABLE x] /\ version d' = version d.
Proof.
  intros Hd Hx Hlt. destruct (publish_settable d x) as (d' & E & Hok & Hal & Hv & _); [apply d_seq_setState|apply d_state_setState|done..|].
  by exists d'.
Qed.

Lemma set_at_ok d i f :
  (forall x, d_seq (f x) = d_seq x) ->
  (forall x, messages d !! i = Some x -> d_state (f x) <> UNAVAILABLE) ->
  deque_ok d -> deque_ok (set_at i f d).
Proof.
  intros Hs Hf [[a Hc] Hh Hst]. constructor; cbn [set_at messages head].
  - exists a. by apply contig_alter.
  - done.
  - apply Forall_alter; [done|]. intros x Hx _. by apply Hf.
Qed.

Lemma deleted_spec d c :
  deque_ok d -> c_valid c = true -> seq_ok (position c) ->
  exists d' b, deleted c d = (d', b) /\ deque_ok d' /\
    alive (messages d') = drop_seq (position c) (alive (messages d)) /\
    (position c ∈ map d_seq (alive (messages d)) -> b = true) /\ version d' = version d.
Proof.
  intros Hd Hv Hp. pose proof Hd as [[a Hc] Hh Hst]. unfold deleted. rewrite Hv, seq_ok_u32 by done.
  cbn [negb]. destruct (index (position c) 0 d) as [[] i] eqn:Ei.
  - destruct (index_true a d _ i Hc Hp Ei) as (x & Hx & Hxp).
    assert (Hok : deque_ok (set_at i (d_setState DELETED) d)).
    { apply set_at_ok; [intros; apply d_seq_setState| |done]. intros y _. by rewrite d_state_setState. }
    destruct (clean_ok _ Hok) as (Hok' & Hal & Hv'). eexists _, _. split; [reflexivity|].
    split; [done|]. split; [|done]. rewrite Hal, <- Hxp. cbn [set_at messages].
    by apply (alive_delete a).
  - eexists _, _. split; [reflexivity|]. split; [done|].
    assert (Hno : Forall (fun y => d_seq y <> position c) (messages d)).
    { apply Forall_forall. intros y Hy E. destruct (index_found a d _ y Hc Hy E) as (j & Ej & _).
      congruence. }
    rewrite drop_seq_other by (by apply Forall_alive). split; [done|]. split; [|done].
    intros (y & E & [Hy _]%alive_elem)%list_elem_of_fmap. rewrite Forall_forall in Hno.
    by destruct (Hno y Hy).
Qed.

Lemma release_deque_spec d c x :
  deque_ok d -> c_valid c = true -> version d < INT_MAX ->
  x ∈ alive (messages d) -> d_seq x = position c ->
  exists d', release c d = (d', Ret (Some (d_setState AVAILABLE x))) /\ deque_ok d' /\
    alive (messages d') = map_seq (position c) (d_setState AVAILABLE) (alive (messages d)) /\
    version d' = version d + 1.
Proof.
  intros Hd Hv Hver Hx Hp. pose proof Hd as [[a Hc] Hh Hst]. apply alive_elem in Hx as [Hx Hxs].
  destruct (contig_elem a _ x Hc Hx) as [Hxok _]. unfold release. rewrite Hv. cbn [negb].
  destruct (index_found a d _ x Hc Hx eq_refl) as (i & Ei & Hi).
  mstep. cbn [get]. rewrite <- Hp, seq_ok_u32, Ei by done. unfold modify, bump. mstep. unfold get, put.
  cbn [set_at version messages head]. rewrite (proj2 (Z.eqb_neq _ _)) by lia.
  cbn [messages]. rewrite list_lookup_alter_eq, Hi. cbn [fmap option_fmap option_map].
  eexists. split; [reflexivity|].
  assert (Hok : deque_ok (set_at i (d_setState AVAILABLE) d)).
  { apply set_at_ok; [intros; apply d_seq_setState| |done]. intros y _. by rewrite d_state_setState. }
  split; [destruct Hok as [? ? ?]; by constructor|]. cbn [messages version]. split; [|done].
  apply (alive_alter a); [done|done|done|]. by rewrite d_state_setState.
Qed.

Lemma find_spec d p c :
  deque_ok d -> seq_ok p ->
  match list_find (fun x => d_seq x = p) (alive (messages d)) with
  | Some (_, x) => find p c d = (setPosition p (version d) <$> c, Some x)
  | None => (find p c d).2 = None
  end.
Proof.
  intros [[a Hc] Hh Hst] Hp. unfold find. destruct (index p 0 d) as [[] i] eqn:Ei.
  - destruct (index_true a d p i Hc Hp Ei) as (x & Hx & Hxp). rewrite Hx. cbn [fst snd].
    destruct (list_find _ _) as [[j y]|] eqn:Ef.
    + apply list_find_Some in Ef as (Hy & Hyp & _). apply list_elem_of_lookup_2 in Hy.
      apply alive_elem in Hy as [Hy Hys].
      destruct (index_found a d p y Hc Hy Hyp) as (i' & Ei' & Hi'). rewrite Ei in Ei'. simplify_eq.
      rewrite decide_True; [done|]. rewrite Forall_forall in Hst. specialize (Hst _ Hy).
      destruct (d_state x); naive_solver.
    + rewrite decide_False; [done|]. intros Hs. apply list_find_None in Ef.
      rewrite Forall_forall in Ef. apply (Ef x); [|done]. apply alive_elem.
      split; [by eapply list_elem_of_lookup_2|]. destruct Hs as [-> | ->]; done.
  - destruct (list_find _ _) as [[j y]|] eqn:Ef; [|done].
    apply list_find_Some in Ef as (Hy & Hyp & _). apply list_elem_of_lookup_2 in Hy.
    apply alive_elem in Hy as [Hy _].
    destruct (index_found a d p y Hc Hy Hyp) as (i' & Ei' & _). congruence.
Qed.

Lemma next_spec d c :
  deque_ok d -> seq_ok (position c) ->
  next c d = (d, Ret (next_loop (version d)
    (filter (fun x => reset c d = true \/ position c < d_seq x) (alive (messages d))) c)).
Proof.
  intros [[a Hc] Hh Hst] Hp. unfold next. mstep. cbn [get]. rewrite Hh.
  destruct (reset c d) eqn:Er.
  - cbn [drop]. rewrite (filter_all _ (alive _)) by (apply Forall_forall; naive_solver).
    by rewrite <- next_loop_alive.
  - assert (c_valid c = true) as Hv by (unfold reset in Er; by destruct (c_valid c)).
    unfold lift_outcome, index_cursor. rewrite Hv. cbn [negb].
    unfold seq_ok in Hp. rewrite (proj2 (Z.eqb_neq _ _)) by lia.
    rewrite uwrap_small by (unfold is_uint, INT_MAX in *; lia). cbn [fst snd].
    rewrite (next_loop_alive _ (drop _ _)). do 3 f_equal.
    assert (drop (index (position c + 1) 0 d).2 (messages d)
            = drop (Z.to_nat (position c + 1 - a)) (messages d)) as ->.
    { rewrite (index_spec a) by (done || lia). destruct (messages d); [by rewrite !drop_nil|].
      destruct (Z.ltb_spec (position c + 1) a); [|done].
      replace (Z.to_nat (position c + 1 - a)) with 0%nat by lia. done. }
    rewrite <- (contig_after a) by done. unfold alive. rewrite (filter_comm _ (fun x => position c < d_seq x)).
    apply list_filter_iff. intros x. naive_solver.
Qed.
End operations.
