(* ===== verification/MessageDeque.v ===== *)
(** * The message deque (src/qpid/broker/MessageDeque.cpp)

    [MessageDeque] is [IndexedDeque<Message>]: the container of an ordinary
    queue.  It keeps the promises of [MessagesLaws], so the queue's theorems
    hold of it.  Beyond them it is fair: [consumer_sees_all] says that no
    interleaving of publishing, reading, acquiring, releasing and deleting
    hides an available message from a consumer that has not been offered it. *)

From Stdlib Require Import ZArith Lia.
From S2P Require Import Prelude SequenceNumber Messages IndexedDeque.

#[global] Instance Message_DequeElem : DequeElem Message := {|
  d_seq := getSequence; d_state := getState; d_setState := setState
|}.

#[global] Instance Message_DequeElemLaws : DequeElemLaws Message.
Proof. by split. Qed.

(** a default constructed message: it has no encoding *)
Definition no_encoding : Encoding := mkEncoding 0 false 0 0 [] [] false.
Definition padding (id : Z) : Message := mkMessage no_encoding id DELETED (-1) false [].

Abbreviation MessageDeque := (IndexedDeque Message).

Definition new_MessageDeque : MessageDeque := new_IndexedDeque.

(** writing through a pointer to the message numbered [p] *)
Definition write_at (p : Z) (f : Message -> Message) (d : MessageDeque) : MessageDeque :=
  match index p 0 d with
  | (true, i) => set_at i f d
  | (false, _) => d
  end.

Definition md_deleted (c : QueueCursor) : M MessageDeque bool :=
  fun d => let '(d', b) := deleted c d in (d', Ret b).
Definition md_publish (added : Message) : M MessageDeque unit :=
  publish padding added ;; mret tt.
Definition md_release (c : QueueCursor) : M MessageDeque (option Message) := release c.
Definition md_next (c : QueueCursor) : M MessageDeque (QueueCursor * option Message) := next c.
Definition md_size (d : MessageDeque) : Z := size d.
Definition md_find (p : Z) (c : QueueCursor) (d : MessageDeque) : QueueCursor * option Message :=
  let '(oc, r) := find p (Some c) d in (default c oc, r).
Definition md_find_cursor (c : QueueCursor) (d : MessageDeque) : option Message := find_cursor c d.
Definition md_foreach (d : MessageDeque) : MessageDeque * list Message := foreach d.
Definition md_resetCursors : M MessageDeque unit := resetCursors.

#[global] Instance MessageDeque_Messages : Messages MessageDeque := {|
  msgs_size := md_size; msgs_deleted := md_deleted; msgs_publish := md_publish;
  msgs_next := md_next; msgs_release := md_release; msgs_find := md_find;
  msgs_find_cursor := md_find_cursor; msgs_write := write_at
|}.

(** ** The laws *)

Lemma padding_seq s : d_seq (padding s) = s.
Proof. done. Qed.

Lemma padding_state s : d_state (padding s) = DELETED.
Proof. done. Qed.

Lemma deque_loop_scan ver l c :
  Forall (fun m => getState m <> DELETED) l -> next_loop ver l c = scan ver l c.
Proof.
  intros Hl. revert c. induction Hl as [|m l Hm Hl IH]; intros c; [done|]. cbn [next_loop scan].
  rewrite decide_False by done. cbn [d_seq Message_DequeElem d_state]. case_match; [done|apply IH].
Qed.

Lemma md_find_lookup (d : MessageDeque) p :
  lookup_seq p (alive (messages d)) = snd <$> list_find (fun x => d_seq x = p) (alive (messages d)).
Proof. done. Qed.

Lemma write_at_spec (d : MessageDeque) p f :
  deque_ok d -> write_ok f -> p ∈ map getSequence (alive (messages d)) ->
  deque_ok (write_at p f d) /\ alive (messages (write_at p f d)) = map (at_seq p f) (alive (messages d)) /\
  version (write_at p f d) = version d.
Proof.
  intros Hd Hf (x & -> & [Hx Hxs]%alive_elem)%list_elem_of_fmap. pose proof Hd as [[a Hc] Hh Hst].
  unfold write_at. destruct (index_found a d _ x Hc Hx eq_refl) as (i & Ei & Hi).
  cbn [d_seq Message_DequeElem] in Ei. rewrite Ei.
  assert (Hlive : live_state (getState x)).
  { rewrite Forall_forall in Hst. specialize (Hst x Hx). unfold live_state.
    cbn [d_state Message_DequeElem] in *. destruct (getState x); naive_solver. }
  destruct (Hf x) as (_ & _ & Hfs). specialize (Hfs Hlive).
  assert (getState (f x) <> DELETED /\ getState (f x) <> UNAVAILABLE) as [Hf1 Hf2]
    by (destruct Hfs as [-> | ->]; done).
  split; [apply set_at_ok; [|intros y Hy|done]|split; [|done]].
  - intros y. apply Hf.
  - by simplify_eq.
  - exact (alive_alter a (messages d) i x f Hc Hi Hxs Hf1).
Qed.

Lemma alive_sorted (d : MessageDeque) :
  deque_ok d -> StronglySorted Z.lt (map getSequence (alive (messages d))).
Proof.
  intros [[a Hc] _ _]. eapply StronglySorted_sublist; [|apply (contig_sorted a _ Hc)].
  apply fmap_sublist, sublist_filter.
Qed.

Lemma alive_states (d : MessageDeque) :
  deque_ok d -> Forall (fun m => seq_ok (getSequence m) /\ live_state (getState m)) (alive (messages d)).
Proof.
  intros [[a Hc] _ Hst]. apply Forall_forall. intros x [Hx Hd]%alive_elem.
  split; [by apply (contig_elem a _ x Hc)|]. rewrite Forall_forall in Hst. specialize (Hst x Hx).
  unfold live_state. cbn [d_state Message_DequeElem] in *. destruct (getState x); naive_solver.
Qed.

Lemma md_size_spec (d : MessageDeque) :
  deque_ok d -> md_size d = Z.of_nat (length (filter (fun m => getState m = AVAILABLE) (alive (messages d)))).
Proof.
  intros [_ Hh _]. unfold md_size, size, alive. rewrite Hh, drop_0, list_filter_filter. do 2 f_equal.
  apply list_filter_iff. intros x. unfold present. cbn [d_state Message_DequeElem].
  rewrite negb_true_iff, bool_decide_eq_false. split; [intros E; split; [done|congruence]|tauto].
Qed.

Lemma md_next_spec (d : MessageDeque) c :
  deque_ok d -> seq_ok (position c) ->
  md_next c d = (d, Ret (scan (version d)
    (filter (fun m => reset c d = true \/ position c < getSequence m) (alive (messages d))) c)).
Proof.
  intros Hd Hp. unfold md_next. rewrite next_spec by done. do 2 f_equal. apply deque_loop_scan.
  apply Forall_forall. intros m [_ [_ Hm]%alive_elem]%list_elem_of_filter. exact Hm.
Qed.

Lemma md_fresh (d : MessageDeque) t p : reset (mkCursor t p (version d) true) d = false.
Proof. unfold reset. cbn. by rewrite Z.eqb_refl, andb_false_r. Qed.

#[global, refine] Instance MessageDeque_laws : MessagesLaws MessageDeque := {|
  msgs_ok := deque_ok;
  live := fun d => alive (messages d);
  resets := reset;
  msgs_version := version;
  displaces := fun _ _ _ => false;
  can_release := fun d => version d < INT_MAX;
  live_sorted := alive_sorted;
  live_ok := alive_states;
  law_fresh := md_fresh;
  law_new := fun _ _ => eq_refl;
  law_size := md_size_spec;
  law_next := md_next_spec;
  law_publish := _; law_deleted := _; law_release := _; law_find_cursor := _; law_find := _;
  law_write := _
|}.
Proof.
  - intros d m Hd Hm Hlt. destruct (publish_spec padding padding_seq padding_state d m)
      as (d' & E & Hok & Hal & Hv); [done..|]. exists d'. split; [|split; [done|]].
    + cbn [msgs_publish MessageDeque_Messages]. unfold md_publish. by rewrite (bind_Ret _ _ _ _ _ E).
    + rewrite Hal, Hv. split; [|split; [|done]].
      * by rewrite (filter_all _ (alive _)) by (by apply Forall_forall).
      * intros c. unfold reset. by rewrite Hv.
  - intros d c Hd Hv Hp. destruct (deleted_spec d c Hd Hv Hp) as (d' & b & E & Hok & Hal & Hb & Hver).
    exists d', b. split; [|split; [done|]].
    + cbn [msgs_deleted MessageDeque_Messages]. unfold md_deleted. by rewrite E.
    + split; [exact Hal|]. split; [exact Hb|]. split; [|split; [done|by rewrite Hver]].
      intros c'. unfold reset. by rewrite Hver.
  - intros d c m Hd Hv Hver [Hm Hp]%lookup_seq_elem.
    destruct (release_deque_spec d c m Hd Hver Hv Hm Hp) as (d' & E & Hok & Hal & _).
    exists d'. done.
  - intros d c Hd Hv Hp. cbn [msgs_find_cursor MessageDeque_Messages]. unfold md_find_cursor, find_cursor.
    rewrite Hv, seq_ok_u32 by done. pose proof (find_spec d (position c) None Hd Hp) as Hf.
    rewrite md_find_lookup. destruct (list_find _ _) as [[i x]|]; by rewrite Hf.
  - intros d p c Hd Hp. cbn [msgs_find MessageDeque_Messages]. unfold md_find.
    pose proof (find_spec d p (Some c) Hd Hp) as Hf. rewrite md_find_lookup.
    destruct (list_find _ _) as [[i x]|]; [by rewrite Hf|].
    destruct (find p (Some c) d) as [oc r]. cbn in *. split; [done|]. by intros [? ?].
  - intros d p f Hd Hf Hp. destruct (write_at_spec d p f Hd Hf Hp) as (Hok & Hal & Hv).
    cbn [msgs_write MessageDeque_Messages]. rewrite Hv. split_and!; try done.
    intros c. unfold reset. by rewrite Hv.
Defined.

#[global] Instance MessageDeque_fifo : FifoMessages MessageDeque.
Proof. done. Qed.

(** ** Fairness

    One consumer of a queue among any others: its cursor, the numbers of the
    messages [next] has given it since they last became available, and the
    highest number published.  The steps are the calls its queue makes on the
    container, for this consumer and for the others. *)

Record View := mkView { deque : MessageDeque; cursor : QueueCursor; offered : list Z; top : Z }.

Definition on_queue (p : Z) (d : MessageDeque) : Prop := p ∈ map getSequence (live d).

Inductive step : View -> View -> Prop :=
| step_publish v m d' :
    seq_ok (getSequence m) -> top v < getSequence m -> md_publish m (deque v) = (d', Ret tt) ->
    step v (mkView d' (cursor v) (offered v) (getSequence m))
| step_next v d' c' r :
    md_next (cursor v) (deque v) = (d', Ret (c', r)) ->
    step v (mkView d' c' (match r with Some m => getSequence m :: offered v | None => offered v end)
              (top v))
| step_acquire v p :
    on_queue p (deque v) ->
    step v (mkView (write_at p (setState ACQUIRED) (deque v)) (cursor v) (offered v) (top v))
| step_release v c d' r :
    c_valid c = true -> on_queue (position c) (deque v) -> version (deque v) < INT_MAX ->
    md_release c (deque v) = (d', Ret r) ->
    step v (mkView d' (cursor v) (filter (fun p => p <> position c) (offered v)) (top v))
| step_delete v c d' b :
    c_valid c = true -> seq_ok (position c) -> md_deleted c (deque v) = (d', Ret b) ->
    step v (mkView d' (cursor v) (offered v) (top v)).

Definition new_view : View := mkView new_MessageDeque (new_QueueCursor CONSUMER) [] 0.

Record view_inv (v : View) : Prop := mkViewInv {
  vi_ok : deque_ok (deque v);
  vi_type : c_type (cursor v) = CONSUMER;
  vi_pos : 0 <= position (cursor v) <= top v /\ top v < INT_MAX;
  vi_version : c_version (cursor v) <= version (deque v);
  vi_top : Forall (fun m => getSequence m <= top v) (live (deque v));
  vi_ahead : forall m, m ∈ live (deque v) -> getState m = AVAILABLE -> getSequence m ∉ offered v ->
    reset (cursor v) (deque v) = true \/ position (cursor v) < getSequence m
}.

Lemma check_consumer c st : c_type c = CONSUMER -> check c st = bool_decide (st = AVAILABLE).
Proof. intros Ht. unfold check. rewrite Ht. by rewrite orb_false_r. Qed.

Lemma view_next v d' c' r :
  view_inv v -> md_next (cursor v) (deque v) = (d', Ret (c', r)) ->
  view_inv (mkView d' c' (match r with Some m => getSequence m :: offered v | None => offered v end)
              (top v)).
Proof.
  intros [Hok Ht Hp Hver Htop Hah] Hn.
  assert (Hpos : seq_ok (position (cursor v))) by (unfold seq_ok; lia).
  rewrite md_next_spec in Hn by done.
  pose proof (scan_spec (version (deque v)) (candidates (cursor v) (deque v)) (cursor v)
                (candidates_ok _ _ Hok)) as Hscan.
  assert (Hcand : forall m, m ∈ candidates (cursor v) (deque v) -> m ∈ live (deque v))
    by (intros m [_ ?]%list_elem_of_filter; done).
  pose proof (live_ok (deque v) Hok) as Hlive. rewrite Forall_forall in Hlive, Htop.
  (* what is available and not offered is a candidate *)
  assert (Hah' : forall m, m ∈ live (deque v) -> getState m = AVAILABLE -> getSequence m ∉ offered v ->
            m ∈ candidates (cursor v) (deque v)).
  { intros m Hm Hs Ho. apply list_elem_of_filter. split; [by apply Hah|done]. }
  unfold candidates in Hscan at 1. cbn [resets live MessageDeque_laws] in Hscan.
  injection Hn as <- Hn. rewrite Hn in Hscan. destruct r as [m|].
  - destruct Hscan as (l1 & l2 & E & Hl1 & Hm & ->).
    assert (Hml : m ∈ live (deque v)) by (apply Hcand; rewrite E; set_solver).
    specialize (Hlive m Hml) as [[Hm0 Hm1] _]. specialize (Htop m Hml) as Hmt.
    constructor; cbn [deque cursor offered top cursor_at c_type position c_version]; try done.
    + lia.
    + by apply Forall_forall.
    + intros x Hx Hxs [Hxm Hxo]%not_elem_of_cons. right.
      specialize (Hah' x Hx Hxs Hxo). pose proof (candidates_sorted (cursor v) _ Hok) as Hsort.
      rewrite E in Hah', Hsort. apply elem_of_app in Hah' as [Hin|[->|Hin]%elem_of_cons].
      * rewrite Forall_forall in Hl1. specialize (Hl1 x Hin). rewrite check_consumer in Hl1 by done.
        by rewrite Hxs in Hl1.
      * done.
      * rewrite map_app in Hsort. apply StronglySorted_app_1_r in Hsort. cbn [map] in Hsort.
        apply StronglySorted_inv in Hsort as [_ Hsort]. rewrite Forall_map, Forall_forall in Hsort.
        by apply Hsort.
  - destruct Hscan as [Hall ->].
    assert (Hnone : forall x, x ∈ live (deque v) -> getState x = AVAILABLE -> getSequence x ∈ offered v).
    { intros x Hx Hxs. destruct (decide (getSequence x ∈ offered v)) as [|Ho]; [done|].
      specialize (Hah' x Hx Hxs Ho). rewrite Forall_forall in Hall. specialize (Hall x Hah').
      rewrite check_consumer in Hall by done. by rewrite Hxs in Hall. }
    destruct (last _) as [m|] eqn:El.
    + assert (Hml : m ∈ live (deque v)).
      { apply Hcand. rewrite last_lookup in El. by eapply list_elem_of_lookup_2. }
      specialize (Hlive m Hml) as [[Hm0 Hm1] _]. specialize (Htop m Hml) as Hmt.
      constructor; cbn [deque cursor offered top cursor_at c_type position c_version]; try done.
      * lia.
      * by apply Forall_forall.
      * intros x Hx Hxs Hxo. by destruct Hxo; apply Hnone.
    + constructor; cbn [deque cursor offered top]; try done. by apply Forall_forall.
Qed.

(** a step that changes no cursor keeps the invariant when the available
    messages it adds are ahead of the cursor *)
Lemma view_keep v d' o' t' :
  view_inv v -> deque_ok d' -> version (deque v) <= version d' -> top v <= t' < INT_MAX ->
  Forall (fun m => getSequence m <= t') (live d') ->
  (forall m, m ∈ live d' -> getState m = AVAILABLE -> getSequence m ∉ o' ->
     reset (cursor v) d' = true \/ position (cursor v) < getSequence m) ->
  view_inv (mkView d' (cursor v) o' t').
Proof.
  intros [Hok Ht Hp Hver Htop Hah] Hok' Hver' Ht' Htop' Hah'.
  constructor; cbn [deque cursor offered top]; try done; lia.
Qed.

Lemma acquire_write_ok : write_ok (setState ACQUIRED).
Proof. intros m. split_and!; try done. intros _. by right. Qed.

Lemma view_release v c d' r :
  view_inv v -> c_valid c = true -> on_queue (position c) (deque v) -> version (deque v) < INT_MAX ->
  md_release c (deque v) = (d', Ret r) ->
  view_inv (mkView d' (cursor v) (filter (fun p => p <> position c) (offered v)) (top v)).
Proof.
  intros Hv Hc Hon Hver Hr. pose proof Hv as [Hok Ht Hp Hcv Htop Hah].
  apply lookup_seq_is_Some in Hon as [m [Hm Hmp]%lookup_seq_elem].
  destruct (release_deque_spec (deque v) c m Hok Hc Hver Hm Hmp) as (d1 & E & Hok1 & Hal & Hv1).
  unfold md_release in Hr. rewrite E in Hr. injection Hr as <- _.
  assert (Hreset : reset (cursor v) d1 = true).
  { unfold reset. rewrite Hv1, (bool_decide_true (c_type _ = _)) by done.
    rewrite (proj2 (Z.eqb_neq _ _)) by lia. by rewrite orb_true_r. }
  apply view_keep; try done; try lia; try (by left).
  cbn [live MessageDeque_laws]. rewrite Hal. apply Forall_forall.
  intros y (x & -> & Hx)%list_elem_of_fmap. rewrite Forall_forall in Htop. specialize (Htop x Hx).
  by case_decide.
Qed.

Lemma step_inv v v' : view_inv v -> step v v' -> view_inv v'.
Proof.
  intros Hv Hs. pose proof Hv as [Hok Ht Hp Hcv Htop Hah].
  destruct Hs as [v m d' Hm Hlt E|v d' c' r E|v p Hon|v c d' r Hc Hon Hver E|v c d' b Hc Hpos E].
  - destruct (@law_publish _ _ MessageDeque_laws (deque v) m Hok Hm) as (d1 & E1 & Hok1 & Hal & Hres & Hv1 & _).
    { eapply Forall_impl; [exact Htop|]. cbn beta. lia. }
    cbn [msgs_publish MessageDeque_Messages] in E1. rewrite E in E1. injection E1 as <-.
    rewrite (filter_all _ (live _)) in Hal by (by apply Forall_forall).
    cbn [msgs_version resets MessageDeque_laws] in Hv1, Hres.
    apply view_keep; try done; [by rewrite Hv1|unfold seq_ok in Hm; lia| |].
    + rewrite Hal, Forall_app, Forall_singleton. split; [|done].
      eapply Forall_impl; [exact Htop|]. cbn beta. lia.
    + rewrite Hal. intros x [Hx|Hx]%elem_of_app Hxs Hxo.
      * rewrite Hres. by apply Hah.
      * apply list_elem_of_singleton in Hx as ->. right. cbn [setState getSequence]. lia.
  - by eapply view_next.
  - destruct (@law_write _ _ MessageDeque_laws (deque v) p (setState ACQUIRED) Hok acquire_write_ok Hon)
      as (Hok1 & Hal & Hres & Hv1 & _). cbn [msgs_write MessageDeque_Messages] in *.
    cbn [msgs_version resets MessageDeque_laws] in Hv1, Hres.
    apply view_keep; try done; [by rewrite Hv1|lia| |].
    + rewrite Hal. apply Forall_forall. intros y (x & -> & Hx)%list_elem_of_fmap.
      rewrite Forall_forall in Htop. specialize (Htop x Hx). unfold at_seq. by case_decide.
    + rewrite Hal. intros y (x & -> & Hx)%list_elem_of_fmap. unfold at_seq.
      case_decide; [done|]. rewrite Hres. by apply Hah.
  - by eapply view_release.
  - destruct (@law_deleted _ _ MessageDeque_laws (deque v) c Hok Hc Hpos) as (d1 & b1 & E1 & Hok1 & Hal & _ & Hres & Hv1 & _).
    cbn [msgs_deleted MessageDeque_Messages] in E1. rewrite E in E1. injection E1 as <- _.
    cbn [msgs_version resets MessageDeque_laws] in Hv1, Hres.
    apply view_keep; try done; [by rewrite Hv1|lia| |].
    + rewrite Hal. apply Forall_forall. intros x [_ Hx]%list_elem_of_filter.
      rewrite Forall_forall in Htop. by apply Htop.
    + rewrite Hal. intros x [_ Hx]%list_elem_of_filter. rewrite Hres. by apply Hah.
Qed.

Lemma new_view_inv : view_inv new_view.
Proof.
  constructor; cbn; try done; try (by constructor).
  - constructor; [|done|constructor]. exists 0. by unfold contig, INT_MAX.
Qed.

Lemma reachable_inv v : rtc step new_view v -> view_inv v.
Proof.
  intros H. assert (Hi : view_inv new_view) by apply new_view_inv. revert Hi.
  induction H as [|v1 v2 v3 Hs _ IH]; intros Hi; [done|]. apply IH. by eapply step_inv.
Qed.

(** C6: no message is hidden from a consumer.  After any interleaving of
    publishing, of reads by this and other consumers, of acquisitions, releases
    and deletions, reading to the end gives the consumer, in the order of the
    queue, only available messages, and among them every available message it
    was not given since that message last became available. *)
Theorem consumer_sees_all v :
  rtc step new_view v ->
  let got := drain (length (live (deque v))) (cursor v) (deque v) in
  StronglySorted Z.lt (map getSequence got) /\
  (forall m, m ∈ got -> m ∈ live (deque v) /\ getState m = AVAILABLE) /\
  (forall m, m ∈ live (deque v) -> getState m = AVAILABLE -> getSequence m ∉ offered v -> m ∈ got).
Proof.
  intros [Hok Ht Hp Hver Htop Hah]%reachable_inv.
  rewrite drain_candidates by (done || (unfold seq_ok; lia) || apply length_filter). cbn zeta.
  split_and!.
  - eapply StronglySorted_sublist; [|by apply (candidates_sorted (cursor v))].
    apply fmap_sublist, sublist_filter.
  - intros m [Hc [_ Hm]%list_elem_of_filter]%list_elem_of_filter.
    rewrite check_consumer, bool_decide_eq_true in Hc by done. done.
  - intros m Hm Hs Ho. apply list_elem_of_filter.
    rewrite check_consumer, bool_decide_eq_true by done. split; [done|].
    apply list_elem_of_filter. split; [by apply Hah|done].
Qed.

(** Three messages: the consumer is given the first two, the first is
    acquired and released again; reading on gives it the first again, the
    second (still available) and the third. *)
Definition msg (i : nat) : Message :=
  mkMessage (mkEncoding i false 4 10 [] [] false) (Z.of_nat i) AVAILABLE (-1) false [].

Definition after {A} (r : MessageDeque * A) : MessageDeque := r.1.
Definition d3 : MessageDeque :=
  after (md_publish (msg 3) (after (md_publish (msg 2) (after (md_publish (msg 1) new_MessageDeque))))).
Definition c2 : QueueCursor := mkCursor CONSUMER 2 0 true.
Definition v3 : View := mkView d3 c2 [2; 1] 3.

Lemma v3_reachable : rtc step new_view v3.
Proof.
  eapply rtc_l; [apply (step_publish _ (msg 1)); [done|done|reflexivity]|].
  eapply rtc_l; [apply (step_publish _ (msg 2)); [done|done|reflexivity]|].
  eapply rtc_l; [apply (step_publish _ (msg 3)); [done|done|reflexivity]|].
  eapply rtc_l; [eapply step_next; vm_compute; reflexivity|].
  eapply rtc_l; [eapply step_next; vm_compute; reflexivity|].
  apply rtc_refl.
Qed.

Definition c1 : QueueCursor := mkCursor CONSUMER 1 0 true.
Definition v_acquired : View :=
  mkView (write_at 1 (setState ACQUIRED) (deque v3)) (cursor v3) (offered v3) (top v3).
Definition v_released : View :=
  mkView (after (md_release c1 (deque v_acquired))) (cursor v_acquired)
    (filter (fun p => p <> position c1) (offered v_acquired)) (top v_acquired).

Lemma consumer_sees_all_witness :
  let got := drain 3 (cursor v_released) (deque v_released) in
  StronglySorted Z.lt (map getSequence got) /\
  (forall m, m ∈ got -> m ∈ live (deque v_released) /\ getState m = AVAILABLE) /\
  (forall m, m ∈ live (deque v_released) -> getState m = AVAILABLE ->
     getSequence m ∉ offered v_released -> m ∈ got).
Proof.
  apply (consumer_sees_all v_released).
  eapply rtc_r; [eapply rtc_r; [apply v3_reachable|apply (step_acquire v3 1)]|].
  - unfold on_queue. apply (bool_decide_unpack _). vm_compute. done.
  - eapply (step_release v_acquired c1); [done| |done|vm_compute; reflexivity].
    unfold on_queue. apply (bool_decide_unpack _). vm_compute. done.
Defined.

(** [release] does not look at the state: a message that was deleted but still
    has a placeholder in the deque becomes available again, although the
    interface says that nothing happens to a deleted message. *)
Lemma release_resurrects :
  let d := after (md_deleted (mkCursor CONSUMER 2 0 true) d3) in
  lookup_seq 2 (live d) = None /\
  lookup_seq 2 (live (after (md_release (mkCursor CONSUMER 2 0 true) d))) = Some (msg 2).
Proof. split; vm_compute; reflexivity. Qed.
