(* ===== verification/MessageMap.v ===== *)
(** * Last value queues (src/qpid/broker/MessageMap.cpp)

    [MessageMap] is the container of a last value queue: a message takes the
    place of the one before it with the same value of the key property.  The
    [Ordering] is a [std::map] from sequence numbers, kept as its entries in
    order; the [Index] is a map from key values to copies of the messages.
    [MessageMap_laws] are the container's promises to the queue, and
    [last_value] says which messages it holds. *)

From Stdlib Require Import ZArith Lia Ascii String.
From stdpp Require Import gmap strings.
From S2P Require Import Prelude SequenceNumber Messages.

(** ** [std::map<SequenceNumber, Message>] *)

Abbreviation Ordering := (list (Z * Message)).

Definition om_lower (p : Z) (l : Ordering) : Ordering * Ordering :=
  lower_bound (fun e => SequenceNumber.ltb e.1 p) l.
Definition om_upper (p : Z) (l : Ordering) : Ordering * Ordering :=
  lower_bound (fun e => negb (SequenceNumber.ltb p e.1)) l.

Definition om_find (p : Z) (l : Ordering) : option Message :=
  match om_lower p l with
  | (_, e :: _) => if SequenceNumber.ltb p e.1 then None else Some e.2
  | (_, []) => None
  end.

(** [insert]: an entry that is there stays *)
Definition om_insert (p : Z) (m : Message) (l : Ordering) : Ordering :=
  match om_lower p l with
  | (pre, e :: post) => if SequenceNumber.ltb p e.1 then pre ++ (p, m) :: e :: post else l
  | (pre, []) => pre ++ [(p, m)]
  end.

Definition om_erase (p : Z) (l : Ordering) : Ordering :=
  match om_lower p l with
  | (pre, e :: post) => if SequenceNumber.ltb p e.1 then l else pre ++ post
  | (_, []) => l
  end.

(** writing through an iterator at a key *)
Definition om_update (p : Z) (f : Message -> Message) (l : Ordering) : Ordering :=
  match om_lower p l with
  | (pre, e :: post) => if SequenceNumber.ltb p e.1 then l else pre ++ (e.1, f e.2) :: post
  | (_, []) => l
  end.

(** ** [MessageMap] *)

Record MessageMap := mkMap {
  key : str; index : gmap str Message; messages : Ordering; version : Z
}.

Definition new_MessageMap (k : str) : MessageMap := mkMap k ∅ [] 0.

Definition set_messages (l : Ordering) (s : MessageMap) : MessageMap :=
  mkMap (key s) (index s) l (version s).

Definition getKey (s : MessageMap) (m : Message) : str := getPropertyAsString m (key s).

Definition size (s : MessageMap) : Z :=
  Z.of_nat (length (filter (fun e => getState e.2 = AVAILABLE) (messages s))).
Definition empty (s : MessageMap) : bool := size s =? 0.

Definition erase (p : Z) (m : Message) (s : MessageMap) : MessageMap :=
  mkMap (key s) (delete (getKey s m) (index s)) (om_erase p (messages s)) (version s).

(** the cursor's [valid] is not looked at *)
Definition deleted (c : QueueCursor) : M MessageMap bool := fun s =>
  match om_find (u32 (position c)) (messages s) with
  | Some m => (erase (u32 (position c)) m s, Ret true)
  | None => (s, Ret false)
  end.

Definition find (pos : Z) (c : option QueueCursor) (s : MessageMap)
  : option QueueCursor * option Message :=
  match om_lower pos (messages s) with
  | (_, e :: _) =>
      (setPosition e.1 (version s) <$> c, if SequenceNumber.eqb e.1 pos then Some e.2 else None)
  | (_, []) => (setPosition pos (version s) <$> c, None)
  end.

Definition find_cursor (c : QueueCursor) (s : MessageMap) : option Message :=
  if c_valid c then (find (u32 (position c)) None s).2 else None.

Fixpoint next_loop (ver : Z) (l : Ordering) (c : QueueCursor) : QueueCursor * option Message :=
  match l with
  | [] => (c, None)
  | e :: l' =>
      let c := setPosition (getSequence e.2) ver c in
      if check c (getState e.2) then (c, Some e.2) else next_loop ver l' c
  end.

Definition next (c : QueueCursor) : M MessageMap (QueueCursor * option Message) := fun s =>
  let l := if negb (c_valid c) then messages s else (om_upper (u32 (position c)) (messages s)).2 in
  (s, Ret (next_loop (version s) l c)).

(** [replace]: the new message, as it is in the ordering *)
Definition replace (original upd : Message) (s : MessageMap) : MessageMap * Message :=
  let p := getSequence upd in
  let l := om_insert p upd (om_erase (getSequence original) (messages s)) in
  let l := om_update p (setState AVAILABLE) l in
  (set_messages l s, default upd (om_find p l)).

(** [update]: whether a message was displaced, and which *)
Definition update (added : Message) (s : MessageMap) : MessageMap * option Message :=
  let k := getKey s added in
  match index s !! k with
  | None =>
      let l := om_insert (getSequence added) added (messages s) in
      let l := om_update (getSequence added) (setState AVAILABLE) l in
      (mkMap (key s) (<[k := added]> (index s)) l (version s), None)
  | Some removed =>
      let '(s, r) := replace removed added s in
      (mkMap (key s) (<[k := setState AVAILABLE r]> (index s)) (messages s) (version s), Some removed)
  end.

Definition publish (added : Message) : M MessageMap unit := fun s => ((update added s).1, Ret tt).

Definition release (c : QueueCursor) : M MessageMap (option Message) := fun s =>
  let p := u32 (position c) in
  match om_find p (messages s) with
  | Some m =>
      (set_messages (om_update p (setState AVAILABLE) (messages s)) s, Ret (Some (setState AVAILABLE m)))
  | None => (s, Ret None)
  end.

(** the messages [foreach] applies its functor to *)
Definition foreach (s : MessageMap) : list Message :=
  filter (fun m => getState m = AVAILABLE) (messages s).*2.

Definition write_at (p : Z) (f : Message -> Message) (s : MessageMap) : MessageMap :=
  set_messages (om_update p f (messages s)) s.

#[global] Instance MessageMap_Messages : Messages MessageMap := {|
  msgs_size := size; msgs_deleted := deleted; msgs_publish := publish;
  msgs_next := next; msgs_release := release;
  msgs_find := fun p c s => let '(oc, r) := find p (Some c) s in (default c oc, r);
  msgs_find_cursor := find_cursor; msgs_write := write_at
|}.

(** ** The ordering as a sorted list *)

Definition ord_ok (l : Ordering) : Prop :=
  StronglySorted Z.lt (map fst l) /\
  Forall (fun e => seq_ok e.1 /\ getSequence e.2 = e.1) l.

Lemma ord_ok_seq l e : ord_ok l -> e ∈ l -> seq_ok e.1.
Proof. intros [_ H] He. rewrite Forall_forall in H. by apply H. Qed.

Lemma ord_ok_sublist l1 l2 : l1 `sublist_of` l2 -> ord_ok l2 -> ord_ok l1.
Proof.
  intros Hs [H1 H2]. split.
  - eapply StronglySorted_sublist; [|exact H1]. by apply fmap_sublist.
  - rewrite Forall_forall in H2 |- *. intros x Hx. apply H2. by eapply elem_of_sublist.
Qed.

(** splitting at a key *)
Lemma om_lower_spec p l :
  ord_ok l -> 0 <= p <= INT_MAX ->
  exists pre post, om_lower p l = (pre, post) /\ l = pre ++ post /\
    Forall (fun e => e.1 < p) pre /\ Forall (fun e => p <= e.1) post.
Proof.
  intros Hl Hp. unfold om_lower. destruct (lower_bound _ l) as [pre post] eqn:E. exists pre, post.
  pose proof (lower_bound_app _ _ _ _ E) as El. split; [done|]. split; [done|].
  assert (Hlt : forall e, e ∈ l -> SequenceNumber.ltb e.1 p = (e.1 <? p)).
  { intros e He. apply (ord_ok_seq l e Hl) in He. unfold seq_ok in He. apply small_lt; lia. }
  split.
  - pose proof (lower_bound_pre _ _ _ _ E) as Hpre. rewrite Forall_forall in Hpre |- *.
    intros e He. specialize (Hpre e He). rewrite Hlt in Hpre by (subst l; set_solver). lia.
  - destruct post as [|e post]; [constructor|].
    pose proof (lower_bound_post _ _ _ _ _ E) as Hhd. cbn beta in Hhd.
    rewrite Hlt in Hhd by (subst l; set_solver).
    destruct Hl as [Hs _]. rewrite El, map_app in Hs. apply StronglySorted_app_1_r in Hs.
    cbn [map] in Hs. apply StronglySorted_inv in Hs as [_ Hs]. rewrite Forall_map in Hs.
    constructor; [lia|]. eapply Forall_impl; [exact Hs|]. cbn. lia.
Qed.

(** the entry at a key: everything before it is below, everything after above *)
Lemma om_split p l :
  ord_ok l -> 0 <= p <= INT_MAX ->
  exists pre post, l = pre ++ post /\ Forall (fun e => e.1 < p) pre /\
    ((om_lower p l = (pre, post) /\ Forall (fun e => p < e.1) post) \/
     exists e post', om_lower p l = (pre, post) /\ post = e :: post' /\ e.1 = p /\
       Forall (fun e => p < e.1) post').
Proof.
  intros Hl Hp. destruct (om_lower_spec p l Hl Hp) as (pre & post & E & El & Hpre & Hpost).
  exists pre, post. split; [done|]. split; [done|]. destruct post as [|e post]; [left; by split|].
  apply Forall_cons in Hpost as [He Hpost]. destruct Hl as [Hs _].
  rewrite El, map_app in Hs. apply StronglySorted_app_1_r in Hs. cbn [map] in Hs.
  apply StronglySorted_inv in Hs as [_ Hs]. rewrite Forall_map in Hs.
  assert (Hpost' : Forall (fun e => p < e.1) post).
  { eapply Forall_impl; [exact Hs|]. cbn. lia. }
  destruct (decide (e.1 = p)); [right; by exists e, post|left]. split; [done|]. constructor; [lia|done].
Qed.

Lemma small_seq_lt p l e : ord_ok l -> e ∈ l -> 0 <= p <= INT_MAX -> SequenceNumber.ltb p e.1 = (p <? e.1).
Proof. intros Hl He Hp. pose proof (ord_ok_seq l e Hl He) as H. unfold seq_ok in H. apply small_lt; lia. Qed.

Lemma ne_lt p (l : Ordering) : Forall (fun e => e.1 < p) l -> Forall (fun e => e.1 <> p) l.
Proof. intros H. eapply Forall_impl; [exact H|]. cbn. lia. Qed.
Lemma ne_gt p (l : Ordering) : Forall (fun e => p < e.1) l -> Forall (fun e => e.1 <> p) l.
Proof. intros H. eapply Forall_impl; [exact H|]. cbn. lia. Qed.

Definition om_map (p : Z) (f : Message -> Message) (l : Ordering) : Ordering :=
  map (fun e => if decide (e.1 = p) then (e.1, f e.2) else e) l.

Lemma om_map_other p f l : Forall (fun e => e.1 <> p) l -> om_map p f l = l.
Proof. induction 1; [done|]. unfold om_map in *. cbn [map]. rewrite decide_False by done. by f_equal. Qed.

Lemma list_find_skip (p : Z) (l1 l2 : Ordering) :
  Forall (fun e => e.1 <> p) l1 ->
  snd <$> list_find (fun e => e.1 = p) (l1 ++ l2) = snd <$> list_find (fun e => e.1 = p) l2.
Proof.
  induction 1 as [|e l1 He Hl IH]; [done|]. cbn [app list_find]. rewrite decide_False by done.
  rewrite <- IH. by destruct (list_find _ (l1 ++ l2)) as [[]|].
Qed.

(** every operation in terms of the list of entries *)
Lemma om_spec p l :
  ord_ok l -> 0 <= p <= INT_MAX ->
  om_find p l = snd <$> (snd <$> list_find (fun e => e.1 = p) l) /\
  om_erase p l = filter (fun e => e.1 <> p) l /\
  (forall f, om_update p f l = om_map p f l) /\
  (forall m, Forall (fun e => e.1 <> p) l ->
     exists pre post, l = pre ++ post /\ Forall (fun e => e.1 < p) pre /\
       Forall (fun e => p < e.1) post /\ om_insert p m l = pre ++ (p, m) :: post).
Proof.
  intros Hl Hp. destruct (om_split p l Hl Hp) as (pre & post & El & Hpre & Hcase).
  pose proof (ne_lt _ _ Hpre) as Hpre'. unfold om_find, om_erase, om_update, om_insert.
  destruct Hcase as [[-> Hpost]|(e & post' & -> & -> & He & Hpost)].
  - pose proof (ne_gt _ _ Hpost) as Hpost'.
    assert (Hno : Forall (fun e => e.1 <> p) l) by (rewrite El; by apply Forall_app).
    rewrite (filter_all _ l Hno). setoid_rewrite (om_map_other p _ l Hno).
    assert (Hf : list_find (fun e => e.1 = p) l = None).
    { apply list_find_None. eapply Forall_impl; [exact Hno|]. done. }
    rewrite Hf. destruct post as [|e post]; [split_and!; try done; intros m _; exists pre, []; done|].
    rewrite (small_seq_lt p l e), (proj2 (Z.ltb_lt _ _)) by (done || (subst l; set_solver) || (by apply Forall_cons in Hpost as [? _])).
    split_and!; try done. intros m _. by exists pre, (e :: post).
  - pose proof (ne_gt _ _ Hpost) as Hpost'.
    rewrite (small_seq_lt p l e), (proj2 (Z.ltb_ge _ _)) by (done || (subst l; set_solver) || lia).
    subst l. split_and!.
    + rewrite list_find_skip by done. cbn [list_find]. by rewrite decide_True.
    + rewrite filter_app, filter_cons_False by naive_solver. by rewrite !filter_all.
    + intros f. unfold om_map. rewrite map_app. cbn [map]. rewrite decide_True by done.
      f_equal; [|f_equal]; symmetry; by apply om_map_other.
    + intros m Hno. exfalso. rewrite Forall_app, Forall_cons in Hno. naive_solver.
Qed.

Lemma om_upper_spec p l :
  ord_ok l -> 0 <= p <= INT_MAX -> (om_upper p l).2 = filter (fun e => p < e.1) l.
Proof.
  intros Hl Hp. unfold om_upper. destruct (lower_bound _ l) as [pre post] eqn:E. cbn [snd].
  pose proof (lower_bound_app _ _ _ _ E) as El.
  assert (Hlt : forall e, e ∈ l -> negb (SequenceNumber.ltb p e.1) = (e.1 <=? p)).
  { intros e He. rewrite (small_seq_lt p l e) by done. by rewrite Z.ltb_antisym, negb_involutive. }
  pose proof (lower_bound_pre _ _ _ _ E) as Hpre. rewrite El, filter_app, filter_none.
  - symmetry. apply filter_all. destruct post as [|e post]; [constructor|].
    pose proof (lower_bound_post _ _ _ _ _ E) as Hhd. cbn beta in Hhd.
    rewrite Hlt in Hhd by (subst l; set_solver).
    destruct Hl as [Hs _]. rewrite El, map_app in Hs. apply StronglySorted_app_1_r in Hs.
    cbn [map] in Hs. apply StronglySorted_inv in Hs as [_ Hs]. rewrite Forall_map in Hs.
    constructor; [lia|]. eapply Forall_impl; [exact Hs|]. cbn. lia.
  - rewrite Forall_forall in Hpre |- *. intros e He. specialize (Hpre e He).
    rewrite Hlt in Hpre by (subst l; set_solver). lia.
Qed.

Lemma next_loop_scan ver l c : next_loop ver l c = scan ver (map snd l) c.
Proof. revert c. induction l as [|e l IH]; intros c; [done|]. cbn. case_match; [done|apply IH]. Qed.

(** ** The index *)

Record map_ok (s : MessageMap) : Prop := mkMapOk {
  mo_ordering : ord_ok (messages s);
  mo_states : Forall (fun e => live_state (getState e.2)) (messages s);
  mo_index : forall k x, index s !! k = Some x ->
    exists m, (getSequence x, m) ∈ messages s /\ getKey s m = k;
  mo_entry : forall p m, (p, m) ∈ messages s ->
    exists x, index s !! getKey s m = Some x /\ getSequence x = p
}.

Lemma entry_seq s e : map_ok s -> e ∈ messages s -> getSequence e.2 = e.1.
Proof. intros [[_ H] _ _ _] He. rewrite Forall_forall in H. by apply H. Qed.

(** a key value has one message *)
Lemma one_per_key s p1 m1 p2 m2 :
  map_ok s -> (p1, m1) ∈ messages s -> (p2, m2) ∈ messages s -> getKey s m1 = getKey s m2 ->
  p1 = p2.
Proof.
  intros Hs H1 H2 Hk. destruct (mo_entry s Hs _ _ H1) as (x1 & E1 & <-).
  destruct (mo_entry s Hs _ _ H2) as (x2 & E2 & <-). rewrite Hk in E1. congruence.
Qed.

Lemma om_map_elem p f l q m :
  (q, m) ∈ om_map p f l <-> exists m', (q, m') ∈ l /\ m = if decide (q = p) then f m' else m'.
Proof.
  unfold om_map. rewrite list_elem_of_fmap. split.
  - intros ([q' m'] & E & H). cbn in E. exists m'.
    destruct (decide (q' = p)); simplify_eq; (split; [done|]); by case_decide.
  - intros (m' & H & ->). exists (q, m'). cbn. split; [by case_decide|done].
Qed.

Lemma om_map_keys p f l : map fst (om_map p f l) = map fst l.
Proof. unfold om_map. rewrite map_map. apply map_ext. intros e. by case_decide. Qed.

Lemma om_map_ok p f l : write_ok f -> ord_ok l -> ord_ok (om_map p f l).
Proof.
  intros Hf [H1 H2]. split; [by rewrite om_map_keys|]. rewrite Forall_forall in H2 |- *.
  intros [q m] (m' & He & ->)%om_map_elem. specialize (H2 _ He) as (Hq & Hseq). cbn in *.
  destruct (Hf m') as (Hfs & _). case_decide; [|done]. by rewrite Hfs.
Qed.

Lemma same_key f m s : write_ok f -> getKey s (f m) = getKey s m.
Proof. intros Hf. unfold getKey, getPropertyAsString. by destruct (Hf m) as (_ & -> & _). Qed.

Lemma write_map_ok s p f :
  map_ok s -> write_ok f -> seq_ok p ->
  map_ok (write_at p f s) /\ map snd (messages (write_at p f s)) = map (at_seq p f) (map snd (messages s)).
Proof.
  intros Hs Hf Hp. pose proof (mo_ordering s Hs) as Ho. unfold write_at.
  destruct (om_spec p (messages s) Ho) as (_ & _ & -> & _); [unfold seq_ok in Hp; lia|].
  assert (Hk : forall m' q, getKey s (if decide (q = p) then f m' else m') = getKey s m').
  { intros m' q. case_decide; [by apply same_key|done]. }
  split; [constructor; cbn [messages set_messages index]|].
  - by apply om_map_ok.
  - pose proof (mo_states s Hs) as Hst. rewrite Forall_forall in Hst |- *.
    intros [q m] (m' & Hm & ->)%om_map_elem. specialize (Hst _ Hm). cbn in *.
    destruct (Hf m') as (_ & _ & Hfl). case_decide; auto.
  - intros k x Hx. destruct (mo_index s Hs k x Hx) as (m & Hm & <-). eexists.
    split; [apply om_map_elem; by exists m|apply Hk].
  - intros q m (m' & Hm & ->)%om_map_elem. destruct (mo_entry s Hs _ _ Hm) as (x & Hx & <-).
    exists x. split; [|done]. unfold getKey in *. cbn [key]. by rewrite Hk.
  - cbn [messages set_messages]. unfold om_map. rewrite !map_map. apply map_ext_in. intros e He.
    apply list_elem_of_In in He. unfold at_seq. rewrite (entry_seq s e Hs He). by case_decide.
Qed.

(** *** Publishing and deleting *)

Lemma ord_snoc l p m :
  ord_ok l -> seq_ok p -> getSequence m = p ->
  Forall (fun e => e.1 < p) l -> ord_ok (l ++ [(p, m)]).
Proof.
  intros [H1 H2] Hp Hm Hlt. split.
  - rewrite map_app. apply StronglySorted_app_2; [|done|by repeat constructor].
    intros x y (e & -> & He)%list_elem_of_fmap ->%list_elem_of_singleton.
    rewrite Forall_forall in Hlt. by apply Hlt.
  - apply Forall_app. split; [done|]. by constructor.
Qed.

(** inserting at the end and marking available *)
Lemma om_insert_last l m :
  ord_ok l -> seq_ok (getSequence m) -> Forall (fun e => e.1 < getSequence m) l ->
  let l' := l ++ [(getSequence m, setState AVAILABLE m)] in
  om_update (getSequence m) (setState AVAILABLE) (om_insert (getSequence m) m l) = l' /\
  om_find (getSequence m) l' = Some (setState AVAILABLE m) /\ ord_ok l'.
Proof.
  intros Hl Hp Hlt l'. pose proof (ne_lt _ _ Hlt) as Hne.
  assert (Hp' : 0 <= getSequence m <= INT_MAX) by (unfold seq_ok in Hp; lia).
  assert (Hok' : ord_ok l') by (by apply ord_snoc).
  destruct (om_spec _ l Hl Hp') as (_ & _ & _ & Hins).
  destruct (Hins m Hne) as (pre & post & E & _ & Hpost & ->).
  assert (post = []) as ->.
  { destruct post as [|e post]; [done|]. apply Forall_cons in Hpost as [He _].
    rewrite E, Forall_app, Forall_cons in Hlt. lia. }
  rewrite app_nil_r in E. subst pre.
  assert (Hok : ord_ok (l ++ [(getSequence m, m)])) by (by apply ord_snoc).
  destruct (om_spec _ _ Hok Hp') as (_ & _ & -> & _). destruct (om_spec _ _ Hok' Hp') as (-> & _ & _ & _).
  split; [|split; [|done]].
  - unfold om_map. rewrite map_app. cbn [map fst snd]. rewrite decide_True by done.
    f_equal. by apply om_map_other.
  - unfold l'. rewrite list_find_skip by done. cbn [list_find]. by rewrite decide_True.
Qed.

Lemma filter_snd (P : Message -> Prop) (Q : Z * Message -> Prop)
    `{!forall x, Decision (P x), !forall e, Decision (Q e)} (l : Ordering) :
  (forall e, e ∈ l -> P e.2 <-> Q e) -> map snd (filter Q l) = filter P (map snd l).
Proof.
  induction l as [|e l IH]; intros Hpq; [done|]. cbn [map].
  assert (P e.2 <-> Q e) as He by (apply Hpq; by left).
  specialize (IH ltac:(intros; apply Hpq; by right)).
  destruct (decide (Q e)).
  - rewrite !filter_cons_True by tauto. cbn [map]. by f_equal.
  - rewrite !filter_cons_False by tauto. done.
Qed.

Lemma entry_unique l q m1 m2 : ord_ok l -> (q, m1) ∈ l -> (q, m2) ∈ l -> m1 = m2.
Proof.
  intros [Hs _]. induction l as [|e l IH]; [by intros ?%not_elem_of_nil|].
  cbn [map] in Hs. apply StronglySorted_inv in Hs as [Hs Hall]. rewrite Forall_map, Forall_forall in Hall.
  intros [E1|H1]%elem_of_cons [E2|H2]%elem_of_cons; [congruence| | |by apply IH].
  - apply Hall in H2. subst e. cbn in H2. lia.
  - apply Hall in H1. subst e. cbn in H1. lia.
Qed.

(** what a message displaces, and what it leaves *)
Definition others (s : MessageMap) (m : Message) : Ordering :=
  filter (fun e => getKey s e.2 <> getKey s m) (messages s).

Lemma others_erase s m x :
  map_ok s -> index s !! getKey s m = Some x -> om_erase (getSequence x) (messages s) = others s m.
Proof.
  intros Hs Hx. pose proof (mo_ordering s Hs) as Ho.
  destruct (mo_index s Hs _ _ Hx) as (y & Hy & Hk).
  pose proof (ord_ok_seq _ _ Ho Hy) as Hp. cbn [fst] in Hp.
  destruct (om_spec (getSequence x) _ Ho) as (_ & -> & _); [unfold seq_ok in Hp; lia|].
  apply filter_ext_in. intros [q z] Hz. cbn. split; intros H1 H2; apply H1.
  - apply (one_per_key s q z (getSequence x) y Hs Hz Hy). congruence.
  - subst q. by rewrite (entry_unique _ _ z y Ho Hz Hy).
Qed.

Lemma others_all s m : map_ok s -> index s !! getKey s m = None -> others s m = messages s.
Proof.
  intros Hs Hx. apply filter_all, Forall_forall. intros [q z] Hz. cbn. intros E.
  destruct (mo_entry s Hs _ _ Hz) as (x & Hx' & _). congruence.
Qed.

Lemma map_update_spec s m :
  map_ok s -> seq_ok (getSequence m) ->
  Forall (fun e => e.1 < getSequence m) (messages s) ->
  exists x, update m s = (mkMap (key s) (<[getKey s m := x]> (index s))
                  (others s m ++ [(getSequence m, setState AVAILABLE m)]) (version s),
                index s !! getKey s m) /\ getSequence x = getSequence m.
Proof.
  intros Hs Hp Hlt. pose proof (mo_ordering s Hs) as Ho. unfold update.
  destruct (index s !! getKey s m) as [x|] eqn:Hx.
  - unfold replace. rewrite (others_erase s m x Hs Hx).
    assert (Hsub : others s m `sublist_of` messages s) by apply sublist_filter.
    destruct (om_insert_last (others s m) m) as (-> & -> & _); [by eapply ord_ok_sublist|done| |].
    + rewrite Forall_forall in Hlt |- *. intros e He. apply Hlt. by eapply elem_of_sublist.
    + cbn. by eexists.
  - destruct (om_insert_last (messages s) m) as (-> & _ & _); [done..|].
    rewrite (others_all s m Hs Hx). by eexists.
Qed.

Lemma updated_ok s m x :
  map_ok s -> seq_ok (getSequence m) ->
  Forall (fun e => e.1 < getSequence m) (messages s) -> getSequence x = getSequence m ->
  map_ok (mkMap (key s) (<[getKey s m := x]> (index s))
            (others s m ++ [(getSequence m, setState AVAILABLE m)]) (version s)).
Proof.
  intros Hs Hp Hlt Hx. pose proof (mo_ordering s Hs) as Ho.
  assert (Hk : getKey s (setState AVAILABLE m) = getKey s m) by done.
  assert (Hsub : others s m `sublist_of` messages s) by apply sublist_filter.
  constructor; cbn [messages index].
  - apply ord_snoc; [by eapply ord_ok_sublist|done|done|].
    rewrite Forall_forall in Hlt |- *. intros e He. apply Hlt. by eapply elem_of_sublist.
  - apply Forall_app. split; [|by constructor; [left|]].
    pose proof (mo_states s Hs) as Hst. rewrite Forall_forall in Hst |- *. intros e He.
    apply Hst. by eapply elem_of_sublist.
  - intros k y. destruct (decide (getKey s m = k)) as [<-|Hne].
    + rewrite lookup_insert_eq. intros [= <-]. exists (setState AVAILABLE m). rewrite Hx.
      split; [set_solver|done].
    + rewrite lookup_insert_ne by done. intros Hy. destruct (mo_index s Hs k y Hy) as (z & Hz & <-).
      exists z. split; [|done]. apply elem_of_app. left. apply list_elem_of_filter.
      split; [|done]. cbn. congruence.
  - intros q z [Hz|Hz]%elem_of_app.
    + apply list_elem_of_filter in Hz as [Hne Hz]. cbn in Hne.
      destruct (mo_entry s Hs _ _ Hz) as (y & Hy & <-). exists y. split; [|done].
      change (getKey (mkMap _ _ _ _) z) with (getKey s z). by rewrite lookup_insert_ne by congruence.
    + apply list_elem_of_singleton in Hz. simplify_eq. exists x. split; [|done].
      change (getKey (mkMap _ _ _ _) (setState AVAILABLE m)) with (getKey s m).
      by rewrite lookup_insert_eq.
Qed.

Lemma erased_ok s p m :
  map_ok s -> (p, m) ∈ messages s ->
  map_ok (erase p m s) /\ messages (erase p m s) = filter (fun e => e.1 <> p) (messages s).
Proof.
  intros Hs Hm. pose proof (mo_ordering s Hs) as Ho.
  pose proof (ord_ok_seq _ _ Ho Hm) as Hp. cbn [fst] in Hp. unfold erase. cbn [messages].
  destruct (om_spec p _ Ho) as (_ & -> & _); [unfold seq_ok in Hp; lia|].
  split; [|done]. constructor; cbn [messages index].
  - eapply ord_ok_sublist; [|exact Ho]. apply sublist_filter.
  - pose proof (mo_states s Hs) as Hst. rewrite Forall_forall in Hst |- *.
    intros e [_ He]%list_elem_of_filter. by apply Hst.
  - intros k x [Hne Hx]%lookup_delete_Some. destruct (mo_index s Hs k x Hx) as (z & Hz & <-).
    exists z. split; [|done]. apply list_elem_of_filter. split; [|done]. cbn. intros E. apply Hne.
    by rewrite (entry_unique _ p m z Ho Hm) by (by rewrite <- E).
  - intros q z [Hne Hz]%list_elem_of_filter. cbn in Hne.
    destruct (mo_entry s Hs _ _ Hz) as (x & Hx & <-). exists x. split; [|done].
    change (getKey (mkMap _ _ _ _) z) with (getKey s z). rewrite lookup_delete_ne; [done|].
    intros E. apply Hne. apply (one_per_key s _ z p m Hs Hz Hm). done.
Qed.

Lemma find_lookup s p :
  map_ok s -> seq_ok p -> om_find p (messages s) = lookup_seq p (map snd (messages s)).
Proof.
  intros Hs Hp. destruct (om_spec p _ (mo_ordering s Hs)) as (-> & _); [unfold seq_ok in Hp; lia|].
  unfold lookup_seq. destruct (mo_ordering s Hs) as [_ Hall].
  induction Hall as [|e l (_ & He) Hl IH]; [done|]. cbn [map list_find].
  rewrite He. destruct (decide (e.1 = p)); [done|].
  destruct (list_find _ l) as [[]|], (list_find _ (map snd l)) as [[]|]; cbn in *; congruence.
Qed.

Lemma find_elem s p m : map_ok s -> seq_ok p -> om_find p (messages s) = Some m -> (p, m) ∈ messages s.
Proof.
  intros Hs Hp. rewrite (proj1 (om_spec p _ (mo_ordering s Hs) ltac:(unfold seq_ok in Hp; lia))).
  intros (e & ([i e'] & (H1 & H2 & _)%list_find_Some & ->)%fmap_Some & ->)%fmap_Some. cbn.
  apply list_elem_of_lookup_2 in H1. subst p. by destruct e'.
Qed.

Lemma filter_live s (P : Z -> Prop) `{!forall z, Decision (P z)} :
  map_ok s -> map snd (filter (fun e => P e.1) (messages s))
              = filter (fun m => P (getSequence m)) (map snd (messages s)).
Proof. intros Hs. apply filter_snd. intros e He. by rewrite (entry_seq s e Hs He). Qed.

Lemma find_pos_spec s p c :
  map_ok s -> seq_ok p ->
  (find p c s).2 = om_find p (messages s) /\
  (is_Some (om_find p (messages s)) -> (find p c s).1 = setPosition p (version s) <$> c).
Proof.
  intros Hs Hp. pose proof (mo_ordering s Hs) as Ho.
  assert (Hp' : 0 <= p <= INT_MAX) by (unfold seq_ok in Hp; lia).
  unfold find, om_find. destruct (om_split p _ Ho Hp') as (pre & post & El & _ & [[-> Hpost]|H]).
  - destruct post as [|e post]; [split; [done|by intros [? ?]]|].
    apply Forall_cons in Hpost as [He _].
    rewrite (small_seq_lt p _ e Ho) by (done || (rewrite El; set_solver)).
    rewrite (proj2 (Z.ltb_lt _ _)) by done. unfold SequenceNumber.eqb.
    rewrite (proj2 (Z.eqb_neq _ _)) by lia. split; [done|by intros [? ?]].
  - destruct H as (e & post' & -> & -> & He & _).
    rewrite (small_seq_lt p _ e Ho) by (done || (rewrite El; set_solver)).
    rewrite (proj2 (Z.ltb_ge _ _)) by lia. unfold SequenceNumber.eqb. rewrite He, Z.eqb_refl. done.
Qed.

#[global, refine] Instance MessageMap_laws : MessagesLaws MessageMap := {|
  msgs_ok := map_ok;
  live := fun s => map snd (messages s);
  resets := fun c _ => negb (c_valid c);
  msgs_version := version;
  displaces := fun s m x => bool_decide (getKey s x = getKey s m);
  can_release := fun _ => True;
  law_fresh := fun _ _ _ => eq_refl;
  law_new := fun _ _ => eq_refl;
  live_sorted := _; live_ok := _; law_size := _; law_next := _; law_publish := _; law_deleted := _;
  law_release := _; law_find_cursor := _; law_find := _; law_write := _
|}.
Proof.
  - intros s Hs. destruct (mo_ordering s Hs) as [H1 _]. rewrite map_map.
    rewrite (map_ext_in _ fst); [done|]. intros e He%list_elem_of_In. by apply (entry_seq s).
  - intros s Hs. destruct (mo_ordering s Hs) as [_ H2]. pose proof (mo_states s Hs) as H3.
    apply Forall_map. rewrite Forall_forall in H2, H3 |- *. intros e He. cbn beta.
    destruct (H2 e He) as [H4 ->]. split; [done|by apply H3].
  - intros s Hs. cbn [msgs_size MessageMap_Messages]. unfold size. f_equal.
    rewrite <- (filter_snd _ (fun e => getState e.2 = AVAILABLE)) by done. by rewrite length_map.
  - intros s c Hs Hp. cbn [msgs_next MessageMap_Messages]. unfold next. do 2 f_equal.
    rewrite next_loop_scan. f_equal. destruct (c_valid c); cbn [negb].
    + rewrite seq_ok_u32, om_upper_spec by (done || (unfold seq_ok in Hp; lia) || apply Hs).
      rewrite (filter_live s (fun z => position c < z)) by done.
      apply list_filter_iff. intros x. naive_solver.
    + symmetry. apply filter_all, Forall_forall. by left.
  - intros s m Hs Hp Hlt.
    assert (Hlt' : Forall (fun e => e.1 < getSequence m) (messages s)).
    { rewrite Forall_map in Hlt. apply Forall_forall. intros e He. rewrite <- (entry_seq s e Hs He).
      rewrite Forall_forall in Hlt. by apply Hlt. }
    destruct (map_update_spec s m Hs Hp Hlt') as (x & E & Hx).
    eexists. cbn [msgs_publish MessageMap_Messages]. unfold publish. rewrite E. split; [reflexivity|].
    split; [by apply updated_ok|]. split; [|done]. cbn [messages fst]. rewrite map_app. f_equal.
    apply filter_snd. intros e He. by rewrite bool_decide_eq_false.
  - intros s c Hs Hv Hp. cbn [msgs_deleted MessageMap_Messages]. unfold deleted.
    rewrite seq_ok_u32 by done. destruct (om_find (position c) (messages s)) as [m|] eqn:E.
    + pose proof (find_elem s _ m Hs Hp E) as Hm. destruct (erased_ok s _ m Hs Hm) as [Hok He].
      eexists _, _. split; [reflexivity|]. split; [done|]. split; [|done].
      rewrite He. exact (filter_live s (fun z => z <> position c) Hs).
    + eexists _, _. split; [reflexivity|]. split; [done|].
      rewrite (find_lookup s _ Hs Hp) in E.
      assert (Hno : position c ∉ map getSequence (map snd (messages s))).
      { rewrite <- lookup_seq_is_Some, E. by intros [? ?]. }
      split; [|done]. symmetry. apply filter_all, Forall_forall. intros m Hm Em. apply Hno.
      apply list_elem_of_fmap. eauto.
  - intros s c m Hs _ Hv Hm. pose proof (lookup_seq_elem _ _ _ Hm) as [Hml Hmp].
    assert (Hp : seq_ok (position c)).
    { apply list_elem_of_fmap in Hml as (e & -> & He). rewrite <- Hmp, (entry_seq s e Hs He).
      eapply ord_ok_seq; [apply Hs|done]. }
    cbn [msgs_release MessageMap_Messages]. unfold release. rewrite seq_ok_u32 by done.
    rewrite (find_lookup s _ Hs Hp), Hm.
    destruct (write_map_ok s (position c) (setState AVAILABLE) Hs) as [Hok Hl]; [|done|].
    { intros x. split_and!; try done. intros _. by left. }
    eexists. split; [reflexivity|]. split; [exact Hok|exact Hl].
  - intros s c Hs Hv Hp. cbn [msgs_find_cursor MessageMap_Messages]. unfold find_cursor.
    rewrite Hv, seq_ok_u32 by done. rewrite (proj1 (find_pos_spec s _ None Hs Hp)). by apply find_lookup.
  - intros s p c Hs Hp. cbn [msgs_find MessageMap_Messages].
    destruct (find_pos_spec s p (Some c) Hs Hp) as [H1 H2]. rewrite <- find_lookup by done.
    destruct (find p (Some c) s) as [oc r]. cbn [fst snd] in *. split; [done|].
    intros H3. by rewrite (H2 H3).
  - intros s p f Hs Hf Hp. cbn [msgs_write MessageMap_Messages].
    assert (Hps : seq_ok p).
    { apply list_elem_of_fmap in Hp as (m & -> & (e & -> & He)%list_elem_of_fmap).
      rewrite (entry_seq s e Hs He). eapply ord_ok_seq; [apply Hs|done]. }
    destruct (write_map_ok s p f Hs Hf Hps) as [Hok Hl]. done.
Defined.

(** ** Last values

    What a last value queue should hold: for each value of the key the number
    of the last message published with it, unless that one was deleted. *)

Inductive Command := Publish (m : Message) | Delete (p : Z) | Acquire (p : Z) | Release (p : Z).

Definition at_ (p : Z) : QueueCursor := mkCursor CONSUMER p 0 true.

Definition run_command (s : MessageMap) (c : Command) : MessageMap :=
  match c with
  | Publish m => (publish m s).1
  | Delete p => (deleted (at_ p) s).1
  | Acquire p => write_at p (setState ACQUIRED) s
  | Release p => (release (at_ p) s).1
  end.

Definition last_of (k : str) (a : gmap str Z) (c : Command) : gmap str Z :=
  match c with
  | Publish m => <[getPropertyAsString m k := getSequence m]> a
  | Delete p => filter (fun kv => kv.2 <> p) a
  | _ => a
  end.

(** the queue numbers its messages upwards *)
Fixpoint ascending (top : Z) (cs : list Command) : Prop :=
  match cs with
  | [] => True
  | Publish m :: cs' => seq_ok (getSequence m) /\ top < getSequence m /\ ascending (getSequence m) cs'
  | (Delete p | Acquire p | Release p) :: cs' => seq_ok p /\ ascending top cs'
  end.

#[global] Instance seq_ok_dec p : Decision (seq_ok p).
Proof. unfold seq_ok. apply _. Defined.

#[global] Instance ascending_dec top cs : Decision (ascending top cs).
Proof. revert top. induction cs as [|[] cs IH]; intros top; cbn [ascending]; apply _. Defined.

Record holds (k : str) (top : Z) (a : gmap str Z) (s : MessageMap) : Prop := mkHolds {
  h_ok : map_ok s;
  h_key : key s = k;
  h_top : Forall (fun e => e.1 <= top) (messages s);
  h_last : forall v p, a !! v = Some p <-> exists m, (p, m) ∈ messages s /\ getKey s m = v
}.

Lemma holds_publish k top a s m :
  holds k top a s -> seq_ok (getSequence m) -> top < getSequence m ->
  holds k (getSequence m) (last_of k a (Publish m)) (run_command s (Publish m)).
Proof.
  intros [Hs Hk Ht Hl] Hp Hlt. cbn [run_command last_of]. unfold publish. cbn [fst].
  assert (Hlt' : Forall (fun e => e.1 < getSequence m) (messages s)).
  { eapply Forall_impl; [exact Ht|]. cbn. lia. }
  destruct (map_update_spec s m Hs Hp Hlt') as (x & -> & Hx). cbn [fst].
  change (getPropertyAsString m k) with (getPropertyAsString m k). rewrite <- Hk.
  fold (getKey s m). constructor; cbn [messages key]; [by apply updated_ok|done| |].
  - apply Forall_app. split; [|by constructor; [cbn; lia|]].
    apply Forall_forall. intros e [_ He]%list_elem_of_filter. rewrite Forall_forall in Hlt'.
    specialize (Hlt' e He). lia.
  - intros v p. destruct (decide (getKey s m = v)) as [<-|Hne].
    + rewrite lookup_insert_eq. split.
      * intros [= <-]. exists (setState AVAILABLE m). split; [set_solver|done].
      * intros (z & [[Hz _]%list_elem_of_filter|Hz]%elem_of_app & Ez).
        -- by destruct Hz.
        -- apply list_elem_of_singleton in Hz. by simplify_eq.
    + rewrite lookup_insert_ne, Hl by done. split; intros (z & Hz & Ez); exists z; (split; [|done]).
      * apply elem_of_app. left. apply list_elem_of_filter. split; [|done]. cbn.
        change (getKey s z = v) in Ez. congruence.
      * apply elem_of_app in Hz as [[_ Hz]%list_elem_of_filter|Hz]; [done|].
        apply list_elem_of_singleton in Hz. by simplify_eq.
Qed.

Lemma holds_delete k top a s p :
  holds k top a s -> seq_ok p -> holds k top (last_of k a (Delete p)) (run_command s (Delete p)).
Proof.
  intros [Hs Hk Ht Hl] Hp. cbn [run_command last_of]. unfold deleted. cbn [position at_].
  rewrite seq_ok_u32 by done.
  destruct (om_find p (messages s)) as [m|] eqn:E; cbn [fst].
  - pose proof (find_elem s p m Hs Hp E) as Hm. destruct (erased_ok s p m Hs Hm) as [Hok He].
    constructor; [done|done| |].
    + rewrite He. apply Forall_forall. intros e [_ Hin]%list_elem_of_filter.
      rewrite Forall_forall in Ht. by apply Ht.
    + intros v q. rewrite He, map_lookup_filter_Some, Hl. cbn [snd].
      setoid_rewrite list_elem_of_filter. cbn [fst]. split.
      * intros [(z & Hz & Ez) Hq]. exists z. done.
      * intros (z & [Hq Hz] & Ez). split; [|done]. exists z. done.
  - constructor; [done|done|done|]. intros v q. rewrite map_lookup_filter_Some, Hl. cbn [snd].
    split; [tauto|]. intros (z & Hz & Ez). split; [by exists z|]. intros ->.
    rewrite (find_lookup s p Hs Hp) in E.
    assert (p ∈ map getSequence (map snd (messages s))) as [y Hy]%lookup_seq_is_Some; [|congruence].
    apply list_elem_of_fmap. exists z. split; [symmetry; exact (entry_seq s (p, z) Hs Hz)|].
    apply list_elem_of_fmap. by exists (p, z).
Qed.

Lemma holds_write k top a s p f :
  holds k top a s -> seq_ok p -> write_ok f -> holds k top a (write_at p f s).
Proof.
  intros [Hs Hk Ht Hl] Hp Hf. destruct (write_map_ok s p f Hs Hf Hp) as [Hok _].
  destruct (om_spec p _ (mo_ordering s Hs)) as (_ & _ & Hupd & _); [unfold seq_ok in Hp; lia|].
  constructor; [done|done| |].
  - unfold write_at. cbn [messages set_messages]. rewrite Hupd. rewrite <- (Forall_map fst (fun q => q <= top)).
    rewrite om_map_keys. by rewrite Forall_map.
  - intros v q. rewrite Hl. unfold write_at. cbn [messages set_messages]. rewrite Hupd.
    change (getKey (set_messages _ s)) with (getKey s). setoid_rewrite om_map_elem. split.
    + intros (m & Hm & Em). eexists. split; [by exists m|]. case_decide; [by rewrite same_key|done].
    + intros (m & (m' & Hm & ->) & Em). exists m'. split; [done|].
      case_decide; [by rewrite same_key in Em|done].
Qed.

Lemma write_available : write_ok (setState AVAILABLE).
Proof. intros m. split_and!; try done. intros _. by left. Qed.

Lemma write_acquired : write_ok (setState ACQUIRED).
Proof. intros m. split_and!; try done. intros _. by right. Qed.

Lemma holds_all k cs top a s :
  holds k top a s -> ascending top cs ->
  exists top', holds k top' (foldl (last_of k) a cs) (foldl run_command s cs).
Proof.
  revert top a s. induction cs as [|c cs IH]; intros top a s Hh Hasc; [by eexists|].
  destruct c as [m|p|p|p]; cbn [foldl].
  - destruct Hasc as (Hp & Hlt & Hasc). eapply IH; [|exact Hasc]. by apply (holds_publish k top).
  - destruct Hasc as (Hp & Hasc). eapply IH; [|exact Hasc]. by apply holds_delete.
  - destruct Hasc as (Hp & Hasc). eapply IH; [|exact Hasc].
    exact (holds_write k top a s p (setState ACQUIRED) Hh Hp write_acquired).
  - destruct Hasc as (Hp & Hasc). eapply IH; [|exact Hasc]. cbn [run_command last_of].
    unfold release. cbn [position at_]. rewrite seq_ok_u32 by done.
    destruct (om_find p (messages s)); [|exact Hh].
    apply (holds_write k top a s p (setState AVAILABLE) Hh Hp write_available).
Qed.

Lemma new_holds k : holds k (-1) ∅ (new_MessageMap k).
Proof.
  constructor; cbn; [|done|constructor|].
  - constructor; [split; constructor|constructor|done|]. by intros p m ?%not_elem_of_nil.
  - intros v p. rewrite lookup_empty. split; [done|]. by intros (m & ?%not_elem_of_nil & _).
Qed.

(** C20: last values.  After any sequence of publications (numbered upwards),
    acquisitions, releases and deletions, a last value queue holds exactly, for
    each value of the key property, the last message published with it, unless
    that message was deleted; deleting a message that was displaced before does
    not touch the newer one.  No two messages share a key value, and the index
    by key value and the ordering agree. *)
Theorem last_value k cs :
  ascending (-1) cs ->
  let s := foldl run_command (new_MessageMap k) cs in
  let last := foldl (last_of k) ∅ cs in
  (forall v p, last !! v = Some p <-> exists m, m ∈ live s /\ getPropertyAsString m k = v /\ getSequence m = p) /\
  (forall v p, last !! v = Some p <-> exists x, index s !! v = Some x /\ getSequence x = p).
Proof.
  intros Hasc s last. destruct (holds_all k cs (-1) ∅ _ (new_holds k) Hasc) as (top & [Hs Hk _ Hl]).
  fold s in Hs, Hk, Hl. fold last in Hl. split; intros v p; rewrite Hl; unfold getKey; rewrite Hk.
  - split.
    + intros (m & Hm & <-). exists m. split_and!; [|done|exact (entry_seq s (p, m) Hs Hm)].
      apply list_elem_of_fmap. by exists (p, m).
    + intros (m & (e & -> & He)%list_elem_of_fmap & <- & <-). exists e.2. split; [|done].
      rewrite (entry_seq s e Hs He). by destruct e.
  - split.
    + intros (m & Hm & <-). destruct (mo_entry s Hs p m Hm) as (x & Hx & Ex). exists x.
      unfold getKey in Hx. by rewrite Hk in Hx.
    + intros (x & Hx & <-). destruct (mo_index s Hs v x Hx) as (m & Hm & Em). exists m.
      unfold getKey in Em. by rewrite Hk in Em.
Qed.

Definition lvq_msg (i : nat) (p : Z) (v : string) : Message :=
  mkMessage (mkEncoding i false 4 10 [(s_ "k", s_ v)] [] false) p AVAILABLE (-1) false [].
Definition prices : list Command :=
  [Publish (lvq_msg 1 1 "ibm"); Publish (lvq_msg 2 2 "sun"); Acquire 1;
   Publish (lvq_msg 3 3 "ibm"); Delete 1; Delete 2].

Lemma last_value_witness :
  let s := foldl run_command (new_MessageMap (s_ "k")) prices in
  let last := foldl (last_of (s_ "k")) ∅ prices in
  (forall v p, last !! v = Some p <-> exists m, m ∈ live s /\ getPropertyAsString m (s_ "k") = v /\ getSequence m = p) /\
  (forall v p, last !! v = Some p <-> exists x, index s !! v = Some x /\ getSequence x = p).
Proof. apply (last_value (s_ "k") prices). apply (bool_decide_unpack _). vm_compute. done. Defined.

(** [release] marks no cursor: a consumer whose cursor has passed a message is
    not given it again after a release, although it is available. *)
Lemma lvq_release_unseen :
  let s := foldl run_command (new_MessageMap (s_ "k")) [Publish (lvq_msg 1 1 "ibm")] in
  let c := new_QueueCursor CONSUMER in
  exists c', next c s = (s, Ret (c', Some (lvq_msg 1 1 "ibm"))) /\
    let s' := foldl run_command s [Acquire 1; Release 1] in
    live s' = [lvq_msg 1 1 "ibm"] /\ (next c' s').2 = Ret (c', None).
Proof. eexists. split; [vm_compute; reflexivity|]. split; vm_compute; reflexivity. Qed.
