(* ===== verification/PriorityQueue.v ===== *)
(** * Priority queues (src/qpid/broker/PriorityQueue.cpp, Fairshare.cpp)

    A container with a deque of [MessageHolder]s for each level and one deque of
    pointers to them, [fifo], in the order of publication.  A pointer to a holder is its
    level and its number there: the elements of a [std::deque] stay where they are
    while others are pushed and popped at the ends.  Whoever reads a pointer reads the levels, so
    the accessors of a [MessagePointer] take the levels as an argument, and a
    write through it is a write to a level.

    A cursor of a priority queue has a context with a position on every level.
    Copies of a cursor share the context, so contexts live in a heap.  The order in which
    levels are tried is virtual: the class [Levels], with the instances [strict] for
    [PriorityQueue] and [Fairshare]. *)

From Stdlib Require Import ZArith Lia.
From stdpp Require Import gmap.
From S2P Require Import Prelude SequenceNumber Messages IndexedDeque MessageDeque.

(** ** Holders and pointers *)

Record MessageHolder := mkHolder { message : Message; priority : nat; h_id : Z }.

Definition h_setState (st : MessageState) (h : MessageHolder) : MessageHolder :=
  mkHolder (setState st (message h)) (priority h) (h_id h).

Definition MessageHolder_DequeElem : DequeElem MessageHolder := {|
  d_seq := h_id; d_state := fun h => getState (message h); d_setState := h_setState
|}.
#[global] Existing Instance MessageHolder_DequeElem.

#[global] Instance MessageHolder_DequeElemLaws : DequeElemLaws MessageHolder.
Proof. by split. Qed.

Abbreviation Level := (IndexedDeque MessageHolder).

(** [p_id] is used for padding only *)
Record MessagePointer := mkPointer { holder : option (nat * Z); p_id : Z }.

Definition holder_at (ls : list Level) (l : nat) (i : Z) : option MessageHolder :=
  d ← ls !! l; snd <$> list_find (fun h => h_id h = i) (messages d).

Definition deref (ls : list Level) (p : MessagePointer) : option MessageHolder :=
  a ← holder p; holder_at ls a.1 a.2.

Definition p_seq (ls : list Level) (p : MessagePointer) : Z :=
  match deref ls p with Some h => getSequence (message h) | None => p_id p end.
Definition p_state (ls : list Level) (p : MessagePointer) : MessageState :=
  match deref ls p with Some h => getState (message h) | None => DELETED end.

(** the write of [setState] goes to the level: [set_pointed] *)
Definition MessagePointer_DequeElem (ls : list Level) : DequeElem MessagePointer := {|
  d_seq := p_seq ls; d_state := p_state ls; d_setState := fun _ p => p
|}.

(** not null, and the element it pointed to is gone *)
Definition dangling (ls : list Level) (p : MessagePointer) : bool :=
  bool_decide (holder p <> None) && bool_decide (deref ls p = None).

Definition priorityPadding (id : Z) : MessageHolder := mkHolder (padding 0) 0 id.
Definition fifoPadding (id : Z) : MessagePointer := mkPointer None id.

(** ** The order of the levels *)

(** [firstLevel] gives the member [start] of a [Priority]; [nextLevel] is given [start]
    and [current] *)
Class Levels (F : Type) := {
  firstLevel : nat -> M F nat;
  nextLevel : nat -> nat -> nat -> M F (option nat)
}.

(** [PriorityQueue] itself *)
Inductive strict := Strict.

Definition strict_Levels : Levels strict := {|
  firstLevel := fun levels => mret (levels - 1)%nat;
  nextLevel := fun _ _ current => mret (match current with O => None | S p => Some p end)
|}.
#[global] Existing Instance strict_Levels.

Record Fairshare := mkFairshare { limits : list Z; f_priority : nat; count : Z }.

Definition new_Fairshare (levels : nat) (limit : Z) : Fairshare := mkFairshare (replicate levels limit) (levels - 1) 0.

Definition setLimit (level : nat) (limit : Z) (f : Fairshare) : Fairshare :=
  mkFairshare (<[level := limit]> (limits f)) (f_priority f) (count f).

Definition limitReached : M Fairshare bool :=
  f ← get;
  match limits f !! f_priority f with
  | None => throw UndefinedBehaviour
  | Some l =>
      if l =? 0 then mret false
      else modify (fun f => mkFairshare (limits f) (f_priority f) (u32 (count f + 1))) ;; mret (l <? u32 (count f + 1))
  end.

Definition f_nextLevel (levels : nat) : M Fairshare nat :=
  modify (fun f => mkFairshare (limits f) (match f_priority f with O => (levels - 1)%nat | S p => p end) 1) ;;
  gets f_priority.

Definition currentLevel (levels : nat) : M Fairshare nat :=
  r ← limitReached; if r : bool then f_nextLevel levels else gets f_priority.

Definition isNull (f : Fairshare) : bool := forallb (fun l => l =? 0) (limits f).

Definition f_setState (p : nat) (c : Z) (f : Fairshare) : Fairshare := mkFairshare (limits f) p c.

Definition Fairshare_Levels : Levels Fairshare := {|
  firstLevel := currentLevel;
  nextLevel := fun levels start _ => next ← f_nextLevel levels; mret (if decide (next = start) then None else Some next)
|}.
#[global] Existing Instance Fairshare_Levels.

(** [Fairshare::create]: the default limit, and the limits of single levels *)
Definition create_Fairshare (priorities : nat) (defaultFairshare : Z) (fairshare : gmap nat Z) : Fairshare :=
  foldl (fun f i => match fairshare !! i with Some l => setLimit i l f | None => f end)
    (new_Fairshare priorities defaultFairshare) (seq 0 priorities).

(** ** The queue *)

Record Cursor := mkPCursor { base : QueueCursor; context : option nat }.

Definition new_Cursor (t : SubscriptionType) : Cursor := mkPCursor (new_QueueCursor t) None.

Record PriorityQueue (F : Type) := mkPQ {
  levels : nat;
  p_levels : list Level;
  counters : list Z;
  fifo : IndexedDeque MessagePointer;
  policy : F;
  contexts : gmap nat (list QueueCursor);
  allocated : nat
}.
Arguments mkPQ {F} _ _ _ _ _ _ _.
Arguments levels {F} _.
Arguments p_levels {F} _.
Arguments counters {F} _.
Arguments fifo {F} _.
Arguments policy {F} _.
Arguments contexts {F} _.
Arguments allocated {F} _.

Section queue.
Context {F : Type} `{!Levels F}.
Abbreviation Op := (M (PriorityQueue F)).

Definition new_PriorityQueue (l : nat) (f : F) : PriorityQueue F :=
  mkPQ l (replicate l new_IndexedDeque) (replicate l 0) new_IndexedDeque f ∅ 0.

Definition set_levels x (q : PriorityQueue F) : PriorityQueue F := mkPQ (levels q) x (counters q) (fifo q) (policy q) (contexts q) (allocated q).
Definition set_counters x (q : PriorityQueue F) : PriorityQueue F := mkPQ (levels q) (p_levels q) x (fifo q) (policy q) (contexts q) (allocated q).
Definition set_fifo x (q : PriorityQueue F) : PriorityQueue F := mkPQ (levels q) (p_levels q) (counters q) x (policy q) (contexts q) (allocated q).
Definition set_policy x (q : PriorityQueue F) : PriorityQueue F := mkPQ (levels q) (p_levels q) (counters q) (fifo q) x (contexts q) (allocated q).
Definition set_contexts x (q : PriorityQueue F) : PriorityQueue F := mkPQ (levels q) (p_levels q) (counters q) (fifo q) (policy q) x (allocated q).

(** an operation on the deque of a level: [messages[l]] *)
Definition on_level {A} (l : nat) (m : M Level A) : Op A := fun q =>
  match p_levels q !! l with
  | None => (q, Throw UndefinedBehaviour)
  | Some d => let '(d', o) := m d in (set_levels (<[l := d']> (p_levels q)) q, o)
  end.

(** an operation on the pointers, with the levels they point to *)
Definition on_fifo {A} (m : DequeElem MessagePointer -> M (IndexedDeque MessagePointer) A) : Op A := fun q =>
  if existsb (dangling (p_levels q)) (messages (fifo q)) then (q, Throw UndefinedBehaviour)
  else let '(d', o) := m (MessagePointer_DequeElem (p_levels q)) (fifo q) in (set_fifo d' q, o).

Definition on_policy {A} (m : M F A) : Op A := fun q =>
  let '(f, o) := m (policy q) in (set_policy f q, o).

(** a write through a pointer to a holder *)
Definition set_pointed (a : nat * Z) (f : Message -> Message) : Op unit := on_level a.1 (modify (fun d =>
  mkDeque (map_seq a.2 (fun h => mkHolder (f (message h)) (priority h) (h_id h)) (messages d)) (head d) (version d))).

(** a pointer that is to be followed is not null *)
Definition followed (p : MessagePointer) : Op (nat * Z * MessageHolder) :=
  q ← get;
  match holder p, deref (p_levels q) p with
  | Some a, Some h => mret (a, h)
  | _, _ => throw UndefinedBehaviour
  end.

Definition getPriorityLevel (levels : nat) (m : Message) : nat :=
  let first := (5 - Nat.min 5 (Nat.div2 (S levels)))%nat in
  let p := Z.to_nat (getPriority (encoding m)) in
  if (p <=? first)%nat then 0%nat else Nat.min (p - first) (levels - 1).

(** [fifo.find(c)]: the element, and where it is *)
Definition fifo_find (c : QueueCursor) : Op (option (nat * MessagePointer)) :=
  on_fifo (fun _ d => (d, Ret (pair (index (u32 (position c)) 0 d).2 <$> find_cursor c d))).

Definition pq_deleted (c : QueueCursor) : Op bool :=
  r ← fifo_find c;
  match r with
  | Some (i, p) =>
      match holder p with
      | Some a =>
          f ← followed p;
          set_pointed a (setState DELETED) ;;
          on_level (priority f.2) (modify clean) ;;
          modify (fun q => set_fifo (set_at i (fun p => mkPointer None (p_id p)) (fifo q)) q) ;;
          on_fifo (fun _ => modify clean) ;;
          mret true
      | None => mret false
      end
  | None => mret false
  end.

Definition pq_size (q : PriorityQueue F) : Z := @size _ (MessagePointer_DequeElem (p_levels q)) (fifo q).

(** [cursor.context], made when the cursor has none *)
Definition getContext (c : Cursor) : Op (Cursor * nat) := fun q =>
  match context c with
  | Some x => (q, Ret (c, x))
  | None =>
      (mkPQ (levels q) (p_levels q) (counters q) (fifo q) (policy q)
         (<[allocated q := replicate (levels q) (new_QueueCursor CONSUMER)]> (contexts q)) (S (allocated q)),
       Ret (mkPCursor (base c) (Some (allocated q)), allocated q))
  end.

(** [messages[l].next(ctxt->position[l])] *)
Definition level_next (x l : nat) : Op (option MessageHolder) :=
  q ← get;
  match contexts q !! x ≫= (.!! l) with
  | None => throw UndefinedBehaviour
  | Some pos =>
      r ← on_level l (next pos);
      modify (fun q => set_contexts (alter (<[l := r.1]>) x (contexts q)) q) ;;
      mret r.2
  end.

(** the cursor on the message of a holder, and the message *)
Definition found (c : Cursor) (h : MessageHolder) : Cursor * option Message :=
  (mkPCursor (setPosition (getSequence (message h)) 0 (base c)) (context c), Some (message h)).

Fixpoint purge_levels (x : nat) (c : Cursor) (ls : list nat) : Op (Cursor * option Message) :=
  match ls with
  | [] => mret (c, None)
  | l :: ls => r ← level_next x l; match r with Some h => mret (found c h) | None => purge_levels x c ls end
  end.

Fixpoint try_levels (n x : nat) (c : Cursor) (start current : nat) : Op (Cursor * option Message) :=
  match n with
  | O => throw OutOfFuel
  | S n =>
      r ← level_next x current;
      match r with
      | Some h => mret (found c h)
      | None =>
          q ← get;
          p ← on_policy (nextLevel (levels q) start current);
          match p with Some p => try_levels n x c start p | None => mret (c, None) end
      end
  end.

Definition pq_next (c : Cursor) : Op (Cursor * option Message) :=
  r ← getContext c;
  let '(c, x) := r in
  q ← get;
  match c_type (base c) with
  | REPLICATOR =>
      r ← on_fifo (fun _ => next (base c));
      match r with
      | (b, Some p) => f ← followed p; mret (mkPCursor b (context c), Some (message f.2))
      | (b, None) => mret (mkPCursor b (context c), None)
      end
  | PURGE => purge_levels x c (seq 0 (levels q))
  | _ => p ← on_policy (firstLevel (levels q)); try_levels (S (levels q)) x c p p
  end.

Definition pq_find (pos : Z) (c : option QueueCursor) : Op (option QueueCursor * option Message) :=
  r ← on_fifo (fun _ d => (d, Ret (find pos c d)));
  match r with
  | (c, Some p) => f ← followed p; mret (c, Some (message f.2))
  | (c, None) => mret (c, None)
  end.

Definition pq_find_cursor (c : QueueCursor) : Op (option Message) :=
  r ← pq_find (u32 (position c)) None; mret r.2.

Definition pq_publish (published : Message) : Op unit :=
  q ← get;
  let l := getPriorityLevel (levels q) published in
  match counters q !! l with
  | None => throw UndefinedBehaviour
  | Some n =>
      let n := SequenceNumber.incr n in
      modify (fun q => set_counters (<[l := n]> (counters q)) q) ;;
      on_level l (publish priorityPadding (mkHolder published l n)) ;;
      on_fifo (fun _ => publish fifoPadding (mkPointer (Some (l, n)) (getSequence published))) ;;
      set_pointed (l, n) (setState AVAILABLE)
  end.

(** [fifo.release(cursor)] writes through the element before the version is raised *)
Definition pq_release (c : QueueCursor) : Op (option Message) :=
  r ← on_fifo (fun _ d => (d, Ret (if c_valid c then index (u32 (position c)) 0 d else (false, 0%nat))));
  match r with
  | (true, i) =>
      q ← get;
      match messages (fifo q) !! i with
      | None => throw UndefinedBehaviour
      | Some p =>
          match holder p with Some a => set_pointed a (setState AVAILABLE) | None => mret tt end ;;
          on_fifo (fun _ => bump) ;;
          f ← followed p;
          on_level (priority f.2) resetCursors ;;
          mret (Some (message f.2))
      end
  | (false, _) => mret None
  end.

(** the messages [foreach] applies its functor to *)
Definition pq_foreach : Op (list Message) :=
  l ← on_fifo (fun _ d => let '(d', l) := foreach d in (d', Ret l));
  q ← get;
  mret (omap (fun p => message <$> deref (p_levels q) p) l).

(** what the queue writes to a message it has a pointer to *)
Definition pq_write (p : Z) (f : Message -> Message) : Op unit :=
  r ← on_fifo (fun _ d => (d, Ret (index p 0 d)));
  q ← get;
  match r with
  | (true, i) =>
      match messages (fifo q) !! i ≫= holder with
      | Some a => set_pointed a f
      | None => mret tt
      end
  | (false, _) => mret tt
  end.
End queue.
