(* ===== verification/PriorityCorrect.v ===== *)
(** * Invariant of a priority queue

    What the levels and the pointers have to do with each other, and what every
    operation does to the list of holders in the order of publication. *)

From Stdlib Require Import ZArith Lia.
From stdpp Require Import gmap.
From S2P Require Import Prelude SequenceNumber Messages IndexedDeque MessageDeque PriorityQueue.

(** ** Elements of a level by their number *)

Section numbers.
Context {T : Type} `{!DequeElem T} `{!DequeElemLaws T}.

Lemma contig_inj a (l : list T) x y : contig a l -> x ∈ l -> y ∈ l -> d_seq x = d_seq y -> x = y.
Proof.
  intros Hc [i Hi]%list_elem_of_lookup [j Hj]%list_elem_of_lookup E.
  rewrite (contig_lookup a l i x Hc Hi), (contig_lookup a l j y Hc Hj) in E. assert (i = j) as -> by lia. congruence.
Qed.

Lemma find_number a (l : list T) n x :
  contig a l -> snd <$> list_find (fun y => d_seq y = n) l = Some x <-> x ∈ l /\ d_seq x = n.
Proof.
  intros Hc. split.
  - intros ([i y] & (Hy & Hn & _)%list_find_Some & ->)%fmap_Some. split; [by eapply list_elem_of_lookup_2|done].
  - intros [Hx Hn]. destruct (list_find_elem_of (fun y => d_seq y = n) l x Hx Hn) as [[i y] E]. rewrite E. cbn.
    apply list_find_Some in E as (Hy & Hyn & _). f_equal. eapply contig_inj; [done|by eapply list_elem_of_lookup_2|done|congruence].
Qed.

(** the loop of [next] over elements that are present *)
Lemma next_loop_spec ver (l : list T) c :
  Forall (fun x => seq_ok (d_seq x) /\ d_state x <> DELETED) l ->
  match next_loop ver l c with
  | (c', Some x) =>
      exists l1 l2, l = l1 ++ x :: l2 /\ Forall (fun y => check c (d_state y) = false) l1 /\
        check c (d_state x) = true /\ c' = cursor_at c (d_seq x) ver
  | (c', None) =>
      Forall (fun y => check c (d_state y) = false) l /\
      c' = match last l with Some x => cursor_at c (d_seq x) ver | None => c end
  end.
Proof.
  intros Hl. revert c. induction Hl as [|x l [Hx Hd] Hl IH]; intros c; [done|]. cbn [next_loop]. rewrite decide_False by done.
  assert (Hc : setPosition (d_seq x) ver c = cursor_at c (d_seq x) ver) by (unfold setPosition; by rewrite seq_ok_s32).
  rewrite Hc. change (check (cursor_at c _ _) (d_state x)) with (check c (d_state x)).
  destruct (check c (d_state x)) eqn:Ec; [by exists [], l|].
  specialize (IH (cursor_at c (d_seq x) ver)). destruct (next_loop ver l _) as [c' [y|]].
  - destruct IH as (l1 & l2 & -> & Hl1 & Hy & ->). exists (x :: l1), l2. split; [done|]. split; [by constructor|done].
  - destruct IH as [Hall ->]. split; [by constructor|]. rewrite last_cons. by destruct (last l).
Qed.
End numbers.

(** the invariant of a deque does not depend on more than the numbers and states *)
Lemma deque_ok_ext {T} (E E' : DequeElem T) (d d' : IndexedDeque T) :
  messages d' = messages d -> head d' = head d ->
  Forall (fun x => d_seq (DequeElem := E') x = d_seq (DequeElem := E) x /\ d_state (DequeElem := E') x <> UNAVAILABLE) (messages d) ->
  deque_ok (DequeElem0 := E) d -> deque_ok (DequeElem0 := E') d'.
Proof.
  intros Em Eh Hf [[a (Hm & Hb)] Hh Hst]. constructor.
  - exists a. rewrite Em. split; [|done]. rewrite <- Hm. apply map_ext_Forall. eapply Forall_impl; [exact Hf|]. by intros x [? _].
  - by rewrite Eh.
  - rewrite Em. eapply Forall_impl; [exact Hf|]. by intros x [_ ?].
Qed.

Section invariant.
Context {F : Type} `{!Levels F}.
Implicit Types q : PriorityQueue F.

(** the holders in the order of publication *)
Definition holders q : list MessageHolder := omap (deref (p_levels q)) (messages (fifo q)).

Definition address (h : MessageHolder) : nat * Z := (priority h, h_id h).

Record PInv q : Prop := mkPInv {
  pi_levels : length (p_levels q) = levels q;
  pi_fifo : @deque_ok _ (MessagePointer_DequeElem (p_levels q)) (fifo q);
  pi_level l d : p_levels q !! l = Some d -> deque_ok d;
  pi_counter l d : p_levels q !! l = Some d ->
    exists n, counters q !! l = Some n /\ seq_ok n /\ Forall (fun h => h_id h <= n) (messages d);
  pi_pointer p a : p ∈ messages (fifo q) -> holder p = Some a ->
    exists h, deref (p_levels q) p = Some h /\ address h = a /\ getState (message h) <> DELETED /\ getSequence (message h) = p_id p;
  pi_alive l d : p_levels q !! l = Some d -> alive (messages d) = filter (fun h => priority h = l) (holders q)
}.

Lemma holder_at_spec q l d i h :
  PInv q -> p_levels q !! l = Some d -> holder_at (p_levels q) l i = Some h <-> h ∈ messages d /\ h_id h = i.
Proof.
  intros Hq Hl. unfold holder_at. rewrite Hl. cbn. destruct (pi_level _ Hq l d Hl) as [[a Hc] _ _].
  exact (find_number a (messages d) i h Hc).
Qed.

Lemma not_dangling q : PInv q -> existsb (dangling (p_levels q)) (messages (fifo q)) = false.
Proof.
  intros Hq. apply not_true_iff_false. rewrite existsb_exists. intros (p & Hp%list_elem_of_In & Hd).
  unfold dangling in Hd. apply andb_prop in Hd as [H1 H2]. rewrite bool_decide_eq_true in H1. apply bool_decide_eq_true in H2.
  destruct (holder p) as [a|] eqn:E; [|done]. destruct (pi_pointer _ Hq p a Hp E) as (h & Eh & _). congruence.
Qed.

Lemma on_fifo_eq {A} (m : DequeElem MessagePointer -> M _ A) q :
  PInv q -> on_fifo m q = (set_fifo (m (MessagePointer_DequeElem (p_levels q)) (fifo q)).1 q, (m (MessagePointer_DequeElem (p_levels q)) (fifo q)).2).
Proof. intros Hq. unfold on_fifo. rewrite not_dangling by done. by destruct (m _ _). Qed.

Lemma holders_elem q h :
  PInv q -> h ∈ holders q <-> exists p, p ∈ messages (fifo q) /\ holder p = Some (address h) /\ deref (p_levels q) p = Some h.
Proof.
  intros Hq. unfold holders. rewrite list_elem_of_omap. split.
  - intros (p & Hp & Hd). exists p. split; [done|]. split; [|done]. unfold deref in Hd.
    destruct (holder p) as [a|] eqn:E; [|done]. destruct (pi_pointer _ Hq p a Hp E) as (h' & Eh & <- & _).
    unfold deref in Eh. rewrite E in Eh. congruence.
  - intros (p & Hp & _ & Hd). eauto.
Qed.

(** every holder is an element of its level *)
Lemma holders_level q h :
  PInv q -> h ∈ holders q ->
  exists d, p_levels q !! priority h = Some d /\ h ∈ messages d /\ getState (message h) <> DELETED.
Proof.
  intros Hq (p & Hp & Hh & Hd)%(holders_elem q h Hq). destruct (pi_pointer _ Hq p _ Hp Hh) as (h' & Eh & _ & Hs & _).
  assert (h' = h) as -> by congruence. unfold deref in Hd. rewrite Hh in Hd. cbn in Hd. unfold holder_at in Hd.
  destruct (p_levels q !! priority h) as [d|] eqn:E; [|done]. exists d. split; [done|]. split; [|done].
  cbn in Hd. apply fmap_Some in Hd as ([i y] & (Hy & _)%list_find_Some & ->). by eapply list_elem_of_lookup_2.
Qed.

Lemma holders_inj q h h' : PInv q -> h ∈ holders q -> h' ∈ holders q -> address h = address h' -> h = h'.
Proof.
  intros Hq Hh Hh' [= E1 E2]. destruct (holders_level q h Hq Hh) as (d & El & Hd & _).
  destruct (holders_level q h' Hq Hh') as (d' & El' & Hd' & _). rewrite <- E1, El in El'. injection El' as <-.
  destruct (pi_level _ Hq _ d El) as [[a Hc] _ _]. by eapply contig_inj.
Qed.

Lemma holders_seqs ls (l : list MessagePointer) :
  map (fun h => getSequence (message h)) (omap (deref ls) l) = map (p_seq ls) (filter (fun p => is_Some (deref ls p)) l).
Proof.
  induction l as [|p l IH]; [done|]. cbn [omap list_omap]. destruct (deref ls p) as [h|] eqn:E.
  - rewrite filter_cons_True by (by rewrite E). cbn [map]. rewrite IH. f_equal. unfold p_seq. by rewrite E.
  - rewrite filter_cons_False by (rewrite E; by intros [? ?]). exact IH.
Qed.

Lemma holders_sorted q : PInv q -> StronglySorted Z.lt (map (fun h => getSequence (message h)) (holders q)).
Proof.
  intros Hq. unfold holders. rewrite holders_seqs. destruct (pi_fifo _ Hq) as [[a Hc] _ _].
  eapply StronglySorted_sublist; [|exact (contig_sorted a _ Hc)]. apply fmap_sublist, sublist_filter.
Qed.

(** what an operation that does not read leaves as it is *)
Definition frame q q' : Prop :=
  levels q' = levels q /\ policy q' = policy q /\ contexts q' = contexts q /\ allocated q' = allocated q /\
  forall l, version <$> p_levels q' !! l = version <$> p_levels q !! l.

(** *** A write through a pointer *)

Definition write_holder (g : Message -> Message) (h : MessageHolder) : MessageHolder := mkHolder (g (message h)) (priority h) (h_id h).
Definition at_address (a : nat * Z) (f : MessageHolder -> MessageHolder) (h : MessageHolder) : MessageHolder :=
  if decide (address h = a) then f h else h.

Lemma find_map_seq i j g (l : list MessageHolder) :
  snd <$> list_find (fun h => h_id h = j) (map_seq i (write_holder g) l) =
  (fun h => if decide (h_id h = i) then write_holder g h else h) <$> (snd <$> list_find (fun h => h_id h = j) l).
Proof.
  induction l as [|h l IH]; [done|]. unfold map_seq in *. cbn [map list_find].
  assert (E : h_id (if decide (d_seq h = i) then write_holder g h else h) = h_id h) by (by case_decide).
  rewrite E. destruct (decide (h_id h = j)) as [Hj|Hj]; [done|].
  destruct (list_find _ (map _ l)) as [[? ?]|], (list_find _ l) as [[? ?]|]; cbn in *; congruence.
Qed.

Definition set_level_at (a : nat * Z) (g : Message -> Message) (ls : list Level) : list Level :=
  alter (fun d => mkDeque (map_seq a.2 (write_holder g) (messages d)) (head d) (version d)) a.1 ls.

Lemma set_pointed_eq a g q d :
  p_levels q !! a.1 = Some d -> set_pointed a g q = (set_levels (set_level_at a g (p_levels q)) q, Ret tt).
Proof.
  intros Hd. unfold set_pointed, on_level, modify. rewrite Hd. do 3 f_equal. apply list_eq. intros j.
  unfold set_level_at. destruct (decide (j = a.1)) as [->|].
  - rewrite list_lookup_insert_eq by (by eapply lookup_lt_Some). by rewrite list_lookup_alter_eq, Hd.
  - by rewrite list_lookup_insert_ne, list_lookup_alter_ne by done.
Qed.

Lemma deref_set ls a g p :
  deref (set_level_at a g ls) p = (if decide (holder p = Some a) then write_holder g else id) <$> deref ls p.
Proof.
  unfold deref, holder_at, set_level_at. destruct (holder p) as [[l i]|]; [|by rewrite option_fmap_id || done].
  destruct a as [l' i']. cbn [mbind option_bind fst snd].
  destruct (decide (l = l')) as [->|Hl].
  - rewrite list_lookup_alter_eq. destruct (ls !! l') as [d|]; cbn [fmap option_fmap option_map mbind option_bind messages]; [|done].
    change (option_map snd ?x) with (snd <$> x). rewrite find_map_seq.
    destruct (list_find _ (messages d)) as [[k h]|] eqn:E; [|done]. apply list_find_Some in E as (_ & Hi & _). cbn in *. subst i.
    f_equal. destruct (decide (h_id h = i')) as [->|]; [by rewrite decide_True|rewrite decide_False by congruence; done].
  - rewrite list_lookup_alter_ne by done. rewrite decide_False by congruence. by rewrite option_fmap_id.
Qed.

Lemma holders_set q a g :
  PInv q -> omap (deref (set_level_at a g (p_levels q))) (messages (fifo q)) = map (at_address a (write_holder g)) (holders q).
Proof.
  intros Hq. unfold holders.
  assert (Hp : forall p, p ∈ messages (fifo q) -> forall h, deref (p_levels q) p = Some h -> holder p = Some (address h)).
  { intros p Hp h Hh. unfold deref in Hh. destruct (holder p) as [a'|] eqn:E; [|done].
    destruct (pi_pointer _ Hq p a' Hp E) as (h' & Eh & <- & _). unfold deref in Eh. rewrite E in Eh. congruence. }
  revert Hp. generalize (messages (fifo q)). induction l as [|p l IH]; intros Hp; [done|]. cbn [omap list_omap].
  rewrite deref_set. pose proof (Hp p ltac:(by left)) as Hh. specialize (IH (fun p' H' => Hp p' ltac:(by right))).
  destruct (deref (p_levels q) p) as [h|]; [|exact IH]. rewrite (Hh h eq_refl). cbn [fmap option_fmap option_map map]. f_equal; [|exact IH].
  unfold at_address. by destruct (decide (address h = a)) as [->|]; [rewrite decide_True|rewrite decide_False by congruence].
Qed.

Lemma set_level_lookup a g ls l :
  set_level_at a g ls !! l =
  (fun d => if decide (l = a.1) then mkDeque (map_seq a.2 (write_holder g) (messages d)) (head d) (version d) else d) <$> ls !! l.
Proof.
  unfold set_level_at. destruct (decide (l = a.1)) as [->|].
  - by rewrite list_lookup_alter_eq.
  - rewrite list_lookup_alter_ne by done. by rewrite option_fmap_id.
Qed.

Lemma alive_map (f : MessageHolder -> MessageHolder) (l : list MessageHolder) :
  Forall (fun h => present (f h) = present h) l -> alive (map f l) = map f (alive l).
Proof.
  induction 1 as [|h l Hh _ IH]; [done|]. cbn [map]. rewrite !alive_cons, Hh, IH. by destruct (present h).
Qed.

Lemma level_writes q l d a g :
  PInv q -> p_levels q !! l = Some d ->
  filter (fun h => priority h = l) (map (at_address a (write_holder g)) (holders q)) =
  (if decide (l = a.1) then map_seq a.2 (write_holder g) else id) (alive (messages d)).
Proof.
  intros Hq Hd. rewrite (pi_alive _ Hq l d Hd). generalize (holders q). intros hs. induction hs as [|h hs IH]; [by destruct (decide (l = a.1))|].
  cbn [map]. assert (Ep : priority (at_address a (write_holder g) h) = priority h) by (unfold at_address; by destruct (decide (address h = a))).
  destruct (decide (priority h = l)) as [Hl|Hl].
  - rewrite !filter_cons_True by congruence. rewrite IH. unfold at_address, address. destruct a as [la ia]. cbn [fst snd] in *.
    destruct (decide ((priority h, h_id h) = (la, ia))) as [E|E].
    + injection E as E1 E2. rewrite !(decide_True (P := l = la)) by congruence. unfold map_seq. cbn [map].
      by rewrite (decide_True (P := d_seq h = ia)).
    + destruct (decide (l = la)) as [E2|]; [|done]. unfold map_seq. cbn [map]. rewrite (decide_False (P := d_seq h = ia)); [done|].
      cbn [d_seq MessageHolder_DequeElem]. congruence.
  - rewrite !filter_cons_False by congruence. exact IH.
Qed.

Lemma deque_ok_map_seq (d : Level) i g v :
  Forall (fun h => h_id h = i -> getState (g (message h)) <> UNAVAILABLE) (messages d) ->
  deque_ok d -> deque_ok (mkDeque (map_seq i (write_holder g) (messages d)) (head d) v).
Proof.
  intros Hg [[a (Hm & Hb)] Hh Hst]. constructor; cbn [messages head]; [|done|].
  - exists a. unfold contig, map_seq. rewrite length_map, map_map. split; [|done]. rewrite <- Hm. apply map_ext. intros h. by case_decide.
  - unfold map_seq. rewrite Forall_map. rewrite Forall_forall in *. intros h Hh'. specialize (Hst h Hh'). specialize (Hg h Hh').
    case_decide as E; [|done]. by apply Hg.
Qed.

Lemma counter_map_seq i g (l : list MessageHolder) n :
  Forall (fun h => h_id h <= n) l -> Forall (fun h => h_id h <= n) (map_seq i (write_holder g) l).
Proof. intros H. unfold map_seq. rewrite Forall_map. eapply Forall_impl; [exact H|]. cbn. intros h Hh. by case_decide. Qed.

(** a message is changed, and stays on the queue *)
Lemma set_pointed_inv q h g :
  PInv q -> h ∈ holders q -> (forall m, getSequence (g m) = getSequence m) -> live_state (getState (g (message h))) ->
  exists q', set_pointed (address h) g q = (q', Ret tt) /\ PInv q' /\
    holders q' = map (at_address (address h) (write_holder g)) (holders q) /\ frame q q' /\ counters q' = counters q /\ fifo q' = fifo q.
Proof.
  intros Hq Hh Hseq Hlive. destruct (holders_level q h Hq Hh) as (d & Hd & Hin & Hs).
  eexists. split; [by apply (set_pointed_eq _ _ _ d)|].
  assert (Ehs : holders (set_levels (set_level_at (address h) g (p_levels q)) q) = map (at_address (address h) (write_holder g)) (holders q))
    by exact (holders_set q (address h) g Hq).
  split; [|split; [exact Ehs|split; [|done]]].
  2:{ split_and!; try done. intros l. cbn [p_levels set_levels]. rewrite set_level_lookup, <- option_fmap_compose.
      apply option_fmap_ext. intros d'. cbn. by case_decide. }
  assert (Hone : forall h', h' ∈ messages d -> h_id h' = h_id h -> h' = h).
  { intros h' Hh' E. destruct (pi_level _ Hq _ d Hd) as [[a Hc] _ _]. by eapply contig_inj. }
  constructor; cbn [p_levels set_levels levels counters fifo].
  - unfold set_level_at. rewrite length_alter. apply (pi_levels _ Hq).
  - eapply deque_ok_ext; [done|done| |exact (pi_fifo _ Hq)]. pose proof (deque_states _ (pi_fifo _ Hq)) as Hst.
    rewrite Forall_forall in Hst |- *. intros p Hp. specialize (Hst p Hp). cbn [d_seq d_state MessagePointer_DequeElem] in *.
    unfold p_seq, p_state in *. rewrite deref_set. destruct (deref (p_levels q) p) as [h'|] eqn:Eh'; [|done]. cbn [fmap option_fmap option_map].
    case_decide as Ea; [|done]. cbn [write_holder message]. split; [apply Hseq|].
    assert (h' = h) as ->.
    { unfold deref in Eh'. rewrite Ea in Eh'. cbn in Eh'. apply (holder_at_spec q _ d) in Eh' as [? ?]; [|done|done]. by apply Hone. }
    destruct Hlive as [-> | ->]; done.
  - intros l d'. rewrite set_level_lookup. intros (d0 & Hd0 & ->)%fmap_Some. pose proof (pi_level _ Hq l d0 Hd0) as Hok.
    case_decide as E; [|done]. apply deque_ok_map_seq; [|done]. subst l. cbn [address fst] in Hd0. assert (d0 = d) as -> by congruence.
    rewrite Forall_forall. intros h' Hh' E'. rewrite (Hone h' Hh' E'). destruct Hlive as [-> | ->]; done.
  - intros l d'. rewrite set_level_lookup. intros (d0 & Hd0 & ->)%fmap_Some. destruct (pi_counter _ Hq l d0 Hd0) as (n & ? & ? & Hn).
    exists n. split_and!; [done|done|]. case_decide; [|done]. by apply counter_map_seq.
  - intros p a Hp Ha. destruct (pi_pointer _ Hq p a Hp Ha) as (h' & Eh' & Ea & Hs' & Hid). rewrite deref_set, Eh'. cbn [fmap option_fmap option_map].
    eexists. split; [done|]. case_decide as E; [|done]. split; [done|]. cbn [write_holder message]. rewrite Hseq. split; [|done].
    assert (h' = h) as ->; [|destruct Hlive as [-> | ->]; done].
    apply (holders_inj q); [done| |done|congruence]. apply holders_elem; [done|]. exists p. split_and!; [done|congruence|done].
  - intros l d'. rewrite set_level_lookup. intros (d0 & Hd0 & ->)%fmap_Some. rewrite Ehs, (level_writes q l d0) by done.
    case_decide as E; [|done]. cbn [messages id]. apply alive_map. subst l. cbn [address fst] in Hd0. assert (d0 = d) as -> by congruence.
    rewrite Forall_forall. intros h' Hh'. case_decide as E'; [|done]. rewrite (Hone h' Hh' E'). unfold present. cbn [d_state MessageHolder_DequeElem write_holder message].
    rewrite !bool_decide_false; [done|done|destruct Hlive as [-> | ->]; done].
Qed.

(** *** The pointers *)

Lemma p_seq_id q p : PInv q -> p ∈ messages (fifo q) -> p_seq (p_levels q) p = p_id p.
Proof.
  intros Hq Hp. unfold p_seq. destruct (deref (p_levels q) p) as [h|] eqn:E; [|done].
  destruct (holder p) as [a|] eqn:Ea; [|unfold deref in E; by rewrite Ea in E].
  destruct (pi_pointer _ Hq p a Hp Ea) as (h' & Eh & _ & _ & Hid). congruence.
Qed.

(** other pointers to the same holders, in the same order *)
Lemma fifo_change q d' :
  PInv q -> @deque_ok _ (MessagePointer_DequeElem (p_levels q)) d' ->
  (forall p, p ∈ messages d' -> holder p <> None -> p ∈ messages (fifo q)) ->
  omap (deref (p_levels q)) (messages d') = holders q ->
  PInv (set_fifo d' q) /\ holders (set_fifo d' q) = holders q /\ frame q (set_fifo d' q).
Proof.
  intros Hq Hd Hin Hh. split; [|split; [done|by repeat split]]. destruct Hq as [H1 H2 H3 H4 H5 H6].
  constructor; cbn [p_levels set_fifo levels counters fifo]; try done.
  - intros p a Hp Ha. apply H5; [|done]. apply Hin; [done|congruence].
  - intros l d Hl. unfold holders. cbn [p_levels set_fifo fifo]. rewrite Hh. by apply H6.
Qed.

Lemma omap_app_nil {A B} (f : A -> option B) (l1 l2 : list A) : Forall (fun x => f x = None) l1 -> omap f (l1 ++ l2) = omap f l2.
Proof. induction 1 as [|x l1 Hx _ IH]; [done|]. cbn [app omap list_omap]. by rewrite Hx. Qed.

Lemma deleted_null q p : PInv q -> p ∈ messages (fifo q) -> p_state (p_levels q) p = DELETED -> deref (p_levels q) p = None.
Proof.
  intros Hq Hp Hs. unfold p_state in Hs. destruct (deref (p_levels q) p) as [h|] eqn:E; [|done].
  destruct (holder p) as [a|] eqn:Ea; [|unfold deref in E; by rewrite Ea in E].
  destruct (pi_pointer _ Hq p a Hp Ea) as (h' & Eh & _ & Hst & _). congruence.
Qed.

Lemma clean_fifo q :
  PInv q -> exists q', on_fifo (fun _ => modify clean) q = (q', Ret tt) /\ PInv q' /\ holders q' = holders q /\ frame q q' /\
    counters q' = counters q.
Proof.
  intros Hq. rewrite on_fifo_eq by done. cbn [fst snd modify]. eexists. split; [done|].
  set (E := MessagePointer_DequeElem (p_levels q)). pose proof (pi_fifo _ Hq) as Hok. pose proof Hok as [[a Hc] Hh _].
  destruct (@clean_ok _ E (fifo q) Hok) as (Hok' & _ & _).
  unfold clean in *. destruct (@pop_front_spec _ E 10 (messages (fifo q))) as (k & Ek & Hk). rewrite Ek in *.
  assert (H : forall P Q R S : Prop, P /\ Q /\ R -> S -> P /\ Q /\ R /\ S) by tauto. apply H; [|done]. clear H.
  apply fifo_change; [done|done| |]; cbn [messages].
  - intros p Hp _. rewrite <- (take_drop k (messages (fifo q))). apply elem_of_app. by right.
  - unfold holders. rewrite <- (take_drop k (messages (fifo q))) at 2. rewrite omap_app_nil; [done|].
    rewrite Forall_forall in Hk |- *. intros p Hp. apply deleted_null; [done| |by apply Hk].
    rewrite <- (take_drop k (messages (fifo q))). apply elem_of_app. by left.
Qed.

Lemma fifo_pos q p : PInv q -> p ∈ messages (fifo q) -> seq_ok (p_id p).
Proof.
  intros Hq Hp. rewrite <- (p_seq_id q p Hq Hp). destruct (pi_fifo _ Hq) as [[a Hc] _ _].
  by apply (@contig_elem _ (MessagePointer_DequeElem (p_levels q)) a (messages (fifo q)) p).
Qed.

Lemma holders_fifo q h :
  PInv q -> h ∈ holders q ->
  exists i p, messages (fifo q) !! i = Some p /\ holder p = Some (address h) /\ deref (p_levels q) p = Some h /\
    p_id p = getSequence (message h) /\ seq_ok (p_id p) /\
    @index _ (MessagePointer_DequeElem (p_levels q)) (p_id p) 0 (fifo q) = (true, i).
Proof.
  intros Hq Hh. apply holders_elem in Hh as (p & Hp & Ha & Hd); [|done]. destruct (pi_fifo _ Hq) as [[a Hc] _ _].
  destruct (pi_pointer _ Hq p _ Hp Ha) as (h' & Eh & _ & _ & Hid). assert (h' = h) as -> by congruence.
  destruct (@index_found _ (MessagePointer_DequeElem (p_levels q)) a (fifo q) (p_id p) p Hc Hp) as (i & Ei & Hi).
  { exact (p_seq_id q p Hq Hp). }
  exists i, p. split_and!; try done. by apply (fifo_pos q).
Qed.

(** [find] at the number of a message *)
Lemma fifo_find_spec q n c :
  PInv q -> seq_ok n ->
  match list_find (fun h => getSequence (message h) = n) (holders q) with
  | Some (_, h) => exists i p, messages (fifo q) !! i = Some p /\ holder p = Some (address h) /\ deref (p_levels q) p = Some h /\
      @index _ (MessagePointer_DequeElem (p_levels q)) n 0 (fifo q) = (true, i) /\
      @find _ (MessagePointer_DequeElem (p_levels q)) n c (fifo q) = (setPosition n (version (fifo q)) <$> c, Some p)
  | None => (@find _ (MessagePointer_DequeElem (p_levels q)) n c (fifo q)).2 = None
  end.
Proof.
  intros Hq Hn. set (E := MessagePointer_DequeElem (p_levels q)).
  pose proof (@find_spec _ E (fifo q) n c (pi_fifo _ Hq) Hn) as Hf. destruct (pi_fifo _ Hq) as [[a Hc] _ _].
  destruct (list_find (fun h => getSequence (message h) = n) (holders q)) as [[j h]|] eqn:Eh.
  - apply list_find_Some in Eh as (Hh & Hs & _). apply list_elem_of_lookup_2 in Hh.
    destruct (holders_fifo q h Hq Hh) as (i & p & Hi & Ha & Hd & Hid & Hok & Ei). exists i, p. rewrite Hid, Hs in Ei.
    split_and!; try done. assert (Hp : p ∈ alive (messages (fifo q))).
    { apply alive_elem. split; [by eapply list_elem_of_lookup_2|]. cbn [d_state E MessagePointer_DequeElem]. unfold p_state. rewrite Hd.
      by destruct (holders_level q h Hq Hh) as (? & _ & _ & ?). }
    destruct (list_find_elem_of (fun x => @d_seq _ E x = n) (alive (messages (fifo q))) p Hp) as [[k p'] Ef].
    { cbn [d_seq E MessagePointer_DequeElem]. unfold p_seq. by rewrite Hd. }
    rewrite Ef in Hf. rewrite Hf. do 2 f_equal. apply list_find_Some in Ef as (Hp' & Hs' & _).
    apply list_elem_of_lookup_2, alive_elem in Hp' as [Hp' _]. eapply (@contig_inj _ E a); [done|done|by eapply list_elem_of_lookup_2|].
    rewrite Hs'. symmetry. cbn [d_seq E MessagePointer_DequeElem]. unfold p_seq. by rewrite Hd.
  - destruct (list_find (fun x => @d_seq _ E x = n) (alive (messages (fifo q)))) as [[k p]|] eqn:Ef; [|done]. exfalso.
    apply list_find_Some in Ef as (Hp & Hs & _). apply list_elem_of_lookup_2, alive_elem in Hp as [Hp Hst].
    cbn [d_seq d_state E MessagePointer_DequeElem] in *. unfold p_seq, p_state in *.
    destruct (deref (p_levels q) p) as [h|] eqn:Ed; [|done]. apply list_find_None in Eh. rewrite Forall_forall in Eh.
    apply (Eh h); [|done]. unfold holders. rewrite list_elem_of_omap. eauto.
Qed.

(** *** A message is deleted *)

Definition null (p : MessagePointer) : MessagePointer := mkPointer None (p_id p).
Definition gone (d : Level) (i : Z) : Level :=
  clean (mkDeque (map_seq i (write_holder (setState DELETED)) (messages d)) (head d) (version d)).

Lemma alive_gone i (l : list MessageHolder) :
  alive (map_seq i (write_holder (setState DELETED)) l) = filter (fun h => h_id h <> i) (alive l).
Proof.
  induction l as [|h l IH]; [done|]. unfold map_seq in *. cbn [map]. rewrite !alive_cons, IH.
  destruct (decide (d_seq h = i)) as [E|E].
  - assert (Hp : present (write_holder (setState DELETED) h) = false) by done. rewrite Hp.
    destruct (present h); [|done]. by rewrite filter_cons_False by (cbn in E; congruence).
  - destruct (present h); [|done]. by rewrite filter_cons_True.
Qed.

(** a level without one of its messages *)
Lemma gone_spec q l d i :
  PInv q -> p_levels q !! l = Some d ->
  deque_ok (gone d i) /\ version (gone d i) = version d /\
  alive (messages (gone d i)) = filter (fun h => h_id h <> i) (alive (messages d)) /\
  (forall h, h ∈ messages (gone d i) -> exists h', h' ∈ messages d /\ h_id h' = h_id h).
Proof.
  intros Hq Hd. set (d1 := mkDeque (map_seq i (write_holder (setState DELETED)) (messages d)) (head d) (version d)).
  assert (Hok1 : deque_ok d1).
  { apply deque_ok_map_seq; [by apply Forall_forall|by apply (pi_level _ Hq l)]. }
  destruct (clean_ok d1 Hok1) as (Hok & Hal & Hv). change (clean d1) with (gone d i) in Hok, Hal, Hv. split_and!; [done|done| |].
  - rewrite Hal. apply alive_gone.
  - intros h Hh. destruct (pop_front_spec 10 (messages d1)) as (k & Ek & _). unfold gone, clean in Hh. fold d1 in Hh. rewrite Ek in Hh.
    cbn [messages] in Hh. assert (Hin : h ∈ messages d1) by (rewrite <- (take_drop k (messages d1)); apply elem_of_app; by right).
    cbn [messages d1] in Hin. unfold map_seq in Hin. apply list_elem_of_fmap in Hin as (h' & -> & Hh'). exists h'. split; [done|]. by case_decide.
Qed.

Definition removed q h i : PriorityQueue F :=
  set_fifo (set_at i null (fifo q)) (set_levels (alter (fun d => gone d (h_id h)) (priority h) (p_levels q)) q).

Lemma deref_removed q h p h' :
  PInv q -> p ∈ messages (fifo q) -> deref (p_levels q) p = Some h' -> address h' <> address h ->
  deref (alter (fun d => gone d (h_id h)) (priority h) (p_levels q)) p = Some h'.
Proof.
  intros Hq Hp Hd Hne.
  assert (Hh' : h' ∈ holders q) by (unfold holders; rewrite list_elem_of_omap; eauto).
  destruct (holders_level q h' Hq Hh') as (d & El & Hin & Hst).
  assert (Ha : holder p = Some (address h')).
  { apply holders_elem in Hh' as (p' & Hp' & Ha' & Hd'); [|done]. unfold deref in Hd. destruct (holder p) as [a|] eqn:E; [|done].
    destruct (pi_pointer _ Hq p a Hp E) as (h2 & E2 & <- & _). unfold deref in E2. rewrite E in E2. congruence. }
  unfold deref. rewrite Ha. cbn [mbind option_bind fst snd address]. unfold holder_at.
  destruct (decide (priority h' = priority h)) as [E|E].
  - rewrite <- E, list_lookup_alter_eq, El. cbn [fmap option_fmap option_map mbind option_bind].
    destruct (gone_spec q _ d (h_id h) Hq El) as ([[a Hc] _ _] & _ & Hal & _).
    change (option_map snd ?x) with (snd <$> x). apply (find_number a (messages (gone d (h_id h))) (h_id h') h' Hc). split; [|done].
    assert (Hin' : h' ∈ alive (messages (gone d (h_id h)))); [|by apply alive_elem in Hin' as [? _]].
    rewrite Hal. apply list_elem_of_filter. split; [|by apply alive_elem]. intros Ei. apply Hne. unfold address. congruence.
  - rewrite list_lookup_alter_ne by done. unfold deref in Hd. rewrite Ha in Hd. exact Hd.
Qed.

Lemma deref_null ls p : holder p = None -> deref ls p = None.
Proof. intros Hn. unfold deref. by rewrite Hn. Qed.

(** one pointer only points to a holder *)
Lemma pointer_unique q p p' a :
  PInv q -> p ∈ messages (fifo q) -> p' ∈ messages (fifo q) -> holder p = Some a -> holder p' = Some a -> p = p'.
Proof.
  intros Hq Hp Hp' Ha Ha'. destruct (pi_fifo _ Hq) as [[b Hc] _ _].
  apply (@contig_inj _ (MessagePointer_DequeElem (p_levels q)) b (messages (fifo q))); try done.
  destruct (pi_pointer _ Hq p a Hp Ha) as (h & Eh & _). cbn [d_seq MessagePointer_DequeElem]. unfold p_seq.
  assert (deref (p_levels q) p' = Some h) as -> by (unfold deref in *; by rewrite Ha', <- Ha). by rewrite Eh.
Qed.

Lemma null_at q i p a :
  PInv q -> messages (fifo q) !! i = Some p -> holder p = Some a ->
  alter null i (messages (fifo q)) = map (fun p' => if decide (holder p' = Some a) then null p' else p') (messages (fifo q)).
Proof.
  intros Hq Hi Ha. apply list_eq. intros j. rewrite list_lookup_fmap. destruct (decide (j = i)) as [->|Hj].
  - rewrite list_lookup_alter_eq, Hi. cbn [fmap option_fmap option_map]. by rewrite decide_True.
  - rewrite list_lookup_alter_ne by done. destruct (messages (fifo q) !! j) as [p'|] eqn:Ej; [|done]. cbn [fmap option_fmap option_map]. f_equal.
    destruct (decide (holder p' = Some a)) as [Ha'|]; [|done]. exfalso. apply Hj.
    assert (p' = p) as -> by (eapply (pointer_unique q); [done|by eapply list_elem_of_lookup_2..|done|done]).
    destruct (pi_fifo _ Hq) as [[b Hc] _ _].
    pose proof (@contig_lookup _ (MessagePointer_DequeElem (p_levels q)) b _ j p Hc Ej).
    pose proof (@contig_lookup _ (MessagePointer_DequeElem (p_levels q)) b _ i p Hc Hi). lia.
Qed.

Lemma holders_removed q h i p :
  PInv q -> messages (fifo q) !! i = Some p -> holder p = Some (address h) ->
  holders (removed q h i) = filter (fun h' => address h' <> address h) (holders q).
Proof.
  intros Hq Hi Ha. unfold holders. cbn [removed p_levels fifo set_fifo set_levels set_at messages]. rewrite (null_at q i p (address h)) by done.
  pose proof (fun p' h' => deref_removed q h p' h' Hq) as Hd.
  assert (Hp : forall p', p' ∈ messages (fifo q) -> holder p' = None \/ exists h', deref (p_levels q) p' = Some h' /\ holder p' = Some (address h')).
  { intros p' Hp'. destruct (holder p') as [a|] eqn:E; [|by left]. right.
    destruct (pi_pointer _ Hq p' a Hp' E) as (h' & Eh & <- & _). eauto. }
  revert Hd Hp. generalize (messages (fifo q)) as l. induction l as [|p' l IH]; intros Hd Hp; [done|]. cbn [map omap list_omap].
  rewrite IH by (intros; first [apply Hd | apply Hp]; try done; by right).
  destruct (Hp p' ltac:(by left)) as [Hn|(h' & Eh & Ea)].
  - rewrite Hn, decide_False by done. by rewrite !deref_null.
  - rewrite Eh, Ea. destruct (decide (address h' = address h)) as [E|E].
    + rewrite decide_True by congruence. rewrite filter_cons_False by (by intros []). done.
    + rewrite decide_False by congruence. rewrite (Hd p' h') by (done || by left). by rewrite filter_cons_True.
Qed.

Lemma holder_removed_inv q h i p :
  PInv q -> messages (fifo q) !! i = Some p -> holder p = Some (address h) -> PInv (removed q h i) /\ frame q (removed q h i).
Proof.
  intros Hq Hi Ha.
  assert (Hls : forall l, p_levels (removed q h i) !! l = (if decide (l = priority h) then fun d => gone d (h_id h) else id) <$> p_levels q !! l).
  { intros l. cbn [removed p_levels set_fifo set_levels]. destruct (decide (l = priority h)) as [->|].
    - by rewrite list_lookup_alter_eq.
    - by rewrite list_lookup_alter_ne, option_fmap_id. }
  assert (Hfi : messages (fifo (removed q h i)) = map (fun p' => if decide (holder p' = Some (address h)) then null p' else p') (messages (fifo q)))
    by exact (null_at q i p (address h) Hq Hi Ha).
  split.
  2:{ unfold frame. split_and!; try done. intros l. rewrite Hls, <- option_fmap_compose. destruct (p_levels q !! l) as [d|] eqn:E; [|done].
      cbn [fmap option_fmap option_map]. f_equal. destruct (decide (l = priority h)); [|done]. cbn. by destruct (gone_spec q l d (h_id h) Hq E) as (_ & ? & _). }
  assert (Hp' : forall p', p' ∈ messages (fifo q) -> holder p' <> Some (address h) ->
    deref (p_levels (removed q h i)) p' = deref (p_levels q) p').
  { intros p' Hp' Hne. destruct (holder p') as [a|] eqn:E; [|by rewrite !deref_null].
    destruct (pi_pointer _ Hq p' a Hp' E) as (h' & Eh & <- & _). rewrite Eh. apply deref_removed; try done. congruence. }
  constructor.
  - cbn [removed p_levels set_fifo set_levels levels]. rewrite length_alter. apply (pi_levels _ Hq).
  - destruct (pi_fifo _ Hq) as [[b (Hm & Hb)] Hh Hst]. constructor.
    + exists b. unfold contig. rewrite Hfi, length_map, map_map. split; [|done]. rewrite <- Hm. apply map_ext_Forall, Forall_forall.
      intros p' Hin. cbn [d_seq MessagePointer_DequeElem]. case_decide as E.
      * rewrite (p_seq_id q p' Hq Hin). done.
      * unfold p_seq. by rewrite Hp'.
    + exact Hh.
    + rewrite Hfi, Forall_map. rewrite Forall_forall in Hst |- *. intros p' Hin. specialize (Hst p' Hin). cbn [d_state MessagePointer_DequeElem] in *.
      unfold p_state in *. case_decide as E; [by rewrite deref_null|]. by rewrite Hp'.
  - intros l d. rewrite Hls. intros (d0 & E & ->)%fmap_Some. case_decide; [|by apply (pi_level _ Hq l)]. by apply (gone_spec q l).
  - intros l d. rewrite Hls. intros (d0 & E & ->)%fmap_Some. destruct (pi_counter _ Hq l d0 E) as (n & ? & ? & Hn). exists n. split_and!; [done|done|].
    case_decide; [|done]. rewrite Forall_forall in Hn |- *. intros h1 Hh1.
    destruct (gone_spec q l d0 (h_id h) Hq E) as (_ & _ & _ & Hg). destruct (Hg h1 Hh1) as (h2 & Hh2 & <-). by apply Hn.
  - intros p' a. rewrite Hfi. intros (p2 & -> & Hin)%list_elem_of_fmap. case_decide as E; [done|]. intros E2. rewrite Hp' by done.
    by apply (pi_pointer _ Hq).
  - intros l d. rewrite Hls. intros (d0 & E & ->)%fmap_Some. rewrite (holders_removed q h i p) by done.
    rewrite list_filter_filter. case_decide as El.
    + destruct (gone_spec q l d0 (h_id h) Hq E) as (_ & _ & -> & _). rewrite (pi_alive _ Hq l d0 E), list_filter_filter. apply list_filter_iff.
      intros h'. unfold address. split; intros [H1 H2]; split; try done; congruence.
    + cbn [id]. rewrite (pi_alive _ Hq l d0 E). apply list_filter_iff. intros h'. unfold address. split; [|tauto]. intros H1. split; [done|congruence].
Qed.

Lemma holders_seq_inj q h h' : PInv q -> h ∈ holders q -> h' ∈ holders q -> getSequence (message h) = getSequence (message h') -> h = h'.
Proof.
  intros Hq Hh Hh' E. destruct (holders_fifo q h Hq Hh) as (i & p & Hi & _ & Hd & Hid & _ & Ei).
  destruct (holders_fifo q h' Hq Hh') as (j & p' & Hj & _ & Hd' & Hid' & _ & Ej). assert (p_id p = p_id p') as Ep by congruence.
  rewrite Ep, Ej in Ei. congruence.
Qed.

Lemma frame_trans q1 q2 q3 : frame q1 q2 -> frame q2 q3 -> frame q1 q3.
Proof.
  intros (A1 & A2 & A3 & A4 & A5) (B1 & B2 & B3 & B4 & B5). unfold frame. split_and!; [congruence..|]. intros l. by rewrite B5, A5.
Qed.

(** [deleted] takes the message off the queue *)
Lemma pq_deleted_spec q c :
  PInv q -> c_valid c = true -> seq_ok (position c) ->
  exists q', pq_deleted c q = (q', Ret (bool_decide (position c ∈ map (fun h => getSequence (message h)) (holders q)))) /\ PInv q' /\
    holders q' = filter (fun h => getSequence (message h) <> position c) (holders q) /\ frame q q' /\ counters q' = counters q.
Proof.
  intros Hq Hv Hp. unfold pq_deleted, fifo_find, mbind, M_bind. rewrite on_fifo_eq by done. cbn [fst snd].
  unfold find_cursor. rewrite Hv, seq_ok_u32 by done.
  assert (Eid : set_fifo (fifo q) q = q) by (by destruct q). rewrite Eid. pose proof (fifo_find_spec q (position c) None Hq Hp) as Hf.
  destruct (list_find _ (holders q)) as [[j h]|] eqn:El.
  - destruct Hf as (i & p & Hi & Ha & Hd & Ei & ->). rewrite Ei. cbn [snd fmap option_fmap option_map]. rewrite Ha.
    apply list_find_Some in El as (Hh & Hs & _). apply list_elem_of_lookup_2 in Hh.
    unfold followed, mbind, M_bind, get. rewrite Ha, Hd. cbn [mret M_ret fst snd].
    destruct (holders_level q h Hq Hh) as (d & Hl & _ & _).
    rewrite (set_pointed_eq (address h) _ q d Hl). unfold on_level. cbn [p_levels set_levels].
    rewrite set_level_lookup. cbn [address fst]. rewrite Hl. cbn [fmap option_fmap option_map modify]. rewrite decide_True by done.
    match goal with |- context [on_fifo _ ?s] => assert (Er : s = removed q h i) end.
    { unfold removed, set_fifo, set_levels, modify. cbn [levels p_levels counters fifo policy contexts allocated]. do 2 f_equal.
      apply list_eq. intros k. destruct (decide (k = priority h)) as [->|].
      - rewrite list_lookup_insert_eq by (unfold set_level_at; rewrite length_alter; by eapply lookup_lt_Some).
        by rewrite list_lookup_alter_eq, Hl.
      - unfold set_level_at. by rewrite list_lookup_insert_ne, !list_lookup_alter_ne by done. }
    rewrite Er. destruct (holder_removed_inv q h i p Hq Hi Ha) as [Hq1 Hf1]. destruct (clean_fifo _ Hq1) as (q2 & E2 & Hq2 & Hh2 & Hf2 & Hc2). rewrite E2.
    exists q2. rewrite bool_decide_true by (rewrite <- Hs; by apply (list_elem_of_fmap_2 (fun h => getSequence (message h)))). split; [done|].
    split; [done|]. split; [|split; [by eapply frame_trans|by rewrite Hc2]].
    rewrite Hh2, (holders_removed q h i p) by done. apply filter_ext_in. intros h' Hh'. split; intros Hn E; apply Hn.
    + f_equal. apply (holders_seq_inj q); [done..|congruence].
    + rewrite <- Hs. by rewrite (holders_inj q h' h Hq Hh' Hh E).
  - rewrite Hf. cbn [fmap option_fmap option_map]. exists q. apply list_find_None in El. rewrite Forall_forall in El. rewrite bool_decide_false.
    + split; [done|]. split; [done|]. split; [|split; [by repeat split|done]]. symmetry. apply filter_all, Forall_forall. exact El.
    + intros (h & E & Hh)%list_elem_of_fmap. by apply (El h).
Qed.

(** *** A message is published *)

(** a level with one message more: what pointers to the others give *)
Lemma deref_published q l d d' h p :
  PInv q -> p_levels q !! l = Some d -> deque_ok d' -> alive (messages d') = alive (messages d) ++ [h] ->
  p ∈ messages (fifo q) -> deref (<[l := d']> (p_levels q)) p = deref (p_levels q) p.
Proof.
  intros Hq Hl [[a Hc] _ _] Hal Hp. destruct (holder p) as [b|] eqn:Eb; [|by rewrite !deref_null].
  destruct (pi_pointer _ Hq p b Hp Eb) as (h' & Eh & <- & Hst & _). rewrite Eh.
  assert (Hh' : h' ∈ holders q) by (unfold holders; rewrite list_elem_of_omap; eauto).
  destruct (holders_level q h' Hq Hh') as (d0 & El & Hin & _). unfold deref. rewrite Eb. cbn [mbind option_bind fst snd address]. unfold holder_at.
  destruct (decide (priority h' = l)) as [E|E]; [subst l|].
  - assert (d0 = d) as -> by congruence. rewrite list_lookup_insert_eq by (by eapply lookup_lt_Some). cbn [mbind option_bind].
    apply (find_number a (messages d') (h_id h') h' Hc). split; [|done].
    assert (Hin' : h' ∈ alive (messages d')); [|by apply alive_elem in Hin' as [? _]].
    rewrite Hal. apply elem_of_app. left. by apply alive_elem.
  - rewrite list_lookup_insert_ne by done. unfold deref in Eh. rewrite Eb in Eh. exact Eh.
Qed.

Lemma omap_ext_in {A B} (f g : A -> option B) (l : list A) : (forall x, x ∈ l -> f x = g x) -> omap f l = omap g l.
Proof.
  induction l as [|x l IH]; intros H; [done|]. cbn [omap list_omap]. rewrite (H x) by (by left). rewrite IH; [done|].
  intros y Hy. apply H. by right.
Qed.

Lemma omap_alive ls (l : list MessagePointer) :
  Forall (fun p => p_state ls p = DELETED -> deref ls p = None) l ->
  omap (deref ls) l = omap (deref ls) (@alive _ (MessagePointer_DequeElem ls) l).
Proof.
  induction 1 as [|p l Hp _ IH]; [done|]. rewrite (@alive_cons _ (MessagePointer_DequeElem ls)). unfold present.
  cbn [d_state MessagePointer_DequeElem omap list_omap]. case_bool_decide as E; cbn [negb omap list_omap]; rewrite IH; [by rewrite Hp|done].
Qed.

Lemma insert_frame q l d d' :
  p_levels q !! l = Some d -> version d' = version d ->
  forall k, version <$> <[l := d']> (p_levels q) !! k = version <$> p_levels q !! k.
Proof.
  intros Hl Hv k. destruct (decide (k = l)) as [->|].
  - rewrite list_lookup_insert_eq by (by eapply lookup_lt_Some). rewrite Hl. cbn. by rewrite Hv.
  - by rewrite list_lookup_insert_ne.
Qed.

Definition published q l d' n (f' : IndexedDeque MessagePointer) : PriorityQueue F :=
  mkPQ (levels q) (<[l := d']> (p_levels q)) (<[l := n]> (counters q)) f' (policy q) (contexts q) (allocated q).

Lemma holder_published_inv q l d d' n h f' :
  PInv q -> p_levels q !! l = Some d -> deque_ok d' -> alive (messages d') = alive (messages d) ++ [h] ->
  last (messages d') = Some h -> address h = (l, n) -> seq_ok n -> getState (message h) = AVAILABLE ->
  (forall n0, counters q !! l = Some n0 -> n0 <= n) ->
  let E := MessagePointer_DequeElem (<[l := d']> (p_levels q)) in
  let p := mkPointer (Some (l, n)) (getSequence (message h)) in
  @deque_ok _ E f' -> @alive _ E (messages f') = @alive _ E (messages (fifo q)) ++ [p] ->
  Forall (fun y => y ∈ messages (fifo q) \/ y = p \/ exists k, y = fifoPadding k) (messages f') ->
  PInv (published q l d' n f') /\ holders (published q l d' n f') = holders q ++ [h].
Proof.
  intros Hq Hl Hok Hal Hlast Ha Hn Hst Hcnt E p Hf' Half Hmem. unfold E in Half, Hf'. clear E.
  pose proof (fun p' => deref_published q l d d' h p' Hq Hl Hok Hal) as Hd.
  assert (Hlt : (l < length (p_levels q))%nat) by (by eapply lookup_lt_Some).
  assert (Hp : deref (<[l := d']> (p_levels q)) p = Some h).
  { unfold deref, holder_at. cbn [p holder mbind option_bind fst snd]. rewrite list_lookup_insert_eq by done. cbn [mbind option_bind].
    destruct Hok as [[b Hc] _ _]. apply (find_number b (messages d') n h Hc). split; [|by injection Ha].
    rewrite last_lookup in Hlast. by eapply list_elem_of_lookup_2. }
  assert (Hnull : Forall (fun y => p_state (<[l := d']> (p_levels q)) y = DELETED -> deref (<[l := d']> (p_levels q)) y = None) (messages f')).
  { eapply Forall_impl; [exact Hmem|]. intros y [Hy|[->|[k ->]]].
    - unfold p_state. rewrite Hd by done. intros Hs. by apply deleted_null.
    - unfold p_state. rewrite Hp, Hst. done.
    - done. }
  assert (Hh : holders (published q l d' n f') = holders q ++ [h]).
  { unfold holders at 1. cbn [published p_levels fifo]. rewrite omap_alive by done. rewrite Half, omap_app.
    rewrite <- omap_alive; [|apply Forall_forall; intros y Hy; unfold p_state; rewrite Hd by done; intros Hs; by apply deleted_null].
    rewrite (omap_ext_in _ (deref (p_levels q))) by done. fold (holders q). cbn [omap list_omap]. by rewrite Hp. }
  split; [|done]. constructor; cbn [published p_levels fifo levels counters].
  - rewrite length_insert. apply (pi_levels _ Hq).
  - exact Hf'.
  - intros k dk Hk. destruct (decide (k = l)) as [->|].
    + rewrite list_lookup_insert_eq in Hk by done. by simplify_eq.
    + rewrite list_lookup_insert_ne in Hk by done. by apply (pi_level _ Hq k).
  - intros k dk Hk. destruct (decide (k = l)) as [->|].
    + rewrite list_lookup_insert_eq in Hk by done. simplify_eq. destruct (pi_counter _ Hq l d Hl) as (n0 & Hn0 & _ & _). exists n.
      rewrite list_lookup_insert_eq by (by eapply lookup_lt_Some). split_and!; [done|done|]. apply Forall_forall. intros h' Hh'.
      destruct Hok as [[b Hc] _ _]. pose proof (contig_last b (messages dk) h Hc Hlast) as El.
      destruct (contig_elem b (messages dk) h' Hc Hh') as [_ Hb]. injection Ha as _ <-. cbn [d_seq MessageHolder_DequeElem] in *. lia.
    + rewrite list_lookup_insert_ne in Hk by done. destruct (pi_counter _ Hq k dk Hk) as (n1 & Hn1 & H1). exists n1.
      by rewrite list_lookup_insert_ne.
  - intros y a Hy Hya. rewrite Forall_forall in Hmem. destruct (Hmem y Hy) as [Hin|[->|[k ->]]]; [|exists h; injection Hya as <-; by rewrite Hst|done].
    rewrite Hd by done. by apply (pi_pointer _ Hq).
  - intros k dk Hk. rewrite Hh, filter_app. injection Ha as Hpr _. destruct (decide (k = l)) as [->|].
    + rewrite list_lookup_insert_eq in Hk by done. simplify_eq. rewrite Hal, (pi_alive _ Hq _ d Hl).
      by rewrite (filter_cons_True _ h []).
    + rewrite list_lookup_insert_ne in Hk by done. rewrite (pi_alive _ Hq k dk Hk).
      rewrite (filter_cons_False _ h []) by congruence. by rewrite app_nil_r.
Qed.

Lemma getPriorityLevel_lt n m : (0 < n)%nat -> (getPriorityLevel n m < n)%nat.
Proof. intros Hn. unfold getPriorityLevel. destruct (Z.to_nat _ <=? _)%nat; lia. Qed.

Lemma incr_small n : seq_ok n -> SequenceNumber.incr n = n + 1.
Proof. intros [? ?]. unfold INT_MAX in *. unfold SequenceNumber.incr. apply uwrap_small. unfold is_uint. lia. Qed.

Lemma priorityPadding_seq n : d_seq (priorityPadding n) = n.
Proof. done. Qed.
Lemma priorityPadding_state n : d_state (priorityPadding n) = DELETED.
Proof. done. Qed.
Lemma fifoPadding_seq ls n : @d_seq _ (MessagePointer_DequeElem ls) (fifoPadding n) = n.
Proof. done. Qed.
Lemma fifoPadding_state ls n : @d_state _ (MessagePointer_DequeElem ls) (fifoPadding n) = DELETED.
Proof. done. Qed.

Lemma dangling_ext ls ls' l :
  (forall p, p ∈ l -> deref ls p = deref ls' p) -> existsb (dangling ls) l = existsb (dangling ls') l.
Proof.
  induction l as [|p l IH]; intros H; [done|]. cbn [existsb]. rewrite IH by (intros; apply H; by right).
  unfold dangling. by rewrite (H p) by (by left).
Qed.

Definition level_of q (m : Message) : nat := getPriorityLevel (levels q) m.

Lemma pq_publish_spec q m n :
  PInv q -> (0 < levels q)%nat -> counters q !! level_of q m = Some n -> seq_ok (n + 1) -> seq_ok (getSequence m) ->
  Forall (fun h => getSequence (message h) < getSequence m) (holders q) ->
  exists q', pq_publish m q = (q', Ret tt) /\ PInv q' /\
    holders q' = holders q ++ [mkHolder (setState AVAILABLE m) (level_of q m) (n + 1)] /\
    frame q q' /\ counters q' = <[level_of q m := n + 1]> (counters q).
Proof.
  intros Hq Hlv Hn Hn1 Hm Hlt. set (l := level_of q m) in *. unfold pq_publish, mbind, M_bind, get. fold (level_of q m). fold l. rewrite Hn.
  assert (Hl : is_Some (p_levels q !! l)).
  { apply lookup_lt_is_Some. rewrite (pi_levels _ Hq). by apply getPriorityLevel_lt. }
  destruct Hl as [d Hl]. destruct (pi_counter _ Hq l d Hl) as (n' & E & Hn0 & Hids). assert (n' = n) as -> by congruence. clear E.
  rewrite incr_small by done. unfold modify. unfold on_level. cbn [p_levels set_counters]. rewrite Hl.
  destruct (publish_settable priorityPadding priorityPadding_seq priorityPadding_state d (mkHolder m l (n + 1)))
    as (d' & -> & Hok & Hal & Hv & Hlast & _); [done|done|by apply (pi_level _ Hq l)|done| |].
  { apply Forall_forall. intros h [Hh _]%alive_elem. rewrite Forall_forall in Hids. specialize (Hids h Hh). cbn. lia. }
  set (h := d_setState AVAILABLE (mkHolder m l (n + 1))) in *. set (ls := <[l := d']> (p_levels q)).
  assert (Hder : forall p, p ∈ messages (fifo q) -> deref ls p = deref (p_levels q) p)
    by (intros p; by apply (deref_published q l d d' h)).
  unfold on_fifo. cbn [p_levels set_levels set_counters fifo]. fold ls.
  assert (Hnd : existsb (dangling ls) (messages (fifo q)) = false).
  { rewrite <- (not_dangling q Hq). by apply dangling_ext. }
  rewrite Hnd.
  assert (Hfok : @deque_ok _ (MessagePointer_DequeElem ls) (fifo q)).
  { eapply deque_ok_ext; [done|done| |exact (pi_fifo _ Hq)]. pose proof (deque_states _ (pi_fifo _ Hq)) as Hst.
    rewrite Forall_forall in Hst |- *. intros p Hp. specialize (Hst p Hp). cbn [d_seq d_state MessagePointer_DequeElem] in *.
    unfold p_seq, p_state in *. by rewrite Hder. }
  set (p := mkPointer (Some (l, n + 1)) (getSequence m)).
  assert (Hp : deref ls p = Some h).
  { unfold deref, holder_at, ls. cbn [p holder mbind option_bind fst snd]. rewrite list_lookup_insert_eq by (by eapply lookup_lt_Some). cbn [mbind option_bind].
    destruct Hok as [[b Hc] _ _]. apply (find_number b (messages d') (n + 1) h Hc). split; [|done].
    rewrite last_lookup in Hlast. by eapply list_elem_of_lookup_2. }
  destruct (@publish_settable _ (MessagePointer_DequeElem ls) fifoPadding (fifoPadding_seq ls) (fifoPadding_state ls) (fifo q) p)
    as (f' & -> & Hfok' & Half & Hfv & _ & Hmem); [done| |done| | |].
  { cbn [d_state d_setState MessagePointer_DequeElem]. unfold p_state. by rewrite Hp. }
  { cbn [d_seq MessagePointer_DequeElem]. unfold p_seq. by rewrite Hp. }
  { apply Forall_forall. intros p' [Hp' Hs]%alive_elem. cbn [d_seq d_state MessagePointer_DequeElem] in *. unfold p_seq, p_state in *. rewrite Hp.
    destruct (deref ls p') as [h'|] eqn:Ed; [|done]. rewrite Forall_forall in Hlt. cbn [h message d_setState MessageHolder_DequeElem h_setState setState getSequence].
    apply Hlt. unfold holders. rewrite list_elem_of_omap. exists p'. split; [done|]. by rewrite <- Hder. }
  destruct (holder_published_inv q l d d' (n + 1) h f' Hq Hl Hok Hal Hlast) as [Hinv Hh]; try done.
  { intros n0 E. assert (n0 = n) by congruence. lia. }
  destruct (set_pointed_inv (published q l d' (n + 1) f') h (setState AVAILABLE) Hinv) as (q' & Eq & Hq' & Hh' & Hf' & Hc' & _).
  { rewrite Hh. apply elem_of_app. right. by left. }
  { done. }
  { by left. }
  exists q'. split; [exact Eq|]. split; [done|]. split; [|split; [|by rewrite Hc']].
  - rewrite Hh', Hh, map_app. cbn [map]. f_equal; [|by unfold at_address; rewrite decide_True].
    rewrite <- (map_id (holders q)) at 2. apply map_ext_Forall, Forall_forall. intros h1 Hh1. unfold at_address. rewrite decide_False; [done|].
    intros [= E1 E2]. destruct (holders_level q h1 Hq Hh1) as (d1 & El & Hin & _). assert (d1 = d) as -> by (cbn in E1; congruence).
    rewrite Forall_forall in Hids. specialize (Hids h1 Hin). cbn in E2. lia.
  - eapply frame_trans; [|exact Hf']. unfold frame. split_and!; try done. cbn [published p_levels]. by apply (insert_frame q l d d').
Qed.

(** *** Versions *)

Definition bumped q l d : PriorityQueue F := set_levels (<[l := mkDeque (messages d) (head d) (version d + 1)]> (p_levels q)) q.

Lemma deref_bumped q l d p :
  p_levels q !! l = Some d -> deref (p_levels (bumped q l d)) p = deref (p_levels q) p.
Proof.
  intros Hl. unfold deref, holder_at, bumped. cbn [p_levels set_levels]. destruct (holder p) as [[k i]|]; [|done]. cbn [mbind option_bind fst snd].
  destruct (decide (k = l)) as [->|].
  - rewrite list_lookup_insert_eq by (by eapply lookup_lt_Some). by rewrite Hl.
  - by rewrite list_lookup_insert_ne.
Qed.

Lemma bumped_inv q l d :
  PInv q -> p_levels q !! l = Some d -> PInv (bumped q l d) /\ holders (bumped q l d) = holders q.
Proof.
  intros Hq Hl. pose proof (deref_bumped q l d) as Hd.
  assert (Hh : holders (bumped q l d) = holders q).
  { unfold holders. change (fifo (bumped q l d)) with (fifo q). apply omap_ext_in. intros p _. by apply Hd. }
  assert (Hk : forall k dk, p_levels (bumped q l d) !! k = Some dk -> exists d0, p_levels q !! k = Some d0 /\ messages dk = messages d0 /\ head dk = head d0).
  { intros k dk. unfold bumped. cbn [p_levels set_levels]. destruct (decide (k = l)) as [->|].
    - rewrite list_lookup_insert_eq by (by eapply lookup_lt_Some). intros [= <-]. by exists d.
    - rewrite list_lookup_insert_ne by done. eauto. }
  split; [|done]. constructor.
  - cbn [bumped p_levels set_levels levels]. rewrite length_insert. apply (pi_levels _ Hq).
  - eapply deque_ok_ext; [done|done| |exact (pi_fifo _ Hq)]. pose proof (deque_states _ (pi_fifo _ Hq)) as Hst.
    rewrite Forall_forall in Hst |- *. intros p Hp. specialize (Hst p Hp). cbn [d_seq d_state MessagePointer_DequeElem] in *.
    unfold p_seq, p_state in *. by rewrite Hd.
  - intros k dk Hdk. destruct (Hk k dk Hdk) as (d0 & E & Em & Eh). destruct (pi_level _ Hq k d0 E) as [[a Hc] H2 H3].
    constructor; rewrite ?Em, ?Eh; [by exists a|done|done].
  - intros k dk Hdk. destruct (Hk k dk Hdk) as (d0 & E & Em & Eh). rewrite Em. by apply (pi_counter _ Hq k d0).
  - intros p a Hp Ha. rewrite Hd by done. by apply (pi_pointer _ Hq).
  - intros k dk Hdk. destruct (Hk k dk Hdk) as (d0 & E & Em & Eh). rewrite Em, Hh. by apply (pi_alive _ Hq).
Qed.

(** [release] makes the message available and starts every cursor of its level anew *)
Lemma pq_release_spec q c h d :
  PInv q -> c_valid c = true -> h ∈ holders q -> getSequence (message h) = position c ->
  p_levels q !! priority h = Some d -> version d < INT_MAX -> version (fifo q) < INT_MAX ->
  exists q', pq_release c q = (q', Ret (Some (setState AVAILABLE (message h)))) /\ PInv q' /\
    holders q' = map (at_address (address h) (write_holder (setState AVAILABLE))) (holders q) /\
    levels q' = levels q /\ policy q' = policy q /\ contexts q' = contexts q /\ allocated q' = allocated q /\ counters q' = counters q /\
    (forall l, version <$> p_levels q' !! l = (fun v => if decide (l = priority h) then v + 1 else v) <$> (version <$> p_levels q !! l)).
Proof.
  intros Hq Hv Hh Hs Hl Hvd Hvf. destruct (holders_fifo q h Hq Hh) as (i & p & Hi & Ha & Hd & Hid & Hok & Ei).
  unfold pq_release, mbind, M_bind. rewrite on_fifo_eq by done. cbn [fst snd]. assert (Eid : set_fifo (fifo q) q = q) by (by destruct q). rewrite Eid.
  rewrite Hv, seq_ok_u32 by congruence. rewrite <- Hs, <- Hid, Ei. unfold get. rewrite Hi, Ha.
  destruct (set_pointed_inv q h (setState AVAILABLE) Hq Hh) as (q1 & -> & Hq1 & Hh1 & (F1 & F2 & F3 & F4 & F5) & Hc1 & Hf1); [done|by left|].
  rewrite on_fifo_eq by done. unfold bump, mbind, M_bind, get. rewrite Hf1, (proj2 (Z.eqb_neq _ _)) by lia. cbn [put fst snd].
  set (f2 := mkDeque _ _ _). destruct (fifo_change q1 f2) as (Hq2 & Hh2 & (G1 & G2 & G3 & G4 & G5)); [done| | | |].
  { destruct (pi_fifo _ Hq1) as [H1 H2 H3]. rewrite Hf1 in H1, H2, H3. by constructor. }
  { cbn [messages f2]. by rewrite Hf1. }
  { unfold holders. by rewrite Hf1. }
  assert (Hd2 : deref (p_levels (set_fifo f2 q1)) p = Some (write_holder (setState AVAILABLE) h)).
  { cbn [p_levels set_fifo]. assert (Hin : at_address (address h) (write_holder (setState AVAILABLE)) h ∈ holders q1) by (rewrite Hh1; by apply list_elem_of_fmap_2).
    unfold at_address in Hin. rewrite decide_True in Hin by done.
    apply holders_elem in Hin as (p' & Hp' & Ha' & Hd'); [|done]. rewrite Hf1 in Hp'.
    assert (p' = p) as -> by (eapply (pointer_unique q); [done|done|by eapply list_elem_of_lookup_2|done|done]). done. }
  unfold followed, mbind, M_bind, get. rewrite Ha, Hd2. cbn [mret M_ret fst snd write_holder priority message].
  assert (Hl2 : exists d2, p_levels (set_fifo f2 q1) !! priority h = Some d2 /\ version d2 = version d).
  { specialize (F5 (priority h)). rewrite Hl in F5. cbn [p_levels set_fifo]. destruct (p_levels q1 !! priority h) as [d2|]; [|done]. exists d2.
    cbn in F5. by injection F5. }
  destruct Hl2 as (d2 & Hl2 & Hv2). unfold on_level, resetCursors, bump, mbind, M_bind, get. rewrite Hl2, Hv2, (proj2 (Z.eqb_neq _ _)) by lia. cbn [put].
  rewrite <- Hv2. fold (bumped (set_fifo f2 q1) (priority h) d2). destruct (bumped_inv (set_fifo f2 q1) (priority h) d2 Hq2 Hl2) as [Hq3 Hh3].
  eexists. split; [done|]. split; [done|]. split; [by rewrite Hh3, Hh2|]. cbn [bumped levels policy contexts allocated counters set_levels set_fifo].
  split_and!; try done. intros l. cbn [bumped p_levels set_levels]. rewrite <- F5. case_decide as E.
  - subst l. rewrite list_lookup_insert_eq by (by eapply lookup_lt_Some). cbn [p_levels set_fifo] in Hl2. by rewrite Hl2.
  - rewrite list_lookup_insert_ne by done. by rewrite option_fmap_id.
Qed.

(** the queue changes a message it was given *)
Lemma pq_write_spec q h g :
  PInv q -> h ∈ holders q -> (forall m, getSequence (g m) = getSequence m) -> live_state (getState (g (message h))) ->
  exists q', pq_write (getSequence (message h)) g q = (q', Ret tt) /\ PInv q' /\
    holders q' = map (at_address (address h) (write_holder g)) (holders q) /\ frame q q' /\ counters q' = counters q.
Proof.
  intros Hq Hh Hg Hlive. destruct (holders_fifo q h Hq Hh) as (i & p & Hi & Ha & Hd & Hid & Hok & Ei).
  unfold pq_write, mbind, M_bind. rewrite on_fifo_eq by done. cbn [fst snd]. assert (Eid : set_fifo (fifo q) q = q) by (by destruct q). rewrite Eid.
  unfold get. rewrite <- Hid, Ei, Hi. cbn [option_bind]. rewrite Ha.
  destruct (set_pointed_inv q h g Hq Hh Hg Hlive) as (q' & E & H1 & H2 & H3 & H4 & _). exists q'. by split_and!.
Qed.

Lemma pq_find_spec q n c :
  PInv q -> seq_ok n ->
  pq_find n c q = match list_find (fun h => getSequence (message h) = n) (holders q) with
                  | Some (_, h) => (q, Ret (setPosition n (version (fifo q)) <$> c, Some (message h)))
                  | None => (q, Ret ((@find _ (MessagePointer_DequeElem (p_levels q)) n c (fifo q)).1, None))
                  end.
Proof.
  intros Hq Hn. unfold pq_find, mbind, M_bind. rewrite on_fifo_eq by done. cbn [fst snd]. assert (Eid : set_fifo (fifo q) q = q) by (by destruct q). rewrite Eid.
  pose proof (fifo_find_spec q n c Hq Hn) as Hf. destruct (list_find _ _) as [[j h]|].
  - destruct Hf as (i & p & _ & Ha & Hd & _ & ->). unfold followed, mbind, M_bind, get. by rewrite Ha, Hd.
  - destruct (find n c (fifo q)) as [c' r]. cbn in Hf. by rewrite Hf.
Qed.

Lemma pq_size_spec q : PInv q -> pq_size q = Z.of_nat (length (filter (fun h => getState (message h) = AVAILABLE) (holders q))).
Proof.
  intros Hq. unfold pq_size, size. destruct (pi_fifo _ Hq) as [_ -> _]. rewrite drop_0. f_equal. unfold holders.
  induction (messages (fifo q)) as [|p l IH]; [done|]. cbn [omap list_omap].
  destruct (deref (p_levels q) p) as [h|] eqn:E.
  - destruct (decide (getState (message h) = AVAILABLE)) as [Ea|Ea].
    + rewrite !filter_cons_True by (cbn; unfold p_state; by rewrite ?E). cbn [length]. by rewrite IH.
    + rewrite !filter_cons_False by (cbn; unfold p_state; by rewrite ?E). exact IH.
  - rewrite filter_cons_False by (cbn; unfold p_state; by rewrite E). exact IH.
Qed.

(** *** Reading a level *)

(** what a position on a level has in front of it *)
Definition ahead (pos : QueueCursor) (d : Level) : list MessageHolder :=
  filter (fun h => reset pos d = true \/ position pos < h_id h) (alive (messages d)).

Lemma level_next_spec q x ps l d pos :
  PInv q -> contexts q !! x = Some ps -> ps !! l = Some pos -> p_levels q !! l = Some d -> seq_ok (position pos) -> c_type pos = CONSUMER ->
  exists pos' r, level_next x l q = (set_contexts (<[x := <[l := pos']> ps]> (contexts q)) q, Ret r) /\
    match r with
    | Some h => exists l1 l2, ahead pos d = l1 ++ h :: l2 /\ Forall (fun y => getState (message y) <> AVAILABLE) l1 /\
        getState (message h) = AVAILABLE /\ pos' = cursor_at pos (h_id h) (version d)
    | None => Forall (fun y => getState (message y) <> AVAILABLE) (ahead pos d) /\
        pos' = match last (ahead pos d) with Some h => cursor_at pos (h_id h) (version d) | None => pos end
    end.
Proof.
  intros Hq Hx Hps Hl Hpos Ht. pose proof (pi_level _ Hq l d Hl) as Hok. unfold level_next, mbind, M_bind, get. rewrite Hx. cbn [option_bind]. rewrite Hps.
  unfold on_level. rewrite Hl, next_spec by done. fold (ahead pos d).
  assert (Hall : Forall (fun h => seq_ok (d_seq h) /\ d_state h <> DELETED) (ahead pos d)).
  { apply Forall_forall. intros h [_ [Hh Hs]%alive_elem]%list_elem_of_filter. destruct Hok as [[a Hc] _ _]. split; [|done].
    by apply (contig_elem a _ h Hc). }
  pose proof (next_loop_spec (version d) (ahead pos d) pos Hall) as Hn.
  assert (Hc : forall h : MessageHolder, check pos (d_state h) = bool_decide (getState (message h) = AVAILABLE)).
  { intros h. by apply check_consumer. }
  change (filter _ (alive (messages d))) with (ahead pos d).
  destruct (next_loop (version d) (ahead pos d) pos) as [pos' r]. exists pos', r. cbn [fst snd modify]. split.
  - assert (E : set_levels (<[l := d]> (p_levels q)) q = q) by (rewrite list_insert_id by done; by destruct q). rewrite E.
    unfold mret, M_ret. f_equal. unfold set_contexts. f_equal. apply map_eq. intros y. destruct (decide (y = x)) as [->|].
    + by rewrite lookup_alter_eq, lookup_insert_eq, Hx.
    + by rewrite lookup_alter_ne, lookup_insert_ne.
  - destruct r as [h|].
    + destruct Hn as (l1 & l2 & E & H1 & H2 & ->). exists l1, l2. rewrite Hc, bool_decide_eq_true in H2. split_and!; try done.
      eapply Forall_impl; [exact H1|]. intros y. cbn beta. by rewrite Hc, bool_decide_eq_false.
    + destruct Hn as [H1 ->]. split; [|done]. eapply Forall_impl; [exact H1|]. intros y. cbn beta. by rewrite Hc, bool_decide_eq_false.
Qed.
End invariant.
