(* ===== verification/PriorityReaders.v ===== *)
(** * Readers of a priority queue

    Any number of consumers and browsers on a queue, among publishing,
    acquisition, release and deletion, in any order. *)

From Stdlib Require Import ZArith Lia.
From stdpp Require Import gmap.
From S2P Require Import Prelude SequenceNumber Messages IndexedDeque MessageDeque PriorityQueue PriorityCorrect.

Abbreviation seq_of h := (getSequence (message h)).
Abbreviation available h := (getState (message h) = AVAILABLE).

Lemma sorted_lookup_lt (l : list Z) i j y z :
  StronglySorted Z.lt l -> l !! i = Some y -> l !! j = Some z -> (i < j)%nat -> y < z.
Proof.
  intros Hs. revert i j. induction Hs as [|x l Hs IH Hall]; intros i j Hi Hj Hlt; [done|]. destruct j as [|j]; [lia|].
  destruct i as [|i]; [|apply (IH i j); [done|done|lia]]. injection Hi as ->. rewrite Forall_forall in Hall. apply Hall. by eapply list_elem_of_lookup_2.
Qed.

Section readers.
Context {F : Type} `{!Levels F}.
Implicit Types q : PriorityQueue F.

(** changes of the policy and of the contexts *)
Lemma read_inv q cs f : PInv q -> PInv (set_contexts cs (set_policy f q)).
Proof. intros [H1 H2 H3 H4 H5 H6]. by constructor. Qed.

(** what the level [l] has for the context [x] *)
Definition next_at q (x l : nat) : option MessageHolder :=
  ps ← contexts q !! x; pos ← ps !! l; d ← p_levels q !! l; filter (fun h => available h) (ahead pos d) !! 0%nat.

(** the context [x] has a position on every level, and what is available and was
    not offered ([off]) is in front of it *)
Definition position_ok q (off : list Z) (l : nat) (pos : QueueCursor) (d : Level) : Prop :=
  c_type pos = CONSUMER /\ seq_ok (position pos) /\ c_version pos <= version d /\
  (forall n, counters q !! l = Some n -> position pos <= n) /\
  forall h, h ∈ holders q -> priority h = l -> available h -> seq_of h ∉ off -> reset pos d = true \/ position pos < h_id h.

Definition reader q (x : nat) (off : list Z) : Prop :=
  exists ps, contexts q !! x = Some ps /\ length ps = levels q /\
    forall l pos d, ps !! l = Some pos -> p_levels q !! l = Some d -> position_ok q off l pos d.

Lemma reader_ext q q' x off off' :
  levels q' = levels q -> contexts q' !! x = contexts q !! x ->
  (forall l d', p_levels q' !! l = Some d' -> exists d, p_levels q !! l = Some d /\ (forall pos, position_ok q off l pos d -> position_ok q' off' l pos d')) ->
  reader q x off -> reader q' x off'.
Proof.
  intros El Ec Hp (ps & Hx & Hlen & Hps). exists ps. split; [congruence|]. split; [congruence|]. intros l pos d' Hpos Hd'.
  destruct (Hp l d' Hd') as (d & Hd & H). apply H. by apply Hps.
Qed.

(** the order of the numbers on a level is the order of publication *)
Lemma level_order q h h' :
  PInv q -> h ∈ holders q -> h' ∈ holders q -> priority h = priority h' -> h_id h < h_id h' <-> seq_of h < seq_of h'.
Proof.
  intros Hq Hh Hh' Hp. destruct (holders_level q h Hq Hh) as (d & Hl & _ & _).
  destruct (pi_level _ Hq _ d Hl) as [[a Hc] _ _].
  assert (S1 : StronglySorted Z.lt (map h_id (alive (messages d)))).
  { eapply StronglySorted_sublist; [|exact (contig_sorted a _ Hc)]. apply fmap_sublist, sublist_filter. }
  assert (S2 : StronglySorted Z.lt (map (fun h => seq_of h) (alive (messages d)))).
  { rewrite (pi_alive _ Hq _ d Hl). eapply StronglySorted_sublist; [|exact (holders_sorted q Hq)]. apply fmap_sublist, sublist_filter. }
  assert (Hin : forall y, y ∈ holders q -> priority y = priority h -> y ∈ alive (messages d)).
  { intros y Hy E. rewrite (pi_alive _ Hq _ d Hl). by apply list_elem_of_filter. }
  assert (Hord : forall (f : MessageHolder -> Z) i j y z, StronglySorted Z.lt (map f (alive (messages d))) ->
    alive (messages d) !! i = Some y -> alive (messages d) !! j = Some z -> (i < j)%nat -> f y < f z).
  { intros f i j y z Hs Hi Hj Hlt. eapply (sorted_lookup_lt _ i j _ _ Hs); [by rewrite list_lookup_fmap, Hi|by rewrite list_lookup_fmap, Hj|done]. }
  pose proof (Hin h Hh eq_refl) as [i Hi]%list_elem_of_lookup. pose proof (Hin h' Hh' (eq_sym Hp)) as [j Hj]%list_elem_of_lookup.
  destruct (Nat.lt_trichotomy i j) as [Hlt|[->|Hlt]].
  - split; intros _; [exact (Hord (fun h => seq_of h) i j h h' S2 Hi Hj Hlt)|exact (Hord h_id i j h h' S1 Hi Hj Hlt)].
  - assert (h = h') as -> by congruence. lia.
  - pose proof (Hord (fun h => seq_of h) j i h' h S2 Hj Hi Hlt). pose proof (Hord h_id j i h' h S1 Hj Hi Hlt). cbn beta in *. lia.
Qed.

(** what is in front of a position *)
Lemma ahead_elem q l d pos h :
  PInv q -> p_levels q !! l = Some d ->
  h ∈ ahead pos d <-> h ∈ holders q /\ priority h = l /\ (reset pos d = true \/ position pos < h_id h).
Proof.
  intros Hq Hl. unfold ahead. rewrite list_elem_of_filter, (pi_alive _ Hq l d Hl), list_elem_of_filter. tauto.
Qed.

Lemma position_moved q off off' l d pos h :
  PInv q -> p_levels q !! l = Some d -> position_ok q off l pos d -> h ∈ ahead pos d ->
  (forall h', h' ∈ holders q -> priority h' = l -> available h' -> seq_of h' ∉ off' -> h_id h < h_id h') ->
  position_ok q off' l (cursor_at pos (h_id h) (version d)) d.
Proof.
  intros Hq Hl (Ht & Hp & Hv & _) Hh Hgt. unfold position_ok. cbn [cursor_at c_type position c_version]. split_and!; [done| |lia| |].
  - apply (ahead_elem q l) in Hh as (Hh & <- & _); [|done|done]. destruct (holders_level q h Hq Hh) as (d' & Hl' & Hin & _).
    destruct (pi_level _ Hq _ d' Hl') as [[a Hc] _ _]. by apply (contig_elem a _ h Hc).
  - intros n Hn. apply (ahead_elem q l) in Hh as (Hh & <- & _); [|done|done]. destruct (holders_level q h Hq Hh) as (d' & Hl' & Hin & _).
    destruct (pi_counter _ Hq _ d' Hl') as (n' & Hn' & _ & Hf). assert (n' = n) as -> by congruence. rewrite Forall_forall in Hf. by apply Hf.
  - intros h' H1 H2 H3 H4. right. by apply Hgt.
Qed.

Lemma reader_update q x ps off' l pos d :
  contexts q !! x = Some ps -> length ps = levels q -> p_levels q !! l = Some d ->
  (forall k pos d, k <> l -> ps !! k = Some pos -> p_levels q !! k = Some d -> position_ok q off' k pos d) ->
  position_ok q off' l pos d -> reader (set_contexts (<[x := <[l := pos]> ps]> (contexts q)) q) x off'.
Proof.
  intros Hx Hlen Hl Hk Hpos. exists (<[l := pos]> ps). cbn [contexts set_contexts p_levels levels]. rewrite lookup_insert_eq. split; [done|].
  split; [by rewrite length_insert|]. intros k pos' d' Hps Hd'. destruct (decide (k = l)) as [->|Hne].
  - assert (d' = d) as -> by congruence. rewrite list_lookup_insert_Some in Hps. destruct Hps as [(_ & <- & _)|[? _]]; [exact Hpos|done].
  - rewrite list_lookup_insert_ne in Hps by done. exact (Hk k pos' d' Hne Hps Hd').
Qed.

Lemma next_at_update q x ps l pos :
  contexts q !! x = Some ps ->
  (forall d, p_levels q !! l = Some d -> filter (fun h => available h) (ahead pos d) !! 0%nat = next_at q x l) -> (l < length ps)%nat -> (l < length (p_levels q))%nat ->
  forall k, next_at (set_contexts (<[x := <[l := pos]> ps]> (contexts q)) q) x k = next_at q x k.
Proof.
  intros Hx Hl Hlt Hlt' k. unfold next_at at 1. cbn [contexts set_contexts p_levels]. rewrite lookup_insert_eq. cbn [mbind option_bind].
  destruct (decide (k = l)) as [->|].
  - rewrite list_lookup_insert_eq by done. cbn [mbind option_bind]. apply lookup_lt_is_Some in Hlt' as [d Hd]. rewrite Hd. by apply Hl.
  - rewrite list_lookup_insert_ne by done. unfold next_at. by rewrite Hx.
Qed.

Lemma level_next_reader q x off l :
  PInv q -> reader q x off -> (l < levels q)%nat ->
  exists cs, level_next x l q = (set_contexts cs q, Ret (next_at q x l)) /\ (forall y, y <> x -> cs !! y = contexts q !! y) /\
    match next_at q x l with
    | Some h => h ∈ holders q /\ priority h = l /\ available h /\
        (forall h', h' ∈ holders q -> priority h' = l -> available h' -> seq_of h' ∉ off -> seq_of h <= seq_of h') /\
        reader (set_contexts cs q) x (seq_of h :: off)
    | None => (forall h, h ∈ holders q -> priority h = l -> available h -> seq_of h ∈ off) /\
        reader (set_contexts cs q) x off /\ forall k, next_at (set_contexts cs q) x k = next_at q x k
    end.
Proof.
  intros Hq (ps & Hx & Hlen & Hps) Hl.
  assert (is_Some (p_levels q !! l)) as [d Hd] by (apply lookup_lt_is_Some; rewrite (pi_levels _ Hq); done).
  assert (is_Some (ps !! l)) as [pos Hpos] by (apply lookup_lt_is_Some; lia).
  pose proof (Hps l pos d Hpos Hd) as Hok. pose proof Hok as (Ht & Hp & Hv & _ & Hah).
  assert (Hk : forall k pos d off', off ⊆ off' -> ps !! k = Some pos -> p_levels q !! k = Some d -> position_ok q off' k pos d).
  { intros k pk dk off' Hsub Hpk Hdk. destruct (Hps k pk dk Hpk Hdk) as (? & ? & ? & ? & H). split_and!; try done. intros h A1 A2 A3 A4. apply H; try done. set_solver. }
  destruct (level_next_spec q x ps l d pos Hq Hx Hpos Hd Hp Ht) as (pos' & r & -> & Hr).
  assert (Hr' : next_at q x l = r).
  { unfold next_at. rewrite Hx. cbn [mbind option_bind]. rewrite Hpos. cbn [mbind option_bind]. rewrite Hd. cbn [mbind option_bind]. destruct r as [h|].
    - destruct Hr as (l1 & l2 & -> & H1 & H2 & _). rewrite filter_app, filter_none by done. by rewrite filter_cons_True.
    - destruct Hr as [H1 _]. by rewrite filter_none. }
  exists (<[x := <[l := pos']> ps]> (contexts q)). rewrite Hr'. split; [done|]. split; [intros y Hy; by apply lookup_insert_ne|].
  assert (Hin : forall h, h ∈ holders q -> priority h = l -> available h -> seq_of h ∉ off -> h ∈ ahead pos d).
  { intros h H1 H2 H3 H4. apply (ahead_elem q l); [done|done|]. split_and!; [done|done|]. by apply Hah. }
  assert (Hsort : StronglySorted Z.lt (map h_id (ahead pos d))).
  { destruct (pi_level _ Hq l d Hd) as [[a Hc] _ _]. eapply StronglySorted_sublist; [|exact (contig_sorted a _ Hc)].
    apply fmap_sublist. unfold ahead, alive. rewrite list_filter_filter. apply sublist_filter. }
  destruct r as [h|].
  - destruct Hr as (l1 & l2 & E & H1 & H2 & ->). assert (Hh : h ∈ ahead pos d) by (rewrite E; set_solver).
    pose proof Hh as Hh'. apply (ahead_elem q l) in Hh' as (H3 & H4 & _); [|done|done].
    assert (Hlater : forall h', h' ∈ holders q -> priority h' = l -> available h' -> seq_of h' ∉ off -> h' = h \/ h_id h < h_id h').
    { intros h' A1 A2 A3 A4. pose proof (Hin h' A1 A2 A3 A4) as Hi. rewrite E in Hi, Hsort. rewrite map_app in Hsort. apply StronglySorted_app_1_r in Hsort.
      cbn [map] in Hsort. apply StronglySorted_inv in Hsort as [_ Hs]. rewrite Forall_map, Forall_forall in Hs.
      apply elem_of_app in Hi as [Hi|[->|Hi]%elem_of_cons]; [|by left|right; by apply Hs]. rewrite Forall_forall in H1. by destruct (H1 h' Hi). }
    split_and!; [done|done|done| |].
    + intros h' A1 A2 A3 A4. destruct (Hlater h' A1 A2 A3 A4) as [->|Hlt]; [lia|]. apply (level_order q) in Hlt; [lia|done..|congruence].
    + apply (reader_update q x ps _ l _ d); [done|done|done| |].
      * intros k pk dk _ ? ?. apply Hk; [set_solver|done|done].
      * apply (position_moved q off); [done|done|done|done|]. intros h' A1 A2 A3 [A4 A5]%not_elem_of_cons.
        destruct (Hlater h' A1 A2 A3 A5) as [->|?]; [done|done].
  - destruct Hr as [H1 ->]. assert (Hnone : forall h, h ∈ holders q -> priority h = l -> available h -> seq_of h ∈ off).
    { intros h A1 A2 A3. destruct (decide (seq_of h ∈ off)) as [|Hn]; [done|]. rewrite Forall_forall in H1. by destruct (H1 h (Hin h A1 A2 A3 Hn)). }
    split; [done|]. destruct (last (ahead pos d)) as [h|] eqn:El.
    + assert (Hh : h ∈ ahead pos d) by (rewrite last_lookup in El; by eapply list_elem_of_lookup_2). split.
      * apply (reader_update q x ps _ l _ d); [done|done|done| |]; [intros k pk dk _ ? ?; by apply Hk|].
        apply (position_moved q off); [done|done|done|done|]. intros h' A1 A2 A3 A4. by destruct A4; apply Hnone.
      * apply next_at_update; [done| |lia|by eapply lookup_lt_Some]. intros d' Hd'. assert (d' = d) as -> by congruence. rewrite Hr', filter_none; [done|].
        apply Forall_forall. intros y (A1 & A2 & A3)%(ahead_elem q l); [|done|done]. intros A4.
        assert (Hy : y ∈ ahead pos d); [|rewrite Forall_forall in H1; by apply (H1 y)].
        apply (ahead_elem q l); [done|done|]. split_and!; [done|done|].
        apply (ahead_elem q l) in Hh as (B1 & B2 & B3); [|done|done]. destruct A3 as [A3|A3].
        -- unfold reset in A3. cbn in A3. by rewrite Z.eqb_refl, andb_false_r in A3.
        -- cbn in A3. destruct B3 as [B3|B3]; [by left|right; lia].
    + split; [|by apply next_at_update; [done|intros d' Hd'; assert (d' = d) as -> by congruence; rewrite Hr', filter_none|lia|eapply lookup_lt_Some]].
      apply (reader_update q x ps _ l _ d); [done|done|done| |done]. intros k pk dk _ ? ?. by apply Hk.
Qed.

(** *** The order of the levels *)

(** the level that is read from, when [has] tells which levels have a message *)
Fixpoint pick (n : nat) (has : nat -> bool) (lv start current : nat) : M F (option nat) :=
  match n with
  | O => throw OutOfFuel
  | S n =>
      if has current then mret (Some current)
      else p ← nextLevel lv start current; match p with Some p => pick n has lv start p | None => mret None end
  end.

Definition has_at q (x l : nat) : bool := bool_decide (is_Some (next_at q x l)).

Lemma reader_policy q f x off : reader q x off -> reader (set_policy f q) x off.
Proof. done. Qed.
End readers.

Class LevelsLaws (F : Type) `{!Levels F} := {
  level_ok : nat -> F -> Prop;
  first_ok lv f : level_ok lv f -> exists f' l, firstLevel lv f = (f', Ret l) /\ level_ok lv f' /\ (l < lv)%nat;
  next_ok lv start current f : level_ok lv f -> (current < lv)%nat ->
    exists f' r, nextLevel lv start current f = (f', Ret r) /\ level_ok lv f' /\ (forall l, r = Some l -> (l < lv)%nat)
}.

Section reading.
Context {F : Type} `{!Levels F} `{!LevelsLaws F}.
Implicit Types q : PriorityQueue F.

(** [try_levels] reads from the level that the policy picks *)
Lemma try_levels_pick n x c start q off current has :
  PInv q -> reader q x off -> level_ok (levels q) (policy q) -> (current < levels q)%nat -> (forall k, has k = has_at q x k) ->
  match pick n has (levels q) start current (policy q) with
  | (f, Ret (Some l)) => level_ok (levels q) f /\ (l < levels q)%nat /\ exists cs h, next_at q x l = Some h /\
      try_levels n x c start current q = (set_contexts cs (set_policy f q), Ret (found c h)) /\
      (forall y, y <> x -> cs !! y = contexts q !! y) /\ reader (set_contexts cs (set_policy f q)) x (seq_of h :: off)
  | (f, Ret None) => level_ok (levels q) f /\ exists cs, try_levels n x c start current q = (set_contexts cs (set_policy f q), Ret (c, None)) /\
      (forall y, y <> x -> cs !! y = contexts q !! y) /\ reader (set_contexts cs (set_policy f q)) x off
  | (_, Throw e) => (try_levels n x c start current q).2 = Throw e
  end.
Proof.
  revert q current. induction n as [|n IH]; intros q current Hq Hr Hp Hlt Hhas; [done|]. cbn [pick try_levels].
  destruct (level_next_reader q x off current Hq Hr Hlt) as (cs & E & Hcs & Hn). rewrite Hhas. unfold has_at.
  unfold mbind, M_bind, get, on_policy. rewrite E. destruct (next_at q x current) as [h|] eqn:En.
  - rewrite bool_decide_true by (by eexists). destruct Hn as (H1 & H2 & H3 & H4 & H5). split; [done|]. split; [done|].
    exists cs, h. split; [done|]. split; [by destruct q|]. split; [done|]. by destruct q.
  - rewrite bool_decide_false by (by intros [? ?]). destruct Hn as (_ & Hr' & Hk).
    destruct (next_ok (levels q) start current (policy q) Hp Hlt) as (f & r & Ef & Hf & Hl).
    cbn [policy set_contexts levels]. rewrite Ef.
    destruct r as [l|].
    + specialize (IH (set_policy f (set_contexts cs q)) l (read_inv q cs f Hq) Hr' Hf (Hl l eq_refl)).
      cbn [levels set_policy set_contexts policy] in IH.
      assert (Hhas' : forall k, has k = has_at (set_policy f (set_contexts cs q)) x k).
      { intros k. rewrite Hhas. unfold has_at. symmetry. change (next_at (set_policy f (set_contexts cs q)) x k) with (next_at (set_contexts cs q) x k). by rewrite Hk. }
      specialize (IH Hhas'). change (policy (set_policy f (set_contexts cs q))) with f in IH.
      destruct (pick n has (levels q) start l f) as [f' [[l'|]|e]]; [| |exact IH].
      * destruct IH as (H1 & H2 & cs' & h & Eh & Et & Hcs' & Hrd). split; [done|]. split; [done|]. exists cs', h.
        split; [by rewrite <- Hk|]. split; [exact Et|]. split; [|exact Hrd]. intros y Hy. rewrite Hcs' by done. by apply Hcs.
      * destruct IH as (H1 & cs' & Et & Hcs' & Hrd). split; [done|]. exists cs'. split; [exact Et|]. split; [|exact Hrd].
        intros y Hy. rewrite Hcs' by done. by apply Hcs.
    + split; [done|]. by exists cs.
Qed.

Lemma new_position_reset t (d : Level) : reset (new_QueueCursor t) d = true.
Proof. done. Qed.

(** [next] for a consumer or browser: its context, made when it has none *)
Lemma getContext_spec q c off :
  PInv q -> (forall l d, p_levels q !! l = Some d -> 0 <= version d) ->
  (forall x, context c = Some x -> reader q x off) ->
  exists cs a x, getContext c q = (mkPQ (levels q) (p_levels q) (counters q) (fifo q) (policy q) cs a, Ret (mkPCursor (base c) (Some x), x)) /\
    reader (mkPQ (levels q) (p_levels q) (counters q) (fifo q) (policy q) cs a) x off /\
    match context c with
    | Some y => y = x /\ cs = contexts q /\ a = allocated q
    | None => x = allocated q /\ a = S (allocated q) /\ (forall y, y <> x -> cs !! y = contexts q !! y)
    end.
Proof.
  intros Hq Hv Hr. unfold getContext. destruct c as [b [x|]]; cbn [context base] in *.
  - exists (contexts q), (allocated q), x. specialize (Hr x eq_refl). destruct q. done.
  - eexists _, _, (allocated q). split; [done|]. split; [|split_and!; [done|done|intros y Hy; by apply lookup_insert_ne]].
    exists (replicate (levels q) (new_QueueCursor CONSUMER)). cbn [contexts levels p_levels]. rewrite lookup_insert_eq, length_replicate. split_and!; [done..|].
    intros l pos d Hpos Hd. apply lookup_replicate in Hpos as [-> _]. unfold position_ok. cbn [c_type new_QueueCursor position c_version].
    split_and!; [done|done|by apply (Hv l)| |].
    + intros n Hn. destruct (pi_counter _ Hq l d Hd) as (n' & Hn' & [? _] & _). cbn in Hn. assert (n' = n) as -> by congruence. done.
    + intros h _ _ _ _. left. apply new_position_reset.
Qed.

Lemma has_wanted q x off l h :
  PInv q -> reader q x off -> h ∈ holders q -> available h -> seq_of h ∉ off -> priority h = l -> has_at q x l = true.
Proof.
  intros Hq Hr Hh Ha Ho <-. unfold has_at. apply bool_decide_eq_true. destruct (holders_level q h Hq Hh) as (d & Hd & _).
  assert (Hl : (priority h < levels q)%nat) by (rewrite <- (pi_levels _ Hq); by eapply lookup_lt_Some).
  destruct (level_next_reader q x off (priority h) Hq Hr Hl) as (cs & _ & _ & Hn). destruct (next_at q x (priority h)); [done|].
  destruct Hn as [Hn _]. by destruct Ho; apply Hn.
Qed.

Lemma next_at_spec q x off l h :
  PInv q -> reader q x off -> (l < levels q)%nat -> next_at q x l = Some h ->
  h ∈ holders q /\ priority h = l /\ available h /\
  (forall h', h' ∈ holders q -> priority h' = l -> available h' -> seq_of h' ∉ off -> seq_of h <= seq_of h').
Proof.
  intros Hq Hr Hl E. destruct (level_next_reader q x off l Hq Hr Hl) as (cs & _ & _ & Hn). rewrite E in Hn. tauto.
Qed.
End reading.

(** ** The two policies *)

#[global, refine] Instance strict_laws : LevelsLaws strict := {| level_ok := fun lv _ => (0 < lv)%nat |}.
Proof.
  - intros lv f H. exists f, (lv - 1)%nat. cbn. split_and!; [done|done|lia].
  - intros lv start current f H Hc. eexists f, _. split; [done|]. split; [done|]. intros l. destruct current as [|p]; [done|]. intros [= <-]. lia.
Defined.

Lemma strict_pick n has lv start current (f : strict) :
  (current < n)%nat ->
  exists r, pick n has lv start current f = (f, Ret r) /\
    match r with
    | Some l => (l <= current)%nat /\ has l = true /\ forall k, (l < k <= current)%nat -> has k = false
    | None => forall k, (k <= current)%nat -> has k = false
    end.
Proof.
  revert current. induction n as [|n IH]; intros current Hn; [lia|]. cbn [pick]. destruct (has current) eqn:E.
  - exists (Some current). split; [done|]. split_and!; [done|done|lia].
  - unfold mbind, M_bind, nextLevel, strict_Levels, mret, M_ret. destruct current as [|p].
    + exists None. split; [done|]. intros k Hk. by assert (k = 0%nat) as -> by lia.
    + destruct (IH p) as (r & E2 & Hr); [lia|]. exists r. split; [exact E2|]. destruct r as [l|].
      * destruct Hr as (H1 & H2 & H3). split_and!; [lia|done|]. intros k Hk. destruct (decide (k = S p)) as [->|]; [done|]. apply H3. lia.
      * intros k Hk. destruct (decide (k = S p)) as [->|]; [done|]. apply Hr. lia.
Qed.

(** how many levels below [start] the level [k] comes, round the levels *)
Definition below (lv start k : nat) : nat := if (k <=? start)%nat then (start - k)%nat else (start + lv - k)%nat.

Definition limit (f : Fairshare) (l : nat) : Z := default 0 (limits f !! l).

(** the largest limit would never be reached: the counter wraps *)
#[global, refine] Instance Fairshare_laws : LevelsLaws Fairshare := {|
  level_ok := fun lv f => length (limits f) = lv /\ (f_priority f < lv)%nat /\ Forall (fun l => 0 <= l < 2 ^ 32 - 1) (limits f) /\ 0 <= count f < 2 ^ 32 - 1
|}.
Proof.
  - intros lv f (H1 & H2 & H3 & H4). cbn [firstLevel Fairshare_Levels]. unfold currentLevel, limitReached, mbind, M_bind, get, gets.
    assert (is_Some (limits f !! f_priority f)) as [l Hl] by (apply lookup_lt_is_Some; lia). rewrite Hl.
    assert (Hb : 0 <= l < 2 ^ 32 - 1) by (rewrite Forall_forall in H3; apply H3; by eapply list_elem_of_lookup_2).
    destruct (Z.eqb_spec l 0).
    + exists f, (f_priority f). split_and!; try done; lia.
    + unfold modify. cbn [mret M_ret]. rewrite uwrap_small by (unfold is_uint; lia). destruct (Z.ltb_spec l (count f + 1)).
      * unfold f_nextLevel, mbind, M_bind, modify, gets. eexists _, _. cbn [limits f_priority count]. split; [done|].
        split_and!; cbn [limits f_priority count]; try done; destruct (f_priority f) eqn:?; lia.
      * eexists _, _. cbn [limits f_priority count]. split; [done|]. split_and!; cbn [limits f_priority count]; try done; lia.
  - intros lv start current f (H1 & H2 & H3 & H4) Hc. cbn [nextLevel Fairshare_Levels]. unfold f_nextLevel, mbind, M_bind, modify, gets, mret, M_ret.
    eexists _, _. split; [done|]. cbn [limits f_priority count]. split_and!; cbn [limits f_priority count]; try done; [destruct (f_priority f) eqn:?; lia|].
    intros l. case_decide; [done|]. intros [= <-]. destruct (f_priority f) eqn:?; lia.
Defined.

Definition pred_level (lv c : nat) : nat := match c with O => (lv - 1)%nat | S p => p end.

Ltac cases_below := unfold below, pred_level in *; repeat match goal with
  | |- context [Nat.leb ?a ?b] => destruct (Nat.leb_spec a b)
  | H : context [Nat.leb ?a ?b] |- _ => destruct (Nat.leb_spec a b)
  end.

Lemma below_pred lv s c : (s < lv)%nat -> (c < lv)%nat -> pred_level lv c <> s -> below lv s (pred_level lv c) = S (below lv s c).
Proof. intros. destruct c; cases_below; lia. Qed.

Lemma below_last lv s c k : (s < lv)%nat -> (c < lv)%nat -> (k < lv)%nat -> pred_level lv c = s -> (below lv s c <= below lv s k)%nat -> k = c.
Proof. intros. destruct c; cases_below; lia. Qed.

Lemma below_inj lv s k k' : (s < lv)%nat -> (k < lv)%nat -> (k' < lv)%nat -> below lv s k = below lv s k' -> k = k'.
Proof. intros. cases_below; lia. Qed.

Lemma below_lt lv s k : (s < lv)%nat -> (k < lv)%nat -> (below lv s k < lv)%nat.
Proof. intros. cases_below; lia. Qed.

Lemma fair_pick n has lv s (f : Fairshare) :
  level_ok lv f -> (s < lv)%nat -> (lv - below lv s (f_priority f) < n)%nat ->
  exists f' r, pick n has lv s (f_priority f) f = (f', Ret r) /\ limits f' = limits f /\
    match r with
    | Some l => (l < lv)%nat /\ f_priority f' = l /\ has l = true /\ (below lv s (f_priority f) <= below lv s l)%nat /\
        (forall k, (k < lv)%nat -> (below lv s (f_priority f) <= below lv s k < below lv s l)%nat -> has k = false) /\
        (l = f_priority f -> f' = f) /\ (l <> f_priority f -> count f' = 1)
    | None => f_priority f' = s /\ (forall k, (k < lv)%nat -> (below lv s (f_priority f) <= below lv s k)%nat -> has k = false)
    end.
Proof.
  revert f. induction n as [|n IH]; intros f Hok Hs Hn; [lia|]. cbn [pick]. pose proof Hok as (H1 & H2 & H3 & H4).
  destruct (has (f_priority f)) eqn:E.
  - exists f, (Some (f_priority f)). split_and!; try done; lia.
  - unfold mbind, M_bind, nextLevel, Fairshare_Levels, f_nextLevel, mbind, M_bind, modify, gets, mret, M_ret. cbn [f_priority].
    fold (pred_level lv (f_priority f)). set (f1 := mkFairshare (limits f) (pred_level lv (f_priority f)) 1).
    assert (Hp : (pred_level lv (f_priority f) < lv)%nat) by (unfold pred_level; destruct (f_priority f) eqn:?; lia).
    case_decide as Es.
    + exists f1, None. split; [done|]. split; [done|]. split; [done|]. intros k Hk Hb. rewrite (below_last lv s (f_priority f) k); [done|done|done|done|done|lia].
    + pose proof (below_pred lv s (f_priority f) Hs H2 Es) as Eb. change (pred_level lv (f_priority f)) with (f_priority f1) in Eb, Hp |- *.
      destruct (IH f1) as (f' & r & Er & El & Hr); [by split_and!|done|pose proof (below_lt lv s (f_priority f) Hs H2); lia|].
      exists f', r. split; [exact Er|]. split; [done|].
      assert (Hk : forall k b, (k < lv)%nat -> (below lv s (f_priority f) <= below lv s k)%nat -> (below lv s k < b)%nat ->
        ((below lv s (f_priority f1) <= below lv s k < b)%nat -> has k = false) -> has k = false).
      { intros k b Hk Hb1 Hb2 Hi. destruct (decide (below lv s k = below lv s (f_priority f))) as [Ek|]; [|apply Hi; lia].
        apply below_inj in Ek; [by subst k|done..]. }
      destruct r as [l|].
      * destruct Hr as (A1 & A2 & A3 & A4 & A5 & A6 & A7). split_and!; try done; [lia| | |].
        -- intros k B1 B2. apply (Hk k (below lv s l)); [done|lia|lia|]. intros B3. by apply A5.
        -- intros ->. lia.
        -- intros _. destruct (decide (l = f_priority f1)) as [->|Hne]; [by rewrite A6|by apply A7].
      * destruct Hr as [A1 A2]. split; [done|]. intros k B1 B2. apply (Hk k lv); [done|lia|by apply below_lt|]. intros B3. apply A2; [done|lia].
Qed.

(** what the first level and the counter are *)
Lemma fair_first lv (f : Fairshare) :
  level_ok lv f -> 0 < limit f (f_priority f) ->
  firstLevel lv f = if limit f (f_priority f) <=? count f
                    then (mkFairshare (limits f) (pred_level lv (f_priority f)) 1, Ret (pred_level lv (f_priority f)))
                    else (mkFairshare (limits f) (f_priority f) (count f + 1), Ret (f_priority f)).
Proof.
  intros (H1 & H2 & H3 & H4) Hl. unfold limit in *. assert (is_Some (limits f !! f_priority f)) as [l El] by (apply lookup_lt_is_Some; lia).
  rewrite El in *. cbn [default from_option id] in *. unfold firstLevel, Fairshare_Levels, currentLevel, limitReached, mbind, M_bind, get, gets. rewrite El.
  rewrite (proj2 (Z.eqb_neq _ _)) by lia. unfold modify. cbn [mret M_ret]. rewrite uwrap_small by (unfold is_uint; lia).
  destruct (Z.leb_spec l (count f)).
  - rewrite (proj2 (Z.ltb_lt _ _)) by lia. done.
  - rewrite (proj2 (Z.ltb_ge _ _)) by lia. done.
Qed.

(** ** Shares

    While the level [j] has a message, at most [patience f j] messages are taken
    from other levels; while another level has one, at most [quota f l] in a row from [l]. *)

Definition shares_of (lim : nat -> Z) (P : nat -> bool) (ks : list nat) : Z := foldr (fun k a => (if P k then lim k else 0) + a) 0 ks.
Definition shares (lv : nat) (lim : nat -> Z) (P : nat -> bool) : Z := shares_of lim P (seq 0 lv).

Lemma shares_mono lim P P' ks :
  Forall (fun k => 0 <= lim k /\ (P' k = true -> P k = true)) ks -> 0 <= shares_of lim P' ks <= shares_of lim P ks.
Proof.
  induction 1 as [|k ks [Hk Hp] _ IH]; [done|]. cbn [shares_of foldr]. fold (shares_of lim P' ks) (shares_of lim P ks).
  destruct (P' k), (P k); lia.
Qed.

Lemma shares_split lim P P' ks l :
  l ∈ ks -> Forall (fun k => 0 <= lim k /\ (P' k = true -> P k = true)) ks -> P l = true -> P' l = false ->
  lim l + shares_of lim P' ks <= shares_of lim P ks.
Proof.
  intros Hl Hf HP HP'. induction Hf as [|k ks [Hk Hp] Hf IH]; [by apply elem_of_nil in Hl|]. cbn [shares_of foldr].
  fold (shares_of lim P' ks) (shares_of lim P ks). apply elem_of_cons in Hl as [->|Hl].
  - rewrite HP, HP'. pose proof (shares_mono lim P P' ks Hf). lia.
  - specialize (IH Hl). destruct (P' k), (P k); lia.
Qed.

(** the levels from [a] down to the one before [j] *)
Definition path (lv a j k : nat) : bool := (below lv a k <? below lv a j)%nat.

Definition patience (lv : nat) (f : Fairshare) (j : nat) : Z :=
  let p := f_priority f in
  let way := shares lv (limit f) (path lv (pred_level lv p) j) in
  if decide (p = j) then if count f <? limit f j then 0 else way
  else Z.max 0 (limit f p - count f) + way.

Definition quota (f : Fairshare) (l : nat) : Z :=
  if decide (f_priority f = l) then Z.max 0 (limit f l - count f) else limit f l.

(** every level has a limit *)
Definition limited (lv : nat) (f : Fairshare) : Prop := level_ok lv f /\ Forall (fun l => 0 < l) (limits f).

Lemma limit_pos lv f k : limited lv f -> (k < lv)%nat -> 0 < limit f k.
Proof.
  intros [(H1 & _) H2] Hk. unfold limit. assert (is_Some (limits f !! k)) as [l El] by (apply lookup_lt_is_Some; lia). rewrite El. cbn.
  rewrite Forall_forall in H2. apply H2. by eapply list_elem_of_lookup_2.
Qed.

Lemma way_shrinks lv f j l a :
  limited lv f -> (a < lv)%nat -> (j < lv)%nat -> (l < lv)%nat -> path lv a j l = true ->
  limit f l + shares lv (limit f) (path lv (pred_level lv l) j) <= shares lv (limit f) (path lv a j).
Proof.
  intros Hf Ha Hj Hl Hp. apply shares_split; [apply elem_of_seq; lia| |done|].
  - apply Forall_forall. intros k [_ Hk]%elem_of_seq. split; [pose proof (limit_pos lv f k Hf ltac:(lia)); lia|].
    unfold path in *. rewrite !Nat.ltb_lt in *. intros H. destruct l; cases_below; lia.
  - unfold path in *. rewrite Nat.ltb_lt in Hp. apply Nat.ltb_ge. destruct l; cases_below; lia.
Qed.

Lemma shares_nonneg lv f P : limited lv f -> 0 <= shares lv (limit f) P.
Proof.
  intros Hf. apply (shares_mono (limit f) P P (seq 0 lv)). apply Forall_forall. intros k [_ Hk]%elem_of_seq. split; [|done].
  pose proof (limit_pos lv f k Hf ltac:(lia)). lia.
Qed.

(** a call of [next]: the level it starts with, and the one it reads from *)
Definition serve (lv : nat) (has : nat -> bool) : M Fairshare (option nat) :=
  s ← firstLevel lv; pick (S lv) has lv s s.

Lemma serve_spec lv has f f' l :
  limited lv f -> serve lv has f = (f', Ret (Some l)) ->
  limited lv f' /\ limits f' = limits f /\ f_priority f' = l /\ (l < lv)%nat /\ has l = true /\
  exists s, (s < lv)%nat /\ (forall k, (k < lv)%nat -> (below lv s k < below lv s l)%nat -> has k = false) /\
    ((s = f_priority f /\ l = s /\ count f < limit f l /\ count f' = count f + 1) \/
     (s = f_priority f /\ l <> s /\ count f < limit f s /\ count f' = 1) \/
     (s = pred_level lv (f_priority f) /\ limit f (f_priority f) <= count f /\ count f' = 1)).
Proof.
  intros [Hok Hpos]. pose proof Hok as (H1 & H2 & H3 & H4). unfold serve, mbind, M_bind.
  rewrite fair_first by (done || by apply (limit_pos lv)).
  assert (Hp : (pred_level lv (f_priority f) < lv)%nat) by (unfold pred_level; destruct (f_priority f) eqn:?; lia).
  assert (Hb : forall s, (s < lv)%nat -> (lv - below lv s s < S lv)%nat) by (intros; lia).
  assert (Hlim : limit f (f_priority f) < 2 ^ 32 - 1).
  { unfold limit. destruct (limits f !! f_priority f) eqn:E; cbn; [|lia]. rewrite Forall_forall in H3. apply H3. by eapply list_elem_of_lookup_2. }
  assert (H0 : forall s, below lv s s = 0%nat) by (intros; cases_below; lia).
  destruct (Z.leb_spec (limit f (f_priority f)) (count f)).
  - set (f1 := mkFairshare (limits f) (pred_level lv (f_priority f)) 1).
    destruct (fair_pick (S lv) has lv (f_priority f1) f1) as (f2 & r & Er & El & Hr); [by split_and!|done|by apply Hb|].
    cbn [f1 f_priority] in Er. rewrite Er. intros [= <- ->]. destruct Hr as (A1 & A2 & A3 & A4 & A5 & A6 & A7).
    assert (Hc : count f2 = 1) by (destruct (decide (l = f_priority f1)); [by rewrite A6|by apply A7]).
    split_and!; try done.
    + split; [cbn [level_ok Fairshare_laws]; rewrite El, Hc, A2; by split_and!|]. rewrite El. exact Hpos.
    + exists (f_priority f1). split; [done|]. split; [intros k B1 B2; apply A5; [done|rewrite H0; lia]|]. right. right. done.
  - set (f1 := mkFairshare (limits f) (f_priority f) (count f + 1)).
    destruct (fair_pick (S lv) has lv (f_priority f1) f1) as (f2 & r & Er & El & Hr); [split_and!; cbn; try done; lia|done|by apply Hb|].
    cbn [f1 f_priority] in Er. rewrite Er. intros [= <- ->]. destruct Hr as (A1 & A2 & A3 & A4 & A5 & A6 & A7).
    assert (Hc : count f2 = if decide (l = f_priority f) then count f + 1 else 1) by (case_decide; [by rewrite A6|by apply A7]).
    split_and!; try done.
    + split; [|rewrite El; exact Hpos]. cbn [level_ok Fairshare_laws]. rewrite El, Hc, A2. split_and!; try done; case_decide; lia.
    + exists (f_priority f1). split; [done|]. split; [intros k B1 B2; apply A5; [done|rewrite H0; lia]|].
      destruct (decide (l = f_priority f)) as [->|]; [left|right; left]; done.
Qed.

Lemma limit_same f f' : limits f' = limits f -> limit f' = limit f.
Proof. intros E. unfold limit. by rewrite E. Qed.

Lemma patience_drops lv has f f' l j :
  limited lv f -> serve lv has f = (f', Ret (Some l)) -> (j < lv)%nat -> has j = true -> l <> j ->
  patience lv f' j + 1 <= patience lv f j.
Proof.
  intros Hf Hs Hj Hhas Hne. destruct (serve_spec lv has f f' l Hf Hs) as (Hf' & El & Ep & Hl & _ & s & Hs1 & Hbelow & Hcase).
  pose proof Hf as [(_ & Hp & _) _]. assert (Hsj : (below lv s l < below lv s j)%nat).
  { destruct (Nat.lt_trichotomy (below lv s l) (below lv s j)) as [|[E|E]]; [done| |].
    - apply below_inj in E; done.
    - rewrite (Hbelow j Hj E) in Hhas. done. }
  unfold patience. rewrite Ep, (limit_same f f' El), (decide_False (P := l = j)) by done. pose proof (limit_pos lv f l Hf Hl).
  assert (Hpl : (pred_level lv (f_priority f) < lv)%nat) by (unfold pred_level; destruct (f_priority f) eqn:?; lia).
  assert (Hway : path lv (pred_level lv (f_priority f)) j l = true -> count f' = 1 ->
    Z.max 0 (limit f l - count f') + shares lv (limit f) (path lv (pred_level lv l) j) + 1 <=
    shares lv (limit f) (path lv (pred_level lv (f_priority f)) j)).
  { intros Hpath ->. pose proof (way_shrinks lv f j l _ Hf Hpl Hj Hl Hpath). lia. }
  destruct Hcase as [(-> & -> & Hc & ->)|[(-> & Hls & Hc & Hc')|(-> & Hc & Hc')]].
  - rewrite decide_False by done. lia.
  - assert (Hpj : f_priority f <> j) by (intros <-; cases_below; lia). rewrite decide_False by done.
    specialize (Hway ltac:(unfold path; apply Nat.ltb_lt; destruct (f_priority f) eqn:?; cases_below; lia) Hc'). lia.
  - specialize (Hway ltac:(by apply Nat.ltb_lt) Hc'). destruct (decide (f_priority f = j)) as [<-|]; [|lia].
    rewrite (proj2 (Z.ltb_ge _ _)) by lia. lia.
Qed.

Lemma quota_drops lv has f f' l j :
  limited lv f -> serve lv has f = (f', Ret (Some l)) -> (j < lv)%nat -> has j = true -> j <> l ->
  quota f' l + 1 <= quota f l.
Proof.
  intros Hf Hs Hj Hhas Hne. destruct (serve_spec lv has f f' l Hf Hs) as (Hf' & El & Ep & Hl & _ & s & Hs1 & Hbelow & Hcase).
  pose proof (limit_pos lv f l Hf Hl). pose proof Hf as [(_ & Hp & _) _].
  unfold quota. rewrite Ep, (limit_same f f' El), decide_True by done.
  destruct Hcase as [(-> & -> & Hc & ->)|[(-> & Hls & Hc & ->)|(-> & Hc & ->)]].
  - rewrite decide_True by done. lia.
  - rewrite decide_False by done. lia.
  - destruct (decide (f_priority f = l)) as [E|]; [|lia]. exfalso.
    rewrite Hbelow in Hhas; [done|done|]. subst l. destruct (f_priority f) eqn:?; cases_below; lia.
Qed.

(** the limits of the other levels *)
Definition others (lv : nat) (f : Fairshare) (j : nat) : Z := shares lv (limit f) (fun k => negb (k =? j)%nat).

Lemma patience_bounds lv f j : limited lv f -> 0 <= patience lv f j <= others lv f j.
Proof.
  intros Hf. set (a := pred_level lv (f_priority f)). pose proof (shares_nonneg lv f (path lv a j) Hf) as H1.
  pose proof Hf as [(_ & Hp & _ & Hc) _]. pose proof (limit_pos lv f (f_priority f) Hf Hp) as H2.
  assert (Hsub : Forall (fun k => 0 <= limit f k /\ (path lv a j k = true -> negb (k =? j)%nat = true)) (seq 0 lv)).
  { apply Forall_forall. intros k [_ Hk]%elem_of_seq. split; [pose proof (limit_pos lv f k Hf ltac:(lia)); lia|].
    unfold path. rewrite Nat.ltb_lt, negb_true_iff, Nat.eqb_neq. intros Hlt ->. lia. }
  pose proof (shares_mono _ _ _ _ Hsub) as H3. unfold patience. fold a. unfold others, shares in *.
  destruct (decide (f_priority f = j)) as [|Hne]; [destruct (count f <? limit f j); lia|].
  assert (Hin : f_priority f ∈ seq 0 lv) by (apply elem_of_seq; lia). pose proof (shares_split _ _ _ _ (f_priority f) Hin Hsub) as H4.
  specialize (H4 ltac:(apply negb_true_iff; by apply Nat.eqb_neq)). split; [lia|].
  destruct (path lv a j (f_priority f)) eqn:E; [|specialize (H4 eq_refl); lia].
  exfalso. unfold path, a in E. apply Nat.ltb_lt in E. destruct (f_priority f) eqn:?; cases_below; lia.
Qed.
