(* ===== verification/PrioritySystem.v ===== *)
(** * Any sequence of operations on a priority queue

    Consumers and browsers subscribe and read, messages are published, acquired,
    released and deleted, in any order.  [priority_order] says what a reader of a
    priority queue is given, [fairshare_fair] what a fair share queue owes its levels. *)

From Stdlib Require Import ZArith Lia.
From stdpp Require Import gmap.
From S2P Require Import Prelude SequenceNumber Messages IndexedDeque MessageDeque PriorityQueue PriorityCorrect PriorityReaders.

(** the queue; its readers, each with the numbers of the messages it was given
    since they last became available; the highest number published *)
Record System (F : Type) := mkSystem { pq : PriorityQueue F; readers : gmap nat (Cursor * list Z); top : Z }.
Arguments mkSystem {F} _ _ _.
Arguments pq {F} _.
Arguments readers {F} _.
Arguments top {F} _.

(** a read that finds a message took it from a level, and has the levels that had a
    message for the reader; a read can find nothing; all else is no read *)
Inductive Label := Other | Empty | Took (l : nat) (wanted : nat -> Prop).

Section system.
Context {F : Type} `{!Levels F} `{!LevelsLaws F}.
Implicit Types (q : PriorityQueue F) (s : System F).

Definition live_messages q : list Message := message <$> holders q.

(** the level has an available message that the reader was not given *)
Definition wanted q (off : list Z) (l : nat) : Prop :=
  exists m, m ∈ live_messages q /\ level_of q m = l /\ getState m = AVAILABLE /\ getSequence m ∉ off.

Inductive step : Label -> System F -> System F -> Prop :=
| step_subscribe s k t :
    readers s !! k = None -> t = CONSUMER \/ t = BROWSER ->
    step Other s (mkSystem (pq s) (<[k := (new_Cursor t, [])]> (readers s)) (top s))
| step_publish s m n q' :
    seq_ok (getSequence m) -> top s < getSequence m -> counters (pq s) !! level_of (pq s) m = Some n -> seq_ok (n + 1) ->
    pq_publish m (pq s) = (q', Ret tt) -> step Other s (mkSystem q' (readers s) (getSequence m))
| step_next s k c off q' c' m :
    readers s !! k = Some (c, off) -> pq_next c (pq s) = (q', Ret (c', Some m)) ->
    step (Took (level_of (pq s) m) (wanted (pq s) off)) s (mkSystem q' (<[k := (c', getSequence m :: off)]> (readers s)) (top s))
| step_empty s k c off q' c' :
    readers s !! k = Some (c, off) -> pq_next c (pq s) = (q', Ret (c', None)) ->
    step Empty s (mkSystem q' (<[k := (c', off)]> (readers s)) (top s))
| step_acquire s m q' :
    m ∈ live_messages (pq s) -> pq_write (getSequence m) (setState ACQUIRED) (pq s) = (q', Ret tt) ->
    step Other s (mkSystem q' (readers s) (top s))
| step_release s c m q' r :
    c_valid c = true -> m ∈ live_messages (pq s) -> getSequence m = position c ->
    version (fifo (pq s)) < INT_MAX -> Forall (fun d => version d < INT_MAX) (p_levels (pq s)) ->
    pq_release c (pq s) = (q', Ret r) ->
    step Other s (mkSystem q' ((fun p => (p.1, filter (fun n => n <> position c) p.2)) <$> readers s) (top s))
| step_delete s c q' b :
    c_valid c = true -> seq_ok (position c) -> pq_deleted c (pq s) = (q', Ret b) ->
    step Other s (mkSystem q' (readers s) (top s)).

Inductive steps : list Label -> System F -> System F -> Prop :=
| steps_refl s : steps [] s s
| steps_step s s' s'' e tr : step e s s' -> steps tr s' s'' -> steps (e :: tr) s s''.

Definition new_System (levels : nat) (f : F) : System F := mkSystem (new_PriorityQueue levels f) ∅ 0.

Record SInv s : Prop := mkSInv {
  si_pq : PInv (pq s);
  si_policy : (0 < levels (pq s))%nat /\ level_ok (levels (pq s)) (policy (pq s));
  si_versions l d : p_levels (pq s) !! l = Some d -> 0 <= version d;
  si_holders : Forall (fun h => priority h = level_of (pq s) (message h) /\ seq_of h <= top s) (holders (pq s));
  si_reader k c off : readers s !! k = Some (c, off) ->
    (c_type (base c) = CONSUMER \/ c_type (base c) = BROWSER) /\
    forall x, context c = Some x -> (x < allocated (pq s))%nat /\ reader (pq s) x off;
  si_distinct k k' c c' off off' x : readers s !! k = Some (c, off) -> readers s !! k' = Some (c', off') ->
    context c = Some x -> context c' = Some x -> k = k'
}.

(** *** What [next] does *)

Definition same_queue q q' : Prop :=
  levels q' = levels q /\ p_levels q' = p_levels q /\ counters q' = counters q /\ fifo q' = fifo q.

Lemma same_queue_inv q q' : same_queue q q' -> PInv q -> PInv q' /\ holders q' = holders q.
Proof. destruct q, q'. intros (E1 & E2 & E3 & E4) [H1 H2 H3 H4 H5 H6]. cbn in *. subst. by split. Qed.

Lemma same_queue_reader q q' x off : same_queue q q' -> contexts q' !! x = contexts q !! x -> reader q x off -> reader q' x off.
Proof. destruct q, q'. intros (E1 & E2 & E3 & E4) Ec. cbn in *. subst. unfold reader. cbn. by rewrite Ec. Qed.

Definition given q (off : list Z) (l : nat) (m : Message) : Prop :=
  m ∈ live_messages q /\ level_of q m = l /\ getState m = AVAILABLE /\
  forall m', m' ∈ live_messages q -> level_of q m' = l -> getState m' = AVAILABLE -> getSequence m' ∉ off -> getSequence m <= getSequence m'.

Definition read_to q (f : F) (x : nat) (c c' : Cursor) q' (off : list Z) : Prop :=
  same_queue q q' /\ policy q' = f /\ level_ok (levels q) f /\ context c' = Some x /\ c_type (base c') = c_type (base c) /\
  (allocated q <= allocated q')%nat /\ (x < allocated q')%nat /\ reader q' x off /\ forall y, y <> x -> contexts q' !! y = contexts q !! y.

Lemma holders_live s h : SInv s -> h ∈ holders (pq s) -> message h ∈ live_messages (pq s) /\ level_of (pq s) (message h) = priority h.
Proof.
  intros Hs Hh. split; [by apply list_elem_of_fmap_2|]. pose proof (si_holders _ Hs) as H. rewrite Forall_forall in H. symmetry. by apply H.
Qed.

Lemma live_holders s m : SInv s -> m ∈ live_messages (pq s) -> exists h, h ∈ holders (pq s) /\ message h = m /\ priority h = level_of (pq s) m.
Proof.
  intros Hs (h & -> & Hh)%list_elem_of_fmap. exists h. split; [done|]. split; [done|]. symmetry. by apply holders_live.
Qed.

(** a read takes the level that the policy picks among those that have something
    for the reader, and gives the first message there that the reader was not given *)
Lemma pq_next_reader s k c off :
  SInv s -> readers s !! k = Some (c, off) ->
  let q := pq s in
  exists has f1 p x, (forall l, wanted q off l -> has l = true) /\ firstLevel (levels q) (policy q) = (f1, Ret p) /\ level_ok (levels q) f1 /\ (p < levels q)%nat /\
    match context c with Some y => y = x | None => x = allocated q end /\
    match pick (S (levels q)) has (levels q) p p f1 with
    | (f2, Ret (Some l)) => exists q' c' m, pq_next c q = (q', Ret (c', Some m)) /\ read_to q f2 x c c' q' (getSequence m :: off) /\ given q off l m
    | (f2, Ret None) => exists q' c', pq_next c q = (q', Ret (c', None)) /\ read_to q f2 x c c' q' off
    | (_, Throw e) => (pq_next c q).2 = Throw e
    end.
Proof.
  intros Hs Hk q. pose proof (si_pq _ Hs) as Hq. fold q in Hq. destruct (si_policy _ Hs) as [Hlv Hpol].
  destruct (si_reader _ Hs k c off Hk) as [Hty Hctx].
  destruct (getContext_spec q c off Hq (si_versions _ Hs)) as (cs & a & x & Eg & Hr & Hx).
  { intros x Hx. by apply Hctx. }
  set (q1 := mkPQ _ _ _ _ _ cs a) in *. assert (Hsq : same_queue q q1) by done. destruct (same_queue_inv q q1 Hsq Hq) as [Hq1 Hh1].
  destruct (first_ok (levels q) (policy q) Hpol) as (f1 & p & Ef & Hf1 & Hp).
  exists (has_at q1 x), f1, p, x.
  assert (Hal : (allocated q <= a)%nat /\ (x < a)%nat /\ forall y, y <> x -> cs !! y = contexts q !! y).
  { destruct (context c) as [y|].
    - destruct Hx as (-> & -> & ->). split_and!; [lia| |done]. by apply (Hctx x).
    - destruct Hx as (-> & -> & Hcs). split_and!; [lia|lia|done]. }
  split; [|split; [done|split; [done|split; [done|split; [by destruct (context c); intuition|]]]]].
  { intros l (m & Hm & Hl & Ha & Ho). destruct (live_holders s m Hs Hm) as (h & Hh & <- & Hpr).
    apply (has_wanted q1 x off l h Hq1 Hr); [by rewrite Hh1|done|done|by rewrite Hpr]. }
  assert (En : pq_next c q = try_levels (S (levels q)) x (mkPCursor (base c) (Some x)) p p (set_policy f1 q1)).
  { unfold pq_next, mbind, M_bind, get. rewrite Eg. cbn [base]. destruct Hty as [-> | ->]; unfold on_policy; cbn [policy levels q1]; by rewrite Ef. }
  pose proof (try_levels_pick (S (levels q)) x (mkPCursor (base c) (Some x)) p (set_policy f1 q1) off p (has_at q1 x)) as Ht.
  cbn [levels set_policy q1 policy] in Ht. fold q1 in Ht. specialize (Ht (read_inv q1 cs f1 Hq1) Hr Hf1 Hp (fun _ => eq_refl)).
  destruct (pick _ _ _ p p f1) as [f2 [[l|]|e]]; [| |by rewrite En].
  - destruct Ht as (Hf2 & Hl & cs' & h & Hn & Et & Hcs' & Hrd). rewrite En, Et.
    change (next_at q1 x l = Some h) in Hn. destruct (next_at_spec q1 x off l h Hq1 Hr Hl Hn) as (A1 & A2 & A3 & A4). rewrite Hh1 in A1, A4.
    eexists _, _, (message h). split; [done|]. split.
    + split_and!; try done; try (by apply Hal). intros y Hy. cbn [contexts set_contexts]. rewrite Hcs' by done. by apply Hal.
    + destruct (holders_live s h Hs A1) as [B1 B2]. split_and!; [done|by etrans|done|]. intros m' Hm' Hl' Ha' Ho'.
      destruct (live_holders s m' Hs Hm') as (h' & Hh' & <- & Hpr'). apply A4; try done. by etrans.
  - destruct Ht as (Hf2 & cs' & Et & Hcs' & Hrd). rewrite En, Et. eexists _, _. split; [done|].
    split_and!; try done; try (by apply Hal). intros y Hy. cbn [contexts set_contexts]. rewrite Hcs' by done. by apply Hal.
Qed.

(** *** The invariant *)

(** an operation that does not read: what is available now was so before, or is new *)
Lemma frame_reader q q' x off :
  frame q q' -> (forall l n, counters q !! l = Some n -> exists n', counters q' !! l = Some n' /\ n <= n') ->
  (forall l, is_Some (counters q' !! l) -> is_Some (counters q !! l)) ->
  (forall h, h ∈ holders q' -> available h -> seq_of h ∉ off ->
     (exists h0, h0 ∈ holders q /\ available h0 /\ address h0 = address h /\ seq_of h0 = seq_of h) \/
     (exists n, counters q !! priority h = Some n /\ n < h_id h)) ->
  reader q x off -> reader q' x off.
Proof.
  intros (F1 & _ & F3 & _ & F5) Hc Hc' Hh. apply reader_ext; [done|by rewrite F3|]. intros l d' Hd'. specialize (F5 l). rewrite Hd' in F5.
  destruct (p_levels q !! l) as [d|] eqn:E; [|done]. cbn in F5. injection F5 as Ev. exists d. split; [done|].
  intros pos (P1 & P2 & P3 & P4 & P5). assert (Er : reset pos d' = reset pos d) by (unfold reset; by rewrite Ev).
  split_and!; [done|done|lia| |].
  - intros n' Hn'. destruct (Hc' l) as [n Hn]; [by eexists|]. destruct (Hc l n Hn) as (n2 & Hn2 & ?). assert (n2 = n') by congruence. specialize (P4 n Hn). lia.
  - intros h Hin Hp Ha Ho. rewrite Er. destruct (Hh h Hin Ha Ho) as [(h0 & H1 & H2 & [= H3 H4] & H5)|(n & H1 & H2)].
    + rewrite <- H4. apply P5; [done|congruence|done|congruence].
    + right. rewrite Hp in H1. specialize (P4 n H1). lia.
Qed.

Lemma frame_sinv s q' top' :
  SInv s -> frame (pq s) q' -> PInv q' ->
  Forall (fun h => priority h = level_of q' (message h) /\ seq_of h <= top') (holders q') ->
  (forall x off, reader (pq s) x off -> reader q' x off) -> SInv (mkSystem q' (readers s) top').
Proof.
  intros [H1 H2 H3 H4 H5 H6] (F1 & F2 & F3 & F4 & F5) Hq' Hh Hr. constructor; cbn [pq readers top]; try done.
  - by rewrite F1, F2.
  - intros l d Hd. specialize (F5 l). rewrite Hd in F5. destruct (p_levels (pq s) !! l) as [d0|] eqn:E; [|done]. cbn in F5. injection F5 as ->. by apply (H3 l).
  - intros k c off Hk. destruct (H5 k c off Hk) as [A B]. split; [done|]. intros x Hx. rewrite F4. destruct (B x Hx). split; [done|]. by apply Hr.
Qed.

Lemma same_counters q q' :
  counters q' = counters q ->
  (forall l n, counters q !! l = Some n -> exists n', counters q' !! l = Some n' /\ n <= n') /\ (forall l, is_Some (counters q' !! l) -> is_Some (counters q !! l)).
Proof. intros ->. split; [|done]. intros l n Hn. exists n. split; [done|lia]. Qed.

Lemma publish_sinv s m n q' :
  SInv s -> seq_ok (getSequence m) -> top s < getSequence m -> counters (pq s) !! level_of (pq s) m = Some n -> seq_ok (n + 1) ->
  pq_publish m (pq s) = (q', Ret tt) -> SInv (mkSystem q' (readers s) (getSequence m)).
Proof.
  intros Hs Hm Ht Hn Hn1 E. pose proof (si_pq _ Hs) as Hq. destruct (si_policy _ Hs) as [Hlv _]. pose proof (si_holders _ Hs) as Hh.
  destruct (pq_publish_spec (pq s) m n Hq Hlv Hn Hn1 Hm) as (q2 & E2 & Hq2 & Hh2 & Hf & Hc).
  { eapply Forall_impl; [exact Hh|]. cbn. lia. }
  rewrite E in E2. injection E2 as <-. apply frame_sinv; [done|done|done| |].
  - rewrite Hh2, Forall_app, Forall_singleton. destruct Hf as (F1 & _). unfold level_of in *. rewrite F1. split; [|by split].
    eapply Forall_impl; [exact Hh|]. cbn. intros h [? ?]. split; [done|lia].
  - intros x off. apply frame_reader; [done| | |].
    + intros l k Hk. rewrite Hc. destruct (decide (l = level_of (pq s) m)) as [->|].
      * rewrite list_lookup_insert_eq by (by eapply lookup_lt_Some). exists (n + 1). split; [done|]. assert (k = n) by congruence. lia.
      * rewrite list_lookup_insert_ne by done. exists k. split; [done|lia].
    + intros l. rewrite Hc, !lookup_lt_is_Some. by rewrite length_insert.
    + intros h. rewrite Hh2, elem_of_app, list_elem_of_singleton. intros [Hin| ->] Ha Ho; [left; by exists h|right]. exists n. cbn. split; [done|lia].
Qed.

Lemma acquire_sinv s m q' :
  SInv s -> m ∈ live_messages (pq s) -> pq_write (getSequence m) (setState ACQUIRED) (pq s) = (q', Ret tt) ->
  SInv (mkSystem q' (readers s) (top s)).
Proof.
  intros Hs Hm E. destruct (live_holders s m Hs Hm) as (h & Hh & <- & _). pose proof (si_holders _ Hs) as Hhs.
  destruct (pq_write_spec (pq s) h (setState ACQUIRED) (si_pq _ Hs) Hh) as (q2 & E2 & Hq2 & Hh2 & Hf & Hc); [done|by right|].
  rewrite E in E2. injection E2 as <-. apply frame_sinv; [done|done|done| |].
  - rewrite Hh2, Forall_map. destruct Hf as (F1 & _). unfold level_of in *. rewrite F1. eapply Forall_impl; [exact Hhs|]. cbn. intros h' [A B].
    unfold at_address. by destruct (decide (address h' = address h)).
  - intros x off. destruct (same_counters _ _ Hc) as [C1 C2]. apply frame_reader; [done|done|done|]. intros h'. rewrite Hh2.
    intros (h0 & -> & Hin)%list_elem_of_fmap Ha Ho. left. exists h0. unfold at_address in *. by destruct (decide (address h0 = address h)).
Qed.

Lemma delete_sinv s c q' b :
  SInv s -> c_valid c = true -> seq_ok (position c) -> pq_deleted c (pq s) = (q', Ret b) -> SInv (mkSystem q' (readers s) (top s)).
Proof.
  intros Hs Hc Hp E. pose proof (si_holders _ Hs) as Hhs. destruct (pq_deleted_spec (pq s) c (si_pq _ Hs) Hc Hp) as (q2 & E2 & Hq2 & Hh2 & Hf & Hcn).
  rewrite E in E2. injection E2 as <- _. apply frame_sinv; [done|done|done| |].
  - rewrite Hh2. destruct Hf as (F1 & _). unfold level_of in *. rewrite F1. rewrite Forall_forall in *. intros h [_ Hh]%list_elem_of_filter. by apply Hhs.
  - intros x off. destruct (same_counters _ _ Hcn) as [C1 C2]. apply frame_reader; [done|done|done|]. intros h. rewrite Hh2.
    intros [_ Hin]%list_elem_of_filter Ha Ho. left. by exists h.
Qed.

Lemma release_sinv s c m q' r :
  SInv s -> c_valid c = true -> m ∈ live_messages (pq s) -> getSequence m = position c ->
  version (fifo (pq s)) < INT_MAX -> Forall (fun d => version d < INT_MAX) (p_levels (pq s)) -> pq_release c (pq s) = (q', Ret r) ->
  SInv (mkSystem q' ((fun p => (p.1, filter (fun n => n <> position c) p.2)) <$> readers s) (top s)).
Proof.
  intros Hs Hc Hm Hp Hvf Hvd E. pose proof (si_pq _ Hs) as Hq. destruct (live_holders s m Hs Hm) as (h & Hh & <- & _).
  destruct (holders_level (pq s) h Hq Hh) as (d & Hd & _). rewrite Forall_forall in Hvd.
  destruct (pq_release_spec (pq s) c h d Hq Hc Hh Hp Hd) as (q2 & E2 & Hq2 & Hh2 & F1 & F2 & F3 & F4 & Hcn & F5); [apply Hvd; by eapply list_elem_of_lookup_2|done|].
  rewrite E in E2. injection E2 as <- _. pose proof (si_holders _ Hs) as Hhs. destruct Hs as [H1 H2 H3 _ H5 H6].
  assert (Hlev : forall l d', p_levels q' !! l = Some d' -> exists d0, p_levels (pq s) !! l = Some d0 /\
    version d' = if decide (l = priority h) then version d0 + 1 else version d0).
  { intros l d' Hd'. specialize (F5 l). rewrite Hd' in F5. destruct (p_levels (pq s) !! l) as [d0|]; [|done]. exists d0. split; [done|].
    cbn in F5. injection F5 as ->. done. }
  assert (Hrs : forall k c0 off, ((fun p : Cursor * list Z => (p.1, filter (fun n => n <> position c) p.2)) <$> readers s) !! k = Some (c0, off) ->
    exists off0, readers s !! k = Some (c0, off0) /\ off = filter (fun n => n <> position c) off0).
  { intros k c0 off. rewrite lookup_fmap. intros ([c1 off1] & Hk & [= -> ->])%fmap_Some. eauto. }
  constructor; cbn [pq readers top]; [done|by rewrite F1, F2| | | |].
  - intros l d' Hd'. destruct (Hlev l d' Hd') as (d0 & Hd0 & ->). specialize (H3 l d0 Hd0). case_decide; lia.
  - rewrite Hh2, Forall_map. unfold level_of in *. rewrite F1. eapply Forall_impl; [exact Hhs|]. cbn. intros h' [A B].
    unfold at_address. by destruct (decide (address h' = address h)).
  - intros k c0 off (off0 & Hk & ->)%Hrs. destruct (H5 k c0 off0 Hk) as [A B]. split; [done|]. intros x Hx. rewrite F4. destruct (B x Hx) as [B1 B2]. split; [done|].
    revert B2. apply reader_ext; [done|by rewrite F3|]. intros l d' Hd'. destruct (Hlev l d' Hd') as (d0 & Hd0 & Ev). exists d0. split; [done|].
    intros pos (P1 & P2 & P3 & P4 & P5). split_and!; [done|done|rewrite Ev; case_decide; lia|by rewrite Hcn|]. intros h'. rewrite Hh2.
    intros (h0 & -> & Hin)%list_elem_of_fmap Hpr Ha Ho. destruct (decide (l = priority h)) as [->|Hl].
    + left. unfold reset. rewrite P1, Ev, bool_decide_true, (proj2 (Z.eqb_neq _ _)) by (done || lia). apply orb_true_r.
    + assert (Hne : address h0 <> address h) by (intros [= E1 _]; unfold at_address in Hpr; destruct (decide _); cbn in *; congruence).
      unfold at_address in *. rewrite decide_False in * by done. assert (Er : reset pos d' = reset pos d0) by (unfold reset; by rewrite Ev).
      rewrite Er. apply P5; try done. intros Hin'. apply Ho. apply list_elem_of_filter. split; [|done]. intros E'.
      apply Hne. f_equal. apply (holders_seq_inj (pq s)); [done..|congruence].
  - intros k k' c0 c1 o o' x (o0 & Hk & _)%Hrs (o1 & Hk' & _)%Hrs. by apply (H6 k k' c0 c1 o0 o1).
Qed.

Lemma read_sinv s k c off q' c' off' f x :
  SInv s -> readers s !! k = Some (c, off) -> read_to (pq s) f x c c' q' off' ->
  match context c with Some y => y = x | None => x = allocated (pq s) end -> SInv (mkSystem q' (<[k := (c', off')]> (readers s)) (top s)).
Proof.
  intros Hs Hk (R1 & R2 & R3 & R4 & R5 & R6 & R7 & R8 & R9) Hx. pose proof Hs as [H1 H2 H3 H4 H5 H6].
  destruct (same_queue_inv _ _ R1 H1) as [Hq' Hh']. pose proof R1 as (S1 & S2 & S3 & S4).
  assert (Hother : forall k0 c0 off0 y, k0 <> k -> readers s !! k0 = Some (c0, off0) -> context c0 = Some y -> y <> x).
  { intros k0 c0 off0 y Hne Hk0 Hy ->. destruct (context c) as [z|] eqn:Ez.
    - subst z. apply Hne. by apply (H6 k0 k c0 c off0 off x).
    - subst x. destruct (H5 k0 c0 off0 Hk0) as [_ B]. destruct (B _ Hy). lia. }
  constructor; cbn [pq readers top]; [done|by rewrite S1, R2; destruct H2|by rewrite S2| | |].
  - unfold level_of in *. by rewrite Hh', S1.
  - intros k0 c0 off0. destruct (decide (k0 = k)) as [->|Hne].
    + rewrite lookup_insert_eq. intros [= <- <-]. split; [rewrite R5; by apply (H5 k c off)|]. intros y Hy. assert (y = x) as -> by congruence. done.
    + rewrite lookup_insert_ne by done. intros Hk0. destruct (H5 k0 c0 off0 Hk0) as [A B]. split; [done|]. intros y Hy. destruct (B y Hy) as [B1 B2].
      split; [lia|]. apply (same_queue_reader (pq s)); [done|apply R9; by apply (Hother k0 c0 off0)|done].
  - intros k0 k1 c0 c1 o0 o1 y. destruct (decide (k0 = k)) as [->|N0], (decide (k1 = k)) as [->|N1]; rewrite ?lookup_insert_eq, ?lookup_insert_ne by done; try done.
    + intros [= <- <-] Hk1 Hy Hy1. destruct (Hother k1 c1 o1 y N1 Hk1 Hy1). congruence.
    + intros Hk0 [= <- <-] Hy Hy1. destruct (Hother k0 c0 o0 y N0 Hk0 Hy). congruence.
    + by apply (H6 k0 k1 c0 c1 o0 o1).
Qed.

Lemma subscribe_sinv s k t :
  SInv s -> readers s !! k = None -> t = CONSUMER \/ t = BROWSER -> SInv (mkSystem (pq s) (<[k := (new_Cursor t, [])]> (readers s)) (top s)).
Proof.
  intros [H1 H2 H3 H4 H5 H6] Hk Ht. constructor; cbn [pq readers top]; try done.
  - intros k0 c0 off0. destruct (decide (k0 = k)) as [->|Hne]; [rewrite lookup_insert_eq|rewrite lookup_insert_ne by done; by apply H5].
    intros [= <- <-]. by split.
  - intros k0 k1 c0 c1 o0 o1 y. destruct (decide (k0 = k)) as [->|N0], (decide (k1 = k)) as [->|N1]; rewrite ?lookup_insert_eq, ?lookup_insert_ne by done;
      try done; [by intros [= <- <-]|by intros _ [= <- <-]|by apply (H6 k0 k1 c0 c1 o0 o1)].
Qed.

Lemma next_result s k c off q' c' r :
  SInv s -> readers s !! k = Some (c, off) -> pq_next c (pq s) = (q', Ret (c', r)) ->
  exists has f1 p x l, (forall l, wanted (pq s) off l -> has l = true) /\ firstLevel (levels (pq s)) (policy (pq s)) = (f1, Ret p) /\
    pick (S (levels (pq s))) has (levels (pq s)) p p f1 = (policy q', Ret l) /\
    match context c with Some y => y = x | None => x = allocated (pq s) end /\
    match r with
    | Some m => l = Some (level_of (pq s) m) /\ read_to (pq s) (policy q') x c c' q' (getSequence m :: off) /\ given (pq s) off (level_of (pq s) m) m
    | None => l = None /\ read_to (pq s) (policy q') x c c' q' off
    end.
Proof.
  intros Hs Hk E. destruct (pq_next_reader s k c off Hs Hk) as (has & f1 & p & x & H1 & H2 & H3 & H4 & H5 & H6).
  exists has, f1, p, x. destruct (pick _ has _ p p f1) as [f2 [[l|]|e]].
  - destruct H6 as (q2 & c2 & m & E2 & R & G). rewrite E in E2. injection E2 as <- <- ->. exists (Some l). pose proof R as (_ & R2 & _). rewrite R2.
    pose proof G as (_ & G2 & _). rewrite G2. by split_and!.
  - destruct H6 as (q2 & c2 & E2 & R). rewrite E in E2. injection E2 as <- <- ->. exists None. pose proof R as (_ & R2 & _). rewrite R2. by split_and!.
  - by rewrite E in H6.
Qed.

Lemma step_sinv e s s' : SInv s -> step e s s' -> SInv s'.
Proof.
  intros Hs Hst. destruct Hst as [s k t Hk Ht|s m n q' Hm Ht Hn Hn1 E|s k c off q' c' m Hk E|s k c off q' c' Hk E|s m q' Hm E|s c m q' r Hc Hm Hp Hf Hd E|s c q' b Hc Hp E].
  - by apply subscribe_sinv.
  - by eapply publish_sinv.
  - destruct (next_result s k c off q' c' (Some m) Hs Hk E) as (has & f1 & p & x & l & _ & _ & _ & Hx & _ & R & _). by eapply read_sinv.
  - destruct (next_result s k c off q' c' None Hs Hk E) as (has & f1 & p & x & l & _ & _ & _ & Hx & _ & R). by eapply read_sinv.
  - by eapply acquire_sinv.
  - by eapply release_sinv.
  - by eapply delete_sinv.
Qed.

Lemma steps_sinv tr s s' : SInv s -> steps tr s s' -> SInv s'.
Proof. intros Hs Hst. induction Hst as [|s s1 s2 e tr Hst _ IH]; [done|]. apply IH. by eapply step_sinv. Qed.

Lemma new_sinv lv f : (0 < lv)%nat -> level_ok lv f -> SInv (new_System lv f).
Proof.
  intros Hlv Hf. assert (Hls : forall l d, replicate lv (new_IndexedDeque (T := MessageHolder)) !! l = Some d -> d = new_IndexedDeque).
  { intros l d Hd. by apply lookup_replicate in Hd as [-> _]. }
  assert (Hempty : forall T (E : DequeElem T), deque_ok (new_IndexedDeque (T := T))).
  { intros T E. constructor; [|done|constructor]. exists 0. by unfold contig, INT_MAX. }
  constructor; cbn [pq new_System new_PriorityQueue readers top levels policy p_levels]; try done.
  - constructor; cbn [pq new_System new_PriorityQueue levels p_levels fifo counters].
    + by rewrite length_replicate.
    + apply Hempty.
    + intros l d ->%Hls. apply Hempty.
    + intros l d Hd. pose proof (Hls l d Hd) as ->. apply lookup_lt_Some in Hd. rewrite length_replicate in Hd. exists 0.
      rewrite lookup_replicate_2 by done. split_and!; [done|done|constructor].
    + intros p a Hp. by apply elem_of_nil in Hp.
    + intros l d ->%Hls. done.
  - intros l d ->%Hls. done.
Qed.
End system.

(** ** Priority queues *)

(** C7: after any sequence of publications, reads by any number of consumers and
    browsers, acquisitions, releases and deletions, a read of a priority queue
    returns; it gives an available message, and none that is available and was
    not given to the reader before has a higher level, or the same level and an
    earlier place; it gives nothing only when the reader was given every available message *)
Theorem priority_order lv tr s k c off :
  (0 < lv)%nat -> steps tr (new_System lv Strict) s -> readers s !! k = Some (c, off) ->
  exists q' c' r, pq_next c (pq s) = (q', Ret (c', r)) /\
    match r with
    | Some m => m ∈ live_messages (pq s) /\ getState m = AVAILABLE /\
        forall m', m' ∈ live_messages (pq s) -> getState m' = AVAILABLE -> getSequence m' ∉ off ->
          (level_of (pq s) m' < level_of (pq s) m)%nat \/ level_of (pq s) m' = level_of (pq s) m /\ getSequence m <= getSequence m'
    | None => forall m', m' ∈ live_messages (pq s) -> getState m' = AVAILABLE -> getSequence m' ∈ off
    end.
Proof.
  intros Hlv Hst Hk. assert (Hs : SInv s) by (eapply steps_sinv; [|exact Hst]; by apply new_sinv).
  destruct (pq_next_reader s k c off Hs Hk) as (has & f1 & p & x & Hw & Hf & _ & Hp & _ & Hr). assert (p = (levels (pq s) - 1)%nat) as ->.
  { change ((policy (pq s), Ret (levels (pq s) - 1)%nat) = (f1, Ret p)) in Hf. by inversion Hf. }
  destruct (si_policy _ Hs) as [Hl _].
  destruct (strict_pick (S (levels (pq s))) has (levels (pq s)) (levels (pq s) - 1) (levels (pq s) - 1) f1) as (r & Er & Hpick); [lia|].
  assert (Hlev : forall m', m' ∈ live_messages (pq s) -> (level_of (pq s) m' <= levels (pq s) - 1)%nat).
  { intros m' _. pose proof (getPriorityLevel_lt (levels (pq s)) m' Hl). unfold level_of. lia. }
  rewrite Er in Hr. destruct r as [l|].
  - destruct Hr as (q' & c' & m & E & _ & (G1 & G2 & G3 & G4)). exists q', c', (Some m). split; [done|]. split_and!; [done|done|].
    intros m' M1 M2 M3. destruct Hpick as (P1 & P2 & P3). destruct (Nat.lt_trichotomy (level_of (pq s) m') l) as [Hlt|[Heq|Hgt]].
    + left. by rewrite G2.
    + right. rewrite G2. split; [done|]. by apply G4.
    + specialize (Hlev m' M1). specialize (P3 (level_of (pq s) m') ltac:(lia)).
      rewrite (Hw (level_of (pq s) m')) in P3; [done|]. by exists m'.
  - destruct Hr as (q' & c' & E & _). exists q', c', None. split; [done|]. intros m' M1 M2. destruct (decide (getSequence m' ∈ off)) as [|Hn]; [done|].
    specialize (Hpick (level_of (pq s) m') (Hlev m' M1)). rewrite Hw in Hpick; [done|]. by exists m'.
Qed.

(** ** Fair share queues *)

Section fairshare.
Implicit Types s : System Fairshare.

(** only reads change the policy *)
Lemma step_policy e s s' :
  SInv s -> step e s s' -> levels (pq s') = levels (pq s) /\
  match e with
  | Other => policy (pq s') = policy (pq s)
  | Empty => True
  | Took l w => exists has, (forall l, w l -> has l = true) /\ serve (levels (pq s)) has (policy (pq s)) = (policy (pq s'), Ret (Some l))
  end.
Proof.
  intros Hs Hst. pose proof (si_pq _ Hs) as Hq. pose proof (si_policy _ Hs) as [Hlv _].
  destruct Hst as [s k t Hk Ht|s m n q' Hm Ht Hn Hn1 E|s k c off q' c' m Hk E|s k c off q' c' Hk E|s m q' Hm E|s c m q' r Hc Hm Hp Hf Hd E|s c q' b Hc Hp E];
    cbn [pq].
  - done.
  - destruct (pq_publish_spec (pq s) m n Hq Hlv Hn Hn1 Hm) as (q2 & E2 & _ & _ & F & _).
    { eapply Forall_impl; [exact (si_holders _ Hs)|]. cbn. lia. }
    rewrite E in E2. injection E2 as <-. by destruct F as (F1 & F2 & _).
  - destruct (next_result s k c off q' c' (Some m) Hs Hk E) as (has & f1 & p & x & l & Hw & Hf & Hpk & _ & -> & R & _).
    split; [by destruct R as [(R & _) _]|]. exists has. split; [done|]. unfold serve, mbind, M_bind. by rewrite Hf.
  - destruct (next_result s k c off q' c' None Hs Hk E) as (has & f1 & p & x & l & _ & _ & _ & _ & _ & R). by destruct R as [(R & _) _].
  - destruct (live_holders s m Hs Hm) as (h & Hh & <- & _).
    destruct (pq_write_spec (pq s) h (setState ACQUIRED) Hq Hh) as (q2 & E2 & _ & _ & F & _); [done|by right|].
    rewrite E in E2. injection E2 as <-. by destruct F as (F1 & F2 & _).
  - destruct (live_holders s m Hs Hm) as (h & Hh & <- & _). destruct (holders_level (pq s) h Hq Hh) as (d & Hl & _). rewrite Forall_forall in Hd.
    destruct (pq_release_spec (pq s) c h d Hq Hc Hh Hp Hl) as (q2 & E2 & _ & _ & F1 & F2 & _); [apply Hd; by eapply list_elem_of_lookup_2|done|].
    rewrite E in E2. by injection E2 as <- _.
  - destruct (pq_deleted_spec (pq s) c Hq Hc Hp) as (q2 & E2 & _ & _ & F & _). rewrite E in E2. injection E2 as <- _. by destruct F as (F1 & F2 & _).
Qed.

Lemma serve_limits lv has f f' r : limited lv f -> serve lv has f = (f', Ret r) -> limits f' = limits f.
Proof.
  intros Hf. pose proof Hf as [Hok _]. pose proof Hok as (H1 & H2 & H3 & H4). unfold serve, mbind, M_bind.
  rewrite fair_first by (done || by apply (limit_pos lv)).
  assert (Hp : (pred_level lv (f_priority f) < lv)%nat) by (unfold pred_level; destruct (f_priority f) eqn:?; lia).
  assert (Hlim : limit f (f_priority f) < 2 ^ 32 - 1).
  { unfold limit. destruct (limits f !! f_priority f) eqn:E; cbn; [|lia]. rewrite Forall_forall in H3. apply H3. by eapply list_elem_of_lookup_2. }
  destruct (Z.leb_spec (limit f (f_priority f)) (count f)).
  - destruct (fair_pick (S lv) has lv (pred_level lv (f_priority f)) (mkFairshare (limits f) (pred_level lv (f_priority f)) 1))
      as (f2 & r2 & Er & El & _); [by split_and!|done|lia|]. cbn [f_priority] in Er. rewrite Er. by intros [= <- _].
  - destruct (fair_pick (S lv) has lv (f_priority f) (mkFairshare (limits f) (f_priority f) (count f + 1)))
      as (f2 & r2 & Er & El & _); [split_and!; cbn; try done; lia|done|lia|]. cbn [f_priority] in Er. rewrite Er. by intros [= <- _].
Qed.

(** no operation changes a limit *)
Definition has_limits (lv : nat) (ls : list Z) s : Prop :=
  SInv s /\ levels (pq s) = lv /\ limits (policy (pq s)) = ls /\ limited lv (policy (pq s)).

Lemma step_limits lv ls e s s' : has_limits lv ls s -> step e s s' -> has_limits lv ls s'.
Proof.
  intros (Hs & Hlv & Hls & Hlim) Hst. pose proof (step_sinv e s s' Hs Hst) as Hs'. destruct (step_policy e s s' Hs Hst) as [El Hp].
  assert (Hl : limits (policy (pq s')) = ls).
  { destruct e as [| |l w]; [by rewrite Hp| |destruct Hp as (has & _ & E); rewrite Hlv in E; by rewrite (serve_limits _ _ _ _ _ Hlim E)].
    inversion Hst as [| | |s0 k c off q' c' Hk E| | |]; subst.
    destruct (next_result s k c off q' c' None Hs Hk E) as (has & f1 & p & x & l & _ & Hf & Hpk & _).
    cbn [pq]. apply (serve_limits (levels (pq s)) has _ _ l Hlim). unfold serve, mbind, M_bind. by rewrite Hf. }
  split_and!; [done|by rewrite El|done|]. split; [rewrite <- Hlv, <- El; apply (si_policy _ Hs')|]. rewrite Hl, <- Hls. apply Hlim.
Qed.

Lemma steps_limits lv ls tr s s' : has_limits lv ls s -> steps tr s s' -> has_limits lv ls s'.
Proof. intros Hs Hst. induction Hst as [|s s1 s2 e tr Hst _ IH]; [done|]. apply IH. by eapply step_limits. Qed.

(** the messages read *)
Definition taken (tr : list Label) : Z := foldr (fun e n => match e with Took _ _ => n + 1 | _ => n end) 0 tr.

(** a read passes the level [j] by, that has a message for the reader *)
Definition passes (j : nat) (e : Label) : Prop :=
  match e with Other => True | Empty => False | Took l w => l <> j /\ w j end.

(** a read is from the level [l], and another level has a message for the reader *)
Definition stays (lv l : nat) (e : Label) : Prop :=
  match e with Other => True | Empty => False | Took l' w => l' = l /\ exists j, (j < lv)%nat /\ j <> l /\ w j end.

Lemma passes_patience lv ls tr s s' j :
  has_limits lv ls s -> (j < lv)%nat -> steps tr s s' -> Forall (passes j) tr -> taken tr + patience lv (policy (pq s')) j <= patience lv (policy (pq s)) j.
Proof.
  intros Hs Hj Hst. induction Hst as [s|s s1 s2 e tr Hst _ IH]; intros Ht; [cbn; lia|]. apply Forall_cons in Ht as [He Ht].
  specialize (IH (step_limits lv ls e s s1 Hs Hst) Ht). destruct Hs as (Hs & Hlv & _ & Hlim). destruct (step_policy e s s1 Hs Hst) as [_ Hp].
  cbn [taken foldr]. fold (taken tr). destruct e as [| |l w]; [rewrite Hp in IH; lia|done|]. destruct He as [Hne Hw], Hp as (has & Hh & E). rewrite Hlv in E.
  pose proof (patience_drops lv has _ _ l j Hlim E Hj (Hh j Hw) Hne). lia.
Qed.

Lemma stays_quota lv ls tr s s' l :
  has_limits lv ls s -> steps tr s s' -> Forall (stays lv l) tr -> taken tr + quota (policy (pq s')) l <= quota (policy (pq s)) l.
Proof.
  intros Hs Hst. induction Hst as [s|s s1 s2 e tr Hst _ IH]; intros Ht; [cbn; lia|]. apply Forall_cons in Ht as [He Ht].
  specialize (IH (step_limits lv ls e s s1 Hs Hst) Ht). destruct Hs as (Hs & Hlv & _ & Hlim). destruct (step_policy e s s1 Hs Hst) as [_ Hp].
  cbn [taken foldr]. fold (taken tr). destruct e as [| |l' w]; [rewrite Hp in IH; lia|done|]. destruct He as [-> (j & Hj & Hne & Hw)], Hp as (has & Hh & E). rewrite Hlv in E.
  pose proof (quota_drops lv has _ _ l j Hlim E Hj (Hh j Hw) Hne). lia.
Qed.

(** what [create] makes *)
Lemma create_limits lv d fs :
  limits (create_Fairshare lv d fs) = map (fun i => default d (fs !! i)) (seq 0 lv) /\
  f_priority (create_Fairshare lv d fs) = (lv - 1)%nat /\ count (create_Fairshare lv d fs) = 0.
Proof.
  unfold create_Fairshare. assert (H : forall n, (n <= lv)%nat ->
    let f := foldl (fun f i => match fs !! i with Some l => setLimit i l f | None => f end) (new_Fairshare lv d) (seq 0 n) in
    limits f = map (fun i => default d (fs !! i)) (seq 0 n) ++ replicate (lv - n) d /\ f_priority f = (lv - 1)%nat /\ count f = 0).
  { induction n as [|n IH]; intros Hn; [by rewrite Nat.sub_0_r|]. rewrite seq_S, foldl_app, map_app. cbn [Nat.add foldl map].
    destruct IH as (I1 & I2 & I3); [lia|]. assert (Hlen : length (map (fun i => default d (fs !! i)) (seq 0 n)) = n) by (rewrite length_map, length_seq; done).
    replace (lv - n)%nat with (S (lv - S n)) in I1 by lia. cbn [replicate] in I1.
    destruct (fs !! n) as [l|]; cbn [default from_option id setLimit limits f_priority count].
    - rewrite I1, insert_app_r_alt, Hlen, Nat.sub_diag, <- app_assoc by lia. by split_and!.
    - rewrite I1, <- app_assoc. by split_and!. }
  destruct (H lv (le_n lv)) as (H1 & H2 & H3). rewrite Nat.sub_diag, app_nil_r in H1. by split_and!.
Qed.

Lemma create_limited lv d fs :
  (0 < lv)%nat -> 0 < d < 2 ^ 32 - 1 -> (forall i l, fs !! i = Some l -> 0 < l < 2 ^ 32 - 1) -> limited lv (create_Fairshare lv d fs).
Proof.
  intros Hlv Hd Hfs. destruct (create_limits lv d fs) as (H1 & H2 & H3).
  assert (Hall : Forall (fun l => 0 < l < 2 ^ 32 - 1) (limits (create_Fairshare lv d fs))).
  { rewrite H1, Forall_map. apply Forall_forall. intros i _. destruct (fs !! i) eqn:E; [by eapply Hfs|done]. }
  split; [|by eapply Forall_impl; [exact Hall|cbn; lia]].
  split_and!; [rewrite H1, length_map, length_seq; done|rewrite H2; lia|by eapply Forall_impl; [exact Hall|cbn; lia]|rewrite H3; lia..].
Qed.
End fairshare.

(** C21: on a fair share queue whose levels all have a limit, after any sequence of
    operations by any number of readers: while no read finds nothing, a level that has a message for each
    reader that reads is passed by at most as often as the other levels have limits in sum, and a
    level is read from at most as often in a row as its limit says while other levels have messages *)
Theorem fairshare_fair lv d fs tr0 s tr s' :
  (0 < lv)%nat -> 0 < d < 2 ^ 32 - 1 -> (forall i l, fs !! i = Some l -> 0 < l < 2 ^ 32 - 1) ->
  steps tr0 (new_System lv (create_Fairshare lv d fs)) s -> steps tr s s' ->
  (forall j, (j < lv)%nat -> Forall (passes j) tr -> taken tr <= others lv (create_Fairshare lv d fs) j) /\
  (forall l, (l < lv)%nat -> Forall (stays lv l) tr -> taken tr <= default d (fs !! l)).
Proof.
  intros Hlv Hd Hfs Hst0 Hst. set (f := create_Fairshare lv d fs) in *. pose proof (create_limited lv d fs Hlv Hd Hfs) as Hlim. fold f in Hlim.
  assert (Hs : has_limits lv (limits f) s).
  { eapply steps_limits; [|exact Hst0]. split_and!; try done. apply new_sinv; [done|apply Hlim]. }
  pose proof (steps_limits lv (limits f) tr s s' Hs Hst) as (_ & _ & El' & Hlim'). pose proof Hs as (_ & _ & El & Hlims).
  assert (Ef : limit (policy (pq s)) = limit f) by (by apply limit_same). split.
  - intros j Hj Ht. pose proof (passes_patience lv _ tr s s' j Hs Hj Hst Ht). pose proof (patience_bounds lv _ j Hlim').
    pose proof (patience_bounds lv _ j Hlims) as Hb. unfold others in *. rewrite Ef in Hb. lia.
  - intros l Hl Ht. pose proof (stays_quota lv _ tr s s' l Hs Hst Ht) as Hq. pose proof (limit_pos lv _ l Hlims Hl) as Hpos.
    pose proof (limit_pos lv _ l Hlim' Hl) as Hpos'. unfold quota in Hq.
    assert (Hc : 0 <= count (policy (pq s))) by (destruct Hlims as [(_ & _ & _ & ?) _]; lia).
    assert (Hc' : 0 <= count (policy (pq s'))) by (destruct Hlim' as [(_ & _ & _ & ?) _]; lia).
    assert (E : limit f l = default d (fs !! l)).
    { unfold limit, f. rewrite (proj1 (create_limits lv d fs)), list_lookup_fmap, lookup_seq_lt by done. done. }
    rewrite <- E, <- Ef. repeat case_decide; lia.
Qed.

(** ** Runs *)

Definition prio_msg (i : nat) (p : Z) : Message := mkMessage (mkEncoding i false p 10 [] [] false) (Z.of_nat i) AVAILABLE (-1) false [].

(** messages published in order, with the priorities given *)
Definition publish_all {F} `{!Levels F} (ps : list Z) (q : PriorityQueue F) : PriorityQueue F :=
  foldl (fun q ip => (pq_publish (prio_msg (S ip.1) ip.2) q).1) q (zip (seq 0 (length ps)) ps).

(** a read: the queue, the cursor and the number of the message *)
Definition read {F} `{!Levels F} (qc : PriorityQueue F * Cursor) : PriorityQueue F * Cursor * option Z :=
  match pq_next qc.2 qc.1 with
  | (q, Ret (c, r)) => ((q, c), getSequence <$> r)
  | (q, Throw _) => ((q, qc.2), None)
  end.

Definition read_all {F} `{!Levels F} (n : nat) (qc : PriorityQueue F * Cursor) : PriorityQueue F * Cursor * list (option Z) :=
  Nat.iter n (fun r => let '(qc, o) := read r.1 in (qc, r.2 ++ [o])) (qc, []).

Definition two_published : System strict := mkSystem (publish_all [0; 9] (new_PriorityQueue 10 Strict)) {[0%nat := (new_Cursor CONSUMER, [])]} 2.

Lemma priority_order_witness :
  exists q' c' r, pq_next (new_Cursor CONSUMER) (pq two_published) = (q', Ret (c', r)) /\
    match r with
    | Some m => m ∈ live_messages (pq two_published) /\ getState m = AVAILABLE /\
        forall m', m' ∈ live_messages (pq two_published) -> getState m' = AVAILABLE -> getSequence m' ∉ [] ->
          (level_of (pq two_published) m' < level_of (pq two_published) m)%nat \/
          level_of (pq two_published) m' = level_of (pq two_published) m /\ getSequence m <= getSequence m'
    | None => forall m', m' ∈ live_messages (pq two_published) -> getState m' = AVAILABLE -> getSequence m' ∈ []
    end.
Proof.
  apply (priority_order 10 [Other; Other; Other] two_published 0%nat (new_Cursor CONSUMER) []).
  - lia.
  - eapply steps_step; [apply (step_subscribe _ 0%nat CONSUMER); [reflexivity|by left]|].
    eapply steps_step; [apply (step_publish _ (prio_msg 1 0) 0 (publish_all [0] (new_PriorityQueue 10 Strict))); by vm_compute|].
    eapply steps_step; [apply (step_publish _ (prio_msg 2 9) 0 (publish_all [0; 9] (new_PriorityQueue 10 Strict))); by vm_compute|].
    apply steps_refl.
  - reflexivity.
Defined.

(** two levels, with a limit of one message each *)
Definition fair_one : Fairshare := create_Fairshare 2 1 ∅.
Definition fair_published : System Fairshare := mkSystem (publish_all [9; 9; 0] (new_PriorityQueue 2 fair_one)) {[0%nat := (new_Cursor CONSUMER, [])]} 3.
Definition fair_read : System Fairshare :=
  let r := read (pq fair_published, new_Cursor CONSUMER) in mkSystem r.1.1 (<[0%nat := (r.1.2, [1])]> (readers fair_published)) (top fair_published).

Lemma fairshare_fair_witness :
  let tr := [Took 1 (wanted (pq fair_published) [])] in
  ((forall j, (j < 2)%nat -> Forall (passes j) tr -> taken tr <= others 2 fair_one j) /\
  (forall l, (l < 2)%nat -> Forall (stays 2 l) tr -> taken tr <= default 1 ((∅ : gmap nat Z) !! l))) /\
  Forall (passes 0) tr /\ Forall (stays 2 1) tr.
Proof.
  intros tr. assert (Hw : wanted (pq fair_published) [] 0).
  { exists (prio_msg 3 0). split_and!; [|done|done|apply not_elem_of_nil]. apply (bool_decide_unpack _). by vm_compute. }
  split.
  - apply (fairshare_fair 2 1 ∅ [Other; Other; Other; Other] fair_published tr fair_read); [lia|lia|done| |].
    + eapply steps_step; [apply (step_subscribe _ 0%nat CONSUMER); [reflexivity|by left]|].
      eapply steps_step; [apply (step_publish _ (prio_msg 1 9) 0 (publish_all [9] (new_PriorityQueue 2 fair_one))); by vm_compute|].
      eapply steps_step; [apply (step_publish _ (prio_msg 2 9) 1 (publish_all [9; 9] (new_PriorityQueue 2 fair_one))); by vm_compute|].
      eapply steps_step; [apply (step_publish _ (prio_msg 3 0) 0 (publish_all [9; 9; 0] (new_PriorityQueue 2 fair_one))); by vm_compute|].
      apply steps_refl.
    + eapply steps_step; [|apply steps_refl]. assert (El : level_of (pq fair_published) (prio_msg 1 9) = 1%nat) by by vm_compute. rewrite <- El.
      apply (step_next fair_published 0%nat (new_Cursor CONSUMER) [] (read (pq fair_published, new_Cursor CONSUMER)).1.1
        (read (pq fair_published, new_Cursor CONSUMER)).1.2 (prio_msg 1 9)); by vm_compute.
  - split; (apply Forall_singleton; split; [done|]); [done|]. exists 0%nat. by split_and!; [lia| |].
Defined.

(** reads in turn by two readers *)
Fixpoint alternate (n : nat) (q : PriorityQueue Fairshare) (a b : Cursor) : list (option Z * option Z) :=
  match n with
  | O => []
  | S n => let r1 := read (q, a) in let r2 := read (r1.1.1, b) in (r1.2, r2.2) :: alternate n r2.1.1 r1.1.2 r2.1.2
  end.

Lemma max_limit c :
  firstLevel 2 (mkFairshare [2 ^ 32 - 1; 2 ^ 32 - 1] 1 c) = (mkFairshare [2 ^ 32 - 1; 2 ^ 32 - 1] 1 (u32 (c + 1)), Ret 1%nat).
Proof.
  cbn [firstLevel Fairshare_Levels]. unfold currentLevel, limitReached, mbind, M_bind, get, gets, modify, mret, M_ret.
  cbn [limits f_priority lookup list_lookup count]. change (2 ^ 32 - 1 =? 0) with false. cbn iota.
  rewrite (proj2 (Z.ltb_ge _ _)); [done|]. pose proof (Z.mod_pos_bound (c + 1) (2 ^ 32) eq_refl). unfold uwrap. lia.
Qed.

Lemma max_limit_iter n :
  exists c, Nat.iter n (fun f => (firstLevel 2 f).1) (create_Fairshare 2 (2 ^ 32 - 1) ∅) = mkFairshare [2 ^ 32 - 1; 2 ^ 32 - 1] 1 c.
Proof. induction n as [|n [c IH]]; [by exists 0|]. exists (u32 (c + 1)). by rewrite Nat.iter_succ, IH, max_limit. Qed.

(**  limits of priority queues, on small runs.  A consumer without credit is given its old
    cursor back, but not its position on the levels: it does not see that message again.  A
    browser does not get messages in the order of publication, and gets a message
    twice when it is released; a purge does not get an acquired message.  The
    release of a message that was deleted follows a null pointer.  A reader that finds nothing
    resets the count of a level: with a limit of three, five messages of a level are read in a row
    while another level has messages.  A limit of 2^32-1 is never reached *)
Theorem priority_flaws :
  (let r1 := read (publish_all [9; 9; 9] (new_PriorityQueue 10 Strict), new_Cursor CONSUMER) in
   let r2 := read r1.1 in
   [r1.2; r2.2; (read (r2.1.1, r1.1.2)).2] = [Some 1; Some 2; Some 3]) /\
  (let b := read_all 3 (publish_all [0; 9; 5] (new_PriorityQueue 10 Strict), new_Cursor BROWSER) in
   b.2 = [Some 2; Some 3; Some 1] /\
   (read ((pq_release (mkCursor CONSUMER 2 0 true) b.1.1).1, b.1.2)).2 = Some 2) /\
  (let q := (pq_write 2 (setState ACQUIRED) (publish_all [0; 0] (new_PriorityQueue 10 Strict))).1 in
   (read_all 2 (q, new_Cursor PURGE)).2 = [Some 1; None] /\
   (next (new_QueueCursor PURGE) (mkDeque [setState ACQUIRED (prio_msg 1 0)] 0 0)).2 =
     Ret (mkCursor PURGE 1 0 true, Some (setState ACQUIRED (prio_msg 1 0)))) /\
  (let c := mkCursor CONSUMER 2 0 true in
   (pq_release c (pq_deleted c (publish_all [9; 9] (new_PriorityQueue 10 Strict))).1).2 = Throw UndefinedBehaviour) /\
  (let b := read_all 10 (publish_all [9; 9; 9; 9; 9; 0; 0; 0; 0; 0] (new_PriorityQueue 2 (create_Fairshare 2 3 ∅)), new_Cursor BROWSER) in
   alternate 10 b.1.1 (new_Cursor CONSUMER) b.1.2 =
     [(Some 6, None); (Some 1, None); (Some 2, None); (Some 3, None); (Some 4, None); (Some 5, None);
      (Some 7, None); (Some 8, None); (Some 9, None); (Some 10, None)]) /\
  forall n, (firstLevel 2 (Nat.iter n (fun f => (firstLevel 2 f).1) (create_Fairshare 2 (2 ^ 32 - 1) ∅))).2 = Ret 1%nat.
Proof.
  do 5 (split; [by repeat split; vm_compute|]). intros n. destruct (max_limit_iter n) as [c ->]. by rewrite max_limit.
Qed.
