(* ===== verification/Queue.v ===== *)
(** * The queue (src/qpid/broker/Queue.cpp, QueueListeners.cpp, FifoDistributor.cpp)

    A queue keeps its messages in a container ([Messages]), hands them to
    consumers that read with cursors, and tells its distributor and observers
    about every change.  One definition per member function that touches the
    messages, with the calls in the order of the code.  What the queue takes
    from elsewhere is in two classes: [QueueEnv] is the distributor and the
    observers (the flow limit and the group manager are instances), [Hooks] is
    the code of other components the queue passes messages through
    (interceptors, annotations, the clock, the acceptance test, the store).

    A pointer to a message is its sequence number.  Calls on consumers, the
    store, other exchanges and queues and the auto-deletion check are recorded
    in [events]; those on the store, exchanges and queues may throw ([call]),
    whatever was called before.  The two loops take a bound on their rounds;
    the theorems show that any bound above the number of messages is enough.
    A consumer is passed by value: what a call that throws did to its cursor
    is not in the result.  Management statistics are left out. *)

From Stdlib Require Import ZArith Lia Ascii String.
From S2P Require Import Prelude SequenceNumber FlowLimit Messages.
Import QueueDepth.

(** ** The distributor and the observers *)

Class QueueEnv (E : Type) := {
  (** [MessageDistributor::acquire]: the state of the message, which is passed
      by reference, after the call, and the answer *)
  env_acquire : str -> Message -> M E (MessageState * bool);
  env_enqueued : Message -> M E unit;
  env_acquired : Message -> M E unit;
  env_requeued : Message -> M E unit;
  env_dequeued : Message -> M E unit
}.

(** [FifoDistributor::acquire] *)
Definition fifo_acquire {E} (_ : str) (m : Message) : M E (MessageState * bool) :=
  if decide (getState m = AVAILABLE) then mret (ACQUIRED, true) else mret (getState m, false).

(** ** Code of other components *)

(** the calls on them *)
Inductive Event :=
| Notify (consumer : nat)
| StoreEnqueue (id : nat)
| StoreDequeue (id : nat)
| StoreFlush
| StoreDestroy
| Unbind
| TimerAdd
| TimerCancel
| TryAutoDelete
| ConsumerAdded (consumer : nat)
| ConsumerRemoved (consumer : nat)
| ObserversDestroyed
| DecAlternateUsers (exchange : nat)
| Deliver (consumer : nat) (m : Message)
| Route (exchange : nat) (m : Message)
| DeliverTo (queue : nat) (m : Message).

Class Hooks := {
  (** [Message::isLocalTo] *)
  isLocalTo : Message -> option nat -> bool;
  (** the queue's selector, true when it has none *)
  selector_filter : Message -> bool;
  hasExpired : Message -> bool;
  intercept_record : Message -> Message;
  intercept_publish : Message -> Message;
  (** what [MessageStore::enqueue] throws, if it does *)
  store_enqueue : Message -> option exn;
  (** what any other call on the store, on an exchange or on another queue
      throws, if it does: it may depend on the calls before *)
  call_throws : list Event -> Event -> option exn
}.

(** ** State *)

Record QueueListeners := mkListeners {
  l_consumers : list nat; l_browsers : list nat; inListeners : list nat
}.

Record Consumer := mkConsumer {
  c_id : nat; c_name : str; acquires : bool; isCounted : bool; getSession : nat;
  hideDeletedError : bool; getCursor : QueueCursor
}.

Definition setCursor (c : Consumer) (qc : QueueCursor) : Consumer :=
  mkConsumer (c_id c) (c_name c) (acquires c) (isCounted c) (getSession c) (hideDeletedError c) qc.

(** [QueueUsers]: the counters are [uint32_t] *)
Record QueueUsers := mkUsers { consumers : Z; browsers : Z; others : Z; controller : bool }.

Definition new_QueueUsers : QueueUsers := mkUsers 0 0 0 false.
Definition isUsed (u : QueueUsers) : bool :=
  controller u || negb (consumers u =? 0) || negb (browsers u =? 0) || negb (others u =? 0).
Definition hasConsumers (u : QueueUsers) : bool := negb (consumers u =? 0).
Definition getSubscriberCount (u : QueueUsers) : Z := u32 (consumers u + browsers u).
Definition addConsumer (u : QueueUsers) : QueueUsers :=
  mkUsers (u32 (consumers u + 1)) (browsers u) (others u) (controller u).
Definition addBrowser (u : QueueUsers) : QueueUsers :=
  mkUsers (consumers u) (u32 (browsers u + 1)) (others u) (controller u).
Definition addOther (u : QueueUsers) : QueueUsers :=
  mkUsers (consumers u) (browsers u) (u32 (others u + 1)) (controller u).
(** the functions with an assertion *)
Definition addLifecycleController (u : QueueUsers) : outcome QueueUsers :=
  if controller u then Throw AssertionFailed
  else Ret (mkUsers (consumers u) (browsers u) (others u) true).
Definition removeConsumer (u : QueueUsers) : outcome QueueUsers :=
  if 0 <? consumers u then Ret (mkUsers (u32 (consumers u - 1)) (browsers u) (others u) (controller u))
  else Throw AssertionFailed.
Definition removeBrowser (u : QueueUsers) : outcome QueueUsers :=
  if 0 <? browsers u then Ret (mkUsers (consumers u) (u32 (browsers u - 1)) (others u) (controller u))
  else Throw AssertionFailed.
Definition removeLifecycleController (u : QueueUsers) : outcome QueueUsers :=
  if controller u then Ret (mkUsers (consumers u) (browsers u) (others u) false)
  else Throw AssertionFailed.
Definition removeOther (u : QueueUsers) : outcome QueueUsers :=
  if 0 <? others u then Ret (mkUsers (consumers u) (browsers u) (u32 (others u - 1)) (controller u))
  else Throw AssertionFailed.

(** [LifetimePolicy] *)
Inductive LifetimePolicy := DELETE_IF_UNUSED | DELETE_IF_EMPTY | DELETE_IF_UNUSED_AND_EMPTY | DELETE_ON_CLOSE.

Record QueueSettings := mkSettings {
  maxDepth : QueueDepth;
  autodelete : bool;
  lifetime : LifetimePolicy;
  autoDeleteDelay : Z;
  isBrowseOnly : bool;
  priorities : Z;
  noLocal : bool;
  traceId : str;
  traceExclude : list str;
  (** [sequencing] and [sequenceKey] *)
  sequenceKey : option str
}.

(** who holds the queue *)
Record Usage := mkUsage {
  owner : option nat;
  users : QueueUsers;
  exclusive : option nat;
  alternateExchange : option nat;
  autoDeleteTask : bool
}.

(** [eligible] is the flag of the [ScopedAutoDelete] in scope *)
Record Queue (S E : Type) := mkQueue {
  messages : S;
  env : E;
  sequence : Z;
  current : QueueDepth;
  listeners : QueueListeners;
  deleted : bool;
  settings : QueueSettings;
  store : bool;
  usage : Usage;
  eligible : bool;
  events : list Event
}.
Arguments mkQueue {S E} _ _ _ _ _ _ _ _ _ _ _.
Arguments messages {S E} _.
Arguments env {S E} _.
Arguments sequence {S E} _.
Arguments current {S E} _.
Arguments listeners {S E} _.
Arguments deleted {S E} _.
Arguments settings {S E} _.
Arguments store {S E} _.
Arguments usage {S E} _.
Arguments eligible {S E} _.
Arguments events {S E} _.

(** a publication in a transaction *)
Record TxPublish := mkTxPublish { tx_message : Message; prepared : bool }.

Definition new_TxPublish (m : Message) : TxPublish := mkTxPublish m false.

(** [merge]: the broker's limit in bytes is the default; a limit of 0 is none *)
Definition merge (maxDepth : QueueDepth) (queueLimit : Z) : QueueDepth :=
  let d := new_QueueDepth in
  let d := if hasCount maxDepth && negb (getCount maxDepth =? 0) then setCount (getCount maxDepth) d else d in
  if hasSize maxDepth then
    if negb (getSize maxDepth =? 0) then setSize (getSize maxDepth) d else d
  else if negb (queueLimit =? 0) then setSize queueLimit d else d.

(** the constructor, of a queue of a broker with the given limit *)
Definition new_Queue {S E} (s : S) (e : E) (st : QueueSettings) (queueLimit : Z) (store : bool) : Queue S E :=
  let max := merge (maxDepth st) queueLimit in
  let st := mkSettings max (autodelete st) (lifetime st) (autoDeleteDelay st) (isBrowseOnly st)
              (priorities st) (noLocal st) (traceId st) (traceExclude st) (sequenceKey st) in
  let current := setCount 0 new_QueueDepth in
  let current := if negb (getSize max =? 0) then setSize 0 current else current in
  mkQueue s e 0 current (mkListeners [] [] []) false st store
    (mkUsage None new_QueueUsers None None false) false [].

Section queue.
Context {S E : Type} `{!Messages S, !QueueEnv E, !Hooks}.

Abbreviation Op := (M (Queue S E)).

Definition set_messages (x : S) (q : Queue S E) : Queue S E :=
  mkQueue x (env q) (sequence q) (current q) (listeners q) (deleted q) (settings q)
    (store q) (usage q) (eligible q) (events q).
Definition set_env (x : E) (q : Queue S E) : Queue S E :=
  mkQueue (messages q) x (sequence q) (current q) (listeners q) (deleted q) (settings q)
    (store q) (usage q) (eligible q) (events q).
Definition set_sequence (x : Z) (q : Queue S E) : Queue S E :=
  mkQueue (messages q) (env q) x (current q) (listeners q) (deleted q) (settings q)
    (store q) (usage q) (eligible q) (events q).
Definition set_current (x : QueueDepth) (q : Queue S E) : Queue S E :=
  mkQueue (messages q) (env q) (sequence q) x (listeners q) (deleted q) (settings q)
    (store q) (usage q) (eligible q) (events q).
Definition set_listeners (x : QueueListeners) (q : Queue S E) : Queue S E :=
  mkQueue (messages q) (env q) (sequence q) (current q) x (deleted q) (settings q)
    (store q) (usage q) (eligible q) (events q).
Definition set_deleted (x : bool) (q : Queue S E) : Queue S E :=
  mkQueue (messages q) (env q) (sequence q) (current q) (listeners q) x (settings q)
    (store q) (usage q) (eligible q) (events q).
Definition set_store (x : bool) (q : Queue S E) : Queue S E :=
  mkQueue (messages q) (env q) (sequence q) (current q) (listeners q) (deleted q) (settings q)
    x (usage q) (eligible q) (events q).
Definition set_usage (x : Usage) (q : Queue S E) : Queue S E :=
  mkQueue (messages q) (env q) (sequence q) (current q) (listeners q) (deleted q) (settings q)
    (store q) x (eligible q) (events q).
Definition set_eligible (x : bool) (q : Queue S E) : Queue S E :=
  mkQueue (messages q) (env q) (sequence q) (current q) (listeners q) (deleted q) (settings q)
    (store q) (usage q) x (events q).
Definition emit (l : list Event) (q : Queue S E) : Queue S E :=
  mkQueue (messages q) (env q) (sequence q) (current q) (listeners q) (deleted q) (settings q)
    (store q) (usage q) (eligible q) (events q ++ l).

Definition set_owner (x : option nat) (q : Queue S E) : Queue S E :=
  let u := usage q in
  set_usage (mkUsage x (users u) (exclusive u) (alternateExchange u) (autoDeleteTask u)) q.
Definition set_users (x : QueueUsers) (q : Queue S E) : Queue S E :=
  let u := usage q in
  set_usage (mkUsage (owner u) x (exclusive u) (alternateExchange u) (autoDeleteTask u)) q.
Definition set_exclusive (x : option nat) (q : Queue S E) : Queue S E :=
  let u := usage q in
  set_usage (mkUsage (owner u) (users u) x (alternateExchange u) (autoDeleteTask u)) q.
Definition set_alternate (x : option nat) (q : Queue S E) : Queue S E :=
  let u := usage q in
  set_usage (mkUsage (owner u) (users u) (exclusive u) x (autoDeleteTask u)) q.
Definition set_task (x : bool) (q : Queue S E) : Queue S E :=
  let u := usage q in
  set_usage (mkUsage (owner u) (users u) (exclusive u) (alternateExchange u) x) q.

(** a call on the store, an exchange or another queue *)
Definition call (e : Event) : Op unit :=
  q ← get;
  modify (emit [e]) ;;
  match call_throws (events q) e with Some x => throw x | None => mret tt end.
(** a call on the container *)
Definition on_messages {A} (m : M S A) : Op A := fun q =>
  let '(x, o) := m (messages q) in (set_messages x q, o).
(** writing through a pointer *)
Definition write (p : Z) (f : Message -> Message) : Op unit :=
  modify (fun q => set_messages (msgs_write p f (messages q)) q).
(** a call on the distributor *)
Definition on_env {A} (m : M E A) : Op A := fun q =>
  let '(x, o) := m (env q) in (set_env x q, o).
(** [QueueObservers::wrap]: an exception is logged; a failed assertion and
    undefined behaviour are not exceptions *)
Definition wrap (m : M E unit) : Op unit := fun q =>
  let '(x, o) := m (env q) in
  (set_env x q,
   match o with
   | Throw AssertionFailed => Throw AssertionFailed
   | Throw UndefinedBehaviour => Throw UndefinedBehaviour
   | _ => Ret tt
   end).

(** ** [QueueListeners] *)

Definition addListener (c : Consumer) (l : QueueListeners) : QueueListeners :=
  if decide (c_id c ∈ inListeners l) then l
  else if acquires c
  then mkListeners (l_consumers l ++ [c_id c]) (l_browsers l) (c_id c :: inListeners l)
  else mkListeners (l_consumers l) (l_browsers l ++ [c_id c]) (c_id c :: inListeners l).

Fixpoint remove_first (x : nat) (l : list nat) : list nat :=
  match l with [] => [] | y :: l' => if decide (y = x) then l' else y :: remove_first x l' end.

Definition removeListener (c : Consumer) (l : QueueListeners) : QueueListeners :=
  if decide (c_id c ∈ inListeners l) then
    let ins := filter (fun x => x <> c_id c) (inListeners l) in
    if acquires c then mkListeners (remove_first (c_id c) (l_consumers l)) (l_browsers l) ins
    else mkListeners (l_consumers l) (remove_first (c_id c) (l_browsers l)) ins
  else l.

(** the set to notify: at most one consumer, and all browsers *)
Abbreviation NotificationSet := (option nat * list nat)%type.

Definition populate (l : QueueListeners) : QueueListeners * NotificationSet :=
  let c := hd_error (l_consumers l) in
  let ins := filter (fun x => Some x <> c /\ x ∉ l_browsers l) (inListeners l) in
  (mkListeners (tail (l_consumers l)) [] ins, (c, l_browsers l)).

Definition notify (s : NotificationSet) : list Event :=
  (match s.1 with Some c => [Notify c] | None => [] end) ++ map Notify s.2.

Definition populate_op (s : NotificationSet) : Op NotificationSet :=
  q ← get;
  let '(l, (c, bs)) := populate (listeners q) in
  modify (set_listeners l) ;;
  mret (match c with Some c => Some c | None => s.1 end, bs).

(** ** Depth *)

Definition depth1 (m : Message) : QueueDepth := new_QueueDepth2 1 (getMessageSize (encoding m)).

Definition exceeds (increment : QueueDepth) (q : Queue S E) : bool :=
  let maxDepth := maxDepth (settings q) in
  to_bool maxDepth && depth_lt (minus maxDepth (current q)) increment.

Definition checkDepth (increment : QueueDepth) (_ : Message) : Op bool :=
  q ← get;
  if exceeds increment q then throw ResourceLimitExceededException
  else modify (set_current (plus_assign (current q) increment)) ;; mret true.

Definition enqueueAborted (m : Message) : Op unit :=
  modify (fun q => set_current (minus_assign (current q) (depth1 m)) q).

(** ** Auto-deletion *)

Definition isEmpty (q : Queue S E) : bool := getCount (current q) =? 0.

Definition isUnused (q : Queue S E) : bool :=
  bool_decide (owner (usage q) = None) && negb (isUsed (users (usage q))).

Definition checkAutoDelete (q : Queue S E) : bool :=
  if autodelete (settings q) then
    match lifetime (settings q) with
    | DELETE_IF_UNUSED => isUnused q
    | DELETE_IF_EMPTY => negb (controller (users (usage q))) && isEmpty q
    | DELETE_IF_UNUSED_AND_EMPTY => isUnused q && isEmpty q
    | DELETE_ON_CLOSE => negb (controller (users (usage q)))
    end
  else false.

Definition canAutoDelete (q : Queue S E) : bool := negb (deleted q) && checkAutoDelete q.

Definition scheduleAutoDelete : Op unit :=
  q ← get;
  if canAutoDelete q then
    if negb (autoDeleteDelay (settings q) =? 0)
    then modify (fun q => emit [TimerAdd] (set_task true q))
    else modify (emit [TryAutoDelete])
  else mret tt.

(** a function with a [ScopedAutoDelete]: the destructor runs on every path *)
Definition scoped {A} (body : Op A) : Op A := fun q =>
  let '(q1, o) := body (set_eligible false q) in
  if eligible q1 then (fst (scheduleAutoDelete (set_eligible false q1)), o) else (q1, o).

(** ** Observers *)

Definition observeEnqueue (m : Message) : Op unit := wrap (env_enqueued m).
Definition observeAcquire (m : Message) : Op unit := wrap (env_acquired m).
Definition observeRequeue (m : Message) : Op unit := wrap (env_requeued m).
Definition observeDequeue (m : Message) (auto : bool) : Op unit :=
  modify (fun q => set_current (minus_assign (current q) (depth1 m)) q) ;;
  wrap (env_dequeued m) ;;
  modify (fun q => if auto && isEmpty q then set_eligible (checkAutoDelete q) q else q).

(** ** Putting messages on the queue *)

(** the boolean says whether to make the message available *)
Definition enqueue (checkDepth : QueueDepth -> Message -> Op bool) (m : Message) : Op (Message * bool) :=
  q ← get;
  if deleted q then mret (m, false)
  else
    ok ← checkDepth (depth1 m) m;
    if negb ok then mret (m, false)
    else
      let id := traceId (settings q) in
      let m := match id with [] => m | _ => addTraceId id m end in
      if isPersistent (encoding m) && store q then
        modify (emit [StoreEnqueue (e_id (encoding m))]) ;;
        match store_enqueue m with
        | Some e => enqueueAborted m ;; throw e
        | None => mret (m, true)
        end
      else mret (m, true).

Definition annotate (q : Queue S E) (m : Message) : Message :=
  intercept_publish (match sequenceKey (settings q) with
                     | Some key => addAnnotation key (AUint32 (getSequence m)) m
                     | None => m
                     end).

Definition push (m : Message) : Op unit :=
  modify (fun q => set_sequence (SequenceNumber.incr (sequence q)) q) ;;
  q ← get;
  let m := annotate q (setSequence (sequence q) m) in
  on_messages (msgs_publish m) ;;
  copy ← populate_op (None, []);
  observeEnqueue m ;;
  modify (emit (notify copy)).

(** *** What the queue accepts *)

Definition isLocal (q : Queue S E) (m : Message) : bool :=
  noLocal (settings q) && (isLocalTo m (owner (usage q)) || isLocalTo m (exclusive (usage q))).

Definition excluded (q : Queue S E) (m : Message) : bool :=
  match traceExclude (settings q) with [] => false | l => isExcluded l m end.

Definition accept (m : Message) : Op bool :=
  q ← get;
  if isImmediateDeliveryRequired (encoding m) && (getSubscriberCount (users (usage q)) =? 0) then
    (match alternateExchange (usage q) with
     | Some x => call (Route x m)
     | None => mret tt
     end) ;; mret false
  else if isLocal q m then mret false
  else if excluded q m then mret false
  else mret (selector_filter m).

(** within a transaction, the operation to enlist *)
Definition deliverTo (checkDepth : QueueDepth -> Message -> Op bool) (push : Message -> Op unit)
    (txn : bool) (m : Message) : Op (option TxPublish) :=
  ok ← accept m;
  if (ok : bool) then
    let m := intercept_record m in
    if txn then mret (Some (new_TxPublish m))
    else
      r ← enqueue checkDepth m;
      (if (r : Message * bool).2 then push r.1 else mret tt) ;;
      mret None
  else mret None.

Definition recoverPrepared (m : Message) : Op unit :=
  modify (fun q => set_current (plus_assign (current q) (depth1 m)) q).
Definition recover (m : Message) : Op unit := recoverPrepared m ;; push m.
Definition process (m : Message) : Op unit := push m.

(** ** Taking messages off *)

Definition dequeueFromStore (m : option Message) : Op unit :=
  q ← get;
  match m with
  | Some m => if negb (deleted q) && store q
              then call (StoreDequeue (e_id (encoding m))) else mret tt
  | None => mret tt
  end.

Definition persistent (m : Message) : option Message :=
  if isPersistent (encoding m) then Some m else None.

Definition release (c : QueueCursor) (markRedelivered : bool) : Op unit :=
  q ← get;
  if deleted q then mret tt
  else
    r ← on_messages (msgs_release c);
    match r with
    | None => mret tt
    | Some m =>
        (if markRedelivered then mret tt else write (getSequence m) undeliver) ;;
        copy ← populate_op (None, []);
        observeRequeue (if markRedelivered then m else undeliver m) ;;
        modify (emit (notify copy))
    end.

Definition dequeueMessageAt (pos : Z) : Op bool := scoped (
  q ← get;
  let '(c, r) := msgs_find pos (new_QueueCursor CONSUMER) (messages q) in
  match r with
  | Some m =>
      observeDequeue m (autodelete (settings q)) ;;
      on_messages (msgs_deleted c) ;;
      dequeueFromStore (persistent m) ;;
      mret true
  | None => mret false
  end).

(** the distributor is asked, and the observers are told when it agrees: the
    message as it then is *)
Definition take_message (consumer : str) (m : Message) : Op (option Message) :=
  r ← on_env (env_acquire consumer m);
  let '(st, ok) := (r : MessageState * bool) in
  write (getSequence m) (setState st) ;;
  if ok then observeAcquire (setState st m) ;; mret (Some (setState st m)) else mret None.

Definition acquire (c : QueueCursor) (consumer : str) : Op bool :=
  q ← get;
  match msgs_find_cursor c (messages q) with
  | Some m => r ← take_message consumer m; mret (bool_decide (is_Some r))
  | None => mret false
  end.

(** the body of [dequeue]; the call on the store does not test [deleted] again *)
Definition dequeue_body (ctxt : bool) (c : QueueCursor) : Op unit :=
  q ← get;
  match msgs_find_cursor c (messages q) with
  | Some m =>
      (if ctxt then mret tt
       else observeDequeue m (autodelete (settings q)) ;; on_messages (msgs_deleted c) ;; mret tt) ;;
      if store q && isPersistent (encoding m)
      then call (StoreDequeue (e_id (encoding m))) else mret tt
  | None => mret tt
  end.

Definition dequeue (ctxt : bool) (c : QueueCursor) : Op unit :=
  q ← get;
  if deleted q then mret tt else scoped (dequeue_body ctxt c).

Definition dequeueCommitted (c : QueueCursor) : Op unit := scoped (
  q ← get;
  match msgs_find_cursor c (messages q) with
  | Some m => observeDequeue m (autodelete (settings q)) ;; on_messages (msgs_deleted c) ;; mret tt
  | None => mret tt
  end).

Definition reject (c : QueueCursor) : Op unit := scoped (
  q ← get;
  let alternate := alternateExchange (usage q) in
  match msgs_find_cursor c (messages q) with
  | Some m =>
      observeDequeue m (autodelete (settings q)) ;;
      on_messages (msgs_deleted c) ;;
      (match alternate with
       | Some x => call (Route x (resetDeliveryCount m))
       | None => mret tt
       end) ;;
      dequeueFromStore (persistent m)
  | None => mret tt
  end).

(** *** Recovered distributed transactions *)

Definition enqueueCommited (m : Message) : Op unit := process m.
Definition dequeueAborted (m : Message) : Op unit := push m.
Definition dequeueCommited (m : Message) : Op unit := scoped (
  q ← get; observeDequeue m (autodelete (settings q))).

(** ** Dispatch *)

(** one round of the loop of [getNextMessage]: the consumer and the set to
    notify afterwards, and the answer when the loop ends *)
Definition next_round (filt acc : Message -> bool) (c : Consumer) (set : NotificationSet)
  : Op (Consumer * NotificationSet * option (option Message)) :=
  q ← get;
  let saved := getCursor c in
  r ← on_messages (msgs_next saved);
  let '(cur, om) := (r : QueueCursor * option Message) in
  let c := setCursor c cur in
  match om with
  | None =>
      modify (fun q => set_listeners (addListener c (listeners q)) q) ;; mret (c, set, Some None)
  | Some m =>
      if hasExpired m then
        observeDequeue m (autodelete (settings q)) ;;
        dequeueFromStore (persistent m) ;;
        on_messages (msgs_deleted cur) ;;
        mret (c, set, None)
      else if filt m then
        if acc m then
          if acquires c then
            r ← take_message (c_name c) m;
            match r with
            | Some m => write (getSequence m) deliver ;; mret (c, set, Some (Some (deliver m)))
            | None => mret (c, set, None)
            end
          else mret (c, set, Some (Some m))
        else
          let c := setCursor c saved in
          set ← (if acquires c then populate_op set else mret set);
          mret (c, set, Some None)
      else
        set ← (if acquires c then populate_op set else mret set);
        mret (c, set, None)
  end.

Fixpoint next_loop (n : nat) (filt acc : Message -> bool) (c : Consumer) (set : NotificationSet)
  : Op (Consumer * NotificationSet * option Message) :=
  match n with
  | O => throw OutOfFuel
  | Datatypes.S n' =>
      r ← next_round filt acc c set;
      match (r : Consumer * NotificationSet * option (option Message)) with
      | (c, set, Some res) => mret (c, set, res)
      | (c, set, None) => next_loop n' filt acc c set
      end
  end.

Definition checkNotDeleted (c : Consumer) : Op bool :=
  q ← get;
  guard_throw (deleted q && negb (hideDeletedError c)) ResourceDeletedException ;;
  mret (negb (deleted q)).

Definition getNextMessage (n : nat) (filt acc : Message -> bool) (c : Consumer)
  : Op (Consumer * option Message) :=
  ok ← checkNotDeleted c;
  if negb ok then mret (c, None)
  else scoped (
    r ← next_loop n filt acc c (None, []);
    let '(c, set, res) := (r : Consumer * NotificationSet * option Message) in
    modify (emit (notify set)) ;;
    mret (c, res)).

Definition dispatch (n : nat) (filt acc : Message -> bool) (c : Consumer) : Op (Consumer * bool) :=
  r ← getNextMessage n filt acc c;
  let '(c, res) := (r : Consumer * option Message) in
  match res with
  | Some m => modify (emit [Deliver (c_id c) m]) ;; mret (c, true)
  | None => mret (c, false)
  end.

(** [Queue::removeListener] *)
Definition removeListener_op (c : Consumer) : Op unit :=
  modify (fun q => set_listeners (removeListener c (listeners q)) q) ;;
  q ← get;
  set ← (if negb (msgs_size (messages q) =? 0) then populate_op (None, []) else mret (None, []));
  modify (emit (notify set)).

Definition find (pos : Z) : Op (option Message) :=
  q ← get; mret (msgs_find pos (new_QueueCursor CONSUMER) (messages q)).2.

(** the cursor is an argument by reference *)
Fixpoint seek (n : nat) (p : Message -> bool) (c : QueueCursor) : Op (QueueCursor * bool) :=
  match n with
  | O => throw OutOfFuel
  | Datatypes.S n' =>
      r ← on_messages (msgs_next c);
      match (r : QueueCursor * option Message) with
      | (c, None) => mret (c, false)
      | (c, Some m) => if p m then mret (c, true) else seek n' p c
      end
  end.

Definition seek_from (n : nat) (p : Message -> bool) (start : Z) (c : QueueCursor) : Op (QueueCursor * bool) :=
  q ← get;
  let '(c, r) := msgs_find start c (messages q) in
  match r with
  | Some m => if p m then mret (c, true) else seek n p c
  | None => seek n p c
  end.

(** ** Subscriptions *)

Definition on_users (f : QueueUsers -> outcome QueueUsers) : Op unit :=
  q ← get;
  match f (users (usage q)) with
  | Ret u => modify (set_users u)
  | Throw e => throw e
  end.

Definition consume (c : Consumer) (requestExclusive : bool) : Op unit :=
  q ← get;
  (if acquires c then
     guard_throw (isBrowseOnly (settings q)) NotAllowedException ;;
     guard_throw (bool_decide (is_Some (exclusive (usage q)))) ResourceLockedException ;;
     guard_throw (requestExclusive && hasConsumers (users (usage q))) ResourceLockedException ;;
     (if requestExclusive then modify (set_exclusive (Some (getSession c))) else mret tt) ;;
     modify (fun q => set_users (addConsumer (users (usage q))) q)
   else if isCounted c then modify (fun q => set_users (addBrowser (users (usage q))) q) else mret tt) ;;
  if isCounted c then
    (if negb (autoDeleteDelay (settings q) =? 0) && autoDeleteTask (usage q)
     then modify (emit [TimerCancel]) else mret tt) ;;
    modify (emit [ConsumerAdded (c_id c)])
  else mret tt.

Definition cancel (c : Consumer) : Op unit :=
  removeListener_op c ;;
  if isCounted c then
    (if acquires c then on_users removeConsumer ;; modify (set_exclusive None)
     else on_users removeBrowser) ;;
    modify (emit [ConsumerRemoved (c_id c)]) ;;
    q ← get;
    if negb (isUsed (users (usage q))) && autodelete (settings q) then scheduleAutoDelete else mret tt
  else mret tt.

Definition markInUse (controlling : bool) : Op unit :=
  if controlling then on_users addLifecycleController else on_users (fun u => Ret (addOther u)).

Definition releaseFromUse (controlling : bool) : Op unit :=
  if controlling then on_users removeLifecycleController ;; scheduleAutoDelete
  else
    on_users removeOther ;;
    q ← get;
    if isUnused q then scheduleAutoDelete else mret tt.

Definition setExclusiveOwner (o : nat) : Op bool :=
  q ← get;
  (if negb (autoDeleteDelay (settings q) =? 0) && autoDeleteTask (usage q)
   then modify (emit [TimerCancel]) else mret tt) ;;
  if bool_decide (is_Some (owner (usage q))) || hasConsumers (users (usage q)) then mret false
  else modify (set_owner (Some o)) ;; mret true.

Definition releaseExclusiveOwnership : Op unit :=
  modify (set_owner None) ;;
  q ← get;
  if negb (isUsed (users (usage q))) && autodelete (settings q) then scheduleAutoDelete else mret tt.

(** ** Purging *)

(** the loop of [remove]: the messages removed *)
Fixpoint remove_loop (n : nat) (maxCount maxTests : Z) (p : Message -> bool) (auto : bool)
    (count tests : Z) (c : QueueCursor) (acc : list Message) : Op (list Message) :=
  match n with
  | O => throw OutOfFuel
  | Datatypes.S n' =>
      r ← on_messages (msgs_next c);
      let '(c, om) := (r : QueueCursor * option Message) in
      match om with
      | None => mret acc
      | Some m =>
          if negb (maxTests =? 0) && (maxTests <=? tests) then mret acc
          else
            let tests := if maxTests =? 0 then tests else u32 (tests + 1) in
            if p m then
              if negb (maxCount =? 0) && (maxCount <=? count) then mret acc
              else
                let count := if maxCount =? 0 then count else u32 (count + 1) in
                (if decide (getState m = AVAILABLE) then observeAcquire m else mret tt) ;;
                observeDequeue m auto ;;
                ok ← on_messages (msgs_deleted c);
                (if (ok : bool) then mret tt else throw AssertionFailed) ;;
                remove_loop n' maxCount maxTests p auto count tests c (acc ++ [m])
            else remove_loop n' maxCount maxTests p auto count tests c acc
      end
  end.

(** what is done with the messages removed, outside the lock *)
Fixpoint dispose (f : Message -> Op unit) (l : list Message) : Op unit :=
  match l with
  | [] => mret tt
  | m :: l' => f m ;; dequeueFromStore (persistent m) ;; dispose f l'
  end.

Definition remove (n : nat) (maxCount : Z) (p : Message -> bool) (f : Message -> Op unit)
    (type : SubscriptionType) (triggerAutoDelete : bool) (maxTests : Z) : Op Z := scoped (
  removed ← remove_loop n maxCount maxTests p triggerAutoDelete 0 0 (new_QueueCursor type) [];
  dispose f removed ;;
  mret (Z.of_nat (length removed))).

(** the functors: re-routing through an exchange, or delivery to a queue *)
Definition reroute (e : option nat) (m : Message) : Op unit :=
  match e with Some x => call (Route x (clearTrace m)) | None => mret tt end.
Definition moveTo (q : option nat) (m : Message) : Op unit :=
  match q with Some x => call (DeliverTo x m) | None => mret tt end.

Definition purge (n : nat) (qty : Z) (dest : option nat) (match_ : Message -> bool) : Op Z :=
  q ← get; remove n qty match_ (reroute dest) CONSUMER (autodelete (settings q)) 0.
Definition move (n : nat) (destq : option nat) (qty : Z) (match_ : Message -> bool) : Op Z :=
  q ← get; remove n qty match_ (moveTo destq) CONSUMER (autodelete (settings q)) 0.

(** [LossyQueue::checkDepth]; the round of its loop is a call of [remove] *)
Definition isLowerPriorityThan (priority : Z) (m : Message) : bool := getPriority (encoding m) <=? priority.

Definition lossy_pred (q : Queue S E) (m : Message) : Message -> bool :=
  if priorities (settings q) =? 0 then fun _ => true else isLowerPriorityThan (getPriority (encoding m)).

Fixpoint lossy_loop (n k : nat) (increment : QueueDepth) (m : Message) : Op unit :=
  match n with
  | O => throw OutOfFuel
  | Datatypes.S n' =>
      q ← get;
      if exceeds increment q then
        r ← remove k 1 (lossy_pred q m) (reroute (alternateExchange (usage q))) PURGE false
              (if priorities (settings q) =? 0 then 0 else 1);
        if negb (r =? 0) then lossy_loop n' k increment m else mret tt
      else mret tt
  end.

Definition lossy_checkDepth (n k : nat) (increment : QueueDepth) (m : Message) : Op bool :=
  q ← get;
  guard_throw (hasSize (maxDepth (settings q)) && (getSize (maxDepth (settings q)) <? getSize increment))
    ResourceLimitExceededException ;;
  lossy_loop n k increment m ;;
  q ← get;
  if exceeds increment q then mret false
  else modify (set_current (plus_assign (current q) increment)) ;; mret true.

(** ** Deletion *)

Definition notifyDeleted : Op unit :=
  modify (set_deleted true) ;;
  modify (fun q => emit (map Notify (l_consumers (listeners q) ++ l_browsers (listeners q))) q).

Definition destroyed (n : nat) : Op unit :=
  modify (emit [Unbind]) ;;
  q ← get;
  remove n 0 (fun _ => true) (reroute (alternateExchange (usage q))) REPLICATOR false 0 ;;
  (match alternateExchange (usage q) with
   | Some x => modify (emit [DecAlternateUsers x]) ;; modify (set_alternate None)
   | None => mret tt
   end) ;;
  (if store q then
     modify (set_deleted true) ;; call StoreFlush ;; call StoreDestroy ;; modify (set_store false)
   else mret tt) ;;
  modify (set_task false) ;;
  notifyDeleted ;;
  modify (emit [ObserversDestroyed]).

(** ** Transactional publication ([Queue::TxPublish]) *)

(** [catch (const std::exception&)]; a failed assertion or undefined behaviour is not caught *)
Definition catch {A} (m : Op A) (h : Op A) : Op A := fun q =>
  match m q with
  | (q', Throw AssertionFailed) => (q', Throw AssertionFailed)
  | (q', Throw UndefinedBehaviour) => (q', Throw UndefinedBehaviour)
  | (q', Throw OutOfFuel) => (q', Throw OutOfFuel)
  | (q', Throw _) => h q'
  | r => r
  end.

Definition prepare (checkDepth : QueueDepth -> Message -> Op bool) (t : TxPublish) : Op (TxPublish * bool) :=
  catch (r ← enqueue checkDepth (tx_message t);
         mret (mkTxPublish (r : Message * bool).1 r.2, true))
        (mret (t, false)).
Definition commit (push : Message -> Op unit) (t : TxPublish) : Op unit :=
  catch (if prepared t then push (tx_message t) else mret tt) (mret tt).
Definition rollback (t : TxPublish) : Op unit :=
  catch (if prepared t then enqueueAborted (tx_message t) else mret tt) (mret tt).
End queue.

(** ** What the distributor and the observers promise *)

Definition total (l : list Message) : Z := foldr (fun m n => getMessageSize (encoding m) + n) 0 l.

(** the same message, delivered another number of times *)
Definition same (m m' : Message) : Prop :=
  getSequence m' = getSequence m /\ getState m' = getState m /\ encoding m' = encoding m.

Class QueueEnvLaws (E : Type) `{!QueueEnv E} := {
  (** how the state relates to the messages on the queue *)
  env_ok : E -> list Message -> Prop;
  law_same e l l' : env_ok e l -> Forall2 same l l' -> env_ok e l';
  law_enqueued e l m : env_ok e l -> StronglySorted Z.lt (map getSequence l) ->
    Forall (fun x => seq_ok (getSequence x) /\ 0 <= getMessageSize (encoding x)) (l ++ [m]) ->
    Forall (fun x => getSequence x < getSequence m) l ->
    Z.of_nat (length (l ++ [m])) < 2 ^ 32 -> total (l ++ [m]) < 2 ^ 64 ->
    exists e', env_enqueued m e = (e', Ret tt) /\ env_ok e' (l ++ [setState AVAILABLE m]);
  law_acquire e l c m : env_ok e l -> m ∈ l -> c <> [] ->
    exists e' st b, env_acquire c m e = (e', Ret (st, b)) /\
      if b : bool then
        getState m = AVAILABLE /\ st = ACQUIRED /\
        exists e'', env_acquired (setState ACQUIRED m) e' = (e'', Ret tt) /\
          env_ok e'' (map (at_seq (getSequence m) (setState ACQUIRED)) l)
      else st = getState m /\ env_ok e' l;
  law_requeued e l m m' : env_ok e l -> m ∈ l -> getState m = ACQUIRED ->
    getSequence m' = getSequence m -> encoding m' = encoding m ->
    exists e', env_requeued m' e = (e', Ret tt) /\
      env_ok e' (map (at_seq (getSequence m) (setState AVAILABLE)) l);
  law_dequeued e l m : env_ok e l -> m ∈ l ->
    exists e', env_dequeued m e = (e', Ret tt) /\
      env_ok e' (filter (fun x => getSequence x <> getSequence m) l);
  (** removal by the queue itself: acquired and dequeued at once *)
  law_purged e l m : env_ok e l -> m ∈ l -> getState m = AVAILABLE ->
    exists e' e'', env_acquired m e = (e', Ret tt) /\ env_dequeued m e' = (e'', Ret tt) /\
      env_ok e'' (filter (fun x => getSequence x <> getSequence m) l)
}.

(** an exception of the program: not a failed assertion, undefined behaviour
    or an exhausted bound of the model *)
Definition proper (e : exn) : Prop := e <> AssertionFailed /\ e <> UndefinedBehaviour /\ e <> OutOfFuel.

#[global] Instance proper_dec e : Decision (proper e).
Proof. unfold proper. apply _. Defined.

(** the hooks keep what identifies a message, and other components throw exceptions *)
Class HooksLaws `{!Hooks} := {
  record_encoding m : getMessageSize (encoding (intercept_record m)) = getMessageSize (encoding m);
  publish_encoding m : getMessageSize (encoding (intercept_publish m)) = getMessageSize (encoding m);
  publish_sequence m : getSequence (intercept_publish m) = getSequence m;
  store_throws m e : store_enqueue m = Some e -> proper e;
  calls_throw h ev e : call_throws h ev = Some e -> proper e
}.

(** ** Lists of messages *)

Lemma bytes_app l1 l2 : total (l1 ++ l2) = total l1 + total l2.
Proof. induction l1 as [|m l1 IH]; [done|]. cbn [app total foldr]. fold (total (l1 ++ l2)). fold (total l1). lia. Qed.

Lemma total_map f l : (forall m, encoding (f m) = encoding m) -> total (map f l) = total l.
Proof.
  intros Hf. induction l as [|m l IH]; [done|]. cbn [map total foldr]. fold (total (map f l)). fold (total l).
  by rewrite IH, Hf.
Qed.

Lemma sorted_split l p :
  StronglySorted Z.lt (map getSequence l) -> p ∈ map getSequence l ->
  exists l1 m l2, l = l1 ++ m :: l2 /\ getSequence m = p /\
    filter (fun x => getSequence x <> p) l = l1 ++ l2.
Proof.
  intros Hs (m & -> & (l1 & l2 & ->)%list_elem_of_split)%list_elem_of_fmap.
  exists l1, m, l2. split_and!; [done..|].
  rewrite map_app in Hs. cbn [map] in Hs. apply StronglySorted_app in Hs as (H1 & _ & H2).
  apply StronglySorted_inv in H2 as [_ H2]. rewrite Forall_map, Forall_forall in H2.
  rewrite filter_app, filter_cons_False by naive_solver.
  rewrite (filter_all _ l1), (filter_all _ l2); [done| |].
  - apply Forall_forall. intros x Hx. specialize (H2 x Hx). cbn beta in H2. lia.
  - apply Forall_forall. intros x Hx. specialize (H1 (getSequence x) (getSequence m)).
    assert (getSequence x < getSequence m); [|lia]. apply H1; [by apply list_elem_of_fmap_2|by left].
Qed.

Lemma elem_unique l (m m' : Message) :
  StronglySorted Z.lt (map getSequence l) -> m ∈ l -> m' ∈ l -> getSequence m' = getSequence m -> m' = m.
Proof. intros Hs Hm Hm' Heq. by apply (sorted_key_inj getSequence l). Qed.

Lemma without_counts l m :
  StronglySorted Z.lt (map getSequence l) -> m ∈ l ->
  let l' := filter (fun x => getSequence x <> getSequence m) l in
  Z.of_nat (length l') = Z.of_nat (length l) - 1 /\ total l' = total l - getMessageSize (encoding m).
Proof.
  intros Hs Hm. destruct (sorted_split l (getSequence m) Hs) as (l1 & x & l2 & E & Hx & ->).
  { by apply list_elem_of_fmap_2. }
  assert (x = m) as -> by (apply (elem_unique l); [done..|set_solver|done]).
  subst l. cbn zeta. rewrite !length_app, !bytes_app. cbn [length total foldr]. fold (total l2). lia.
Qed.
