(* ===== verification/QueueCorrect.v ===== *)
(** * Correctness of the queue

    The invariant of a queue over any container that keeps [MessagesLaws] and
    any distributor and observers that keep [QueueEnvLaws]: the depth counters
    are those of the messages on the queue and of the transactional enqueues
    that have reserved space, within the configured maximum; the observers'
    state is that of the messages on the queue; sequence numbers ascend.
    [queue_correct] follows it through every operation, in any order. *)

From Stdlib Require Import ZArith Lia Ascii String.
From S2P Require Import Prelude SequenceNumber FlowLimit Messages Queue.
Import QueueDepth.

Section correctness.
Context {S E : Type} `{!Messages S, !MessagesLaws S, !QueueEnv E, !QueueEnvLaws E, !Hooks, !HooksLaws}.

Implicit Types q : Queue S E.

Definition len (l : list Message) : Z := Z.of_nat (length l).

(** the depth counters and the observers account for the messages [l] on the
    queue and [res] in prepared transactions *)
Record acct (l res : list Message) (q : Queue S E) : Prop := mkAcct {
  ac_env : env_ok (env q) l;
  ac_count : count (current q) = some (len l + len res);
  ac_size : size (current q) = if valid (size (maxDepth (settings q))) then some (total l + total res) else none;
  ac_bounds : len l + len res < 2 ^ 32 /\ total l + total res < 2 ^ 64;
  ac_max : depth_wf (maxDepth (settings q)) /\
    (valid (count (maxDepth (settings q))) = true -> len l + len res <= value (count (maxDepth (settings q)))) /\
    (valid (size (maxDepth (settings q))) = true -> total l + total res <= value (size (maxDepth (settings q))));
  ac_sizes : Forall (fun m => 0 <= getMessageSize (encoding m)) (l ++ res)
}.

Record queue_inv (res : list Message) (q : Queue S E) : Prop := mkInv {
  qi_ok : msgs_ok (messages q);
  qi_seq : 0 <= sequence q < INT_MAX;
  qi_live : Forall (fun m => getSequence m <= sequence q) (live (messages q));
  qi_acct : acct (live (messages q)) res q
}.

(** Two states that differ in what the invariant does not speak of: who
    listens, who uses the queue, and what was called. *)
Definition core q q' : Prop :=
  messages q' = messages q /\ env q' = env q /\ sequence q' = sequence q /\
  current q' = current q /\ settings q' = settings q /\ deleted q' = deleted q /\ store q' = store q.

#[global] Instance core_equiv : Equivalence core.
Proof. split; unfold core; red; intuition congruence. Qed.

#[global] Instance acct_core l res : Proper (core ==> iff) (acct l res).
Proof.
  intros q q' (_ & He & _ & Hc & Hset & _).
  split; intros [? ? ? ? ? ?]; constructor; rewrite ?He, ?Hc, ?Hset in *; done.
Qed.

#[global] Instance queue_inv_core res : Proper (core ==> iff) (queue_inv res).
Proof.
  intros q q' Hq. pose proof Hq as (Hm & He & Hs & _).
  split; intros [? ? ? Ha]; constructor; rewrite ?Hm, ?Hs in *; try done.
  - by apply (acct_core _ _ q q' Hq).
  - by apply (acct_core _ _ q q' Hq).
Qed.

Lemma inv_core res q q' : core q q' -> queue_inv res q -> queue_inv res q'.
Proof. by intros ->. Qed.

(** what the counters and observers do not touch *)
Definition framed q q' : Prop :=
  messages q' = messages q /\ sequence q' = sequence q /\ settings q' = settings q /\
  deleted q' = deleted q /\ store q' = store q.

Lemma core_framed q q' : core q q' -> framed q q'.
Proof. unfold core, framed. intuition. Qed.

Lemma framed_trans q1 q2 q3 : framed q1 q2 -> framed q2 q3 -> framed q1 q3.
Proof. unfold framed. intuition congruence. Qed.

Lemma bytes_nonneg l : Forall (fun m => 0 <= getMessageSize (encoding m)) l -> 0 <= total l.
Proof. induction 1 as [|m l Hm Hl IH]; [done|]. cbn [total foldr]. fold (total l). lia. Qed.

(** *** Depth *)

(** a message that goes *)
Lemma acct_minus l l' res res' q q' m :
  acct l res q -> framed q q' -> current q' = minus_assign (current q) (depth1 m) ->
  env_ok (env q') l' -> len l' + len res' = len l + len res - 1 ->
  total l' + total res' = total l + total res - getMessageSize (encoding m) ->
  0 <= getMessageSize (encoding m) ->
  Forall (fun m => 0 <= getMessageSize (encoding m)) (l' ++ res') -> acct l' res' q'.
Proof.
  intros [He Hc Hsz Hb (Hwf & Hm1 & Hm2) Hpos] (_ & _ & Hmx & _) Hcur He' Hl Ht Hms Hpos'.
  pose proof (bytes_nonneg _ Hpos') as Hnn. rewrite bytes_app in Hnn.
  assert (0 <= len l' + len res') by (unfold len; lia).
  constructor; rewrite ?Hmx; try done; try lia.
  - rewrite Hcur. unfold minus_assign, opt_minus_assign, depth1, new_QueueDepth2. cbn [count].
    rewrite Hc. cbn [valid value some]. rewrite uwrap_small by (unfold is_uint; lia). unfold some. f_equal. lia.
  - rewrite Hcur. unfold minus_assign, opt_minus_assign, depth1, new_QueueDepth2. cbn [size].
    rewrite Hsz. destruct (valid (size (maxDepth (settings q)))); [|done]. cbn [valid value some]. unfold some. f_equal.
    rewrite uwrap_small by (unfold is_uint; lia). lia.
  - split_and!; [done|intros Hv; specialize (Hm1 Hv); lia|intros Hv; specialize (Hm2 Hv); lia].
Qed.

(** one more message is within the maximum *)
Definition fits (max : QueueDepth) (l : list Message) (m : Message) : Prop :=
  (valid (count max) = true -> len l + 1 <= value (count max)) /\
  (valid (size max) = true -> total l + getMessageSize (encoding m) <= value (size max)).

Lemma len_app l1 l2 : len (l1 ++ l2) = len l1 + len l2.
Proof. unfold len. rewrite length_app. lia. Qed.

Lemma exceeds_fits l res q m :
  acct l res q -> 0 <= getMessageSize (encoding m) ->
  exceeds (depth1 m) q = false <-> fits (maxDepth (settings q)) (l ++ res) m.
Proof.
  intros [He Hc Hsz Hb ((Hw1 & Hw2 & Hw3) & Hm1 & Hm2) Hpos] Hms.
  pose proof (bytes_nonneg _ Hpos) as Hnn. unfold fits. rewrite len_app, bytes_app in *.
  assert (0 <= len l + len res) by (unfold len; lia).
  unfold exceeds, to_bool, hasCount, hasSize, depth_lt, minus, opt_subtract, depth1, new_QueueDepth2.
  cbn [count size]. rewrite Hc, Hsz. cbn [valid value some]. rewrite andb_true_r. unfold is_uint in Hw1, Hw2.
  destruct (valid (count (maxDepth (settings q)))), (valid (size (maxDepth (settings q)))); cbn;
    try specialize (Hm1 eq_refl); try specialize (Hm2 eq_refl);
    rewrite ?uwrap_small by (unfold is_uint; lia); rewrite ?orb_false_iff, ?Z.ltb_ge; intuition (lia || done).
Qed.

(** a message that fits *)
Lemma acct_plus l res q m :
  acct l res q -> exceeds (depth1 m) q = false -> 0 <= getMessageSize (encoding m) ->
  len l + len res + 1 < 2 ^ 32 -> total l + total res + getMessageSize (encoding m) < 2 ^ 64 ->
  acct l (res ++ [m]) (set_current (plus_assign (current q) (depth1 m)) q).
Proof.
  intros Ha Hex Hms Hlen Htot. destruct (proj1 (exceeds_fits _ _ _ _ Ha Hms) Hex) as [Hf1 Hf2].
  rewrite len_app in Hf1. rewrite bytes_app in Hf2.
  destruct Ha as [He Hc Hsz Hb (Hwf & _) Hpos].
  pose proof (bytes_nonneg _ Hpos) as Hnn. rewrite bytes_app in Hnn.
  assert (0 <= len l + len res) by (unfold len; lia).
  assert (Hres : len (res ++ [m]) = len res + 1) by (unfold len; rewrite length_app; cbn; lia).
  assert (Hrt : total (res ++ [m]) = total res + getMessageSize (encoding m)).
  { rewrite bytes_app. cbn. lia. }
  constructor; cbn [env set_current current settings]; rewrite ?Hres, ?Hrt; try done; try lia.
  - unfold plus_assign, opt_plus_assign, depth1, new_QueueDepth2. cbn [count]. rewrite Hc.
    cbn [valid value some]. rewrite uwrap_small by (unfold is_uint; lia). unfold some. f_equal. lia.
  - unfold plus_assign, opt_plus_assign, depth1, new_QueueDepth2. cbn [size]. rewrite Hsz.
    destruct (valid (size _)); [|done]. cbn [valid value some].
    rewrite uwrap_small by (unfold is_uint; lia). unfold some. f_equal. lia.
  - split_and!; [apply Hwf..| |]; intros Hv; [specialize (Hf1 Hv)|specialize (Hf2 Hv)]; lia.
  - rewrite app_assoc. apply Forall_app. split; [done|]. by constructor.
Qed.

(** *** The observers *)

Lemma wrap_Ret (m : M E unit) q e : m (env q) = (e, Ret tt) -> wrap m q = (set_env e q, Ret tt).
Proof. intros Heq. unfold wrap. by rewrite Heq. Qed.

Definition without (m : Message) (l : list Message) : list Message :=
  filter (fun x => getSequence x <> getSequence m) l.

Lemma without_sizes m l res :
  Forall (fun x => 0 <= getMessageSize (encoding x)) (l ++ res) ->
  Forall (fun x => 0 <= getMessageSize (encoding x)) (without m l ++ res).
Proof.
  rewrite !Forall_app. intros [Hl Hr]. split; [|done]. apply Forall_forall.
  intros x [_ Hx]%list_elem_of_filter. rewrite Forall_forall in Hl. by apply Hl.
Qed.

Lemma acct_size l res q m : acct l res q -> m ∈ l -> 0 <= getMessageSize (encoding m).
Proof.
  intros Ha Hm. pose proof (ac_sizes _ _ _ Ha) as Hz. rewrite Forall_app, Forall_forall in Hz.
  by apply (proj1 Hz).
Qed.

(** the members the invariant speaks of, after [observeDequeue] has taken [m] off *)
Lemma acct_dequeued l res q q' m :
  acct l res q -> StronglySorted Z.lt (map getSequence l) -> m ∈ l -> framed q q' ->
  current q' = minus_assign (current q) (depth1 m) -> env_ok (env q') (without m l) ->
  acct (without m l) res q'.
Proof.
  intros Ha Hs Hm Hf Hc He. destruct (without_counts l m Hs Hm) as [Hlen Htot].
  apply (acct_minus l _ res res q q' m Ha); try done.
  - unfold len, without. lia.
  - unfold without. lia.
  - by eapply acct_size.
  - apply without_sizes, (ac_sizes _ _ _ Ha).
Qed.

(** the check for auto-deletion changes only a flag *)
Lemma auto_core (auto : bool) q :
  core q (if auto && isEmpty q then set_eligible (checkAutoDelete q) q else q).
Proof. by destruct (auto && isEmpty q). Qed.

Lemma observeDequeue_runs l res q m auto :
  acct l res q -> StronglySorted Z.lt (map getSequence l) -> m ∈ l ->
  runs (observeDequeue m auto) q (fun q' _ => framed q q' /\ acct (without m l) res q').
Proof.
  intros Ha Hs Hm. destruct (law_dequeued (env q) l m (ac_env _ _ _ Ha) Hm) as (e' & E1 & He').
  unfold observeDequeue. mrun. eapply runs_eq; [by apply wrap_Ret|]. mrun.
  set (q2 := set_env _ _). pose proof (auto_core auto q2) as Hq.
  pose proof (core_framed _ _ Hq) as Hf. split; [eapply framed_trans; [|exact Hf]; done|].
  rewrite <- Hq. by apply (acct_dequeued l res q).
Qed.

(** removal by the queue itself, of an available message *)
Lemma purge_runs l res q m auto :
  acct l res q -> StronglySorted Z.lt (map getSequence l) -> m ∈ l ->
  runs ((if decide (getState m = AVAILABLE) then observeAcquire m else mret tt) ;; observeDequeue m auto) q
    (fun q' _ => framed q q' /\ acct (without m l) res q').
Proof.
  intros Ha Hs Hm. destruct (decide _) as [Hst|]; [|by apply observeDequeue_runs].
  destruct (law_purged (env q) l m (ac_env _ _ _ Ha) Hm Hst) as (e1 & e2 & E1 & E2 & He).
  mrun. eapply runs_eq; [by apply wrap_Ret|]. unfold observeDequeue. mrun.
  eapply runs_eq; [by apply wrap_Ret|]. mrun.
  set (q2 := set_env _ _). pose proof (auto_core auto q2) as Hq.
  pose proof (core_framed _ _ Hq) as Hf. split; [eapply framed_trans; [|exact Hf]; done|].
  rewrite <- Hq. by apply (acct_dequeued l res q).
Qed.

(** *** The container *)

(** a step that keeps the members a consumer does not set *)
Definition keeps q q' : Prop :=
  sequence q' = sequence q /\ settings q' = settings q /\ deleted q' = deleted q /\ store q' = store q /\
  (forall c, resets c (messages q') = resets c (messages q)) /\
  msgs_version (messages q') = msgs_version (messages q) /\
  (can_release (messages q) -> can_release (messages q')).

Lemma keeps_refl q : keeps q q.
Proof. done. Qed.

Lemma keeps_trans q1 q2 q3 : keeps q1 q2 -> keeps q2 q3 -> keeps q1 q3.
Proof.
  intros (?&?&?&?&Hr1&?&?) (?&?&?&?&Hr2&?&?). unfold keeps. split_and!; try congruence; auto.
Qed.

Lemma core_keeps q q' : core q q' -> keeps q q'.
Proof. intros (Hm & _ & ? & _ & ? & ? & ?). unfold keeps. rewrite Hm. done. Qed.

(** [m] is off the queue *)
Definition took (res : list Message) (m : Message) q q' : Prop :=
  queue_inv res q' /\ live (messages q') = without m (live (messages q)) /\ keeps q q'.

Lemma inv_sorted res q : queue_inv res q -> StronglySorted Z.lt (map getSequence (live (messages q))).
Proof. intros [Hok _ _ _]. by apply live_sorted. Qed.

Lemma inv_live res q m :
  queue_inv res q -> m ∈ live (messages q) -> seq_ok (getSequence m) /\ live_state (getState m).
Proof.
  intros [Hok _ _ _] Hm. pose proof (live_ok _ Hok) as Hz. rewrite Forall_forall in Hz. by apply Hz.
Qed.

(** the container deletes what the counters no longer account for *)
Lemma delete_runs res q q' c m :
  queue_inv res q -> m ∈ live (messages q) -> framed q q' -> acct (without m (live (messages q))) res q' ->
  c_valid c = true -> position c = getSequence m ->
  runs (on_messages (msgs_deleted c)) q' (fun q'' b => b = true /\ took res m q q'').
Proof.
  intros Hi Hm (Fm & Fs & Fset & Fd & Fst) Ha Hv Hp. destruct (inv_live _ _ _ Hi Hm) as [Hok _].
  pose proof (qi_ok _ _ Hi) as Hmo. rewrite <- Hp in Hok.
  destruct (law_deleted (messages q) c Hmo Hv Hok) as (s' & b & E1 & Hok' & Hl' & Hb & Hres & Hver & Hcan).
  assert (b = true) as -> by (apply Hb; rewrite Hp; by apply list_elem_of_fmap_2).
  assert (Hw : live s' = without m (live (messages q))) by (by rewrite Hl', Hp).
  apply (runs_eq _ _ (set_messages s' q') true); [by unfold on_messages; rewrite Fm, E1|].
  split; [done|]. split; [|split; [done|]].
  - constructor; cbn [messages set_messages sequence]; rewrite ?Fs; try done.
    + apply Hi.
    + rewrite Hw. apply Forall_forall. intros x [_ Hx]%list_elem_of_filter.
      pose proof (qi_live _ _ Hi) as Hz. rewrite Forall_forall in Hz. by apply Hz.
    + rewrite Hw. destruct Ha as [? ? ? ? ? ?]. by constructor.
  - done.
Qed.

Lemma dequeue_runs res q c m auto :
  queue_inv res q -> m ∈ live (messages q) -> c_valid c = true -> position c = getSequence m ->
  runs (observeDequeue m auto ;; on_messages (msgs_deleted c)) q (fun q' b => b = true /\ took res m q q').
Proof.
  intros Hi Hm Hv Hp. apply runs_bind. eapply runs_mono.
  - by apply observeDequeue_runs; [apply Hi|by eapply inv_sorted|exact Hm].
  - intros q' [] [Hf Ha]. by eapply delete_runs.
Qed.

(** *** Scopes *)

Lemma schedule_core q :
  exists q', scheduleAutoDelete q = (q', Ret tt) /\ core q q' /\ listeners q' = listeners q.
Proof.
  unfold scheduleAutoDelete. mstep. cbn [get].
  destruct (canAutoDelete q); [destruct (negb _)|]; eexists; (split; [reflexivity|done]).
Qed.

(** an operation that may throw: [P] holds when it returns, [R] when it throws *)
Definition tries {A} (m : M (Queue S E) A) q (P : Queue S E -> A -> Prop) (R : Queue S E -> exn -> Prop) : Prop :=
  match m q with (q', Ret a) => P q' a | (q', Throw e) => R q' e end.

Lemma tries_bind {A B} (m : M (Queue S E) A) (f : A -> M (Queue S E) B) q P R :
  tries m q (fun q' a => tries (f a) q' P R) R -> tries (m ≫= f) q P R.
Proof. unfold tries, mbind, M_bind. by destruct (m q) as [q' [a|e]]. Qed.

Lemma tries_runs {A} (m : M (Queue S E) A) q P R : runs m q P -> tries m q P R.
Proof. unfold tries, runs. by destruct (m q) as [q' [a|e]]. Qed.

Lemma tries_after {A B} (m : M (Queue S E) A) (f : A -> M (Queue S E) B) q P R :
  runs m q (fun q' a => tries (f a) q' P R) -> tries (m ≫= f) q P R.
Proof. intros Hr. by apply tries_bind, tries_runs. Qed.

Lemma tries_mono {A} (m : M (Queue S E) A) q P R P' R' :
  tries m q P R -> (forall q' a, P q' a -> P' q' a) -> (forall q' e, R q' e -> R' q' e) -> tries m q P' R'.
Proof. unfold tries. destruct (m q) as [q' [a|e]]; auto. Qed.

Lemma tries_inv {A} (m : M (Queue S E) A) q P R :
  tries m q P R -> match m q with (q', Ret a) => P q' a | (q', Throw e) => R q' e end.
Proof. done. Qed.

(** thrown by the program *)
Definition thrown (P : Queue S E -> Prop) q (e : exn) : Prop := proper e /\ P q.

Lemma call_tries ev q :
  tries (call ev) q (fun q' _ => core q q') (thrown (core q)).
Proof.
  unfold tries, call. mstep. cbn [get modify]. destruct (call_throws _ _) as [e|] eqn:Ec; [|done].
  split; [by eapply calls_throw|done].
Qed.

Lemma scoped_tries {A} (body : M (Queue S E) A) q P R :
  (forall q1 q2 a, core q1 q2 -> listeners q2 = listeners q1 -> P q1 a -> P q2 a) ->
  (forall q1 q2 e, core q1 q2 -> R q1 e -> R q2 e) ->
  (forall q0, core q q0 -> tries body q0 P R) -> tries (scoped body) q P R.
Proof.
  intros HP HR Hb. specialize (Hb (set_eligible false q) ltac:(done)). unfold tries, scoped in *.
  destruct (body (set_eligible false q)) as [q1 o]. destruct (eligible q1); [|done].
  destruct (schedule_core (set_eligible false q1)) as (q2 & E2 & Hq2 & Hl2). rewrite E2. cbn [fst].
  destruct o; [by apply (HP q1)|by apply (HR q1)].
Qed.

Lemma scoped_runs {A} (body : M (Queue S E) A) q P :
  (forall q1 q2 a, core q1 q2 -> listeners q2 = listeners q1 -> P q1 a -> P q2 a) ->
  (forall q0, core q q0 -> runs body q0 P) -> runs (scoped body) q P.
Proof.
  intros HP Hb. specialize (Hb (set_eligible false q)). unfold runs, scoped in *.
  destruct (body (set_eligible false q)) as [q1 [a|e]]; [|by destruct Hb].
  specialize (Hb ltac:(done)). destruct (eligible q1); [|done].
  destruct (schedule_core (set_eligible false q1)) as (q2 & E2 & Hq2 & Hl2). rewrite E2. cbn [fst].
  by apply (HP q1).
Qed.

Lemma dequeueFromStore_tries om q :
  tries (dequeueFromStore om) q (fun q' _ => core q q') (thrown (core q)).
Proof. unfold dequeueFromStore. apply tries_after. mrun. destruct om; [destruct (_ && _)|]; try done. apply call_tries. Qed.

Lemma thrown_mono (P P' : Queue S E -> Prop) q e : (P q -> P' q) -> thrown P q e -> thrown P' q e.
Proof. intros HP []. by split; [|apply HP]. Qed.

(** ** Removal of one message *)

Definition removed_at (res : list Message) (p : Z) q q' : Prop :=
  match lookup_seq p (live (messages q)) with Some m => took res m q q' | None => core q q' end.

Lemma took_core res m q q1 q2 : core q1 q2 -> took res m q q1 -> took res m q q2.
Proof.
  intros Hc (Hi & Hl & Hk). split_and!; [by rewrite <- Hc| |eapply keeps_trans; [done|by apply core_keeps]].
  by destruct Hc as (-> & _).
Qed.

Lemma removed_at_core res p q q1 q2 : core q1 q2 -> removed_at res p q q1 -> removed_at res p q q2.
Proof.
  intros Hc. unfold removed_at. destruct (lookup_seq _ _); [by apply took_core|]. intros Hq. by rewrite Hq.
Qed.

Lemma removed_at_start res p q q0 q' : core q q0 -> removed_at res p q0 q' -> removed_at res p q q'.
Proof.
  intros Hc. pose proof Hc as (Hm & _). unfold removed_at. rewrite Hm.
  destruct (lookup_seq _ _); [|by intros <-].
  intros (Hi & Hl & Hk). split_and!; [done|by rewrite Hl, Hm|].
  eapply keeps_trans; [by apply core_keeps|done].
Qed.

Section removal.
Context (res : list Message).

(** a cursor that was left on a message, perhaps gone since *)
Definition marks (c : QueueCursor) : Prop := c_valid c = true /\ seq_ok (position c).

Lemma find_marked q c : queue_inv res q -> marks c ->
  msgs_find_cursor c (messages q) = lookup_seq (position c) (live (messages q)).
Proof. intros Hi [Hv Hp]. apply law_find_cursor; [apply Hi|done..]. Qed.

Lemma removed_Some q q' p m :
  lookup_seq p (live (messages q)) = Some m -> took res m q q' -> removed_at res p q q'.
Proof. intros Hl Ht. unfold removed_at. by rewrite Hl. Qed.

Lemma removed_None q q' p :
  lookup_seq p (live (messages q)) = None -> core q q' -> removed_at res p q q'.
Proof. intros Hl Ht. unfold removed_at. by rewrite Hl. Qed.

Lemma dequeueMessageAt_tries q p :
  queue_inv res q -> seq_ok p ->
  tries (dequeueMessageAt p) q (fun q' b =>
    removed_at res p q q' /\ b = bool_decide (p ∈ map getSequence (live (messages q))))
    (thrown (removed_at res p q)).
Proof.
  intros Hi Hp. apply scoped_tries; [intros q1 q2 b Hc _ [? ?]; split; [by eapply removed_at_core|done]|..].
  { intros q1 q2 e Hc [He ?]. split; [done|by eapply removed_at_core]. }
  intros q0 Hc. assert (Hi0 : queue_inv res q0) by (by rewrite <- Hc).
  pose proof Hc as (Hm & _). rewrite <- Hm. apply tries_after. mrun.
  destruct (law_find (messages q0) p (new_QueueCursor CONSUMER) (qi_ok _ _ Hi0) Hp) as [Hf Hcur].
  destruct (msgs_find _ _ _) as [c r]. cbn [fst snd] in *. subst r.
  destruct (lookup_seq p (live (messages q0))) as [m|] eqn:El.
  - rewrite (Hcur ltac:(done)). destruct (lookup_seq_elem _ _ _ El) as [Hin Hseq].
    apply tries_after. eapply runs_mono.
    { apply observeDequeue_runs; [apply Hi0|by eapply inv_sorted|exact Hin]. }
    intros q1 [] [Hf1 Ha1]. apply tries_after. eapply runs_mono.
    { eapply (delete_runs res q0); try done. cbn [position setPosition]. by rewrite seq_ok_s32. }
    intros q2 b [-> Ht]. assert (Hat : forall q3, core q2 q3 -> removed_at res p q q3).
    { intros q3 Hc3. eapply removed_at_start; [done|]. eapply removed_at_core; [done|]. by eapply removed_Some. }
    apply tries_bind. eapply tries_mono; [apply dequeueFromStore_tries| |intros q3 e; apply thrown_mono, Hat].
    intros q3 [] Hc3. split; [by apply Hat|].
    symmetry. apply bool_decide_eq_true. rewrite <- Hseq. by apply list_elem_of_fmap_2.
  - split; [by eapply removed_None; [rewrite <- Hm|]|].
    symmetry. apply bool_decide_eq_false. rewrite <- lookup_seq_is_Some, El. by intros [? [=]].
Qed.

(** a function that takes the marked message off under the lock, then goes on outside it *)
Lemma take_marked_tries q c (after : Message -> M (Queue S E) unit) :
  queue_inv res q -> marks c ->
  (forall m q1, tries (after m) q1 (fun q2 _ => core q1 q2) (thrown (core q1))) ->
  tries (q ← get;
         match msgs_find_cursor c (messages q) with
         | Some m => observeDequeue m (autodelete (settings q)) ;; on_messages (msgs_deleted c) ;; after m
         | None => mret tt
         end) q (fun q' _ => removed_at res (position c) q q') (thrown (removed_at res (position c) q)).
Proof.
  intros Hi Hc Hafter. apply tries_after. mrun. rewrite find_marked by done.
  destruct (lookup_seq _ _) as [m|] eqn:El; [|by apply removed_None].
  destruct (lookup_seq_elem _ _ _ El) as [Hin Hseq]. destruct Hc as [Hv Hp]. apply tries_after. eapply runs_mono.
  { apply observeDequeue_runs; [apply Hi|by eapply inv_sorted|exact Hin]. }
  intros q1 [] [Hf1 Ha1]. apply tries_after. eapply runs_mono; [by eapply (delete_runs res q)|].
  intros q2 b [-> Ht].
  assert (Hat : forall q3, core q2 q3 -> removed_at res (position c) q q3).
  { intros q3 Hc3. eapply removed_Some; [done|]. by eapply took_core. }
  eapply tries_mono; [apply Hafter|auto|]. intros q3 e. by apply thrown_mono, Hat.
Qed.

Lemma take_scoped_tries q c body :
  (forall q0, core q q0 -> tries body q0 (fun q' (_ : unit) => removed_at res (position c) q0 q')
                              (thrown (removed_at res (position c) q0))) ->
  tries (scoped body) q (fun q' _ => removed_at res (position c) q q') (thrown (removed_at res (position c) q)).
Proof.
  intros Hb. apply scoped_tries.
  - intros q1 q2 a Hc1 _. by apply removed_at_core.
  - intros q1 q2 e Hc1 [He ?]. split; [done|by eapply removed_at_core].
  - intros q0 Hc. eapply tries_mono; [by apply Hb| |].
    + intros q' a. by apply removed_at_start.
    + intros q' e. by apply thrown_mono, removed_at_start.
Qed.

Lemma dequeueCommitted_tries q c :
  queue_inv res q -> marks c ->
  tries (dequeueCommitted c) q (fun q' _ => removed_at res (position c) q q')
    (thrown (removed_at res (position c) q)).
Proof.
  intros Hi Hc. apply take_scoped_tries. intros q0 Hq.
  by apply (take_marked_tries q0 c (fun _ => mret tt)); [rewrite <- Hq|..].
Qed.

Lemma reject_tries q c :
  queue_inv res q -> marks c ->
  tries (reject c) q (fun q' _ => removed_at res (position c) q q')
    (thrown (removed_at res (position c) q)).
Proof.
  intros Hi Hc. apply take_scoped_tries. intros q0 Hq.
  apply (take_marked_tries q0 c (fun m =>
    (match alternateExchange (usage q0) with
     | Some x => call (Route x (resetDeliveryCount m))
     | None => mret tt
     end) ;; dequeueFromStore (persistent m))); [by rewrite <- Hq|done|].
  intros m q1. apply tries_bind.
  apply (tries_mono _ _ (fun q2 _ => core q1 q2) (thrown (core q1))); [by destruct (alternateExchange _); [apply call_tries|]| |done].
  intros q2 [] H2. eapply tries_mono; [apply dequeueFromStore_tries| |].
  - intros q3 [] H3. by rewrite H2.
  - intros q3 e. apply thrown_mono. intros H3. by rewrite H2.
Qed.

Lemma dequeue_notx_tries q c :
  queue_inv res q -> marks c ->
  tries (dequeue false c) q (fun q' _ => if deleted q then q' = q else removed_at res (position c) q q')
    (thrown (removed_at res (position c) q)).
Proof.
  intros Hi Hc. unfold dequeue. apply tries_after. mrun. destruct (deleted q); [done|].
  apply take_scoped_tries. intros q0 Hq. assert (Hi0 : queue_inv res q0) by (by rewrite <- Hq).
  unfold dequeue_body. apply tries_after. mrun. rewrite find_marked by done.
  destruct (lookup_seq _ _) as [m|] eqn:El; [|by apply removed_None].
  destruct (lookup_seq_elem _ _ _ El) as [Hin Hseq]. destruct Hc as [Hv Hp].
  apply tries_after, runs_bind. eapply runs_mono.
  { apply observeDequeue_runs; [apply Hi0|by eapply inv_sorted|exact Hin]. }
  intros q1 [] [Hf1 Ha1]. apply runs_bind. eapply runs_mono; [by eapply (delete_runs res q0)|].
  intros q2 b [-> Ht]. mrun.
  assert (Hat : forall q3, core q2 q3 -> removed_at res (position c) q0 q3).
  { intros q3 Hc3. eapply removed_Some; [done|]. by eapply took_core. }
  destruct (_ && _); [|by apply Hat].
  eapply tries_mono; [apply call_tries|auto|]. intros q3 e. by apply thrown_mono, Hat.
Qed.

(** within a transaction the message stays on the queue until the commit *)
Lemma dequeue_tx_tries q c :
  queue_inv res q -> marks c -> tries (dequeue true c) q (fun q' _ => core q q') (thrown (core q)).
Proof.
  intros Hi Hc. unfold dequeue. apply tries_after. mrun. destruct (deleted q); [done|].
  apply scoped_tries; [intros q1 q2 a Hc1 _ Hq1; by rewrite <- Hc1|intros q1 q2 e Hc1 [? Hq1]; split; [done|by rewrite <- Hc1]|].
  intros q0 Hq. unfold dequeue_body. apply tries_after. mrun.
  destruct (msgs_find_cursor _ _) as [m|]; [|done]. apply tries_after. mrun.
  destruct (_ && _); [|done]. eapply tries_mono; [apply call_tries|intros q1 [] H1; by rewrite Hq|].
  intros q1 e. apply thrown_mono. intros H1. by rewrite Hq.
Qed.
End removal.

(** ** Changes of state *)

Lemma len_map f l : len (map f l) = len l.
Proof. unfold len. by rewrite length_map. Qed.

Lemma total_encodings l l' : map encoding l' = map encoding l -> total l' = total l.
Proof.
  revert l'. induction l as [|m l IH]; intros [|m' l']; try done. cbn [map]. intros [= Em El].
  cbn [total foldr]. fold (total l) (total l'). rewrite Em. f_equal. by apply IH.
Qed.

Lemma len_encodings l l' : map encoding l' = map encoding l -> len l' = len l.
Proof. intros El. unfold len. by rewrite <- (length_map encoding), El, length_map. Qed.

Lemma sizes_encodings l l' res :
  map encoding l' = map encoding l ->
  Forall (fun x => 0 <= getMessageSize (encoding x)) (l ++ res) ->
  Forall (fun x => 0 <= getMessageSize (encoding x)) (l' ++ res).
Proof.
  intros El. rewrite !Forall_app. intros [Hl Hr]. split; [|done].
  apply (Forall_map encoding (fun e => 0 <= getMessageSize e)). rewrite El. by apply Forall_map.
Qed.

(** the same messages in other states *)
Lemma inv_rewritten res q q' :
  queue_inv res q -> msgs_ok (messages q') ->
  map getSequence (live (messages q')) = map getSequence (live (messages q)) ->
  map encoding (live (messages q')) = map encoding (live (messages q)) ->
  env_ok (env q') (live (messages q')) -> sequence q' = sequence q -> current q' = current q ->
  settings q' = settings q -> queue_inv res q'.
Proof.
  intros [Hok Hs Hl [? Hc Hsz Hb Hmx Hpos]] Hok' Hseq Henc Henv Es Ec Eset.
  constructor; rewrite ?Es; try done.
  - apply (Forall_map getSequence (fun z => z <= sequence q)). rewrite Hseq. by apply Forall_map.
  - constructor; rewrite ?Ec, ?Eset, ?(len_encodings _ _ Henc), ?(total_encodings _ _ Henc); try done.
    by eapply sizes_encodings.
Qed.

Lemma at_seq_map {A} (g : Message -> A) p f l :
  (forall m, g (f m) = g m) -> map g (map (at_seq p f) l) = map g l.
Proof.
  intros Hg. rewrite map_map. apply map_ext. intros m. unfold at_seq. by destruct (decide _).
Qed.

Lemma at_seq_id l m f :
  StronglySorted Z.lt (map getSequence l) -> m ∈ l -> f m = m -> map (at_seq (getSequence m) f) l = l.
Proof.
  intros Hs Hm Hf. rewrite <- (map_id l) at 2. apply map_ext_in. intros x Hx%list_elem_of_In.
  unfold at_seq. destruct (decide _) as [Heq|]; [|done]. by rewrite (elem_unique l m x).
Qed.

Lemma write_state st : live_state st -> write_ok (setState st).
Proof. by intros Hst m. Qed.
Lemma write_deliver : write_ok deliver.
Proof. by intros m. Qed.
Lemma write_undeliver : write_ok undeliver.
Proof. by intros m. Qed.

(** writing through a pointer to a message on the queue *)
Lemma write_runs q p f :
  msgs_ok (messages q) -> write_ok f -> p ∈ map getSequence (live (messages q)) ->
  runs (write p f) q (fun q' _ =>
    q' = set_messages (messages q') q /\ msgs_ok (messages q') /\
    live (messages q') = map (at_seq p f) (live (messages q)) /\ keeps q q').
Proof.
  intros Hok Hf Hp. destruct (law_write (messages q) p f Hok Hf Hp) as (? & ? & ? & ? & ?).
  unfold write. mrun. by split_and!.
Qed.

Lemma take_message_runs res q name m :
  queue_inv res q -> m ∈ live (messages q) -> name <> [] ->
  runs (take_message name m) q (fun q' r =>
    queue_inv res q' /\ keeps q q' /\
    match r with
    | Some m' =>
        getState m = AVAILABLE /\ m' = setState ACQUIRED m /\
        live (messages q') = map (at_seq (getSequence m) (setState ACQUIRED)) (live (messages q))
    | None =>
        live (messages q') = live (messages q) /\
        exists e e', env_acquire name m e = (e', Ret (getState m, false))
    end).
Proof.
  intros Hi Hm Hn.
  destruct (law_acquire (env q) _ name m (ac_env _ _ _ (qi_acct _ _ Hi)) Hm Hn) as (e' & st & b & E1 & Hb).
  unfold take_message. apply runs_bind.
  apply (runs_eq _ _ (set_env e' q) (st, b)); [by unfold on_env; rewrite E1|]. cbn beta iota.
  destruct (inv_live _ _ _ Hi Hm) as [_ Hst].
  assert (Hw : write_ok (setState st)).
  { apply write_state. destruct b; [destruct Hb as (_ & -> & _); by right|by destruct Hb as [-> _]]. }
  apply runs_bind. eapply runs_mono.
  { apply write_runs; [apply Hi|exact Hw|by apply list_elem_of_fmap_2]. }
  intros q1 [] (Eq & Hok1 & Hl1 & Hk1). cbn [messages set_env] in Hl1.
  assert (Hseqs : map getSequence (live (messages q1)) = map getSequence (live (messages q)))
    by (rewrite Hl1; by apply at_seq_map).
  assert (Hencs : map encoding (live (messages q1)) = map encoding (live (messages q)))
    by (rewrite Hl1; by apply at_seq_map).
  destruct b.
  - destruct Hb as (Hav & -> & e'' & E2 & He''). apply runs_bind.
    eapply runs_eq; [apply wrap_Ret; rewrite Eq; exact E2|]. mrun. split_and!.
    + eapply (inv_rewritten res q); [done|..]; cbn [messages set_env env sequence current settings]; try done.
      * by rewrite Hl1.
      * by rewrite Eq.
      * by rewrite Eq.
      * by rewrite Eq.
    + exact Hk1.
    + done.
    + done.
    + done.
  - destruct Hb as [-> He']. mrun.
    assert (Hl : live (messages q1) = live (messages q)).
    { rewrite Hl1. apply at_seq_id; [by eapply inv_sorted|done|by destruct m]. }
    split_and!.
    + eapply (inv_rewritten res q); try done.
      * by rewrite Hl, Eq.
      * by rewrite Eq.
      * by rewrite Eq.
      * by rewrite Eq.
    + exact Hk1.
    + done.
    + by exists (env q), e'.
Qed.

Lemma acquire_runs res q c name :
  queue_inv res q -> marks c -> name <> [] ->
  runs (acquire c name) q (fun q' b =>
    queue_inv res q' /\ keeps q q' /\
    if b : bool
    then exists m, lookup_seq (position c) (live (messages q)) = Some m /\ getState m = AVAILABLE /\
           live (messages q') = map (at_seq (position c) (setState ACQUIRED)) (live (messages q))
    else live (messages q') = live (messages q)).
Proof.
  intros Hi Hc Hn. unfold acquire. mrun. rewrite (find_marked res) by done.
  destruct (lookup_seq _ _) as [m|] eqn:El; [|by mrun].
  destruct (lookup_seq_elem _ _ _ El) as [Hin Hseq].
  apply runs_bind. eapply runs_mono; [by apply take_message_runs|].
  intros q' [m'|] (Hi' & Hk & Hb); mrun; (split; [done|split; [done|]]); cbn; [|by apply Hb].
  exists m. rewrite Hseq in Hb. by destruct Hb as (? & _ & ?).
Qed.

(** release of a message its consumer holds *)
Lemma populate_core set q : runs (populate_op set) q (fun q' _ => core q q').
Proof. unfold populate_op. mrun. by destruct (populate (listeners q)) as [l [c bs]]. Qed.

Definition released (markRedelivered : bool) (m : Message) : Message :=
  let m := setState AVAILABLE m in if markRedelivered then m else undeliver m.

Lemma at_seq_twice p f g l :
  (forall m, getSequence (f m) = getSequence m) ->
  map (at_seq p g) (map (at_seq p f) l) = map (at_seq p (fun m => g (f m))) l.
Proof.
  intros Hf. rewrite map_map. apply map_ext. intros m. unfold at_seq.
  destruct (decide (getSequence m = p)) as [Heq|Hne].
  - rewrite decide_True; [done|]. by rewrite Hf.
  - by rewrite decide_False.
Qed.

Lemma same_at_seq p f l :
  (forall m, same m (f m)) -> Forall2 same l (map (at_seq p f) l).
Proof.
  intros Hf. induction l as [|m l IH]; constructor; [|done]. unfold at_seq. by destruct (decide _).
Qed.

Lemma release_runs res q c mark m :
  queue_inv res q -> marks c -> can_release (messages q) -> deleted q = false ->
  lookup_seq (position c) (live (messages q)) = Some m -> getState m = ACQUIRED ->
  runs (release c mark) q (fun q' _ =>
    queue_inv res q' /\
    live (messages q') = map (at_seq (position c) (released mark)) (live (messages q)) /\
    sequence q' = sequence q /\ settings q' = settings q /\ deleted q' = deleted q).
Proof.
  intros Hi Hc Hcan Hd El Hst. destruct (lookup_seq_elem _ _ _ El) as [Hin Hseq]. destruct Hc as [Hv Hp].
  destruct (law_release (messages q) c m (qi_ok _ _ Hi) Hcan Hv El) as (s1 & E1 & Hok1 & Hl1).
  destruct (law_requeued (env q) _ m (released mark m) (ac_env _ _ _ (qi_acct _ _ Hi)) Hin Hst)
    as (e1 & E2 & He1); [by destruct mark|by destruct mark|].
  unfold release. mrun. rewrite Hd. mrun.
  apply (runs_eq _ _ (set_messages s1 q) (Some (setState AVAILABLE m))); [by unfold on_messages; rewrite E1|].
  cbn beta iota. apply runs_bind.
  apply (runs_mono _ _ (fun q' _ => q' = set_messages (messages q') q /\ msgs_ok (messages q') /\
    live (messages q') = map (at_seq (position c) (released mark)) (live (messages q)))).
  { destruct mark; [by mrun; split_and!|].
    eapply runs_mono; [apply write_runs; [done|apply write_undeliver|]|].
    - cbn [messages set_messages]. rewrite Hl1, at_seq_map by done. by apply (list_elem_of_fmap_2 getSequence _ m).
    - intros q1 [] (Eq & Hok & Hl & _). split_and!; [by rewrite Eq|done|].
      cbn [messages set_messages getSequence setState] in Hl. rewrite Hseq, Hl1 in Hl. rewrite Hl.
      by apply (at_seq_twice _ (setState AVAILABLE)). }
  intros q1 [] (Eq & Hok & Hl). apply runs_bind. eapply runs_mono; [apply populate_core|].
  intros q2 set (Em & Ee & Es & Ec & Eset & Ed & _). apply runs_bind.
  eapply runs_eq; [apply wrap_Ret; rewrite Ee, Eq; cbn [env set_messages]; by destruct mark|]. mrun.
  cbn [messages emit set_env sequence settings deleted]. rewrite Em, Es, Eset, Ed, Eq.
  cbn [messages emit set_env set_messages sequence settings deleted]. split_and!; try done.
  apply (inv_rewritten res q); cbn [messages emit set_env env sequence settings current];
    rewrite ?Em, ?Es, ?Eset, ?Ec, ?Hl; try done.
  - apply at_seq_map. by destruct mark.
  - apply at_seq_map. by destruct mark.
  - apply (law_same _ (map (at_seq (position c) (setState AVAILABLE)) (live (messages q))));
      [by rewrite Hseq in He1|].
    destruct mark; [|rewrite <- (at_seq_twice _ (setState AVAILABLE) undeliver) by done; by apply same_at_seq].
    by apply Forall_Forall2_diag, Forall_true.
  - by rewrite Eq.
  - by rewrite Eq.
  - by rewrite Eq.
Qed.

(** ** Publication *)

(** *** Reserving space *)

Definition traced q m : Message :=
  match traceId (settings q) with [] => m | _ => addTraceId (traceId (settings q)) m end.

Lemma trace_size q m : getMessageSize (encoding (traced q m)) = getMessageSize (encoding m).
Proof.
  unfold traced. destruct (traceId _); [done|]. unfold addTraceId.
  destruct (getAnnotationAsString _ _); [done|]. by destruct (contains _ _).
Qed.

(** what the counters can hold: always true of a queue whose depth in messages
    and bytes is limited *)
Definition room (res : list Message) q m : Prop :=
  0 <= getMessageSize (encoding m) /\
  len (live (messages q)) + len res + 1 < 2 ^ 32 /\
  total (live (messages q)) + total res + getMessageSize (encoding m) < 2 ^ 64.

Lemma acct_res l res res' q :
  acct l res q -> len res' = len res -> total res' = total res ->
  Forall (fun m => 0 <= getMessageSize (encoding m)) res' -> acct l res' q.
Proof.
  intros [He Hc Hsz Hb Hmx Hpos] Hl Ht Hp. constructor; rewrite ?Hl, ?Ht; try done.
  rewrite Forall_app in *. by split; [apply Hpos|].
Qed.

Lemma inv_reserve res q m m' :
  queue_inv res q -> room res q m -> exceeds (depth1 m) q = false ->
  getMessageSize (encoding m') = getMessageSize (encoding m) ->
  queue_inv (res ++ [m']) (set_current (plus_assign (current q) (depth1 m)) q).
Proof.
  intros [Hok Hs Hl Ha] (Hr1 & Hr2 & Hr3) Hex Hsz.
  constructor; cbn [messages set_current sequence]; try done.
  pose proof (acct_plus _ _ _ _ Ha Hex Hr1 Hr2 Hr3) as Ha'.
  eapply acct_res; [exact Ha'|..].
  - unfold len. by rewrite !length_app.
  - rewrite !bytes_app. cbn. by rewrite Hsz.
  - apply Forall_app. split; [|constructor; [lia|done]].
    pose proof (ac_sizes _ _ _ Ha) as Hz. rewrite Forall_app in Hz. apply Hz.
Qed.

Lemma acct_wf l res q : acct l res q -> depth_wf (current q).
Proof.
  intros [He Hc Hsz Hb _ Hpos]. apply bytes_nonneg in Hpos. rewrite bytes_app in Hpos.
  assert (0 <= len l /\ 0 <= len res) by (unfold len; lia).
  unfold depth_wf. rewrite Hc, Hsz. unfold is_uint, some, none. cbn.
  destruct (valid _); cbn; split_and!; try done; lia.
Qed.

(** [Queue::enqueue], with the depth check of a queue that rejects *)
Lemma enqueue_ends res q m :
  queue_inv res q -> room res q m ->
  match enqueue checkDepth m q with
  | (q', Ret (m', true)) =>
      deleted q = false /\ exceeds (depth1 m) q = false /\ m' = traced q m /\
      queue_inv (res ++ [m']) q' /\ live (messages q') = live (messages q) /\ keeps q q'
  | (q', Ret (m', false)) => deleted q = true /\ q' = q
  | (q', Throw e) =>
      core q q' /\
      (exceeds (depth1 m) q = true /\ e = ResourceLimitExceededException \/ store_enqueue (traced q m) = Some e)
  end.
Proof.
  intros Hi Hr. unfold enqueue. mstep. cbn [get]. destruct (deleted q) eqn:Hd; [done|].
  unfold checkDepth. mstep. cbn [get]. destruct (exceeds (depth1 m) q) eqn:Hex; [cbn; by split; [|left]|].
  cbn [modify negb]. cbn zeta. fold (traced q m). set (q1 := set_current _ q).
  assert (Hi1 : queue_inv (res ++ [traced q m]) q1) by (apply inv_reserve; [done..|apply trace_size]).
  assert (Hk : keeps q q1) by done.
  destruct (isPersistent (encoding (traced q m)) && store q); [|done]. cbn [modify].
  destruct (store_enqueue (traced q m)) as [e|] eqn:Est.
  - cbn. split; [|by right]. unfold core. cbn. split_and!; try done.
    unfold depth1. rewrite trace_size. apply plus_minus_assign. by eapply acct_wf, Hi.
  - split_and!; try done.
    assert (core q1 (emit [StoreEnqueue (e_id (encoding (traced q m)))] q1)) as Hc by done.
    by rewrite <- Hc.
Qed.

(** *** Making the message available *)

Definition published q m : Message :=
  setState AVAILABLE (annotate q (setSequence (sequence q + 1) m)).

Lemma annotate_same q m :
  getSequence (annotate q m) = getSequence m /\
  getMessageSize (encoding (annotate q m)) = getMessageSize (encoding m).
Proof.
  unfold annotate. rewrite publish_sequence, publish_encoding.
  by destruct (sequenceKey (settings q)).
Qed.

Lemma acct_publish l r1 r2 q q' m m' :
  acct l (r1 ++ m :: r2) q -> current q' = current q -> settings q' = settings q ->
  getMessageSize (encoding m') = getMessageSize (encoding m) ->
  env_ok (env q') (l ++ [m']) -> acct (l ++ [m']) (r1 ++ r2) q'.
Proof.
  intros [He Hc Hsz Hb Hmx Hpos] Ec Es Em Henv.
  assert (Hlen : len (l ++ [m']) + len (r1 ++ r2) = len l + len (r1 ++ m :: r2)).
  { unfold len. rewrite !length_app. cbn. lia. }
  assert (Htot : total (l ++ [m']) + total (r1 ++ r2) = total l + total (r1 ++ m :: r2)).
  { rewrite !bytes_app. cbn [total foldr]. fold (total r2). lia. }
  constructor; rewrite ?Ec, ?Es, ?Hlen, ?Htot; try done.
  rewrite !Forall_app, Forall_cons in Hpos. destruct Hpos as (? & ? & ? & ?).
  rewrite !Forall_app, Forall_singleton. rewrite Em. by split_and!.
Qed.

Lemma push_runs `{!FifoMessages S} r1 r2 q m :
  queue_inv (r1 ++ m :: r2) q -> sequence q + 1 < INT_MAX ->
  runs (push m) q (fun q' _ =>
    queue_inv (r1 ++ r2) q' /\ live (messages q') = live (messages q) ++ [published q m] /\
    sequence q' = sequence q + 1 /\ settings q' = settings q /\ deleted q' = deleted q /\
    (forall c, resets c (messages q') = resets c (messages q)) /\
    msgs_version (messages q') = msgs_version (messages q)).
Proof.
  intros Hi Hlt. pose proof Hi as [Hok Hs Hl Ha].
  assert (Hinc : SequenceNumber.incr (sequence q) = sequence q + 1).
  { unfold SequenceNumber.incr. apply uwrap_small. unfold is_uint, INT_MAX in *. lia. }
  set (pm := annotate q (setSequence (sequence q + 1) m)).
  destruct (annotate_same q (setSequence (sequence q + 1) m)) as [Hps Hpe]. fold pm in Hps, Hpe.
  cbn [getSequence setSequence encoding] in Hps, Hpe.
  assert (Hbelow : Forall (fun x => getSequence x < getSequence pm) (live (messages q))).
  { eapply Forall_impl; [exact Hl|]. intros x Hx. cbn beta in *. lia. }
  destruct (law_publish (messages q) pm Hok) as (s1 & E1 & Hok1 & Hl1 & Hr1 & Hv1 & _);
    [by rewrite Hps; unfold seq_ok; lia|done|].
  rewrite filter_all in Hl1 by (apply Forall_true; intros x; apply fifo_keeps).
  destruct (law_enqueued (env q) _ pm (ac_env _ _ _ Ha) (inv_sorted _ _ Hi)) as (e1 & E2 & He1);
    [|done| | |].
  { apply Forall_app. split.
    - apply Forall_forall. intros x Hx. split; [by eapply inv_live|by eapply acct_size].
    - apply Forall_singleton. rewrite Hps, Hpe. split; [unfold seq_ok; lia|].
      pose proof (ac_sizes _ _ _ Ha) as Hz. rewrite !Forall_app, Forall_cons in Hz. apply Hz. }
  { pose proof (ac_bounds _ _ _ Ha) as [Hb _]. unfold len in Hb. rewrite length_app in *. cbn [length] in *. lia. }
  { pose proof (ac_bounds _ _ _ Ha) as [_ Hb]. rewrite bytes_app. cbn [total foldr]. rewrite Hpe.
    rewrite bytes_app in Hb. cbn [total foldr] in Hb. fold (total r2) in Hb.
    pose proof (ac_sizes _ _ _ Ha) as Hz. rewrite !Forall_app, Forall_cons in Hz.
    destruct Hz as (_ & H1%bytes_nonneg & _ & H2%bytes_nonneg). lia. }
  unfold push. mrun. cbn [sequence set_sequence]. rewrite Hinc.
  change (annotate _ (setSequence (sequence q + 1) m)) with pm.
  eapply runs_eq; [unfold on_messages; cbn [messages set_sequence]; by rewrite E1|]. cbn beta iota.
  apply runs_bind. eapply runs_mono; [apply populate_core|].
  intros q2 set (Em & Ee & Es & Ec & Eset & Ed & Est). apply runs_bind.
  eapply runs_eq; [apply wrap_Ret; rewrite Ee; exact E2|]. mrun.
  cbn [messages emit set_env sequence settings deleted]. rewrite Em, Es, Eset, Ed.
  cbn [messages set_messages set_sequence sequence settings deleted]. split_and!; try done.
  constructor; cbn [messages emit set_env sequence]; rewrite ?Em, ?Es;
    cbn [messages set_messages set_sequence sequence]; rewrite ?Hinc; try done; try lia.
  - rewrite Hl1. apply Forall_app. split.
    + eapply Forall_impl; [exact Hl|]. intros x Hx. cbn beta in *. lia.
    + apply Forall_singleton. cbn [getSequence setState]. lia.
  - rewrite Hl1. apply (acct_publish _ _ _ q _ m); cbn [current settings emit set_env env]; try done.
Qed.

(** the reservation of a transaction that is rolled back *)
Lemma aborted_runs r1 r2 q m :
  queue_inv (r1 ++ m :: r2) q ->
  runs (enqueueAborted m) q (fun q' _ =>
    queue_inv (r1 ++ r2) q' /\ live (messages q') = live (messages q) /\ keeps q q').
Proof.
  intros [Hok Hs Hl Ha]. unfold enqueueAborted. mrun. split_and!; try done.
  constructor; cbn [messages set_current sequence]; try done.
  pose proof (ac_sizes _ _ _ Ha) as Hz. rewrite !Forall_app, Forall_cons in Hz.
  destruct Hz as (? & ? & ? & ?).
  apply (acct_minus (live (messages q)) _ (r1 ++ m :: r2) _ q _ m Ha); try done.
  - apply Ha.
  - unfold len. rewrite !length_app. cbn. lia.
  - rewrite !bytes_app. cbn [total foldr]. fold (total r2). lia.
  - rewrite !Forall_app. by split_and!.
Qed.
End correctness.
