(* ===== verification/QueueDispatch.v ===== *)
(** * Dispatch (src/qpid/broker/Queue.cpp)

    What [getNextMessage] gives a consumer.  The consumer's cursor determines
    the messages it may see, in order ([visible]).  The loop passes over those
    that have expired, those the consumer's filter refuses and those the
    distributor does not grant; it stops at the first other one.  When it
    stops without a message, the consumer is waiting to be notified or is left
    where it will see the message again. *)

From Stdlib Require Import ZArith Lia Ascii String.
From S2P Require Import Prelude SequenceNumber FlowLimit Messages Queue QueueCorrect.

Section visibility.
Context {S E : Type} `{!Messages S, !MessagesLaws S, !QueueEnv E, !QueueEnvLaws E, !Hooks}.
Context (res : list Message).

Implicit Types (q : Queue S E) (c : Consumer).

Definition sees (c : QueueCursor) (m : Message) : bool := check c (getState m).

(** what a reader with the cursor may still see *)
Definition visible_at (cur : QueueCursor) q : list Message :=
  filter (fun m => sees cur m = true) (candidates cur (messages q)).

Definition visible c q : list Message := visible_at (getCursor c) q.

Lemma candidates_keeps q q' cur m :
  keeps q q' -> live (messages q') = without m (live (messages q)) ->
  resets cur (messages q) = false -> getSequence m <= position cur ->
  candidates cur (messages q') = candidates cur (messages q).
Proof.
  intros (_ & _ & _ & _ & Hr & _) Hl Hres Hp. unfold candidates. rewrite Hl. unfold without.
  rewrite list_filter_filter. apply list_filter_iff. intros x. rewrite Hr, Hres.
  intuition (congruence || lia).
Qed.

Lemma candidates_same q q' cur :
  keeps q q' -> live (messages q') = live (messages q) ->
  candidates cur (messages q') = candidates cur (messages q).
Proof.
  intros (_ & _ & _ & _ & Hr & _) Hl. unfold candidates. rewrite Hl. apply list_filter_iff.
  intros x. by rewrite Hr.
Qed.

(** what a call of [next] leaves: nothing to see, or the cursor on the first
    message it may see *)
Lemma next_visible q (c : QueueCursor) :
  queue_inv res q -> seq_ok (position c) ->
  exists cur om, msgs_next c (messages q) = (messages q, Ret (cur, om)) /\ c_type cur = c_type c /\
    match om with
    | None => visible_at c q = []
    | Some m =>
        m ∈ live (messages q) /\ sees c m = true /\
        cur = cursor_at c (getSequence m) (msgs_version (messages q)) /\
        visible_at c q = m :: visible_at cur q /\
        (length (candidates cur (messages q)) < length (candidates c (messages q)))%nat
    end.
Proof.
  intros Hi Hp. pose proof (qi_ok _ _ Hi) as Hok. rewrite law_next by done. fold (candidates c (messages q)).
  pose proof (scan_spec (msgs_version (messages q)) _ c (candidates_ok c _ Hok)) as Hs.
  destruct (scan _ _ _) as [cur [m|]]; exists cur; eexists; (split; [reflexivity|]).
  - destruct Hs as (l1 & l2 & El & Hl1 & Hm & ->). split; [done|].
    assert (Hin : m ∈ candidates c (messages q)) by (rewrite El; set_solver).
    pose proof (candidates_after _ _ l1 m l2 Hok El) as Haft. split_and!; try done.
    + by apply list_elem_of_filter in Hin as [_ ?].
    + unfold visible_at. rewrite Haft, El, filter_app.
      rewrite filter_none, filter_cons_True; [done|done|].
      eapply Forall_impl; [exact Hl1|]. unfold sees. intros x Hx. cbn beta in *. congruence.
    + rewrite Haft, El, length_app. cbn. lia.
  - destruct Hs as [Hall ->]. split; [by destruct (last _)|].
    apply filter_none. eapply Forall_impl; [exact Hall|]. unfold sees. intros x Hx. cbn beta in *. congruence.
Qed.

End visibility.

Section dispatch.
Context {S E : Type} `{!Messages S, !MessagesLaws S, !QueueEnv E, !QueueEnvLaws E, hooks : Hooks, hlaws : !HooksLaws}.
Context (filt acc : Message -> bool) (res : list Message).

Implicit Types (q : Queue S E) (c : Consumer).

(** the reasons to pass over a message *)
Definition passed c (m : Message) : Prop :=
  hasExpired m = true \/ filt m = false \/
  exists e e', env_acquire (c_name c) m e = (e', Ret (getState m, false)).

(** the message the consumer is offered *)
Definition offered (m : Message) : Prop := hasExpired m = false /\ filt m = true.

Definition dispatched (m : Message) : Message := deliver (setState ACQUIRED m).

Definition same_consumer c c' : Prop :=
  c' = setCursor c (getCursor c') /\ c_type (getCursor c') = c_type (getCursor c).

(** ** One round *)

(** the store's answer to the removal of an expired message *)
Definition store_fails (m : Message) (e : exn) : Prop :=
  isPersistent (encoding m) = true /\ exists h, call_throws h (StoreDequeue (e_id (encoding m))) = Some e.

Lemma store_dequeue_tries m q :
  tries (dequeueFromStore (persistent m)) q (fun q' _ => core q q') (fun q' e => core q q' /\ store_fails m e).
Proof.
  unfold dequeueFromStore, persistent. apply tries_after. mrun.
  destruct (isPersistent (encoding m)) eqn:Hp; [|done]. destruct (_ && _); [|done].
  unfold tries, call. mstep. cbn [get modify]. destruct (call_throws _ _) as [e|] eqn:Ec; [|done].
  split; [done|]. split; [done|by eexists].
Qed.

Lemma expire_tries {A} q cur m auto (k : M (Queue S E) A) P R :
  queue_inv res q -> m ∈ live (messages q) -> c_valid cur = true -> position cur = getSequence m ->
  (forall q', took res m q q' -> tries k q' P R) ->
  (forall q' e, framed q q' -> acct (without m (live (messages q))) res q' -> store_fails m e -> R q' e) ->
  tries (observeDequeue m auto ;; dequeueFromStore (persistent m) ;; on_messages (msgs_deleted cur) ;; k) q P R.
Proof.
  intros Hi Hm Hv Hp Hk Hfail. apply tries_after. eapply runs_mono.
  { apply observeDequeue_runs; [apply Hi|by eapply inv_sorted|exact Hm]. }
  intros q1 [] [Hf Ha]. apply tries_bind. eapply tries_mono; [apply store_dequeue_tries| |].
  - intros q2 [] Hc. apply tries_after. eapply runs_mono.
    { eapply (delete_runs res q); try done.
      - eapply framed_trans; [exact Hf|by apply core_framed].
      - by rewrite <- Hc. }
    intros q3 b [_ Ht]. by apply Hk.
  - intros q2 e [Hc Hs]. apply Hfail; [|by rewrite <- Hc|done].
    eapply framed_trans; [exact Hf|by apply core_framed].
Qed.

(** what a round leaves when the loop goes on: one message fewer to look at *)
Definition goes_on c q c' q' : Prop :=
  exists m, m ∈ live (messages q) /\ visible c q = m :: visible c' q' /\ passed c m /\
    seq_ok (position (getCursor c')) /\
    (length (candidates (getCursor c') (messages q')) < length (candidates (getCursor c) (messages q)))%nat /\
    live (messages q') = filter (fun x => ~ (x = m /\ hasExpired x = true)) (live (messages q)).

(** what it leaves when the loop ends *)
Definition ends_none c q c' q' : Prop :=
  live (messages q') = live (messages q) /\
  (visible c q = [] /\ c_id c ∈ inListeners (listeners q') \/
   exists m l, visible c q = m :: l /\ offered m /\ acc m = false /\ visible c' q' = m :: l).

Definition ends_some c q q' (m' : Message) : Prop :=
  exists m l, visible c q = m :: l /\ offered m /\ acc m = true /\
    if acquires c
    then getState m = AVAILABLE /\ m' = dispatched m /\
         live (messages q') = map (at_seq (getSequence m) dispatched) (live (messages q))
    else m' = m /\ live (messages q') = live (messages q).

Definition round_post c q (q' : Queue S E) (r : Consumer * (option nat * list nat) * option (option Message)) : Prop :=
  let '(c', _, r) := r in
  queue_inv res q' /\ keeps q q' /\ same_consumer c c' /\
  match r with
  | None => goes_on c q c' q'
  | Some None => ends_none c q c' q'
  | Some (Some m) => ends_some c q q' m
  end.

(** the store throws on the expired message [m]: it stays on the queue, while
    the counters and the observers no longer account for it *)
Definition stuck_on (m : Message) q' : Prop :=
  hasExpired m = true /\ m ∈ live (messages q') /\ msgs_ok (messages q') /\
  acct (without m (live (messages q'))) res q'.

Definition round_stuck c q q' (e : exn) : Prop :=
  exists m rest, visible c q = m :: rest /\ store_fails m e /\ keeps q q' /\
    live (messages q') = live (messages q) /\ stuck_on m q'.

Lemma round_intro c q q' cur set r :
  queue_inv res q' -> keeps q q' -> c_type cur = c_type (getCursor c) ->
  match r with
  | None => goes_on c q (setCursor c cur) q'
  | Some None => ends_none c q (setCursor c cur) q'
  | Some (Some m) => ends_some c q q' m
  end -> round_post c q q' (setCursor c cur, set, r).
Proof. intros. unfold round_post. do 3 (split; [done|]). done. Qed.

Lemma without_expired q m :
  queue_inv res q -> m ∈ live (messages q) -> hasExpired m = true ->
  without m (live (messages q)) = filter (fun x => ~ (x = m /\ hasExpired x = true)) (live (messages q)).
Proof.
  intros Hi Hm Hx. apply filter_ext_in. intros x Hin. split.
  - intros Hne [-> _]. done.
  - intros Hne Heq. apply Hne. assert (x = m) as -> by (by apply (elem_unique _ m x (inv_sorted _ _ Hi))). done.
Qed.

Lemma keep_unexpired q m :
  hasExpired m = false ->
  live (messages q) = filter (fun x => ~ (x = m /\ hasExpired x = true)) (live (messages q)).
Proof.
  intros Hx. symmetry. apply filter_all. apply Forall_true. intros x [-> Hx']. congruence.
Qed.

(** the consumer moves on without the message *)
Lemma goes_on_same c q q' cur m :
  queue_inv res q -> keeps q q' -> live (messages q') = live (messages q) ->
  m ∈ live (messages q) -> hasExpired m = false -> passed c m ->
  cur = cursor_at (getCursor c) (getSequence m) (msgs_version (messages q)) ->
  visible c q = m :: visible (setCursor c cur) q ->
  (length (candidates cur (messages q)) < length (candidates (getCursor c) (messages q)))%nat ->
  goes_on c q (setCursor c cur) q'.
Proof.
  intros Hi Hk Hl Hm Hx Hpass -> Hvis Hlt. exists m. split_and!; try done.
  - rewrite Hvis. unfold visible, visible_at. cbn [getCursor setCursor]. by rewrite (candidates_same q q').
  - by eapply inv_live.
  - cbn [getCursor setCursor]. by rewrite (candidates_same q q').
  - rewrite Hl. by apply keep_unexpired.
Qed.

Lemma listener_added c (l : QueueListeners) : c_id c ∈ inListeners (addListener c l).
Proof.
  unfold addListener. destruct (decide _) as [|]; [done|]. destruct (acquires c); cbn; by left.
Qed.

Lemma same_cursor c cur : c_type cur = c_type (getCursor c) -> same_consumer c (setCursor c cur).
Proof. done. Qed.

Lemma populate_if (b : bool) set q :
  runs (if b then populate_op set else mret set) q (fun q' _ => core q q').
Proof. destruct b; [apply populate_core|by mrun]. Qed.

(** an acquiring consumer is granted the message, or goes on *)
Lemma granted_runs c q cur m set :
  queue_inv res q -> m ∈ live (messages q) -> offered m -> acc m = true -> acquires c = true ->
  c_name c <> [] -> c_type cur = c_type (getCursor c) ->
  cur = cursor_at (getCursor c) (getSequence m) (msgs_version (messages q)) ->
  visible c q = m :: visible (setCursor c cur) q ->
  (length (candidates cur (messages q)) < length (candidates (getCursor c) (messages q)))%nat ->
  runs (r ← take_message (c_name c) m;
        match r with
        | Some m => write (getSequence m) deliver ;; mret (setCursor c cur, set, Some (Some (deliver m)))
        | None => mret (setCursor c cur, set, None)
        end) q (round_post c q).
Proof.
  intros Hi Hm Hoff Hacc Ha Hn Ht Ecur Hvis Hlt. apply runs_bind.
  eapply runs_mono; [by apply take_message_runs|]. intros q1 [m1|] (Hi1 & Hk1 & Hr).
  - destruct Hr as (Hav & -> & Hl1). apply runs_bind. eapply runs_mono.
    { apply write_runs; [apply Hi1|apply write_deliver|].
      rewrite Hl1, at_seq_map by done. by apply (list_elem_of_fmap_2 getSequence _ m). }
    intros q2 [] (Eq & Hok2 & Hl2 & Hk2). mrun. cbn [getSequence setState] in Hl2.
    assert (Hl : live (messages q2) = map (at_seq (getSequence m) dispatched) (live (messages q))).
    { rewrite Hl2, Hl1. by apply (at_seq_twice _ (setState ACQUIRED)). }
    apply round_intro; [|by eapply keeps_trans|done|].
    + eapply (inv_rewritten res q1); [done|done|..]; try by rewrite Eq.
      * rewrite Hl2. by apply at_seq_map.
      * rewrite Hl2. by apply at_seq_map.
      * rewrite Hl2. replace (env q2) with (env q1) by (by rewrite Eq).
        eapply law_same; [apply Hi1|]. by apply same_at_seq.
    + exists m, (visible (setCursor c cur) q). rewrite Ha. by split_and!.
  - destruct Hr as [Hl1 Href]. mrun. apply round_intro; [done..|].
    destruct Hoff as [Hx _]. eapply goes_on_same; try done. right; right. exact Href.
Qed.

Lemma next_round_tries c set q :
  queue_inv res q -> seq_ok (position (getCursor c)) -> c_name c <> [] ->
  tries (next_round filt acc c set) q (round_post c q) (round_stuck c q).
Proof.
  intros Hi Hp Hn. unfold next_round. apply tries_after, runs_get. cbn zeta. apply tries_after.
  destruct (next_visible res q (getCursor c) Hi Hp) as (cur & om & E1 & Ht & Hom).
  apply (runs_eq _ _ q (cur, om)). { unfold on_messages. rewrite E1. by destruct q. }
  cbn beta iota. destruct om as [m|].
  2: { apply tries_runs. mrun. apply round_intro; [by apply (inv_core res q)|done..|]. split; [done|]. left. split; [done|apply (listener_added (setCursor c cur))]. }
  destruct Hom as (Hm & Hsees & Ecur & Hvis & Hlt).
  change (visible c q = m :: visible (setCursor c cur) q) in Hvis.
  destruct (hasExpired m) eqn:Hx.
  - apply expire_tries; [done|done|by rewrite Ecur|by rewrite Ecur| |].
    2: { intros q1 e (Fm & Fs & Fset & Fd & Fst) Ha Hs. exists m, (visible (setCursor c cur) q).
      unfold stuck_on, keeps. rewrite Fm. split_and!; try done. apply Hi. }
    intros q1 (Hi1 & Hl1 & Hk1). apply tries_runs. mrun.
    assert (Hcand : candidates cur (messages q1) = candidates cur (messages q)).
    { apply (candidates_keeps _ _ _ m); [done|done| |]; rewrite Ecur; [apply law_fresh|done]. }
    apply round_intro; [done..|]. exists m. cbn [getCursor setCursor]. split_and!; try done.
    + rewrite Hvis. unfold visible, visible_at. cbn [getCursor setCursor]. by rewrite Hcand.
    + by left.
    + rewrite Ecur. apply (inv_live _ _ _ Hi Hm).
    + by rewrite Hcand.
    + rewrite Hl1. by apply without_expired.
  - apply tries_runs. destruct (filt m) eqn:Hf; [destruct (acc m) eqn:Hacc|].
    + cbn [acquires setCursor c_name]. destruct (acquires c) eqn:Ha; [by apply granted_runs|].
      mrun. apply round_intro; [done..|].
      exists m, (visible (setCursor c cur) q). rewrite Ha. by split_and!.
    + apply runs_bind. eapply runs_mono; [apply populate_if|]. intros q1 set1 Hc1. mrun.
      pose proof (core_keeps _ _ Hc1) as Hk1. pose proof Hc1 as (Em & _).
      change (setCursor (setCursor c cur) (getCursor c)) with (setCursor c (getCursor c)).
      apply round_intro; [by apply (inv_core res q)|done|done|]. split; [by rewrite Em|].
      right. exists m, (visible (setCursor c cur) q). split_and!; [done|done|done|].
      rewrite <- Hvis. unfold visible, visible_at. cbn [getCursor setCursor]. by rewrite Em.
    + apply runs_bind. eapply runs_mono; [apply populate_if|]. intros q1 set1 Hc1. mrun.
      pose proof (core_keeps _ _ Hc1) as Hk1. pose proof Hc1 as (Em & _).
      apply round_intro; [by apply (inv_core res q)|done..|].
      eapply goes_on_same; try done; [by rewrite Em|by right; left].
Qed.

(** ** The loop *)

(** the messages passed over that are still on the queue *)
Definition kept (seen l : list Message) : list Message :=
  filter (fun x => ~ (x ∈ seen /\ hasExpired x = true)) l.

Definition loop_post c q (q' : Queue S E) (c' : Consumer) (r : option Message) : Prop :=
  queue_inv res q' /\ keeps q q' /\ same_consumer c c' /\
  exists seen rest, visible c q = seen ++ rest /\ Forall (passed c) seen /\
    match r with
    | None =>
        live (messages q') = kept seen (live (messages q)) /\
        (rest = [] /\ c_id c ∈ inListeners (listeners q') \/
         exists m l, rest = m :: l /\ offered m /\ acc m = false /\ visible c' q' = rest)
    | Some m' =>
        exists m l, rest = m :: l /\ offered m /\ acc m = true /\
          if acquires c
          then getState m = AVAILABLE /\ m' = dispatched m /\
               live (messages q') =
                 map (at_seq (getSequence m) dispatched) (kept seen (live (messages q)))
          else m' = m /\ live (messages q') = kept seen (live (messages q))
    end.

Definition loop_stuck c q q' (e : exn) : Prop :=
  exists seen m rest, visible c q = seen ++ m :: rest /\ Forall (passed c) seen /\ store_fails m e /\
    keeps q q' /\ live (messages q') = kept seen (live (messages q)) /\ stuck_on m q'.

Lemma kept_nil l : kept [] l = l.
Proof. apply filter_all, Forall_true. intros x [Hx _]. by apply elem_of_nil in Hx. Qed.

Lemma kept_cons m seen l :
  kept seen (filter (fun x => ~ (x = m /\ hasExpired x = true)) l) = kept (m :: seen) l.
Proof.
  unfold kept. rewrite list_filter_filter. apply list_filter_iff. intros x.
  rewrite elem_of_cons. tauto.
Qed.

Lemma same_trans c1 c2 c3 : same_consumer c1 c2 -> same_consumer c2 c3 -> same_consumer c1 c3.
Proof.
  intros [E1 T1] [E2 T2]. split; [|congruence]. rewrite E2, E1. done.
Qed.

Lemma passed_same c c' m : same_consumer c c' -> passed c' m -> passed c m.
Proof. by intros [-> _]. Qed.

Lemma next_loop_tries n c set q :
  queue_inv res q -> seq_ok (position (getCursor c)) -> c_name c <> [] ->
  (length (candidates (getCursor c) (messages q)) < n)%nat ->
  tries (next_loop n filt acc c set) q (fun q' '(c', _, r) => loop_post c q q' c' r) (loop_stuck c q).
Proof.
  revert c set q. induction n as [|n IH]; intros c set q Hi Hp Hn Hlt; [lia|]. cbn [next_loop].
  apply tries_bind. eapply tries_mono; [by apply next_round_tries| |].
  2: { intros q1 e (m & rest & Hv & Hs & Hk & Hl & Hst). exists [], m, rest.
    do 4 (split; [done|]). by rewrite kept_nil. }
  intros q1 [[c1 set1] [r|]] (Hi1 & Hk1 & Hc1 & Hr).
  - apply tries_runs. mrun. do 3 (split; [done|]). exists [], (visible c q). do 2 (split; [done|]). rewrite kept_nil.
    destruct r as [m|]; [exact Hr|]. destruct Hr as [Hl [Hr|(m & l & Hv & Ho & Ha & Hv')]]; (split; [done|]).
    + by left.
    + right. exists m, l. split_and!; try done; try apply Ho. congruence.
  - destruct Hr as (m & Hm & Hv & Hpass & Hp1 & Hlt1 & Hl1). pose proof Hc1 as [Ec1 _].
    assert (Hseen : forall seen, Forall (passed c1) seen -> Forall (passed c) (m :: seen)).
    { intros seen Hs. constructor; [done|]. eapply Forall_impl; [exact Hs|]. intros x. by apply passed_same. }
    eapply tries_mono.
    { apply IH; [done|done| |lia]. by rewrite Ec1. }
    + intros q2 [[c2 set2] r] (Hi2 & Hk2 & Hc2 & seen & rest & Hv2 & Hs2 & Hr2).
      split; [done|]. split; [by eapply keeps_trans|]. split; [by eapply same_trans|].
      exists (m :: seen), rest. rewrite Hv, Hv2. split; [done|].
      assert (Hid : c_id c1 = c_id c /\ acquires c1 = acquires c) by (by rewrite Ec1).
      destruct Hid as [Hid Hacq]. rewrite Hl1, kept_cons, ?Hid, ?Hacq in Hr2. split; [by apply Hseen|exact Hr2].
    + intros q2 e (seen & x & rest & Hv2 & Hs2 & Hst & Hk2 & Hl2 & Hx).
      exists (m :: seen), x, rest. rewrite Hv, Hv2, Hl2, Hl1, kept_cons. split; [done|]. split; [by apply Hseen|].
      split; [done|]. split; [by eapply keeps_trans|done].
Qed.

Lemma loop_post_core c q q1 q2 c' r :
  core q1 q2 -> listeners q2 = listeners q1 -> loop_post c q q1 c' r -> loop_post c q q2 c' r.
Proof.
  intros Hc Hls (Hi & Hk & Hs & seen & rest & Hr). pose proof Hc as (Em & _).
  split; [by apply (inv_core res q1)|]. split; [by eapply keeps_trans, core_keeps|]. split; [done|].
  exists seen, rest. rewrite Em, Hls. unfold visible, visible_at in *. rewrite Em. exact Hr.
Qed.

Lemma loop_stuck_core c q q1 q2 e : core q1 q2 -> loop_stuck c q q1 e -> loop_stuck c q q2 e.
Proof.
  intros Hc (seen & m & rest & Hv & Hs & Hf & Hk & Hl & Hx & Hm & Hok & Ha). pose proof Hc as (Em & _).
  exists seen, m, rest. unfold stuck_on. rewrite Em. split_and!; try done.
  - by eapply keeps_trans, core_keeps.
  - by rewrite <- Hc.
Qed.

Lemma getNextMessage_tries n c q :
  queue_inv res q -> deleted q = false -> seq_ok (position (getCursor c)) -> c_name c <> [] ->
  (length (live (messages q)) < n)%nat ->
  tries (getNextMessage n filt acc c) q (fun q' '(c', r) => loop_post c q q' c' r) (loop_stuck c q).
Proof.
  intros Hi Hd Hp Hn Hlt. unfold getNextMessage, checkNotDeleted. apply tries_after. mrun. rewrite Hd. mrun.
  apply (runs_eq _ _ q tt); [done|]. mrun. cbn [negb]. apply scoped_tries.
  { intros q1 q2 [c' r]. apply loop_post_core. }
  { intros q1 q2 e. apply loop_stuck_core. }
  intros q0 Hc. pose proof Hc as (Em & _). apply tries_bind. eapply tries_mono.
  { apply next_loop_tries; [by apply (inv_core res q)|done|done|].
    eapply Nat.le_lt_trans; [|exact Hlt]. rewrite Em. apply length_filter. }
  - intros q1 [[c1 set1] r] (Hi1 & Hk1 & Hs1 & Hr1). apply tries_runs. mrun.
    apply (loop_post_core c q q1); [done|done|].
    split; [done|]. split; [eapply keeps_trans; [by apply core_keeps|done]|]. split; [done|].
    unfold visible, visible_at in Hr1 |- *. by rewrite Em in Hr1.
  - intros q1 e (seen & m & rest & Hv & Hs & Hf & Hk & Hl & Hx). exists seen, m, rest.
    unfold visible, visible_at in Hv |- *. rewrite Em in Hv, Hl. split_and!; try done; try apply Hx.
    eapply keeps_trans; [by apply core_keeps|done].
Qed.
End dispatch.

(** ** Removal ([Queue::remove]) *)

Section removal.
Context {S E : Type} `{!Messages S, !MessagesLaws S, !QueueEnv E, !QueueEnvLaws E, hooks : Hooks, hlaws : !HooksLaws}.
Context (res : list Message) (maxCount maxTests : Z) (p : Message -> bool).

Implicit Types (q : Queue S E) (c : QueueCursor).

(** a bound of 0 is no bound *)
Definition limit (bound used : Z) (l : list Message) : list Message :=
  if bound =? 0 then l else take (Z.to_nat (bound - used)) l.

Definition selected (count tests : Z) (l : list Message) : list Message :=
  limit maxCount count (filter (fun m => p m = true) (limit maxTests tests l)).

Lemma limit_nil bound used : limit bound used [] = [].
Proof. unfold limit. destruct (bound =? 0); [done|apply take_nil]. Qed.

Lemma limit_cons bound used m l :
  0 <= used -> limit bound used (m :: l) =
  if negb (bound =? 0) && (bound <=? used) then []
  else m :: limit bound (if bound =? 0 then used else used + 1) l.
Proof.
  intros Hu. unfold limit. destruct (bound =? 0) eqn:Hb; cbn [negb andb]; [done|]. apply Z.eqb_neq in Hb.
  destruct (bound <=? used) eqn:Hle.
  - apply Z.leb_le in Hle. by replace (Z.to_nat (bound - used)) with 0%nat by lia.
  - apply Z.leb_gt in Hle.
    by replace (Z.to_nat (bound - used)) with (Datatypes.S (Z.to_nat (bound - (used + 1)))) by lia.
Qed.

(** the counters, at their width *)
Definition counts_ok (count tests : Z) : Prop :=
  0 <= maxCount < 2 ^ 32 /\ 0 <= maxTests < 2 ^ 32 /\
  0 <= count /\ (maxCount <> 0 -> count <= maxCount) /\ 0 <= tests /\ (maxTests <> 0 -> tests <= maxTests).

Lemma counter_step bound used :
  0 <= bound < 2 ^ 32 -> 0 <= used -> negb (bound =? 0) && (bound <=? used) = false ->
  let used' := if bound =? 0 then used else u32 (used + 1) in
  used' = (if bound =? 0 then used else used + 1) /\ 0 <= used' /\ (bound <> 0 -> used' <= bound).
Proof.
  intros Hb Hu. destruct (bound =? 0) eqn:Hz; cbn [negb andb]; intros Hlt; [split_and!; lia|].
  cbn zeta. rewrite uwrap_small by (unfold is_uint; lia). split_and!; [done|lia..].
Qed.

Definition off (gone : list Message) q q' : Prop :=
  queue_inv res q' /\ keeps q q' /\ live (messages q') = filter (fun x => x ∉ gone) (live (messages q)).

Lemma off_nil q : queue_inv res q -> off [] q q.
Proof.
  intros Hi. split; [done|]. split; [done|]. symmetry. apply filter_all, Forall_true.
  intros x Hx. by apply elem_of_nil in Hx.
Qed.

Lemma off_cons m gone q q1 q2 :
  queue_inv res q -> m ∈ live (messages q) -> took res m q q1 -> off gone q1 q2 -> off (m :: gone) q q2.
Proof.
  intros Hi Hm (_ & Hl1 & Hk1) (Hi2 & Hk2 & Hl2). split; [done|]. split; [by eapply keeps_trans|].
  rewrite Hl2, Hl1. unfold without. rewrite list_filter_filter. apply filter_ext_in. intros x Hx.
  rewrite not_elem_of_cons. split; [intros [Hg Hne]; split; [congruence|done]|intros [Hne Hg]; split; [done|]].
  intros Heq. apply Hne. by apply (elem_unique _ m x (inv_sorted _ _ Hi)).
Qed.

Lemma remove_loop_runs n auto count tests c acc q :
  queue_inv res q -> seq_ok (position c) -> counts_ok count tests ->
  (length (candidates c (messages q)) < n)%nat ->
  runs (remove_loop n maxCount maxTests p auto count tests c acc) q (fun q' r =>
    let gone := selected count tests (visible_at c q) in r = acc ++ gone /\ off gone q q').
Proof.
  revert count tests c acc q. induction n as [|n IH]; intros count tests c acc q Hi Hp Hc Hn; [lia|].
  cbn [remove_loop]. destruct (next_visible res q c Hi Hp) as (cur & om & E1 & Ht & Hom).
  apply runs_bind. apply (runs_eq _ _ q (cur, om)). { unfold on_messages. rewrite E1. by destruct q. }
  assert (Hstop : forall l, l = [] -> acc = acc ++ l /\ off l q q).
  { intros l ->. rewrite app_nil_r. by split; [|apply off_nil]. }
  cbn beta iota. destruct om as [m|].
  2: { mrun. apply Hstop. unfold selected. rewrite Hom, limit_nil. apply limit_nil. }
  destruct Hom as (Hm & Hsees & Ecur & Hvis & Hlt). rewrite Hvis. clear Hvis.
  destruct Hc as (Hc1 & Hc2 & Hc3 & Hc4 & Hc5 & Hc6).
  unfold selected. rewrite (limit_cons maxTests) by lia.
  destruct (negb (maxTests =? 0) && (maxTests <=? tests)) eqn:Hbt; [mrun; apply Hstop, limit_nil|].
  destruct (counter_step maxTests tests Hc2 Hc5 Hbt) as (Htests & Ht1 & Ht2).
  assert (Hp' : seq_ok (position cur)) by (rewrite Ecur; apply (inv_live _ _ _ Hi Hm)).
  rewrite <- Htests. set (tests' := if maxTests =? 0 then tests else u32 (tests + 1)) in *.
  clearbody tests'. cbv zeta.
  destruct (p m) eqn:Hpm.
  - rewrite filter_cons_True by done. rewrite limit_cons by lia.
    destruct (negb (maxCount =? 0) && (maxCount <=? count)) eqn:Hbc; [mrun; by apply Hstop|].
    destruct (counter_step maxCount count Hc1 Hc3 Hbc) as (Hcount & Hk1 & Hk2).
    rewrite <- Hcount. set (count' := if maxCount =? 0 then count else u32 (count + 1)) in *.
    clearbody count'.
    pose proof (purge_runs _ _ _ m auto (qi_acct _ _ Hi) (inv_sorted _ _ Hi) Hm) as Hpurge.
    apply runs_bind. eapply runs_mono; [exact (runs_bind_inv _ _ _ _ Hpurge)|]. clear Hpurge.
    intros q1 [] H1. apply runs_bind. eapply runs_mono; [exact H1|]. intros q2 [] [Hf2 Ha2]. clear H1.
    apply runs_bind. eapply runs_mono; [eapply (delete_runs res q); try done; by rewrite Ecur|].
    intros q3 b [-> Ht3]. mrun. pose proof Ht3 as (Hi3 & Hl3 & Hkeep).
    assert (Hcand : candidates cur (messages q3) = candidates cur (messages q)).
    { apply (candidates_keeps _ _ _ m); [done|done| |]; rewrite Ecur; [apply law_fresh|done]. }
    eapply runs_mono; [apply IH; [done|done|by unfold counts_ok|rewrite Hcand; lia]|].
    unfold visible_at. rewrite Hcand. fold (visible_at cur q). intros q4 r [-> Hoff].
    fold (selected count' tests' (visible_at cur q)).
    split; [by rewrite <- app_assoc|]. by eapply off_cons.
  - rewrite filter_cons_False by congruence. fold (selected count tests' (visible_at cur q)).
    apply IH; [done|done| |lia]. unfold counts_ok. lia.
Qed.

(** a functor that acts on other components: it may throw *)
Definition outward (f : Message -> M (Queue S E) unit) : Prop :=
  forall m q, tries (f m) q (fun q' _ => core q q') (thrown (core q)).

Lemma thrown_core q q1 q' e : core q q1 -> thrown (core q1) q' e -> thrown (core q) q' e.
Proof. intros Hc. apply thrown_mono. intros H1. by rewrite Hc. Qed.

Lemma dispose_tries f l q : outward f ->
  tries (dispose f l) q (fun q' _ => core q q') (fun q' e => l <> [] /\ thrown (core q) q' e).
Proof.
  intros Hf. revert q. induction l as [|m l IH]; intros q; cbn [dispose]; [done|].
  apply tries_bind. eapply tries_mono; [apply Hf| |done]. intros q1 [] H1.
  apply tries_bind. eapply tries_mono; [apply dequeueFromStore_tries| |].
  2: { intros q2 e H2. split; [done|by eapply thrown_core]. }
  intros q2 [] H2. assert (H12 : core q q2) by (by rewrite H1).
  eapply tries_mono; [apply IH| |].
  - intros q3 [] H3. by rewrite H12.
  - intros q3 e [_ H3]. split; [done|by eapply thrown_core].
Qed.

Lemma off_core gone q q0 q1 q2 : core q q0 -> off gone q0 q1 -> core q1 q2 -> off gone q q2.
Proof.
  intros H0 (Hi & Hk & Hl) H2. pose proof H0 as (E0 & _). pose proof H2 as (E2 & _).
  split; [by apply (inv_core res q1)|]. split; [|by rewrite E2, Hl, E0].
  eapply keeps_trans; [by apply core_keeps|]. eapply keeps_trans; [exact Hk|by apply core_keeps].
Qed.

(** what a reader that starts at the front may see *)
Definition shown (t : SubscriptionType) q : list Message :=
  filter (fun m => sees (new_QueueCursor t) m = true) (live (messages q)).

Lemma visible_new t q : visible_at (new_QueueCursor t) q = shown t q.
Proof.
  unfold visible_at, shown, candidates. f_equal. apply filter_all, Forall_true. intros x. left. apply law_new.
Qed.

Lemma remove_tries n f t auto q :
  queue_inv res q -> outward f -> 0 <= maxCount < 2 ^ 32 -> 0 <= maxTests < 2 ^ 32 ->
  (length (live (messages q)) < n)%nat ->
  let gone := selected 0 0 (shown t q) in
  tries (remove n maxCount p f t auto maxTests) q
    (fun q' k => k = Z.of_nat (length gone) /\ off gone q q')
    (fun q' e => gone <> [] /\ thrown (off gone q) q' e).
Proof.
  intros Hi Hf Hc Ht Hn gone. unfold remove. apply scoped_tries.
  { intros q1 q2 k Hc12 _ [-> Ho]. split; [done|]. by apply (off_core _ q q q1). }
  { intros q1 q2 e Hc12 (Hg & He & Ho). split; [done|]. split; [done|]. by apply (off_core _ q q q1). }
  intros q0 H0. pose proof H0 as (E0 & _). apply tries_after. eapply runs_mono.
  { apply remove_loop_runs; [by apply (inv_core res q)|by cbn; unfold seq_ok, INT_MAX|unfold counts_ok; lia|].
    rewrite E0. eapply Nat.le_lt_trans; [apply length_filter|exact Hn]. }
  intros q1 r. cbn beta zeta. rewrite visible_new. unfold shown. rewrite E0. fold (shown t q). fold gone.
  intros [-> Ho]. apply tries_bind. eapply tries_mono; [by apply dispose_tries| |].
  - intros q2 [] H2. apply tries_runs. mrun. split; [done|]. by eapply off_core.
  - intros q2 e (Hg & He & H2). split; [done|]. split; [done|]. by eapply off_core.
Qed.
End removal.

(** ** Ring queues ([LossyQueue::checkDepth]) *)

Section ring.
Context {S E : Type} `{!Messages S, !MessagesLaws S, !QueueEnv E, !QueueEnvLaws E, hooks : Hooks, hlaws : !HooksLaws}.
Context (res : list Message).

Implicit Types (q : Queue S E).

(** a purging reader sees every message on the queue *)
Lemma shown_purge q : queue_inv res q -> shown PURGE q = live (messages q).
Proof.
  intros Hi. apply filter_all, Forall_forall. intros x Hx. destruct (inv_live _ _ _ Hi Hx) as [_ [Hst|Hst]];
    unfold sees; by rewrite Hst.
Qed.

(** one call of [remove] takes the oldest message *)
Lemma purge_one_tries k f q :
  queue_inv res q -> outward f -> (length (live (messages q)) < k)%nat ->
  let after q' := queue_inv res q' /\ keeps q q' /\ live (messages q') = tail (live (messages q)) in
  tries (remove k 1 (fun _ => true) f PURGE false 0) q
    (fun q' r => r = (if decide (live (messages q) = []) then 0 else 1) /\ after q')
    (fun q' e => live (messages q) <> [] /\ thrown after q' e).
Proof.
  intros Hi Hf Hk after. pose proof (remove_tries res 1 0 (fun _ => true) k f PURGE false q Hi Hf) as Hr.
  rewrite shown_purge in Hr by done. unfold selected, limit in Hr. cbn [Z.eqb] in Hr.
  rewrite filter_all in Hr by (by apply Forall_true). change (Z.to_nat (1 - 0)) with 1%nat in Hr.
  specialize (Hr ltac:(lia) ltac:(lia) Hk). cbn zeta in Hr.
  pose proof (inv_sorted _ _ Hi) as Hs.
  assert (Hoff : forall q', off res (take 1 (live (messages q))) q q' -> after q').
  { intros q' (Hi' & Hk' & Hl'). split; [done|]. split; [done|]. rewrite Hl'.
    destruct (live (messages q)) as [|x l] eqn:El; [done|]. cbn [take firstn tail].
    rewrite filter_cons_False by set_solver. apply filter_all, Forall_forall. intros y Hy Hyx.
    apply list_elem_of_singleton in Hyx as ->. cbn [map] in Hs. apply StronglySorted_inv in Hs as [_ Hall].
    rewrite Forall_map, Forall_forall in Hall. specialize (Hall x Hy). cbn beta in Hall. lia. }
  eapply tries_mono; [exact Hr| |].
  - intros q' r [-> Ho]. split; [|by apply Hoff]. by destruct (live (messages q)).
  - intros q' e (Hg & He & Ho). split; [by destruct (live (messages q))|]. split; [done|by apply Hoff].
Qed.

(** the oldest messages go, as few of them as make room *)
Definition makes_room (m : Message) (j : nat) q : Prop :=
  (forall i, (i < j)%nat -> ~ fits (maxDepth (settings q)) (drop i (live (messages q)) ++ res) m) /\
  (fits (maxDepth (settings q)) (drop j (live (messages q)) ++ res) m \/ drop j (live (messages q)) = []).

(** what is left when rerouting or the store throws on the way *)
Definition cut_short (m : Message) q q' : Prop :=
  exists j, (0 < j <= length (live (messages q)))%nat /\
    (forall i, (i < j)%nat -> ~ fits (maxDepth (settings q)) (drop i (live (messages q)) ++ res) m) /\
    live (messages q') = drop j (live (messages q)) /\ queue_inv res q'.

Lemma reroute_outward x : outward (S:=S) (E:=E) (reroute x).
Proof. intros m q. unfold reroute. destruct x; [apply call_tries|done]. Qed.

Lemma lossy_loop_tries n k q m :
  queue_inv res q -> 0 <= getMessageSize (encoding m) -> priorities (settings q) = 0 ->
  (length (live (messages q)) < n)%nat -> (length (live (messages q)) < k)%nat ->
  tries (lossy_loop n k (depth1 m) m) q
    (fun q' _ => exists j, makes_room m j q /\ queue_inv res q' /\ keeps q q' /\
                  live (messages q') = drop j (live (messages q)))
    (thrown (cut_short m q)).
Proof.
  revert q. induction n as [|n IH]; intros q Hi Hm Hpr Hn Hk; [lia|]. cbn [lossy_loop]. apply tries_after. mrun.
  pose proof (exceeds_fits _ _ _ m (qi_acct _ _ Hi) Hm) as Hfit.
  destruct (exceeds (depth1 m) q) eqn:Hex.
  2: { exists 0%nat. split; [split; [lia|left; by apply Hfit]|by split_and!]. }
  assert (Hno : ~ fits (maxDepth (settings q)) (live (messages q) ++ res) m) by (rewrite <- Hfit; done).
  apply tries_bind. unfold lossy_pred. rewrite Hpr. cbn [Z.eqb].
  eapply tries_mono; [apply purge_one_tries; [done|apply reroute_outward|done]| |].
  2: { intros q1 e (Hne & He & Hi1 & Hk1 & Hl1). split; [done|]. exists 1%nat.
    destruct (live (messages q)) as [|x l] eqn:El; [done|]. cbn [length].
    split; [lia|]. split; [|by split]. intros i Hi'. by replace i with 0%nat by lia. }
  intros q1 r (-> & Hi1 & Hk1 & Hl1).
  destruct (live (messages q)) as [|x l] eqn:El.
  { rewrite decide_True by done. apply tries_runs. mrun. exists 0%nat. unfold makes_room. rewrite El. cbn [drop] in *.
    split; [split; [lia|by right]|]. split_and!; try done; try apply Hk1. }
  rewrite decide_False by done. cbn [Z.eqb negb tail] in *. cbn [length] in Hn, Hk.
  assert (Eset : settings q1 = settings q) by apply Hk1.
  eapply tries_mono; [apply IH; rewrite ?Hl1, ?Eset; (done || lia)| |].
  - intros q2 u (j & [Hj1 Hj2] & Hi2 & Hk2 & Hl2). rewrite Hl1, Eset in *.
    exists (Datatypes.S j). unfold makes_room. rewrite El. cbn [drop skipn]. split.
    + split; [|exact Hj2]. intros [|i] Hi'; [exact Hno|]. apply Hj1. lia.
    + split; [done|]. split; [by eapply keeps_trans|done].
  - intros q2 e. apply thrown_mono. intros (j & Hj & Hj1 & Hl2 & Hi2). rewrite Hl1, Eset in *.
    exists (Datatypes.S j). rewrite El. cbn [drop skipn length]. split; [lia|].
    split; [|by split]. intros [|i] Hi'; [exact Hno|]. apply Hj1. lia.
Qed.
End ring.
