(* ===== verification/QueueSystem.v ===== *)
(** * A queue in use

    [queue_correct]: whatever publishers, consumers, transactions and
    management do with a queue, in any order, its invariant holds and none of
    its assertions fails.  The commands are the public operations of
    src/qpid/broker/Queue.cpp; a client may only act on messages it was given.
    The producer flow limit is an instance of the observers' interface, and
    [flow_controlled_queue] is the theorem for the queue the broker creates by
    default: a [MessageDeque], a [FifoDistributor] and a [QueueFlowLimit]. *)

From Stdlib Require Import ZArith Lia Ascii String.
From stdpp Require Import gmap.
From S2P Require Import Prelude SequenceNumber FlowLimit Messages Queue QueueCorrect QueueDispatch.

Section system.
Context {S E : Type} `{!Messages S, !MessagesLaws S, !FifoMessages S, !QueueEnv E, !QueueEnvLaws E,
  !Hooks, !HooksLaws}.

Implicit Types q : Queue S E.

Inductive Command :=
| DeliverMsg (m : Message)
| TxPrepare (m : Message)
| TxCommit (i : nat)
| TxRollback (i : nat)
| Release (c : QueueCursor) (markRedelivered : bool)
| Acquire (c : QueueCursor) (consumer : str)
| Dequeue (ctxt : bool) (c : QueueCursor)
| DequeueCommitted (c : QueueCursor)
| Reject (c : QueueCursor)
| DequeueAt (pos : Z)
| GetNext (c : Consumer) (filt acc : Message -> bool)
| Purge (qty : Z) (dest : option nat) (filt : Message -> bool)
| Consume (c : Consumer) (exclusive : bool)
| Cancel (c : Consumer)
| MarkInUse (controlling : bool)
| ReleaseFromUse (controlling : bool).

(** the queue, and the messages of the transactions that are prepared *)
Abbreviation State := (list Message * Queue S E)%type.

Definition failure {A} (r : Queue S E * outcome A) : Queue S E * option exn :=
  (r.1, match r.2 with Ret _ => None | Throw e => Some e end).

Definition exec_tx (i : nat) (op : Message -> M (Queue S E) unit) (st : State) : State * option exn :=
  match st.1 !! i with
  | Some m => let '(q, e) := failure (op m st.2) in ((take i st.1 ++ drop (Datatypes.S i) st.1, q), e)
  | None => (st, None)
  end.

Definition exec_op {A} (op : M (Queue S E) A) (st : State) : State * option exn :=
  let '(q, e) := failure (op st.2) in ((st.1, q), e).

Definition exec (n : nat) (cmd : Command) (st : State) : State * option exn :=
  match cmd with
  | DeliverMsg m => exec_op (deliverTo checkDepth push false m) st
  | TxPrepare m =>
      match prepare checkDepth (new_TxPublish m) st.2 with
      | (q, Ret (t, _)) => ((if prepared t then st.1 ++ [tx_message t] else st.1, q), None)
      | (q, Throw e) => ((st.1, q), Some e)
      end
  | TxCommit i => exec_tx i (fun m => commit push (mkTxPublish m true)) st
  | TxRollback i => exec_tx i (fun m => rollback (mkTxPublish m true)) st
  | Release c mark => exec_op (release c mark) st
  | Acquire c name => exec_op (acquire c name) st
  | Dequeue ctxt c => exec_op (dequeue ctxt c) st
  | DequeueCommitted c => exec_op (dequeueCommitted c) st
  | Reject c => exec_op (reject c) st
  | DequeueAt p => exec_op (dequeueMessageAt p) st
  | GetNext c filt acc => exec_op (getNextMessage n filt acc c) st
  | Purge qty dest filt => exec_op (purge n qty dest filt) st
  | Consume c ex => exec_op (consume c ex) st
  | Cancel c => exec_op (cancel c) st
  | MarkInUse b => exec_op (markInUse b) st
  | ReleaseFromUse b => exec_op (releaseFromUse b) st
  end.

Fixpoint exec_all (n : nat) (cmds : list Command) (st : State) : State * list exn :=
  match cmds with
  | [] => (st, [])
  | cmd :: cmds' =>
      let '(st1, e) := exec n cmd st in
      let '(st2, es) := exec_all n cmds' st1 in
      (st2, match e with Some e => e :: es | None => es end)
  end.

(** what the callers of the queue keep to *)
Definition allowed (n : nat) (cmd : Command) (st : State) : Prop :=
  let '(res, q) := st in
  (length (live (messages q)) < n)%nat /\
  match cmd with
  | DeliverMsg m => room res q (intercept_record m) /\ sequence q + 1 < INT_MAX
  | TxPrepare m => room res q m
  | TxCommit _ => sequence q + 1 < INT_MAX
  | TxRollback _ => True
  | Release c _ =>
      marks c /\ can_release (messages q) /\
      exists m, lookup_seq (position c) (live (messages q)) = Some m /\ getState m = ACQUIRED
  | Acquire c name => marks c /\ name <> []
  | Dequeue _ c | DequeueCommitted c | Reject c => marks c
  | DequeueAt p => seq_ok p
  | GetNext c _ _ =>
      seq_ok (position (getCursor c)) /\ c_name c <> [] /\
      (* the store removes a message that has expired *)
      (forall m e, m ∈ live (messages q) -> hasExpired m = true -> ~ store_fails m e)
  | Purge qty _ _ => 0 <= qty < 2 ^ 32
  | Consume _ _ => True
  | Cancel c =>
      isCounted c = true ->
      if acquires c then 0 < consumers (users (usage q)) else 0 < browsers (users (usage q))
  | MarkInUse b => b = true -> controller (users (usage q)) = false
  | ReleaseFromUse b =>
      if b then controller (users (usage q)) = true else 0 < others (users (usage q))
  end.

Fixpoint allowed_all (n : nat) (cmds : list Command) (st : State) : Prop :=
  match cmds with
  | [] => True
  | cmd :: cmds' => allowed n cmd st /\ allowed_all n cmds' (exec n cmd st).1
  end.

Definition good (r : State * option exn) : Prop :=
  queue_inv r.1.1 r.1.2 /\ match r.2 with Some e => proper e | None => True end.

Lemma exec_tries {A} (op : M (Queue S E) A) res q :
  tries op q (fun q' _ => queue_inv res q') (thrown (queue_inv res)) -> good (exec_op op (res, q)).
Proof. unfold tries, good, exec_op, failure. cbn [snd]. by destruct (op q) as [q' [a|e]]; [|intros []]. Qed.

Lemma exec_runs {A} (op : M (Queue S E) A) res q :
  runs op q (fun q' _ => queue_inv res q') -> good (exec_op op (res, q)).
Proof.
  unfold runs, good, exec_op, failure. cbn [snd]. destruct (op q) as [q' [a|e]]; [|done]. by intros Hi.
Qed.

Lemma removed_inv res p q q' : queue_inv res q -> removed_at res p q q' -> queue_inv res q'.
Proof.
  intros Hi. unfold removed_at. destruct (lookup_seq _ _); [by intros [? _]|by intros <-].
Qed.

(** *** Publication *)

Lemma accept_tries m q : tries (accept m) q (fun q' _ => core q q') (thrown (core q)).
Proof.
  unfold accept. apply tries_after. mrun. destruct (_ && _).
  { apply tries_bind. destruct (alternateExchange _); [|done].
    eapply tries_mono; [apply call_tries|by intros q' [] Hc|done]. }
  by destruct (isLocal q m), (excluded q m).
Qed.

Lemma room_core res q q' m : core q q' -> room res q m -> room res q' m.
Proof. intros (Em & _). unfold room. by rewrite Em. Qed.

Lemma deliver_good res q m :
  queue_inv res q -> room res q (intercept_record m) -> sequence q + 1 < INT_MAX ->
  good (exec_op (deliverTo checkDepth push false m) (res, q)).
Proof.
  intros Hi Hr Hs. unfold exec_op, deliverTo. cbn [snd fst].
  pose proof (accept_tries m q) as Hacc. unfold tries in Hacc. destruct (accept m q) as [q0 [ok|e]] eqn:E0.
  2: { rewrite (bind_Throw _ _ _ _ _ E0). destruct Hacc as [He Hc]. split; [by apply (inv_core res q)|done]. }
  rename Hacc into Hc. rewrite (bind_Ret _ _ _ _ _ E0). assert (Hi0 : queue_inv res q0) by (by apply (inv_core res q)).
  destruct ok; [|by split]. cbn beta iota.
  pose proof (enqueue_ends res q0 (intercept_record m) Hi0 (room_core _ _ _ _ Hc Hr)) as He.
  destruct (enqueue checkDepth (intercept_record m) q0) as [q1 [[m1 b]|e]] eqn:E1.
  - rewrite (bind_Ret _ _ _ _ _ E1). cbn [fst snd]. destruct b; [|destruct He as [_ ->]; by split].
    destruct He as (_ & _ & _ & Hi1 & _ & Hk1).
    assert (Hs1 : sequence q1 = sequence q).
    { destruct Hk1 as [-> _]. by destruct Hc as (_ & _ & -> & _). }
    rewrite <- (app_nil_r [m1]) in Hi1.
    destruct (runs_inv _ _ _ (push_runs res [] q1 m1 Hi1 ltac:(by rewrite Hs1))) as (q2 & [] & E2 & Hi2 & _).
    rewrite (bind_Ret _ _ _ _ _ E2). rewrite app_nil_r in Hi2. by split.
  - rewrite (bind_Throw _ _ _ _ _ E1). destruct He as [Hc1 He]. split; [by apply (inv_core res q0)|].
    destruct He as [[_ ->]|He]; [done|by eapply store_throws].
Qed.

(** *** Transactions *)

Lemma prepare_good n res q m :
  queue_inv res q -> room res q m -> good (exec n (TxPrepare m) (res, q)).
Proof.
  intros Hi Hr. cbn [exec snd fst]. unfold prepare, catch. cbn [tx_message new_TxPublish].
  pose proof (enqueue_ends res q m Hi Hr) as He.
  destruct (enqueue checkDepth m q) as [q1 [[m1 b]|e]] eqn:E1.
  - rewrite (bind_Ret _ _ _ _ _ E1). mstep. cbn [fst snd prepared tx_message].
    destruct b; [by destruct He as (_ & _ & _ & Hi1 & _)|]. by destruct He as [_ ->].
  - rewrite (bind_Throw _ _ _ _ _ E1). destruct He as [Hc1 He].
    assert (Hi1 : queue_inv res q1) by (by apply (inv_core res q)).
    assert (Hp : proper e) by (destruct He as [[_ ->]|He]; [done|by eapply store_throws]).
    destruct Hp as (? & ? & ?), e; by split.
Qed.

Lemma catch_runs {A} (op h : M (Queue S E) A) q P : runs op q P -> runs (catch op h) q P.
Proof. unfold runs, catch. by destruct (op q) as [q' [a|e]]. Qed.

Lemma tx_good i op res q :
  queue_inv res q ->
  (forall r1 m r2, res = r1 ++ m :: r2 -> runs (op m) q (fun q' _ => queue_inv (r1 ++ r2) q')) ->
  good (exec_tx i op (res, q)).
Proof.
  intros Hi Hop. unfold exec_tx. cbn [fst snd]. destruct (res !! i) as [m|] eqn:Ei; [|by split].
  pose proof (Hop _ _ _ (eq_sym (take_drop_middle _ _ _ Ei))) as Hr.
  destruct (runs_inv _ _ _ Hr) as (q' & [] & E1 & Hi'). unfold failure. rewrite E1. by split.
Qed.

(** *** Users of the queue *)

Lemma schedule_good q : runs scheduleAutoDelete q (fun q' _ => core q q').
Proof. destruct (schedule_core q) as (q' & E1 & Hc & _). by eapply runs_eq. Qed.

Lemma on_users_core f q u :
  f (users (usage q)) = Ret u -> runs (on_users f) q (fun q' _ => core q q').
Proof. intros Hf. unfold on_users. mrun. rewrite Hf. by mrun. Qed.

Lemma then_schedule q q1 (b : bool) :
  core q q1 -> runs (if b then scheduleAutoDelete else mret tt) q1 (fun q' _ => core q q').
Proof.
  intros Hc. destruct b; [|by mrun]. eapply runs_mono; [apply schedule_good|].
  intros q2 a Hc2. by rewrite Hc.
Qed.

Lemma cancel_core c q :
  (isCounted c = true ->
   if acquires c then 0 < consumers (users (usage q)) else 0 < browsers (users (usage q))) ->
  runs (cancel c) q (fun q' _ => core q q').
Proof.
  intros Hu. unfold cancel, removeListener_op. mrun. cbn [messages set_listeners].
  apply (runs_mono _ _ (fun q1 _ => core q q1 /\ usage q1 = usage q)).
  { destruct (negb _); [|by mrun]. unfold populate_op. mrun.
    by destruct (populate _) as [l [cc bs]]. }
  intros q1 set [Hc1 Hu1]. mrun. destruct (isCounted c); [|by mrun]. specialize (Hu eq_refl).
  apply runs_bind. apply (runs_mono _ _ (fun q2 _ => core q q2)).
  - assert (Hc2 : core q (emit (notify set) q1)) by (by rewrite Hc1). rewrite <- Hu1 in Hu.
    destruct (acquires c); mrun;
      (eapply runs_mono; [eapply on_users_core; unfold removeConsumer, removeBrowser;
        cbn [usage emit]; by rewrite (proj2 (Z.ltb_lt _ _) Hu)|]); intros q2 a Hc3; mrun; by rewrite Hc2.
  - intros q2 a Hc2. mrun. by apply then_schedule.
Qed.

Lemma markInUse_core b q :
  (b = true -> controller (users (usage q)) = false) -> runs (markInUse b) q (fun q' _ => core q q').
Proof.
  intros Hu. unfold markInUse. destruct b; eapply on_users_core; [|done].
  unfold addLifecycleController. by rewrite Hu.
Qed.

Lemma releaseFromUse_core (b : bool) q :
  (if b then controller (users (usage q)) = true else 0 < others (users (usage q))) ->
  runs (releaseFromUse b) q (fun q' _ => core q q').
Proof.
  intros Hu. unfold releaseFromUse. destruct b; apply runs_bind.
  - eapply runs_mono; [eapply on_users_core; unfold removeLifecycleController; by rewrite Hu|].
    intros q1 a Hc. by apply (then_schedule q q1 true).
  - eapply runs_mono; [eapply on_users_core; unfold removeOther; by rewrite (proj2 (Z.ltb_lt _ _) Hu)|].
    intros q1 a Hc. mrun. by apply then_schedule.
Qed.

Lemma consume_good c ex res q : queue_inv res q -> good (exec_op (consume c ex) (res, q)).
Proof.
  intros Hi. unfold exec_op, consume, guard_throw, modify, get. cbn [snd fst]. mstep.
  assert (Hcore : forall q', core q q' -> queue_inv res q') by (intros q' Hc; by apply (inv_core res q)).
  destruct (acquires c).
  - destruct (isBrowseOnly _); [by split|]. destruct (bool_decide _); [by split|].
    destruct (ex && _); [by split|].
    destruct ex, (isCounted c); try destruct (negb _ && _); (split; [by apply Hcore|done]).
  - destruct (isCounted c); try destruct (negb _ && _); (split; [by apply Hcore|done]).
Qed.

(** *** Any command *)

Lemma core_good {A} (op : M (Queue S E) A) res q :
  queue_inv res q -> runs op q (fun q' _ => core q q') -> good (exec_op op (res, q)).
Proof.
  intros Hi Hr. apply exec_runs. eapply runs_mono; [exact Hr|]. intros q' a Hc. by apply (inv_core res q).
Qed.

Lemma removed_good {A} (op : M (Queue S E) A) res q p (P : Queue S E -> A -> Prop) :
  queue_inv res q -> (forall q' a, P q' a -> removed_at res p q q') ->
  tries op q P (thrown (removed_at res p q)) -> good (exec_op op (res, q)).
Proof.
  intros Hi HP Hr. apply exec_tries. eapply tries_mono; [exact Hr| |].
  - intros q' a Hq. by eapply removed_inv, HP.
  - intros q' e. apply thrown_mono. by apply removed_inv.
Qed.

Lemma dispatch_good n c filt acc res q :
  queue_inv res q -> seq_ok (position (getCursor c)) -> c_name c <> [] ->
  (forall m e, m ∈ live (messages q) -> hasExpired m = true -> ~ store_fails m e) ->
  (length (live (messages q)) < n)%nat -> good (exec_op (getNextMessage n filt acc c) (res, q)).
Proof.
  intros Hi Hp Hn Hst Hlt. destruct (deleted q) eqn:Hd.
  - unfold exec_op, getNextMessage, checkNotDeleted, guard_throw, get. mstep. cbn [fst snd].
    rewrite Hd. by destruct (hideDeletedError c).
  - apply exec_tries. eapply tries_mono; [by apply (getNextMessage_tries filt acc res)| |].
    + intros q' [c' r] Hpost. apply Hpost.
    + intros q' e (seen & m & rest & Hv & _ & Hf & _ & _ & Hx & _). destruct (Hst m e); [|done..].
      assert (Hin : m ∈ visible c q) by (rewrite Hv; set_solver).
      by apply list_elem_of_filter in Hin as [_ [_ ?]%list_elem_of_filter].
Qed.

Lemma exec_good n cmd st :
  queue_inv st.1 st.2 -> allowed n cmd st -> good (exec n cmd st).
Proof.
  destruct st as [res q]. intros Hi [Hn Ha]. cbn [fst snd] in Hi.
  destruct cmd as [m|m|i|i|c mark|c name|ctxt c|c|c|p|c filt acc|qty dest filt|c ex|c|b|b]; cbn [exec].
  - destruct Ha. by apply deliver_good.
  - by apply (prepare_good n).
  - apply tx_good; [done|]. intros r1 m r2 ->. apply catch_runs. cbn [prepared tx_message].
    eapply runs_mono; [by apply push_runs|]. intros q' a Hpost. apply Hpost.
  - apply tx_good; [done|]. intros r1 m r2 ->. apply catch_runs. cbn [prepared tx_message].
    eapply runs_mono; [by apply aborted_runs|]. intros q' a Hpost. apply Hpost.
  - destruct Ha as (Hm & Hcan & m & El & Hst). destruct (deleted q) eqn:Hd.
    + unfold exec_op, release. mstep. cbn [get fst snd]. by rewrite Hd.
    + apply exec_runs. eapply runs_mono; [by eapply release_runs|]. intros q' a Hpost. apply Hpost.
  - destruct Ha. apply exec_runs. eapply runs_mono; [by apply (acquire_runs res)|].
    intros q' a Hpost. apply Hpost.
  - apply exec_tries. destruct ctxt.
    + eapply tries_mono; [by apply (dequeue_tx_tries res)|intros q' a Hc; by apply (inv_core res q)|].
      intros q' e. apply thrown_mono. intros Hc. by apply (inv_core res q).
    + eapply tries_mono; [by apply (dequeue_notx_tries res)| |].
      * intros q' a Hpost. cbn beta in Hpost.
        destruct (deleted q); [by rewrite Hpost|exact (removed_inv _ _ _ _ Hi Hpost)].
      * intros q' e. apply thrown_mono. by apply removed_inv.
  - eapply removed_good; [done| |by apply (dequeueCommitted_tries res)]. intros q' a Hpost. exact Hpost.
  - eapply removed_good; [done| |by apply (reject_tries res)]. intros q' a Hpost. exact Hpost.
  - eapply removed_good; [done| |by apply (dequeueMessageAt_tries res)]. intros q' a [Hpost _]. exact Hpost.
  - destruct Ha as (? & ? & ?). by apply dispatch_good.
  - apply exec_tries. unfold purge. apply tries_after. mrun.
    eapply tries_mono; [by apply (remove_tries res); [done|apply reroute_outward|..]| |].
    + intros q' k [_ Hoff]. apply Hoff.
    + intros q' e [_ Ht]. eapply thrown_mono; [|exact Ht]. intros Hoff. apply Hoff.
  - by apply consume_good.
  - by apply core_good; [|apply cancel_core].
  - by apply core_good; [|apply markInUse_core].
  - by apply core_good; [|apply releaseFromUse_core].
Qed.

Lemma exec_all_good n cmds st :
  queue_inv st.1 st.2 -> allowed_all n cmds st ->
  let '(st', es) := exec_all n cmds st in queue_inv st'.1 st'.2 /\ Forall proper es.
Proof.
  revert st. induction cmds as [|cmd cmds IH]; intros st Hi Ha; [by split|].
  destruct Ha as [Hc Ha]. destruct (exec_good n cmd st Hi Hc) as [Hi1 He]. cbn [exec_all].
  destruct (exec n cmd st) as [st1 e]. cbn [fst snd] in *. specialize (IH st1 Hi1 Ha).
  destruct (exec_all n cmds st1) as [st2 es]. destruct IH as [Hi2 Hes]. split; [done|].
  destruct e; [by constructor|done].
Qed.
End system.

(** ** The producer flow limit as an observer *)

Module Limit := QueueFlowLimit.

(** what the limit sees of a message *)
Definition limited (m : Message) : Limit.Message :=
  Limit.mkMessage (getSequence m) (getMessageSize (encoding m)).

(** [QueueFlowLimit] observes; [FifoDistributor] distributes *)
#[global] Instance QueueFlowLimit_env : QueueEnv Limit.QueueFlowLimit := {|
  env_acquire := fifo_acquire;
  env_enqueued m := Limit.enqueued (limited m);
  env_acquired _ := mret tt;
  env_requeued _ := mret tt;
  env_dequeued m := Limit.dequeued (limited m)
|}.

(** the limit follows the messages [l], and keeps its promise to producers *)
Definition tracks (f : Limit.QueueFlowLimit) (l : list Message) : Prop :=
  exists g a, Limit.refines g f a /\ Limit.queued a = map limited l /\ Limit.levels_ok g /\
    0 <= Limit.flowResumeCount g /\ 0 <= Limit.flowResumeSize g /\ Limit.promise g a.

Lemma limited_same l l' :
  map getSequence l' = map getSequence l -> map encoding l' = map encoding l ->
  map limited l' = map limited l.
Proof.
  revert l'. induction l as [|m l IH]; intros [|m' l']; try done. cbn [map]. intros [= E1 E2] [= E3 E4].
  f_equal; [|by apply IH]. unfold limited. by rewrite E1, E3.
Qed.

Lemma same_maps l l' :
  Forall2 same l l' -> map getSequence l' = map getSequence l /\ map encoding l' = map encoding l.
Proof.
  induction 1 as [|m m' l l' (Hs & _ & He) _ [IH1 IH2]]; [done|]. cbn [map]. by rewrite Hs, He, IH1, IH2.
Qed.

Lemma limited_total l : Limit.total (map limited l) = total l.
Proof.
  induction l as [|m l IH]; [done|]. cbn [map]. rewrite Limit.total_cons, IH. done.
Qed.

Lemma limited_depth l : Limit.depth (map limited l) = Z.of_nat (length l).
Proof. unfold Limit.depth. by rewrite length_map. Qed.

Lemma limited_without m l : Limit.without (limited m) (map limited l) = map limited (without m l).
Proof.
  unfold Limit.without, without. induction l as [|x l IH]; [done|]. cbn [map].
  destruct (decide (getSequence x = getSequence m)) as [Heq|Hne].
  - rewrite !filter_cons_False by (cbn; congruence). exact IH.
  - rewrite !filter_cons_True by (cbn; congruence). cbn [map]. by f_equal.
Qed.

Lemma tracks_command f l c l' :
  tracks f l -> Limit.admissible c (map limited l) ->
  map limited l' = match c with
                   | Limit.Enqueue m => map limited l ++ [m]
                   | Limit.Dequeue m => Limit.without m (map limited l)
                   end ->
  exists f', Limit.run_command c f = (f', Ret tt) /\ tracks f' l'.
Proof.
  intros (g & a & Hr & Hq & Hlev & H1 & H2 & Hp) Hadm Hl. rewrite <- Hq in Hadm.
  destruct (Limit.limit_command_refines g f a c Hr Hadm) as (f' & E1 & Hr').
  exists f'. split; [done|]. exists g, (Limit.spec_command g c a). do 5 (split; [done || by rewrite Limit.queued_command, Hq|]).
  by eapply Limit.command_promise.
Qed.

#[global, refine] Instance QueueFlowLimit_laws : QueueEnvLaws Limit.QueueFlowLimit := {| env_ok := tracks |}.
Proof.
  - (* law_same *)
    intros f l l' (g & a & Hr & Hq & Hrest) Hsame. exists g, a. split; [done|]. split; [|done].
    rewrite Hq. symmetry. by apply limited_same; apply same_maps.
  - (* law_enqueued *)
    intros f l m Hf Hs Hok Hlt Hlen Htot.
    apply (tracks_command f l (Limit.Enqueue (limited m))); [done| |by rewrite map_app].
    cbn [Limit.admissible]. change [limited m] with (map limited [m]).
    rewrite <- map_app, limited_depth, limited_total.
    rewrite Forall_app, Forall_singleton in Hok. destruct Hok as [Hok [Hm1 Hm2]]. split_and!; try done.
    apply Forall_map, Forall_forall. intros x Hx. cbn [Limit.getSequence limited].
    rewrite Forall_forall in Hok, Hlt. destruct (Hok x Hx) as [Hx1 _].
    rewrite seq_ok_lt by done. apply Z.ltb_lt. by apply Hlt.
  - (* law_acquire *)
    intros f l c m Hf Hm _. cbn [env_acquire env_acquired QueueFlowLimit_env]. unfold fifo_acquire.
    destruct (decide (getState m = AVAILABLE)) as [Hst|Hst].
    + exists f, ACQUIRED, true. split; [done|]. split; [done|]. split; [done|]. exists f. split; [done|].
      destruct Hf as (g & a & Hr & Hq & Hrest). exists g, a. split; [done|]. split; [|done].
      rewrite Hq. symmetry. apply limited_same; by apply at_seq_map.
    + exists f, (getState m), false. by split_and!.
  - (* law_requeued *)
    intros f l m m' (g & a & Hr & Hq & Hrest) _ _ _ _. exists f. split; [done|]. exists g, a. split; [done|].
    split; [|done]. rewrite Hq. symmetry. apply limited_same; by apply at_seq_map.
  - (* law_dequeued *)
    intros f l m Hf Hm. apply (tracks_command f l (Limit.Dequeue (limited m))); [done| |].
    + by apply list_elem_of_fmap_2.
    + by rewrite limited_without.
  - (* law_purged *)
    intros f l m Hf Hm _. exists f.
    destruct (tracks_command f l (Limit.Dequeue (limited m)) (without m l) Hf) as (f' & E1 & Hf').
    + by apply list_elem_of_fmap_2.
    + by rewrite limited_without.
    + by exists f'.
Defined.

(** ** What holds of every queue *)

Section theorems.
Context {S E : Type} `{!Messages S, !MessagesLaws S, !QueueEnv E, !QueueEnvLaws E, hooks : Hooks, hlaws : !HooksLaws}.
Implicit Types q : Queue S E.


(** the counters are then one message short *)
Lemma expired_message_uncounted m res q :
  stuck_on res m q -> msgs_ok (messages q) ->
  QueueDepth.getCount (current q) = len (live (messages q)) + len res - 1 /\ ~ queue_inv res q.
Proof.
  intros (_ & Hm & _ & Ha) Hok.
  destruct (without_counts _ _ (live_sorted _ Hok) Hm) as [Hlen _]. unfold without in Ha.
  assert (Hc : QueueDepth.getCount (current q) = len (live (messages q)) + len res - 1).
  { unfold QueueDepth.getCount. rewrite (ac_count _ _ _ Ha). cbn. unfold len in *. lia. }
  split; [done|]. intros [_ _ _ Ha']. unfold QueueDepth.getCount in Hc. rewrite (ac_count _ _ _ Ha') in Hc.
  cbn in Hc. lia.
Qed.


(** the functors the code passes to it *)
Lemma moveTo_outward x : outward (S:=S) (E:=E) (moveTo x).
Proof. intros m q. unfold moveTo. destruct x; [apply call_tries|done]. Qed.

End theorems.
