(* ===== verification/QueueFlow.v ===== *)
(** * The default queue of the broker

    A [MessageDeque] for the messages, a [FifoDistributor] and a
    [QueueFlowLimit]: the theorems of [QueueSystem] for the queue
    [QueueFactory] builds from ordinary settings, and concrete queues on which
    the theorems on dispatch, removal and ring queues are applied. *)

From Stdlib Require Import ZArith Lia Ascii String.
From stdpp Require Import gmap.
From S2P Require Import Prelude SequenceNumber FlowLimit Messages IndexedDeque MessageDeque.
From S2P Require Import Queue QueueCorrect QueueDispatch QueueSystem.

Abbreviation DefaultQueue := (Queue MessageDeque Limit.QueueFlowLimit).

Section default.
Context `{!Hooks, !HooksLaws}.

Lemma merge_ok d limit :
  QueueDepth.depth_wf d -> is_uint 64 limit ->
  let m := merge d limit in
  QueueDepth.depth_wf m /\ (QueueDepth.valid (QueueDepth.count m) = true -> 0 < QueueDepth.getCount m) /\
  QueueDepth.valid (QueueDepth.size m) = negb (QueueDepth.getSize m =? 0).
Proof.
  intros (Hc & Hs & Ic & Is) Hl. destruct d as [[c vc] [s vs]].
  unfold merge, QueueDepth.depth_wf, QueueDepth.hasCount, QueueDepth.hasSize, QueueDepth.getCount,
    QueueDepth.getSize, QueueDepth.setCount, QueueDepth.setSize in *. unfold is_uint in *.
  cbn [QueueDepth.count QueueDepth.size QueueDepth.valid QueueDepth.value] in *.
  destruct vc, vs; cbn [andb].
  all: destruct (c =? 0) eqn:Ec, (s =? 0) eqn:Es, (limit =? 0) eqn:El;
    cbn; split_and!; try done; try lia; rewrite ?Es, ?El; done.
Qed.

Lemma new_queue_inv f st limit store :
  QueueDepth.depth_wf (maxDepth st) -> is_uint 64 limit -> tracks f [] ->
  queue_inv [] (new_Queue new_MessageDeque f st limit store).
Proof.
  intros Hwf Hl Hf. destruct (merge_ok _ _ Hwf Hl) as (Hm1 & Hm2 & Hm3).
  constructor; cbn [messages sequence new_Queue].
  - apply (vi_ok _ new_view_inv).
  - by unfold INT_MAX.
  - done.
  - constructor; cbn [env current settings maxDepth new_Queue]; try done.
    + by destruct (negb _).
    + rewrite Hm3. by destruct (negb _).
    + split; [done|]. split; [intros Hv%Hm2; by apply Z.lt_le_incl|].
      intros _. destruct Hm1 as (_ & [Hs _] & _). exact Hs.
Qed.

(** the promise to producers, in the limit's own terms *)
Lemma tracks_meaning f l :
  tracks f l ->
  Limit.count f = Z.of_nat (length l) /\ Limit.size f = total l /\
  (Limit.above f (map limited l) = true -> Limit.flowStopped f = true) /\
  (l = [] -> Limit.completers (Limit.out f) = Some ∅).
Proof.
  intros (g & a & [(C1 & C2 & C3 & C4) [Hc _] [Hs _] _ _ Hst _ _ _ Hlog] & Hq & _ & _ & _ & Hp1 & _ & Hp3).
  rewrite Hq in *. rewrite limited_depth in Hc. rewrite limited_total in Hs. split_and!; try done.
  - intros Hab. rewrite Hst. apply Hp1. unfold Limit.above in *. by rewrite <- C1, <- C3.
  - intros ->. rewrite Hlog. by rewrite Hp3.
Qed.

Lemma created_tracks d st f managed :
  QueueDepth.depth_wf (Limit.flowResume st) -> Limit.createLimit d st = Ret (Some f) ->
  tracks (Limit.observe managed f) [].
Proof.
  intros Hst (sc & rc & ss & rs & -> & Hlev & Hrc & Hrs & _)%Limit.createLimit_spec; [|done].
  eexists _, _. split; [apply Limit.new_refines|]. split; [done|]. do 3 (split; [done|]).
  split; [|done]. intros Hab. by rewrite Limit.above_nil in Hab.
Qed.

(** C2: the queue the broker creates by default.  For any settings and any
    sequence of publications, transactions, dispatches, acknowledgements,
    releases, rejections, purges and subscriptions by callers that act only on
    messages they were given, while the counters have room for another
    message: provided the store does not throw when a message that has expired
    is removed (any other call on the store, on the alternate exchange or on
    another exchange may throw), every call returns or throws an exception of
    the program (no assertion fails and no loop is cut short), the messages
    are in the order of their numbers, the depth counters are the number and
    bytes of the messages on the queue and in prepared transactions and never
    exceed the configured maximum, and the flow limit counts the messages on
    the queue, holds producers back whenever a stop level is exceeded, and
    holds no message when the queue is empty. *)
Theorem default_queue_correct n d lst f st limit store managed cmds :
  QueueDepth.depth_wf (maxDepth st) -> is_uint 64 limit -> QueueDepth.depth_wf (Limit.flowResume lst) ->
  Limit.createLimit d lst = Ret (Some f) ->
  let q0 : DefaultQueue := new_Queue new_MessageDeque (Limit.observe managed f) st limit store in
  allowed_all n cmds ([], q0) ->
  let '((res, q), es) := exec_all n cmds ([], q0) in
  let l := live (messages q) in
  let max := maxDepth (settings q) in
  Forall proper es /\ StronglySorted Z.lt (map getSequence l) /\
  QueueDepth.getCount (current q) = Z.of_nat (length l + length res) /\
  (QueueDepth.hasSize max = true -> QueueDepth.getSize (current q) = total l + total res) /\
  (QueueDepth.hasCount max = true -> QueueDepth.getCount (current q) <= QueueDepth.getCount max) /\
  (QueueDepth.hasSize max = true -> QueueDepth.getSize (current q) <= QueueDepth.getSize max) /\
  Limit.count (env q) = Z.of_nat (length l) /\ Limit.size (env q) = total l /\
  (Limit.above (env q) (map limited l) = true -> Limit.flowStopped (env q) = true) /\
  (l = [] -> Limit.completers (Limit.out (env q)) = Some ∅).
Proof.
  intros Hwf Hl Hfr Hcr q0 Ha.
  assert (Hi0 : queue_inv [] q0) by (apply new_queue_inv; [done|done|by eapply created_tracks]).
  pose proof (exec_all_good n cmds ([], q0) Hi0 Ha) as Hgood.
  destruct (exec_all n cmds ([], q0)) as [[res q] es]. cbn [fst snd] in Hgood. destruct Hgood as [Hi Hes].
  cbn zeta. pose proof (qi_acct _ _ Hi) as [He Hc Hsz _ (_ & Hm1 & Hm2) _].
  split; [done|]. split; [by eapply inv_sorted|].
  unfold QueueDepth.getCount, QueueDepth.getSize, QueueDepth.hasCount, QueueDepth.hasSize, len in *.
  rewrite Hc, Hsz. cbn [QueueDepth.value QueueDepth.some].
  split; [lia|]. split; [by intros ->|]. split; [exact Hm1|].
  split; [intros Hv; rewrite Hv; by apply Hm2|]. apply (tracks_meaning _ _ He).
Qed.
End default.

(** ** Concrete queues *)

(** a broker without plugins, in which the messages with the number 1 have
    expired and routing through the exchange 9 ends at a full queue *)
#[local] Instance plain_hooks : Hooks := {|
  isLocalTo _ _ := false;
  selector_filter _ := true;
  hasExpired m := (e_id (encoding m) =? 1)%nat;
  intercept_record m := m;
  intercept_publish m := m;
  store_enqueue _ := None;
  call_throws _ ev := match ev with Route 9 _ => Some ResourceLimitExceededException | _ => None end
|}.

#[local] Instance plain_hooks_laws : HooksLaws.
Proof. constructor; try done. by intros h [| | | | | | | | | | | | | |[|[|[|[|[|[|[|[|[|[|x]]]]]]]]]] m|] e [= <-]. Qed.

Definition msg (i : nat) : Message :=
  mkMessage (mkEncoding i (i =? 2)%nat 4 10 [] [] false) 0 AVAILABLE (-1) false [].

(** at most four messages: the broker's defaults stop producers above three *)
Definition max4 : QueueDepth.QueueDepth := QueueDepth.setCount 4 QueueDepth.new_QueueDepth.
Definition settings4 : QueueSettings :=
  mkSettings max4 false DELETE_IF_UNUSED 0 false 0 false (s_ "tag") [] None.
Definition limit4 : Limit.QueueSettings :=
  Limit.mkSettings false QueueDepth.new_QueueDepth QueueDepth.new_QueueDepth max4.
Definition flow4 : Limit.QueueFlowLimit := Limit.new_QueueFlowLimit 3 2 838861 734003.
Definition queue4 : DefaultQueue := new_Queue new_MessageDeque (Limit.observe true flow4) settings4 0 true.

Definition consumer1 : Consumer := mkConsumer 1 (s_ "c1") true true 7 false (new_QueueCursor CONSUMER).
Definition all_messages (_ : Message) : bool := true.

Definition day : list Command :=
  [Consume consumer1 true; DeliverMsg (msg 1); DeliverMsg (msg 2); TxPrepare (msg 3); DeliverMsg (msg 4);
   DeliverMsg (msg 5); GetNext consumer1 all_messages all_messages; TxCommit 0;
   Release (mkCursor CONSUMER 2 0 true) true; DeliverMsg (msg 6); Cancel consumer1].

Lemma day_allowed : allowed_all 9 day ([], queue4).
Proof.
  vm_compute. repeat (split; try done); try lia; [|by eexists].
  intros m e _ _ [_ [h [=]]].
Qed.

Lemma default_queue_correct_witness :
  length (live (messages (exec_all 9 day ([], queue4)).1.2)) = 4%nat /\
  let '((res, q), es) := exec_all 9 day ([], queue4) in
  let l := live (messages q) in
  let max := maxDepth (settings q) in
  Forall proper es /\ StronglySorted Z.lt (map getSequence l) /\
  QueueDepth.getCount (current q) = Z.of_nat (length l + length res) /\
  (QueueDepth.hasSize max = true -> QueueDepth.getSize (current q) = total l + total res) /\
  (QueueDepth.hasCount max = true -> QueueDepth.getCount (current q) <= QueueDepth.getCount max) /\
  (QueueDepth.hasSize max = true -> QueueDepth.getSize (current q) <= QueueDepth.getSize max) /\
  Limit.count (env q) = Z.of_nat (length l) /\ Limit.size (env q) = total l /\
  (Limit.above (env q) (map limited l) = true -> Limit.flowStopped (env q) = true) /\
  (l = [] -> Limit.completers (Limit.out (env q)) = Some ∅).
Proof.
  split; [by vm_compute|].
  exact (default_queue_correct 9 (Limit.mkDefaults 1048576 80 70) limit4 flow4 settings4 0 true true day
    ltac:(by vm_compute) ltac:(by vm_compute) ltac:(by vm_compute) ltac:(by vm_compute) day_allowed).
Defined.

(** a queue with some messages published on it *)
Definition published_on (q : DefaultQueue) (ms : list Message) : DefaultQueue :=
  (exec_all 9 (map DeliverMsg ms) ([], q)).1.2.

Lemma publications_keep cmds n (q : DefaultQueue) :
  Forall (fun c => exists m, c = DeliverMsg m) cmds -> forall res, (exec_all n cmds (res, q)).1.1 = res.
Proof.
  revert q. induction cmds as [|c cmds IH]; intros q Hall res; [done|]. inversion Hall as [|? ? [m ->] Hrest].
  cbn [exec_all exec]. unfold exec_op, failure. cbn [fst snd]. specialize (IH (deliverTo checkDepth push false m q).1 Hrest res).
  destruct (exec_all _ _ _) as [st2 es]. exact IH.
Qed.

Lemma published_inv q ms :
  queue_inv [] q -> allowed_all 9 (map DeliverMsg ms) ([], q) -> queue_inv [] (published_on q ms).
Proof.
  intros Hi Ha. pose proof (exec_all_good 9 (map DeliverMsg ms) ([], q) Hi Ha) as Hg.
  pose proof (publications_keep (map DeliverMsg ms) 9 q ltac:(by apply Forall_map, Forall_true; eauto) []) as Hres.
  unfold published_on. destruct (exec_all _ _ _) as [[res q'] es]. cbn [fst snd] in *. subst res. apply Hg.
Qed.

Lemma default_inv st : QueueDepth.depth_wf (maxDepth st) ->
  queue_inv [] (new_Queue new_MessageDeque (Limit.observe true flow4) st 0 true).
Proof.
  intros Hwf. apply new_queue_inv; [done|by vm_compute|].
  by apply (created_tracks (Limit.mkDefaults 1048576 80 70) limit4); vm_compute.
Qed.

(** three messages: one expired, one the filter refuses, one to deliver *)
Definition queue3 : DefaultQueue := published_on queue4 [msg 1; msg 2; msg 3].

Lemma queue3_inv : queue_inv [] queue3.
Proof.
  apply published_inv; [by apply default_inv|]. vm_compute. repeat (split; try done); lia.
Qed.

Definition not2 (m : Message) : bool := negb (e_id (encoding m) =? 2)%nat.


Example dispatch_third :
  e_id ∘ encoding <$> (match (getNextMessage 9 not2 all_messages consumer1 queue3).2 with
                       | Ret (_, r) => r | Throw _ => None end) = Some 3%nat.
Proof. by vm_compute. Qed.


(** a ring of two messages *)
Definition queue2 : DefaultQueue :=
  new_Queue new_MessageDeque (Limit.observe true flow4)
    (mkSettings (QueueDepth.setCount 2 QueueDepth.new_QueueDepth) false DELETE_IF_UNUSED 0 false 0 false [] [] None)
    0 true.
Definition ring2 : DefaultQueue := published_on queue2 [msg 1; msg 2].

Lemma ring2_inv : queue_inv [] ring2.
Proof.
  apply published_inv; [by apply default_inv|]. vm_compute. repeat (split; try done); lia.
Qed.

