(* ===== verification/MessageGroups.v ===== *)
(** * Message groups (src/qpid/broker/MessageGroupManager.cpp)

    On a queue with message groups a message is granted to a consumer only if
    no other consumer holds a message of the same group.  The manager keeps, for
    each group, its messages in order, how many are acquired and by whom, an
    index of the groups nobody owns by their oldest message, and a cache of the
    group looked up last.  [groups_exclusive] shows that it refines a plain
    list of messages with the consumer that holds each.

    A pointer to a [GroupState] is the name of the group in [messageGroups]: a
    name that is not there is a dangling pointer, undefined behaviour.  The
    reset of the container's cursors is counted in [resets]. *)

From Stdlib Require Import ZArith Lia Ascii String.
From stdpp Require Import gmap strings.
From S2P Require Import Prelude SequenceNumber Messages.

Record MemberState := mkMember { m_position : Z; m_acquired : bool }.

Record GroupState := mkGroup {
  group : str; owner : str; acquired_count : Z; members : list MemberState
}.

Definition new_GroupState : GroupState := mkGroup [] [] 0 [].
Definition owned (g : GroupState) : bool := negb (bool_decide (owner g = [])).

Record MessageGroupManager := mkManager {
  groupIdHeader : str;
  (** a static member *)
  defaultGroupId : str;
  messageGroups : gmap str GroupState;
  freeGroups : gmap Z str;
  lastMsg : Z;
  lastGroup : str;
  cachedGroup : option str;
  resets : nat
}.

Definition new_MessageGroupManager (header defaultId : str) : MessageGroupManager :=
  mkManager header defaultId ∅ ∅ 0 [] None 0.

Abbreviation Op := (M MessageGroupManager).

Definition set_groups (x : gmap str GroupState) (s : MessageGroupManager) : MessageGroupManager :=
  mkManager (groupIdHeader s) (defaultGroupId s) x (freeGroups s) (lastMsg s) (lastGroup s) (cachedGroup s) (resets s).
Definition set_free (x : gmap Z str) (s : MessageGroupManager) : MessageGroupManager :=
  mkManager (groupIdHeader s) (defaultGroupId s) (messageGroups s) x (lastMsg s) (lastGroup s) (cachedGroup s) (resets s).
Definition set_cache (m : Z) (g : str) (c : option str) (s : MessageGroupManager) : MessageGroupManager :=
  mkManager (groupIdHeader s) (defaultGroupId s) (messageGroups s) (freeGroups s) m g c (resets s).
Definition count_reset (s : MessageGroupManager) : MessageGroupManager :=
  mkManager (groupIdHeader s) (defaultGroupId s) (messageGroups s) (freeGroups s) (lastMsg s) (lastGroup s)
    (cachedGroup s) (Datatypes.S (resets s)).

(** through a pointer to a group *)
Definition deref (g : str) : Op GroupState :=
  s ← get;
  match messageGroups s !! g with Some x => mret x | None => throw UndefinedBehaviour end.
Definition store_group (g : str) (x : GroupState) : Op unit :=
  modify (fun s => set_groups (<[g := x]> (messageGroups s)) s).

Definition massert (b : bool) : Op unit := guard_throw (negb b) AssertionFailed.

(** ** The member functions *)

(** [findMsg]: the index of the message, or of the end; the end is
    dereferenced when every message is before the position *)
Definition findMsg (l : list MemberState) (position : Z) : outcome nat :=
  match lower_bound (fun e => SequenceNumber.ltb (m_position e) position) l with
  | (pre, e :: _) => Ret (if m_position e =? position then length pre else length l)
  | (_, []) => Throw UndefinedBehaviour
  end.

(** [members.front()] *)
Definition front (x : GroupState) : Op Z :=
  match members x with e :: _ => mret (m_position e) | [] => throw UndefinedBehaviour end.

Definition unFree (g : str) : Op unit :=
  x ← deref g;
  p ← front x;
  s ← get;
  massert (bool_decide (freeGroups s !! p = Some g)) ;;
  modify (set_free (delete p (freeGroups s))).

Definition own (g : str) (consumer : str) : Op unit :=
  x ← deref g;
  store_group g (mkGroup (group x) consumer (acquired_count x) (members x)) ;;
  unFree g.

Definition disown (g : str) : Op unit :=
  x ← deref g;
  store_group g (mkGroup (group x) [] (acquired_count x) (members x)) ;;
  massert (negb (bool_decide (members x = []))) ;;
  p ← front x;
  s ← get;
  massert (bool_decide (freeGroups s !! p = None)) ;;
  modify (set_free (<[p := g]> (freeGroups s))).

Definition groupOf (s : MessageGroupManager) (m : Message) : str :=
  let g := getPropertyAsString m (groupIdHeader s) in
  if decide (g = []) then defaultGroupId s else g.

(** [messageGroups[group]] makes an entry *)
Definition lookupGroup (thisMsg : Z) (g : str) : Op str :=
  s ← get;
  let found := default new_GroupState (messageGroups s !! g) in
  let found := if bool_decide (group found = [])
               then mkGroup g (owner found) (acquired_count found) (members found) else found in
  store_group g found ;;
  modify (set_cache thisMsg g (Some g)) ;;
  mret g.

Definition findGroup (m : Message) : Op str :=
  s ← get;
  let thisMsg := getSequence m in
  let g := groupOf s m in
  match cachedGroup s with
  | Some c =>
      if lastMsg s =? thisMsg then mret c
      else if bool_decide (g = lastGroup s) then
        modify (set_cache thisMsg (lastGroup s) (Some c)) ;; mret c
      else lookupGroup thisMsg g
  | None => lookupGroup thisMsg g
  end.

Definition enqueued (m : Message) : Op unit :=
  g ← findGroup m;
  x ← deref g;
  let l := members x ++ [mkMember (getSequence m) false] in
  store_group g (mkGroup (group x) (owner x) (acquired_count x) l) ;;
  if u32 (Z.of_nat (length l)) =? 1 then
    s ← get;
    massert (bool_decide (freeGroups s !! getSequence m = None)) ;;
    modify (set_free (<[getSequence m := g]> (freeGroups s)))
  else mret tt.

(** the found member is at an index of the list *)
Definition find_member (x : GroupState) (m : Message) : Op nat :=
  i ← lift_outcome (findMsg (members x) (getSequence m));
  massert (negb (Nat.eqb i (length (members x)))) ;;
  mret i.

Definition acquired (m : Message) : Op unit :=
  g ← findGroup m;
  x ← deref g;
  i ← find_member x m;
  store_group g (mkGroup (group x) (owner x) (u32 (acquired_count x + 1))
                   (alter (fun e => mkMember (m_position e) true) i (members x))).

Definition requeued (m : Message) : Op unit :=
  g ← findGroup m;
  x ← deref g;
  massert (negb (acquired_count x =? 0)) ;;
  let n := u32 (acquired_count x - 1) in
  i ← find_member x m;
  let x := mkGroup (group x) (owner x) n (alter (fun e => mkMember (m_position e) false) i (members x)) in
  store_group g x ;;
  if (n =? 0) && owned x then disown g else mret tt.

(** the group after a message left: erased, given back or as it was *)
Definition left_group (g : str) (x : GroupState) (reFreeNeeded : bool) : Op unit :=
  if u32 (Z.of_nat (length (members x))) =? 0 then
    modify (fun s =>
      let c := if bool_decide (cachedGroup s = Some g) then None else cachedGroup s in
      set_groups (delete (group x) (messageGroups s)) (set_cache (lastMsg s) (lastGroup s) c s))
  else if (acquired_count x =? 0) && owned x then disown g ;; modify count_reset
  else if reFreeNeeded then disown g
  else mret tt.

Definition dequeued (m : Message) : Op unit :=
  g ← findGroup m;
  x ← deref g;
  i ← find_member x m;
  let was := default false (m_acquired <$> members x !! i) in
  massert (negb was || negb (acquired_count x =? 0)) ;;
  let n := if was then u32 (acquired_count x - 1) else acquired_count x in
  let reFreeNeeded := Nat.eqb i 0 && negb (owned x) in
  (if reFreeNeeded then unFree g else mret tt) ;;
  let x := mkGroup (group x) (owner x) n (delete i (members x)) in
  store_group g x ;;
  left_group g x reFreeNeeded.

(** the message's state after the call, and the answer *)
Definition acquire (consumer : str) (m : Message) : Op (MessageState * bool) :=
  if decide (getState m = AVAILABLE) then
    g ← findGroup m;
    x ← deref g;
    (if owned x then mret tt else own g consumer) ;;
    x ← deref g;
    if bool_decide (owner x = consumer) then mret (ACQUIRED, true) else mret (getState m, false)
  else mret (getState m, false).

(** ** What groups promise

    The messages on the queue in order, each with its group and the consumer
    that holds it. *)

Record Entry := mkEntry { e_seq : Z; e_group : str; holder : option str }.

#[global] Instance Entry_eq_dec : EqDecision Entry.
Proof. solve_decision. Defined.

Inductive Command :=
| Enqueue (m : Message)
| Take (consumer : str) (m : Message)
| Requeue (m : Message)
| Dequeue (m : Message)
| Purge (m : Message).

(** as the queue calls the manager: [acquired] when the message is granted,
    [acquired] and [dequeued] when the queue itself removes it *)
Definition run_command (c : Command) : Op bool :=
  match c with
  | Enqueue m => enqueued m ;; mret true
  | Take c m =>
      r ← acquire c m;
      if (r : MessageState * bool).2 then acquired m ;; mret true else mret false
  | Requeue m => requeued m ;; mret true
  | Dequeue m => dequeued m ;; mret true
  | Purge m => acquired m ;; dequeued m ;; mret true
  end.

Definition set_holder (h : option str) (e : Entry) : Entry := mkEntry (e_seq e) (e_group e) h.
Definition at_entry (p : Z) (f : Entry -> Entry) (e : Entry) : Entry := if decide (e_seq e = p) then f e else e.

(** nobody else holds a message of the group *)
Definition grants (g c : str) (l : list Entry) : bool :=
  forallb (fun e => negb (bool_decide (e_group e = g)) ||
                    match holder e with Some c' => bool_decide (c' = c) | None => true end) l.

Definition spec_command (groupOf : Message -> str) (c : Command) (l : list Entry) : list Entry * bool :=
  match c with
  | Enqueue m => (l ++ [mkEntry (getSequence m) (groupOf m) None], true)
  | Take c m =>
      if grants (groupOf m) c l then (map (at_entry (getSequence m) (set_holder (Some c))) l, true) else (l, false)
  | Requeue m => (map (at_entry (getSequence m) (set_holder None)) l, true)
  | Dequeue m | Purge m => (filter (fun e => e_seq e <> getSequence m) l, true)
  end.

(** the queue numbers its messages upwards and acts on messages it has *)
Definition admissible (groupOf : Message -> str) (c : Command) (top : Z) (l : list Entry) : Prop :=
  match c with
  | Enqueue m => top < getSequence m < INT_MAX /\ Z.of_nat (length l) + 1 < 2 ^ 32
  | Take c m => c <> [] /\ getState m = AVAILABLE /\ mkEntry (getSequence m) (groupOf m) None ∈ l
  | Requeue m => exists c, mkEntry (getSequence m) (groupOf m) (Some c) ∈ l
  | Dequeue m => exists h, mkEntry (getSequence m) (groupOf m) h ∈ l
  | Purge m => mkEntry (getSequence m) (groupOf m) None ∈ l
  end.

(** ** The relation *)

Definition sub (g : str) (l : list Entry) : list Entry := filter (fun e => e_group e = g) l.
Definition holders (l : list Entry) : list str := omap holder l.
Definition member (e : Entry) : MemberState := mkMember (e_seq e) (bool_decide (is_Some (holder e))).

Definition view_of (g : str) (l : list Entry) : GroupState :=
  mkGroup g (default [] (head (holders l))) (Z.of_nat (length (holders l))) (map member l).
Definition view (g : str) (l : list Entry) : option GroupState :=
  match sub g l with [] => None | s => Some (view_of g s) end.

Definition first_free (p : Z) (g : str) (l : list Entry) : Prop :=
  holders (sub g l) = [] /\ (e_seq <$> head (sub g l)) = Some p.

(** the index, apart from the group [g0] *)
Definition free_except (g0 : str) (fg : gmap Z str) (l : list Entry) : Prop :=
  forall p g, fg !! p = Some g <-> g <> g0 /\ first_free p g l.
Definition free_ok (fg : gmap Z str) (l : list Entry) : Prop :=
  forall p g, fg !! p = Some g <-> first_free p g l.

Record list_ok (top : Z) (l : list Entry) : Prop := mkListOk {
  lo_sorted : StronglySorted Z.lt (map e_seq l);
  lo_range : Forall (fun e => 0 <= e_seq e <= top) l;
  lo_top : 0 <= top < INT_MAX;
  lo_count : Z.of_nat (length l) < 2 ^ 32;
  lo_names : Forall (fun e => holder e <> Some []) l;
  (** the messages of a group are held by one consumer *)
  lo_exclusive : forall e1 e2 c1 c2, e1 ∈ l -> e2 ∈ l -> e_group e1 = e_group e2 ->
    holder e1 = Some c1 -> holder e2 = Some c2 -> c1 = c2
}.

Record cache_ok (s : MessageGroupManager) (top : Z) (l : list Entry) : Prop := mkCacheOk {
  ca_group : forall c, cachedGroup s = Some c -> lastGroup s = c /\ sub c l <> [];
  ca_msg : forall c, cachedGroup s = Some c ->
    lastMsg s <= top /\ forall e, e ∈ l -> e_seq e = lastMsg s -> e_group e = c
}.

Record refines (s : MessageGroupManager) (top : Z) (l : list Entry) : Prop := mkRefines {
  rf_list : list_ok top l;
  rf_groups : forall g, messageGroups s !! g = view g l;
  rf_free : free_ok (freeGroups s) l;
  rf_cache : cache_ok s top l
}.

(** *** Lists of entries *)

Lemma sub_app g l1 l2 : sub g (l1 ++ l2) = sub g l1 ++ sub g l2.
Proof. apply filter_app. Qed.

Lemma sub_cons g e l : sub g (e :: l) = if decide (e_group e = g) then e :: sub g l else sub g l.
Proof. unfold sub. by rewrite filter_cons. Qed.

(** the group of one entry, and the others *)
Lemma sub_here e l1 l2 : sub (e_group e) (l1 ++ e :: l2) = sub (e_group e) l1 ++ e :: sub (e_group e) l2.
Proof. by rewrite sub_app, sub_cons, decide_True. Qed.

Lemma sub_other g e l1 l2 : g <> e_group e -> sub g (l1 ++ e :: l2) = sub g (l1 ++ l2).
Proof. intros Hg. rewrite !sub_app, sub_cons, decide_False by done. done. Qed.

Lemma entry_split top l p e :
  list_ok top l -> e ∈ l -> e_seq e = p ->
  exists l1 l2, l = l1 ++ e :: l2 /\
    Forall (fun x => e_seq x < p) l1 /\ Forall (fun x => p < e_seq x) l2 /\
    (forall f, map (at_entry p f) l = l1 ++ f e :: l2) /\ filter (fun x => e_seq x <> p) l = l1 ++ l2.
Proof.
  intros [Hs _ _ _ _ _] (l1 & l2 & ->)%list_elem_of_split <-. exists l1, l2.
  rewrite map_app in Hs. cbn [map] in Hs. apply StronglySorted_app in Hs as (H1 & _ & H2).
  apply StronglySorted_inv in H2 as [_ H2]. rewrite Forall_map in H2.
  assert (H1' : Forall (fun x => e_seq x < e_seq e) l1).
  { apply Forall_forall. intros x Hx. apply H1; [by apply list_elem_of_fmap_2|by left]. }
  assert (Hmap : forall f l, Forall (fun x => e_seq x <> e_seq e) l -> map (at_entry (e_seq e) f) l = l).
  { intros f l Hl. rewrite <- (map_id l) at 2. apply map_ext_in. intros x Hx%list_elem_of_In.
    rewrite Forall_forall in Hl. unfold at_entry. by rewrite decide_False by (by apply Hl). }
  assert (N1 : Forall (fun x => e_seq x <> e_seq e) l1) by (eapply Forall_impl; [exact H1'|]; cbn; lia).
  assert (N2 : Forall (fun x => e_seq x <> e_seq e) l2) by (eapply Forall_impl; [exact H2|]; cbn; lia).
  split; [done|]. split; [done|]. split; [done|]. split.
  - intros f. rewrite map_app. cbn [map]. rewrite !Hmap by done. unfold at_entry at 1. by rewrite decide_True.
  - rewrite filter_app, filter_cons_False by (intros Hn; by apply Hn). by rewrite !filter_all.
Qed.

(** *** The index of free groups *)

Section free.
Context (g0 : str) (fg : gmap Z str).

Lemma free_leave l : free_ok fg l -> (forall p, ~ first_free p g0 l) -> free_except g0 fg l.
Proof. intros Hf Hn p g. rewrite (Hf p g). split; [|tauto]. intros H. split; [intros ->; by apply (Hn p)|done]. Qed.

Lemma first_free_inj p p' g l : first_free p g l -> first_free p' g l -> p = p'.
Proof. unfold first_free. intros [_ H1] [_ H2]. congruence. Qed.

Lemma free_remove l p0 :
  free_ok fg l -> first_free p0 g0 l -> fg !! p0 = Some g0 /\ free_except g0 (delete p0 fg) l.
Proof.
  intros Hf H0. assert (E0 : fg !! p0 = Some g0) by (by apply Hf). split; [done|]. intros p g.
  destruct (decide (p = p0)) as [->|Hne].
  - rewrite lookup_delete_eq. split; [done|]. intros [Hg H]. apply Hf in H. congruence.
  - rewrite lookup_delete_ne by done. rewrite (Hf p g). split; [|tauto]. intros H. split; [|done].
    intros ->. apply Hne. by eapply first_free_inj.
Qed.

Lemma free_move l l' :
  free_except g0 fg l -> (forall g, g <> g0 -> sub g l' = sub g l) -> free_except g0 fg l'.
Proof.
  intros Hf Hsub p g. rewrite (Hf p g). unfold first_free.
  split; intros [Hg H]; (split; [done|]); [rewrite Hsub by done|rewrite <- Hsub by done]; exact H.
Qed.

Lemma free_enter l : free_except g0 fg l -> (forall p, ~ first_free p g0 l) -> free_ok fg l.
Proof. intros Hf Hn p g. rewrite (Hf p g). split; [tauto|]. intros H. split; [intros ->; by apply (Hn p)|done]. Qed.

Lemma first_free_elem p g l : first_free p g l -> exists e, e ∈ l /\ e_seq e = p /\ e_group e = g.
Proof.
  intros [_ Hh]. destruct (sub g l) as [|e r] eqn:Es; [done|]. injection Hh as Hp. exists e.
  assert (He : e ∈ sub g l) by (rewrite Es; by left). apply list_elem_of_filter in He as [? ?]. done.
Qed.

Lemma group_entry_unique top l e1 e2 : list_ok top l -> e1 ∈ l -> e2 ∈ l -> e_seq e1 = e_seq e2 -> e1 = e2.
Proof. intros [Hs _ _ _ _ _]. by apply sorted_key_inj. Qed.

Lemma free_add top l p0 :
  list_ok top l -> free_except g0 fg l -> first_free p0 g0 l ->
  fg !! p0 = None /\ free_ok (<[p0 := g0]> fg) l.
Proof.
  intros Hl Hf H0.
  assert (E0 : fg !! p0 = None).
  { destruct (fg !! p0) as [g|] eqn:E; [|done]. apply Hf in E as [Hg Hff].
    destruct (first_free_elem _ _ _ H0) as (e & He & Hs & <-).
    destruct (first_free_elem _ _ _ Hff) as (e' & He' & Hs' & <-).
    exfalso. apply Hg. f_equal. apply (group_entry_unique top l); congruence. }
  split; [done|]. intros p g. destruct (decide (p = p0)) as [->|Hne].
  - rewrite lookup_insert_eq. split; [by intros [= <-]|]. intros H. f_equal.
    destruct (decide (g = g0)) as [->|Hg]; [done|]. assert (fg !! p0 = Some g) by (by apply Hf). congruence.
  - rewrite lookup_insert_ne by done. rewrite (Hf p g). split; [tauto|]. intros H. split; [|done].
    intros ->. apply Hne. by eapply first_free_inj.
Qed.
End free.

(** *** Calls *)

Lemma deref_runs g x s P : messageGroups s !! g = Some x -> P s x -> runs (deref g) s P.
Proof. intros Hx HP. unfold deref. mrun. rewrite Hx. by mrun. Qed.

Lemma massert_runs b s (P : MessageGroupManager -> unit -> Prop) : b = true -> P s tt -> runs (massert b) s P.
Proof. by intros -> HP. Qed.

(** the member found is the one with the number *)
Lemma findMsg_here top l1 e l2 :
  Forall (fun x => 0 <= e_seq x <= top) (l1 ++ e :: l2) -> top < INT_MAX ->
  Forall (fun x => e_seq x < e_seq e) l1 ->
  findMsg (map member (l1 ++ e :: l2)) (e_seq e) = Ret (length l1).
Proof.
  intros Hr Ht H1. unfold findMsg.
  assert (Hb : lower_bound (fun x => SequenceNumber.ltb (m_position x) (e_seq e)) (map member (l1 ++ e :: l2))
               = (map member l1, map member (e :: l2))).
  { rewrite map_app. rewrite Forall_app, Forall_cons in Hr. destruct Hr as (Hr1 & He & _). cbn [map].
    induction l1 as [|x l1 IH]; cbn [map app lower_bound].
    - cbn [m_position member]. rewrite small_lt by lia. by rewrite Z.ltb_irrefl.
    - inversion H1 as [|? ? Hx1 Hrest]. inversion Hr1 as [|? ? Hx2 Hrest2]. subst. cbn [m_position member].
      rewrite small_lt by lia. rewrite (proj2 (Z.ltb_lt _ _) Hx1). by rewrite (IH Hrest2 Hrest). }
  rewrite Hb. cbn [map m_position member]. rewrite Z.eqb_refl. by rewrite length_map.
Qed.

Lemma find_member_runs top l1 e l2 x m s P :
  members x = map member (l1 ++ e :: l2) -> getSequence m = e_seq e ->
  Forall (fun x => 0 <= e_seq x <= top) (l1 ++ e :: l2) -> top < INT_MAX ->
  Forall (fun x => e_seq x < e_seq e) l1 ->
  P s (length l1) -> runs (find_member x m) s P.
Proof.
  intros Hx Hm Hr Ht H1 HP. unfold find_member. apply runs_bind. rewrite Hx, Hm.
  eapply runs_eq; [unfold lift_outcome; by rewrite (findMsg_here top)|]. apply runs_bind. apply massert_runs.
  - apply negb_true_iff, Nat.eqb_neq. rewrite length_map, length_app. cbn. lia.
  - by mrun.
Qed.

Lemma view_Some g l e : e ∈ sub g l -> view g l = Some (view_of g (sub g l)).
Proof. unfold view. destruct (sub g l); [by intros ?%elem_of_nil|done]. Qed.

(** what stays when only the cache changes *)
Definition recached (s s' : MessageGroupManager) : Prop :=
  messageGroups s' = messageGroups s /\ freeGroups s' = freeGroups s /\
  groupIdHeader s' = groupIdHeader s /\ defaultGroupId s' = defaultGroupId s /\ resets s' = resets s.

(** the group of a message on the queue *)
Lemma findGroup_runs s top l m e x :
  list_ok top l -> cache_ok s top l -> messageGroups s !! e_group e = Some x -> group x = e_group e ->
  e ∈ l -> getSequence m = e_seq e -> groupOf s m = e_group e ->
  runs (findGroup m) s (fun s' g =>
    g = e_group e /\ recached s s' /\ cache_ok s' top l /\ cachedGroup s' = Some (e_group e)).
Proof.
  intros Hl [Hc1 Hc2] Hx Hname He Hm Hg.
  assert (Hsub : e ∈ sub (e_group e) l) by (by apply list_elem_of_filter).
  assert (Hne : sub (e_group e) l <> []) by (intros E; rewrite E in Hsub; by apply elem_of_nil in Hsub).
  assert (Htop : e_seq e <= top).
  { pose proof (lo_range _ _ Hl) as Hz. rewrite Forall_forall in Hz. by apply Hz. }
  assert (Hother : forall e', e' ∈ l -> e_seq e' = e_seq e -> e_group e' = e_group e).
  { intros e' He' Heq. f_equal. by apply (group_entry_unique top l). }
  assert (Hca : forall s', cachedGroup s' = Some (e_group e) -> lastGroup s' = e_group e ->
            lastMsg s' = getSequence m -> cache_ok s' top l).
  { intros s' E1 E2 E3. constructor; intros c Hc; rewrite E1 in Hc; injection Hc as <-; [done|].
    rewrite E3. split; [lia|]. intros e' He' Heq. apply Hother; [done|lia]. }
  assert (Hlook : runs (lookupGroup (getSequence m) (e_group e)) s (fun s' g =>
    g = e_group e /\ recached s s' /\ cache_ok s' top l /\ cachedGroup s' = Some (e_group e))).
  { unfold lookupGroup, store_group. mrun. rewrite Hx. cbn [default from_option id]. split; [done|].
    split; [|split; [by apply Hca|done]]. split; [|done]. cbn [messageGroups set_cache set_groups].
    apply insert_id. rewrite Hx. case_bool_decide; [|done]. rewrite <- Hname. by destruct x. }
  unfold findGroup. mrun. rewrite Hg. destruct (cachedGroup s) as [c|] eqn:Ec; [|exact Hlook].
  destruct (Hc1 c eq_refl) as [Hlg Hsc]. destruct (Hc2 c eq_refl) as [Hlt Hlast].
  destruct (lastMsg s =? getSequence m) eqn:Elast.
  - apply Z.eqb_eq in Elast. mrun. assert (c = e_group e) as -> by (symmetry; apply Hlast; [done|lia]).
    split; [done|]. split; [done|]. split; [|done]. by apply Hca.
  - case_bool_decide as Eg; [|exact Hlook]. mrun. subst c. rewrite <- Eg in *.
    split; [done|]. split; [done|]. split; [|done]. by apply Hca.
Qed.

(** *** One message changes

    The entries of the message's group are [l1 ++ e :: l2]; those of the other
    groups stay. *)

Lemma holders_app l1 l2 : holders (l1 ++ l2) = holders l1 ++ holders l2.
Proof. apply omap_app. Qed.

Lemma held_by_one top l g c1 c2 :
  list_ok top l -> c1 ∈ holders (sub g l) -> c2 ∈ holders (sub g l) -> c1 = c2.
Proof.
  intros Hl (e1 & H1 & E1)%list_elem_of_omap (e2 & H2 & E2)%list_elem_of_omap.
  apply list_elem_of_filter in H1 as [G1 H1]. apply list_elem_of_filter in H2 as [G2 H2].
  apply (lo_exclusive _ _ Hl e1 e2); congruence.
Qed.

Lemma holder_name top l g c : list_ok top l -> c ∈ holders (sub g l) -> c <> [].
Proof.
  intros Hl (e & He & E)%list_elem_of_omap ->. apply list_elem_of_filter in He as [_ He].
  pose proof (lo_names _ _ Hl) as Hz. rewrite Forall_forall in Hz. by apply (Hz e).
Qed.

(** a group is owned when one of its messages is held *)
Lemma owned_view top l g :
  list_ok top l -> owned (view_of g (sub g l)) = negb (bool_decide (holders (sub g l) = [])).
Proof.
  intros Hl. unfold owned, view_of. cbn [owner]. f_equal. apply bool_decide_ext.
  destruct (holders (sub g l)) as [|c r] eqn:Eh; [done|]. cbn. split; [|done]. intros ->.
  exfalso. eapply (holder_name top l g); [done|rewrite Eh; by left|done].
Qed.

Lemma not_free_held g l p : holders (sub g l) <> [] -> ~ first_free p g l.
Proof. by intros Hh [He _]. Qed.

Lemma not_free_gone g l p : sub g l = [] -> ~ first_free p g l.
Proof. intros Hs [_ Hh]. by rewrite Hs in Hh. Qed.

(** *** [enqueued] *)

Lemma list_ok_snoc top l p g :
  list_ok top l -> top < p < INT_MAX -> Z.of_nat (length l) + 1 < 2 ^ 32 ->
  list_ok p (l ++ [mkEntry p g None]).
Proof.
  intros [Hs Hr Ht Hc Hn He] Hp Hlen. constructor.
  - rewrite map_app. cbn [map e_seq]. apply StronglySorted_app. split_and!; [|done|by repeat constructor].
    intros x y (e & -> & Hx)%list_elem_of_fmap ->%list_elem_of_singleton.
    rewrite Forall_forall in Hr. specialize (Hr e Hx). cbn beta in Hr. lia.
  - apply Forall_app. split; [eapply Forall_impl; [exact Hr|]; intros e He'; cbn beta in *; lia|].
    apply Forall_singleton. cbn. lia.
  - lia.
  - rewrite length_app. cbn. lia.
  - apply Forall_app. split; [done|]. by apply Forall_singleton.
  - intros e1 e2 c1 c2 H1%elem_of_app H2%elem_of_app Hg E1 E2.
    destruct H1 as [H1| ->%list_elem_of_singleton]; [|done].
    destruct H2 as [H2| ->%list_elem_of_singleton]; [|done]. by apply (He e1 e2).
Qed.


(** the group of a message that arrives: the group as it is, or a new one *)
Lemma findGroup_new s top l m :
  refines s top l -> top < getSequence m ->
  runs (findGroup m) s (fun s' g => g = groupOf s m /\
    (forall g', g' <> g -> messageGroups s' !! g' = view g' l) /\
    messageGroups s' !! g = Some (default (mkGroup g [] 0 []) (view g l)) /\
    freeGroups s' = freeGroups s /\ groupIdHeader s' = groupIdHeader s /\
    defaultGroupId s' = defaultGroupId s /\ resets s' = resets s /\
    cachedGroup s' = Some g /\ lastGroup s' = g /\ lastMsg s' = getSequence m).
Proof.
  intros [Hl Hgr Hf [Hc1 Hc2]] Hm. set (g := groupOf s m).
  assert (Hlook : runs (lookupGroup (getSequence m) g) s (fun s' g' => g' = g /\
    (forall g', g' <> g -> messageGroups s' !! g' = view g' l) /\
    messageGroups s' !! g = Some (default (mkGroup g [] 0 []) (view g l)) /\
    freeGroups s' = freeGroups s /\ groupIdHeader s' = groupIdHeader s /\
    defaultGroupId s' = defaultGroupId s /\ resets s' = resets s /\
    cachedGroup s' = Some g /\ lastGroup s' = g /\ lastMsg s' = getSequence m)).
  { unfold lookupGroup, store_group. mrun. rewrite Hgr. split_and!; try done.
    - intros g' Hg'. cbn [messageGroups set_cache set_groups]. by rewrite lookup_insert_ne.
    - cbn [messageGroups set_cache set_groups]. rewrite lookup_insert_eq. f_equal.
      unfold view. destruct (sub g l); cbn [default]; by case_bool_decide. }
  unfold findGroup. mrun. fold g. destruct (cachedGroup s) as [c|] eqn:Ec.
  2: { eapply runs_mono; [exact Hlook|]. by intros s' g' (-> & ?). }
  destruct (Hc1 c eq_refl) as [Hlg Hsc]. destruct (Hc2 c eq_refl) as [Hlt _].
  rewrite (proj2 (Z.eqb_neq _ _)) by lia. case_bool_decide as Eg.
  2: { eapply runs_mono; [exact Hlook|]. by intros s' g' (-> & ?). }
  subst c. mrun. rewrite <- Eg in *.
  split_and!; try done; cbn [messageGroups set_cache].
  rewrite Hgr. unfold view. by destruct (sub g l).
Qed.

(** what the manager does for a command *)
Definition follows (s : MessageGroupManager) (top : Z) (l : list Entry) (s' : MessageGroupManager) : Prop :=
  refines s' top l /\ groupIdHeader s' = groupIdHeader s /\ defaultGroupId s' = defaultGroupId s.

Lemma enqueued_runs s top l m :
  refines s top l -> admissible (groupOf s) (Enqueue m) top l ->
  runs (enqueued m) s (fun s' _ =>
    follows s (getSequence m) (l ++ [mkEntry (getSequence m) (groupOf s m) None]) s').
Proof.
  intros Hr (Hp & Hlen). pose proof Hr as [Hl Hgr Hf _].
  set (g := groupOf s m). set (e := mkEntry (getSequence m) g None). set (l' := l ++ [e]).
  assert (Hl' : list_ok (getSequence m) l') by (by apply (list_ok_snoc top)).
  assert (Hsub : sub g l' = sub g l ++ [e]) by (unfold l'; by rewrite sub_app, (sub_cons g e []), decide_True).
  assert (Hothers : forall g', g' <> g -> sub g' l' = sub g' l).
  { intros g' Hg'. unfold l'. rewrite sub_app, sub_cons, decide_False by done. apply app_nil_r. }
  assert (Hhold : holders (sub g l') = holders (sub g l)).
  { rewrite Hsub, holders_app. cbn. apply app_nil_r. }
  unfold enqueued. apply runs_bind. eapply runs_mono; [apply (findGroup_new s top l m Hr); lia|].
  fold g. intros s1 g1 (-> & Hg1 & Hx & Hfr & Hh1 & Hh2 & _ & Hca1 & Hca2 & Hca3). apply runs_bind.
  eapply deref_runs; [exact Hx|]. set (x := default _ _). unfold store_group. mrun.
  assert (Hmem : members x = map member (sub g l)) by (unfold x, view; by destruct (sub g l)).
  assert (Hown : owner x = default [] (head (holders (sub g l))) /\
                 acquired_count x = Z.of_nat (length (holders (sub g l))) /\ group x = g)
    by (unfold x, view; by destruct (sub g l)).
  destruct Hown as (Hown & Hcnt & Hname).
  assert (Hgroups : forall g', <[g := mkGroup (group x) (owner x) (acquired_count x)
            (members x ++ [mkMember (getSequence m) false])]> (messageGroups s1) !! g' = view g' l').
  { intros g'. destruct (decide (g' = g)) as [->|Hg'].
    - rewrite lookup_insert_eq. rewrite (view_Some g l' e) by (rewrite Hsub; set_solver).
      unfold view_of. rewrite Hhold, Hsub, map_app, Hown, Hcnt, Hname, Hmem. done.
    - rewrite lookup_insert_ne by done. rewrite Hg1 by done. unfold view. by rewrite Hothers. }
  assert (Hcache : forall s', cachedGroup s' = Some g -> lastGroup s' = g -> lastMsg s' = getSequence m ->
            cache_ok s' (getSequence m) l').
  { intros s' E1 E2 E3. constructor; intros c Hc; rewrite E1 in Hc; injection Hc as <-.
    - split; [done|]. rewrite Hsub. by destruct (sub g l).
    - rewrite E3. split; [lia|]. intros e' He' Heq. change g with (e_group e). f_equal.
      apply (group_entry_unique (getSequence m) l'); [done|done|unfold l'; set_solver|done]. }
  assert (Hlenm : length (members x) = length (sub g l)) by (by rewrite Hmem, length_map).
  assert (Hle : (length (sub g l) <= length l)%nat) by apply length_filter.
  rewrite length_app, Hlenm. cbn [length].
  rewrite uwrap_small by (unfold is_uint; lia).
  destruct (Z.of_nat (length (sub g l) + 1) =? 1) eqn:E1.
  - assert (Hnil : sub g l = []) by (apply Z.eqb_eq in E1; destruct (sub g l); [done|cbn [length] in E1; lia]).
    assert (Hfree : first_free (getSequence m) g l').
    { split; [by rewrite Hhold, Hnil|]. by rewrite Hsub, Hnil. }
    destruct (free_add g (freeGroups s) _ l' _ Hl'
      (free_move _ _ _ _ (free_leave g (freeGroups s) l Hf (fun p => not_free_gone g l p Hnil)) Hothers) Hfree)
      as [Hnone Hok].
    mrun. apply massert_runs; [apply bool_decide_eq_true; cbn; by rewrite Hfr|]. mrun.
    split; [|done]. constructor; cbn; try done; [by rewrite Hfr|by apply Hcache].
  - mrun. split; [|done]. constructor; cbn; try done; [|by apply Hcache]. rewrite Hfr.
    destruct (sub g l) as [|e0 r] eqn:Es; [done|].
    intros p g'. rewrite (Hf p g'). unfold first_free. destruct (decide (g' = g)) as [->|Hg'].
    + rewrite Hhold, Hsub, Es. done.
    + by rewrite Hothers.
Qed.

(** *** A message on the queue *)

Section site.
Context (top : Z) (l1 : list Entry) (e : Entry) (l2 : list Entry).
Let l := l1 ++ e :: l2.
Let g := e_group e.
Let s1 := sub g l1.
Let s2 := sub g l2.
Context (Hl : list_ok top l).

Lemma site_sub h : sub g (l1 ++ set_holder h e :: l2) = s1 ++ set_holder h e :: s2.
Proof. exact (sub_here (set_holder h e) l1 l2). Qed.

Lemma site_rest : sub g (l1 ++ l2) = s1 ++ s2.
Proof. apply sub_app. Qed.

Lemma site_here : sub g l = s1 ++ e :: s2.
Proof. apply sub_here. Qed.

Lemma site_elem : e ∈ l.
Proof. unfold l. set_solver. Qed.

Lemma site_order : Forall (fun x => e_seq x < e_seq e) s1 /\ Forall (fun x => 0 <= e_seq x <= top) (s1 ++ e :: s2).
Proof.
  destruct (entry_split top l (e_seq e) e Hl site_elem eq_refl) as (k1 & k2 & El & H1 & H2 & _).
  assert (Hall : Forall (fun x => 0 <= e_seq x <= top) (sub g l)).
  { apply Forall_forall. intros x [_ Hx]%list_elem_of_filter. pose proof (lo_range _ _ Hl) as Hz.
    rewrite Forall_forall in Hz. by apply Hz. }
  rewrite site_here in Hall. split; [|done].
  pose proof (lo_sorted _ _ Hl) as Hs. unfold l in Hs. rewrite map_app in Hs. cbn [map] in Hs.
  apply StronglySorted_app in Hs as (Hlt & _). apply Forall_forall. intros x [_ Hx]%list_elem_of_filter.
  apply Hlt; [by apply list_elem_of_fmap_2|by left].
Qed.

(** the list with another holder, or without the message *)
Lemma site_others h g' : g' <> g -> sub g' (l1 ++ set_holder h e :: l2) = sub g' l.
Proof. intros Hg. unfold l. rewrite sub_other by done. by rewrite (sub_other g' e). Qed.

Lemma rest_others g' : g' <> g -> sub g' (l1 ++ l2) = sub g' l.
Proof. intros Hg. unfold l. by rewrite (sub_other g' e). Qed.

Lemma list_ok_rest : list_ok top (l1 ++ l2).
Proof.
  assert (Hin : forall x, x ∈ l1 ++ l2 -> x ∈ l) by (unfold l; set_solver).
  destruct Hl as [Hs Hr Ht Hc Hn He]. rewrite Forall_forall in Hr, Hn. constructor; try done.
  - unfold l in Hs. rewrite map_app in Hs |- *. cbn [map] in Hs.
    apply StronglySorted_app in Hs as (H12 & H1 & H2%StronglySorted_inv). apply StronglySorted_app.
    split; [|tauto]. intros x y Hx Hy. apply H12; [done|by right].
  - apply Forall_forall. auto.
  - unfold l in Hc. rewrite length_app in Hc |- *. cbn [length] in Hc. lia.
  - apply Forall_forall. auto.
  - intros e1 e2 c1 c2 H1 H2. apply He; auto.
Qed.

(** the group may be held by [h] besides *)
Definition compatible (h : option str) : Prop :=
  match h with Some c => c <> [] /\ Forall (eq c) (holders (s1 ++ s2)) | None => True end.

Lemma rest_holder x c : x ∈ l1 ++ l2 -> e_group x = g -> holder x = Some c -> c ∈ holders (s1 ++ s2).
Proof.
  intros Hx Hg Hh. apply list_elem_of_omap. exists x. split; [|done]. rewrite <- site_rest.
  by apply list_elem_of_filter.
Qed.

Lemma list_ok_held h : compatible h -> list_ok top (l1 ++ set_holder h e :: l2).
Proof.
  intros Hh.
  assert (Hcase : forall x, x ∈ l1 ++ set_holder h e :: l2 -> x = set_holder h e \/ x ∈ l1 ++ l2) by set_solver.
  assert (Hin : forall x, x ∈ l1 ++ l2 -> x ∈ l) by (unfold l; set_solver).
  assert (Heq : forall c x, h = Some c -> x ∈ l1 ++ l2 -> e_group x = g -> forall c', holder x = Some c' -> c = c').
  { intros c x -> Hx Hg c' Hc. destruct Hh as [_ Hall]. rewrite Forall_forall in Hall. apply Hall.
    by eapply rest_holder. }
  pose proof (lo_range _ _ Hl) as Hr. pose proof (lo_names _ _ Hl) as Hn. rewrite Forall_forall in Hr, Hn.
  pose proof (lo_count _ _ Hl) as Hc. unfold l in Hc. rewrite length_app in Hc. cbn [length] in Hc.
  constructor.
  - pose proof (lo_sorted _ _ Hl) as Hs. unfold l in Hs. rewrite map_app in Hs |- *. exact Hs.
  - apply Forall_forall. intros x [->|Hx]%Hcase; [apply (Hr e), site_elem|auto].
  - apply (lo_top _ _ Hl).
  - rewrite length_app. exact Hc.
  - apply Forall_forall. intros x [->|Hx]%Hcase; [|auto]. intros E. cbn in E. subst h. by destruct Hh.
  - intros e1 e2 c1 c2 [->|H1]%Hcase [->|H2]%Hcase Hg E1 E2; cbn [holder set_holder e_group] in *.
    + congruence.
    + by eapply Heq.
    + symmetry. by eapply Heq.
    + apply (lo_exclusive _ _ Hl e1 e2); auto.
Qed.

(** one consumer holds the group, whichever message is asked *)
Lemma owner_rest :
  holders (s1 ++ s2) <> [] -> default [] (head (holders (s1 ++ s2))) = default [] (head (holders (sub g l))).
Proof.
  intros Hne. destruct (holders (s1 ++ s2)) as [|c r] eqn:Er; [done|].
  assert (Hc : c ∈ holders (sub g l)).
  { rewrite site_here, holders_app. cbn [holders omap list_omap].
    assert (Hin : c ∈ holders (s1 ++ s2)) by (rewrite Er; by left). rewrite holders_app in Hin.
    unfold holders in *. destruct (holder e); set_solver. }
  destruct (holders (sub g l)) as [|c' r'] eqn:El; [by apply elem_of_nil in Hc|]. cbn.
  apply (held_by_one top l g); [done|by rewrite El|rewrite El; by left].
Qed.
(** *** The group between two calls

    [acquired] runs after the group was owned, [dequeued] of a message the
    queue itself removes runs after [acquired]: the flag [b] of the message,
    the owner and the count are then not those of the list. *)
Record at_site (s : MessageGroupManager) (b : bool) (o : str) (n : Z) : Prop := mkSite {
  si_here : messageGroups s !! g = Some (mkGroup g o n (map member s1 ++ mkMember (e_seq e) b :: map member s2));
  si_others : forall g', g' <> g -> messageGroups s !! g' = view g' l;
  si_cache : cache_ok s top l
}.

Lemma refines_site s :
  refines s top l ->
  at_site s (bool_decide (is_Some (holder e))) (default [] (head (holders (sub g l))))
    (Z.of_nat (length (holders (sub g l)))).
Proof.
  intros [_ Hgr _ Hca]. constructor; [|done|done].
  rewrite Hgr, (view_Some g l e) by (apply list_elem_of_filter; split; [done|apply site_elem]).
  unfold view_of. rewrite site_here, map_app. done.
Qed.

Definition kept (s s' : MessageGroupManager) : Prop :=
  groupIdHeader s' = groupIdHeader s /\ defaultGroupId s' = defaultGroupId s.

Lemma alter_member f b :
  alter f (length s1) (map member s1 ++ mkMember (e_seq e) b :: map member s2) =
  map member s1 ++ f (mkMember (e_seq e) b) :: map member s2.
Proof. rewrite alter_app_r_alt by (by rewrite length_map). by rewrite length_map, Nat.sub_diag. Qed.

(** writing the group *)
Lemma store_site s' b o n b' o' n' :
  at_site s' b o n ->
  at_site (set_groups (<[g := mkGroup g o' n' (map member s1 ++ mkMember (e_seq e) b' :: map member s2)]>
                         (messageGroups s')) s') b' o' n'.
Proof.
  intros [_ Ho Hca]. constructor; cbn [messageGroups set_groups].
  - by rewrite lookup_insert_eq.
  - intros g' Hg'. rewrite lookup_insert_ne by done. auto.
  - destruct Hca. by constructor.
Qed.

Lemma unFree_site b o n s' (P : MessageGroupManager -> unit -> Prop) p :
  at_site s' b o n -> (e_seq <$> head (sub g l)) = Some p -> freeGroups s' !! p = Some g ->
  P (set_free (delete p (freeGroups s')) s') tt -> runs (unFree g) s' P.
Proof.
  intros Hs Hp Hf HP. unfold unFree. apply runs_bind. eapply deref_runs; [apply Hs|]. apply runs_bind.
  assert (Hfront : runs (front (mkGroup g o n (map member s1 ++ mkMember (e_seq e) b :: map member s2))) s'
            (fun s'' q => s'' = s' /\ q = p)).
  { unfold front. cbn [members]. rewrite site_here in Hp. destruct s1; cbn in *; mrun; split; congruence. }
  eapply runs_mono; [exact Hfront|]. intros ? ? [-> ->]. mrun. apply massert_runs; [by apply bool_decide_eq_true|].
  by mrun.
Qed.

(** the group as the list has it, with the message held by [h] *)
Lemma site_closes s' h :
  let l' := l1 ++ set_holder h e :: l2 in
  at_site s' (bool_decide (is_Some h)) (default [] (head (holders (sub g l')))) (Z.of_nat (length (holders (sub g l')))) ->
  list_ok top l' -> free_ok (freeGroups s') l' -> refines s' top l'.
Proof.
  intros l' [Hx Ho [Hc1 Hc2]] Hl' Hf. constructor; [done| |done|constructor].
  - intros g'. destruct (decide (g' = g)) as [->|Hg'].
    + rewrite Hx, (view_Some g l' (set_holder h e)).
      2: { apply list_elem_of_filter. split; [done|]. unfold l'. set_solver. }
      unfold view_of. do 2 f_equal. unfold l'. by rewrite (site_sub h), map_app.
    + rewrite Ho by done. unfold view, l'. by rewrite site_others.
  - intros c Hc. destruct (Hc1 c Hc) as [? Hne]. split; [done|]. destruct (decide (c = g)) as [->|Hcg].
    + unfold l'. rewrite site_sub. by destruct s1.
    + unfold l'. by rewrite site_others.
  - intros c Hc. destruct (Hc2 c Hc) as [? Hlast]. split; [done|]. unfold l'.
    intros x [Hx1|[->|Hx2]%elem_of_cons]%elem_of_app Heq; [..|].
    + apply Hlast; [unfold l; set_solver|done].
    + apply (Hlast e); [apply site_elem|done].
    + apply Hlast; [unfold l; set_solver|done].
Qed.

Lemma grants_spec c : grants g c l = bool_decide (Forall (eq c) (holders (sub g l))).
Proof.
  apply eq_bool_prop_intro. rewrite bool_decide_spec. unfold grants. rewrite forallb_True, Forall_forall, Forall_forall.
  split.
  - intros Hall c' (x & Hx & E)%list_elem_of_omap. apply list_elem_of_filter in Hx as [Hxg Hx].
    specialize (Hall x Hx). rewrite E, (bool_decide_eq_true_2 _ Hxg) in Hall. by apply bool_decide_spec in Hall.
  - intros Hall x Hx. case_bool_decide as Hxg; [|done]. cbn. destruct (holder x) as [c'|] eqn:E; [|done].
    apply bool_decide_spec. symmetry. apply Hall, list_elem_of_omap. exists x. split; [|done].
    by apply list_elem_of_filter.
Qed.

Lemma same_holder : set_holder (holder e) e = e.
Proof. by destruct e. Qed.

Lemma site_front : exists p, (e_seq <$> head (sub g l)) = Some p.
Proof. rewrite site_here. destruct s1; cbn; eauto. Qed.

Section message.
Context (s : MessageGroupManager) (m : Message) (Hm : getSequence m = e_seq e) (Hg : groupOf s m = g).

Lemma findGroup_site b o n :
  at_site s b o n ->
  runs (findGroup m) s (fun s' r => r = g /\ at_site s' b o n /\ kept s s' /\
    freeGroups s' = freeGroups s /\ cachedGroup s' = Some g).
Proof.
  intros [Hx Ho Hca].
  eapply runs_mono; [by eapply (findGroup_runs s top l m e); [..|apply site_elem|done|done]|].
  intros s' r (-> & (E1 & E2 & E3 & E4 & _) & Hca' & Hc). split; [done|].
  split; [constructor; [by rewrite E1|by rewrite E1|done]|]. done.
Qed.

Lemma find_site b o n (P : MessageGroupManager -> nat -> Prop) s' :
  P s' (length s1) ->
  runs (find_member (mkGroup g o n (map member s1 ++ mkMember (e_seq e) b :: map member s2)) m) s' P.
Proof.
  intros HP. destruct site_order as [H1 H2].
  set (e' := mkEntry (e_seq e) g (if b then Some [] else None)).
  apply (find_member_runs top s1 e' s2); cbn [members]; try done.
  - rewrite map_app. cbn [map]. unfold member at 3, e'. cbn. by destruct b.
  - apply Forall_app in H2 as [H2 [H3 H4]%Forall_cons]. apply Forall_app. split; [done|].
    apply Forall_cons. done.
  - apply (lo_top _ _ Hl).
Qed.
Lemma acquired_runs b o n :
  at_site s b o n -> 0 <= n < 2 ^ 32 - 1 ->
  runs (acquired m) s (fun s' _ => at_site s' true o (n + 1) /\ kept s s' /\ freeGroups s' = freeGroups s).
Proof.
  intros Hs Hn. unfold acquired. apply runs_bind. eapply runs_mono; [by apply findGroup_site|].
  intros s' r (-> & Hs' & Hk & Hf & _). apply runs_bind. eapply deref_runs; [apply Hs'|].
  apply runs_bind, find_site. cbn [group owner acquired_count members]. unfold store_group. mrun.
  rewrite alter_member, uwrap_small by (unfold is_uint; lia). split; [|done]. by eapply store_site.
Qed.

(** the group is given to the consumer unless another holds a message of it *)
Lemma group_acquire_runs c :
  refines s top l -> getState m = AVAILABLE -> c <> [] ->
  runs (acquire c m) s (fun s' r =>
    if grants g c l
    then r.2 = true /\ at_site s' (bool_decide (is_Some (holder e))) c (Z.of_nat (length (holders (sub g l)))) /\
         kept s s' /\ free_except g (freeGroups s') l
    else r.2 = false /\ follows s top l s').
Proof.
  intros Hr Hst Hc. unfold acquire. rewrite decide_True by done. apply runs_bind.
  eapply runs_mono; [by apply findGroup_site, refines_site|]. intros s' r (-> & Hs & Hk & Hf & _).
  apply runs_bind. eapply deref_runs; [apply Hs|]. rewrite grants_spec.
  pose proof (owned_view top l g Hl) as Hown. unfold owned, view_of in Hown |- *. cbn [owner] in Hown |- *.
  rewrite Hown. destruct (holders (sub g l)) as [|c' r'] eqn:Eh; cbn [bool_decide negb default head].
  - destruct site_front as [p Hp].
    destruct (free_remove g (freeGroups s) l p (rf_free _ _ _ Hr)) as [Hfp Hfe]; [done|].
    rewrite bool_decide_eq_true_2 by done. cbn [negb]. apply runs_bind. unfold own. apply runs_bind.
    eapply deref_runs; [apply Hs|]. unfold store_group. mrun. cbn [group acquired_count members].
    pose proof (store_site s' _ _ _ (bool_decide (is_Some (holder e))) c 0 Hs) as Hs2. cbn [default head length] in *.
    eapply unFree_site; [exact Hs2|exact Hp|cbn; by rewrite Hf|]. apply runs_bind.
    eapply deref_runs; [apply Hs2|]. cbn [owner]. rewrite !bool_decide_eq_true_2 by done. mrun.
    split; [done|]. split; [|split; [done|cbn; by rewrite Hf]].
    destruct Hs2 as [? ? [? ?]]. constructor; [done|done|by constructor].
  - rewrite bool_decide_eq_false_2 by done. cbn [negb]. mrun. eapply deref_runs; [apply Hs|]. cbn [owner].
    assert (Hall : Forall (eq c) (c' :: r') <-> c' = c).
    { split; [by intros [-> _]%Forall_cons|]. intros <-. apply Forall_forall. intros x Hx.
      apply (held_by_one top l g); [done|rewrite Eh; by left|by rewrite Eh]. }
    change (default [] (head (c' :: r'))) with c' in *. rewrite (bool_decide_ext _ _ Hall). 
    destruct (decide (c' = c)) as [Ec|Ec];
      [rewrite !bool_decide_eq_true_2 by done|rewrite !bool_decide_eq_false_2 by done]; mrun; (split; [done|]).
    + subst c'. split; [exact Hs|]. split; [done|]. rewrite Hf. apply free_leave; [apply Hr|].
      intros p. apply not_free_held. by rewrite Eh.
    + split; [|exact Hk]. pose proof (site_closes s' (holder e)) as Hcl. rewrite same_holder in Hcl.
      apply Hcl; [by fold l; rewrite Eh|done|fold l; rewrite Hf; apply Hr].
Qed.
End message.

Lemma groupOf_kept s s' m : kept s s' -> groupOf s' m = groupOf s m.
Proof. intros [E1 E2]. unfold groupOf. by rewrite E1, E2. Qed.

Lemma holders_held h : holders (sub g (l1 ++ set_holder h e :: l2)) = holders s1 ++ option_list h ++ holders s2.
Proof. rewrite site_sub, holders_app. by destruct h. Qed.

Lemma holders_here : holders (sub g l) = holders s1 ++ option_list (holder e) ++ holders s2.
Proof. rewrite <- holders_held, same_holder. done. Qed.

Lemma holders_length k : (length (holders k) <= length k)%nat.
Proof.
  induction k as [|x k IH]; [done|].
  change (holders (x :: k)) with (match holder x with Some c => c :: holders k | None => holders k end).
  destruct (holder x); cbn [length]; lia.
Qed.

Lemma group_size : Z.of_nat (length (holders (s1 ++ s2))) < 2 ^ 32 - 1.
Proof.
  pose proof (holders_length (s1 ++ s2)) as H1. pose proof (lo_count _ _ Hl) as Hc.
  assert (H2 : (length (sub g l) <= length l)%nat) by apply length_filter.
  rewrite site_here, (length_app s1 (e :: s2)) in H2. rewrite (length_app s1 s2) in H1. cbn [length] in H2. lia.
Qed.

Lemma take_runs s m c :
  getSequence m = e_seq e -> groupOf s m = g ->
  refines s top l -> getState m = AVAILABLE -> c <> [] -> holder e = None ->
  runs (run_command (Take c m)) s (fun s' r =>
    r = grants g c l /\ follows s top (if r then l1 ++ set_holder (Some c) e :: l2 else l) s').
Proof.
  intros Hm Hg Hr Hst Hc He. cbn [run_command]. apply runs_bind.
  eapply runs_mono; [by apply group_acquire_runs|]. intros s' [st b] Hres. cbn [snd] in *.
  pose proof (grants_spec c) as Hgr. destruct (grants g c l); destruct Hres as (-> & Hres).
  2: { mrun. done. }
  destruct Hres as (Hs & Hk & Hf). symmetry in Hgr. apply bool_decide_eq_true in Hgr.
  rewrite holders_here in Hs, Hgr. rewrite He in Hs, Hgr.
  change (option_list (@None str) ++ holders s2) with (holders s2) in Hs, Hgr.
  pose proof group_size as Hsz. rewrite holders_app in Hsz. apply runs_bind.
  eapply runs_mono; [eapply acquired_runs; [exact Hm|by rewrite (groupOf_kept s)|exact Hs|lia]|].
  intros s2' _ (Hs2 & Hk2 & Hf2). mrun. split; [done|].
  split; [|split; destruct Hk, Hk2; congruence].
  assert (Hcomp : compatible (Some c)) by (split; [done|by rewrite holders_app]).
  apply site_closes; [|by apply list_ok_held|].
  - rewrite holders_held. change (option_list (Some c) ++ holders s2) with (c :: holders s2).
    rewrite length_app in Hs2 |- *. cbn [length].
    assert (Hhd : default [] (head (holders s1 ++ c :: holders s2)) = c).
    { destruct (holders s1); [done|]. cbn. by inversion Hgr. }
    rewrite Hhd. by replace (Z.of_nat _) with (Z.of_nat (length (holders s1) + length (holders s2)) + 1) by lia.
  - rewrite Hf2. apply (free_enter g).
    + eapply free_move; [exact Hf|]. intros g' Hg'. by apply site_others.
    + intros p. apply not_free_held. rewrite holders_held. by destruct (holders s1).
Qed.
(** a group nobody holds a message of goes back to the index *)
Lemma disown_runs s l' x (P : MessageGroupManager -> unit -> Prop) :
  messageGroups s !! g = Some x -> members x = map member (sub g l') ->
  list_ok top l' -> sub g l' <> [] -> holders (sub g l') = [] -> free_except g (freeGroups s) l' ->
  (forall fg, free_ok fg l' ->
     P (set_free fg (set_groups (<[g := mkGroup (group x) [] (acquired_count x) (members x)]> (messageGroups s)) s)) tt) ->
  runs (disown g) s P.
Proof.
  intros Hx Hmem Hl' Hne Hh Hf HP. unfold disown, store_group. apply runs_bind. eapply deref_runs; [exact Hx|].
  mrun. destruct (sub g l') as [|e0 k] eqn:Es; [done|].
  apply massert_runs; [by rewrite Hmem|]. apply runs_bind. unfold front. rewrite Hmem at 1. cbn [map m_position member].
  destruct (free_add g (freeGroups s) top l' (e_seq e0) Hl' Hf) as [Hnone Hok]; [split; by rewrite Es|].
  mrun. apply massert_runs; [by apply bool_decide_eq_true|]. mrun. by apply HP.
Qed.

Lemma head_held : holder e <> None -> default [] (head (holders (sub g l))) <> [].
Proof.
  intros He. pose proof (owned_view top l g Hl) as Hown. unfold owned in Hown. cbn [owner view_of] in Hown.
  intros E. rewrite E in Hown. rewrite bool_decide_eq_true_2 in Hown by done.
  rewrite bool_decide_eq_false_2 in Hown; [done|]. rewrite holders_here.
  destruct (holder e) as [c|]; [|done]. by destruct (holders s1).
Qed.

Lemma requeued_runs s m c :
  getSequence m = e_seq e -> groupOf s m = g -> refines s top l -> holder e = Some c ->
  runs (requeued m) s (fun s' _ => follows s top (l1 ++ set_holder None e :: l2) s').
Proof.
  intros Hm Hg Hr He. set (l' := l1 ++ set_holder None e :: l2).
  assert (Hl' : list_ok top l') by (by apply list_ok_held).
  assert (Hhold : holders (sub g l') = holders (s1 ++ s2)).
  { unfold l'. by rewrite holders_held, holders_app. }
  assert (Hlen : length (holders (sub g l)) = S (length (holders (s1 ++ s2)))).
  { rewrite holders_here, He, holders_app, !length_app. cbn. lia. }
  pose proof group_size as Hsz.
  unfold requeued. apply runs_bind. eapply runs_mono; [by apply findGroup_site, refines_site|].
  intros s' r (-> & Hs & Hk & Hf & _). apply runs_bind. eapply deref_runs; [apply Hs|]. cbn [acquired_count].
  apply runs_bind, massert_runs; [apply negb_true_iff, Z.eqb_neq; lia|]. rewrite Hlen.
  rewrite uwrap_small by (unfold is_uint; lia). apply runs_bind, find_site; [done|].
  cbn [group owner acquired_count members]. rewrite alter_member. unfold store_group. mrun.
  replace (Z.of_nat (S (length (holders (s1 ++ s2)))) - 1) with (Z.of_nat (length (holders (s1 ++ s2)))) by lia.
  set (o := default [] _) in *. set (n := Z.of_nat _) in *.
  assert (Hown : o <> []) by (apply head_held; congruence).
  pose proof (store_site s' _ _ _ false o n Hs) as Hs2. cbn [m_position]. set (s3 := set_groups _ _) in *.
  unfold owned. cbn [owner]. rewrite bool_decide_eq_false_2 by done. cbn [negb]. rewrite andb_true_r.
  assert (Hfe : free_except g (freeGroups s) l').
  { eapply free_move; [apply free_leave; [apply Hr|]|].
    - intros p. apply not_free_held. intros E. by rewrite E in Hlen.
    - intros g' Hg'. by apply site_others. }
  destruct (n =? 0) eqn:En.
  - assert (Hnil : holders (s1 ++ s2) = []) by (apply nil_length_inv; lia).
    eapply (disown_runs s3 l'); [apply Hs2| |done| | | |].
    + unfold l'. rewrite (site_sub None), map_app. done.
    + unfold l'. rewrite (site_sub None). by destruct s1.
    + by rewrite Hhold.
    + cbn. by rewrite Hf.
    + intros fg Hfg. split; [|done]. apply (site_closes _ None); [|done|done]. fold l'. rewrite Hhold, Hnil.
      replace n with 0 in * by lia. pose proof (store_site s3 _ _ _ false [] 0 Hs2) as [? ? []].
      constructor; [done|done|by constructor].
  - mrun. split; [|done]. apply (site_closes _ None); [|done|]; fold l'.
    + rewrite Hhold, owner_rest; [done|]. intros E. unfold n in En. by rewrite E in En.
    + cbn. rewrite Hf. eapply free_enter; [exact Hfe|]. intros p. apply not_free_held. rewrite Hhold.
      intros E. unfold n in En. by rewrite E in En.
Qed.
(** *** The message leaves *)

Lemma gone_closes s :
  s1 ++ s2 = [] -> messageGroups s !! g = None -> (forall g', g' <> g -> messageGroups s !! g' = view g' l) ->
  cachedGroup s = None -> free_ok (freeGroups s) (l1 ++ l2) -> refines s top (l1 ++ l2).
Proof.
  intros Hnil Hx Ho Hc Hf. constructor; [apply list_ok_rest| |done|constructor; by rewrite Hc].
  intros g'. unfold view. destruct (decide (g' = g)) as [->|Hg']; [by rewrite site_rest, Hnil|].
  rewrite Ho by done. by rewrite rest_others.
Qed.

Lemma rest_closes s :
  s1 ++ s2 <> [] -> messageGroups s !! g = Some (view_of g (s1 ++ s2)) ->
  (forall g', g' <> g -> messageGroups s !! g' = view g' l) ->
  cache_ok s top l -> free_ok (freeGroups s) (l1 ++ l2) -> refines s top (l1 ++ l2).
Proof.
  intros Hne Hx Ho [Hc1 Hc2] Hf. constructor; [apply list_ok_rest| |done|constructor].
  - intros g'. destruct (decide (g' = g)) as [->|Hg'].
    + rewrite Hx. unfold view. rewrite site_rest. by destruct (s1 ++ s2).
    + rewrite Ho by done. unfold view. by rewrite rest_others.
  - intros c Hc. destruct (Hc1 c Hc) as [? Hs]. split; [done|]. destruct (decide (c = g)) as [->|Hcg].
    + by rewrite site_rest.
    + by rewrite rest_others.
  - intros c Hc. destruct (Hc2 c Hc) as [? Hlast]. split; [done|]. intros x Hx' Heq. apply Hlast; [|done].
    unfold l. set_solver.
Qed.

(** the group in the index while the message leaves *)
Definition leaving (held reFree : bool) (fg : gmap Z str) : Prop :=
  if held || reFree then free_except g fg (l1 ++ l2) else s1 ++ s2 <> [] /\ free_ok fg (l1 ++ l2).

(** nobody holds a message of what is left: the group goes back *)
Lemma given_back s o n :
  let x := mkGroup g o n (map member (s1 ++ s2)) in
  messageGroups s !! g = Some x -> (forall g', g' <> g -> messageGroups s !! g' = view g' l) ->
  cache_ok s top l -> s1 ++ s2 <> [] -> holders (s1 ++ s2) = [] -> n = 0 -> free_except g (freeGroups s) (l1 ++ l2) ->
  runs (disown g) s (fun s' _ => follows s top (l1 ++ l2) s').
Proof.
  intros x Hx Ho [Hc1 Hc2] Hne Hh -> Hf.
  eapply (disown_runs s (l1 ++ l2)); [exact Hx|by rewrite site_rest|apply list_ok_rest|by rewrite site_rest| |done|].
  - by rewrite site_rest.
  - intros fg Hfg. split; [|done]. apply rest_closes; [done| | |by constructor|done]; cbn [messageGroups set_free set_groups].
    + rewrite lookup_insert_eq. unfold view_of. by rewrite Hh.
    + intros g' Hg'. rewrite lookup_insert_ne by done. auto.
Qed.

Lemma holders_gone : holders (sub g l) = [] -> holders (s1 ++ s2) = [].
Proof. rewrite holders_here, holders_app. destruct (holders s1); [|done]. by destruct (holder e). Qed.

Lemma left_group_runs s held reFree :
  let o := default [] (head (holders (sub g l))) in
  let x := mkGroup g o (Z.of_nat (length (holders (s1 ++ s2)))) (map member (s1 ++ s2)) in
  messageGroups s !! g = Some x -> (forall g', g' <> g -> messageGroups s !! g' = view g' l) ->
  cache_ok s top l -> cachedGroup s = Some g ->
  held = negb (bool_decide (holders (sub g l) = [])) -> (held = true -> reFree = false) ->
  leaving held reFree (freeGroups s) ->
  runs (left_group g x reFree) s (fun s' _ => follows s top (l1 ++ l2) s').
Proof.
  intros o x Hx Ho Hca Hcg Hheld Hex Hlv. unfold left_group.
  change (members x) with (map member (s1 ++ s2)). change (acquired_count x) with (Z.of_nat (length (holders (s1 ++ s2)))).
  assert (Hown : owned x = held) by (rewrite Hheld; exact (owned_view top l g Hl)).
  pose proof (lo_count _ _ list_ok_rest) as Hcnt.
  assert (Hle : (length (sub g (l1 ++ l2)) <= length (l1 ++ l2))%nat) by apply length_filter.
  rewrite site_rest in Hle. rewrite length_map, Hown, uwrap_small by (unfold is_uint; lia).
  destruct (Z.of_nat (length (s1 ++ s2)) =? 0) eqn:E0.
  { assert (Hnil : s1 ++ s2 = []) by (apply nil_length_inv; lia). mrun. split; [|done].
    rewrite (bool_decide_eq_true_2 _ Hcg). apply gone_closes; cbn; try done; [by rewrite lookup_delete_eq| |].
    - intros g' Hg'. rewrite lookup_delete_ne by done. auto.
    - unfold leaving in Hlv. destruct (held || reFree); [|by destruct Hlv].
      eapply free_enter; [exact Hlv|]. intros p. apply not_free_gone. by rewrite site_rest. }
  assert (Hne : s1 ++ s2 <> []) by (intros E; by rewrite E in E0).
  destruct (Z.of_nat (length (holders (s1 ++ s2))) =? 0) eqn:En; cbn [andb].
  - assert (Hh : holders (s1 ++ s2) = []) by (apply nil_length_inv; lia).
    assert (Hback : held || reFree = true -> runs (disown g) s (fun s' _ => follows s top (l1 ++ l2) s')).
    { intros E. unfold leaving in Hlv. rewrite E in Hlv. eapply given_back; [exact Hx|done..|lia|done]. }
    destruct held; [|destruct reFree; [by apply Hback|]].
    + apply runs_bind. eapply runs_mono; [by apply Hback|]. intros s' _ [[? ? ? []] [? ?]]. mrun.
      split; [|done]. by constructor.
    + mrun. split; [|done]. destruct Hlv as [_ Hf]. apply rest_closes; try done. rewrite Hx. unfold x, view_of.
      rewrite Hh. do 2 f_equal. unfold o. symmetry in Hheld. apply negb_false_iff, bool_decide_eq_true in Hheld.
      by rewrite Hheld.
  - destruct held.
    2: { symmetry in Hheld. apply negb_false_iff, bool_decide_eq_true, holders_gone in Hheld.
         by rewrite Hheld in En. }
    rewrite Hex by done. mrun. assert (Hh : holders (s1 ++ s2) <> []) by (intros E; by rewrite E in En).
    split; [|done]. apply rest_closes; try done.
    + rewrite Hx. unfold x, view_of. do 2 f_equal. unfold o. by rewrite owner_rest.
    + eapply free_enter; [exact Hlv|]. intros p. apply not_free_held. by rewrite site_rest.
Qed.
Lemma leaving_index (fg : gmap Z str) :
  free_ok fg l ->
  let held := negb (bool_decide (holders (sub g l) = [])) in
  let reFree := Nat.eqb (length s1) 0 && negb held in
  if reFree then fg !! e_seq e = Some g /\ leaving held reFree (delete (e_seq e) fg)
  else leaving held reFree fg.
Proof.
  intros Hf held reFree. unfold leaving.
  assert (Hmove : free_except g fg l -> free_except g fg (l1 ++ l2)).
  { intros H. eapply free_move; [exact H|]. intros g' Hg'. by apply rest_others. }
  destruct held eqn:Eheld; cbn [orb].
  - unfold reFree. rewrite andb_false_r. apply Hmove, free_leave; [done|]. intros p. apply not_free_held.
    unfold held in Eheld. by apply negb_true_iff, bool_decide_eq_false in Eheld.
  - unfold held in Eheld. apply negb_false_iff, bool_decide_eq_true in Eheld.
    unfold reFree. rewrite andb_true_r. destruct s1 as [|e0 k] eqn:E1; cbn [length Nat.eqb].
    + destruct (free_remove g fg l (e_seq e) Hf) as [Hp Hfe].
      { split; [done|]. by rewrite site_here, E1. }
      split; [done|]. eapply free_move; [exact Hfe|]. intros g' Hg'. by apply rest_others.
    + split; [done|]. intros p g'. rewrite (Hf p g'). unfold first_free. destruct (decide (g' = g)) as [->|Hg'].
      * rewrite site_rest, (holders_gone Eheld), Eheld, site_here, E1. done.
      * by rewrite rest_others.
Qed.

Lemma dequeued_runs s m b :
  getSequence m = e_seq e -> groupOf s m = g ->
  at_site s b (default [] (head (holders (sub g l)))) (Z.of_nat (length (holders (s1 ++ s2))) + if b then 1 else 0) ->
  free_ok (freeGroups s) l ->
  runs (dequeued m) s (fun s' _ => follows s top (l1 ++ l2) s').
Proof.
  intros Hm Hg Hs0 Hf0. pose proof group_size as Hsz. unfold dequeued. apply runs_bind.
  eapply runs_mono; [by apply findGroup_site|]. intros s' r (-> & Hs & Hk & Hf & Hcg).
  apply runs_bind. eapply deref_runs; [apply Hs|]. apply runs_bind, find_site; [done|].
  cbn [members acquired_count group owner]. rewrite list_lookup_middle by (by rewrite length_map).
  set (o := default [] _) in *.
  assert (Hown : forall n k, owned (mkGroup g o n k) = negb (bool_decide (holders (sub g l) = [])))
    by (intros; exact (owned_view top l g Hl)).
  change (default false (m_acquired <$> Some (mkMember (e_seq e) b))) with b. apply runs_bind, massert_runs.
  { destruct b; [|done]. apply negb_true_iff, Z.eqb_neq. lia. }
  replace (if b then u32 (_ - 1) else _) with (Z.of_nat (length (holders (s1 ++ s2)))).
  2: { destruct b; [rewrite uwrap_small by (unfold is_uint; lia)|]; lia. }
  replace (delete (length s1) _) with (map member (s1 ++ s2)).
  2: { rewrite map_app. symmetry. rewrite <- (length_map member s1). apply delete_middle. }
  rewrite Hown. pose proof (leaving_index (freeGroups s') ltac:(by rewrite Hf)) as Hlv. cbn zeta in Hlv.
  set (held := negb _) in *. set (reFree := _ && negb held) in *.
  assert (Hun : runs (if reFree then unFree g else mret tt) s' (fun s3 _ => exists fg,
            s3 = set_free fg s' /\ leaving held reFree fg)).
  { destruct reFree eqn:Er; [|mrun; exists (freeGroups s'); by destruct s'].
    destruct Hlv as [Hp Hlv]. eapply unFree_site; [exact Hs| |exact Hp|by exists (delete (e_seq e) (freeGroups s'))].
    unfold reFree in Er. apply andb_prop in Er as [E1%Nat.eqb_eq%nil_length_inv _]. by rewrite site_here, E1. }
  apply runs_bind. eapply runs_mono; [exact Hun|]. intros s3 _ (fg & -> & Hfg). unfold store_group. mrun.
  destruct Hs as [Hx Ho [Hc1 Hc2]]. set (s4 := set_groups _ _). eapply runs_mono.
  - apply (left_group_runs s4 held reFree); unfold s4; cbn [messageGroups set_groups set_free].
    + by rewrite lookup_insert_eq.
    + intros g' Hg'. rewrite lookup_insert_ne by done. auto.
    + by constructor.
    + done.
    + done.
    + intros E. unfold reFree. rewrite E. apply andb_false_r.
    + done.
  - intros s5 _ [? [E1 E2]]. destruct Hk. split; [done|]. rewrite E1, E2. done.
Qed.
Lemma site_count :
  Z.of_nat (length (holders (sub g l))) =
  Z.of_nat (length (holders (s1 ++ s2))) + if bool_decide (is_Some (holder e)) then 1 else 0.
Proof. rewrite holders_here, holders_app, !length_app. destruct (holder e); cbn; lia. Qed.

Lemma group_dequeue_runs s m :
  getSequence m = e_seq e -> groupOf s m = g -> refines s top l ->
  runs (dequeued m) s (fun s' _ => follows s top (l1 ++ l2) s').
Proof.
  intros Hm Hg Hr. eapply dequeued_runs; [done|done| |apply Hr]. rewrite <- site_count. by apply refines_site.
Qed.

Lemma group_purge_runs s m :
  getSequence m = e_seq e -> groupOf s m = g -> refines s top l -> holder e = None ->
  runs (acquired m ;; dequeued m) s (fun s' _ => follows s top (l1 ++ l2) s').
Proof.
  intros Hm Hg Hr He. pose proof (refines_site s Hr) as Hs. pose proof group_size. rewrite site_count, He in Hs.
  rewrite bool_decide_eq_false_2 in Hs by (by intros [? ?]). apply runs_bind.
  eapply runs_mono; [eapply acquired_runs; [done|done|exact Hs|lia]|]. intros s' ? (Hs' & Hk & Hf).
  eapply runs_mono; [eapply (dequeued_runs s' m true); [done|by rewrite (groupOf_kept s)| |rewrite Hf; apply Hr]|].
  - rewrite Z.add_0_r in Hs'. exact Hs'.
  - intros s2' ? [? [E1 E2]]. destruct Hk. split; [done|]. rewrite E1, E2. done.
Qed.
End site.

(** ** Every sequence of calls *)

Definition top_after (c : Command) (top : Z) : Z := match c with Enqueue m => getSequence m | _ => top end.

Lemma command_runs s top l c :
  refines s top l -> admissible (groupOf s) c top l ->
  runs (run_command c) s (fun s' r =>
    r = (spec_command (groupOf s) c l).2 /\ follows s (top_after c top) (spec_command (groupOf s) c l).1 s').
Proof.
  intros Hr Ha. pose proof (rf_list _ _ _ Hr) as Hl.
  assert (Hsplit : forall m h, mkEntry (getSequence m) (groupOf s m) h ∈ l -> exists l1 l2,
    l = l1 ++ mkEntry (getSequence m) (groupOf s m) h :: l2 /\
    (forall f, map (at_entry (getSequence m) f) l = l1 ++ f (mkEntry (getSequence m) (groupOf s m) h) :: l2) /\
    filter (fun x => e_seq x <> getSequence m) l = l1 ++ l2).
  { intros m h Hm. destruct (entry_split top l _ _ Hl Hm eq_refl) as (l1 & l2 & ? & _ & _ & ? & ?). eauto. }
  destruct c as [m|c m|m|m|m]; cbn [run_command spec_command top_after] in *.
  - apply runs_bind. eapply runs_mono; [by apply (enqueued_runs s top l)|]. intros s' ? Hs. by mrun.
  - destruct Ha as (Hc & Hst & Hm). destruct (Hsplit _ _ Hm) as (l1 & l2 & El & Emap & _). rewrite El in Hr, Hl.
    eapply runs_mono; [by apply (take_runs top l1 _ l2 Hl)|]. intros s' r [-> Hf]. rewrite <- El in Hf |- *.
    cbn [e_group] in *. rewrite Emap. by destruct (grants (groupOf s m) c l).
  - destruct Ha as [c Hm]. destruct (Hsplit _ _ Hm) as (l1 & l2 & El & Emap & _). rewrite Emap. rewrite El in Hr, Hl.
    apply runs_bind. eapply runs_mono; [by eapply (requeued_runs top l1 _ l2 Hl)|]. intros s' ? Hf. by mrun.
  - destruct Ha as [h Hm]. destruct (Hsplit _ _ Hm) as (l1 & l2 & El & _ & Efil). rewrite Efil. rewrite El in Hr, Hl.
    apply runs_bind. eapply runs_mono; [by apply (group_dequeue_runs top l1 _ l2 Hl)|]. intros s' ? Hf. by mrun.
  - destruct (Hsplit _ _ Ha) as (l1 & l2 & El & _ & Efil). rewrite Efil. rewrite El in Hr, Hl.
    pose proof (group_purge_runs top l1 _ l2 Hl s m eq_refl eq_refl Hr eq_refl) as Hp. apply runs_bind_inv in Hp.
    apply runs_bind. eapply runs_mono; [exact Hp|]. intros s' ? Hf. apply runs_bind. eapply runs_mono; [exact Hf|]. intros s2 ? Hf2. by mrun.
Qed.

Fixpoint run_commands (cs : list Command) : Op (list bool) :=
  match cs with [] => mret [] | c :: cs => r ← run_command c; rs ← run_commands cs; mret (r :: rs) end.

Fixpoint spec_commands (groupOf : Message -> str) (cs : list Command) (l : list Entry) : list Entry * list bool :=
  match cs with
  | [] => (l, [])
  | c :: cs => let r := spec_command groupOf c l in let rs := spec_commands groupOf cs r.1 in (rs.1, r.2 :: rs.2)
  end.

Fixpoint admissible_all (groupOf : Message -> str) (cs : list Command) (top : Z) (l : list Entry) : Prop :=
  match cs with
  | [] => True
  | c :: cs => admissible groupOf c top l /\
               admissible_all groupOf cs (top_after c top) (spec_command groupOf c l).1
  end.

Lemma commands_run cs s top l :
  refines s top l -> admissible_all (groupOf s) cs top l ->
  runs (run_commands cs) s (fun s' rs =>
    rs = (spec_commands (groupOf s) cs l).2 /\ exists top', refines s' top' (spec_commands (groupOf s) cs l).1).
Proof.
  revert s top l. induction cs as [|c cs IH]; intros s top l Hr Ha; cbn [run_commands spec_commands].
  { mrun. split; [done|by exists top]. }
  destruct Ha as [Ha Hrest]. apply runs_bind. eapply runs_mono; [by apply (command_runs s top l)|].
  intros s' r (-> & Hr' & E1 & E2).
  assert (Eg : groupOf s' = groupOf s) by (unfold groupOf; by rewrite E1, E2).
  apply runs_bind. eapply runs_mono; [eapply IH; [exact Hr'|by rewrite Eg]|]. rewrite Eg.
  intros s2 rs [-> Hx]. by mrun.
Qed.

Lemma groups_new header d : refines (new_MessageGroupManager header d) 0 [].
Proof.
  constructor; [|done| |by constructor].
  - constructor; try done; [apply SSorted_nil|intros ? ? ? ? Hx; by apply elem_of_nil in Hx].
  - intros p g. change (freeGroups _) with (∅ : gmap Z str). rewrite lookup_empty.
    split; [done|]. by intros [_ ?].
Qed.

(** C22: whatever sequence of deliveries, releases, removals and purges the queue
    asks for, the manager never trips an assertion or a dangling group, grants a
    message exactly when no other consumer holds one of its group, and at the end
    all held messages of a group are held by the same consumer *)
Theorem groups_exclusive header d cs :
  let mgr := new_MessageGroupManager header d in
  admissible_all (groupOf mgr) cs 0 [] ->
  runs (run_commands cs) mgr (fun s' rs =>
    let '(l, answers) := spec_commands (groupOf mgr) cs [] in
    rs = answers /\ (forall g, messageGroups s' !! g = view g l) /\ free_ok (freeGroups s') l /\
    forall e1 e2 c1 c2, e1 ∈ l -> e2 ∈ l -> e_group e1 = e_group e2 ->
      holder e1 = Some c1 -> holder e2 = Some c2 -> c1 = c2).
Proof.
  intros mgr Ha. eapply runs_mono; [by apply (commands_run cs mgr 0 []), Ha; apply groups_new|].
  intros s' rs [-> [top' [Hl Hg Hf _]]]. destruct (spec_commands (groupOf mgr) cs []) as [l answers]. cbn in *.
  split; [done|]. split; [done|]. split; [done|]. apply (lo_exclusive _ _ Hl).
Qed.

(** a message of group [g] *)
Definition sample (p : Z) (g : str) : Message :=
  mkMessage (mkEncoding 0 false 0 0 [(s_ "group", g)] [] false) p AVAILABLE 0 false [].

(** the second consumer gets the other group, and the first one's once it is
    released *)
Definition sample_run : list Command :=
  let m1 := sample 1 (s_ "a") in let m2 := sample 2 (s_ "a") in let m3 := sample 3 [] in
  [Enqueue m1; Enqueue m2; Enqueue m3; Take (s_ "c1") m1; Take (s_ "c2") m2; Take (s_ "c2") m3;
   Dequeue m1; Take (s_ "c2") m2; Requeue m3; Purge m3].

Lemma groups_exclusive_witness :
  let mgr := new_MessageGroupManager (s_ "group") (s_ "default") in
  spec_commands (groupOf mgr) sample_run [] =
    ([mkEntry 2 (s_ "a") (Some (s_ "c2"))], [true; true; true; true; false; true; true; true; true; true]) /\
  runs (run_commands sample_run) mgr (fun _ rs => rs = [true; true; true; true; false; true; true; true; true; true]).
Proof.
  cbn zeta. split; [by vm_compute|]. eapply runs_mono.
  - apply (groups_exclusive (s_ "group") (s_ "default") sample_run).
    unfold sample_run. cbn zeta. repeat lazymatch goal with
    | |- admissible_all _ (_ :: _) _ _ => split
    | |- admissible _ (Enqueue _) _ _ => split; [split|]; by vm_compute
    | |- admissible _ (Take _ _) _ _ => split; [done|split; [done|by apply (bool_decide_unpack _)]]
    | |- admissible _ (Purge _) _ _ => cbn [admissible]; by apply (bool_decide_unpack _)
    | |- admissible _ (Requeue _) _ _ => exists (s_ "c2"); by apply (bool_decide_unpack _)
    | |- admissible _ (Dequeue _) _ _ => exists (Some (s_ "c1")); by apply (bool_decide_unpack _)
    | |- admissible_all _ [] _ _ => done
    end.
  - intros s' rs. vm_compute (spec_commands _ _ _). by intros [-> _].
Defined.
