(* ===== verification/Transactions.v ===== *)
(** * Transactions (src/qpid/broker/TxBuffer.cpp, DtxBuffer.cpp,
    DtxWorkRecord.cpp, DtxManager.cpp, DtxTimeout.cpp)

    A [TxBuffer] collects the operations of a transaction; a [DtxBuffer] is the
    part of a distributed transaction one session works on; a [DtxWorkRecord]
    is a branch with the buffers of all sessions that joined it, and the
    [DtxManager] knows the branches by their xid.

    Buffers are shared between sessions and branches: they live in a heap and
    are named by their address.  Calls out of these classes are events of
    [log], the newest first: the virtual functions of the operations ([TxOp])
    and of a buffer's [TransactionObserver], and the calls of the store.  What
    they answer is a function of everything that happened before
    ([Environment]); a store call may throw, while [TxOp]'s functions are
    declared not to and an observer's [commit] and [rollback] are taken not to.
    [Joined] and [Recovered] only mark what the code did, for the theorems.  A
    command is one step: the locks are held throughout it. *)

From Stdlib Require Import ZArith Lia Ascii String.
From stdpp Require Import gmap strings.
From S2P Require Import Prelude.

Inductive Event :=
| OpEnlist (b o : nat)
| OpPrepare (b o : nat) (ok : bool)
| OpCommit (b o : nat)
| OpRollback (b o : nat)
| ObsPrepare (b : nat) (ok : bool)
| ObsCommit (b : nat)
| ObsRollback (b : nat)
| StBegin (t : nat) (xid : option str)
| StPrepare (t : nat)
| StCommit (t : nat)
| StAbort (t : nat)
| Joined (branch b : nat)
| Recovered (b o : nat).

#[global] Instance Event_eq_dec : EqDecision Event.
Proof. solve_decision. Defined.

Record Environment := mkEnvironment {
  op_prepare : list Event -> nat -> bool;
  observer_prepare : list Event -> nat -> bool;
  store_throws : list Event -> Event -> bool;
  (** broker options, in seconds; none when zero *)
  dtxDefaultTimeout : Z;
  dtxMaxTimeout : Z
}.

(** ** Data *)

(** what a [DtxBuffer] has besides a [TxBuffer]; its xid is [b_xid] *)
Record DtxPart := mkDtx { b_xid : str; ended : bool; suspended : bool; failed : bool; b_expired : bool }.

Record TxBuffer := mkBuffer { ops : list nat; error : str; txContext : option nat; dtx : option DtxPart }.

Definition new_TxBuffer : TxBuffer := mkBuffer [] [] None None.
Definition new_DtxBuffer (xid : str) : TxBuffer := mkBuffer [] [] None (Some (mkDtx xid false false false false)).

(** a timeout is named by its address; [r_branch] tells the branches apart that
    had one xid after another *)
Record DtxWorkRecord := mkRecord {
  r_branch : nat; completed : bool; rolledback : bool; prepared : bool; expired : bool;
  timeout : option (nat * Z); work : list nat; txn : option nat
}.

Definition new_DtxWorkRecord (branch : nat) : DtxWorkRecord :=
  mkRecord branch false false false false None [] None.

(** what a session keeps of its transactions *)
Record Session := mkSession {
  dtxSelected : bool; txBuffer : option nat; dtxBuffer : option nat;
  suspendedXids : gmap str (option nat); closeComplete : bool
}.

Definition new_Session : Session := mkSession false None None ∅ false.

(** [timers]: the tasks the timer has, with the [DtxTimeout]'s xid and seconds;
    [completions]: the buffers whose commit has begun and not ended *)
Record World := mkWorld {
  heap : gmap nat TxBuffer;
  branches : gmap str DtxWorkRecord;
  timers : gmap nat (str * Z);
  sessions : gmap nat Session;
  completions : list nat;
  fresh : nat;
  log : list Event
}.

Definition new_World : World := mkWorld ∅ ∅ ∅ ∅ [] 0 [].

Abbreviation Op := (M World).

Definition set_heap (x : gmap nat TxBuffer) (w : World) : World :=
  mkWorld x (branches w) (timers w) (sessions w) (completions w) (fresh w) (log w).
Definition set_branches (x : gmap str DtxWorkRecord) (w : World) : World :=
  mkWorld (heap w) x (timers w) (sessions w) (completions w) (fresh w) (log w).
Definition set_timers (x : gmap nat (str * Z)) (w : World) : World :=
  mkWorld (heap w) (branches w) x (sessions w) (completions w) (fresh w) (log w).
Definition set_sessions (x : gmap nat Session) (w : World) : World :=
  mkWorld (heap w) (branches w) (timers w) x (completions w) (fresh w) (log w).
Definition set_completions (x : list nat) (w : World) : World :=
  mkWorld (heap w) (branches w) (timers w) (sessions w) x (fresh w) (log w).
Definition emit (e : Event) : Op unit := modify (fun w =>
  mkWorld (heap w) (branches w) (timers w) (sessions w) (completions w) (fresh w) (e :: log w)).

(** a new address *)
Definition alloc : Op nat := fun w =>
  (mkWorld (heap w) (branches w) (timers w) (sessions w) (completions w) (S (fresh w)) (log w), Ret (fresh w)).

Definition buffer (b : nat) : Op TxBuffer :=
  w ← get; match heap w !! b with Some x => mret x | None => throw UndefinedBehaviour end.
Definition put_buffer (b : nat) (x : TxBuffer) : Op unit := modify (fun w => set_heap (<[b := x]> (heap w)) w).
Definition dtx_part (b : nat) : Op DtxPart :=
  x ← buffer b; match dtx x with Some d => mret d | None => throw UndefinedBehaviour end.
Definition put_dtx (b : nat) (d : DtxPart) : Op unit :=
  x ← buffer b; put_buffer b (mkBuffer (ops x) (error x) (txContext x) (Some d)).

Fixpoint for_each {A} (f : A -> Op unit) (l : list A) : Op unit :=
  match l with [] => mret tt | a :: l => f a ;; for_each f l end.

(** the handler of a [catch (DtxTimeoutException&)] that throws again *)
Definition on_timeout {A} (h : Op unit) (m : Op A) : Op A := fun w =>
  match m w with
  | (w', Throw DtxTimeoutException) => (h ;; throw DtxTimeoutException) w'
  | r => r
  end.

(** a local object whose destructor calls [h] *)
Definition finally {A} (h : Op unit) (m : Op A) : Op A := fun w =>
  match m w with
  | (w', r) => match h w' with (w'', Ret _) => (w'', r) | (w'', Throw e) => (w'', Throw e) end
  end.

Section transactions.
Context (env : Environment).

(** a call of the store, which throws or is done *)
Definition store_call (e : Event) : Op unit :=
  w ← get; if store_throws env (log w) e then throw StoreException else emit e.

Definition store_begin (xid : option str) : Op nat :=
  t ← alloc; store_call (StBegin t xid) ;; mret t.

(** ** [TxBuffer] *)

Fixpoint prepare_ops (b : nat) (l : list nat) : Op bool :=
  match l with
  | [] => mret true
  | o :: l =>
      w ← get;
      let ok := op_prepare env (log w) o in
      emit (OpPrepare b o ok) ;;
      if ok then prepare_ops b l else mret false
  end.

Definition tx_prepare (b : nat) : Op bool :=
  w ← get;
  let ok := observer_prepare env (log w) b in
  emit (ObsPrepare b ok) ;;
  if ok then x ← buffer b; prepare_ops b (ops x) else mret false.

Definition clear_ops (b : nat) : Op unit :=
  x ← buffer b; put_buffer b (mkBuffer [] (error x) (txContext x) (dtx x)).

Definition tx_commit (b : nat) : Op unit :=
  x ← buffer b;
  emit (ObsCommit b) ;;
  for_each (fun o => emit (OpCommit b o)) (ops x) ;;
  clear_ops b.

Definition tx_rollback (b : nat) : Op unit :=
  x ← buffer b;
  emit (ObsRollback b) ;;
  for_each (fun o => emit (OpRollback b o)) (ops x) ;;
  clear_ops b.

(** the operation calls the observer, and is kept *)
Definition enlist (b o : nat) : Op unit :=
  x ← buffer b;
  emit (OpEnlist b o) ;;
  put_buffer b (mkBuffer (ops x ++ [o]) (error x) (txContext x) (dtx x)).

Definition setError (b : nat) (e : str) : Op unit :=
  x ← buffer b; put_buffer b (mkBuffer (ops x) e (txContext x) (dtx x)).

(** the broker always has a store: without one the code throws here *)
Definition startCommit (b : nat) : Op unit :=
  t ← store_begin None;
  x ← buffer b;
  put_buffer b (mkBuffer (ops x) (error x) (Some t) (dtx x)) ;;
  ok ← tx_prepare b;
  if ok : bool then mret tt else setError b (s_ "Transaction prepare failed.").

Definition endCommit (b : nat) : Op unit :=
  x ← buffer b;
  match txContext x with
  | None => throw UndefinedBehaviour
  | Some t =>
      if decide (error x = []) then store_call (StCommit t) ;; tx_commit b
      else store_call (StAbort t) ;; tx_rollback b ;; throw InternalErrorException
  end.

(** ** [DtxBuffer] *)

Definition markEnded (b : nat) : Op unit :=
  d ← dtx_part b; put_dtx b (mkDtx (b_xid d) true (suspended d) (failed d) (b_expired d)).
Definition setSuspended (b : nat) (v : bool) : Op unit :=
  d ← dtx_part b; put_dtx b (mkDtx (b_xid d) (ended d) v (failed d) (b_expired d)).

Definition fail (b : nat) : Op unit :=
  tx_rollback b ;;
  d ← dtx_part b; put_dtx b (mkDtx (b_xid d) true (suspended d) true (b_expired d)).

Definition buffer_timedout (b : nat) : Op unit :=
  d ← dtx_part b;
  put_dtx b (mkDtx (b_xid d) (ended d) (suspended d) (failed d) true) ;;
  fail b.

(** ** [DtxWorkRecord] *)

Definition getWork (xid : str) : Op DtxWorkRecord :=
  w ← get; match branches w !! xid with Some r => mret r | None => throw NotFoundException end.
Definition put_record (xid : str) (r : DtxWorkRecord) : Op unit :=
  modify (fun w => set_branches (<[xid := r]> (branches w)) w).

Definition set_txn (t : option nat) (r : DtxWorkRecord) : DtxWorkRecord :=
  mkRecord (r_branch r) (completed r) (rolledback r) (prepared r) (expired r) (timeout r) (work r) t.
Definition set_timeout (t : option (nat * Z)) (r : DtxWorkRecord) : DtxWorkRecord :=
  mkRecord (r_branch r) (completed r) (rolledback r) (prepared r) (expired r) t (work r) (txn r).
Definition set_flags (c rb p e : bool) (r : DtxWorkRecord) : DtxWorkRecord :=
  mkRecord (r_branch r) c rb p e (timeout r) (work r) (txn r).

(** the loop of [check]: the flag [rolledback] after it, which stays set when
    the loop throws *)
Fixpoint check_ended (xid : str) (l : list nat) : Op unit :=
  match l with
  | [] => mret tt
  | b :: l =>
      d ← dtx_part b;
      if negb (ended d) then throw IllegalStateException
      else
        (if failed d
         then r ← getWork xid; put_record xid (set_flags (completed r) true (prepared r) (expired r) r)
         else mret tt) ;;
        check_ended xid l
  end.

Definition check (xid : str) : Op bool :=
  r ← getWork xid;
  if expired r then throw DtxTimeoutException
  else
    (if completed r then mret tt
     else
       check_ended xid (work r) ;;
       r ← getWork xid;
       put_record xid (set_flags true (rolledback r) (prepared r) (expired r) r)) ;;
    r ← getWork xid;
    mret (negb (rolledback r)).

Definition abort (xid : str) : Op unit :=
  r ← getWork xid;
  match txn r with
  | Some t => store_call (StAbort t) ;; put_record xid (set_txn None r)
  | None => mret tt
  end ;;
  for_each tx_rollback (work r).

(** [prepare] with a transaction context *)
Fixpoint prepare_work (l : list nat) : Op bool :=
  match l with [] => mret true | b :: l => ok ← tx_prepare b; if ok : bool then prepare_work l else mret false end.

Definition record_prepare (xid : str) : Op bool :=
  ok ← check xid;
  (if ok : bool then
     t ← store_begin (Some xid);
     r ← getWork xid;
     put_record xid (set_txn (Some t) r) ;;
     ok ← prepare_work (work r);
     if ok : bool then
       store_call (StPrepare t) ;;
       r ← getWork xid;
       put_record xid (set_flags (completed r) (rolledback r) true (expired r) r)
     else abort xid
   else abort xid) ;;
  r ← getWork xid;
  mret (prepared r).

Definition record_commit (xid : str) (onePhase : bool) : Op bool :=
  ok ← check xid;
  if ok : bool then
    r ← getWork xid;
    if prepared r then
      guard_throw onePhase IllegalStateException ;;
      match txn r with
      | None => throw UndefinedBehaviour
      | Some t =>
          store_call (StCommit t) ;;
          put_record xid (set_txn None r) ;;
          for_each tx_commit (work r) ;;
          mret true
      end
    else
      guard_throw (negb onePhase) IllegalStateException ;;
      t ← store_begin None;
      ok ← prepare_work (work r);
      if ok : bool then store_call (StCommit t) ;; for_each tx_commit (work r) ;; mret true
      else store_call (StAbort t) ;; abort xid ;; mret false
  else abort xid ;; mret false.

Definition record_rollback (xid : str) : Op unit := check xid ;; abort xid.

Definition add (xid : str) (b : nat) : Op unit :=
  r ← getWork xid;
  guard_throw (expired r) DtxTimeoutException ;;
  guard_throw (completed r) CommandInvalidException ;;
  emit (Joined (r_branch r) b) ;;
  put_record xid (mkRecord (r_branch r) (completed r) (rolledback r) (prepared r) (expired r) (timeout r)
                    (work r ++ [b]) (txn r)).

Definition record_recover (xid : str) (t b : nat) : Op unit :=
  add xid b ;;
  r ← getWork xid;
  put_record xid (set_txn (Some t) r) ;;
  markEnded b ;;
  r ← getWork xid;
  put_record xid (set_flags true (rolledback r) true (expired r) r).

Definition timeout_buffer (b : nat) : Op unit :=
  d ← dtx_part b; if ended d then mret tt else buffer_timedout b.

Definition record_timedout (xid : str) : Op unit :=
  r ← getWork xid;
  put_record xid (set_flags (completed r) true (prepared r) true r) ;;
  (if completed r then mret tt else for_each timeout_buffer (work r)) ;;
  abort xid.
(** ** [DtxManager] *)

Definition cancel (t : option (nat * Z)) : Op unit :=
  match t with Some (t, _) => modify (fun w => set_timers (delete t (timers w)) w) | None => mret tt end.

Definition setTimeout (xid : str) (secs : Z) : Op unit :=
  r ← getWork xid;
  if bool_decide (snd <$> timeout r = Some secs) then mret tt
  else
    cancel (timeout r) ;;
    t ← alloc;
    put_record xid (set_timeout (Some (t, secs)) r) ;;
    modify (fun w => set_timers (<[t := (xid, secs)]> (timers w)) w).

Definition getTimeout (xid : str) : Op Z :=
  r ← getWork xid; mret (default 0 (snd <$> timeout r)).

Definition createWork (xid : str) : Op unit :=
  w ← get;
  match branches w !! xid with
  | Some _ => throw NotAllowedException
  | None =>
      n ← alloc;
      put_record xid (new_DtxWorkRecord n) ;;
      if 0 <? dtxDefaultTimeout env then setTimeout xid (dtxDefaultTimeout env) else mret tt
  end.

(** the record's destructor cancels its timeout *)
Definition remove (xid : str) : Op unit :=
  r ← getWork xid;
  modify (fun w => set_branches (delete xid (branches w)) w) ;;
  cancel (timeout r).

Definition start (xid : str) (b : nat) : Op unit := createWork xid ;; add xid b.
Definition join (xid : str) (b : nat) : Op unit := add xid b.
Definition recover (xid : str) (t b : nat) : Op unit := createWork xid ;; record_recover xid t b.

Definition prepare (xid : str) : Op bool := on_timeout (remove xid) (record_prepare xid).
Definition commit (xid : str) (onePhase : bool) : Op bool :=
  on_timeout (remove xid) (r ← record_commit xid onePhase; remove xid ;; mret r).
Definition rollback (xid : str) : Op unit :=
  on_timeout (remove xid) (record_rollback xid ;; remove xid).

Definition timedout (xid : str) : Op unit :=
  w ← get; match branches w !! xid with Some _ => record_timedout xid | None => mret tt end.

(** [DtxTimeout::fire], called by the timer for a task it has *)
Definition fire (t : nat) : Op unit :=
  w ← get;
  match timers w !! t with
  | Some (xid, _) => modify (fun w => set_timers (delete t (timers w)) w) ;; timedout xid
  | None => mret tt
  end.

(** [RecoveryManagerImpl::recoverTransaction] with the operations the store
    then adds to the buffer *)
Definition recoverTransaction (xid : str) (l : list nat) : Op unit :=
  b ← alloc;
  put_buffer b (new_DtxBuffer []) ;;
  t ← alloc;
  recover xid t b ;;
  for_each (fun o => emit (Recovered b o) ;; enlist b o) l.

(** ** Sessions (src/qpid/broker/SemanticState.cpp)

    A session that is not in the map is as its constructor made it. *)

Definition session (s : nat) : Op Session := w ← get; mret (default new_Session (sessions w !! s)).
Definition put_session (s : nat) (x : Session) : Op unit :=
  modify (fun w => set_sessions (<[s := x]> (sessions w)) w).
Definition set_buffers (tx dx : option nat) (x : Session) : Session :=
  mkSession (dtxSelected x) tx dx (suspendedXids x) (closeComplete x).

Definition startTx (s : nat) : Op unit :=
  b ← alloc;
  put_buffer b new_TxBuffer ;;
  x ← session s;
  put_session s (set_buffers (Some b) (dtxBuffer x) x).

(** [o] is the acceptance of the messages acknowledged so far *)
Definition session_commit (s o : nat) : Op unit :=
  x ← session s;
  match txBuffer x with
  | None => throw CommandInvalidException
  | Some b =>
      finally (startTx s)
        (enlist b o ;; startCommit b ;; modify (fun w => set_completions (b :: completions w) w))
  end.

(** the callback of an asynchronous completion *)
Definition complete (b : nat) : Op unit :=
  w ← get;
  if decide (b ∈ completions w) then
    modify (fun w => set_completions (filter (fun x => x <> b) (completions w)) w) ;; endCommit b
  else mret tt.

(** an error of a thread that completes the transaction *)
Definition completer_error (b : nat) (e : str) : Op unit :=
  w ← get; if decide (b ∈ completions w) then setError b e else mret tt.

Definition session_rollback (s : nat) : Op unit :=
  x ← session s;
  match txBuffer x with
  | None => throw CommandInvalidException
  | Some b => finally (startTx s) (tx_rollback b)
  end.

Definition selectDtx (s : nat) : Op unit :=
  x ← session s;
  put_session s (mkSession true (txBuffer x) (dtxBuffer x) (suspendedXids x) (closeComplete x)).

Definition startDtx (s : nat) (xid : str) (is_join : bool) : Op unit :=
  x ← session s;
  guard_throw (negb (dtxSelected x)) CommandInvalidException ;;
  b ← alloc;
  put_buffer b (new_DtxBuffer xid) ;;
  put_session s (set_buffers (Some b) (Some b) x) ;;
  if is_join then join xid b else start xid b.

(** [dtxBuffer->isExpired()] through the session's pointer *)
Definition checkDtxTimeout (s b : nat) : Op unit :=
  d ← dtx_part b;
  if b_expired d then
    x ← session s; put_session s (set_buffers (txBuffer x) None x) ;; throw DtxTimeoutException
  else mret tt.

Definition endDtx (s : nat) (xid : str) (is_fail : bool) : Op unit :=
  x ← session s;
  match dtxBuffer x with
  | None => throw IllegalStateException
  | Some b =>
      d ← dtx_part b;
      guard_throw (negb (bool_decide (b_xid d = xid))) CommandInvalidException ;;
      put_session s (set_buffers None (Some b) x) ;;
      checkDtxTimeout s b ;;
      (if is_fail then fail b else markEnded b) ;;
      put_session s (set_buffers None None x)
  end.

Definition suspendDtx (s : nat) (xid : str) : Op unit :=
  x ← session s;
  match dtxBuffer x with
  | None => throw UndefinedBehaviour
  | Some b =>
      d ← dtx_part b;
      guard_throw (negb (bool_decide (b_xid d = xid))) CommandInvalidException ;;
      put_session s (set_buffers None (Some b) x) ;;
      checkDtxTimeout s b ;;
      setSuspended b true ;;
      put_session s (mkSession (dtxSelected x) None None (<[xid := Some b]> (suspendedXids x)) (closeComplete x))
  end.

(** [suspendedXids[xid]] makes a null entry for an xid that is not there *)
Definition resumeDtx (s : nat) (xid : str) : Op unit :=
  x ← session s;
  guard_throw (negb (dtxSelected x)) CommandInvalidException ;;
  match default None (suspendedXids x !! xid) with
  | None =>
      put_session s (mkSession (dtxSelected x) (txBuffer x) None (<[xid := None]> (suspendedXids x)) (closeComplete x)) ;;
      throw CommandInvalidException
  | Some b =>
      put_session s (mkSession (dtxSelected x) (txBuffer x) (Some b) (delete xid (suspendedXids x)) (closeComplete x)) ;;
      d ← dtx_part b;
      guard_throw (negb (bool_decide (b_xid d = xid))) CommandInvalidException ;;
      guard_throw (negb (suspended d)) CommandInvalidException ;;
      checkDtxTimeout s b ;;
      setSuspended b false ;;
      x ← session s;
      put_session s (set_buffers (Some b) (dtxBuffer x) x)
  end.

Definition closed (s : nat) : Op unit :=
  x ← session s;
  if closeComplete x then mret tt
  else
    match dtxBuffer x with Some b => fail b | None => mret tt end ;;
    put_session s (mkSession (dtxSelected x) (txBuffer x) (dtxBuffer x) (suspendedXids x) true) ;;
    match txBuffer x with Some b => tx_rollback b | None => mret tt end.

(** a publication, when the queue is given the session's transaction *)
Definition publish (s o : nat) : Op unit :=
  x ← session s; match txBuffer x with Some b => enlist b o | None => mret tt end.

(** acknowledgement in a transaction: in a distributed one the messages are
    enlisted at once *)
Definition accepted (s o : nat) : Op unit :=
  x ← session s;
  match txBuffer x, dtxBuffer x with Some _, Some b => enlist b o | _, _ => mret tt end.

(** ** The commands of a client (src/qpid/broker/SessionAdapter.cpp) *)

Inductive XaStatus := XA_OK | XA_RBROLLBACK | XA_RBTIMEOUT.

(** the handlers turn a timeout into a status *)
Definition xa_result (m : Op XaStatus) : Op XaStatus := fun w =>
  match m w with (w', Throw DtxTimeoutException) => (w', Ret XA_RBTIMEOUT) | r => r end.

Definition dtx_end (s : nat) (xid : str) (is_fail is_suspend : bool) : Op XaStatus :=
  xa_result
    (if is_fail then
       endDtx s xid true ;;
       if is_suspend then throw CommandInvalidException else mret XA_RBROLLBACK
     else (if is_suspend then suspendDtx s xid else endDtx s xid false) ;; mret XA_OK).

Definition dtx_start (s : nat) (xid : str) (is_join is_resume : bool) : Op XaStatus :=
  if is_join && is_resume then throw CommandInvalidException
  else xa_result ((if is_resume then resumeDtx s xid else startDtx s xid is_join) ;; mret XA_OK).

Definition status (ok : bool) : XaStatus := if ok then XA_OK else XA_RBROLLBACK.
Definition dtx_prepare (xid : str) : Op XaStatus := xa_result (ok ← prepare xid; mret (status ok)).
Definition dtx_commit (xid : str) (onePhase : bool) : Op XaStatus :=
  xa_result (ok ← commit xid onePhase; mret (status ok)).
Definition dtx_rollback (xid : str) : Op XaStatus := xa_result (rollback xid ;; mret XA_OK).

Definition dtx_setTimeout (xid : str) (secs : Z) : Op unit :=
  guard_throw ((dtxMaxTimeout env <? secs) && (0 <? dtxMaxTimeout env)) InvalidArgumentException ;;
  setTimeout xid secs.
End transactions.
