(* ===== verification/TransactionsInv.v ===== *)
(** * The invariant of transactions

    The invariant [Inv] of the buffers, branches and sessions of a broker, and
    the state changes that keep it.  A branch of which an operation was rolled
    back is [doomed]: it will not commit any other; a branch of which an
    operation was committed is over, and no session has a part of it. *)

From Stdlib Require Import ZArith Lia Ascii String.
From stdpp Require Import gmap strings.
From S2P Require Import Prelude Transactions.

Abbreviation Heap := (gmap nat TxBuffer).
Abbreviation Branches := (gmap str DtxWorkRecord).
Abbreviation Sessions := (gmap nat Session).

(** ** What the invariant speaks of *)

Definition ops_of (h : Heap) (b : nat) : list nat := default [] (ops <$> h !! b).
Definition part_of (h : Heap) (b : nat) : option DtxPart := h !! b ≫= dtx.
Definition flag (f : DtxPart -> bool) (h : Heap) (b : nat) : bool := default false (f <$> part_of h b).

Definition current (x : Session) (b : nat) : Prop := txBuffer x = Some b \/ dtxBuffer x = Some b.
Definition parked (x : Session) (b : nat) : Prop := exists xid, suspendedXids x !! xid = Some (Some b).

(** a session that can still work on the buffer *)
Definition refers (ss : Sessions) (s b : nat) : Prop :=
  exists x, ss !! s = Some x /\ closeComplete x = false /\ (current x b \/ parked x b).
Definition referred (ss : Sessions) (b : nat) : Prop := exists s, refers ss s b.

Definition committed (lg : list Event) (b : nat) : Prop := exists o, OpCommit b o ∈ lg.
Definition undone (lg : list Event) (b : nat) : Prop := exists o, OpRollback b o ∈ lg.
Definition ready (lg : list Event) (b o : nat) : Prop := OpPrepare b o true ∈ lg \/ Recovered b o ∈ lg.

(** no operation of the branch will be committed any more *)
Definition doomed (h : Heap) (ss : Sessions) (r : DtxWorkRecord) : Prop :=
  rolledback r = true \/ expired r = true \/
  (completed r = false /\ exists b, b ∈ work r /\ flag failed h b = true) \/
  (completed r = true /\ forall b, b ∈ work r -> ops_of h b = []) \/
  (exists b, b ∈ work r /\ flag ended h b = false /\ ~ referred ss b).

Record Inv (h : Heap) (br : Branches) (ss : Sessions) (cs : list nat) (n : nat) (lg : list Event) : Prop := mkInv {
  (** addresses *)
  i_heap : forall b x, h !! b = Some x -> (b < n)%nat;
  i_events : forall b o, OpCommit b o ∈ lg \/ OpRollback b o ∈ lg -> is_Some (h !! b);
  i_joined : forall r b, Joined r b ∈ lg -> is_Some (part_of h b) /\ (r < n)%nat;
  i_one : forall r r' b, Joined r b ∈ lg -> Joined r' b ∈ lg -> r = r';
  (** branches *)
  i_live : forall xid r, br !! xid = Some r ->
    (r_branch r < n)%nat /\ forall b, b ∈ work r <-> Joined (r_branch r) b ∈ lg;
  i_inj : forall xid xid' r r', br !! xid = Some r -> br !! xid' = Some r' -> r_branch r = r_branch r' -> xid = xid';
  (** sessions *)
  i_refs : forall s x b, ss !! s = Some x -> closeComplete x = false ->
    (txBuffer x = Some b -> is_Some (h !! b)) /\ (dtxBuffer x = Some b -> is_Some (part_of h b));
  i_parked : forall s x xid b, ss !! s = Some x -> suspendedXids x !! xid = Some (Some b) ->
    exists d, part_of h b = Some d /\ b_xid d = xid;
  i_apart : forall s s' b, refers ss s b -> refers ss s' b -> s = s';
  i_moved : forall s x b, ss !! s = Some x -> closeComplete x = false -> current x b -> ~ parked x b;
  (** buffers *)
  i_ended : forall b, referred ss b -> flag ended h b = true -> flag b_expired h b = true;
  i_expired : forall xid r b, br !! xid = Some r -> b ∈ work r -> flag b_expired h b = true -> expired r = true;
  i_complete : forall xid r, br !! xid = Some r ->
    (completed r = true -> forall b, b ∈ work r -> flag ended h b = true) /\ (prepared r = true -> completed r = true);
  (** outcomes *)
  i_committed : forall r b, Joined r b ∈ lg -> committed lg b ->
    (forall xid x, br !! xid = Some x -> r_branch x <> r) /\
    forall b', Joined r b' ∈ lg -> ops_of h b' = [] /\ ~ referred ss b' /\ ~ undone lg b';
  i_undone : forall xid r b, br !! xid = Some r -> b ∈ work r -> undone lg b -> doomed h ss r;
  i_prepared : forall xid r, br !! xid = Some r -> prepared r = true ->
    expired r = true \/ forall b o, b ∈ work r -> o ∈ ops_of h b -> ready lg b o;
  i_local : forall b, b ∈ cs -> exists x, h !! b = Some x /\ dtx x = None /\ ~ referred ss b /\
    (error x = [] -> forall o, o ∈ ops x -> ready lg b o);
  i_ready : forall b o, OpCommit b o ∈ lg -> ready lg b o
}.

Definition inv (w : World) : Prop := Inv (heap w) (branches w) (sessions w) (completions w) (fresh w) (log w).

Lemma inv_new : inv new_World.
Proof.
  constructor; cbn; intros;
    repeat match goal with
    | H : _ ∈ [] |- _ => by apply elem_of_nil in H
    | H : ∅ !! _ = Some _ |- _ => by rewrite lookup_empty in H
    | H : _ \/ _ |- _ => destruct H
    | H : referred _ _ |- _ => destruct H
    | H : refers _ _ _ |- _ => destruct H as (? & H & _)
    end.
Qed.

(** ** Reading a changed heap *)

Lemma ops_of_insert h b x b' : ops_of (<[b := x]> h) b' = if decide (b' = b) then ops x else ops_of h b'.
Proof. unfold ops_of. destruct (decide (b' = b)) as [->|]; by simplify_map_eq. Qed.

Lemma part_of_insert h b x b' : part_of (<[b := x]> h) b' = if decide (b' = b) then dtx x else part_of h b'.
Proof. unfold part_of. destruct (decide (b' = b)) as [->|]; by simplify_map_eq. Qed.

Lemma flag_insert f h b x b' :
  flag f (<[b := x]> h) b' = if decide (b' = b) then default false (f <$> dtx x) else flag f h b'.
Proof. unfold flag. rewrite part_of_insert. by case_decide. Qed.

(** the same buffers, flags apart from [ops] *)
Definition same_parts (h h' : Heap) : Prop :=
  forall b, part_of h' b = part_of h b /\ (is_Some (h' !! b) <-> is_Some (h !! b)).

Lemma same_flag f h h' b : same_parts h h' -> flag f h' b = flag f h b.
Proof. intros H. unfold flag. by rewrite (proj1 (H b)). Qed.

Lemma doomed_frame h h' ss ss' r :
  (forall b, b ∈ work r -> flag failed h b = true -> flag failed h' b = true) ->
  (completed r = true -> forall b, b ∈ work r -> ops_of h b = [] -> ops_of h' b = []) ->
  (forall b, b ∈ work r -> flag ended h b = false -> ~ referred ss b -> flag ended h' b = false /\ ~ referred ss' b) ->
  doomed h ss r -> doomed h' ss' r.
Proof.
  intros Hf Ho Hr [H|[H|[[H (b & Hb & Hb')]|[[H Hall]|(b & Hb & He & Hn)]]]].
  - by left.
  - by right; left.
  - right; right; left. split; [done|]. exists b. auto.
  - right; right; right; left. split; [done|]. intros b Hb. auto.
  - do 4 right. exists b. split; [done|]. auto.
Qed.

(** ** Steps *)

(** an event that decides nothing *)
Definition neutral (e : Event) : Prop :=
  match e with OpCommit _ _ | OpRollback _ _ | Joined _ _ => False | _ => True end.

Lemma committed_neutral es lg b : Forall neutral es -> committed (es ++ lg) b <-> committed lg b.
Proof.
  intros Hn. unfold committed. setoid_rewrite elem_of_app. rewrite Forall_forall in Hn. naive_solver.
Qed.

Lemma undone_neutral es lg b : Forall neutral es -> undone (es ++ lg) b <-> undone lg b.
Proof.
  intros Hn. unfold undone. setoid_rewrite elem_of_app. rewrite Forall_forall in Hn. naive_solver.
Qed.

Lemma joined_neutral es lg r b : Forall neutral es -> Joined r b ∈ es ++ lg <-> Joined r b ∈ lg.
Proof. intros Hn. rewrite elem_of_app. rewrite Forall_forall in Hn. naive_solver. Qed.

Lemma ready_more es lg b o : ready lg b o -> ready (es ++ lg) b o.
Proof. unfold ready. rewrite !elem_of_app. tauto. Qed.

Section steps.
Context (h : Heap) (br : Branches) (ss : Sessions) (cs : list nat) (n : nat) (lg : list Event).
Hypothesis I : Inv h br ss cs n lg.

Lemma inv_neutral es : Forall neutral es -> Inv h br ss cs n (es ++ lg).
Proof using I.
  intros Hn.
  assert (Hf : forall b o, OpCommit b o ∈ es ++ lg \/ OpRollback b o ∈ es ++ lg -> OpCommit b o ∈ lg \/ OpRollback b o ∈ lg).
  { intros b o. rewrite !elem_of_app. rewrite Forall_forall in Hn. naive_solver. }
  destruct I. constructor; try done.
  - intros b o H. eauto.
  - intros r b H%joined_neutral; eauto.
  - intros r r' b H%joined_neutral H'%joined_neutral; eauto.
  - intros xid r H. destruct (i_live0 xid r H) as [? Hw]. split; [done|]. intros b. rewrite joined_neutral by done. apply Hw.
  - intros r b H%joined_neutral H'%committed_neutral; [|done..]. destruct (i_committed0 r b H H') as [? Hall].
    split; [done|]. intros b' Hb'%joined_neutral; [|done]. rewrite undone_neutral by done. by apply Hall.
  - intros xid r b H Hb Hu%undone_neutral; eauto.
  - intros xid r H Hp. destruct (i_prepared0 xid r H Hp) as [?|Hall]; [by left|right]. intros. by apply ready_more, Hall.
  - intros b Hb. destruct (i_local0 b Hb) as (x & ? & ? & ? & Hall). exists x. split_and!; try done.
    intros. by apply ready_more, Hall.
  - intros b o H. apply ready_more, i_ready0. apply elem_of_app in H as [H|H]; [|done].
    rewrite Forall_forall in Hn. by specialize (Hn _ H).
Qed.

Lemma inv_alloc n' : (n <= n')%nat -> Inv h br ss cs n' lg.
Proof using I.
  intros Hn. destruct I. constructor; try done.
  - intros b x H. specialize (i_heap0 b x H). lia.
  - intros r b H. destruct (i_joined0 r b H). split; [done|lia].
  - intros xid r H. destruct (i_live0 xid r H). split; [lia|done].
Qed.

Lemma inv_completions cs' : (forall b, b ∈ cs' -> b ∈ cs) -> Inv h br ss cs' n lg.
Proof using I. intros Hc. destruct I. constructor; eauto. Qed.

(** a transaction of one session waits for its completion *)
Lemma inv_completion b x :
  h !! b = Some x -> dtx x = None -> ~ referred ss b -> (error x = [] -> forall o, o ∈ ops x -> ready lg b o) ->
  Inv h br ss (b :: cs) n lg.
Proof using I.
  intros Hx Hd Hr Hall. destruct I. constructor; try done. intros c [->|Hc]%elem_of_cons; [by exists x|auto].
Qed.

(** a buffer nothing knows of yet *)
Lemma inv_new_buffer b x :
  h !! b = None -> (b < n)%nat -> ops x = [] -> Inv (<[b := x]> h) br ss cs n lg.
Proof using I.
  intros Hb Hn Hx.
  assert (Hl : forall b', is_Some (h !! b') -> <[b := x]> h !! b' = h !! b').
  { intros b' [y Hy]. rewrite lookup_insert_ne; [done|congruence]. }
  assert (Hp : forall b', is_Some (part_of h b') -> part_of (<[b := x]> h) b' = part_of h b').
  { intros b' Hy. unfold part_of in *. rewrite Hl; [done|]. destruct (h !! b') eqn:E; [done|]. by destruct Hy. }
  assert (Ho : forall b', ops_of (<[b := x]> h) b' = ops_of h b').
  { intros b'. rewrite ops_of_insert. case_decide as E; [|done]. subst b'. unfold ops_of. by rewrite Hb, Hx. }
  assert (Hfl : forall f b', is_Some (part_of h b') -> flag f (<[b := x]> h) b' = flag f h b').
  { intros f b' Hy. unfold flag. by rewrite Hp. }
  assert (Hw : forall xid r b', br !! xid = Some r -> b' ∈ work r -> is_Some (part_of h b')).
  { intros xid r b' H Hb'. eapply (i_joined _ _ _ _ _ _ I), (i_live _ _ _ _ _ _ I); eauto. }
  destruct I. constructor; try done.
  - intros b' y [[<- _]|[? ?]]%lookup_insert_Some; eauto.
  - intros b' o H. rewrite Hl; eauto.
  - intros r b' H. rewrite Hp; [eauto|]. by eapply i_joined0.
  - intros s y b' H Hc. destruct (i_refs0 s y b' H Hc) as [H1 H2]. split; intros E; [rewrite Hl|rewrite Hp]; auto.
  - intros s y xid b' H H'. destruct (i_parked0 s y xid b' H H') as (d & Hd & ?). exists d. by rewrite Hp.
  - intros b' (s & y & Hs & Hc & Hr). assert (Href : referred ss b') by (by exists s, y).
    destruct (i_refs0 s y b' Hs Hc) as [H1 H2].
    assert (Hcase : is_Some (part_of h b') \/ is_Some (h !! b')).
    { destruct Hr as [[E|E]|[xid E]]; [right|left|left]; auto. destruct (i_parked0 s y xid b' Hs E) as (d & Hd & _); eauto. }
    assert (is_Some (h !! b')) as Hsome.
    { destruct Hcase as [Hy|]; [|done]. unfold part_of in Hy. destruct (h !! b'); [done|by destruct Hy]. }
    unfold flag, part_of. rewrite Hl by done. by apply i_ended0.
  - intros xid r b' H Hb'. rewrite Hfl by eauto. eauto.
  - intros xid r H. destruct (i_complete0 xid r H) as [H1 H2]. split; [|done]. intros Hc b' Hb'. rewrite Hfl; eauto.
  - intros r b' H H'. destruct (i_committed0 r b' H H') as [? Hall]. split; [done|]. intros b'' Hb''.
    rewrite Ho. auto.
  - intros xid r b' H Hb' Hu. eapply doomed_frame; [..|by eapply i_undone0].
    + intros c Hc. rewrite Hfl; eauto.
    + intros _ c _. by rewrite Ho.
    + intros c Hc. rewrite Hfl; eauto.
  - intros xid r H Hpr. destruct (i_prepared0 xid r H Hpr) as [?|Hall]; [by left|right]. intros b' o. rewrite Ho. auto.
  - intros b' Hb'. destruct (i_local0 b' Hb') as (y & Hy & ?). exists y. rewrite Hl by eauto. done.
Qed.
(** a session is left with buffers it had, or is given one nothing else has *)
Definition unclaimed (b : nat) : Prop :=
  ~ referred ss b /\ b ∉ cs /\ flag ended h b = false /\ forall r, Joined r b ∉ lg.

Lemma inv_session s x' :
  (closeComplete x' = false -> forall b,
     (txBuffer x' = Some b -> is_Some (h !! b)) /\ (dtxBuffer x' = Some b -> is_Some (part_of h b)) /\
     (current x' b -> ~ parked x' b) /\
     (current x' b \/ parked x' b -> refers ss s b \/ unclaimed b)) ->
  (forall xid b, suspendedXids x' !! xid = Some (Some b) -> exists d, part_of h b = Some d /\ b_xid d = xid) ->
  Inv h br (<[s := x']> ss) cs n lg.
Proof using I.
  intros Hx Hp.
  assert (Href : forall s' b, refers (<[s := x']> ss) s' b -> refers ss s' b \/ s' = s /\ unclaimed b).
  { intros s' b (y & [[<- <-]|[Hne Hy]]%lookup_insert_Some & Hc & Hr); [|left; by exists y].
    destruct (Hx Hc b) as (_ & _ & _ & Hor). destruct (Hor Hr); [by left|by right]. }
  assert (Hred : forall b, referred (<[s := x']> ss) b -> referred ss b \/ unclaimed b).
  { intros b [s' [Hr|[_ Hu]]%Href]; [left; by exists s'|by right]. }
  destruct I. constructor; try done.
  - intros s' y b [[<- <-]|[? ?]]%lookup_insert_Some Hc; [|eauto]. destruct (Hx Hc b) as (? & ? & _). done.
  - intros s' y xid b [[<- <-]|[? ?]]%lookup_insert_Some; eauto.
  - intros s1 s2 b [H1|[-> [H1 _]]]%Href [H2|[-> [H2 _]]]%Href; [eauto| | |done].
    + exfalso. apply H2. by exists s1.
    + exfalso. apply H1. by exists s2.
  - intros s' y b [[<- <-]|[? ?]]%lookup_insert_Some Hc; [|eauto]. destruct (Hx Hc b) as (_ & _ & ? & _). done.
  - intros b [H|(_ & _ & H & _)]%Hred; [auto|]. congruence.
  - intros r b H H'. destruct (i_committed0 r b H H') as [? Hall]. split; [done|]. intros b' Hb'.
    destruct (Hall b' Hb') as (? & Hn & ?). split; [done|]. split; [|done]. intros [Hr|(_ & _ & _ & Hu)]%Hred; [done|].
    by apply (Hu r).
  - intros xid r b H Hb Hu. eapply doomed_frame; [..|by eapply i_undone0]; [done|done|].
    intros c Hc He Hn. split; [done|]. intros [Hr|(_ & _ & _ & Hj)]%Hred; [done|].
    apply (Hj (r_branch r)). by apply (i_live0 xid).
  - intros b Hb. destruct (i_local0 b Hb) as (y & ? & ? & Hn & ?). exists y. split_and!; try done.
    intros [Hr|(_ & Hu & _)]%Hred; done.
Qed.

(** ** Branches *)

Lemma inv_remove xid : Inv h (delete xid br) ss cs n lg.
Proof using I.
  assert (Hl : forall x r, delete xid br !! x = Some r -> br !! x = Some r) by (by intros x r [_ ?]%lookup_delete_Some).
  destruct I. constructor; eauto.
  intros r b H H'. destruct (i_committed0 r b H H') as [? ?]. split; [|done]. eauto.
Qed.

(** the flags of a branch change *)
Lemma inv_record xid r r' :
  br !! xid = Some r -> r_branch r' = r_branch r -> work r' = work r ->
  (completed r' = true -> forall b, b ∈ work r -> flag ended h b = true) ->
  (prepared r' = true -> completed r' = true) -> (expired r = true -> expired r' = true) ->
  (doomed h ss r -> doomed h ss r') ->
  (prepared r' = true -> expired r' = true \/ forall b o, b ∈ work r -> o ∈ ops_of h b -> ready lg b o) ->
  Inv h (<[xid := r']> br) ss cs n lg.
Proof using I.
  intros Hr Eb Ew Hc Hp He Hd Hpr. destruct I. constructor; try done.
  - intros x y [[<- <-]|[? ?]]%lookup_insert_Some; [|eauto]. rewrite Eb, Ew. eauto.
  - intros x x' y y' [[<- <-]|[? ?]]%lookup_insert_Some [[<- <-]|[? ?]]%lookup_insert_Some; rewrite ?Eb; eauto.
  - intros x y b [[<- <-]|[? ?]]%lookup_insert_Some; [|eauto]. rewrite Ew. eauto.
  - intros x y [[<- <-]|[? ?]]%lookup_insert_Some; [|eauto]. by rewrite Ew.
  - intros b r0 H H'. destruct (i_committed0 b r0 H H') as [Hn ?]. split; [|done].
    intros x y [[<- <-]|[? ?]]%lookup_insert_Some; [|eauto]. rewrite Eb. eauto.
  - intros x y b [[<- <-]|[? ?]]%lookup_insert_Some; [|eauto]. rewrite Ew. eauto.
  - intros x y [[<- <-]|[? ?]]%lookup_insert_Some; [|eauto]. by rewrite Ew.
Qed.

Lemma inv_create xid k :
  br !! xid = None -> k = n -> Inv h (<[xid := new_DtxWorkRecord k]> br) ss cs (S n) lg.
Proof using I.
  intros Hnone ->. pose proof (inv_alloc (S n) ltac:(lia)) as I'.
  assert (Hold : forall r b, Joined r b ∈ lg -> r <> n).
  { intros r b H. destruct (i_joined _ _ _ _ _ _ I r b H). lia. }
  assert (Hlt : forall x r, br !! x = Some r -> r_branch r <> n).
  { intros x r H. destruct (i_live _ _ _ _ _ _ I x r H). lia. }
  destruct I'. constructor; try done.
  - intros x y [[<- <-]|[? ?]]%lookup_insert_Some; [|eauto]. cbn. split; [lia|]. intros b.
    split; [by intros ?%elem_of_nil|]. intros H. by apply Hold in H.
  - intros x x' y y' [[<- <-]|[? H]]%lookup_insert_Some [[<- <-]|[? H']]%lookup_insert_Some; [done| | |eauto].
    + intros E. by apply Hlt in H'.
    + intros E. by apply Hlt in H.
  - intros x y b [[<- <-]|[? ?]]%lookup_insert_Some; [|eauto]. by intros ?%elem_of_nil.
  - intros x y [[<- <-]|[? ?]]%lookup_insert_Some; [done|eauto].
  - intros r b H H'. destruct (i_committed0 r b H H') as [Hn ?]. split; [|done].
    intros x y [[<- <-]|[? ?]]%lookup_insert_Some; [|eauto]. cbn. intros <-. by apply Hold in H.
  - intros x y b [[<- <-]|[? ?]]%lookup_insert_Some; [|eauto]. by intros ?%elem_of_nil.
  - intros x y [[<- <-]|[? ?]]%lookup_insert_Some; [done|eauto].
Qed.

(** a buffer joins a branch *)
Lemma inv_add xid r b :
  br !! xid = Some r -> expired r = false -> completed r = false -> is_Some (part_of h b) -> (forall k, Joined k b ∉ lg) ->
  ~ committed lg b -> ~ undone lg b -> flag b_expired h b = false ->
  Inv h (<[xid := mkRecord (r_branch r) (completed r) (rolledback r) (prepared r) (expired r) (timeout r)
                    (work r ++ [b]) (txn r)]> br) ss cs n (Joined (r_branch r) b :: lg).
Proof using I.
  intros Hr He Hc Hb Hj Hnc Hnu Hne. set (r' := mkRecord _ _ _ _ _ _ _ _).
  assert (Hp : prepared r = false).
  { destruct (prepared r) eqn:E; [|done]. apply (i_complete _ _ _ _ _ _ I xid r Hr) in E. congruence. }
  assert (Hco : forall c, committed (Joined (r_branch r) b :: lg) c <-> committed lg c).
  { intros c. unfold committed. setoid_rewrite elem_of_cons. naive_solver. }
  assert (Hun : forall c, undone (Joined (r_branch r) b :: lg) c <-> undone lg c).
  { intros c. unfold undone. setoid_rewrite elem_of_cons. naive_solver. }
  assert (Hrd : forall c o, ready lg c o -> ready (Joined (r_branch r) b :: lg) c o).
  { intros c o. unfold ready. rewrite !elem_of_cons. tauto. }
  assert (HJ : forall k c, Joined k c ∈ Joined (r_branch r) b :: lg <-> k = r_branch r /\ c = b \/ Joined k c ∈ lg).
  { intros k c. rewrite elem_of_cons. naive_solver. }
  destruct I. constructor; try done.
  - intros c o [H|H]; apply elem_of_cons in H as [|]; try done; eauto.
  - intros k c [[-> ->]|H]%HJ; [|eauto]. split; [done|]. by apply (i_live0 xid).
  - intros k k' c [[-> ->]|H]%HJ [[-> E]|H']%HJ; subst; try done; [by apply Hj in H'|by apply Hj in H|eauto].
  - intros x y [[<- <-]|[Hne' H]]%lookup_insert_Some.
    + cbn. split; [by apply (i_live0 xid)|]. intros c. rewrite elem_of_app, list_elem_of_singleton, HJ.
      rewrite (proj2 (i_live0 xid r Hr) c). naive_solver.
    + destruct (i_live0 x y H) as [? Hw]. split; [done|]. intros c. rewrite HJ, Hw.
      split; [by right|]. intros [[E _]|]; [|done]. exfalso. by apply Hne', (i_inj0 xid x r y).
  - intros x x' y y' [[<- <-]|[? ?]]%lookup_insert_Some [[<- <-]|[? ?]]%lookup_insert_Some; cbn; eauto.
  - intros x y c [[<- <-]|[? ?]]%lookup_insert_Some; [|eauto]. cbn. intros [H| ->%list_elem_of_singleton]%elem_of_app; [eauto|congruence].
  - intros x y [[<- <-]|[? ?]]%lookup_insert_Some; [|eauto]. cbn. rewrite Hc, Hp. done.
  - intros k c [[-> ->]|H]%HJ H'%Hco; [done|]. destruct (i_committed0 k c H H') as [Hn Hall]. split.
    + intros x y [[<- <-]|[? ?]]%lookup_insert_Some; cbn; eauto.
    + intros c' [[E ->]|Hc']%HJ; [exfalso; by apply (Hn xid r)|]. rewrite Hun. by apply Hall.
  - intros x y c [[<- <-]|[? ?]]%lookup_insert_Some; [|rewrite Hun; eauto]. cbn.
    intros [H| ->%list_elem_of_singleton]%elem_of_app Hu%Hun; [|done].
    pose proof (i_undone0 xid r c Hr H Hu) as [D|[D|[[D (c' & ? & ?)]|[[D _]|(c' & ? & ? & ?)]]]]; try congruence.
    + by left.
    + right; right; left. split; [done|]. exists c'. cbn. set_solver.
    + do 4 right. exists c'. cbn. set_solver.
  - intros x y [[<- <-]|[? H]]%lookup_insert_Some; [cbn; congruence|]. intros Hpr.
    destruct (i_prepared0 x y H Hpr); [by left|right]. eauto.
  - intros c Hcs. destruct (i_local0 c Hcs) as (y & ? & ? & ? & ?). exists y. eauto 10.
  - intros c o H. apply Hrd, i_ready0. by apply elem_of_cons in H as [|].
Qed.
(** ** Buffers *)

Definition same_part (d d' : option DtxPart) : Prop :=
  match d, d' with
  | Some d, Some d' => b_xid d' = b_xid d /\ ended d' = ended d /\ failed d' = failed d /\ b_expired d' = b_expired d
  | None, None => True
  | _, _ => False
  end.

(** nothing of the branch of [b] has an outcome *)
Definition quiet (b : nat) : Prop :=
  forall k c, Joined k b ∈ lg -> Joined k c ∈ lg -> ~ undone lg c /\ ~ committed lg c.

(** a part of a branch no session works on, or that timed out *)
Lemma referred_part xid r b :
  br !! xid = Some r -> b ∈ work r -> referred ss b -> completed r = true -> expired r = true.
Proof using I.
  intros Hr Hb Href Hc. eapply (i_expired _ _ _ _ _ _ I); [done..|]. apply (i_ended _ _ _ _ _ _ I); [done|].
  by apply (i_complete _ _ _ _ _ _ I xid r Hr).
Qed.

(** one buffer changes, and may have one operation more *)
Lemma inv_update b x x' :
  h !! b = Some x -> same_part (dtx x) (dtx x') ->
  ops x' = ops x \/ (exists o, ops x' = ops x ++ [o] /\ (referred ss b \/ quiet b /\ ready lg b o)) ->
  (b ∈ cs -> error x' = [] -> forall o, o ∈ ops x' -> ready lg b o) ->
  Inv (<[b := x']> h) br ss cs n lg.
Proof using I.
  intros Hx Hd Ho Hcs.
  assert (Hsome : forall c, is_Some (<[b := x']> h !! c) <-> is_Some (h !! c)).
  { intros c. destruct (decide (c = b)) as [->|]; by simplify_map_eq. }
  assert (Hpart : forall c, same_part (part_of h c) (part_of (<[b := x']> h) c)).
  { intros c. rewrite part_of_insert. case_decide as E; [subst; unfold part_of; by rewrite Hx|].
    unfold same_part. by destruct (part_of h c). }
  assert (Hf : forall f c, f = ended \/ f = failed \/ f = b_expired -> flag f (<[b := x']> h) c = flag f h c).
  { intros f c Hfl. specialize (Hpart c). unfold flag. destruct (part_of h c), (part_of (<[b := x']> h) c); try done.
    destruct Hpart as (? & ? & ? & ?). by destruct Hfl as [->|[->| ->]]. }
  assert (Hps : forall c, is_Some (part_of h c) -> is_Some (part_of (<[b := x']> h) c)).
  { intros c Hc. specialize (Hpart c). by destruct (part_of h c), (part_of (<[b := x']> h) c). }
  assert (Hops : forall c, ops_of (<[b := x']> h) c = if decide (c = b) then ops x' else ops_of h c) by (intros; apply ops_of_insert).
  assert (Hdoom : forall r, (completed r = true -> forall c, c ∈ work r -> ops_of h c = [] -> ops_of (<[b := x']> h) c = []) ->
            doomed h ss r -> doomed (<[b := x']> h) ss r).
  { intros r Hc. apply doomed_frame; [|done|]; intros c _; rewrite Hf by tauto; done. }
  assert (Hob : ops_of h b = ops x) by (unfold ops_of; by rewrite Hx).
  destruct I. constructor; try done.
  - intros c y [[<- _]|[? ?]]%lookup_insert_Some; eauto.
  - intros c o H. rewrite Hsome. eauto.
  - intros k c H. destruct (i_joined0 k c H). auto.
  - intros s y c H Hc. destruct (i_refs0 s y c H Hc). rewrite Hsome. auto.
  - intros s y xid c H H'. destruct (i_parked0 s y xid c H H') as (d & Ed & <-). specialize (Hpart c).
    rewrite Ed in Hpart. destruct (part_of (<[b := x']> h) c) as [d'|]; [|done]. exists d'. by destruct Hpart.
  - intros c. rewrite !Hf by tauto. auto.
  - intros xid r c. rewrite !Hf by tauto. eauto.
  - intros xid r H. destruct (i_complete0 xid r H). split; [|done]. intros. rewrite Hf by tauto. auto.
  - intros k c H H'. destruct (i_committed0 k c H H') as [? Hall]. split; [done|]. intros c' Hc'.
    destruct (Hall c' Hc') as (He & Hn & Hu). split; [|done]. rewrite Hops. case_decide as E; [|done]. subst c'.
    rewrite Hob in He. destruct Ho as [->|(o & _ & [?|[Hq _]])]; [done|done|]. exfalso. destruct (Hq k c); [|done..]. done.
  - intros xid r c H Hc Hu. pose proof (i_undone0 xid r c H Hc Hu) as D.
    destruct (decide (b ∈ work r)) as [Hb|Hb].
    + destruct Ho as [Ho|(o & _ & [Hr|[Hq _]])].
      * apply Hdoom; [|done]. intros _ c' _. rewrite Hops. case_decide; [subst; by rewrite Ho, Hob|done].
      * destruct (completed r) eqn:Ec; [right; left; by eapply referred_part|]. apply Hdoom; [congruence|done].
      * exfalso. apply (i_live0 xid r H) in Hb, Hc. by destruct (Hq (r_branch r) c Hb Hc).
    + apply Hdoom; [|done]. intros _ c' Hc'. rewrite Hops, decide_False by congruence. done.
  - intros xid r H Hp. destruct (i_prepared0 xid r H Hp) as [?|Hall]; [by left|].
    assert (Hsame : b ∉ work r \/ ops x' = ops x -> forall c o, c ∈ work r -> o ∈ ops_of (<[b := x']> h) c -> ready lg c o).
    { intros Hor c o Hc. rewrite Hops. case_decide as E; [subst c|by apply Hall]. destruct Hor as [?| ->]; [done|].
      rewrite <- Hob. by apply Hall. }
    destruct (decide (b ∈ work r)) as [Hb|Hb]; [|right; auto]. destruct Ho as [Ho|(o & Ho & [Hr|[_ Hrd]])]; [right; auto| |].
    + left. eapply referred_part; [done..|]. by apply (i_complete0 xid r H).
    + right. intros c o' Hc. rewrite Hops. case_decide as E; [subst c|by apply Hall]. rewrite Ho, <- Hob.
      intros [?| ->%list_elem_of_singleton]%elem_of_app; [by apply Hall|done].
  - intros c Hc. destruct (decide (c = b)) as [->|Hne].
    + destruct (i_local0 b Hc) as (y & Hy & Hl & Hn & _). exists x'. rewrite lookup_insert_eq.
      assert (y = x) as -> by congruence. rewrite Hl in Hd. destruct (dtx x') eqn:Ex; [done|]. split_and!; auto.
    + destruct (i_local0 c Hc) as (y & Hy & ?). exists y. by rewrite lookup_insert_ne.
Qed.
(** a part of a branch without an outcome ends, when no session works on it *)
Lemma inv_end_quiet b x d :
  h !! b = Some x -> dtx x = Some d -> ~ referred ss b -> quiet b ->
  Inv (<[b := mkBuffer (ops x) (error x) (txContext x) (Some (mkDtx (b_xid d) true (suspended d) (failed d) (b_expired d)))]> h)
    br ss cs n lg.
Proof using I.
  intros Hx Hd Hn Hq. set (x' := mkBuffer _ _ _ _).
  assert (Hsome : forall c, is_Some (<[b := x']> h !! c) <-> is_Some (h !! c)).
  { intros c. destruct (decide (c = b)) as [->|]; by simplify_map_eq. }
  assert (Hpb : part_of h b = Some d) by (unfold part_of; by rewrite Hx).
  assert (Hps : forall c, is_Some (part_of h c) -> is_Some (part_of (<[b := x']> h) c)).
  { intros c Hc. rewrite part_of_insert. by case_decide; [eexists|]. }
  assert (Hf : forall c, flag failed (<[b := x']> h) c = flag failed h c /\ flag b_expired (<[b := x']> h) c = flag b_expired h c /\
                (flag ended h c = true -> flag ended (<[b := x']> h) c = true)).
  { intros c. rewrite !flag_insert. case_decide; [subst|done]. unfold flag. by rewrite Hpb. }
  assert (Ho : forall c, ops_of (<[b := x']> h) c = ops_of h c).
  { intros c. rewrite ops_of_insert. case_decide; [subst; unfold ops_of; by rewrite Hx|done]. }
  destruct I. constructor; try done.
  - intros c y [[<- _]|[? ?]]%lookup_insert_Some; eauto.
  - intros c o H. rewrite Hsome. eauto.
  - intros k c H. destruct (i_joined0 k c H). auto.
  - intros s y c H Hc. destruct (i_refs0 s y c H Hc). rewrite Hsome. auto.
  - intros s y xid c H H'. destruct (i_parked0 s y xid c H H') as (d' & Ed & <-). rewrite part_of_insert.
    case_decide; [subst; exists (mkDtx (b_xid d) true (suspended d) (failed d) (b_expired d)); split; [done|]; cbn; congruence|eauto].
  - intros c Hr. rewrite (proj1 (proj2 (Hf c))), flag_insert. rewrite decide_False by congruence. auto.
  - intros xid r c H Hc. rewrite (proj1 (proj2 (Hf c))). eauto.
  - intros xid r H. destruct (i_complete0 xid r H). split; [|done]. intros. apply Hf. auto.
  - intros k c H H'. destruct (i_committed0 k c H H') as [? Hall]. split; [done|]. intros c'. rewrite Ho. auto.
  - intros xid r c H Hc Hu. eapply doomed_frame; [..|by eapply i_undone0].
    + intros c' _. by rewrite (proj1 (Hf c')).
    + intros _ c' _. by rewrite Ho.
    + intros c' Hc' He Hr. split; [|done]. rewrite flag_insert. case_decide; [subst c'|done].
      exfalso. apply (i_live0 xid r H) in Hc, Hc'. by destruct (Hq (r_branch r) c Hc' Hc).
  - intros xid r H Hp. destruct (i_prepared0 xid r H Hp) as [?|Hall]; [by left|right]. intros c o. rewrite Ho. auto.
  - intros c Hc. destruct (i_local0 c Hc) as (y & Hy & Hl & ?). exists y. rewrite lookup_insert_ne; [done|]. congruence.
Qed.

(** ** Outcomes *)

Definition clear (x : TxBuffer) : TxBuffer := mkBuffer [] (error x) (txContext x) (dtx x).

(** the buffers of [B] are emptied *)
Definition cleared (B : list nat) (h' : Heap) : Prop :=
  forall b, h' !! b = if decide (b ∈ B) then clear <$> h !! b else h !! b.

Lemma cleared_part B h' b : cleared B h' -> part_of h' b = part_of h b.
Proof using. intros Hc. unfold part_of. rewrite Hc. case_decide; [|done]. by destruct (h !! b). Qed.

Lemma cleared_flag f B h' b : cleared B h' -> flag f h' b = flag f h b.
Proof using. intros Hc. unfold flag. by rewrite (cleared_part B). Qed.

Lemma cleared_some B h' b : cleared B h' -> is_Some (h' !! b) <-> is_Some (h !! b).
Proof using. intros Hc. rewrite Hc. case_decide; [|done]. by rewrite fmap_is_Some. Qed.

Lemma cleared_ops B h' b : cleared B h' -> ops_of h' b = if decide (b ∈ B) then [] else ops_of h b.
Proof using. intros Hc. unfold ops_of. rewrite Hc. case_decide; [|done]. by destruct (h !! b). Qed.

Lemma cleared_ops_nil B h' b : cleared B h' -> ops_of h b = [] -> ops_of h' b = [].
Proof using. intros Hc E. rewrite (cleared_ops B) by done. by case_decide. Qed.

(** what happened to their operations is in the log *)
Record quietly (B : list nat) (es : list Event) : Prop := mkQuietly {
  q_joined : forall k b, Joined k b ∉ es;
  q_heap : forall b o, OpCommit b o ∈ es \/ OpRollback b o ∈ es -> b ∈ B /\ o ∈ ops_of h b;
  q_ready : forall b o, OpCommit b o ∈ es -> ready (es ++ lg) b o
}.

(** the part of the invariant the outcome of a branch does not matter to *)
Lemma inv_cleared B h' br' es :
  cleared B h' -> quietly B es -> (forall xid r, br' !! xid = Some r -> br !! xid = Some r) ->
  (forall r b, Joined r b ∈ lg -> committed (es ++ lg) b ->
     (forall xid x, br' !! xid = Some x -> r_branch x <> r) /\
     forall b', Joined r b' ∈ lg -> ops_of h' b' = [] /\ ~ referred ss b' /\ ~ undone (es ++ lg) b') ->
  (forall xid r b, br' !! xid = Some r -> b ∈ work r -> undone (es ++ lg) b -> doomed h' ss r) ->
  Inv h' br' ss cs n (es ++ lg).
Proof using I.
  intros Hc [Hj He Hr] Hbr H1 H2.
  assert (HJ : forall k b, Joined k b ∈ es ++ lg <-> Joined k b ∈ lg).
  { intros k b. rewrite elem_of_app. naive_solver. }
  assert (Hin : forall b o, o ∈ ops_of h b -> is_Some (h !! b)).
  { intros b o. unfold ops_of. destruct (h !! b); [done|]. by intros ?%elem_of_nil. }
  destruct I. constructor; try done.
  - intros b x. rewrite Hc. case_decide; [|eauto]. intros (y & ? & _)%fmap_Some. eauto.
  - intros b o H. rewrite (cleared_some B) by done. rewrite !elem_of_app in H.
    assert (Hor : (OpCommit b o ∈ es \/ OpRollback b o ∈ es) \/ (OpCommit b o ∈ lg \/ OpRollback b o ∈ lg)) by tauto.
    destruct Hor as [[_ ?]%He|?]; eauto.
  - intros r b H%HJ. rewrite (cleared_part B) by done. eauto.
  - intros r r' b H%HJ H'%HJ. eauto.
  - intros xid r H%Hbr. destruct (i_live0 xid r H) as [? Hw]. split; [done|]. intros b. by rewrite HJ.
  - eauto.
  - intros s x b. rewrite (cleared_part B), (cleared_some B) by done. apply i_refs0.
  - intros s x xid b. rewrite (cleared_part B) by done. apply i_parked0.
  - intros b. rewrite (cleared_flag ended B h'), (cleared_flag b_expired B h') by done. apply i_ended0.
  - intros xid r b. rewrite (cleared_flag _ B h') by done. eauto.
  - intros xid r H%Hbr. destruct (i_complete0 xid r H). split; [|done]. intros. rewrite (cleared_flag _ B h'); auto.
  - intros r b H%HJ H'. destruct (H1 r b H H') as [? Hall]. split; [done|]. intros b' Hb'%HJ. auto.
  - intros xid r H%Hbr Hp. destruct (i_prepared0 xid r H Hp) as [?|Hall]; [by left|right]. intros b o Hb.
    rewrite (cleared_ops B) by done. case_decide; [by intros ?%elem_of_nil|]. intros. by apply ready_more, Hall.
  - intros b Hb. destruct (i_local0 b Hb) as (x & Hx & ? & ? & Hall).
    exists (if decide (b ∈ B) then clear x else x). rewrite Hc, Hx. case_decide; cbn; split_and!; try done.
    + intros _ o Ho%elem_of_nil. done.
    + intros. by apply ready_more, Hall.
  - intros b o [H|H]%elem_of_app; [auto|]. by apply ready_more, i_ready0.
Qed.
Lemma committed_app es b : committed (es ++ lg) b <-> committed es b \/ committed lg b.
Proof using. unfold committed. setoid_rewrite elem_of_app. naive_solver. Qed.

Lemma undone_app es b : undone (es ++ lg) b <-> undone es b \/ undone lg b.
Proof using. unfold undone. setoid_rewrite elem_of_app. naive_solver. Qed.

Lemma doomed_cleared B h' r : cleared B h' -> doomed h ss r -> doomed h' ss r.
Proof using.
  intros Hc. apply doomed_frame.
  - intros b _. by rewrite (cleared_flag failed B h').
  - intros _ b _. by apply (cleared_ops_nil B).
  - intros b _. by rewrite (cleared_flag ended B h').
Qed.

(** a branch that has timed out, or is complete, is rolled back *)
Lemma inv_rollback xid r B h' es :
  br !! xid = Some r -> (forall b, b ∈ B -> b ∈ work r) -> cleared B h' -> quietly B es -> (forall b, ~ committed es b) ->
  expired r = true \/ (completed r = true /\ forall b, b ∈ work r -> b ∈ B) ->
  Inv h' br ss cs n (es ++ lg).
Proof using I.
  intros Hr HB Hc Hq Hnc Hd. apply (inv_cleared B); try done.
  - intros k b Hj Hco%committed_app. destruct Hco as [Hco|Hco]; [by apply Hnc in Hco|].
    destruct (i_committed _ _ _ _ _ _ I k b Hj Hco) as [Hlive Hall]. split; [done|]. intros b' Hb'.
    destruct (Hall b' Hb') as (He & Hf & Hu). split; [by apply (cleared_ops_nil B)|]. split; [done|].
    intros [[o Ho]|]%undone_app; [|done]. apply (Hlive xid r Hr).
    assert (Hbw : b' ∈ work r) by (apply HB; apply (q_heap _ _ Hq b' o); by right).
    apply (i_live _ _ _ _ _ _ I xid r Hr) in Hbw. by apply (i_one _ _ _ _ _ _ I _ _ b').
  - intros x y b Hy Hb Hu%undone_app. destruct Hu as [[o Ho]|Hu].
    + assert (Hbw : b ∈ work r) by (apply HB; apply (q_heap _ _ Hq b o); by right).
      assert (x = xid) as ->.
      { apply (i_inj _ _ _ _ _ _ I x xid y r Hy Hr). apply (i_one _ _ _ _ _ _ I _ _ b).
        - by apply (i_live _ _ _ _ _ _ I x).
        - by apply (i_live _ _ _ _ _ _ I xid). }
      assert (y = r) as -> by congruence. destruct Hd as [?|[? Hall]]; [by right; left|].
      right; right; right; left. split; [done|]. intros c Hcw. rewrite (cleared_ops B) by done. rewrite decide_True; auto.
    + apply (doomed_cleared B); [done|]. by eapply (i_undone _ _ _ _ _ _ I).
Qed.

(** a branch that is complete and not to be rolled back is committed *)
Lemma inv_commit xid r h' es :
  br !! xid = Some r -> completed r = true -> expired r = false -> rolledback r = false ->
  cleared (work r) h' -> quietly (work r) es -> (forall b, ~ undone es b) ->
  Inv h' (delete xid br) ss cs n (es ++ lg).
Proof using I.
  intros Hr Hc He Hb Hcl Hq Hnu.
  assert (Hended : forall b, b ∈ work r -> flag ended h b = true) by (by apply (i_complete _ _ _ _ _ _ I xid r Hr)).
  assert (Hjw : forall k b, Joined k b ∈ lg -> b ∈ work r -> k = r_branch r).
  { intros k b Hj Hw. apply (i_live _ _ _ _ _ _ I xid r Hr) in Hw. by apply (i_one _ _ _ _ _ _ I _ _ b). }
  assert (Hclean : forall b o, b ∈ work r -> o ∈ ops_of h b -> forall c, c ∈ work r -> ~ undone lg c).
  { intros b o Hbw Ho c Hcw Hu. pose proof (i_undone _ _ _ _ _ _ I xid r c Hr Hcw Hu) as D.
    destruct D as [D|[D|[[D _]|[[_ D]|(d & Hd & D & _)]]]]; try congruence.
    - rewrite D in Ho by done. by apply elem_of_nil in Ho.
    - rewrite Hended in D by done. congruence. }
  apply (inv_cleared (work r)); try done.
  - by intros x y [_ ?]%lookup_delete_Some.
  - intros k b Hj [[o Ho]|Hco]%committed_app.
    + destruct (q_heap _ _ Hq b o ltac:(by left)) as [Hbw Hop]. assert (k = r_branch r) as -> by (by eapply Hjw).
      split.
      * intros x y [Hne Hy]%lookup_delete_Some E. by apply Hne, (i_inj _ _ _ _ _ _ I xid x r y).
      * intros b' Hb'. apply (i_live _ _ _ _ _ _ I xid r Hr) in Hb' as Hbw'.
        rewrite (cleared_ops (work r)), decide_True by done. split; [done|]. split.
        -- intros Href. pose proof (referred_part xid r b' Hr Hbw' Href Hc). congruence.
        -- intros [Hu|Hu]%undone_app; [by apply Hnu in Hu|by apply (Hclean b o Hbw Hop b')].
    + destruct (i_committed _ _ _ _ _ _ I k b Hj Hco) as [Hlive Hall]. split; [by intros x y [_ ?]%lookup_delete_Some; eauto|].
      intros b' Hb'. destruct (Hall b' Hb') as (E & Hf & Hu). split; [by apply (cleared_ops_nil (work r))|]. split; [done|].
      intros [Hu'|]%undone_app; [by apply Hnu in Hu'|done].
  - intros x y b [_ Hy]%lookup_delete_Some Hb' [Hu|Hu]%undone_app; [by apply Hnu in Hu|].
    apply (doomed_cleared (work r)); [done|]. by eapply (i_undone _ _ _ _ _ _ I).
Qed.

(** a transaction of one session *)
Lemma inv_local_outcome b x h' es :
  h !! b = Some x -> dtx x = None -> cleared [b] h' -> quietly [b] es -> Inv h' br ss cs n (es ++ lg).
Proof using I.
  intros Hx Hd Hc Hq.
  assert (Hnj : forall k c o, Joined k c ∈ lg -> ~ (OpCommit c o ∈ es \/ OpRollback c o ∈ es)).
  { intros k c o Hj [->%list_elem_of_singleton _]%(q_heap _ _ Hq). destruct (i_joined _ _ _ _ _ _ I k b Hj) as [[d Hd'] _].
    unfold part_of in Hd'. rewrite Hx in Hd'. cbn in Hd'. congruence. }
  apply (inv_cleared [b]); try done.
  - intros k c Hj [[o Ho]|Hco]%committed_app; [exfalso; apply (Hnj k c o Hj); by left|].
    destruct (i_committed _ _ _ _ _ _ I k c Hj Hco) as [Hlive Hall]. split; [done|]. intros c' Hc'.
    destruct (Hall c' Hc') as (E & Hf & Hu). split; [by apply (cleared_ops_nil [b])|]. split; [done|].
    intros [[o Ho]|]%undone_app; [|done]. apply (Hnj k c' o Hc'). by right.
  - intros y r c Hy Hcw [[o Ho]|Hu]%undone_app.
    + exfalso. apply (i_live _ _ _ _ _ _ I y r Hy) in Hcw. apply (Hnj _ c o Hcw). by right.
    + apply (doomed_cleared [b]); [done|]. by eapply (i_undone _ _ _ _ _ _ I).
Qed.
(** ** Parts of a branch end

    A session gave up its buffers, so that it now has those of [ss'], or a
    branch timed out; some of the buffers are rolled back. *)

Definition touched (b : nat) : Prop :=
  referred ss b \/ exists xid r, br !! xid = Some r /\ b ∈ work r /\ expired r = true.

Definition grown (d d' : option DtxPart) : Prop :=
  match d, d' with
  | Some d, Some d' => b_xid d' = b_xid d /\ (ended d = true -> ended d' = true) /\ (failed d = true -> failed d' = true)
  | None, None => True
  | _, _ => False
  end.

Record parting (ss' : Sessions) (h' : Heap) (es : list Event) : Prop := mkParting {
  p_refs : forall b, referred ss' b -> referred ss b;
  p_some : forall b, is_Some (h' !! b) <-> is_Some (h !! b);
  p_part : forall b, grown (part_of h b) (part_of h' b);
  p_ops : forall b, ops_of h' b = ops_of h b \/ ops_of h' b = [];
  p_local : forall b, b ∈ cs -> h' !! b = h !! b;
  p_ended : forall b, flag ended h b = false -> flag ended h' b = true -> touched b;
  p_kept : forall b, referred ss' b -> flag ended h' b = true -> flag b_expired h' b = true;
  p_expired : forall xid r b, br !! xid = Some r -> b ∈ work r -> flag b_expired h' b = true -> expired r = true;
  p_events : forall e, e ∈ es -> neutral e \/ exists b o, e = OpRollback b o;
  p_undone : forall b o, OpRollback b o ∈ es -> is_Some (h !! b) /\
    (is_Some (part_of h b) ->
     touched b /\ (flag failed h' b = true \/ flag b_expired h' b = true \/ flag ended h' b = false /\ ~ referred ss' b))
}.

(** such a buffer's branch has not committed, and if it is complete it has timed out *)
Lemma touched_open b k c : touched b -> Joined k b ∈ lg -> Joined k c ∈ lg -> ~ committed lg c.
Proof using I.
  intros Ht Hb Hc Hco. destruct (i_committed _ _ _ _ _ _ I k c Hc Hco) as [Hlive Hall]. destruct Ht as [Hr|(xid & r & Hr & Hw & _)].
  - by destruct (Hall b Hb) as (_ & Hn & _).
  - apply (i_live _ _ _ _ _ _ I xid r Hr) in Hw. apply (Hlive xid r Hr). by apply (i_one _ _ _ _ _ _ I _ _ b).
Qed.

Lemma touched_complete xid r b :
  touched b -> br !! xid = Some r -> b ∈ work r -> completed r = true -> expired r = true.
Proof using I.
  intros [Href|(x & y & Hy & Hw & He)] Hr Hb Hc; [by eapply referred_part|].
  assert (x = xid) as ->; [|congruence]. apply (i_inj _ _ _ _ _ _ I x xid y r Hy Hr). apply (i_one _ _ _ _ _ _ I _ _ b).
  - by apply (i_live _ _ _ _ _ _ I x).
  - by apply (i_live _ _ _ _ _ _ I xid).
Qed.

Lemma parting_doomed ss' h' es xid r b :
  parting ss' h' es -> br !! xid = Some r -> b ∈ work r -> undone (es ++ lg) b -> doomed h' ss' r.
Proof using I.
  intros P Hr Hb Hu.
  assert (Hgrow : forall f c, f = ended \/ f = failed -> flag f h c = true -> flag f h' c = true).
  { intros f c Hf. pose proof (p_part _ _ _ P c) as G. unfold flag.
    destruct (part_of h c), (part_of h' c); try done. destruct G as (_ & ? & ?). cbn. by destruct Hf as [->| ->]. }
  destruct (expired r) eqn:Eexp; [by right; left|].
  apply undone_app in Hu as [[o Ho]|Hu].
  - destruct (p_undone _ _ _ P b o Ho) as [_ Hcase]. destruct Hcase as (Ht & Hcase).
    { apply (i_live _ _ _ _ _ _ I xid r Hr) in Hb. by apply (i_joined _ _ _ _ _ _ I _ _ Hb). }
    destruct Hcase as [Hf|[He|[He Hn]]].
    + destruct (completed r) eqn:Ec; [pose proof (touched_complete xid r b Ht Hr Hb Ec); congruence|].
      right; right; left. split; [done|]. by exists b.
    + pose proof (p_expired _ _ _ P xid r b Hr Hb He). congruence.
    + do 4 right. by exists b.
  - eapply doomed_frame; [..|by eapply (i_undone _ _ _ _ _ _ I)].
    + intros c _. apply Hgrow. by right.
    + intros _ c _ E. destruct (p_ops _ _ _ P c) as [->| ->]; done.
    + intros c Hc He Hn. split; [|intros Hc'; by apply Hn, (p_refs _ _ _ P)].
      destruct (flag ended h' c) eqn:E; [|done]. destruct (p_ended _ _ _ P c He E) as [|(x & y & Hy & Hw & Hexp)]; [done|].
      exfalso. assert (x = xid) as ->; [|congruence]. apply (i_inj _ _ _ _ _ _ I x xid y r Hy Hr).
      apply (i_one _ _ _ _ _ _ I _ _ c); [by apply (i_live _ _ _ _ _ _ I x)|by apply (i_live _ _ _ _ _ _ I xid)].
Qed.

Lemma inv_parting ss' h' es : Inv h br ss' cs n lg -> parting ss' h' es -> Inv h' br ss' cs n (es ++ lg).
Proof using I.
  intros I' P.
  assert (Hj : forall k b, Joined k b ∈ es ++ lg <-> Joined k b ∈ lg).
  { intros k b. rewrite elem_of_app. split; [|by right]. intros [He|]; [|done]. by destruct (p_events _ _ _ P _ He) as [|(? & ? & ?)]. }
  assert (Hco : forall b o, OpCommit b o ∈ es ++ lg <-> OpCommit b o ∈ lg).
  { intros b o. rewrite elem_of_app. split; [|by right]. intros [He|]; [|done]. by destruct (p_events _ _ _ P _ He) as [|(? & ? & ?)]. }
  assert (Hps : forall b, is_Some (part_of h b) -> is_Some (part_of h' b)).
  { intros b Hb. pose proof (p_part _ _ _ P b). by destruct (part_of h b), (part_of h' b). }
  assert (Hend : forall b, flag ended h b = true -> flag ended h' b = true).
  { intros b. pose proof (p_part _ _ _ P b) as G. unfold flag. destruct (part_of h b), (part_of h' b); try done. cbn in *. tauto. }
  destruct I'. constructor; try done.
  - intros b x Hx. destruct (proj1 (p_some _ _ _ P b) ltac:(eauto)) as [y Hy]. eauto.
  - intros b o H. rewrite (p_some _ _ _ P). rewrite Hco, elem_of_app in H. destruct H as [H|[H|H]]; [eauto| |eauto].
    by apply (p_undone _ _ _ P b o).
  - intros k b H%Hj. destruct (i_joined0 k b H). auto.
  - intros k k' b H%Hj H'%Hj. eauto.
  - intros xid r H. destruct (i_live0 xid r H) as [? Hw]. split; [done|]. intros b. by rewrite Hj.
  - intros s x b H Hc. destruct (i_refs0 s x b H Hc) as [H1 H2]. split; intros E; [apply (p_some _ _ _ P)|apply Hps]; auto.
  - intros s x xid b H H'. destruct (i_parked0 s x xid b H H') as (d & Hd & <-). pose proof (p_part _ _ _ P b) as G.
    rewrite Hd in G. destruct (part_of h' b) as [d'|]; [|done]. exists d'. by destruct G.
  - apply (p_kept _ _ _ P).
  - apply (p_expired _ _ _ P).
  - intros xid r H. destruct (i_complete0 xid r H). split; [|done]. auto.
  - intros k b H%Hj [o Ho%Hco]. destruct (i_committed0 k b H) as [? Hall]; [by exists o|]. split; [done|].
    intros b' Hb'%Hj. destruct (Hall b' Hb') as (He & Hn & Hu). split; [|split; [done|]].
    + destruct (p_ops _ _ _ P b') as [->| ->]; done.
    + intros [[o' Ho']|]%undone_app; [|done]. destruct (p_undone _ _ _ P b' o' Ho') as [_ Hcase].
      destruct Hcase as [Ht _]; [by apply (i_joined0 k)|]. apply (touched_open b' k b Ht Hb' H). by exists o.
  - intros xid r b H Hb Hu. by eapply parting_doomed.
  - intros xid r H Hp. destruct (i_prepared0 xid r H Hp) as [?|Hall]; [by left|right]. intros b o Hb.
    destruct (p_ops _ _ _ P b) as [->| ->]; [|by intros ?%elem_of_nil]. intros. by apply ready_more, Hall.
  - intros b Hb. destruct (i_local0 b Hb) as (x & ? & ? & ? & Hall). exists x. rewrite (p_local _ _ _ P) by done.
    split_and!; try done. intros. by apply ready_more, Hall.
  - intros b o H%Hco. by apply ready_more, i_ready0.
Qed.
End steps.
