(* ===== verification/TransactionsCorrect.v ===== *)
(** * Transactions are atomic

    The effect of the functions of [Transactions] on the invariant of
    [TransactionsInv], and what follows for any sequence of commands. *)

From Stdlib Require Import ZArith Lia Ascii String.
From stdpp Require Import gmap strings.
From S2P Require Import Prelude Transactions TransactionsInv.

(** ** What the calls do *)

Definition logged (es : list Event) (w : World) : World :=
  mkWorld (heap w) (branches w) (timers w) (sessions w) (completions w) (fresh w) (es ++ log w).

Lemma logged_logged es es' w : logged es (logged es' w) = logged (es ++ es') w.
Proof. unfold logged. cbn. by rewrite app_assoc. Qed.

Lemma emit_logged e w : emit e w = (logged [e] w, Ret tt).
Proof. done. Qed.

Lemma buffer_eq b x w : heap w !! b = Some x -> buffer b w = (w, Ret x).
Proof. intros H. unfold buffer, mbind, M_bind, get. by rewrite H. Qed.

Lemma inv_logged w es : inv w -> Forall neutral es -> inv (logged es w).
Proof. intros Hi Hn. by apply inv_neutral. Qed.

Section calls.
Context (env : Environment).

Lemma prepare_ops_spec b l w :
  exists es r, prepare_ops env b l w = (logged es w, Ret r) /\ Forall neutral es /\
    (r = true -> forall o, o ∈ l -> OpPrepare b o true ∈ es).
Proof.
  revert w. induction l as [|o l IH]; intros w; cbn [prepare_ops].
  { exists [], true. split; [by destruct w|]. split; [done|]. by intros _ o ?%elem_of_nil. }
  destruct (op_prepare env (log w) o) eqn:Eo.
  - destruct (IH (logged [OpPrepare b o true] w)) as (es & r & E & Hn & Hr).
    exists (es ++ [OpPrepare b o true]), r. split; [|split].
    + rewrite (bind_Ret get _ w w w eq_refl). cbn zeta. rewrite Eo, (bind_Ret _ _ _ _ _ (emit_logged _ w)), E.
      by rewrite logged_logged.
    + apply Forall_app. by repeat constructor.
    + intros E' o' [->|Ho]%elem_of_cons; [set_solver|]. specialize (Hr E' o' Ho). set_solver.
  - exists [OpPrepare b o false], false. split; [|split; [by repeat constructor|done]].
    rewrite (bind_Ret get _ w w w eq_refl). cbn zeta. by rewrite Eo.
Qed.

Lemma tx_prepare_spec b x w :
  heap w !! b = Some x ->
  exists es r, tx_prepare env b w = (logged es w, Ret r) /\ Forall neutral es /\
    (r = true -> forall o, o ∈ ops x -> OpPrepare b o true ∈ es).
Proof.
  intros Hx. unfold tx_prepare. destruct (observer_prepare env (log w) b) eqn:Eo.
  - destruct (prepare_ops_spec b (ops x) (logged [ObsPrepare b true] w)) as (es & r & E & Hn & Hr).
    exists (es ++ [ObsPrepare b true]), r. split; [|split].
    + rewrite (bind_Ret get _ w w w eq_refl). cbn zeta. rewrite Eo, (bind_Ret _ _ _ _ _ (emit_logged _ w)). rewrite (bind_Ret _ _ _ _ _ (buffer_eq b x (logged [ObsPrepare b true] w) Hx)), E.
      by rewrite logged_logged.
    + apply Forall_app. by repeat constructor.
    + intros E' o Ho. specialize (Hr E' o Ho). set_solver.
  - exists [ObsPrepare b false], false. split; [|split; [by repeat constructor|done]].
    rewrite (bind_Ret get _ w w w eq_refl). cbn zeta. by rewrite Eo.
Qed.

Lemma prepare_work_spec l w :
  (forall b, b ∈ l -> is_Some (heap w !! b)) ->
  exists es r, prepare_work env l w = (logged es w, Ret r) /\ Forall neutral es /\
    (r = true -> forall b o, b ∈ l -> o ∈ ops_of (heap w) b -> OpPrepare b o true ∈ es).
Proof.
  revert w. induction l as [|b l IH]; intros w Hl; cbn [prepare_work].
  { exists [], true. split; [by destruct w|]. split; [done|]. by intros _ b o ?%elem_of_nil. }
  destruct (Hl b ltac:(by left)) as [x Hx]. destruct (tx_prepare_spec b x w Hx) as (es & r & E & Hn & Hr).
  rewrite (bind_Ret _ _ _ _ _ E). destruct r; [|by exists es, false].
  destruct (IH (logged es w)) as (es' & r' & E' & Hn' & Hr'); [intros c Hc; apply Hl; by right|].
  exists (es' ++ es), r'. rewrite E', logged_logged. split; [done|]. split; [by apply Forall_app|].
  intros Ht c o [->|Hc]%elem_of_cons Ho; apply elem_of_app; [right|left; by apply Hr'].
  apply Hr; [done|]. unfold ops_of in Ho. by rewrite Hx in Ho.
Qed.

(** [TxBuffer::commit] and [TxBuffer::rollback] *)
Definition settle (obs : nat -> Event) (final : nat -> nat -> Event) (b : nat) : Op unit :=
  x ← buffer b; emit (obs b) ;; for_each (fun o => emit (final b o)) (ops x) ;; clear_ops b.

Lemma tx_commit_settle b : tx_commit b = settle ObsCommit OpCommit b.
Proof. done. Qed.
Lemma tx_rollback_settle b : tx_rollback b = settle ObsRollback OpRollback b.
Proof. done. Qed.

(** only these events, each for an operation of a buffer of [B] *)
Definition settles (obs : nat -> Event) (final : nat -> nat -> Event) (h : Heap) (B : list nat) (es : list Event) : Prop :=
  forall e, e ∈ es <-> (exists b, b ∈ B /\ e = obs b) \/ (exists b o, b ∈ B /\ o ∈ ops_of h b /\ e = final b o).

Lemma for_each_emit (f : nat -> Event) l w :
  exists es, for_each (fun o => emit (f o)) l w = (logged es w, Ret tt) /\ forall e, e ∈ es <-> exists o, o ∈ l /\ e = f o.
Proof.
  revert w. induction l as [|o l IH]; intros w; cbn [for_each].
  { exists []. split; [by destruct w|]. set_solver. }
  destruct (IH (logged [f o] w)) as (es & E & Hes). exists (es ++ [f o]).
  rewrite (bind_Ret _ _ _ _ _ (emit_logged _ w)), E, logged_logged. split; [done|].
  intros e. rewrite elem_of_app, list_elem_of_singleton, Hes. set_solver.
Qed.

Lemma settle_spec obs final b x w :
  heap w !! b = Some x ->
  exists es, settle obs final b w = (logged es (set_heap (<[b := clear x]> (heap w)) w), Ret tt) /\
    settles obs final (heap w) [b] es.
Proof.
  intros Hx. destruct (for_each_emit (final b) (ops x) (logged [obs b] w)) as (es & E & Hes).
  exists (es ++ [obs b]). unfold settle.
  rewrite (bind_Ret _ _ _ _ _ (buffer_eq b x w Hx)), (bind_Ret _ _ _ _ _ (emit_logged _ w)).
  rewrite (bind_Ret _ _ _ _ _ E), logged_logged. unfold clear_ops.
  rewrite (bind_Ret _ _ _ _ _ (buffer_eq b x (logged (es ++ [obs b]) w) Hx)). split; [done|].
  intros e. rewrite elem_of_app, list_elem_of_singleton, Hes. unfold ops_of. setoid_rewrite list_elem_of_singleton.
  split.
  - intros [(o & Ho & ->)| ->]; [right; exists b, o; by rewrite Hx|left; by exists b].
  - intros [(c & -> & ->)|(c & o & -> & Ho & ->)]; [by right|left]. exists o. by rewrite Hx in Ho.
Qed.

Lemma for_each_settle obs final l w :
  (forall b, b ∈ l -> is_Some (heap w !! b)) ->
  exists h' es, for_each (settle obs final) l w = (logged es (set_heap h' w), Ret tt) /\ cleared (heap w) l h' /\
    (forall e, e ∈ es -> (exists b, b ∈ l /\ e = obs b) \/ (exists b o, b ∈ l /\ o ∈ ops_of (heap w) b /\ e = final b o)) /\
    (forall b o, b ∈ l -> o ∈ ops_of (heap w) b -> final b o ∈ es).
Proof.
  revert w. induction l as [|b l IH]; intros w Hl; cbn [for_each].
  { exists (heap w), []. split; [by destruct w|]. split; [by intros b|]. set_solver. }
  destruct (Hl b ltac:(by left)) as [x Hx]. destruct (settle_spec obs final b x w Hx) as (es & E & Hes).
  rewrite (bind_Ret _ _ _ _ _ E). set (h1 := <[b := clear x]> (heap w)).
  assert (Hc1 : cleared (heap w) [b] h1).
  { intros c. unfold h1. destruct (decide (c ∈ [b])) as [->%list_elem_of_singleton|Hn].
    - by rewrite lookup_insert_eq, Hx.
    - rewrite lookup_insert_ne; [done|]. intros ->. apply Hn. by left. }
  destruct (IH (logged es (set_heap h1 w))) as (h' & es' & E' & Hc & Hes1 & Hes2).
  { intros c Hcl. cbn [heap logged set_heap]. rewrite (cleared_some (heap w) [b]) by done. apply Hl. by right. }
  exists h', (es' ++ es). rewrite E'. cbn [heap logged set_heap] in *.
  assert (Hsub : forall c o, o ∈ ops_of h1 c -> o ∈ ops_of (heap w) c).
  { intros c o. rewrite (cleared_ops (heap w) [b]) by done. case_decide; [by intros ?%elem_of_nil|done]. }
  split; [by rewrite <- logged_logged|]. split; [|split].
  - intros c. rewrite (Hc c), (Hc1 c).
    assert (Hiff : c ∈ b :: l <-> c ∈ [b] \/ c ∈ l) by (rewrite elem_of_cons, list_elem_of_singleton; done).
    destruct (decide (c ∈ l)), (decide (c ∈ [b])), (decide (c ∈ b :: l)); try done; try tauto; by destruct (heap w !! c).
  - intros e [He|He]%elem_of_app.
    + destruct (Hes1 e He) as [(c & ? & ->)|(c & o & ? & ? & ->)]; [left; exists c|right; exists c, o];
        rewrite elem_of_cons; auto.
    + apply Hes in He as [(c & Hcb & ->)|(c & o & Hcb & ? & ->)]; apply list_elem_of_singleton in Hcb;
        [left; exists c|right; exists c, o]; rewrite elem_of_cons; auto.
  - intros c o Hcl Ho. apply elem_of_app. destruct (decide (c ∈ [b])) as [Hcb|Hcb].
    + right. apply Hes. right. by exists c, o.
    + left. apply Hes2; [by apply elem_of_cons in Hcl as [->|]; [destruct Hcb; left|]|]. by rewrite (cleared_ops (heap w) [b]), decide_False.
Qed.

(** a call whose result is known *)
Ltac ecall lem := apply ends_bind; eapply ends_eq; [by eapply lem|]; cbn beta iota zeta.

(** ** Branches *)

Lemma getWork_eq xid r w : branches w !! xid = Some r -> getWork xid w = (w, Ret r).
Proof. intros H. unfold getWork, mbind, M_bind, get. by rewrite H. Qed.

Definition with_record (xid : str) (r : DtxWorkRecord) (w : World) : World :=
  set_branches (<[xid := r]> (branches w)) w.

Lemma with_record_same xid r w : branches w !! xid = Some r -> with_record xid r w = w.
Proof. intros H. unfold with_record. rewrite insert_id by done. by destruct w. Qed.

Lemma with_record_twice xid r r' w : with_record xid r (with_record xid r' w) = with_record xid r w.
Proof. unfold with_record, set_branches. cbn. by rewrite insert_insert_eq. Qed.

Lemma with_record_lookup xid r w : branches (with_record xid r w) !! xid = Some r.
Proof. apply lookup_insert_eq. Qed.

Lemma getWork_with xid r w : getWork xid (with_record xid r w) = (with_record xid r w, Ret r).
Proof. apply getWork_eq, with_record_lookup. Qed.

Lemma put_record_eq xid r w : put_record xid r w = (with_record xid r w, Ret tt).
Proof. done. Qed.

Lemma work_part w xid r b : inv w -> branches w !! xid = Some r -> b ∈ work r -> is_Some (part_of (heap w) b).
Proof. intros Hi Hr Hb. apply (i_live _ _ _ _ _ _ Hi xid r Hr) in Hb. by apply (i_joined _ _ _ _ _ _ Hi _ _ Hb). Qed.

Lemma part_some h b : is_Some (part_of h b) -> is_Some (h !! b).
Proof. unfold part_of. destruct (h !! b); [done|by intros [? ?]]. Qed.

Lemma dtx_part_eq b d w : part_of (heap w) b = Some d -> dtx_part b w = (w, Ret d).
Proof.
  unfold part_of. intros (x & Hx & Hd)%bind_Some. unfold dtx_part. rewrite (bind_Ret _ _ _ _ _ (buffer_eq b x w Hx)).
  by rewrite Hd.
Qed.

Lemma flag_eq f h b d : part_of h b = Some d -> flag f h b = f d.
Proof. intros H. unfold flag. by rewrite H. Qed.

Definition marked (v : bool) (r : DtxWorkRecord) : DtxWorkRecord := set_flags (completed r) v (prepared r) (expired r) r.

Lemma check_ended_spec xid l w r :
  branches w !! xid = Some r -> (forall b, b ∈ l -> is_Some (part_of (heap w) b)) ->
  ends (check_ended xid l) w (fun w' o => exists v, w' = with_record xid (marked v r) w /\
    (rolledback r = true -> v = true) /\
    match o with
    | Ret _ => forall b, b ∈ l -> flag ended (heap w) b = true /\ (flag failed (heap w) b = true -> v = true)
    | Throw e => e = IllegalStateException
    end).
Proof.
  revert w r. induction l as [|b l IH]; intros w r Hr Hl; cbn [check_ended].
  { estep. exists (rolledback r). split; [|split; [done|by intros b ?%elem_of_nil]].
    symmetry. apply with_record_same. rewrite Hr. by destruct r. }
  destruct (Hl b ltac:(by left)) as [d Hd]. ecall dtx_part_eq.
  destruct (ended d) eqn:Ee; cbn [negb].
  2: { estep. exists (rolledback r). split; [|by split]. symmetry. apply with_record_same. rewrite Hr. by destruct r. }
  assert (Hrec : ends (if failed d then r ← getWork xid; put_record xid (set_flags (completed r) true (prepared r) (expired r) r)
                       else mret tt) w
                   (fun w' o => o = Ret tt /\ exists v, w' = with_record xid (marked v r) w /\
                      (rolledback r = true -> v = true) /\ (failed d = true -> v = true))).
  { destruct (failed d).
    - ecall getWork_eq. estep. split; [done|]. by exists true.
    - estep. split; [done|]. exists (rolledback r). split; [|by split]. symmetry. apply with_record_same. rewrite Hr. by destruct r. }
  apply ends_bind. eapply ends_mono; [exact Hrec|]. intros w' ? (-> & v & -> & Hv & Hfd).
  eapply ends_mono; [apply (IH _ (marked v r)); [apply with_record_lookup|]|].
  - intros c Hc. apply Hl. by right.
  - intros w2 o (v2 & -> & Hv2 & Hres). exists v2. rewrite with_record_twice. split; [done|]. cbn in Hv2. split; [auto|].
    destruct o as [[]|e]; [|done]. intros c [->|Hc]%elem_of_cons; [|by apply Hres]. rewrite !(flag_eq _ _ b d) by done. auto.
Qed.

(** the branch after [check] *)
Definition checked (xid : str) (r r' : DtxWorkRecord) (w w' : World) : Prop :=
  w' = with_record xid r' w /\ (exists c v, r' = set_flags c v (prepared r) (expired r) r) /\ inv w'.

Lemma check_spec xid w r :
  inv w -> branches w !! xid = Some r ->
  ends (check xid) w (fun w' o => exists r', checked xid r r' w w' /\
    match o with
    | Ret ok => completed r' = true /\ expired r' = false /\ ok = negb (rolledback r')
    | Throw e => e = DtxTimeoutException \/ e = IllegalStateException
    end).
Proof.
  intros Hi Hr.
  assert (Hself : checked xid r r w w).
  { split; [by rewrite with_record_same|]. split; [|done]. exists (completed r), (rolledback r). by destruct r. }
  unfold check. ecall getWork_eq. destruct (expired r) eqn:Ee; [estep; by exists r; eauto|].
  apply ends_bind. destruct (completed r) eqn:Ec.
  { estep. eapply ends_eq; [by apply getWork_eq|]. estep. exists r. done. }
  apply ends_bind. eapply ends_mono; [apply (check_ended_spec xid (work r) w r Hr)|].
  { intros b Hb. by eapply work_part. }
  assert (Hdoom : forall c v, (rolledback r = true -> v = true) -> (c = true -> forall b, b ∈ work r -> flag failed (heap w) b = true -> v = true) ->
            doomed (heap w) (sessions w) r -> doomed (heap w) (sessions w) (set_flags c v (prepared r) (expired r) r)).
  { intros c v Hv Hall [D|[D|[[D (b & Hb & Hf)]|[[D _]|D]]]]; try congruence.
    - left. auto.
    - destruct c; [left; eauto|]. right; right; left. split; [done|]. by exists b.
    - by do 4 right. }
  assert (Hprep : prepared r = false).
  { destruct (prepared r) eqn:E; [|done]. apply (i_complete _ _ _ _ _ _ Hi xid r Hr) in E. congruence. }
  assert (Hkeep : forall c v, (rolledback r = true -> v = true) ->
            (c = true -> forall b, b ∈ work r -> flag ended (heap w) b = true /\ (flag failed (heap w) b = true -> v = true)) ->
            checked xid r (set_flags c v (prepared r) (expired r) r) w (with_record xid (set_flags c v (prepared r) (expired r) r) w)).
  { intros c v Hv Hall. split; [done|]. split; [by exists c, v|].
    apply (inv_record _ _ _ _ _ _ Hi xid r); cbn; try done; try congruence.
    - intros Hc b Hb. by apply Hall.
    - apply Hdoom; [done|]. intros Hc b Hb. by apply Hall. }
  intros w' o (v & -> & Hv & Hres). destruct o as [[]|e].
  - ecall getWork_with. eapply ends_eq; [apply put_record_eq|]. cbn beta iota. ecall getWork_with. estep.
    rewrite with_record_twice. exists (set_flags true v (prepared r) (expired r) r). split; [by apply Hkeep|]. cbn. by rewrite Ee.
  - exists (marked v r). split; [|by right]. unfold marked. rewrite Ec. by apply Hkeep.
Qed.

(** calls that only reach the store, the operations' [prepare] or a new address *)
Definition mild (w w' : World) : Prop := exists es k, Forall neutral es /\
  w' = mkWorld (heap w) (branches w) (timers w) (sessions w) (completions w) (k + fresh w) (es ++ log w).

Lemma mild_refl w : mild w w.
Proof. exists [], 0%nat. split; [done|]. by destruct w. Qed.

Lemma mild_logged es w : Forall neutral es -> mild w (logged es w).
Proof. intros H. by exists es, 0%nat. Qed.

Lemma mild_trans w1 w2 w3 : mild w1 w2 -> mild w2 w3 -> mild w1 w3.
Proof.
  intros (es & k & H & ->) (es' & k' & H' & ->). exists (es' ++ es), (k' + k)%nat. split; [by apply Forall_app|]. cbn.
  by rewrite app_assoc, Nat.add_assoc.
Qed.

Lemma inv_mild w w' : inv w -> mild w w' -> inv w'.
Proof.
  intros Hi (es & k & Hn & ->). unfold inv. cbn. apply inv_neutral; [|done]. eapply inv_alloc; [exact Hi|lia].
Qed.

Lemma store_call_spec e w :
  neutral e ->
  ends (store_call env e) w (fun w' o => mild w w' /\ (o = Ret tt /\ w' = logged [e] w \/ o = Throw StoreException /\ w' = w)).
Proof.
  intros He. unfold store_call. estep. destruct (store_throws env (log w) e); estep.
  - split; [apply mild_refl|by right].
  - eapply ends_eq; [apply emit_logged|]. split; [apply mild_logged; by repeat constructor|by left].
Qed.

Lemma store_begin_spec x w :
  ends (store_begin env x) w (fun w' o => mild w w' /\ ((exists t, o = Ret t) \/ o = Throw StoreException)).
Proof.
  unfold store_begin. apply ends_bind. red. cbn [fst snd alloc]. apply ends_bind.
  set (w1 := mkWorld _ _ _ _ _ _ _). assert (Hw1 : mild w w1) by (by exists [], 1%nat).
  eapply ends_mono; [by apply store_call_spec|]. intros w' o [Hm [[-> _]|[-> _]]].
  - estep. split; [by eapply mild_trans|]. left. eauto.
  - split; [by eapply mild_trans|]. by right.
Qed.

(** the branch with another transaction context *)
Lemma inv_with_txn w xid r t : inv w -> branches w !! xid = Some r -> inv (with_record xid (set_txn t r) w).
Proof.
  intros Hi Hr. apply (inv_record _ _ _ _ _ _ Hi xid r); try done; try apply (i_complete _ _ _ _ _ _ Hi xid r Hr).
  by apply (i_prepared _ _ _ _ _ _ Hi xid r).
Qed.

Lemma rollback_quietly h lg B es :
  (forall e, e ∈ es -> (exists b, b ∈ B /\ e = ObsRollback b) \/ (exists b o, b ∈ B /\ o ∈ ops_of h b /\ e = OpRollback b o)) ->
  quietly h lg B es /\ forall b, ~ committed es b.
Proof.
  intros Hes. split; [constructor|].
  - intros k b H. by destruct (Hes _ H) as [(? & _ & ?)|(? & ? & _ & _ & ?)].
  - intros b o [H|H]; destruct (Hes _ H) as [(? & _ & ?)|(? & ? & ? & ? & [= -> ->])]; try done.
  - intros b o H. by destruct (Hes _ H) as [(? & _ & ?)|(? & ? & _ & _ & ?)].
  - intros b [o H]. by destruct (Hes _ H) as [(? & _ & ?)|(? & ? & _ & _ & ?)].
Qed.

(** the operations of the buffers have been rolled back *)
Definition undid (l : list nat) (h : Heap) (w : World) : Prop :=
  forall b o, b ∈ l -> o ∈ ops_of h b -> OpRollback b o ∈ log w.

(** the work of a branch is rolled back *)
Lemma rollback_work_spec w xid r :
  inv w -> branches w !! xid = Some r -> completed r = true \/ expired r = true ->
  ends (for_each tx_rollback (work r)) w (fun w' o => o = Ret tt /\ inv w' /\ branches w' = branches w /\
    undid (work r) (heap w) w').
Proof.
  intros Hi Hr Hd.
  destruct (for_each_settle ObsRollback OpRollback (work r) w) as (h' & es & E & Hc & Hes & Hall).
  { intros b Hb. by eapply part_some, work_part. }
  eapply ends_eq; [exact E|]. split; [done|]. split; [|split; [done|intros b o Hb Ho; apply elem_of_app; left; by apply Hall]].
  destruct (rollback_quietly _ (log w) _ _ Hes) as [Hq Hnc].
  unfold inv. cbn. eapply (inv_rollback _ _ _ _ _ _ Hi xid r (work r)); try done. tauto.
Qed.

Lemma abort_spec w xid r :
  inv w -> branches w !! xid = Some r -> completed r = true \/ expired r = true ->
  ends (abort env xid) w (fun w' o => inv w' /\
    (exists t, branches w' !! xid = Some (set_txn t r)) /\ (o = Ret tt /\ undid (work r) (heap w) w' \/ o = Throw StoreException)).
Proof.
  intros Hi Hr Hd. unfold abort. ecall getWork_eq.
  assert (Hself : set_txn (txn r) r = r) by (by destruct r).
  assert (Hgo : forall w' t, inv w' -> heap w' = heap w -> branches w' !! xid = Some (set_txn t r) ->
    ends (for_each tx_rollback (work r)) w' (fun w' o => inv w' /\ (exists t, branches w' !! xid = Some (set_txn t r)) /\
      (o = Ret tt /\ undid (work r) (heap w) w' \/ o = Throw StoreException))).
  { intros w' t Hi' Eh Hr'. rewrite <- Eh. eapply ends_mono; [by apply (rollback_work_spec w' xid (set_txn t r))|].
    intros w2 o (-> & ? & E & ?). rewrite E. eauto 6. }
  apply ends_bind. destruct (txn r) as [t|] eqn:Et.
  - apply ends_bind. eapply ends_mono; [by apply store_call_spec|]. intros w' o [Hm [[-> ->]|[-> ->]]].
    + eapply ends_eq; [apply put_record_eq|]. cbn beta iota. apply (Hgo _ None); [|done|apply with_record_lookup].
      apply inv_with_txn; [by eapply inv_mild|done].
    + split; [done|]. split; [|by right]. exists (Some t). by rewrite Hself.
  - estep. apply (Hgo _ None); [done|done|]. by rewrite Hself.
Qed.

(** the outcome of a call on a branch: the invariant, and the branch is still known *)
Definition kept (xid : str) (w : World) : Prop := inv w /\ is_Some (branches w !! xid).

Lemma checked_lookup xid r r' w w' : checked xid r r' w w' -> branches w' !! xid = Some r'.
Proof. intros (-> & _). apply with_record_lookup. Qed.

Lemma checked_work xid r r' w w' :
  checked xid r r' w w' -> work r' = work r /\ r_branch r' = r_branch r /\ txn r' = txn r /\ prepared r' = prepared r.
Proof. by intros (_ & (c & v & ->) & _). Qed.

Lemma mild_lookup w w' xid : mild w w' -> branches w' !! xid = branches w !! xid.
Proof. by intros (es & k & _ & ->). Qed.

Lemma mild_heap w w' : mild w w' -> heap w' = heap w.
Proof. by intros (es & k & _ & ->). Qed.

Lemma record_prepare_spec w xid r :
  inv w -> branches w !! xid = Some r -> ends (record_prepare env xid) w (fun w' _ => kept xid w').
Proof.
  intros Hi Hr. unfold record_prepare. apply ends_bind. eapply ends_mono; [by apply (check_spec xid w r)|].
  intros w1 o (r1 & Hch & Ho). pose proof (checked_lookup _ _ _ _ _ Hch) as Hr1. assert (Hi1 : inv w1) by apply Hch.
  destruct o as [ok|e]; [|by split; eauto]. destruct Ho as (Hc & He & ->).
  assert (Habort : forall w2 r2, inv w2 -> branches w2 !! xid = Some r2 -> completed r2 = true ->
            ends (abort env xid) w2 (fun w' _ => kept xid w')).
  { intros w2 r2 Hi2 Hr2 Hc2. eapply ends_mono; [apply (abort_spec w2 xid r2); auto|].
    intros w3 o (? & [t ?] & _). split; eauto. }
  apply ends_bind. assert (Hbody : ends (if negb (rolledback r1) then
      t ← store_begin env (Some xid);
      r ← getWork xid;
      put_record xid (set_txn (Some t) r) ;;
      ok ← prepare_work env (work r);
      if ok : bool then
        store_call env (StPrepare t) ;;
        r ← getWork xid;
        put_record xid (set_flags (completed r) (rolledback r) true (expired r) r)
      else abort env xid
    else abort env xid) w1 (fun w' _ => kept xid w')).
  - destruct (rolledback r1) eqn:Erb; cbn [negb]; [by eapply Habort|].
    apply ends_bind. eapply ends_mono; [apply store_begin_spec|]. intros w2 o (Hm & Ho).
    assert (Hi2 : inv w2) by (by eapply inv_mild). assert (Hr2 : branches w2 !! xid = Some r1) by (by rewrite (mild_lookup w1)).
    destruct Ho as [[t ->]| ->]; [|by split; eauto]. ecall getWork_eq. ecall put_record_eq.
    set (w3 := with_record _ _ _). assert (Hi3 : inv w3) by (by apply inv_with_txn).
    destruct (prepare_work_spec (work r1) w3) as (es & ok & E & Hn & Hok).
    { intros b Hb. by eapply part_some, (work_part w2 xid r1). }
    ecall E. set (w4 := logged es w3). assert (Hi4 : inv w4) by (by apply inv_logged).
    assert (Hr4 : branches w4 !! xid = Some (set_txn (Some t) r1)) by apply with_record_lookup.
    destruct ok; [|by eapply Habort]. apply ends_bind.
    eapply ends_mono; [by apply store_call_spec|]. intros w5 o [Hm5 [[-> ->]|[-> ->]]]; [|by split; eauto].
    ecall getWork_eq. eapply ends_eq; [apply put_record_eq|]. split; [|by rewrite with_record_lookup].
    assert (Hi5 : inv (logged [StPrepare t] w4)) by (by eapply inv_mild).
    apply (inv_record _ _ _ _ _ _ Hi5 xid (set_txn (Some t) r1)); try done; cbn.
    + apply (i_complete _ _ _ _ _ _ Hi2 xid r1 Hr2).
    + intros _. right. intros b o Hb Hob. left. apply list_elem_of_further, elem_of_app. left. apply Hok; [done|done|].
      exact Hob.
  - eapply ends_mono; [exact Hbody|]. intros w2 o [Hi2 [r2 Hr2]]. destruct o as [[]|e]; [|by split; eauto].
    ecall getWork_eq. estep. by split; eauto.
Qed.

(** the work of the branch is committed; the record is about to be removed *)
Definition over (xid : str) (l : list nat) (h : Heap) (w : World) : Prop :=
  inv (set_branches (delete xid (branches w)) w) /\ is_Some (branches w !! xid) /\
  forall b o, b ∈ l -> o ∈ ops_of h b -> OpCommit b o ∈ log w.

Lemma commit_work_spec w xid r :
  inv w -> branches w !! xid = Some r -> completed r = true -> expired r = false -> rolledback r = false ->
  (forall b o, b ∈ work r -> o ∈ ops_of (heap w) b -> ready (log w) b o) ->
  ends (for_each tx_commit (work r)) w (fun w' o => o = Ret tt /\ over xid (work r) (heap w) w').
Proof.
  intros Hi Hr Hc He Hb Hrd.
  destruct (for_each_settle ObsCommit OpCommit (work r) w) as (h' & es & E & Hcl & Hes & Hall).
  { intros b Hbw. by eapply part_some, work_part. }
  eapply ends_eq; [exact E|]. split; [done|]. split; [|split; [by eexists|]].
  - unfold inv. cbn. apply (inv_commit _ _ _ _ _ _ Hi xid r); try done.
    + constructor.
      * intros k b H. by destruct (Hes _ H) as [(? & _ & ?)|(? & ? & _ & _ & ?)].
      * intros b o [H|H]; destruct (Hes _ H) as [(? & _ & ?)|(? & ? & ? & ? & [= -> ->])]; done.
      * intros b o H. destruct (Hes _ H) as [(? & _ & ?)|(? & ? & ? & ? & [= -> ->])]; [done|]. by apply ready_more, Hrd.
    + intros b [o H]. by destruct (Hes _ H) as [(? & _ & ?)|(? & ? & _ & _ & ?)].
  - intros b o Hbw Ho. cbn. apply elem_of_app. left. by apply Hall.
Qed.

Lemma record_commit_spec w xid r onePhase :
  inv w -> branches w !! xid = Some r ->
  ends (record_commit env xid onePhase) w (fun w' o =>
    match o with
    | Ret true => over xid (work r) (heap w) w'
    | Ret false => kept xid w' /\ undid (work r) (heap w) w'
    | Throw _ => kept xid w'
    end).
Proof.
  intros Hi Hr. unfold record_commit. apply ends_bind. eapply ends_mono; [by apply (check_spec xid w r)|].
  intros w1 o (r1 & Hch & Ho). pose proof (checked_lookup _ _ _ _ _ Hch) as Hr1. assert (Hi1 : inv w1) by apply Hch.
  destruct (checked_work _ _ _ _ _ Hch) as (Ew & _ & _ & _). assert (Eh : heap w1 = heap w) by (by destruct Hch as [-> _]).
  destruct o as [ok|e]; [|by split; eauto]. destruct Ho as (Hc & He & ->).
  assert (Habort : forall w2 r2, inv w2 -> branches w2 !! xid = Some r2 -> completed r2 = true -> work r2 = work r -> heap w2 = heap w ->
            ends (abort env xid ;; mret false) w2 (fun w' o => match o with
              | Ret true => over xid (work r) (heap w) w'
              | Ret false => kept xid w' /\ undid (work r) (heap w) w'
              | Throw _ => kept xid w'
              end)).
  { intros w2 r2 Hi2 Hr2 Hc2 <- <-. apply ends_bind. eapply ends_mono; [apply (abort_spec w2 xid r2); auto|].
    intros w3 o (? & [t ?] & [[-> ?]| ->]); [estep; split; [|done]|]; split; eauto. }
  destruct (rolledback r1) eqn:Erb; cbn [negb]; [by eapply Habort|]. ecall getWork_eq. destruct (prepared r1) eqn:Ep.
  - apply ends_bind, ends_guard; intros E1; [by split; eauto|]. destruct (txn r1) as [t|]; [|estep; by split; eauto].
    apply ends_bind. eapply ends_mono; [by apply store_call_spec|]. intros w2 o [Hm [[-> ->]|[-> ->]]]; [|by split; eauto].
    ecall put_record_eq. apply ends_bind. set (w3 := with_record _ _ _).
    assert (Hi3 : inv w3) by (apply inv_with_txn; [by eapply inv_mild|done]).
    eapply ends_mono; [apply (commit_work_spec w3 xid (set_txn None r1)); try done; [apply with_record_lookup|]|].
    + intros b o Hb Hob. apply (ready_more [StCommit t]).
      destruct (i_prepared _ _ _ _ _ _ Hi1 xid r1 Hr1 Ep) as [?|Hall]; [congruence|]. by apply Hall.
    + intros w4 o [-> Hd]. estep. rewrite <- Ew, <- Eh. exact Hd.
  - apply ends_bind, ends_guard; intros E1; [by split; eauto|]. apply ends_bind.
    eapply ends_mono; [apply store_begin_spec|]. intros w2 o (Hm & Ho).
    assert (Hi2 : inv w2) by (by eapply inv_mild). assert (Hr2 : branches w2 !! xid = Some r1) by (by rewrite (mild_lookup w1)).
    destruct Ho as [[t ->]| ->]; [|by split; eauto].
    destruct (prepare_work_spec (work r1) w2) as (es & ok & E & Hn & Hok).
    { intros b Hb. by eapply part_some, (work_part w2 xid r1). }
    ecall E. assert (Hi3 : inv (logged es w2)) by (by apply inv_logged).
    destruct ok; apply ends_bind; (eapply ends_mono; [by apply store_call_spec|]); intros w4 o [Hm4 [[-> ->]|[-> ->]]];
      try (by split; eauto); assert (Hi4 : inv (logged [_] (logged es w2))) by (by eapply inv_mild).
    + apply ends_bind. eapply ends_mono; [apply (commit_work_spec _ xid r1 Hi4); try done|].
      * intros b o Hb Hob. left. apply list_elem_of_further, elem_of_app. left. by apply Hok.
      * intros w4 o [-> Hd]. estep. rewrite <- Ew, <- Eh, <- (mild_heap w1 w2 Hm). exact Hd.
    + eapply Habort; [done|done|done|done|]. by rewrite <- Eh, <- (mild_heap w1 w2 Hm).
Qed.

Lemma record_rollback_spec w xid r :
  inv w -> branches w !! xid = Some r ->
  ends (record_rollback env xid) w (fun w' o => kept xid w' /\ (o = Ret tt -> undid (work r) (heap w) w')).
Proof.
  intros Hi Hr. unfold record_rollback. apply ends_bind. eapply ends_mono; [by apply (check_spec xid w r)|].
  intros w1 o (r1 & Hch & Ho). pose proof (checked_lookup _ _ _ _ _ Hch) as Hr1. assert (Hi1 : inv w1) by apply Hch.
  destruct (checked_work _ _ _ _ _ Hch) as (Ew & _ & _ & _). assert (Eh : heap w1 = heap w) by (by destruct Hch as [-> _]).
  destruct o as [ok|e]; [|by split; [split; eauto|]]. destruct Ho as (Hc & _ & _). rewrite <- Ew, <- Eh.
  eapply ends_mono; [apply (abort_spec w1 xid r1); auto|]. intros w2 o (? & [t ?] & [[-> ?]| ->]); (split; [split; eauto|done]).
Qed.

(** ** The manager *)

Lemma inv_timers w x : inv w -> inv (set_timers x w).
Proof. done. Qed.

Lemma cancel_spec t w : exists x, cancel t w = (set_timers x w, Ret tt).
Proof. destruct t as [[t ?]|]; [by eexists|]. exists (timers w). by destruct w. Qed.

Lemma branch_remove_spec w xid :
  is_Some (branches w !! xid) -> inv (set_branches (delete xid (branches w)) w) ->
  ends (remove xid) w (fun w' o => o = Ret tt /\ inv w' /\ log w' = log w /\ branches w' = delete xid (branches w)).
Proof.
  intros [r Hr] Hi. unfold remove. ecall getWork_eq. estep.
  destruct (cancel_spec (timeout r) (set_branches (delete xid (branches w)) w)) as [x E]. by eapply ends_eq; [exact E|].
Qed.

Lemma remove_kept w xid : kept xid w -> ends (remove xid) w (fun w' o => o = Ret tt /\ inv w').
Proof.
  intros [Hi Hs]. eapply ends_mono; [apply branch_remove_spec; [done|]|]; [by apply inv_remove|]. by intros w' o (? & ? & _).
Qed.

(** a handler that forgets the branch *)
Lemma on_timeout_spec {A} xid (m : Op A) w (Q : World -> outcome A -> Prop) :
  ends m w (fun w' o => match o with Throw DtxTimeoutException => kept xid w' | _ => Q w' o end) ->
  (forall w', inv w' -> Q w' (Throw DtxTimeoutException)) ->
  ends (on_timeout (remove xid) m) w Q.
Proof.
  intros Hm HQ. unfold ends in *. unfold on_timeout. destruct (m w) as [w' [a|e]]; cbn [fst snd] in *; [done|].
  destruct e; try done. change (ends (remove xid ;; throw DtxTimeoutException) w' Q). apply ends_bind.
  eapply ends_mono; [by apply remove_kept|]. intros w2 o [-> ?]. estep. auto.
Qed.

Lemma prepare_spec w xid : inv w -> ends (prepare env xid) w (fun w' _ => inv w').
Proof.
  intros Hi. apply on_timeout_spec; [|done]. destruct (branches w !! xid) as [r|] eqn:Hr.
  - eapply ends_mono; [by apply (record_prepare_spec w xid r)|]. intros w' o Hk. destruct o as [|[]]; apply Hk.
  - unfold record_prepare, check, getWork. estep. rewrite Hr. by estep.
Qed.

(** the branch was known, and is not any more *)
Definition forgotten (w : World) (xid : str) (r : DtxWorkRecord) (w' : World) : Prop :=
  branches w !! xid = Some r /\ branches w' !! xid = None.

Lemma commit_spec w xid onePhase :
  inv w ->
  ends (commit env xid onePhase) w (fun w' o => inv w' /\
    match o with
    | Ret true => exists r, forgotten w xid r w' /\
        forall b o, b ∈ work r -> o ∈ ops_of (heap w) b -> OpCommit b o ∈ log w'
    | Ret false => exists r, forgotten w xid r w' /\ undid (work r) (heap w) w'
    | Throw _ => True
    end).
Proof.
  intros Hi. apply on_timeout_spec; [|done]. destruct (branches w !! xid) as [r|] eqn:Hr.
  - apply ends_bind. eapply ends_mono; [by apply (record_commit_spec w xid r)|]. intros w' o Hk.
    destruct o as [[]|e]; [| |destruct e; try (split; [apply Hk|done]); exact Hk]; apply ends_bind.
    + destruct Hk as (Hinv & Hs & Hall). eapply ends_mono; [by apply branch_remove_spec|]. intros w2 o (-> & Hi2 & El & Eb). estep.
      split; [done|]. exists r. unfold forgotten. rewrite El, Eb, lookup_delete_eq. done.
    + destruct Hk as [[Hi' Hs] Hu]. eapply ends_mono; [apply branch_remove_spec; [done|by apply inv_remove]|].
      intros w2 o (-> & Hi2 & El & Eb). estep. split; [done|]. exists r. unfold forgotten, undid. rewrite El, Eb, lookup_delete_eq. done.
  - unfold record_commit, check, getWork. estep. rewrite Hr. by estep.
Qed.

Lemma rollback_spec w xid :
  inv w -> ends (rollback env xid) w (fun w' o => inv w' /\
    (o = Ret tt -> exists r, forgotten w xid r w' /\ undid (work r) (heap w) w')).
Proof.
  intros Hi. apply on_timeout_spec; [|done]. destruct (branches w !! xid) as [r|] eqn:Hr.
  - apply ends_bind. eapply ends_mono; [by apply (record_rollback_spec w xid r)|]. intros w' o [Hk Hu].
    destruct o as [[]|e]; [|destruct e; try (split; [apply Hk|done]); exact Hk]. destruct Hk as [Hi' Hs].
    eapply ends_mono; [apply branch_remove_spec; [done|by apply inv_remove]|]. intros w2 o (-> & Hi2 & El & Eb).
    split; [done|]. intros _. exists r. unfold forgotten, undid in *. rewrite El, Eb, lookup_delete_eq. auto.
  - unfold record_rollback, check, getWork. estep. rewrite Hr. by estep.
Qed.

(** ** A buffer that fails *)

Definition flag_at (f : DtxPart -> bool) (x : TxBuffer) : bool := default false (f <$> dtx x).

(** one buffer ends, is rolled back, or both *)
Lemma parting_one h br ss cs n lg ss' b x x' es :
  Inv h br ss cs n lg -> Inv h br ss' cs n lg -> (forall c, referred ss' c -> referred ss c) ->
  h !! b = Some x -> grown (dtx x) (dtx x') -> ops x' = ops x \/ ops x' = [] -> b ∉ cs -> touched br ss b ->
  (referred ss' b -> flag_at ended x' = true -> flag_at b_expired x' = true) ->
  (forall xid r, br !! xid = Some r -> b ∈ work r -> flag_at b_expired x' = true -> expired r = true) ->
  (forall e, e ∈ es -> neutral e \/ exists o, e = OpRollback b o) ->
  (forall o, OpRollback b o ∈ es -> is_Some (dtx x) ->
     flag_at failed x' = true \/ flag_at b_expired x' = true \/ flag_at ended x' = false /\ ~ referred ss' b) ->
  parting h br ss cs ss' (<[b := x']> h) es.
Proof.
  intros Hi Hi' Hss Hx Hg Ho Hcs Ht Hend Hexp Hes Hun.
  assert (Hf : forall f c, flag f (<[b := x']> h) c = if decide (c = b) then flag_at f x' else flag f h c) by (intros; apply flag_insert).
  assert (Hpb : part_of h b = dtx x) by (unfold part_of; by rewrite Hx).
  constructor; try done.
  - intros c. destruct (decide (c = b)) as [->|]; by simplify_map_eq.
  - intros c. rewrite part_of_insert. case_decide as E; [subst; by rewrite Hpb|]. by destruct (part_of h c).
  - intros c. rewrite ops_of_insert. case_decide as E; [subst|by left]. unfold ops_of. by rewrite Hx.
  - intros c Hc. rewrite lookup_insert_ne; [done|]. by intros ->.
  - intros c. rewrite Hf. case_decide as E; [by subst|congruence].
  - intros c Hc. rewrite !Hf. case_decide as E; [subst; auto|]. by apply (i_ended _ _ _ _ _ _ Hi').
  - intros xid r c Hr Hc. rewrite Hf. case_decide as E; [subst; by eapply Hexp|]. by eapply (i_expired _ _ _ _ _ _ Hi).
  - intros e He. destruct (Hes e He) as [|[o ->]]; [by left|right; eauto].
  - intros c o He. destruct (Hes _ He) as [|[o' [= -> ->]]]; [done|]. split; [eauto|]. rewrite Hpb. intros Hd. split; [done|].
    rewrite !Hf, !decide_True by done. by eapply Hun.
Qed.

Lemma put_dtx_eq b x d w :
  heap w !! b = Some x ->
  put_dtx b d w = (set_heap (<[b := mkBuffer (ops x) (error x) (txContext x) (Some d)]> (heap w)) w, Ret tt).
Proof. intros Hx. unfold put_dtx. by rewrite (bind_Ret _ _ _ _ _ (buffer_eq b x w Hx)). Qed.

Lemma settles_rollback h b es e : settles ObsRollback OpRollback h [b] es -> e ∈ es -> neutral e \/ exists o, e = OpRollback b o.
Proof.
  intros Hes [(c & ->%list_elem_of_singleton & ->)|(c & o & ->%list_elem_of_singleton & _ & ->)]%Hes; [by left|right; eauto].
Qed.

Lemma fail_eq b x d w :
  heap w !! b = Some x -> dtx x = Some d ->
  exists es, fail b w = (logged es (set_heap (<[b := mkBuffer [] (error x) (txContext x)
      (Some (mkDtx (b_xid d) true (suspended d) true (b_expired d)))]> (heap w)) w), Ret tt) /\
    settles ObsRollback OpRollback (heap w) [b] es.
Proof.
  intros Hx Hd. unfold fail. rewrite tx_rollback_settle.
  destruct (settle_spec ObsRollback OpRollback b x w Hx) as (es & E & Hes). exists es. split; [|done].
  rewrite (bind_Ret _ _ _ _ _ E). set (w1 := logged _ _).
  assert (Hx1 : heap w1 !! b = Some (clear x)) by apply lookup_insert_eq.
  rewrite (bind_Ret _ _ _ _ _ (dtx_part_eq b d w1 ltac:(unfold part_of; by rewrite Hx1))).
  rewrite (put_dtx_eq b (clear x)) by done. unfold w1, logged, set_heap. cbn. by rewrite insert_insert_eq.
Qed.

Lemma timeout_buffer_spec w xid r b :
  inv w -> branches w !! xid = Some r -> b ∈ work r -> expired r = true ->
  ends (timeout_buffer b) w (fun w' o => o = Ret tt /\ inv w' /\ branches w' = branches w).
Proof.
  intros Hi Hr Hb He. destruct (work_part w xid r b Hi Hr Hb) as [d Hd]. unfold timeout_buffer. ecall dtx_part_eq.
  destruct (ended d) eqn:Ee; [by estep|]. unfold buffer_timedout. ecall dtx_part_eq.
  pose proof Hd as (x & Hx & Hdx)%bind_Some. set (d1 := mkDtx _ _ _ _ true). ecall (put_dtx_eq b x d1 w Hx).
  set (x1 := mkBuffer _ _ _ _). set (w1 := set_heap _ w).
  destruct (fail_eq b x1 d1 w1) as (es & E & Hes); [apply lookup_insert_eq|done|]. eapply ends_eq; [exact E|].
  split; [done|]. split; [|done]. unfold inv, w1. cbn. rewrite insert_insert_eq.
  apply (inv_parting _ _ _ _ _ _ Hi (sessions w)); [exact Hi|].
  assert (Hevents : forall e, e ∈ es -> neutral e \/ exists o, e = OpRollback b o) by (intros e; by eapply settles_rollback).
  apply (parting_one _ _ _ (completions w) (fresh w) (log w) _ b x); try done.
  - rewrite Hdx. cbn. auto.
  - by right.
  - intros Hcs. destruct (i_local _ _ _ _ _ _ Hi b Hcs) as (y & Hy & Hl & _). congruence.
  - right. eauto.
  - intros xid' r' Hr' Hb' _. assert (xid' = xid) as ->; [|congruence].
    apply (i_inj _ _ _ _ _ _ Hi xid' xid r' r Hr' Hr), (i_one _ _ _ _ _ _ Hi _ _ b).
    + by apply (i_live _ _ _ _ _ _ Hi xid').
    + by apply (i_live _ _ _ _ _ _ Hi xid).
  - intros o _ _. by left.
Qed.

Lemma timedout_spec w xid : inv w -> ends (timedout env xid) w (fun w' _ => inv w').
Proof.
  intros Hi. unfold timedout. estep. destruct (branches w !! xid) as [r|] eqn:Hr; [|by estep].
  unfold record_timedout. ecall getWork_eq. ecall put_record_eq. set (r1 := set_flags _ _ _ _ r). set (w1 := with_record _ _ _).
  assert (Hi1 : inv w1).
  { apply (inv_record _ _ _ _ _ _ Hi xid r); cbn; try done; try apply (i_complete _ _ _ _ _ _ Hi xid r Hr); by left. }
  assert (Hr1 : branches w1 !! xid = Some r1) by apply with_record_lookup.
  assert (Hloop : forall l w', (forall b, b ∈ l -> b ∈ work r) -> inv w' -> branches w' !! xid = Some r1 ->
            ends (for_each timeout_buffer l) w' (fun w' o => o = Ret tt /\ inv w' /\ branches w' !! xid = Some r1)).
  { intros l. induction l as [|b l IH]; intros w' Hl Hi' Hr'; cbn [for_each]; [by estep|]. apply ends_bind.
    eapply ends_mono; [apply (timeout_buffer_spec w' xid r1 b); try done; apply Hl; by left|].
    intros w2 o (-> & Hi2 & Eb). apply IH; [|done|by rewrite Eb]. intros c Hc. apply Hl. by right. }
  apply ends_bind. assert (Hmid : ends (if completed r then mret tt else for_each timeout_buffer (work r)) w1
                             (fun w' o => o = Ret tt /\ inv w' /\ branches w' !! xid = Some r1)).
  { destruct (completed r); [by estep|]. by apply Hloop. }
  eapply ends_mono; [exact Hmid|]. intros w2 o (-> & Hi2 & Hr2).
  eapply ends_mono; [apply (abort_spec w2 xid r1); [done|done|by right]|]. by intros w3 o (? & _).
Qed.

Lemma fire_spec w t : inv w -> ends (fire env t) w (fun w' _ => inv w').
Proof.
  intros Hi. unfold fire. estep. destruct (timers w !! t) as [[xid ?]|]; [|by estep]. estep. by apply timedout_spec.
Qed.

Lemma setTimeout_spec w xid secs :
  inv w -> ends (setTimeout xid secs) w (fun w' o => inv w' /\ heap w' = heap w /\ sessions w' = sessions w /\ log w' = log w /\
    forall r, branches w !! xid = Some r -> o = Ret tt /\ exists t, branches w' = <[xid := set_timeout t r]> (branches w)).
Proof.
  intros Hi. unfold setTimeout. destruct (branches w !! xid) as [r|] eqn:Hr.
  2: { unfold getWork. estep. rewrite Hr. by estep. }
  ecall getWork_eq. case_bool_decide.
  { estep. split_and!; try done. intros r' [= <-]. split; [done|]. exists (timeout r). rewrite insert_id; [done|].
    rewrite Hr. by destruct r. }
  destruct (cancel_spec (timeout r) w) as [x E]. ecall E. apply ends_bind. red. cbn [fst snd alloc]. ecall put_record_eq.
  estep. split_and!; try done.
  - unfold inv. cbn. apply (inv_alloc _ _ _ _ (fresh w)); [|lia].
    apply (inv_record _ _ _ _ _ _ Hi xid r); try done; try apply (i_complete _ _ _ _ _ _ Hi xid r Hr).
    by apply (i_prepared _ _ _ _ _ _ Hi xid r).
  - intros r' [= <-]. split; [done|]. by eexists.
Qed.

Lemma createWork_spec w xid :
  inv w -> ends (createWork env xid) w (fun w' o => inv w' /\ heap w' = heap w /\ sessions w' = sessions w /\ log w' = log w /\
    (o = Ret tt -> exists r, branches w' !! xid = Some r /\ completed r = false /\ expired r = false /\ rolledback r = false /\
       work r = [])).
Proof.
  intros Hi. unfold createWork. estep. destruct (branches w !! xid) as [r|] eqn:Hr; [by estep|].
  apply ends_bind. red. cbn [fst snd alloc]. ecall put_record_eq. set (w1 := with_record _ _ _).
  assert (Hi1 : inv w1) by (by apply (inv_create _ _ _ _ _ _ Hi xid)).
  assert (Hr1 : branches w1 !! xid = Some (new_DtxWorkRecord (fresh w))) by apply with_record_lookup.
  destruct (0 <? dtxDefaultTimeout env); [|estep; split_and!; try done; intros _; eexists; by split_and!].
  eapply ends_mono; [by apply setTimeout_spec|]. intros w2 o (Hi2 & Eh & Es & El & Hb). split_and!; try done. intros _.
  destruct (Hb _ Hr1) as (_ & t & E). rewrite E, lookup_insert_eq. eexists. by split_and!.
Qed.

(** a buffer that has not been given to a branch *)
Definition newborn (w : World) (b : nat) : Prop :=
  (exists d, part_of (heap w) b = Some d /\ b_expired d = false) /\ (forall k, Joined k b ∉ log w) /\
  ~ committed (log w) b /\ ~ undone (log w) b.

Lemma branch_add_spec w xid b :
  inv w -> newborn w b ->
  ends (add xid b) w (fun w' o => inv w' /\ heap w' = heap w /\ sessions w' = sessions w /\
    (o = Ret tt -> exists r, branches w !! xid = Some r /\ log w' = Joined (r_branch r) b :: log w /\
       branches w' = <[xid := mkRecord (r_branch r) (completed r) (rolledback r) (prepared r) (expired r) (timeout r)
                                (work r ++ [b]) (txn r)]> (branches w))).
Proof.
  intros Hi ((d & Hd & He) & Hj & Hc & Hu). unfold add. destruct (branches w !! xid) as [r|] eqn:Hr.
  2: { unfold getWork. estep. rewrite Hr. by estep. }
  ecall getWork_eq. apply ends_bind, ends_guard; intros Ee; [done|]. apply ends_bind, ends_guard; intros Ec; [done|].
  ecall emit_logged. eapply ends_eq; [apply put_record_eq|]. split_and!; try done.
  - apply (inv_add _ _ _ _ _ _ Hi xid r b); try done. by rewrite (flag_eq _ _ _ d).
  - intros _. by exists r.
Qed.

(** ** Sessions *)

Definition session_of (w : World) (s : nat) : Session := default new_Session (sessions w !! s).
Definition with_session (s : nat) (x : Session) (w : World) : World := set_sessions (<[s := x]> (sessions w)) w.

Lemma session_eq s w : session s w = (w, Ret (session_of w s)).
Proof. done. Qed.
Lemma put_session_eq s x w : put_session s x w = (with_session s x w, Ret tt).
Proof. done. Qed.

Lemma session_refers w s b :
  closeComplete (session_of w s) = false -> current (session_of w s) b \/ parked (session_of w s) b -> refers (sessions w) s b.
Proof.
  unfold session_of, refers. destruct (sessions w !! s) as [x|]; [cbn; by exists x|]. cbn.
  intros _ [[?|?]|[xid H]]; try done.
Qed.

Lemma session_parts w s b :
  inv w -> closeComplete (session_of w s) = false ->
  (txBuffer (session_of w s) = Some b -> is_Some (heap w !! b)) /\
  (dtxBuffer (session_of w s) = Some b -> is_Some (part_of (heap w) b)) /\ (current (session_of w s) b -> ~ parked (session_of w s) b).
Proof.
  intros Hi. unfold session_of. destruct (sessions w !! s) as [x|] eqn:Hx; cbn; intros Hc.
  - destruct (i_refs _ _ _ _ _ _ Hi s x b Hx Hc). split_and!; try done. by apply (i_moved _ _ _ _ _ _ Hi s).
  - split_and!; try done. by intros [?|?].
Qed.

Lemma session_parked w s xid b :
  inv w -> suspendedXids (session_of w s) !! xid = Some (Some b) -> exists d, part_of (heap w) b = Some d /\ b_xid d = xid.
Proof.
  intros Hi. unfold session_of. destruct (sessions w !! s) as [x|] eqn:Hx; cbn; [by apply (i_parked _ _ _ _ _ _ Hi s x)|done].
Qed.

(** the session moves its buffers around or gives them up *)
Lemma inv_move w s x' :
  let x := session_of w s in
  inv w -> closeComplete x = false ->
  (forall b, txBuffer x' = Some b -> current x b \/ parked x b) ->
  (forall b, dtxBuffer x' = Some b -> dtxBuffer x = Some b \/ parked x b) ->
  (forall xid b, suspendedXids x' !! xid = Some (Some b) -> suspendedXids x !! xid = Some (Some b) \/
     dtxBuffer x = Some b /\ exists d, part_of (heap w) b = Some d /\ b_xid d = xid) ->
  (forall b, current x' b -> ~ parked x' b) ->
  inv (with_session s x' w) /\ forall b, referred (sessions (with_session s x' w)) b -> referred (sessions w) b.
Proof.
  intros x Hi Hc Htx Hdx Hsu Hmv.
  assert (Hold : forall b, current x' b \/ parked x' b -> current x b \/ parked x b).
  { intros b [[H|H]|[xid H]]; [auto| |].
    - destruct (Hdx b H); [left; by right|auto].
    - destruct (Hsu xid b H) as [?|[? _]]; [right; by exists xid|left; by right]. }
  assert (Hps : forall b, parked x b -> is_Some (part_of (heap w) b)).
  { intros b [xid Hb]. destruct (session_parked w s xid b Hi Hb) as (d & -> & _). by eexists. }
  split.
  - apply (inv_session _ _ _ _ _ _ Hi s x').
    + intros _ b. destruct (session_parts w s b Hi Hc) as (H1 & H2 & _). split_and!; [| |apply Hmv|].
      * intros [[?|?]|?]%Htx; [auto|apply part_some; auto|apply part_some; auto].
      * intros [?|?]%Hdx; auto.
      * intros H. left. apply session_refers; [done|]. auto.
    + intros xid b [H|[_ H]]%Hsu; [by eapply session_parked|done].
  - intros b (s' & y & Hl & Hcy & Hr). cbn in Hl. apply lookup_insert_Some in Hl as [[<- <-]|[Hne Hy]]; [|by exists s', y].
    exists s. apply session_refers; [done|]. auto.
Qed.

(** a new buffer: nothing in the state knows its address *)
Definition with_buffer (y : TxBuffer) (w : World) : World :=
  mkWorld (<[fresh w := y]> (heap w)) (branches w) (timers w) (sessions w) (completions w) (S (fresh w)) (log w).

Lemma fresh_heap w : inv w -> heap w !! fresh w = None.
Proof.
  intros Hi. destruct (heap w !! fresh w) as [x|] eqn:E; [|done]. apply (i_heap _ _ _ _ _ _ Hi) in E. lia.
Qed.

Lemma fresh_unreferred w : inv w -> ~ referred (sessions w) (fresh w).
Proof.
  intros Hi (s & x & Hx & Hc & Hr). pose proof (fresh_heap w Hi) as Hn.
  destruct (i_refs _ _ _ _ _ _ Hi s x (fresh w) Hx Hc) as [H1 H2].
  assert (Hs : is_Some (heap w !! fresh w)); [|rewrite Hn in Hs; by destruct Hs].
  destruct Hr as [[E|E]|[xid E]]; [auto|apply part_some; auto|]. destruct (i_parked _ _ _ _ _ _ Hi s x xid _ Hx E) as (d & Hd & _).
  apply part_some. by rewrite Hd.
Qed.

Lemma fresh_events w :
  inv w -> (forall k, Joined k (fresh w) ∉ log w) /\ ~ committed (log w) (fresh w) /\ ~ undone (log w) (fresh w) /\
    fresh w ∉ completions w.
Proof.
  intros Hi. pose proof (fresh_heap w Hi) as Hn. assert (Hno : ~ is_Some (heap w !! fresh w)) by (rewrite Hn; by intros [? ?]).
  split_and!.
  - intros k H. apply Hno, part_some. by apply (i_joined _ _ _ _ _ _ Hi k).
  - intros [o H]. apply Hno, (i_events _ _ _ _ _ _ Hi _ o). by left.
  - intros [o H]. apply Hno, (i_events _ _ _ _ _ _ Hi _ o). by right.
  - intros H. destruct (i_local _ _ _ _ _ _ Hi _ H) as (x & Hx & _). congruence.
Qed.

Lemma inv_with_buffer w y : inv w -> ops y = [] -> inv (with_buffer y w).
Proof.
  intros Hi Hy. unfold inv. cbn. apply inv_new_buffer; [eapply inv_alloc; [exact Hi|lia]|by apply fresh_heap|lia|done].
Qed.

Lemma ends_new_buffer {A} y (k : nat -> Op A) w Q :
  ends (k (fresh w)) (with_buffer y w) Q -> ends (b ← alloc; put_buffer b y ;; k b) w Q.
Proof. done. Qed.

(** a session takes it *)
Lemma inv_take w s y x' :
  let x := session_of w s in let b := fresh w in
  inv w -> closeComplete x = false -> ops y = [] -> flag_at ended y = false ->
  closeComplete x' = false -> suspendedXids x' = suspendedXids x -> txBuffer x' = Some b ->
  dtxBuffer x' = dtxBuffer x \/ dtxBuffer x' = Some b /\ is_Some (dtx y) ->
  inv (with_session s x' (with_buffer y w)).
Proof.
  intros x b Hi Hc Hy He Hc' Es Et Ed. pose proof (inv_with_buffer w y Hi Hy) as Hi1.
  assert (Hnp : forall xid, suspendedXids x !! xid <> Some (Some b)).
  { intros xid E. destruct (session_parked w s xid b Hi E) as (d & Hd & _). unfold part_of, b in Hd. by rewrite fresh_heap in Hd. }
  assert (Hx : session_of (with_buffer y w) s = x) by done.
  assert (Hb : part_of (heap (with_buffer y w)) b = dtx y) by (cbn; rewrite part_of_insert; by rewrite decide_True).
  destruct (fresh_events w Hi) as (Hj & _ & _ & Hcs).
  assert (Hun : unclaimed (heap (with_buffer y w)) (sessions w) (completions w) (log w) b).
  { split_and!; try done; [by apply fresh_unreferred|]. unfold flag. by rewrite Hb. }
  apply (inv_session _ _ _ _ _ _ Hi1 s x').
  - intros _ c. destruct (session_parts (with_buffer y w) s c Hi1 Hc) as (H1 & H2 & H3). rewrite Hx in *.
    assert (Hcur : current x' c -> c = b \/ dtxBuffer x = Some c).
    { intros [E|E]; [left; congruence|]. destruct Ed as [Ed|[Ed _]]; [right|left]; congruence. }
    split_and!.
    + intros E. assert (c = b) as -> by congruence. cbn. by rewrite lookup_insert_eq.
    + intros E. destruct Ed as [Ed|[Ed Hd]]; [apply H2; congruence|]. assert (c = b) as -> by congruence. by rewrite Hb.
    + intros Hcu [xid Hp]. rewrite Es in Hp. destruct (Hcur Hcu) as [->|E]; [by eapply Hnp|]. apply H3; [by right|by exists xid].
    + intros [[->|E]%Hcur|[xid Hp]]; [by right|left|left]; apply (session_refers (with_buffer y w)); try done.
      * left. by right.
      * right. exists xid. change (suspendedXids x !! xid = Some (Some c)). by rewrite <- Es.
  - intros xid c Hp. rewrite Es in Hp. by apply (session_parked (with_buffer y w) s).
Qed.

Lemma startTx_spec w s :
  inv w -> closeComplete (session_of w s) = false -> ends (startTx s) w (fun w' o => o = Ret tt /\ inv w').
Proof.
  intros Hi Hc. unfold startTx. apply ends_new_buffer.
  ecall session_eq. eapply ends_eq; [apply put_session_eq|]. split; [done|].
  apply (inv_take w s new_TxBuffer (set_buffers (Some (fresh w)) (dtxBuffer (session_of w s)) (session_of w s))); try done. by left.
Qed.

Lemma selectDtx_spec w s :
  inv w -> closeComplete (session_of w s) = false -> ends (selectDtx s) w (fun w' _ => inv w').
Proof.
  intros Hi Hc. unfold selectDtx. ecall session_eq. eapply ends_eq; [apply put_session_eq|].
  eapply (inv_move w s); try done; cbn.
  - intros b H. left. by left.
  - by left.
  - by left.
  - intros b. by apply session_parts.
Qed.

Lemma startDtx_spec w s xid is_join :
  inv w -> closeComplete (session_of w s) = false -> ends (startDtx env s xid is_join) w (fun w' _ => inv w').
Proof.
  intros Hi Hc. unfold startDtx. ecall session_eq. apply ends_bind, ends_guard; intros _; [done|].
  apply (ends_new_buffer (new_DtxBuffer xid)). ecall put_session_eq.
  set (w1 := with_session _ _ _). destruct (fresh_events w Hi) as (Hj & Hnc & Hnu & _).
  assert (Hi1 : inv w1).
  { apply (inv_take w s (new_DtxBuffer xid)); try done. right. split; [done|]. by eexists. }
  assert (Hnew : forall w', heap w' = heap w1 -> log w' = log w1 -> newborn w' (fresh w)).
  { intros w' Eh El. unfold newborn. rewrite Eh, El. split_and!; try done. exists (mkDtx xid false false false false).
    split; [|done]. unfold w1. cbn. rewrite part_of_insert. by rewrite decide_True. }
  destruct is_join.
  - eapply ends_mono; [by apply branch_add_spec; [|apply Hnew]|]. by intros w' o (? & _).
  - unfold start. apply ends_bind. eapply ends_mono; [by apply createWork_spec|]. intros w2 o (Hi2 & Eh & Es & El & _).
    destruct o as [[]|e]; [|done]. eapply ends_mono; [by apply branch_add_spec; [|apply Hnew]|]. by intros w' o (? & _).
Qed.

(** *** Working *)

Lemma enlist_eq b o x w :
  heap w !! b = Some x ->
  enlist b o w = (set_heap (<[b := mkBuffer (ops x ++ [o]) (error x) (txContext x) (dtx x)]> (heap w)) (logged [OpEnlist b o] w), Ret tt).
Proof.
  intros Hx. unfold enlist. by rewrite (bind_Ret _ _ _ _ _ (buffer_eq b x w Hx)), (bind_Ret _ _ _ _ _ (emit_logged _ w)).
Qed.

Lemma same_part_refl d : same_part d d.
Proof. by destruct d. Qed.

Lemma enlist_spec w b o x :
  inv w -> heap w !! b = Some x -> referred (sessions w) b -> ends (enlist b o) w (fun w' r => r = Ret tt /\ inv w').
Proof.
  intros Hi Hx Hr. eapply ends_eq; [by apply enlist_eq|]. split; [done|].
  assert (Hi1 : inv (logged [OpEnlist b o] w)) by (apply inv_logged; [done|by repeat constructor]).
  apply (inv_update _ _ _ _ _ _ Hi1 b x); try done.
  - apply same_part_refl.
  - right. exists o. split; [done|]. by left.
  - intros Hcs. by destruct (i_local _ _ _ _ _ _ Hi b Hcs) as (? & _ & _ & Hn & _).
Qed.

Lemma tx_publish_spec w s o :
  inv w -> closeComplete (session_of w s) = false -> ends (publish s o) w (fun w' _ => inv w').
Proof.
  intros Hi Hc. unfold publish. ecall session_eq. destruct (txBuffer (session_of w s)) as [b|] eqn:Eb; [|by estep].
  destruct (session_parts w s b Hi Hc) as (H1 & _ & _). destruct (H1 Eb) as [x Hx].
  eapply ends_mono; [apply (enlist_spec w b o x Hi Hx)|by intros w' r [_ ?]].
  exists s. apply session_refers; [done|]. left. by left.
Qed.

Lemma accepted_spec w s o :
  inv w -> closeComplete (session_of w s) = false -> ends (accepted s o) w (fun w' _ => inv w').
Proof.
  intros Hi Hc. unfold accepted. ecall session_eq. destruct (txBuffer (session_of w s)); [|by estep].
  destruct (dtxBuffer (session_of w s)) as [b|] eqn:Eb; [|by estep].
  destruct (session_parts w s b Hi Hc) as (_ & H2 & _). destruct (part_some _ _ (H2 Eb)) as [x Hx].
  eapply ends_mono; [apply (enlist_spec w b o x Hi Hx)|by intros w' r [_ ?]].
  exists s. apply session_refers; [done|]. left. by right.
Qed.

(** *** Transactions of one session *)

(** the session's buffer is not part of a distributed transaction *)
Definition local (w : World) (s : nat) : Prop :=
  forall b, txBuffer (session_of w s) = Some b -> part_of (heap w) b = None.

Lemma finally_spec {A} h (m : Op A) w Q :
  ends m w (fun w' o => ends h w' (fun w'' r => r = Ret tt /\ Q w'' o)) -> ends (finally h m) w Q.
Proof.
  unfold ends, finally. destruct (m w) as [w' o]. cbn. destruct (h w') as [w'' r]. cbn. by intros [-> ?].
Qed.

Lemma startTx_completions s l w :
  startTx s (set_completions l w) = (set_completions l (startTx s w).1, (startTx s w).2).
Proof. done. Qed.

(** after [startTx] nobody refers to the buffer the session had *)
Lemma startTx_forgets w s b :
  inv w -> closeComplete (session_of w s) = false -> txBuffer (session_of w s) = Some b -> part_of (heap w) b = None ->
  ends (startTx s) w (fun w' o => o = Ret tt /\ inv w' /\ ~ referred (sessions w') b /\ heap w' !! b = heap w !! b /\
    log w' = log w /\ completions w' = completions w).
Proof.
  intros Hi Hc Eb Hp. pose proof (startTx_spec w s Hi Hc) as Hs. destruct (session_parts w s b Hi Hc) as (H1 & H2 & H3).
  assert (Hne : b <> fresh w).
  { intros ->. specialize (H1 Eb). rewrite fresh_heap in H1 by done. by destruct H1. }
  revert Hs. unfold startTx. intros Hs. apply ends_new_buffer. ecall session_eq. eapply ends_eq; [apply put_session_eq|].
  destruct Hs as [_ Hs]. split; [done|]. split; [exact Hs|]. split; [|split_and!; try done; cbn; by rewrite lookup_insert_ne].
  intros (s' & y & Hy & Hcy & Hr). cbn in Hy. apply lookup_insert_Some in Hy as [[<- <-]|[Hss Hy]].
  - destruct Hr as [[E|E]|[xid E]]; cbn in E; [congruence| |].
    + destruct (H2 E) as [d Hd]. congruence.
    + apply (session_parked w s xid b Hi) in E as (d & Hd & _). congruence.
  - apply Hss. apply (i_apart _ _ _ _ _ _ Hi s s' b); [|by exists y]. apply session_refers; [done|]. left. by left.
Qed.

Lemma setError_eq b e x w :
  heap w !! b = Some x -> setError b e w = (set_heap (<[b := mkBuffer (ops x) e (txContext x) (dtx x)]> (heap w)) w, Ret tt).
Proof. intros Hx. unfold setError. by rewrite (bind_Ret _ _ _ _ _ (buffer_eq b x w Hx)). Qed.

Lemma inv_set_error w b e x :
  inv w -> heap w !! b = Some x -> (b ∈ completions w -> e <> []) ->
  inv (set_heap (<[b := mkBuffer (ops x) e (txContext x) (dtx x)]> (heap w)) w).
Proof.
  intros Hi Hx He. apply (inv_update _ _ _ _ _ _ Hi b x); try done; [apply same_part_refl|by left|].
  cbn. intros Hcs E. by destruct (He Hcs).
Qed.

(** [startCommit]: when it returns without an error every operation is prepared *)
Lemma startCommit_spec w b x :
  inv w -> heap w !! b = Some x -> b ∉ completions w ->
  ends (startCommit env b) w (fun w' o => inv w' /\ sessions w' = sessions w /\ completions w' = completions w /\
    exists x', heap w' !! b = Some x' /\ dtx x' = dtx x /\
      (o = Ret tt -> error x' = [] -> forall o, o ∈ ops x' -> ready (log w') b o)).
Proof.
  intros Hi Hx Hcs. unfold startCommit. apply ends_bind. eapply ends_mono; [apply store_begin_spec|].
  intros w1 o [Hm Ho]. assert (Hi1 : inv w1) by (by eapply inv_mild). destruct Hm as (es & k & Hn & E).
  assert (Hx1 : heap w1 !! b = Some x) by (by subst w1).
  assert (Es : sessions w1 = sessions w /\ completions w1 = completions w) by (by subst w1). destruct Es as [Es Ecs].
  destruct Ho as [[t ->]| ->]; [|split_and!; try done; by exists x]. ecall (buffer_eq b x w1 Hx1). apply ends_bind.
  set (x2 := mkBuffer _ _ _ _). set (w2 := set_heap (<[b := x2]> (heap w1)) w1).
  assert (Hi2 : inv w2).
  { apply (inv_update _ _ _ _ _ _ Hi1 b x); try done; [apply same_part_refl|by left|]. intros Hc. by rewrite Ecs in Hc. }
  eapply (ends_eq _ _ w2 (Ret tt)); [done|]. cbn beta iota.
  assert (Hx2 : heap w2 !! b = Some x2) by apply lookup_insert_eq.
  destruct (tx_prepare_spec b x2 w2 Hx2) as (es2 & ok & E2 & Hn2 & Hok). ecall E2.
  assert (Hi3 : inv (logged es2 w2)) by (by apply inv_logged). destruct ok.
  - estep. split_and!; try done. exists x2. split_and!; try done. intros _ _ o' Ho'. left. apply elem_of_app. left. by apply Hok.
  - eapply ends_eq; [by apply (setError_eq b _ x2)|]. split.
    { apply inv_set_error; [done|done|]. intros Hc. cbn in Hc. by rewrite Ecs in Hc. }
    split_and!; try done. eexists. split; [apply lookup_insert_eq|]. done.
Qed.

Lemma session_commit_spec w s o :
  inv w -> closeComplete (session_of w s) = false -> local w s -> ends (session_commit env s o) w (fun w' _ => inv w').
Proof.
  intros Hi Hc Hl. unfold session_commit. ecall session_eq. destruct (txBuffer (session_of w s)) as [b|] eqn:Eb; [|by estep].
  destruct (session_parts w s b Hi Hc) as (H1 & _ & _). destruct (H1 Eb) as [x Hx].
  assert (Hd : dtx x = None) by (specialize (Hl b Eb); unfold part_of in Hl; by rewrite Hx in Hl).
  assert (Href : referred (sessions w) b) by (exists s; apply session_refers; [done|]; left; by left).
  assert (Hcs : b ∉ completions w) by (intros Hin; by destruct (i_local _ _ _ _ _ _ Hi b Hin) as (? & _ & _ & Hn & _)).
  apply finally_spec, ends_bind. destruct (enlist_spec w b o x Hi Hx Href) as [_ Hi1]. eapply ends_eq; [by apply (enlist_eq b o x)|].
  rewrite (enlist_eq b o x w Hx) in Hi1. cbn [fst] in Hi1. set (x1 := mkBuffer _ _ _ _) in *. set (w1 := set_heap _ _) in *.
  assert (Hx1 : heap w1 !! b = Some x1) by apply lookup_insert_eq. apply ends_bind.
  eapply ends_mono; [by apply (startCommit_spec w1 b x1)|]. intros w2 r (Hi2 & Es & Ecs & x2 & Hx2 & Ed & Hrd).
  assert (Hs2 : session_of w2 s = session_of w s) by (unfold session_of; by rewrite Es).
  assert (Hforget : ends (startTx s) w2 (fun w' o => o = Ret tt /\ inv w' /\ ~ referred (sessions w') b /\
            heap w' !! b = heap w2 !! b /\ log w' = log w2 /\ completions w' = completions w2)).
  { apply startTx_forgets; rewrite ?Hs2; try done. unfold part_of. rewrite Hx2. cbn. by rewrite Ed. }
  destruct r as [[]|e]; [|eapply ends_mono; [exact Hforget|]; by intros w' ? (? & ? & _)].
  estep. unfold ends in *. rewrite startTx_completions. cbn [fst snd]. destruct Hforget as (? & Hi3 & Hn & Eh & El & Ec). split; [done|].
  rewrite <- Ec. apply (inv_completion _ _ _ _ _ _ Hi3 b x2); [by rewrite Eh|by rewrite Ed|done|]. rewrite El. auto.
Qed.

Lemma inv_settle_local w b x obs final es :
  inv w -> heap w !! b = Some x -> dtx x = None -> settles obs final (heap w) [b] es ->
  (obs, final) = (ObsRollback, OpRollback) \/
    (obs, final) = (ObsCommit, OpCommit) /\ (forall o, o ∈ ops x -> ready (log w) b o) ->
  inv (logged es (set_heap (<[b := clear x]> (heap w)) w)).
Proof.
  intros Hi Hx Hd Hes Hk. assert (Ho : ops_of (heap w) b = ops x) by (unfold ops_of; by rewrite Hx).
  assert (Hev : forall e, e ∈ es -> e = obs b \/ exists o, o ∈ ops x /\ e = final b o).
  { intros e [(c & ->%list_elem_of_singleton & ->)|(c & o & ->%list_elem_of_singleton & Hoc & ->)]%Hes; [by left|right].
    rewrite Ho in Hoc. eauto. }
  apply (inv_local_outcome _ _ _ _ _ _ Hi b x); try done.
  - intros c. cbn [heap logged set_heap]. destruct (decide (c ∈ [b])) as [->%list_elem_of_singleton|Hn]; [by rewrite lookup_insert_eq, Hx|].
    rewrite lookup_insert_ne; [done|]. intros ->. apply Hn. by left.
  - destruct Hk as [[= -> ->]|[[= -> ->] Hrd]]; constructor.
    + intros k c H. by destruct (Hev _ H) as [?|(? & _ & ?)].
    + intros c o [H|H]; destruct (Hev _ H) as [?|(? & ? & [= -> ->])]; try done. rewrite Ho. split; [by left|done].
    + intros c o H. by destruct (Hev _ H) as [?|(? & _ & ?)].
    + intros k c H. by destruct (Hev _ H) as [?|(? & _ & ?)].
    + intros c o [H|H]; destruct (Hev _ H) as [?|(? & ? & [= -> ->])]; try done. rewrite Ho. split; [by left|done].
    + intros c o H. destruct (Hev _ H) as [?|(? & ? & [= -> ->])]; [done|]. by apply ready_more, Hrd.
Qed.

Lemma complete_spec w b : inv w -> ends (complete env b) w (fun w' _ => inv w').
Proof.
  intros Hi. unfold complete. estep. case_decide as Hb; [|by estep]. destruct (i_local _ _ _ _ _ _ Hi b Hb) as (x & Hx & Hd & _ & Hrd).
  estep. set (w1 := set_completions _ w).
  assert (Hi1 : inv w1) by (eapply (inv_completions _ _ _ _ _ _ Hi); intros c Hc; by apply list_elem_of_filter in Hc as [_ ?]).
  unfold endCommit. ecall (buffer_eq b x w1 Hx). destruct (txContext x) as [t|]; [|by estep].
  case_decide as Ee; apply ends_bind; (eapply ends_mono; [by apply store_call_spec|]); intros w2 o [Hm [[-> ->]|[-> ->]]]; try done;
    assert (Hi2 : inv (logged [_] w1)) by (by eapply inv_mild).
  - rewrite tx_commit_settle. destruct (settle_spec ObsCommit OpCommit b x (logged [StCommit t] w1) Hx) as (es & E & Hes).
    eapply ends_eq; [exact E|]. eapply inv_settle_local; [done|done|done|exact Hes|right]. split; [done|].
    intros o Ho. by apply (ready_more [StCommit t]), Hrd.
  - rewrite tx_rollback_settle. apply ends_bind.
    destruct (settle_spec ObsRollback OpRollback b x (logged [StAbort t] w1) Hx) as (es & E & Hes).
    eapply ends_eq; [exact E|]. estep. eapply inv_settle_local; [done|done|done|exact Hes|by left].
Qed.

Lemma completer_error_spec w b e : inv w -> e <> [] -> ends (completer_error b e) w (fun w' _ => inv w').
Proof.
  intros Hi He. unfold completer_error. estep. case_decide as Hb; [|by estep].
  destruct (i_local _ _ _ _ _ _ Hi b Hb) as (x & Hx & _). eapply ends_eq; [by apply setError_eq|]. by apply inv_set_error.
Qed.

Lemma session_rollback_spec w s :
  inv w -> closeComplete (session_of w s) = false -> local w s -> ends (session_rollback s) w (fun w' _ => inv w').
Proof.
  intros Hi Hc Hl. unfold session_rollback. ecall session_eq. destruct (txBuffer (session_of w s)) as [b|] eqn:Eb; [|by estep].
  destruct (session_parts w s b Hi Hc) as (H1 & _ & _). destruct (H1 Eb) as [x Hx].
  assert (Hd : dtx x = None) by (specialize (Hl b Eb); unfold part_of in Hl; by rewrite Hx in Hl).
  apply finally_spec. rewrite tx_rollback_settle. destruct (settle_spec ObsRollback OpRollback b x w Hx) as (es & E & Hes).
  eapply ends_eq; [exact E|]. eapply ends_mono; [apply startTx_spec|done]; [|done].
  eapply inv_settle_local; [done|done|done|exact Hes|by left].
Qed.

(** *** Distributed transactions *)

(** once the session's pointers to a buffer are gone nobody refers to it *)
Lemma dropped w s b x' :
  inv w -> closeComplete (session_of w s) = false -> current (session_of w s) b ->
  (closeComplete x' = false -> ~ current x' b /\ forall xid, suspendedXids x' !! xid = Some (Some b) -> parked (session_of w s) b) ->
  ~ referred (<[s := x']> (sessions w)) b.
Proof.
  intros Hi Hc Hcur Hx' (s' & y & [[<- <-]|[Hne Hy]]%lookup_insert_Some & Hcy & Hr).
  - destruct (Hx' Hcy) as [Hn Hp]. destruct Hr as [?|[xid Hxid]]; [done|]. destruct (session_parts w s b Hi Hc) as (_ & _ & H3).
    apply H3; [done|]. by eapply Hp.
  - apply Hne, (i_apart _ _ _ _ _ _ Hi s s' b); [|by exists y]. apply session_refers; auto.
Qed.

Lemma current_not_local w s b :
  inv w -> closeComplete (session_of w s) = false -> current (session_of w s) b -> b ∉ completions w.
Proof.
  intros Hi Hc Hcur Hin. destruct (i_local _ _ _ _ _ _ Hi b Hin) as (? & _ & _ & Hn & _). apply Hn. exists s.
  apply session_refers; auto.
Qed.

(** the buffer of the session ends or is rolled back, and the session gives it up *)
Lemma leave_spec w s b x x1 x' es :
  inv w -> closeComplete (session_of w s) = false -> current (session_of w s) b -> heap w !! b = Some x ->
  inv (with_session s x' w) -> (forall c, referred (sessions (with_session s x' w)) c -> referred (sessions w) c) ->
  ~ referred (sessions (with_session s x' w)) b -> grown (dtx x) (dtx x1) -> ops x1 = ops x \/ ops x1 = [] ->
  flag_at b_expired x1 = flag_at b_expired x ->
  (forall e, e ∈ es -> neutral e \/ exists o, e = OpRollback b o) ->
  (forall o, OpRollback b o ∈ es -> is_Some (dtx x) -> flag_at failed x1 = true \/ flag_at b_expired x1 = true \/ flag_at ended x1 = false) ->
  inv (logged es (set_heap (<[b := x1]> (heap w)) (with_session s x' w))).
Proof.
  intros Hi Hc Hcur Hx Hi' Hss Hn Hg Ho He Hes Hun.
  apply (inv_parting _ _ _ _ _ _ Hi (sessions (with_session s x' w))); [exact Hi'|].
  apply (parting_one _ _ _ (completions w) (fresh w) (log w) _ b x); try done.
  - by eapply current_not_local.
  - left. exists s. apply session_refers; auto.
  - intros xid r Hr Hb. rewrite He. intros E. eapply (i_expired _ _ _ _ _ _ Hi); [done|done|].
    unfold flag, part_of. rewrite Hx. exact E.
  - intros o Ho' Hd. destruct (Hun o Ho' Hd) as [?|[?|?]]; auto.
Qed.

(** the session's distributed transaction, and its buffer *)
Lemma dtx_buffer w s b :
  inv w -> closeComplete (session_of w s) = false -> dtxBuffer (session_of w s) = Some b ->
  exists x d, heap w !! b = Some x /\ dtx x = Some d /\ part_of (heap w) b = Some d /\ current (session_of w s) b.
Proof.
  intros Hi Hc Eb. destruct (session_parts w s b Hi Hc) as (_ & H2 & _). destruct (H2 Eb) as [d Hd].
  pose proof Hd as (x & Hx & Hdx)%bind_Some. exists x, d. split_and!; try done. by right.
Qed.

Lemma session_with s x w : session_of (with_session s x w) s = x.
Proof. unfold session_of, with_session. cbn. by rewrite lookup_insert_eq. Qed.

Lemma with_session_twice s x x' w : with_session s x (with_session s x' w) = with_session s x w.
Proof. unfold with_session, set_sessions. cbn. by rewrite insert_insert_eq. Qed.

Lemma inv_set_buffers w s tx dx :
  let x := session_of w s in
  inv w -> closeComplete x = false -> tx = None \/ tx = txBuffer x -> dx = None \/ dx = dtxBuffer x ->
  inv (with_session s (set_buffers tx dx x) w) /\
  forall b, referred (sessions (with_session s (set_buffers tx dx x) w)) b -> referred (sessions w) b.
Proof.
  intros x Hi Hc Ht Hd. subst x. apply (inv_move w s); cbn; try done.
  - intros b E. left. left. destruct Ht; congruence.
  - intros b E. left. destruct Hd; congruence.
  - by left.
  - intros b Hcur. destruct (session_parts w s b Hi Hc) as (_ & _ & H3). apply H3. destruct Hcur as [E|E]; cbn in E; [left|right].
    + destruct Ht; congruence.
    + destruct Hd; congruence.
Qed.

(** [checkDtxTimeout] returns when the buffer has not expired *)
Lemma checkDtxTimeout_spec w s b d :
  inv w -> closeComplete (session_of w s) = false -> part_of (heap w) b = Some d ->
  ends (checkDtxTimeout s b) w (fun w' o => inv w' /\ (o = Throw DtxTimeoutException \/ o = Ret tt /\ w' = w /\ b_expired d = false)).
Proof.
  intros Hi Hc Hd. unfold checkDtxTimeout. ecall dtx_part_eq. destruct (b_expired d); [|estep; split; [done|by right]].
  ecall session_eq. ecall put_session_eq. estep. split; [|by left]. apply inv_set_buffers; auto.
Qed.

Lemma endDtx_spec w s xid is_fail :
  inv w -> closeComplete (session_of w s) = false -> ends (endDtx s xid is_fail) w (fun w' _ => inv w').
Proof.
  intros Hi Hc. unfold endDtx. ecall session_eq. destruct (dtxBuffer (session_of w s)) as [b|] eqn:Eb; [|by estep].
  destruct (dtx_buffer w s b Hi Hc Eb) as (x & d & Hx & Hdx & Hd & Hcur). ecall dtx_part_eq.
  apply ends_bind, ends_guard; intros _; [done|]. ecall put_session_eq.
  destruct (inv_set_buffers w s None (Some b) Hi Hc) as [Hi1 _]; [by left|by right|]. set (x1 := set_buffers _ _ _) in *.
  set (w1 := with_session _ _ _) in *. assert (Hs1 : session_of w1 s = x1) by apply session_with.
  assert (Hc1 : closeComplete (session_of w1 s) = false) by (by rewrite Hs1). apply ends_bind.
  eapply ends_mono; [by apply (checkDtxTimeout_spec w1 s b d)|]. intros w2 o [Hi2 [->|(-> & -> & He)]]; [done|].
  destruct (inv_set_buffers w1 s None None Hi1 Hc1) as [Hi3 Hss]; [by left|by left|]. rewrite Hs1 in Hi3, Hss.
  assert (Hcur1 : current (session_of w1 s) b) by (rewrite Hs1; by right).
  assert (Hn : ~ referred (sessions (with_session s (set_buffers None None x1) w1)) b).
  { eapply dropped; [done|done|done|]. intros _. split; [by intros [?|?]|]. intros k E. rewrite Hs1. by exists k. }
  assert (Hback : set_buffers None None (session_of w s) = set_buffers None None x1) by done. rewrite Hback. apply ends_bind.
  destruct is_fail.
  - destruct (fail_eq b x d w1) as (es & E & Hes); [done..|]. eapply ends_eq; [exact E|]. cbn beta iota.
    eapply ends_eq; [apply put_session_eq|]. eapply (leave_spec w1 s b x); try done.
    + rewrite Hdx. cbn. auto.
    + by right.
    + unfold flag_at. by rewrite Hdx.
    + intros e. by eapply settles_rollback.
    + intros _ _ _. by left.
  - unfold markEnded. ecall dtx_part_eq. eapply ends_eq; [by apply (put_dtx_eq b x)|]. cbn beta iota.
    eapply ends_eq; [apply put_session_eq|].
    apply (leave_spec w1 s b x _ _ []); try done.
    + rewrite Hdx. cbn. auto.
    + by left.
    + unfold flag_at. by rewrite Hdx.
    + by intros e ?%elem_of_nil.
    + by intros o ?%elem_of_nil.
Qed.

Lemma setSuspended_spec w b x d v :
  inv w -> heap w !! b = Some x -> dtx x = Some d ->
  ends (setSuspended b v) w (fun w' o => o = Ret tt /\ inv w' /\ sessions w' = sessions w /\
    part_of (heap w') b = Some (mkDtx (b_xid d) (ended d) v (failed d) (b_expired d))).
Proof.
  intros Hi Hx Hd. unfold setSuspended. ecall (dtx_part_eq b d w ltac:(unfold part_of; by rewrite Hx)).
  eapply ends_eq; [by apply (put_dtx_eq b x)|]. split; [done|]. split; [|split; [done|]].
  - apply (inv_update _ _ _ _ _ _ Hi b x); try done; [by rewrite Hd|by left|].
    intros Hcs. destruct (i_local _ _ _ _ _ _ Hi b Hcs) as (y & Hy & Hl & _). congruence.
  - cbn. rewrite part_of_insert. by rewrite decide_True.
Qed.

Lemma suspendDtx_spec w s xid :
  inv w -> closeComplete (session_of w s) = false -> ends (suspendDtx s xid) w (fun w' _ => inv w').
Proof.
  intros Hi Hc. unfold suspendDtx. ecall session_eq. destruct (dtxBuffer (session_of w s)) as [b|] eqn:Eb; [|by estep].
  destruct (dtx_buffer w s b Hi Hc Eb) as (x & d & Hx & Hdx & Hd & Hcur). ecall dtx_part_eq.
  apply ends_bind, ends_guard; intros Exid; [done|]. apply negb_false_iff, bool_decide_eq_true in Exid. ecall put_session_eq.
  destruct (inv_set_buffers w s None (Some b) Hi Hc) as [Hi1 _]; [by left|by right|]. set (x1 := set_buffers _ _ _) in *.
  set (w1 := with_session _ _ _) in *. assert (Hs1 : session_of w1 s = x1) by apply session_with.
  assert (Hc1 : closeComplete (session_of w1 s) = false) by (by rewrite Hs1). apply ends_bind.
  eapply ends_mono; [by apply (checkDtxTimeout_spec w1 s b d)|]. intros w2 o [Hi2 [->|(-> & -> & He)]]; [done|]. apply ends_bind.
  eapply ends_mono; [by apply (setSuspended_spec w1 b x d true)|]. intros w3 o (-> & Hi3 & Es & Hp).
  assert (Hs3 : session_of w3 s = x1) by (unfold session_of in *; by rewrite Es).
  eapply ends_eq; [apply put_session_eq|]. apply (inv_move w3 s); rewrite ?Hs3; try done; cbn.
  - intros k c [[<- [= <-]]|[_ E]]%lookup_insert_Some; [right|by left]. split; [done|]. by eexists.
  - by intros c [?|?].
Qed.

(** [operator[]] on an xid that is not suspended *)
Lemma inv_null_entry w s xid :
  let x := session_of w s in
  inv w -> closeComplete x = false ->
  inv (with_session s (mkSession (dtxSelected x) (txBuffer x) None (<[xid := None]> (suspendedXids x)) (closeComplete x)) w).
Proof.
  intros x Hi Hc. apply (inv_move w s); cbn; try done.
  - intros c E. left. by left.
  - by intros k c [[_ ?]|[_ ?]]%lookup_insert_Some; [|left].
  - intros c [E|E] [k E']; cbn in E, E'; [|done]. apply lookup_insert_Some in E' as [[_ ?]|[_ E']]; [done|].
    destruct (session_parts w s c Hi Hc) as (_ & _ & H3). apply H3; [by left|by exists k].
Qed.

Lemma resumeDtx_spec w s xid :
  inv w -> closeComplete (session_of w s) = false -> ends (resumeDtx s xid) w (fun w' _ => inv w').
Proof.
  intros Hi Hc. unfold resumeDtx. ecall session_eq. apply ends_bind, ends_guard; intros _; [done|].
  assert (Hcur : forall c, current (session_of w s) c -> ~ parked (session_of w s) c) by (intros c; by apply session_parts).
  destruct (suspendedXids (session_of w s) !! xid) as [[b|]|] eqn:Ep; cbn [default from_option id].
  2, 3: ecall put_session_eq; estep; by apply inv_null_entry.
  destruct (session_parked w s xid b Hi Ep) as (d & Hd & Exid). ecall put_session_eq.
  set (x1 := mkSession _ _ _ _ _). set (w1 := with_session _ _ _). assert (Hs1 : session_of w1 s = x1) by apply session_with.
  assert (Hi1 : inv w1).
  { apply (inv_move w s); cbn; try done.
    - intros c E. left. by left.
    - intros c [= <-]. right. by exists xid.
    - intros k c [_ E]%lookup_delete_Some. by left.
    - intros c Hc' [k E]. cbn in E. apply lookup_delete_Some in E as [Hk E]. destruct Hc' as [E'|E']; cbn in E'.
      + apply (Hcur c); [by left|by exists k].
      + injection E' as <-. destruct (session_parked w s k b Hi E) as (d' & Hd' & <-). congruence. }
  ecall dtx_part_eq. apply ends_bind, ends_guard; intros _; [done|]. apply ends_bind, ends_guard; intros _; [done|].
  apply ends_bind. eapply ends_mono; [apply (checkDtxTimeout_spec w1 s b d Hi1); [by rewrite Hs1|done]|].
  intros w2 o [Hi2 [->|(-> & -> & He)]]; [done|]. apply ends_bind. pose proof Hd as (x & Hx & Hdx)%bind_Some.
  eapply ends_mono; [by apply (setSuspended_spec w1 b x d false)|]. intros w3 o (-> & Hi3 & Es & Hp).
  assert (Hs3 : session_of w3 s = x1) by (unfold session_of in *; by rewrite Es).
  ecall session_eq. eapply ends_eq; [apply put_session_eq|]. rewrite Hs3. apply (inv_move w3 s); rewrite ?Hs3; try done; cbn.
  - intros c [= <-]. left. by right.
  - by left.
  - by left.
  - intros c Hc'. destruct (session_parts w3 s c Hi3) as (_ & _ & H3); [by rewrite Hs3|]. rewrite Hs3 in H3. apply H3.
    destruct Hc' as [[= <-]|[= <-]]; by right.
Qed.

(** *** A session closes *)

Definition shut (x : Session) : Session := mkSession (dtxSelected x) (txBuffer x) (dtxBuffer x) (suspendedXids x) true.

Lemma inv_shut w s x' :
  inv w -> closeComplete x' = true -> suspendedXids x' = suspendedXids (session_of w s) ->
  inv (with_session s x' w) /\ forall b, referred (sessions (with_session s x' w)) b -> referred (sessions w) b.
Proof.
  intros Hi Hc Es. split.
  - apply (inv_session _ _ _ _ _ _ Hi); [congruence|]. intros xid b. rewrite Es. by apply session_parked.
  - intros b (s' & y & Hy & Hcy & Hr). cbn in Hy. apply lookup_insert_Some in Hy as [[<- <-]|[Hne Hy]]; [congruence|by exists s', y].
Qed.

Lemma shut_tx_spec w s x' :
  inv w -> closeComplete (session_of w s) = false -> closeComplete x' = true -> suspendedXids x' = suspendedXids (session_of w s) ->
  ends (put_session s x' ;; match txBuffer (session_of w s) with Some b => tx_rollback b | None => mret tt end) w (fun w' _ => inv w').
Proof.
  intros Hi Hc Hc' Es. destruct (inv_shut w s x' Hi Hc' Es) as [Hi' Hss]. ecall put_session_eq.
  destruct (txBuffer (session_of w s)) as [b|] eqn:Eb; [|by estep].
  destruct (session_parts w s b Hi Hc) as (H1 & _ & _). destruct (H1 Eb) as [x Hx].
  assert (Hcur : current (session_of w s) b) by (by left). rewrite tx_rollback_settle.
  destruct (settle_spec ObsRollback OpRollback b x (with_session s x' w) Hx) as (es & E & Hes). eapply ends_eq; [exact E|].
  eapply (leave_spec w s b x); try done.
  - eapply dropped; [done|done|done|]. congruence.
  - cbn. by destruct (dtx x).
  - by right.
  - intros e. by eapply settles_rollback.
  - intros _ _ _. destruct (flag_at ended x) eqn:Ee; [right; left|by right; right].
    assert (Hf : forall f, flag f (heap w) b = flag_at f x) by (intros f; unfold flag, part_of; by rewrite Hx).
    change (flag_at b_expired x = true). rewrite <- Hf. apply (i_ended _ _ _ _ _ _ Hi); [|by rewrite Hf].
    exists s. apply session_refers; auto.
Qed.

Lemma closed_spec w s : inv w -> ends (closed s) w (fun w' _ => inv w').
Proof.
  intros Hi. unfold closed. ecall session_eq. destruct (closeComplete (session_of w s)) eqn:Hc; [by estep|].
  fold (shut (session_of w s)). set (x := session_of w s) in *.
  destruct (dtxBuffer x) as [b|] eqn:Eb; [|apply ends_bind; estep; by apply shut_tx_spec].
  destruct (dtx_buffer w s b Hi Hc Eb) as (y & d & Hy & Hdy & Hd & Hcur).
  destruct (fail_eq b y d w Hy Hdy) as (es & E & Hes). ecall E. set (y1 := mkBuffer [] _ _ _).
  set (tA := if decide (txBuffer x = Some b) then None else txBuffer x).
  destruct (inv_set_buffers w s tA None Hi Hc) as [HiA HssA]; [unfold tA; case_decide; auto|by left|]. fold x in HiA, HssA.
  set (wA := logged es (set_heap (<[b := y1]> (heap w)) (with_session s (set_buffers tA None x) w))).
  assert (HA : inv wA).
  { eapply (leave_spec w s b y); try done.
    - eapply dropped; [done|done|done|]. intros _. split; [|intros k Ek; by exists k].
      intros [H|H]; cbn in H; [|done]. unfold tA in H. case_decide; congruence.
    - rewrite Hdy. cbn. auto.
    - by right.
    - unfold flag_at. by rewrite Hdy.
    - intros e. by eapply settles_rollback.
    - intros _ _ _. by left. }
  assert (HsA : session_of wA s = set_buffers tA None x) by apply (session_with s _ w).
  assert (Hput : with_session s (shut x) (logged es (set_heap (<[b := y1]> (heap w)) w)) = with_session s (shut x) wA).
  { unfold wA, with_session, logged, set_heap, set_sessions. cbn. by rewrite insert_insert_eq. }
  destruct (inv_shut wA s (shut x) HA) as [Hi2 _]; [done|by rewrite HsA|].
  unfold tA in *. destruct (decide (txBuffer x = Some b)) as [Et|Et].
  - rewrite Et. ecall put_session_eq. rewrite Hput, tx_rollback_settle. set (w2 := with_session s (shut x) wA) in *.
    assert (Hx2 : heap w2 !! b = Some y1) by apply lookup_insert_eq.
    destruct (settle_spec ObsRollback OpRollback b y1 w2 Hx2) as (es2 & E2 & Hes2). eapply ends_eq; [exact E2|].
    assert (Hsame : set_heap (<[b := clear y1]> (heap w2)) w2 = w2).
    { unfold set_heap. rewrite insert_id by done. by destruct w2. }
    rewrite Hsame. apply inv_logged; [done|]. apply Forall_forall. intros e He.
    apply Hes2 in He as [(c & _ & ->)|(c & o & ->%list_elem_of_singleton & Ho & _)]; [done|].
    unfold ops_of in Ho. rewrite Hx2 in Ho. by apply elem_of_nil in Ho.
  - pose proof (shut_tx_spec wA s (shut x) HA) as Hshut. rewrite HsA in Hshut. specialize (Hshut Hc eq_refl eq_refl).
    unfold ends in *. rewrite !(bind_Ret _ _ _ _ _ (put_session_eq _ _ _)) in *. rewrite Hput. exact Hshut.
Qed.

(** *** Recovery *)

(** the branch of a recovered buffer: prepared, without an outcome *)
Record recovering (w : World) (b : nat) : Prop := mkRecovering {
  rc_inv : inv w;
  rc_part : is_Some (part_of (heap w) b);
  rc_quiet : quiet (log w) b
}.

Lemma quiet_neutral lg es b : Forall neutral es -> quiet lg b -> quiet (es ++ lg) b.
Proof.
  intros Hn Hq k c H%joined_neutral H'%joined_neutral; [|done..]. rewrite undone_neutral, committed_neutral by done. eauto.
Qed.

Lemma enlist_recovered w b o :
  recovering w b -> ends (emit (Recovered b o) ;; enlist b o) w (fun w' r => r = Ret tt /\ recovering w' b).
Proof.
  intros [Hi [d Hd] Hq]. pose proof Hd as (x & Hx & Hdx)%bind_Some. ecall emit_logged. eapply ends_eq; [by apply enlist_eq|]. split; [done|].
  set (w1 := logged [OpEnlist b o] (logged [Recovered b o] w)).
  assert (Hi1 : inv w1) by (apply inv_logged; [apply inv_logged; [done|]|]; by repeat constructor).
  assert (Hq1 : quiet (log w1) b) by (apply (quiet_neutral _ [OpEnlist b o; Recovered b o]); [by repeat constructor|done]).
  split; [|cbn; rewrite part_of_insert, decide_True by done; by eexists|done].
  apply (inv_update _ _ _ _ _ _ Hi1 b x); try done; [apply same_part_refl| |].
  - right. exists o. split; [done|]. right. split; [done|]. right. apply list_elem_of_further. by left.
  - intros Hcs. destruct (i_local _ _ _ _ _ _ Hi1 b Hcs) as (y & Hy & Hl & _). cbn in Hy. congruence.
Qed.

Lemma recover_spec w xid t b d x :
  inv w -> newborn w b -> heap w !! b = Some x -> dtx x = Some d -> ops x = [] -> failed d = false ->
  ~ referred (sessions w) b ->
  ends (recover env xid t b) w (fun w' o => inv w' /\ (o = Ret tt -> recovering w' b)).
Proof.
  intros Hi Hnb Hx Hd Ho Hfd Hr. unfold recover. apply ends_bind. eapply ends_mono; [by apply createWork_spec|].
  intros w1 o (Hi1 & Eh & Es & El & Hrec). destruct o as [[]|e]; [|done]. destruct (Hrec eq_refl) as (r & Hr1 & Hc & He & Hrb & Hw).
  assert (Hnb1 : newborn w1 b) by (unfold newborn in *; by rewrite Eh, El). unfold record_recover. apply ends_bind.
  eapply ends_mono; [by apply (branch_add_spec w1 xid b)|]. intros w2 o (Hi2 & Eh2 & Es2 & Hadd). destruct o as [[]|e]; [|done].
  destruct (Hadd eq_refl) as (r' & Hr' & El2 & Eb2). assert (r' = r) as -> by congruence. clear Hadd Hr' Hrec.
  set (r2 := mkRecord _ _ _ _ _ _ _ _) in Eb2. assert (Hr2 : branches w2 !! xid = Some r2) by (rewrite Eb2; apply lookup_insert_eq).
  ecall getWork_eq. ecall put_record_eq. set (w3 := with_record _ _ _). assert (Hi3 : inv w3) by (by apply inv_with_txn).
  assert (Hx3 : heap w3 !! b = Some x) by (unfold w3; cbn; by rewrite Eh2, Eh).
  assert (Hq3 : quiet (log w3) b).
  { destruct Hnb1 as (_ & Hnj & Hnc & Hnu). intros k c. unfold w3. cbn. rewrite El2. unfold undone, committed.
    setoid_rewrite elem_of_cons. intros Hk Hkc. assert (k = r_branch r) as -> by (destruct Hk as [[= ->]|Hk]; [done|by apply Hnj in Hk]).
    assert (Hcb : c = b).
    { destruct Hkc as [[= ->]|Hkc]; [done|]. apply (i_live _ _ _ _ _ _ Hi1 xid r Hr1) in Hkc. rewrite Hw in Hkc. by apply elem_of_nil in Hkc. }
    subst c. split; intros [o [?|Hoo]]; try done; [apply Hnu|apply Hnc]; by exists o. }
  assert (Hr3 : ~ referred (sessions w3) b) by (unfold w3; cbn; by rewrite Es2, Es). apply ends_bind.
  unfold markEnded. ecall (dtx_part_eq b d w3 ltac:(unfold part_of; by rewrite Hx3)).
  eapply ends_eq; [by apply (put_dtx_eq b x)|]. cbn beta iota. set (w4 := set_heap _ w3).
  assert (Hi4 : inv w4) by (by apply (inv_end_quiet _ _ _ _ _ _ Hi3 b x d)).
  assert (Hr4 : branches w4 !! xid = Some (set_txn (Some t) r2)) by apply with_record_lookup.
  ecall getWork_eq. eapply ends_eq; [apply put_record_eq|].
  assert (Hwork : forall c, c ∈ work r ++ [b] -> c = b) by (intros c; rewrite Hw; apply list_elem_of_singleton).
  assert (Hi5 : inv (with_record xid (set_flags true (rolledback r2) true (expired r2) (set_txn (Some t) r2)) w4)).
  { apply (inv_record _ _ _ _ _ _ Hi4 xid (set_txn (Some t) r2)); try done; cbn.
    - intros _ c ->%Hwork. rewrite flag_insert. by rewrite decide_True.
    - intros [D|[D|[[_ (c & Hcw & D)]|[[D _]|(c & Hcw & D & _)]]]]; cbn in *; try congruence.
      + apply Hwork in Hcw as ->. rewrite flag_insert, decide_True in D by done. cbn in D. congruence.
      + apply Hwork in Hcw as ->. rewrite flag_insert, decide_True in D by done. done.
    - intros _. right. intros c o ->%Hwork. rewrite ops_of_insert, decide_True by done. cbn. rewrite Ho. by intros ?%elem_of_nil. }
  split; [exact Hi5|]. intros _. constructor; [exact Hi5|cbn; rewrite part_of_insert, decide_True by done; by eexists|exact Hq3].
Qed.

Lemma recoverTransaction_spec w xid l : inv w -> ends (recoverTransaction env xid l) w (fun w' _ => inv w').
Proof.
  intros Hi. unfold recoverTransaction. apply ends_new_buffer. set (b := fresh w). set (w1 := with_buffer _ w).
  assert (Hi1 : inv w1) by (by apply inv_with_buffer). apply ends_bind. red. cbn [fst snd alloc]. set (w2 := mkWorld _ _ _ _ _ _ _).
  assert (Hi2 : inv w2) by (eapply inv_alloc; [exact Hi1|cbn; lia]). destruct (fresh_events w Hi) as (Hj & Hnc & Hnu & _).
  assert (Hx2 : heap w2 !! b = Some (new_DtxBuffer [])) by apply lookup_insert_eq.
  apply ends_bind. eapply ends_mono; [eapply (recover_spec w2 xid _ b); try done|].
  - split_and!; try done. exists (mkDtx [] false false false false). split; [|done]. unfold part_of. by rewrite Hx2.
  - exact (fresh_unreferred w Hi).
  - intros w3 o [Hi3 Hrc]. destruct o as [[]|e]; [|done]. specialize (Hrc eq_refl).
    eapply ends_mono; [|intros w' r Hk; exact (rc_inv w' b Hk)]. clear Hi3. revert w3 Hrc. induction l as [|o l IH]; intros w3 Hrc; cbn [for_each].
    + by estep.
    + apply ends_bind. eapply ends_mono; [by apply enlist_recovered|]. intros w4 r [-> Hrc4]. by apply IH.
Qed.
End calls.
