(* ===== verification/TransactionSystem.v ===== *)
(** * Any sequence of transaction commands

    What the clients of a broker, its timer, its completing threads and its
    recovery do to the transactions, one command after another, and what holds
    of every state they reach. *)

From Stdlib Require Import ZArith Lia Ascii String.
From stdpp Require Import gmap strings.
From S2P Require Import Prelude Transactions TransactionsInv TransactionsCorrect.

Inductive Command :=
| SelectTx (s : nat)
| SelectDtx (s : nat)
| TxCommit (s o : nat)
| TxRollback (s : nat)
| Publish (s o : nat)
| Accept (s o : nat)
| Start (s : nat) (xid : str) (is_join is_resume : bool)
| End (s : nat) (xid : str) (is_fail is_suspend : bool)
| Close (s : nat)
| Prepare (xid : str)
| Commit (xid : str) (onePhase : bool)
| Rollback (xid : str)
| SetTimeout (xid : str) (secs : Z)
| Fire (t : nat)
| Complete (b : nat)
| CompleterError (b : nat) (e : str)
| Recover (xid : str) (l : list nat).

Definition some_status (m : Op XaStatus) : Op (option XaStatus) := x ← m; mret (Some x).
Definition no_status (m : Op unit) : Op (option XaStatus) := m ;; mret None.

Definition run_command (env : Environment) (c : Command) : Op (option XaStatus) :=
  match c with
  | SelectTx s => no_status (startTx s)
  | SelectDtx s => no_status (selectDtx s)
  | TxCommit s o => no_status (session_commit env s o)
  | TxRollback s => no_status (session_rollback s)
  | Publish s o => no_status (publish s o)
  | Accept s o => no_status (accepted s o)
  | Start s xid j r => some_status (dtx_start env s xid j r)
  | End s xid f sp => some_status (dtx_end s xid f sp)
  | Close s => no_status (closed s)
  | Prepare xid => some_status (dtx_prepare env xid)
  | Commit xid one => some_status (dtx_commit env xid one)
  | Rollback xid => some_status (dtx_rollback env xid)
  | SetTimeout xid secs => no_status (dtx_setTimeout env xid secs)
  | Fire t => no_status (fire env t)
  | Complete b => no_status (complete env b)
  | CompleterError b e => no_status (completer_error b e)
  | Recover xid l => no_status (recoverTransaction env xid l)
  end.

(** a closed session gets no commands, and a session does not commit or roll
    back, as a transaction of its own, its part of a distributed one *)
Definition session_in (c : Command) : option nat :=
  match c with
  | SelectTx s | SelectDtx s | TxCommit s _ | TxRollback s | Publish s _ | Accept s _ | Start s _ _ _ | End s _ _ _ => Some s
  | _ => None
  end.

Definition allowed (w : World) (c : Command) : Prop :=
  (forall s, session_in c = Some s -> closeComplete (session_of w s) = false) /\
  match c with
  | TxCommit s _ | TxRollback s => local w s
  | CompleterError _ e => e <> []
  | _ => True
  end.

Inductive reach (env : Environment) : World -> Prop :=
| reach_new : reach env new_World
| reach_step w c : reach env w -> allowed w c -> reach env (run_command env c w).1.

(** commands one after another, and what each answered *)
Fixpoint run_all (env : Environment) (cs : list Command) (w : World) : World * list (outcome (option XaStatus)) :=
  match cs with
  | [] => (w, [])
  | c :: cs => let '(w', a) := run_command env c w in let '(w'', l) := run_all env cs w' in (w'', a :: l)
  end.

(** the executable form of [allowed] *)
Definition allowedb (w : World) (c : Command) : bool :=
  match session_in c with Some s => negb (closeComplete (session_of w s)) | None => true end &&
  match c with
  | TxCommit s _ | TxRollback s =>
      match txBuffer (session_of w s) with Some b => bool_decide (part_of (heap w) b = None) | None => true end
  | CompleterError _ e => negb (bool_decide (e = []))
  | _ => true
  end.

Fixpoint all_allowed (env : Environment) (cs : list Command) (w : World) : bool :=
  match cs with [] => true | c :: cs => allowedb w c && all_allowed env cs (run_command env c w).1 end.

Lemma allowedb_spec w c : allowedb w c = true -> allowed w c.
Proof.
  unfold allowedb. intros [Hs Hc]%andb_prop. split.
  - intros s Es. rewrite Es in Hs. by destruct (closeComplete (session_of w s)).
  - destruct c; try done.
    + intros b Eb. rewrite Eb in Hc. by apply bool_decide_eq_true in Hc.
    + intros b Eb. rewrite Eb in Hc. by apply bool_decide_eq_true in Hc.
    + intros ->. done.
Qed.

Lemma reach_all env cs w : reach env w -> all_allowed env cs w = true -> reach env (run_all env cs w).1.
Proof.
  revert w. induction cs as [|c cs IH]; intros w Hw; cbn [all_allowed run_all]; [done|]. intros [Hc Hcs]%andb_prop.
  specialize (IH _ (reach_step env w c Hw (allowedb_spec w c Hc)) Hcs).
  destruct (run_command env c w) as [w' a]. cbn in IH. by destruct (run_all env cs w').
Qed.

(** ** The invariant *)

Section system.
Context (env : Environment).

Lemma ends_some m w : ends m w (fun w' _ => inv w') -> ends (some_status m) w (fun w' _ => inv w').
Proof. intros H. apply ends_bind. eapply ends_mono; [exact H|]. intros w' [a|e] Hi; [by estep|done]. Qed.

Lemma ends_none m w : ends m w (fun w' _ => inv w') -> ends (no_status m) w (fun w' _ => inv w').
Proof. intros H. apply ends_bind. eapply ends_mono; [exact H|]. intros w' [a|e] Hi; [by estep|done]. Qed.

Lemma xa_result_inv m w : ends m w (fun w' _ => inv w') -> ends (xa_result m) w (fun w' _ => inv w').
Proof. unfold ends, xa_result. destruct (m w) as [w' [a|e]]; [done|]. by destruct e. Qed.

Lemma then_inv {A B} (m : Op A) (f : A -> Op B) w :
  ends m w (fun w' _ => inv w') -> (forall a w', (f a w').1 = w') -> ends (m ≫= f) w (fun w' _ => inv w').
Proof. intros H Hf. apply ends_bind. eapply ends_mono; [exact H|]. intros w' [a|e] Hi; [|done]. red. by rewrite Hf. Qed.

Lemma command_inv w c : inv w -> allowed w c -> inv (run_command env c w).1.
Proof.
  intros Hi [Hs Ha]. change (ends (run_command env c) w (fun w' _ => inv w')).
  destruct c; cbn [run_command] in *; try (specialize (Hs _ eq_refl));
    first [apply ends_some|apply ends_none].
  - eapply ends_mono; [by apply startTx_spec|]. by intros ? ? [_ ?].
  - by apply selectDtx_spec.
  - by apply session_commit_spec.
  - by apply session_rollback_spec.
  - by apply tx_publish_spec.
  - by apply accepted_spec.
  - unfold dtx_start. destruct (is_join && is_resume); [by estep|]. apply xa_result_inv, then_inv; [|done].
    destruct is_resume; [by apply resumeDtx_spec|by apply startDtx_spec].
  - unfold dtx_end. apply xa_result_inv. destruct is_fail; [|destruct is_suspend]; apply then_inv;
      [by apply endDtx_spec|by destruct is_suspend|by apply suspendDtx_spec|done|by apply endDtx_spec|done].
  - by apply closed_spec.
  - apply xa_result_inv, then_inv; [by apply prepare_spec|done].
  - apply xa_result_inv, then_inv; [|done]. eapply ends_mono; [by apply commit_spec|]. by intros ? ? [? _].
  - apply xa_result_inv, then_inv; [|done]. eapply ends_mono; [by apply rollback_spec|]. by intros ? ? [? _].
  - unfold dtx_setTimeout. apply ends_bind, ends_guard; intros _; [done|].
    eapply ends_mono; [by apply setTimeout_spec|]. by intros ? ? [? _].
  - by apply fire_spec.
  - by apply complete_spec.
  - by apply completer_error_spec.
  - by apply recoverTransaction_spec.
Qed.

Lemma reach_inv w : reach env w -> inv w.
Proof. induction 1; [apply inv_new|by apply command_inv]. Qed.
End system.

(** ** What every command keeps

    A property of the state that the calls of an operation keep is kept by every
    command, whatever its outcome. *)

Definition plain (e : Event) : Prop := match e with OpEnlist _ _ | OpCommit _ _ | OpRollback _ _ => False | _ => True end.

Class Stable (I : World -> Prop) := {
  st_emit w e : plain e -> I w -> I (logged [e] w);
  st_enlist w b o : I w -> I (enlist b o w).1;
  st_commit w b : I w -> I (tx_commit b w).1;
  st_rollback w b : I w -> I (tx_rollback b w).1;
  st_heap w b x x' : heap w !! b = Some x -> ops x' = ops x -> I w -> I (set_heap (<[b := x']> (heap w)) w);
  st_new w y : ops y = [] -> I w -> I (with_buffer y w);
  st_alloc w : I w -> I (alloc w).1;
  st_branches w x : I w -> I (set_branches x w);
  st_timers w x : I w -> I (set_timers x w);
  st_sessions w x : I w -> I (set_sessions x w);
  st_completions w x : I w -> I (set_completions x w)
}.

Section stable.
Context (env : Environment) (I : World -> Prop) `{!Stable I}.

Definition keeps {A} (m : Op A) : Prop := forall w, I w -> I (m w).1.

Lemma keeps_bind {A B} (m : Op A) (f : A -> Op B) : keeps m -> (forall a, keeps (f a)) -> keeps (m ≫= f).
Proof. intros Hm Hf w Hw. specialize (Hm w Hw). unfold mbind, M_bind. destruct (m w) as [w' [a|e]]; [by apply Hf|done]. Qed.

Lemma keeps_pure {A} (m : Op A) : (forall w, (m w).1 = w) -> keeps m.
Proof. intros H w Hw. by rewrite H. Qed.

Lemma keeps_if {A} (b : bool) (m m' : Op A) : keeps m -> keeps m' -> keeps (if b then m else m').
Proof. by destruct b. Qed.

Lemma keeps_for_each {A} (f : A -> Op unit) l : (forall a, keeps (f a)) -> keeps (for_each f l).
Proof. intros Hf. induction l as [|a l IH]; cbn [for_each]; [by apply keeps_pure|]. by apply keeps_bind. Qed.

Lemma keeps_buffer b : keeps (buffer b).
Proof. apply keeps_pure. intros w. unfold buffer, mbind, M_bind, get. by destruct (heap w !! b). Qed.

Lemma keeps_dtx_part b : keeps (dtx_part b).
Proof. apply keeps_bind; [apply keeps_buffer|]. intros x. apply keeps_pure. intros w. by destruct (dtx x). Qed.

(** a buffer read and written, with its operations *)
Lemma keeps_update b (f : TxBuffer -> TxBuffer) :
  (forall x, ops (f x) = ops x) -> keeps (x ← buffer b; put_buffer b (f x)).
Proof.
  intros Hf w Hw. unfold buffer, mbind, M_bind, get. destruct (heap w !! b) as [x|] eqn:E; [|done]. cbn.
  by eapply st_heap.
Qed.

Lemma keeps_put_dtx b d : keeps (put_dtx b d).
Proof. by apply (keeps_update b (fun x => mkBuffer (ops x) (error x) (txContext x) (Some d))). Qed.

Lemma keeps_getWork xid : keeps (getWork xid).
Proof. apply keeps_pure. intros w. unfold getWork, mbind, M_bind, get. by destruct (branches w !! xid). Qed.

Lemma keeps_emit e : plain e -> keeps (emit e).
Proof. intros He w. by apply st_emit. Qed.

Lemma keeps_store_call e : plain e -> keeps (store_call env e).
Proof. intros He w Hw. unfold store_call, mbind, M_bind, get. destruct (store_throws env (log w) e); [done|]. by apply st_emit. Qed.

Lemma keeps_on_timeout {A} h (m : Op A) : keeps h -> keeps m -> keeps (on_timeout h m).
Proof.
  intros Hh Hm w Hw. unfold on_timeout. specialize (Hm w Hw). destruct (m w) as [w' [a|e]]; [done|]. destruct e; try done.
  apply keeps_bind; [done| |done]. intros []. by apply keeps_pure.
Qed.

Lemma keeps_finally {A} h (m : Op A) : keeps h -> keeps m -> keeps (finally h m).
Proof.
  intros Hh Hm w Hw. unfold finally. specialize (Hm w Hw). destruct (m w) as [w' r]. cbn in Hm. specialize (Hh w' Hm).
  by destruct (h w') as [w'' [a|e]].
Qed.

Lemma keeps_xa (m : Op XaStatus) : keeps m -> keeps (xa_result m).
Proof. intros Hm w Hw. unfold xa_result. specialize (Hm w Hw). destruct (m w) as [w' [a|e]]; [done|]. by destruct e. Qed.

Lemma keeps_new_buffer {A} y (k : nat -> Op A) : ops y = [] -> (forall b, keeps (k b)) -> keeps (b ← alloc; put_buffer b y ;; k b).
Proof. intros Hy Hk w Hw. apply (Hk (fresh w) (with_buffer y w)). by apply st_new. Qed.

Lemma keeps_put_record xid r : keeps (put_record xid r).
Proof. intros w. apply st_branches. Qed.
Lemma keeps_put_session s x : keeps (put_session s x).
Proof. intros w. apply st_sessions. Qed.
Lemma keeps_commit b : keeps (tx_commit b).
Proof. intros w. apply st_commit. Qed.
Lemma keeps_rollback b : keeps (tx_rollback b).
Proof. intros w. apply st_rollback. Qed.
Lemma keeps_enlist b o : keeps (enlist b o).
Proof. intros w. apply st_enlist. Qed.
Lemma keeps_alloc : keeps alloc.
Proof. intros w. apply st_alloc. Qed.
Lemma keeps_timers f : keeps (modify (fun w => set_timers (f w) w)).
Proof. intros w. apply st_timers. Qed.
Lemma keeps_branches f : keeps (modify (fun w => set_branches (f w) w)).
Proof. intros w. apply st_branches. Qed.
Lemma keeps_completions f : keeps (modify (fun w => set_completions (f w) w)).
Proof. intros w. apply st_completions. Qed.
Lemma keeps_ret {A} (a : A) : keeps (mret a).
Proof. by apply keeps_pure. Qed.
Lemma keeps_throw {A} e : keeps (throw e : Op A).
Proof. by apply keeps_pure. Qed.
Lemma keeps_get : keeps get.
Proof. by apply keeps_pure. Qed.
Lemma keeps_guard b e : keeps (guard_throw b e).
Proof. apply keeps_pure. intros w. by destruct b. Qed.
Lemma keeps_session s : keeps (session s).
Proof. by apply keeps_pure. Qed.
End stable.

Create HintDb keeps.
#[export] Hint Resolve keeps_buffer keeps_dtx_part keeps_put_dtx keeps_getWork keeps_put_record keeps_put_session
  keeps_commit keeps_rollback keeps_enlist keeps_alloc keeps_timers keeps_branches keeps_completions keeps_ret
  keeps_throw keeps_get keeps_guard keeps_session : keeps.

(** walks through the code of an operation *)
Ltac keep := repeat (intros; first
  [ solve [eauto with keeps nocore]
  | lazymatch goal with
    | |- keeps _ (store_call _ _) => by apply keeps_store_call
    | |- keeps _ (emit _) => by apply keeps_emit
    | |- keeps _ (alloc ≫= fun b => put_buffer b _ ≫= _) => apply keeps_new_buffer; [done|done|]
    | |- keeps _ (buffer ?b ≫= fun x => put_buffer ?b (@?f x)) => by apply (keeps_update _ b f)
    | |- keeps _ (_ ≫= _) => apply keeps_bind
    | |- keeps _ (for_each _ _) => apply keeps_for_each
    | |- keeps _ (on_timeout _ _) => apply keeps_on_timeout
    | |- keeps _ (finally _ _) => apply keeps_finally
    | |- keeps _ (xa_result _) => apply keeps_xa
    | |- keeps _ (match ?x with _ => _ end) => destruct x
    end ]).

Section kept.
Context (env : Environment) (I : World -> Prop) `{!Stable I}.

Lemma keeps_tx_prepare b : keeps I (tx_prepare env b).
Proof.
  assert (Hops : forall l, keeps I (prepare_ops env b l)) by (intros l; induction l; cbn [prepare_ops]; keep).
  unfold tx_prepare. keep.
Qed.

Hint Resolve keeps_tx_prepare : keeps.

Lemma keeps_prepare_work l : keeps I (prepare_work env l).
Proof. induction l as [|b l IH]; cbn [prepare_work]; keep. Qed.

Lemma keeps_store_begin x : keeps I (store_begin env x).
Proof. unfold store_begin. keep. Qed.

Lemma keeps_fail b : keeps I (fail b).
Proof. unfold fail. keep. Qed.
Hint Resolve keeps_prepare_work keeps_store_begin keeps_fail : keeps.

Lemma keeps_check xid : keeps I (check xid).
Proof.
  assert (Hl : forall l, keeps I (check_ended xid l)) by (intros l; induction l; cbn [check_ended]; keep).
  unfold check. keep.
Qed.

Lemma keeps_abort xid : keeps I (abort env xid).
Proof. unfold abort. keep. Qed.

Lemma keeps_cancel t : keeps I (cancel t).
Proof. unfold cancel. keep. Qed.
Hint Resolve keeps_check keeps_abort keeps_cancel : keeps.

Lemma keeps_remove xid : keeps I (remove xid).
Proof. unfold remove. keep. Qed.

Lemma keeps_setTimeout xid secs : keeps I (setTimeout xid secs).
Proof. unfold setTimeout. keep. Qed.

Lemma keeps_add xid b : keeps I (add xid b).
Proof. unfold add. keep. Qed.

Lemma keeps_markEnded b : keeps I (markEnded b).
Proof. unfold markEnded. keep. Qed.
Hint Resolve keeps_remove keeps_setTimeout keeps_add keeps_markEnded : keeps.

Lemma keeps_createWork xid : keeps I (createWork env xid).
Proof. unfold createWork. keep. Qed.

Lemma keeps_startTx s : keeps I (startTx s).
Proof. unfold startTx. keep. Qed.

Lemma keeps_checkDtxTimeout s b : keeps I (checkDtxTimeout s b).
Proof. unfold checkDtxTimeout. keep. Qed.

Lemma keeps_setSuspended b v : keeps I (setSuspended b v).
Proof. unfold setSuspended. keep. Qed.

Lemma keeps_setError b e : keeps I (setError b e).
Proof. unfold setError. keep. Qed.
Hint Resolve keeps_createWork keeps_startTx keeps_checkDtxTimeout keeps_setSuspended keeps_setError : keeps.

Lemma keeps_startCommit b : keeps I (startCommit env b).
Proof.
  unfold startCommit. apply keeps_bind; [keep|]. intros t.
  assert (Hm : forall (k : Op unit), keeps I k -> keeps I (x ← buffer b; put_buffer b (mkBuffer (ops x) (error x) (Some t) (dtx x)) ;; k)).
  { intros k Hk w Hw. unfold buffer, mbind, M_bind, get. destruct (heap w !! b) as [x|] eqn:E; [|done]. cbn. apply Hk.
    by eapply st_heap. }
  apply Hm. keep.
Qed.

Lemma keeps_timedout xid : keeps I (timedout env xid).
Proof. unfold timedout, record_timedout, timeout_buffer, buffer_timedout. keep. Qed.
Hint Resolve keeps_startCommit keeps_timedout : keeps.

Lemma keeps_commit_call xid one : keeps I (commit env xid one).
Proof. unfold commit, record_commit. keep. Qed.

Lemma keeps_rollback_call xid : keeps I (rollback env xid).
Proof. unfold rollback, record_rollback. keep. Qed.
Hint Resolve keeps_commit_call keeps_rollback_call : keeps.

Lemma keeps_command c : keeps I (run_command env c).
Proof.
  destruct c; cbn [run_command]; unfold some_status, no_status.
  - keep.
  - unfold selectDtx. keep.
  - unfold session_commit. keep.
  - unfold session_rollback. keep.
  - unfold publish. keep.
  - unfold accepted. keep.
  - unfold dtx_start, resumeDtx, startDtx, join, start. keep.
  - unfold dtx_end, endDtx, suspendDtx. keep.
  - unfold closed. keep.
  - unfold dtx_prepare, prepare, record_prepare. keep.
  - unfold dtx_commit. keep.
  - unfold dtx_rollback. keep.
  - unfold dtx_setTimeout. keep.
  - unfold fire. keep.
  - unfold complete, endCommit. keep.
  - unfold completer_error. keep.
  - unfold recoverTransaction, recover, record_recover. keep.
Qed.

Lemma reach_keeps w : I new_World -> reach env w -> I w.
Proof. intros Hn. induction 1; [done|by apply keeps_command]. Qed.
End kept.

(** ** Every operation is decided once *)

(** the operations put into the buffer, and those committed or rolled back *)
Definition enlisted (b : nat) : list Event -> list nat :=
  omap (fun e => match e with OpEnlist b' o => if decide (b' = b) then Some o else None | _ => None end).
Definition decided (b : nat) : list Event -> list nat :=
  omap (fun e => match e with OpCommit b' o | OpRollback b' o => if decide (b' = b) then Some o else None | _ => None end).

Definition accounted (w : World) : Prop :=
  (forall b, (fresh w <= b)%nat -> heap w !! b = None) /\
  forall b, decided b (log w) ++ ops_of (heap w) b ≡ₚ enlisted b (log w).

Lemma settle_missing obs final b w : heap w !! b = None -> settle obs final b w = (w, Throw UndefinedBehaviour).
Proof. intros H. unfold settle, buffer, mbind, M_bind, get. by rewrite H. Qed.

(** the exact events of an outcome *)
Lemma settle_log obs final b x w :
  heap w !! b = Some x ->
  settle obs final b w = (logged (reverse (final b <$> ops x) ++ [obs b]) (set_heap (<[b := clear x]> (heap w)) w), Ret tt).
Proof.
  intros Hx. unfold settle. rewrite (bind_Ret _ _ _ _ _ (buffer_eq b x w Hx)), (bind_Ret _ _ _ _ _ (emit_logged _ w)).
  assert (Hl : forall l w, for_each (fun o => emit (final b o)) l w = (logged (reverse (final b <$> l)) w, Ret tt)).
  { intros l. induction l as [|o l IH]; intros w'; cbn [for_each]; [by destruct w'|].
    rewrite (bind_Ret _ _ _ _ _ (emit_logged _ w')), IH, logged_logged. cbn [fmap list_fmap]. by rewrite reverse_cons. }
  rewrite (bind_Ret _ _ _ _ _ (Hl _ _)), logged_logged. unfold clear_ops.
  by rewrite (bind_Ret _ _ _ _ _ (buffer_eq b x (logged (reverse (final b <$> ops x) ++ [obs b]) w) Hx)).
Qed.

Lemma decided_app b es lg : decided b (es ++ lg) = decided b es ++ decided b lg.
Proof. apply omap_app. Qed.
Lemma enlisted_app b es lg : enlisted b (es ++ lg) = enlisted b es ++ enlisted b lg.
Proof. apply omap_app. Qed.

Lemma decided_final (final : nat -> nat -> Event) b c l :
  final = OpCommit \/ final = OpRollback ->
  decided c (reverse (final b <$> l)) ≡ₚ if decide (b = c) then l else [].
Proof.
  intros Hf. unfold decided. rewrite reverse_Permutation. induction l as [|o l IH]; [by case_decide|].
  cbn [fmap list_fmap omap list_omap]. destruct Hf as [->| ->]; cbn; case_decide; by rewrite IH.
Qed.

Lemma enlisted_final (final : nat -> nat -> Event) b c l :
  final = OpCommit \/ final = OpRollback -> enlisted c (reverse (final b <$> l)) = [].
Proof.
  intros Hf. apply Permutation_nil. unfold enlisted. rewrite reverse_Permutation. induction l as [|o l IH]; [done|].
  cbn [fmap list_fmap omap list_omap]. destruct Hf as [->| ->]; exact IH.
Qed.

Lemma accounted_settle obs final w b :
  final = OpCommit \/ final = OpRollback -> plain (obs b) -> accounted w -> accounted (settle obs final b w).1.
Proof.
  intros Hf Ho [Hd Hp]. destruct (heap w !! b) as [x|] eqn:Hx; [|by rewrite settle_missing].
  rewrite (settle_log _ _ _ x) by done. cbn [fst]. split.
  - intros c Hc. cbn. rewrite lookup_insert_ne; [by apply Hd|]. intros ->. rewrite Hd in Hx by done. done.
  - intros c. cbn [log heap logged set_heap]. rewrite <- app_assoc, !decided_app, !enlisted_app, (enlisted_final final) by done.
    rewrite decided_final by done. rewrite ops_of_insert.
    assert (Hobs : decided c [obs b] = [] /\ enlisted c [obs b] = []) by (by destruct (obs b)).
    destruct Hobs as [-> ->]. cbn [app]. specialize (Hp c). rewrite <- Hp.
    destruct (decide (b = c)) as [->|Hn].
    + rewrite decide_True by done. unfold ops_of. rewrite Hx. cbn. by rewrite app_nil_r, Permutation_app_comm.
    + by rewrite decide_False by done.
Qed.

#[export] Instance accounted_stable : Stable accounted.
Proof.
  constructor.
  - intros w e He [Hd Hp]. split; [done|]. intros b. specialize (Hp b). by destruct e.
  - intros w b o [Hd Hp]. destruct (heap w !! b) as [x|] eqn:Hx.
    2: { unfold enlist, buffer, mbind, M_bind, get. by rewrite Hx. }
    rewrite (enlist_eq b o x) by done. cbn [fst]. split.
    + intros c Hc. cbn. rewrite lookup_insert_ne; [by apply Hd|]. intros ->. rewrite Hd in Hx by done. done.
    + intros c. cbn [log heap logged set_heap]. rewrite decided_app, enlisted_app, ops_of_insert. cbn [decided enlisted omap list_omap app].
      specialize (Hp c). destruct (decide (c = b)) as [->|Hn].
      * rewrite decide_True by done. cbn. rewrite app_assoc. unfold ops_of in Hp. rewrite Hx in Hp. cbn in Hp.
        rewrite Hp. by rewrite Permutation_app_comm.
      * rewrite decide_False by congruence. done.
  - intros w b. rewrite tx_commit_settle. apply accounted_settle; [by left|done].
  - intros w b. rewrite tx_rollback_settle. apply accounted_settle; [by right|done].
  - intros w b x x' Hx Ho [Hd Hp]. split.
    + intros c Hc. cbn. rewrite lookup_insert_ne; [by apply Hd|]. intros ->. rewrite Hd in Hx by done. done.
    + intros c. cbn [heap set_heap log]. rewrite ops_of_insert. specialize (Hp c). case_decide; [|done]. subst c. rewrite Ho.
      unfold ops_of in Hp. by rewrite Hx in Hp.
  - intros w y Hy [Hd Hp]. split.
    + intros c Hc. cbn in *. rewrite lookup_insert_ne by lia. apply Hd. lia.
    + intros c. cbn [heap with_buffer log]. rewrite ops_of_insert. specialize (Hp c). case_decide; [|done]. subst c. rewrite Hy.
      unfold ops_of in Hp. by rewrite Hd in Hp by lia.
  - intros w [Hd Hp]. split; [|done]. intros c Hc. cbn in Hc. apply Hd. lia.
  - done.
  - done.
  - done.
  - done.
Qed.

(** the log only grows *)
#[export] Instance logged_stable e : Stable (fun w => e ∈ log w).
Proof.
  assert (Hs : forall obs final b w, e ∈ log w -> e ∈ log (settle obs final b w).1).
  { intros obs final b w He. destruct (heap w !! b) as [x|] eqn:Hx; [|by rewrite settle_missing].
    rewrite (settle_log _ _ _ x) by done. cbn. apply elem_of_app. by right. }
  constructor; try done.
  - intros w e' _ He. by apply list_elem_of_further.
  - intros w b o He. destruct (heap w !! b) as [x|] eqn:Hx; [rewrite (enlist_eq b o x) by done; by apply list_elem_of_further|].
    unfold enlist, buffer, mbind, M_bind, get. by rewrite Hx.
  - intros w b. rewrite tx_commit_settle. apply Hs.
  - intros w b. rewrite tx_rollback_settle. apply Hs.
Qed.

(** ** The theorems *)

Section theorems.
Context (env : Environment).

Lemma reach_accounted w : reach env w -> accounted w.
Proof. apply reach_keeps; [apply _|]. split; [done|]. by intros b. Qed.

(** what became of an operation *)
Lemma enlisted_fate w b o :
  reach env w -> o ∈ enlisted b (log w) -> o ∈ ops_of (heap w) b \/ OpCommit b o ∈ log w \/ OpRollback b o ∈ log w.
Proof.
  intros Hw Ho. destruct (reach_accounted w Hw) as [_ Hp]. rewrite <- (Hp b) in Ho.
  apply elem_of_app in Ho as [Ho|]; [right|by left]. unfold decided in Ho. apply list_elem_of_omap in Ho as (e & He & Heq).
  destruct e; try done; case_decide; try done; injection Heq as <-; subst; auto.
Qed.

Lemma live_uncommitted w xid r b o : reach env w -> branches w !! xid = Some r -> b ∈ work r -> OpCommit b o ∉ log w.
Proof.
  intros Hw Hr Hb Ho. pose proof (reach_inv env w Hw) as Hi. apply (i_live _ _ _ _ _ _ Hi xid r Hr) in Hb.
  destruct (i_committed _ _ _ _ _ _ Hi _ b Hb) as [Hn _]; [by exists o|]. by apply (Hn xid r).
Qed.

Lemma undid_all w w' xid r b o :
  reach env w -> branches w !! xid = Some r -> undid (work r) (heap w) w' -> (forall e, e ∈ log w -> e ∈ log w') ->
  b ∈ work r -> o ∈ enlisted b (log w) -> OpRollback b o ∈ log w'.
Proof.
  intros Hw Hr Hu Hmono Hb Ho. destruct (enlisted_fate w b o Hw Ho) as [?|[Hc|?]]; [by apply Hu| |auto].
  by destruct (live_uncommitted w xid r b o).
Qed.

(** C4: in every state that clients, timeouts, completing threads, recovery and
    failures of the store can lead to, as long as no open session sends
    [tx.commit] or [tx.rollback] while it works on a branch and a completing
    thread reports its errors with a text (the code enforces neither: see
    [dtx_misuse]), no branch of a distributed transaction has
    one operation committed and another rolled back; an operation is committed
    only after its prepare succeeded, or when it was recovered; and an operation
    is decided at most once *)
Theorem transactions_atomic w :
  reach env w ->
  (forall r b c, Joined r b ∈ log w -> Joined r c ∈ log w -> ~ (committed (log w) b /\ undone (log w) c)) /\
  (forall b o, OpCommit b o ∈ log w -> OpPrepare b o true ∈ log w \/ Recovered b o ∈ log w) /\
  (forall b, NoDup (enlisted b (log w)) -> NoDup (decided b (log w))).
Proof.
  intros Hw. pose proof (reach_inv env w Hw) as Hi. destruct (reach_accounted w Hw) as [_ Hp]. split; [|split].
  - intros r b c Hb Hc [Hco Hu]. destruct (i_committed _ _ _ _ _ _ Hi r b Hb Hco) as [_ Hall].
    by destruct (Hall c Hc) as (_ & _ & Hn).
  - apply (i_ready _ _ _ _ _ _ Hi).
  - intros b Hn. rewrite <- (Hp b) in Hn. by apply NoDup_app in Hn as [? _].
Qed.

End theorems.

(** ** Concrete runs *)

(** a decidable fact of a concrete state *)
Ltac by_decision := apply (bool_decide_unpack _); by vm_compute.

(** everything succeeds *)
Definition obliging : Environment := mkEnvironment (fun _ _ => true) (fun _ _ => true) (fun _ _ => false) 0 0.

(** the operations refuse to be prepared once [e] has happened *)
Definition refusing_after (e : Event) : Environment :=
  mkEnvironment (fun lg _ => negb (bool_decide (e ∈ lg))) (fun _ _ => true) (fun _ _ => false) 0 0.

Definition xid_a : str := s_ "a".

(** two sessions work on a branch, which is prepared *)
Definition two_phase : list Command :=
  [SelectDtx 0; SelectDtx 1; Start 0 xid_a false false; Start 1 xid_a true false; Publish 0 7; Publish 1 8; Accept 1 9;
   End 0 xid_a false false; End 1 xid_a false false; Prepare xid_a].

Lemma transactions_atomic_witness :
  let w := (run_all obliging (two_phase ++ [Commit xid_a false]) new_World).1 in
  committed (log w) 0 /\ committed (log w) 2 /\ ~ undone (log w) 2 /\ NoDup (decided 2 (log w)).
Proof.
  intros w.
  assert (Hr : reach obliging w) by (apply reach_all; [constructor|by vm_compute]).
  destruct (transactions_atomic obliging w Hr) as (Ha & _ & Hd).
  assert (Hc : committed (log w) 0) by (exists 7%nat; by_decision).
  split; [done|]. split; [exists 8%nat; by_decision|]. split.
  - intros Hu. apply (Ha 1%nat 0%nat 2%nat); [by_decision..|done].
  - apply Hd. apply (bool_decide_unpack _). by vm_compute.
Defined.


(**  what a client can do that the guards of the code do not catch.  A
    dtx.end with suspend of a session that has no branch dereferences a null pointer.  A
    branch whose prepare failed and rolled everything back answers XA_OK to a
    one-phase commit.  A second prepare that fails rolls everything back and
    answers XA_OK, and the commit that follows dereferences a null transaction.  A
    tx.commit in a session that works on a branch commits its part of the branch, of which the
    other parts are rolled back.  An operation that a session publishes after its
    branch timed out is neither committed nor rolled back, and nothing has the
    branch any more *)
Theorem dtx_misuse :
  (forall s xid, dtx_end s xid false true new_World = (new_World, Throw UndefinedBehaviour)) /\
  (exists w, run_all (refusing_after (ObsPrepare 0 true))
      [SelectDtx 0; Start 0 xid_a false false; Publish 0 7; End 0 xid_a false false; Prepare xid_a; Commit xid_a true]
      new_World =
    (w, [Ret None; Ret (Some XA_OK); Ret None; Ret (Some XA_OK); Ret (Some XA_RBROLLBACK); Ret (Some XA_OK)]) /\
    OpRollback 0 7 ∈ log w /\ OpCommit 0 7 ∉ log w) /\
  (exists w, run_all (refusing_after (StPrepare 2))
      [SelectDtx 0; Start 0 xid_a false false; Publish 0 7; End 0 xid_a false false; Prepare xid_a; Prepare xid_a;
       Commit xid_a false] new_World =
    (w, [Ret None; Ret (Some XA_OK); Ret None; Ret (Some XA_OK); Ret (Some XA_OK); Ret (Some XA_OK);
         Throw UndefinedBehaviour]) /\
    OpRollback 0 7 ∈ log w /\ OpCommit 0 7 ∉ log w) /\
  (exists w l, run_all obliging
      [SelectDtx 0; SelectDtx 1; Start 0 xid_a false false; Start 1 xid_a true false; Publish 0 7; Publish 1 8;
       TxCommit 1 9; Complete 2; End 0 xid_a true false] new_World = (w, l) /\
    Joined 1 0 ∈ log w /\ Joined 1 2 ∈ log w /\ OpCommit 2 8 ∈ log w /\ OpRollback 0 7 ∈ log w) /\
  (exists w, run_all obliging
      [SelectDtx 0; Start 0 xid_a false false; SetTimeout xid_a 5; Fire 2; Publish 0 7; End 0 xid_a false false;
       Rollback xid_a; Close 0] new_World =
    (w, [Ret None; Ret (Some XA_OK); Ret None; Ret None; Ret None; Ret (Some XA_RBTIMEOUT); Ret (Some XA_RBTIMEOUT);
         Ret None]) /\
    branches w = ∅ /\ 7%nat ∈ enlisted 0 (log w) /\ decided 0 (log w) = []).
Proof.
  split; [done|].
  split; [eexists; split; [by vm_compute|split; by_decision]|].
  split; [eexists; split; [by vm_compute|split; by_decision]|].
  split; [eexists _, _; split; [by vm_compute|repeat split; by_decision]|].
  eexists; split; [by vm_compute|]. split; [by vm_compute|]. split; [by_decision|by vm_compute].
Qed.
