(* ===== verification/Credit.v ===== *)
(** * Credit of a subscription (src/qpid/broker/Credit.cpp)

    The messages and octets a consumer may still be sent.  In credit mode what
    is sent is taken off a balance; in window mode it is counted as used until
    the client completes it.  All counters are [uint32_t]. *)

From Stdlib Require Import ZArith Lia.
From stdpp Require Import base.
From S2P Require Import Prelude.

Definition INFINITE_CREDIT : Z := 4294967295.

Record CreditBalance := mkBalance { balance : Z }.

Definition new_CreditBalance : CreditBalance := mkBalance 0.
Definition clear (b : CreditBalance) : CreditBalance := mkBalance 0.
Definition grant (value : Z) (b : CreditBalance) : CreditBalance :=
  if balance b =? INFINITE_CREDIT then b
  else if value =? INFINITE_CREDIT then mkBalance INFINITE_CREDIT
  else if value <? u32 (INFINITE_CREDIT - balance b) then mkBalance (u32 (balance b + value))
  else mkBalance (INFINITE_CREDIT - 1).
Definition allocated1 (b : CreditBalance) : Z := balance b.
Definition unlimited (b : CreditBalance) : bool := balance b =? INFINITE_CREDIT.
Definition balance_consume (value : Z) (b : CreditBalance) : CreditBalance :=
  if unlimited b then b else mkBalance (u32 (balance b - value)).
Definition balance_check (required : Z) (b : CreditBalance) : bool := required <=? balance b.

(** a [CreditWindow] is a [CreditBalance] with [used] *)
Record CreditWindow := mkWindow { base : CreditBalance; used : Z }.

Definition new_CreditWindow : CreditWindow := mkWindow new_CreditBalance 0.
Definition window_check (required : Z) (w : CreditWindow) : bool := balance_check (u32 (used w + required)) (base w).
Definition window_consume (value : Z) (w : CreditWindow) : CreditWindow :=
  if unlimited (base w) then w else mkWindow (base w) (u32 (used w + value)).
Definition window_move (value : Z) (w : CreditWindow) : CreditWindow :=
  if unlimited (base w) then w else mkWindow (base w) (u32 (used w - value)).
Definition on_base (f : CreditBalance -> CreditBalance) (w : CreditWindow) : CreditWindow := mkWindow (f (base w)) (used w).

Record CreditPair (T : Type) := mkPair { messages : T; bytes : T }.
Arguments mkPair {T} _ _.
Arguments messages {T} _.
Arguments bytes {T} _.

Record Credit := mkCredit { balances : CreditPair CreditBalance; window : CreditPair CreditWindow; windowing : bool }.

Definition new_Credit : Credit :=
  mkCredit (mkPair new_CreditBalance new_CreditBalance) (mkPair new_CreditWindow new_CreditWindow) true.
Definition setWindowMode (b : bool) (c : Credit) : Credit := mkCredit (balances c) (window c) b.

(** [messages()] and [bytes()] are the counters of the mode *)
Definition addByteCredit (value : Z) (c : Credit) : Credit :=
  let '(mkCredit (mkPair bm bb) (mkPair wm wb) w) := c in
  if w then mkCredit (mkPair bm bb) (mkPair wm (on_base (grant value) wb)) w
  else mkCredit (mkPair bm (grant value bb)) (mkPair wm wb) w.
Definition addMessageCredit (value : Z) (c : Credit) : Credit :=
  let '(mkCredit (mkPair bm bb) (mkPair wm wb) w) := c in
  if w then mkCredit (mkPair bm bb) (mkPair (on_base (grant value) wm) wb) w
  else mkCredit (mkPair (grant value bm) bb) (mkPair wm wb) w.
Definition cancel (c : Credit) : Credit :=
  let '(mkCredit (mkPair bm bb) (mkPair wm wb) w) := c in
  if w then mkCredit (mkPair bm bb) (mkPair (on_base clear wm) (on_base clear wb)) w
  else mkCredit (mkPair (clear bm) (clear bb)) (mkPair wm wb) w.
Definition moveWindow (m b : Z) (c : Credit) : Credit :=
  if windowing c
  then mkCredit (balances c) (mkPair (window_move m (messages (window c))) (window_move b (bytes (window c)))) true
  else c.
Definition consume (m b : Z) (c : Credit) : Credit :=
  let '(mkCredit (mkPair bm bb) (mkPair wm wb) w) := c in
  if w then mkCredit (mkPair bm bb) (mkPair (window_consume m wm) (window_consume b wb)) w
  else mkCredit (mkPair (balance_consume m bm) (balance_consume b bb)) (mkPair wm wb) w.
Definition check (m b : Z) (c : Credit) : bool :=
  if windowing c then window_check m (messages (window c)) && window_check b (bytes (window c))
  else balance_check m (messages (balances c)) && balance_check b (bytes (balances c)).

(** [Credit::operator bool] *)
Definition hasCredit (c : Credit) : bool := check 1 1 c.

(** ** Credit that is never unlimited *)

(** counters below this bound never wrap *)
Definition modest (z : Z) : Prop := 0 <= z < 2 ^ 31.

Lemma u32_small z : 0 <= z < 2 ^ 32 -> u32 z = z.
Proof. apply uwrap_small. Qed.

Lemma grant_exact v b : modest (balance b + v) -> 0 <= v -> 0 <= balance b -> balance (grant v b) = balance b + v.
Proof.
  unfold modest, grant, INFINITE_CREDIT. intros H Hv Hb. destruct (Z.eqb_spec (balance b) 4294967295); [lia|].
  destruct (Z.eqb_spec v 4294967295); [lia|]. rewrite (u32_small (4294967295 - balance b)) by lia.
  destruct (Z.ltb_spec v (4294967295 - balance b)); [|lia]. cbn. apply u32_small. lia.
Qed.

Lemma balance_consume_exact v b :
  modest (balance b) -> 0 <= v -> balance_check v b = true -> balance (balance_consume v b) = balance b - v.
Proof.
  unfold modest, balance_consume, balance_check, unlimited, INFINITE_CREDIT. intros H Hv Hc%Z.leb_le.
  destruct (Z.eqb_spec (balance b) 4294967295); [lia|]. cbn. apply u32_small. lia.
Qed.

Lemma window_consume_exact v w :
  modest (balance (base w)) -> modest (used w) -> modest v -> window_check v w = true ->
  window_consume v w = mkWindow (base w) (used w + v) /\ used w + v <= balance (base w).
Proof.
  unfold modest, window_consume, window_check, balance_check, unlimited, INFINITE_CREDIT. intros Hb Hu Hv Hc%Z.leb_le.
  rewrite u32_small in Hc by lia. destruct (Z.eqb_spec (balance (base w)) 4294967295); [lia|].
  rewrite u32_small by lia. done.
Qed.

(** a use past 2^32 is compared with what is left of it: the check passes
    although the message is not within the credit *)
Lemma window_check_wraps v w :
  0 <= used w < 2 ^ 32 -> 0 <= v < 2 ^ 32 -> 2 ^ 32 <= used w + v ->
  window_check v w = (used w + v - 2 ^ 32 <=? balance (base w)).
Proof.
  intros Hu Hv Hs. unfold window_check, balance_check. f_equal.
  unfold uwrap. rewrite (Z.mod_eq (used w + v) (2 ^ 32)) by lia.
  replace ((used w + v) / 2 ^ 32) with 1 by (apply (Z.div_unique _ _ _ (used w + v - 2 ^ 32)); lia). lia.
Qed.

Lemma window_move_exact v w :
  modest (balance (base w)) -> modest (used w) -> 0 <= v <= used w -> window_move v w = mkWindow (base w) (used w - v).
Proof.
  unfold modest, window_move, unlimited, INFINITE_CREDIT. intros Hb Hu Hv.
  destruct (Z.eqb_spec (balance (base w)) 4294967295); [lia|]. by rewrite u32_small by lia.
Qed.
