(* ===== verification/SemanticState.v ===== *)
(** * Subscriptions and deliveries of a session (src/qpid/broker/SemanticState.cpp,
      DeliveryRecord.cpp, TxAccept.cpp, DtxAck.cpp)

    A session's consumers, the credit they have, and the records of what was
    delivered and is not settled.  Messages are named by numbers, which stand for
    a queue and a position on it.  Of the queues the state has, for every message,
    who holds it ([Holding]); what a queue offers to a consumer, and whether its
    store throws, is decided by the [Environment] from all that happened before.
    The log has the calls of queues and the frames sent, the newest first; a call
    is logged with the holding it found.

    Transactions are here what they do to acknowledgements: the operations
    [TxAccept] and [DtxAck]; buffers and branches are in [Transactions]. *)

From Stdlib Require Import ZArith Lia Ascii String.
From stdpp Require Import gmap strings.
From S2P Require Import Prelude SequenceNumber RangeSet SequenceSet Credit.

(** who holds a message: nobody, this session, another one; or it is off its queue *)
Inductive Holding := Available | Mine | Others | Gone.

#[global] Instance Holding_eq_dec : EqDecision Holding.
Proof. solve_decision. Defined.

Inductive QueueCall := CallRelease (redelivered : bool) | CallDequeue | CallDequeueTx | CallCommitted | CallReject | CallAcquire.

#[global] Instance QueueCall_eq_dec : EqDecision QueueCall.
Proof. solve_decision. Defined.

Inductive Event :=
| Transfer (id : Z) (c : nat) (m : nat) (credit : Z) (windowing sync : bool)
| Granted (c : nat) (windowing : bool) (messages bytes : Z)
| Called (q : QueueCall) (m : nat) (found : Holding).

#[global] Instance sess_Event_eq_dec : EqDecision Event.
Proof. solve_decision. Defined.

(** a message the queue shows to the consumer's [filter] and [accept], with its
    required credit; [o_free] when its distributor lets the consumer have it *)
Record Offer := mkOffer { o_msg : nat; o_credit : Z; o_wanted : bool; o_free : bool }.

Record Environment := mkEnvironment {
  offers : list Event -> nat -> list Offer;
  (** the queue's distributor lets the session acquire the message *)
  permits : list Event -> nat -> bool;
  queue_throws : list Event -> QueueCall -> nat -> bool
}.

(** ** Data *)

Record DeliveryRecord := mkDR {
  msg : nat; tag : str; consumer : nat; id : Z;
  acquired : bool; acceptExpected : bool; cancelled : bool; completed : bool; ended : bool; windowed : bool;
  credit : Z
}.

Definition new_DeliveryRecord (m : nat) (tag : str) (c : nat) (id : Z) (acq accepted win : bool) (credit : Z) : DeliveryRecord :=
  mkDR m tag c id acq (negb accepted) false false (accepted && acq) win credit.

Record ConsumerImpl := mkConsumer {
  c_id : nat; queue : nat; ackExpected : bool; c_acquire : bool; blocked : bool; c_credit : Credit;
  notifyEnabled : bool; syncFrequency : Z; deliveryCount : Z
}.

Record Session := mkSession {
  consumers : gmap str ConsumerImpl;
  unacked : list DeliveryRecord;
  txBuffer : bool;
  dtxBuffer : option nat;
  accumulatedAck : SequenceSet.t;
  (** the [DtxAck]s of the distributed transactions that are not decided *)
  acks : gmap nat (list (list DeliveryRecord));
  closeComplete : bool;
  attached : bool;
  (** the consumers whose output task the connection has, and those their queue has *)
  outputTasks : gset nat;
  subscribed : gset nat;
  nextId : Z;
  fresh : nat;
  holds : gmap nat Holding;
  log : list Event
}.

Definition new_Session : Session := mkSession ∅ [] false None [] ∅ false true ∅ ∅ 0 0 ∅ [].

Abbreviation Op := (M Session).

Definition set_consumers x s := mkSession x (unacked s) (txBuffer s) (dtxBuffer s) (accumulatedAck s) (acks s) (closeComplete s) (attached s) (outputTasks s) (subscribed s) (nextId s) (fresh s) (holds s) (log s).
Definition set_unacked x s := mkSession (consumers s) x (txBuffer s) (dtxBuffer s) (accumulatedAck s) (acks s) (closeComplete s) (attached s) (outputTasks s) (subscribed s) (nextId s) (fresh s) (holds s) (log s).
Definition set_tx x y s := mkSession (consumers s) (unacked s) x y (accumulatedAck s) (acks s) (closeComplete s) (attached s) (outputTasks s) (subscribed s) (nextId s) (fresh s) (holds s) (log s).
Definition set_accumulated x s := mkSession (consumers s) (unacked s) (txBuffer s) (dtxBuffer s) x (acks s) (closeComplete s) (attached s) (outputTasks s) (subscribed s) (nextId s) (fresh s) (holds s) (log s).
Definition set_acks x s := mkSession (consumers s) (unacked s) (txBuffer s) (dtxBuffer s) (accumulatedAck s) x (closeComplete s) (attached s) (outputTasks s) (subscribed s) (nextId s) (fresh s) (holds s) (log s).
Definition set_closeComplete s := mkSession (consumers s) (unacked s) (txBuffer s) (dtxBuffer s) (accumulatedAck s) (acks s) true (attached s) (outputTasks s) (subscribed s) (nextId s) (fresh s) (holds s) (log s).
Definition set_attached x s := mkSession (consumers s) (unacked s) (txBuffer s) (dtxBuffer s) (accumulatedAck s) (acks s) (closeComplete s) x (outputTasks s) (subscribed s) (nextId s) (fresh s) (holds s) (log s).
Definition set_tasks x y s := mkSession (consumers s) (unacked s) (txBuffer s) (dtxBuffer s) (accumulatedAck s) (acks s) (closeComplete s) (attached s) x y (nextId s) (fresh s) (holds s) (log s).
Definition set_nextId x s := mkSession (consumers s) (unacked s) (txBuffer s) (dtxBuffer s) (accumulatedAck s) (acks s) (closeComplete s) (attached s) (outputTasks s) (subscribed s) x (fresh s) (holds s) (log s).
Definition set_holds x s := mkSession (consumers s) (unacked s) (txBuffer s) (dtxBuffer s) (accumulatedAck s) (acks s) (closeComplete s) (attached s) (outputTasks s) (subscribed s) (nextId s) (fresh s) x (log s).
Definition emit (e : Event) s := mkSession (consumers s) (unacked s) (txBuffer s) (dtxBuffer s) (accumulatedAck s) (acks s) (closeComplete s) (attached s) (outputTasks s) (subscribed s) (nextId s) (fresh s) (holds s) (e :: log s).
Definition alloc : Op nat := fun s =>
  (mkSession (consumers s) (unacked s) (txBuffer s) (dtxBuffer s) (accumulatedAck s) (acks s) (closeComplete s) (attached s) (outputTasks s) (subscribed s) (nextId s) (S (fresh s)) (holds s) (log s), Ret (fresh s)).

Definition update_consumer (t : str) (c : ConsumerImpl) : Op unit := modify (fun s => set_consumers (<[t := c]> (consumers s)) s).
Definition set_credit (x : Credit) (c : ConsumerImpl) : ConsumerImpl :=
  mkConsumer (c_id c) (queue c) (ackExpected c) (c_acquire c) (blocked c) x (notifyEnabled c) (syncFrequency c) (deliveryCount c).
Definition set_blocked (x : bool) (c : ConsumerImpl) : ConsumerImpl :=
  mkConsumer (c_id c) (queue c) (ackExpected c) (c_acquire c) x (c_credit c) (notifyEnabled c) (syncFrequency c) (deliveryCount c).
Definition set_notify (x : bool) (c : ConsumerImpl) : ConsumerImpl :=
  mkConsumer (c_id c) (queue c) (ackExpected c) (c_acquire c) (blocked c) (c_credit c) x (syncFrequency c) (deliveryCount c).
Definition set_deliveryCount (x : Z) (c : ConsumerImpl) : ConsumerImpl :=
  mkConsumer (c_id c) (queue c) (ackExpected c) (c_acquire c) (blocked c) (c_credit c) (notifyEnabled c) (syncFrequency c) x.

(** code that a [catch] or an unwinding leaves in this state *)
Definition on_throw {A} (h : Session -> Session) (m : Op A) : Op A := fun s =>
  match m s with (s', Ret a) => (s', Ret a) | (s', Throw e) => (h s', Throw e) end.

(** a handler for everything that answers false *)
Definition caught {A} (m : Op A) : Op bool := fun s =>
  match m s with (s', Ret _) => (s', Ret true) | (s', Throw _) => (s', Ret false) end.

Section session.
Context (env : Environment).

(** ** The queue, as far as a session sees it

    [Queue::release], [Queue::dequeue] without and with a transaction, [Queue::dequeueCommitted],
    [Queue::reject] and [Queue::acquire] *)

Definition holding (m : nat) (s : Session) : Holding := default Gone (holds s !! m).

Definition after_call (q : QueueCall) (h : Holding) : Holding :=
  match q, h with
  | _, Gone => Gone
  | CallRelease _, _ => Available
  | CallDequeue, _ | CallCommitted, _ | CallReject, _ => Gone
  | CallDequeueTx, h => h
  | CallAcquire, Available => Mine
  | CallAcquire, h => h
  end.

(** the calls that reach the store *)
Definition stores (q : QueueCall) : bool :=
  match q with CallDequeue | CallDequeueTx | CallReject => true | _ => false end.

Definition queue_call (q : QueueCall) (m : nat) : Op unit :=
  s ← get;
  let h := holding m s in
  modify (fun s => emit (Called q m h) (set_holds (<[m := after_call q h]> (holds s)) s)) ;;
  guard_throw (stores q && queue_throws env (log s) q m) StoreException.

(** ** [DeliveryRecord] *)

Definition isRedundant (r : DeliveryRecord) : bool := ended r && (negb (windowed r) || completed r || cancelled r).
Definition coveredBy (set : SequenceSet.t) (r : DeliveryRecord) : bool := SequenceSet.contains set (id r).

Definition set_acquired (b : bool) (r : DeliveryRecord) : DeliveryRecord :=
  mkDR (msg r) (tag r) (consumer r) (id r) b (acceptExpected r) (cancelled r) (completed r) (ended r) (windowed r) (credit r).
Definition setEnded (r : DeliveryRecord) : DeliveryRecord :=
  mkDR (msg r) (tag r) (consumer r) (id r) (acquired r) (acceptExpected r) (cancelled r) (completed r) true (windowed r) (credit r).
Definition dr_complete (r : DeliveryRecord) : DeliveryRecord :=
  mkDR (msg r) (tag r) (consumer r) (id r) (acquired r) (acceptExpected r) (cancelled r) true (ended r) (windowed r) (credit r).
Definition dr_cancel (cancelledTag : str) (r : DeliveryRecord) : DeliveryRecord :=
  if decide (tag r = cancelledTag)
  then mkDR (msg r) (tag r) (consumer r) (id r) (acquired r) (acceptExpected r) true (completed r) (ended r) (windowed r) (credit r)
  else r.

Definition live (r : DeliveryRecord) : bool := acquired r && negb (ended r).

Definition dr_requeue (r : DeliveryRecord) : Op unit :=
  if live r then queue_call (CallRelease true) (msg r) else mret tt.

Definition dr_release (setRedelivered : bool) (r : DeliveryRecord) : Op DeliveryRecord :=
  if live r then
    queue_call (CallRelease setRedelivered) (msg r) ;; mret (setEnded (set_acquired false r))
  else mret r.

Definition dr_accept (r : DeliveryRecord) : Op DeliveryRecord :=
  if ended r then mret r
  else (if acquired r then queue_call CallDequeue (msg r) else mret tt) ;; mret (setEnded r).

(** with a transaction context *)
Definition dr_dequeue (r : DeliveryRecord) : Op unit :=
  if live r then queue_call CallDequeueTx (msg r) else mret tt.
Definition dr_committed (r : DeliveryRecord) : Op unit :=
  if live r then queue_call CallCommitted (msg r) else mret tt.

Definition dr_reject (r : DeliveryRecord) : Op DeliveryRecord :=
  if live r then queue_call CallReject (msg r) ;; mret (setEnded r) else mret r.

Definition dr_acquire (r : DeliveryRecord) : Op (DeliveryRecord * list Z) :=
  s ← get;
  if permits env (log s) (msg r) && bool_decide (holding (msg r) s = Available) then
    queue_call CallAcquire (msg r) ;;
    let r := set_acquired true r in
    if acceptExpected r then mret (r, [id r])
    else if ended r then mret (r, [id r])
    else queue_call CallDequeue (msg r) ;; mret (setEnded r, [id r])
  else mret (r, []).

(** [std::lower_bound] by id, and one further when the record has the id [last]:
    the records before the range, in it and after it; the loops over a range
    whose end is before its start run off the records *)
Definition findRange (first last : Z) (l : list DeliveryRecord)
  : Op (list DeliveryRecord * list DeliveryRecord * list DeliveryRecord) :=
  let '(start, tail) := lower_bound (fun r => SequenceNumber.ltb (id r) first) l in
  let '(upto, tail') := lower_bound (fun r => SequenceNumber.ltb (id r) last) l in
  let n := match tail' with
           | r :: _ => if SequenceNumber.eqb (id r) last then S (length upto) else length upto
           | [] => length upto
           end in
  if (n <? length start)%nat then throw UndefinedBehaviour
  else mret (start, take (n - length start) tail, drop (n - length start) tail).

(** ** Loops over the records *)

(** [std::for_each] over the records between [before] and [after]; [torn] is what
    is left of a record in whose call an exception was thrown *)
Fixpoint each_in {B} (f : DeliveryRecord -> Op (DeliveryRecord * list B)) (torn : DeliveryRecord -> DeliveryRecord)
    (before rest after : list DeliveryRecord) : Op (list DeliveryRecord * list B) :=
  match rest with
  | [] => mret ([], [])
  | x :: rest =>
      r ← on_throw (set_unacked (before ++ torn x :: rest ++ after)) (f x);
      let '(x, bs) := r in
      q ← each_in f torn (before ++ [x]) rest after;
      let '(l, bs') := q in mret (x :: l, bs ++ bs')
  end.

(** the same from the last to the first, of a call that does not throw *)
Fixpoint each_rev (f : DeliveryRecord -> Op DeliveryRecord) (l : list DeliveryRecord) : Op (list DeliveryRecord) :=
  match l with [] => mret [] | x :: l => l ← each_rev f l; x ← f x; mret (x :: l) end.

(** [std::remove_if] on all records and [erase] of what is left behind it: a record
    that is kept is copied to the first place that was given up.  When the
    predicate throws, the records are as the loop has left them. *)
Fixpoint remove_loop (f : DeliveryRecord -> Op (DeliveryRecord * bool)) (kept given_up rest : list DeliveryRecord)
  : Op unit :=
  match rest with
  | [] => modify (set_unacked kept)
  | x :: rest =>
      r ← on_throw (set_unacked (kept ++ given_up ++ x :: rest)) (f x);
      match r with
      | (x, true) => remove_loop f kept (given_up ++ [x]) rest
      | (x, false) => remove_loop f (kept ++ [x]) (match given_up with [] => [] | _ :: g => g ++ [x] end) rest
      end
  end.

Definition remove_if (f : DeliveryRecord -> Op (DeliveryRecord * bool)) : Op unit :=
  s ← get; remove_loop f [] [] (unacked s).

(** [IsInSequenceSetAnd] *)
Definition isInSequenceSetAnd (set : SequenceSet.t) (f : DeliveryRecord -> Op DeliveryRecord) (r : DeliveryRecord)
  : Op (DeliveryRecord * bool) :=
  if SequenceSet.contains set (id r) then r ← f r; mret (r, isRedundant r) else mret (r, false).

Definition erase_redundant (l : list DeliveryRecord) : list DeliveryRecord := filter (fun r => isRedundant r = false) l.

(** ** Consumers *)

Definition find (t : str) : Op ConsumerImpl :=
  s ← get; match consumers s !! t with Some c => mret c | None => throw NotFoundException end.

Definition addOutputTask (c : nat) : Op unit := modify (fun s => set_tasks ({[c]} ∪ outputTasks s) (subscribed s) s).
Definition removeOutputTask (c : nat) : Op unit := modify (fun s => set_tasks (outputTasks s ∖ {[c]}) (subscribed s) s).

Definition requestDispatch1 (t : str) (c : ConsumerImpl) : Op unit :=
  if blocked c then addOutputTask (c_id c) ;; update_consumer t (set_blocked false c) else mret tt.

Definition requestDispatch : Op unit := modify (fun s =>
  let tasks := list_to_set (omap (fun c => if blocked c then Some (c_id c) else None) ((map_to_list (consumers s)).*2)) in
  set_tasks (tasks ∪ outputTasks s) (subscribed s)
    (set_consumers (set_blocked false <$> consumers s) s)).

Definition notify (t : str) : Op unit :=
  c ← find t; if notifyEnabled c then addOutputTask (c_id c) else mret tt.

(** [SemanticStateConsumerImpl::accept] *)
Definition c_accept (t : str) (required : Z) : Op bool :=
  c ← find t;
  let ok := check 1 required (c_credit c) in
  update_consumer t (set_blocked (negb ok) c) ;; mret ok.

Definition deliver (t : str) (m : nat) (required : Z) : Op unit :=
  c ← find t;
  let c := set_credit (consume 1 required (c_credit c)) c in
  let sync := negb (syncFrequency c =? 0) && (syncFrequency c <=? deliveryCount c + 1) in
  let c := set_deliveryCount (if sync then 0 else if syncFrequency c =? 0 then deliveryCount c else deliveryCount c + 1) c in
  update_consumer t c ;;
  s ← get;
  let win := windowing (c_credit c) in
  let r := new_DeliveryRecord m t (c_id c) (nextId s) (c_acquire c) (negb (ackExpected c)) win required in
  modify (fun s => set_nextId (SequenceNumber.incr (nextId s)) (emit (Transfer (nextId s) (c_id c) m required win sync) s)) ;;
  (if win || ackExpected c || negb (c_acquire c) then modify (fun s => set_unacked (unacked s ++ [r]) s) else mret tt) ;;
  (if c_acquire c && negb (ackExpected c) then queue_call CallDequeue m else mret tt).

(** [Queue::dispatch]: the messages the consumer is shown, until one is its own or
    it has no credit *)
Fixpoint dispatch_loop (t : str) (l : list Offer) : Op bool :=
  match l with
  | [] => mret false
  | o :: l =>
      if o_wanted o then
        ok ← c_accept t (o_credit o);
        if ok : bool then
          c ← find t;
          s ← get;
          if c_acquire c then
            if o_free o && bool_decide (holding (o_msg o) s = Available) then
              queue_call CallAcquire (o_msg o) ;; deliver t (o_msg o) (o_credit o) ;; mret true
            else dispatch_loop t l
          else deliver t (o_msg o) (o_credit o) ;; mret true
        else mret false
      else dispatch_loop t l
  end.

Definition doDispatch (t : str) : Op bool :=
  c ← find t; s ← get; dispatch_loop t (offers env (log s) (queue c)).

Definition haveCredit (t : str) : Op bool :=
  c ← find t;
  if hasCredit (c_credit c) then mret true else update_consumer t (set_blocked true c) ;; mret false.

Definition doOutput (t : str) : Op bool :=
  ok ← haveCredit t; if ok : bool then doDispatch t else mret false.

Fixpoint flush_loop (n : nat) (t : str) : Op unit :=
  match n with
  | O => throw OutOfFuel
  | S n => ok ← doOutput t; if ok : bool then flush_loop n t else mret tt
  end.

Definition flush (n : nat) (t : str) : Op unit :=
  flush_loop n t ;; c ← find t; update_consumer t (set_credit (cancel (c_credit c)) c).
Definition stop (t : str) : Op unit :=
  c ← find t; update_consumer t (set_credit (cancel (c_credit c)) c).

Definition setFlowMode (t : str) (win : bool) : Op unit :=
  c ← find t; update_consumer t (set_credit (setWindowMode win (c_credit c)) c).

Definition grant_credit (t : str) (f : Credit -> Credit) (m b : Z) : Op unit :=
  c ← find t;
  let c := set_credit (f (c_credit c)) c in
  modify (emit (Granted (c_id c) (windowing (c_credit c)) m b)) ;;
  update_consumer t c ;; requestDispatch1 t c.

(** [MessageHandlerImpl::flow] *)
Definition flow (t : str) (unit_ value : Z) : Op unit :=
  if unit_ =? 0 then grant_credit t (addMessageCredit value) value 0
  else if unit_ =? 1 then grant_credit t (addByteCredit value) 0 value
  else throw InvalidArgumentException.

Definition new_ConsumerImpl (n q : nat) (ack acq : bool) (sync : Z) : ConsumerImpl :=
  mkConsumer n q ack acq true new_Credit true sync 0.

(** [MessageHandlerImpl::subscribe] and [SemanticState::consume], after the
    queue has been looked up and found usable *)
Definition consume_ (t : str) (q : nat) (ack acq : bool) (sync : Z) : Op unit :=
  s ← get;
  guard_throw (negb (bool_decide (t = [])) && bool_decide (is_Some (consumers s !! t))) NotAllowedException ;;
  n ← alloc;
  modify (fun s => set_tasks (outputTasks s) ({[n]} ∪ subscribed s) s) ;;
  update_consumer t (new_ConsumerImpl n q ack acq sync).

(** [SemanticState::cancel] of a consumer *)
Definition disable (c : ConsumerImpl) : Op unit :=
  s ← get; if attached s then removeOutputTask (c_id c) else mret tt.
Definition cancel_consumer (c : ConsumerImpl) : Op unit :=
  disable c ;; modify (fun s => set_tasks (outputTasks s) (subscribed s ∖ {[c_id c]}) s).

Definition cancel_tag (t : str) : Op unit :=
  c ← find t;
  cancel_consumer c ;;
  modify (fun s => set_unacked (erase_redundant (dr_cancel t <$> unacked s)) (set_consumers (delete t (consumers s)) s)).

(** ** Settlement *)

Definition acquire1 (first last : Z) : Op (list Z) :=
  s ← get;
  r ← findRange first last (unacked s);
  let '(before, range, after) := r in
  q ← each_in dr_acquire (set_acquired true) before range after;
  let '(l, results) := q in
  modify (set_unacked (before ++ l ++ after)) ;; mret results.

Definition release1 (setRedelivered : bool) (first last : Z) : Op unit :=
  s ← get;
  r ← findRange first last (unacked s);
  let '(before, range, after) := r in
  range ← each_rev (dr_release setRedelivered) range;
  modify (set_unacked (before ++ erase_redundant range ++ after)).

(** the loop that erases ends at the first record behind [last] *)
Fixpoint erase_upto (last : Z) (l : list DeliveryRecord) : list DeliveryRecord :=
  match l with
  | [] => []
  | x :: l' =>
      if SequenceNumber.leb (id x) last
      then if isRedundant x then erase_upto last l' else x :: erase_upto last l'
      else l
  end.

Definition reject1 (first last : Z) : Op unit :=
  s ← get;
  r ← findRange first last (unacked s);
  let '(before, range, after) := r in
  q ← each_in (fun r => r ← dr_reject r; mret (r, [] : list Z)) (fun r => r) before range after;
  let '(range, _) := q in
  modify (set_unacked (before ++ erase_upto last (range ++ after))).

(** [SequenceSet::for_each] *)
Fixpoint for_ranges {B} (f : Z -> Z -> Op (list B)) (set : SequenceSet.t) : Op (list B) :=
  match set with
  | [] => mret []
  | r :: set => l ← f (range_first r) (range_last r); l' ← for_ranges f set; mret (l ++ l')
  end.

Definition acquire (set : SequenceSet.t) : Op (list Z) := for_ranges acquire1 set.
Definition release (set : SequenceSet.t) (setRedelivered : bool) : Op unit :=
  for_ranges (fun a b => release1 setRedelivered a b ;; mret ([] : list Z)) set ;; mret tt.
Definition reject (set : SequenceSet.t) : Op unit :=
  for_ranges (fun a b => reject1 a b ;; mret ([] : list Z)) set ;; mret tt.

Definition complete (r : DeliveryRecord) : Op DeliveryRecord :=
  s ← get;
  match consumers s !! tag r with
  | None => mret r
  | Some c =>
      if completed r then mret r
      else
        (if windowing (c_credit c) then update_consumer (tag r) (set_credit (moveWindow 1 (credit r) (c_credit c)) c)
         else mret tt) ;;
        mret (dr_complete r)
  end.

Definition completed_ (set : SequenceSet.t) : Op unit :=
  remove_if (isInSequenceSetAnd set complete) ;; requestDispatch.

(** [DtxAck::DtxAck] *)
Definition new_DtxAck (acked : SequenceSet.t) (l : list DeliveryRecord) : list DeliveryRecord :=
  filter (fun r => coveredBy acked r = true) l.

Definition accepted (set : SequenceSet.t) : Op unit :=
  s ← get;
  if txBuffer s then
    let acked := SequenceSet.addAll (accumulatedAck s) set in
    modify (set_accumulated acked) ;;
    match dtxBuffer s with
    | None => mret tt
    | Some b =>
        let ack := new_DtxAck acked (unacked s) in
        modify (fun s => set_acks (<[b := default [] (acks s !! b) ++ [ack]]> (acks s)) (set_accumulated [] s)) ;;
        remove_if (isInSequenceSetAnd set (fun r => mret (setEnded r)))
    end
  else remove_if (isInSequenceSetAnd set dr_accept).

(** ** Transactions *)

(** [TxAccept::each] *)
Fixpoint tx_each (f : DeliveryRecord -> Op DeliveryRecord) (l : list DeliveryRecord) : list Z -> Op (list DeliveryRecord) :=
  match l with
  | [] => fun _ => mret []
  | r :: l' =>
      fix over_seq (acked : list Z) : Op (list DeliveryRecord) :=
        match acked with
        | [] => mret (r :: l')
        | a :: acked' =>
            if SequenceNumber.eqb (id r) a then r ← f r; l ← tx_each f l' acked'; mret (r :: l)
            else if SequenceNumber.ltb (id r) a then l ← tx_each f l' acked; mret (r :: l)
            else over_seq acked'
        end
  end.

(** the numbers the iterator of a [SequenceSet] visits *)
Definition elements (set : SequenceSet.t) : list Z := iter_run (Z.to_nat (rangeset_size set)) (iter_begin set).

Definition tx_prepare (acked : SequenceSet.t) : Op bool :=
  s ← get; caught (tx_each (fun r => dr_dequeue r ;; mret r) (unacked s) (elements acked)).

Definition tx_commit (acked : SequenceSet.t) : Op unit :=
  s ← get;
  tx_each (fun r => dr_committed r ;; mret r) (unacked s) (elements acked) ;;
  l ← tx_each (fun r => mret (setEnded r)) (unacked s) (elements acked);
  match front acked, back acked with
  | Some first, Some last =>
      r ← findRange first last l;
      let '(before, range, after) := r in
      modify (set_unacked (before ++ erase_redundant range ++ after))
  | _, _ => modify (set_unacked l)
  end.

Definition startTx : Op unit := modify (fun s => set_tx true (dtxBuffer s) (set_accumulated [] s)).

(** [SemanticState::commit]: the transaction has a [TxAccept]; [others] tells
    whether its other operations can be prepared.  [TxAccept::rollback] is empty. *)
Definition commit (others : bool) : Op unit :=
  s ← get;
  guard_throw (negb (txBuffer s)) CommandInvalidException ;;
  ok ← tx_prepare (accumulatedAck s);
  if ok && others then tx_commit (accumulatedAck s) ;; startTx
  else startTx ;; throw InternalErrorException.

Definition rollback : Op unit :=
  s ← get; guard_throw (negb (txBuffer s)) CommandInvalidException ;; startTx.

Definition startDtx : Op unit := b ← alloc; modify (set_tx true (Some b)).
Definition endDtx : Op unit := modify (set_tx false None).

Fixpoint for_records (f : DeliveryRecord -> Op unit) (l : list DeliveryRecord) : Op unit :=
  match l with [] => mret tt | r :: l => f r ;; for_records f l end.

(** [DtxAck::prepare] of the operations of a buffer *)
Definition dtx_prepare (b : nat) : Op bool :=
  s ← get; caught (for_records dr_dequeue (concat (default [] (acks s !! b)))).

(** [DtxAck::commit] and [DtxAck::rollback] of the operations of a buffer *)
Definition dtx_decide (b : nat) (commits : bool) : Op unit :=
  s ← get;
  for_records (if commits then dr_committed else dr_requeue) (concat (default [] (acks s !! b))) ;;
  modify (fun s => set_acks (delete b (acks s)) s).

(** ** The end of a session *)

Definition requeue : Op unit :=
  s ← get;
  modify (set_unacked []) ;;
  for_records dr_requeue (reverse (unacked s)).

Definition consumer_ids (s : Session) : gset nat := list_to_set (c_id <$> (map_to_list (consumers s)).*2).

Definition disable_all : Op unit := modify (fun s =>
  let s' := set_consumers (set_notify false <$> consumers s) s in
  if attached s then set_tasks (outputTasks s ∖ consumer_ids s) (subscribed s) s' else s').

Definition cancel_all : Op unit := modify (fun s => set_tasks (outputTasks s) (subscribed s ∖ consumer_ids s) s).

Definition closed : Op unit :=
  s ← get;
  if closeComplete s then mret tt
  else
    disable_all ;;
    match dtxBuffer s with Some b => dtx_decide b false | None => mret tt end ;;
    requeue ;;
    disable_all ;; cancel_all ;;
    modify set_closeComplete.

Definition attach : Op unit := modify (fun s =>
  set_tasks (outputTasks s ∪ consumer_ids s) (subscribed s) (set_attached true (set_consumers (set_notify true <$> consumers s) s))).
Definition detach : Op unit := modify (fun s =>
  set_tasks (outputTasks s ∖ consumer_ids s) (subscribed s) (set_attached false (set_consumers (set_notify false <$> consumers s) s))).
End session.
