(* ===== verification/Deliveries.v ===== *)
(** * What becomes of delivered messages

    The messages a session is answerable for, and a small program logic in
    which they are a resource: [owes L m R] says that [m], called by a session
    that is answerable for [L], leaves it answerable for what [R] says. *)

From Stdlib Require Import ZArith Lia Ascii String Permutation.
From stdpp Require Import gmap strings.
From S2P Require Import Prelude SequenceNumber RangeSet SequenceSet Credit SemanticState.

(** the messages of the records that hold one *)
Definition live_msgs (l : list DeliveryRecord) : list nat := msg <$> filter (fun r => live r = true) l.

(** calls that end the session's hold of a message *)
Definition settling (q : QueueCall) : bool :=
  match q with CallRelease _ | CallDequeue | CallCommitted | CallReject => true | _ => false end.

Definition mine_or_gone (h : Holding) : Prop := h = Mine \/ h = Gone.

(** the session is answerable for [L]: it holds these messages and no others, and
    it has never given away a message that another session holds *)
Record answers (s : Session) (L : list nat) : Prop := {
  an_once : NoDup L;
  an_held m : m ∈ L -> mine_or_gone (holding m s) /\ m ∈ dom (holds s);
  an_all m : holding m s = Mine -> m ∈ L;
  an_log q m h : Called q m h ∈ log s -> settling q = true -> mine_or_gone h
}.

(** an exception of the store ends the session, and so does undefined behaviour *)
Definition fatal (e : exn) : Prop := e = StoreException \/ e = UndefinedBehaviour.

Definition owes {A} (L : list nat) (m : Op A) (R : A -> list nat) : Prop :=
  forall s, answers s L ->
    match m s with
    | (s', Ret a) => answers s' (R a) /\ unacked s' = unacked s /\ acks s' = acks s
    | (_, Throw e) => fatal e
    end.

#[export] Instance answers_Permutation s : Proper (Permutation ==> iff) (answers s).
Proof.
  intros L L' HL. split; intros [H1 H2 H3 H4]; constructor; try done; try (by rewrite <- HL || by rewrite HL).
  - intros m Hm. apply H2. by rewrite HL.
  - intros m Hm. rewrite <- HL. by apply H3.
  - intros m Hm. apply H2. by rewrite <- HL.
  - intros m Hm. rewrite HL. by apply H3.
Qed.

(** what the resource depends on *)
Lemma answers_same s s' L : holds s' = holds s -> log s' = log s -> answers s L -> answers s' L.
Proof. intros Hh Hl [H1 H2 H3 H4]. constructor; unfold holding in *; rewrite ?Hh, ?Hl; auto. Qed.

Lemma live_msgs_app l l' : live_msgs (l ++ l') = live_msgs l ++ live_msgs l'.
Proof. unfold live_msgs. by rewrite filter_app, fmap_app. Qed.

Lemma live_msgs_cons r l : live_msgs (r :: l) = (if live r then [msg r] else []) ++ live_msgs l.
Proof. unfold live_msgs. rewrite filter_cons. by destruct (live r). Qed.

Lemma live_msgs_nil : live_msgs [] = [].
Proof. done. Qed.

(** permutations of appended lists *)
Ltac solve_Permutation :=
  apply (Permutation_count_occ Nat.eq_dec); intros ?; rewrite ?live_msgs_nil, ?count_occ_app; cbn [count_occ]; lia.
Ltac repermute H := revert H; apply answers_Permutation; cbn [fst]; solve_Permutation.

Section logic.
Context (env : Environment).

Lemma owes_ret {A} L (a : A) R : L ≡ₚ R a -> owes L (mret a) R.
Proof. intros H s Hs. cbn. by rewrite <- H. Qed.

Lemma owes_bind {A B} L (m : Op A) (f : A -> Op B) R R' :
  owes L m R -> (forall a, owes (R a) (f a) R') -> owes L (m ≫= f) R'.
Proof.
  intros Hm Hf s Hs. specialize (Hm s Hs). unfold mbind, M_bind. destruct (m s) as [s1 [a|e]]; [|done].
  destruct Hm as (H1 & Hu & Ha). specialize (Hf a s1 H1). destruct (f a s1) as [s2 [b|e]]; [|done].
  destruct Hf as (H2 & Hu2 & Ha2). split; [done|]. by rewrite Hu2, Ha2.
Qed.

Lemma owes_pre {A} L L' (m : Op A) R : L ≡ₚ L' -> owes L' m R -> owes L m R.
Proof. intros HL Hm s Hs. apply Hm. by rewrite <- HL. Qed.

Lemma owes_post {A} L (m : Op A) R R' : owes L m R -> (forall a, R a ≡ₚ R' a) -> owes L m R'.
Proof.
  intros Hm HR s Hs. specialize (Hm s Hs). destruct (m s) as [s' [a|e]]; [|done]. by rewrite <- HR.
Qed.

Lemma owes_get {A} L (f : Session -> Op A) R :
  (forall s, answers s L -> owes L (f s) R) -> owes L (s ← get; f s) R.
Proof. intros Hf s Hs. exact (Hf s Hs s Hs). Qed.

Lemma owes_throw {A} L (e : exn) (R : A -> list nat) : fatal e -> owes L (throw e) R.
Proof. by intros He s _. Qed.

(** a call of a queue, which changes the holding of one message *)
Lemma queue_call_eq q m s :
  queue_call env q m s =
    (emit (Called q m (holding m s)) (set_holds (<[m := after_call q (holding m s)]> (holds s)) s),
     if stores q && queue_throws env (log s) q m then Throw StoreException else Ret tt).
Proof. unfold queue_call, mbind, M_bind, get, modify, guard_throw. by destruct (stores q && queue_throws env (log s) q m). Qed.

Lemma owes_queue_call q m L L' :
  (forall s, answers s L ->
    answers (emit (Called q m (holding m s)) (set_holds (<[m := after_call q (holding m s)]> (holds s)) s)) L') ->
  owes L (queue_call env q m) (fun _ => L').
Proof. intros H s Hs. rewrite queue_call_eq. destruct (stores q && _); [by left|]. split; [by apply H|done]. Qed.

Lemma holding_after q m h s m' :
  holding m' (emit (Called q m h) (set_holds (<[m := after_call q h]> (holds s)) s)) =
    if decide (m' = m) then after_call q h else holding m' s.
Proof.
  unfold holding. cbn. destruct (decide (m' = m)) as [->|Hn]; [by rewrite lookup_insert_eq|by rewrite lookup_insert_ne].
Qed.

Lemma owes_settle q m L : settling q = true -> owes (m :: L) (queue_call env q m) (fun _ => L).
Proof.
  intros Hq. apply owes_queue_call. intros s [H1 H2 H3 H4]. apply NoDup_cons in H1 as [Hm Hd].
  assert (Hmine : mine_or_gone (holding m s)) by (by destruct (H2 m ltac:(by left))).
  constructor; [done| | |].
  - intros m' Hm'. rewrite holding_after. rewrite decide_False by (intros ->; done). destruct (H2 m' ltac:(by right)). split; [done|]. cbn. set_solver.
  - intros m'. rewrite holding_after. destruct (decide (m' = m)) as [->|Hn].
    + destruct q; try done; by destruct (holding m s).
    + intros Hh%H3. by apply elem_of_cons in Hh as [->|?].
  - intros q' m' h [Heq|Hin]%elem_of_cons Hs; [by injection Heq as -> -> ->|by eapply H4].
Qed.

Lemma owes_dequeue_tx m L : owes (m :: L) (queue_call env CallDequeueTx m) (fun _ => m :: L).
Proof.
  apply owes_queue_call. intros s [H1 H2 H3 H4].
  assert (Hsame : forall m', holding m' (emit (Called CallDequeueTx m (holding m s))
      (set_holds (<[m := after_call CallDequeueTx (holding m s)]> (holds s)) s)) = holding m' s).
  { intros m'. rewrite holding_after. destruct (decide (m' = m)) as [->|]; [by destruct (holding m s)|done]. }
  constructor; [done| |intros m'; rewrite Hsame; apply H3|].
  { intros m' Hm'. rewrite Hsame. destruct (H2 m' Hm'). split; [done|]. cbn. set_solver. }
  intros q' m' h [Heq|Hin]%elem_of_cons Hs; [by injection Heq as -> -> ->|by eapply H4].
Qed.

(** an available message is taken *)
Lemma answers_acquire m s L :
  answers s L -> holding m s = Available ->
  answers (emit (Called CallAcquire m (holding m s)) (set_holds (<[m := after_call CallAcquire (holding m s)]> (holds s)) s)) (m :: L).
Proof.
  intros [H1 H2 H3 H4] Hm.
  assert (Hn : m ∉ L) by (intros Hin; destruct (H2 m Hin) as [[E|E] _]; congruence).
  constructor; [by apply NoDup_cons| | |].
  - intros m' [->|Hin]%elem_of_cons; rewrite holding_after; (split; [|cbn; set_unfold; naive_solver]).
    + rewrite decide_True by done. rewrite Hm. by left.
    + rewrite decide_False by (intros ->; done). by apply H2.
  - intros m'. rewrite holding_after. destruct (decide (m' = m)) as [->|]; [left|]. intros Hh. right. by apply H3.
  - intros q' m' h [Heq|Hin]%elem_of_cons Hs; [by injection Heq as -> -> ->|by eapply H4].
Qed.

(** ** Records *)

Abbreviation of_live r L := ((if live r then [msg r] else []) ++ L).

Lemma owes_requeue r L : owes (of_live r L) (dr_requeue env r) (fun _ => L).
Proof. unfold dr_requeue. destruct (live r); [by apply owes_settle|by apply owes_ret]. Qed.

Lemma owes_committed r L : owes (of_live r L) (dr_committed env r) (fun _ => L).
Proof. unfold dr_committed. destruct (live r); [by apply owes_settle|by apply owes_ret]. Qed.

Lemma owes_dequeue r L : owes (of_live r L) (dr_dequeue env r) (fun _ => of_live r L).
Proof. unfold dr_dequeue. destruct (live r); [apply owes_dequeue_tx|by apply owes_ret]. Qed.

Lemma live_ended r : ended r = true -> live r = false.
Proof. unfold live. intros ->. by rewrite andb_false_r. Qed.
Lemma live_setEnded r : live (setEnded r) = false.
Proof. by apply live_ended. Qed.

Lemma owes_release b r L : owes (of_live r L) (dr_release env b r) (fun r' => of_live r' L).
Proof.
  unfold dr_release. destruct (live r) eqn:E; [|apply owes_ret; by rewrite E].
  eapply owes_bind; [by apply owes_settle|]. intros []. apply owes_ret. by rewrite live_setEnded.
Qed.

Lemma owes_accept r L : owes (of_live r L) (dr_accept env r) (fun r' => of_live r' L).
Proof.
  unfold dr_accept. destruct (ended r) eqn:E; [by apply owes_ret|].
  eapply owes_bind with (R := fun _ => L); [|intros []; apply owes_ret; by rewrite live_setEnded].
  unfold live. rewrite E. destruct (acquired r); [by apply owes_settle|by apply owes_ret].
Qed.

Lemma owes_reject r L : owes (of_live r L) (dr_reject env r) (fun r' => of_live r' L).
Proof.
  unfold dr_reject. destruct (live r) eqn:E; [|apply owes_ret; by rewrite E].
  eapply owes_bind; [by apply owes_settle|]. intros []. apply owes_ret. by rewrite live_setEnded.
Qed.

(** a record that is not ended can be acquired: when the message is available the
    record did not hold it *)
Lemma owes_dr_acquire r L :
  ended r = false -> owes (of_live r L) (dr_acquire env r) (fun p => of_live p.1 L).
Proof.
  intros He s Hs. unfold dr_acquire. rewrite (bind_Ret get _ s s s eq_refl). cbn beta.
  destruct (permits env (log s) (msg r) && _) eqn:E; [|done]. apply andb_prop in E as [_ Ha].
  apply bool_decide_eq_true in Ha.
  assert (Hl : live r = false).
  { destruct (live r) eqn:El; [|done]. destruct (an_held s _ Hs (msg r)) as [[?|?] _]; [by left|congruence|congruence]. }
  rewrite Hl in Hs. cbn [app] in Hs. pose proof (answers_acquire (msg r) s L Hs Ha) as Hacq.
  rewrite (bind_Ret _ _ s _ tt (queue_call_eq CallAcquire (msg r) s)). cbn beta zeta.
  assert (Hlive : live (set_acquired true r) = true) by (unfold live; cbn; by rewrite He).
  destruct (acceptExpected (set_acquired true r)); [cbn [fst mret M_ret]; by rewrite Hlive|].
  cbn [ended set_acquired]. rewrite He.
  pose proof (owes_settle CallDequeue (msg r) L eq_refl _ Hacq) as Hd. unfold mbind, M_bind.
  destruct (queue_call env CallDequeue _ _) as [s' [[]|e]]; [|done]. exact Hd.
Qed.

(** ** Loops *)

Lemma owes_for_records f l L :
  (forall r L, owes (of_live r L) (f r) (fun _ => L)) -> owes (live_msgs l ++ L) (for_records f l) (fun _ => L).
Proof.
  intros Hf. induction l as [|r l IH]; cbn [for_records]; [by apply owes_ret|].
  rewrite live_msgs_cons, <- app_assoc. eapply owes_bind; [apply Hf|]. by intros [].
Qed.

Lemma owes_each_rev f l L :
  (forall r L, owes (of_live r L) (f r) (fun r' => of_live r' L)) ->
  owes (live_msgs l ++ L) (each_rev f l) (fun l' => live_msgs l' ++ L).
Proof.
  intros Hf. revert L. induction l as [|r l IH]; intros L; cbn [each_rev]; [by apply owes_ret|].
  rewrite live_msgs_cons. apply owes_pre with (L' := live_msgs l ++ of_live r L); [solve_Permutation|].
  eapply owes_bind; [apply IH|]. intros l'. cbn beta.
  apply owes_pre with (L' := of_live r (live_msgs l' ++ L)); [solve_Permutation|].
  eapply owes_bind; [apply Hf|]. intros r'. apply owes_ret. rewrite live_msgs_cons. solve_Permutation.
Qed.

Lemma owes_on_throw {A} L h (m : Op A) R : owes L m R -> owes L (on_throw h m) R.
Proof. intros Hm s Hs. specialize (Hm s Hs). unfold on_throw. by destruct (m s) as [s' [a|e]]. Qed.

Lemma owes_each_in {B} (f : DeliveryRecord -> Op (DeliveryRecord * list B)) torn before rest after L :
  Forall (fun r => forall L, owes (of_live r L) (f r) (fun p => of_live p.1 L)) rest ->
  owes (live_msgs rest ++ L) (each_in f torn before rest after) (fun p => live_msgs p.1 ++ L).
Proof.
  intros Hf. revert before L. induction Hf as [|r rest Hr _ IH]; intros before L; cbn [each_in]; [by apply owes_ret|].
  rewrite live_msgs_cons, <- app_assoc. eapply owes_bind; [apply owes_on_throw, Hr|]. intros [r' bs]. cbn [fst].
  apply owes_pre with (L' := live_msgs rest ++ of_live r' L); [solve_Permutation|].
  eapply owes_bind; [apply IH|]. intros [l bs']. apply owes_ret. cbn [fst]. rewrite live_msgs_cons. solve_Permutation.
Qed.
End logic.
