(* ===== verification/DeliverySystem.v ===== *)
(** * Any sequence of commands of a session

    The commands of a client, the output tasks of the connection, the outcomes of
    transactions and what other sessions do to the queues, in any order. *)

From Stdlib Require Import ZArith Lia Ascii String Permutation.
From stdpp Require Import gmap strings.
From S2P Require Import Prelude SequenceNumber RangeSet SequenceSet Credit SemanticState Deliveries.

Inductive Command :=
| Subscribe (t : str) (q : nat) (ack acq : bool) (sync : Z)
| Unsubscribe (t : str)
| Flow (t : str) (unit_ value : Z)
| SetFlowMode (t : str) (win : bool)
| Flush (n : nat) (t : str)
| Stop (t : str)
| Output (t : str)
| Notify (t : str)
| Accept (set : SequenceSet.t)
| Release (set : SequenceSet.t) (redelivered : bool)
| Reject (set : SequenceSet.t)
| Acquire (set : SequenceSet.t)
| Completed (set : SequenceSet.t)
| TxSelect
| TxCommit (others : bool)
| TxRollback
| DtxStart
| DtxEnd
| DtxPrepare (b : nat)
| DtxDecide (b : nat) (commits : bool)
| Attach
| Detach
| Close
| OtherCommand
(** what other sessions and the broker do *)
| MessageAppears (m : nat)
| MessageTaken (m : nat)
| MessageReturned (m : nat)
| MessageRemoved (m : nat).

(** another session changes who holds a message *)
Definition by_others (m : nat) (h : Holding) : Op unit := modify (fun s => set_holds (<[m := h]> (holds s)) s).

Definition run_command (env : Environment) (c : Command) : Op unit :=
  match c with
  | Subscribe t q ack acq sync => consume_ t q ack acq sync
  | Unsubscribe t => cancel_tag t
  | Flow t u v => flow t u v
  | SetFlowMode t win => setFlowMode t win
  | Flush n t => flush env n t
  | Stop t => stop t
  | Output t => doOutput env t ;; mret tt
  | Notify t => notify t
  | Accept set => accepted env set
  | Release set b => release env set b
  | Reject set => reject env set
  | Acquire set => acquire env set ;; mret tt
  | Completed set => completed_ set
  | TxSelect => startTx
  | TxCommit others => commit env others
  | TxRollback => rollback
  | DtxStart => startDtx
  | DtxEnd => endDtx
  | DtxPrepare b => dtx_prepare env b ;; mret tt
  | DtxDecide b commits => dtx_decide env b commits
  | Attach => attach
  | Detach => detach
  | Close => closed env
  | OtherCommand => modify (fun s => set_nextId (SequenceNumber.incr (nextId s)) s)
  | MessageAppears m => by_others m Available
  | MessageTaken m => by_others m Others
  | MessageReturned m => by_others m Available
  | MessageRemoved m => by_others m Gone
  end.

(** ** The messages the session is answerable for *)

Definition pend (a : gmap nat (list (list DeliveryRecord))) : list DeliveryRecord := concat (@concat _ <$> (map_to_list a).*2).

(** those of the records, and of acknowledgements in undecided transactions *)
Definition held (s : Session) : list nat := live_msgs (unacked s) ++ live_msgs (pend (acks s)).

Definition Inv (s : Session) : Prop := answers s (held s).

Lemma live_msgs_perm l l' : l ≡ₚ l' -> live_msgs l ≡ₚ live_msgs l'.
Proof. intros H. unfold live_msgs. by rewrite H. Qed.

Lemma pend_delete a b : pend a ≡ₚ concat (default [] (a !! b)) ++ pend (delete b a).
Proof.
  unfold pend. destruct (a !! b) as [x|] eqn:E; cbn [default].
  - rewrite <- (map_to_list_delete a b x E). done.
  - by rewrite delete_id.
Qed.

Lemma pend_insert a b x : pend (<[b := x]> a) ≡ₚ concat x ++ pend (delete b a).
Proof. rewrite (pend_delete _ b), lookup_insert_eq, delete_insert_eq. done. Qed.

Lemma held_acks s s' b x :
  acks s' = <[b := default [] (acks s !! b) ++ [x]]> (acks s) ->
  live_msgs (pend (acks s')) ≡ₚ live_msgs x ++ live_msgs (pend (acks s)).
Proof.
  intros ->. rewrite <- live_msgs_app. apply live_msgs_perm. rewrite pend_insert, (pend_delete (acks s) b).
  rewrite concat_app. cbn [concat]. rewrite app_nil_r, (Permutation_app_comm (concat _) x). by rewrite app_assoc.
Qed.

(** ** Calls that do not touch the messages *)

Definition unsettling (e : Event) : Prop := match e with Called q _ _ => settling q = false | _ => True end.

Definition neutral (s s' : Session) : Prop :=
  (forall m, holding m s' = holding m s /\ (m ∈ dom (holds s) -> m ∈ dom (holds s'))) /\ unacked s' = unacked s /\ acks s' = acks s /\
  exists es, log s' = es ++ log s /\ Forall unsettling es.

Definition quiet {A} (m : Op A) : Prop := forall s, neutral s (m s).1.

Lemma neutral_refl s : neutral s s.
Proof. repeat split; [done|]. by exists []. Qed.

Lemma neutral_trans s1 s2 s3 : neutral s1 s2 -> neutral s2 s3 -> neutral s1 s3.
Proof.
  intros (H1 & H2 & H3 & es & H4 & H5) (H1' & H2' & H3' & es' & H4' & H5'). repeat split; [by destruct (H1 m) as [<- _], (H1' m) as [<- _]|intros Hd; by apply H1', H1|congruence|congruence|].
  exists (es' ++ es). rewrite H4', H4, app_assoc. split; [done|by apply Forall_app].
Qed.

Lemma answers_neutral s s' L : neutral s s' -> answers s L -> answers s' L.
Proof.
  intros (Heq & _ & _ & es & Hl & Hes) [H1 H2 H3 H4].
  constructor; [done| |intros m; destruct (Heq m) as [-> _]; apply H3|].
  { intros m Hm. destruct (Heq m) as [-> Hd], (H2 m Hm). split; auto. }
  intros q m h. rewrite Hl. intros [Hin|Hin]%elem_of_app; [|by eapply H4].
  rewrite Forall_forall in Hes. apply Hes in Hin. cbn in Hin. congruence.
Qed.

Lemma quiet_bind {A B} (m : Op A) (f : A -> Op B) : quiet m -> (forall a, quiet (f a)) -> quiet (m ≫= f).
Proof.
  intros Hm Hf s. specialize (Hm s). unfold mbind, M_bind. destruct (m s) as [s' [a|e]]; [|done].
  eapply neutral_trans; [exact Hm|apply Hf].
Qed.

Lemma quiet_ret {A} (a : A) : quiet (mret a).
Proof. intros s. apply neutral_refl. Qed.
Lemma quiet_throw {A} e : quiet (throw e : Op A).
Proof. intros s. apply neutral_refl. Qed.
Lemma quiet_get : quiet get.
Proof. intros s. apply neutral_refl. Qed.
Lemma quiet_guard b e : quiet (guard_throw b e).
Proof. intros s. destruct b; apply neutral_refl. Qed.
Lemma quiet_alloc : quiet alloc.
Proof. intros s. repeat split; [done|]. by exists []. Qed.
Lemma quiet_modify f : (forall s, holds (f s) = holds s /\ unacked (f s) = unacked s /\ acks (f s) = acks s /\ log (f s) = log s) -> quiet (modify f).
Proof. intros H s. destruct (H s) as (H1 & H2 & H3 & H4). repeat split; try done; [| |by exists []]; unfold holding; cbn; by rewrite H1. Qed.
Lemma quiet_emit e : unsettling e -> quiet (modify (emit e)).
Proof. intros He s. repeat split; [done|]. exists [e]. split; [done|by constructor]. Qed.
Lemma quiet_find t : quiet (find t).
Proof. unfold find. apply quiet_bind; [apply quiet_get|]. intros s. destruct (consumers s !! t); [apply quiet_ret|apply quiet_throw]. Qed.

Create HintDb quiet.
#[export] Hint Resolve quiet_ret quiet_throw quiet_get quiet_guard quiet_alloc quiet_find : quiet.

Ltac quiet_step := repeat (intros; first
  [ solve [eauto with quiet nocore]
  | lazymatch goal with
    | |- quiet (_ ≫= _) => apply quiet_bind
    | |- quiet (modify (emit _)) => by apply quiet_emit
    | |- quiet (modify _) => apply quiet_modify; intros ?; repeat split
    | |- quiet (match ?x with _ => _ end) => destruct x
    end ]).

Lemma quiet_update t c : quiet (update_consumer t c).
Proof. unfold update_consumer. quiet_step. Qed.
#[export] Hint Resolve quiet_update : quiet.

Lemma quiet_c_accept t z : quiet (c_accept t z).
Proof. unfold c_accept. quiet_step. Qed.
Lemma quiet_haveCredit t : quiet (haveCredit t).
Proof. unfold haveCredit. quiet_step. Qed.
Lemma quiet_grant t f m b : quiet (grant_credit t f m b).
Proof. unfold grant_credit, requestDispatch1, addOutputTask. quiet_step. Qed.
Lemma quiet_requestDispatch : quiet requestDispatch.
Proof. unfold requestDispatch. quiet_step. Qed.
Lemma quiet_disable_all : quiet disable_all.
Proof. unfold disable_all. apply quiet_modify. intros s. by destruct (attached s). Qed.
#[export] Hint Resolve quiet_c_accept quiet_haveCredit quiet_grant quiet_requestDispatch quiet_disable_all : quiet.

Lemma quiet_inv {A} (m : Op A) s : quiet m -> Inv s -> Inv (m s).1.
Proof.
  intros Hm. specialize (Hm s). intros Hi. eapply answers_neutral in Hi; [|exact Hm]. unfold Inv, held.
  destruct Hm as (_ & -> & -> & _). done.
Qed.

(** ** Calls that keep the invariant *)

Definition keeps {A} (m : Op A) : Prop := forall s, Inv s ->
  match m s with (s', Ret _) => Inv s' | (s', Throw e) => ~ fatal e -> Inv s' end.

Lemma keeps_quiet {A} (m : Op A) : quiet m -> keeps m.
Proof. intros Hq s Hi. pose proof (quiet_inv m s Hq Hi) as H. by destruct (m s) as [s' [a|e]]. Qed.

Lemma dkeeps_bind {A B} (m : Op A) (f : A -> Op B) : keeps m -> (forall a, keeps (f a)) -> keeps (m ≫= f).
Proof.
  intros Hm Hf s Hi. specialize (Hm s Hi). unfold mbind, M_bind. destruct (m s) as [s' [a|e]]; [by apply Hf|done].
Qed.

(** a call in the logic of [Deliveries] keeps it when it gives back what it took *)
Lemma keeps_owes {A} (m : Op A) : (forall L, owes L m (fun _ => L)) -> keeps m.
Proof.
  intros Hm s Hi. specialize (Hm _ s Hi). destruct (m s) as [s' [a|e]]; [|done].
  destruct Hm as (Ha & Hu & Hk). unfold Inv, held. by rewrite Hu, Hk.
Qed.

Section keeps.
Context (env : Environment).

(** *** Delivery *)

(** a message just taken, or one the consumer only browses, is delivered *)
Lemma deliver_inv t m z s c :
  consumers s !! t = Some c ->
  answers s ((if c_acquire c then [m] else []) ++ held s) ->
  match deliver env t m z s with (s', Ret _) => Inv s' | (s', Throw e) => fatal e end.
Proof.
  intros Hc Hs. unfold deliver, find, update_consumer. unfold mbind, M_bind, get, modify. rewrite Hc. cbn -[queue_call new_DeliveryRecord].
  match goal with |- context [set_nextId ?n (emit ?e ?s1)] => set (s2 := set_nextId n (emit e s1)) end.
  assert (Hn : neutral s s2) by (repeat split; [done|]; eexists [_]; split; [done|by repeat constructor]).
  apply (answers_neutral s s2) in Hs; [|done].
  assert (Hh : held s = held s2) by (unfold held; by destruct Hn as (_ & -> & -> & _)). rewrite Hh in Hs.
  match goal with |- context [new_DeliveryRecord m t ?a ?b ?x ?y ?w z] => set (r := new_DeliveryRecord m t a b x y w z) end.
  assert (Hheld : held (set_unacked (unacked s2 ++ [r]) s2) ≡ₚ (if live r then [m] else []) ++ held s2).
  { unfold held. cbn [unacked acks set_unacked]. rewrite live_msgs_app, live_msgs_cons. change (msg r) with m. solve_Permutation. }
  assert (Hput : forall L, answers s2 L -> answers (set_unacked (unacked s2 ++ [r]) s2) L) by (intros L; by apply answers_same).
  assert (Hlive : live r = c_acquire c && ackExpected c).
  { subst r. unfold live. cbn. by destruct (c_acquire c), (ackExpected c). }
  rewrite Hlive in Hheld. clearbody r s2.
  destruct (c_acquire c), (ackExpected c); cbn [negb andb orb] in *; rewrite ?orb_true_r, ?orb_false_r; unfold modify.
  - cbn. unfold Inv. rewrite Hheld. by apply Hput.
  - assert (Hq : forall s3, answers s3 (m :: held s3) ->
      match queue_call env CallDequeue m s3 with (s', Ret _) => Inv s' | (s', Throw e) => fatal e end).
    { intros s3 H3. pose proof (owes_settle env CallDequeue m (held s3) eq_refl s3 H3) as Ho.
      destruct (queue_call env CallDequeue m s3) as [s' [[]|e]]; [|done]. destruct Ho as (Ho & Hu & Hk).
      unfold Inv, held. by rewrite Hu, Hk. }
    destruct (windowing _); cbn -[queue_call]; apply Hq; [|done]. rewrite Hheld. by apply Hput.
  - cbn. unfold Inv. rewrite Hheld. by apply Hput.
  - cbn. unfold Inv. rewrite Hheld. by apply Hput.
Qed.
Lemma keeps_find {A} t (f : ConsumerImpl -> Op A) :
  (forall c s, Inv s -> consumers s !! t = Some c ->
    match f c s with (s', Ret _) => Inv s' | (s', Throw e) => ~ fatal e -> Inv s' end) ->
  keeps (c ← find t; f c).
Proof.
  intros Hf s Hi. unfold find, mbind, M_bind, get. destruct (consumers s !! t) as [c|] eqn:E; [by apply Hf|by intros _].
Qed.

Lemma keeps_dispatch_loop t l : keeps (dispatch_loop env t l).
Proof.
  induction l as [|o l IH]; cbn [dispatch_loop]; [apply keeps_quiet; quiet_step|].
  destruct (o_wanted o); [|done]. apply dkeeps_bind; [apply keeps_quiet; quiet_step|]. intros [].
  2: { apply keeps_quiet. quiet_step. }
  apply keeps_find. intros c s Hi Hc. rewrite (bind_Ret get _ s s s eq_refl). cbn beta.
  pose proof (fun s => deliver_inv t (o_msg o) (o_credit o) s c) as Hd.
  destruct (c_acquire c) eqn:Ea.
  - destruct (o_free o && _) eqn:Eo; [|by apply IH]. apply andb_prop in Eo as [_ Eo]. apply bool_decide_eq_true in Eo.
    rewrite (bind_Ret _ _ s _ tt (queue_call_eq env CallAcquire (o_msg o) s)).
    match goal with |- context [mbind _ _ ?s1] => specialize (Hd s1 Hc (answers_acquire (o_msg o) s _ Hi Eo)) end.
    unfold mbind, M_bind. by destruct (deliver _ _ _ _ _) as [s' [[]|e]].
  - specialize (Hd s Hc Hi). unfold mbind, M_bind. by destruct (deliver _ _ _ _ _) as [s' [[]|e]].
Qed.

Lemma keeps_doDispatch t : keeps (doDispatch env t).
Proof.
  unfold doDispatch. apply dkeeps_bind; [apply keeps_quiet; quiet_step|]. intros c.
  apply dkeeps_bind; [apply keeps_quiet; quiet_step|]. intros s. apply keeps_dispatch_loop.
Qed.

Lemma keeps_doOutput t : keeps (doOutput env t).
Proof.
  unfold doOutput. apply dkeeps_bind; [apply keeps_quiet; quiet_step|]. intros []; [apply keeps_doDispatch|apply keeps_quiet; quiet_step].
Qed.

Lemma keeps_flush n t : keeps (flush env n t).
Proof.
  unfold flush. apply dkeeps_bind; [|intros []; apply keeps_quiet; quiet_step].
  induction n as [|n IH]; cbn [flush_loop]; [apply keeps_quiet; quiet_step|]. apply dkeeps_bind; [apply keeps_doOutput|].
  intros []; [done|apply keeps_quiet; quiet_step].
Qed.

(** *** Settlement *)

(** the records replaced by others that hold the same messages *)
Lemma inv_unacked s s' l L :
  answers s (live_msgs l ++ L) -> L ≡ₚ live_msgs (pend (acks s)) -> s' = set_unacked l s -> Inv s'.
Proof. intros Hs HL ->. unfold Inv, held. cbn [unacked acks set_unacked]. rewrite <- HL. by apply (answers_same s). Qed.

(** a predicate of [remove_if] *)
Record settler (f : DeliveryRecord -> Op (DeliveryRecord * bool)) : Prop := {
  se_owes r L : owes ((if live r then [msg r] else []) ++ L) (f r) (fun p => (if live p.1 then [msg p.1] else []) ++ L);
  se_drops r s s' r' : f r s = (s', Ret (r', true)) -> live r' = false
}.

Lemma remove_loop_inv f kept given_up rest L s :
  settler f -> answers s (live_msgs kept ++ live_msgs rest ++ L) -> L ≡ₚ live_msgs (pend (acks s)) ->
  match remove_loop f kept given_up rest s with (s', Ret _) => Inv s' | (s', Throw e) => fatal e end.
Proof.
  intros Hf. revert kept given_up s. induction rest as [|r rest IH]; intros kept g s Hs HL; cbn [remove_loop].
  { eapply inv_unacked; [exact Hs|exact HL|done]. }
  rewrite live_msgs_cons in Hs.
  assert (Hs' : answers s ((if live r then [msg r] else []) ++ live_msgs kept ++ live_msgs rest ++ L)).
  { repermute Hs. }
  pose proof (se_owes f Hf r _ s Hs') as Ho. pose proof (se_drops f Hf r s) as Hd. unfold on_throw. unfold mbind, M_bind.
  destruct (f r s) as [s1 [[r' b]|e]]; [|done]. destruct Ho as (Ho & Hu & Hk). cbn [fst] in Ho. rewrite <- Hk in HL.
  destruct b.
  - rewrite (Hd s1 r' eq_refl) in Ho. by apply IH.
  - apply IH; [|done]. rewrite live_msgs_app, live_msgs_cons. repermute Ho.
Qed.

Lemma remove_if_inv f s : settler f -> Inv s ->
  match remove_if f s with (s', Ret _) => Inv s' | (s', Throw e) => fatal e end.
Proof. intros Hf Hi. unfold remove_if. rewrite (bind_Ret get _ s s s eq_refl). by apply (remove_loop_inv f [] [] (unacked s) (live_msgs (pend (acks s)))). Qed.

Lemma keeps_remove_if f : settler f -> keeps (remove_if f).
Proof. intros Hf s Hi. pose proof (remove_if_inv f s Hf Hi) as H. by destruct (remove_if f s) as [s' [[]|e]]. Qed.

Lemma redundant_dead r : isRedundant r = true -> live r = false.
Proof. unfold isRedundant. intros [He _]%andb_prop. by apply live_ended. Qed.

Lemma settler_in_set set (f : DeliveryRecord -> Op DeliveryRecord) :
  (forall r L, owes ((if live r then [msg r] else []) ++ L) (f r) (fun r' => (if live r' then [msg r'] else []) ++ L)) ->
  settler (isInSequenceSetAnd set f).
Proof.
  intros Hf. constructor; intros r; unfold isInSequenceSetAnd; destruct (SequenceSet.contains set (id r)).
  - intros L. eapply owes_bind; [apply Hf|]. intros r'. by apply owes_ret.
  - intros L. by apply owes_ret.
  - intros s s' r'. unfold mbind, M_bind. destruct (f r s) as [s1 [r1|e]]; [|done]. cbn. intros [= <- <- Hr]. by apply redundant_dead.
  - done.
Qed.

Lemma live_erase l : live_msgs (erase_redundant l) = live_msgs l.
Proof.
  induction l as [|r l IH]; [done|]. unfold erase_redundant. rewrite filter_cons, live_msgs_cons. destruct (isRedundant r) eqn:E.
  - rewrite decide_False by done. rewrite (redundant_dead r E). exact IH.
  - rewrite decide_True by done. rewrite live_msgs_cons. by f_equal.
Qed.

Lemma live_erase_upto last l : live_msgs (erase_upto last l) = live_msgs l.
Proof.
  induction l as [|r l IH]; [done|]. cbn [erase_upto]. destruct (SequenceNumber.leb (id r) last); [|done].
  rewrite live_msgs_cons. destruct (isRedundant r) eqn:E; [by rewrite (redundant_dead r E), IH|by rewrite live_msgs_cons, IH].
Qed.

Lemma findRange_split first last l s :
  match findRange first last l s with
  | (s', Ret (a, b, c)) => s' = s /\ l = a ++ b ++ c
  | (s', Throw e) => fatal e
  end.
Proof.
  unfold findRange. destruct (lower_bound (fun r => SequenceNumber.ltb (id r) first) l) as [start tail] eqn:E1.
  destruct (lower_bound (fun r => SequenceNumber.ltb (id r) last) l) as [upto tail'].
  apply lower_bound_app in E1. destruct (_ <? _)%nat; [by right|]. cbn. split; [done|]. by rewrite take_drop.
Qed.
(** the records in a range are each given to [m] *)
Lemma ranged_inv {A} first last (m : list DeliveryRecord -> list DeliveryRecord -> list DeliveryRecord -> Op A) s :
  (forall before range after, unacked s = before ++ range ++ after ->
    match m before range after s with (s', Ret _) => Inv s' | (s', Throw e) => ~ fatal e -> Inv s' end) ->
  match (r ← findRange first last (unacked s); let '(before, range, after) := r in m before range after) s with
  | (s', Ret _) => Inv s' | (s', Throw e) => ~ fatal e -> Inv s' end.
Proof.
  intros Hm. pose proof (findRange_split first last (unacked s) s) as Hf. unfold mbind, M_bind.
  destruct (findRange first last (unacked s) s) as [s' [[[a b] c]|e]]; [|done]. destruct Hf as [-> Hl]. by apply Hm.
Qed.

Lemma keeps_release1 b first last : keeps (release1 env b first last).
Proof.
  intros s Hi. unfold release1. rewrite (bind_Ret get _ s s s eq_refl). apply ranged_inv. intros before range after Hu.
  unfold Inv, held in Hi. rewrite Hu, !live_msgs_app in Hi.
  pose proof (owes_each_rev (dr_release env b) range (live_msgs before ++ live_msgs after ++ live_msgs (pend (acks s)))
    (owes_release env b) s) as Ho.
  unfold mbind, M_bind. destruct (each_rev _ range s) as [s' [range'|e]].
  - cbn. destruct Ho as (Ho & Hu' & Hk); [repermute Hi|].
    eapply (inv_unacked s' _ _ (live_msgs (pend (acks s)))); [|by rewrite Hk|done]. rewrite !live_msgs_app, live_erase.
    repermute Ho.
  - intros Hn. destruct Hn. apply Ho. repermute Hi.
Qed.

Lemma keeps_reject1 first last : keeps (reject1 env first last).
Proof.
  intros s Hi. unfold reject1. rewrite (bind_Ret get _ s s s eq_refl). apply ranged_inv. intros before range after Hu.
  unfold Inv, held in Hi. rewrite Hu, !live_msgs_app in Hi.
  pose proof (owes_each_in (fun r => r ← dr_reject env r; mret (r, [] : list Z)) (fun r => r) before range after
    (live_msgs before ++ live_msgs after ++ live_msgs (pend (acks s)))) as Ho.
  specialize (Ho ltac:(apply Forall_forall; intros r _ L; eapply owes_bind; [apply owes_reject|]; intros r'; by apply owes_ret) s).
  unfold mbind, M_bind. destruct (each_in _ _ _ range _ s) as [s' [[range' l]|e]].
  - cbn. destruct Ho as (Ho & Hu' & Hk); [repermute Hi|].
    eapply (inv_unacked s' _ _ (live_msgs (pend (acks s)))); [|by rewrite Hk|done].
    rewrite !live_msgs_app, live_erase_upto, live_msgs_app. repermute Ho.
  - intros Hn. destruct Hn. apply Ho. repermute Hi.
Qed.

(** the records an acquisition would touch *)
Definition open_range (first last : Z) (s : Session) : Prop :=
  match findRange first last (unacked s) s with
  | (_, Ret (_, range, _)) => Forall (fun r => ended r = false) range
  | _ => True
  end.

Lemma acquire1_inv first last s : Inv s -> open_range first last s ->
  match acquire1 env first last s with (s', Ret _) => Inv s' | (s', Throw e) => ~ fatal e -> Inv s' end.
Proof.
  intros Hi Ho. unfold acquire1. rewrite (bind_Ret get _ s s s eq_refl). unfold open_range in Ho.
  pose proof (findRange_split first last (unacked s) s) as Hf. unfold mbind, M_bind.
  destruct (findRange first last (unacked s) s) as [s' [[[before range] after]|e]]; [|done]. destruct Hf as [-> Hu].
  unfold Inv, held in Hi. rewrite Hu, !live_msgs_app in Hi.
  pose proof (owes_each_in (dr_acquire env) (set_acquired true) before range after
    (live_msgs before ++ live_msgs after ++ live_msgs (pend (acks s)))) as Hw.
  specialize (Hw ltac:(eapply Forall_impl; [exact Ho|]; intros r Hr L; by apply owes_dr_acquire) s).
  destruct (each_in _ _ _ range _ s) as [s' [[range' l]|e]].
  - cbn. destruct Hw as (Hw & Hu' & Hk); [repermute Hi|].
    eapply (inv_unacked s' _ _ (live_msgs (pend (acks s)))); [|by rewrite Hk|done]. rewrite !live_msgs_app.
    repermute Hw.
  - intros Hn. destruct Hn. apply Hw. repermute Hi.
Qed.
Fixpoint open_ranges (set : SequenceSet.t) (s : Session) : Prop :=
  match set with
  | [] => True
  | r :: set => open_range (range_first r) (range_last r) s /\
      open_ranges set (acquire1 env (range_first r) (range_last r) s).1
  end.

Lemma acquire_inv set s : Inv s -> open_ranges set s ->
  match acquire env set s with (s', Ret _) => Inv s' | (s', Throw e) => ~ fatal e -> Inv s' end.
Proof.
  revert s. induction set as [|r set IH]; intros s Hi Ho; [done|]. destruct Ho as [Ho Hos].
  pose proof (acquire1_inv _ _ s Hi Ho) as H1. unfold acquire in *. cbn [for_ranges]. unfold mbind at 1, M_bind at 1.
  destruct (acquire1 env (range_first r) (range_last r) s) as [s1 [l|e]]; [|done]. specialize (IH s1 H1 Hos).
  unfold mbind, M_bind. destruct (for_ranges _ set s1) as [s2 [l'|e]]; done.
Qed.

Lemma keeps_for_ranges {B} (f : Z -> Z -> Op (list B)) set : (forall a b, keeps (f a b)) -> keeps (for_ranges f set).
Proof.
  intros Hf. induction set as [|r set IH]; cbn [for_ranges]; [apply keeps_quiet; quiet_step|].
  apply dkeeps_bind; [done|]. intros l. apply dkeeps_bind; [done|]. intros l'. apply keeps_quiet. quiet_step.
Qed.

Lemma keeps_release set b : keeps (release env set b).
Proof.
  apply dkeeps_bind; [|intros l; apply keeps_quiet; quiet_step]. apply keeps_for_ranges. intros x y.
  apply dkeeps_bind; [apply keeps_release1|intros []; apply keeps_quiet; quiet_step].
Qed.

Lemma keeps_reject set : keeps (reject env set).
Proof.
  apply dkeeps_bind; [|intros l; apply keeps_quiet; quiet_step]. apply keeps_for_ranges. intros x y.
  apply dkeeps_bind; [apply keeps_reject1|intros []; apply keeps_quiet; quiet_step].
Qed.

Lemma keeps_completed set : keeps (completed_ set).
Proof.
  apply dkeeps_bind; [|intros []; apply keeps_quiet; quiet_step]. apply keeps_remove_if, settler_in_set. intros r L.
  intros s Hs. unfold complete, mbind, M_bind, get. destruct (consumers s !! tag r) as [c|]; [|done].
  destruct (completed r) eqn:Ec; [done|]. cbn. destruct (windowing (c_credit c)); (split; [by apply (answers_same s)|done]).
Qed.

(** *** Acknowledgement in a transaction *)

(** [remove_if] with a predicate without effects *)
Lemma remove_loop_pure (f : DeliveryRecord -> Op (DeliveryRecord * bool)) g p kept given_up rest s :
  (forall r s, f r s = (s, Ret (g r, p r))) ->
  remove_loop f kept given_up rest s = (set_unacked (kept ++ (g <$> filter (fun r => p r = false) rest)) s, Ret tt).
Proof.
  intros Hf. revert kept given_up. induction rest as [|r rest IH]; intros kept gu; cbn [remove_loop].
  { unfold modify. cbn. by rewrite app_nil_r. }
  unfold mbind, M_bind, on_throw. rewrite Hf. destruct (p r) eqn:E; rewrite IH, filter_cons, E; [done|].
  rewrite decide_True by done. cbn. by rewrite <- app_assoc.
Qed.

(** marks a record of the set as ended *)
Definition end_in (set : SequenceSet.t) (r : DeliveryRecord) : DeliveryRecord := if coveredBy set r then setEnded r else r.

Lemma live_end_in set l :
  live_msgs l ≡ₚ live_msgs (filter (fun r => coveredBy set r = true) l) ++ live_msgs (end_in set <$> l).
Proof.
  induction l as [|r l IH]; [done|]. cbn [fmap list_fmap]. rewrite filter_cons, !live_msgs_cons. unfold end_in at 1 2.
  destruct (coveredBy set r); [rewrite decide_True by done|rewrite decide_False by done].
  - rewrite live_msgs_cons, live_setEnded, IH. cbn [app]. solve_Permutation.
  - rewrite IH. solve_Permutation.
Qed.

Lemma live_dead_removed (g : DeliveryRecord -> DeliveryRecord) (p : DeliveryRecord -> bool) l :
  (forall r, p r = true -> live (g r) = false) -> live_msgs (g <$> filter (fun r => p r = false) l) = live_msgs (g <$> l).
Proof.
  intros Hp. induction l as [|r l IH]; [done|]. rewrite filter_cons. cbn [fmap list_fmap]. rewrite live_msgs_cons.
  destruct (p r) eqn:E; [rewrite decide_False by done; by rewrite (Hp r E), IH|].
  rewrite decide_True by done. cbn [fmap list_fmap]. by rewrite live_msgs_cons, IH.
Qed.

(** nothing but what is accepted now is enlisted in the branch *)
Definition accepts_exactly (set : SequenceSet.t) (s : Session) : Prop :=
  Forall (fun r => coveredBy (SequenceSet.addAll (accumulatedAck s) set) r = coveredBy set r) (unacked s).

Lemma accepted_inv set s :
  Inv s -> (txBuffer s = true -> is_Some (dtxBuffer s) -> accepts_exactly set s) ->
  match accepted env set s with (s', Ret _) => Inv s' | (s', Throw e) => ~ fatal e -> Inv s' end.
Proof.
  intros Hi Hx. unfold accepted. rewrite (bind_Ret get _ s s s eq_refl). cbn beta.
  destruct (txBuffer s) eqn:Et.
  2: { apply (keeps_remove_if _ (settler_in_set set _ (owes_accept env)) s Hi). }
  cbn zeta. unfold mbind, M_bind, modify. destruct (dtxBuffer s) as [b|] eqn:Ed.
  2: { apply (quiet_inv (modify (set_accumulated (SequenceSet.addAll (accumulatedAck s) set))) s); [quiet_step|done]. }
  specialize (Hx eq_refl ltac:(by eexists)). unfold remove_if, mbind, M_bind, get. cbn [unacked set_acks set_accumulated].
  rewrite (remove_loop_pure _ (end_in set) (fun r => coveredBy set r && isRedundant (end_in set r))).
  2: { intros r s'. unfold isInSequenceSetAnd, end_in, coveredBy. by destruct (SequenceSet.contains set (id r)). }
  assert (Hack : new_DtxAck (SequenceSet.addAll (accumulatedAck s) set) (unacked s) = filter (fun r => coveredBy set r = true) (unacked s)).
  { unfold new_DtxAck. apply filter_ext_in. intros r Hr. unfold accepts_exactly in Hx. rewrite Forall_forall in Hx. by rewrite (Hx r Hr). }
  rewrite Hack. cbn [app].
  match goal with |- Inv (set_unacked ?l ?s') => eapply (inv_unacked s' _ l); [|reflexivity|done] end.
  rewrite (held_acks s _ b (filter (fun r => coveredBy set r = true) (unacked s))) by done. rewrite live_dead_removed.
  2: { intros r [_ Hr]%andb_prop. by apply redundant_dead. }
  apply (answers_same s); [done|done|]. unfold Inv, held in Hi. rewrite (live_end_in set (unacked s)) in Hi. repermute Hi.
Qed.
(** *** Local transactions *)

(** the records [TxAccept::each] visits marked as ended *)
Fixpoint ended_at (l : list DeliveryRecord) : list Z -> list DeliveryRecord :=
  match l with
  | [] => fun _ => []
  | r :: l' =>
      fix over_seq (acked : list Z) : list DeliveryRecord :=
        match acked with
        | [] => r :: l'
        | a :: acked' =>
            if SequenceNumber.eqb (id r) a then setEnded r :: ended_at l' acked'
            else if SequenceNumber.ltb (id r) a then r :: ended_at l' acked
            else over_seq acked'
        end
  end.

Lemma tx_each_ended l acked s : tx_each (fun r => mret (setEnded r)) l acked s = (s, Ret (ended_at l acked)).
Proof.
  revert acked. induction l as [|r l IH]; intros acked; [done|]. induction acked as [|a acked IHa]; [done|].
  cbn [tx_each ended_at]. destruct (SequenceNumber.eqb (id r) a).
  - unfold mbind, M_bind. cbn. by rewrite IH.
  - destruct (SequenceNumber.ltb (id r) a); [|exact IHa]. unfold mbind, M_bind. by rewrite IH.
Qed.

Lemma owes_tx_committed l acked L :
  owes (live_msgs l ++ L) (tx_each (fun r => dr_committed env r ;; mret r) l acked) (fun _ => live_msgs (ended_at l acked) ++ L).
Proof.
  revert acked L. induction l as [|r l IH]; intros acked L; [by apply owes_ret|]. induction acked as [|a acked IHa]; [by apply owes_ret|].
  cbn [tx_each ended_at]. destruct (SequenceNumber.eqb (id r) a).
  - rewrite !live_msgs_cons, live_setEnded, <- app_assoc. eapply owes_bind; [|intros r'; eapply owes_bind; [apply IH|intros l'; by apply owes_ret]].
    eapply owes_bind; [apply owes_committed|]. intros []. by apply owes_ret.
  - destruct (SequenceNumber.ltb (id r) a); [|exact IHa]. rewrite !live_msgs_cons.
    apply owes_pre with (L' := live_msgs l ++ (if live r then [msg r] else []) ++ L); [solve_Permutation|].
    eapply owes_bind; [apply IH|]. intros l'. apply owes_ret. solve_Permutation.
Qed.

Lemma quiet_dequeue r : quiet (dr_dequeue env r).
Proof.
  unfold dr_dequeue. destruct (live r); [|quiet_step]. intros s. rewrite queue_call_eq. repeat split.
  - cbn [fst]. rewrite holding_after. destruct (decide (m = msg r)) as [->|]; [by destruct (holding (msg r) s)|done].
  - cbn. set_solver.
  - exists [Called CallDequeueTx (msg r) (holding (msg r) s)]. split; [done|by repeat constructor].
Qed.
Hint Resolve quiet_dequeue : quiet.

Lemma quiet_tx_each f l acked : (forall r, quiet (f r)) -> quiet (tx_each f l acked).
Proof.
  intros Hf. revert acked. induction l as [|r l IH]; intros acked; [quiet_step|]. induction acked as [|a acked IHa]; [quiet_step|].
  cbn [tx_each]. destruct (SequenceNumber.eqb (id r) a); [quiet_step|]. destruct (SequenceNumber.ltb (id r) a); [quiet_step|exact IHa].
Qed.

Lemma quiet_caught {A} (m : Op A) : quiet m -> quiet (caught m).
Proof. intros Hm s. specialize (Hm s). unfold caught. by destruct (m s) as [s' [a|e]]. Qed.

Lemma keeps_tx_commit acked : keeps (tx_commit env acked).
Proof.
  intros s Hi. unfold tx_commit. rewrite (bind_Ret get _ s s s eq_refl). cbn beta.
  pose proof (owes_tx_committed (unacked s) (elements acked) (live_msgs (pend (acks s))) s Hi) as Ho.
  unfold mbind at 1, M_bind at 1. destruct (tx_each _ (unacked s) _ s) as [s1 [l1|e]]; [|tauto].
  destruct Ho as (Ho & Hu & Hk). rewrite (bind_Ret _ _ _ _ _ (tx_each_ended _ _ s1)). cbn beta.
  set (l := ended_at (unacked s) (elements acked)) in *.
  assert (Hput : Inv (set_unacked l s1)) by (eapply inv_unacked; [exact Ho|by rewrite Hk|done]).
  destruct (front acked) as [first|], (back acked) as [last|]; try exact Hput.
  pose proof (findRange_split first last l s1) as Hf. unfold mbind, M_bind.
  destruct (findRange first last l s1) as [s2 [[[before range] after]|e]]; [|tauto]. destruct Hf as [-> Hl].
  eapply (inv_unacked s1 _ _ (live_msgs (pend (acks s)))); [|by rewrite Hk|done]. rewrite Hl, !live_msgs_app in Ho. rewrite !live_msgs_app, live_erase. exact Ho.
Qed.

Lemma dkeeps_commit others : keeps (commit env others).
Proof.
  unfold commit. apply dkeeps_bind; [apply keeps_quiet; quiet_step|]. intros s.
  apply dkeeps_bind; [apply keeps_quiet; quiet_step|]. intros [].
  apply dkeeps_bind.
  { apply keeps_quiet. unfold tx_prepare. apply quiet_bind; [quiet_step|]. intros s'. apply quiet_caught, quiet_tx_each. quiet_step. }
  intros ok. destruct (ok && others).
  - apply dkeeps_bind; [apply keeps_tx_commit|]. intros []. apply keeps_quiet. unfold startTx. quiet_step.
  - apply keeps_quiet. unfold startTx. quiet_step.
Qed.

(** *** Distributed transactions, and the end of the session *)

Lemma quiet_dtx_prepare b : quiet (dtx_prepare env b).
Proof.
  unfold dtx_prepare. apply quiet_bind; [quiet_step|]. intros s. apply quiet_caught.
  induction (concat _) as [|r l IH]; cbn [for_records]; quiet_step.
Qed.

(** neither the release of messages nor a commit that was prepared throws *)
Lemma for_records_ret f l s : (forall r s, exists s', f r s = (s', Ret tt)) -> exists s', for_records f l s = (s', Ret tt).
Proof.
  intros Hf. revert s. induction l as [|r l IH]; intros s; cbn [for_records]; [by eexists|].
  destruct (Hf r s) as [s1 E]. rewrite (bind_Ret _ _ _ _ _ E). apply IH.
Qed.

Lemma requeue_ret r s : exists s', dr_requeue env r s = (s', Ret tt).
Proof. unfold dr_requeue. destruct (live r); [rewrite queue_call_eq|]; by eexists. Qed.
Lemma committed_ret r s : exists s', dr_committed env r s = (s', Ret tt).
Proof. unfold dr_committed. destruct (live r); [rewrite queue_call_eq|]; by eexists. Qed.

Lemma dtx_decide_inv b commits s : Inv s ->
  match dtx_decide env b commits s with (s', Ret _) => Inv s' | (s', Throw e) => False end.
Proof.
  intros Hi. unfold dtx_decide. rewrite (bind_Ret get _ s s s eq_refl). cbn beta.
  set (l := concat (default [] (acks s !! b))).
  pose proof (owes_for_records (if commits then dr_committed env else dr_requeue env) l
    (live_msgs (unacked s) ++ live_msgs (pend (delete b (acks s))))) as Ho.
  specialize (Ho ltac:(destruct commits; [apply owes_committed|apply owes_requeue]) s).
  assert (Hs : answers s (live_msgs l ++ live_msgs (unacked s) ++ live_msgs (pend (delete b (acks s))))).
  { unfold Inv, held in Hi. rewrite (live_msgs_perm _ _ (pend_delete (acks s) b)), live_msgs_app in Hi. fold l in Hi. repermute Hi. }
  specialize (Ho Hs).
  destruct (for_records_ret (if commits then dr_committed env else dr_requeue env) l s) as [s1 E].
  { destruct commits; [apply committed_ret|apply requeue_ret]. }
  unfold mbind, M_bind. destruct (for_records _ l s) as [s2 [[]|e]]; [|done].
  destruct Ho as (Ho & Hu & Hk). unfold Inv, held. cbn. rewrite Hu, Hk. by apply (answers_same s2).
Qed.

Lemma keeps_dtx_decide b commits : keeps (dtx_decide env b commits).
Proof. intros s Hi. pose proof (dtx_decide_inv b commits s Hi) as H. by destruct (dtx_decide env b commits s) as [s' [[]|e]]. Qed.

Lemma requeue_inv s : Inv s ->
  match requeue env s with (s', Ret _) => Inv s' /\ unacked s' = [] /\ acks s' = acks s | (s', Throw e) => False end.
Proof.
  intros Hi. unfold requeue. rewrite (bind_Ret get _ s s s eq_refl). unfold mbind at 1, M_bind at 1, modify.
  pose proof (owes_for_records (dr_requeue env) (reverse (unacked s)) (live_msgs (pend (acks s))) (owes_requeue env) (set_unacked [] s)) as Ho.
  assert (Hs : answers (set_unacked [] s) (live_msgs (reverse (unacked s)) ++ live_msgs (pend (acks s)))).
  { apply (answers_same s); [done|done|]. rewrite (live_msgs_perm _ _ (reverse_Permutation (unacked s))). exact Hi. }
  specialize (Ho Hs). destruct (for_records_ret (dr_requeue env) (reverse (unacked s)) (set_unacked [] s) requeue_ret) as [s1 E].
  rewrite E in Ho |- *. destruct Ho as (Ho & Hu & Hk). unfold Inv, held. by rewrite Hu, Hk.
Qed.
Lemma closed_inv s : Inv s ->
  match closed env s with
  | (s', Ret _) => Inv s' /\ (closeComplete s = false -> unacked s' = [])
  | (s', Throw e) => False
  end.
Proof.
  intros Hi. unfold closed. rewrite (bind_Ret get _ s s s eq_refl). destruct (closeComplete s); [done|].
  rewrite (bind_Ret disable_all _ s (disable_all s).1 tt) by done.
  pose proof (quiet_inv disable_all s quiet_disable_all Hi) as H1. set (s1 := (disable_all s).1) in *. clearbody s1.
  set (d := match dtxBuffer s with Some b => dtx_decide env b false | None => mret tt end : Op unit).
  assert (H2 : match d s1 with (s', Ret _) => Inv s' | (s', Throw e) => False end).
  { subst d. destruct (dtxBuffer s) as [b|]; [|done]. by apply dtx_decide_inv. }
  clearbody d. unfold mbind at 1, M_bind at 1. destruct (d s1) as [s2 [[]|e]]; [|done].
  pose proof (requeue_inv s2 H2) as H3. unfold mbind, M_bind. destruct (requeue env s2) as [s3 [[]|e]]; [|done].
  destruct H3 as (H3 & Hu & _). cbn.
  assert (Hq : quiet (disable_all ;; cancel_all ;; modify set_closeComplete)) by (unfold cancel_all; quiet_step).
  split; [exact (quiet_inv _ s3 Hq H3)|]. intros _. destruct (Hq s3) as (_ & Hu' & _). rewrite <- Hu. exact Hu'.
Qed.
End keeps.

(** ** Sequences of commands *)

(** a command of the client or of the connection *)
Definition needs_session (c : Command) : bool :=
  match c with
  | DtxPrepare _ | DtxDecide _ _ | Close | MessageAppears _ | MessageTaken _ | MessageReturned _ | MessageRemoved _ => false
  | _ => true
  end.

(** A closed session gets no commands.  Messages that are settled are not acquired
    again; a session that works on a branch has not accepted messages in a local
    transaction before.  The numbers of messages are not used again, and other
    sessions take messages that are available. *)
Definition allowed (env : Environment) (s : Session) (c : Command) : Prop :=
  (needs_session c = true -> closeComplete s = false) /\
  match c with
  | Acquire set => open_ranges env set s
  | Accept set => txBuffer s = true -> is_Some (dtxBuffer s) -> accepts_exactly set s
  | MessageAppears m => holds s !! m = None
  | MessageTaken m => holding m s = Available
  | MessageReturned m => holding m s = Others
  | _ => True
  end.

(** the session goes on unless the store or the program fails *)
Definition survives {A} (o : outcome A) : Prop := match o with Throw e => ~ fatal e | Ret _ => True end.

Inductive reach (env : Environment) (may : Session -> Command -> Prop) : Session -> Prop :=
| reach_new : reach env may new_Session
| reach_step s c :
    reach env may s -> may s c -> survives (run_command env c s).2 -> reach env may (run_command env c s).1.

Section reach.
Context (env : Environment).

Lemma delivery_inv_new : Inv new_Session.
Proof.
  constructor; [constructor|by intros m ?%elem_of_nil|done|by intros q m h ?%elem_of_nil].
Qed.

Lemma live_cancel t l : live_msgs (dr_cancel t <$> l) = live_msgs l.
Proof.
  induction l as [|r l IH]; [done|]. cbn [fmap list_fmap]. rewrite !live_msgs_cons, IH. unfold dr_cancel. by destruct (decide (tag r = t)).
Qed.

Lemma keeps_cancel_tag t : keeps (cancel_tag t).
Proof.
  unfold cancel_tag. apply dkeeps_bind; [apply keeps_quiet; quiet_step|]. intros c.
  apply dkeeps_bind; [apply keeps_quiet; unfold cancel_consumer, disable, removeOutputTask; quiet_step|]. intros [] s Hi.
  eapply (inv_unacked (set_consumers (delete t (consumers s)) s) _ _ (live_msgs (pend (acks s)))); [|done|done].
  rewrite live_erase, live_cancel. by apply (answers_same s).
Qed.

Lemma by_others_inv m h s :
  Inv s -> h <> Mine -> (m ∈ held s -> h = Gone) -> Inv (by_others m h s).1.
Proof.
  intros [H1 H2 H3 H4] Hn Hh. unfold Inv. change (held (by_others m h s).1) with (held s).
  assert (Hhold : forall m', holding m' (by_others m h s).1 = if decide (m' = m) then h else holding m' s).
  { intros m'. unfold holding. cbn. destruct (decide (m' = m)) as [->|]; [by rewrite lookup_insert_eq|by rewrite lookup_insert_ne]. }
  constructor; [done| | |exact H4].
  - intros m' Hm'. rewrite Hhold. destruct (H2 m' Hm') as [Ho Hd]. split; [|cbn; set_solver].
    destruct (decide (m' = m)) as [->|]; [|done]. right. by apply Hh.
  - intros m'. rewrite Hhold. destruct (decide (m' = m)); [done|]. apply H3.
Qed.

Lemma session_command_inv s c : Inv s -> allowed env s c -> survives (run_command env c s).2 -> Inv (run_command env c s).1.
Proof.
  intros Hi [_ Ha] Hs.
  assert (Hk : forall (m : Op unit), keeps m -> survives (m s).2 -> Inv (m s).1).
  { intros m Hm Hsv. specialize (Hm s Hi). destruct (m s) as [s' [a|e]]; auto. }
  assert (Hm : forall (m : Op unit), match m s with (s', Ret _) => Inv s' | (s', Throw e) => ~ fatal e -> Inv s' end ->
    survives (m s).2 -> Inv (m s).1) by (intros m Hm; destruct (m s) as [s' [a|e]]; auto).
  destruct c; cbn [run_command] in *;
    try (apply Hk; [apply keeps_quiet; unfold consume_, flow, setFlowMode, stop, notify, addOutputTask, startTx, rollback, startDtx, endDtx,
           attach, detach; solve [quiet_step]|done]).
  - apply Hk; [apply keeps_cancel_tag|done].
  - apply Hk; [apply keeps_flush|done].
  - apply Hk; [|done]. apply dkeeps_bind; [apply keeps_doOutput|]. intros b. apply keeps_quiet. quiet_step.
  - apply Hm; [|done]. by apply accepted_inv.
  - apply Hk; [apply keeps_release|done].
  - apply Hk; [apply keeps_reject|done].
  - apply Hm; [|done]. pose proof (acquire_inv env set s Hi Ha) as H. unfold mbind, M_bind. by destruct (acquire env set s) as [s' [l|e]].
  - apply Hk; [apply keeps_completed|done].
  - apply Hk; [apply dkeeps_commit|done].
  - apply Hk; [|done]. apply dkeeps_bind; [apply keeps_quiet, quiet_dtx_prepare|]. intros b'. apply keeps_quiet. quiet_step.
  - apply Hk; [apply keeps_dtx_decide|done].
  - pose proof (closed_inv env s Hi) as H. destruct (closed env s) as [s' [[]|e]]; [apply H|done].
  - apply by_others_inv; [done|done|]. intros Hh. destruct (an_held s _ Hi m Hh) as [_ Hd]. apply elem_of_dom in Hd. rewrite Ha in Hd.
    by destruct Hd.
  - apply by_others_inv; [done|done|]. intros Hh. by destruct (an_held s _ Hi m Hh) as [[E|E] _]; rewrite Ha in E.
  - apply by_others_inv; [done|done|]. intros Hh. by destruct (an_held s _ Hi m Hh) as [[E|E] _]; rewrite Ha in E.
  - by apply by_others_inv.
Qed.

Lemma delivery_inv s : reach env (allowed env) s -> Inv s.
Proof. induction 1; [apply delivery_inv_new|by apply session_command_inv]. Qed.

(** C5: as long as a client does not acquire messages it has settled and does not
    accept in a local transaction what it then leaves out of its accepts on a
    branch (the code enforces neither: see [session_misuse]), no exception of
    the store ends a command half done, and other sessions and the queues act
    on messages that are theirs, a session releases, rejects and dequeues only messages that it holds or that are
    off their queue; every message it holds is held by exactly one of its delivery
    records or of the acknowledgements in undecided distributed transactions, and
    when it closes it gives back all others *)
Theorem no_message_lost s :
  reach env (allowed env) s ->
  (forall q m h, Called q m h ∈ log s -> settling q = true -> h = Mine \/ h = Gone) /\
  NoDup (held s) /\
  (forall m, holding m s = Mine -> m ∈ held s) /\
  (closeComplete s = false ->
    match closed env s with
    | (s', Ret _) => forall m, holding m s' = Mine -> m ∈ live_msgs (pend (acks s'))
    | (s', Throw _) => False
    end).
Proof.
  intros Hr. pose proof (delivery_inv s Hr) as Hi. split; [|split; [|split]].
  - apply (an_log _ _ Hi).
  - apply (an_once _ _ Hi).
  - apply (an_all _ _ Hi).
  - intros Hc. pose proof (closed_inv env s Hi) as H. destruct (closed env s) as [s' [[]|e]].
    + destruct H as [H Hu]. specialize (Hu Hc). intros m Hm. apply (an_all _ _ H) in Hm. unfold held in Hm. by rewrite Hu in Hm.
    + done.
Qed.
End reach.
