(* ===== verification/CreditBounds.v ===== *)
(** * Credit is respected

    What the credit counters of a session's consumers have to do with the
    credit that was granted, the messages sent and the deliveries that the client
    has not completed, for any sequence of commands. *)

From Stdlib Require Import ZArith Lia Ascii String.
From stdpp Require Import gmap strings.
From S2P Require Import Prelude SequenceNumber RangeSet SequenceSet Credit SemanticState Deliveries DeliverySystem.

(** ** Sums over the log and the records *)

Definition sumZ (l : list Z) : Z := foldr Z.add 0 l.

Lemma sumZ_app l l' : sumZ (l ++ l') = sumZ l + sumZ l'.
Proof. induction l as [|x l IH]; cbn; [done|]. unfold sumZ in *. lia. Qed.

Lemma sumZ_one z : sumZ [z] = z.
Proof. unfold sumZ. cbn. lia. Qed.

(** message and byte credit granted to a consumer in a mode *)
Definition granted (c : nat) (w : bool) (lg : list Event) : Z * Z :=
  (sumZ (omap (fun e => match e with Granted c' w' m _ => if decide (c' = c /\ w' = w) then Some m else None | _ => None end) lg),
   sumZ (omap (fun e => match e with Granted c' w' _ b => if decide (c' = c /\ w' = w) then Some b else None | _ => None end) lg)).

(** messages and octets sent to it in credit mode *)
Definition sent (c : nat) (lg : list Event) : Z * Z :=
  let l := omap (fun e => match e with Transfer _ c' _ z false _ => if decide (c' = c) then Some z else None | _ => None end) lg in
  (Z.of_nat (length l), sumZ l).

(** the octets of the deliveries to [t] that use its window *)
Definition outstanding (t : str) (l : list DeliveryRecord) : list Z :=
  credit <$> filter (fun r => (tag r = t /\ completed r = false) /\ windowed r = true) l.

(** ** The invariant *)

Record window_ok (w : CreditWindow) (out grants : Z) : Prop := {
  wo_base : modest (balance (base w)); wo_used : used w = out; wo_small : modest out;
  wo_granted : out <= grants; wo_balance : balance (base w) <= grants
}.

Record balance_ok (b : CreditBalance) (spent grants : Z) : Prop := {
  bo_modest : modest (balance b); bo_granted : spent + balance b <= grants; bo_spent : 0 <= spent
}.

Record funded (lg : list Event) (l : list DeliveryRecord) (t : str) (c : ConsumerImpl) : Prop := {
  fu_modes r : r ∈ l -> tag r = t -> completed r = false -> windowed r = windowing (c_credit c);
  fu_current r : r ∈ l -> tag r = t -> cancelled r = false;
  fu_positive r : r ∈ l -> tag r = t -> 0 <= credit r;
  fu_wm : window_ok (messages (window (c_credit c))) (Z.of_nat (length (outstanding t l))) (granted (c_id c) true lg).1;
  fu_wb : window_ok (bytes (window (c_credit c))) (sumZ (outstanding t l)) (granted (c_id c) true lg).2;
  fu_bm : balance_ok (messages (balances (c_credit c))) (sent (c_id c) lg).1 (granted (c_id c) false lg).1;
  fu_bb : balance_ok (bytes (balances (c_credit c))) (sent (c_id c) lg).2 (granted (c_id c) false lg).2
}.

Definition about (e : Event) : option nat :=
  match e with Transfer _ c _ _ _ _ | Granted c _ _ _ => Some c | Called _ _ _ => None end.

Record solvent (s : Session) (l : list DeliveryRecord) : Prop := {
  so_funded t c : consumers s !! t = Some c -> funded (log s) l t c;
  so_fresh t c : consumers s !! t = Some c -> (c_id c < fresh s)%nat;
  so_unique t c t' c' : consumers s !! t = Some c -> consumers s !! t' = Some c' -> c_id c = c_id c' -> t = t';
  so_log e n : e ∈ log s -> about e = Some n -> (n < fresh s)%nat
}.

Definition CInv (s : Session) : Prop := solvent s (unacked s).

(** ** Changes that keep it *)

(** what the counters depend on in a record *)
Definition same_shape (r r' : DeliveryRecord) : Prop :=
  tag r' = tag r /\ completed r' = completed r /\ windowed r' = windowed r /\ cancelled r' = cancelled r /\ credit r' = credit r.

Lemma outstanding_app t l l' : outstanding t (l ++ l') = outstanding t l ++ outstanding t l'.
Proof. unfold outstanding. by rewrite filter_app, fmap_app. Qed.

Lemma outstanding_cons t r l :
  outstanding t (r :: l) = (if decide ((tag r = t /\ completed r = false) /\ windowed r = true) then [credit r] else []) ++ outstanding t l.
Proof. unfold outstanding. rewrite filter_cons. by destruct (decide _). Qed.

Lemma funded_replace lg l1 l2 r r' t c :
  same_shape r r' -> funded lg (l1 ++ r :: l2) t c -> funded lg (l1 ++ r' :: l2) t c.
Proof.
  intros (Ht & Hc & Hw & Hx & Hz) [H1 H2 H3 H4 H5 H6 H7].
  assert (Hin : forall x, x ∈ l1 ++ r' :: l2 -> x = r' \/ x ∈ l1 ++ r :: l2) by set_solver.
  assert (Hr : r ∈ l1 ++ r :: l2) by set_solver.
  assert (Ho : outstanding t (l1 ++ r' :: l2) = outstanding t (l1 ++ r :: l2)).
  { rewrite !outstanding_app, !outstanding_cons, Ht, Hc, Hw, Hz. done. }
  constructor; rewrite ?Ho; try done.
  - intros x [->|Hx']%Hin; [rewrite Ht, Hc, Hw; by apply H1|by apply H1].
  - intros x [->|Hx']%Hin; [rewrite Ht, Hx; by apply H2|by apply H2].
  - intros x [->|Hx']%Hin; [rewrite Ht, Hz; by apply H3|by apply H3].
Qed.

Lemma funded_drop lg l1 l2 r t c : isRedundant r = true -> funded lg (l1 ++ r :: l2) t c -> funded lg (l1 ++ l2) t c.
Proof.
  intros Hr [H1 H2 H3 H4 H5 H6 H7].
  assert (Hin : forall x, x ∈ l1 ++ l2 -> x ∈ l1 ++ r :: l2) by set_solver.
  assert (Ho : outstanding t (l1 ++ l2) = outstanding t (l1 ++ r :: l2)).
  { rewrite !outstanding_app, outstanding_cons. rewrite decide_False; [done|]. intros [[Ht Hc] Hw].
    unfold isRedundant in Hr. rewrite Hc, Hw, (H2 r ltac:(set_solver) Ht) in Hr. by rewrite andb_false_r in Hr. }
  constructor; rewrite ?Ho; auto.
Qed.

Lemma solvent_replace s l1 l2 r r' : same_shape r r' -> solvent s (l1 ++ r :: l2) -> solvent s (l1 ++ r' :: l2).
Proof. intros Hr [H1 H2 H3 H4]. constructor; try done. intros t c Hc. eapply funded_replace; eauto. Qed.

Lemma solvent_drop s l1 l2 r : isRedundant r = true -> solvent s (l1 ++ r :: l2) -> solvent s (l1 ++ l2).
Proof. intros Hr [H1 H2 H3 H4]. constructor; try done. intros t c Hc. eapply funded_drop; eauto. Qed.

Lemma solvent_erase s l1 l l2 : solvent s (l1 ++ l ++ l2) -> solvent s (l1 ++ erase_redundant l ++ l2).
Proof.
  revert l1. induction l as [|r l IH]; intros l1 Hs; [done|]. unfold erase_redundant. rewrite filter_cons.
  destruct (isRedundant r) eqn:E.
  - rewrite decide_False by done. apply IH. by eapply solvent_drop.
  - rewrite decide_True by done. cbn [app]. rewrite cons_middle, app_assoc. apply IH. by rewrite <- app_assoc.
Qed.

Lemma solvent_erase_upto s last l1 l : solvent s (l1 ++ l) -> solvent s (l1 ++ erase_upto last l).
Proof.
  revert l1. induction l as [|r l IH]; intros l1 Hs; [done|]. cbn [erase_upto]. destruct (SequenceNumber.leb (id r) last); [|done].
  destruct (isRedundant r) eqn:E; [apply IH; by eapply solvent_drop|].
  rewrite cons_middle, app_assoc. apply IH. by rewrite <- app_assoc.
Qed.

(** *** States *)

(** [s'] has the same consumers, as far as credit goes, and the same relevant log *)
Definition same_funds (s s' : Session) : Prop :=
  (forall t c', consumers s' !! t = Some c' -> exists c, consumers s !! t = Some c /\ c_id c' = c_id c /\ c_credit c' = c_credit c) /\
  (fresh s <= fresh s')%nat /\ exists es, log s' = es ++ log s /\ Forall (fun e => about e = None) es.

Lemma granted_app c w es lg :
  Forall (fun e => about e = None) es -> granted c w (es ++ lg) = granted c w lg /\ sent c (es ++ lg) = sent c lg.
Proof.
  intros H. unfold granted, sent. induction H as [|e es He _ [IH1 IH2]]; [done|].
  by destruct e.
Qed.

Lemma funded_funds lg es l t c c' :
  Forall (fun e => about e = None) es -> c_id c' = c_id c -> c_credit c' = c_credit c ->
  funded lg l t c -> funded (es ++ lg) l t c'.
Proof.
  intros He Hid Hcr [H1 H2 H3 H4 H5 H6 H7].
  assert (Hg : forall w, granted (c_id c') w (es ++ lg) = granted (c_id c) w lg) by (intros w; rewrite Hid; by apply granted_app).
  assert (Hse : sent (c_id c') (es ++ lg) = sent (c_id c) lg) by (rewrite Hid; by apply (granted_app _ true)).
  constructor; rewrite ?Hcr, ?Hg, ?Hse; done.
Qed.

Lemma solvent_funds s s' l : same_funds s s' -> solvent s l -> solvent s' l.
Proof.
  intros (Hc & Hf & es & Hl & He) [H1 H2 H3 H4]. constructor.
  - intros t c' (c & Hs & Hid & Hcr)%Hc. rewrite Hl. eapply funded_funds; eauto.
  - intros t c' (c & Hs & Hid & _)%Hc. rewrite Hid. specialize (H2 t c Hs). lia.
  - intros t c' t2 c2 (c & Hs & Hid & _)%Hc (c3 & Hs3 & Hid3 & _)%Hc Heq. eapply H3; eauto. congruence.
  - intros e n. rewrite Hl. intros [Hin|Hin]%elem_of_app Ha; [|specialize (H4 e n Hin Ha); lia].
    rewrite Forall_forall in He. by rewrite (He e Hin) in Ha.
Qed.

(** *** Calls *)

Lemma same_funds_refl s : same_funds s s.
Proof. split; [eauto|]. split; [done|]. by exists []. Qed.

Lemma same_funds_trans s1 s2 s3 : same_funds s1 s2 -> same_funds s2 s3 -> same_funds s1 s3.
Proof.
  intros (H1 & H2 & es & H3 & H4) (H1' & H2' & es' & H3' & H4'). split; [|split; [lia|]].
  - intros t c3 (c2 & Hc2 & Hid & Hcr)%H1'. destruct (H1 t c2 Hc2) as (c & Hc & Hid' & Hcr'). exists c. split; [done|]. split; congruence.
  - exists (es' ++ es). rewrite H3', H3, app_assoc. split; [done|by apply Forall_app].
Qed.

(** a call that leaves credit and records alone *)
Definition idle {A} (m : Op A) : Prop := forall s,
  same_funds s (m s).1 /\ unacked (m s).1 = unacked s /\ closeComplete (m s).1 = closeComplete s.

Lemma idle_bind {A B} (m : Op A) (f : A -> Op B) : idle m -> (forall a, idle (f a)) -> idle (m ≫= f).
Proof.
  intros Hm Hf s. specialize (Hm s). unfold mbind, M_bind. destruct (m s) as [s1 [a|e]]; [|done]. destruct Hm as (H1 & H2 & H3).
  destruct (Hf a s1) as (H1' & H2' & H3'). split; [by eapply same_funds_trans|]. cbn in *. split; congruence.
Qed.

Lemma idle_ret {A} (a : A) : idle (mret a).
Proof. intros s. split; [apply same_funds_refl|done]. Qed.
Lemma idle_throw {A} e : idle (throw e : Op A).
Proof. intros s. split; [apply same_funds_refl|done]. Qed.
Lemma idle_get : idle get.
Proof. intros s. split; [apply same_funds_refl|done]. Qed.
Lemma idle_guard b e : idle (guard_throw b e).
Proof. intros s. destruct b; (split; [apply same_funds_refl|done]). Qed.
Lemma idle_alloc : idle alloc.
Proof. intros s. split; [|done]. split; [eauto|]. split; [cbn; lia|]. by exists []. Qed.
Lemma idle_find t : idle (find t).
Proof. unfold find. apply idle_bind; [apply idle_get|]. intros s. destruct (consumers s !! t); [apply idle_ret|apply idle_throw]. Qed.
Lemma idle_modify f : (forall s, consumers (f s) = consumers s /\ fresh (f s) = fresh s /\ log (f s) = log s /\
    unacked (f s) = unacked s /\ closeComplete (f s) = closeComplete s) -> idle (modify f).
Proof.
  intros H s. destruct (H s) as (H1 & H2 & H3 & H4 & H5). split; [|done]. split; [cbn; rewrite H1; eauto|].
  split; [cbn; lia|]. by exists [].
Qed.

(** consumers changed, their credit not *)
Lemma idle_consumers f g :
  (forall s, consumers (f s) = g <$> consumers s /\ fresh (f s) = fresh s /\ log (f s) = log s /\
    unacked (f s) = unacked s /\ closeComplete (f s) = closeComplete s) ->
  (forall c, c_id (g c) = c_id c /\ c_credit (g c) = c_credit c) -> idle (modify f).
Proof.
  intros H Hg s. destruct (H s) as (H1 & H2 & H3 & H4 & H5). split; [|done]. split; [|split; [cbn; lia|by exists []]].
  cbn. rewrite H1. intros t c' Hc. rewrite lookup_fmap in Hc. destruct (consumers s !! t) as [c|]; [|done]. injection Hc as <-.
  exists c. by destruct (Hg c).
Qed.

Lemma idle_queue_call env q m : idle (queue_call env q m).
Proof.
  intros s. rewrite queue_call_eq. split; [|done]. split; [eauto|]. split; [done|]. exists [Called q m (holding m s)].
  split; [done|by repeat constructor].
Qed.

Create HintDb idle.
#[export] Hint Resolve idle_ret idle_throw idle_get idle_guard idle_alloc idle_find idle_queue_call : idle.

Ltac idle_step := repeat (intros; first
  [ solve [eauto with idle nocore]
  | lazymatch goal with
    | |- idle (_ ≫= _) => apply idle_bind
    | |- idle (modify _) => apply idle_modify; intros ?; repeat split
    | |- idle (match ?x with _ => _ end) => destruct x
    end ]).

(** a consumer found and put back with another flag *)
Lemma idle_reput {A} t (g : ConsumerImpl -> ConsumerImpl) (k : ConsumerImpl -> Op A) :
  (forall c, c_id (g c) = c_id c /\ c_credit (g c) = c_credit c) -> (forall c, idle (k c)) ->
  idle (c ← find t; update_consumer t (g c) ;; k c).
Proof.
  intros Hg Hk s. unfold find, mbind, M_bind, get. destruct (consumers s !! t) as [c|] eqn:E; [|split; [apply same_funds_refl|done]].
  cbn. set (s1 := set_consumers (<[t := g c]> (consumers s)) s).
  assert (H1 : same_funds s s1).
  { split; [|split; [done|by exists []]]. intros t' c'. cbn. destruct (decide (t = t')) as [<-|Hn].
    - rewrite lookup_insert_eq. intros [= <-]. exists c. by destruct (Hg c).
    - rewrite lookup_insert_ne by done. eauto. }
  destruct (Hk c s1) as (H2 & H3 & H4). split; [by eapply same_funds_trans|]. done.
Qed.

Lemma idle_for_records l f : (forall r, idle (f r)) -> idle (for_records f l).
Proof. intros Hf. induction l as [|r l IH]; cbn [for_records]; idle_step. Qed.

Lemma idle_tx_each f l acked : (forall r, idle (f r)) -> idle (tx_each f l acked).
Proof.
  intros Hf. revert acked. induction l as [|r l IH]; intros acked; [idle_step|]. induction acked as [|a acked IHa]; [idle_step|].
  cbn [tx_each]. destruct (SequenceNumber.eqb (id r) a); [idle_step|]. destruct (SequenceNumber.ltb (id r) a); [idle_step|exact IHa].
Qed.

Lemma idle_caught {A} (m : Op A) : idle m -> idle (caught m).
Proof. intros Hm s. specialize (Hm s). unfold caught. by destruct (m s) as [s' [a|e]]. Qed.

(** ** Record functions *)

Definition shapes (f : DeliveryRecord -> Op DeliveryRecord) : Prop := forall r,
  idle (f r) /\ forall s, match (f r s).2 with Ret r' => same_shape r r' | Throw e => fatal e end.

Section records.
Context (env : Environment).

Lemma shapes_call (q : QueueCall) (p : DeliveryRecord -> bool) (g : DeliveryRecord -> DeliveryRecord) :
  (forall r, same_shape r (g r)) ->
  shapes (fun r => if p r then queue_call env q (msg r) ;; mret (g r) else mret r).
Proof.
  intros Hg r. split; [destruct (p r); idle_step|]. intros s. destruct (p r); [|done].
  unfold mbind, M_bind. rewrite queue_call_eq. destruct (stores q && _); [by left|apply Hg].
Qed.

Lemma shapes_release b : shapes (dr_release env b).
Proof. by apply (shapes_call (CallRelease b) live (fun r => setEnded (set_acquired false r))). Qed.

Lemma shapes_reject : shapes (dr_reject env).
Proof. by apply (shapes_call CallReject live setEnded). Qed.

Lemma shapes_accept : shapes (dr_accept env).
Proof.
  intros r. unfold dr_accept. split; [idle_step|]. intros s. destruct (ended r); [done|].
  unfold mbind, M_bind. destruct (acquired r); [|done]. rewrite queue_call_eq. destruct (stores _ && _); [by left|done].
Qed.

(** ** Loops over the records *)

(** the function replaces a record, or drops it *)
Definition left_over (p : DeliveryRecord * bool) : list DeliveryRecord := if p.2 then [] else [p.1].

Definition steady {B} (f : DeliveryRecord -> Op B) (left : B -> list DeliveryRecord) : Prop := forall r s l1 l2,
  solvent s (l1 ++ r :: l2) ->
  match f r s with (s', Ret b) => solvent s' (l1 ++ left b ++ l2) | (s', Throw e) => fatal e end.

Lemma steady_shapes f : shapes f -> steady f (fun r => [r]).
Proof.
  intros Hf r s l1 l2 Hs. destruct (Hf r) as [Hi Ho]. destruct (Hi s) as (H1 & _ & _). specialize (Ho s).
  destruct (f r s) as [s' [r'|e]]; [|done]. eapply solvent_funds; [exact H1|]. by apply (solvent_replace s l1 l2 r r').
Qed.

Lemma steady_in_set set f :
  steady f (fun r => [r]) -> steady (isInSequenceSetAnd set f) left_over.
Proof.
  intros Hf r s l1 l2 Hs. unfold isInSequenceSetAnd. destruct (SequenceSet.contains set (id r)); [|done].
  specialize (Hf r s l1 l2 Hs). unfold mbind, M_bind. destruct (f r s) as [s' [r'|e]]; [|done]. cbn.
  destruct (isRedundant r') eqn:E; [by apply (solvent_drop s' l1 l2 r')|done].
Qed.

Lemma steady_with f : steady f (fun r => [r]) -> steady (fun r => r ← f r; mret (r, [] : list Z)) (fun p => [p.1]).
Proof. intros Hf r s l1 l2 Hs. specialize (Hf r s l1 l2 Hs). unfold mbind, M_bind. by destruct (f r s) as [s' [r'|e]]. Qed.

Lemma remove_loop_solvent f kept given_up rest s :
  steady f left_over -> solvent s (kept ++ rest) ->
  match remove_loop f kept given_up rest s with (s', Ret _) => CInv s' | (s', Throw e) => fatal e end.
Proof.
  intros Hf. revert kept given_up s. induction rest as [|r rest IH]; intros kept g s Hs; cbn [remove_loop].
  { cbn. rewrite app_nil_r in Hs. eapply solvent_funds; [|exact Hs]. split; [eauto|]. split; [done|by exists []]. }
  specialize (Hf r s kept rest Hs). unfold on_throw. unfold mbind, M_bind. destruct (f r s) as [s1 [[r' []]|e]]; [| |done].
  - by apply IH.
  - apply IH. cbn in Hf. by rewrite <- app_assoc.
Qed.

Lemma each_in_solvent {B} (f : DeliveryRecord -> Op (DeliveryRecord * list B)) torn before rest after l1 s :
  steady f (fun p => [p.1]) -> solvent s (l1 ++ rest ++ after) ->
  match each_in f torn before rest after s with (s', Ret p) => solvent s' (l1 ++ p.1 ++ after) | (s', Throw e) => fatal e end.
Proof.
  intros Hf. revert before l1 s. induction rest as [|r rest IH]; intros before l1 s Hs; cbn [each_in]; [done|].
  specialize (Hf r s l1 (rest ++ after) Hs). unfold on_throw. unfold mbind at 1, M_bind at 1.
  destruct (f r s) as [s1 [[r' b]|e]]; [|done]. cbn [fst] in Hf. rewrite app_assoc in Hf.
  specialize (IH (before ++ [r']) _ s1 Hf). unfold mbind, M_bind. destruct (each_in _ _ _ _ _ _) as [s2 [[l bs]|e]]; [|done].
  cbn. by rewrite <- app_assoc in IH.
Qed.

Lemma each_rev_solvent f l1 l l2 s :
  steady f (fun r => [r]) -> solvent s (l1 ++ l ++ l2) ->
  match each_rev f l s with (s', Ret l') => solvent s' (l1 ++ l' ++ l2) | (s', Throw e) => fatal e end.
Proof.
  intros Hf. revert l1. induction l as [|r l IH]; intros l1 Hs; cbn [each_rev]; [done|].
  cbn [app] in Hs. rewrite cons_middle, app_assoc in Hs. specialize (IH _ Hs). unfold mbind at 1, M_bind at 1.
  destruct (each_rev f l s) as [s1 [l'|e]]; [|done]. rewrite <- app_assoc in IH.
  specialize (Hf r s1 l1 (l' ++ l2) IH). unfold mbind, M_bind. by destruct (f r s1) as [s2 [r'|e]].
Qed.

Lemma tx_each_solvent f l1 l l2 acked s :
  steady f (fun r => [r]) -> solvent s (l1 ++ l ++ l2) ->
  match tx_each f l acked s with (s', Ret l') => solvent s' (l1 ++ l' ++ l2) | (s', Throw e) => fatal e end.
Proof.
  intros Hf. revert l1 acked s. induction l as [|r l IH]; intros l1 acked s Hs; [done|].
  assert (Hrest : forall r' s1 acked', solvent s1 (l1 ++ r' :: l ++ l2) ->
    match (l' ← tx_each f l acked'; mret (r' :: l')) s1 with
    | (s', Ret l') => solvent s' (l1 ++ l' ++ l2) | (s', Throw e) => fatal e end).
  { intros r' s1 acked' H1. rewrite cons_middle, app_assoc in H1. specialize (IH _ acked' s1 H1). unfold mbind, M_bind.
    destruct (tx_each f l acked' s1) as [s2 [l'|e]]; [|done]. by rewrite <- app_assoc in IH. }
  induction acked as [|a acked IHa]; [done|]. cbn [tx_each]. destruct (SequenceNumber.eqb (id r) a).
  - specialize (Hf r s l1 (l ++ l2) Hs). unfold mbind at 1, M_bind at 1. destruct (f r s) as [s1 [r'|e]]; [|done]. by apply Hrest.
  - destruct (SequenceNumber.ltb (id r) a); [|exact IHa]. by apply Hrest.
Qed.

(** ** Calls of a session *)

Definition ckeeps {A} (m : Op A) : Prop := forall s, CInv s ->
  match m s with (s', Ret _) => CInv s' | (s', Throw e) => ~ fatal e -> CInv s' end.

Lemma ckeeps_bind {A B} (m : Op A) (f : A -> Op B) : ckeeps m -> (forall a, ckeeps (f a)) -> ckeeps (m ≫= f).
Proof.
  intros Hm Hf s Hi. specialize (Hm s Hi). unfold mbind, M_bind. destruct (m s) as [s' [a|e]]; [by apply Hf|done].
Qed.

Lemma idle_cinv {A} (m : Op A) s : idle m -> CInv s -> CInv (m s).1.
Proof. intros Hm Hi. destruct (Hm s) as (H1 & H2 & _). unfold CInv. rewrite H2. by eapply solvent_funds. Qed.

Lemma ckeeps_idle {A} (m : Op A) : idle m -> ckeeps m.
Proof. intros Hm s Hi. pose proof (idle_cinv m s Hm Hi) as H. by destruct (m s) as [s' [a|e]]. Qed.

Lemma cinv_unacked s l : solvent s l -> CInv (set_unacked l s).
Proof. intros H. eapply solvent_funds; [|exact H]. split; [eauto|]. split; [done|by exists []]. Qed.

Lemma ckeeps_remove_if f : steady f left_over -> ckeeps (remove_if f).
Proof.
  intros Hf s Hi. unfold remove_if. rewrite (bind_Ret get _ s s s eq_refl).
  pose proof (remove_loop_solvent f [] [] (unacked s) s Hf Hi) as H. by destruct (remove_loop f [] [] (unacked s) s) as [s' [[]|e]].
Qed.

Lemma ckeeps_accepted set : ckeeps (accepted env set).
Proof.
  intros s Hi. unfold accepted. rewrite (bind_Ret get _ s s s eq_refl). cbn beta. destruct (txBuffer s).
  - revert s Hi. assert (Hk : forall acked d l, ckeeps (modify (set_accumulated acked) ;; match d with
      | None => mret tt
      | Some b => modify (fun s => set_acks (<[b := default [] (acks s !! b) ++ [l]]> (acks s)) (set_accumulated [] s)) ;;
          remove_if (isInSequenceSetAnd set (fun r => mret (setEnded r))) end)).
    { intros acked d l. apply ckeeps_bind; [apply ckeeps_idle; idle_step|]. intros [].
      destruct d as [b|]; [|apply ckeeps_idle; idle_step]. apply ckeeps_bind; [apply ckeeps_idle; idle_step|]. intros [].
      apply ckeeps_remove_if, steady_in_set, steady_shapes. intros r. split; [idle_step|done]. }
    intros s Hi. apply (Hk _ (dtxBuffer s) _ s Hi).
  - apply (ckeeps_remove_if _ (steady_in_set set _ (steady_shapes _ shapes_accept)) s Hi).
Qed.

(** the records in a range *)
Lemma ranged_cinv {A} first last (m : list DeliveryRecord -> list DeliveryRecord -> list DeliveryRecord -> Op A) s :
  (forall before range after, unacked s = before ++ range ++ after ->
    match m before range after s with (s', Ret _) => CInv s' | (s', Throw e) => ~ fatal e -> CInv s' end) ->
  match (r ← findRange first last (unacked s); let '(before, range, after) := r in m before range after) s with
  | (s', Ret _) => CInv s' | (s', Throw e) => ~ fatal e -> CInv s' end.
Proof.
  intros Hm. pose proof (findRange_split first last (unacked s) s) as Hf. unfold mbind, M_bind.
  destruct (findRange first last (unacked s) s) as [s' [[[a b] c]|e]]; [|done]. destruct Hf as [-> Hl]. by apply Hm.
Qed.

Lemma ckeeps_release1 b first last : ckeeps (release1 env b first last).
Proof.
  intros s Hi. unfold release1. rewrite (bind_Ret get _ s s s eq_refl). apply ranged_cinv. intros before range after Hu.
  unfold CInv in Hi. rewrite Hu in Hi. pose proof (each_rev_solvent _ _ _ _ s (steady_shapes _ (shapes_release b)) Hi) as H.
  unfold mbind, M_bind. destruct (each_rev _ range s) as [s' [l|e]]; [|done]. by apply cinv_unacked, solvent_erase.
Qed.

Lemma ckeeps_reject1 first last : ckeeps (reject1 env first last).
Proof.
  intros s Hi. unfold reject1. rewrite (bind_Ret get _ s s s eq_refl). apply ranged_cinv. intros before range after Hu.
  unfold CInv in Hi. rewrite Hu in Hi.
  pose proof (each_in_solvent (fun r => r ← dr_reject env r; mret (r, [] : list Z)) (fun r => r) before range after before s) as H.
  specialize (H ltac:(by apply steady_with, steady_shapes, shapes_reject) Hi).
  unfold mbind, M_bind in *. destruct (each_in _ _ _ range _ s) as [s' [[l bs]|e]]; [|done]. by apply cinv_unacked, solvent_erase_upto.
Qed.

Lemma steady_acquire : steady (dr_acquire env) (fun p => [p.1]).
Proof.
  intros r s l1 l2 Hs. unfold dr_acquire. rewrite (bind_Ret get _ s s s eq_refl). cbn beta.
  destruct (permits env (log s) (msg r) && _); [|done].
  rewrite (bind_Ret _ _ s _ tt (queue_call_eq env CallAcquire (msg r) s)). cbn beta zeta.
  pose proof (proj1 (idle_queue_call env CallAcquire (msg r) s)) as H1. rewrite queue_call_eq in H1. cbn [fst] in H1.
  eapply (solvent_funds _ _ _ H1) in Hs.
  destruct (acceptExpected (set_acquired true r)); [by apply (solvent_replace _ l1 l2 r)|].
  destruct (ended (set_acquired true r)); [by apply (solvent_replace _ l1 l2 r)|].
  match goal with |- context [mbind _ _ ?s1] => pose proof (proj1 (idle_queue_call env CallDequeue (msg (set_acquired true r)) s1)) as H2 end.
  unfold mbind, M_bind. destruct (queue_call env CallDequeue _ _) as [s2 [[]|e]] eqn:E.
  - eapply (solvent_funds _ _ _ H2) in Hs. by apply (solvent_replace _ l1 l2 r).
  - rewrite queue_call_eq in E. destruct (stores CallDequeue && _); [|done]. injection E as _ <-. by left.
Qed.

Lemma ckeeps_acquire1 first last : ckeeps (acquire1 env first last).
Proof.
  intros s Hi. unfold acquire1. rewrite (bind_Ret get _ s s s eq_refl). apply ranged_cinv. intros before range after Hu.
  unfold CInv in Hi. rewrite Hu in Hi.
  pose proof (each_in_solvent (dr_acquire env) (set_acquired true) before range after before s steady_acquire Hi) as H.
  unfold mbind, M_bind. destruct (each_in _ _ _ range _ s) as [s' [[l bs]|e]]; [|done]. by apply cinv_unacked.
Qed.
End records.

(** ** Changes of a consumer's credit *)

Lemma solvent_update s s' t c c' l l' :
  solvent s l -> consumers s !! t = Some c -> consumers s' = <[t := c']> (consumers s) -> c_id c' = c_id c ->
  (fresh s <= fresh s')%nat -> (forall e n, e ∈ log s' -> about e = Some n -> e ∈ log s \/ n = c_id c) ->
  funded (log s') l' t c' ->
  (forall t' c2, t' <> t -> consumers s !! t' = Some c2 -> c_id c2 <> c_id c -> funded (log s) l t' c2 -> funded (log s') l' t' c2) ->
  solvent s' l'.
Proof.
  intros [H1 H2 H3 H4] Hc Hs' Hid Hf Hl Hfu Hot. constructor.
  - intros t' c2. rewrite Hs'. destruct (decide (t = t')) as [<-|Hn]; [rewrite lookup_insert_eq; by intros [= <-]|].
    rewrite lookup_insert_ne by done. intros Hc2. apply Hot; [congruence|done| |by apply H1]. intros E. destruct Hn. by eapply H3.
  - intros t' c2. rewrite Hs'. destruct (decide (t = t')) as [<-|Hn].
    + rewrite lookup_insert_eq. intros [= <-]. rewrite Hid. specialize (H2 t c Hc). lia.
    + rewrite lookup_insert_ne by done. intros Hc2. specialize (H2 t' c2 Hc2). lia.
  - intros t1 c1 t2 c2. rewrite Hs'.
    assert (Hold : forall t' c3, <[t := c']> (consumers s) !! t' = Some c3 -> exists c0, consumers s !! t' = Some c0 /\ c_id c0 = c_id c3).
    { intros t' c3. destruct (decide (t = t')) as [<-|Hn]; [rewrite lookup_insert_eq; intros [= <-]; eauto|].
      rewrite lookup_insert_ne by done. eauto. }
    intros (d1 & Hd1 & E1)%Hold (d2 & Hd2 & E2)%Hold E. eapply H3; eauto. congruence.
  - intros e n He Ha. destruct (Hl e n He Ha) as [Hin| ->]; [specialize (H4 e n Hin Ha)|specialize (H2 t c Hc)]; lia.
Qed.

(** events and records of one consumer do not concern another *)
Lemma granted_other c w e lg : about e <> Some c -> granted c w (e :: lg) = granted c w lg /\ sent c (e :: lg) = sent c lg.
Proof.
  intros He. destruct e as [i c' m z [] sy|c' w' m b|q m h]; cbn in He; unfold granted, sent; cbn; try done.
  - rewrite decide_False by congruence. done.
  - rewrite !decide_False by naive_solver. done.
Qed.

Lemma funded_other lg e l t c : about e <> Some (c_id c) -> funded lg l t c -> funded (e :: lg) l t c.
Proof.
  intros He [H1 H2 H3 H4 H5 H6 H7]. pose proof (fun w => granted_other (c_id c) w e lg He) as Hg.
  constructor; try done; destruct (Hg true) as [Ht Hs], (Hg false) as [Hf _]; rewrite ?Ht, ?Hf, ?Hs; done.
Qed.

Lemma funded_other_tag lg l1 l2 l3 l4 t c :
  Forall (fun r => tag r <> t) l3 -> Forall (fun r => tag r <> t) l4 ->
  funded lg (l1 ++ l4 ++ l2) t c -> funded lg (l1 ++ l3 ++ l2) t c.
Proof.
  intros H3 H4 [F1 F2 F3 F4 F5 F6 F7]. rewrite Forall_forall in H3, H4.
  assert (Ho : forall l, (forall r, r ∈ l -> tag r <> t) -> outstanding t l = []).
  { intros l Hl. unfold outstanding. rewrite (filter_none _ l); [done|]. apply Forall_forall. intros r Hr [[Ht _] _]. by apply (Hl r). }
  assert (Hsame : outstanding t (l1 ++ l3 ++ l2) = outstanding t (l1 ++ l4 ++ l2)).
  { rewrite !outstanding_app, (Ho l3), (Ho l4); done. }
  constructor; rewrite ?Hsame; try done.
  - intros r Hr Ht. apply F1; [|done]. rewrite !elem_of_app in *. destruct Hr as [?|[Hr|?]]; [auto| |auto]. by destruct (H3 r Hr).
  - intros r Hr Ht. apply F2; [|done]. rewrite !elem_of_app in *. destruct Hr as [?|[Hr|?]]; [auto| |auto]. by destruct (H3 r Hr).
  - intros r Hr Ht. apply F3; [|done]. rewrite !elem_of_app in *. destruct Hr as [?|[Hr|?]]; [auto| |auto]. by destruct (H3 r Hr).
Qed.

(** *** Completion *)

Lemma steady_complete : steady complete (fun r => [r]).
Proof.
  intros r s l1 l2 Hs. unfold complete. rewrite (bind_Ret get _ s s s eq_refl). cbn beta.
  destruct (consumers s !! tag r) as [c|] eqn:Ec; [|done]. destruct (completed r) eqn:Ek; [done|].
  pose proof (so_funded _ _ Hs _ _ Ec) as Hf. destruct Hf as [F1 F2 F3 F4 F5 F6 F7].
  assert (Hin : r ∈ l1 ++ r :: l2) by set_solver. pose proof (F1 r Hin eq_refl Ek) as Hw.
  assert (Hx : forall x, x ∈ l1 ++ dr_complete r :: l2 -> x = dr_complete r \/ x ∈ l1 ++ r :: l2) by set_solver.
  assert (Hot : forall t' c2, t' <> tag r -> funded (log s) (l1 ++ r :: l2) t' c2 -> funded (log s) (l1 ++ dr_complete r :: l2) t' c2).
  { intros t' c2 Hn. apply (funded_other_tag (log s) l1 l2 [dr_complete r] [r]); (apply Forall_singleton; cbn; congruence). }
  assert (Ho : outstanding (tag r) (l1 ++ dr_complete r :: l2) = outstanding (tag r) l1 ++ outstanding (tag r) l2).
  { rewrite outstanding_app, outstanding_cons, decide_False; [done|]. by intros [[_ ?] _]. }
  rewrite outstanding_app, outstanding_cons in F4, F5.
  destruct (windowing (c_credit c)) eqn:Ew.
  - rewrite decide_True in F4, F5 by done. rewrite !length_app in F4. rewrite !sumZ_app in F5. cbn [length app sumZ foldr] in F4, F5.
    assert (Hpos : forall l, (forall x, x ∈ l -> x ∈ l1 ++ r :: l2) -> 0 <= sumZ (outstanding (tag r) l)).
    { intros l Hl. unfold outstanding. induction l as [|x l IH]; [done|]. rewrite filter_cons.
      assert (Hpx : tag x = tag r -> 0 <= credit x) by (intros Htx; apply F3; [apply Hl; by left|done]). specialize (IH ltac:(intros y Hy; apply Hl; by right)).
      case_decide as Hd; cbn; [|done]. unfold sumZ in IH. specialize (Hpx (proj1 (proj1 Hd))). lia. }
    pose proof (Hpos l1 ltac:(set_solver)) as Hp1. pose proof (Hpos l2 ltac:(set_solver)) as Hp2. pose proof (F3 r Hin eq_refl) as Hpr.
    unfold mbind, M_bind, update_consumer, modify. cbn [mret M_ret].
    eapply (solvent_update s _ (tag r) c _ _ _ Hs Ec); [reflexivity|reflexivity|cbn; lia|by left| |].
    2: { intros t' c2 Hn _ _. by apply Hot. }
    unfold moveWindow. rewrite Ew. cbn [set_credit c_credit c_id app log set_consumers].
    destruct F4 as [A1 A2 A3 A4 A5], F5 as [B1 B2 B3 B4 B5]. unfold modest in *.
    rewrite (window_move_exact 1) by (unfold modest; lia). rewrite (window_move_exact (credit r)) by (unfold modest; lia).
    constructor; cbn [c_id set_credit c_credit windowing window balances messages bytes]; rewrite ?Ho, ?length_app, ?sumZ_app; try done.
    + intros x [->|Hx']%Hx Ht Hc; [done|]. by apply F1.
    + intros x [->|Hx']%Hx Ht; [by apply (F2 r)|by apply F2].
    + intros x [->|Hx']%Hx Ht; [by apply (F3 r)|by apply F3].
    + constructor; cbn [base used]; unfold modest; lia.
    + constructor; cbn [base used]; unfold modest; lia.
  - cbn [mbind M_bind mret M_ret app]. rewrite decide_False in F4, F5 by (intros [_ ?]; congruence). destruct Hs as [S1 S2 S3 S4]. constructor; try done.
    intros t' c2 Hc2. destruct (decide (t' = tag r)) as [->|Hn]; [|apply Hot; [done|by apply S1]].
    rewrite Ec in Hc2. injection Hc2 as <-. constructor; rewrite ?Ho; try done.
    + intros x [->|Hx']%Hx Ht Hc; [done|]. by rewrite F1.
    + intros x [->|Hx']%Hx Ht; [by apply (F2 r)|by apply F2].
    + intros x [->|Hx']%Hx Ht; [by apply (F3 r)|by apply F3].
Qed.

(** *** Delivery *)

Lemma granted_Transfer c i c' m z w sy w' lg : granted c w' (Transfer i c' m z w sy :: lg) = granted c w' lg.
Proof. done. Qed.

Lemma sent_Transfer c i m z w sy lg :
  sent c (Transfer i c m z w sy :: lg) = if w then sent c lg else ((sent c lg).1 + 1, (sent c lg).2 + z).
Proof. unfold sent. cbn. destruct w; [done|]. rewrite decide_True by done. cbn [length fst snd]. f_equal; unfold sumZ; cbn; lia. Qed.

(** the credit of a consumer that is sent a message *)
Lemma funded_deliver lg l t c i m z sy r recorded :
  funded lg l t c -> check 1 z (c_credit c) = true -> modest z ->
  tag r = t -> completed r = false -> cancelled r = false -> credit r = z -> windowed r = windowing (c_credit c) ->
  (windowing (c_credit c) = true -> recorded = true) ->
  funded (Transfer i (c_id c) m z (windowing (c_credit c)) sy :: lg) (if recorded : bool then l ++ [r] else l) t
    (set_credit (consume 1 z (c_credit c)) c).
Proof.
  intros [F1 F2 F3 F4 F5 F6 F7] Hck Hz Ht Hco Hca Hcr Hw Hrec.
  set (l' := if recorded then l ++ [r] else l).
  assert (Hin : forall x, x ∈ l' -> x = r \/ x ∈ l) by (subst l'; destruct recorded; set_solver).
  assert (Hout : outstanding t l' = if windowing (c_credit c) then outstanding t l ++ [z] else outstanding t l).
  { subst l'. assert (Hr : outstanding t [r] = if windowing (c_credit c) then [z] else []).
    { rewrite outstanding_cons, app_nil_r, Hcr, Hw. destruct (windowing (c_credit c)); [by rewrite decide_True|].
      rewrite decide_False; [done|]. by intros [_ ?]. }
    destruct (windowing (c_credit c)); [rewrite Hrec by done|destruct recorded; [|done]]; by rewrite outstanding_app, Hr, ?app_nil_r. }
  destruct (c_credit c) as [[bm bb] [wm wb] w] eqn:Ec. cbn [windowing messages bytes window balances] in *.
  assert (Hboth : (if w then window_check 1 wm else balance_check 1 bm) = true /\ (if w then window_check z wb else balance_check z bb) = true).
  { destruct w; by apply andb_prop. }
  destruct Hboth as [Hm Hb].
  constructor; cbn [set_credit c_id c_credit]; rewrite ?granted_Transfer, ?sent_Transfer.
  - intros x [->|Hx]%Hin Htx Hcx; [rewrite Hw; by destruct w|]. rewrite (F1 x Hx Htx Hcx). by destruct w.
  - intros x [->|Hx]%Hin Htx; [done|by apply F2].
  - intros x [->|Hx]%Hin Htx; [rewrite Hcr; apply Hz|by apply F3].
  - rewrite Hout. destruct w; cbn [consume window messages]; [|done]. destruct F4 as [A1 A2 A3 A4 A5].
    destruct (window_consume_exact 1 wm A1 ltac:(by rewrite A2) ltac:(done) Hm) as [-> Hle].
    rewrite length_app. cbn [length]. unfold modest in *. constructor; cbn [base used]; unfold modest; lia.
  - rewrite Hout. destruct w; cbn [consume window bytes]; [|done]. destruct F5 as [A1 A2 A3 A4 A5].
    destruct (window_consume_exact z wb A1 ltac:(by rewrite A2) Hz Hb) as [-> Hle].
    rewrite sumZ_app, sumZ_one. unfold modest in *. constructor; cbn [base used]; unfold modest; lia.
  - destruct w; cbn [consume balances messages]; [done|]. destruct F6 as [A1 A2 A3]. 
    pose proof (balance_consume_exact 1 bm A1 ltac:(done) Hm) as E. unfold balance_check in Hm. apply Z.leb_le in Hm.
    unfold modest in *. constructor; cbn [fst]; unfold modest; lia.
  - destruct w; cbn [consume balances bytes]; [done|]. destruct F7 as [A1 A2 A3]. 
    pose proof (balance_consume_exact z bb A1 ltac:(apply Hz) Hb) as E. unfold balance_check in Hb. apply Z.leb_le in Hb.
    unfold modest in *. constructor; cbn [snd]; unfold modest; lia.
Qed.

Lemma deliver_cinv env t m z s c :
  CInv s -> consumers s !! t = Some c -> check 1 z (c_credit c) = true -> modest z ->
  match deliver env t m z s with (s', Ret _) => CInv s' | (s', Throw e) => fatal e end.
Proof.
  intros Hi Hc Hck Hz. unfold deliver, find, update_consumer. unfold mbind, M_bind, get, modify. rewrite Hc.
  cbn -[queue_call new_DeliveryRecord consume].
  set (c1 := set_credit (consume 1 z (c_credit c)) c) in *.
  match goal with |- context [set_deliveryCount ?n c1] => set (c2 := set_deliveryCount n c1) end.
  match goal with |- context [set_nextId ?n (emit ?e ?s1)] => set (e0 := e); set (s2 := set_nextId n (emit e0 s1)) end.
  match goal with |- context [new_DeliveryRecord m t ?a ?b ?x ?y ?w z] => set (r := new_DeliveryRecord m t a b x y w z) end.
  assert (Hwin : windowing (consume 1 z (c_credit c)) = windowing (c_credit c)).
  { destruct (c_credit c) as [[bm bb] [wm wb] []]; done. }
  match goal with |- context [if ?b then _ else _] => set (recorded := b) end.
  assert (Hs : solvent s2 (if recorded then unacked s ++ [r] else unacked s)).
  { eapply (solvent_update s s2 t c c2 _ _ Hi Hc); [done|done|done| | |].
    - intros e n He Ha. cbn in He. apply elem_of_cons in He as [->|He]; [right|by left]. by injection Ha as <-.
    - pose proof (so_funded _ _ Hi t c Hc) as Hf.
      pose proof (funded_deliver (log s) (unacked s) t c (nextId s) m z) as Hd. unfold s2, e0. cbn [log set_nextId emit set_consumers].
      rewrite Hwin. destruct (Hd (negb (syncFrequency c =? 0) && (syncFrequency c <=? deliveryCount c + 1)) r recorded Hf Hck Hz) as [D1 D2 D3 D4 D5 D6 D7]; try done.
      { intros Hw. unfold recorded. by rewrite Hwin, Hw. }
    - intros t' c3 Hn Hc3 Hid Hf. apply funded_other; [cbn; congruence|].
      destruct recorded; [|done]. rewrite <- (app_nil_r (unacked s)) in Hf.
      rewrite <- (app_nil_r [r]). apply (funded_other_tag _ (unacked s) [] [r] []); [|constructor|done].
      apply Forall_singleton. cbn. congruence. }
  assert (Hq : forall s3 (b : bool), CInv s3 -> match (if b then queue_call env CallDequeue m else mret tt) s3 with
    | (s', Ret _) => CInv s' | (s', Throw e) => fatal e end).
  { intros s3 [] H3; [|done]. pose proof (idle_cinv _ s3 (idle_queue_call env CallDequeue m) H3) as Hx. rewrite queue_call_eq in *.
    destruct (stores _ && _); [by left|done]. }
  clearbody recorded. destruct recorded.
  - cbn. apply Hq. change (unacked s2) with (unacked s). by apply cinv_unacked.
  - apply Hq. exact Hs.
Qed.

(** ** The commands *)

(** messages of less than 2^31 octets *)
Definition modest_offers (env : Environment) : Prop := forall lg q, Forall (fun o => modest (o_credit o)) (offers env lg q).

Section commands.
Context (env : Environment) (Henv : modest_offers env).

Lemma idle_c_accept t z : idle (c_accept t z).
Proof. by apply (idle_reput t (fun c => set_blocked (negb (check 1 z (c_credit c))) c)); [|idle_step]. Qed.

Lemma idle_haveCredit t : idle (haveCredit t).
Proof.
  intros s. pose proof (idle_reput t (set_blocked true) (fun _ => mret false) ltac:(done) ltac:(idle_step) s) as H.
  unfold haveCredit, find, mbind, M_bind, get in *. destruct (consumers s !! t) as [c|]; [|exact H].
  cbn [mret M_ret] in *. destruct (hasCredit (c_credit c)); [|exact H]. split; [apply same_funds_refl|done].
Qed.

Lemma idle_requestDispatch : idle requestDispatch.
Proof. by apply (idle_consumers _ (set_blocked false)). Qed.

Lemma c_accept_eq t z c s :
  consumers s !! t = Some c ->
  c_accept t z s = (set_consumers (<[t := set_blocked (negb (check 1 z (c_credit c))) c]> (consumers s)) s, Ret (check 1 z (c_credit c))).
Proof. intros Hc. unfold c_accept, find, mbind, M_bind, get. by rewrite Hc. Qed.

Lemma ckeeps_dispatch_loop t l : Forall (fun o => modest (o_credit o)) l -> ckeeps (dispatch_loop env t l).
Proof.
  induction 1 as [|o l Ho _ IH]; cbn [dispatch_loop]; [apply ckeeps_idle; idle_step|].
  destruct (o_wanted o); [|done]. intros s Hi.
  pose proof (idle_cinv (c_accept t (o_credit o)) s (idle_c_accept t (o_credit o)) Hi) as H1.
  destruct (consumers s !! t) as [c|] eqn:Ec.
  2: { rewrite (bind_Throw _ _ s s NotFoundException); [by intros _|]. unfold c_accept, find, mbind, M_bind, get. by rewrite Ec. }
  pose proof (c_accept_eq t (o_credit o) c s Ec) as Ea. rewrite (bind_Ret _ _ _ _ _ Ea). rewrite Ea in H1. cbn [fst] in H1.
  destruct (check 1 (o_credit o) (c_credit c)) eqn:Ek; [|done].
  set (c1 := set_blocked _ c) in *. set (s1 := set_consumers _ s) in *.
  assert (Hc1 : consumers s1 !! t = Some c1) by apply lookup_insert_eq.
  assert (Hck : check 1 (o_credit o) (c_credit c1) = true) by done. clearbody c1 s1.
  unfold find, get. unfold mbind, M_bind. rewrite Hc1. cbn [mret M_ret]. destruct (c_acquire c1).
  - destruct (o_free o && _); [|by apply IH]. rewrite queue_call_eq. cbn [stores andb].
    pose proof (idle_cinv _ s1 (idle_queue_call env CallAcquire (o_msg o)) H1) as H2. rewrite queue_call_eq in H2. cbn [fst] in H2.
    match goal with |- context [deliver env t _ _ ?s2] => pose proof (deliver_cinv env t (o_msg o) (o_credit o) s2 c1 H2 Hc1 Hck Ho) as Hd end.
    by destruct (deliver _ _ _ _ _) as [s3 [[]|e]].
  - pose proof (deliver_cinv env t (o_msg o) (o_credit o) s1 c1 H1 Hc1 Hck Ho) as Hd. by destruct (deliver _ _ _ _ _) as [s3 [[]|e]].
Qed.

Lemma ckeeps_doOutput t : ckeeps (doOutput env t).
Proof.
  unfold doOutput. apply ckeeps_bind; [apply ckeeps_idle, idle_haveCredit|]. intros []; [|apply ckeeps_idle; idle_step].
  unfold doDispatch. apply ckeeps_bind; [apply ckeeps_idle; idle_step|]. intros c.
  apply ckeeps_bind; [apply ckeeps_idle; idle_step|]. intros s. by apply ckeeps_dispatch_loop.
Qed.

(** the credit of a consumer is changed, and nothing else *)
Lemma credit_cinv t c c' s s' :
  CInv s -> consumers s !! t = Some c -> c_id c' = c_id c ->
  consumers s' = <[t := c']> (consumers s) -> unacked s' = unacked s -> fresh s' = fresh s ->
  (log s' = log s \/ exists e, log s' = e :: log s /\ about e = Some (c_id c)) ->
  funded (log s') (unacked s) t c' -> CInv s'.
Proof.
  intros Hi Hc Hid Hs' Hu Hfr Hl Hf. unfold CInv. rewrite Hu.
  eapply (solvent_update s s' t c _ _ _ Hi Hc Hs'); [done|lia| |done|].
  - intros e n. destruct Hl as [->|(e0 & -> & Ha0)]; [by left|]. intros [->|Hin]%elem_of_cons Ha; [right; congruence|by left].
  - intros t' c2 Hn Hc2 Hne Hf2. destruct Hl as [->|(e0 & -> & Ha0)]; [done|]. apply funded_other; [congruence|done].
Qed.

(** credit taken back *)
Lemma funded_cancel lg l t c : funded lg l t c -> funded lg l t (set_credit (cancel (c_credit c)) c).
Proof.
  intros [F1 F2 F3 F4 F5 F6 F7]. destruct F4 as [A1 A2 A3 A4 A5], F5 as [B1 B2 B3 B4 B5], F6 as [C1 C2 C3], F7 as [D1 D2 D3].
  destruct (c_credit c) as [[bm bb] [wm wb] w]. unfold modest in *.
  constructor; cbn [set_credit c_id c_credit]; try done; destruct w; cbn in *; try done; constructor; cbn; unfold modest; lia.
Qed.

Lemma ckeeps_stop t : ckeeps (stop t).
Proof.
  intros s Hi. unfold stop, find, update_consumer, mbind, M_bind, get, modify. destruct (consumers s !! t) as [c|] eqn:Ec; [|by intros _].
  cbn [mret M_ret]. eapply (credit_cinv t c (set_credit (cancel (c_credit c)) c) s); try done; [by left|].
  apply funded_cancel. by apply (so_funded _ _ Hi).
Qed.

Lemma ckeeps_flush n t : ckeeps (flush env n t).
Proof.
  unfold flush. apply ckeeps_bind; [|intros []; apply (ckeeps_stop t)].
  induction n as [|n IH]; cbn [flush_loop]; [apply ckeeps_idle; idle_step|]. apply ckeeps_bind; [apply ckeeps_doOutput|].
  intros []; [done|apply ckeeps_idle; idle_step].
Qed.

(** the mode is changed when everything was completed *)
Lemma setFlowMode_cinv t win s :
  CInv s -> Forall (fun r => tag r = t -> completed r = true) (unacked s) -> CInv (setFlowMode t win s).1.
Proof.
  intros Hi Hall. unfold setFlowMode, find, update_consumer, mbind, M_bind, get, modify.
  destruct (consumers s !! t) as [c|] eqn:Ec; [|done]. cbn [mret M_ret fst].
  eapply (credit_cinv t c (set_credit (setWindowMode win (c_credit c)) c) s); try done; [by left|].
  destruct (so_funded _ _ Hi t c Ec) as [F1 F2 F3 F4 F5 F6 F7]. constructor; try done. intros r Hr Ht Hc.
  rewrite Forall_forall in Hall. rewrite (Hall r Hr Ht) in Hc. done.
Qed.

(** the counter a grant goes to *)
Definition allotted (unit_ : Z) (c : Credit) : Z :=
  if windowing c then balance (base (if unit_ =? 0 then messages (window c) else bytes (window c)))
  else balance (if unit_ =? 0 then messages (balances c) else bytes (balances c)).

Lemma granted_Granted c w w' m b lg :
  granted c w (Granted c w' m b :: lg) =
    if decide (w' = w) then ((granted c w lg).1 + m, (granted c w lg).2 + b) else granted c w lg.
Proof.
  unfold granted. cbn. destruct (decide (w' = w)) as [->|Hn].
  - rewrite !decide_True by done. cbn. unfold sumZ. f_equal; cbn; lia.
  - rewrite !decide_False by naive_solver. done.
Qed.

Lemma window_ok_grant w out g v : window_ok w out g -> 0 <= v -> modest (balance (base w) + v) -> window_ok (on_base (grant v) w) out (g + v).
Proof.
  intros [A1 A2 A3 A4 A5] Hv Hm. pose proof (grant_exact v (base w) Hm Hv ltac:(apply A1)) as E. unfold modest in *.
  constructor; cbn; rewrite ?E; unfold modest; lia.
Qed.

Lemma balance_ok_grant b out g v : balance_ok b out g -> 0 <= v -> modest (balance b + v) -> balance_ok (grant v b) out (g + v).
Proof.
  intros [A1 A2 A3] Hv Hm. pose proof (grant_exact v b Hm Hv ltac:(apply A1)) as E. unfold modest in *.
  constructor; rewrite ?E; unfold modest; lia.
Qed.

Lemma window_ok_zero w out g : window_ok w out g -> window_ok w out (g + 0).
Proof. by rewrite Z.add_0_r. Qed.
Lemma balance_ok_zero b out g : balance_ok b out g -> balance_ok b out (g + 0).
Proof. by rewrite Z.add_0_r. Qed.

Lemma funded_grant lg l t c f m b :
  funded lg l t c -> 0 <= m -> 0 <= b ->
  (f = addMessageCredit m /\ b = 0 /\ modest (allotted 0 (c_credit c) + m)) \/
  (f = addByteCredit b /\ m = 0 /\ modest (allotted 1 (c_credit c) + b)) ->
  funded (Granted (c_id c) (windowing (c_credit c)) m b :: lg) l t (set_credit (f (c_credit c)) c).
Proof.
  intros [F1 F2 F3 F4 F5 F6 F7] Hm Hb Hcase. destruct (c_credit c) as [[bm bb] [wm wb] w] eqn:Ec.
  unfold allotted in Hcase. cbn in Hcase, F1, F4, F5, F6, F7.
  constructor; cbn [set_credit c_id c_credit]; rewrite ?granted_Granted; try done;
    destruct Hcase as [(-> & -> & Hx)|(-> & -> & Hx)]; destruct w; cbn in *; try done;
    first [by apply window_ok_grant|by apply balance_ok_grant|by apply window_ok_zero|by apply balance_ok_zero].
Qed.

Definition may_flow (t : str) (unit_ value : Z) (s : Session) : Prop :=
  0 <= value /\ forall c, consumers s !! t = Some c -> modest (allotted unit_ (c_credit c) + value).

Lemma grant_credit_cinv t f m b s :
  CInv s -> 0 <= m -> 0 <= b ->
  (forall c, consumers s !! t = Some c ->
    (f = addMessageCredit m /\ b = 0 /\ modest (allotted 0 (c_credit c) + m)) \/
    (f = addByteCredit b /\ m = 0 /\ modest (allotted 1 (c_credit c) + b))) ->
  CInv (grant_credit t f m b s).1.
Proof.
  intros Hi Hm Hb Hcase. unfold grant_credit, find, get. unfold mbind, M_bind. destruct (consumers s !! t) as [c|] eqn:Ec; [|exact Hi].
  specialize (Hcase c eq_refl). cbn [mret M_ret].
  set (c1 := set_credit (f (c_credit c)) c). unfold update_consumer, modify.
  set (s1 := set_consumers _ _).
  assert (Hw : windowing (c_credit c1) = windowing (c_credit c)).
  { subst c1. destruct (c_credit c) as [[bm bb] [wm wb] w]. destruct Hcase as [(-> & _)|(-> & _)]; by destruct w. }
  assert (H1 : CInv s1).
  { eapply (credit_cinv t c c1 s s1); try done.
    - right. exists (Granted (c_id c1) (windowing (c_credit c1)) m b). done.
    - unfold s1. cbn [log set_consumers emit]. rewrite Hw. change (c_id c1) with (c_id c). apply funded_grant; [|done..]. by apply (so_funded _ _ Hi). }
  unfold requestDispatch1. destruct (blocked c1); [|exact H1]. unfold addOutputTask, update_consumer, mbind, M_bind, modify. cbn [fst].
  eapply solvent_funds; [|exact H1]. split; [|split; [done|by exists []]]. intros t' c'. cbn [consumers set_consumers set_tasks].
  destruct (decide (t = t')) as [<-|Hn].
  - rewrite lookup_insert_eq. intros [= <-]. exists c1. unfold s1. cbn. by rewrite lookup_insert_eq.
  - rewrite lookup_insert_ne by done. eauto.
Qed.

Lemma flow_cinv t u v s : CInv s -> may_flow t u v s -> CInv (flow t u v s).1.
Proof.
  intros Hi [Hv Hm]. unfold flow. destruct (Z.eqb_spec u 0) as [->|Hu0]; [|destruct (Z.eqb_spec u 1) as [->|Hu1]; [|done]].
  - apply grant_credit_cinv; [done|done|done|]. intros c Hc. left. split; [done|]. split; [done|]. by apply Hm.
  - apply grant_credit_cinv; [done|done|done|]. intros c Hc. right. split; [done|]. split; [done|]. by apply Hm.
Qed.

(** a new consumer with a name that no delivery has *)
Lemma consume_cinv t q ack acq sync s :
  CInv s -> consumers s !! t = None -> Forall (fun r => tag r <> t) (unacked s) -> CInv (consume_ t q ack acq sync s).1.
Proof.
  intros [H1 H2 H3 H4] Ht Hr. unfold consume_, mbind, M_bind, get. unfold guard_throw. 
  destruct (_ && _) eqn:E; [|clear E]; [split; try done|]. cbn. set (n := fresh s).
  assert (Hnew : forall w, granted n w (log s) = (0, 0) /\ sent n (log s) = (0, 0)).
  { intros w. assert (Hl : forall e, e ∈ log s -> about e <> Some n).
    { intros e He Ha. specialize (H4 e n He Ha). unfold n in *. lia. }
    clear -Hl. induction (log s) as [|e lg IH]; [done|].
    destruct (granted_other n w e lg (Hl e ltac:(by left))) as [-> ->]. apply IH. intros e' He'. apply Hl. by right. }
  rewrite Forall_forall in Hr. constructor; cbn [consumers set_consumers set_tasks fresh log unacked].
  - intros t' c. destruct (decide (t = t')) as [<-|Hn]; [|rewrite lookup_insert_ne by done; intros Hc; by apply H1].
    rewrite lookup_insert_eq. intros [= <-].
    assert (Ho : outstanding t (unacked s) = []).
    { unfold outstanding. rewrite (filter_none _ (unacked s)); [done|]. apply Forall_forall. intros r Hx [[Hy _] _]. by apply (Hr r). }
    destruct (Hnew true) as [Ht1 Hs1], (Hnew false) as [Hf1 _].
    constructor; cbn [c_id c_credit new_ConsumerImpl new_Credit]; rewrite ?Ho, ?Ht1, ?Hf1, ?Hs1.
    + intros r Hx Hy. by destruct (Hr r).
    + intros r Hx Hy. by destruct (Hr r).
    + intros r Hx Hy. by destruct (Hr r).
    + by constructor.
    + by constructor.
    + by constructor.
    + by constructor.
  - intros t' c. destruct (decide (t = t')) as [<-|Hn].
    + rewrite lookup_insert_eq. intros [= <-]. cbn. lia.
    + rewrite lookup_insert_ne by done. intros Hc. specialize (H2 t' c Hc). lia.
  - intros t1 c1 t2 c2. destruct (decide (t = t1)) as [<-|Hn1], (decide (t = t2)) as [<-|Hn2];
      rewrite ?lookup_insert_eq, ?lookup_insert_ne by done; [done| | |apply H3].
    + intros [= <-] Hc2. cbn. intros E. specialize (H2 t2 c2 Hc2). lia.
    + intros Hc1 [= <-]. cbn. intros E. specialize (H2 t1 c1 Hc1). lia.
  - intros e m He Ha. specialize (H4 e m He Ha). lia.
Qed.

Lemma dr_cancel_shape t r :
  tag (dr_cancel t r) = tag r /\ completed (dr_cancel t r) = completed r /\ windowed (dr_cancel t r) = windowed r /\
  credit (dr_cancel t r) = credit r.
Proof. unfold dr_cancel. by destruct (decide (tag r = t)). Qed.

Lemma outstanding_cancel t t' l : outstanding t' (dr_cancel t <$> l) = outstanding t' l.
Proof.
  induction l as [|r l IH]; [done|]. cbn [fmap list_fmap]. rewrite !outstanding_cons, IH.
  by destruct (dr_cancel_shape t r) as (-> & -> & -> & ->).
Qed.

Lemma funded_dr_cancel lg l t t' c : t' <> t -> funded lg l t' c -> funded lg (dr_cancel t <$> l) t' c.
Proof.
  intros Hn [F1 F2 F3 F4 F5 F6 F7].
  constructor; rewrite ?outstanding_cancel; try done; intros x (r & -> & Hr)%list_elem_of_fmap;
    destruct (dr_cancel_shape t r) as (E1 & E2 & E3 & E4); rewrite ?E1, ?E2, ?E3, ?E4.
  - by apply F1.
  - intros Ht. unfold dr_cancel. rewrite decide_False by congruence. by apply F2.
  - by apply F3.
Qed.

Lemma ckeeps_cancel_tag t : ckeeps (cancel_tag t).
Proof.
  unfold cancel_tag. apply ckeeps_bind; [apply ckeeps_idle; idle_step|]. intros c.
  apply ckeeps_bind; [apply ckeeps_idle; unfold cancel_consumer, disable, removeOutputTask; idle_step|]. intros [] s [H1 H2 H3 H4].
  unfold modify. rewrite <- (app_nil_r (erase_redundant _)).
  set (s1 := set_consumers (delete t (consumers s)) s). apply (cinv_unacked s1), (solvent_erase s1 [] _ []). rewrite app_nil_r. cbn [app].
  constructor; cbn [consumers s1 set_consumers log fresh].
  - intros t' c' [Hn Hc]%lookup_delete_Some. apply funded_dr_cancel; [congruence|]. by apply H1.
  - intros t' c' [Hn Hc]%lookup_delete_Some. by eapply H2.
  - intros t1 c1 t2 c2 [_ Hc1]%lookup_delete_Some [_ Hc2]%lookup_delete_Some. by apply H3.
  - done.
Qed.

Lemma tx_each_fatal l acked s :
  match tx_each (fun r => dr_committed env r ;; mret r) l acked s with (_, Ret _) => True | (_, Throw e) => fatal e end.
Proof.
  assert (Hret : forall r s, exists s', (dr_committed env r ;; mret r) s = (s', Ret r)).
  { intros r s'. destruct (committed_ret env r s') as [s1 E]. exists s1. by rewrite (bind_Ret _ _ _ _ _ E). }
  revert acked s. induction l as [|r l IH]; intros acked s; [done|]. induction acked as [|a acked IHa]; [done|].
  assert (Hrest : forall r' acked' s1, match (l' ← tx_each (fun r => dr_committed env r ;; mret r) l acked'; mret (r' :: l')) s1 with
    | (_, Ret _) => True | (_, Throw e) => fatal e end).
  { intros r' acked' s1. specialize (IH acked' s1). unfold mbind at 1, M_bind at 1. by destruct (tx_each _ l acked' s1) as [s2 [l'|e]]. }
  cbn [tx_each]. destruct (SequenceNumber.eqb (id r) a).
  - destruct (Hret r s) as [s1 E]. rewrite (bind_Ret _ _ _ _ _ E). apply Hrest.
  - destruct (SequenceNumber.ltb (id r) a); [apply Hrest|exact IHa].
Qed.

Lemma ckeeps_tx_commit acked : ckeeps (tx_commit env acked).
Proof.
  intros s Hi. unfold tx_commit. rewrite (bind_Ret get _ s s s eq_refl). cbn beta.
  pose proof (idle_tx_each (fun r => dr_committed env r ;; mret r) (unacked s) (elements acked)
    ltac:(unfold dr_committed; idle_step) s) as (H1 & _ & _).
  pose proof (tx_each_fatal (unacked s) (elements acked) s) as Hf.
  unfold mbind at 1, M_bind at 1. destruct (tx_each _ (unacked s) _ s) as [s1 [l1|e]]; [|done]. cbn [fst] in H1.
  assert (Hs1 : solvent s1 ([] ++ unacked s ++ [])) by (rewrite app_nil_r; by eapply solvent_funds).
  assert (Hen : steady (fun r => mret (setEnded r)) (fun r => [r])) by (apply steady_shapes; intros r; split; [idle_step|done]).
  pose proof (tx_each_solvent _ [] (unacked s) [] (elements acked) s1 Hen Hs1) as Hs2.
  rewrite (bind_Ret _ _ _ _ _ (tx_each_ended _ _ s1)). rewrite tx_each_ended in Hs2. cbn beta in *. cbn [app] in Hs2. rewrite app_nil_r in Hs2.
  destruct (front acked) as [first|], (back acked) as [last|]; try (by apply cinv_unacked).
  pose proof (findRange_split first last (ended_at (unacked s) (elements acked)) s1) as Hr. unfold mbind, M_bind.
  destruct (findRange first last _ s1) as [s2 [[[before range] after]|e]]; [|done]. destruct Hr as [-> Hl].
  rewrite Hl in Hs2. by apply cinv_unacked, solvent_erase.
Qed.

Lemma ckeeps_commit others : ckeeps (commit env others).
Proof.
  unfold commit. apply ckeeps_bind; [apply ckeeps_idle; idle_step|]. intros s.
  apply ckeeps_bind; [apply ckeeps_idle; idle_step|]. intros [].
  apply ckeeps_bind.
  { apply ckeeps_idle. unfold tx_prepare. apply idle_bind; [idle_step|]. intros s'. apply idle_caught, idle_tx_each.
    intros r. unfold dr_dequeue. idle_step. }
  intros ok. destruct (ok && others).
  - apply ckeeps_bind; [apply ckeeps_tx_commit|]. intros []. apply ckeeps_idle. unfold startTx. idle_step.
  - apply ckeeps_idle. unfold startTx. idle_step.
Qed.

Lemma ckeeps_for_ranges {B} (f : Z -> Z -> Op (list B)) set : (forall a b, ckeeps (f a b)) -> ckeeps (for_ranges f set).
Proof.
  intros Hf. induction set as [|r set IH]; cbn [for_ranges]; [apply ckeeps_idle; idle_step|].
  apply ckeeps_bind; [done|]. intros l. apply ckeeps_bind; [done|]. intros l'. apply ckeeps_idle. idle_step.
Qed.

Lemma idle_dtx_decide b commits : idle (dtx_decide env b commits).
Proof.
  unfold dtx_decide. apply idle_bind; [idle_step|]. intros s. apply idle_bind; [|idle_step].
  apply idle_for_records. intros r. destruct commits; [unfold dr_committed|unfold dr_requeue]; idle_step.
Qed.

Lemma idle_dtx_prepare b : idle (dtx_prepare env b ;; mret tt).
Proof.
  apply idle_bind; [|intros ok; idle_step]. unfold dtx_prepare. apply idle_bind; [idle_step|]. intros s.
  apply idle_caught, idle_for_records. intros r. unfold dr_dequeue. idle_step.
Qed.

Lemma closed_closes s : closeComplete (closed env s).1 = true.
Proof.
  unfold closed. rewrite (bind_Ret get _ s s s eq_refl). destruct (closeComplete s) eqn:E; [done|].
  rewrite (bind_Ret disable_all _ s (disable_all s).1 tt) by done. generalize (disable_all s).1. intros s1.
  assert (Hd : exists s2, (match dtxBuffer s with Some b => dtx_decide env b false | None => mret tt end : Op unit) s1 = (s2, Ret tt)).
  { destruct (dtxBuffer s) as [b|]; [|by eexists]. unfold dtx_decide. rewrite (bind_Ret get _ s1 s1 s1 eq_refl). cbn beta iota.
    destruct (for_records_ret (dr_requeue env) (concat (default [] (acks s1 !! b))) s1 (requeue_ret env)) as [s2 E2].
    rewrite (bind_Ret _ _ _ _ _ E2). by eexists. }
  destruct Hd as [s2 E2]. rewrite (bind_Ret _ _ _ _ _ E2).
  assert (Hr : exists s3, requeue env s2 = (s3, Ret tt)).
  { unfold requeue. rewrite (bind_Ret get _ s2 s2 s2 eq_refl). unfold mbind at 1, M_bind at 1, modify. apply for_records_ret, requeue_ret. }
  destruct Hr as [s3 E3]. by rewrite (bind_Ret _ _ _ _ _ E3).
Qed.

(** A closed session gets no commands.  The name of a consumer is used again only
    when no delivery has it, the flow mode is changed only when all deliveries are
    completed, and credit stays below 2^31. *)
Definition fair (s : Session) (c : Command) : Prop :=
  (needs_session c = true -> closeComplete s = false) /\
  match c with
  | Subscribe t _ _ _ _ => consumers s !! t = None /\ Forall (fun r => tag r <> t) (unacked s)
  | SetFlowMode t _ => Forall (fun r => tag r = t -> completed r = true) (unacked s)
  | Flow t unit_ value => may_flow t unit_ value s
  | _ => True
  end.

Lemma command_cinv s c :
  CInv s -> fair s c -> c <> Close -> survives (run_command env c s).2 -> CInv (run_command env c s).1.
Proof.
  intros Hi [_ Ha] Hnc Hs.
  assert (Hk : forall (m : Op unit), ckeeps m -> survives (m s).2 -> CInv (m s).1).
  { intros m Hm Hsv. specialize (Hm s Hi). destruct (m s) as [s' [a|e]]; auto. }
  destruct c; cbn [run_command] in *;
    try (apply idle_cinv; [unfold notify, addOutputTask, startTx, rollback, startDtx, endDtx, by_others; solve [idle_step]|done]).
  - destruct Ha. by apply consume_cinv.
  - apply Hk; [apply ckeeps_cancel_tag|done].
  - by apply flow_cinv.
  - by apply setFlowMode_cinv.
  - apply Hk; [apply ckeeps_flush|done].
  - apply Hk; [apply ckeeps_stop|done].
  - apply Hk; [|done]. apply ckeeps_bind; [apply ckeeps_doOutput|]. intros b. apply ckeeps_idle. idle_step.
  - apply Hk; [apply ckeeps_accepted|done].
  - apply Hk; [|done]. apply ckeeps_bind; [|intros l; apply ckeeps_idle; idle_step]. apply ckeeps_for_ranges. intros x y.
    apply ckeeps_bind; [apply ckeeps_release1|intros []; apply ckeeps_idle; idle_step].
  - apply Hk; [|done]. apply ckeeps_bind; [|intros l; apply ckeeps_idle; idle_step]. apply ckeeps_for_ranges. intros x y.
    apply ckeeps_bind; [apply ckeeps_reject1|intros []; apply ckeeps_idle; idle_step].
  - apply Hk; [|done]. apply ckeeps_bind; [|intros l; apply ckeeps_idle; idle_step]. apply ckeeps_for_ranges, ckeeps_acquire1.
  - apply Hk; [|done]. apply ckeeps_bind; [|intros []; apply ckeeps_idle, idle_requestDispatch].
    apply ckeeps_remove_if, steady_in_set, steady_complete.
  - apply Hk; [apply ckeeps_commit|done].
  - apply idle_cinv; [apply idle_dtx_prepare|done].
  - apply idle_cinv; [apply idle_dtx_decide|done].
  - apply idle_cinv; [|done]. by apply (idle_consumers _ (set_notify true)).
  - apply idle_cinv; [|done]. by apply (idle_consumers _ (set_notify false)).
  - done.
Qed.

Lemma reach_solvent s : reach env fair s -> closeComplete s = false -> CInv s.
Proof.
  induction 1 as [|s c Hr IH Hf Hs].
  { intros _. by constructor; try done; intros e n ?%elem_of_nil. }
  intros Hc. assert (Hn : c <> Close) by (intros ->; cbn in Hc; by rewrite closed_closes in Hc).
  apply command_cinv; [|done..]. apply IH. destruct (needs_session c) eqn:En; [by apply Hf|].
  destruct c; try done; cbn [run_command] in Hc.
  - destruct (idle_dtx_prepare b s) as (_ & _ & E). by rewrite <- E.
  - destruct (idle_dtx_decide b commits s) as (_ & _ & E). by rewrite <- E.
Qed.

(** C24: while the flow mode of a subscription changes only between deliveries,
    the name of a subscription is not used again before its deliveries are
    completed, every credit that is granted leaves less than 2^31 in all (so
    none is unlimited), every message has fewer than 2^31 octets and no
    exception of the store ends a command half done, the deliveries that a client has not completed never
    exceed the messages and the octets granted to the subscription in window mode, and
    what it was sent in credit mode never exceeds what was granted to it in credit mode *)
Theorem credit_respected s t c :
  reach env fair s -> closeComplete s = false -> consumers s !! t = Some c ->
  (windowing (c_credit c) = true ->
    let l := filter (fun r => tag r = t /\ completed r = false) (unacked s) in
    Z.of_nat (length l) <= (granted (c_id c) true (log s)).1 /\
    sumZ (credit <$> l) <= (granted (c_id c) true (log s)).2) /\
  (sent (c_id c) (log s)).1 <= (granted (c_id c) false (log s)).1 /\
  (sent (c_id c) (log s)).2 <= (granted (c_id c) false (log s)).2.
Proof.
  intros Hr Hc Ht. destruct (so_funded _ _ (reach_solvent s Hr Hc) t c Ht) as [F1 F2 F3 F4 F5 F6 F7]. split; [|split].
  - intros Hw l. assert (El : credit <$> l = outstanding t (unacked s)).
    { unfold l, outstanding. f_equal. apply filter_ext_in. intros r Hin. split; [|by intros [? _]]. intros [Hx Hy]. split; [done|].
      by rewrite (F1 r Hin Hx Hy). }
    rewrite El. rewrite <- (length_fmap credit l), El. split; [apply F4|apply F5].
  - destruct F6 as [[A _] B C]. lia.
  - destruct F7 as [[A _] B C]. lia.
Qed.

(** ** Flushing ends *)

(** the messages a consumer may still be sent *)
Definition room (c : Credit) : Z :=
  if windowing c then balance (base (messages (window c))) - used (messages (window c)) else balance (messages (balances c)).

Lemma room_consume lg l t c z :
  funded lg l t c -> check 1 z (c_credit c) = true -> room (consume 1 z (c_credit c)) = room (c_credit c) - 1 /\ 0 < room (c_credit c).
Proof.
  intros [F1 F2 F3 F4 F5 F6 F7]. destruct (c_credit c) as [[bm bb] [wm wb] w]. cbn in F4, F6. unfold room, check. cbn.
  destruct F4 as [A1 A2 A3 A4 A5], F6 as [B1 B2 B3]. destruct w; cbn; intros [Hm _]%andb_prop.
  - destruct (window_consume_exact 1 wm A1 ltac:(by rewrite A2) ltac:(done) Hm) as [-> Hle]. cbn. lia.
  - rewrite (balance_consume_exact 1 bm B1 ltac:(done) Hm). unfold balance_check in Hm. apply Z.leb_le in Hm. lia.
Qed.

Lemma deliver_consumer t m z s c :
  consumers s !! t = Some c ->
  exists c', consumers (deliver env t m z s).1 !! t = Some c' /\ c_credit c' = consume 1 z (c_credit c).
Proof.
  intros Hc. unfold deliver, find, update_consumer. unfold mbind, M_bind, get, modify. rewrite Hc.
  cbn -[queue_call new_DeliveryRecord consume].
  assert (Hq : forall (b : bool) s3, consumers ((if b then queue_call env CallDequeue m else mret tt) s3).1 = consumers s3).
  { intros [] s3; [by rewrite queue_call_eq|done]. }
  destruct (_ || _); cbn -[queue_call new_DeliveryRecord consume]; rewrite Hq; cbn -[consume]; rewrite lookup_insert_eq; by eexists.
Qed.

Lemma deliver_fatal t m z s c :
  consumers s !! t = Some c -> match deliver env t m z s with (_, Ret _) => True | (_, Throw e) => fatal e end.
Proof.
  intros Hc. unfold deliver, find, update_consumer. unfold mbind, M_bind, get, modify. rewrite Hc.
  cbn -[queue_call new_DeliveryRecord consume].
  assert (Hq : forall (b : bool) s3, match (if b then queue_call env CallDequeue m else mret tt) s3 with (_, Ret _) => True | (_, Throw e) => fatal e end).
  { intros [] s3; [|done]. rewrite queue_call_eq. destruct (stores _ && _); [by left|done]. }
  destruct (_ || _); cbn -[queue_call new_DeliveryRecord consume]; apply Hq.
Qed.

Lemma dispatch_room t l s c :
  CInv s -> consumers s !! t = Some c ->
  match dispatch_loop env t l s with
  | (s', Ret true) => exists c', consumers s' !! t = Some c' /\ room (c_credit c') = room (c_credit c) - 1 /\ 0 < room (c_credit c)
  | (_, Ret false) => True
  | (_, Throw e) => fatal e
  end.
Proof.
  revert s c. induction l as [|o l IH]; intros s c Hi Hc; cbn [dispatch_loop]; [done|]. destruct (o_wanted o); [|by apply IH].
  pose proof (idle_cinv (c_accept t (o_credit o)) s (idle_c_accept t (o_credit o)) Hi) as H1.
  pose proof (c_accept_eq t (o_credit o) c s Hc) as Ea. rewrite (bind_Ret _ _ _ _ _ Ea). rewrite Ea in H1. cbn [fst] in H1.
  destruct (check 1 (o_credit o) (c_credit c)) eqn:Ek; [|done].
  set (c1 := set_blocked _ c) in *. set (s1 := set_consumers _ s) in *.
  assert (Hc1 : consumers s1 !! t = Some c1) by apply lookup_insert_eq.
  pose proof (so_funded _ _ Hi t c Hc) as Hf. destruct (room_consume _ _ _ _ _ Hf Ek) as [Hroom Hpos].
  assert (Hd : forall s2, consumers s2 !! t = Some c1 ->
    match (deliver env t (o_msg o) (o_credit o) ;; mret true) s2 with
    | (s', Ret true) => exists c', consumers s' !! t = Some c' /\ room (c_credit c') = room (c_credit c) - 1 /\ 0 < room (c_credit c)
    | (_, Ret false) => True | (_, Throw e) => fatal e end).
  { intros s2 Hs2. destruct (deliver_consumer t (o_msg o) (o_credit o) s2 c1 Hs2) as (c' & Hc' & Ecr).
    pose proof (deliver_fatal t (o_msg o) (o_credit o) s2 c1 Hs2) as Hfa. unfold mbind, M_bind.
    destruct (deliver env t (o_msg o) (o_credit o) s2) as [s3 [[]|e]]; [|done]. cbn in *. exists c'. rewrite Ecr. done. }
  unfold find, get. rewrite (bind_Ret _ _ s1 s1 c1) by (unfold mbind, M_bind; by rewrite Hc1). rewrite (bind_Ret _ _ s1 s1 s1 eq_refl).
  destruct (c_acquire c1); [|by apply Hd]. destruct (o_free o && _); [|by apply (IH s1 c1)].
  rewrite (bind_Ret _ _ s1 _ tt (queue_call_eq env CallAcquire (o_msg o) s1)). by apply Hd.
Qed.

Lemma haveCredit_eq t c s :
  consumers s !! t = Some c ->
  haveCredit t s = if hasCredit (c_credit c) then (s, Ret true) else (set_consumers (<[t := set_blocked true c]> (consumers s)) s, Ret false).
Proof. intros Hc. unfold haveCredit, find, mbind, M_bind, get. rewrite Hc. cbn. by destruct (hasCredit (c_credit c)). Qed.

Lemma doOutput_eq t c s :
  consumers s !! t = Some c ->
  doOutput env t s = if hasCredit (c_credit c) then dispatch_loop env t (offers env (log s) (queue c)) s
                     else (set_consumers (<[t := set_blocked true c]> (consumers s)) s, Ret false).
Proof.
  intros Hc. unfold doOutput, doDispatch, find, mbind at 1, M_bind at 1. rewrite (haveCredit_eq t c s Hc).
  destruct (hasCredit (c_credit c)); [|done]. unfold mbind, M_bind, get. by rewrite Hc.
Qed.

(** C39: flushing a subscription ends after at most as many deliveries as it has
    message credit left, whichever messages of fewer than 2^31 octets the queue
    offers, in every state a session comes to under the conditions of
    [credit_respected]; its credit is not unlimited, then *)
Theorem flush_terminates s t c n :
  reach env fair s -> closeComplete s = false -> consumers s !! t = Some c -> (Z.to_nat (room (c_credit c)) < n)%nat ->
  (flush env n t s).2 <> Throw OutOfFuel.
Proof.
  intros Hr Hcl Hc Hn. pose proof (reach_solvent s Hr Hcl) as Hi. clear Hr Hcl.
  assert (Hloop : (flush_loop env n t s).2 <> Throw OutOfFuel).
  2: { unfold flush, mbind, M_bind. destruct (flush_loop env n t s) as [s' [[]|e]]; [|done]. unfold find, mbind, M_bind, get.
       by destruct (consumers s' !! t). }
  revert s c Hi Hc Hn. induction n as [|n IH]; intros s c Hi Hc Hn; [lia|]. cbn [flush_loop].
  pose proof (ckeeps_doOutput t s Hi) as Hk. unfold mbind, M_bind. rewrite (doOutput_eq t c s Hc) in *.
  destruct (hasCredit (c_credit c)); [|done].
  pose proof (dispatch_room t (offers env (log s) (queue c)) s c Hi Hc) as Hd.
  destruct (dispatch_loop env t _ s) as [s' [[]|e]]; [|done|by destruct Hd as [->| ->]].
  destruct Hd as (c' & Hc' & Er & Hp). apply (IH s' c'); [done|done|]. lia.
Qed.
End commands.
