(* ===== verification/SessionRuns.v ===== *)
(** * Runs of a session

    Concrete sequences of commands: instances of the theorems on deliveries and
    credit, and what the conditions of those theorems exclude. *)

From Stdlib Require Import ZArith Lia Ascii String.
From stdpp Require Import gmap strings.
From S2P Require Import Prelude SequenceNumber RangeSet SequenceSet Credit SemanticState Deliveries DeliverySystem CreditBounds.

(** commands one after another, and what each answered *)
Fixpoint run_all (env : Environment) (cs : list Command) (s : Session) : Session * list (outcome unit) :=
  match cs with
  | [] => (s, [])
  | c :: cs => let '(s', a) := run_command env c s in let '(s'', l) := run_all env cs s' in (s'', a :: l)
  end.

(** a queue with three messages of 100 octets *)
Definition three : list Offer := [mkOffer 1 100 true true; mkOffer 2 100 true true; mkOffer 3 100 true true].

(** the store never throws *)
Definition sound : Environment := mkEnvironment (fun _ _ => three) (fun _ _ => true) (fun _ _ _ => false).

(** the store throws when message 3 is dequeued *)
Definition failing : Environment := mkEnvironment (fun _ _ => three) (fun _ _ => true) (fun _ _ m => bool_decide (m = 3%nat)).

Definition tag_a : str := s_ "a".
Definition only (i : Z) : SequenceSet.t := [mkRange i (i + 1)].

(** a subscription in window mode with credit for [n] messages *)
Definition subscribed_a (n : Z) : list Command :=
  [MessageAppears 1; MessageAppears 2; MessageAppears 3; Subscribe tag_a 0 true true 0; Flow tag_a 0 n; Flow tag_a 1 (100 * n)].
Definition outputs (n : nat) : list Command := replicate n (Output tag_a).

(**  what a client can do that the code does not guard against.  A message that is
    acquired again after it was released stays acquired when the session is closed.
    When the store throws in the middle of an acknowledgement, another record is
    there twice, and the message it holds is released a second time when nobody holds it.  Messages
    accepted in a local transaction before a distributed one begins are enlisted in
    it and remain in the records.  A window that was unlimited wraps below zero when
    what was sent then is completed, and the consumer gets nothing although
    nothing is outstanding and it has credit.  Completion in another flow mode, or of a delivery
    to an earlier consumer of the same name, lets more messages through than were granted *)
Theorem session_misuse :
  (let s := (run_all sound (subscribed_a 3 ++ outputs 1 ++ [Release (only 0) true; Acquire (only 0); Close]) new_Session).1 in
   holding 1 s = Mine /\ held s = []) /\
  (let p := run_all failing (subscribed_a 3 ++ outputs 3 ++
      [Completed (only 0); Completed (only 2); Accept [mkRange 0 1; mkRange 2 3]; Close]) new_Session in
   p.2 !! 11%nat = Some (Throw StoreException) /\ Called (CallRelease true) 2 Available ∈ log p.1) /\
  (let s := (run_all sound (subscribed_a 3 ++ outputs 2 ++ [TxSelect; Accept (only 0); DtxStart; Accept (only 1)]) new_Session).1 in
   ~ NoDup (held s)) /\
  (let s := (run_all sound (subscribed_a INFINITE_CREDIT ++ [Flow tag_a 1 INFINITE_CREDIT] ++ outputs 1 ++
      [Stop tag_a; Completed (only 0); Accept (only 0); Flow tag_a 0 10; Flow tag_a 1 1000]) new_Session).1 in
   unacked s = [] /\
   hasCredit <$> (c_credit <$> (consumers s !! tag_a)) = Some false) /\
  (let s := (run_all sound ([MessageAppears 1; MessageAppears 2; MessageAppears 3; Subscribe tag_a 0 true true 0; SetFlowMode tag_a false;
       Flow tag_a 0 1; Flow tag_a 1 100] ++ outputs 1 ++ [SetFlowMode tag_a true; Flow tag_a 0 1; Flow tag_a 1 INFINITE_CREDIT; Completed (only 0)] ++
       outputs 2) new_Session).1 in
   length (outstanding tag_a (unacked s)) = 2%nat /\ (granted 0 true (log s)).1 = 1) /\
  (let s := (run_all sound (subscribed_a 1 ++ outputs 1 ++ [Unsubscribe tag_a; Subscribe tag_a 0 true true 0; Flow tag_a 0 1; Flow tag_a 1 INFINITE_CREDIT;
       Completed (only 0)] ++ outputs 2) new_Session).1 in
   length (outstanding tag_a (filter (fun r => consumer r = 1%nat) (unacked s))) = 2%nat /\ (granted 1 true (log s)).1 = 1).
Proof.
  split; [by vm_compute|]. split; [intros p; split; [by vm_compute|apply (bool_decide_unpack _); by vm_compute]|].
  split; [intros s; apply (bool_decide_unpack _); by vm_compute|]. split; [by vm_compute|]. split; by vm_compute.
Qed.

(** ** Instances of the theorems *)

(** a day: deliveries, an acknowledgement, a release, a rejection, and the end *)
Definition a_day : list Command :=
  subscribed_a 3 ++ outputs 3 ++ [Accept (only 0); Release (only 1) true; Completed (only 0); Completed (only 1)].

(** conditions that can be computed and imply those of the theorems *)
Definition surely_allowed (s : Session) (c : Command) : bool :=
  negb (needs_session c && closeComplete s) &&
  match c with
  | Acquire _ => false
  | Accept _ => negb (txBuffer s)
  | MessageAppears m => bool_decide (holds s !! m = None)
  | MessageTaken m => bool_decide (holding m s = Available)
  | MessageReturned m => bool_decide (holding m s = Others)
  | _ => true
  end.

Definition surely_fair (s : Session) (c : Command) : bool :=
  negb (needs_session c && closeComplete s) &&
  match c with
  | Subscribe t _ _ _ _ => bool_decide (consumers s !! t = None) && bool_decide (unacked s = [])
  | SetFlowMode _ _ => bool_decide (unacked s = [])
  | Flow t u v =>
      (0 <=? v) && match consumers s !! t with
                   | Some c => (0 <=? allotted u (c_credit c)) && (allotted u (c_credit c) + v <? 2 ^ 31)
                   | None => true
                   end
  | _ => true
  end.

Lemma in_session s c : negb (needs_session c && closeComplete s) = true -> needs_session c = true -> closeComplete s = false.
Proof. destruct (needs_session c), (closeComplete s); done. Qed.

Lemma surely_allowed_spec env s c : surely_allowed s c = true -> allowed env s c.
Proof.
  intros [Hs Hc]%andb_prop. split; [by apply in_session|]. destruct c; try done; try (by apply bool_decide_eq_true in Hc).
  intros Ht. by rewrite Ht in Hc.
Qed.

Lemma surely_fair_spec s c : surely_fair s c = true -> fair s c.
Proof.
  intros [Hs Hc]%andb_prop. split; [by apply in_session|]. destruct c; try done.
  - apply andb_prop in Hc as [H1 H2]. apply bool_decide_eq_true in H1, H2. rewrite H2. split; [done|constructor].
  - apply andb_prop in Hc as [H1 H2]. apply Z.leb_le in H1. split; [done|]. intros c Ec. rewrite Ec in H2.
    apply andb_prop in H2 as [H2 H3]. apply Z.leb_le in H2. apply Z.ltb_lt in H3. unfold modest. lia.
  - apply bool_decide_eq_true in Hc. rewrite Hc. constructor.
Qed.

Fixpoint goes (env : Environment) (may : Session -> Command -> bool) (cs : list Command) (s : Session) : bool :=
  match cs with
  | [] => true
  | c :: cs =>
      may s c && let '(s', o) := run_command env c s in match o with Ret _ => true | Throw _ => false end && goes env may cs s'
  end.

Lemma reach_goes env mayb (may : Session -> Command -> Prop) cs s :
  (forall s c, mayb s c = true -> may s c) -> reach env may s -> goes env mayb cs s = true -> reach env may (run_all env cs s).1.
Proof.
  intros Hmay. revert s. induction cs as [|c cs IH]; intros s Hr; [done|]. cbn [goes run_all].
  pose proof (reach_step env may s c Hr) as Hst. destruct (run_command env c s) as [s' o]. intros [Hm Hgo]%andb_prop.
  destruct o as [[]|e]; [|done]. specialize (IH s' (Hst (Hmay s c Hm) I) Hgo). by destruct (run_all env cs s').
Qed.

Lemma no_message_lost_witness :
  let s := (run_all sound a_day new_Session).1 in
  holding 3 s = Mine /\ 3%nat ∈ held s /\ NoDup (held s).
Proof.
  intros s.
  assert (Hr : reach sound (allowed sound) s).
  { apply (reach_goes sound surely_allowed); [apply surely_allowed_spec|constructor|by vm_compute]. }
  destruct (no_message_lost sound s Hr) as (_ & Hd & Hm & _).
  assert (Hh : holding 3 s = Mine) by (by vm_compute). split; [done|]. split; [by apply Hm|done].
Defined.

Lemma credit_respected_witness :
  let s := (run_all sound a_day new_Session).1 in
  exists c, consumers s !! tag_a = Some c /\
    Z.of_nat (length (filter (fun r => tag r = tag_a /\ completed r = false) (unacked s))) <= (granted (c_id c) true (log s)).1.
Proof.
  intros s.
  assert (Hr : reach sound fair s).
  { apply (reach_goes sound surely_fair); [apply surely_fair_spec|constructor|by vm_compute]. }
  assert (He : modest_offers sound) by (intros lg q; unfold sound, three; cbn; rewrite !Forall_cons; done).
  destruct (consumers s !! tag_a) as [c|] eqn:Ec; [|by vm_compute in Ec]. exists c. split; [done|].
  apply (credit_respected sound He s tag_a c Hr); [by vm_compute|done|].
  assert (Hw : (windowing <$> (c_credit <$> (consumers s !! tag_a))) = Some true) by (by vm_compute). rewrite Ec in Hw. by injection Hw.
Defined.

Lemma flush_terminates_witness :
  let s := (run_all sound (subscribed_a 3) new_Session).1 in (flush sound 5 tag_a s).2 <> Throw OutOfFuel.
Proof.
  intros s.
  assert (Hr : reach sound fair s).
  { apply (reach_goes sound surely_fair); [apply surely_fair_spec|constructor|by vm_compute]. }
  assert (He : modest_offers sound) by (intros lg q; unfold sound, three; cbn; rewrite !Forall_cons; done).
  assert (Hcl : closeComplete s = false) by (by vm_compute).
  assert (Hw : ((fun c => bool_decide (Z.to_nat (room (c_credit c)) < 5)%nat) <$> (consumers s !! tag_a)) = Some true) by (by vm_compute).
  destruct (consumers s !! tag_a) as [c|] eqn:Ec; [|discriminate Hw].
  injection Hw as Hw. apply bool_decide_eq_true in Hw.
  exact (flush_terminates sound He s tag_a c 5 Hr Hcl Ec Hw).
Defined.
