(* ===== verification/AclModule.v ===== *)
(** * Access control: the vocabulary (src/qpid/broker/AclModule.h)

    The enumerations shared by the rule file and by the rest of the broker, and
    the conversions of [AclHelper] between them and the words of the file.  A
    conversion from a word throws on an unknown word; here it is [None]. *)

From Stdlib Require Import Ascii String.
From stdpp Require Import strings.
From S2P Require Import Prelude.
Local Open Scope nat_scope.

Inductive ObjectType := OBJ_QUEUE | OBJ_EXCHANGE | OBJ_BROKER | OBJ_LINK | OBJ_METHOD.

Inductive Action :=
| ACT_CONSUME | ACT_PUBLISH | ACT_CREATE | ACT_ACCESS | ACT_BIND | ACT_UNBIND | ACT_DELETE | ACT_PURGE | ACT_UPDATE.

Inductive Property :=
| PROP_NAME | PROP_DURABLE | PROP_OWNER | PROP_ROUTINGKEY | PROP_AUTODELETE | PROP_EXCLUSIVE | PROP_TYPE
| PROP_ALTERNATE | PROP_QUEUENAME | PROP_SCHEMAPACKAGE | PROP_SCHEMACLASS | PROP_POLICYTYPE | PROP_PAGING
| PROP_MAXPAGES | PROP_MAXPAGEFACTOR | PROP_MAXQUEUESIZE | PROP_MAXQUEUECOUNT | PROP_MAXFILESIZE | PROP_MAXFILECOUNT.

(** the properties of the rule file; the first thirteen have the values of [Property] *)
Inductive SpecProperty :=
| SPECPROP_NAME | SPECPROP_DURABLE | SPECPROP_OWNER | SPECPROP_ROUTINGKEY | SPECPROP_AUTODELETE | SPECPROP_EXCLUSIVE
| SPECPROP_TYPE | SPECPROP_ALTERNATE | SPECPROP_QUEUENAME | SPECPROP_SCHEMAPACKAGE | SPECPROP_SCHEMACLASS
| SPECPROP_POLICYTYPE | SPECPROP_PAGING
| SPECPROP_MAXQUEUESIZELOWERLIMIT | SPECPROP_MAXQUEUESIZEUPPERLIMIT
| SPECPROP_MAXQUEUECOUNTLOWERLIMIT | SPECPROP_MAXQUEUECOUNTUPPERLIMIT
| SPECPROP_MAXFILESIZELOWERLIMIT | SPECPROP_MAXFILESIZEUPPERLIMIT
| SPECPROP_MAXFILECOUNTLOWERLIMIT | SPECPROP_MAXFILECOUNTUPPERLIMIT
| SPECPROP_MAXPAGESLOWERLIMIT | SPECPROP_MAXPAGESUPPERLIMIT
| SPECPROP_MAXPAGEFACTORLOWERLIMIT | SPECPROP_MAXPAGEFACTORUPPERLIMIT.

Inductive AclResult := ALLOW | ALLOWLOG | DENY | DENYLOG.

#[global] Instance ObjectType_eq_dec : EqDecision ObjectType.
Proof. solve_decision. Defined.
#[global] Instance Action_eq_dec : EqDecision Action.
Proof. solve_decision. Defined.
#[global] Instance Property_eq_dec : EqDecision Property.
Proof. solve_decision. Defined.
#[global] Instance SpecProperty_eq_dec : EqDecision SpecProperty.
Proof. solve_decision. Defined.
#[global] Instance AclResult_eq_dec : EqDecision AclResult.
Proof. solve_decision. Defined.

(** the values in the order of the enumeration *)
Definition all_objects : list ObjectType := [OBJ_QUEUE; OBJ_EXCHANGE; OBJ_BROKER; OBJ_LINK; OBJ_METHOD].
Definition all_actions : list Action :=
  [ACT_CONSUME; ACT_PUBLISH; ACT_CREATE; ACT_ACCESS; ACT_BIND; ACT_UNBIND; ACT_DELETE; ACT_PURGE; ACT_UPDATE].
Definition PROPERTYSIZE : nat := 19.

(** the integer of a [SpecProperty] *)
Definition spec_value (p : SpecProperty) : nat :=
  match p with
  | SPECPROP_NAME => 0 | SPECPROP_DURABLE => 1 | SPECPROP_OWNER => 2 | SPECPROP_ROUTINGKEY => 3
  | SPECPROP_AUTODELETE => 4 | SPECPROP_EXCLUSIVE => 5 | SPECPROP_TYPE => 6 | SPECPROP_ALTERNATE => 7
  | SPECPROP_QUEUENAME => 8 | SPECPROP_SCHEMAPACKAGE => 9 | SPECPROP_SCHEMACLASS => 10
  | SPECPROP_POLICYTYPE => 11 | SPECPROP_PAGING => 12
  | SPECPROP_MAXQUEUESIZELOWERLIMIT => 13 | SPECPROP_MAXQUEUESIZEUPPERLIMIT => 14
  | SPECPROP_MAXQUEUECOUNTLOWERLIMIT => 15 | SPECPROP_MAXQUEUECOUNTUPPERLIMIT => 16
  | SPECPROP_MAXFILESIZELOWERLIMIT => 17 | SPECPROP_MAXFILESIZEUPPERLIMIT => 18
  | SPECPROP_MAXFILECOUNTLOWERLIMIT => 19 | SPECPROP_MAXFILECOUNTUPPERLIMIT => 20
  | SPECPROP_MAXPAGESLOWERLIMIT => 21 | SPECPROP_MAXPAGESUPPERLIMIT => 22
  | SPECPROP_MAXPAGEFACTORLOWERLIMIT => 23 | SPECPROP_MAXPAGEFACTORUPPERLIMIT => 24
  end.

(** ** [AclHelper]: the words of the rule file *)

(** the first entry of a table of comparisons with [str] *)
Definition by_word {A} (table : list (string * A)) (w : str) : option A :=
  (fun e => e.2) <$> List.find (fun e => bool_decide (w = s_ e.1)) table.

Definition getObjectType (w : str) : option ObjectType :=
  by_word [("queue", OBJ_QUEUE); ("exchange", OBJ_EXCHANGE); ("broker", OBJ_BROKER); ("link", OBJ_LINK);
           ("method", OBJ_METHOD)]%string w.

Definition getObjectTypeStr (o : ObjectType) : str :=
  s_ match o with
     | OBJ_QUEUE => "queue" | OBJ_EXCHANGE => "exchange" | OBJ_BROKER => "broker" | OBJ_LINK => "link"
     | OBJ_METHOD => "method"
     end.

Definition getAction (w : str) : option Action :=
  by_word [("consume", ACT_CONSUME); ("publish", ACT_PUBLISH); ("create", ACT_CREATE); ("access", ACT_ACCESS);
           ("bind", ACT_BIND); ("unbind", ACT_UNBIND); ("delete", ACT_DELETE); ("purge", ACT_PURGE);
           ("update", ACT_UPDATE)]%string w.

Definition getActionStr (a : Action) : str :=
  s_ match a with
     | ACT_CONSUME => "consume" | ACT_PUBLISH => "publish" | ACT_CREATE => "create" | ACT_ACCESS => "access"
     | ACT_BIND => "bind" | ACT_UNBIND => "unbind" | ACT_DELETE => "delete" | ACT_PURGE => "purge"
     | ACT_UPDATE => "update"
     end.

Definition getProperty (w : str) : option Property :=
  by_word [("name", PROP_NAME); ("durable", PROP_DURABLE); ("owner", PROP_OWNER); ("routingkey", PROP_ROUTINGKEY);
           ("autodelete", PROP_AUTODELETE); ("exclusive", PROP_EXCLUSIVE); ("type", PROP_TYPE);
           ("alternate", PROP_ALTERNATE); ("queuename", PROP_QUEUENAME); ("schemapackage", PROP_SCHEMAPACKAGE);
           ("schemaclass", PROP_SCHEMACLASS); ("policytype", PROP_POLICYTYPE); ("paging", PROP_PAGING);
           ("maxpages", PROP_MAXPAGES); ("maxpagefactor", PROP_MAXPAGEFACTOR); ("maxqueuesize", PROP_MAXQUEUESIZE);
           ("maxqueuecount", PROP_MAXQUEUECOUNT); ("maxfilesize", PROP_MAXFILESIZE);
           ("maxfilecount", PROP_MAXFILECOUNT)]%string w.

Definition getPropertyStr (p : Property) : str :=
  s_ match p with
     | PROP_NAME => "name" | PROP_DURABLE => "durable" | PROP_OWNER => "owner" | PROP_ROUTINGKEY => "routingkey"
     | PROP_AUTODELETE => "autodelete" | PROP_EXCLUSIVE => "exclusive" | PROP_TYPE => "type"
     | PROP_ALTERNATE => "alternate" | PROP_QUEUENAME => "queuename" | PROP_SCHEMAPACKAGE => "schemapackage"
     | PROP_SCHEMACLASS => "schemaclass" | PROP_POLICYTYPE => "policytype" | PROP_PAGING => "paging"
     | PROP_MAXPAGES => "maxpages" | PROP_MAXPAGEFACTOR => "maxpagefactor" | PROP_MAXQUEUESIZE => "maxqueuesize"
     | PROP_MAXQUEUECOUNT => "maxqueuecount" | PROP_MAXFILESIZE => "maxfilesize" | PROP_MAXFILECOUNT => "maxfilecount"
     end.

(** the last two words are aliases *)
Definition getSpecProperty (w : str) : option SpecProperty :=
  by_word [("name", SPECPROP_NAME); ("durable", SPECPROP_DURABLE); ("owner", SPECPROP_OWNER);
           ("routingkey", SPECPROP_ROUTINGKEY); ("autodelete", SPECPROP_AUTODELETE);
           ("exclusive", SPECPROP_EXCLUSIVE); ("type", SPECPROP_TYPE); ("alternate", SPECPROP_ALTERNATE);
           ("queuename", SPECPROP_QUEUENAME); ("schemapackage", SPECPROP_SCHEMAPACKAGE);
           ("schemaclass", SPECPROP_SCHEMACLASS); ("policytype", SPECPROP_POLICYTYPE); ("paging", SPECPROP_PAGING);
           ("queuemaxsizelowerlimit", SPECPROP_MAXQUEUESIZELOWERLIMIT);
           ("queuemaxsizeupperlimit", SPECPROP_MAXQUEUESIZEUPPERLIMIT);
           ("queuemaxcountlowerlimit", SPECPROP_MAXQUEUECOUNTLOWERLIMIT);
           ("queuemaxcountupperlimit", SPECPROP_MAXQUEUECOUNTUPPERLIMIT);
           ("filemaxsizelowerlimit", SPECPROP_MAXFILESIZELOWERLIMIT);
           ("filemaxsizeupperlimit", SPECPROP_MAXFILESIZEUPPERLIMIT);
           ("filemaxcountlowerlimit", SPECPROP_MAXFILECOUNTLOWERLIMIT);
           ("filemaxcountupperlimit", SPECPROP_MAXFILECOUNTUPPERLIMIT);
           ("pageslowerlimit", SPECPROP_MAXPAGESLOWERLIMIT); ("pagesupperlimit", SPECPROP_MAXPAGESUPPERLIMIT);
           ("pagefactorlowerlimit", SPECPROP_MAXPAGEFACTORLOWERLIMIT);
           ("pagefactorupperlimit", SPECPROP_MAXPAGEFACTORUPPERLIMIT);
           ("maxqueuesize", SPECPROP_MAXQUEUESIZEUPPERLIMIT);
           ("maxqueuecount", SPECPROP_MAXQUEUECOUNTUPPERLIMIT)]%string w.

Definition getSpecPropertyStr (p : SpecProperty) : str :=
  s_ match p with
     | SPECPROP_NAME => "name" | SPECPROP_DURABLE => "durable" | SPECPROP_OWNER => "owner"
     | SPECPROP_ROUTINGKEY => "routingkey" | SPECPROP_AUTODELETE => "autodelete" | SPECPROP_EXCLUSIVE => "exclusive"
     | SPECPROP_TYPE => "type" | SPECPROP_ALTERNATE => "alternate" | SPECPROP_QUEUENAME => "queuename"
     | SPECPROP_SCHEMAPACKAGE => "schemapackage" | SPECPROP_SCHEMACLASS => "schemaclass"
     | SPECPROP_POLICYTYPE => "policytype" | SPECPROP_PAGING => "paging"
     | SPECPROP_MAXQUEUESIZELOWERLIMIT => "queuemaxsizelowerlimit"
     | SPECPROP_MAXQUEUESIZEUPPERLIMIT => "queuemaxsizeupperlimit"
     | SPECPROP_MAXQUEUECOUNTLOWERLIMIT => "queuemaxcountlowerlimit"
     | SPECPROP_MAXQUEUECOUNTUPPERLIMIT => "queuemaxcountupperlimit"
     | SPECPROP_MAXFILESIZELOWERLIMIT => "filemaxsizelowerlimit"
     | SPECPROP_MAXFILESIZEUPPERLIMIT => "filemaxsizeupperlimit"
     | SPECPROP_MAXFILECOUNTLOWERLIMIT => "filemaxcountlowerlimit"
     | SPECPROP_MAXFILECOUNTUPPERLIMIT => "filemaxcountupperlimit"
     | SPECPROP_MAXPAGESLOWERLIMIT => "pageslowerlimit" | SPECPROP_MAXPAGESUPPERLIMIT => "pagesupperlimit"
     | SPECPROP_MAXPAGEFACTORLOWERLIMIT => "pagefactorlowerlimit"
     | SPECPROP_MAXPAGEFACTORUPPERLIMIT => "pagefactorupperlimit"
     end.

Definition getAclResult (w : str) : option AclResult :=
  by_word [("allow", ALLOW); ("allow-log", ALLOWLOG); ("deny", DENY); ("deny-log", DENYLOG)]%string w.

Definition getAclResultStr (r : AclResult) : str :=
  s_ match r with ALLOW => "allow" | ALLOWLOG => "allow-log" | DENY => "deny" | DENYLOG => "deny-log" end.

(** ** The words name the values *)

Lemma elem_all_actions a : a ∈ all_actions.
Proof. destruct a; set_solver. Qed.

Lemma elem_all_objects o : o ∈ all_objects.
Proof. destruct o; set_solver. Qed.

Lemma NoDup_all_actions : NoDup all_actions.
Proof. apply (bool_decide_unpack _). vm_compute. exact I. Qed.

Lemma NoDup_all_objects : NoDup all_objects.
Proof. apply (bool_decide_unpack _). vm_compute. exact I. Qed.

(** every value is read back from its own word *)
Lemma words_roundtrip :
  (forall o, getObjectType (getObjectTypeStr o) = Some o) /\ (forall a, getAction (getActionStr a) = Some a)
  /\ (forall p, getProperty (getPropertyStr p) = Some p) /\ (forall p, getSpecProperty (getSpecPropertyStr p) = Some p)
  /\ (forall r, getAclResult (getAclResultStr r) = Some r).
Proof. repeat split; intros []; vm_compute; reflexivity. Qed.
