(* ===== verification/AclData.v ===== *)
(** * Access control: rules and lookups (src/qpid/acl/AclData.cpp, AclTopicMatch.h)

    The decision data: for every action and object type a map from user to the
    rules that name that user, the mode that decides when no rule matches, and
    the quotas.  The two lookups walk the rules of the user (or of the wildcard
    when the user has none) from the back.  A rule's routing key is kept in a
    topic tree with one pattern, the tree of TopicTree.

    [boost::lexical_cast] is a parameter, [LexicalCast]; its conversion of a
    string to a string is the identity.  A failed [assert] is
    [Throw AssertionFailed]; reading before the beginning of a string is
    [Throw UndefinedBehaviour]. *)

From Stdlib Require Import Ascii String ZArith.
From stdpp Require Import strings.
From S2P Require Import Prelude TopicKey TopicTree AclModule.
Local Open Scope nat_scope.

#[global] Instance outcome_ret : MRet outcome := fun A a => Ret a.
#[global] Instance outcome_bind : MBind outcome := fun A B f o =>
  match o with Ret a => f a | Throw e => Throw e end.

(** [boost::lexical_cast] from a string, [None] for [bad_lexical_cast] *)
Class LexicalCast := {
  lex_u16 : str -> option Z;
  lex_u64 : str -> option Z;
  lex_i64 : str -> option Z
}.

(** ** Strings *)

Definition starts_with (p s : str) : bool := bool_decide (take (length p) s = p).

Fixpoint find_from (p s : str) : option nat :=
  if starts_with p s then Some 0
  else match s with [] => None | _ :: s' => S <$> find_from p s' end.

(** [s.find(p, pos)] *)
Definition str_find (p s : str) (pos : nat) : option nat :=
  if pos <=? length s then (fun i => pos + i) <$> find_from p (drop pos s) else None.

(** [find(..) != npos] *)
Definition contains (p s : str) : bool := match str_find p s 0 with Some _ => true | None => false end.

Definition ACL_KEYWORD_USER_SUBST : str := s_ "${user}".
Definition ACL_KEYWORD_DOMAIN_SUBST : str := s_ "${domain}".
Definition ACL_KEYWORD_USERDOMAIN_SUBST : str := s_ "${userdomain}".
Definition ACL_KEYWORD_ALL : str := s_ "all".
Definition ACL_KEYWORD_ACL : str := s_ "acl".
Definition ACL_KEYWORD_GROUP : str := s_ "group".
Definition ACL_KEYWORD_QUOTA : str := s_ "quota".
Definition ACL_KEYWORD_QUOTA_CONNECTIONS : str := s_ "connections".
Definition ACL_KEYWORD_QUOTA_QUEUES : str := s_ "queues".
Definition ACL_SYMBOL_WILDCARD : ascii := "*"%char.
Definition ACL_KEYWORD_WILDCARD : str := s_ "*".
Definition ACL_SYMBOL_LINE_CONTINUATION : ascii := "\"%char.
Definition ACL_KEYWORD_DEFAULT_EXCHANGE : str := s_ "amq.default".

Definition DOMAIN_SEPARATOR : str := s_ "@".
Definition PERIOD : str := s_ ".".
Definition UNDERSCORE : str := s_ "_".

(** [data()[size()-1]] of an empty string is outside it *)
Definition matchProp (ruleStr lookupStr : str) : outcome bool :=
  match last ruleStr with
  | None => Throw UndefinedBehaviour
  | Some c =>
      if decide (c = ACL_SYMBOL_WILDCARD) then
        let n := length ruleStr - 1 in Ret (bool_decide (take n ruleStr = take n lookupStr))
      else Ret (bool_decide (ruleStr = lookupStr))
  end.

(** the loop of [substituteString]; its bound is the length of what is left to search *)
Fixpoint subst_loop (fuel : nat) (target placeholder replacement : str) (start_pos : nat) : outcome str :=
  match fuel with
  | 0 => Throw OutOfFuel
  | S fuel =>
      match str_find placeholder target start_pos with
      | None => Ret target
      | Some p =>
          subst_loop fuel (take p target ++ replacement ++ drop (p + length placeholder) target) placeholder replacement
            (p + length replacement)
      end
  end.

Definition substituteString (target placeholder replacement : str) : outcome str :=
  if decide (placeholder = []) then Throw AssertionFailed
  else subst_loop (S (length target)) target placeholder replacement 0.

Definition normalizeUserId (userId : str) : outcome str :=
  normalId ← substituteString userId DOMAIN_SEPARATOR UNDERSCORE;
  substituteString normalId PERIOD UNDERSCORE.

(** the user and the domain of an id *)
Definition split_id (userId : str) : outcome (str * str) :=
  match str_find DOMAIN_SEPARATOR userId 0 with
  | None => user ← normalizeUserId userId; mret (user, [])
  | Some loc =>
      user ← normalizeUserId (take loc userId);
      domain ← normalizeUserId (drop (loc + 1) userId);
      mret (user, domain)
  end.

Definition substituteUserId (ruleString userId : str) : outcome str :=
  userdomain ← normalizeUserId userId;
  '(user, domain) ← split_id userId;
  r ← substituteString ruleString ACL_KEYWORD_USER_SUBST user;
  r ← substituteString r ACL_KEYWORD_DOMAIN_SUBST domain;
  substituteString r ACL_KEYWORD_USERDOMAIN_SUBST userdomain.

Definition substituteKeywords (ruleString userId : str) : outcome str :=
  userdomain ← normalizeUserId userId;
  '(user, domain) ← split_id userId;
  r ← substituteString ruleString userdomain ACL_KEYWORD_USERDOMAIN_SUBST;
  r ← substituteString r user ACL_KEYWORD_USER_SUBST;
  substituteString r domain ACL_KEYWORD_DOMAIN_SUBST.

(** ** [TopicExchangeTester] *)

#[global] Instance BindingVec_Bindings : Bindings (list bool) := {|
  no_bindings := []; vec_empty := fun b => match b with [] => true | _ => false end; vec_empty_none := eq_refl |}.

Abbreviation TestBindingNode := (TopicKeyNode (list bool)).

Definition addBindingKey (bKey : str) (bindingTree : TestBindingNode) : outcome TestBindingNode :=
  let routingPattern := normalize bKey in
  t ← add (tokens routingPattern) routingPattern bindingTree;
  mret (update (tokens routingPattern) (fun v => v ++ [true]) t).

(** [TestFinder::visit], on the state of the finder: [found], or that it stopped the program *)
Definition visit_test (_ : TestBindingNode) (found : outcome bool) : outcome bool * bool :=
  match found with
  | Ret false => (Ret true, true)
  | Ret true => (Throw AssertionFailed, false)
  | Throw e => (Throw e, false)
  end.

Definition findMatches (rKey : str) (bindingTree : TestBindingNode) : outcome bool :=
  (iterateMatch visit_test bindingTree (tokens rKey) (Ret false)).1.

(** ** Rules *)

Record Rule := mkRule {
  rawRuleNum : Z;
  ruleMode : AclResult;
  props : list (SpecProperty * str);
  pubRoutingKeyInRule : bool;
  pubRoutingKey : str;
  pTTest : TestBindingNode;
  pubExchNameInRule : bool;
  pubExchNameMatchesBlank : bool;
  pubExchName : str;
  ruleHasUserSub : list bool
}.

(** the constructor *)
Definition new_Rule (ruleNum : Z) (res : AclResult) (p : list (SpecProperty * str)) : Rule :=
  mkRule ruleNum res p false [] root_node false false [] (replicate PROPERTYSIZE false).

Definition addTopicTest (pattern : str) (r : Rule) : outcome Rule :=
  t ← addBindingKey (normalize pattern) (pTTest r);
  mret (mkRule (rawRuleNum r) (ruleMode r) (props r) (pubRoutingKeyInRule r) (pubRoutingKey r) t
    (pubExchNameInRule r) (pubExchNameMatchesBlank r) (pubExchName r) (ruleHasUserSub r)).

Definition matchRoutingKey (r : Rule) (key : str) : outcome bool := findMatches key (pTTest r).

(** [ruleHasUserSub[p]] for the properties that may have a keyword *)
Definition has_sub (r : Rule) (p : SpecProperty) : bool := default false (ruleHasUserSub r !! spec_value p).

(** ** The decision data *)

Abbreviation ruleSet := (list Rule).
Abbreviation actionObject := (list (str * ruleSet)).
Abbreviation quotaRuleSet := (list (str * Z)).

Record AclData := mkAclData {
  actionList : Action -> option (ObjectType -> option actionObject);
  decisionMode : AclResult;
  transferAcl : bool;
  aclSource : str;
  connQuotaRulesExist : bool;
  connQuotaRuleSettings : quotaRuleSet;
  queueQuotaRulesExist : bool;
  queueQuotaRuleSettings : quotaRuleSet
}.

Definition new_AclData : AclData := mkAclData (fun _ => None) DENY false (s_ "UNKNOWN") false [] false [].

(** [clear] frees the lists and leaves their pointers in [actionList]: on data that has lists, what follows
    (a lookup, another load, the destructor) uses freed memory *)
Definition clear (d : AclData) : outcome AclData :=
  if forallb (fun a => match actionList d a with None => true | Some _ => false end) all_actions
  then Ret (mkAclData (actionList d) (decisionMode d) false (aclSource d) false [] false [])
  else Throw UndefinedBehaviour.

(** ** Lookups *)

(** the parameter of the lookup a property of a rule is compared with *)
Definition param_of (p : SpecProperty) : Property :=
  match p with
  | SPECPROP_MAXPAGESLOWERLIMIT | SPECPROP_MAXPAGESUPPERLIMIT => PROP_MAXPAGES
  | SPECPROP_MAXPAGEFACTORLOWERLIMIT | SPECPROP_MAXPAGEFACTORUPPERLIMIT => PROP_MAXPAGEFACTOR
  | SPECPROP_MAXQUEUECOUNTUPPERLIMIT | SPECPROP_MAXQUEUECOUNTLOWERLIMIT => PROP_MAXQUEUECOUNT
  | SPECPROP_MAXQUEUESIZEUPPERLIMIT | SPECPROP_MAXQUEUESIZELOWERLIMIT => PROP_MAXQUEUESIZE
  | SPECPROP_MAXFILECOUNTUPPERLIMIT | SPECPROP_MAXFILECOUNTLOWERLIMIT => PROP_MAXFILECOUNT
  | SPECPROP_MAXFILESIZEUPPERLIMIT | SPECPROP_MAXFILESIZELOWERLIMIT => PROP_MAXFILESIZE
  | SPECPROP_NAME => PROP_NAME | SPECPROP_DURABLE => PROP_DURABLE | SPECPROP_OWNER => PROP_OWNER
  | SPECPROP_ROUTINGKEY => PROP_ROUTINGKEY | SPECPROP_AUTODELETE => PROP_AUTODELETE
  | SPECPROP_EXCLUSIVE => PROP_EXCLUSIVE | SPECPROP_TYPE => PROP_TYPE | SPECPROP_ALTERNATE => PROP_ALTERNATE
  | SPECPROP_QUEUENAME => PROP_QUEUENAME | SPECPROP_SCHEMAPACKAGE => PROP_SCHEMAPACKAGE
  | SPECPROP_SCHEMACLASS => PROP_SCHEMACLASS | SPECPROP_POLICYTYPE => PROP_POLICYTYPE
  | SPECPROP_PAGING => PROP_PAGING
  end.

(** [Some true] for the upper limits, [Some false] for the lower ones *)
Definition limit_of (p : SpecProperty) : option bool :=
  match p with
  | SPECPROP_MAXQUEUECOUNTUPPERLIMIT | SPECPROP_MAXQUEUESIZEUPPERLIMIT | SPECPROP_MAXFILECOUNTUPPERLIMIT
  | SPECPROP_MAXFILESIZEUPPERLIMIT | SPECPROP_MAXPAGESUPPERLIMIT | SPECPROP_MAXPAGEFACTORUPPERLIMIT => Some true
  | SPECPROP_MAXQUEUECOUNTLOWERLIMIT | SPECPROP_MAXQUEUESIZELOWERLIMIT | SPECPROP_MAXFILECOUNTLOWERLIMIT
  | SPECPROP_MAXFILESIZELOWERLIMIT | SPECPROP_MAXPAGESLOWERLIMIT | SPECPROP_MAXPAGEFACTORLOWERLIMIT => Some false
  | _ => None
  end.

Abbreviation propertyMap := (list (Property * str)).

(** [params->find] *)
Definition find_param (p : Property) (m : propertyMap) : option str :=
  (fun e => e.2) <$> List.find (fun e => bool_decide (e.1 = p)) m.

Definition demote (r : AclResult) : AclResult :=
  match r with ALLOW => DENY | ALLOWLOG => DENYLOG | DENY => DENY | DENYLOG => DENYLOG end.

Section lookup.
Context {LC : LexicalCast}.

Definition compareInt (theAclValue theLookupValue : str) (theMaxFlag : bool) : outcome bool :=
  match lex_u64 theAclValue with
  | None => Throw AssertionFailed
  | Some aclRuleValue =>
      if (aclRuleValue =? 0)%Z then Ret true
      else match lex_u64 theLookupValue with
           | None => Ret false
           | Some lookupValue =>
               Ret (negb (if theMaxFlag then (aclRuleValue <? lookupValue)%Z else (lookupValue <? aclRuleValue)%Z))
           end
  end.

(** a property with a keyword is substituted first *)
Definition match_sub (sub : bool) (v id x : str) : outcome bool :=
  if sub then sName ← substituteUserId v id; matchProp sName x else matchProp v x.

Definition match_key (r : Rule) (id key : str) : outcome bool :=
  if has_sub r SPECPROP_ROUTINGKEY then sKey ← substituteKeywords key id; matchRoutingKey r sKey
  else matchRoutingKey r key.

(** the loop over the rule's properties: [None] when one does not match, else [limitChecked] *)
Fixpoint match_props (r : Rule) (id name : str) (params : option propertyMap) (l : list (SpecProperty * str))
    (limitChecked : bool) : outcome (option bool) :=
  match l with
  | [] => Ret (Some limitChecked)
  | (p, v) :: l' =>
      if decide (p = SPECPROP_NAME) then
        result ← match_sub (has_sub r SPECPROP_NAME) v id name;
        if result : bool then match_props r id name params l' limitChecked else Ret None
      else
        match params with
        | None => match_props r id name params l' limitChecked
        | Some ps =>
            match find_param (param_of p) ps with
            | None => Ret None
            | Some x =>
                match limit_of p with
                | Some max =>
                    ok ← compareInt v x max;
                    match_props r id name params l' (limitChecked && ok)
                | None =>
                    result ← (if decide (p = SPECPROP_ROUTINGKEY) then match_key r id x
                              else match_sub ((bool_decide (p = SPECPROP_ALTERNATE) || bool_decide (p = SPECPROP_QUEUENAME))
                                              && has_sub r p) v id x);
                    if result : bool then match_props r id name params l' limitChecked else Ret None
                end
            end
        end
  end.

Definition lookupMatchRule (r : Rule) (id name : str) (params : option propertyMap) : outcome (option AclResult) :=
  m ← match_props r id name params (props r) true;
  mret (match m with
        | None => None
        | Some limitChecked => Some (if limitChecked : bool then ruleMode r else demote (ruleMode r))
        end).

(** no parameter the user presents may hold a keyword *)
Definition has_keyword (s : str) : bool :=
  contains ACL_KEYWORD_USER_SUBST s || contains ACL_KEYWORD_DOMAIN_SUBST s || contains ACL_KEYWORD_USERDOMAIN_SUBST s.

Definition lookupMatchPublishExchangeRule (r : Rule) (id name routingKey : str) : outcome (option AclResult) :=
  m ← (if pubExchNameInRule r then
         if has_sub r SPECPROP_NAME then match_sub true (pubExchName r) id name
         else if pubExchNameMatchesBlank r then Ret (bool_decide (name = []))
         else matchProp (pubExchName r) name
       else Ret true);
  m ← (if (m : bool) && pubRoutingKeyInRule r then
         if has_keyword routingKey then Ret false else match_key r id routingKey
       else Ret m);
  mret (if m : bool then Some (ruleMode r) else None).

(** the rules from the last back to the first *)
Fixpoint first_decision (mtch : Rule -> outcome (option AclResult)) (rules : list Rule) (dflt : AclResult) : outcome AclResult :=
  match rules with
  | [] => Ret dflt
  | r :: rules' =>
      m ← mtch r;
      match m with Some res => Ret res | None => first_decision mtch rules' dflt end
  end.

(** the rules of the user, of the wildcard when the user has none *)
Definition rules_for (d : AclData) (id : str) (action : Action) (objType : ObjectType) : option ruleSet :=
  match actionList d action with
  | None => None
  | Some row =>
      match row objType with
      | None => None
      | Some m => match map_find id m with Some rs => Some rs | None => map_find ACL_KEYWORD_WILDCARD m end
      end
  end.

Definition lookup (d : AclData) (id : str) (action : Action) (objType : ObjectType) (name : str)
    (params : option propertyMap) : outcome AclResult :=
  match rules_for d id action objType with
  | Some rs => first_decision (fun r => lookupMatchRule r id name params) (rev rs) (decisionMode d)
  | None => Ret (decisionMode d)
  end.

Definition lookupPublish (d : AclData) (id : str) (action : Action) (objType : ObjectType) (name routingKey : str) : outcome AclResult :=
  match rules_for d id action objType with
  | Some rs => first_decision (fun r => lookupMatchPublishExchangeRule r id name routingKey) (rev rs) (decisionMode d)
  | None => Ret (decisionMode d)
  end.
End lookup.

(** ** Quotas *)

Definition getConnectMaxSpec : Z := 65530.
Definition getQueueMaxSpec : Z := 65530.

Definition setConnQuotaRuleSettings (rulesExist : bool) (q : quotaRuleSet) (d : AclData) : AclData :=
  mkAclData (actionList d) (decisionMode d) (transferAcl d) (aclSource d) rulesExist q
    (queueQuotaRulesExist d) (queueQuotaRuleSettings d).

Definition setQueueQuotaRuleSettings (rulesExist : bool) (q : quotaRuleSet) (d : AclData) : AclData :=
  mkAclData (actionList d) (decisionMode d) (transferAcl d) (aclSource d) (connQuotaRulesExist d) (connQuotaRuleSettings d)
    rulesExist q.

(** the returned flag and [*theResult] *)
Definition getConnQuotaForUser (d : AclData) (theUserName : str) : bool * Z :=
  if connQuotaRulesExist d then
    match map_find theUserName (connQuotaRuleSettings d) with
    | Some n => (true, n)
    | None => match map_find ACL_KEYWORD_ALL (connQuotaRuleSettings d) with Some n => (true, n) | None => (true, 0%Z) end
    end
  else (false, 0%Z).

Definition getQueueQuotaForUser (d : AclData) (theUserName : str) : bool * Z :=
  if queueQuotaRulesExist d then
    match map_find theUserName (queueQuotaRuleSettings d) with
    | Some n => (true, n)
    | None => match map_find ACL_KEYWORD_ALL (queueQuotaRuleSettings d) with Some n => (true, n) | None => (true, 0%Z) end
    end
  else (false, 0%Z).
