(* ===== verification/AclReader.v ===== *)
(** * Access control: the rule file (src/qpid/acl/AclReader.cpp, AclValidator.cpp)

    [AclReader] reads the file line by line into a list of rules, the groups,
    the names and the quotas; [loadDecisionData] turns them into the decision
    data of AclData; [AclValidator] then checks the values of the properties.

    A [std::set] of names is the sorted list of its elements, a [std::map] the
    list of its entries in key order.  The text of the error messages is not
    kept, only which of them was written on which line.  Dereferencing
    [begin()] of an empty set or an iterator at the end is
    [Throw UndefinedBehaviour]. *)

From Stdlib Require Import Ascii String ZArith.
From stdpp Require Import strings.
From S2P Require Import Prelude SelectorToken TopicKey TopicTree AclModule AclData.
Local Open Scope nat_scope.

(** ** Sets of names *)

Fixpoint set_insert (x : str) (s : list str) : list str :=
  match s with
  | [] => [x]
  | y :: s' => if decide (x = y) then s else if str_ltb x y then x :: s else y :: set_insert x s'
  end.

(** [insert(begin, end)] *)
Definition set_insert_all (xs s : list str) : list str := fold_left (fun s x => set_insert x s) xs s.

(** ** Rules as they are read *)

Inductive objectStatus := NONE | VALUE | ALL.

Record aclRule := mkAclRule {
  res : AclResult;
  names : list str;
  actionAll : bool;
  action : Action;
  objStatus : objectStatus;
  object : ObjectType;
  ar_props : list (SpecProperty * str)
}.

Abbreviation groupMap := (list (str * list str)).

Definition processName (name : str) (groups : groupMap) : list str :=
  if decide (name = ACL_KEYWORD_ALL) then [ACL_KEYWORD_WILDCARD]
  else match map_find name groups with None => [name] | Some g => set_insert_all g [] end.

(** the two constructors; the object is not read before it is set *)
Definition new_aclRule (r : AclResult) (n : str) (groups : groupMap) (a : option Action) : aclRule :=
  match a with
  | None => mkAclRule r (processName n groups) true ACT_CONSUME NONE OBJ_QUEUE []
  | Some a => mkAclRule r (processName n groups) false a NONE OBJ_QUEUE []
  end.

Definition setObjectType (o : ObjectType) (r : aclRule) : aclRule :=
  mkAclRule (res r) (names r) (actionAll r) (action r) VALUE o (ar_props r).
Definition setObjectTypeAll (r : aclRule) : aclRule :=
  mkAclRule (res r) (names r) (actionAll r) (action r) ALL (object r) (ar_props r).

(** [props.insert]: keeps the value a key has *)
Fixpoint props_insert (p : SpecProperty) (v : str) (l : list (SpecProperty * str)) : list (SpecProperty * str) :=
  match l with
  | [] => [(p, v)]
  | (q, w) :: l' =>
      if decide (p = q) then l
      else if spec_value p <? spec_value q then (p, v) :: l else (q, w) :: props_insert p v l'
  end.

Definition addProperty (p : SpecProperty) (v : str) (r : aclRule) : aclRule :=
  mkAclRule (res r) (names r) (actionAll r) (action r) (objStatus r) (object r) (props_insert p v (ar_props r)).

(** ** The reader *)

Inductive acl_error :=
| IllegalExtension | NotALine | QuotaTokens | QuotaType | QuotaValue | QuotaMaximum | GroupExpansion
| SubGroupUndefined | GroupTokens | GroupNameCharacters | GroupDuplicate
| AclTokens | AclPermission | AclTokensAfterAll | AclAction | AclObject | AclPropertyPair | AclProperty
| UserRealm | UserCharacters.

Record AclReader := mkReader {
  lineNumber : Z;
  contFlag : bool;
  groupName : str;
  rd_names : list str;
  groups : groupMap;
  rules : list aclRule;
  errorStream : list (Z * acl_error);
  rd_connRulesExist : bool;
  connQuota : quotaRuleSet;
  rd_queueRulesExist : bool;
  queueQuota : quotaRuleSet
}.

Definition new_AclReader : AclReader :=
  mkReader 0 false [] (set_insert ACL_KEYWORD_WILDCARD []) [] [] [] false [] false [].

Definition set_lineNumber n s :=
  mkReader n (contFlag s) (groupName s) (rd_names s) (groups s) (rules s) (errorStream s)
    (rd_connRulesExist s) (connQuota s) (rd_queueRulesExist s) (queueQuota s).
Definition set_contFlag c s :=
  mkReader (lineNumber s) c (groupName s) (rd_names s) (groups s) (rules s) (errorStream s)
    (rd_connRulesExist s) (connQuota s) (rd_queueRulesExist s) (queueQuota s).
Definition set_names ns s :=
  mkReader (lineNumber s) (contFlag s) (groupName s) ns (groups s) (rules s) (errorStream s)
    (rd_connRulesExist s) (connQuota s) (rd_queueRulesExist s) (queueQuota s).
Definition set_groups g s :=
  mkReader (lineNumber s) (contFlag s) (groupName s) (rd_names s) g (rules s) (errorStream s)
    (rd_connRulesExist s) (connQuota s) (rd_queueRulesExist s) (queueQuota s).
Definition set_groupName g s :=
  mkReader (lineNumber s) (contFlag s) g (rd_names s) (groups s) (rules s) (errorStream s)
    (rd_connRulesExist s) (connQuota s) (rd_queueRulesExist s) (queueQuota s).
Definition set_rules rs s :=
  mkReader (lineNumber s) (contFlag s) (groupName s) (rd_names s) (groups s) rs (errorStream s)
    (rd_connRulesExist s) (connQuota s) (rd_queueRulesExist s) (queueQuota s).
Definition set_errors e s :=
  mkReader (lineNumber s) (contFlag s) (groupName s) (rd_names s) (groups s) (rules s) e
    (rd_connRulesExist s) (connQuota s) (rd_queueRulesExist s) (queueQuota s).
Definition set_connQuota b q s :=
  mkReader (lineNumber s) (contFlag s) (groupName s) (rd_names s) (groups s) (rules s) (errorStream s)
    b q (rd_queueRulesExist s) (queueQuota s).
Definition set_queueQuota b q s :=
  mkReader (lineNumber s) (contFlag s) (groupName s) (rd_names s) (groups s) (rules s) (errorStream s)
    (rd_connRulesExist s) (connQuota s) b q.

(** [errorStream << ...; return false] *)
Definition err (e : acl_error) : M AclReader bool :=
  _ ← modify (fun s => set_errors (errorStream s ++ [(lineNumber s, e)]) s);
  mret false.

(** *** Characters and tokens *)

Definition isValidGroupName (name : str) : bool :=
  forallb (fun ch => isalnum ch || isc ch "-" || isc ch "_") name.

Definition isValidUserName (name : str) : M AclReader bool :=
  if match str_find DOMAIN_SEPARATOR name 0 with None => true | Some pos => pos =? length name - 1 end then err UserRealm
  else if forallb (fun ch => isalnum ch || isc ch "-" || isc ch "_" || isc ch "@" || isc ch "." || isc ch "/") name
  then mret true else err UserCharacters.

(** [std::pair<name, value>]; an empty value when there is no [=] or nothing follows it *)
Definition splitNameValuePair (nvpString : str) : str * str :=
  match str_find (s_ "=") nvpString 0 with
  | None => (nvpString, [])
  | Some pos => if pos =? length nvpString - 1 then (nvpString, []) else (take pos nvpString, drop (pos + 1) nvpString)
  end.

(** [strtok] over the white space characters *)
Fixpoint strtok (cur line : str) : list str :=
  match line with
  | [] => match cur with [] => [] | _ => [cur] end
  | c :: line' =>
      if isspace c then match cur with [] => strtok [] line' | _ => cur :: strtok [] line' end
      else strtok (cur ++ [c]) line'
  end.
Definition tokenize (line : str) : list str := strtok [] line.

Fixpoint skip_space (line : str) : str * str :=
  match line with
  | c :: line' => if isspace c then let '(a, b) := skip_space line' in (c :: a, b) else ([], line)
  | [] => ([], [])
  end.
Fixpoint first_word (line : str) : str :=
  match line with c :: line' => if isspace c then [] else c :: first_word line' | [] => [] end.

(** the buffer after [strtok]: it ends after the first token *)
Definition line_after_strtok (line : str) : str := let '(a, b) := skip_space line in a ++ first_word b.

(** [strrchr] of the continuation character: the line up to its last occurrence *)
Fixpoint cut_continuation (line : str) : option str :=
  match line with
  | [] => None
  | c :: line' =>
      match cut_continuation line' with
      | Some l => Some (c :: l)
      | None => if decide (c = ACL_SYMBOL_LINE_CONTINUATION) then Some [] else None
      end
  end.

(** *** Groups *)

Definition addName1 (name : str) : M AclReader unit := modify (fun s => set_names (set_insert name (rd_names s)) s).

(** [addName(name, citr->second)] for the group under [g]; a group that is not there is the end iterator *)
Definition addName (name g : str) : M AclReader unit :=
  s ← Prelude.get;
  match map_find g (groups s) with
  | None => throw UndefinedBehaviour
  | Some gs =>
      match map_find name (groups s) with
      | Some members => modify (fun s => set_groups (map_insert g (set_insert_all members gs) (groups s)) s)
      | None =>
          _ ← modify (fun s => set_groups (map_insert g (set_insert name gs) (groups s)) s);
          addName1 name
      end
  end.

Definition addGroup (newGroupName : str) : M AclReader bool :=
  s ← Prelude.get;
  match map_find newGroupName (groups s) with
  | Some _ => err GroupDuplicate
  | None =>
      _ ← modify (fun s => set_groupName newGroupName (set_groups (map_insert newGroupName [] (groups s)) s));
      mret true
  end.

(** the loop over the members, for the group under [g] *)
Fixpoint add_members (toks : list str) (g : str) : M AclReader bool :=
  match toks with
  | [] => mret true
  | t :: toks' =>
      s ← Prelude.get;
      if isValidGroupName t then
        if decide (t = groupName s) then add_members toks' g
        else match map_find t (groups s) with
             | None => err SubGroupUndefined
             | Some _ => _ ← addName t g; add_members toks' g
             end
      else
        ok ← isValidUserName t;
        if ok : bool then _ ← addName t g; add_members toks' g else mret false
  end.

Definition processGroupLine (toks : list str) (cont : bool) : M AclReader bool :=
  s ← Prelude.get;
  if contFlag s then add_members toks (groupName s)
  else if length toks <? (if cont then 2 else 3) then err GroupTokens
  else
    let name := default [] (toks !! 1) in
    if negb (isValidGroupName name) then err GroupNameCharacters
    else
      ok ← addGroup name;
      if ok : bool then add_members (drop 2 toks) name else mret false.

(** *** Quotas *)

(** on the quota map; the error is written by the caller *)
Fixpoint processQuotaGroup (fuel : nat) (gm : groupMap) (theGroup : str) (theQuota : Z) : M quotaRuleSet bool :=
  match fuel with
  | 0 => throw OutOfFuel
  | S fuel =>
      match map_find theGroup gm with
      | None => mret false
      | Some members =>
          (fix loop ms := match ms with
             | [] => mret true
             | n :: ms' =>
                 match map_find n gm with
                 | None => _ ← modify (map_insert n theQuota); loop ms'
                 | Some _ => ok ← processQuotaGroup fuel gm n theQuota; if ok : bool then loop ms' else mret false
                 end
             end) members
      end
  end.

Definition quota_fuel (gm : groupMap) : nat := S (length gm).

Fixpoint apply_quota (gm : groupMap) (toks : list str) (nEntities : Z) : M quotaRuleSet bool :=
  match toks with
  | [] => mret true
  | t :: toks' =>
      match map_find t gm with
      | None => _ ← modify (map_insert t nEntities); apply_quota gm toks' nEntities
      | Some _ =>
          ok ← processQuotaGroup (quota_fuel gm) gm t nEntities;
          if ok : bool then apply_quota gm toks' nEntities else mret false
      end
  end.

(** run a computation on one of the two quota maps *)
Definition on_quota (get_q : AclReader -> quotaRuleSet) (put_q : quotaRuleSet -> AclReader -> AclReader)
    {A} (m : M quotaRuleSet A) : M AclReader A :=
  fun s => let '(q, o) := m (get_q s) in (put_q q s, o).

Section reader.
Context {LC : LexicalCast}.

Definition processQuotaLine4 (toks : list str) (maxSpec : Z) (get_q : AclReader -> quotaRuleSet)
    (put_q : quotaRuleSet -> AclReader -> AclReader) : M AclReader bool :=
  match lex_u16 (default [] (toks !! 2)) with
  | None => err QuotaValue
  | Some nEntities =>
      if (maxSpec <? nEntities)%Z then err QuotaMaximum
      else
        s ← Prelude.get;
        ok ← on_quota get_q put_q (apply_quota (groups s) (drop 3 toks) nEntities);
        if ok : bool then mret true else err GroupExpansion
  end.

Definition processQuotaLine (toks : list str) : M AclReader bool :=
  if length toks <? 3 then err QuotaTokens
  else if decide (default [] (toks !! 1) = ACL_KEYWORD_QUOTA_CONNECTIONS) then
    ok ← processQuotaLine4 toks getConnectMaxSpec connQuota (fun q s => set_connQuota (rd_connRulesExist s) q s);
    if ok : bool then _ ← modify (fun s => set_connQuota true (connQuota s) s); mret true else mret false
  else if decide (default [] (toks !! 1) = ACL_KEYWORD_QUOTA_QUEUES) then
    ok ← processQuotaLine4 toks getConnectMaxSpec queueQuota (fun q s => set_queueQuota (rd_queueRulesExist s) q s);
    if ok : bool then _ ← modify (fun s => set_queueQuota true (queueQuota s) s); mret true else mret false
  else err QuotaType.

(** *** Rules *)

Fixpoint add_properties (toks : list str) (r : aclRule) : sum acl_error aclRule :=
  match toks with
  | [] => inr r
  | t :: toks' =>
      let '(n, v) := splitNameValuePair t in
      match v with
      | [] => inl AclPropertyPair
      | _ => match getSpecProperty n with
             | None => inl AclProperty
             | Some p => add_properties toks' (addProperty p v r)
             end
      end
  end.

(** the object and the properties, the tokens from the fifth on *)
Definition add_object (toks : list str) (r : aclRule) : sum acl_error aclRule :=
  match toks with
  | [] => inr r
  | t :: toks' =>
      if decide (t = ACL_KEYWORD_ALL) then add_properties toks' (setObjectTypeAll r)
      else match getObjectType t with
           | None => inl AclObject
           | Some o => add_properties toks' (setObjectType o r)
           end
  end.

Definition processAclLine (toks : list str) : M AclReader bool :=
  match toks with
  | _ :: perm :: user :: act :: rest =>
      match getAclResult perm with
      | None => err AclPermission
      | Some r =>
          let actionAllFlag := bool_decide (act = ACL_KEYWORD_ALL) in
          let userAllFlag := bool_decide (user = ACL_KEYWORD_ALL) in
          if actionAllFlag && userAllFlag && (0 <? length rest) then err AclTokensAfterAll
          else
            match (if actionAllFlag then Some None else Some <$> getAction act) with
            | None => err AclAction
            | Some a =>
                s ← Prelude.get;
                match add_object rest (new_aclRule r user (groups s) a) with
                | inl e => err e
                | inr rule =>
                    _ ← (if negb userAllFlag && bool_decide (map_find user (groups s) = None) then addName1 user else mret tt);
                    _ ← modify (fun s => set_rules (rules s ++ [rule]) s);
                    mret true
                end
            end
      end
  | _ => err AclTokens
  end.

Definition processLine (line : str) : M AclReader bool :=
  let cut := cut_continuation line in
  let cont := match cut with Some _ => true | None => false end in
  let line := default line cut in
  let toks := tokenize line in
  if cont && (length toks =? 0) then err IllegalExtension
  else
    s ← Prelude.get;
    ret ← (match toks with
           | t :: _ =>
               if bool_decide (t = ACL_KEYWORD_GROUP) || contFlag s then processGroupLine toks cont
               else if decide (t = ACL_KEYWORD_ACL) then processAclLine toks
               else if decide (t = ACL_KEYWORD_QUOTA) then processQuotaLine toks
               else if forallb isspace (line_after_strtok line) then mret true else err NotALine
           | [] => if forallb isspace (line_after_strtok line) then mret true else err NotALine
           end);
    _ ← modify (set_contFlag cont);
    mret ret.

(** *** [loadDecisionData] *)

(** [rule.ruleHasUserSub[p] = true] *)
Fixpoint mark_subs (l : list (SpecProperty * str)) (flags : list bool) : outcome (list bool) :=
  match l with
  | [] => Ret flags
  | (p, v) :: l' =>
      if has_keyword v then
        if spec_value p <? length flags then mark_subs l' (<[spec_value p := true]> flags) else Throw UndefinedBehaviour
      else mark_subs l' flags
  end.

Fixpoint mark_key (l : list (SpecProperty * str)) (r : Rule) : outcome Rule :=
  match l with
  | [] => Ret r
  | (p, v) :: l' =>
      if decide (p = SPECPROP_ROUTINGKEY) then
        r ← addTopicTest v (mkRule (rawRuleNum r) (ruleMode r) (props r) true v (pTTest r)
                              (pubExchNameInRule r) (pubExchNameMatchesBlank r) (pubExchName r) (ruleHasUserSub r));
        mark_key l' r
      else mark_key l' r
  end.

Definition make_rule (cnt : Z) (i : aclRule) : outcome Rule :=
  let r := new_Rule cnt (res i) (ar_props i) in
  flags ← mark_subs (props r) (ruleHasUserSub r);
  mark_key (props r) (mkRule (rawRuleNum r) (ruleMode r) (props r) (pubRoutingKeyInRule r) (pubRoutingKey r) (pTTest r)
                        (pubExchNameInRule r) (pubExchNameMatchesBlank r) (pubExchName r) flags).

(** what [ACT_PUBLISH] adds to the rule *)
Fixpoint mark_publish (l : list (SpecProperty * str)) (r : Rule) : Rule :=
  match l with
  | [] => r
  | (p, v) :: l' =>
      mark_publish l' (if decide (p = SPECPROP_NAME) then
        mkRule (rawRuleNum r) (ruleMode r) (props r) (pubRoutingKeyInRule r) (pubRoutingKey r) (pTTest r)
          true (bool_decide (v = ACL_KEYWORD_DEFAULT_EXCHANGE)) v (ruleHasUserSub r) else r)
  end.

Definition set_transferAcl (d : AclData) : AclData :=
  mkAclData (actionList d) (decisionMode d) true (aclSource d) (connQuotaRulesExist d) (connQuotaRuleSettings d)
    (queueQuotaRulesExist d) (queueQuotaRuleSettings d).
Definition set_actionList (l : Action -> option (ObjectType -> option actionObject)) (d : AclData) : AclData :=
  mkAclData l (decisionMode d) (transferAcl d) (aclSource d) (connQuotaRulesExist d) (connQuotaRuleSettings d)
    (queueQuotaRulesExist d) (queueQuotaRuleSettings d).
Definition set_decisionMode (m : AclResult) (d : AclData) : AclData :=
  mkAclData (actionList d) m (transferAcl d) (aclSource d) (connQuotaRulesExist d) (connQuotaRuleSettings d)
    (queueQuotaRulesExist d) (queueQuotaRuleSettings d).

Definition add_user (rule : Rule) (m : actionObject) (user : str) : actionObject :=
  match map_find user m with None => map_insert user [rule] m | Some rs => map_insert user (rs ++ [rule]) m end.

(** the row of objects of an action, with the rule added for the users under the objects *)
Definition add_row (rule : Rule) (objs : list ObjectType) (users : list str) (row : ObjectType -> option actionObject)
    : ObjectType -> option actionObject :=
  fold_left (fun row o => fun o' => if decide (o' = o) then Some (fold_left (add_user rule) users (default [] (row o))) else row o')
    objs row.

(** one pass of the loop over the actions *)
Definition load_action (i : aclRule) (objs : list ObjectType) (users : list str) (st : AclData * Rule) (a : Action) : AclData * Rule :=
  let '(d, rule) := st in
  let d := if decide (a = ACT_PUBLISH) then set_transferAcl d else d in
  let rule := if decide (a = ACT_PUBLISH) then mark_publish (ar_props i) rule else rule in
  let row := default (fun _ => None) (actionList d a) in
  let row := add_row rule objs users row in
  (set_actionList (fun a' => if decide (a' = a) then Some row else actionList d a') d, rule).

Definition rule_actions (i : aclRule) : list Action := if actionAll i then all_actions else [action i].
Definition rule_objects (i : aclRule) : list ObjectType := match objStatus i with VALUE => [object i] | _ => all_objects end.

(** the users of the rule: all the names of the file for the wildcard *)
Definition rule_users (all_names : list str) (i : aclRule) : outcome (list str) :=
  match names i with
  | [] => Throw UndefinedBehaviour
  | n :: _ => Ret (if decide (n = ACL_KEYWORD_WILDCARD) then all_names else names i)
  end.

Definition is_mode (i : aclRule) : bool := actionAll i && bool_decide (names i = [ACL_KEYWORD_WILDCARD]).

Definition load_rule (all_names : list str) (cnt : Z) (i : aclRule) (st : AclData * bool) : outcome (AclData * bool) :=
  let '(d, foundmode) := st in
  if negb foundmode && is_mode i then Ret (set_decisionMode (res i) d, true)
  else
    rule ← make_rule cnt i;
    users ← rule_users all_names i;
    Ret ((fold_left (load_action i (rule_objects i) users) (rule_actions i) (d, rule)).1, foundmode).

(** the rules, last first, numbered from their count down *)
Fixpoint load_rules (all_names : list str) (rs : list aclRule) (st : AclData * bool) : outcome (AclData * bool) :=
  match rs with
  | [] => Ret st
  | i :: rs' => st ← load_rule all_names (Z.of_nat (length rs)) i st; load_rules all_names rs' st
  end.

Definition loadDecisionData (s : AclReader) (d : AclData) : outcome AclData :=
  d ← clear d;
  '(d, _) ← load_rules (rd_names s) (rev (rules s)) (d, false);
  mret (setQueueQuotaRuleSettings (rd_queueRulesExist s) (queueQuota s)
          (setConnQuotaRuleSettings (rd_connRulesExist s) (connQuota s) d)).

(** *** [read] *)

Definition newline : ascii := "010"%char.

(** [getline(buff, n + 1)]: the characters stored, what is left, end of file, line too long *)
Fixpoint getline (n : nat) (s : str) {struct s} : str * str * bool * bool :=
  match s with
  | [] => ([], [], true, false)
  | c :: s' =>
      if decide (c = newline) then ([], s', false, false)
      else match n with
           | 0 => ([], s, false, true)
           | S n' => let '(b, r, eof, fail) := getline n' s' in (c :: b, r, eof, fail)
           end
  end.

(** the string in the buffer ends at the first NUL *)
Fixpoint c_string (s : str) : str :=
  match s with [] => [] | c :: s' => if decide (c = "000"%char) then [] else c :: c_string s' end.

Definition is_comment (buff : str) : bool := match buff with "#"%char :: _ => true | _ => false end.

(** the loop over the lines; returns [eof()] and [err] *)
Fixpoint read_lines (fuel : nat) (s : str) (e : bool) : M AclReader (bool * bool) :=
  match fuel with
  | 0 => throw OutOfFuel
  | S fuel =>
      let '(b, r, eof, fail) := getline 1023 s in
      let buff := c_string b in
      _ ← modify (fun s => set_lineNumber (lineNumber s + 1)%Z s);
      e ← (if (0 <? length buff) && negb (is_comment buff) then ok ← processLine buff; mret (e || negb ok) else mret e);
      if eof || fail then mret (eof, e) else read_lines fuel r e
  end.

Definition read_fuel (s : str) : nat := S (length s).

(** the file is its contents, [None] when it cannot be opened; the code returned and the data *)
Definition read (cliMaxConnPerUser cliMaxQueuesPerUser : Z) (file : option str) (d : AclData) : M AclReader (Z * AclData) :=
  match file with
  | None => mret ((-1)%Z, d)
  | Some contents =>
      _ ← modify (fun s => if (0 <? cliMaxConnPerUser)%Z
                           then set_connQuota true (map_insert ACL_KEYWORD_ALL cliMaxConnPerUser (connQuota s)) s else s);
      _ ← modify (fun s => if (0 <? cliMaxQueuesPerUser)%Z
                           then set_queueQuota true (map_insert ACL_KEYWORD_ALL cliMaxQueuesPerUser (queueQuota s)) s else s);
      '(eof, e) ← read_lines (read_fuel contents) contents false;
      if negb eof then mret ((-2)%Z, d)
      else if e : bool then mret ((-3)%Z, d)
      else s ← Prelude.get; d ← lift_outcome (loadDecisionData s d); mret (0%Z, d)
  end.

(** ** [AclValidator] *)

Definition IntPropertyType_validate (min max : Z) (val : str) : bool :=
  match lex_i64 val with None => false | Some v => negb ((v <? min)%Z || (max <=? v)%Z) end.

Definition EnumPropertyType_validate (values : list str) (val : str) : bool := existsb (fun v => bool_decide (val = v)) values.

(** the [validators] map *)
Definition validator (p : SpecProperty) : option (str -> bool) :=
  match limit_of p with
  | Some _ => Some (IntPropertyType_validate 0 (2 ^ 63 - 1))
  | None => if decide (p = SPECPROP_POLICYTYPE)
            then Some (EnumPropertyType_validate [s_ "ring"; s_ "self-destruct"; s_ "reject"]) else None
  end.

(** [validateProperty] returns, or throws *)
Definition validateProperty (e : SpecProperty * str) : bool :=
  match validator e.1 with Some v => v e.2 | None => true end.
Definition validateRule (r : Rule) : bool := forallb validateProperty (props r).
Definition validateRuleSet (e : str * ruleSet) : bool := forallb validateRule e.2.

Definition validate (d : AclData) : bool :=
  forallb (fun a => match actionList d a with
    | None => true
    | Some row => forallb (fun o => match row o with None => true | Some m => forallb validateRuleSet m end) all_objects
    end) all_actions.
End reader.
