(* ===== verification/AclMatch.v ===== *)
(** * Access control: what a rule matches

    The string substitutions return and are a plain replacement from left to
    right; the wildcard comparison is a comparison with a prefix; the topic
    tester of a rule, a tree with one pattern, decides the topic match whenever
    the pattern has at most one [#].  Together they give the meaning of one
    rule, [rule_result]. *)

From Stdlib Require Import Ascii String ZArith.
From stdpp Require Import strings.
From S2P Require Import Prelude TopicKey TopicTree AclModule AclData.
Local Open Scope nat_scope.

(** ** Substitution *)

(** the replacement of every occurrence, from left to right; [skip] characters belong to the last one *)
Fixpoint replace_skip (p r : str) (skip : nat) (s : str) : str :=
  match s with
  | [] => []
  | c :: s' =>
      match skip with
      | S k => replace_skip p r k s'
      | 0 => if starts_with p s then r ++ replace_skip p r (length p - 1) s' else c :: replace_skip p r 0 s'
      end
  end.
Definition replace_all (p r s : str) : str := replace_skip p r 0 s.

Lemma starts_with_app p s : starts_with p s = true <-> exists u, s = p ++ u.
Proof.
  unfold starts_with. rewrite bool_decide_eq_true. split.
  - intros E. exists (drop (length p) s). by rewrite <- E at 1; rewrite take_drop.
  - intros [u ->]. by rewrite take_app_length.
Qed.

Lemma replace_skip_drop p r k s : replace_skip p r k s = replace_skip p r 0 (drop k s).
Proof.
  revert s. induction k as [|k IH]; intros [|c s]; try done. cbn [replace_skip drop]. apply IH.
Qed.

Lemma replace_here p r s : p <> [] -> starts_with p s = true -> replace_all p r s = r ++ replace_all p r (drop (length p) s).
Proof.
  intros Hp Hs. destruct s as [|c s].
  { exfalso. apply starts_with_app in Hs as [u E]. symmetry in E. by apply app_nil in E as [-> _]. }
  unfold replace_all. cbn [replace_skip]. rewrite Hs, replace_skip_drop.
  destruct p as [|c' p]; [done|]. cbn [length]. by rewrite Nat.sub_succ, Nat.sub_0_r.
Qed.

Lemma find_from_None p r s : find_from p s = None -> replace_all p r s = s.
Proof.
  unfold replace_all. induction s as [|c s IH]; [done|]. cbn [find_from replace_skip].
  destruct (starts_with p (c :: s)); [done|]. destruct (find_from p s); [done|]. intros _. by rewrite IH.
Qed.

Lemma find_from_Some p r s i : p <> [] -> find_from p s = Some i ->
  replace_all p r s = take i s ++ r ++ replace_all p r (drop (i + length p) s) /\ i + length p <= length s.
Proof.
  intros Hp. revert i. induction s as [|c s IH]; intros i; cbn [find_from].
  - destruct (starts_with p []) eqn:E; [|done]. exfalso. apply starts_with_app in E as [u E].
    symmetry in E. by apply app_nil in E as [-> _].
  - destruct (starts_with p (c :: s)) eqn:E.
    + intros [= <-]. split; [by apply replace_here|]. apply starts_with_app in E as [u ->]. rewrite length_app. lia.
    + destruct (find_from p s) as [j|]; [|done]. intros [= <-]. destruct (IH j eq_refl) as [IH1 IH2].
      split; [|cbn; lia]. unfold replace_all in *. cbn [replace_skip]. rewrite E, IH1. done.
Qed.

Lemma subst_loop_eq p r : p <> [] -> forall fuel pre s,
  length s < fuel -> subst_loop fuel (pre ++ s) p r (length pre) = Ret (pre ++ replace_all p r s).
Proof.
  intros Hp. induction fuel as [|fuel IH]; intros pre s Hf; [lia|]. cbn [subst_loop]. unfold str_find.
  rewrite length_app, (proj2 (Nat.leb_le _ _)) by lia. rewrite drop_app_length.
  destruct (find_from p s) as [i|] eqn:E; cbn [fmap option_fmap option_map].
  - destruct (find_from_Some p r s i Hp E) as [-> Hl].
    rewrite take_app_add, <- Nat.add_assoc, drop_app_add.
    rewrite app_assoc, app_assoc.
    replace (length pre + i + length r) with (length ((pre ++ take i s) ++ r)).
    2:{ rewrite !length_app, length_take. lia. }
    assert (length p <> 0) by (by destruct p).
    rewrite IH by (rewrite length_drop; lia). by rewrite <- !app_assoc.
  - by rewrite (find_from_None p r s E).
Qed.

(** the substitution returns, and replaces *)
Lemma substituteString_eq s p r : p <> [] -> substituteString s p r = Ret (replace_all p r s).
Proof.
  intros Hp. unfold substituteString. rewrite decide_False by done.
  apply (subst_loop_eq p r Hp (S (length s)) [] s). lia.
Qed.

Lemma replace_nonempty p r s : r <> [] -> s <> [] -> replace_all p r s <> [].
Proof.
  intros Hr Hs. destruct s as [|c s]; [done|]. unfold replace_all. cbn [replace_skip].
  destruct (starts_with p (c :: s)); [|done]. by destruct r.
Qed.

(** replacing one character *)
Lemma replace_char (c : ascii) r s : replace_all [c] r s = flat_map (fun x => if decide (x = c) then r else [x]) s.
Proof.
  unfold replace_all. induction s as [|x s IH]; [done|]. cbn [replace_skip flat_map]. rewrite IH.
  unfold starts_with. cbn [length take]. rewrite take_0. case_decide as Hx.
  - subst. rewrite bool_decide_eq_true_2 by done. change (1 - 1) with 0. by rewrite IH.
  - rewrite bool_decide_eq_false_2; [done|]. congruence.
Qed.

(** [@] and [.] become [_] *)
Definition normal_char (c : ascii) : ascii := if decide (c = "@"%char \/ c = "."%char) then "_"%char else c.
Definition normal_id (id : str) : str := map normal_char id.

Lemma normalizeUserId_eq id : normalizeUserId id = Ret (normal_id id).
Proof.
  unfold normalizeUserId. rewrite substituteString_eq by done. cbn [mbind outcome_bind].
  rewrite substituteString_eq by done. f_equal. unfold DOMAIN_SEPARATOR, PERIOD, UNDERSCORE, s_. cbn [list_ascii_of_string].
  rewrite !replace_char. induction id as [|c id IH]; [done|]. cbn [normal_id map flat_map]. unfold normal_char.
  destruct (decide (c = "@"%char)) as [->|H1]; cbn [app flat_map]; rewrite IH; [done|].
  destruct (decide (c = "."%char)) as [->|H2]; [done|]. rewrite decide_False; [done|]. tauto.
Qed.

(** user and domain of an id *)
Definition id_user (id : str) : str :=
  normal_id match str_find DOMAIN_SEPARATOR id 0 with None => id | Some loc => take loc id end.
Definition id_domain (id : str) : str :=
  match str_find DOMAIN_SEPARATOR id 0 with None => [] | Some loc => normal_id (drop (loc + 1) id) end.

Lemma split_id_eq id : split_id id = Ret (id_user id, id_domain id).
Proof.
  unfold split_id, id_user, id_domain. destruct (str_find _ _ _); rewrite !normalizeUserId_eq; cbn [mbind outcome_bind];
    rewrite ?normalizeUserId_eq; done.
Qed.

Definition sub_user (v id : str) : str :=
  replace_all ACL_KEYWORD_USERDOMAIN_SUBST (normal_id id)
    (replace_all ACL_KEYWORD_DOMAIN_SUBST (id_domain id) (replace_all ACL_KEYWORD_USER_SUBST (id_user id) v)).

Definition sub_keywords (key id : str) : str :=
  replace_all (id_domain id) ACL_KEYWORD_DOMAIN_SUBST
    (replace_all (id_user id) ACL_KEYWORD_USER_SUBST (replace_all (normal_id id) ACL_KEYWORD_USERDOMAIN_SUBST key)).

Lemma substituteUserId_eq v id : substituteUserId v id = Ret (sub_user v id).
Proof.
  unfold substituteUserId. rewrite normalizeUserId_eq, split_id_eq. cbn [mbind outcome_bind].
  rewrite substituteString_eq by done. cbn [mbind outcome_bind]. rewrite substituteString_eq by done.
  cbn [mbind outcome_bind]. by rewrite substituteString_eq.
Qed.

(** an id with a user and a domain *)
Definition full_id (id : str) : Prop := id_user id <> [] /\ id_domain id <> [].

Lemma full_id_nonempty id : full_id id -> normal_id id <> [].
Proof. intros [Hu _] E. apply Hu. destruct id; [|done]. done. Qed.

Lemma substituteKeywords_eq key id : full_id id -> substituteKeywords key id = Ret (sub_keywords key id).
Proof.
  intros Hid. unfold substituteKeywords. rewrite normalizeUserId_eq, split_id_eq. cbn [mbind outcome_bind].
  rewrite substituteString_eq by (by apply full_id_nonempty). cbn [mbind outcome_bind].
  rewrite substituteString_eq by apply Hid. cbn [mbind outcome_bind]. by rewrite substituteString_eq by apply Hid.
Qed.

Lemma sub_user_nonempty v id : full_id id -> v <> [] -> sub_user v id <> [].
Proof.
  intros Hid Hv. unfold sub_user. repeat apply replace_nonempty; auto; [by apply full_id_nonempty|apply Hid..].
Qed.

(** ** The wildcard comparison *)

Definition wild_match (r x : str) : Prop :=
  r = x \/ exists p rest, r = p ++ [ACL_SYMBOL_WILDCARD] /\ x = p ++ rest.

#[global] Instance wild_match_dec r x : Decision (wild_match r x).
Proof.
  refine (cast_if (decide (r = x \/ (last r = Some ACL_SYMBOL_WILDCARD /\ take (length r - 1) r = take (length r - 1) x)))).
  - destruct o as [->|[Hl E]]; [by left|]. right. apply last_Some in Hl as [p ->].
    rewrite length_app, Nat.add_sub, take_app_length in E. exists p, (drop (length p) x). split; [done|].
    rewrite E at 1. by rewrite take_drop.
  - intros [->|(p & rest & -> & ->)]; apply n; [by left|]. right. split; [by rewrite last_snoc|].
    by rewrite length_app, Nat.add_sub, !take_app_length.
Defined.

Lemma matchProp_eq r x : r <> [] -> matchProp r x = Ret (bool_decide (wild_match r x)).
Proof.
  intros Hr. unfold matchProp. destruct (last r) as [c|] eqn:Hl; [|by apply last_None in Hl].
  apply last_Some in Hl as [p ->]. rewrite length_app, Nat.add_sub, take_app_length.
  case_decide as Hc; f_equal; apply bool_decide_ext; unfold wild_match.
  - subst. split.
    + intros E. right. exists p, (drop (length p) x). split; [done|]. rewrite E at 1. by rewrite take_drop.
    + intros [<-|(p' & rest & E & ->)]; [by rewrite take_app_length|].
      apply app_inj_2 in E as [-> _]; [|done]. by rewrite take_app_length.
  - split; [by left|]. intros [|(p' & rest & E & _)]; [done|]. apply app_inj_2 in E as [_ [= ->]]; done.
Qed.

(** ** The topic tester *)

(** in how many ways a pattern matches a key *)
Fixpoint ways (p k : list str) : nat :=
  match p with
  | [] => match k with [] => 1 | _ => 0 end
  | t :: p' =>
      if decide (t = HASH) then
        (fix any (k : list str) : nat := ways p' k + match k with [] => 0 | _ :: k' => any k' end) k
      else match k with
           | [] => 0
           | x :: k' => if bool_decide (t = STAR) || bool_decide (t = x) then ways p' k' else 0
           end
  end.

Lemma ways_hash p k : ways (HASH :: p) k = ways p k + match k with [] => 0 | _ :: k' => ways (HASH :: p) k' end.
Proof. cbn [ways]. rewrite decide_True by done. by destruct k. Qed.

Lemma ways_plain t p k : t <> HASH ->
  ways (t :: p) k = match k with
    | [] => 0 | x :: k' => if bool_decide (t = STAR) || bool_decide (t = x) then ways p k' else 0 end.
Proof. intros H. cbn [ways]. by rewrite decide_False. Qed.

Lemma ways_nil k : ways [] k = match k with [] => 1 | _ => 0 end.
Proof. by destruct k. Qed.

#[local] Arguments ways : simpl never.

Lemma ways_match p k : topic_match p k = (0 <? ways p k).
Proof.
  revert k. induction p as [|t p IH]; intros k; [by destruct k|].
  destruct (decide (t = HASH)) as [->|Ht].
  - induction k as [|x k IHk].
    + rewrite ways_hash, Nat.add_0_r, <- IH. apply eq_true_iff_eq. rewrite hash_match. split.
      * intros (k1 & k2 & E & H). symmetry in E. by apply app_nil in E as [_ ->].
      * intros H. by exists [], [].
    + rewrite hash_cons, IHk, IH, (ways_hash p (x :: k)). apply eq_true_iff_eq.
      rewrite orb_true_iff, !Nat.ltb_lt. lia.
  - rewrite plain_match, ways_plain by done. destruct k as [|x k]; [done|]. rewrite IH.
    by destruct (bool_decide (t = STAR) || bool_decide (t = x)).
Qed.

Definition hashes (p : list str) : nat := length (filter (fun t => t = HASH) p).

Lemma hashes_hash p : hashes (HASH :: p) = S (hashes p).
Proof. unfold hashes. by rewrite filter_cons_True. Qed.
Lemma hashes_plain t p : t <> HASH -> hashes (t :: p) = hashes p.
Proof. intros. unfold hashes. by rewrite filter_cons_False. Qed.

Lemma ways_fixed p k : hashes p = 0 -> ways p k <= 1 /\ (length p <> length k -> ways p k = 0).
Proof.
  revert k. induction p as [|t p IH]; intros k Hp.
  - rewrite ways_nil. destruct k; cbn; lia.
  - destruct (decide (t = HASH)) as [->|Ht]; [by rewrite hashes_hash in Hp|].
    rewrite hashes_plain in Hp by done. rewrite ways_plain by done. destruct k as [|x k]; [lia|].
    destruct (_ || _); [|lia]. destruct (IH k Hp) as [H1 H2]. split; [done|]. cbn. intros. apply H2. lia.
Qed.

(** with one [#] there is at most one way *)
Lemma ways_one p k : hashes p <= 1 -> ways p k <= 1.
Proof.
  revert k. induction p as [|t p IH]; intros k Hp; [rewrite ways_nil; destruct k; lia|].
  destruct (decide (t = HASH)) as [->|Ht].
  - rewrite hashes_hash in Hp. assert (H0 : hashes p = 0) by lia.
    enough (ways (HASH :: p) k <= 1 /\ (length k < length p -> ways (HASH :: p) k = 0)) by tauto.
    induction k as [|x k [IHk1 IHk2]].
    + rewrite ways_hash, Nat.add_0_r. destruct (ways_fixed p [] H0). split; [done|]. cbn. intros. apply H1. cbn. lia.
    + rewrite ways_hash. destruct (ways_fixed p (x :: k) H0) as [H1 H2]. cbn [length] in *. split; [|lia].
      destruct (decide (length p = S (length k))) as [E|E]; [rewrite IHk2 by lia; lia|]. rewrite H2 by done. lia.
  - rewrite hashes_plain in Hp by done. rewrite ways_plain by done. destruct k as [|x k]; [lia|].
    destruct (_ || _); [auto|lia].
Qed.

(** *** A tree with one pattern *)

Definition bare (tk : str) (st hs : bool) : TestBindingNode := Node [] [] tk st hs [] None None.

Fixpoint chain (full : str) (ts : list str) (n : TestBindingNode) : TestBindingNode :=
  match ts with
  | [] => set_bindings [true] (set_pattern full n)
  | t :: ts' => set_child t (Some (chain full ts' (new_node t))) n
  end.

Lemma new_node_bare t : new_node t = bare t (bool_decide (t = STAR)) (bool_decide (t = HASH)).
Proof. done. Qed.

Lemma child_bare t tk st hs oc : child t (set_child t oc (bare tk st hs)) = oc.
Proof. apply child_set_child. constructor. Qed.

Lemma set_set_child t c c' tk st hs :
  set_child t (Some c) (set_child t (Some c') (bare tk st hs)) = set_child t (Some c) (bare tk st hs).
Proof.
  unfold bare. cbn [set_child]. destruct (decide (t = STAR)) as [->|]; [done|].
  destruct (decide (t = HASH)) as [->|]; [done|]. cbn [set_child map_insert]. rewrite !decide_False by done. by rewrite decide_True.
Qed.

Lemma add_chain full ts tk st hs :
  exists t, add ts full (bare tk st hs) = Ret t /\ update ts (fun v => v ++ [true]) t = chain full ts (bare tk st hs).
Proof.
  revert tk st hs. induction ts as [|t ts IH]; intros tk st hs.
  - eexists. split; [by cbn [add]; rewrite decide_True|]. done.
  - cbn [add]. assert (child t (bare tk st hs) = None) as -> by (unfold child; by repeat case_decide).
    rewrite new_node_bare. destruct (IH t (bool_decide (t = STAR)) (bool_decide (t = HASH))) as (c & -> & Hu).
    eexists. split; [done|]. cbn [update chain]. rewrite child_bare, Hu, set_set_child. by rewrite new_node_bare.
Qed.

Lemma children_chain full t ts tk st hs k :
  normal hs (t :: ts) = true ->
  m_children (chain full (t :: ts) (bare tk st hs)) k =
    if decide (t = HASH) then matches (chain full ts (new_node t)) k
    else match k with
         | [] => []
         | x :: k' => if decide (t = STAR) then matches (chain full ts (new_node t)) k
                      else if decide (t = x) then matches (chain full ts (new_node t)) k' else []
         end.
Proof.
  intros Hn. cbn [chain]. unfold m_children, bare. cbn [set_child].
  destruct (decide (t = STAR)) as [->|Hs].
  - rewrite decide_False by done. cbn [hashChild starChild childTokens map_find app]. destruct k; [done|]. by rewrite app_nil_r.
  - destruct (decide (t = HASH)) as [->|Hh].
    + cbn [hashChild starChild childTokens map_find app]. destruct k; by rewrite app_nil_r.
    + cbn [hashChild starChild childTokens map_find map_insert app]. destruct k as [|x k]; [done|]. by case_decide.
Qed.

Lemma bare_chain_unbound full t ts tk st hs : if_bound (chain full (t :: ts) (bare tk st hs)) = [].
Proof. cbn [chain]. unfold bare. cbn [set_child]. by repeat case_decide. Qed.

Lemma chain_kind full ts tk st hs :
  isStar (chain full ts (bare tk st hs)) = st /\ isHash (chain full ts (bare tk st hs)) = hs.
Proof. destruct ts as [|t ts]; [done|]. cbn [chain]. unfold bare. cbn [set_child]. by repeat case_decide. Qed.

(** what a node with this kind takes of the key itself *)
Definition self_tokens (st hs : bool) : list str := if st then [STAR] else if hs then [HASH] else [].

Lemma self_new t : self_tokens (bool_decide (t = STAR)) (bool_decide (t = HASH)) =
  if decide (t = STAR) then [STAR] else if decide (t = HASH) then [HASH] else [].
Proof. unfold self_tokens. unfold bool_decide. by repeat case_decide. Qed.

Section chain_count.
Context (full : str) (ts : list str) (tk : str) (st hs : bool).
Let n := chain full ts (bare tk st hs).
Context (Hc : forall k, length (m_children n k) + length (match k with [] => if_bound n | _ => [] end) = ways ts k).

Lemma count_here k : length (m_here n k) = ways ts k.
Proof. unfold m_here. rewrite length_app, <- Hc. lia. Qed.

Lemma count_hash k : m_children n [] = [] -> length (m_hash n k) = ways (HASH :: ts) k.
Proof.
  intros H0. induction k as [|x k IH]; rewrite ways_hash; cbn [m_hash].
  - rewrite <- Hc, H0. cbn. lia.
  - rewrite length_app, IH, <- (Hc (x :: k)). cbn. lia.
Qed.
End chain_count.

Lemma normal_weaken b ts : normal b ts = true -> normal false ts = true.
Proof. destruct ts as [|t ts]; [done|]. cbn [normal]. rewrite !andb_true_iff. cbn. tauto. Qed.

(** the match visits the one bound node once for every way *)
Lemma chain_count full ts : forall tk st hs k,
  (st = true -> hs = false) -> normal hs ts = true ->
  length (matches (chain full ts (bare tk st hs)) k) = ways (self_tokens st hs ++ ts) k.
Proof.
  induction ts as [|t ts IH]; intros tk st hs k Hex Hn.
  - destruct st; [|destruct hs]; rewrite matches_eq; cbn [chain isStar isHash bare set_bindings set_pattern self_tokens app].
    + rewrite ways_plain by done. rewrite bool_decide_eq_true_2 by done. destruct k as [|x [|y k]]; done.
    + rewrite (count_hash full [] tk false true); [done|..].
      * intros [|]; done.
      * done.
    + destruct k; done.
  - assert (Hc : forall k, length (m_children (chain full (t :: ts) (bare tk st hs)) k)
       + length (match k with [] => if_bound (chain full (t :: ts) (bare tk st hs)) | _ => [] end) = ways (t :: ts) k).
    { intros k'. rewrite bare_chain_unbound, children_chain by done. pose proof (self_new t) as Hself.
      assert (IHt := IH t (bool_decide (t = STAR)) (bool_decide (t = HASH))). rewrite new_node_bare, Hself in *.
      assert (Hn' : normal (bool_decide (t = HASH)) ts = true) by (cbn [normal] in Hn; by apply andb_true_iff in Hn as [_ ?]).
      assert (Hx : bool_decide (t = STAR) = true -> bool_decide (t = HASH) = false).
      { intros ->%bool_decide_eq_true. done. }
      destruct (decide (t = HASH)) as [->|Hh].
      - rewrite IHt by done. rewrite decide_False by done. destruct k'; cbn; lia.
      - rewrite ways_plain by done. destruct k' as [|x k']; [done|].
        destruct (decide (t = STAR)) as [->|Hs].
        + rewrite IHt by done. rewrite bool_decide_eq_true_2 by done. cbn [app]. rewrite ways_plain by done.
          rewrite bool_decide_eq_true_2 by done. cbn. lia.
        + assert (Hb : bool_decide (t = STAR) || bool_decide (t = x) = bool_decide (t = x))
            by (by rewrite (bool_decide_eq_false_2 (t = STAR))).
          rewrite Hb. destruct (decide (t = x)) as [E|E].
          * rewrite IHt by done. rewrite bool_decide_eq_true_2 by done. cbn. lia.
          * rewrite bool_decide_eq_false_2 by done. done. }
    rewrite matches_eq. destruct (chain_kind full (t :: ts) tk st hs) as [-> ->].
    destruct st; [|destruct hs]; cbn [self_tokens app].
    + rewrite ways_plain by done. destruct k as [|x k]; [done|]. rewrite bool_decide_eq_true_2 by done.
      cbn [orb]. by apply count_here.
    + apply count_hash; [done|]. rewrite children_chain by done. cbn [normal] in Hn.
      destruct (decide (t = HASH)) as [->|]; [by rewrite bool_decide_eq_true_2 in Hn|done].
    + by apply count_here.
Qed.

(** *** Matching a routing key *)

Lemma visit_test_list (l : list TestBindingNode) :
  length l <= 1 -> (visit_list visit_test l (Ret false)).1 = Ret (0 <? length l).
Proof. destruct l as [|n [|m l]]; [done|done|cbn; lia]. Qed.

(** the tree of a rule with the pattern [v] *)
Definition tester (v : str) : TestBindingNode := chain (normalize v) (tokens (normalize v)) root_node.

Lemma normalize_idem v : normalize (normalize v) = normalize v.
Proof.
  rewrite (normalize_spec (normalize v)), <- tokens_spec, tokens_normalize.
  rewrite (normalize_spec v), tokens_spec. f_equal. apply norm_id, norm_normal.
Qed.

Lemma addBindingKey_root v : addBindingKey v root_node = Ret (tester v).
Proof.
  unfold addBindingKey. destruct (add_chain (normalize v) (tokens (normalize v)) [] false false) as (t & Ha & Hu).
  change root_node with (bare [] false false). rewrite Ha. cbn [mbind outcome_bind mret outcome_ret]. by rewrite Hu.
Qed.

(** the pattern has at most one [#] after normalisation *)
Definition one_hash (v : str) : Prop := hashes (tokens (normalize v)) <= 1.

Lemma tester_eq v key : one_hash v -> findMatches key (tester v) = Ret (topic_match (tokens v) (tokens key)).
Proof.
  intros H1. unfold findMatches, tester. rewrite iterateMatch_list.
  assert (Hl := chain_count (normalize v) (tokens (normalize v)) [] false false (tokens key)). cbn [self_tokens app] in Hl.
  change (bare [] false false) with (root_node (T := list bool)) in Hl.
  rewrite visit_test_list; rewrite Hl; try done.
  - rewrite <- ways_match, tokens_normalize. f_equal. apply norm_match.
  - rewrite tokens_normalize. apply norm_normal.
  - by apply ways_one.
  - rewrite tokens_normalize. apply norm_normal.
Qed.
