(* ===== verification/AclInvariant.v ===== *)
(** * Access control: what the reader keeps

    The invariant of [AclReader] over every line of a file, accepted or not:
    every name a rule can apply to is in [names], groups hold users and never
    groups, the wildcard is alone in the rules that have it, and the properties
    of a rule are in order, each once and with a value.  Hence quotas of groups
    are applied without recursion, and no bound of the model is ever reached. *)

From Stdlib Require Import Ascii String ZArith.
From stdpp Require Import strings.
From S2P Require Import Prelude SelectorToken TopicKey TopicTree AclModule AclData AclReader AclMatch.
Local Open Scope nat_scope.

(** ** Sets *)

Lemma elem_set_insert x y s : y ∈ set_insert x s <-> y = x \/ y ∈ s.
Proof.
  induction s as [|z s IH]; cbn [set_insert]; [set_solver|].
  case_decide as E; [subst; set_solver|]. destruct (str_ltb x z); set_solver.
Qed.

Lemma elem_set_insert_all xs s y : y ∈ set_insert_all xs s <-> y ∈ xs \/ y ∈ s.
Proof.
  unfold set_insert_all. revert s. induction xs as [|x xs IH]; intros s; cbn [fold_left]; [set_solver|].
  rewrite IH, elem_set_insert. set_solver.
Qed.

Abbreviation sorted := (StronglySorted str_lt).

Lemma set_insert_sorted x s : sorted s -> sorted (set_insert x s).
Proof.
  induction 1 as [|y s Hs IH Hall]; cbn [set_insert]; [by repeat constructor|].
  case_decide as E; [by constructor|]. destruct (str_ltb x y) eqn:El.
  - constructor; [by constructor|]. constructor; [done|]. eapply Forall_impl; [exact Hall|].
    intros z Hz. by apply str_lt_trans with y.
  - constructor; [done|]. apply Forall_forall. intros z [->|Hz]%elem_set_insert.
    + destruct (str_lt_total x y) as [H|[H|H]]; [|done|done]. unfold str_lt in H. congruence.
    + rewrite Forall_forall in Hall. auto.
Qed.

Lemma set_insert_all_sorted xs s : sorted s -> sorted (set_insert_all xs s).
Proof.
  unfold set_insert_all. revert s. induction xs as [|x xs IH]; intros s Hs; [done|]. cbn [fold_left].
  by apply IH, set_insert_sorted.
Qed.

Lemma sorted_NoDup s : sorted s -> NoDup s.
Proof.
  induction 1 as [|x s Hs IH Hall]; constructor; [|done]. intros Hx. rewrite Forall_forall in Hall.
  by apply (str_lt_irrefl x), Hall.
Qed.

(** ** Properties of a rule, in order *)

Definition spec_lt (a b : SpecProperty * str) : Prop := spec_value a.1 < spec_value b.1.
Definition props_ok (l : list (SpecProperty * str)) : Prop :=
  StronglySorted spec_lt l /\ Forall (fun e => e.2 <> []) l.

Lemma spec_value_inj p q : spec_value p = spec_value q -> p = q.
Proof. destruct p, q; done. Qed.

Lemma elem_props_insert p v l e : e ∈ props_insert p v l -> e = (p, v) \/ e ∈ l.
Proof.
  induction l as [|[q w] l IH]; cbn [props_insert]; [set_solver|].
  case_decide; [set_solver|]. destruct (_ <? _); set_solver.
Qed.

Lemma props_insert_ok p v l : v <> [] -> props_ok l -> props_ok (props_insert p v l).
Proof.
  intros Hv [Hs Hf]. split.
  - clear Hf. induction Hs as [|[q w] l Hs IH Hall]; cbn [props_insert]; [by repeat constructor|].
    case_decide as E; [by constructor|]. destruct (Nat.ltb_spec (spec_value p) (spec_value q)) as [Hlt|Hge].
    + constructor; [by constructor|]. constructor; [done|]. eapply Forall_impl; [exact Hall|].
      intros e He. unfold spec_lt in *. cbn in *. lia.
    + constructor; [done|]. apply Forall_forall. intros e [->|He]%elem_props_insert.
      * unfold spec_lt. cbn. assert (spec_value p <> spec_value q) by (intros ?%spec_value_inj; done). lia.
      * rewrite Forall_forall in Hall. by apply Hall.
  - rewrite Forall_forall in *. intros e [->|He]%elem_props_insert; [done|auto].
Qed.

Lemma add_properties_ok toks : forall r r',
  add_properties toks r = inr r' -> props_ok (ar_props r) ->
  props_ok (ar_props r') /\ names r' = names r /\ res r' = res r /\ actionAll r' = actionAll r
  /\ action r' = action r /\ objStatus r' = objStatus r /\ object r' = object r.
Proof.
  induction toks as [|t toks IH]; intros r r'; cbn [add_properties]; [by intros [= <-]|].
  destruct (splitNameValuePair t) as [n [|c v]]; [done|]. destruct (getSpecProperty n) as [p|]; [|done].
  intros H Hp. apply IH in H; [exact H|]. cbn. by apply props_insert_ok.
Qed.

Lemma add_object_ok toks r r' :
  add_object toks r = inr r' -> props_ok (ar_props r) -> props_ok (ar_props r') /\ names r' = names r.
Proof.
  destruct toks as [|t toks]; cbn [add_object]; [by intros [= <-]|].
  case_decide; [|destruct (getObjectType t); [|done]]; intros H' Hp; apply add_properties_ok in H' as (? & -> & _); done.
Qed.

(** ** The invariant *)

(** the members of a group: known names, neither the wildcard nor a group *)
Definition group_ok (ns : list str) (gm : groupMap) (members : list str) : Prop :=
  forall n, n ∈ members -> n ∈ ns /\ n <> ACL_KEYWORD_WILDCARD /\ isValidGroupName n = false.

Definition rule_names_ok (ns : list str) (i : aclRule) : Prop :=
  (forall n, n ∈ names i -> n ∈ ns) /\ (ACL_KEYWORD_WILDCARD ∈ names i -> names i = [ACL_KEYWORD_WILDCARD]) /\ sorted (names i).

Record reader_inv (s : AclReader) : Prop := {
  ri_wild : ACL_KEYWORD_WILDCARD ∈ rd_names s;
  ri_sorted : sorted (rd_names s);
  ri_keys : forall g members, map_find g (groups s) = Some members -> isValidGroupName g = true;
  ri_groups : forall g members, map_find g (groups s) = Some members -> group_ok (rd_names s) (groups s) members;
  ri_rules : Forall (fun i => rule_names_ok (rd_names s) i /\ props_ok (ar_props i)) (rules s)
}.

(** [keeps m]: every call of [m] keeps the invariant, whatever its outcome *)
Definition keeps {A} (m : M AclReader A) : Prop := forall s, reader_inv s -> reader_inv (m s).1.

Lemma keeps_reader_bind {A B} (m : M AclReader A) (f : A -> M AclReader B) :
  keeps m -> (forall a, keeps (f a)) -> keeps (m ≫= f).
Proof.
  intros Hm Hf s Hs. specialize (Hm s Hs). unfold mbind, M_bind. destruct (m s) as [s' [a|e]]; [|done]. by apply Hf.
Qed.

Lemma keeps_reader_get {B} (f : AclReader -> M AclReader B) :
  (forall s0, reader_inv s0 -> reader_inv (f s0 s0).1) -> keeps (Prelude.get ≫= f).
Proof. intros H s Hs. by apply H. Qed.

Lemma keeps_reader_ret {A} (a : A) : keeps (mret a).
Proof. intros s Hs. done. Qed.

Lemma keeps_err e : keeps (err e).
Proof. intros s []. by constructor. Qed.

Lemma keeps_modify f : (forall s, reader_inv s -> reader_inv (f s)) -> keeps (modify f).
Proof. intros H s Hs. by apply H. Qed.

Lemma keeps_reader_throw {A} e : keeps (throw (A := A) e).
Proof. intros s Hs. done. Qed.

Lemma names_mono s x : reader_inv s -> reader_inv (set_names (set_insert x (rd_names s)) s).
Proof.
  intros [Hw Hso Hk Hg Hr]. constructor; cbn [rd_names groups rules set_names].
  - apply elem_set_insert. auto.
  - by apply set_insert_sorted.
  - done.
  - intros g ms Hf n Hn. destruct (Hg g ms Hf n Hn) as (? & ? & ?). rewrite elem_set_insert. auto.
  - eapply Forall_impl; [exact Hr|]. intros i [(H1 & H2 & H2') H3]. split; [|done]. split_and!; [|done|done].
    intros n Hn. apply elem_set_insert. auto.
Qed.

Lemma addName1_keeps n : keeps (addName1 n).
Proof. apply keeps_modify. intros s. apply names_mono. Qed.

(** a user that passed the check *)
Definition user_name (n : str) : Prop := n <> ACL_KEYWORD_WILDCARD /\ isValidGroupName n = false.

Lemma set_group_inv s g ms :
  reader_inv s -> isValidGroupName g = true -> group_ok (rd_names s) (groups s) ms ->
  reader_inv (set_groups (map_insert g ms (groups s)) s).
Proof.
  intros [Hw Hso Hk Hg Hr] Hv Hms. constructor; cbn [rd_names groups rules set_groups]; [done|done|..|done].
  - intros g' ms'. destruct (decide (g = g')) as [<-|Hne]; [done|]. rewrite map_find_insert_ne by done. apply Hk.
  - intros g' ms'. destruct (decide (g = g')) as [<-|Hne].
    + rewrite map_find_insert. intros [= <-]. exact Hms.
    + rewrite map_find_insert_ne by done. intros Hf. exact (Hg g' ms' Hf).
Qed.

Lemma addName_keeps t g s :
  reader_inv s -> (map_find t (groups s) = None -> user_name t) -> reader_inv (addName t g s).1.
Proof.
  intros Hs Ht. unfold addName. rewrite (bind_Ret _ _ _ s s) by done.
  destruct (map_find g (groups s)) as [gs|] eqn:Eg; [|done].
  assert (Hgs := ri_groups s Hs g gs Eg). assert (Hv := ri_keys s Hs g gs Eg).
  destruct (map_find t (groups s)) as [ms|] eqn:Et.
  - apply set_group_inv; [done|done|]. assert (Hms := ri_groups s Hs t ms Et).
    intros n [Hn|Hn]%elem_set_insert_all; auto.
  - destruct (Ht eq_refl) as [Hw Hnv]. rewrite (bind_Ret _ _ _ (set_groups (map_insert g (set_insert t gs) (groups s)) s) tt) by done.
    unfold addName1, modify. cbn [fst].
    assert (Hs' := names_mono s t Hs). apply (set_group_inv _ g (set_insert t gs)) in Hs'; [exact Hs'|done|].
    cbn [rd_names set_names groups]. intros n [->|Hn]%elem_set_insert.
    + split_and!; [|done|done]. apply elem_set_insert. auto.
    + destruct (Hgs n Hn) as (? & ? & ?). split_and!; [|done|done]. apply elem_set_insert. auto.
Qed.

Lemma str_find_split p s i : str_find p s 0 = Some i -> exists l1 l2, s = l1 ++ p ++ l2.
Proof.
  unfold str_find. cbn [Nat.leb]. rewrite drop_0. destruct (find_from p s) as [j|] eqn:E; [|done]. intros _. revert j E.
  induction s as [|c s IH]; intros j; cbn [find_from]; destruct (starts_with p _) eqn:Es; try done.
  1,2: intros _; apply starts_with_app in Es as [u ->]; by exists [], u.
  destruct (find_from p s) as [k|]; [|done]. intros _. destruct (IH k eq_refl) as (l1 & l2 & ->).
  by exists (c :: l1), l2.
Qed.

Lemma isValidUserName_ok t s :
  exists s', isValidUserName t s = (s', Ret false) /\ (reader_inv s -> reader_inv s')
  \/ (isValidUserName t s = (s, Ret true) /\ user_name t).
Proof.
  unfold isValidUserName.
  destruct (match str_find DOMAIN_SEPARATOR t 0 with None => true | Some pos => pos =? length t - 1 end) eqn:E1.
  - eexists. left. split; [done|]. apply (keeps_err UserRealm).
  - destruct (forallb _ t) eqn:E2.
    + exists s. right. split; [done|].
      destruct (str_find DOMAIN_SEPARATOR t 0) as [i|] eqn:Ef; [|done]. apply str_find_split in Ef as Hat.
      destruct Hat as (l1 & l2 & ->). split.
      * intros E. by rewrite E in E2.
      * apply not_true_iff_false. intros H. unfold isValidGroupName in H. rewrite forallb_app in H.
        by apply andb_true_iff in H as [_ H].
    + eexists. left. split; [done|]. apply (keeps_err UserCharacters).
Qed.

Lemma add_members_keeps toks : forall g, keeps (add_members toks g).
Proof.
  induction toks as [|t toks IH]; intros g; [apply keeps_reader_ret|]. cbn [add_members]. apply keeps_reader_get. intros s Hs.
  destruct (isValidGroupName t) eqn:Ev.
  - case_decide; [by apply IH|]. destruct (map_find t (groups s)) as [ms|] eqn:Et; [|by apply keeps_err].
    assert (Ha := addName_keeps t g s Hs ltac:(congruence)). unfold mbind, M_bind.
    destruct (addName t g s) as [s' [a|e]]; [by apply IH|done].
  - destruct (isValidUserName_ok t s) as [s' [[E Hk]|[E Hu]]]; unfold mbind, M_bind; rewrite E.
    + by apply Hk.
    + assert (Ha := addName_keeps t g s Hs (fun _ => Hu)). destruct (addName t g s) as [s'' [a|e]]; [by apply IH|done].
Qed.

Lemma addGroup_keeps g : isValidGroupName g = true -> keeps (addGroup g).
Proof.
  intros Hv. apply keeps_reader_get. intros s Hs. destruct (map_find g (groups s)) as [ms|] eqn:E; [by apply keeps_err|].
  refine (keeps_reader_bind (modify _) _ (keeps_modify _ _) (fun _ => keeps_reader_ret _) s Hs). intros s' Hs'.
  assert (H : group_ok (rd_names s') (groups s') []) by (intros n Hn; by apply elem_of_nil in Hn).
  destruct (set_group_inv s' g [] Hs' Hv H). by constructor.
Qed.

Lemma processGroupLine_keeps toks cont : keeps (processGroupLine toks cont).
Proof.
  apply keeps_reader_get. intros s Hs. destruct (contFlag s); [by apply add_members_keeps|].
  destruct (_ <? _); [by apply keeps_err|]. cbv zeta. destruct (isValidGroupName (default [] (toks !! 1))) eqn:Ev; cbn [negb]; [|by apply keeps_err].
  refine (keeps_reader_bind _ _ (addGroup_keeps _ Ev) _ s Hs). intros []; [apply add_members_keeps|apply keeps_reader_ret].
Qed.

Lemma on_quota_keeps get_q put_q {A} (m : M quotaRuleSet A) :
  (forall q s, reader_inv s -> reader_inv (put_q q s)) -> keeps (on_quota get_q put_q m).
Proof. intros H s Hs. unfold on_quota. destruct (m (get_q s)) as [q o]. by apply H. Qed.

(** the invariant does not speak of the quotas, the line and the error stream *)
Lemma connQuota_inv s c q : reader_inv s -> reader_inv (set_connQuota c q s).
Proof. intros []. by constructor. Qed.
Lemma queueQuota_inv s c q : reader_inv s -> reader_inv (set_queueQuota c q s).
Proof. intros []. by constructor. Qed.
Lemma line_inv s n : reader_inv s -> reader_inv (set_lineNumber n s).
Proof. intros []. by constructor. Qed.
Lemma cont_inv s c : reader_inv s -> reader_inv (set_contFlag c s).
Proof. intros []. by constructor. Qed.

Section reader_keeps.
Context {LC : LexicalCast}.

Lemma processQuotaLine4_keeps toks maxSpec get_q put_q :
  (forall q s, reader_inv s -> reader_inv (put_q q s)) -> keeps (processQuotaLine4 toks maxSpec get_q put_q).
Proof.
  intros H. unfold processQuotaLine4. destruct (lex_u16 _); [|apply keeps_err]. destruct (_ <? _)%Z; [apply keeps_err|].
  apply keeps_reader_get. intros s Hs. refine (keeps_reader_bind _ _ (on_quota_keeps _ _ _ H) _ s Hs).
  intros []; [apply keeps_reader_ret|apply keeps_err].
Qed.

Lemma processQuotaLine_keeps toks : keeps (processQuotaLine toks).
Proof.
  unfold processQuotaLine. destruct (_ <? _); [apply keeps_err|].
  case_decide; [|case_decide; [|apply keeps_err]]; apply keeps_reader_bind.
  - apply processQuotaLine4_keeps. intros. by apply connQuota_inv.
  - intros []; [|apply keeps_reader_ret]. apply keeps_reader_bind; [|intros; apply keeps_reader_ret]. apply keeps_modify. intros. by apply connQuota_inv.
  - apply processQuotaLine4_keeps. intros. by apply queueQuota_inv.
  - intros []; [|apply keeps_reader_ret]. apply keeps_reader_bind; [|intros; apply keeps_reader_ret]. apply keeps_modify. intros. by apply queueQuota_inv.
Qed.

Lemma processName_ok s user :
  reader_inv s -> forall ns : list str, (forall n, n ∈ rd_names s -> n ∈ ns) ->
  (user <> ACL_KEYWORD_ALL -> map_find user (groups s) = None -> user ∈ ns) ->
  (forall n, n ∈ processName user (groups s) -> n ∈ ns)
  /\ (ACL_KEYWORD_WILDCARD ∈ processName user (groups s) -> processName user (groups s) = [ACL_KEYWORD_WILDCARD])
  /\ sorted (processName user (groups s)).
Proof.
  intros Hs ns Hns Huser. unfold processName. case_decide as Ea.
  - split_and!; [|done|by repeat constructor]. intros n ->%list_elem_of_singleton. apply Hns, (ri_wild s Hs).
  - destruct (map_find user (groups s)) as [ms|] eqn:Eg.
    + assert (Hg := ri_groups s Hs user ms Eg). split_and!; [..|apply set_insert_all_sorted; constructor].
      * intros n [Hn|Hn]%elem_set_insert_all; [|by apply elem_of_nil in Hn]. apply Hns. by apply Hg.
      * intros [Hn|Hn]%elem_set_insert_all; [|by apply elem_of_nil in Hn]. by destruct (Hg _ Hn) as (_ & ? & _).
    + split_and!; [intros n ->%list_elem_of_singleton; auto|by intros ->%list_elem_of_singleton|by repeat constructor].
Qed.

Lemma add_rule_inv s i :
  reader_inv s -> rule_names_ok (rd_names s) i -> props_ok (ar_props i) -> reader_inv (set_rules (rules s ++ [i]) s).
Proof.
  intros [Hw Hso Hk Hg Hr] Hi Hp. constructor; cbn [rd_names groups rules set_rules]; try done.
  apply Forall_app. split; [done|]. by constructor.
Qed.

Lemma processAclLine_keeps toks : keeps (processAclLine toks).
Proof.
  unfold processAclLine. destruct toks as [|x0 [|perm [|user [|act rest]]]]; try apply keeps_err.
  destruct (getAclResult perm) as [r|]; [|apply keeps_err]. destruct (_ && _ && _); [apply keeps_err|].
  destruct (if bool_decide (act = ACL_KEYWORD_ALL) then _ else _) as [a|]; [|apply keeps_err].
  apply keeps_reader_get. intros s Hs. destruct (add_object rest (new_aclRule r user (groups s) a)) as [e|rule] eqn:E; [by apply keeps_err|].
  assert (Hnew : names (new_aclRule r user (groups s) a) = processName user (groups s)
                 /\ ar_props (new_aclRule r user (groups s) a) = []) by (by destruct a).
  destruct Hnew as [Hn1 Hp1]. apply add_object_ok in E as [Hp Hn]; [|rewrite Hp1; by split; constructor].
  rewrite Hn1 in Hn.
  set (add := negb (bool_decide (user = ACL_KEYWORD_ALL)) && bool_decide (map_find user (groups s) = None)).
  set (s1 := if add then set_names (set_insert user (rd_names s)) s else s).
  rewrite (bind_Ret _ _ _ s1 tt) by (unfold s1; by destruct add).
  assert (Hs1 : reader_inv s1) by (unfold s1; destruct add; [by apply names_mono|done]).
  apply add_rule_inv; [done| |done].
  unfold rule_names_ok. rewrite Hn. apply (processName_ok s user Hs).
  - intros n Hin. unfold s1. destruct add; [|done]. apply elem_set_insert. auto.
  - intros H1 H2. unfold s1, add. rewrite bool_decide_eq_false_2, bool_decide_eq_true_2 by done.
    apply elem_set_insert. auto.
Qed.

Lemma processLine_keeps line : keeps (processLine line).
Proof.
  unfold processLine. destruct (_ && _); [apply keeps_err|]. apply keeps_reader_get. intros s Hs. revert s Hs.
  refine (fun s Hs => keeps_reader_bind _ _ _ _ s Hs).
  2:{ intros b. apply keeps_reader_bind; [|intros; apply keeps_reader_ret]. apply keeps_modify. intros. by apply cont_inv. }
  destruct (tokenize _) as [|t toks].
  - destruct (forallb _ _); [apply keeps_reader_ret|apply keeps_err].
  - destruct (_ || _); [apply processGroupLine_keeps|]. case_decide; [apply processAclLine_keeps|].
    case_decide; [apply processQuotaLine_keeps|]. destruct (forallb _ _); [apply keeps_reader_ret|apply keeps_err].
Qed.

Lemma read_lines_keeps fuel : forall s e, keeps (read_lines fuel s e).
Proof.
  induction fuel as [|fuel IH]; intros s e; [apply keeps_reader_throw|]. cbn [read_lines].
  destruct (getline 1023 s) as [[[b r] eof] fail]. apply keeps_reader_bind; [apply keeps_modify; intros; by apply line_inv|].
  intros _. apply keeps_reader_bind.
  - destruct (_ && _); [|apply keeps_reader_ret]. apply keeps_reader_bind; [apply processLine_keeps|]. intros; apply keeps_reader_ret.
  - intros e'. destruct (_ || _); [apply keeps_reader_ret|apply IH].
Qed.
End reader_keeps.

Lemma new_reader_inv : reader_inv new_AclReader.
Proof. constructor; cbn; try done; [by apply list_elem_of_singleton|by repeat constructor]. Qed.

(** ** Quotas of groups *)

(** the users a name of a quota line stands for *)
Definition expand (gm : groupMap) (t : str) : list str := match map_find t gm with None => [t] | Some ms => ms end.

Definition give (n : Z) (us : list str) (q : quotaRuleSet) : quotaRuleSet := fold_left (fun q u => map_insert u n q) us q.

Lemma give_find n us q u : map_find u (give n us q) = if decide (u ∈ us) then Some n else map_find u q.
Proof.
  unfold give. revert q. induction us as [|v us IH]; intros q; cbn [fold_left]; [by rewrite decide_False by set_solver|].
  rewrite IH. destruct (decide (u ∈ us)); [by rewrite decide_True by set_solver|].
  destruct (decide (v = u)) as [->|Hne]; [by rewrite map_find_insert, decide_True by set_solver|].
  rewrite map_find_insert_ne by done. by rewrite decide_False by set_solver.
Qed.

(** the members of a group are not groups *)
Definition flat (gm : groupMap) : Prop := forall g ms m, map_find g gm = Some ms -> m ∈ ms -> map_find m gm = None.

Lemma reader_flat s : reader_inv s -> flat (groups s).
Proof.
  intros Hs g ms m Hg Hm. destruct (ri_groups s Hs g ms Hg m Hm) as (_ & _ & Hv).
  destruct (map_find m (groups s)) as [ms'|] eqn:E; [|done]. apply (ri_keys s Hs) in E. congruence.
Qed.

Lemma processQuotaGroup_eq gm g ms n fuel q : flat gm -> map_find g gm = Some ms ->
  processQuotaGroup (S fuel) gm g n q = (give n ms q, Ret true).
Proof.
  intros Hf Hg. cbn [processQuotaGroup]. rewrite Hg. assert (Hm : Forall (fun m => map_find m gm = None) ms).
  { apply Forall_forall. intros m. by apply Hf with g. }
  clear Hg. revert q. induction Hm as [|m ms Hm _ IH]; intros q; [done|]. rewrite Hm.
  rewrite (bind_Ret _ _ _ (map_insert m n q) tt) by done. apply IH.
Qed.

Lemma apply_quota_eq gm toks n q : flat gm ->
  apply_quota gm toks n q = (give n (flat_map (expand gm) toks) q, Ret true).
Proof.
  intros Hf. revert q. induction toks as [|t toks IH]; intros q; [done|]. cbn [apply_quota flat_map].
  assert (Hg : give n (expand gm t ++ flat_map (expand gm) toks) q = give n (flat_map (expand gm) toks) (give n (expand gm t) q))
    by apply fold_left_app.
  rewrite Hg. destruct (map_find t gm) as [ms|] eqn:E.
  - rewrite (bind_Ret _ _ _ (give n ms q) true) by (by apply processQuotaGroup_eq). rewrite IH. unfold expand at 3. by rewrite E.
  - rewrite (bind_Ret _ _ _ (map_insert t n q) tt) by done. rewrite IH. unfold expand at 3. by rewrite E.
Qed.

(** ** Reading ends *)

(** [settles m]: called in a state of the invariant, [m] returns, or does what the language leaves undefined *)
Definition settles {A} (m : M AclReader A) : Prop :=
  forall s, reader_inv s -> match (m s).2 with Ret _ => True | Throw e => e = UndefinedBehaviour end.

Lemma settles_bind {A B} (m : M AclReader A) (f : A -> M AclReader B) :
  settles m -> keeps m -> (forall a, settles (f a)) -> settles (m ≫= f).
Proof.
  intros Hm Hk Hf s Hs. specialize (Hm s Hs). specialize (Hk s Hs). unfold mbind, M_bind.
  destruct (m s) as [s' [a|e]]; [|done]. by apply Hf.
Qed.

Lemma settles_get {B} (f : AclReader -> M AclReader B) : (forall s0, settles (f s0)) -> settles (Prelude.get ≫= f).
Proof. intros H s Hs. by apply H. Qed.

Lemma settles_ret {A} (a : A) : settles (mret a).
Proof. intros s Hs. done. Qed.
Lemma settles_err e : settles (err e).
Proof. intros s Hs. done. Qed.
Lemma settles_modify f : settles (modify f).
Proof. intros s Hs. done. Qed.

Lemma settles_if {A} (b : bool) (m1 m2 : M AclReader A) : settles m1 -> settles m2 -> settles (if b then m1 else m2).
Proof. by destruct b. Qed.

Lemma addName_settles t g : settles (addName t g).
Proof.
  apply settles_get. intros s. destruct (map_find g (groups s)); [|intros s' Hs'; done].
  destruct (map_find t (groups s)); intros s' Hs'; done.
Qed.

Lemma add_members_settles toks : forall g, settles (add_members toks g).
Proof.
  induction toks as [|t toks IH]; intros g s Hs; [done|]. cbn [add_members]. rewrite (bind_Ret _ _ _ s s) by done.
  destruct (isValidGroupName t) eqn:Ev.
  - case_decide; [by apply IH|]. destruct (map_find t (groups s)) as [ms|] eqn:Et; [|done].
    assert (Hk := addName_keeps t g s Hs ltac:(congruence)). assert (Ha := addName_settles t g s Hs).
    unfold mbind, M_bind. destruct (addName t g s) as [s' [a|e]]; [by apply IH|done].
  - destruct (isValidUserName_ok t s) as [s' [[E Hk]|[E Hu]]]; unfold mbind, M_bind; rewrite E; [done|].
    assert (Hk := addName_keeps t g s Hs (fun _ => Hu)). assert (Ha := addName_settles t g s Hs).
    destruct (addName t g s) as [s'' [a|e]]; [by apply IH|done].
Qed.

Section reader_settles.
Context {LC : LexicalCast}.

Lemma processGroupLine_settles toks cont : settles (processGroupLine toks cont).
Proof.
  apply settles_get. intros s. destruct (contFlag s); [apply add_members_settles|].
  destruct (_ <? _); [apply settles_err|]. cbv zeta. destruct (isValidGroupName _) eqn:Ev; [|apply settles_err]. cbn [negb].
  apply settles_bind; [|by apply addGroup_keeps|intros []; [apply add_members_settles|apply settles_ret]].
  apply settles_get. intros s'. destruct (map_find _ _); [apply settles_err|]. intros s'' Hs. done.
Qed.

Lemma processQuotaLine4_settles toks maxSpec get_q put_q :
  (forall q s, reader_inv s -> reader_inv (put_q q s)) -> settles (processQuotaLine4 toks maxSpec get_q put_q).
Proof.
  intros H. unfold processQuotaLine4. destruct (lex_u16 _); [|apply settles_err]. destruct (_ <? _)%Z; [apply settles_err|].
  intros s Hs. rewrite (bind_Ret _ _ _ s s) by done. unfold mbind, M_bind, on_quota.
  rewrite apply_quota_eq by (by apply reader_flat). done.
Qed.

Lemma processQuotaLine_settles toks : settles (processQuotaLine toks).
Proof.
  unfold processQuotaLine. destruct (_ <? _); [apply settles_err|].
  case_decide; [|case_decide; [|apply settles_err]]; apply settles_bind.
  1,4: apply processQuotaLine4_settles; intros; first [by apply connQuota_inv|by apply queueQuota_inv].
  1,3: apply processQuotaLine4_keeps; intros; first [by apply connQuota_inv|by apply queueQuota_inv].
  all: intros []; intros s Hs; done.
Qed.

Lemma processAclLine_settles toks : settles (processAclLine toks).
Proof.
  unfold processAclLine. destruct toks as [|x0 [|perm [|user [|act rest]]]]; try apply settles_err.
  destruct (getAclResult perm) as [r|]; [|apply settles_err]. destruct (_ && _ && _); [apply settles_err|].
  destruct (if bool_decide (act = ACL_KEYWORD_ALL) then _ else _) as [a|]; [|apply settles_err].
  apply settles_get. intros s. destruct (add_object _ _); [apply settles_err|]. intros s' Hs'.
  by destruct (negb _ && _).
Qed.

Lemma processLine_settles line : settles (processLine line).
Proof.
  unfold processLine. destruct (_ && _); [apply settles_err|]. apply settles_get. intros s.
  set (m := match tokenize _ with [] => _ | _ => _ end).
  assert (H : settles m /\ keeps m).
  { unfold m. destruct (tokenize _) as [|t toks].
    - destruct (forallb _ _); split; [apply settles_ret|apply keeps_reader_ret|apply settles_err|apply keeps_err].
    - destruct (_ || _); [split; [apply processGroupLine_settles|apply processGroupLine_keeps]|].
      case_decide; [split; [apply processAclLine_settles|apply processAclLine_keeps]|].
      case_decide; [split; [apply processQuotaLine_settles|apply processQuotaLine_keeps]|].
      destruct (forallb _ _); split; [apply settles_ret|apply keeps_reader_ret|apply settles_err|apply keeps_err]. }
  destruct H. apply settles_bind; [done|done|]. intros b s' Hs'. done.
Qed.

Lemma getline_rest n s b r eof fail : getline n s = (b, r, eof, fail) -> eof || fail = false -> length r < length s.
Proof.
  revert n b r eof fail. induction s as [|c s IH]; intros n b r eof fail; cbn [getline]; [by intros; simplify_eq|].
  case_decide; [intros; simplify_eq; cbn; lia|]. destruct n as [|n]; [by intros; simplify_eq|].
  destruct (getline n s) as [[[b' r'] e'] f'] eqn:E. intros Heq Hef. simplify_eq. cbn. specialize (IH _ _ _ _ _ E Hef). lia.
Qed.

(** with a bound above the length of the file, the loop over the lines ends *)
Lemma read_lines_settles fuel : forall s e, length s < fuel -> settles (read_lines fuel s e).
Proof.
  induction fuel as [|fuel IH]; intros s e Hl; [lia|]. cbn [read_lines].
  destruct (getline 1023 s) as [[[b r] eof] fail] eqn:Eg.
  apply settles_bind; [apply settles_modify|apply keeps_modify; intros; by apply line_inv|]. intros _.
  apply settles_bind.
  - destruct (_ && _); [|apply settles_ret]. apply settles_bind; [apply processLine_settles|apply processLine_keeps|].
    intros; apply settles_ret.
  - destruct (_ && _); [|apply keeps_reader_ret]. apply keeps_reader_bind; [apply processLine_keeps|]. intros; apply keeps_reader_ret.
  - intros e'. destruct (eof || fail) eqn:Ef; [apply settles_ret|]. apply IH.
    pose proof (getline_rest _ _ _ _ _ _ Eg Ef). lia.
Qed.
End reader_settles.
