(* ===== verification/AclErrors.v ===== *)
(** * Access control: what a policy file is refused for

    A line of a policy file is either taken without an error or refused with
    exactly one, which carries the number of the line ([reports]).  So the flag
    that [read] keeps is the error text: a file is refused exactly when it
    cannot be opened, has a line that does not fit the buffer, or has a line
    with an error ([read_outcome]). *)

From Stdlib Require Import Ascii String ZArith.
From stdpp Require Import strings.
From S2P Require Import Prelude SelectorToken TopicKey TopicTree AclModule AclData AclReader AclInvariant.
Local Open Scope nat_scope.

(** ** Computations that report *)

(** [m] says nothing *)
Definition silent {A} (m : M AclReader A) : Prop := forall s,
  match m s with
  | (s', Ret _) => lineNumber s' = lineNumber s /\ errorStream s' = errorStream s
  | (_, Throw _) => True
  end.

(** [m] reports one error of the line when it returns false and none when it returns true *)
Definition reports (m : M AclReader bool) : Prop := forall s,
  match m s with
  | (s', Ret true) => lineNumber s' = lineNumber s /\ errorStream s' = errorStream s
  | (s', Ret false) => lineNumber s' = lineNumber s /\ exists e, errorStream s' = errorStream s ++ [(lineNumber s, e)]
  | (_, Throw _) => True
  end.

Lemma silent_ret {A} (x : A) : silent (mret x).
Proof. by intros s. Qed.
Lemma silent_throw {A} e : silent (A := A) (throw e).
Proof. by intros s. Qed.
Lemma silent_modify f : (forall s, lineNumber (f s) = lineNumber s /\ errorStream (f s) = errorStream s) -> silent (modify f).
Proof. intros H s. apply H. Qed.
Lemma silent_bind {A B} (m : M AclReader A) (f : A -> M AclReader B) : silent m -> (forall x, silent (f x)) -> silent (m ≫= f).
Proof.
  intros Hm Hf s. specialize (Hm s). unfold mbind, M_bind. destruct (m s) as [s1 [x|e]]; [|done]. destruct Hm as [Hl He].
  specialize (Hf x s1). destruct (f x s1) as [s2 [y|e]]; [|done]. by rewrite <- Hl, <- He.
Qed.
Lemma silent_get {B} (f : AclReader -> M AclReader B) : (forall s0, silent (f s0)) -> silent (Prelude.get ≫= f).
Proof. intros H s. apply H. Qed.

Lemma reports_err e : reports (err e).
Proof. intros s. cbn. split; [done|]. by exists e. Qed.
Lemma reports_true : reports (mret true).
Proof. by intros s. Qed.
Lemma reports_get (f : AclReader -> M AclReader bool) : (forall s0, reports (f s0)) -> reports (Prelude.get ≫= f).
Proof. intros H s. apply H. Qed.
Lemma reports_bind {A} (m : M AclReader A) (f : A -> M AclReader bool) : silent m -> (forall x, reports (f x)) -> reports (m ≫= f).
Proof.
  intros Hm Hf s. specialize (Hm s). unfold mbind, M_bind. destruct (m s) as [s1 [x|e]]; [|done]. destruct Hm as [Hl He].
  specialize (Hf x s1). destruct (f x s1) as [s2 [[]|e]]; [..|done]; by rewrite <- Hl, <- He.
Qed.
Lemma reports_then (m k : M AclReader bool) : reports m -> reports k -> reports (b ← m; if b : bool then k else mret false).
Proof.
  intros Hm Hk s. specialize (Hm s). unfold mbind, M_bind. destruct (m s) as [s1 [[]|e]]; [|done..].
  destruct Hm as [Hl He]. specialize (Hk s1). destruct (k s1) as [s2 [[]|e]]; [..|done]; by rewrite <- Hl, <- He.
Qed.
Lemma reports_after (m : M AclReader bool) (k : M AclReader unit) : reports m -> silent k -> reports (b ← m; _ ← k; mret b).
Proof.
  intros Hm Hk s. specialize (Hm s). unfold mbind, M_bind. destruct (m s) as [s1 [b|e]]; [|done].
  specialize (Hk s1). destruct (k s1) as [s2 [[]|e]]; [|done]. destruct Hk as [Hl He]. cbn.
  destruct b; by rewrite Hl, He.
Qed.

Create HintDb reports.
#[export] Hint Resolve silent_ret silent_throw reports_err reports_true reports_then : reports.

(** ** The lines *)

Lemma isValidUserName_reports t : reports (isValidUserName t).
Proof. unfold isValidUserName. repeat case_match; auto with reports. Qed.

Lemma addName_silent t g : silent (addName t g).
Proof.
  apply silent_get. intros s. destruct (map_find g (groups s)); [|auto with reports].
  destruct (map_find t (groups s)); [by apply silent_modify|]. apply silent_bind; [by apply silent_modify|]. intros _. by apply silent_modify.
Qed.

Lemma addGroup_reports g : reports (addGroup g).
Proof.
  apply reports_get. intros s. destruct (map_find g (groups s)); [auto with reports|].
  apply reports_bind; [by apply silent_modify|auto with reports].
Qed.

#[export] Hint Resolve isValidUserName_reports addName_silent addGroup_reports : reports.

Lemma add_members_reports toks g : reports (add_members toks g).
Proof.
  induction toks as [|t toks IH]; cbn [add_members]; [auto with reports|].
  apply reports_get. intros s.
  assert (Hadd : reports (_ ← addName t g; add_members toks g)) by (apply reports_bind; auto with reports).
  destruct (isValidGroupName t); [|auto with reports]. case_decide; [done|]. destruct (map_find t (groups s)); auto with reports.
Qed.
#[export] Hint Resolve add_members_reports : reports.

Lemma processGroupLine_reports toks cont : reports (processGroupLine toks cont).
Proof.
  apply reports_get. intros s. destruct (contFlag s); [auto with reports|]. destruct (_ <? _); [auto with reports|].
  cbv zeta. destruct (isValidGroupName _); cbn [negb]; auto with reports.
Qed.

Section lines.
Context {LC : LexicalCast}.

Lemma processQuotaLine4_reports toks maxSpec get_q put_q :
  (forall q s, lineNumber (put_q q s) = lineNumber s /\ errorStream (put_q q s) = errorStream s) ->
  reports (processQuotaLine4 toks maxSpec get_q put_q).
Proof.
  intros H. unfold processQuotaLine4. destruct (lex_u16 _); [|auto with reports]. destruct (_ <? _)%Z; [auto with reports|].
  apply reports_get. intros s. apply reports_bind; [|intros []; auto with reports].
  intros s'. unfold on_quota. destruct (apply_quota _ _ _ (get_q s')) as [q [b|e]]; [apply H|done].
Qed.

Lemma processQuotaLine_reports toks : reports (processQuotaLine toks).
Proof.
  unfold processQuotaLine. destruct (_ <? _); [auto with reports|].
  case_decide; [|case_decide; [|auto with reports]];
    (apply reports_then; [by apply processQuotaLine4_reports|]; apply reports_bind; [by apply silent_modify|auto with reports]).
Qed.

Lemma processAclLine_reports toks : reports (processAclLine toks).
Proof.
  unfold processAclLine. destruct toks as [|x0 [|perm [|user [|act rest]]]]; auto with reports.
  destruct (getAclResult perm) as [r|]; [|auto with reports]. destruct (_ && _ && _); [auto with reports|].
  destruct (if bool_decide (act = ACL_KEYWORD_ALL) then _ else _) as [a|]; [|auto with reports].
  apply reports_get. intros s. destruct (add_object _ _); [auto with reports|].
  apply reports_bind; [destruct (negb _ && _); [by apply silent_modify|auto with reports]|]. intros _.
  apply reports_bind; [by apply silent_modify|auto with reports].
Qed.

Lemma processLine_reports line : reports (processLine line).
Proof.
  unfold processLine. destruct (_ && _); [auto with reports|]. apply reports_get. intros s.
  apply reports_after; [|by apply silent_modify]. destruct (tokenize _) as [|t toks].
  - destruct (forallb _ _); auto with reports.
  - destruct (_ || _); [apply processGroupLine_reports|]. case_decide; [apply processAclLine_reports|].
    case_decide; [apply processQuotaLine_reports|]. destruct (forallb _ _); auto with reports.
Qed.

(** ** The file *)

(** no line is longer than 1023 characters, with room for [n] more in the current one *)
Fixpoint short_lines (n : nat) (s : str) : bool :=
  match s with
  | [] => true
  | c :: s' => if decide (c = newline) then short_lines 1023 s'
               else match n with 0 => false | S n' => short_lines n' s' end
  end.

Lemma getline_short n s : let '(b, r, eof, fail) := getline n s in
  short_lines n s = if eof then true else if fail then false else short_lines 1023 r.
Proof.
  revert n. induction s as [|c s IH]; intros n; cbn [getline short_lines]; [done|].
  case_decide; [done|]. destruct n as [|n]; [done|]. specialize (IH n). by destruct (getline n s) as [[[b r] eof] fail].
Qed.

(** the two results of the loop: whether the lines fit, and whether there was an error *)
Lemma read_lines_outcome fuel : forall s e st,
  match read_lines fuel s e st with
  | (st', Ret (eof, e')) => eof = short_lines 1023 s /\
      exists l, errorStream st' = errorStream st ++ l /\ e' = e || bool_decide (l <> [])
  | (_, Throw _) => True
  end.
Proof.
  induction fuel as [|fuel IH]; intros s e st; cbn [read_lines]; [done|].
  assert (Hg := getline_short 1023 s). destruct (getline 1023 s) as [[[b r] eof] fail].
  set (st1 := set_lineNumber (lineNumber st + 1)%Z st). rewrite (bind_Ret _ _ _ st1 tt) by done.
  set (step := if _ && _ then _ else _).
  assert (Hstep : match step st1 with
    | (st', Ret e') => exists l, errorStream st' = errorStream st ++ l /\ e' = e || bool_decide (l <> [])
    | (_, Throw _) => True end).
  { unfold step. destruct (_ && _).
    - assert (Hp := processLine_reports (c_string b) st1). unfold mbind, M_bind.
      destruct (processLine (c_string b) st1) as [st' [[]|ex]]; [..|done].
      + exists []. rewrite app_nil_r. split; [apply Hp|done].
      + destruct Hp as [_ [er Hp]]. by eexists.
    - exists []. rewrite app_nil_r. by rewrite orb_false_r. }
  unfold mbind, M_bind. destruct (step st1) as [st2 [e2|ex]]; [|done].
  destruct (eof || fail) eqn:Ef; [split; [|exact Hstep]; rewrite Hg; by destruct eof, fail|].
  specialize (IH r e2 st2). destruct (read_lines fuel r e2 st2) as [st3 [[eof3 e3]|ex]]; [|done].
  destruct IH as [Hr (l2 & El2 & ->)], Hstep as (l1 & El1 & ->).
  split; [rewrite Hr, Hg; by destruct eof, fail|]. exists (l1 ++ l2). rewrite El2, El1, app_assoc. split; [done|].
  rewrite <- orb_assoc. f_equal. by destruct l1, l2.
Qed.

(** a file that is read: every line fits and there is no error; a file that is refused *)
Definition accepted (file : option str) (s : AclReader) : bool :=
  match file with Some contents => short_lines 1023 contents && bool_decide (errorStream s = []) | None => false end.

Lemma read_outcome conn queue file d : 
  match read conn queue file d new_AclReader with
  | (s, Ret (code, _)) => (code =? 0)%Z = accepted file s
  | (s, Throw _) => True
  end.
Proof.
  unfold read. destruct file as [contents|]; [|done].
  assert (Hmod : forall f s (B : Type) (k : unit -> M AclReader B), (modify f ≫= k) s = k tt (f s)) by done.
  rewrite !Hmod. set (s2 := if (0 <? queue)%Z then _ else _).
  assert (Hs2 : errorStream s2 = []) by (unfold s2; by destruct (0 <? queue)%Z, (0 <? conn)%Z).
  assert (Ho := read_lines_outcome (read_fuel contents) contents false s2).
  destruct (read_lines _ _ _ s2) as [s [[eof e]|ex]] eqn:Er; [|by rewrite (bind_Throw _ _ _ _ _ Er)].
  rewrite (bind_Ret _ _ _ _ _ Er). destruct Ho as [-> (l & El & ->)]. rewrite Hs2 in El. cbn [app orb] in *. unfold accepted.
  destruct (short_lines 1023 contents); cbn [negb andb]; [|done].
  destruct (decide (l = [])) as [->|Hl].
  - rewrite (bool_decide_eq_false_2 _) by (by intros []). rewrite (bind_Ret _ _ _ s s) by done.
    unfold mbind, M_bind, lift_outcome. destruct (loadDecisionData s d) as [d'|ex]; cbn; [|done].
    by rewrite bool_decide_eq_true_2.
  - rewrite (bool_decide_eq_true_2 _) by done. cbn. by rewrite bool_decide_eq_false_2 by (by rewrite El).
Qed.
End lines.
