(* ===== verification/AclLoad.v ===== *)
(** * Access control: the loaded rules

    [loadDecisionData] walks the rules of the file from the last to the first
    and pushes each on the lists of its users; the lookup walks one list from
    its end.  Together: the list a lookup walks is, in the order of the file,
    the rules that cover the user, the action and the object, less the last
    rule of the form "all users, all actions", which is the mode. *)

From Stdlib Require Import Ascii String ZArith.
From stdpp Require Import strings.
From S2P Require Import Prelude SelectorToken TopicKey TopicTree AclModule AclData AclReader AclMatch AclInvariant.
Local Open Scope nat_scope.

Lemma obind_Ret {A B} (o : outcome A) (f : A -> outcome B) b :
  o ≫= f = Ret b -> exists a, o = Ret a /\ f a = Ret b.
Proof. destruct o as [a|e]; [by exists a|done]. Qed.

Lemma elem_rev {A} (x : A) l : x ∈ rev l <-> x ∈ l.
Proof. rewrite !list_elem_of_In. symmetry. apply in_rev. Qed.

Lemma filter_rev_list {A} (P : A -> Prop) `{!forall x, Decision (P x)} l : filter P (rev l) = rev (filter P l).
Proof.
  induction l as [|x l IH]; [done|]. cbn [rev]. rewrite filter_app, IH. destruct (decide (P x)).
  - by rewrite !filter_cons_True.
  - rewrite !filter_cons_False by done. by rewrite app_nil_r.
Qed.

Lemma Forall2_rev_list {A B} (R : A -> B -> Prop) l k : Forall2 R l k -> Forall2 R (rev l) (rev k).
Proof. induction 1; cbn [rev]; [constructor|]. apply Forall2_app; [done|]. by constructor. Qed.

(** ** What the lists hold *)

Definition content (d : AclData) (a : Action) (o : ObjectType) (u : str) : list Rule :=
  match actionList d a with
  | None => []
  | Some row => match row o with None => [] | Some m => default [] (map_find u m) end
  end.

(** no list is empty *)
Definition lists_ok (d : AclData) : Prop :=
  forall a o u row m, actionList d a = Some row -> row o = Some m -> map_find u m <> Some [].

(** the list the lookup walks *)
Definition effective (d : AclData) (id : str) (a : Action) (o : ObjectType) : list Rule :=
  match content d a o id with [] => content d a o ACL_KEYWORD_WILDCARD | l => l end.

Lemma rules_for_effective d id a o : lists_ok d -> default [] (rules_for d id a o) = effective d id a o.
Proof.
  intros Hl. unfold rules_for, effective, content. destruct (actionList d a) as [row|] eqn:Ea; [|done].
  destruct (row o) as [m|] eqn:Eo; [|done]. specialize (fun u => Hl a o u row m Ea Eo) as H.
  destruct (map_find id m) as [[|r l]|] eqn:E; cbn; [by destruct (H id)|done|]. done.
Qed.

Section lookups.
Context {LC : LexicalCast}.

Lemma lookup_effective d id a o name ps : lists_ok d ->
  lookup d id a o name ps = first_decision (fun r => lookupMatchRule r id name ps) (rev (effective d id a o)) (decisionMode d).
Proof.
  intros Hl. rewrite <- rules_for_effective by done. unfold lookup. by destruct (rules_for d id a o).
Qed.

Lemma lookupPublish_effective d id a o name key : lists_ok d ->
  lookupPublish d id a o name key
  = first_decision (fun r => lookupMatchPublishExchangeRule r id name key) (rev (effective d id a o)) (decisionMode d).
Proof.
  intros Hl. rewrite <- rules_for_effective by done. unfold lookupPublish. by destruct (rules_for d id a o).
Qed.
End lookups.

(** *** Adding one rule *)

Lemma add_users_find rule us m u : NoDup us ->
  map_find u (fold_left (add_user rule) us m)
  = if decide (u ∈ us) then Some (default [] (map_find u m) ++ [rule]) else map_find u m.
Proof.
  intros Hnd. revert m. induction Hnd as [|v us Hv _ IH]; intros m; cbn [fold_left]; [by rewrite decide_False by set_solver|].
  rewrite IH. assert (Hsame : forall w, map_find w (add_user rule m v)
    = if decide (w = v) then Some (default [] (map_find v m) ++ [rule]) else map_find w m).
  { intros w. unfold add_user. destruct (decide (w = v)) as [->|Hne].
    - destruct (map_find v m); by rewrite map_find_insert.
    - destruct (map_find v m); by rewrite map_find_insert_ne by done. }
  rewrite Hsame. destruct (decide (u = v)) as [->|Hne].
  - rewrite decide_False by done. by rewrite decide_True by set_solver.
  - destruct (decide (u ∈ us)); [by rewrite decide_True by set_solver|by rewrite decide_False by set_solver].
Qed.

Lemma add_row_eq rule objs us row o : NoDup objs ->
  add_row rule objs us row o
  = if decide (o ∈ objs) then Some (fold_left (add_user rule) us (default [] (row o))) else row o.
Proof.
  intros Hnd. unfold add_row. revert row. induction Hnd as [|x objs Hx _ IH]; intros row; cbn [fold_left];
    [by rewrite decide_False by set_solver|].
  rewrite IH. destruct (decide (o = x)) as [->|Hne].
  - rewrite decide_False by done. by rewrite decide_True by set_solver.
  - destruct (decide (o ∈ objs)); [by rewrite decide_True by set_solver|by rewrite decide_False by set_solver].
Qed.

(** the fields a rule keeps while it is published *)
Definition core (r : Rule) := (rawRuleNum r, ruleMode r, props r, pubRoutingKeyInRule r, pubRoutingKey r, pTTest r, ruleHasUserSub r).

Lemma mark_publish_core l r : core (mark_publish l r) = core r.
Proof. revert r. induction l as [|[p v] l IH]; intros r; cbn [mark_publish]; [done|]. rewrite IH. by case_decide. Qed.

(** the rule that goes to the lists of the action [a] *)
Definition rule_at (i : aclRule) (r : Rule) (a : Action) (r' : Rule) : Prop :=
  core r' = core r /\ (a = ACT_PUBLISH -> r' = mark_publish (ar_props i) r).

Section load_one.
Context (i : aclRule) (objs : list ObjectType) (us : list str) (Hobjs : NoDup objs) (Hus : NoDup us).

Definition covered (acts : list Action) a o u : Prop := a ∈ acts /\ o ∈ objs /\ u ∈ us.
#[local] Instance covered_dec acts a o u : Decision (covered acts a o u).
Proof. unfold covered. apply _. Defined.

Lemma load_action_content d r a0 a o u :
  let '(d', r') := load_action i objs us (d, r) a0 in
  r' = (if decide (a0 = ACT_PUBLISH) then mark_publish (ar_props i) r else r)
  /\ content d' a o u = content d a o u ++ (if decide (covered [a0] a o u) then [r'] else [])
  /\ decisionMode d' = decisionMode d /\ (lists_ok d -> lists_ok d').
Proof.
  unfold load_action. set (r' := if decide (a0 = ACT_PUBLISH) then _ else r).
  set (d1 := if decide (a0 = ACT_PUBLISH) then set_transferAcl d else d).
  assert (Hd1 : actionList d1 = actionList d /\ decisionMode d1 = decisionMode d) by (unfold d1; by case_decide).
  destruct Hd1 as [Hal Hdm]. split_and!; [done|..|done|].
  - unfold content at 1. cbn [actionList set_actionList]. destruct (decide (a = a0)) as [->|Hne].
    + rewrite add_row_eq by done. unfold content. rewrite Hal.
      destruct (decide (o ∈ objs)) as [Ho|Ho].
      * rewrite add_users_find by done. unfold covered. destruct (decide (u ∈ us)) as [Hu|Hu].
        -- rewrite decide_True by set_solver. by destruct (actionList d a0) as [row|]; cbn [default from_option id]; [destruct (row o)|].
        -- rewrite decide_False by tauto. rewrite app_nil_r. by destruct (actionList d a0) as [row|]; cbn [default from_option id]; [destruct (row o)|].
      * rewrite decide_False by (unfold covered; tauto). rewrite app_nil_r. by destruct (actionList d a0) as [row|]; cbn [default from_option id]; [destruct (row o)|].
    + rewrite decide_False by (unfold covered; set_solver). rewrite app_nil_r. by rewrite Hal.
  - intros Hl a' o' u' row m. cbn [actionList set_actionList]. rewrite Hal. destruct (decide (a' = a0)) as [->|Hne]; [|apply Hl].
    intros [= <-]. rewrite add_row_eq by done. destruct (decide (o' ∈ objs)).
    + intros [= <-]. rewrite add_users_find by done. destruct (decide (u' ∈ us)).
      * intros [= E]. by apply app_nil in E as [_ ?].
      * intros E. destruct (actionList d a0) as [row|] eqn:Er; cbn in E; [|done].
        destruct (row o') as [m'|] eqn:Eo; [|done]. by apply (Hl a0 o' u' row m').
    + intros Hro. destruct (actionList d a0) as [row|] eqn:Er; cbn in Hro; [|done]. by apply (Hl a0 o' u' row m).
Qed.

Lemma load_actions_content acts : NoDup acts -> forall d r a o u,
  let d' := (fold_left (load_action i objs us) acts (d, r)).1 in
  (exists l, content d' a o u = content d a o u ++ l
     /\ (if decide (covered acts a o u) then exists r', l = [r'] /\ core r' = core r
           /\ (a = ACT_PUBLISH -> r' = mark_publish (ar_props i) r) else l = []))
  /\ decisionMode d' = decisionMode d /\ (lists_ok d -> lists_ok d').
Proof.
  induction 1 as [|a0 acts Ha0 Hnd IH]; intros d r a o u; cbn [fold_left].
  - split_and!; [|done|done]. exists []. rewrite app_nil_r, decide_False by (unfold covered; set_solver). done.
  - assert (Hstep := load_action_content d r a0 a o u). destruct (load_action i objs us (d, r) a0) as [d1 r1].
    destruct Hstep as (Hr1 & Hc & Hm & Hlo). destruct (IH d1 r1 a o u) as ((l & Hc' & Hl) & Hm' & Hlo').
    split_and!; [|by rewrite Hm'|auto]. rewrite Hc' , Hc, <- app_assoc. eexists. split; [done|].
    assert (Hcore : core r1 = core r) by (rewrite Hr1; destruct (decide (a0 = ACT_PUBLISH)); [apply mark_publish_core|done]).
    destruct (decide (a = a0)) as [->|Hne].
    + rewrite (decide_False (P := covered acts _ _ _)) in Hl by (unfold covered; tauto). subst l. rewrite app_nil_r.
      destruct (decide (covered [a0] a0 o u)) as [Hcov|Hcov].
      * rewrite decide_True by (unfold covered in *; set_solver). exists r1. split_and!; [done|done|].
        intros ->. by rewrite decide_True in Hr1 by done.
      * rewrite decide_False by (unfold covered in *; set_solver). done.
    + rewrite (decide_False (P := covered [a0] _ _ _)) by (unfold covered; set_solver). cbn [app].
      destruct (decide (covered acts a o u)) as [Hcov|Hcov].
      * rewrite decide_True by (unfold covered in *; set_solver). destruct Hl as (r' & -> & Hcr & Hpub).
        exists r'. split_and!; [done|by rewrite Hcr|]. intros ->. rewrite Hpub by done. rewrite Hr1.
        by rewrite decide_False by (intros E; by apply Hne).
      * rewrite decide_False by (unfold covered in *; set_solver). done.
Qed.
End load_one.

(** *** Loading the rules *)

Definition users_of (all_names : list str) (i : aclRule) : list str :=
  match names i with
  | [] => []
  | n :: _ => if decide (n = ACL_KEYWORD_WILDCARD) then all_names else names i
  end.

Definition in_list (all_names : list str) a o u (i : aclRule) : Prop :=
  a ∈ rule_actions i /\ o ∈ rule_objects i /\ u ∈ users_of all_names i.
#[global] Instance in_list_dec all_names a o u i : Decision (in_list all_names a o u i).
Proof. unfold in_list. apply _. Defined.

(** a rule for all users and all actions *)
Definition for_all (i : aclRule) : bool := bool_decide (actionAll i = true /\ names i = [s_ "*"]).

Lemma is_mode_for_all i : is_mode i = for_all i.
Proof.
  unfold is_mode, for_all. destruct (actionAll i); cbn [andb].
  - apply bool_decide_ext. unfold ACL_KEYWORD_WILDCARD. tauto.
  - symmetry. apply bool_decide_eq_false. by intros [].
Qed.

(** the rules less the first that gives the mode *)
Fixpoint drop_mode (rs : list aclRule) : list aclRule :=
  match rs with [] => [] | i :: rs' => if for_all i then rs' else i :: drop_mode rs' end.

Definition mode_of (rs : list aclRule) (dflt : AclResult) : AclResult :=
  match List.find for_all rs with Some i => res i | None => dflt end.

Definition to_load (found : bool) (rs : list aclRule) : list aclRule := if found then rs else drop_mode rs.

(** [r] is the rule [i] of the file as the lists of the action [a] hold it *)
Definition loaded (a : Action) (i : aclRule) (r : Rule) : Prop :=
  exists cnt r0, make_rule cnt i = Ret r0 /\ rule_at i r0 a r.

Lemma rule_actions_NoDup i : NoDup (rule_actions i).
Proof. unfold rule_actions. destruct (actionAll i); [apply NoDup_all_actions|apply NoDup_singleton]. Qed.
Lemma rule_objects_NoDup i : NoDup (rule_objects i).
Proof. unfold rule_objects. destruct (objStatus i); first [apply NoDup_all_objects|apply NoDup_singleton]. Qed.

Lemma rule_users_Ret N i us : rule_users N i = Ret us -> us = users_of N i /\ names i <> [].
Proof. unfold rule_users, users_of. destruct (names i); [done|]. by intros [= <-]. Qed.

Lemma users_of_NoDup N i : sorted N -> sorted (names i) -> NoDup (users_of N i).
Proof.
  intros HN Hi. unfold users_of. destruct (names i) as [|n ns] eqn:E; [constructor|]. case_decide; by apply sorted_NoDup.
Qed.

Lemma load_rules_content N (HN : sorted N) rs : Forall (fun i => sorted (names i)) rs -> forall d fm d' fm',
  load_rules N rs (d, fm) = Ret (d', fm') ->
  (forall a o u, exists l, content d' a o u = content d a o u ++ l
     /\ Forall2 (loaded a) (filter (in_list N a o u) (to_load fm rs)) l)
  /\ decisionMode d' = (if fm then decisionMode d else mode_of rs (decisionMode d))
  /\ (lists_ok d -> lists_ok d')
  /\ Forall (fun i => names i <> []) (to_load fm rs).
Proof.
  induction 1 as [|i rs Hi _ IH]; intros d fm d' fm'; cbn [load_rules].
  - intros [= <- <-]. split_and!; try done; [|by destruct fm..]. intros a o u. exists []. rewrite app_nil_r. destruct fm; by split.
  - intros ([d1 fm1] & Hr & Hrs)%obind_Ret. apply IH in Hrs as (Hc & Hm & Hl & Hn). clear IH.
    unfold load_rule in Hr. rewrite is_mode_for_all in Hr. destruct (negb fm && for_all i) eqn:Eb.
    + apply andb_true_iff in Eb as [->%negb_true_iff Emode]. injection Hr as <- <-.
      cbn [to_load drop_mode]. rewrite Emode. split_and!; [exact Hc| |done|exact Hn].
      unfold mode_of. cbn [List.find]. by rewrite Emode, Hm.
    + apply obind_Ret in Hr as (r & Hmk & Hr). apply obind_Ret in Hr as (us & Hus & Hr). injection Hr as <- <-.
      apply rule_users_Ret in Hus as [-> Hne]. assert (Hnd := users_of_NoDup N i HN Hi).
      assert (Hto : to_load fm (i :: rs) = i :: to_load fm rs).
      { destruct fm; [done|]. cbn [to_load drop_mode]. cbn in Eb. by rewrite Eb. }
      assert (Hacts := fun a o u => load_actions_content i (rule_objects i) (users_of N i) (rule_objects_NoDup i) Hnd
                 (rule_actions i) (rule_actions_NoDup i) d r a o u). cbv zeta in Hacts.
      rewrite Hto. split_and!.
      * intros a o u. destruct (Hc a o u) as (l2 & Hc2 & Hf2). destruct (Hacts a o u) as ((l1 & Hc1 & Hf1) & _).
        exists (l1 ++ l2). rewrite Hc2, Hc1, app_assoc. split; [done|].
        destruct (decide (covered (rule_objects i) (users_of N i) (rule_actions i) a o u)) as [Hcov|Hcov].
        -- rewrite filter_cons_True by done. destruct Hf1 as (r' & -> & Hcr & Hpub). constructor; [|done].
           exists (Z.of_nat (length (i :: rs))), r. split; [done|]. by split.
        -- rewrite filter_cons_False by done. by subst l1.
      * rewrite Hm. destruct (Hacts ACT_CONSUME OBJ_QUEUE []) as (_ & -> & _). destruct fm; [done|].
        unfold mode_of. cbn [List.find]. cbn in Eb. by rewrite Eb.
      * intros Hd. apply Hl. by apply (Hacts ACT_CONSUME OBJ_QUEUE []).
      * by constructor.
Qed.

(** ** The policy of a file *)

(** the rules that take part, in the order of the file, and the mode *)
Definition policy (rs : list aclRule) : list aclRule := rev (drop_mode (rev rs)).
Definition policy_mode (rs : list aclRule) : AclResult := mode_of (rev rs) DENY.

(** the rule covers the request *)
Definition about_action (a : Action) (i : aclRule) : Prop := actionAll i = true \/ action i = a.
Definition about_object (o : ObjectType) (i : aclRule) : Prop :=
  match objStatus i with VALUE => object i = o | NONE | ALL => True end.
Definition covers (id : str) (a : Action) (o : ObjectType) (i : aclRule) : Prop :=
  about_action a i /\ about_object o i /\ (id ∈ names i \/ s_ "*" ∈ names i).
#[global] Instance about_object_dec o i : Decision (about_object o i).
Proof. unfold about_object. destruct (objStatus i); apply _. Defined.
#[global] Instance covers_dec id a o i : Decision (covers id a o i).
Proof. unfold covers, about_action. apply _. Defined.

Lemma elem_rule_actions a i : a ∈ rule_actions i <-> about_action a i.
Proof.
  unfold rule_actions, about_action. destruct (actionAll i).
  - split; [by left|intros _; apply elem_all_actions].
  - rewrite list_elem_of_singleton. split; [by right|by intros [|]].
Qed.
Lemma elem_rule_objects o i : o ∈ rule_objects i <-> about_object o i.
Proof.
  unfold rule_objects, about_object. destruct (objStatus i); [|by rewrite list_elem_of_singleton|];
    (split; [done|intros _; apply elem_all_objects]).
Qed.

Lemma users_of_wild N i u : rule_names_ok N i -> names i <> [] -> ACL_KEYWORD_WILDCARD ∈ N ->
  u ∈ users_of N i <-> (ACL_KEYWORD_WILDCARD ∈ names i /\ u ∈ N) \/ (ACL_KEYWORD_WILDCARD ∉ names i /\ u ∈ names i).
Proof.
  intros (_ & Hw & _) Hne HN. unfold users_of. destruct (names i) as [|n ns] eqn:E; [done|]. case_decide as Hn.
  - subst. split; [left|intros [[_ ?]|[? _]]]; [set_solver|done|set_solver].
  - split.
    + intros Hu. right. split; [|done]. intros H. apply Hw in H. congruence.
    + intros [[H _]|[_ ?]]; [|done]. apply Hw in H. congruence.
Qed.

Section effective.
Context (N : list str) (HwN : ACL_KEYWORD_WILDCARD ∈ N) (a : Action) (o : ObjectType).
Implicit Types (rs : list aclRule).

Definition sound_names rs : Prop := Forall (fun i => rule_names_ok N i /\ names i <> []) rs.

Lemma in_list_known rs u : sound_names rs -> u ∈ N -> filter (in_list N a o u) rs = filter (covers u a o) rs.
Proof.
  intros Hs Hu. apply filter_ext_in. intros i Hi. unfold sound_names in Hs. rewrite Forall_forall in Hs. destruct (Hs i Hi) as [Hok Hne].
  unfold in_list, covers. rewrite elem_rule_actions, elem_rule_objects, (users_of_wild N i u Hok Hne HwN).
  change (s_ "*") with ACL_KEYWORD_WILDCARD. destruct (decide (ACL_KEYWORD_WILDCARD ∈ names i)); tauto.
Qed.

Lemma in_list_unknown rs u : sound_names rs -> u ∉ N -> filter (in_list N a o u) rs = [].
Proof.
  intros Hs Hu. apply filter_none. apply Forall_forall. intros i Hi. unfold sound_names in Hs. rewrite Forall_forall in Hs.
  destruct (Hs i Hi) as [Hok Hne]. unfold in_list. rewrite (users_of_wild N i u Hok Hne HwN).
  destruct Hok as (Hsub & _). intros (_ & _ & [[_ ?]|[_ ?]]); [done|]. by apply Hu, Hsub.
Qed.

Lemma covers_unknown rs u : sound_names rs -> u ∉ N -> filter (covers u a o) rs = filter (covers ACL_KEYWORD_WILDCARD a o) rs.
Proof.
  intros Hs Hu. apply filter_ext_in. intros i Hi. unfold sound_names in Hs. rewrite Forall_forall in Hs.
  destruct (Hs i Hi) as [(Hsub & _) _]. unfold covers. split; [|tauto]. intros (? & ? & [?|?]); [|tauto]. by destruct Hu; apply Hsub.
Qed.

Lemma covers_none rs u : sound_names rs -> filter (covers u a o) rs = [] -> filter (covers ACL_KEYWORD_WILDCARD a o) rs = [].
Proof.
  intros Hs H. apply filter_none. apply Forall_forall. intros i Hi Hc.
  assert (i ∈ filter (covers u a o) rs) by (apply list_elem_of_filter; unfold covers in *; tauto). rewrite H in *. set_solver.
Qed.
End effective.

(** the list a lookup walks, in the order of the file: the rules of the policy that cover the request *)
Lemma loaded_effective s d :
  reader_inv s -> loadDecisionData s new_AclData = Ret d ->
  lists_ok d /\ decisionMode d = policy_mode (rules s)
  /\ (forall i, i ∈ policy (rules s) -> names i <> [])
  /\ forall id a o, Forall2 (loaded a) (filter (covers id a o) (policy (rules s))) (rev (effective d id a o)).
Proof.
  intros Hs. unfold loadDecisionData. cbn [clear mbind outcome_bind]. change (clear new_AclData) with (Ret (mkAclData (fun _ => None) DENY false (s_ "UNKNOWN") false [] false [])).
  cbn [mbind outcome_bind]. set (d0 := mkAclData _ _ _ _ _ _ _ _).
  intros ([d1 fm] & Hload & [= Hd])%obind_Ret.
  assert (Hrules := ri_rules s Hs). assert (Hall : Forall (fun i => sorted (names i)) (rev (rules s))).
  { apply Forall_rev. eapply Forall_impl; [exact Hrules|]. intros i [(_ & _ & ?) _]. done. }
  apply (load_rules_content (rd_names s) (ri_sorted s Hs) _ Hall) in Hload as (Hc & Hm & Hl & Hne).
  assert (Hsame : actionList d = actionList d1 /\ decisionMode d = decisionMode d1) by (by subst d).
  destruct Hsame as [Hal Hdm]. assert (Hlo : lists_ok d1) by (apply Hl; intros ??????; done).
  assert (Hcd : forall a o u, Forall2 (loaded a) (filter (in_list (rd_names s) a o u) (drop_mode (rev (rules s)))) (content d a o u)).
  { intros a o u. destruct (Hc a o u) as (l & Hcl & Hf). unfold content in *. rewrite Hal. rewrite Hcl. exact Hf. }
  assert (Hsub : forall i, i ∈ drop_mode (rev (rules s)) -> i ∈ rules s).
  { intros i. rewrite <- (elem_rev i (rules s)). generalize (rev (rules s)) as rs. induction rs as [|j rs IH]; [done|]. cbn [drop_mode]. destruct (for_all j); set_solver. }
  assert (Hsn : sound_names (rd_names s) (drop_mode (rev (rules s)))).
  { unfold sound_names. rewrite Forall_forall in *. intros i Hi. split; [|by apply Hne]. by apply Hrules, Hsub. }
  split_and!.
  - intros a o u row m. rewrite Hal. apply Hlo.
  - by rewrite Hdm, Hm.
  - intros i Hi. rewrite Forall_forall in Hne. apply Hne. unfold policy in Hi. exact (proj1 (elem_rev _ _) Hi).
  - intros id a o. unfold policy. rewrite filter_rev_list. apply Forall2_rev_list.
    unfold effective. assert (H1 := Hcd a o id). assert (H2 := Hcd a o ACL_KEYWORD_WILDCARD).
    rewrite (in_list_known (rd_names s) (ri_wild s Hs) a o _ ACL_KEYWORD_WILDCARD Hsn (ri_wild s Hs)) in H2.
    destruct (decide (id ∈ rd_names s)) as [Hin|Hout].
    + rewrite (in_list_known (rd_names s) (ri_wild s Hs) a o _ id Hsn Hin) in H1.
      destruct (content d a o id) as [|r l] eqn:E; [|done]. apply Forall2_nil_inv_r in H1 as Hnil.
      rewrite (covers_none (rd_names s) (ri_wild s Hs) a o _ id Hsn Hnil) in H2. rewrite Hnil. done.
    + rewrite (in_list_unknown (rd_names s) (ri_wild s Hs) a o _ id Hsn Hout) in H1. apply Forall2_nil_inv_l in H1. rewrite H1.
      by rewrite (covers_unknown (rd_names s) a o _ id Hsn Hout).
Qed.
