(* ===== verification/AclMeaning.v ===== *)
(** * Access control: the meaning of a rule of the file

    [request_result]: whether a rule of the file matches a request, property by
    property, and what it decides; [publish_result] the same for the lookup that
    is made for every message.  The two functions of the code compute them, for
    every rule the validator accepts, whose routing key has at most one [#], and
    for users with a domain. *)

From Stdlib Require Import Ascii String ZArith.
From stdpp Require Import strings.
From S2P Require Import Prelude SelectorToken TopicKey TopicTree AclModule AclData AclReader AclMatch AclInvariant AclLoad.
Local Open Scope nat_scope.

(** ** The rule made of a rule of the file *)

Lemma mark_subs_spec l : StronglySorted spec_lt l -> forall flags flags', mark_subs l flags = Ret flags' ->
  length flags' = length flags
  /\ (forall k, (forall e, e ∈ l -> spec_value e.1 <> k) -> flags' !! k = flags !! k)
  /\ (forall p v, (p, v) ∈ l -> flags' !! spec_value p = if has_keyword v then Some true else flags !! spec_value p).
Proof.
  induction 1 as [|[p v] l Hs IH Hall]; intros flags flags'; cbn [mark_subs]; [intros [= <-]; set_solver|].
  assert (Hlt : forall e, e ∈ l -> spec_value e.1 <> spec_value p).
  { intros e He. rewrite Forall_forall in Hall. specialize (Hall e He). unfold spec_lt in Hall. cbn in Hall. lia. }
  destruct (has_keyword v) eqn:Ek.
  - destruct (Nat.ltb_spec (spec_value p) (length flags)); [|done].
    intros (Hlen & Hother & Hin)%IH. rewrite length_insert in Hlen. split_and!; [done|..].
    + intros k Hk. rewrite Hother by set_solver. apply list_lookup_insert_ne. apply (Hk (p, v)). set_solver.
    + intros q w [[= -> ->]|Hq]%elem_of_cons.
      * rewrite Hother by done. rewrite Ek. by apply list_lookup_insert_eq.
      * rewrite (Hin q w Hq). destruct (has_keyword w); [done|]. apply list_lookup_insert_ne.
        intros E. by apply (Hlt (q, w) Hq).
  - intros (Hlen & Hother & Hin)%IH. split_and!; [done|..].
    + intros k Hk. apply Hother. set_solver.
    + intros q w [[= -> ->]|Hq]%elem_of_cons; [rewrite Ek; by apply Hother|by apply Hin].
Qed.

(** a property occurs once *)
Lemma props_unique l : StronglySorted spec_lt l -> forall p v w, (p, v) ∈ l -> (p, w) ∈ l -> v = w.
Proof.
  induction 1 as [|e l Hs IH Hall]; intros p v w Hv Hw; [by apply elem_of_nil in Hv|].
  assert (Hlt : forall x, (p, x) ∈ l -> e.1 <> p).
  { intros x Hx E. rewrite Forall_forall in Hall. specialize (Hall _ Hx). unfold spec_lt in Hall. cbn in Hall. rewrite E in Hall. lia. }
  apply elem_of_cons in Hv as [Ev|Hv]; apply elem_of_cons in Hw as [Ew|Hw]; [congruence|..|by apply (IH p)].
  - destruct (Hlt w Hw). by rewrite <- Ev.
  - destruct (Hlt v Hv). by rewrite <- Ew.
Qed.

Lemma mark_key_none l r : (forall v, (SPECPROP_ROUTINGKEY, v) ∉ l) -> mark_key l r = Ret r.
Proof.
  induction l as [|[p v] l IH]; intros H; cbn [mark_key]; [done|].
  rewrite decide_False by (intros ->; by apply (H v), list_elem_of_here). apply IH. intros w Hw. apply (H w). by constructor.
Qed.

Lemma mark_key_some l v r : StronglySorted spec_lt l -> (SPECPROP_ROUTINGKEY, v) ∈ l -> pTTest r = root_node ->
  mark_key l r = Ret (mkRule (rawRuleNum r) (ruleMode r) (props r) true v (tester v)
                       (pubExchNameInRule r) (pubExchNameMatchesBlank r) (pubExchName r) (ruleHasUserSub r)).
Proof.
  intros Hs Hin Hroot. induction Hs as [|[p w] l Hs IH Hall]; [by apply elem_of_nil in Hin|]. cbn [mark_key].
  assert (Hlt : forall e, e ∈ l -> e.1 <> p).
  { intros e He E. rewrite Forall_forall in Hall. specialize (Hall e He). unfold spec_lt in Hall. cbn in Hall. rewrite E in Hall. lia. }
  apply elem_of_cons in Hin as [[= <- <-]|Hin].
  - rewrite decide_True by done. unfold addTopicTest. cbn [pTTest]. rewrite Hroot, addBindingKey_root.
    cbn [mbind outcome_bind mret outcome_ret]. unfold tester. rewrite normalize_idem.
    apply mark_key_none. intros x Hx. by apply (Hlt _ Hx).
  - rewrite decide_False by (intros ->; by apply (Hlt _ Hin)). by apply IH.
Qed.

Definition substitutable (p : SpecProperty) : bool := spec_value p <? PROPERTYSIZE.

Lemma make_rule_core cnt i r : StronglySorted spec_lt (ar_props i) -> make_rule cnt i = Ret r ->
  ruleMode r = res i /\ props r = ar_props i
  /\ (forall p v, (p, v) ∈ ar_props i -> substitutable p = true -> has_sub r p = has_keyword v)
  /\ (forall v, (SPECPROP_ROUTINGKEY, v) ∈ ar_props i -> pTTest r = tester v /\ pubRoutingKeyInRule r = true)
  /\ ((forall v, (SPECPROP_ROUTINGKEY, v) ∉ ar_props i) -> pubRoutingKeyInRule r = false)
  /\ pubExchNameInRule r = false.
Proof.
  intros Hs (flags & Hf & Hk)%obind_Ret. cbn [props new_Rule ruleHasUserSub] in Hf.
  apply (mark_subs_spec _ Hs) in Hf as (Hlen & Hother & Hin).
  assert (Hsub : forall p v, (p, v) ∈ ar_props i -> substitutable p = true -> default false (flags !! spec_value p) = has_keyword v).
  { intros p v Hp Hsp%Nat.ltb_lt. rewrite (Hin p v Hp). destruct (has_keyword v); [done|].
    by rewrite lookup_replicate_2. }
  destruct (decide (Exists (fun e => e.1 = SPECPROP_ROUTINGKEY) (ar_props i))) as [Hex|Hno].
  - apply Exists_exists in Hex as ([p v] & Hv & E). cbn in E. subst p.
    rewrite (mark_key_some _ v) in Hk by done. injection Hk as <-. split_and!; try done.
    + intros w Hw. split; [|done]. by rewrite (props_unique _ Hs _ v w Hv Hw).
    + intros H. by destruct (H v).
  - assert (Hnk : forall v, (SPECPROP_ROUTINGKEY, v) ∉ ar_props i).
    { intros v Hv. apply Hno, Exists_exists. by exists (SPECPROP_ROUTINGKEY, v). }
    cbn [props new_Rule] in Hk. rewrite mark_key_none in Hk by done. injection Hk as <-. split_and!; try done. intros v Hv. by destruct (Hnk v).
Qed.

(** ** The meaning *)

(** the words that stand for the user of a request *)
Definition mentions_user (s : str) : Prop :=
  exists k l1 l2, k ∈ [s_ "${user}"; s_ "${domain}"; s_ "${userdomain}"] /\ s = l1 ++ k ++ l2.

Lemma contains_iff k s : contains k s = true <-> exists l1 l2, s = l1 ++ k ++ l2.
Proof.
  unfold contains. split.
  - destruct (str_find k s 0) as [i|] eqn:E; [|done]. intros _. by apply str_find_split in E.
  - intros (l1 & l2 & ->). unfold str_find. cbn [Nat.leb]. rewrite drop_0.
    enough (exists i, find_from k (l1 ++ k ++ l2) = Some i) as [i ->] by done.
    induction l1 as [|c l1 [i IH]].
    + exists 0. cbn [app]. assert (H : starts_with k (k ++ l2) = true) by (apply starts_with_app; by exists l2).
      destruct (k ++ l2); cbn [find_from]; by rewrite H.
    + cbn [app find_from]. rewrite IH. destruct (starts_with k (c :: l1 ++ k ++ l2)); by eexists.
Qed.

Lemma has_keyword_spec s : has_keyword s = true <-> mentions_user s.
Proof.
  unfold has_keyword, mentions_user. rewrite !orb_true_iff, !contains_iff. split.
  - intros [[(l1 & l2 & E)|(l1 & l2 & E)]|(l1 & l2 & E)]; eexists _, l1, l2; (split; [|exact E]); set_solver.
  - intros (k & l1 & l2 & Hk & E). rewrite !elem_of_cons, elem_of_nil in Hk.
    destruct Hk as [->|[->|[->|[]]]]; [left; left|left; right|right]; by exists l1, l2.
Qed.
#[global] Instance mentions_user_dec s : Decision (mentions_user s).
Proof. refine (cast_if (decide (has_keyword s = true))); by rewrite <- has_keyword_spec. Defined.

Lemma decide_mentions {A} s (x y : A) : (if decide (mentions_user s) then x else y) = if has_keyword s then x else y.
Proof. rewrite <- (decide_ext _ _ _ _ (has_keyword_spec s)). by destruct (has_keyword s). Qed.

(** what a string of a rule stands for, and a key seen through a rule whose own key mentions the user *)
Definition with_user (v id : str) : str := if decide (mentions_user v) then sub_user v id else v.
Definition with_keywords (v key id : str) : str := if decide (mentions_user v) then sub_keywords key id else key.

(** the numeric limits: the parameter, and whether the limit is an upper one *)
Definition limit_on (p : SpecProperty) : option (Property * bool) :=
  match p with
  | SPECPROP_MAXQUEUESIZELOWERLIMIT => Some (PROP_MAXQUEUESIZE, false)
  | SPECPROP_MAXQUEUESIZEUPPERLIMIT => Some (PROP_MAXQUEUESIZE, true)
  | SPECPROP_MAXQUEUECOUNTLOWERLIMIT => Some (PROP_MAXQUEUECOUNT, false)
  | SPECPROP_MAXQUEUECOUNTUPPERLIMIT => Some (PROP_MAXQUEUECOUNT, true)
  | SPECPROP_MAXFILESIZELOWERLIMIT => Some (PROP_MAXFILESIZE, false)
  | SPECPROP_MAXFILESIZEUPPERLIMIT => Some (PROP_MAXFILESIZE, true)
  | SPECPROP_MAXFILECOUNTLOWERLIMIT => Some (PROP_MAXFILECOUNT, false)
  | SPECPROP_MAXFILECOUNTUPPERLIMIT => Some (PROP_MAXFILECOUNT, true)
  | SPECPROP_MAXPAGESLOWERLIMIT => Some (PROP_MAXPAGES, false)
  | SPECPROP_MAXPAGESUPPERLIMIT => Some (PROP_MAXPAGES, true)
  | SPECPROP_MAXPAGEFACTORLOWERLIMIT => Some (PROP_MAXPAGEFACTOR, false)
  | SPECPROP_MAXPAGEFACTORUPPERLIMIT => Some (PROP_MAXPAGEFACTOR, true)
  | _ => None
  end.

Lemma limit_of_on p : limit_of p = snd <$> limit_on p.
Proof. by destruct p. Qed.

(** the parameter a property of a rule speaks of: that of its limit, else the one of its name *)
Definition speaks_of (p : SpecProperty) (q : Property) : Prop :=
  match limit_on p with Some (q', _) => q = q' | None => getPropertyStr q = getSpecPropertyStr p end.

Lemma speaks_of_param p q : speaks_of p q <-> q = param_of p.
Proof. unfold speaks_of. destruct p, q; cbn; split; (done || by intros [=]). Qed.

#[global] Instance speaks_of_dec p q : Decision (speaks_of p q).
Proof. unfold speaks_of. destruct (limit_on p) as [[]|]; apply _. Defined.

(** its value in the request *)
Definition asked (p : SpecProperty) (ps : propertyMap) : option str :=
  snd <$> List.find (fun e => bool_decide (speaks_of p e.1)) ps.

Lemma asked_param p ps : asked p ps = find_param (param_of p) ps.
Proof.
  unfold asked, find_param. f_equal. induction ps as [|e ps IH]; [done|]. cbn [List.find].
  by rewrite (bool_decide_ext _ _ (speaks_of_param p e.1)), IH.
Qed.

(** a rule that matches while one of its limits does not hold *)
Definition refusal (r : AclResult) : AclResult := match r with ALLOW | DENY => DENY | ALLOWLOG | DENYLOG => DENYLOG end.
Definition permits (r : AclResult) : bool := bool_decide (r = ALLOW \/ r = ALLOWLOG).

Lemma demote_refusal r : demote r = refusal r.
Proof. by destruct r. Qed.

Section meaning.
Context {LC : LexicalCast}.

(** a limit of zero is no limit; a parameter that is not a number is over every limit *)
Definition within (v x : str) (max : bool) : bool :=
  match lex_u64 v with
  | None => false
  | Some n => (n =? 0)%Z || match lex_u64 x with
                            | None => false
                            | Some m => if max then (m <=? n)%Z else (n <=? m)%Z
                            end
  end.

(** the property of the rule matches the request; a request without parameters is compared by name only *)
Definition prop_matches (id name : str) (params : option propertyMap) (e : SpecProperty * str) : bool :=
  let '(p, v) := e in
  if decide (p = SPECPROP_NAME) then bool_decide (wild_match (with_user v id) name)
  else match params with
       | None => true
       | Some ps =>
           match asked p ps with
           | None => false
           | Some x =>
               match limit_on p with
               | Some _ => true
               | None =>
                   if decide (p = SPECPROP_ROUTINGKEY) then topic_match (tokens v) (tokens (with_keywords v x id))
                   else if decide (p = SPECPROP_ALTERNATE \/ p = SPECPROP_QUEUENAME) then bool_decide (wild_match (with_user v id) x)
                   else bool_decide (wild_match v x)
               end
           end
       end.

(** the limit of the rule holds of the request *)
Definition limit_holds (params : option propertyMap) (e : SpecProperty * str) : bool :=
  match params, limit_on e.1 with
  | Some ps, Some (_, max) => match asked e.1 ps with Some x => within e.2 x max | None => true end
  | _, _ => true
  end.

Definition request_result (id name : str) (params : option propertyMap) (i : aclRule) : option AclResult :=
  if forallb (prop_matches id name params) (ar_props i) then
    Some (if forallb (limit_holds params) (ar_props i) then res i else refusal (res i))
  else None.

(** the lookup of a message: the name of the exchange and the routing key *)
Definition publish_matches (id name key : str) (e : SpecProperty * str) : bool :=
  let '(p, v) := e in
  if decide (p = SPECPROP_NAME) then
    if decide (mentions_user v) then bool_decide (wild_match (sub_user v id) name)
    else if decide (v = s_ "amq.default") then bool_decide (name = [])
    else bool_decide (wild_match v name)
  else if decide (p = SPECPROP_ROUTINGKEY) then
    negb (bool_decide (mentions_user key)) && topic_match (tokens v) (tokens (with_keywords v key id))
  else true.

Definition publish_result (id name key : str) (i : aclRule) : option AclResult :=
  if forallb (publish_matches id name key) (ar_props i) then Some (res i) else None.

(** what the rule needs so that nothing stops the program *)
Definition rule_ok (i : aclRule) : Prop :=
  props_ok (ar_props i)
  /\ (forall p v, (p, v) ∈ ar_props i -> limit_of p <> None -> lex_u64 v <> None)
  /\ (forall v, (SPECPROP_ROUTINGKEY, v) ∈ ar_props i -> one_hash v).

Section one_rule.
Context (i : aclRule) (r : Rule) (id : str) (Hi : rule_ok i) (Hid : full_id id).
Context (Hsub : forall p v, (p, v) ∈ ar_props i -> substitutable p = true -> has_sub r p = has_keyword v).
Context (Hkey : forall v, (SPECPROP_ROUTINGKEY, v) ∈ ar_props i -> pTTest r = tester v).

Lemma value_nonempty p v : (p, v) ∈ ar_props i -> v <> [].
Proof. intros Hin. destruct Hi as ((_ & Hf) & _). rewrite Forall_forall in Hf. by apply (Hf (p, v)). Qed.

Lemma with_user_nonempty p v : (p, v) ∈ ar_props i -> with_user v id <> [].
Proof.
  intros Hin%value_nonempty. unfold with_user. rewrite decide_mentions. destruct (has_keyword v); [by apply sub_user_nonempty|done].
Qed.

Lemma match_sub_user p v x : (p, v) ∈ ar_props i ->
  match_sub (has_keyword v) v id x = Ret (bool_decide (wild_match (with_user v id) x)).
Proof.
  intros Hin. apply with_user_nonempty in Hin as Hne. unfold match_sub, with_user in *. rewrite decide_mentions in *.
  destruct (has_keyword v); [rewrite substituteUserId_eq; cbn [mbind outcome_bind]|]; by rewrite matchProp_eq.
Qed.

Lemma match_key_eq v key : (SPECPROP_ROUTINGKEY, v) ∈ ar_props i ->
  match_key r id key = Ret (topic_match (tokens v) (tokens (with_keywords v key id))).
Proof.
  intros Hin. destruct Hi as (_ & _ & Hone). unfold match_key, matchRoutingKey, with_keywords. rewrite decide_mentions.
  rewrite (Hsub _ v Hin), (Hkey v Hin) by done.
  destruct (has_keyword v); [rewrite substituteKeywords_eq by done; cbn [mbind outcome_bind]|]; by rewrite tester_eq by auto.
Qed.

Lemma compareInt_eq p v x max : (p, v) ∈ ar_props i -> limit_of p = Some max -> compareInt v x max = Ret (within v x max).
Proof.
  intros Hin Hl. destruct Hi as (_ & Hlim & _). assert (Hv := Hlim p v Hin ltac:(congruence)).
  unfold compareInt, within. destruct (lex_u64 v) as [n|]; [|done]. destruct (n =? 0)%Z; [done|]. cbn [orb].
  destruct (lex_u64 x) as [m|]; [|done]. destruct max; f_equal.
  - rewrite <- Z.leb_antisym. done.
  - rewrite <- Z.leb_antisym. done.
Qed.

Lemma match_props_eq name params l lc : (forall e, e ∈ l -> e ∈ ar_props i) ->
  match_props r id name params l lc
  = Ret (if forallb (prop_matches id name params) l then Some (lc && forallb (limit_holds params) l) else None).
Proof.
  revert lc. induction l as [|[p v] l IH]; intros lc Hl; cbn [match_props forallb]; [by rewrite andb_true_r|].
  assert (Hin : (p, v) ∈ ar_props i) by (apply Hl; by constructor).
  assert (Hl' : forall e, e ∈ l -> e ∈ ar_props i) by (intros e He; apply Hl; by constructor).
  unfold prop_matches at 1. destruct (decide (p = SPECPROP_NAME)) as [->|Hn].
  - rewrite (Hsub _ v Hin), (match_sub_user _ v name Hin) by done. cbn [mbind outcome_bind].
    destruct (bool_decide _); [|done]. rewrite IH by done. unfold limit_holds at 2. cbn [limit_on fst]. by destruct params.
  - destruct params as [ps|]; [|rewrite IH by done; by unfold limit_holds at 2].
    unfold limit_holds at 1. cbn [fst snd]. rewrite asked_param. destruct (find_param (param_of p) ps) as [x|]; [|done].
    assert (Eo := limit_of_on p). rewrite Eo. destruct (limit_on p) as [[q max]|]; cbn [fmap option_fmap option_map snd] in *.
    + rewrite (compareInt_eq p v x max Hin Eo). cbn [mbind outcome_bind]. rewrite IH by done. cbn [andb].
      by rewrite andb_assoc.
    + cbn [andb]. assert (Hres : (if decide (p = SPECPROP_ROUTINGKEY) then match_key r id x
          else match_sub ((bool_decide (p = SPECPROP_ALTERNATE) || bool_decide (p = SPECPROP_QUEUENAME)) && has_sub r p) v id x)
        = Ret (if decide (p = SPECPROP_ROUTINGKEY) then topic_match (tokens v) (tokens (with_keywords v x id))
               else if decide (p = SPECPROP_ALTERNATE \/ p = SPECPROP_QUEUENAME) then bool_decide (wild_match (with_user v id) x)
               else bool_decide (wild_match v x))).
      { destruct (decide (p = SPECPROP_ROUTINGKEY)) as [->|Hr]; [by apply match_key_eq|].
        destruct (decide (p = SPECPROP_ALTERNATE \/ p = SPECPROP_QUEUENAME)) as [Ha|Ha].
        - assert (Hs : substitutable p = true) by (by destruct Ha as [->| ->]).
          rewrite (Hsub p v Hin Hs). assert (Hb : bool_decide (p = SPECPROP_ALTERNATE) || bool_decide (p = SPECPROP_QUEUENAME) = true).
          { by destruct Ha as [->| ->]. }
          rewrite Hb. cbn [andb]. by apply (match_sub_user p).
        - rewrite !bool_decide_eq_false_2 by tauto. cbn. apply matchProp_eq. by apply (value_nonempty p). }
      rewrite Hres. cbn [mbind outcome_bind]. clear Hres.
      match goal with |- (if ?b then _ else _) = _ => destruct b end; [|done]. by rewrite IH.
Qed.
End one_rule.
End meaning.

(** ** The code computes the meaning *)

Lemma mark_publish_none l r : (forall v, (SPECPROP_NAME, v) ∉ l) -> mark_publish l r = r.
Proof.
  revert r. induction l as [|[p v] l IH]; intros r H; cbn [mark_publish]; [done|].
  rewrite decide_False by (intros ->; by apply (H v), list_elem_of_here). apply IH. intros w Hw. apply (H w). by constructor.
Qed.

Lemma mark_publish_some l v : StronglySorted spec_lt l -> (SPECPROP_NAME, v) ∈ l -> forall r,
  pubExchNameInRule (mark_publish l r) = true /\ pubExchName (mark_publish l r) = v
  /\ pubExchNameMatchesBlank (mark_publish l r) = bool_decide (v = ACL_KEYWORD_DEFAULT_EXCHANGE).
Proof.
  intros Hs Hin r. destruct Hs as [|[p w] l Hs Hall]; [by apply elem_of_nil in Hin|]. cbn [mark_publish].
  rewrite Forall_forall in Hall. apply elem_of_cons in Hin as [[= <- <-]|Hin].
  - rewrite decide_True by done. rewrite mark_publish_none; [done|].
    intros x Hx. specialize (Hall _ Hx). unfold spec_lt in Hall. cbn in Hall. lia.
  - specialize (Hall _ Hin). unfold spec_lt in Hall. cbn in Hall. lia.
Qed.

Section computes.
Context {LC : LexicalCast} (i : aclRule) (id : str) (Hi : rule_ok i) (Hid : full_id id).

Lemma loaded_facts a r : loaded a i r ->
  ruleMode r = res i /\ props r = ar_props i
  /\ (forall p v, (p, v) ∈ ar_props i -> substitutable p = true -> has_sub r p = has_keyword v)
  /\ (forall v, (SPECPROP_ROUTINGKEY, v) ∈ ar_props i -> pTTest r = tester v /\ pubRoutingKeyInRule r = true)
  /\ ((forall v, (SPECPROP_ROUTINGKEY, v) ∉ ar_props i) -> pubRoutingKeyInRule r = false).
Proof.
  intros (cnt & r0 & Hmk & [= Hnum Hmode Hprops Hrk Hpk Htt Hflags] & _).
  destruct Hi as ((Hs & _) & _). apply (make_rule_core _ _ _ Hs) in Hmk as (H1 & H2 & H3 & H4 & H5 & _).
  unfold has_sub in *. rewrite Hmode, Hprops, Hrk, Htt, Hflags. done.
Qed.

Lemma loaded_lookup a r name params : loaded a i r -> lookupMatchRule r id name params = Ret (request_result id name params i).
Proof.
  intros Hl. destruct (loaded_facts a r Hl) as (Hm & Hp & Hsub & Hkey & _). unfold lookupMatchRule, request_result.
  rewrite Hp, (match_props_eq i r id Hi Hid Hsub (fun v Hv => proj1 (Hkey v Hv))) by done. cbn [mbind outcome_bind].
  destruct (forallb (prop_matches _ _ _) _); [|done]. cbn [andb]. by rewrite Hm, demote_refusal.
Qed.

(** the part of the lookup that compares the name of the exchange *)
Lemma publish_name_eq r name : loaded ACT_PUBLISH i r ->
  exists b, (if pubExchNameInRule r then
         if has_sub r SPECPROP_NAME then match_sub true (pubExchName r) id name
         else if pubExchNameMatchesBlank r then Ret (bool_decide (name = []))
         else matchProp (pubExchName r) name
       else Ret true) = Ret b
    /\ (b = true <-> forall v, (SPECPROP_NAME, v) ∈ ar_props i -> forall key, publish_matches id name key (SPECPROP_NAME, v) = true).
Proof.
  intros Hl. assert (Hf := loaded_facts _ r Hl). destruct Hf as (_ & _ & Hsub & _ & _).
  destruct Hl as (cnt & r0 & Hmk & _ & Hr). specialize (Hr eq_refl). destruct Hi as ((Hs & Hne) & _).
  destruct (decide (Exists (fun e => e.1 = SPECPROP_NAME) (ar_props i))) as [Hex|Hno].
  - apply Exists_exists in Hex as ([p v] & Hv & E). cbn in E. subst p.
    destruct (mark_publish_some _ v Hs Hv r0) as (Hin & Hname & Hblank). rewrite <- Hr in Hin, Hname, Hblank.
    rewrite Hin, Hname, Hblank, (Hsub _ v Hv) by done.
    assert (Hv0 : v <> []) by (rewrite Forall_forall in Hne; by apply (Hne (SPECPROP_NAME, v))).
    exists (publish_matches id name [] (SPECPROP_NAME, v)). split.
    + unfold publish_matches. rewrite decide_True by done. rewrite decide_mentions. change (s_ "amq.default") with ACL_KEYWORD_DEFAULT_EXCHANGE.
      destruct (has_keyword v).
      * unfold match_sub. rewrite substituteUserId_eq. cbn [mbind outcome_bind]. by rewrite matchProp_eq by (by apply sub_user_nonempty).
      * destruct (decide (v = ACL_KEYWORD_DEFAULT_EXCHANGE)); [by rewrite bool_decide_eq_true_2|].
        rewrite bool_decide_eq_false_2 by done. by rewrite matchProp_eq.
    + split; [|intros H; by apply H]. intros H w Hw key. by rewrite (props_unique _ Hs _ w v Hw Hv).
  - assert (Hnn : forall v, (SPECPROP_NAME, v) ∉ ar_props i).
    { intros v Hv. apply Hno, Exists_exists. by exists (SPECPROP_NAME, v). }
    rewrite mark_publish_none in Hr by done. subst r0. apply (make_rule_core _ _ _ Hs) in Hmk as (_ & _ & _ & _ & _ & ->).
    exists true. split; [done|]. split; [|done]. intros _ v Hv. by destruct (Hnn v).
Qed.

(** the part that compares the routing key *)
Lemma publish_key_eq r name key : loaded ACT_PUBLISH i r ->
  exists b, (if pubRoutingKeyInRule r then if has_keyword key then Ret false else match_key r id key else Ret true) = Ret b
    /\ (b = true <-> forall v, (SPECPROP_ROUTINGKEY, v) ∈ ar_props i -> publish_matches id name key (SPECPROP_ROUTINGKEY, v) = true).
Proof.
  intros Hl. destruct (loaded_facts _ r Hl) as (_ & _ & Hsub & Hkey & Hnokey). destruct Hi as ((Hs & _) & _).
  destruct (decide (Exists (fun e => e.1 = SPECPROP_ROUTINGKEY) (ar_props i))) as [Hex|Hno].
  - apply Exists_exists in Hex as ([p v] & Hv & E). cbn in E. subst p. destruct (Hkey v Hv) as [_ ->].
    exists (publish_matches id name key (SPECPROP_ROUTINGKEY, v)). split.
    + unfold publish_matches. rewrite decide_False, decide_True by done. rewrite <- (bool_decide_ext _ _ (has_keyword_spec key)).
      destruct (has_keyword key); [done|]. cbn [negb andb].
      by apply (match_key_eq i r id Hi Hid Hsub (fun w Hw => proj1 (Hkey w Hw))).
    + split; [|intros H; by apply H]. intros H w Hw. by rewrite (props_unique _ Hs _ w v Hw Hv).
  - assert (Hnn : forall v, (SPECPROP_ROUTINGKEY, v) ∉ ar_props i).
    { intros v Hv. apply Hno, Exists_exists. by exists (SPECPROP_ROUTINGKEY, v). }
    rewrite (Hnokey Hnn). exists true. split; [done|]. split; [|done]. intros _ v Hv. by destruct (Hnn v).
Qed.

Lemma loaded_publish r name key : loaded ACT_PUBLISH i r ->
  lookupMatchPublishExchangeRule r id name key = Ret (publish_result id name key i).
Proof.
  intros Hl. destruct (loaded_facts _ r Hl) as (Hmode & _).
  destruct (publish_name_eq r name Hl) as (b1 & E1 & H1). destruct (publish_key_eq r name key Hl) as (b2 & E2 & H2).
  unfold lookupMatchPublishExchangeRule. rewrite E1. cbn [mbind outcome_bind].
  assert (E : (if b1 && pubRoutingKeyInRule r then if has_keyword key then Ret false else match_key r id key else Ret b1) = Ret (b1 && b2)).
  { destruct b1; [cbn [andb]; rewrite <- E2; by destruct (pubRoutingKeyInRule r)|done]. }
  rewrite E. cbn [mbind outcome_bind mret outcome_ret]. unfold publish_result. rewrite Hmode.
  enough (b1 && b2 = forallb (publish_matches id name key) (ar_props i)) as -> by done.
  apply eq_true_iff_eq. rewrite andb_true_iff, H1, H2, forallb_forall. setoid_rewrite <- list_elem_of_In. split.
  - intros [Hn Hk] [p v] Hin. unfold publish_matches. destruct (decide (p = SPECPROP_NAME)) as [->|].
    + specialize (Hn v Hin key). unfold publish_matches in Hn. by rewrite decide_True in Hn by done.
    + destruct (decide (p = SPECPROP_ROUTINGKEY)) as [->|]; [|done].
      specialize (Hk v Hin). unfold publish_matches in Hk. by rewrite decide_False, decide_True in Hk by done.
  - intros H. split; [|intros v Hv; by apply H]. intros v Hv key'. specialize (H _ Hv). unfold publish_matches in *.
    by rewrite decide_True in * by done.
Qed.
End computes.

(** ** Decisions *)

(** the first rule of the list with a result decides, the default when there is none *)
Fixpoint decide_by (f : aclRule -> option AclResult) (rs : list aclRule) (dflt : AclResult) : AclResult :=
  match rs with [] => dflt | i :: rs' => match f i with Some r => r | None => decide_by f rs' dflt end end.

Lemma first_decision_eq a (mtch : Rule -> outcome (option AclResult)) (f : aclRule -> option AclResult) js rs dflt :
  Forall2 (loaded a) js rs -> (forall i r, i ∈ js -> loaded a i r -> mtch r = Ret (f i)) ->
  first_decision mtch rs dflt = Ret (decide_by f js dflt).
Proof.
  intros H Hm. induction H as [|i r js rs Hl _ IH]; [done|]. cbn [first_decision decide_by].
  rewrite (Hm i r) by (done || by constructor). cbn [mbind outcome_bind].
  destruct (f i); [done|]. apply IH. intros j r' Hj. apply Hm. by constructor.
Qed.

(** the decision of a policy on a request, and on a message *)
Section decision.
Context {LC : LexicalCast}.

Definition policy_request (rs : list aclRule) (id : str) (a : Action) (o : ObjectType) (name : str) (params : option propertyMap) : AclResult :=
  decide_by (request_result id name params) (filter (covers id a o) (policy rs)) (policy_mode rs).

Definition policy_publish (rs : list aclRule) (id : str) (a : Action) (o : ObjectType) (name key : str) : AclResult :=
  decide_by (publish_result id name key) (filter (covers id a o) (policy rs)) (policy_mode rs).

Lemma lookup_policy s d id a o name params :
  reader_inv s -> loadDecisionData s new_AclData = Ret d -> Forall rule_ok (policy (rules s)) -> full_id id ->
  lookup d id a o name params = Ret (policy_request (rules s) id a o name params).
Proof.
  intros Hs Hload Hok Hid. destruct (loaded_effective s d Hs Hload) as (Hlo & Hmode & _ & Heff).
  rewrite lookup_effective by done. rewrite Hmode. apply (first_decision_eq a); [done|].
  intros i r [_ Hi]%list_elem_of_filter Hl. rewrite Forall_forall in Hok. apply (loaded_lookup i id) with a; auto.
Qed.

Lemma lookupPublish_policy s d id o name key :
  reader_inv s -> loadDecisionData s new_AclData = Ret d -> Forall rule_ok (policy (rules s)) -> full_id id ->
  lookupPublish d id ACT_PUBLISH o name key = Ret (policy_publish (rules s) id ACT_PUBLISH o name key).
Proof.
  intros Hs Hload Hok Hid. destruct (loaded_effective s d Hs Hload) as (Hlo & Hmode & _ & Heff).
  rewrite lookupPublish_effective by done. rewrite Hmode. apply (first_decision_eq ACT_PUBLISH); [done|].
  intros i r [_ Hi]%list_elem_of_filter Hl. rewrite Forall_forall in Hok. apply (loaded_publish i id); auto.
Qed.

Lemma validate_content d a o u r : validate d = true -> r ∈ content d a o u -> validateRule r = true.
Proof.
  unfold validate, content. rewrite forallb_forall. intros Hv Hr. specialize (Hv a).
  destruct (actionList d a) as [row|]; [|by apply elem_of_nil in Hr].
  destruct (row o) as [m|] eqn:Eo; [|by apply elem_of_nil in Hr].
  destruct (map_find u m) as [rs|] eqn:Em; [|by apply elem_of_nil in Hr].
  assert (H := Hv (proj1 (list_elem_of_In _ _) (elem_all_actions a))). rewrite forallb_forall in H. specialize (H o).
  rewrite Eo in H. specialize (H (proj1 (list_elem_of_In _ _) (elem_all_objects o))). rewrite forallb_forall in H.
  apply map_find_elem, list_elem_of_In in Em. apply H in Em. unfold validateRuleSet in Em. rewrite forallb_forall in Em.
  apply Em. by apply list_elem_of_In.
Qed.

(** every rule of the policy is in a list *)
Lemma policy_listed s d i :
  reader_inv s -> loadDecisionData s new_AclData = Ret d -> i ∈ policy (rules s) ->
  exists a o u r, r ∈ content d a o u /\ loaded a i r.
Proof.
  intros Hs Hload Hi. destruct (loaded_effective s d Hs Hload) as (Hlo & _ & Hne & Heff).
  assert (Ha : exists a, about_action a i) by (exists (action i); by right).
  assert (Ho : exists o, about_object o i) by (exists (object i); unfold about_object; by destruct (objStatus i)).
  destruct Ha as [a Ha]. destruct Ho as [o Ho]. destruct (names i) as [|u ns] eqn:En; [by destruct (Hne i Hi)|].
  specialize (Heff u a o). assert (Hin : i ∈ filter (covers u a o) (policy (rules s))).
  { apply list_elem_of_filter. split; [|done]. split_and!; [done|done|]. left. rewrite En. by constructor. }
  apply list_elem_of_lookup in Hin as [k Hk]. destruct (Forall2_lookup_l _ _ _ _ _ Heff Hk) as (r & Hr & Hl).
  apply list_elem_of_lookup_2 in Hr. apply (proj1 (elem_rev _ _)) in Hr. unfold effective in Hr.
  destruct (content d a o u) as [|r1 l] eqn:E; [exists a, o, ACL_KEYWORD_WILDCARD, r; split; [exact Hr|exact Hl]|].
  exists a, o, u, r. rewrite E. split; [exact Hr|exact Hl].
Qed.

Lemma policy_rules rs i : i ∈ policy rs -> i ∈ rs.
Proof.
  unfold policy. rewrite elem_rev, <- (elem_rev i rs). generalize (rev rs) as l.
  induction l as [|j l IH]; [done|]. cbn [drop_mode]. destruct (for_all j); set_solver.
Qed.

Lemma policy_props s i : reader_inv s -> i ∈ policy (rules s) -> props_ok (ar_props i).
Proof. intros Hs Hi%policy_rules. assert (H := ri_rules s Hs). rewrite Forall_forall in H. by apply H. Qed.

(** what the validator has checked: the limits of every rule are numbers *)
Lemma validated_limits s d i p v :
  (forall x z, lex_i64 x = Some z -> (0 <= z)%Z -> lex_u64 x = Some z) ->
  reader_inv s -> loadDecisionData s new_AclData = Ret d -> validate d = true ->
  i ∈ policy (rules s) -> (p, v) ∈ ar_props i -> limit_of p <> None -> lex_u64 v <> None.
Proof.
  intros Hlex Hs Hload Hv Hi Hin Hlim. destruct (policy_listed s d i Hs Hload Hi) as (a & o & u & r & Hr & Hl).
  apply (validate_content _ _ _ _ _ Hv) in Hr. destruct Hl as (cnt & r0 & Hmk & [= Hnum Hmode Hprops Hrk Hpk Htt Hflags] & _).
  destruct (policy_props s i Hs Hi) as [Hsort _]. apply (make_rule_core _ _ _ Hsort) in Hmk as (_ & Hp & _).
  unfold validateRule in Hr. rewrite Hprops, Hp, forallb_forall in Hr. apply list_elem_of_In, Hr in Hin.
  unfold validateProperty, validator in Hin. cbn [fst snd] in Hin. destruct (limit_of p); [|done].
  unfold IntPropertyType_validate in Hin. destruct (lex_i64 v) as [z|] eqn:E; [|done].
  apply negb_true_iff, orb_false_iff in Hin as [Hz%Z.ltb_ge _]. by rewrite (Hlex v z E Hz).
Qed.
End decision.
