(* ===== verification/AclCounters.v ===== *)
(** * Access control: counting connections and queues
    (src/qpid/acl/AclConnectionCounter.cpp, AclResourceCounter.cpp)

    [ConnectionCounter] counts the connections in all, of every host and of
    every user; [ResourceCounter] the queues of every user.  The counts are
    16-bit.  Both refine the obvious specification, the list of what exists:
    over every run in which a connection is created once, approved at most once
    and closed with the user it was approved for (a queue created when it does
    not exist), the counters hold the numbers of elements of that list, the
    answers are those of the limits on the list, and no assertion fails. *)

From Stdlib Require Import Ascii String ZArith.
From stdpp Require Import strings gmap.
From S2P Require Import Prelude TopicKey AclData.
Local Open Scope Z_scope.

Abbreviation countsMap := (gmap str Z).

(** ** [ConnectionCounter] *)

Definition C_CREATED : Z := 1.
Definition C_OPENED : Z := 2.

Record ConnectionCounter := mkCC {
  nameLimit : Z;
  hostLimit : Z;
  totalLimit : Z;
  totalCurrentConnections : Z;
  connectProgressMap : countsMap;
  connectByNameMap : countsMap;
  connectByHostMap : countsMap
}.

Definition new_ConnectionCounter (nl hl tl : Z) : ConnectionCounter := mkCC nl hl tl 0 ∅ ∅ ∅.

(** [find_last_of] *)
Fixpoint find_last (c : ascii) (s : str) : option nat :=
  match s with
  | [] => None
  | x :: s' => match find_last c s' with
               | Some i => Some (S i)
               | None => if decide (x = c) then Some O else None
               end
  end.

(** the length of [substr] is a [size_t]: a colon before the hyphen makes it huge *)
Definition getClientHost (mgmtId : str) : str :=
  match str_find (s_ "-") mgmtId 0 with
  | Some hyphen =>
      match find_last ":"%char mgmtId with
      | Some colon => let rest := drop (hyphen + 1) mgmtId in
                      if (colon <? hyphen)%nat then rest else take (colon - hyphen - 1) rest
      | None => drop (hyphen + 1) mgmtId
      end
  | None => mgmtId
  end.

Definition limitApproveLH (theMap : countsMap) (theName : str) (theLimit : Z) : bool :=
  if 0 <? theLimit then
    match theMap !! theName with Some n => u16 n <=? theLimit | None => true end
  else true.

Definition countConnectionLH (theMap : countsMap) (theName : str) (theLimit : Z) (enforceLimit : bool) : countsMap * bool :=
  let count := match theMap !! theName with Some n => u16 (u16 n + 1) | None => 1 end in
  (<[theName := count]> theMap, if enforceLimit then count <=? theLimit else true).

Definition releaseLH (theMap : countsMap) (theName : str) : outcome countsMap :=
  match theMap !! theName with
  | Some n =>
      let count := u16 n in
      if negb (0 <? count) then Throw AssertionFailed
      else if 1 =? count then Ret (delete theName theMap)
      else Ret (<[theName := count - 1]> theMap)
  | None => Ret theMap
  end.

Definition connection (mgmtId : str) : M ConnectionCounter unit :=
  modify (fun s =>
    mkCC (nameLimit s) (hostLimit s) (totalLimit s) (u16 (totalCurrentConnections s + 1))
      (<[mgmtId := C_CREATED]> (connectProgressMap s)) (connectByNameMap s)
      (countConnectionLH (connectByHostMap s) (getClientHost mgmtId) (hostLimit s) false).1).

Definition set_byName (m : countsMap) (s : ConnectionCounter) :=
  mkCC (nameLimit s) (hostLimit s) (totalLimit s) (totalCurrentConnections s) (connectProgressMap s) m (connectByHostMap s).
Definition set_byHost (m : countsMap) (s : ConnectionCounter) :=
  mkCC (nameLimit s) (hostLimit s) (totalLimit s) (totalCurrentConnections s) (connectProgressMap s) (connectByNameMap s) m.
Definition set_progress (m : countsMap) (s : ConnectionCounter) :=
  mkCC (nameLimit s) (hostLimit s) (totalLimit s) (totalCurrentConnections s) m (connectByNameMap s) (connectByHostMap s).
Definition set_total (n : Z) (s : ConnectionCounter) :=
  mkCC (nameLimit s) (hostLimit s) (totalLimit s) n (connectProgressMap s) (connectByNameMap s) (connectByHostMap s).

Definition closed (mgmtId userId : str) : M ConnectionCounter unit :=
  s ← get;
  _ ← (match connectProgressMap s !! mgmtId with
       | Some st =>
           _ ← (if st =? C_OPENED then
                  m ← lift_outcome (releaseLH (connectByNameMap s) userId);
                  modify (set_byName m)
                else mret tt);
           s ← get;
           m ← lift_outcome (releaseLH (connectByHostMap s) (getClientHost mgmtId));
           _ ← modify (set_byHost m);
           modify (fun s => set_progress (delete mgmtId (connectProgressMap s)) s)
       | None => mret tt
       end);
  modify (fun s => set_total (u16 (totalCurrentConnections s - 1)) s).

Definition approveConnection (mgmtId userName : str) (enforcingConnectionQuotas : bool) (connectionUserQuota : Z)
    : M ConnectionCounter bool :=
  _ ← modify (fun s => set_progress (countConnectionLH (connectProgressMap s) mgmtId C_OPENED false).1 s);
  s ← get;
  let okTotal := if 0 <? totalLimit s then totalCurrentConnections s <=? totalLimit s else true in
  let okByIP := limitApproveLH (connectByHostMap s) (getClientHost mgmtId) (hostLimit s) in
  let '(m, okByUser) := countConnectionLH (connectByNameMap s) userName connectionUserQuota enforcingConnectionQuotas in
  _ ← modify (set_byName m);
  mret (okTotal && okByIP && okByUser).

(** ** [ResourceCounter] *)

Record ResourceCounter := mkRC {
  queueLimit : Z;
  queueOwnerMap : gmap str str;
  queuePerUserMap : countsMap
}.

Definition new_ResourceCounter (ql : Z) : ResourceCounter := mkRC ql ∅ ∅.

Definition limitApproveQueueLH (theMap : countsMap) (theName : str) (theLimit : Z) (enforceLimit : bool) : countsMap * bool :=
  match theMap !! theName with
  | Some n =>
      let count := u16 n in
      let result := if enforceLimit then count <? theLimit else true in
      (if result then <[theName := u16 (count + 1)]> theMap else theMap, result)
  | None =>
      if enforceLimit then if 0 <? theLimit then (<[theName := 1]> theMap, true) else (theMap, false)
      else (<[theName := 1]> theMap, true)
  end.

Definition approveCreateQueue (userId queueName : str) (enforcingQueueQuotas : bool) (queueUserQuota : Z) : M ResourceCounter bool :=
  s ← get;
  let '(m, okByQ) := limitApproveQueueLH (queuePerUserMap s) userId queueUserQuota enforcingQueueQuotas in
  _ ← modify (fun s => mkRC (queueLimit s) (if okByQ then <[queueName := userId]> (queueOwnerMap s) else queueOwnerMap s) m);
  mret okByQ.

Definition recordDestroyQueue (queueName : str) : M ResourceCounter unit :=
  s ← get;
  match queueOwnerMap s !! queueName with
  | Some owner =>
      m ← lift_outcome (releaseLH (queuePerUserMap s) owner);
      modify (fun s => mkRC (queueLimit s) (delete queueName (queueOwnerMap s)) m)
  | None => mret tt
  end.

(** ** Counting the elements of a list by a key *)

Section tally.
Context {A : Type} (key : A -> option str).
Implicit Types (l : list A) (m : countsMap).

Definition tally (k : str) l : Z := Z.of_nat (length (filter (fun x => key x = Some k) l)).

(** the map holds the numbers that are not zero *)
Definition counts m l : Prop := forall k, m !! k = if tally k l =? 0 then None else Some (tally k l).

Lemma tally_cons k x l : tally k (x :: l) = (if decide (key x = Some k) then 1 else 0) + tally k l.
Proof.
  unfold tally. destruct (decide (key x = Some k)); [rewrite filter_cons_True by done|rewrite filter_cons_False by done]; cbn [length]; lia.
Qed.

Lemma tally_pos k l : 0 <= tally k l.
Proof. unfold tally. lia. Qed.

Lemma tally_length k l : tally k l <= Z.of_nat (length l).
Proof. unfold tally. pose proof (length_filter (fun x => key x = Some k) l). lia. Qed.

Lemma tally_perm k l l' : l ≡ₚ l' -> tally k l = tally k l'.
Proof. intros H. unfold tally. by rewrite H. Qed.

Lemma counts_perm m l l' : l ≡ₚ l' -> counts m l -> counts m l'.
Proof. intros H Hc k. by rewrite (Hc k), (tally_perm k l l' H). Qed.

Lemma counts_nil : counts ∅ [].
Proof. intros k. by rewrite lookup_empty. Qed.

Lemma counts_lookup m l k : counts m l -> Z.of_nat (length l) < 2 ^ 16 ->
  match m !! k with Some n => u16 n = tally k l | None => tally k l = 0 end.
Proof.
  intros Hc Hl. rewrite (Hc k). pose proof (tally_pos k l). pose proof (tally_length k l).
  destruct (Z.eqb_spec (tally k l) 0); [done|]. apply uwrap_small. unfold is_uint. lia.
Qed.

(** an element without a key is not counted *)
Lemma counts_skip m x l : key x = None -> counts m l <-> counts m (x :: l).
Proof.
  intros Hx. assert (H : forall k, tally k (x :: l) = tally k l) by (intros k; rewrite tally_cons, Hx; by rewrite decide_False).
  split; intros Hc k; specialize (Hc k); by rewrite H in *.
Qed.

Lemma counts_insert m x l k n : key x = Some k -> counts m l -> n = tally k l + 1 -> counts (<[k := n]> m) (x :: l).
Proof.
  intros Hx Hc -> j. rewrite tally_cons, Hx. destruct (decide (k = j)) as [->|Hne].
  - rewrite lookup_insert_eq, decide_True by done. pose proof (tally_pos j l).
    destruct (Z.eqb_spec (1 + tally j l) 0); [lia|]. f_equal. lia.
  - rewrite lookup_insert_ne by done. rewrite decide_False by congruence. apply Hc.
Qed.

(** counting one more *)
Lemma count_one m x l k limit enforce : key x = Some k -> counts m l -> Z.of_nat (length l) < 2 ^ 16 - 1 ->
  countConnectionLH m k limit enforce = ((countConnectionLH m k limit enforce).1, if enforce then tally k (x :: l) <=? limit else true)
  /\ counts (countConnectionLH m k limit enforce).1 (x :: l).
Proof.
  intros Hx Hc Hl. unfold countConnectionLH. cbn [fst].
  assert (Hn : match m !! k with Some n => u16 (u16 n + 1) | None => 1 end = tally k l + 1).
  { pose proof (counts_lookup m l k Hc ltac:(lia)) as Hk. pose proof (tally_length k l). pose proof (tally_pos k l).
    destruct (m !! k) as [n|]; [|lia]. rewrite Hk. apply uwrap_small. unfold is_uint. lia. }
  rewrite Hn. split; [|by apply counts_insert]. rewrite tally_cons, Hx, decide_True by done. by rewrite Z.add_comm.
Qed.

(** releasing one *)
Lemma release_one m x l k : key x = Some k -> counts m (x :: l) -> Z.of_nat (length (x :: l)) < 2 ^ 16 ->
  exists m', releaseLH m k = Ret m' /\ counts m' l.
Proof.
  intros Hx Hc Hl. unfold releaseLH. pose proof (counts_lookup m (x :: l) k Hc Hl) as Hk.
  rewrite tally_cons, Hx, decide_True in Hk by done. pose proof (tally_pos k l).
  destruct (m !! k) as [n|] eqn:E; [|lia]. rewrite Hk. cbv zeta.
  rewrite (proj2 (Z.ltb_lt 0 _)) by lia. cbn [negb].
  destruct (Z.eqb_spec 1 (1 + tally k l)) as [E1|E1]; eexists; (split; [done|]); intros j.
  - destruct (decide (k = j)) as [->|Hne].
    + rewrite lookup_delete_eq. by rewrite (proj2 (Z.eqb_eq _ 0)) by lia.
    + rewrite lookup_delete_ne by done. rewrite (Hc j), tally_cons, Hx. by rewrite decide_False by congruence.
  - destruct (decide (k = j)) as [->|Hne].
    + rewrite lookup_insert_eq. rewrite (proj2 (Z.eqb_neq _ 0)) by lia. f_equal. lia.
    + rewrite lookup_insert_ne by done. rewrite (Hc j), tally_cons, Hx. by rewrite decide_False by congruence.
Qed.
End tally.

(** ** Connections: the specification *)

(** a connection that exists, with the user it was approved for *)
Abbreviation conn := (str * option str)%type.

Inductive conn_event :=
| Created (mgmtId : str)
| Approve (mgmtId userName : str) (enforcing : bool) (quota : Z)
| Closed (mgmtId userId : str).

(** the value under the id, and the others *)
Fixpoint take_conn {B} (id : str) (live : list (str * B)) : option (B * list (str * B)) :=
  match live with
  | [] => None
  | c :: live' => if decide (c.1 = id) then Some (c.2, live')
                  else '(u, rest) ← take_conn id live'; Some (u, c :: rest)
  end.

Definition conn_host (c : conn) : option str := Some (getClientHost c.1).
Definition conn_user (c : conn) : option str := c.2.

(** the limits, on the list of the connections; zero is no limit *)
Definition within_limits (hl tl : Z) (live : list conn) (id user : str) (enforcing : bool) (quota : Z) : bool :=
  (negb (0 <? tl) || (Z.of_nat (length live) <=? tl))
  && (negb (0 <? hl) || (tally conn_host (getClientHost id) live <=? hl))
  && (negb enforcing || (tally conn_user user live <=? quota)).

(** the next list, and the answer of an approval; [None] for what the broker does not do, and for more
    connections than sixteen bits count *)
Definition conn_step (hl tl : Z) (live : list conn) (ev : conn_event) : option (list conn * list bool) :=
  match ev with
  | Created id => if decide (id ∈ map fst live) then None
                  else if Z.of_nat (length live) <? 2 ^ 16 - 1 then Some ((id, None) :: live, []) else None
  | Approve id user enforcing quota =>
      match take_conn id live with
      | Some (None, rest) => let live' := (id, Some user) :: rest in
                             Some (live', [within_limits hl tl live' id user enforcing quota])
      | _ => None
      end
  | Closed id user =>
      match take_conn id live with
      | Some (u, rest) => if decide (u = None \/ u = Some user) then Some (rest, []) else None
      | None => None
      end
  end.

Fixpoint conn_run (hl tl : Z) (live : list conn) (evs : list conn_event) : option (list conn * list bool) :=
  match evs with
  | [] => Some (live, [])
  | ev :: evs' =>
      '(live, a) ← conn_step hl tl live ev;
      '(live, b) ← conn_run hl tl live evs';
      Some (live, a ++ b)
  end.

(** the same events on the counter *)
Definition counter_step (ev : conn_event) : M ConnectionCounter (list bool) :=
  match ev with
  | Created id => _ ← connection id; mret []
  | Approve id user enforcing quota => b ← approveConnection id user enforcing quota; mret [b]
  | Closed id user => _ ← closed id user; mret []
  end.

Fixpoint counter_run (evs : list conn_event) : M ConnectionCounter (list bool) :=
  match evs with
  | [] => mret []
  | ev :: evs' => a ← counter_step ev; b ← counter_run evs'; mret (a ++ b)
  end.

(** ** The counter refines it *)

Definition progress_of (u : option str) : Z := match u with None => C_CREATED | Some _ => C_OPENED end.

Record agree (hl tl : Z) (live : list conn) (s : ConnectionCounter) : Prop := {
  ag_host : hostLimit s = hl;
  ag_total : totalLimit s = tl;
  ag_ids : NoDup (map fst live);
  ag_small : Z.of_nat (length live) < 2 ^ 16;
  ag_count : totalCurrentConnections s = Z.of_nat (length live);
  ag_progress : forall id st, connectProgressMap s !! id = Some st <-> exists u, (id, u) ∈ live /\ st = progress_of u;
  ag_hosts : counts conn_host (connectByHostMap s) live;
  ag_users : counts conn_user (connectByNameMap s) live
}.

Lemma agree_perm hl tl live live' s : live ≡ₚ live' -> agree hl tl live s -> agree hl tl live' s.
Proof.
  intros Hp []. constructor; try done.
  - by rewrite <- Hp.
  - by rewrite <- Hp.
  - by rewrite <- Hp.
  - intros id st. rewrite ag_progress0. by setoid_rewrite Hp.
  - by apply counts_perm with live.
  - by apply counts_perm with live.
Qed.

Lemma take_conn_perm {B} id (live : list (str * B)) u rest : take_conn id live = Some (u, rest) -> live ≡ₚ (id, u) :: rest.
Proof.
  revert u rest. induction live as [|[i w] live IH]; intros u rest; cbn [take_conn]; [done|]. cbn [fst snd].
  case_decide as E; [intros [= <- <-]; by subst|].
  destruct (take_conn id live) as [[u' rest']|]; [|done]. intros [= <- <-].
  rewrite (IH u' rest' eq_refl). apply Permutation_swap.
Qed.

(** the progress map when the first connection changes *)
Lemma progress_change (m : countsMap) id (u u' : option str) rest :
  NoDup (map fst ((id, u) :: rest)) ->
  (forall i st, m !! i = Some st <-> exists w, (i, w) ∈ (id, u) :: rest /\ st = progress_of w) ->
  forall i st, <[id := progress_of u']> m !! i = Some st <-> exists w, (i, w) ∈ (id, u') :: rest /\ st = progress_of w.
Proof.
  intros [Hid _]%NoDup_cons Hm i st.
  assert (Hno : forall w, (id, w) ∉ rest) by (intros w Hw; apply Hid; by apply (list_elem_of_fmap_2 fst) in Hw).
  destruct (decide (id = i)) as [<-|Hne].
  - rewrite lookup_insert_eq. split.
    + intros [= <-]. exists u'. split; [by constructor|done].
    + intros (w & [[= <-]|Hw]%elem_of_cons & ->); [done|by destruct (Hno w)].
  - rewrite lookup_insert_ne by done. rewrite Hm. apply exist_proper. intros w. set_solver.
Qed.

Section refine.
Context (hl tl : Z).

Lemma created_agree live s id :
  agree hl tl live s -> id ∉ map fst live -> Z.of_nat (length live) < 2 ^ 16 - 1 ->
  exists s', connection id s = (s', Ret tt) /\ agree hl tl ((id, None) :: live) s'.
Proof.
  intros [] Hid Hl. eexists. split; [done|].
  destruct (count_one conn_host (connectByHostMap s) (id, None) live (getClientHost id) (hostLimit s) false eq_refl ag_hosts0 Hl) as [_ Hh].
  constructor; cbn [hostLimit totalLimit totalCurrentConnections connectProgressMap connectByNameMap connectByHostMap].
  - done.
  - done.
  - constructor; done.
  - cbn [length]. lia.
  - rewrite ag_count0. cbn [length]. rewrite uwrap_small by (unfold is_uint; lia). lia.
  - intros i st. destruct (decide (id = i)) as [<-|Hne].
    + rewrite lookup_insert_eq. split.
      * intros [= <-]. exists None. split; [by constructor|done].
      * intros (w & [[= ->]|Hw]%elem_of_cons & ->); [done|]. destruct Hid. by apply (list_elem_of_fmap_2 fst) in Hw.
    + rewrite lookup_insert_ne by done. rewrite ag_progress0. apply exist_proper. intros w. set_solver.
  - exact Hh.
  - by apply counts_skip.
Qed.

Lemma approve_agree rest s id user enforcing quota :
  agree hl tl ((id, None) :: rest) s ->
  exists s', approveConnection id user enforcing quota s
               = (s', Ret (within_limits hl tl ((id, Some user) :: rest) id user enforcing quota))
    /\ agree hl tl ((id, Some user) :: rest) s'.
Proof.
  intros []. assert (Hu : counts conn_user (connectByNameMap s) rest) by (by apply (counts_skip conn_user _ (id, None))).
  cbn [length] in ag_small0.
  destruct (count_one conn_user (connectByNameMap s) (id, Some user) rest user quota enforcing eq_refl Hu ltac:(lia)) as [Hres Hcu].
  assert (Hprog : connectProgressMap s !! id = Some C_CREATED).
  { apply ag_progress0. exists None. split; [by constructor|done]. }
  unfold approveConnection. rewrite (bind_Ret _ _ _ _ tt) by done. rewrite (bind_Ret _ _ _ _ _) by done.
  cbn [set_progress connectByNameMap connectByHostMap totalLimit hostLimit totalCurrentConnections].
  rewrite Hres. eexists. split.
  - rewrite (bind_Ret _ _ _ _ tt) by done. unfold mret, M_ret. f_equal. f_equal. unfold within_limits.
    rewrite ag_total0, ag_host0, ag_count0. f_equal; [f_equal|by destruct enforcing].
    + cbn [length]. by destruct (0 <? tl).
    + unfold limitApproveLH. destruct (0 <? hl); [|done]. cbn [negb orb].
      assert (Hh : tally conn_host (getClientHost id) ((id, Some user) :: rest) = tally conn_host (getClientHost id) ((id, None) :: rest))
        by (by rewrite !tally_cons).
      rewrite Hh. pose proof (counts_lookup conn_host _ _ (getClientHost id) ag_hosts0 ltac:(cbn [length]; lia)) as Hk.
      destruct (connectByHostMap s !! getClientHost id); [by rewrite Hk|].
      rewrite tally_cons, decide_True in Hk by done. pose proof (tally_pos conn_host (getClientHost id) rest). lia.
  - constructor; cbn [set_byName set_progress hostLimit totalLimit totalCurrentConnections connectProgressMap connectByNameMap connectByHostMap]; try done.
    + unfold countConnectionLH. rewrite Hprog. cbn [fst]. change (u16 (u16 C_CREATED + 1)) with (progress_of (Some user)).
      by apply (progress_change _ _ None).
    + intros k. rewrite (ag_hosts0 k). by rewrite !tally_cons.
Qed.

Lemma closed_agree rest s id u user :
  agree hl tl ((id, u) :: rest) s -> u = None \/ u = Some user ->
  exists s', closed id user s = (s', Ret tt) /\ agree hl tl rest s'.
Proof.
  intros [] Hu. cbn [length] in *.
  destruct (release_one conn_host (connectByHostMap s) (id, u) rest (getClientHost id) eq_refl ag_hosts0 ltac:(cbn [length]; lia)) as (mh & Hmh & Hch).
  assert (Hn : exists mn, (u = None /\ mn = connectByNameMap s \/ u = Some user /\ releaseLH (connectByNameMap s) user = Ret mn) /\ counts conn_user mn rest).
  { destruct Hu as [->| ->].
    - exists (connectByNameMap s). split; [by left|]. by apply (counts_skip conn_user _ (id, None)).
    - destruct (release_one conn_user (connectByNameMap s) (id, Some user) rest user eq_refl ag_users0 ltac:(cbn [length]; lia)) as (mn & Hmn & Hcn).
      exists mn. split; [by right|done]. }
  destruct Hn as (mn & Hmn & Hcn).
  assert (Hprog : connectProgressMap s !! id = Some (progress_of u)).
  { apply ag_progress0. exists u. split; [by constructor|done]. }
  exists (set_total (u16 (totalCurrentConnections s - 1)) (set_progress (delete id (connectProgressMap s)) (set_byHost mh (set_byName mn s)))).
  split.
  - unfold closed. rewrite (bind_Ret _ _ _ s s) by done. rewrite Hprog.
    rewrite (bind_Ret _ _ _ (set_progress (delete id (connectProgressMap s)) (set_byHost mh (set_byName mn s))) tt); [done|].
    rewrite (bind_Ret _ _ _ (set_byName mn s) tt).
    + rewrite (bind_Ret _ _ _ (set_byName mn s) (set_byName mn s)) by done. cbn [set_byName connectByHostMap].
      unfold mbind, M_bind, lift_outcome. by rewrite Hmh.
    + destruct Hmn as [[-> ->]|[-> Hmn]]; [by destruct s|]. cbn [progress_of]. unfold mbind, M_bind, lift_outcome. cbn. by rewrite Hmn.
  - apply NoDup_cons in ag_ids0 as [Hid Hnd]. constructor;
      cbn [set_total set_progress set_byHost set_byName hostLimit totalLimit totalCurrentConnections connectProgressMap connectByNameMap connectByHostMap];
      try done.
    + lia.
    + rewrite ag_count0. rewrite uwrap_small by (unfold is_uint; lia). lia.
    + intros i st. destruct (decide (id = i)) as [<-|Hne].
      * rewrite lookup_delete_eq. split; [done|]. intros (w & Hw & _). destruct Hid. by apply (list_elem_of_fmap_2 fst) in Hw.
      * rewrite lookup_delete_ne by done. rewrite ag_progress0. apply exist_proper. intros w. set_solver.
Qed.

Lemma step_agree live s ev live' a :
  agree hl tl live s -> conn_step hl tl live ev = Some (live', a) ->
  exists s', counter_step ev s = (s', Ret a) /\ agree hl tl live' s'.
Proof.
  intros Hs. destruct ev as [id|id user enforcing quota|id user]; cbn [conn_step counter_step].
  - case_decide as Hid; [done|]. destruct (Z.ltb_spec (Z.of_nat (length live)) (2 ^ 16 - 1)) as [Hl|]; [|done].
    intros [= <- <-]. destruct (created_agree live s id Hs Hid Hl) as (s' & Hc & Ha).
    exists s'. by rewrite (bind_Ret _ _ _ _ _ Hc).
  - destruct (take_conn id live) as [[[u|] rest]|] eqn:Et; [done| |done]. intros [= <- <-].
    apply take_conn_perm in Et. apply (agree_perm _ _ _ _ _ Et) in Hs.
    destruct (approve_agree rest s id user enforcing quota Hs) as (s' & Hc & Ha). exists s'. by rewrite (bind_Ret _ _ _ _ _ Hc).
  - destruct (take_conn id live) as [[u rest]|] eqn:Et; [|done]. case_decide as Hu; [|done]. intros [= <- <-].
    apply take_conn_perm in Et. apply (agree_perm _ _ _ _ _ Et) in Hs.
    destruct (closed_agree rest s id u user Hs Hu) as (s' & Hc & Ha). exists s'. by rewrite (bind_Ret _ _ _ _ _ Hc).
Qed.

Lemma run_agree evs : forall live s live' a,
  agree hl tl live s -> conn_run hl tl live evs = Some (live', a) ->
  exists s', counter_run evs s = (s', Ret a) /\ agree hl tl live' s'.
Proof.
  induction evs as [|ev evs IH]; intros live s live' a Hs; cbn [conn_run counter_run].
  - intros [= <- <-]. by exists s.
  - destruct (conn_step hl tl live ev) as [[l1 a1]|] eqn:E1; cbn [mbind option_bind]; [|done].
    destruct (conn_run hl tl l1 evs) as [[l2 a2]|] eqn:E2; cbn [mbind option_bind]; [|done]. intros [= <- <-].
    destruct (step_agree live s ev l1 a1 Hs E1) as (s1 & Hc1 & Ha1). destruct (IH l1 s1 l2 a2 Ha1 E2) as (s2 & Hc2 & Ha2).
    exists s2. split; [|done]. rewrite (bind_Ret _ _ _ _ _ Hc1). by rewrite (bind_Ret _ _ _ _ _ Hc2).
Qed.

Lemma new_agree nl : agree hl tl [] (new_ConnectionCounter nl hl tl).
Proof.
  constructor; cbn; try done; try apply counts_nil; [constructor|].
  intros id st. rewrite lookup_empty. split; [done|]. intros (u & Hu & _). by apply elem_of_nil in Hu.
Qed.
End refine.

(** ** Queues: the specification *)

Abbreviation owned := (str * str)%type.

Inductive queue_event :=
| CreateQueue (userId queueName : str) (enforcing : bool) (quota : Z)
| DestroyQueue (queueName : str).

Definition queue_owner (q : owned) : option str := Some q.2.

(** the queues that exist with their owners, and the answer to a creation; [None] for the creation of a queue
    that exists, which the broker does not ask for, and for more queues than sixteen bits count *)
Definition queue_step (owners : list owned) (ev : queue_event) : option (list owned * list bool) :=
  match ev with
  | CreateQueue user queue enforcing quota =>
      if decide (queue ∈ map fst owners) then None
      else if Z.of_nat (length owners) <? 2 ^ 16 - 1 then
        let ok := negb enforcing || (tally queue_owner user owners <? quota) in
        Some (if ok then (queue, user) :: owners else owners, [ok])
      else None
  | DestroyQueue queue =>
      match take_conn queue owners with Some (_, rest) => Some (rest, []) | None => Some (owners, []) end
  end.

Fixpoint queue_run (owners : list owned) (evs : list queue_event) : option (list owned * list bool) :=
  match evs with
  | [] => Some (owners, [])
  | ev :: evs' =>
      '(owners, a) ← queue_step owners ev;
      '(owners, b) ← queue_run owners evs';
      Some (owners, a ++ b)
  end.

Definition resource_step (ev : queue_event) : M ResourceCounter (list bool) :=
  match ev with
  | CreateQueue user queue enforcing quota => b ← approveCreateQueue user queue enforcing quota; mret [b]
  | DestroyQueue queue => _ ← recordDestroyQueue queue; mret []
  end.

Fixpoint resource_run (evs : list queue_event) : M ResourceCounter (list bool) :=
  match evs with
  | [] => mret []
  | ev :: evs' => a ← resource_step ev; b ← resource_run evs'; mret (a ++ b)
  end.

(** ** The counter refines it *)

Record queues_agree (owners : list owned) (s : ResourceCounter) : Prop := {
  qa_ids : NoDup (map fst owners);
  qa_small : Z.of_nat (length owners) < 2 ^ 16;
  qa_owner : forall q u, queueOwnerMap s !! q = Some u <-> (q, u) ∈ owners;
  qa_users : counts queue_owner (queuePerUserMap s) owners
}.

Lemma queues_agree_perm owners owners' s : owners ≡ₚ owners' -> queues_agree owners s -> queues_agree owners' s.
Proof.
  intros Hp []. constructor.
  - by rewrite <- Hp.
  - by rewrite <- Hp.
  - intros q u. rewrite qa_owner0. by rewrite Hp.
  - by apply counts_perm with owners.
Qed.

Lemma limitApproveQueue_eq m owners queue user quota enforcing :
  counts queue_owner m owners -> Z.of_nat (length owners) < 2 ^ 16 - 1 ->
  exists m', limitApproveQueueLH m user quota enforcing
             = (m', negb enforcing || (tally queue_owner user owners <? quota))
    /\ (if negb enforcing || (tally queue_owner user owners <? quota)
        then counts queue_owner m' ((queue, user) :: owners) else m' = m).
Proof.
  intros Hc Hl. unfold limitApproveQueueLH. pose proof (counts_lookup queue_owner m owners user Hc ltac:(lia)) as Hk.
  pose proof (tally_pos queue_owner user owners). pose proof (tally_length queue_owner user owners).
  assert (Hins : forall n, n = tally queue_owner user owners + 1 -> counts queue_owner (<[user := n]> m) ((queue, user) :: owners))
    by (intros n ->; by apply counts_insert).
  destruct (m !! user) as [n|].
  - rewrite Hk. cbv zeta. assert (Hw : u16 (tally queue_owner user owners + 1) = tally queue_owner user owners + 1)
      by (apply uwrap_small; unfold is_uint; lia).
    destruct enforcing; cbn [negb orb].
    + destruct (tally queue_owner user owners <? quota); eexists; (split; [done|]); [|done]. by apply Hins.
    + eexists. split; [done|]. by apply Hins.
  - rewrite Hk. destruct enforcing; cbn [negb orb].
    + destruct (0 <? quota); eexists; (split; [done|]); [|done]. apply Hins. lia.
    + eexists. split; [done|]. apply Hins. lia.
Qed.

Lemma queue_step_agree owners s ev owners' a :
  queues_agree owners s -> queue_step owners ev = Some (owners', a) ->
  exists s', resource_step ev s = (s', Ret a) /\ queues_agree owners' s'.
Proof.
  intros Hs. destruct ev as [user queue enforcing quota|queue]; cbn [queue_step resource_step].
  - case_decide as Hq; [done|]. destruct (Z.ltb_spec (Z.of_nat (length owners)) (2 ^ 16 - 1)) as [Hl|]; [|done]. intros [= <- <-].
    destruct Hs. destruct (limitApproveQueue_eq (queuePerUserMap s) owners queue user quota enforcing qa_users0 Hl) as (m' & Hm & Hc).
    unfold approveCreateQueue. set (ok := negb enforcing || _) in *.
    exists (mkRC (queueLimit s) (if ok then <[queue := user]> (queueOwnerMap s) else queueOwnerMap s) m'). split.
    + rewrite (bind_Ret _ _ _ (mkRC (queueLimit s) (if ok then <[queue := user]> (queueOwnerMap s) else queueOwnerMap s) m') ok); [done|].
      rewrite (bind_Ret _ _ _ s s) by done. by rewrite Hm.
    + destruct ok; [|subst m'; by destruct s].
      constructor; cbn [queueOwnerMap queuePerUserMap].
      * by constructor.
      * cbn [length]. lia.
      * intros q u. destruct (decide (queue = q)) as [<-|Hne].
        -- rewrite lookup_insert_eq. split; [intros [= <-]; by constructor|].
           intros [[= ->]|Hin]%elem_of_cons; [done|]. destruct Hq. by apply (list_elem_of_fmap_2 fst) in Hin.
        -- rewrite lookup_insert_ne by done. rewrite qa_owner0. set_solver.
      * done.
  - unfold recordDestroyQueue. destruct (take_conn queue owners) as [[owner rest]|] eqn:Et; intros [= <- <-].
    + apply take_conn_perm in Et. apply (queues_agree_perm _ _ _ Et) in Hs. destruct Hs.
      assert (Ho : queueOwnerMap s !! queue = Some owner) by (apply qa_owner0; by constructor).
      destruct (release_one queue_owner (queuePerUserMap s) (queue, owner) rest owner eq_refl qa_users0 qa_small0) as (m & Hm & Hc).
      exists (mkRC (queueLimit s) (delete queue (queueOwnerMap s)) m). split.
      * rewrite (bind_Ret _ _ _ (mkRC (queueLimit s) (delete queue (queueOwnerMap s)) m) tt); [done|].
        rewrite (bind_Ret _ _ _ s s) by done. rewrite Ho.
        rewrite (bind_Ret _ _ _ s m) by (unfold lift_outcome; by rewrite Hm). done.
      * apply NoDup_cons in qa_ids0 as [Hid Hnd]. constructor; cbn [queueOwnerMap queuePerUserMap].
        -- done.
        -- cbn [length] in qa_small0. lia.
        -- intros q u. destruct (decide (queue = q)) as [<-|Hne].
           ++ rewrite lookup_delete_eq. split; [done|]. intros Hin. destruct Hid. by apply (list_elem_of_fmap_2 fst) in Hin.
           ++ rewrite lookup_delete_ne by done. rewrite qa_owner0. set_solver.
        -- done.
    + exists s. split; [|done]. destruct Hs. rewrite (bind_Ret _ _ _ s tt); [done|]. rewrite (bind_Ret _ _ _ s s) by done.
      destruct (queueOwnerMap s !! queue) as [u|] eqn:Eo; [|done]. apply qa_owner0 in Eo. exfalso. clear -Et Eo.
      induction owners as [|[q w] owners IH]; [by apply elem_of_nil in Eo|]. cbn [take_conn] in Et. case_decide as Hq; [done|].
      cbn in Hq. apply elem_of_cons in Eo as [[= <- <-]|Eo]; [done|]. destruct (take_conn queue owners) as [[]|]; [done|auto].
Qed.

Lemma queue_run_agree evs : forall owners s owners' a,
  queues_agree owners s -> queue_run owners evs = Some (owners', a) ->
  exists s', resource_run evs s = (s', Ret a) /\ queues_agree owners' s'.
Proof.
  induction evs as [|ev evs IH]; intros owners s owners' a Hs; cbn [queue_run resource_run].
  - intros [= <- <-]. by exists s.
  - destruct (queue_step owners ev) as [[l1 a1]|] eqn:E1; cbn [mbind option_bind]; [|done].
    destruct (queue_run l1 evs) as [[l2 a2]|] eqn:E2; cbn [mbind option_bind]; [|done]. intros [= <- <-].
    destruct (queue_step_agree owners s ev l1 a1 Hs E1) as (s1 & Hc1 & Ha1). destruct (IH l1 s1 l2 a2 Ha1 E2) as (s2 & Hc2 & Ha2).
    exists s2. split; [|done]. rewrite (bind_Ret _ _ _ _ _ Hc1). by rewrite (bind_Ret _ _ _ _ _ Hc2).
Qed.

Lemma new_queues_agree ql : queues_agree [] (new_ResourceCounter ql).
Proof.
  constructor; cbn; [apply NoDup_nil_2|done| |apply counts_nil]. intros q u. rewrite lookup_empty. split; [done|]. set_solver.
Qed.

(** creations that are checked against the quota of their user *)
Definition enforced (quota : str -> Z) (ev : queue_event) : Prop :=
  match ev with CreateQueue user _ e q => e = true /\ q = quota user | DestroyQueue _ => True end.

Lemma queue_quota_kept quota evs : Forall (enforced quota) evs -> forall owners owners' a,
  (forall u, tally queue_owner u owners <= Z.max 0 (quota u)) -> queue_run owners evs = Some (owners', a) ->
  forall u, tally queue_owner u owners' <= Z.max 0 (quota u).
Proof.
  induction 1 as [|ev evs Hev _ IH]; intros owners owners' a Ho; cbn [queue_run]; [by intros [= <- <-]|].
  destruct (queue_step owners ev) as [[l1 a1]|] eqn:E1; cbn [mbind option_bind]; [|done].
  destruct (queue_run l1 evs) as [[l2 a2]|] eqn:E2; cbn [mbind option_bind]; [|done]. intros [= <- <-].
  apply (IH l1 l2 a2); [|done]. clear IH E2. intros u. destruct ev as [user queue e q|queue]; cbn [queue_step] in E1.
  - case_decide; [done|]. destruct (_ <? _); [|done]. destruct Hev as [-> ->]. cbn [negb orb] in E1. injection E1 as <- _.
    destruct (Z.ltb_spec (tally queue_owner user owners) (quota user)); [|apply Ho].
    rewrite tally_cons. unfold queue_owner at 1. cbn [snd]. specialize (Ho u). case_decide as E; [|lia]. injection E as ->. lia.
  - destruct (take_conn queue owners) as [[w rest]|] eqn:Et; injection E1 as <- _; [|apply Ho].
    apply take_conn_perm in Et. specialize (Ho u). rewrite (tally_perm _ _ _ _ Et), tally_cons in Ho. case_decide; lia.
Qed.
