(* ===== verification/Acl.v ===== *)
(** * Access control: the module of the broker (src/qpid/acl/Acl.cpp)

    [Acl] holds the rules in force and the two counters.  Reading a file makes
    new rules and replaces the old ones at once; the limits of a user come from
    the rules in force when they are asked for.  Logging, management objects
    and their events are left out, and so is the lock: every operation takes
    one copy of the pointer to the rules. *)

From Stdlib Require Import Ascii String ZArith.
From stdpp Require Import strings gmap.
From S2P Require Import Prelude SelectorToken TopicKey TopicTree AclModule AclData AclReader AclMatch AclInvariant AclLoad AclMeaning.
From S2P Require AclCounters.
Local Open Scope nat_scope.

Module Counters := AclCounters.
Abbreviation ConnectionCounter := Counters.ConnectionCounter.
Abbreviation ResourceCounter := Counters.ResourceCounter.

(** ** State *)

Record AclValues := mkAclValues {
  aclFile : str;
  aclMaxConnectPerUser : Z;
  aclMaxConnectPerIp : Z;
  aclMaxConnectTotal : Z;
  aclMaxQueuesPerUser : Z
}.

Record Acl := mkAcl {
  aclValues : AclValues;
  acl_transferAcl : bool;
  data : AclData;
  connectionCounter : ConnectionCounter;
  resourceCounter : ResourceCounter;
  userRules : bool
}.

Definition set_connectionCounter (c : ConnectionCounter) (a : Acl) : Acl :=
  mkAcl (aclValues a) (acl_transferAcl a) (data a) c (resourceCounter a) (userRules a).
Definition set_resourceCounter (c : ResourceCounter) (a : Acl) : Acl :=
  mkAcl (aclValues a) (acl_transferAcl a) (data a) (connectionCounter a) c (userRules a).

Definition doTransferAcl (a : Acl) : bool := acl_transferAcl a.
Definition userAclRules (a : Acl) : bool := userRules a.

(** ** Decisions *)

(** an [AclResult] has no other value: the assertion of the default case is unreachable *)
Definition result (aclreslt : AclResult) : bool :=
  match aclreslt with ALLOWLOG | ALLOW => true | DENYLOG | DENY => false end.

Section acl.
Context {LC : LexicalCast}.

Definition authorise (id : str) (action : Action) (objType : ObjectType) (name : str) (params : option propertyMap) (a : Acl)
    : outcome bool :=
  aclreslt ← lookup (data a) id action objType name params;
  mret (result aclreslt).

Definition authorise_message (id : str) (action : Action) (objType : ObjectType) (exchangeName routingKey : str) (a : Acl)
    : outcome bool :=
  aclreslt ← lookupPublish (data a) id action objType exchangeName routingKey;
  mret (result aclreslt).

(** ** The rules in force *)

Definition set_aclSource (f : str) (d : AclData) : AclData :=
  mkAclData (actionList d) (decisionMode d) (transferAcl d) f (connQuotaRulesExist d) (connQuotaRuleSettings d)
    (queueQuotaRulesExist d) (queueQuotaRuleSettings d).

(** a new reader reads the file (its contents, [None] when it cannot be opened) into new data *)
Definition read_file (av : AclValues) (file : option str) : AclReader * outcome (Z * AclData) :=
  read (aclMaxConnectPerUser av) (aclMaxQueuesPerUser av) file new_AclData new_AclReader.

Definition readAclFile (file : option str) : M Acl bool :=
  a ← Prelude.get;
  '(code, d) ← lift_outcome (read_file (aclValues a) file).2;
  if negb (code =? 0)%Z then mret false
  else if negb (validate d) then throw Exception
  else
    _ ← modify (fun a => mkAcl (aclValues a) (transferAcl d) (set_aclSource (aclFile (aclValues a)) d)
                           (connectionCounter a) (resourceCounter a) true);
    mret true.

(** with no file, as if [ACL ALLOW ALL ALL] were the only rule *)
Definition loadEmptyAclRuleset (a : Acl) : Acl :=
  mkAcl (aclValues a) (acl_transferAcl a) (set_aclSource [] (set_decisionMode ALLOW new_AclData))
    (connectionCounter a) (resourceCounter a) (userRules a).

(** the constructor: the contents of the file are read when a file is named *)
Definition new_Acl (av : AclValues) (file : option str) : outcome Acl :=
  let a := mkAcl av false new_AclData
             (Counters.new_ConnectionCounter (aclMaxConnectPerUser av) (aclMaxConnectPerIp av) (aclMaxConnectTotal av))
             (Counters.new_ResourceCounter (aclMaxQueuesPerUser av)) false in
  if (getConnectMaxSpec <? aclMaxConnectPerUser av)%Z || (getConnectMaxSpec <? aclMaxConnectPerIp av)%Z
     || (getConnectMaxSpec <? aclMaxConnectTotal av)%Z || (getConnectMaxSpec <? aclMaxQueuesPerUser av)%Z
  then Throw Exception
  else match aclFile av with
       | [] => Ret (loadEmptyAclRuleset a)
       | _ => match readAclFile file a with
              | (a, Ret true) => Ret a
              | (_, Ret false) => Throw Exception
              | (_, Throw e) => Throw e
              end
       end.

(** ** Limits *)

Definition on_connections {A} (m : M ConnectionCounter A) : M Acl A := fun a =>
  let '(c, o) := m (connectionCounter a) in (set_connectionCounter c a, o).
Definition on_resources {A} (m : M ResourceCounter A) : M Acl A := fun a =>
  let '(c, o) := m (resourceCounter a) in (set_resourceCounter c a, o).

(** a connection, by its management id and its user *)
Definition approveConnection (mgmtId userName : str) : M Acl bool :=
  a ← Prelude.get;
  on_connections (Counters.approveConnection mgmtId userName (connQuotaRulesExist (data a))
                    (getConnQuotaForUser (data a) userName).2).

Definition approveCreateQueue (userId queueName : str) : M Acl bool :=
  a ← Prelude.get;
  on_resources (Counters.approveCreateQueue userId queueName (queueQuotaRulesExist (data a))
                  (getQueueQuotaForUser (data a) userId).2).

Definition recordDestroyQueue (queueName : str) : M Acl unit :=
  on_resources (Counters.recordDestroyQueue queueName).
End acl.
