(* ===== verification/AclSystem.v ===== *)
(** * Access control: what the module guarantees

    The decisions are those of the policy the file states ([acl_decides]);
    loading a file ends and puts all of its rules in force or none
    ([acl_load_safe]); over any sequence of connections, queues and reloads the
    counters are exact and the answers those of the limits in force
    ([acl_counts_exact]), so no user ever owns more queues than the quota
    ([acl_queue_quota_kept]); a quota line sets the quota of exactly the users it
    names, groups expanded ([quota_line_exact]). *)

From Stdlib Require Import Ascii String ZArith.
From stdpp Require Import strings gmap.
From S2P Require Import Prelude SelectorToken TopicKey TopicTree AclModule AclData AclReader AclMatch AclInvariant AclErrors AclLoad AclMeaning.
From S2P Require Import AclCounters Acl.
Local Open Scope nat_scope.

(** the rules of a file, in its order *)
Definition file_rules {LC : LexicalCast} (av : AclValues) (file : option str) : list aclRule := rules (read_file av file).1.

(** ** What loading can throw *)

Definition or_undefined {A} (o : outcome A) : Prop := match o with Ret _ => True | Throw e => e = UndefinedBehaviour end.

Lemma or_undefined_bind {A B} (o : outcome A) (f : A -> outcome B) :
  or_undefined o -> (forall a, o = Ret a -> or_undefined (f a)) -> or_undefined (o ≫= f).
Proof. destruct o as [a|e]; cbn; auto. Qed.

Lemma mark_subs_ends l flags : or_undefined (mark_subs l flags).
Proof.
  revert flags. induction l as [|[p v] l IH]; intros flags; cbn [mark_subs]; [done|].
  destruct (has_keyword v); [|done]. by destruct (_ <? _).
Qed.

Lemma make_rule_ends cnt i : StronglySorted spec_lt (ar_props i) -> or_undefined (make_rule cnt i).
Proof.
  intros Hs. apply or_undefined_bind; [apply mark_subs_ends|]. intros flags _.
  destruct (decide (Exists (fun e => e.1 = SPECPROP_ROUTINGKEY) (ar_props i))) as [Hex|Hno].
  - apply Exists_exists in Hex as ([p v] & Hv & E). cbn in E. subst p. by rewrite (mark_key_some _ v).
  - rewrite mark_key_none; [done|]. intros v Hv. apply Hno, Exists_exists. by exists (SPECPROP_ROUTINGKEY, v).
Qed.

Lemma load_rules_ends N rs : Forall (fun i => StronglySorted spec_lt (ar_props i)) rs -> forall st, or_undefined (load_rules N rs st).
Proof.
  induction 1 as [|i rs Hi _ IH]; intros st; cbn [load_rules]; [done|].
  apply or_undefined_bind; [|intros st' _; apply IH]. destruct st as [d fm]. unfold load_rule.
  destruct (negb fm && is_mode i); [done|]. apply or_undefined_bind; [by apply make_rule_ends|]. intros r _.
  apply or_undefined_bind; [|done]. unfold rule_users. by destruct (names i).
Qed.

Lemma loadDecisionData_ends s : reader_inv s -> or_undefined (loadDecisionData s new_AclData).
Proof.
  intros Hs. apply or_undefined_bind; [done|]. intros d _.
  apply or_undefined_bind; [|by intros [d' fm]]. apply load_rules_ends, Forall_rev.
  eapply Forall_impl; [apply (ri_rules s Hs)|]. by intros i [_ [? _]].
Qed.

Section reading.
Context {LC : LexicalCast}.

(** the reader before the first line *)
Lemma read_file_inv av file :
  reader_inv (read_file av file).1 /\ or_undefined (read_file av file).2 /\
  (forall code d, (read_file av file).2 = Ret (code, d) ->
     code = 0%Z /\ loadDecisionData (read_file av file).1 new_AclData = Ret d \/ code <> 0%Z).
Proof.
  unfold read_file, read. destruct file as [contents|].
  2: { split; [apply new_reader_inv|]. split; [done|]. intros code d [= <- <-]. by right. }
  assert (Hmod : forall f s (B : Type) (k : unit -> M AclReader B), (modify f ≫= k) s = k tt (f s)) by done.
  rewrite !Hmod. set (s2 := if (0 <? aclMaxQueuesPerUser av)%Z then _ else _).
  assert (Hs2 : reader_inv s2).
  { unfold s2. destruct (0 <? aclMaxQueuesPerUser av)%Z; [apply queueQuota_inv|];
      (destruct (0 <? aclMaxConnectPerUser av)%Z; [apply connQuota_inv|]; apply new_reader_inv). }
  assert (Hk := read_lines_keeps (read_fuel contents) contents false s2 Hs2).
  assert (Ht := read_lines_settles (read_fuel contents) contents false ltac:(unfold read_fuel; lia) s2 Hs2).
  destruct (read_lines _ _ _ s2) as [s [[eof e]|ex]] eqn:Er; cbn [fst snd] in Hk, Ht.
  2: { rewrite (bind_Throw _ _ _ _ _ Er). by split_and!. }
  rewrite (bind_Ret _ _ _ _ _ Er). cbn beta iota. destruct (negb eof); [split_and!; [done|done|]; intros ? ? [= <- <-]; by right|].
  destruct e; [split_and!; [done|done|]; intros ? ? [= <- <-]; by right|].
  rewrite (bind_Ret _ _ _ s s) by done.
  assert (Hl := loadDecisionData_ends s Hk).
  destruct (loadDecisionData s new_AclData) as [d|ex] eqn:El; unfold mbind, M_bind, lift_outcome; cbn beta iota.
  - cbn [fst snd mret M_ret]. split_and!; [done|done|]. intros code d' [= <- <-]. by left.
  - by split_and!.
Qed.

(** what [readAclFile] does *)
Lemma readAclFile_cases file a :
  match readAclFile file a with
  | (a', Ret true) => exists d, (read_file (aclValues a) file).2 = Ret (0%Z, d) /\ validate d = true /\
      loadDecisionData (read_file (aclValues a) file).1 new_AclData = Ret d /\
      a' = mkAcl (aclValues a) (transferAcl d) (set_aclSource (aclFile (aclValues a)) d) (connectionCounter a) (resourceCounter a) true
  | (a', Ret false) => a' = a
  | (a', Throw e) => a' = a /\ (e = Exception \/ e = UndefinedBehaviour)
  end.
Proof.
  destruct (read_file_inv (aclValues a) file) as (_ & Hu & Hc).
  unfold readAclFile. rewrite (bind_Ret _ _ _ a a) by done. unfold mbind, M_bind, lift_outcome.
  destruct (read_file (aclValues a) file).2 as [[code d]|e]; [|split; [done|by right]].
  specialize (Hc code d eq_refl). destruct (Z.eqb_spec code 0) as [->|Hne]; cbn [negb]; [|done].
  destruct Hc as [[_ Hl]|]; [|done]. destruct (validate d) eqn:Hv; cbn; [|by split; [|left]]. exists d. by split_and!.
Qed.

(** it returns what the reader makes of the file *)
Lemma readAclFile_accepted file a a' b :
  readAclFile file a = (a', Ret b) -> accepted file (read_file (aclValues a) file).1 = b.
Proof.
  unfold readAclFile. rewrite (bind_Ret _ _ _ a a) by done.
  assert (Ho := read_outcome (aclMaxConnectPerUser (aclValues a)) (aclMaxQueuesPerUser (aclValues a)) file new_AclData).
  unfold read_file, mbind, M_bind, lift_outcome. destruct (read _ _ _ _ _) as [s [[code d]|e]]; cbn [fst snd]; [|done].
  rewrite <- Ho. destruct (code =? 0)%Z; cbn [negb]; [|by intros [= <-]]. by destruct (validate d); intros [=].
Qed.
End reading.

(** ** Transfers *)

Lemma load_actions_transfer i objs us acts d r :
  transferAcl (fold_left (load_action i objs us) acts (d, r)).1 = transferAcl d || bool_decide (ACT_PUBLISH ∈ acts).
Proof.
  revert d r. induction acts as [|a acts IH]; intros d r; cbn [fold_left]; [by rewrite orb_false_r|].
  unfold load_action at 2. rewrite IH. cbn [set_actionList transferAcl]. destruct (decide (a = ACT_PUBLISH)) as [->|Hne].
  - cbn. rewrite bool_decide_eq_true_2 by (by left). by rewrite orb_true_r.
  - f_equal. apply bool_decide_ext. set_solver.
Qed.

Lemma load_rules_transfer N rs d fm d' fm' : load_rules N rs (d, fm) = Ret (d', fm') ->
  transferAcl d' = true <-> transferAcl d = true \/ exists i, i ∈ to_load fm rs /\ about_action ACT_PUBLISH i.
Proof.
  revert d fm. induction rs as [|i rs IH]; intros d fm; cbn [load_rules].
  { intros [= <- <-]. destruct fm; cbn; set_solver. }
  intros ([d1 fm1] & Hr & Hrs)%obind_Ret. apply IH in Hrs as ->. clear IH. unfold load_rule in Hr. rewrite is_mode_for_all in Hr.
  destruct (negb fm && for_all i) eqn:Eb.
  - apply andb_true_iff in Eb as [->%negb_true_iff Em]. injection Hr as <- <-. cbn [to_load drop_mode]. by rewrite Em.
  - apply obind_Ret in Hr as (r & _ & (us & _ & [= <- <-])%obind_Ret). rewrite load_actions_transfer, orb_true_iff, bool_decide_eq_true, elem_rule_actions.
    assert (Hto : to_load fm (i :: rs) = i :: to_load fm rs).
    { destruct fm; [done|]. cbn [to_load drop_mode]. cbn in Eb. by rewrite Eb. }
    rewrite Hto. set_solver.
Qed.

Lemma loaded_transfer s d : loadDecisionData s new_AclData = Ret d ->
  transferAcl d = true <-> exists i, i ∈ policy (rules s) /\ about_action ACT_PUBLISH i.
Proof.
  intros (d0 & [= <-] & ([d1 fm] & Hl & [= <-])%obind_Ret)%obind_Ret. cbn. apply load_rules_transfer in Hl as ->. cbn.
  unfold policy. setoid_rewrite elem_rev. split; [intros [|]; done|by right].
Qed.

(** ** The module in use *)

Inductive acl_event :=
| Connect (mgmtId : str)
| Open (mgmtId userName : str)
| Close (mgmtId userId : str)
| NewQueue (userId queueName : str)
| EndQueue (queueName : str)
| Reload (file : option str).

Section runs.
Context {LC : LexicalCast}.

(** the calls of the broker; its management agent reports an exception of a reload *)
Definition acl_step (ev : acl_event) : M Acl (list bool) :=
  match ev with
  | Connect id => _ ← on_connections (connection id); mret []
  | Open id user => b ← approveConnection id user; mret [b]
  | Close id user => _ ← on_connections (closed id user); mret []
  | NewQueue user queue => b ← approveCreateQueue user queue; mret [b]
  | EndQueue queue => _ ← recordDestroyQueue queue; mret []
  | Reload file => fun a => match readAclFile file a with
                            | (a', Ret b) => (a', Ret [b])
                            | (a', Throw Exception) => (a', Ret [false])
                            | (a', Throw e) => (a', Throw e)
                            end
  end.

Fixpoint acl_run (evs : list acl_event) : M Acl (list bool) :=
  match evs with
  | [] => mret []
  | ev :: evs' => x ← acl_step ev; y ← acl_run evs'; mret (x ++ y)
  end.

(** the specification: the rules in force, the connections and the queues that exist *)
Record world := mkWorld { w_data : AclData; w_live : list conn; w_owners : list owned }.

(** the rules a file puts in force: [Some None] when it is refused, [None] when reading it is undefined *)
Definition rules_of_file (av : AclValues) (file : option str) : option (option AclData) :=
  match (read_file av file).2 with
  | Ret (code, d) => Some (if (code =? 0)%Z && validate d then Some (set_aclSource (aclFile av) d) else None)
  | Throw _ => None
  end.

Definition world_step (av : AclValues) (w : world) (ev : acl_event) : option (world * list bool) :=
  let conns e := '(live, x) ← conn_step (aclMaxConnectPerIp av) (aclMaxConnectTotal av) (w_live w) e;
                 Some (mkWorld (w_data w) live (w_owners w), x) in
  let queues e := '(owners, x) ← queue_step (w_owners w) e; Some (mkWorld (w_data w) (w_live w) owners, x) in
  match ev with
  | Connect id => conns (Created id)
  | Open id user => conns (Approve id user (connQuotaRulesExist (w_data w)) (getConnQuotaForUser (w_data w) user).2)
  | Close id user => conns (Closed id user)
  | NewQueue user queue =>
      queues (CreateQueue user queue (queueQuotaRulesExist (w_data w)) (getQueueQuotaForUser (w_data w) user).2)
  | EndQueue queue => queues (DestroyQueue queue)
  | Reload file =>
      r ← rules_of_file av file;
      Some (match r with Some d => (mkWorld d (w_live w) (w_owners w), [true]) | None => (w, [false]) end)
  end.

Fixpoint world_run (av : AclValues) (w : world) (evs : list acl_event) : option (world * list bool) :=
  match evs with
  | [] => Some (w, [])
  | ev :: evs' => '(w, x) ← world_step av w ev; '(w, y) ← world_run av w evs'; Some (w, x ++ y)
  end.

(** the module agrees with the world *)
Record in_step (av : AclValues) (w : world) (a : Acl) : Prop := {
  is_values : aclValues a = av;
  is_data : data a = w_data w;
  is_conns : agree (aclMaxConnectPerIp av) (aclMaxConnectTotal av) (w_live w) (connectionCounter a);
  is_queues : queues_agree (w_owners w) (resourceCounter a)
}.

Lemma new_Acl_in_step av file a : new_Acl av file = Ret a -> in_step av (mkWorld (data a) [] []) a.
Proof.
  unfold new_Acl. destruct (_ || _); [done|]. set (a0 := mkAcl _ _ _ _ _ _).
  assert (H0 : in_step av (mkWorld (data a0) [] []) a0) by (constructor; [done|done|apply new_agree|apply new_queues_agree]).
  destruct (aclFile av); [intros [= <-]; destruct H0; by constructor|].
  assert (Hc := readAclFile_cases file a0). destruct (readAclFile file a0) as [a' [[]|]]; [|done..]. intros [= <-].
  destruct Hc as (d & _ & _ & _ & ->). destruct H0. by constructor.
Qed.

Lemma conn_in_step av w a e live x :
  in_step av w a -> conn_step (aclMaxConnectPerIp av) (aclMaxConnectTotal av) (w_live w) e = Some (live, x) ->
  exists a', on_connections (counter_step e) a = (a', Ret x) /\ in_step av (mkWorld (w_data w) live (w_owners w)) a'.
Proof.
  intros [] Hc. destruct (step_agree _ _ _ _ _ _ _ is_conns0 Hc) as (c & Hs & Ha).
  exists (set_connectionCounter c a). unfold on_connections. rewrite Hs. split; [done|]. by constructor.
Qed.

Lemma queue_in_step av w a e owners x :
  in_step av w a -> queue_step (w_owners w) e = Some (owners, x) ->
  exists a', on_resources (resource_step e) a = (a', Ret x) /\ in_step av (mkWorld (w_data w) (w_live w) owners) a'.
Proof.
  intros [] Hc. destruct (queue_step_agree _ _ _ _ _ is_queues0 Hc) as (c & Hs & Ha).
  exists (set_resourceCounter c a). unfold on_resources. rewrite Hs. split; [done|]. by constructor.
Qed.

Lemma reload_in_step av w a file r :
  in_step av w a -> rules_of_file av file = Some r ->
  exists a', acl_step (Reload file) a = (a', Ret [match r with Some _ => true | None => false end]) /\
    in_step av (match r with Some d => mkWorld d (w_live w) (w_owners w) | None => w end) a'.
Proof.
  intros Hi Hr. destruct Hi. cbn [acl_step]. unfold readAclFile. rewrite (bind_Ret _ _ _ a a) by done.
  rewrite is_values0. unfold rules_of_file in Hr. unfold mbind, M_bind, lift_outcome.
  destruct (read_file av file).2 as [[code d]|e]; [|done]. injection Hr as <-.
  destruct (code =? 0)%Z; cbn [negb andb]; [|exists a; split; [done|by constructor]].
  destruct (validate d); cbn [negb]; [|exists a; split; [done|by constructor]].
  eexists. split; [done|]. rewrite is_values0. by constructor.
Qed.

(** the counter's step, on the module *)
Lemma on_connections_bind {A B} (m : M ConnectionCounter A) (k : A -> B) a :
  (x ← on_connections m; mret (k x)) a = on_connections (x ← m; mret (k x)) a.
Proof. unfold on_connections, mbind, M_bind. by destruct (m (connectionCounter a)) as [c [x|e]]. Qed.
Lemma on_resources_bind {A B} (m : M ResourceCounter A) (k : A -> B) a :
  (x ← on_resources m; mret (k x)) a = on_resources (x ← m; mret (k x)) a.
Proof. unfold on_resources, mbind, M_bind. by destruct (m (resourceCounter a)) as [c [x|e]]. Qed.

Lemma world_in_step av w a ev w' x :
  in_step av w a -> world_step av w ev = Some (w', x) ->
  exists a', acl_step ev a = (a', Ret x) /\ in_step av w' a'.
Proof.
  intros Hi. assert (Hd := is_data _ _ _ Hi).
  destruct ev as [id|id user|id user|user queue|queue|file]; cbn [world_step].
  1-3: intros ([live y] & Hc & [= <- <-])%bind_Some; destruct (conn_in_step av w a _ _ _ Hi Hc) as (a' & Hs & Ha); exists a'; (split; [|done]).
  - cbn [acl_step counter_step] in *. by rewrite (on_connections_bind (connection id) (fun _ => [])).
  - cbn [acl_step counter_step] in *. unfold approveConnection. rewrite <- Hs, <- Hd, <- (on_connections_bind _ (fun b => [b])). done.
  - cbn [acl_step counter_step] in *. by rewrite (on_connections_bind (closed id user) (fun _ => [])).
  - intros ([owners y] & Hc & [= <- <-])%bind_Some. destruct (queue_in_step av w a _ _ _ Hi Hc) as (a' & Hs & Ha). exists a'. split; [|done].
    cbn [acl_step resource_step] in *. unfold approveCreateQueue. rewrite <- Hs, <- Hd, <- (on_resources_bind _ (fun b => [b])). done.
  - intros ([owners y] & Hc & [= <- <-])%bind_Some. destruct (queue_in_step av w a _ _ _ Hi Hc) as (a' & Hs & Ha). exists a'. split; [|done].
    cbn [acl_step resource_step] in *. unfold recordDestroyQueue. by rewrite (on_resources_bind (AclCounters.recordDestroyQueue queue) (fun _ => [])).
  - intros (r & Hr & Hw)%bind_Some. destruct (reload_in_step av w a file r Hi Hr) as (a' & Hs & Ha). exists a'.
    destruct r; injection Hw as <- <-; (split; [exact Hs|exact Ha]).
Qed.

Lemma world_runs av evs : forall w a w' x,
  in_step av w a -> world_run av w evs = Some (w', x) ->
  exists a', acl_run evs a = (a', Ret x) /\ in_step av w' a'.
Proof.
  induction evs as [|ev evs IH]; intros w a w' x Hi; cbn [world_run acl_run]; [intros [= <- <-]; by exists a|].
  intros ([w1 x1] & H1 & ([w2 x2] & H2 & [= <- <-])%bind_Some)%bind_Some.
  destruct (world_in_step av w a ev w1 x1 Hi H1) as (a1 & E1 & Hi1). destruct (IH w1 a1 w2 x2 Hi1 H2) as (a2 & E2 & Hi2).
  exists a2. split; [|done]. rewrite (bind_Ret _ _ _ _ _ E1). by rewrite (bind_Ret _ _ _ _ _ E2).
Qed.
End runs.

Lemma result_permits r : result r = permits r.
Proof. by destruct r. Qed.

(** ** What the module guarantees *)

Section guarantees.
Context {LC : LexicalCast}.




(** no reload *)
Definition steady (ev : acl_event) : Prop := match ev with Reload _ => False | _ => True end.

Lemma quota_world av d evs : Forall steady evs -> queueQuotaRulesExist d = true ->
  let quota u := (getQueueQuotaForUser d u).2 in
  forall w w' x, w_data w = d -> world_run av w evs = Some (w', x) ->
  (forall u, tally queue_owner u (w_owners w) <= Z.max 0 (quota u))%Z ->
  (forall u, tally queue_owner u (w_owners w') <= Z.max 0 (quota u))%Z.
Proof.
  intros Hevs Hq quota. induction Hevs as [|ev evs Hev _ IH]; intros w w' x Hd; cbn [world_run]; [by intros [= <- <-]|].
  intros ([w1 x1] & H1 & ([w2 x2] & H2 & [= <- <-])%bind_Some)%bind_Some Ht.
  assert (Hstep : w_data w1 = d /\ (w_owners w1 = w_owners w \/
            exists e y, enforced quota e /\ queue_step (w_owners w) e = Some (w_owners w1, y))).
  { destruct ev as [id|id user|id user|user queue|queue|f]; cbn [world_step] in H1; [..|done].
    all: apply bind_Some in H1 as ([l y] & Hs & [= <- <-]); split; [done|]; cbn [w_owners]; try by left.
    all: right; eexists _, y; (split; [|exact Hs]); cbn; by rewrite ?Hd. }
  destruct Hstep as (Hd1 & [Eo|(e & y & He & Hs)]); apply (IH w1 w2 x2 Hd1 H2); [by rewrite Eo|].
  assert (Hrun : queue_run (w_owners w) [e] = Some (w_owners w1, y)) by (cbn [queue_run]; rewrite Hs; cbn; by rewrite app_nil_r).
  exact (queue_quota_kept quota [e] ltac:(by constructor) _ _ _ Ht Hrun).
Qed.


(** *** Without a file *)

Lemma free_queues av user queues : forall w,
  queueQuotaRulesExist (w_data w) = false -> NoDup (queues ++ map fst (w_owners w)) ->
  (Z.of_nat (length queues + length (w_owners w)) < 2 ^ 16)%Z ->
  exists w', world_run av w (map (NewQueue user) queues) = Some (w', replicate (length queues) true).
Proof.
  induction queues as [|q queues IH]; intros w Hq Hnd Hlen; [by exists w|].
  cbn [app] in Hnd. apply NoDup_cons in Hnd as [Hq1 Hnd]. cbn [length] in Hlen.
  cbn [map world_run world_step queue_step]. rewrite Hq. cbn [negb orb].
  rewrite decide_False by set_solver. rewrite (proj2 (Z.ltb_lt _ _)) by lia. cbn [mbind option_bind].
  destruct (IH (mkWorld (w_data w) (w_live w) ((q, user) :: w_owners w)) Hq) as (w' & ->); cbn [w_owners map fst length].
  - apply (NoDup_Permutation_proper _ ((q :: queues) ++ map fst (w_owners w))); [by rewrite <- Permutation_middle|].
    by constructor.
  - lia.
  - by exists w'.
Qed.

Lemma free_connections av user ids : aclMaxConnectPerIp av = 0%Z -> aclMaxConnectTotal av = 0%Z -> forall w,
  connQuotaRulesExist (w_data w) = false -> NoDup (ids ++ map fst (w_live w)) ->
  (Z.of_nat (length ids + length (w_live w)) < 2 ^ 16)%Z ->
  exists w', world_run av w (flat_map (fun id => [Connect id; Open id user]) ids) = Some (w', replicate (length ids) true).
Proof.
  intros Hip Htot. induction ids as [|id ids IH]; intros w Hq Hnd Hlen; [by exists w|].
  cbn [app] in Hnd. apply NoDup_cons in Hnd as [Hi Hnd]. cbn [length] in Hlen.
  cbn [flat_map app world_run world_step conn_step].
  rewrite decide_False by set_solver. rewrite (proj2 (Z.ltb_lt _ _)) by lia. cbn [mbind option_bind w_data w_live take_conn fst snd].
  rewrite decide_True by done. cbn [mbind option_bind]. rewrite Hq, Hip, Htot. cbn [w_owners].
  destruct (IH (mkWorld (w_data w) ((id, Some user) :: w_live w) (w_owners w)) Hq) as (w' & ->); cbn [w_live map fst length].
  - apply (NoDup_Permutation_proper _ ((id :: ids) ++ map fst (w_live w))); [by rewrite <- Permutation_middle|].
    by constructor.
  - lia.
  - by exists w'.
Qed.

(** C40: without a policy file the limits of a user are not enforced.  The
    broker that is started with limits on the connections and the queues of a
    user ([--connection-limit-per-user], [--max-queues-per-user]) and without a
    policy file approves every queue and, with no limit on the host or in all,
    every connection of one user, whatever those limits are: the module installs
    rules without quotas and takes the limits of the options only when it reads
    a file. *)
Theorem limits_need_a_file av file :
  aclFile av = [] ->
  (forall n, n ∈ [aclMaxConnectPerUser av; aclMaxConnectPerIp av; aclMaxConnectTotal av; aclMaxQueuesPerUser av] ->
             n <= getConnectMaxSpec)%Z ->
  exists a, new_Acl av file = Ret a /\
  (forall user queues, NoDup queues -> (Z.of_nat (length queues) < 2 ^ 16)%Z ->
     exists a', acl_run (map (NewQueue user) queues) a = (a', Ret (replicate (length queues) true))) /\
  (forall user ids, aclMaxConnectPerIp av = 0%Z -> aclMaxConnectTotal av = 0%Z ->
     NoDup ids -> (Z.of_nat (length ids) < 2 ^ 16)%Z ->
     exists a', acl_run (flat_map (fun id => [Connect id; Open id user]) ids) a = (a', Ret (replicate (length ids) true))).
Proof.
  intros Hf Hlim.
  assert (Hn : exists a, new_Acl av file = Ret a /\ queueQuotaRulesExist (data a) = false /\ connQuotaRulesExist (data a) = false).
  { unfold new_Acl. rewrite !(proj2 (Z.ltb_ge _ _)) by (apply Hlim; set_solver). rewrite Hf. by eexists. }
  destruct Hn as (a & Hn & Hq & Hc). exists a. split; [done|]. pose proof (new_Acl_in_step av file a Hn) as Hi. split.
  - intros user queues Hnd Hlen. destruct (free_queues av user queues (mkWorld (data a) [] []) Hq) as (w' & Hw);
      cbn [w_owners map length]; [by rewrite app_nil_r|lia|].
    destruct (world_runs av _ _ _ _ _ Hi Hw) as (a' & Hr & _). by exists a'.
  - intros user ids Hip Htot Hnd Hlen. destruct (free_connections av user ids Hip Htot (mkWorld (data a) [] []) Hc) as (w' & Hw);
      cbn [w_live map length]; [by rewrite app_nil_r|lia|].
    destruct (world_runs av _ _ _ _ _ Hi Hw) as (a' & Hr & _). by exists a'.
Qed.

(** ** Lines of a file *)

(** C30: a quota line.  A line [quota connections N name...] with a number up
    to 65530 sets the limit [N] for exactly the users named, a group standing
    for its members, and turns the checking of connection quotas on; the limits
    of all other users, of queues, the groups and the rules stay; and likewise
    for queues.  A number that does not fit or is too large, a kind of quota
    that is not known and a line too short are errors that leave the quotas. *)
Theorem quota_line_exact toks s :
  reader_inv s ->
  let kind := default [] (toks !! 1) in
  let users := flat_map (expand (groups s)) (drop 3 toks) in
  let number := n ← lex_u16 (default [] (toks !! 2)); guard (n <= getConnectMaxSpec)%Z;; Some n in
  let ok := (2 <? length toks) && bool_decide (kind = ACL_KEYWORD_QUOTA_CONNECTIONS \/ kind = ACL_KEYWORD_QUOTA_QUEUES)
            && bool_decide (is_Some number) in
  let '(s', o) := processQuotaLine toks s in
  o = Ret ok /\ groups s' = groups s /\ rules s' = rules s /\ rd_names s' = rd_names s /\
  (forall u, map_find u (connQuota s') =
     if ok && bool_decide (kind = ACL_KEYWORD_QUOTA_CONNECTIONS) && bool_decide (u ∈ users) then number
     else map_find u (connQuota s)) /\
  (forall u, map_find u (queueQuota s') =
     if ok && bool_decide (kind = ACL_KEYWORD_QUOTA_QUEUES) && bool_decide (u ∈ users) then number
     else map_find u (queueQuota s)) /\
  rd_connRulesExist s' = rd_connRulesExist s || ok && bool_decide (kind = ACL_KEYWORD_QUOTA_CONNECTIONS) /\
  rd_queueRulesExist s' = rd_queueRulesExist s || ok && bool_decide (kind = ACL_KEYWORD_QUOTA_QUEUES).
Proof.
  intros Hs. cbv zeta. set (kind := default [] (toks !! 1)). set (users := flat_map _ _).
  unfold processQuotaLine. destruct (Nat.ltb_spec (length toks) 3) as [Hlen|Hlen].
  { rewrite (proj2 (Nat.ltb_ge 2 _)) by lia. cbn. by rewrite !orb_false_r. }
  rewrite (proj2 (Nat.ltb_lt 2 _)) by lia. cbn [andb]. fold kind.
  assert (Hflat := reader_flat s Hs).
  destruct (decide (kind = ACL_KEYWORD_QUOTA_CONNECTIONS)) as [Ek|Hk]; [|destruct (decide (kind = ACL_KEYWORD_QUOTA_QUEUES)) as [Ek|Hk2]].
  3: { rewrite (bool_decide_eq_false_2 (_ \/ _)) by tauto. cbn. by rewrite !orb_false_r. }
  all: rewrite (bool_decide_eq_true_2 (_ \/ _)) by tauto; cbn [andb].
  all: unfold processQuotaLine4; destruct (lex_u16 _) as [n|]; cbn [mbind option_bind].
  2,4: cbn; by rewrite !orb_false_r.
  all: destruct (Z.ltb_spec getConnectMaxSpec n) as [Hn|Hn].
  1,3: rewrite option_guard_False by lia; cbn; by rewrite !orb_false_r.
  all: rewrite option_guard_True by lia; rewrite (bool_decide_eq_true_2 (is_Some _)) by done.
  all: unfold mbind, M_bind, on_quota; cbn [Prelude.get]; rewrite apply_quota_eq by done; cbn.
  all: split_and!; try done; rewrite ?Ek, ?orb_true_r, ?orb_false_r; try done.
  all: intros u; rewrite ?(bool_decide_eq_true_2 (_ = _)) by done; rewrite ?give_find; cbn.
  all: repeat case_decide; try done; try (by rewrite bool_decide_eq_true_2); try (by rewrite bool_decide_eq_false_2).
Qed.
End guarantees.

(** one more name for the group [g] *)
Lemma addName_find t g s gs : map_find g (groups s) = Some gs ->
  exists s', addName t g s = (s', Ret tt) /\ groupName s' = groupName s /\ rules s' = rules s /\
    connQuota s' = connQuota s /\ queueQuota s' = queueQuota s /\
    (exists ms, map_find g (groups s') = Some ms /\ forall u, u ∈ ms <-> u ∈ gs \/ u ∈ expand (groups s) t) /\
    (forall h, h <> g -> map_find h (groups s') = map_find h (groups s)).
Proof.
  intros Hg. unfold addName, expand. rewrite (bind_Ret _ _ _ s s) by done. rewrite Hg.
  destruct (map_find t (groups s)) as [members|]; (eexists; split; [done|]); cbn; (do 4 (split; [done|])).
  - split; [|intros h Hh; by apply map_find_insert_ne].
    eexists. split; [by apply map_find_insert|]. intros u. rewrite elem_set_insert_all. tauto.
  - split; [|intros h Hh; by apply map_find_insert_ne].
    eexists. split; [by apply map_find_insert|]. intros u. rewrite elem_set_insert. set_solver.
Qed.

(** a user name the reader accepts *)
Definition good_user (name : str) : bool :=
  match str_find DOMAIN_SEPARATOR name 0 with
  | Some pos => negb (pos =? length name - 1)
      && forallb (fun ch => isalnum ch || isc ch "-" || isc ch "_" || isc ch "@" || isc ch "." || isc ch "/") name
  | None => false
  end.

Lemma isValidUserName_good t s : exists s', isValidUserName t s = (s', Ret (good_user t)) /\ groups s' = groups s /\
  rules s' = rules s /\ connQuota s' = connQuota s /\ queueQuota s' = queueQuota s /\ (good_user t = true -> s' = s).
Proof.
  unfold isValidUserName, good_user. destruct (str_find DOMAIN_SEPARATOR t 0) as [pos|]; [|by eexists].
  destruct (pos =? length t - 1); [by eexists|]. cbn [negb andb]. destruct (forallb _ t); by eexists.
Qed.

(** a name that may stand in a line of the group [g]: the group itself, a group defined before, a user *)
Definition member_ok (gm : groupMap) (g t : str) : bool :=
  if isValidGroupName t then bool_decide (t = g) || bool_decide (is_Some (map_find t gm)) else good_user t.

Lemma members_ok_ext gm gm' g toks : (forall h, h <> g -> map_find h gm' = map_find h gm) ->
  forallb (member_ok gm' g) toks = forallb (member_ok gm g) toks.
Proof.
  intros H. induction toks as [|x toks IH]; [done|]. cbn [forallb]. rewrite IH. f_equal. unfold member_ok.
  destruct (isValidGroupName x); [|done]. destruct (decide (x = g)) as [->|Hx]; [by rewrite !(bool_decide_eq_true_2 (g = g))|].
  by rewrite H.
Qed.

(** [r]: the members [toks] are added to those the group [g] has, [gs], if all of them may stand there *)
Definition members_added (g : str) (toks gs : list str) (s : AclReader) (r : AclReader * outcome bool) : Prop :=
  let ok := forallb (member_ok (groups s) g) toks in
  r.2 = Ret ok /\
  rules r.1 = rules s /\ connQuota r.1 = connQuota s /\ queueQuota r.1 = queueQuota s /\
  (forall h, h <> g -> map_find h (groups r.1) = map_find h (groups s)) /\
  (ok = true -> exists ms, map_find g (groups r.1) = Some ms /\
     forall u, u ∈ ms <-> u ∈ gs \/ exists t, t ∈ toks /\ t <> g /\ u ∈ expand (groups s) t).

(** a user or another group, then the rest *)
Lemma member_then g t toks s gs :
  (forall s1 gs1, map_find g (groups s1) = Some gs1 -> groupName s1 = g -> members_added g toks gs1 s1 (add_members toks g s1)) ->
  map_find g (groups s) = Some gs -> groupName s = g -> t <> g -> member_ok (groups s) g t = true ->
  members_added g (t :: toks) gs s ((_ ← addName t g; add_members toks g) s).
Proof.
  intros IH Hg Hn Htg Hok. destruct (addName_find t g s gs Hg) as (s1 & E1 & Hn1 & Hr1 & Hc1 & Hq1 & (ms1 & Hg1 & Hms1) & Ho1).
  rewrite (bind_Ret _ _ _ _ _ E1). specialize (IH s1 ms1 Hg1 ltac:(by rewrite Hn1)).
  unfold members_added in *. cbn [forallb]. rewrite Hok. cbn [andb]. rewrite (members_ok_ext _ _ _ _ Ho1) in IH.
  destruct (add_members toks g s1) as [s2 o]. cbn [fst snd] in *. destruct IH as (-> & Hr2 & Hc2 & Hq2 & Ho2 & Hm2).
  do 4 (split; [congruence|]). split; [intros h Hh; by rewrite Ho2, Ho1|]. intros (ms2 & Hg2 & Hms2)%Hm2.
  exists ms2. split; [done|]. intros u. rewrite Hms2, Hms1.
  assert (Hex : forall x, x <> g -> expand (groups s1) x = expand (groups s) x) by (intros x Hx; unfold expand; by rewrite Ho1).
  split.
  - intros [[Hu|Hu]|(x & Hx & Hxg & Hu)]; [by left|right; exists t; split; [by left|done]|].
    right. exists x. rewrite Hex in Hu by done. split; [by right|done].
  - intros [Hu|(x & [->|Hx]%elem_of_cons & Hxg & Hu)]; [by left; left|by left; right|].
    right. exists x. rewrite Hex by done. done.
Qed.

Lemma add_members_exact g toks : isValidGroupName g = true -> forall s gs,
  map_find g (groups s) = Some gs -> groupName s = g -> members_added g toks gs s (add_members toks g s).
Proof.
  intros Hv. induction toks as [|t toks IH]; intros s gs Hg Hn; cbn [add_members].
  { split_and!; try done. intros _. exists gs. split; [done|]. set_solver. }
  assert (Hno : forall s', member_ok (groups s) g t = false -> groups s' = groups s -> rules s' = rules s ->
                  connQuota s' = connQuota s -> queueQuota s' = queueQuota s -> members_added g (t :: toks) gs s (s', Ret false)).
  { intros s' Hok Eg Er Ec Eq. unfold members_added. cbn [fst snd forallb]. rewrite Hok. split_and!; try done. by rewrite Eg. }
  rewrite (bind_Ret _ _ _ s s) by done. destruct (isValidGroupName t) eqn:Ht.
  - case_decide as Hgn.
    + subst t. specialize (IH s gs Hg Hn). unfold members_added in *. cbn [forallb].
      assert (Hok : member_ok (groups s) g (groupName s) = true) by (unfold member_ok; by rewrite Ht, bool_decide_eq_true_2).
      rewrite Hok. cbn [andb]. destruct IH as (? & ? & ? & ? & ? & Hm). split_and!; try done.
      intros (ms & Hms & Hu)%Hm. exists ms. split; [done|]. intros u. rewrite Hu. set_solver.
    + destruct (map_find t (groups s)) eqn:Em.
      * apply member_then; try done; [congruence|]. unfold member_ok. rewrite Ht, Em. apply orb_true_r.
      * apply Hno; try done. unfold member_ok. rewrite Ht, Em, bool_decide_eq_false_2 by congruence. done.
  - destruct (isValidUserName_good t s) as (s' & E & Hgs & Hrs & Hcs & Hqs & Hs). rewrite (bind_Ret _ _ _ _ _ E).
    assert (Hok : member_ok (groups s) g t = good_user t) by (unfold member_ok; by rewrite Ht).
    destruct (good_user t); [rewrite (Hs eq_refl); apply member_then; try done; congruence|]. by apply Hno.
Qed.


(** *** A creation that fails after its approval *)

(** [Broker::createQueue] asks for approval before it looks for the alternate
    exchange: each attempt that then fails is counted, and deleting the queue
    takes one off *)
Lemma failed_creation_counted s user queue n :
  queuePerUserMap s !! user = Some n -> (0 < n < 2 ^ 16 - 2)%Z ->
  let '(s', o) := (_ ← AclCounters.approveCreateQueue user queue false 0;
                   _ ← AclCounters.approveCreateQueue user queue false 0;
                   AclCounters.recordDestroyQueue queue) s in
  o = Ret tt /\ queuePerUserMap s' !! user = Some (n + 1)%Z /\ queueOwnerMap s' !! queue = None.
Proof.
  intros Hn Hr. assert (Hw : forall k, (0 <= k < 2 ^ 16)%Z -> u16 k = k) by (intros k Hk; by apply uwrap_small).
  unfold AclCounters.approveCreateQueue, AclCounters.recordDestroyQueue, limitApproveQueueLH, mbind, M_bind, modify, lift_outcome.
  assert (H0 : u16 n = n) by (apply Hw; lia). assert (H1 : u16 (n + 1) = (n + 1)%Z) by (apply Hw; lia).
  assert (H2 : u16 (n + 1 + 1) = (n + 1 + 1)%Z) by (apply Hw; lia).
  cbn. rewrite Hn. cbn. rewrite H0, H1, lookup_insert_eq. cbn. rewrite H1, H2, lookup_insert_eq.
  unfold releaseLH. rewrite lookup_insert_eq, H2.
  rewrite (proj2 (Z.ltb_lt 0 _)) by lia. cbn [negb]. rewrite (proj2 (Z.eqb_neq 1 _)) by lia. cbn.
  rewrite lookup_insert_eq, lookup_delete_eq. split_and!; [done| |done]. f_equal. lia.
Qed.

(** a rule without names stops the loading: nothing answers for it *)
Lemma nameless_rule_undefined s i :
  reader_inv s -> i ∈ policy (rules s) -> names i = [] -> loadDecisionData s new_AclData = Throw UndefinedBehaviour.
Proof.
  intros Hs Hi Hn. assert (He := loadDecisionData_ends s Hs).
  destruct (loadDecisionData s new_AclData) as [d|e] eqn:E; [|cbn in He; by subst].
  destruct (loaded_effective s d Hs E) as (_ & _ & Hne & _). by destruct (Hne i Hi).
Qed.
