(* ===== verification/AclRuns.v ===== *)
(** * Access control: a policy file

    A file with a group, quotas and rules, read and used: the theorems of
    [AclSystem] at concrete inputs, with the decimal numbers for
    [boost::lexical_cast]. *)

From Stdlib Require Import Ascii String ZArith.
From stdpp Require Import strings gmap.
From S2P Require Import Prelude SelectorToken TopicKey TopicTree AclModule AclData AclReader AclMatch AclInvariant AclLoad AclMeaning.
From S2P Require Import AclCounters Acl AclSystem.
Local Open Scope nat_scope.

(** ** Decimal numbers *)

Definition digit (c : ascii) : option Z :=
  let n := Z.of_nat (nat_of_ascii c) in if (48 <=? n)%Z && (n <=? 57)%Z then Some (n - 48)%Z else None.

Fixpoint digits (acc : Z) (s : str) : option Z :=
  match s with [] => Some acc | c :: s' => d ← digit c; digits (acc * 10 + d)%Z s' end.

Definition decimal (bound : Z) (s : str) : option Z :=
  match s with
  | [] => None
  | _ => n ← digits 0 s; if (n <? bound)%Z then Some n else None
  end.

#[local] Instance decimal_cast : LexicalCast := {|
  lex_u16 := decimal (2 ^ 16);
  lex_u64 := decimal (2 ^ 64);
  lex_i64 := decimal (2 ^ 63)
|}.

Lemma decimals_agree x z : lex_i64 x = Some z -> (0 <= z)%Z -> lex_u64 x = Some z.
Proof.
  cbn. unfold decimal. destruct x as [|c x]; [done|]. destruct (digits 0 (c :: x)) as [n|]; [|done]. cbn [mbind option_bind].
  destruct (Z.ltb_spec n (2 ^ 63)); [|done]. intros [= ->] _. rewrite (proj2 (Z.ltb_lt _ _)) by lia. done.
Qed.

(** ** The file *)

Definition line (l : string) : str := s_ l ++ [newline].

Definition policy_file : str :=
  line "# who may do what" ++
  line "group admins bob@QPID ann@QPID" ++
  line "quota connections 1 all" ++
  line "quota queues 2 admins" ++
  line "acl allow admins create queue name=tmp.* queuemaxsizeupperlimit=1000" ++
  line "acl deny bob@QPID publish exchange name=amq.topic routingkey=a.#" ++
  line "acl allow all publish exchange" ++
  line "acl deny all all".

Definition values : AclValues := mkAclValues (s_ "policy.acl") 0 0 0 0.

Definition acl0 : Acl :=
  mkAcl values false new_AclData (new_ConnectionCounter 0 0 0) (new_ResourceCounter 0) false.

Lemma policy_read : (readAclFile (Some policy_file) acl0).2 = Ret true.
Proof. by vm_compute. Qed.

Definition acl1 : Acl := (readAclFile (Some policy_file) acl0).1.

Definition keys_ok (rs : list aclRule) : bool :=
  forallb (fun i => forallb (fun e => if decide (e.1 = SPECPROP_ROUTINGKEY) then bool_decide (one_hash e.2) else true) (ar_props i)) rs.

Lemma keys_ok_spec rs : keys_ok rs = true ->
  forall i v, i ∈ rs -> (SPECPROP_ROUTINGKEY, v) ∈ ar_props i -> one_hash v.
Proof.
  unfold keys_ok. rewrite forallb_forall. intros H i v Hi%list_elem_of_In Hv%list_elem_of_In. specialize (H i Hi).
  rewrite forallb_forall in H. specialize (H _ Hv). cbn [fst snd] in H. rewrite decide_True in H by done.
  by apply bool_decide_eq_true in H.
Qed.

Definition bob : str := s_ "bob@QPID".
Definition size_param (n : string) : option propertyMap := Some [(PROP_MAXQUEUESIZE, s_ n)].

Lemma bob_full : full_id bob.
Proof. by vm_compute. Qed.

Lemma acl1_read : readAclFile (Some policy_file) acl0 = (acl1, Ret true).
Proof. rewrite <- policy_read. apply surjective_pairing. Qed.

Lemma policy_keys : keys_ok (policy (file_rules values (Some policy_file))) = true.
Proof. by vm_compute. Qed.


(** ** Connections and queues under the file *)

Lemma acl_new : new_Acl values (Some policy_file) = Ret acl1.
Proof.
  transitivity (match readAclFile (Some policy_file) acl0 with
                | (a, Ret true) => Ret a | (_, Ret false) => Throw Exception | (_, Throw e) => Throw e
                end); [done|]. by rewrite acl1_read.
Qed.

Definition id1 : str := s_ "qpid.127.0.0.1:5672-127.0.0.1:40001".
Definition id2 : str := s_ "qpid.127.0.0.1:5672-127.0.0.1:40002".

(** the second connection is refused, and the third queue; after a deletion there is room for another *)
Definition busy_day : list acl_event :=
  [Connect id1; Open id1 bob; Connect id2; Open id2 bob; Close id2 bob; NewQueue bob (s_ "q1"); NewQueue bob (s_ "q2");
   NewQueue bob (s_ "q3"); EndQueue (s_ "q1"); NewQueue bob (s_ "q4"); Close id1 bob].

Definition busy_world : world := mkWorld (data acl1) [] [(s_ "q4", bob); (s_ "q2", bob)].
Definition busy_answers : list bool := [true; false; true; true; false; true].

Lemma busy_world_run : world_run values (mkWorld (data acl1) [] []) busy_day = Some (busy_world, busy_answers).
Proof. by vm_compute. Qed.



Lemma quota_line_exact_witness :
  let s := (read_file values (Some policy_file)).1 in
  let s' := (processQuotaLine [s_ "quota"; s_ "queues"; s_ "7"; s_ "admins"; s_ "joe@QPID"] s).1 in
  map_find (s_ "ann@QPID") (queueQuota s') = Some 7%Z /\ map_find (s_ "ann@QPID") (queueQuota s) = Some 2%Z.
Proof.
  cbv zeta. split; [|by vm_compute].
  pose proof (quota_line_exact [s_ "quota"; s_ "queues"; s_ "7"; s_ "admins"; s_ "joe@QPID"]
    (read_file values (Some policy_file)).1 (proj1 (read_file_inv values (Some policy_file)))) as H.
  cbv zeta in H. destruct (processQuotaLine _ _) as [s' o]. destruct H as (_ & _ & _ & _ & _ & H & _).
  cbn [fst]. rewrite (H (s_ "ann@QPID")). by vm_compute.
Defined.

(** limits of 1 for each user, and no policy file *)
Definition bare_values : AclValues := mkAclValues [] 1 0 0 1.

Lemma limits_need_a_file_witness :
  exists a a', new_Acl bare_values None = Ret a /\
    acl_run (map (NewQueue bob) [s_ "q1"; s_ "q2"; s_ "q3"]) a = (a', Ret [true; true; true]).
Proof.
  destruct (limits_need_a_file bare_values None eq_refl) as (a & Hn & Hq & _).
  - intros n Hn. repeat (apply elem_of_cons in Hn as [->|Hn]; [by vm_compute|]). by apply elem_of_nil in Hn.
  - destruct (Hq bob [s_ "q1"; s_ "q2"; s_ "q3"]) as (a' & Hr).
    + apply (bool_decide_eq_true_1 _). by vm_compute.
    + by vm_compute.
    + by exists a, a'.
Defined.

Lemma policy_reader_idle : contFlag (read_file values (Some policy_file)).1 = false.
Proof. by vm_compute. Qed.

